(* ===== verification/_CoqProject ===== *)
-Q . S2P
Prelude.v
GoStd.v
Strconv.v
Netip.v
Wire.v
Rendered.v
Uuid.v
Sha256.v
Identity.v
Policy.v
Validate.v
Registry.v
Compiler.v
NftAllocator.v
Enforce.v
MarksFile.v
NftRender.v
NftDelta.v
NftStore.v
AgentSync.v
GatewaySync.v
Gaps.v
Collect.v
Ingest.v
IngestService.v
Collector.v
CollectorProps.v
Authoring.v
Fleet.v
AuthoringFacts.v
Postgres.v
PolicyStore.v
RegistryStore.v
RegistryLaws.v
PolicyStoreFacts.v
PolicyStoreForm.v
PolicyStoreLaws.v
PolicyStoreProps.v
RegistryProps.v
RegistryStream.v
Token.v
Enroll.v
EnrollProps.v
Throttle.v
Password.v
Operator.v
Surface.v
OperatorProps.v
Flows.v
FlowReads.v
ReadModel.v
FlowsFacts.v
FlowsProps.v
ReadModelProps.v
FleetService.v
Credential.v
CredentialProps.v
Document.v
DocumentProps.v
Sources.v
SourcesProps.v
ApiWrites.v
ApiWritesProps.v
