(* ===== verification/Prelude.v ===== *)
(** * Innerwall: a verification development

    Innerwall is a microsegmentation system.  Operators author services, address
    groups and rulesets over labelled workloads; a control plane admits and stores
    them, compiles them into one allow-list per workload, and streams versioned
    updates to an agent on each host; the agent applies them as one nftables table,
    keeps them across restarts, and reports observed flows back.  This library is a
    shallow embedding of that path, from authored rule to packet verdict and back to
    flow record, with the theorems that make its parts correct.

    ** Components

    Authoring and admission (control plane)
    - [Policy.v]: the authored objects and which workloads a selector matches
      (src/internal/policy/model.go, version.go).
    - [Validate.v]: admission, with every finding, its path and its order (labels.go,
      validate.go).  [ruleset_ok] is the specification; the validators find nothing
      exactly when it holds.
    - [Document.v], [DocumentProps.v]: the documents an operator writes, and their conversion
      to the model and back (document.go).  [ruleset_read] is a strict reader of a document, to
      which the conversion followed by admission is equivalent.
    - [Authoring.v], [AuthoringFacts.v]: the authoring service (service.go) over the
      interface of its store (store.go).  The state is a [World]: the store, the ticks
      of the clock, the ids drawn, the renders run.  Other callers may change the store
      before every call of the service.  [AuthoredStore] is the interface and
      [AuthoredStoreLaws] its contract, as the comments of store.go state it.
    - [Postgres.v], [PolicyStore.v]: the tables and statements of the authored model
      (migrations/00002_policy.sql, queries/), and the store over them
      (src/internal/store/policy.go, and tx of store.go).  A statement, a commit, or the
      reply to one may fail.  [PolicyStoreFacts.v], [PolicyStoreForm.v] and
      [PolicyStoreLaws.v] prove the contract; [PolicyStoreProps.v] has the theorems over
      the store and runs the service on it.

    Registry and compiler (control plane)
    - [Identity.v]: workload ids and their SPIFFE URIs (src/internal/identity).
    - [Registry.v]: workloads, label versions, addresses (src/internal/registry).
    - [RegistryStore.v]: the workload tables and every write on them
      (src/internal/store/registry.go, fleet.go, render.go; queries/workloads.sql).
      [RegistryLaws.v] proves that the transactions keep the contracts of the engine and of
      the fleet service; [RegistryProps.v] has the theorems over the rows.
    - [Fleet.v]: enforcement mode changes and retirement (src/internal/fleet/fleet.go,
      retire.go), over the interfaces [ModeChangeTx] and [RetireTx].  [FleetService.v]: label
      writes, dry runs and directed reconnects (fleet.go, reconnect.go).
    - [Rendered.v]: the rendered policy, its canonical form, deltas and their
      application (src/internal/rendered).
    - [Compiler.v]: rendering, versioning, dry runs and the render transaction
      (src/internal/compiler).  [permits] is what a rendered policy allows; it is proved
      equal to what the authored rules say.

    Distribution
    - [GatewaySync.v]: one stream of the control plane, the goroutines that share its
      session as a step relation, and the liveness registry (src/internal/gateway/sync.go).
    - [AgentSync.v]: the agent's side of the stream (src/internal/agent/sync/daemon.go).
    - [RegistryStream.v]: the writes of a stream run on the registry's store.

    Enforcement (agent, src/internal/agent/enforce)
    - [Enforce.v]: durable writes on a disk that can crash at any step, the policy file,
      the presence watch.
    - [NftAllocator.v], [MarksFile.v]: connection marks of rules, and their file.
    - [NftRender.v], [NftDelta.v]: the nftables scripts, as text, as commands and by
      what they do to a packet.
    - [NftStore.v]: the store that applies policies, kernel and files together.

    Evidence (agent, src/internal/agent/collect, and control plane, src/internal/ingest)
    - [Sources.v], [SourcesProps.v]: the connection tracking and log sources (conntrack, nflog):
      events, the dump of the table, sightings, overruns, and the packet parser.
    - [Collect.v]: aggregation windows and the bounded buffer.  [Gaps.v]: the intervals
      of which evidence is missing.
    - [Collector.v], [CollectorProps.v]: the collector and reporter loops, as the
      interleaved goroutines of one pipeline from observation to accepted report.
    - [Ingest.v]: attributing a report's addresses, and reading its clock.
      [IngestService.v]: the service that converts a report, stores it, and derives the
      silences between reports, over the interface [IngestStore].
    - [Flows.v], [FlowReads.v]: the flow store, its tables of windows, totals and gaps, its
      writes, retention and reads, with a definition per statement (src/internal/flowstore,
      src/internal/store/db/flows.sql.go, batch.go).  [FlowsFacts.v] and [FlowsProps.v] have
      the reference semantics of a history, [totalOf] and [rowsOf], and the theorems.
    - [ReadModel.v], [ReadModelProps.v]: the operator's reads over the registry and the flow
      store (src/internal/readmodel): ranges, scopes, cursors, pages, rollups, gaps, rendered
      policies and the fleet.

    Enrolment and authentication of agents (control plane)
    - [Token.v]: enrolment tokens, their text, hash and validity (src/internal/enroll/token.go).
    - [Enroll.v], [EnrollProps.v]: minting and revoking tokens, enrolment, renewal, the
      signing authority and the interceptor that admits an agent's certificate
      (src/internal/enroll/service.go, src/internal/ca, src/internal/gateway/auth.go, and the
      statements of src/internal/store/store.go they run).

    - [Credential.v], [CredentialProps.v]: the agent's side of it: the key, certificate and
      bundle of the state directory, the calls that obtain them, and the renewer's loop with
      its two clocks and its float arithmetic (src/internal/agent/credential).

    Operators (control plane, src/internal/operator, src/internal/authn, src/internal/api)
    - [Password.v], [Operator.v]: the operator's password, sessions and tokens, the chain of
      verifiers, and the tables of src/internal/store/operator.go.
    - [Throttle.v]: the login throttle (src/internal/api/throttle.go).
    - [Surface.v], [OperatorProps.v]: the listener: origin guard, throttle, authentication and
      router in front of every route, and the handlers of the session (server.go, auth.go,
      csrf.go).

    - [ApiWrites.v], [ApiWritesProps.v]: the handlers of authored objects over the authoring
      service, with conditional requests and problems (writes.go, writes_encode.go).

    Shared: this file ([result], machine integers, canonical lists, tactics), [GoStd.v]
    (strings, decimal printing, trimming), [Strconv.v] (numbers read from text),
    [Netip.v] (net/netip), [Wire.v] (the messages
    of the protocol), [Sha256.v], [Uuid.v].

    ** What is a parameter

    Code outside the repository is a class of operations with its documented laws, and an
    executable instance for the witnesses: the UUID library ([UUIDLib]), the protobuf and
    JSON codecs ([PolicyCodec], [MarksCodec], [FactsCodec], [LabelsJSON]), X.509 parsing and signing
    ([X509Lib], [X509Laws]), the agent's keys and pairs ([CredentialLib], [CredentialLaws]), the key derivation of passwords ([Argon2Lib], [Argon2Laws]),
    parsing of URLs ([WebLib], [WebLaws]), the server's clock resolution and collation ([PgLib],
    [PgMicros]).  An interface of the program is a class too: [PolicyStore] between the
    agent's loop and its store, [RenderTx] between the engine and its transaction,
    [AuthoredStore] between the authoring service and its store, [ModeChangeTx] and
    [RetireTx] between the fleet service and its transactions, [IngestStore] under the
    ingest service.  The stores of
    the authored model and of the registry are implemented here and proved to keep the laws
    their clients are verified against.

    ** What the theorems show

    - From authored rule to verdict: admission is exact ([ValidateRuleset_exact]); a
      rendered policy permits exactly what the enabled rules, groups and services say
      ([Render_permits]); the nftables text implements it ([Render_implements]), and so does
      the kernel after any sequence of set updates ([RenderDelta_equivalent],
      [store_kernel_agrees]).
    - Authored objects: the SQL store implements its interface under failures
      ([PolicyStore_refines]); what is stored is admitted ([Authoring_keeps_admitted]); an
      edit of one rule changes that rule alone and loses no concurrent edit
      ([Rule_edits_exact]); what is written is read back ([Ruleset_roundtrip]).
      A document is accepted exactly when all of it reads and is admissible ([Document_exact]),
      and a ruleset survives its document ([Document_roundtrip]).
    - Versions and deltas: [Apply_Delta], [Plan_versions], [Canonical_spec], [Apply_outcome].
    - Operators: a request reaches a handler only from this origin and with a live credential,
      or as the login the throttle lets through ([Surface_guarded], [Router_exact]); a session
      lives from its login to its end or expiry ([Session_lifecycle]), an ended credential
      stays ended ([Credentials_final]), and password guessing is bounded ([Throttle_limits]).
      A request changes an authored object only at the version it names, but for the empty one
      ([Conditional_writes]).
    - Distribution: [sync_converges], [handleAck_recovers], [applyUpdate_acknowledges],
      [session_in_order], [live_not_offline].
    - Fleet: a mode change moves exactly the workloads it names or nothing
      ([ChangeMode_exact]); a retired workload is withdrawn from every policy in the same
      transaction ([Retire_withdraws]), its row stays as it is ([Retired_frozen]), and its
      agent is told so ([Retired_stream_refused]).  Every write of the registry keeps the rows
      well formed ([Registry_rows_sound]) and replaces addresses as a whole
      ([RecordFacts_addresses]).  A dry run predicts the render ([DryRun_predicts]).
    - Durability: [PolicyFile_Save_crash_safe], [Store_Apply_durable], [Allocate_stable],
      [Allocator_Save_load].
    - Enrolment: a call of an agent is let in exactly for the identity its leaf names, with
      the chain valid now, the leaf valid or within the renewal grace, and the workload not
      retired ([Authenticate_exact], [Renew_guarded]); enrolment admits exactly a valid token
      ([Enroll_exact]), which it is from minting to expiry or revocation ([Token_lifecycle]).
      The agent renews by the two-thirds mark of the older of two clocks, and retries without
      end ([Renewal_schedule]); a restart at any point finds its key and the certificate it
      presented, and a directory enrolled again is left alone ([Renewer_restart]).
    - Evidence: each inbound connection is counted once, whichever of the dump and the events is
      read first ([Connections_counted_once]), and a packet's headers are read at their places and
      never out of range ([Parse_reads], [Parse_total]); [Aggregator_window], [Gaps_never_lose], [Resolve_spec]; under every
      interleaving of the agent's loops each observed packet is shipped, waiting, or inside a
      gap ([Evidence_accounted]), and what is shipped is well formed for the ingest service
      ([Shipped_accepted]); every record and gap of a report is stored, or refused and
      counted ([Ingest_accounts]), and no two silences overlap ([Silences_disjoint]).
    - The flow store: the totals of every flow are those of the committed windows, after any
      history of writes, failures and pruning ([Flow_history_exact]); a run of the retention
      ends, and removes exactly what is older than its horizon ([Retention_exact]); following
      the cursors of the pages shows every flow once ([Flows_pages_complete],
      [Cursors_exact]); a rollup counts the records of its scope, and of nothing when the
      scope is empty ([Rollup_accounts]).
    - Behaviour that differs from what the code means or says: [push_overtakes_snapshot],
      [Restore_failure_diverges], [All_ports_lost], [Flows_max_page_stops],
      [Duplicate_service_fails], [racing_mispairs], [Save_interrupted],
      [masked_name_redirects], [reused_id_misattributes], [empty_tag_unconditional],
      [Resubmitted_rule_advances], [Equal_is_not_semantic],
      [Outcome_changed_without_changes].

    ** Bounds and fuel

    Recursion is structural except in a few loops, each with a measure as its fuel: trimming
    a string (its length), shrinking the pending gaps (their number), the characters of a set
    name (its length), the digits of an encoded integer (the integer's bits), the batches of a
    report (its records), the windows of the throttle (their number), spaces before a scanned
    number (the text's length), the batches of a retention run (the rows), a client's walk
    through pages (the rows).  In each case a
    lemma shows that the fuel suffices, so no theorem is about a loop that ran out.  Machine
    integers are [Z] with the wrap-around written out ([u16], [u32], [u64], [i64], [i32]);
    instants are integers of nanoseconds.

    ** Not modelled

    Process wiring, flags and logging; HTTP, gRPC and TLS transport; the netlink sockets;
    the encoding of certificates; the web client; the command line.  The
    handlers of the operator surface but those of the session and of the authored objects,
    JSON itself, and the statements
    that assemble the read model's workload records are within reach and not modelled. *)

From stdpp Require Export prelude gmap strings list sorting pretty.

(** ** Results *)

(** Go's [(value, error)] pairs: a call either returns its value or an error
    of the component's own error type. *)
Inductive result (E A : Type) : Type :=
| Ok (a : A)
| Err (e : E).
Arguments Ok {_ _} _.
Arguments Err {_ _} _.

#[export] Instance result_eq_dec {E A} `{EqDecision E, EqDecision A} :
  EqDecision (result E A).
Proof. solve_decision. Defined.

(** Sequencing is stdpp's [x ← c; k]: return the error of [c], or go on with
    its value. *)
#[export] Instance result_bind E : MBind (result E) := λ A B f r,
  match r with Ok a => f a | Err e => Err e end.
#[export] Instance result_ret E : MRet (result E) := λ A a, Ok a.

Lemma result_bind_Ok {E A B} (r : result E A) (f : A → result E B) b :
  r ≫= f = Ok b ↔ ∃ a, r = Ok a ∧ f a = Ok b.
Proof. destruct r; simpl; naive_solver. Qed.

(** ** Machine integers *)

Definition u16 (n : Z) : Z := n `mod` 2 ^ 16.
Definition u32 (n : Z) : Z := n `mod` 2 ^ 32.
Definition u64 (n : Z) : Z := n `mod` 2 ^ 64.

Lemma u64_small n : (0 ≤ n < 2 ^ 64)%Z → u64 n = n.
Proof. apply Z.mod_small. Qed.

Lemma u32_small n : (0 ≤ n < 2 ^ 32)%Z → u32 n = n.
Proof. apply Z.mod_small. Qed.

(** Two's complement reading of a 64-bit word: Go's [int64]. *)
Definition i64 (n : Z) : Z := ((n + 2 ^ 63) `mod` 2 ^ 64 - 2 ^ 63)%Z.

Lemma i64_small n : (- 2 ^ 63 ≤ n < 2 ^ 63)%Z → i64 n = n.
Proof. unfold i64. intros. rewrite Z.mod_small; lia. Qed.

Lemma u64_i64 n : u64 (i64 n) = u64 n.
Proof. unfold u64, i64. rewrite Zminus_mod_idemp_l. f_equal. lia. Qed.

(** ** Tactics *)

(** Split every conjunction of the context, and substitute. *)
Ltac destr_and := repeat match goal with H : _ ∧ _ |- _ => destruct H end.

(** Case analysis on the matches of the goal, cleaning up after each. *)
Ltac case_all := repeat (case_match; simplify_eq/=).

(** ** Lists *)

Lemma filter_nil_iff {A} (P : A → Prop) `{∀ x, Decision (P x)} (l : list A) :
  filter P l = [] ↔ ∀ x, x ∈ l → ¬ P x.
Proof.
  split.
  - intros H0 x Hx HP. by apply (filter_nil_not_elem_of P l x).
  - intros Hl. induction l as [|x l IH]; [done|]. rewrite filter_cons_False.
    + apply IH. intros y Hy. apply Hl. by right.
    + apply Hl. left.
Qed.

Lemma filter_all {A} (P : A → Prop) `{∀ x, Decision (P x)} (l : list A) :
  (∀ x, x ∈ l → P x) → filter P l = l.
Proof.
  intros Hl. induction l as [|x l IH]; [done|]. rewrite filter_cons_True.
  - f_equal. apply IH. intros y Hy. apply Hl. by right.
  - apply Hl. left.
Qed.

Lemma filter_fmap {A B} (f : A → B) (P : B → Prop) `{∀ x, Decision (P x)} (l : list A) :
  filter P (f <$> l) = f <$> filter (λ x, P (f x)) l.
Proof.
  induction l as [|x l IH]; [done|]. cbn [fmap list_fmap]. rewrite !filter_cons.
  by case_decide; cbn; rewrite IH.
Qed.

Lemma StronglySorted_snoc {A} (R : relation A) l x :
  StronglySorted R l → Forall (λ y, R y x) l → StronglySorted R (l ++ [x]).
Proof.
  induction 1 as [|y l Hs IH Hy]; intros Hx; cbn; [repeat constructor|].
  apply Forall_cons in Hx as [Hyx Hx]. constructor; [by apply IH|].
  apply Forall_app. split; [done|]. by constructor.
Qed.

(** Selecting by a key that determines the element. *)
Lemma filter_unique {A B} `{EqDecision B} (f : A → B) (l : list A) x :
  NoDup (f <$> l) → x ∈ l → filter (λ y, f y = f x) l = [x].
Proof.
  induction l as [|y l IH]; [by intros _ ?%elem_of_nil|].
  cbn [fmap list_fmap]. intros [Hy Hnd]%NoDup_cons Hx. rewrite filter_cons.
  apply elem_of_cons in Hx as [->|Hx].
  - rewrite decide_True by done. f_equal. apply filter_nil_iff.
    intros z Hz Heq. apply Hy. rewrite <-Heq. by apply list_elem_of_fmap_2.
  - rewrite decide_False; [by apply IH|]. intros Heq. apply Hy. rewrite Heq.
    by apply list_elem_of_fmap_2.
Qed.

(** ** Canonical lists: sorted without adjacent duplicates

    [sort.Slice]/[sort.Strings] followed by [slices.Compact] is how the
    program brings a list into canonical form.  [canon R l] is that
    composition for a total order [R]; its whole specification is
    [canon_eq_iff]: two lists have the same canonical form exactly when they
    have the same elements. *)

(** [slices.Compact]: keep the first of every run of equal elements. *)
Fixpoint compact {A} `{EqDecision A} (l : list A) : list A :=
  match l with
  | [] => []
  | x :: l' =>
      match l' with
      | [] => [x]
      | y :: _ => if decide (x = y) then compact l' else x :: compact l'
      end
  end.

Section canon.
Context {A : Type} `{EqDecision A} (R : relation A)
        `{!RelDecision R, !PartialOrder R, !Total R}.

Implicit Types (x y z : A) (l : list A).

Definition canon (l : list A) : list A := compact (merge_sort R l).

Lemma elem_of_compact x l : x ∈ compact l ↔ x ∈ l.
Proof.
  induction l as [|y l IH]; [done|]. destruct l as [|z l]; [done|].
  change (compact (y :: z :: l)) with
    (if decide (y = z) then compact (z :: l) else y :: compact (z :: l)).
  case_decide; subst; rewrite ?elem_of_cons, IH, ?elem_of_cons; naive_solver.
Qed.

Lemma elem_of_canon x l : x ∈ canon l ↔ x ∈ l.
Proof. unfold canon. by rewrite elem_of_compact, merge_sort_Permutation. Qed.

(** The strict order of [R]: what a canonical list is sorted by. *)
Definition strictly (x y : A) : Prop := R x y ∧ x ≠ y.

Lemma strictly_trans x y z : strictly x y → strictly y z → strictly x z.
Proof.
  intros [H1 N1] [H2 N2]. split; [by etrans|]. intros ->.
  apply N1. by apply (anti_symm R).
Qed.

Lemma compact_sorted l :
  StronglySorted R l → StronglySorted strictly (compact l).
Proof.
  induction l as [|y l IH]; [constructor|]. intros [Hs Hy]%StronglySorted_inv.
  destruct l as [|z l]; [repeat constructor|].
  change (compact (y :: z :: l)) with
    (if decide (y = z) then compact (z :: l) else y :: compact (z :: l)).
  case_decide as Hyz; [by apply IH|].
  constructor; [by apply IH|]. apply Forall_forall. intros x Hx.
  rewrite elem_of_compact in Hx. split.
  - rewrite Forall_forall in Hy. by apply Hy.
  - intros <-. apply Hyz. apply StronglySorted_inv in Hs as [_ Hz].
    rewrite Forall_forall in Hy, Hz. apply (anti_symm R).
    + apply Hy. left.
    + apply elem_of_cons in Hx as [->|Hx]; [reflexivity|]. by apply Hz.
Qed.

Lemma canon_sorted l : StronglySorted strictly (canon l).
Proof.
  apply compact_sorted, StronglySorted_merge_sort; apply _.
Qed.

Lemma strictly_sorted_ext l1 l2 :
  StronglySorted strictly l1 → StronglySorted strictly l2 →
  (∀ x, x ∈ l1 ↔ x ∈ l2) → l1 = l2.
Proof.
  intros H1 H2 Hext.
  assert (∀ l, StronglySorted strictly l → NoDup l) as Hnd.
  { clear. induction l as [|x l IH]; intros H; [constructor|].
    apply StronglySorted_inv in H as [H Hx]. constructor; [|by apply IH].
    intros Hin. rewrite Forall_forall in Hx. by destruct (Hx x Hin). }
  apply (StronglySorted_unique_strong strictly); [|done|done|].
  - intros x y _ _ [Hxy Hne] [Hyx _]. by apply (anti_symm R).
  - apply NoDup_Permutation; auto.
Qed.

Lemma canon_id l : StronglySorted strictly l → canon l = l.
Proof.
  intros Hl. apply strictly_sorted_ext; [apply canon_sorted|done|].
  intros x. apply elem_of_canon.
Qed.

Lemma canon_idemp l : canon (canon l) = canon l.
Proof. apply canon_id, canon_sorted. Qed.

Lemma canon_eq_iff l1 l2 : canon l1 = canon l2 ↔ ∀ x, x ∈ l1 ↔ x ∈ l2.
Proof.
  split.
  - intros Heq x. by rewrite <-(elem_of_canon x l1), Heq, elem_of_canon.
  - intros Hext. apply strictly_sorted_ext; [apply canon_sorted..|].
    intros x. by rewrite !elem_of_canon.
Qed.

Lemma canon_nil_iff l : canon l = [] ↔ l = [].
Proof.
  split; [|by intros ->]. intros H. destruct l as [|x l]; [done|].
  assert (x ∈ canon (x :: l)) as Hx by (apply elem_of_canon; left).
  rewrite H in Hx. by apply elem_of_nil in Hx.
Qed.

Lemma strictly_sorted_filter (P : A → Prop) `{∀ x, Decision (P x)} l :
  StronglySorted strictly l → StronglySorted strictly (filter P l).
Proof.
  induction l as [|x l IH]; intros Hs; [constructor|].
  apply StronglySorted_inv in Hs as [Hs Hx]. rewrite filter_cons.
  case_decide; [|by apply IH]. constructor; [by apply IH|].
  apply Forall_forall. intros y [_ Hy]%list_elem_of_filter.
  rewrite Forall_forall in Hx. by apply Hx.
Qed.

Lemma strictly_sorted_NoDup l : StronglySorted strictly l → NoDup l.
Proof.
  induction l as [|x l IH]; intros H; [constructor|].
  apply StronglySorted_inv in H as [H Hx]. constructor; [|by apply IH].
  intros Hin. rewrite Forall_forall in Hx. by destruct (Hx x Hin).
Qed.

(** Sorting alone, when the list has no duplicates. *)
Lemma sort_canon l : NoDup l → merge_sort R l = canon l.
Proof.
  intros Hnd. unfold canon.
  assert (∀ l, NoDup l → compact l = l) as Hc.
  { clear. induction l as [|x l IH]; [done|]. intros [Hx Hl]%NoDup_cons.
    destruct l as [|y l]; [done|].
    change (compact (x :: y :: l)) with
      (if decide (x = y) then compact (y :: l) else x :: compact (y :: l)).
    case_decide as Hxy; [|by rewrite IH]. subst. destruct Hx. left. }
  rewrite Hc; [done|]. by rewrite merge_sort_Permutation.
Qed.
End canon.
