(* ===== verification/GoStd.v ===== *)
(** * The parts of Go's standard library the program uses on strings

    [strings.TrimSpace], [strings.Join], [strings.Cut], [strings.TrimPrefix],
    [strings.ToLower]/[ToUpper], [strings.Contains] for one byte, and the
    decimal printing of [fmt]'s [%d].  A Go string is a sequence of bytes: a
    [string] of [ascii].  Sorting of strings is bytewise lexicographic, which is
    the order [String.le]. *)

From S2P Require Import Prelude.
From Stdlib Require Import Ascii.


#[global] Arguments String.append !_ _ /.

(** ** Basic facts on string concatenation *)

Lemma str_app_nil_r (s : string) : s +:+ "" = s.
Proof. induction s as [|c s IH]; [done|]. cbn. by f_equal. Qed.

Lemma str_app_assoc (a b c : string) : (a +:+ b) +:+ c = a +:+ (b +:+ c).
Proof. induction a as [|x a IH]; [done|]. cbn. by f_equal. Qed.

Lemma str_app_cons (x : ascii) (a b : string) :
  String x a +:+ b = String x (a +:+ b).
Proof. done. Qed.

Lemma str_length_app (a b : string) :
  String.length (a +:+ b) = String.length a + String.length b.
Proof. induction a as [|x a IH]; [done|]. cbn. by rewrite IH. Qed.

Lemma str_app_inj_r (a b c : string) : a +:+ c = b +:+ c → a = b.
Proof.
  revert b. induction a as [|x a IH]; intros [|y b] H; [done|..].
  - exfalso. apply (f_equal String.length) in H.
    cbn in H. rewrite ?str_length_app in H. lia.
  - exfalso. apply (f_equal String.length) in H.
    cbn in H. rewrite ?str_length_app in H. lia.
  - cbn in H. injection H as -> H. f_equal. by apply IH.
Qed.

Create Rewrite HintDb gostr.
#[export] Hint Rewrite str_app_nil_r str_app_assoc str_app_cons : gostr.

(** ** Searching *)

(** [strings.Contains(s, c)] for a one-byte [c]. *)
Fixpoint contains_byte (c : ascii) (s : string) : bool :=
  match s with
  | "" => false
  | String d s' => if decide (c = d) then true else contains_byte c s'
  end.

Lemma contains_byte_app c a b :
  contains_byte c (a +:+ b) = contains_byte c a || contains_byte c b.
Proof.
  induction a as [|d a IH]; [done|]. cbn. case_decide; [done|]. apply IH.
Qed.

(** [strings.HasPrefix] with the remainder. *)
Fixpoint strip_prefix (p s : string) : option string :=
  match p, s with
  | "", _ => Some s
  | String c p', String d s' => if decide (c = d) then strip_prefix p' s' else None
  | _, _ => None
  end.

Lemma strip_prefix_Some p s r : strip_prefix p s = Some r ↔ s = p +:+ r.
Proof.
  revert s. induction p as [|c p IH]; intros s; cbn; [naive_solver|].
  destruct s as [|d s]; [naive_solver|]. case_decide as Hc.
  - subst. rewrite IH. split; [by intros ->|]. intros H. by injection H.
  - split; [done|]. intros H. by injection H.
Qed.

(** [strings.TrimPrefix]. *)
Definition TrimPrefix (s p : string) : string := default s (strip_prefix p s).

(** [strings.Cut(s, sep)] for a one-byte separator: around its first
    occurrence. *)
Fixpoint Cut (s : string) (sep : ascii) : option (string * string) :=
  match s with
  | "" => None
  | String c s' =>
      if decide (c = sep) then Some ("", s')
      else match Cut s' sep with
           | Some (a, b) => Some (String c a, b)
           | None => None
           end
  end.

Lemma Cut_app a b sep :
  contains_byte sep a = false → Cut (a +:+ String sep b) sep = Some (a, b).
Proof.
  induction a as [|c a IH]; cbn; intros H.
  - by rewrite decide_True.
  - case_decide; [done|]. rewrite decide_False by done. by rewrite IH.
Qed.

Lemma Cut_None s sep : contains_byte sep s = false → Cut s sep = None.
Proof.
  induction s as [|c s IH]; cbn; [done|]. case_decide; [done|].
  intros H'. rewrite decide_False by done. by rewrite IH.
Qed.

(** Around the last occurrence ([bytealg.LastIndexByteString]). *)
Fixpoint CutLast (s : string) (sep : ascii) : option (string * string) :=
  match s with
  | "" => None
  | String c s' =>
      match CutLast s' sep with
      | Some (a, b) => Some (String c a, b)
      | None => if decide (c = sep) then Some ("", s') else None
      end
  end.

Lemma CutLast_None s sep : contains_byte sep s = false → CutLast s sep = None.
Proof.
  induction s as [|c s IH]; cbn; [done|]. case_decide; [done|].
  intros H'. rewrite IH by done. by rewrite decide_False.
Qed.

Lemma CutLast_app a b sep :
  contains_byte sep b = false → CutLast (a +:+ String sep b) sep = Some (a, b).
Proof.
  intros Hb. induction a as [|c a IH]; cbn.
  - rewrite (CutLast_None b) by done. by rewrite decide_True.
  - by rewrite IH.
Qed.

(** [strings.Split] at a one-byte separator. *)
Fixpoint Split (s : string) (sep : ascii) : list string :=
  match s with
  | "" => [""]
  | String c s' =>
      if decide (c = sep) then "" :: Split s' sep
      else match Split s' sep with
           | x :: l => String c x :: l
           | [] => []
           end
  end.

Lemma Split_single s sep : contains_byte sep s = false → Split s sep = [s].
Proof.
  induction s as [|c s IH]; cbn; [done|]. case_decide; [done|].
  intros H'. rewrite decide_False by done. by rewrite IH.
Qed.

Lemma Split_app a b sep : contains_byte sep a = false → Split (a +:+ String sep b) sep = a :: Split b sep.
Proof.
  induction a as [|c a IH]; cbn; intros H.
  - by rewrite decide_True.
  - case_decide; [done|]. rewrite decide_False by done. by rewrite IH.
Qed.

(** ** Joining and printing *)

(** [strings.Join]. *)
Fixpoint Join (l : list string) (sep : string) : string :=
  match l with
  | [] => ""
  | [x] => x
  | x :: l' => x +:+ sep +:+ Join l' sep
  end.

Lemma Join_cons x l sep :
  l ≠ [] → Join (x :: l) sep = x +:+ sep +:+ Join l sep.
Proof. by destruct l. Qed.

(** [strconv.FormatInt(v, 10)], [fmt]'s [%d]. *)
Definition FormatInt (v : Z) : string := pretty v.

Lemma FormatInt_nonempty v : FormatInt v ≠ "".
Proof.
  assert (∀ x s, s ≠ "" → pretty_N_go x s ≠ "") as Hgo.
  { intros x. induction (N.lt_wf_0 x) as [x _ IH]. intros s Hs.
    destruct (decide (x = 0)%N) as [->|Hx]; [by rewrite pretty_N_go_0|].
    rewrite pretty_N_go_step by lia. apply IH; [apply N.div_lt; lia|done]. }
  unfold FormatInt, pretty, pretty_Z. destruct v as [|p|p]; [done| |done].
  unfold pretty, pretty_positive, pretty, pretty_N. rewrite decide_False by done.
  rewrite pretty_N_go_step by lia. by apply Hgo.
Qed.

#[export] Instance FormatInt_inj : Inj (=) (=) FormatInt.
Proof. unfold FormatInt. apply _. Qed.

(** ** Letter case *)

Definition in_range (lo hi : ascii) (c : ascii) : bool :=
  bool_decide (N_of_ascii lo ≤ N_of_ascii c ≤ N_of_ascii hi)%N.

Definition is_lower := in_range "a" "z".
Definition is_upper := in_range "A" "Z".
Definition is_digit := in_range "0" "9".

Definition lower_byte (c : ascii) : ascii :=
  if is_upper c then ascii_of_N (N_of_ascii c + 32) else c.
Definition upper_byte (c : ascii) : ascii :=
  if is_lower c then ascii_of_N (N_of_ascii c - 32) else c.

(** [strings.ToLower] on ASCII text, which is all it is used on. *)
Fixpoint ToLower (s : string) : string :=
  match s with
  | "" => ""
  | String c s' => String (lower_byte c) (ToLower s')
  end.

(** [strings.ToUpper].  Two runes outside ASCII have an ASCII upper case: the
    dotless i (bytes C4 B1) maps to I and the long s (bytes C5 BF) to S.  Every
    other rune outside ASCII maps outside ASCII; its bytes are kept here, which
    is the same for a comparison with ASCII text. *)
Fixpoint ToUpper (s : string) : string :=
  match s with
  | "" => ""
  | String "196"%char (String "177"%char s') => String "I" (ToUpper s')
  | String "197"%char (String "191"%char s') => String "S" (ToUpper s')
  | String c s' => String (upper_byte c) (ToUpper s')
  end.

(** ** [strings.TrimSpace] *)

(** The UTF-8 encodings of the runes [unicode.IsSpace] accepts. *)
Definition bytes (l : list N) : string :=
  foldr (λ n s, String (ascii_of_N n) s) "" l.

Definition space_runes : list string :=
  bytes <$> [[9]; [10]; [11]; [12]; [13]; [32];
   [194; 133]; [194; 160]; [225; 154; 128];
   [226; 128; 128]; [226; 128; 129]; [226; 128; 130]; [226; 128; 131];
   [226; 128; 132]; [226; 128; 133]; [226; 128; 134]; [226; 128; 135];
   [226; 128; 136]; [226; 128; 137]; [226; 128; 138];
   [226; 128; 168]; [226; 128; 169]; [226; 128; 175]; [226; 129; 159];
   [227; 128; 128]]%N.

(** The remainder of [s] after one leading space rune. *)
Definition strip_space (s : string) : option string :=
  list_find (λ p, is_Some (strip_prefix p s)) space_runes ≫= λ '(_, p), strip_prefix p s.

(** The part of [s] before one trailing space rune. *)
Fixpoint strip_suffix (p s : string) : option string :=
  if decide (s = p) then Some ""
  else match s with
       | "" => None
       | String c s' => String c <$> strip_suffix p s'
       end.

Definition strip_space_end (s : string) : option string :=
  list_find (λ p, is_Some (strip_suffix p s)) space_runes ≫= λ '(_, p), strip_suffix p s.

(** Strip until nothing strips; [fuel] bounds the number of runes, and the
    length of the string is enough since every rune has a byte. *)
Fixpoint trim_with (strip : string → option string) (fuel : nat) (s : string) : string :=
  match fuel with
  | O => s
  | S fuel' => match strip s with
               | Some s' => trim_with strip fuel' s'
               | None => s
               end
  end.

Definition TrimLeftSpace (s : string) : string := trim_with strip_space (String.length s) s.
Definition TrimRightSpace (s : string) : string := trim_with strip_space_end (String.length s) s.
Definition TrimSpace (s : string) : string := TrimRightSpace (TrimLeftSpace s).

(** What a strip function must do for [trim_with] to reach a fixed point:
    consume at least one byte. *)
Lemma trim_with_stuck strip fuel s :
  (∀ a b, strip a = Some b → String.length b < String.length a) →
  (String.length s ≤ fuel)%nat → strip (trim_with strip fuel s) = None.
Proof.
  intros Hdec. revert s. induction fuel as [|fuel IH]; intros s Hs; cbn.
  - destruct (strip s) eqn:E; [|done]. apply Hdec in E. lia.
  - destruct (strip s) eqn:E; [|done]. apply IH. apply Hdec in E. lia.
Qed.

Lemma trim_with_None strip fuel s : strip s = None → trim_with strip fuel s = s.
Proof. destruct fuel; [done|]. cbn. by intros ->. Qed.

Lemma space_runes_nonempty p : p ∈ space_runes → String.length p ≠ 0.
Proof.
  assert (Forall (λ p, String.length p ≠ 0) space_runes) as H
    by (apply (bool_decide_unpack _); vm_compute; done).
  rewrite Forall_forall in H. apply H.
Qed.

Lemma strip_space_Some s r :
  strip_space s = Some r → ∃ p, p ∈ space_runes ∧ s = p +:+ r.
Proof.
  unfold strip_space. intros ([i p] & Hf & Hr)%bind_Some.
  apply list_find_Some in Hf as (Hp & _ & _).
  apply strip_prefix_Some in Hr. eauto using list_elem_of_lookup_2.
Qed.

Lemma strip_space_None s :
  strip_space s = None ↔ ∀ p r, p ∈ space_runes → s ≠ p +:+ r.
Proof.
  split.
  - unfold strip_space. intros H p r Hp ->.
    apply bind_None in H as [H|([i q] & Hf & Hn)].
    + eapply list_find_None in H. rewrite Forall_forall in H.
      apply (H p Hp). exists r. by apply strip_prefix_Some.
    + apply list_find_Some in Hf as (_ & [r' Hr'] & _). congruence.
  - intros H. destruct (strip_space s) eqn:E; [|done].
    apply strip_space_Some in E as (p & Hp & ->). by destruct (H p s0 Hp).
Qed.

Lemma strip_suffix_Some p s r : strip_suffix p s = Some r → s = r +:+ p.
Proof.
  revert r. induction s as [|c s IH]; intros r; cbn; case_decide; subst.
  - by intros [= <-].
  - done.
  - by intros [= <-].
  - intros (r' & Hr & ->)%fmap_Some. cbn. f_equal. by apply IH.
Qed.

Lemma strip_suffix_app r p : strip_suffix p (r +:+ p) = Some r.
Proof.
  induction r as [|c r IH]; cbn.
  - destruct p; cbn; by rewrite decide_True.
  - rewrite decide_False; [by rewrite IH|]. intros H.
    apply (f_equal String.length) in H. cbn in H. rewrite str_length_app in H. lia.
Qed.

Lemma strip_space_end_Some s r :
  strip_space_end s = Some r → ∃ p, p ∈ space_runes ∧ s = r +:+ p.
Proof.
  unfold strip_space_end. intros ([i p] & Hf & Hr)%bind_Some.
  apply list_find_Some in Hf as (Hp & _ & _).
  apply strip_suffix_Some in Hr. eauto using list_elem_of_lookup_2.
Qed.

(** Trimming on the right leaves a prefix. *)
Lemma trim_right_prefix fuel s : ∃ t, s = trim_with strip_space_end fuel s +:+ t.
Proof.
  revert s. induction fuel as [|fuel IH]; intros s; cbn [trim_with].
  - exists "". by autorewrite with gostr.
  - destruct (strip_space_end s) as [r|] eqn:E.
    + apply strip_space_end_Some in E as (p & _ & ->). destruct (IH r) as [t Ht].
      exists (t +:+ p). by rewrite <-str_app_assoc, <-Ht.
    + exists "". by autorewrite with gostr.
Qed.

Lemma strip_space_shorter a b :
  strip_space a = Some b → String.length b < String.length a.
Proof.
  intros (p & Hp & ->)%strip_space_Some. rewrite str_length_app.
  apply space_runes_nonempty in Hp. lia.
Qed.

Lemma strip_space_end_shorter a b :
  strip_space_end a = Some b → String.length b < String.length a.
Proof.
  intros (p & Hp & ->)%strip_space_end_Some. rewrite str_length_app.
  apply space_runes_nonempty in Hp. lia.
Qed.

Lemma TrimSpace_left s : strip_space (TrimSpace s) = None.
Proof.
  apply strip_space_None. intros p r Hp Heq.
  destruct (trim_right_prefix (String.length (TrimLeftSpace s)) (TrimLeftSpace s))
    as [t Ht].
  assert (strip_space (TrimLeftSpace s) = None) as Hn.
  { apply trim_with_stuck; [apply strip_space_shorter|lia]. }
  rewrite strip_space_None in Hn. apply (Hn p (r +:+ t) Hp).
  rewrite Ht. unfold TrimSpace, TrimRightSpace in Heq. rewrite Heq.
  apply str_app_assoc.
Qed.

Lemma TrimSpace_right s : strip_space_end (TrimSpace s) = None.
Proof. apply trim_with_stuck; [apply strip_space_end_shorter|lia]. Qed.

(** A string that neither starts nor ends with a space rune is unchanged. *)
Lemma TrimSpace_id s :
  strip_space s = None → strip_space_end s = None → TrimSpace s = s.
Proof.
  intros H1 H2. unfold TrimSpace, TrimLeftSpace, TrimRightSpace.
  by rewrite (trim_with_None strip_space), (trim_with_None strip_space_end).
Qed.

Lemma TrimSpace_idemp s : TrimSpace (TrimSpace s) = TrimSpace s.
Proof. apply TrimSpace_id; [apply TrimSpace_left|apply TrimSpace_right]. Qed.
