(* ===== verification/Strconv.v ===== *)
(** * Numbers and names as text

    [strconv.ParseUint] and [strconv.ParseInt] in base 10 with what they read back, and
    [strings.ToLower] for the comparison with ASCII names. *)

From S2P Require Import Prelude GoStd.
From Stdlib Require Import Ascii.
Local Open Scope Z_scope.

(** [strings.ToLower] as far as a comparison with ASCII names goes: two runes outside ASCII
    have an ASCII lower case, the dotted capital I (bytes C4 B0), which maps to i, and the
    Kelvin sign (bytes E2 84 AA), which maps to k. *)
Fixpoint lowerName (s : string) : string :=
  match s with
  | "" => ""
  | String "196"%char (String "176"%char s') => String "i" (lowerName s')
  | String "226"%char (String "132"%char (String "170"%char s')) => String "k" (lowerName s')
  | String c s' => String (lower_byte c) (lowerName s')
  end%string.

(** ** Numbers as text *)

(** [strconv.ParseUint] and [strconv.ParseInt] in base 10. *)
Fixpoint parseDigits (acc : Z) (s : string) : option Z :=
  match s with
  | EmptyString => Some acc
  | String c s' =>
      let d := Z.of_N (N_of_ascii c) - 48 in
      if decide (0 ≤ d ≤ 9) then parseDigits (10 * acc + d) s' else None
  end.
Definition ParseUint (bits : Z) (s : string) : option Z :=
  match s with
  | EmptyString => None
  | _ => n ← parseDigits 0 s; if decide (n < 2 ^ bits) then Some n else None
  end.
Definition ParseInt (bits : Z) (s : string) : option Z :=
  let '(neg, digits) := match s with
    | String "+"%char s' => (false, s')
    | String "-"%char s' => (true, s')
    | _ => (false, s)
    end in
  match digits with
  | EmptyString => None
  | _ => n ← parseDigits 0 digits;
         let n := if neg : bool then - n else n in
         if decide (- 2 ^ (bits - 1) ≤ n < 2 ^ (bits - 1)) then Some n else None
  end.

(** ** What is printed is read *)

Lemma digit_value x : (x < 10)%N → Z.of_N (N_of_ascii (pretty_N_char x)) - 48 = Z.of_N x.
Proof.
  intros Hx. assert (x = 0 ∨ x = 1 ∨ x = 2 ∨ x = 3 ∨ x = 4 ∨ x = 5 ∨ x = 6 ∨ x = 7 ∨ x = 8 ∨ x = 9)%N as Hc by lia.
  repeat (destruct Hc as [-> |Hc]; [done|]). by subst.
Qed.

Lemma parseDigits_pretty x s : parseDigits 0 (pretty_N_go x s) = parseDigits (Z.of_N x) s.
Proof.
  revert s. induction (N.lt_wf_0 x) as [x _ IH]; intros s. assert (x = 0 ∨ 0 < x)%N as [->|Hx] by lia; [done|].
  rewrite pretty_N_go_step by done. rewrite IH by (by apply N.div_lt). cbn [parseDigits].
  rewrite digit_value by (by apply N.mod_lt).
  assert (x `mod` 10 < 10)%N as Hlt by (by apply N.mod_lt).
  pose proof (N.div_mod x 10 ltac:(done)) as Hdm. revert Hlt Hdm. generalize (x `mod` 10)%N (x `div` 10)%N. intros m q Hlt Hdm.
  rewrite decide_True by lia. f_equal. lia.
Qed.

Lemma pretty_go_first x s c s' : (0 < x)%N → pretty_N_go x s = String c s' → c ≠ "-"%char ∧ c ≠ "+"%char ∧ c ≠ "|"%char.
Proof.
  revert s c s'. induction (N.lt_wf_0 x) as [x _ IH]; intros s c s' Hx. rewrite pretty_N_go_step by done.
  destruct (N.eq_0_gt_0_cases (x `div` 10)) as [Hz|Hd].
  - rewrite Hz, pretty_N_go_0. intros [= <- <-]. unfold pretty_N_char. repeat case_match; done.
  - apply IH; [by apply N.div_lt|done].
Qed.

(** What is printed is parsed as it was. *)
Lemma ParseInt_FormatInt bits n : - 2 ^ (bits - 1) ≤ n < 2 ^ (bits - 1) → ParseInt bits (FormatInt n) = Some n.
Proof.
  intros Hn. unfold FormatInt, pretty, pretty_Z.
  assert (∀ p, ∃ c s, pretty p = String c s ∧ c ≠ "-"%char ∧ c ≠ "+"%char ∧ parseDigits 0 (String c s) = Some (Zpos p)) as Hp.
  { intros p. change (pretty p) with (pretty (Npos p)). unfold pretty, pretty_N. rewrite decide_False by done. destruct (pretty_N_go (Npos p) "") as [|c s] eqn:E.
    - pose proof (parseDigits_pretty (Npos p) "") as Hd. rewrite E in Hd. done.
    - destruct (pretty_go_first (Npos p) "" c s ltac:(lia) E) as (? & ? & _). exists c, s. split; [done|]. split; [done|]. split; [done|].
      rewrite <-E, parseDigits_pretty. done. }
  destruct n as [|p|p].
  - unfold ParseInt. assert (parseDigits 0 "0" = Some 0) as -> by done. cbn [mbind option_bind]. by rewrite decide_True.
  - destruct (Hp p) as (c & s & -> & Hm & Hpl & Hd). unfold ParseInt.
    assert ((match String c s with String "+" s' => (false, s') | String "-" s' => (true, s') | _ => (false, String c s) end) = (false, String c s)) as ->.
    { destruct c as [[] [] [] [] [] [] [] []]; done. }
    rewrite Hd. cbn [mbind option_bind]. by rewrite decide_True.
  - destruct (Hp p) as (c & s & -> & Hm & Hpl & Hd). change ("-" +:+ String c s) with (String "-" (String c s)). unfold ParseInt.
    rewrite Hd. cbn [mbind option_bind]. by rewrite decide_True.
Qed.

(** A byte that is neither a digit nor the sign is not in it. *)
Definition numeral (c : ascii) : bool := is_digit c || bool_decide (c = "-"%char).
Lemma pretty_N_char_digit x : is_digit (pretty_N_char x) = true.
Proof. unfold pretty_N_char. repeat case_match; vm_compute; done. Qed.
Lemma pretty_go_free b x s : is_digit b = false → contains_byte b s = false → contains_byte b (pretty_N_go x s) = false.
Proof.
  intros Hb. revert s. induction (N.lt_wf_0 x) as [x _ IH]; intros s Hs. assert (x = 0 ∨ 0 < x)%N as [->|Hx] by lia; [done|].
  rewrite pretty_N_go_step by done. apply IH; [by apply N.div_lt|]. cbn. rewrite decide_False; [done|].
  intros ->. by rewrite pretty_N_char_digit in Hb.
Qed.
Lemma pretty_free b p : is_digit b = false → contains_byte b (pretty (Npos p)) = false.
Proof. intros Hb. unfold pretty, pretty_N. rewrite decide_False by done. by apply pretty_go_free. Qed.
Lemma FormatInt_free b n : numeral b = false → contains_byte b (FormatInt n) = false.
Proof.
  unfold numeral. intros [Hd Hm]%orb_false_iff. apply bool_decide_eq_false in Hm.
  unfold FormatInt, pretty, pretty_Z. destruct n as [|p|p].
  - cbn. rewrite decide_False; [done|]. by intros ->.
  - by apply (pretty_free b p).
  - change (contains_byte b (String "-" (pretty (Npos p))) = false). cbn [contains_byte]. rewrite decide_False by done. by apply pretty_free.
Qed.
Lemma FormatInt_nonneg_free b n : is_digit b = false → 0 ≤ n → contains_byte b (FormatInt n) = false.
Proof.
  intros Hb Hn. unfold FormatInt, pretty, pretty_Z. destruct n as [|p|p]; [|by apply (pretty_free b p)|lia].
  cbn. rewrite decide_False; [done|]. by intros ->.
Qed.
