(* ===== verification/Netip.v ===== *)
(** * Go's [net/netip]: addresses and prefixes

    The program leans on [netip] for everything it does with addresses:
    [ParseAddr], [ParsePrefix], [Addr.String], [Prefix.String],
    [Prefix.Masked], [Addr.Unmap], [Prefix.Contains] and [Addr.Less] decide
    which textual forms of a peer are equal, and hence when a rendered policy
    has changed.  This file models those functions on the program's own
    representation of text (byte strings), with an IPv4 address as a 32-bit and
    an IPv6 address as a 128-bit integer, and proves that parsing inverts
    printing ([ParsePrefix_String]). *)

From S2P Require Import Prelude GoStd.
From Stdlib Require Import Ascii.

Local Open Scope Z_scope.

(** ** Fixed-length digit expansions *)

(** The [n] least significant digits of [a] in base [b], least significant
    first. *)
Fixpoint to_le (b : Z) (n : nat) (a : Z) : list Z :=
  match n with
  | O => []
  | S n' => a `mod` b :: to_le b n' (a `div` b)
  end.

Fixpoint of_le (b : Z) (ds : list Z) : Z :=
  match ds with
  | [] => 0
  | d :: ds' => d + b * of_le b ds'
  end.

(** Most significant digit first, as addresses are written. *)
Definition to_be (b : Z) (n : nat) (a : Z) : list Z := reverse (to_le b n a).
Definition of_be (b : Z) (ds : list Z) : Z := of_le b (reverse ds).

Definition digit (b d : Z) : Prop := 0 ≤ d < b.

Section digits.
Context (b : Z) (Hb : 0 < b).

Lemma to_le_of_le ds : Forall (digit b) ds → to_le b (length ds) (of_le b ds) = ds.
Proof.
  induction 1 as [|d ds Hd _ IH]; [done|]. cbn. unfold digit in Hd. f_equal.
  - rewrite Z.mul_comm, Z_mod_plus_full. by apply Z.mod_small.
  - rewrite Z.mul_comm, Z.div_add, Z.div_small by lia. by rewrite Z.add_0_l.
Qed.

Lemma of_le_to_le n a : 0 ≤ a < b ^ Z.of_nat n → of_le b (to_le b n a) = a.
Proof.
  revert a. induction n as [|n IH]; intros a Ha; cbn.
  - change (b ^ Z.of_nat 0) with 1 in Ha. lia.
  - rewrite IH; [pose proof (Z.div_mod a b); lia|]. split.
    + apply Z.div_pos; lia.
    + apply Z.div_lt_upper_bound; [done|].
      rewrite <-Z.pow_succ_r by lia. rewrite <-Nat2Z.inj_succ. lia.
Qed.

Lemma to_le_digits n a : Forall (digit b) (to_le b n a).
Proof.
  revert a. induction n as [|n IH]; intros a; constructor; [|apply IH].
  by apply Z.mod_pos_bound.
Qed.

Lemma of_le_bound ds : Forall (digit b) ds → 0 ≤ of_le b ds < b ^ Z.of_nat (length ds).
Proof.
  induction 1 as [|d ds Hd _ IH]; cbn [of_le length]; [change (b ^ Z.of_nat 0) with 1; lia|].
  unfold digit in Hd. rewrite Nat2Z.inj_succ, Z.pow_succ_r by lia. nia.
Qed.
End digits.

Lemma length_to_le b n a : length (to_le b n a) = n.
Proof. revert a. induction n as [|n IH]; intros a; cbn; by rewrite ?IH. Qed.

Lemma length_to_be b n a : length (to_be b n a) = n.
Proof. unfold to_be. by rewrite length_reverse, length_to_le. Qed.

Lemma to_be_digits b n a : 0 < b → Forall (digit b) (to_be b n a).
Proof. intros. by apply Forall_reverse, to_le_digits. Qed.

Lemma of_be_to_be b n a :
  0 < b → 0 ≤ a < b ^ Z.of_nat n → of_be b (to_be b n a) = a.
Proof. intros. unfold of_be, to_be. rewrite reverse_involutive. by apply of_le_to_le. Qed.

Lemma to_be_of_be b n ds :
  0 < b → Forall (digit b) ds → length ds = n → to_be b n (of_be b ds) = ds.
Proof.
  intros Hb Hds <-. unfold to_be, of_be.
  rewrite <-(length_reverse ds), to_le_of_le; [apply reverse_involutive|done|].
  by apply Forall_reverse.
Qed.

Lemma of_be_bound b ds :
  0 < b → Forall (digit b) ds → 0 ≤ of_be b ds < b ^ Z.of_nat (length ds).
Proof.
  intros. unfold of_be. rewrite <-(length_reverse ds). apply of_le_bound; [done|].
  by apply Forall_reverse.
Qed.

(** ** Addresses *)

(** [netip.Addr]: the zero value, an IPv4 address, or an IPv6 address with its
    zone (empty when it has none). *)
Inductive Addr :=
| AddrZero
| Addr4 (a : Z)
| Addr6 (a : Z) (zone : string).

#[export] Instance Addr_eq_dec : EqDecision Addr.
Proof. solve_decision. Defined.

#[export] Instance Addr_countable : Countable Addr.
Proof.
  refine (inj_countable'
    (λ x, match x with
          | AddrZero => inl ()
          | Addr4 a => inr (inl a)
          | Addr6 a z => inr (inr (a, z))
          end)
    (λ y, match y with
          | inl _ => AddrZero
          | inr (inl a) => Addr4 a
          | inr (inr (a, z)) => Addr6 a z
          end) _).
  by intros [].
Defined.

(** What every [Addr] the library hands out satisfies. *)
Definition Addr_ok (x : Addr) : Prop :=
  match x with
  | AddrZero => True
  | Addr4 a => 0 ≤ a < 2 ^ 32
  | Addr6 a _ => 0 ≤ a < 2 ^ 128
  end.

Definition Is4 (x : Addr) : bool := if x is Addr4 _ then true else false.
Definition Is6 (x : Addr) : bool := if x is Addr6 _ _ then true else false.

Definition BitLen (x : Addr) : Z :=
  match x with AddrZero => 0 | Addr4 _ => 32 | Addr6 _ _ => 128 end.

(** An IPv4-mapped IPv6 address: its upper 96 bits are ::ffff. *)
Definition mapped (a : Z) : bool := bool_decide (Z.shiftr a 32 = 65535).

Definition Is4In6 (x : Addr) : bool :=
  if x is Addr6 a _ then mapped a else false.

(** [Addr.Unmap]. *)
Definition Unmap (x : Addr) : Addr :=
  match x with
  | Addr6 a _ => if mapped a then Addr4 (a `mod` 2 ^ 32) else x
  | _ => x
  end.

Definition withoutZone (x : Addr) : Addr :=
  if x is Addr6 a _ then Addr6 a "" else x.

Definition octets (a : Z) : list Z := to_be 256 4 a.
Definition groups (a : Z) : list Z := to_be 65536 8 a.

(** ** Printing *)

Definition hex_digit (d : Z) : ascii :=
  let n := Z.to_N d in
  if bool_decide (d < 10) then ascii_of_N (48 + n) else ascii_of_N (87 + n).

(** [appendHex]: no leading zeros, at least one digit. *)
Definition hex16 (x : Z) : string :=
  let d3 := x `div` 4096 in
  let d2 := (x `div` 256) `mod` 16 in
  let d1 := (x `div` 16) `mod` 16 in
  let d0 := x `mod` 16 in
  let tail0 := String (hex_digit d0) "" in
  if bool_decide (4096 ≤ x) then
    String (hex_digit d3) (String (hex_digit d2) (String (hex_digit d1) tail0))
  else if bool_decide (256 ≤ x) then String (hex_digit d2) (String (hex_digit d1) tail0)
  else if bool_decide (16 ≤ x) then String (hex_digit d1) tail0
  else tail0.

Definition string4 (a : Z) : string := Join (FormatInt <$> octets a) ".".

(** The length of the run of zero groups that starts [gs]. *)
Fixpoint zeros (gs : list Z) : nat :=
  match gs with
  | g :: gs' => if decide (g = 0) then S (zeros gs') else O
  | [] => O
  end.

(** The first longest run of at least two zero groups: start and length. *)
Definition better_run (gs : list Z) (best : option (nat * nat)) (i : nat)
  : option (nat * nat) :=
  let l := zeros (drop i gs) in
  if decide (2 ≤ l)%nat then
    match best with
    | Some (s, m) => if decide (m < l)%nat then Some (i, l) else best
    | None => Some (i, l)
    end
  else best.

Definition zero_run (gs : list Z) : option (nat * nat) :=
  foldl (better_run gs) None (seq 0 (length gs)).

Definition hexes (gs : list Z) : string := Join (hex16 <$> gs) ":".

Definition string6 (a : Z) : string :=
  let gs := groups a in
  match zero_run gs with
  | None => hexes gs
  | Some (s, l) => hexes (take s gs) +:+ "::" +:+ hexes (drop (s + l) gs)
  end.

Definition with_zone (s zone : string) : string :=
  if decide (zone = "") then s else s +:+ "%" +:+ zone.

(** [Addr.String]. *)
Definition Addr_String (x : Addr) : string :=
  match x with
  | AddrZero => "invalid IP"
  | Addr4 a => string4 a
  | Addr6 a zone =>
      if mapped a then with_zone ("::ffff:" +:+ string4 (a `mod` 2 ^ 32)) zone
      else with_zone (string6 a) zone
  end.

(** ** Parsing *)

Definition dec_val (c : ascii) : option Z :=
  if is_digit c then Some (Z.of_N (N_of_ascii c) - 48) else None.

Definition hex_val (c : ascii) : option Z :=
  let n := Z.of_N (N_of_ascii c) in
  if is_digit c then Some (n - 48)
  else if in_range "a" "f" c then Some (n - 87)
  else if in_range "A" "F" c then Some (n - 55)
  else None.

(** One digit of an IPv4 octet: no leading zero, at most 255. *)
Definition v4_digit (val : Z) (dig : nat) (d : Z) : option Z :=
  if decide (dig = 1%nat ∧ val = 0) then None
  else let val' := val * 10 + d in
       if decide (255 < val') then None else Some val'.

(** [parseIPv4Fields]: [val] and [dig] are the current octet and its number of
    digits, [acc] the octets before it. *)
Fixpoint v4_run (val : Z) (dig : nat) (acc : list Z) (s : string) : option (list Z) :=
  match s with
  | "" => if decide (length acc < 3)%nat then None else Some (acc ++ [val])
  | String c s' =>
      match dec_val c with
      | Some d =>
          match v4_digit val dig d with
          | Some val' => v4_run val' (S dig) acc s'
          | None => None
          end
      | None =>
          if decide (c = "."%char) then
            if decide (dig = 0%nat ∨ s' = "") then None
            else if decide (length acc = 3%nat) then None
            else v4_run 0 0 (acc ++ [val]) s'
          else None
      end
  end.

Definition parseIPv4Fields (s : string) : option (list Z) := v4_run 0 0 [] s.

Definition parseIPv4 (s : string) : option Addr :=
  fs ← parseIPv4Fields s; Some (Addr4 (of_be 256 fs)).

(** The hexadecimal digits [s] starts with, and the rest. *)
Fixpoint hex_span (s : string) : list Z * string :=
  match s with
  | "" => ([], "")
  | String c s' =>
      match hex_val c with
      | Some d => let '(ds, rest) := hex_span s' in (d :: ds, rest)
      | None => ([], s)
      end
  end.

(** The loop of [parseIPv6]: [n] groups may still be read, [gs] are read
    already, [ell] is where the ellipsis stands among them. *)
Fixpoint v6_loop (n : nat) (gs : list Z) (ell : option nat) (s : string)
  : option (list Z * option nat * string) :=
  match n with
  | O => Some (gs, ell, s)
  | S n' =>
      let '(ds, rest) := hex_span s in
      if decide (ds = [] ∨ 4 < length ds)%nat then None
      else
        let gs' := gs ++ [of_be 16 ds] in
        match rest with
        | String "."%char _ =>
            if decide (ell = None ∧ length gs ≠ 6%nat) then None
            else if decide (8 < length gs + 2)%nat then None
            else match parseIPv4Fields s with
                 | Some [a; b; c; d] => Some (gs ++ [a * 256 + b; c * 256 + d], ell, "")
                 | _ => None
                 end
        | "" => Some (gs', ell, "")
        | String ":"%char "" => None
        | String ":"%char (String ":"%char s'') =>
            match ell with
            | Some _ => None
            | None =>
                if decide (s'' = "") then Some (gs', Some (length gs'), "")
                else v6_loop n' gs' (Some (length gs')) s''
            end
        | String ":"%char s' => v6_loop n' gs' ell s'
        | _ => None
        end
  end.

(** The checks and the expansion of the ellipsis that follow the loop. *)
Definition v6_finish (r : list Z * option nat * string) : option (list Z) :=
  let '(gs, ell, s) := r in
  if decide (s ≠ "") then None
  else if decide (length gs < 8)%nat then
    match ell with
    | None => None
    | Some e => Some (take e gs ++ replicate (8 - length gs) 0 ++ drop e gs)
    end
  else match ell with Some _ => None | None => Some gs end.

Definition v6_groups (s : string) : option (list Z) :=
  match strip_prefix "::" s with
  | Some "" => Some (replicate 8 0)
  | Some s' => v6_loop 8 [] (Some O) s' ≫= v6_finish
  | None => v6_loop 8 [] None s ≫= v6_finish
  end.

Definition parseIPv6 (s : string) : option Addr :=
  match Cut s "%" with
  | Some (_, "") => None
  | Some (s', zone) => gs ← v6_groups s'; Some (Addr6 (of_be 65536 gs) zone)
  | None => gs ← v6_groups s; Some (Addr6 (of_be 65536 gs) "")
  end.

(** [netip.ParseAddr]: the first of '.', ':' and '%' decides. *)
Fixpoint addr_kind (s : string) : option ascii :=
  match s with
  | "" => None
  | String c s' =>
      if decide (c = "."%char ∨ c = ":"%char ∨ c = "%"%char) then Some c else addr_kind s'
  end.

Definition ParseAddr (s : string) : option Addr :=
  match addr_kind s with
  | Some "."%char => parseIPv4 s
  | Some ":"%char => parseIPv6 s
  | _ => None
  end.

(** ** Prefixes *)

(** A valid [netip.Prefix]: an address without zone and a length.  (The zero
    [Prefix] is invalid; the functions below return it as [None].) *)
Record Prefix := MkPrefix { pAddr : Addr; pBits : Z }.

#[export] Instance Prefix_eq_dec : EqDecision Prefix.
Proof. solve_decision. Defined.

Definition Prefix_ok (p : Prefix) : Prop :=
  Addr_ok (pAddr p) ∧ pAddr p ≠ AddrZero ∧ withoutZone (pAddr p) = pAddr p ∧
  0 ≤ pBits p ≤ BitLen (pAddr p).

(** [strconv.Atoi] on text that starts with no sign: every byte a digit. *)
Fixpoint atoi_go (acc : Z) (s : string) : option Z :=
  match s with
  | "" => Some acc
  | String c s' => d ← dec_val c; atoi_go (acc * 10 + d) s'
  end.

Definition parse_bits (s : string) : option Z :=
  match s with
  | "" => None
  | String c s' =>
      if decide (s' ≠ "" ∧ in_range "1" "9" c = false) then None else atoi_go 0 s
  end.

(** [netip.ParsePrefix]. *)
Definition ParsePrefix (s : string) : option Prefix :=
  match CutLast s "/" with
  | None => None
  | Some (addr, bits) =>
      ip ← ParseAddr addr;
      if decide (withoutZone ip ≠ ip) then None
      else b ← parse_bits bits;
           if decide (BitLen ip < b) then None else Some (MkPrefix ip b)
  end.

(** [Prefix.String]. *)
Definition Prefix_String (p : Prefix) : string :=
  Addr_String (pAddr p) +:+ "/" +:+ FormatInt (pBits p).

(** The network mask of the top [b] of [n] bits. *)
Definition netmask (n b : Z) : Z := Z.shiftl (Z.ones b) (n - b).

(** [Prefix.Masked]. *)
Definition Masked (p : Prefix) : Prefix :=
  match pAddr p with
  | AddrZero => p
  | Addr4 a => MkPrefix (Addr4 (Z.land a (netmask 32 (pBits p)))) (pBits p)
  | Addr6 a z => MkPrefix (Addr6 (Z.land a (netmask 128 (pBits p))) "") (pBits p)
  end.

(** [Prefix.Contains]. *)
Definition Contains (p : Prefix) (x : Addr) : bool :=
  match pAddr p, x with
  | Addr4 a, Addr4 b => bool_decide (Z.land (Z.lxor a b) (netmask 32 (pBits p)) = 0)
  | Addr6 a _, Addr6 b zone =>
      bool_decide (zone = "" ∧ Z.land (Z.lxor a b) (netmask 128 (pBits p)) = 0)
  | _, _ => false
  end.

(** [Addr.Less]: by length, then value, then zone. *)
Definition Addr_Less (x y : Addr) : bool :=
  if decide (BitLen x = BitLen y) then
    match x, y with
    | Addr4 a, Addr4 b => bool_decide (a < b)
    | Addr6 a z, Addr6 b w =>
        bool_decide (a < b ∨ a = b ∧ String.le z w ∧ z ≠ w)
    | _, _ => false
    end
  else bool_decide (BitLen x < BitLen y).

Example parse_v4 : ParsePrefix "10.1.2.3/8" = Some (MkPrefix (Addr4 167838211) 8).
Proof. vm_compute. reflexivity. Qed.

Example masked_v4 : Prefix_String <$> (Masked <$> ParsePrefix "10.1.2.3/8") = Some "10.0.0.0/8".
Proof. vm_compute. reflexivity. Qed.

Example masked_v6 :
  Prefix_String <$> (Masked <$> ParsePrefix "2001:db8:0:0:1:0:0:1/64") = Some "2001:db8::/64".
Proof. vm_compute. reflexivity. Qed.

Example string_v6 : Addr_String <$> ParseAddr "2001:db8:0:0:1:0:0:1" = Some "2001:db8::1:0:0:1".
Proof. vm_compute. reflexivity. Qed.

Example string_4in6 : Addr_String <$> ParseAddr "::FFFF:c000:0201%eth0" = Some "::ffff:192.0.2.1%eth0".
Proof. vm_compute. reflexivity. Qed.

Example parse_bad : ParsePrefix <$> ["10.0.0.0/33"; "10.0.0/8"; "fe80::1%a/64"; "::1/0129"; "1::2::3/8"; "10.0.0.01/8"]
  = [None; None; None; None; None; None].
Proof. vm_compute. reflexivity. Qed.

(** ** Parsing inverts printing *)

(** Exhaustive check of a decidable property of small numbers. *)
Lemma upto (P : Z → bool) (n z : Z) :
  forallb P (seqZ 0 n) = true → 0 ≤ z < n → P z = true.
Proof.
  intros H Hz. rewrite forallb_forall in H. apply H.
  apply list_elem_of_In, elem_of_seqZ. lia.
Qed.

(** *** Decimal numbers *)

Fixpoint digits_run (val : Z) (dig : nat) (s : string) {struct s} : option (Z * nat) :=
  match s with
  | "" => Some (val, dig)
  | String c s' => d ← dec_val c; val' ← v4_digit val dig d; digits_run val' (S dig) s'
  end.

Lemma v4_run_digits val dig acc s rest val' dig' :
  digits_run val dig s = Some (val', dig') →
  v4_run val dig acc (s +:+ rest) = v4_run val' dig' acc rest.
Proof.
  revert val dig. induction s as [|c s IH]; intros val dig; cbn.
  - by intros [= -> ->].
  - intros (d & -> & (w & -> & Hgo)%bind_Some)%bind_Some. by apply IH.
Qed.

Lemma dec_octet n :
  0 ≤ n < 256 →
  digits_run 0 0 (FormatInt n) = Some (n, String.length (FormatInt n)) ∧
  String.length (FormatInt n) ≠ 0%nat.
Proof.
  intros Hn.
  pose (P n := bool_decide (digits_run 0 0 (FormatInt n) = Some (n, String.length (FormatInt n))
                 ∧ String.length (FormatInt n) ≠ 0%nat)).
  assert (P n = true) as HP by (apply (upto P 256); [vm_compute; reflexivity|done]).
  by apply bool_decide_eq_true in HP.
Qed.

Lemma v4_run_octet n acc rest :
  0 ≤ n < 256 → (length acc < 3)%nat → rest ≠ "" →
  v4_run 0 0 acc (FormatInt n +:+ String "." rest) = v4_run 0 0 (acc ++ [n]) rest.
Proof.
  intros Hn Hacc Hrest. destruct (dec_octet n Hn) as [Hr Hl].
  rewrite (v4_run_digits _ _ _ _ _ _ _ Hr).
  change (v4_run n (String.length (FormatInt n)) acc (String "." rest)) with
    (if decide (String.length (FormatInt n) = 0%nat ∨ rest = "") then None
     else if decide (length acc = 3%nat) then None else v4_run 0 0 (acc ++ [n]) rest).
  by rewrite !decide_False by (lia || naive_solver).
Qed.

Lemma v4_run_last n acc :
  0 ≤ n < 256 → length acc = 3%nat → v4_run 0 0 acc (FormatInt n) = Some (acc ++ [n]).
Proof.
  intros Hn Hacc. destruct (dec_octet n Hn) as [Hr _].
  rewrite <-(str_app_nil_r (FormatInt n)), (v4_run_digits _ _ _ _ _ _ _ Hr).
  cbn. by rewrite decide_False by lia.
Qed.

Lemma FormatInt_octet_nonempty n s : 0 ≤ n < 256 → FormatInt n +:+ s ≠ "".
Proof.
  intros Hn H. destruct (dec_octet n Hn) as [_ Hl].
  apply (f_equal String.length) in H. rewrite str_length_app in H. cbn in H. lia.
Qed.

(** The four octets of an address, as [string4] prints them. *)
Lemma octets_inv a :
  ∃ p q r s, octets a = [p; q; r; s] ∧
    0 ≤ p < 256 ∧ 0 ≤ q < 256 ∧ 0 ≤ r < 256 ∧ 0 ≤ s < 256.
Proof.
  pose proof (to_be_digits 256 4 a eq_refl) as H.
  pose proof (length_to_be 256 4 a) as Hl. unfold octets.
  destruct (to_be 256 4 a) as [|p [|q [|r [|s [|]]]]]; try discriminate Hl.
  rewrite !Forall_cons in H. unfold digit in H.
  exists p, q, r, s. naive_solver.
Qed.

Lemma string4_eq p q r s a :
  octets a = [p; q; r; s] →
  string4 a = FormatInt p +:+ String "." (FormatInt q +:+ String "."
                (FormatInt r +:+ String "." (FormatInt s))).
Proof. unfold string4. by intros ->. Qed.

Lemma parseIPv4Fields_string4 a : parseIPv4Fields (string4 a) = Some (octets a).
Proof.
  destruct (octets_inv a) as (p & q & r & s & Ho & Hp & Hq & Hr & Hs).
  rewrite (string4_eq _ _ _ _ _ Ho), Ho. unfold parseIPv4Fields.
  pose proof (FormatInt_octet_nonempty s "" Hs) as Hne. rewrite str_app_nil_r in Hne.
  rewrite !v4_run_octet by (cbn; lia || auto using FormatInt_octet_nonempty).
  by rewrite v4_run_last by (cbn; lia || done).
Qed.

Lemma parseIPv4_string4 a : 0 ≤ a < 2 ^ 32 → parseIPv4 (string4 a) = Some (Addr4 a).
Proof.
  intros Ha. unfold parseIPv4. rewrite parseIPv4Fields_string4. cbn [mbind option_bind].
  unfold octets. rewrite of_be_to_be; [done|lia|]. change (256 ^ Z.of_nat 4) with (2 ^ 32). lia.
Qed.

(** *** Hexadecimal groups *)

Lemma hex_span_app s rest :
  (∀ c r, rest = String c r → hex_val c = None) →
  snd (hex_span s) = "" → hex_span (s +:+ rest) = (fst (hex_span s), rest).
Proof.
  intros Hrest. induction s as [|c s IH]; cbn.
  - intros _. destruct rest as [|c r]; [done|]. cbn. by rewrite (Hrest c r).
  - destruct (hex_val c); [|done]. destruct (hex_span s) as [ds t]. cbn in *.
    intros ->. by rewrite IH.
Qed.

Lemma hex_digit_ok d :
  0 ≤ d < 16 →
  hex_val (hex_digit d) = Some d ∧ hex_digit d ≠ ":"%char ∧ hex_digit d ≠ "%"%char ∧
  hex_digit d ≠ "."%char.
Proof.
  intros Hd.
  pose (P d := bool_decide (hex_val (hex_digit d) = Some d ∧ hex_digit d ≠ ":"%char ∧
                            hex_digit d ≠ "%"%char ∧ hex_digit d ≠ "."%char)).
  assert (P d = true) as HP by (apply (upto P 16); [vm_compute; reflexivity|done]).
  by apply bool_decide_eq_true in HP.
Qed.

(** The digits of [hex16 x]. *)
Definition hex16_digits (x : Z) : list Z :=
  let d3 := x `div` 4096 in
  let d2 := (x `div` 256) `mod` 16 in
  let d1 := (x `div` 16) `mod` 16 in
  let d0 := x `mod` 16 in
  if bool_decide (4096 ≤ x) then [d3; d2; d1; d0]
  else if bool_decide (256 ≤ x) then [d2; d1; d0]
  else if bool_decide (16 ≤ x) then [d1; d0] else [d0].

Fixpoint of_digits (ds : list Z) : string :=
  match ds with
  | [] => ""
  | d :: ds' => String (hex_digit d) (of_digits ds')
  end.

Lemma hex16_of_digits x : hex16 x = of_digits (hex16_digits x).
Proof. unfold hex16, hex16_digits. by repeat case_bool_decide. Qed.

Lemma hex16_digits_ok x :
  0 ≤ x < 65536 →
  Forall (digit 16) (hex16_digits x) ∧ of_be 16 (hex16_digits x) = x ∧
  (0 < length (hex16_digits x) ≤ 4)%nat.
Proof.
  intros Hx. unfold hex16_digits, digit.
  assert (0 ≤ x `div` 4096 < 16)
    by (split; [apply Z.div_pos; lia|apply Z.div_lt_upper_bound; lia]).
  pose proof (Z.mod_pos_bound x 16 eq_refl).
  pose proof (Z.mod_pos_bound (x `div` 16) 16 eq_refl).
  pose proof (Z.mod_pos_bound (x `div` 256) 16 eq_refl).
  repeat case_bool_decide; (split; [by repeat constructor; lia|split; [|cbn; lia]]);
    unfold of_be; cbn [reverse rev_append of_le]; unfold reverse; cbn;
    Z.to_euclidean_division_equations; lia.
Qed.

Lemma of_digits_span ds :
  Forall (digit 16) ds →
  hex_span (of_digits ds) = (ds, "") ∧
  contains_byte ":" (of_digits ds) = false ∧ contains_byte "%" (of_digits ds) = false.
Proof.
  induction 1 as [|d ds Hd _ IH]; [done|]. cbn.
  destruct (hex_digit_ok d Hd) as (-> & H1 & H2 & H3). destruct IH as (-> & -> & ->).
  by rewrite !decide_False by done.
Qed.

Lemma hex16_span x :
  0 ≤ x < 65536 →
  ∃ ds, hex_span (hex16 x) = (ds, "") ∧ of_be 16 ds = x ∧ (0 < length ds ≤ 4)%nat.
Proof.
  intros Hx. destruct (hex16_digits_ok x Hx) as (Hd & Hv & Hl).
  exists (hex16_digits x). rewrite hex16_of_digits.
  by destruct (of_digits_span _ Hd) as (-> & _).
Qed.

(** One group followed by something that is not a digit. *)
Lemma v6_loop_hex n gs ell x rest :
  0 ≤ x < 65536 → (∀ c r, rest = String c r → c = ":"%char) →
  v6_loop (S n) gs ell (hex16 x +:+ rest) =
  let gs' := gs ++ [x] in
  match rest with
  | "" => Some (gs', ell, "")
  | String ":"%char "" => None
  | String ":"%char (String ":"%char s'') =>
      match ell with
      | Some _ => None
      | None =>
          if decide (s'' = "") then Some (gs', Some (length gs'), "")
          else v6_loop n gs' (Some (length gs')) s''
      end
  | String ":"%char s' => v6_loop n gs' ell s'
  | _ => None
  end.
Proof.
  intros Hx Hrest. destruct (hex16_span x Hx) as (ds & Hs & Hv & Hl).
  cbn [v6_loop]. rewrite hex_span_app.
  2: { intros c r Hr. by rewrite (Hrest c r Hr). }
  2: { by rewrite Hs. }
  rewrite Hs. cbn [fst].
  rewrite decide_False by (destruct ds; cbn in *; naive_solver lia).
  rewrite Hv. destruct rest as [|c r]; [done|].
  by rewrite (Hrest c r).
Qed.

Lemma hexes_cons x gs : gs ≠ [] → hexes (x :: gs) = hex16 x +:+ String ":" (hexes gs).
Proof. intros H. unfold hexes. cbn [fmap list_fmap]. rewrite Join_cons; [done|]. by destruct gs. Qed.

Lemma hex16_cons x : 0 ≤ x < 65536 → ∃ c r, hex16 x = String c r ∧ c ≠ ":"%char.
Proof.
  intros Hx. destruct (hex16_digits_ok x Hx) as (Hd & _ & Hl).
  rewrite hex16_of_digits. destruct (hex16_digits x) as [|d ds]; [cbn in Hl; lia|].
  apply Forall_cons in Hd as [Hd _]. exists (hex_digit d), (of_digits ds).
  split; [done|]. by apply hex_digit_ok.
Qed.

(** A printed group list does not start with a colon, and is not empty. *)
Lemma hexes_head gs :
  gs ≠ [] → Forall (digit 65536) gs → ∃ c r, hexes gs = String c r ∧ c ≠ ":"%char.
Proof.
  intros Hne Hd. destruct gs as [|x gs]; [done|]. apply Forall_cons in Hd as [Hx _].
  destruct (hex16_cons x Hx) as (c & r & Heq & Hc).
  destruct gs as [|y gs]; [by exists c, r|].
  rewrite hexes_cons by done. rewrite Heq. cbn. eauto.
Qed.

(** The loop reads printed groups back to the end of the text... *)
Lemma v6_loop_hexes gs n acc ell :
  gs ≠ [] → Forall (digit 65536) gs → (length gs ≤ n)%nat →
  v6_loop n acc ell (hexes gs) = Some (acc ++ gs, ell, "").
Proof.
  revert n acc. induction gs as [|x gs IH]; intros n acc Hne Hd Hn; [done|].
  apply Forall_cons in Hd as [Hx Hd]. destruct n as [|n]; [cbn in Hn; lia|].
  destruct gs as [|y gs].
  - change (hexes [x]) with (hex16 x). rewrite <-(str_app_nil_r (hex16 x)).
    by rewrite v6_loop_hex by done.
  - rewrite hexes_cons by done. rewrite v6_loop_hex; [|done|by intros ?? [= -> _]].
    destruct (hexes_head (y :: gs)) as (c & r & Hhd & Hc); [done..|].
    pose proof (IH n (acc ++ [x])) as IH'. rewrite Hhd in *.
    rewrite <-app_assoc in IH'. cbn [app] in IH'. cbn zeta.
    rewrite <-IH'; [|done|done|cbn in *; lia]. by destruct c as [[] [] [] [] [] [] [] []].
Qed.

(** ... or to an ellipsis, and goes on after it. *)
Lemma v6_loop_ellipsis gs n acc s :
  gs ≠ [] → Forall (digit 65536) gs → (length gs ≤ n)%nat →
  v6_loop n acc None (hexes gs +:+ "::" +:+ s) =
  let gs' := acc ++ gs in
  if decide (s = "") then Some (gs', Some (length gs'), "")
  else v6_loop (n - length gs) gs' (Some (length gs')) s.
Proof.
  revert n acc. induction gs as [|x gs IH]; intros n acc Hne Hd Hn; [done|].
  apply Forall_cons in Hd as [Hx Hd]. destruct n as [|n]; [cbn in Hn; lia|].
  destruct gs as [|y gs].
  - change (hexes [x]) with (hex16 x). rewrite v6_loop_hex by (done || by intros ?? [= -> _]).
    cbn. by rewrite Nat.sub_0_r.
  - rewrite hexes_cons, str_app_assoc, str_app_cons by done.
    rewrite v6_loop_hex; [|done|by intros ?? [= -> _]].
    destruct (hexes_head (y :: gs)) as (c & r & Hhd & Hc); [done..|].
    pose proof (IH n (acc ++ [x])) as IH'. rewrite Hhd in *.
    rewrite <-app_assoc in IH'. cbn [app] in IH'.
    rewrite str_app_cons in *. cbn zeta in *.
    change (S n - length (x :: y :: gs))%nat with (n - length (y :: gs))%nat.
    rewrite <-IH'; [|done|done|cbn in *; lia]. by destruct c as [[] [] [] [] [] [] [] []].
Qed.

(** *** The zero run *)

Lemma zeros_spec gs : gs = replicate (zeros gs) 0 ++ drop (zeros gs) gs.
Proof.
  induction gs as [|g gs IH]; [done|]. cbn. case_decide; [|done]. subst. cbn. by f_equal.
Qed.

Lemma zeros_le gs : (zeros gs ≤ length gs)%nat.
Proof. induction gs as [|g gs IH]; cbn; [lia|]. case_decide; lia. Qed.

Lemma zero_run_spec gs s l :
  zero_run gs = Some (s, l) →
  (2 ≤ l)%nat ∧ (s + l ≤ length gs)%nat ∧
  gs = take s gs ++ replicate l 0 ++ drop (s + l) gs.
Proof.
  unfold zero_run.
  assert (∀ idx best,
    Forall (λ i, i < length gs)%nat idx →
    (∀ s l, best = Some (s, l) → (s < length gs)%nat ∧ l = zeros (drop s gs) ∧ (2 ≤ l)%nat) →
    ∀ s l, foldl (better_run gs) best idx = Some (s, l) →
      (s < length gs)%nat ∧ l = zeros (drop s gs) ∧ (2 ≤ l)%nat) as Hgen.
  { induction idx as [|i idx IH]; intros best His Hbest; [done|]. cbn [foldl].
    apply Forall_cons in His as [Hi His]. apply IH; [done|]. unfold better_run.
    intros s' l' Heq. case_decide; [|by apply Hbest].
    destruct best as [[s0 m0]|]; [case_decide|]; simplify_eq; auto. }
  intros H. apply Hgen in H as (Hs & -> & Hl); [|apply Forall_seq; lia|done].
  split; [done|]. pose proof (zeros_le (drop s gs)) as Hle. rewrite length_drop in Hle.
  split; [lia|]. rewrite <-drop_drop. rewrite <-zeros_spec. by rewrite take_drop.
Qed.

(** *** IPv6 text *)

Lemma groups_digits a : Forall (digit 65536) (groups a).
Proof. by apply to_be_digits. Qed.

Lemma length_groups a : length (groups a) = 8%nat.
Proof. apply length_to_be. Qed.

Lemma strip_colons_head c r : c ≠ ":"%char → strip_prefix "::" (String c r) = None.
Proof. intros Hc. cbn. by rewrite decide_False. Qed.

Lemma v6_finish_ell gs e :
  (length gs < 8)%nat →
  v6_finish (gs, Some e, "") = Some (take e gs ++ replicate (8 - length gs) 0 ++ drop e gs).
Proof. intros. cbn. rewrite decide_False by naive_solver. by rewrite decide_True. Qed.

Lemma v6_finish_full gs : length gs = 8%nat → v6_finish (gs, None, "") = Some gs.
Proof. intros H. cbn. rewrite decide_False by naive_solver. by rewrite H. Qed.

Lemma v6_groups_string6 a : v6_groups (string6 a) = Some (groups a).
Proof.
  pose proof (groups_digits a) as Hd. pose proof (length_groups a) as Hl.
  unfold string6. generalize dependent (groups a). intros gs Hd Hl.
  destruct (zero_run gs) as [[s l]|] eqn:Hz.
  - apply zero_run_spec in Hz as (Hl2 & Hsl & Heq).
    assert (Forall (digit 65536) (take s gs) ∧ Forall (digit 65536) (drop (s + l) gs))
      as [Hd1 Hd2] by (split; [by apply Forall_take|by apply Forall_drop]).
    assert (length (take s gs) = s) as Ht by (rewrite length_take; lia).
    assert (length (drop (s + l) gs) = (8 - s - l)%nat) as Hdr by (rewrite length_drop; lia).
    set (pre := take s gs) in *. set (post := drop (s + l) gs) in *.
    clearbody pre post. unfold v6_groups. destruct (decide (pre = [])) as [->|Hpre].
    + cbn in Ht. subst s. cbn [hexes Join fmap list_fmap String.append strip_prefix].
      rewrite !decide_True by done. destruct (decide (post = [])) as [Hp|Hp].
      * rewrite Hp in *. cbn. cbn in Hdr. rewrite Heq.
        replace l with 8%nat by lia. by rewrite app_nil_r.
      * destruct (hexes_head post Hp Hd2) as (c & r & Hh & _). rewrite Hh, <-Hh.
        rewrite v6_loop_hexes by (done || lia). cbn [mbind option_bind app].
        rewrite v6_finish_ell, Heq, Hdr, take_0, drop_0 by lia.
        by replace (8 - (8 - 0 - l))%nat with l by lia.
    + destruct (hexes_head pre Hpre Hd1) as (c & r & Hh & Hc).
      rewrite Hh, str_app_cons, strip_colons_head by done. rewrite <-str_app_cons, <-Hh.
      rewrite v6_loop_ellipsis by (done || lia). cbn zeta. rewrite app_nil_l.
      destruct (decide (post = [])) as [Hp|Hp].
      * rewrite Hp in *. cbn in Hdr. cbn [hexes Join fmap list_fmap].
        rewrite decide_True by done. cbn [mbind option_bind]. rewrite v6_finish_ell by lia.
        rewrite take_ge, drop_ge, Ht, Heq by lia.
        by replace (8 - s)%nat with l by lia.
      * destruct (hexes_head post Hp Hd2) as (c' & r' & Hh' & _).
        rewrite decide_False by by rewrite Hh'.
        rewrite v6_loop_hexes by (done || lia). cbn [mbind option_bind].
        rewrite v6_finish_ell by (rewrite length_app; lia).
        rewrite take_app_length', drop_app_length', length_app, Ht, Hdr by done.
        rewrite Heq. by replace (8 - (s + (8 - s - l)))%nat with l by lia.
  - unfold v6_groups. destruct (hexes_head gs) as (c & r & Hh & Hc); [by destruct gs|done|].
    rewrite Hh, strip_colons_head by done. rewrite <-Hh.
    rewrite v6_loop_hexes by (done || lia || by destruct gs). cbn [mbind option_bind app].
    by apply v6_finish_full.
Qed.

Lemma dec_octet_hex n :
  0 ≤ n < 256 →
  snd (hex_span (FormatInt n)) = "" ∧ (0 < length (fst (hex_span (FormatInt n))) ≤ 4)%nat ∧
  ∃ c r, FormatInt n = String c r ∧ c ≠ ":"%char.
Proof.
  intros Hn.
  pose (P n := bool_decide (snd (hex_span (FormatInt n)) = "" ∧
                 (0 < length (fst (hex_span (FormatInt n))) ≤ 4)%nat) &&
               match FormatInt n with
               | String c _ => bool_decide (c ≠ ":"%char) | "" => false end).
  assert (P n = true) as HP by (apply (upto P 256); [vm_compute; reflexivity|done]).
  apply andb_true_iff in HP as [[Hs Hl]%bool_decide_eq_true HP].
  split; [done|]. split; [done|]. destruct (FormatInt n) as [|c r]; [done|].
  apply bool_decide_eq_true in HP. eauto.
Qed.

(** The embedded IPv4 form of a mapped address. *)
Lemma v6_loop_embedded n gs e a :
  (length gs ≤ 6)%nat →
  ∃ p q r s, octets a = [p; q; r; s] ∧
    v6_loop (S n) gs (Some e) (string4 a) =
    Some (gs ++ [p * 256 + q; r * 256 + s], Some e, "").
Proof.
  intros Hgs. destruct (octets_inv a) as (p & q & r & s & Ho & Hp & _).
  exists p, q, r, s. split; [done|]. pose proof (parseIPv4Fields_string4 a) as Hf.
  rewrite (string4_eq _ _ _ _ _ Ho) in *. destruct (dec_octet_hex p Hp) as (Hs & Hl & _).
  cbn [v6_loop]. rewrite hex_span_app; [|by intros ?? [= <- _]|done].
  rewrite decide_False by (destruct (fst _); cbn in *; naive_solver lia).
  rewrite decide_False by naive_solver. rewrite decide_False by lia. by rewrite Hf, Ho.
Qed.

Lemma mapped_value a :
  mapped a = true → 0 ≤ a → a = 65535 * 2 ^ 32 + a `mod` 2 ^ 32.
Proof.
  unfold mapped. rewrite bool_decide_eq_true, Z.shiftr_div_pow2 by lia. intros <- Ha.
  rewrite Z.mul_comm. apply Z.div_mod. lia.
Qed.

Lemma string4_head a : ∃ c r, string4 a = String c r ∧ c ≠ ":"%char.
Proof.
  destruct (octets_inv a) as (p & q & r & s & Ho & Hp & _).
  destruct (dec_octet_hex p Hp) as (_ & _ & c & t & Hc & Hne).
  rewrite (string4_eq _ _ _ _ _ Ho), Hc. cbn. eauto.
Qed.

Lemma v6_groups_mapped a :
  mapped a = true → 0 ≤ a →
  v6_groups ("::ffff:" +:+ string4 (a `mod` 2 ^ 32)) = Some (groups a).
Proof.
  intros Hm Ha. pose proof (mapped_value a Hm Ha) as Hv.
  set (m := a `mod` 2 ^ 32) in *. assert (0 ≤ m < 2 ^ 32) by (by apply Z.mod_pos_bound).
  destruct (v6_loop_embedded 6 [65535] 0 m) as (p & q & r & s & Ho & Hloop); [cbn; lia|].
  transitivity (v6_loop 8 [] (Some 0%nat) (hex16 65535 +:+ String ":" (string4 m)) ≫= v6_finish);
    [done|].
  assert (v6_loop 8 [] (Some 0%nat) (hex16 65535 +:+ String ":" (string4 m)) =
          v6_loop 7 [65535] (Some 0%nat) (string4 m)) as Hstep.
  { rewrite v6_loop_hex; [|lia|by intros ?? [= <- _]].
    destruct (string4_head m) as (c & t & Hc & Hne). rewrite Hc.
    by destruct c as [[] [] [] [] [] [] [] []]. }
  rewrite Hstep, Hloop. cbn [mbind option_bind app].
  transitivity (Some [0; 0; 0; 0; 0; 65535; p * 256 + q; r * 256 + s]); [done|].
  f_equal. symmetry. unfold groups.
  pose proof (of_be_to_be 256 4 m eq_refl) as Hm'. unfold octets in Ho. rewrite Ho in Hm'.
  change (256 ^ Z.of_nat 4) with (2 ^ 32) in Hm'.
  pose proof (to_be_digits 256 4 m eq_refl) as Hd. rewrite Ho, !Forall_cons in Hd.
  unfold digit in Hd. destruct_and!.
  rewrite <-(to_be_of_be 65536 8 [0; 0; 0; 0; 0; 65535; p * 256 + q; r * 256 + s]).
  - f_equal. rewrite Hv, <-Hm' by done. unfold of_be, reverse. cbn. lia.
  - lia.
  - repeat constructor; lia.
  - done.
Qed.

(** *** Which parser runs *)

Lemma addr_kind_digits val dig s rest r :
  digits_run val dig s = Some r → addr_kind (s +:+ rest) = addr_kind rest.
Proof.
  revert val dig. induction s as [|c s IH]; intros val dig; cbn; [done|].
  intros (d & Hd & (w & _ & Hgo)%bind_Some)%bind_Some.
  rewrite decide_False; [by eapply IH|]. intros [->|[->| ->]]; done.
Qed.

Lemma addr_kind_string4 a : addr_kind (string4 a) = Some "."%char.
Proof.
  destruct (octets_inv a) as (p & q & r & s & Ho & Hp & _).
  rewrite (string4_eq _ _ _ _ _ Ho). destruct (dec_octet p Hp) as [Hr _].
  by rewrite (addr_kind_digits _ _ _ _ _ Hr).
Qed.

Lemma addr_kind_hex16 x rest : 0 ≤ x < 65536 → addr_kind (hex16 x +:+ rest) = addr_kind rest.
Proof.
  intros Hx. destruct (hex16_digits_ok x Hx) as (Hd & _ & _). rewrite hex16_of_digits.
  induction Hd as [|d ds Hd _ IH]; [done|]. cbn.
  destruct (hex_digit_ok d Hd) as (_ & H1 & H2 & H3). rewrite decide_False; [done|]. naive_solver.
Qed.

Lemma addr_kind_hexes gs rest :
  Forall (digit 65536) gs → (length gs = 1 → rest ≠ "" → addr_kind rest = Some ":"%char)%nat →
  gs ≠ [] → length gs ≠ 1%nat ∨ rest ≠ "" → addr_kind (hexes gs +:+ rest) = Some ":"%char.
Proof.
  intros Hd H1 Hne Hl. destruct gs as [|x [|y gs]]; [done|..].
  - apply Forall_cons in Hd as [Hx _]. change (hexes [x]) with (hex16 x).
    rewrite addr_kind_hex16 by done. apply H1; [done|]. cbn in Hl. naive_solver.
  - apply Forall_cons in Hd as [Hx _]. rewrite hexes_cons, str_app_assoc by done.
    by rewrite addr_kind_hex16.
Qed.

Lemma addr_kind_string6 a : addr_kind (string6 a) = Some ":"%char.
Proof.
  pose proof (groups_digits a) as Hd. pose proof (length_groups a) as Hl. unfold string6.
  destruct (zero_run (groups a)) as [[s l]|].
  - destruct (decide (take s (groups a) = [])) as [->|Hne]; [done|].
    apply addr_kind_hexes; [by apply Forall_take|done|done|by right].
  - rewrite <-(str_app_nil_r (hexes (groups a))).
    apply addr_kind_hexes; [done|done|by destruct (groups a)|left; lia].
Qed.

Lemma no_percent_hexes gs : Forall (digit 65536) gs → contains_byte "%" (hexes gs) = false.
Proof.
  assert (∀ x, digit 65536 x → contains_byte "%" (hex16 x) = false) as Hhex.
  { intros x Hx. destruct (hex16_digits_ok x Hx) as (Hd & _). rewrite hex16_of_digits.
    by apply of_digits_span. }
  induction gs as [|x gs IH]; intros Hd; [done|]. apply Forall_cons in Hd as [Hx Hd].
  destruct gs as [|y gs]; [by apply Hhex|]. rewrite hexes_cons, contains_byte_app, Hhex by done.
  exact (IH Hd).
Qed.

Lemma no_percent_string6 a : contains_byte "%" (string6 a) = false.
Proof.
  pose proof (groups_digits a) as Hd. unfold string6.
  destruct (zero_run (groups a)) as [[s l]|]; [|by apply no_percent_hexes].
  rewrite !contains_byte_app, !no_percent_hexes; [done|by apply Forall_drop|by apply Forall_take].
Qed.

Lemma no_percent_octet n : 0 ≤ n < 256 → contains_byte "%" (FormatInt n) = false.
Proof.
  intros. pose (P n := bool_decide (contains_byte "%" (FormatInt n) = false)).
  assert (P n = true) as HP by (apply (upto P 256); [vm_compute; reflexivity|done]).
  by apply bool_decide_eq_true in HP.
Qed.

Lemma no_percent_string4 a : contains_byte "%" (string4 a) = false.
Proof.
  destruct (octets_inv a) as (p & q & r & s & Ho & Hp & Hq & Hr & Hs).
  rewrite (string4_eq _ _ _ _ _ Ho).
  repeat (rewrite contains_byte_app, no_percent_octet by done; cbn). by rewrite no_percent_octet.
Qed.

(** *** The round trips *)

Lemma parseIPv6_zone s zone a :
  0 ≤ a < 2 ^ 128 → contains_byte "%" s = false → v6_groups s = Some (groups a) →
  parseIPv6 (with_zone s zone) = Some (Addr6 a zone).
Proof.
  intros Ha Hs Hg. assert (of_be 65536 (groups a) = a) as Hof.
  { apply of_be_to_be; [lia|]. change (65536 ^ Z.of_nat 8) with (2 ^ 128). lia. }
  unfold parseIPv6, with_zone. case_decide as Hz.
  - subst. rewrite Cut_None, Hg by done. cbn [mbind option_bind]. by rewrite Hof.
  - change (s +:+ "%" +:+ zone) with (s +:+ String "%" zone).
    rewrite Cut_app by done. destruct zone; [done|]. rewrite Hg.
    cbn [mbind option_bind]. by rewrite Hof.
Qed.

Lemma addr_kind_with_zone s zone c :
  addr_kind s = Some c → addr_kind (with_zone s zone) = Some c.
Proof.
  unfold with_zone. case_decide; [done|]. induction s as [|d s IH]; cbn; [done|].
  case_decide; auto.
Qed.

(** Parsing the text of an address gives the address back. *)
Lemma ParseAddr_String x : Addr_ok x → x ≠ AddrZero → ParseAddr (Addr_String x) = Some x.
Proof.
  intros Hok Hz. destruct x as [|a|a zone]; [done|..]; cbn in Hok; unfold ParseAddr;
    cbn [Addr_String].
  - rewrite addr_kind_string4. by apply parseIPv4_string4.
  - destruct (mapped a) eqn:Hm.
    + rewrite (addr_kind_with_zone _ _ ":"%char) by done.
      apply parseIPv6_zone; [done| |apply v6_groups_mapped; [done|lia]].
      by rewrite contains_byte_app, no_percent_string4.
    + rewrite (addr_kind_with_zone _ _ _ (addr_kind_string6 a)).
      apply parseIPv6_zone; [done|apply no_percent_string6|apply v6_groups_string6].
Qed.

Lemma parse_bits_FormatInt b :
  0 ≤ b ≤ 128 → parse_bits (FormatInt b) = Some b ∧ contains_byte "/" (FormatInt b) = false.
Proof.
  intros. pose (P n := bool_decide (parse_bits (FormatInt n) = Some n ∧
                                    contains_byte "/" (FormatInt n) = false)).
  assert (P b = true) as HP by (apply (upto P 129); [vm_compute; reflexivity|lia]).
  by apply bool_decide_eq_true in HP.
Qed.

(** Parsing the text of a prefix gives the prefix back. *)
Lemma ParsePrefix_String p : Prefix_ok p → ParsePrefix (Prefix_String p) = Some p.
Proof.
  destruct p as [x b]. intros (Hok & Hz & Hnz & Hb). cbn in *.
  assert (0 ≤ b ≤ 128) as Hb' by (destruct x; cbn in Hb; lia).
  destruct (parse_bits_FormatInt b Hb') as [Hp Hs].
  unfold ParsePrefix, Prefix_String. cbn.
  change ("/" +:+ FormatInt b) with (String "/" (FormatInt b)).
  rewrite CutLast_app, ParseAddr_String by done. cbn [mbind option_bind].
  rewrite decide_False by naive_solver. rewrite Hp. cbn [mbind option_bind].
  by rewrite decide_False by lia.
Qed.

(** ** Parsed values are in range, masking *)

Lemma v4_run_range s val dig acc fs :
  Forall (digit 256) acc → digit 256 val → (length acc ≤ 3)%nat →
  v4_run val dig acc s = Some fs → Forall (digit 256) fs ∧ length fs = 4%nat.
Proof.
  revert val dig acc. induction s as [|c s IH]; intros val dig acc Hacc Hval Hl; cbn.
  - case_decide; [done|]. intros [= <-]. rewrite length_app. cbn.
    split; [|lia]. by rewrite Forall_app, Forall_singleton.
  - destruct (dec_val c) as [d|] eqn:Hd.
    + unfold v4_digit. case_decide; [done|]. case_decide; [done|].
      apply IH; [done| |done]. unfold digit, dec_val in *.
      destruct (is_digit c) eqn:Hc; [|done]. injection Hd as <-.
      unfold is_digit, in_range in Hc. apply bool_decide_eq_true in Hc. cbn in Hc. lia.
    + repeat case_decide; try done. apply IH; [|done|rewrite length_app; cbn; lia].
      by rewrite Forall_app, Forall_singleton.
Qed.

Lemma hex_span_digits s : Forall (digit 16) (fst (hex_span s)).
Proof.
  induction s as [|c s IH]; cbn; [constructor|]. destruct (hex_val c) as [d|] eqn:Hd; [|constructor].
  destruct (hex_span s) as [ds t]. cbn in *. constructor; [|done].
  unfold hex_val, is_digit, in_range in Hd. unfold digit.
  repeat case_bool_decide; simplify_eq; cbn in *; lia.
Qed.

Lemma v6_loop_range n gs ell s gs' ell' s' :
  Forall (digit 65536) gs → (length gs + n ≤ 8)%nat →
  (∀ e, ell = Some e → (e ≤ length gs)%nat) →
  v6_loop n gs ell s = Some (gs', ell', s') →
  Forall (digit 65536) gs' ∧ (length gs' ≤ 8)%nat ∧ (∀ e, ell' = Some e → (e ≤ length gs')%nat).
Proof.
  revert gs ell s. induction n as [|n IH]; intros gs ell s Hgs Hl He; cbn [v6_loop].
  { intros [= <- <- <-]. split; [done|]. split; [lia|done]. }
  pose proof (hex_span_digits s) as Hds. destruct (hex_span s) as [ds rest]. cbn in Hds.
  case_decide as Hlen; [done|].
  assert (Forall (digit 65536) (gs ++ [of_be 16 ds])) as Hgs'.
  { apply Forall_app. split; [done|]. constructor; [|constructor].
    pose proof (of_be_bound 16 ds eq_refl Hds) as [H1 H2]. split; [done|].
    eapply Z.lt_le_trans; [apply H2|]. change 65536 with (16 ^ 4).
    apply Z.pow_le_mono_r; lia. }
  assert (length (gs ++ [of_be 16 ds]) = S (length gs)) as Hl' by (rewrite length_app; cbn; lia).
  assert (∀ e, ell = Some e → (e ≤ length (gs ++ [of_be 16 ds]))%nat) as He'.
  { intros e Hell. apply He in Hell. lia. }
  set (g2 := gs ++ [of_be 16 ds]) in *. clearbody g2.
  intros H. repeat case_match; simplify_eq; try done;
    try (by split; [done|split; [lia|naive_solver lia]]);
    try (eapply IH; [..|exact H]; [done|lia|naive_solver lia]).
  match goal with Hp : parseIPv4Fields s = Some _ |- _ =>
    apply v4_run_range in Hp as [Hf _]; [|constructor|done|cbn; lia] end.
  rewrite !Forall_cons in Hf. unfold digit in Hf. destruct_and!.
  split; [apply Forall_app; split; [done|repeat constructor; unfold digit; lia]|].
  rewrite length_app. cbn. split; [lia|]. intros e Hell. apply He in Hell. lia.
Qed.

Lemma v6_groups_range s gs :
  v6_groups s = Some gs → Forall (digit 65536) gs ∧ length gs = 8%nat.
Proof.
  assert (∀ ell s, (∀ e, ell = Some e → e = 0%nat) →
    v6_loop 8 [] ell s ≫= v6_finish = Some gs →
    Forall (digit 65536) gs ∧ length gs = 8%nat) as Hgen.
  { clear s. intros ell s Hell ([[gs' ell'] s'] & Hr & Hfin)%bind_Some.
    apply v6_loop_range in Hr as (Hd & Hl & He); [|constructor|cbn; lia|intros e ->%Hell; cbn; lia].
    unfold v6_finish in Hfin. case_decide; [done|]. case_decide.
    - destruct ell' as [e|]; [|done]. simplify_eq. split.
      + rewrite !Forall_app. split; [by apply Forall_take|].
        split; [apply Forall_replicate; done|by apply Forall_drop].
      + specialize (He e eq_refl).
        rewrite !length_app, length_replicate, length_take, length_drop. lia.
    - destruct ell'; [done|]. simplify_eq. split; [done|lia]. }
  unfold v6_groups. destruct (strip_prefix "::" s) as [[|c r]|].
  - intros [= <-]. split; [by apply (Forall_replicate (digit 65536) 8 0)|done].
  - apply Hgen. by intros e [= <-].
  - by apply Hgen.
Qed.

Lemma ParseAddr_ok s x : ParseAddr s = Some x → Addr_ok x ∧ x ≠ AddrZero.
Proof.
  unfold ParseAddr, parseIPv4, parseIPv6. intros H.
  assert (∀ t z, (gs ← v6_groups t; Some (Addr6 (of_be 65536 gs) z)) = Some x →
    Addr_ok x ∧ x ≠ AddrZero) as H6.
  { intros t z (gs & [Hd Hl]%v6_groups_range & [= <-])%bind_Some. split; [|done]. cbn.
    pose proof (of_be_bound 65536 gs eq_refl Hd) as Hb. rewrite Hl in Hb. apply Hb. }
  repeat case_match; simplify_eq; try done; try (by eapply H6).
  apply bind_Some in H as (fs & Hf & [= <-]).
  apply v4_run_range in Hf as [Hd Hl]; [|constructor|done|cbn; lia]. split; [|done]. cbn.
  pose proof (of_be_bound 256 fs eq_refl Hd) as Hb. rewrite Hl in Hb. apply Hb.
Qed.

Lemma atoi_nonneg s acc b : 0 ≤ acc → atoi_go acc s = Some b → 0 ≤ b.
Proof.
  revert acc. induction s as [|c s IH]; intros acc Hacc; cbn; [by intros [= <-]|].
  intros (d & Hd & Hgo)%bind_Some. eapply IH; [|done]. unfold dec_val, is_digit, in_range in Hd.
  case_bool_decide; simplify_eq. cbn in *. lia.
Qed.

Lemma ParsePrefix_ok s p : ParsePrefix s = Some p → Prefix_ok p.
Proof.
  unfold ParsePrefix. destruct (CutLast s "/") as [[a bs]|]; [|done].
  intros (ip & [Hok Hz]%ParseAddr_ok & H)%bind_Some. case_decide as Hzone; [done|].
  apply bind_Some in H as (b & Hb & H). case_decide; [done|]. injection H as <-.
  split; [done|]. split; [done|]. cbn.
  split; [by destruct (decide (withoutZone ip = ip))|]. split; [|lia].
  unfold parse_bits in Hb. destruct bs; [done|]. case_decide; [done|]. by eapply atoi_nonneg, Hb.
Qed.

Lemma land_bound a m n : 0 ≤ n → 0 ≤ a < 2 ^ n → 0 ≤ Z.land a m < 2 ^ n.
Proof.
  intros Hn Ha. assert (0 ≤ Z.land a m) by (apply Z.land_nonneg; lia). split; [done|].
  rewrite <-(Z.mod_small a (2 ^ n)), <-Z.land_ones by done.
  rewrite <-Z.land_assoc, (Z.land_comm _ m), Z.land_assoc, Z.land_ones by done.
  apply Z.mod_pos_bound. lia.
Qed.

Lemma Masked_ok p : Prefix_ok p → Prefix_ok (Masked p).
Proof.
  destruct p as [x b]. unfold Prefix_ok, Masked. cbn. intros (Hok & Hz & Hnz & Hb).
  destruct x as [|a|a z]; [done|..]; cbn in *; (split; [by apply land_bound|done]).
Qed.

Lemma Masked_idemp p : Masked (Masked p) = Masked p.
Proof.
  destruct p as [[|a|a z] b]; [done|..]; unfold Masked; cbn;
    by rewrite <-Z.land_assoc, Z.land_diag.
Qed.

Lemma Masked_bits p : pBits (Masked p) = pBits p.
Proof. by destruct p as [[] ?]. Qed.

(** Masking a prefix does not change which addresses it contains. *)
Lemma Masked_Contains p x : Contains (Masked p) x = Contains p x.
Proof.
  assert (∀ a b m, Z.land (Z.lxor (Z.land a m) b) m = Z.land (Z.lxor a b) m) as Hl.
  { intros a b m. apply Z.bits_inj'. intros i Hi. rewrite !Z.land_spec, !Z.lxor_spec, Z.land_spec.
    by destruct (Z.testbit a i), (Z.testbit b i), (Z.testbit m i). }
  destruct p as [[|a|a z] b], x as [|c|c w]; cbn; unfold Contains; cbn; rewrite ?Hl; done.
Qed.

(** ** [PrefixFrom] and the text of a possibly invalid prefix *)

Definition PrefixFrom (ip : Addr) (bits : Z) : option Prefix :=
  if decide (ip ≠ AddrZero ∧ 0 ≤ bits ≤ BitLen ip)
  then Some (MkPrefix (withoutZone ip) bits) else None.

Definition Prefix_text (p : option Prefix) : string :=
  match p with Some p => Prefix_String p | None => "invalid Prefix" end.

Lemma Unmap_ok x : Addr_ok x → Addr_ok (Unmap x).
Proof.
  destruct x as [|a|a z]; [done..|]. cbn. intros H. destruct (mapped a); cbn; [|done].
  by apply Z.mod_pos_bound.
Qed.

Lemma Unmap_zero x : Unmap x = AddrZero ↔ x = AddrZero.
Proof. destruct x; cbn; [done..|]. by destruct (mapped a). Qed.

(** A full-length prefix is its own mask. *)
Lemma Masked_host x :
  Addr_ok x → Masked (MkPrefix (withoutZone x) (BitLen x)) = MkPrefix (withoutZone x) (BitLen x).
Proof.
  destruct x as [|a|a z]; [done|..]; cbn; intros H; unfold Masked; cbn; unfold netmask.
  - rewrite Z.sub_diag, Z.shiftl_0_r, Z.land_ones, Z.mod_small by lia. done.
  - rewrite Z.sub_diag, Z.shiftl_0_r, Z.land_ones, Z.mod_small by lia. done.
Qed.

(** Where the text of a prefix starts and ends. *)
Lemma hexes_first gs :
  gs ≠ [] → Forall (digit 65536) gs →
  ∃ d r, hexes gs = String (hex_digit d) r ∧ 0 ≤ d < 16.
Proof.
  intros Hne Hd. destruct gs as [|x gs]; [done|]. apply Forall_cons in Hd as [Hx _].
  destruct (hex16_digits_ok x Hx) as (Hds & _ & Hl).
  assert (∃ d r, hex16 x = String (hex_digit d) r ∧ 0 ≤ d < 16) as (d & r & Heq & ?).
  { rewrite hex16_of_digits. destruct (hex16_digits x) as [|d ds]; [cbn in Hl; lia|].
    apply Forall_cons in Hds as [Hd _]. by exists d, (of_digits ds). }
  destruct gs as [|y gs]; [by exists d, r|].
  rewrite hexes_cons, Heq by done. cbn. eauto.
Qed.

(** The bytes an address can start with. *)
Definition addr_start (c : ascii) : bool :=
  is_digit c || in_range "a" "f" c || bool_decide (c = ":"%char).

Lemma hex_digit_start d : 0 ≤ d < 16 → addr_start (hex_digit d) = true.
Proof. intros H. apply (upto (λ d, addr_start (hex_digit d)) 16); [vm_compute; reflexivity|done]. Qed.

Lemma string4_first a : ∃ c r, string4 a = String c r ∧ addr_start c = true.
Proof.
  destruct (octets_inv a) as (p & q & r & s & Ho & Hp & _).
  rewrite (string4_eq _ _ _ _ _ Ho).
  pose (P n := match FormatInt n with String c _ => addr_start c | "" => false end).
  assert (P p = true) as HP by (apply (upto P 256); [vm_compute; reflexivity|done]).
  unfold P in HP. destruct (FormatInt p); [done|]. cbn. eauto.
Qed.

Lemma string6_first a : ∃ c r, string6 a = String c r ∧ addr_start c = true.
Proof.
  pose proof (groups_digits a) as Hd. pose proof (length_groups a) as Hl. unfold string6.
  assert (∀ gs rest, gs ≠ [] → Forall (digit 65536) gs →
    ∃ c r, hexes gs +:+ rest = String c r ∧ addr_start c = true) as Hhex.
  { intros gs rest Hne Hgs. destruct (hexes_first gs Hne Hgs) as (d & r & Heq & Hr).
    rewrite Heq. cbn. eauto using hex_digit_start. }
  destruct (zero_run (groups a)) as [[s l]|].
  - destruct (decide (take s (groups a) = [])) as [->|Hne]; [by exists ":"%char; eauto|].
    apply Hhex; [done|by apply Forall_take].
  - rewrite <-(str_app_nil_r (hexes _)). apply Hhex; [by destruct (groups a)|done].
Qed.

Lemma Addr_String_first x rest :
  x ≠ AddrZero → ∃ c r, Addr_String x +:+ rest = String c r ∧ addr_start c = true.
Proof.
  intros Hx. destruct x as [|a|a z]; [done|..]; cbn [Addr_String].
  - destruct (string4_first a) as (c & r & -> & ?). cbn. eauto.
  - unfold with_zone. destruct (mapped a), (decide (z = "")); rewrite ?str_app_assoc;
      try (by eexists _, _); destruct (string6_first a) as (c & r & -> & ?); cbn; eauto.
Qed.

Lemma bits_last b : 0 ≤ b ≤ 128 → ∃ t c, FormatInt b = t +:+ String c "" ∧ is_digit c = true.
Proof.
  intros Hb.
  pose (P n := bool_decide (Exists (λ c, is_Some (strip_suffix (String c "") (FormatInt n)))
    ["0"; "1"; "2"; "3"; "4"; "5"; "6"; "7"; "8"; "9"]%char)).
  assert (P b = true) as HP by (apply (upto P 129); [vm_compute; reflexivity|lia]).
  apply bool_decide_eq_true, Exists_exists in HP as (c & Hc & t & Ht%strip_suffix_Some).
  exists t, c. split; [done|]. rewrite !elem_of_cons in Hc.
  repeat destruct Hc as [->|Hc]; try done. by apply elem_of_nil in Hc.
Qed.

(** The text of a prefix has no surrounding space. *)
Lemma TrimSpace_Prefix p : Prefix_ok p → TrimSpace (Prefix_String p) = Prefix_String p.
Proof.
  destruct p as [x b]. intros (Hok & Hz & _ & Hb). cbn in *. apply TrimSpace_id.
  - unfold Prefix_String. cbn [pAddr pBits].
    destruct (Addr_String_first x ("/" +:+ FormatInt b) Hz) as (c & r & Heq & Hc).
    rewrite Heq. apply strip_space_None. intros q t Hq Hqt.
    assert (Forall (λ q, match q with String d _ => addr_start d = false | _ => False end)
      space_runes) as Hall by (repeat constructor).
    rewrite Forall_forall in Hall. specialize (Hall q Hq). destruct q as [|d q]; [done|].
    cbn in Hqt. injection Hqt as <- _. congruence.
  - destruct (strip_space_end (Prefix_String (MkPrefix x b))) as [r|] eqn:E; [|done].
    apply strip_space_end_Some in E as (q & Hq & Heq). exfalso.
    assert (0 ≤ b ≤ 128) as Hb' by (destruct x; cbn in Hb; lia).
    destruct (bits_last b Hb') as (t & c & Hbt & Hc).
    unfold Prefix_String in Heq. cbn [pAddr pBits] in Heq.
    rewrite Hbt, <-!str_app_assoc in Heq.
    assert (Forall (λ q, ∃ d u, q = u +:+ String d "" ∧ is_digit d = false) space_runes) as Hall.
    { repeat constructor; (by eexists _, "") || (by eexists _, (String _ "")) ||
        (by eexists _, (String _ (String _ ""))). }
    rewrite Forall_forall in Hall. destruct (Hall q Hq) as (d & u & -> & Hd).
    rewrite <-str_app_assoc in Heq.
    assert (∀ a b x y, a +:+ String x "" = b +:+ String y "" → x = y) as Hlast.
    { clear. induction a as [|a1 a IH]; intros [|b1 b] x y; cbn.
      - by intros [= ->].
      - destruct b; done.
      - destruct a; done.
      - intros [= _ H]. by eapply IH. }
    apply Hlast in Heq. congruence.
Qed.

(** ** Address classes

    Each predicate looks through an IPv4-mapped address first, as in Go. *)

Definition byte_at (i : nat) (a : Z) (n : nat) : Z := nth i (to_be 256 n a) 0.

Definition IsLoopback (x : Addr) : bool :=
  match Unmap x with
  | Addr4 a => bool_decide (byte_at 0 a 4 = 127)
  | Addr6 a _ => bool_decide (a = 1)
  | AddrZero => false
  end.

Definition IsLinkLocalUnicast (x : Addr) : bool :=
  match Unmap x with
  | Addr4 a => bool_decide (byte_at 0 a 4 = 169 ∧ byte_at 1 a 4 = 254)
  | Addr6 a _ => bool_decide (byte_at 0 a 16 = 254 ∧ Z.land (byte_at 1 a 16) 192 = 128)
  | AddrZero => false
  end.

Definition IsLinkLocalMulticast (x : Addr) : bool :=
  match Unmap x with
  | Addr4 a => bool_decide (byte_at 0 a 4 = 224 ∧ byte_at 1 a 4 = 0 ∧ byte_at 2 a 4 = 0)
  | Addr6 a _ => bool_decide (byte_at 0 a 16 = 255 ∧ Z.land (byte_at 1 a 16) 15 = 2)
  | AddrZero => false
  end.

Definition IsMulticast (x : Addr) : bool :=
  match Unmap x with
  | Addr4 a => bool_decide (Z.land (byte_at 0 a 4) 240 = 224)
  | Addr6 a _ => bool_decide (byte_at 0 a 16 = 255)
  | AddrZero => false
  end.

Definition IsInterfaceLocalMulticast (x : Addr) : bool :=
  match Unmap x with
  | Addr6 a _ => bool_decide (byte_at 0 a 16 = 255 ∧ Z.land (byte_at 1 a 16) 15 = 1)
  | _ => false
  end.

Definition IsUnspecified (x : Addr) : bool :=
  bool_decide (x = Addr4 0 ∨ x = Addr6 0 "").

(** ** [Addr.Less] is a strict total order *)

Lemma Addr_Less_4 a b : Addr_Less (Addr4 a) (Addr4 b) = true ↔ a < b.
Proof. unfold Addr_Less. cbn [BitLen]. rewrite decide_True by done. apply bool_decide_eq_true. Qed.

Lemma Addr_Less_6 a s b t :
  Addr_Less (Addr6 a s) (Addr6 b t) = true ↔ a < b ∨ a = b ∧ String.le s t ∧ s ≠ t.
Proof. unfold Addr_Less. cbn [BitLen]. rewrite decide_True by done. apply bool_decide_eq_true. Qed.

Lemma Addr_Less_irrefl x : Addr_Less x x = false.
Proof.
  destruct x as [|a|a s]; [done|..]; apply not_true_iff_false.
  - rewrite Addr_Less_4. lia.
  - rewrite Addr_Less_6. intros [?|(_ & _ & ?)]; [lia|done].
Qed.

Lemma Addr_Less_trans x y z : Addr_Less x y = true → Addr_Less y z = true → Addr_Less x z = true.
Proof.
  destruct x as [|a|a s], y as [|b|b t], z as [|c|c u]; try done.
  - rewrite !Addr_Less_4. lia.
  - rewrite !Addr_Less_6. intros [?|(-> & H1 & N1)] [?|(-> & H2 & N2)]; [left; lia|auto..|].
    right. split_and!; [done|by etrans|]. intros ->. apply N1. by apply (anti_symm String.le).
Qed.

Lemma Addr_Less_total x y : Addr_Less x y = true ∨ x = y ∨ Addr_Less y x = true.
Proof.
  destruct x as [|a|a s], y as [|b|b t]; auto; rewrite ?Addr_Less_4, ?Addr_Less_6.
  - destruct (Z.lt_trichotomy a b) as [?|[->|?]]; auto.
  - destruct (Z.lt_trichotomy a b) as [?|[->|?]]; [auto| |auto].
    destruct (decide (s = t)) as [->|Hne]; [auto|].
    destruct (total String.le s t); [left|right; right]; right; auto.
Qed.
