(* ===== verification/Wire.v ===== *)
(** * The wire contract

    The messages of [proto/innerwall/v1] the modelled code reads and writes.
    A proto3 enum is open: a value outside the declared ones is carried by the
    [*_unrecognized] constructor, with its number.  Unsigned fields are
    integers; the model keeps them in range where the code's arithmetic on them
    matters.  A oneof is an inductive type with one more constructor for the
    unset case. *)

From S2P Require Import Prelude.

Inductive Protocol :=
| PROTOCOL_UNSPECIFIED
| PROTOCOL_TCP
| PROTOCOL_UDP
| PROTOCOL_ICMP
| Protocol_unrecognized (n : Z).

Inductive EnforcementMode :=
| ENFORCEMENT_MODE_UNSPECIFIED
| ENFORCEMENT_MODE_VISIBILITY
| ENFORCEMENT_MODE_SIMULATION
| ENFORCEMENT_MODE_ENFORCED
| EnforcementMode_unrecognized (n : Z).

Inductive Direction :=
| DIRECTION_UNSPECIFIED
| DIRECTION_INBOUND
| DIRECTION_OUTBOUND
| Direction_unrecognized (n : Z).

Inductive SyncState :=
| SYNC_STATE_UNSPECIFIED
| SYNC_STATE_SYNCED
| SYNC_STATE_PENDING
| SYNC_STATE_DEGRADED
| SYNC_STATE_OFFLINE.

Inductive AckStatus :=
| ACK_STATUS_UNSPECIFIED
| ACK_STATUS_APPLIED
| ACK_STATUS_FAILED
| AckStatus_unrecognized (n : Z).

Inductive OwnedTableState :=
| OWNED_TABLE_STATE_UNSPECIFIED
| OWNED_TABLE_STATE_PRESENT
| OWNED_TABLE_STATE_ABSENT.

Inductive PolicyDecision :=
| POLICY_DECISION_UNSPECIFIED
| POLICY_DECISION_OBSERVED
| POLICY_DECISION_ALLOWED
| POLICY_DECISION_WOULD_BLOCK
| POLICY_DECISION_BLOCKED
| PolicyDecision_unrecognized (n : Z).

#[export] Instance Protocol_eq_dec : EqDecision Protocol.
Proof. solve_decision. Defined.
#[export] Instance EnforcementMode_eq_dec : EqDecision EnforcementMode.
Proof. solve_decision. Defined.
#[export] Instance Direction_eq_dec : EqDecision Direction.
Proof. solve_decision. Defined.
#[export] Instance SyncState_eq_dec : EqDecision SyncState.
Proof. solve_decision. Defined.
#[export] Instance AckStatus_eq_dec : EqDecision AckStatus.
Proof. solve_decision. Defined.
#[export] Instance OwnedTableState_eq_dec : EqDecision OwnedTableState.
Proof. solve_decision. Defined.
#[export] Instance PolicyDecision_eq_dec : EqDecision PolicyDecision.
Proof. solve_decision. Defined.

#[export] Instance Protocol_countable : Countable Protocol.
Proof.
  refine (inj_countable'
    (λ p, match p with
          | PROTOCOL_UNSPECIFIED => inl 0%nat | PROTOCOL_TCP => inl 1%nat | PROTOCOL_UDP => inl 2%nat
          | PROTOCOL_ICMP => inl 3%nat | Protocol_unrecognized n => inr n
          end)
    (λ x, match x with
          | inl 0%nat => PROTOCOL_UNSPECIFIED | inl 1%nat => PROTOCOL_TCP | inl 2%nat => PROTOCOL_UDP
          | inl _ => PROTOCOL_ICMP | inr n => Protocol_unrecognized n
          end) _).
  by intros [].
Defined.

#[export] Instance EnforcementMode_countable : Countable EnforcementMode.
Proof.
  refine (inj_countable'
    (λ m, match m with
          | ENFORCEMENT_MODE_UNSPECIFIED => inl 0%nat | ENFORCEMENT_MODE_VISIBILITY => inl 1%nat
          | ENFORCEMENT_MODE_SIMULATION => inl 2%nat | ENFORCEMENT_MODE_ENFORCED => inl 3%nat
          | EnforcementMode_unrecognized n => inr n
          end)
    (λ x, match x with
          | inl 0%nat => ENFORCEMENT_MODE_UNSPECIFIED | inl 1%nat => ENFORCEMENT_MODE_VISIBILITY
          | inl 2%nat => ENFORCEMENT_MODE_SIMULATION | inl _ => ENFORCEMENT_MODE_ENFORCED
          | inr n => EnforcementMode_unrecognized n
          end) _).
  by intros [].
Defined.

(** The numbers of the declared values. *)
Definition Protocol_number (p : Protocol) : Z :=
  match p with
  | PROTOCOL_UNSPECIFIED => 0
  | PROTOCOL_TCP => 1
  | PROTOCOL_UDP => 2
  | PROTOCOL_ICMP => 3
  | Protocol_unrecognized n => n
  end.

Definition EnforcementMode_number (m : EnforcementMode) : Z :=
  match m with
  | ENFORCEMENT_MODE_UNSPECIFIED => 0
  | ENFORCEMENT_MODE_VISIBILITY => 1
  | ENFORCEMENT_MODE_SIMULATION => 2
  | ENFORCEMENT_MODE_ENFORCED => 3
  | EnforcementMode_unrecognized n => n
  end.

(** The generated [String] methods: the declared name, or the number. *)
Definition Protocol_String (p : Protocol) : string :=
  match p with
  | PROTOCOL_UNSPECIFIED => "PROTOCOL_UNSPECIFIED"
  | PROTOCOL_TCP => "PROTOCOL_TCP"
  | PROTOCOL_UDP => "PROTOCOL_UDP"
  | PROTOCOL_ICMP => "PROTOCOL_ICMP"
  | Protocol_unrecognized n => pretty n
  end.

Definition EnforcementMode_String (m : EnforcementMode) : string :=
  match m with
  | ENFORCEMENT_MODE_UNSPECIFIED => "ENFORCEMENT_MODE_UNSPECIFIED"
  | ENFORCEMENT_MODE_VISIBILITY => "ENFORCEMENT_MODE_VISIBILITY"
  | ENFORCEMENT_MODE_SIMULATION => "ENFORCEMENT_MODE_SIMULATION"
  | ENFORCEMENT_MODE_ENFORCED => "ENFORCEMENT_MODE_ENFORCED"
  | EnforcementMode_unrecognized n => pretty n
  end.

(** The generated map from names to values. *)
Definition Protocol_value (s : string) : option Protocol :=
  if decide (s = "PROTOCOL_UNSPECIFIED") then Some PROTOCOL_UNSPECIFIED
  else if decide (s = "PROTOCOL_TCP") then Some PROTOCOL_TCP
  else if decide (s = "PROTOCOL_UDP") then Some PROTOCOL_UDP
  else if decide (s = "PROTOCOL_ICMP") then Some PROTOCOL_ICMP
  else None.

(** ** policy.proto *)

Record PortRange := MkPortRange { prStart : Z; prEnd : Z }.

Record ResolvedRule := MkResolvedRule {
  rrRuleId : string;
  rrPeerCidrs : list string;
  rrProtocol : Protocol;
  rrPorts : list PortRange;
}.

Record WorkloadPolicy := MkWorkloadPolicy {
  wpVersion : Z;
  wpMode : EnforcementMode;
  wpInboundRules : list ResolvedRule;
}.

Record PeerChange := MkPeerChange { pcRuleId : string; pcPeerCidrs : list string }.

Inductive DeltaChange :=
| UpsertRule (r : ResolvedRule)
| RemoveRuleId (id : string)
| AddPeers (pc : PeerChange)
| RemovePeers (pc : PeerChange)
| SetMode (m : EnforcementMode)
| ChangeUnset.

Record PolicyDelta := MkPolicyDelta {
  pdFromVersion : Z;
  pdToVersion : Z;
  pdChanges : list DeltaChange;
}.

#[export] Instance PortRange_eq_dec : EqDecision PortRange.
Proof. solve_decision. Defined.
#[export] Instance ResolvedRule_eq_dec : EqDecision ResolvedRule.
Proof. solve_decision. Defined.
#[export] Instance WorkloadPolicy_eq_dec : EqDecision WorkloadPolicy.
Proof. solve_decision. Defined.

#[export] Instance PortRange_countable : Countable PortRange.
Proof. apply (inj_countable' (λ p, (prStart p, prEnd p)) (λ x, MkPortRange x.1 x.2)). by intros []. Defined.
#[export] Instance ResolvedRule_countable : Countable ResolvedRule.
Proof.
  apply (inj_countable' (λ r, (rrRuleId r, rrPeerCidrs r, rrProtocol r, rrPorts r))
    (λ x, MkResolvedRule x.1.1.1 x.1.1.2 x.1.2 x.2)). by intros [].
Defined.
#[export] Instance WorkloadPolicy_countable : Countable WorkloadPolicy.
Proof.
  apply (inj_countable' (λ p, (wpVersion p, wpMode p, wpInboundRules p))
    (λ x, MkWorkloadPolicy x.1.1 x.1.2 x.2)). by intros [].
Defined.

(** The generated getters return zero values on a nil message. *)
Definition GetVersion (p : option WorkloadPolicy) : Z := default 0%Z (wpVersion <$> p).
Definition GetMode (p : option WorkloadPolicy) : EnforcementMode :=
  default ENFORCEMENT_MODE_UNSPECIFIED (wpMode <$> p).
Definition GetInboundRules (p : option WorkloadPolicy) : list ResolvedRule :=
  default [] (wpInboundRules <$> p).

(** ** inventory.proto *)

Record NetworkInterface := MkNetworkInterface {
  niName : string;
  niAddresses : list string;
  niMacAddress : string;
}.

Record HostFacts := MkHostFacts {
  hfHostname : string;
  hfInterfaces : list NetworkInterface;
}.

Definition GetInterfaces (f : option HostFacts) : list NetworkInterface :=
  default [] (hfInterfaces <$> f).

(** ** agent.proto: the sync stream *)

Inductive PolicyUpdate :=
| UpdateSnapshot (policy : option WorkloadPolicy)
| UpdateDelta (delta : PolicyDelta)
| UpdateUnset.

Record PolicyAck := MkPolicyAck { paVersion : Z; paStatus : AckStatus; paErrorDetail : string }.

Record SyncConfig := MkSyncConfig {
  scHeartbeatIntervalSeconds : Z;
  scInventoryReportIntervalSeconds : Z;
  scFlowAggregationWindowSeconds : Z;
  scFlowBatchMaxRecords : Z;
}.

Inductive Directive := DirReconnect | DirReenroll | DirUnknown.

Inductive SyncResponse :=
| RespHelloAck (config : option SyncConfig)
| RespPolicyUpdate (update : PolicyUpdate)
| RespDirective (d : Directive)
| RespUnset.

Record ListeningService := MkListeningService {
  lsProtocol : Protocol;
  lsPort : Z;
  lsProcessName : string;
  lsProcessPath : string;
}.

Record Hello := MkHello {
  heAgentVersion : string;
  heCapabilities : list string;
  heAppliedPolicyVersion : Z;
  heFacts : option HostFacts;
}.

Record Heartbeat := MkHeartbeat {
  hbUptimeSeconds : Z;
  hbDroppedFlowRecords : Z;
  hbCredentialRenewalError : string;
  hbSourceOverruns : Z;
  hbOwnedTable : OwnedTableState;
}.

Record InventoryReport := MkInventoryReport {
  irFacts : option HostFacts;
  irListeningServices : list ListeningService;
}.

Inductive SyncRequest :=
| ReqHello (h : Hello)
| ReqPolicyAck (a : PolicyAck)
| ReqInventory (r : InventoryReport)
| ReqHeartbeat (h : Heartbeat)
| ReqUnset.

(** ** agent.proto: flow reports *)

Record FlowRecord := MkFlowRecord {
  frSrcAddress : string;
  frDstAddress : string;
  frDstPort : Z;
  frProtocol : Protocol;
  frDirection : Direction;
  frDecision : PolicyDecision;
  frMatchedRuleId : string;
  frConnectionCount : Z;
  frByteCount : Z;
  frFirstSeen : Z;
  frLastSeen : Z;
  frProcessName : string;
}.

Definition PolicyDecision_number (d : PolicyDecision) : Z :=
  match d with
  | POLICY_DECISION_UNSPECIFIED => 0
  | POLICY_DECISION_OBSERVED => 1
  | POLICY_DECISION_ALLOWED => 2
  | POLICY_DECISION_WOULD_BLOCK => 3
  | POLICY_DECISION_BLOCKED => 4
  | PolicyDecision_unrecognized n => n
  end.

#[export] Instance PolicyDecision_countable : Countable PolicyDecision.
Proof.
  apply (inj_countable'
    (λ d, match d with
          | POLICY_DECISION_UNSPECIFIED => inl 0%nat | POLICY_DECISION_OBSERVED => inl 1%nat
          | POLICY_DECISION_ALLOWED => inl 2%nat | POLICY_DECISION_WOULD_BLOCK => inl 3%nat
          | POLICY_DECISION_BLOCKED => inl 4%nat | PolicyDecision_unrecognized n => inr n
          end)
    (λ x, match x with
          | inl 0%nat => POLICY_DECISION_UNSPECIFIED | inl 1%nat => POLICY_DECISION_OBSERVED
          | inl 2%nat => POLICY_DECISION_ALLOWED | inl 3%nat => POLICY_DECISION_WOULD_BLOCK
          | inl _ => POLICY_DECISION_BLOCKED | inr n => PolicyDecision_unrecognized n
          end)). by intros [].
Defined.
