(* ===== verification/Rendered.v ===== *)
(** * The algebra of rendered policies: [internal/rendered]

    Canonical form, equality, the delta between two versions and its
    application ([rendered.go]), and the identities of resolved rules
    ([ruleid.go]).  A nil policy is [None].  Pointers into a policy are values
    here: [Apply] works on the copies [Canonical] makes and shares nothing with
    its base. *)

From S2P Require Import Prelude GoStd Netip Wire.
From Stdlib Require Import Ascii.

(** ** Prefix texts *)

(** [HostRoute]. *)
Definition HostRoute (addr : Addr) : string :=
  let addr := Unmap addr in Prefix_text (PrefixFrom addr (BitLen addr)).

(** [NormalizeCIDR]. *)
Definition NormalizeCIDR (s : string) : string :=
  let s := TrimSpace s in
  match ParsePrefix s with
  | Some pfx => Prefix_String (Masked pfx)
  | None => match ParseAddr s with Some addr => HostRoute addr | None => s end
  end.

Definition canonicalCIDRs (l : list string) : list string :=
  canon String.le (NormalizeCIDR <$> l).

(** ** Ports *)

(** The order of [canonicalPorts]: by start, then by end. *)
Definition port_le (a b : PortRange) : Prop :=
  (prStart a < prStart b ∨ prStart a = prStart b ∧ prEnd a ≤ prEnd b)%Z.

#[export] Instance port_le_dec : RelDecision port_le.
Proof. intros a b. unfold port_le. apply _. Defined.
#[export] Instance port_le_po : PartialOrder port_le.
Proof.
  unfold port_le. split; [split|].
  - intros a. right. lia.
  - intros a b c. lia.
  - intros [s1 e1] [s2 e2]; cbn. intros. f_equal; lia.
Qed.
#[export] Instance port_le_total : Total port_le.
Proof. intros a b. unfold port_le. lia. Qed.

Definition canonicalPorts (l : list PortRange) : list PortRange := canon port_le l.

(** ** Policies *)

Definition canonicalRule (r : ResolvedRule) : ResolvedRule :=
  MkResolvedRule (rrRuleId r) (canonicalCIDRs (rrPeerCidrs r)) (rrProtocol r)
    (canonicalPorts (rrPorts r)).

Definition Empty : WorkloadPolicy := MkWorkloadPolicy 0 ENFORCEMENT_MODE_VISIBILITY [].

(** [indexRules]: a later rule with the same id replaces an earlier one. *)
Definition indexRules (rules : list ResolvedRule) : gmap string ResolvedRule :=
  foldl (λ m r, <[rrRuleId r := r]> m) ∅ rules.

(** [sort.Strings] on the keys of a map. *)
Definition sorted_ids {A} (m : gmap string A) : list string :=
  merge_sort String.le (elements (dom m)).

(** The rules of an index, in the order of their ids. *)
Definition rules_by_id (m : gmap string ResolvedRule) : list ResolvedRule :=
  omap (λ id, m !! id) (sorted_ids m).

Definition Canonical (p : option WorkloadPolicy) : WorkloadPolicy :=
  match p with
  | None => Empty
  | Some p =>
      MkWorkloadPolicy (wpVersion p) (wpMode p)
        (rules_by_id (indexRules (canonicalRule <$> wpInboundRules p)))
  end.

(** [Equal]: content, not version. *)
Definition without_version (p : WorkloadPolicy) : WorkloadPolicy :=
  MkWorkloadPolicy 0 (wpMode p) (wpInboundRules p).

Definition Equal (a b : option WorkloadPolicy) : bool :=
  bool_decide (without_version (Canonical a) = without_version (Canonical b)).

(** ** Deltas *)

Fixpoint portsEqual (a b : list PortRange) : bool :=
  match a, b with
  | [], [] => true
  | x :: a', y :: b' =>
      bool_decide (prStart x = prStart y) && bool_decide (prEnd x = prEnd y) && portsEqual a' b'
  | _, _ => false
  end.

(** [setDiff]: the elements of [cur] not in [old], and of [old] not in [cur]. *)
Definition setDiff (old cur : list string) : list string * list string :=
  (filter (λ s, s ∉ old) cur, filter (λ s, s ∉ cur) old).

(** The changes [Diff] emits for one rule id. *)
Definition ruleChanges (id : string) (old cur : option ResolvedRule) : list DeltaChange :=
  match old, cur with
  | None, Some c => [UpsertRule c]
  | Some _, None => [RemoveRuleId id]
  | Some o, Some c =>
      if negb (bool_decide (rrProtocol o = rrProtocol c)) || negb (portsEqual (rrPorts o) (rrPorts c))
      then [UpsertRule c]
      else
        let '(added, removed) := setDiff (rrPeerCidrs o) (rrPeerCidrs c) in
        (if decide (added = []) then [] else [AddPeers (MkPeerChange id added)]) ++
        (if decide (removed = []) then [] else [RemovePeers (MkPeerChange id removed)])
  | None, None => []
  end.

Definition Diff (from to : option WorkloadPolicy) : list DeltaChange :=
  let from := Canonical from in
  let to := Canonical to in
  let fromRules := indexRules (wpInboundRules from) in
  let toRules := indexRules (wpInboundRules to) in
  let ids := elements (dom fromRules) ++
             filter (λ id, fromRules !! id = None) (elements (dom toRules)) in
  (if decide (wpMode from = wpMode to) then [] else [SetMode (wpMode to)]) ++
  (merge_sort String.le ids ≫= λ id, ruleChanges id (fromRules !! id) (toRules !! id)).

Definition Delta (from to : option WorkloadPolicy) : PolicyDelta :=
  MkPolicyDelta (GetVersion from) (GetVersion to) (Diff from to).

(** The errors of [Apply], with the values they name. *)
Inductive ApplyError :=
| ErrBaseMismatch (applied from : Z)
| ErrUnknownRule (change : nat) (id : string)
| ErrMalformedChange (change : nat).

#[export] Instance ApplyError_eq_dec : EqDecision ApplyError.
Proof. solve_decision. Defined.

(** The position of the change an error names. *)
Definition error_index (e : ApplyError) : nat :=
  match e with
  | ErrBaseMismatch _ _ => 0
  | ErrUnknownRule i _ | ErrMalformedChange i => i
  end.

(** One change of the loop in [Apply], on the mode and the rules by id. *)
Definition applyChange (i : nat) (ch : DeltaChange)
    (st : EnforcementMode * gmap string ResolvedRule)
  : result ApplyError (EnforcementMode * gmap string ResolvedRule) :=
  let '(mode, rules) := st in
  match ch with
  | UpsertRule r => Ok (mode, <[rrRuleId r := canonicalRule r]> rules)
  | RemoveRuleId id => Ok (mode, delete id rules)
  | AddPeers pc =>
      match rules !! pcRuleId pc with
      | None => Err (ErrUnknownRule i (pcRuleId pc))
      | Some r =>
          let r' := MkResolvedRule (rrRuleId r)
                      (canonicalCIDRs (rrPeerCidrs r ++ pcPeerCidrs pc))
                      (rrProtocol r) (rrPorts r) in
          Ok (mode, <[pcRuleId pc := r']> rules)
      end
  | RemovePeers pc =>
      match rules !! pcRuleId pc with
      | None => Err (ErrUnknownRule i (pcRuleId pc))
      | Some r =>
          let gone := NormalizeCIDR <$> pcPeerCidrs pc in
          let r' := MkResolvedRule (rrRuleId r) (filter (λ p, p ∉ gone) (rrPeerCidrs r))
                      (rrProtocol r) (rrPorts r) in
          Ok (mode, <[pcRuleId pc := r']> rules)
      end
  | SetMode m => Ok (m, rules)
  | ChangeUnset => Err (ErrMalformedChange i)
  end.

Fixpoint applyChanges (i : nat) (chs : list DeltaChange)
    (st : EnforcementMode * gmap string ResolvedRule)
  : result ApplyError (EnforcementMode * gmap string ResolvedRule) :=
  match chs with
  | [] => Ok st
  | ch :: chs' => st' ← applyChange i ch st; applyChanges (S i) chs' st'
  end.

Definition Apply (base : option WorkloadPolicy) (delta : PolicyDelta)
  : result ApplyError WorkloadPolicy :=
  let out := Canonical base in
  if decide (wpVersion out ≠ pdFromVersion delta)
  then Err (ErrBaseMismatch (wpVersion out) (pdFromVersion delta))
  else
    '(mode, rules) ← applyChanges 0 (pdChanges delta) (wpMode out, indexRules (wpInboundRules out));
    Ok (Canonical (Some (MkWorkloadPolicy (pdToVersion delta) mode (map_to_list rules).*2))).

(** ** Rule identities *)

Definition protoName (p : Protocol) : string :=
  ToLower (TrimPrefix (Protocol_String p) "PROTOCOL_").

Definition RuleID (authoredID : string) (p : Protocol) : string :=
  authoredID +:+ "/" +:+ protoName p.

Inductive ProvenanceError :=
| NotARuleID (ruleID : string)
| UnknownProtocol (ruleID suffix : string).

Definition Provenance (ruleID : string) : result ProvenanceError (string * Protocol) :=
  match Cut ruleID "/"%char with
  | None | Some ("", _) => Err (NotARuleID ruleID)
  | Some (authoredID, suffix) =>
      match Protocol_value ("PROTOCOL_" +:+ ToUpper suffix) with
      | None | Some PROTOCOL_UNSPECIFIED => Err (UnknownProtocol ruleID suffix)
      | Some p => Ok (authoredID, p)
      end
  end.

(** ** Descriptions for the log *)

Definition portsString (ports : list PortRange) : string :=
  match ports with
  | [] => "any"
  | _ => Join ((λ p, if decide (prStart p = prEnd p) then FormatInt (prStart p)
                     else FormatInt (prStart p) +:+ "-" +:+ FormatInt (prEnd p)) <$> ports) ","
  end.

Definition Describe (ch : DeltaChange) : string :=
  match ch with
  | UpsertRule r =>
      "upsert rule " +:+ rrRuleId r +:+ " " +:+ protoName (rrProtocol r) +:+ " ports=" +:+
      portsString (rrPorts r) +:+ " peers=" +:+ FormatInt (Z.of_nat (length (rrPeerCidrs r)))
  | RemoveRuleId id => "remove rule " +:+ id
  | AddPeers pc => "add peers " +:+ pcRuleId pc +:+ " +" +:+ Join (pcPeerCidrs pc) ","
  | RemovePeers pc => "remove peers " +:+ pcRuleId pc +:+ " -" +:+ Join (pcPeerCidrs pc) ","
  | SetMode m => "set mode " +:+ EnforcementMode_String m
  | ChangeUnset => "malformed change"
  end.

(** ** Normalization is idempotent *)

Lemma NormalizeCIDR_prefix p :
  Prefix_ok p → Masked p = p → NormalizeCIDR (Prefix_String p) = Prefix_String p.
Proof.
  intros Hok Hm. unfold NormalizeCIDR. rewrite TrimSpace_Prefix by done.
  by rewrite ParsePrefix_String, Hm.
Qed.

Lemma HostRoute_prefix addr :
  Addr_ok addr → addr ≠ AddrZero →
  ∃ p, PrefixFrom (Unmap addr) (BitLen (Unmap addr)) = Some p ∧
       HostRoute addr = Prefix_String p ∧ Prefix_ok p ∧ Masked p = p.
Proof.
  intros Hok Hz. unfold HostRoute.
  assert (Unmap addr ≠ AddrZero) as Hz' by (by rewrite Unmap_zero).
  pose proof (Unmap_ok _ Hok) as Hok'. generalize dependent (Unmap addr). clear.
  intros x Hz Hok. exists (MkPrefix (withoutZone x) (BitLen x)).
  assert (PrefixFrom x (BitLen x) = Some (MkPrefix (withoutZone x) (BitLen x))) as Hp
    by (by destruct x).
  split_and!; [done|by rewrite Hp| |by apply Masked_host].
  destruct x as [|a|a z]; [done|..]; unfold Prefix_ok; cbn in *; auto with lia.
Qed.

Lemma NormalizeCIDR_idemp s : NormalizeCIDR (NormalizeCIDR s) = NormalizeCIDR s.
Proof.
  unfold NormalizeCIDR at 2 3. destruct (ParsePrefix (TrimSpace s)) as [p|] eqn:Hp.
  - apply NormalizeCIDR_prefix; [|apply Masked_idemp]. by eapply Masked_ok, ParsePrefix_ok.
  - destruct (ParseAddr (TrimSpace s)) as [x|] eqn:Hx.
    + apply ParseAddr_ok in Hx as [Hok Hz].
      destruct (HostRoute_prefix x Hok Hz) as (p & _ & -> & ? & ?). by apply NormalizeCIDR_prefix.
    + unfold NormalizeCIDR. by rewrite TrimSpace_idemp, Hp, Hx.
Qed.

Lemma elem_of_canonicalCIDRs c l : c ∈ canonicalCIDRs l ↔ ∃ x, x ∈ l ∧ c = NormalizeCIDR x.
Proof. unfold canonicalCIDRs. rewrite elem_of_canon, list_elem_of_fmap. naive_solver. Qed.

Lemma canonicalCIDRs_idemp l : canonicalCIDRs (canonicalCIDRs l) = canonicalCIDRs l.
Proof.
  apply (canon_eq_iff String.le). intros c. rewrite list_elem_of_fmap.
  setoid_rewrite elem_of_canonicalCIDRs. rewrite list_elem_of_fmap. split.
  - intros (y & -> & x & Hx & ->). exists x. by rewrite NormalizeCIDR_idemp.
  - intros (x & -> & Hx). exists (NormalizeCIDR x). rewrite NormalizeCIDR_idemp. eauto.
Qed.

Lemma canonicalCIDRs_fixed l c : canonicalCIDRs l = l → c ∈ l → NormalizeCIDR c = c.
Proof.
  intros Hl Hc. rewrite <-Hl in Hc. apply elem_of_canonicalCIDRs in Hc as (x & _ & ->).
  apply NormalizeCIDR_idemp.
Qed.

Lemma canonicalRule_idemp r : canonicalRule (canonicalRule r) = canonicalRule r.
Proof.
  unfold canonicalRule. cbn [rrRuleId rrPeerCidrs rrProtocol rrPorts].
  rewrite canonicalCIDRs_idemp. f_equal. apply canon_idemp; apply _.
Qed.

(** ** Indexes by rule id *)

(** A map whose rules carry their key and are in canonical form: what the code
    holds between [indexRules] and the final [Canonical]. *)
Definition canonical_index (m : gmap string ResolvedRule) : Prop :=
  map_Forall (λ id r, rrRuleId r = id ∧ canonicalRule r = r) m.

Lemma indexRules_snoc l r : indexRules (l ++ [r]) = <[rrRuleId r := r]> (indexRules l).
Proof. unfold indexRules. by rewrite foldl_app. Qed.

(** The index holds the last rule of each id. *)
Lemma indexRules_lookup l id :
  indexRules l !! id = last (filter (λ r, rrRuleId r = id) l).
Proof.
  induction l as [|r l IH] using rev_ind; [done|].
  rewrite indexRules_snoc, filter_app, filter_cons, filter_nil.
  case_decide as Hid.
  - by rewrite Hid, lookup_insert_eq, last_snoc.
  - by rewrite lookup_insert_ne, app_nil_r.
Qed.

Lemma indexRules_Some l id r : indexRules l !! id = Some r → r ∈ l ∧ rrRuleId r = id.
Proof.
  rewrite indexRules_lookup. intros H%last_Some_elem_of.
  apply list_elem_of_filter in H. naive_solver.
Qed.

(** A list that lists the rules of a keyed map, each id once, indexes to it. *)
Lemma indexRules_inverse l m :
  map_Forall (λ id r, rrRuleId r = id) m → NoDup (rrRuleId <$> l) →
  (∀ r, r ∈ l ↔ m !! rrRuleId r = Some r) → indexRules l = m.
Proof.
  intros Hkey Hnd Hl. apply map_eq. intros id. apply option_eq. intros r. split.
  - intros [Hr <-]%indexRules_Some. by apply Hl.
  - intros Hr. pose proof (Hkey _ _ Hr) as <-. rewrite indexRules_lookup.
    by rewrite (filter_unique rrRuleId l r) by (by try apply Hl).
Qed.

Lemma elem_of_sorted_ids {A} (m : gmap string A) id : id ∈ sorted_ids m ↔ is_Some (m !! id).
Proof.
  unfold sorted_ids. rewrite merge_sort_Permutation, elem_of_elements. apply elem_of_dom.
Qed.

Lemma sorted_ids_NoDup {A} (m : gmap string A) : NoDup (sorted_ids m).
Proof. unfold sorted_ids. rewrite merge_sort_Permutation. apply NoDup_elements. Qed.

Lemma rules_by_id_ids m :
  map_Forall (λ id r, rrRuleId r = id) m → rrRuleId <$> rules_by_id m = sorted_ids m.
Proof.
  intros Hkey. unfold rules_by_id.
  assert (Forall (λ id, is_Some (m !! id)) (sorted_ids m)) as Hall
    by (apply Forall_forall; intros id; apply elem_of_sorted_ids).
  induction Hall as [|id l [r Hr] _ IH]; [done|]. cbn. rewrite Hr. cbn. f_equal; [|done].
  by apply Hkey.
Qed.

Lemma indexRules_by_id m :
  map_Forall (λ id r, rrRuleId r = id) m → indexRules (rules_by_id m) = m.
Proof.
  intros Hkey. apply indexRules_inverse; [done|..].
  - rewrite rules_by_id_ids by done. apply sorted_ids_NoDup.
  - intros r. unfold rules_by_id. rewrite list_elem_of_omap. split.
    + intros (id & _ & Hr). by rewrite (Hkey _ _ Hr).
    + intros Hr. exists (rrRuleId r). split; [|done]. rewrite elem_of_sorted_ids. eauto.
Qed.

Lemma indexRules_map_to_list m :
  map_Forall (λ id r, rrRuleId r = id) m → indexRules (map_to_list m).*2 = m.
Proof.
  intros Hkey. apply indexRules_inverse; [done|..].
  - assert (rrRuleId <$> (map_to_list m).*2 = (map_to_list m).*1) as ->;
      [|apply NoDup_fst_map_to_list].
    rewrite <-list_fmap_compose. apply list_fmap_ext. intros i [id r] Hi. cbn.
    apply Hkey. apply elem_of_map_to_list. eauto using list_elem_of_lookup_2.
  - intros r. rewrite list_elem_of_fmap. split.
    + intros ([id r'] & -> & H%elem_of_map_to_list). cbn. by rewrite (Hkey _ _ H).
    + intros Hr%elem_of_map_to_list. by exists (rrRuleId r, r).
Qed.

(** ** Canonical policies *)

(** The index of a policy's canonical rules. *)
Definition canonicalIndex (p : option WorkloadPolicy) : gmap string ResolvedRule :=
  indexRules (canonicalRule <$> GetInboundRules p).

Lemma canonicalIndex_ok p : canonical_index (canonicalIndex p).
Proof.
  intros id r [Hr Hid]%indexRules_Some. split; [done|].
  apply list_elem_of_fmap in Hr as (r' & -> & _). apply canonicalRule_idemp.
Qed.

Lemma canonical_index_keyed m : canonical_index m → map_Forall (λ id r, rrRuleId r = id) m.
Proof. intros H id r Hr. by destruct (H id r Hr). Qed.

Lemma Canonical_rules p : wpInboundRules (Canonical p) = rules_by_id (canonicalIndex p).
Proof. by destruct p. Qed.

Lemma Canonical_index p : indexRules (wpInboundRules (Canonical p)) = canonicalIndex p.
Proof.
  rewrite Canonical_rules. by apply indexRules_by_id, canonical_index_keyed, canonicalIndex_ok.
Qed.

Lemma Canonical_version p : wpVersion (Canonical p) = GetVersion p.
Proof. by destruct p. Qed.

(** Any listing of a canonical index has the same canonical form. *)
Lemma Canonical_listing v mode l m :
  canonical_index m → indexRules l = m → Forall (λ r, canonicalRule r = r) l →
  Canonical (Some (MkWorkloadPolicy v mode l)) = MkWorkloadPolicy v mode (rules_by_id m).
Proof.
  intros Hm Hl Hc. cbn. f_equal. rewrite <-Hl.
  assert (canonicalRule <$> l = l) as ->; [|done].
  clear -Hc. induction Hc as [|r l Hr _ IH]; [done|]. cbn. by rewrite Hr, IH.
Qed.

Lemma rules_by_id_canonical m :
  canonical_index m → Forall (λ r, canonicalRule r = r) (rules_by_id m).
Proof.
  intros Hm. apply Forall_forall. intros r. unfold rules_by_id.
  rewrite list_elem_of_omap. intros (id & _ & Hr). by destruct (Hm _ _ Hr).
Qed.

Lemma Canonical_of_map v mode m :
  canonical_index m →
  Canonical (Some (MkWorkloadPolicy v mode (map_to_list m).*2)) =
  MkWorkloadPolicy v mode (rules_by_id m).
Proof.
  intros Hm. apply Canonical_listing; [done|..].
  - by apply indexRules_map_to_list, canonical_index_keyed.
  - apply Forall_forall. intros r. rewrite list_elem_of_fmap.
    intros ([id r'] & -> & Hr%elem_of_map_to_list). by destruct (Hm _ _ Hr).
Qed.

Lemma Canonical_eq p :
  Canonical p = MkWorkloadPolicy (GetVersion p) (wpMode (Canonical p)) (rules_by_id (canonicalIndex p)).
Proof. by destruct p. Qed.

Lemma Canonical_idemp p : Canonical (Some (Canonical p)) = Canonical p.
Proof.
  rewrite (Canonical_eq p) at 1. rewrite (Canonical_eq p) at 2.
  apply Canonical_listing; [apply canonicalIndex_ok|..].
  - apply indexRules_by_id, canonical_index_keyed, canonicalIndex_ok.
  - apply rules_by_id_canonical, canonicalIndex_ok.
Qed.

(** ** A delta leads from its base to its target *)

Lemma portsEqual_eq a b : portsEqual a b = true ↔ a = b.
Proof.
  revert b. induction a as [|[s e] a IH]; intros [|[s' e'] b]; cbn; [done..|].
  rewrite !andb_true_iff, !bool_decide_eq_true, IH. naive_solver.
Qed.

Lemma applyChanges_app i a b st :
  applyChanges i (a ++ b) st = (st' ← applyChanges i a st; applyChanges (i + length a) b st').
Proof.
  revert i st. induction a as [|ch a IH]; intros i st; cbn -[applyChange].
  - by rewrite Nat.add_0_r.
  - destruct (applyChange i ch st) as [st'|e]; [|done]. cbn -[applyChange].
    rewrite IH. by rewrite Nat.add_succ_r.
Qed.

Definition sorted_strings : list string → Prop := StronglySorted (strictly String.le).

Lemma canonicalCIDRs_sorted l : sorted_strings (canonicalCIDRs l).
Proof. apply canon_sorted; apply _. Qed.

(** The peers after adding and then removing what [setDiff] found. *)
Lemma setDiff_add old cur :
  canonicalCIDRs old = old → canonicalCIDRs cur = cur →
  let added := filter (λ s, s ∉ old) cur in
  sorted_strings (canonicalCIDRs (old ++ added)) ∧
  (∀ c, c ∈ canonicalCIDRs (old ++ added) ↔ c ∈ old ∨ c ∈ cur).
Proof.
  intros Ho Hc added. split; [apply canonicalCIDRs_sorted|]. intros c.
  rewrite elem_of_canonicalCIDRs. setoid_rewrite elem_of_app. unfold added.
  setoid_rewrite list_elem_of_filter. split.
  - intros (x & [Hx|[_ Hx]] & ->).
    + left. by rewrite (canonicalCIDRs_fixed old).
    + right. by rewrite (canonicalCIDRs_fixed cur).
  - intros H. exists c. destruct (decide (c ∈ old)) as [Hin|Hout].
    + split; [auto|]. symmetry. by apply (canonicalCIDRs_fixed old).
    + destruct H as [?|H]; [done|]. split; [auto|]. symmetry. by apply (canonicalCIDRs_fixed cur).
Qed.

Lemma setDiff_remove old cur peers :
  canonicalCIDRs old = old → canonicalCIDRs cur = cur → sorted_strings peers →
  (∀ c, c ∈ peers ↔ c ∈ old ∨ c ∈ cur) →
  filter (λ p, p ∉ NormalizeCIDR <$> filter (λ s, s ∉ cur) old) peers = cur.
Proof.
  intros Ho Hc Hs Hp. apply (strictly_sorted_ext String.le).
  - by apply strictly_sorted_filter.
  - rewrite <-Hc. apply canonicalCIDRs_sorted.
  - intros c. rewrite list_elem_of_filter, Hp, list_elem_of_fmap.
    setoid_rewrite list_elem_of_filter. split.
    + intros [Hn [Hold|Hcur]]; [|done]. destruct (decide (c ∈ cur)) as [?|Hnc]; [done|].
      destruct Hn. exists c. split; [|done]. symmetry. by apply (canonicalCIDRs_fixed old).
    + intros Hcur. split; [|by right]. intros (x & -> & Hx & Hxo).
      by rewrite (canonicalCIDRs_fixed old) in Hcur.
Qed.

Lemma canonical_rule_peers r : canonicalRule r = r → canonicalCIDRs (rrPeerCidrs r) = rrPeerCidrs r.
Proof. intros H. by rewrite <-H at 2. Qed.

(** The peer changes of a rule whose protocol and ports are unchanged. *)
Lemma apply_peer_changes i mode m id old cur :
  canonicalRule old = old → canonicalRule cur = cur →
  rrRuleId old = id → rrRuleId cur = id →
  rrProtocol old = rrProtocol cur → rrPorts old = rrPorts cur → m !! id = Some old →
  let added := filter (λ s, s ∉ rrPeerCidrs old) (rrPeerCidrs cur) in
  let removed := filter (λ s, s ∉ rrPeerCidrs cur) (rrPeerCidrs old) in
  applyChanges i
    ((if decide (added = []) then [] else [AddPeers (MkPeerChange id added)]) ++
     (if decide (removed = []) then [] else [RemovePeers (MkPeerChange id removed)]))
    (mode, m) = Ok (mode, <[id := cur]> m).
Proof.
  intros Ho%canonical_rule_peers Hc%canonical_rule_peers Hio Hic Hproto Hports Hm added removed.
  destruct old as [oid op oproto oports], cur as [cid cp cproto cports]; cbn in * |-. subst.
  set (peers := if decide (added = []) then op else canonicalCIDRs (op ++ added)).
  assert (sorted_strings peers ∧ ∀ c, c ∈ peers ↔ c ∈ op ∨ c ∈ cp) as [Hs Hp].
  { unfold peers. case_decide as Ha; [|by apply setDiff_add]. split.
    - rewrite <-Ho. apply canonicalCIDRs_sorted.
    - intros c. split; [auto|]. intros [?|Hcp]; [done|]. destruct (decide (c ∈ op)); [done|].
      unfold added in Ha. rewrite filter_nil_iff in Ha. by destruct (Ha c Hcp). }
  assert (applyChanges i (if decide (added = []) then [] else [AddPeers (MkPeerChange id added)])
    (mode, m) = Ok (mode, <[id := MkResolvedRule id peers cproto cports]> m)) as Hadd.
  { unfold peers. case_decide; cbn -[canonicalCIDRs]; [by rewrite insert_id|]. by rewrite Hm. }
  rewrite applyChanges_app, Hadd. cbn [mbind result_bind].
  pose proof (setDiff_remove op cp peers Ho Hc Hs Hp) as Hrem.
  destruct (decide (removed = [])) as [Hr|Hr].
  - cbn. rewrite filter_all in Hrem; [by rewrite Hrem|]. intros x _.
    unfold removed in Hr. cbn in Hr. rewrite Hr. apply not_elem_of_nil.
  - cbn -[fmap]. rewrite lookup_insert_eq. cbn -[fmap]. fold removed in Hrem. cbn in Hrem.
    by rewrite Hrem, insert_insert_eq.
Qed.

(** The changes for one id turn the base's rule into the target's. *)
Lemma apply_ruleChanges i mode m F T id :
  canonical_index F → canonical_index T → m !! id = F !! id →
  applyChanges i (ruleChanges id (F !! id) (T !! id)) (mode, m) =
  Ok (mode, partial_alter (λ _, T !! id) id m).
Proof.
  intros HF HT Hm. unfold ruleChanges.
  destruct (F !! id) as [old|] eqn:Ho, (T !! id) as [cur|] eqn:Hc.
  - destruct (HF _ _ Ho) as [Hio Hco], (HT _ _ Hc) as [Hic Hcc].
    destruct (negb _ || negb _) eqn:Hne.
    + cbn. by rewrite Hcc, Hic.
    + apply orb_false_iff in Hne as [Hp%negb_false_iff Hq%negb_false_iff].
      apply bool_decide_eq_true in Hp. apply portsEqual_eq in Hq.
      by apply apply_peer_changes.
  - done.
  - destruct (HT _ _ Hc) as [Hic Hcc]. cbn. by rewrite Hcc, Hic.
  - cbn. f_equal. f_equal. apply map_eq. intros j. destruct (decide (j = id)) as [->|].
    + by rewrite lookup_partial_alter_eq.
    + by rewrite lookup_partial_alter_ne.
Qed.

Lemma apply_idChanges l i mode m F T :
  canonical_index F → canonical_index T → NoDup l → (∀ id, id ∈ l → m !! id = F !! id) →
  ∃ m', applyChanges i (l ≫= λ id, ruleChanges id (F !! id) (T !! id)) (mode, m) = Ok (mode, m') ∧
        ∀ id, m' !! id = if decide (id ∈ l) then T !! id else m !! id.
Proof.
  intros HF HT Hnd. revert i m. induction Hnd as [|id l Hid Hnd IH]; intros i m Hm.
  - exists m. split; [done|]. intros id. by rewrite decide_False by apply not_elem_of_nil.
  - rewrite bind_cons, applyChanges_app, apply_ruleChanges by (try apply Hm; try done; left).
    cbn [mbind result_bind].
    destruct (IH (i + length (ruleChanges id (F !! id) (T !! id)))%nat (partial_alter (λ _, T !! id) id m)) as (m' & Hap & Hm').
    + intros j Hj. rewrite lookup_partial_alter_ne by (intros ->; done). apply Hm. by right.
    + exists m'. split; [exact Hap|]. intros j. rewrite Hm'.
      destruct (decide (j = id)) as [->|Hne].
      * rewrite decide_False, lookup_partial_alter_eq, decide_True by (done || left); done.
      * rewrite lookup_partial_alter_ne by done. apply decide_ext. set_solver.
Qed.

(** The rule ids [Diff] visits: those of either side, each once. *)
Lemma diff_ids (F T : gmap string ResolvedRule) :
  let ids := merge_sort String.le (elements (dom F) ++
               filter (λ id, F !! id = None) (elements (dom T))) in
  NoDup ids ∧ ∀ id, id ∉ ids → F !! id = None ∧ T !! id = None.
Proof.
  intros ids. split.
  - unfold ids. rewrite merge_sort_Permutation. apply NoDup_app. split_and!.
    + apply NoDup_elements.
    + intros id Hid. rewrite list_elem_of_filter. rewrite elem_of_elements, elem_of_dom in Hid.
      intros [Hn _]. rewrite Hn in Hid. by destruct Hid.
    + apply NoDup_filter, NoDup_elements.
  - intros id. unfold ids. rewrite merge_sort_Permutation, elem_of_app, list_elem_of_filter.
    rewrite !elem_of_elements, !elem_of_dom.
    destruct (F !! id), (T !! id); naive_solver.
Qed.

Lemma apply_Diff from to :
  applyChanges 0 (Diff from to)
    (wpMode (Canonical from), indexRules (wpInboundRules (Canonical from))) =
  Ok (wpMode (Canonical to), canonicalIndex to).
Proof.
  unfold Diff. rewrite !Canonical_index.
  pose proof (canonicalIndex_ok from) as HF. pose proof (canonicalIndex_ok to) as HT.
  generalize dependent (canonicalIndex from). generalize dependent (canonicalIndex to).
  intros T HT F HF. rewrite applyChanges_app.
  assert (∀ m : gmap string ResolvedRule, applyChanges 0
    (if decide (wpMode (Canonical from) = wpMode (Canonical to)) then []
     else [SetMode (wpMode (Canonical to))]) (wpMode (Canonical from), m) =
    Ok (wpMode (Canonical to), m)) as -> by (intros m; case_decide as Hm; cbn; by rewrite ?Hm).
  cbn [mbind result_bind]. destruct (diff_ids F T) as [Hnd Hout].
  edestruct (apply_idChanges _ (0 + length (if decide (wpMode (Canonical from) =
    wpMode (Canonical to)) then [] else [SetMode (wpMode (Canonical to))]))
    (wpMode (Canonical to)) F F T HF HT Hnd) as (m' & -> & Hm'); [done|].
  do 2 f_equal. apply map_eq. intros id. rewrite Hm'. case_decide as Hid; [done|].
  destruct (Hout id Hid) as [-> ->]. done.
Qed.

Lemma Apply_Delta_ok from to : Apply from (Delta from to) = Ok (Canonical to).
Proof.
  unfold Apply, Delta. cbn [pdFromVersion pdToVersion pdChanges].
  rewrite Canonical_version, decide_False by (intros H; by apply H).
  rewrite apply_Diff. cbn [mbind result_bind].
  rewrite Canonical_of_map by apply canonicalIndex_ok. by rewrite (Canonical_eq to).
Qed.

Lemma Equal_iff a b :
  Equal a b = true ↔
  wpMode (Canonical a) = wpMode (Canonical b) ∧ canonicalIndex a = canonicalIndex b.
Proof.
  unfold Equal, without_version. rewrite bool_decide_eq_true, !Canonical_rules. split.
  - intros [= -> Hr]. split; [done|].
    pose proof (indexRules_by_id _ (canonical_index_keyed _ (canonicalIndex_ok a))) as Ha.
    pose proof (indexRules_by_id _ (canonical_index_keyed _ (canonicalIndex_ok b))) as Hb.
    by rewrite <-Ha, <-Hb, Hr.
  - by intros [-> ->].
Qed.

Lemma ruleChanges_same id r : ruleChanges id r r = [].
Proof.
  destruct r as [r|]; [|done]. cbn. rewrite bool_decide_eq_true_2 by done.
  assert (portsEqual (rrPorts r) (rrPorts r) = true) as -> by (by apply portsEqual_eq).
  cbn. assert (filter (λ s, s ∉ rrPeerCidrs r) (rrPeerCidrs r) = []) as ->; [|done].
  apply filter_nil_iff. naive_solver.
Qed.

Lemma Diff_nil_Equal from to : Diff from to = [] ↔ Equal from to = true.
Proof.
  rewrite Equal_iff. split.
  - intros Hd. pose proof (apply_Diff from to) as Ha. rewrite Hd in Ha. cbn in Ha.
    rewrite Canonical_index in Ha. by injection Ha.
  - intros [Hm Hi]. unfold Diff. rewrite !Canonical_index, Hm, Hi, decide_True by done. cbn.
    generalize (merge_sort String.le (elements (dom (canonicalIndex to)) ++
      filter (λ id, canonicalIndex to !! id = None) (elements (dom (canonicalIndex to))))).
    intros l. induction l as [|id l IH]; [done|]. by rewrite bind_cons, ruleChanges_same, IH.
Qed.

(** ** What a policy permits

    The meaning of the rendered model: an inbound packet is permitted by a rule
    when its source is in a peer prefix, its protocol is the rule's, and its
    destination port is in a range, an empty range list being every port. *)

(** The prefix a peer text stands for. *)
Definition peerPrefix (s : string) : option Prefix :=
  let s := TrimSpace s in
  match ParsePrefix s with
  | Some pfx => Some pfx
  | None => ParseAddr s ≫= λ addr, PrefixFrom (Unmap addr) (BitLen (Unmap addr))
  end.

Definition peerCovers (src : Addr) (s : string) : bool :=
  match peerPrefix s with Some pfx => Contains pfx src | None => false end.

Definition portCovers (port : Z) (pr : PortRange) : bool :=
  bool_decide (prStart pr ≤ port ≤ prEnd pr)%Z.

Definition rulePermits (src : Addr) (proto : Protocol) (port : Z) (r : ResolvedRule) : bool :=
  bool_decide (rrProtocol r = proto) &&
  (bool_decide (rrPorts r = []) || existsb (portCovers port) (rrPorts r)) &&
  existsb (peerCovers src) (rrPeerCidrs r).

Definition permits (p : option WorkloadPolicy) (src : Addr) (proto : Protocol) (port : Z) : bool :=
  existsb (rulePermits src proto port) (GetInboundRules p).

Lemma existsb_ext_elem {A} (f : A → bool) l1 l2 :
  (∀ x, x ∈ l1 → f x = true → ∃ y, y ∈ l2 ∧ f y = true) →
  (∀ x, x ∈ l2 → f x = true → ∃ y, y ∈ l1 ∧ f y = true) →
  existsb f l1 = existsb f l2.
Proof.
  intros H12 H21. apply eq_iff_eq_true. rewrite !existsb_exists.
  setoid_rewrite <-list_elem_of_In. naive_solver.
Qed.

Lemma peerCovers_prefix src p :
  Prefix_ok p → peerCovers src (Prefix_String p) = Contains p src.
Proof.
  intros Hok. unfold peerCovers, peerPrefix.
  by rewrite TrimSpace_Prefix, ParsePrefix_String by done.
Qed.

(** Normalizing a peer does not change the sources it covers. *)
Lemma peerCovers_Normalize src s : peerCovers src (NormalizeCIDR s) = peerCovers src s.
Proof.
  unfold NormalizeCIDR. destruct (ParsePrefix (TrimSpace s)) as [p|] eqn:Hp.
  - rewrite peerCovers_prefix by (by eapply Masked_ok, ParsePrefix_ok).
    rewrite Masked_Contains. unfold peerCovers, peerPrefix. by rewrite Hp.
  - destruct (ParseAddr (TrimSpace s)) as [x|] eqn:Hx.
    + assert (peerPrefix s = PrefixFrom (Unmap x) (BitLen (Unmap x))) as Hs
        by (unfold peerPrefix; by rewrite Hp, Hx).
      apply ParseAddr_ok in Hx as [Hok Hz].
      destruct (HostRoute_prefix x Hok Hz) as (p & Hpf & -> & Hpok & _).
      rewrite peerCovers_prefix by done. unfold peerCovers. by rewrite Hs, Hpf.
    + unfold peerCovers, peerPrefix. by rewrite TrimSpace_idemp, Hp, Hx.
Qed.

Lemma rulePermits_true src proto port r :
  rulePermits src proto port r = true ↔
  rrProtocol r = proto ∧
  (rrPorts r = [] ∨ ∃ pr, pr ∈ rrPorts r ∧ portCovers port pr = true) ∧
  existsb (peerCovers src) (rrPeerCidrs r) = true.
Proof.
  unfold rulePermits. rewrite !andb_true_iff, orb_true_iff, bool_decide_eq_true.
  rewrite bool_decide_eq_true, (existsb_exists (portCovers port)).
  setoid_rewrite <-list_elem_of_In. tauto.
Qed.

Lemma rulePermits_canonical src proto port r :
  rulePermits src proto port (canonicalRule r) = rulePermits src proto port r.
Proof.
  unfold rulePermits, canonicalRule. cbn [rrProtocol rrPorts rrPeerCidrs]. f_equal; [f_equal; f_equal|].
  - apply bool_decide_ext. apply canon_nil_iff; apply _.
  - apply existsb_ext_elem; intros x Hx Hf; exists x; split; try done;
      unfold canonicalPorts in *; revert Hx; by rewrite (elem_of_canon port_le).
  - apply existsb_ext_elem; intros x Hx Hf.
    + apply elem_of_canonicalCIDRs in Hx as (y & Hy & ->). exists y.
      by rewrite peerCovers_Normalize in Hf.
    + exists (NormalizeCIDR x). rewrite peerCovers_Normalize, elem_of_canonicalCIDRs. eauto.
Qed.

Lemma canonicalIndex_elem p r :
  NoDup (rrRuleId <$> GetInboundRules p) →
  r ∈ rules_by_id (canonicalIndex p) ↔ r ∈ canonicalRule <$> GetInboundRules p.
Proof.
  intros Hnd. unfold rules_by_id. rewrite list_elem_of_omap. unfold canonicalIndex. split.
  - by intros (id & _ & [? _]%indexRules_Some).
  - intros Hr. assert (indexRules (canonicalRule <$> GetInboundRules p) !! rrRuleId r = Some r)
      as Hl.
    { rewrite indexRules_lookup, (filter_unique rrRuleId); [done| |done].
      by rewrite <-list_fmap_compose. }
    exists (rrRuleId r). by rewrite elem_of_sorted_ids, Hl.
Qed.

Lemma canonicalIndex_lookup p id :
  canonicalIndex p !! id =
  canonicalRule <$> last (filter (λ r, rrRuleId r = id) (GetInboundRules p)).
Proof.
  unfold canonicalIndex. rewrite indexRules_lookup, filter_fmap. by rewrite fmap_last.
Qed.

Lemma Canonical_eq_index (p q : WorkloadPolicy) :
  Canonical (Some p) = Canonical (Some q) ↔
  wpVersion p = wpVersion q ∧ wpMode p = wpMode q ∧ canonicalIndex (Some p) = canonicalIndex (Some q).
Proof.
  split.
  - intros H. split_and!; [by injection H|by injection H|].
    by rewrite <-!Canonical_index, H.
  - intros (Hv & Hm & Hi). unfold Canonical. change (canonicalIndex (Some p))
      with (indexRules (canonicalRule <$> wpInboundRules p)) in Hi. by rewrite Hv, Hm, Hi.
Qed.

Lemma canonicalRule_eq_iff r r' :
  rrRuleId r = rrRuleId r' →
  canonicalRule r = canonicalRule r' ↔
  rrProtocol r = rrProtocol r' ∧
  (∀ c, c ∈ NormalizeCIDR <$> rrPeerCidrs r ↔ c ∈ NormalizeCIDR <$> rrPeerCidrs r') ∧
  (∀ pr, pr ∈ rrPorts r ↔ pr ∈ rrPorts r').
Proof.
  intros Hid. rewrite <-(canon_eq_iff String.le), <-(canon_eq_iff port_le).
  unfold canonicalRule, canonicalCIDRs, canonicalPorts. rewrite Hid. split.
  - by intros [= ? ? ?].
  - by intros (-> & -> & ->).
Qed.

Lemma Canonical_permits_lemma (p : WorkloadPolicy) src proto port :
  NoDup (rrRuleId <$> wpInboundRules p) →
  permits (Some (Canonical (Some p))) src proto port = permits (Some p) src proto port.
Proof.
  intros Hnd. unfold permits. change (GetInboundRules (Some (Canonical (Some p))))
    with (wpInboundRules (Canonical (Some p))). rewrite Canonical_rules.
  apply existsb_ext_elem; intros r Hr Hp.
  - apply canonicalIndex_elem in Hr; [|done]. apply list_elem_of_fmap in Hr as (r' & -> & Hr').
    exists r'. by rewrite rulePermits_canonical in Hp.
  - exists (canonicalRule r). rewrite rulePermits_canonical, canonicalIndex_elem by done.
    split; [|done]. by apply list_elem_of_fmap_2.
Qed.

(** ** Failing changes *)

Lemma applyChanges_error i chs st e :
  applyChanges i chs st = Err e →
  ∃ ch st', chs !! (error_index e - i)%nat = Some ch ∧ i ≤ error_index e ∧
            applyChange (error_index e) ch st' = Err e.
Proof.
  revert i st. induction chs as [|ch chs IH]; intros i st; cbn -[applyChange]; [done|].
  destruct (applyChange i ch st) as [st'|e'] eqn:He; cbn -[applyChange].
  - intros (ch' & st'' & Hch & Hle & He')%IH. exists ch', st''. split_and!; [|lia|done].
    replace (error_index e - i)%nat with (S (error_index e - S i)) by lia. done.
  - intros [= ->]. assert (error_index e = i) as Hi.
    { destruct st as [mode m], ch; cbn in He; repeat case_match; by simplify_eq. }
    exists ch, st. rewrite Hi, Nat.sub_diag. auto.
Qed.

(** ** Rule identities *)

Lemma protoName_value p :
  p = PROTOCOL_TCP ∨ p = PROTOCOL_UDP ∨ p = PROTOCOL_ICMP →
  Protocol_value ("PROTOCOL_" +:+ ToUpper (protoName p)) = Some p.
Proof. intros [->|[->| ->]]; vm_compute; reflexivity. Qed.

Lemma RuleID_inj id1 id2 p1 p2 :
  contains_byte "/" id1 = false → contains_byte "/" id2 = false →
  p1 = PROTOCOL_TCP ∨ p1 = PROTOCOL_UDP ∨ p1 = PROTOCOL_ICMP →
  p2 = PROTOCOL_TCP ∨ p2 = PROTOCOL_UDP ∨ p2 = PROTOCOL_ICMP →
  RuleID id1 p1 = RuleID id2 p2 → id1 = id2 ∧ p1 = p2.
Proof.
  intros H1 H2 Hp1%protoName_value Hp2%protoName_value Heq.
  apply (f_equal (λ s, Cut s "/"%char)) in Heq. unfold RuleID in Heq.
  change (id1 +:+ "/" +:+ protoName p1) with (id1 +:+ String "/" (protoName p1)) in Heq.
  change (id2 +:+ "/" +:+ protoName p2) with (id2 +:+ String "/" (protoName p2)) in Heq.
  rewrite !Cut_app in Heq by done. injection Heq as -> Hn. split; [done|].
  rewrite Hn in Hp1. congruence.
Qed.

(** ** Properties *)

(** C2: the defining property of the delta protocol, as the package comment of
    [rendered.go] states it.  For any two policies, nil included, applying
    [Delta from to] to [from] succeeds and yields the canonical form of [to]. *)
Theorem Apply_Delta from to : Apply from (Delta from to) = Ok (Canonical to).
Proof. apply Apply_Delta_ok. Qed.

(** [Diff] is empty exactly when [Equal] holds, so the two ways the control
    plane has of asking whether a policy changed agree. *)
Theorem Diff_empty_iff_Equal from to : Diff from to = [] ↔ Equal from to = true.
Proof. apply Diff_nil_Equal. Qed.

(** The canonical form is a fixed point, and it is unchanged by the order of
    the rules, of the peers and of the ports, by duplicates, by how a prefix is
    spelt, and by rules that a later rule of the same id replaces: two policies
    have the same canonical form exactly when version and mode agree and, for
    each id, the last rules of that id agree on protocol, on the set of
    normalized peers and on the set of port ranges. *)
Theorem Canonical_spec (p q : WorkloadPolicy) :
  Canonical (Some (Canonical (Some p))) = Canonical (Some p) ∧
  (Canonical (Some p) = Canonical (Some q) ↔
   wpVersion p = wpVersion q ∧ wpMode p = wpMode q ∧
   ∀ id, option_Forall2 (λ r r',
           rrProtocol r = rrProtocol r' ∧
           (∀ c, c ∈ NormalizeCIDR <$> rrPeerCidrs r ↔ c ∈ NormalizeCIDR <$> rrPeerCidrs r') ∧
           (∀ pr, pr ∈ rrPorts r ↔ pr ∈ rrPorts r'))
         (last (filter (λ r, rrRuleId r = id) (wpInboundRules p)))
         (last (filter (λ r, rrRuleId r = id) (wpInboundRules q)))).
Proof.
  split; [apply Canonical_idemp|]. rewrite Canonical_eq_index. do 2 apply and_iff_compat_l.
  rewrite map_eq_iff. apply forall_proper. intros id. rewrite !canonicalIndex_lookup. cbn.
  destruct (last _) as [r|] eqn:Hr, (last _) as [r'|] eqn:Hr' in |- *.
  2,3: split; [done|by inversion 1]. 2: split; [constructor|done].
  apply last_Some_elem_of, list_elem_of_filter in Hr as [Hid _].
  apply last_Some_elem_of, list_elem_of_filter in Hr' as [Hid' _].
  cbn [fmap option_fmap option_map]. rewrite (inj_iff Some), canonicalRule_eq_iff by congruence.
  split; [by constructor|by inversion 1].
Qed.

(** [Apply] refuses a delta computed against another version, whatever its
    changes, and a policy it returns is canonical and carries the delta's
    target version.  An error names the change at fault: an unset variant, or
    a peer change for a rule that the policy does not have at that point. *)
Theorem Apply_outcome base delta :
  (GetVersion base ≠ pdFromVersion delta →
   Apply base delta = Err (ErrBaseMismatch (GetVersion base) (pdFromVersion delta))) ∧
  (∀ p, Apply base delta = Ok p →
   GetVersion base = pdFromVersion delta ∧ wpVersion p = pdToVersion delta ∧
   Canonical (Some p) = p) ∧
  (∀ i id, Apply base delta = Err (ErrUnknownRule i id) →
   ∃ peers, pdChanges delta !! i = Some (AddPeers (MkPeerChange id peers)) ∨
            pdChanges delta !! i = Some (RemovePeers (MkPeerChange id peers))) ∧
  (∀ i, Apply base delta = Err (ErrMalformedChange i) →
   pdChanges delta !! i = Some ChangeUnset).
Proof.
  unfold Apply. rewrite Canonical_version. split_and!.
  - intros Hv. by rewrite decide_True.
  - intros p. case_decide as Hv; [done|].
    intros ([mode m] & _ & Hp)%result_bind_Ok.
    match type of Hp with Ok ?a = _ => assert (p = a) as -> by congruence end.
    split_and!; [done|done|apply Canonical_idemp].
  - intros i id. case_decide; [done|]. destruct (applyChanges _ _ _) as [[mode m]|e] eqn:He; [done|].
    cbn. intros [= ->]. apply applyChanges_error in He as (ch & [mode m] & Hch & _ & He).
    rewrite Nat.sub_0_r in Hch. destruct ch as [| |[]|[]| |]; cbn in He; repeat case_match; simplify_eq; eauto.
  - intros i. case_decide; [done|]. destruct (applyChanges _ _ _) as [[mode m]|e] eqn:He; [done|].
    cbn. intros [= ->]. apply applyChanges_error in He as (ch & [mode m] & Hch & _ & He).
    rewrite Nat.sub_0_r in Hch. destruct ch as [| |[]|[]| |]; cbn in He; repeat case_match; simplify_eq; eauto.
Qed.

(** Bringing a policy into canonical form never changes what it permits: for
    a policy whose rule ids are distinct, as rendering makes them, every packet
    is permitted by the canonical form exactly when the original permits it. *)
Theorem Canonical_permits (p : WorkloadPolicy) src proto port :
  NoDup (rrRuleId <$> wpInboundRules p) →
  permits (Some (Canonical (Some p))) src proto port = permits (Some p) src proto port.
Proof. apply Canonical_permits_lemma. Qed.

Definition policy_example : WorkloadPolicy :=
  MkWorkloadPolicy 7 ENFORCEMENT_MODE_ENFORCED
    [MkResolvedRule "b/tcp" ["10.1.2.3/8"; " 192.0.2.7 "; "10.0.0.0/8"] PROTOCOL_TCP
       [MkPortRange 443 443; MkPortRange 80 81; MkPortRange 443 443];
     MkResolvedRule "a/icmp" ["2001:db8::1/32"] PROTOCOL_ICMP []].

Lemma Canonical_permits_witness :
  permits (Some (Canonical (Some policy_example))) (Addr4 167772161) PROTOCOL_TCP 81 = true.
Proof.
  rewrite (Canonical_permits policy_example).
  - vm_compute. reflexivity.
  - apply (bool_decide_unpack _). vm_compute. exact I.
Defined.

(** The comment on [Canonical] says that two policies that permit the same
    traffic have identical canonical forms.  They need not: a port range and
    the same ports listed one by one permit the same packets, and [Equal]
    tells them apart. *)
Theorem Equal_is_not_semantic :
  ∃ a b : WorkloadPolicy,
    (∀ src proto port, permits (Some a) src proto port = permits (Some b) src proto port) ∧
    wpMode a = wpMode b ∧ Equal (Some a) (Some b) = false.
Proof.
  pose (policy ports := MkWorkloadPolicy 1 ENFORCEMENT_MODE_ENFORCED
    [MkResolvedRule "r/tcp" ["10.0.0.0/8"] PROTOCOL_TCP ports]).
  exists (policy [MkPortRange 80 81]), (policy [MkPortRange 80 80; MkPortRange 81 81]).
  split_and!; [|done|vm_compute; reflexivity]. intros src proto port.
  unfold permits, rulePermits, policy, portCovers. cbn -[peerCovers]. f_equal. f_equal. f_equal.
  rewrite !orb_false_r. apply eq_iff_eq_true. rewrite orb_true_iff, !bool_decide_eq_true. lia.
Qed.

(** Provenance is recovered from a resolved rule's id: for an authored id
    with no slash and a protocol the contract names, [Provenance] inverts
    [RuleID]; so two authored rules, or one rule for two protocols, never share
    a resolved id. *)
Theorem Provenance_RuleID id p :
  id ≠ "" → contains_byte "/" id = false →
  p = PROTOCOL_TCP ∨ p = PROTOCOL_UDP ∨ p = PROTOCOL_ICMP →
  Provenance (RuleID id p) = Ok (id, p).
Proof.
  intros Hne Hs Hp. unfold Provenance, RuleID.
  change ("/" +:+ protoName p) with (String "/" (protoName p)).
  rewrite Cut_app by done. destruct id; [done|]. rewrite (protoName_value p Hp).
  by destruct Hp as [->|[->| ->]].
Qed.

Lemma Provenance_RuleID_witness :
  Provenance "0b6e/udp" = Ok ("0b6e", PROTOCOL_UDP).
Proof. apply (Provenance_RuleID "0b6e" PROTOCOL_UDP); auto. Defined.
