(* ===== verification/Uuid.v ===== *)
(** * UUIDs: [github.com/google/uuid]

    The package is not part of the repository: it is a parameter of the model.
    [UUIDLib] is what the program calls of it, [UUIDLaws] the documented
    behaviour the program relies on: the canonical text has 36 bytes, holds no
    slash, and parses back to the id it prints.  The lower-case text makes
    printing injective.  [uuid128] is a concrete implementation, on which the
    witnesses evaluate. *)

From S2P Require Import Prelude GoStd Netip.
From Stdlib Require Import Ascii.

Class UUIDLib := {
  UUID : Type;
  #[global] UUID_eq_dec :: EqDecision UUID;
  #[global] UUID_countable :: Countable UUID;
  uuid_Nil : UUID;
  uuid_String : UUID → string;
  uuid_Parse : string → option UUID;
}.

Class UUIDLaws `{UUIDLib} : Prop := {
  uuid_String_length u : String.length (uuid_String u) = 36;
  uuid_String_no_slash u : contains_byte "/" (uuid_String u) = false;
  uuid_Parse_String u : uuid_Parse (uuid_String u) = Some u;
}.

#[export] Instance uuid_String_inj `{UUIDLaws} : Inj (=) (=) uuid_String.
Proof.
  intros u v Heq. apply (f_equal uuid_Parse) in Heq. rewrite !uuid_Parse_String in Heq.
  by injection Heq.
Qed.

Lemma uuid_String_nonempty `{UUIDLaws} u : uuid_String u ≠ "".
Proof. intros He. pose proof (uuid_String_length u) as Hl. by rewrite He in Hl. Qed.

(** The order the program sorts ids in: by their text. *)
Definition uuid_le `{UUIDLib} (u v : UUID) : Prop := String.le (uuid_String u) (uuid_String v).

#[export] Instance uuid_le_dec `{UUIDLib} : RelDecision uuid_le.
Proof. intros u v. unfold uuid_le. apply _. Defined.
#[export] Instance uuid_le_total `{UUIDLib} : Total uuid_le.
Proof. intros u v. unfold uuid_le. apply (total String.le). Qed.
#[export] Instance uuid_le_preorder `{UUIDLib} : PreOrder uuid_le.
Proof. split; [intros u|intros u v w]; unfold uuid_le; [done|apply transitivity]. Qed.
#[export] Instance uuid_le_po `{UUIDLaws} : PartialOrder uuid_le.
Proof.
  split; [apply _|]. intros u v Huv Hvu. apply (inj uuid_String).
  by apply (anti_symm String.le).
Qed.

(** ** A concrete implementation *)

Module Uuid128.

(** 128-bit values. *)
Definition in128 (z : Z) : Prop := Is_true (bool_decide (0 ≤ z < 2 ^ 128)%Z).
Definition t : Type := { z : Z | in128 z }.

#[global] Instance t_eq_dec : EqDecision t.
Proof. unfold t. apply _. Defined.
#[global] Instance t_countable : Countable t.
Proof. unfold t. apply _. Defined.

Fixpoint hex_text (ds : list Z) : string :=
  match ds with [] => "" | d :: ds' => String (hex_digit d) (hex_text ds') end.

(** The canonical form: 8-4-4-4-12 lower-case hexadecimal digits. *)
Definition print (z : Z) : string :=
  let ds := to_be 16 32 z in
  hex_text (take 8 ds) +:+ "-" +:+ hex_text (take 4 (drop 8 ds)) +:+ "-" +:+
  hex_text (take 4 (drop 12 ds)) +:+ "-" +:+ hex_text (take 4 (drop 16 ds)) +:+ "-" +:+
  hex_text (drop 20 ds).

Fixpoint hex_nibbles (s : string) : option (list Z) :=
  match s with
  | "" => Some []
  | String "-"%char s' => hex_nibbles s'
  | String c s' => d ← hex_val c; ds ← hex_nibbles s'; Some (d :: ds)
  end.

Definition dashes_ok (s : string) : bool :=
  bool_decide (String.length s = 36%nat) &&
  forallb (λ i, bool_decide (String.get i s = Some "-"%char)) [8; 13; 18; 23]%nat.

Definition parse (s : string) : option t :=
  if dashes_ok s then
    ds ← hex_nibbles s;
    let z := of_be 16 ds in
    match decide (in128 z) with left H => Some (exist _ z H) | right _ => None end
  else None.

#[global] Instance uuid128 : UUIDLib := {
  UUID := t;
  uuid_Nil := exist _ 0%Z I;
  uuid_String u := print (proj1_sig u);
  uuid_Parse := parse;
}.

Lemma to_be_32 z :
  ∃ ds, to_be 16 32 z = ds ∧ length ds = 32%nat ∧ Forall (digit 16) ds.
Proof. exists (to_be 16 32 z). by rewrite length_to_be; auto using to_be_digits with lia. Qed.

Lemma hex_nibbles_text ds s :
  Forall (digit 16) ds →
  hex_nibbles (hex_text ds +:+ s) = (ds' ← hex_nibbles s; Some (ds ++ ds')).
Proof.
  induction 1 as [|d ds Hd _ IH]; cbn; [by destruct (hex_nibbles s)|].
  destruct (hex_digit_ok d Hd) as (Hv & _). rewrite IH, Hv.
  assert (hex_digit d ≠ "-"%char) as Hne by (intros E; by rewrite E in Hv).
  destruct (hex_digit d) as [[] [] [] [] [] [] [] []] eqn:E; cbn in *; try done;
    by destruct (hex_nibbles s).
Qed.

Lemma hex_text_shape ds : length ds = 32%nat → dashes_ok
  (hex_text (take 8 ds) +:+ "-" +:+ hex_text (take 4 (drop 8 ds)) +:+ "-" +:+
   hex_text (take 4 (drop 12 ds)) +:+ "-" +:+ hex_text (take 4 (drop 16 ds)) +:+ "-" +:+
   hex_text (drop 20 ds)) = true.
Proof. intros Hl. do 32 (destruct ds as [|? ds]; [done|]). by destruct ds. Qed.

Lemma contains_slash_hex ds : Forall (digit 16) ds → contains_byte "/" (hex_text ds) = false.
Proof.
  induction 1 as [|d ds Hd _ IH]; [done|]. cbn. rewrite decide_False; [done|].
  intros E. destruct (hex_digit_ok d Hd) as (Hv & _). by rewrite <-E in Hv.
Qed.

Lemma hex_nibbles_parts ds :
  Forall (digit 16) ds →
  hex_nibbles (hex_text (take 8 ds) +:+ "-" +:+ hex_text (take 4 (drop 8 ds)) +:+ "-" +:+
   hex_text (take 4 (drop 12 ds)) +:+ "-" +:+ hex_text (take 4 (drop 16 ds)) +:+ "-" +:+
   hex_text (drop 20 ds)) = Some ds.
Proof.
  intros Hd. assert (∀ s, hex_nibbles ("-" +:+ s) = hex_nibbles s) as Hdash by done.
  rewrite <-(str_app_nil_r (hex_text (drop 20 ds))).
  repeat (rewrite hex_nibbles_text by auto using Forall_take, Forall_drop; rewrite ?Hdash).
  cbn [hex_nibbles mbind option_bind]. f_equal. rewrite app_nil_r.
  change 20%nat with (16 + 4)%nat. rewrite <-(drop_drop ds 4 16), take_drop.
  change 16%nat with (12 + 4)%nat. rewrite <-(drop_drop ds 4 12), take_drop.
  change 12%nat with (8 + 4)%nat. by rewrite <-(drop_drop ds 4 8), !take_drop.
Qed.

#[global] Instance uuid128_laws : UUIDLaws.
Proof.
  split; intros [z Hz]; cbn [uuid_String uuid128 proj1_sig]; unfold print;
    destruct (to_be_32 z) as (ds & Hds & Hl & Hd); rewrite Hds.
  - pose proof (hex_text_shape ds Hl) as Hs. unfold dashes_ok in Hs.
    apply andb_true_iff in Hs as [Hs _]. by apply bool_decide_eq_true in Hs.
  - repeat (rewrite contains_byte_app, contains_slash_hex by auto using Forall_take, Forall_drop;
      cbn [orb]; rewrite ?(contains_byte_app _ "-"); cbn [orb contains_byte]).
    rewrite contains_slash_hex by auto using Forall_drop. done.
  - cbn [uuid_Parse uuid128]. unfold parse. rewrite hex_text_shape, hex_nibbles_parts by done.
    cbn [mbind option_bind]. assert (of_be 16 ds = z) as ->.
    { rewrite <-Hds. apply of_be_to_be; [lia|]. unfold in128 in Hz.
      apply bool_decide_unpack in Hz. change (16 ^ Z.of_nat 32)%Z with (2 ^ 128)%Z. lia. }
    destruct (decide (in128 z)) as [Hz'|]; [|done]. f_equal. by apply (sig_eq_pi _).
Qed.

(** An id for examples. *)
Definition of_Z (z : Z) : @UUID uuid128 :=
  match decide (in128 z) with left H => exist _ z H | right _ => exist _ 0%Z I end.
End Uuid128.
