(* ===== verification/Sha256.v ===== *)
(** * SHA-256: Go's [crypto/sha256] and [encoding/hex]

    The digest of FIPS 180-4, on lists of bytes (integers below 256).  Words are
    32-bit integers with their wrap-around written out. *)

From S2P Require Import Prelude GoStd Netip.
From Stdlib Require Import Ascii.
Local Open Scope Z_scope.

Definition rotr (n x : Z) : Z := Z.lor (Z.shiftr x n) (u32 (Z.shiftl x (32 - n))).
Definition lnot32 (x : Z) : Z := Z.lxor x 4294967295.

Definition Ch (x y z : Z) : Z := Z.lxor (Z.land x y) (Z.land (lnot32 x) z).
Definition Maj (x y z : Z) : Z := Z.lxor (Z.lxor (Z.land x y) (Z.land x z)) (Z.land y z).
Definition Sigma0 (x : Z) : Z := Z.lxor (Z.lxor (rotr 2 x) (rotr 13 x)) (rotr 22 x).
Definition Sigma1 (x : Z) : Z := Z.lxor (Z.lxor (rotr 6 x) (rotr 11 x)) (rotr 25 x).
Definition sigma0 (x : Z) : Z := Z.lxor (Z.lxor (rotr 7 x) (rotr 18 x)) (Z.shiftr x 3).
Definition sigma1 (x : Z) : Z := Z.lxor (Z.lxor (rotr 17 x) (rotr 19 x)) (Z.shiftr x 10).

(** The constants are the first 32 bits of the fractional parts of the roots of
    the first primes (FIPS 180-4, 4.2.2 and 5.3.3): of cube roots for the rounds,
    of square roots for the initial hash.  [cube_root] finds the integer cube root
    bit by bit from the top. *)
Fixpoint cube_root (bits : nat) (root n : Z) : Z :=
  match bits with
  | O => root
  | S b => let r := root + 2 ^ Z.of_nat b in cube_root b (if r ^ 3 <=? n then r else root) n
  end.

Definition primes (n : nat) : list Z :=
  take n (filter (λ p, Forall (λ d, p `mod` d ≠ 0) (seqZ 2 (p - 2))) (seqZ 2 311)).

Definition round_constants : list Z :=
  Eval vm_compute in (λ p, u32 (cube_root 36 0 (p * 2 ^ 96))) <$> primes 64.

Definition initial_hash : list Z := Eval vm_compute in (λ p, u32 (Z.sqrt (p * 2 ^ 64))) <$> primes 8.

(** The message schedule: the window of the last sixteen words moves on. *)
Definition next_word (w : list Z) : Z :=
  u32 (sigma1 (nth 14 w 0) + nth 9 w 0 + sigma0 (nth 1 w 0) + nth 0 w 0).

(** The rounds, each with its constant. *)
Fixpoint rounds (ks : list Z) (w : list Z) (st : list Z) : list Z :=
  match ks, st with
  | k :: ks', [a; b; c; d; e; f; g; h] =>
      let t1 := h + Sigma1 e + Ch e f g + k + nth 0 w 0 in
      let t2 := Sigma0 a + Maj a b c in
      rounds ks' (drop 1 w ++ [next_word w]) [u32 (t1 + t2); a; b; c; u32 (d + t1); e; f; g]
  | _, _ => st
  end.

Definition block_words (block : list Z) : list Z :=
  (λ i, of_be 256 (take 4 (drop (4 * i) block))) <$> seq 0 16.

Definition compress (st : list Z) (block : list Z) : list Z :=
  zip_with (λ a b, u32 (a + b)) st (rounds round_constants (block_words block) st).

Definition padding (len : nat) : list Z :=
  0x80 :: replicate (Z.to_nat ((55 - Z.of_nat len) `mod` 64)) 0 ++ to_be 256 8 (8 * Z.of_nat len).

Fixpoint blocks (n : nat) (msg : list Z) (st : list Z) : list Z :=
  match n with
  | O => st
  | S n' => blocks n' (drop 64 msg) (compress st (take 64 msg))
  end.

(** [sha256.Sum256]: 32 bytes. *)
Definition Sum256 (msg : list Z) : list Z :=
  let m := msg ++ padding (length msg) in
  blocks (length m / 64)%nat m initial_hash ≫= to_be 256 4.

(** The bytes of a Go string. *)
Definition string_bytes (s : string) : list Z :=
  (λ c, Z.of_N (N_of_ascii c)) <$> String.list_ascii_of_string s.

(** [hex.EncodeToString]. *)
Definition EncodeToString (bs : list Z) : string :=
  foldr (λ b s, String (hex_digit (b `div` 16)) (String (hex_digit (b `mod` 16)) s)) "" bs.

Lemma compress_length st block : length st = 8%nat → length (compress st block) = 8%nat.
Proof.
  intros Hst. unfold compress. rewrite length_zip_with.
  assert (∀ ks w st, length st = 8%nat → length (rounds ks w st) = 8%nat) as Hr.
  { clear. induction ks as [|k ks IH]; intros w st Hst; [done|].
    do 8 (destruct st as [|? st]; [done|]). destruct st; [|done]. cbn [rounds]. by apply IH. }
  rewrite Hr by done. lia.
Qed.

Lemma Sum256_length msg : length (Sum256 msg) = 32%nat.
Proof.
  unfold Sum256. generalize (msg ++ padding (length msg)). intros m.
  assert (∀ n m st, length st = 8%nat → length (blocks n m st) = 8%nat) as Hb.
  { clear. induction n as [|n IH]; intros m st Hst; [done|]. by apply IH, compress_length. }
  specialize (Hb (length m / 64)%nat m initial_hash eq_refl). revert Hb.
  generalize (blocks (length m / 64)%nat m initial_hash). intros l Hl.
  do 8 (destruct l as [|? l]; [done|]). by destruct l.
Qed.

(** The digest of "abc" (FIPS 180-2, appendix B.1). *)
Example Sum256_abc :
  EncodeToString (Sum256 (string_bytes "abc")) =
  "ba7816bf8f01cfea414140de5dae2223b00361a396177a9cb410ff61f20015ad".
Proof. vm_compute. reflexivity. Qed.
