(* ===== verification/Identity.v ===== *)
(** * Workload identities: [internal/identity]

    A workload's identity is a UUID, carried in a certificate as the URI
    [innerwall://workload/<uuid>].  [URL] is Go's [url.URL]; [UserInfo] is its
    optional user information, of which the code asks only whether it is there.
    A certificate is the list of its URI SANs, the one field the code reads. *)

From S2P Require Import Prelude GoStd Uuid.
From Stdlib Require Import Ascii.

Record URL := MkURL {
  uScheme : string;
  uOpaque : string;
  uUser : option string;
  uHost : string;
  uPath : string;
  uRawPath : string;
  uOmitHost : bool;
  uForceQuery : bool;
  uRawQuery : string;
  uFragment : string;
  uRawFragment : string;
}.

Definition Scheme : string := "innerwall".
Definition hostWorkload : string := "workload".

Inductive IdentityError :=
| ErrNoIdentity
| ErrAmbiguousIdentity
| ErrNilURI
| ErrScheme
| ErrAuthority
| ErrQueryOrFragment
| ErrPath
| ErrPercentEncoded
| ErrNotCanonical
| ErrParsing (s : string)
| ErrNilUUID.

Section identity.
Context `{UUIDLib}.

(** [WorkloadID] wraps a UUID; [FromUUID] and [UUID] are the two directions. *)
Record WorkloadID := FromUUID { wid : UUID }.

#[global] Instance WorkloadID_eq_dec : EqDecision WorkloadID.
Proof. solve_decision. Defined.
#[global] Instance WorkloadID_countable : Countable WorkloadID.
Proof. apply (inj_countable' wid FromUUID). by intros []. Defined.

Definition ParseWorkloadID (s : string) : result IdentityError WorkloadID :=
  match uuid_Parse s with
  | None => Err (ErrParsing s)
  | Some u => if decide (u = uuid_Nil) then Err ErrNilUUID else Ok (FromUUID u)
  end.

Definition WorkloadID_String (w : WorkloadID) : string := uuid_String (wid w).
Definition IsZero (w : WorkloadID) : bool := bool_decide (wid w = uuid_Nil).

Definition URI (w : WorkloadID) : URL :=
  MkURL Scheme "" None hostWorkload ("/" +:+ uuid_String (wid w)) "" false false "" "" "".

Definition ParseURI (u : option URL) : result IdentityError WorkloadID :=
  match u with
  | None => Err ErrNilURI
  | Some u =>
      if decide (uScheme u ≠ Scheme) then Err ErrScheme
      else if decide (uHost u ≠ hostWorkload ∨ uUser u ≠ None ∨ uOpaque u ≠ "") then Err ErrAuthority
      else if decide (uRawQuery u ≠ "" ∨ uFragment u ≠ "" ∨ uForceQuery u = true)
      then Err ErrQueryOrFragment
      else match uPath u with
           | String c raw =>
               if decide (String.length (uPath u) < 2 ∨ c ≠ "/"%char) then Err ErrPath
               else if decide (uRawPath u ≠ "") then Err ErrPercentEncoded
               else if decide (String.length raw ≠ 36) then Err ErrNotCanonical
               else id ← ParseWorkloadID raw;
                    if decide (WorkloadID_String id ≠ raw) then Err ErrNotCanonical else Ok id
           | "" => Err ErrPath
           end
  end.

Definition FromCertificate (cert : option (list URL)) : result IdentityError WorkloadID :=
  match cert with
  | None | Some [] => Err ErrNoIdentity
  | Some [u] => ParseURI (Some u)
  | Some _ => Err ErrAmbiguousIdentity
  end.

(** The fields of a URL that its text shows for a workload URI: the others are
    how a parser recorded it. *)
Definition shown (u : URL) : URL :=
  MkURL (uScheme u) (uOpaque u) (uUser u) (uHost u) (uPath u) (uRawPath u) false (uForceQuery u)
    (uRawQuery u) (uFragment u) "".

Lemma ParseWorkloadID_Ok s w :
  ParseWorkloadID s = Ok w ↔ uuid_Parse s = Some (wid w) ∧ wid w ≠ uuid_Nil.
Proof.
  unfold ParseWorkloadID. destruct (uuid_Parse s) as [u|]; [|naive_solver]. destruct w as [v].
  cbn. case_decide; naive_solver.
Qed.

Context {Hlaws : UUIDLaws}.

Lemma ParseURI_Ok u w :
  ParseURI (Some u) = Ok w ↔ shown u = URI w ∧ wid w ≠ uuid_Nil.
Proof.
  destruct u as [sch opq usr host path rawp omit force query frag rfrag].
  unfold ParseURI, shown, URI. cbn [uScheme uOpaque uUser uHost uPath uRawPath uOmitHost
    uForceQuery uRawQuery uFragment uRawFragment]. split.
  - intros Hp. destruct path as [|c raw]; [by repeat case_decide|].
    repeat (case_decide; [done|]).
    apply result_bind_Ok in Hp as (w' & [Hparse Hnil]%ParseWorkloadID_Ok & Hp).
    case_decide as Hraw; [done|]. injection Hp as ->.
    split; [|done]. unfold WorkloadID_String in Hraw. rewrite <-Hraw.
    assert (c = "/"%char) as -> by (apply dec_stable; naive_solver).
    f_equal; try done; apply dec_stable; destruct force; naive_solver.
  - intros [[= -> -> -> -> -> -> -> -> ->] Hnil].
    pose proof (uuid_String_length (wid w)) as Hlen. cbn -[decide].
    repeat (rewrite decide_False; [|naive_solver lia]).
    assert (ParseWorkloadID (uuid_String (wid w)) = Ok w) as ->.
    { apply ParseWorkloadID_Ok. by rewrite uuid_Parse_String. }
    cbn [mbind result_bind]. rewrite decide_False; [done|]. unfold WorkloadID_String. tauto.
Qed.
End identity.

(** A credential has one spelling.  [FromCertificate] returns an identity
    exactly when the certificate has a single URI SAN, which reads as the URI
    that [URI] prints for that identity, and the identity is not the nil UUID;
    in particular it inverts [URI]. *)
Theorem FromCertificate_iff `{UUIDLaws} cert w :
  FromCertificate cert = Ok w ↔
  ∃ u, cert = Some [u] ∧ shown u = URI w ∧ wid w ≠ uuid_Nil.
Proof.
  destruct cert as [[|u [|v l]]|]; cbn -[ParseURI]; [naive_solver| |naive_solver..].
  rewrite ParseURI_Ok. naive_solver.
Qed.

Lemma FromCertificate_iff_witness :
  FromCertificate (Some [URI (FromUUID (Uuid128.of_Z 5))]) = Ok (FromUUID (Uuid128.of_Z 5)).
Proof.
  apply (FromCertificate_iff (Some [URI (FromUUID (Uuid128.of_Z 5))])).
  exists (URI (FromUUID (Uuid128.of_Z 5))). split; [reflexivity|]. split; [reflexivity|].
  apply (bool_decide_unpack _). vm_compute. exact I.
Defined.
