(* ===== verification/Policy.v ===== *)
(** * The authored model: [internal/policy/model.go], [version.go]

    Services, address groups, rulesets and rules as the store keeps them, and
    the one definition of which workloads a selector matches.  Instants are
    integers (nanoseconds); versions are Go's [int64].  A selector is a map from
    label keys to the values it accepts.  The [PortRange] of this package has
    the fields of the wire's and shares its record. *)

From S2P Require Import Prelude GoStd Netip Wire Uuid Identity.

Record ServiceEntry := MkServiceEntry {
  seProtocol : Protocol;
  sePorts : list PortRange;
}.

#[export] Instance ServiceEntry_eq_dec : EqDecision ServiceEntry.
Proof. solve_decision. Defined.

Abbreviation Selector := (gmap string (list string)).

Inductive PeerKind :=
| PeerUnspecified
| PeerWorkloads
| PeerAddressGroup
| PeerCIDR
| PeerKind_other (n : Z).

#[export] Instance PeerKind_eq_dec : EqDecision PeerKind.
Proof. solve_decision. Defined.

(** The admission errors of [validate.go] and [labels.go]. *)
Inductive AdmissionError :=
| ErrDirectionOutbound | ErrDirectionUnspecified | ErrBadDirection | ErrEmptySelector
| ErrEmptyLabelKey | ErrEmptyLabelValues | ErrBadPortRange | ErrBadPortSpec | ErrPortsOnPortless
| ErrBadProtocol | ErrBadCIDR | ErrUnknownService | ErrUnknownAddressGroup | ErrBadPeer | ErrNoPeers
| ErrNoServices | ErrNoEntries | ErrNoCIDRs | ErrEmptyName | ErrBadID | ErrDuplicateRule
| ErrBadLabelKey | ErrBadLabelValue | ErrDuplicateLabelKey.

#[export] Instance AdmissionError_eq_dec : EqDecision AdmissionError.
Proof. solve_decision. Defined.

(** The detail of a finding.  Values that the code prints with [%q] are kept
    unquoted, with the shape of the message as the constructor. *)
Inductive Detail :=
| DText (s : string)
| DQuoted (s : string)
| DPair (key value : string)
| DAlsoAt (key : string) (i : nat).

Record ValidationError := MkValidationError {
  vePath : string;
  veErr : AdmissionError;
  veDetail : Detail;
}.

Section model.
Context `{UUIDLib}.

Record Service := MkService {
  svcID : UUID;
  svcName : string;
  svcEntries : list ServiceEntry;
  svcCreatedAt : Z;
  svcUpdatedAt : Z;
  svcVersion : Z;
  svcFaults : list ValidationError;
}.

Record AddressGroup := MkAddressGroup {
  agID : UUID;
  agName : string;
  agCIDRs : list string;
  agCreatedAt : Z;
  agUpdatedAt : Z;
  agVersion : Z;
}.

Record Peer := MkPeer {
  peerKind : PeerKind;
  peerWorkloads : Selector;
  peerAddressGroupID : UUID;
  peerCIDR : string;
}.

Record Rule := MkRule {
  ruleID : UUID;
  ruleDirection : Direction;
  ruleEnabled : bool;
  ruleDescription : string;
  rulePeers : list Peer;
  ruleServiceIDs : list UUID;
  ruleEntries : list ServiceEntry;
  ruleCreatedAt : Z;
  ruleUpdatedAt : Z;
  ruleVersion : Z;
  ruleFaults : list ValidationError;
}.

Record Ruleset := MkRuleset {
  rsID : UUID;
  rsName : string;
  rsDescription : string;
  rsEnabled : bool;
  rsScope : Selector;
  rsRules : list Rule;
  rsCreatedAt : Z;
  rsUpdatedAt : Z;
  rsVersion : Z;
  rsFaults : list ValidationError;
}.

#[global] Instance Peer_eq_dec : EqDecision Peer.
Proof. solve_decision. Defined.

(** [Selector.Matches]: every key must match, one of its values must. *)
Definition key_matches (labels : gmap string string) (kv : string * list string) : bool :=
  match labels !! kv.1 with
  | None => false
  | Some have => existsb (λ v, bool_decide (v = have)) kv.2
  end.

Definition Matches (s : Selector) (labels : gmap string string) : bool :=
  if decide (size s = 0) then false
  else forallb (key_matches labels) (map_to_list s).

(** The order of ids by their text. *)
Definition wid_le (a b : WorkloadID) : Prop := uuid_le (wid a) (wid b).

#[global] Instance wid_le_dec : RelDecision wid_le.
Proof. intros a b. unfold wid_le. apply _. Defined.
#[global] Instance wid_le_trans : Transitive wid_le.
Proof. intros a b c. unfold wid_le. apply transitivity. Qed.
#[global] Instance wid_le_total : Total wid_le.
Proof. intros a b. unfold wid_le. apply (total uuid_le). Qed.

(** [MatchWorkloads]: the matching ids, sorted by their text. *)
Definition MatchWorkloads (s : Selector) (index : gmap WorkloadID (gmap string string))
  : list WorkloadID :=
  merge_sort wid_le
    (omap (λ '(id, labels), if Matches s labels then Some id else None) (map_to_list index)).

Lemma Matches_true s labels :
  Matches s labels = true ↔
  s ≠ ∅ ∧ ∀ key values, s !! key = Some values → ∃ v, labels !! key = Some v ∧ v ∈ values.
Proof.
  unfold Matches. case_decide as Hs.
  - rewrite map_size_empty_iff in Hs. naive_solver.
  - rewrite map_size_empty_iff in Hs. rewrite forallb_forall.
    setoid_rewrite <-list_elem_of_In. split.
    + intros Hall. split; [done|]. intros key values Hk%elem_of_map_to_list.
      specialize (Hall _ Hk). unfold key_matches in Hall. cbn in Hall.
      destruct (labels !! key) as [have|]; [|done]. exists have. split; [done|].
      apply existsb_exists in Hall as (v & Hv & Heq%bool_decide_eq_true). subst.
      by apply list_elem_of_In.
    + intros [_ Hall] [key values] Hk%elem_of_map_to_list. unfold key_matches. cbn.
      destruct (Hall _ _ Hk) as (v & -> & Hv). apply existsb_exists. exists v.
      rewrite <-list_elem_of_In. split; [done|]. by apply bool_decide_eq_true.
Qed.

Lemma elem_of_MatchWorkloads s index id :
  id ∈ MatchWorkloads s index ↔ ∃ labels, index !! id = Some labels ∧ Matches s labels = true.
Proof.
  unfold MatchWorkloads. rewrite merge_sort_Permutation, list_elem_of_omap. split.
  - intros ([id' labels] & Hin%elem_of_map_to_list & Hm). destruct (Matches s labels) eqn:E; naive_solver.
  - intros (labels & Hin%elem_of_map_to_list & Hm). exists (id, labels). by rewrite Hm.
Qed.

Lemma MatchWorkloads_NoDup s index : NoDup (MatchWorkloads s index).
Proof.
  unfold MatchWorkloads. rewrite merge_sort_Permutation.
  assert (∀ l : list (WorkloadID * gmap string string), NoDup l.*1 →
    NoDup (omap (λ '(id, labels), if Matches s labels then Some id else None) l)) as Hl.
  { induction l as [|[id labels] l IH]; [constructor|]. cbn. intros [Hid Hl]%NoDup_cons.
    destruct (Matches s labels); [|by apply IH]. constructor; [|by apply IH].
    rewrite list_elem_of_omap. intros ([id' labels'] & Hin & Heq). apply Hid.
    destruct (Matches s labels'); simplify_eq. by apply (list_elem_of_fmap_2 fst) in Hin. }
  apply Hl, NoDup_fst_map_to_list.
Qed.

Lemma Matches_empty labels : Matches ∅ labels = false.
Proof. done. Qed.
End model.

(** [FormatVersion]: the token a conditional write names. *)
Definition FormatVersion (v : Z) : string := FormatInt v.

(** [MatchWorkloads] lists exactly the workloads whose labels satisfy every
    key of the selector by one of its values, each once and in the order of
    their ids; the empty selector lists nothing. *)
Theorem MatchWorkloads_spec `{UUIDLib} s index :
  (∀ id, id ∈ MatchWorkloads s index ↔
     ∃ labels, index !! id = Some labels ∧ s ≠ ∅ ∧
       ∀ key values, s !! key = Some values → ∃ v, labels !! key = Some v ∧ v ∈ values) ∧
  NoDup (MatchWorkloads s index) ∧
  StronglySorted wid_le (MatchWorkloads s index) ∧
  MatchWorkloads ∅ index = [].
Proof.
  split_and!.
  - intros id. rewrite elem_of_MatchWorkloads. by setoid_rewrite Matches_true.
  - apply MatchWorkloads_NoDup.
  - apply (StronglySorted_merge_sort _).
  - unfold MatchWorkloads. induction (map_to_list index) as [|[id labels] l IH]; [done|]. exact IH.
Qed.
