(* ===== verification/Validate.v ===== *)
(** * Admission: [internal/policy/labels.go], [validate.go]

    Findings are accumulated by explicit state passing: a validator maps the
    findings so far to the findings after it.  A validator that returns
    [f.result()] returns [None] for Go's nil and the list of findings
    otherwise.  Paths are the exact strings of the code. *)

From S2P Require Import Prelude GoStd Netip Wire Uuid Identity Policy.
From Stdlib Require Import Ascii.

(** ** Findings *)

Record Findings := MkFindings {
  fErrors : list ValidationError;
  fFaulted : gset string;
}.

Definition noFindings : Findings := MkFindings [] ∅.

Definition addFinding (path : string) (err : AdmissionError) (detail : Detail) (f : Findings) : Findings :=
  if decide (path ∈ fFaulted f) then f
  else MkFindings (fErrors f ++ [MkValidationError path err detail]) (fFaulted f).

Definition join (path field : string) : string :=
  if decide (path = "") then field else path +:+ "." +:+ field.

Definition carry (path : string) (faults : list ValidationError) (f : Findings) : Findings :=
  foldl (λ f e,
    let at_ := join path (vePath e) in
    MkFindings (fErrors f ++ [MkValidationError at_ (veErr e) (veDetail e)]) ({[at_]} ∪ fFaulted f))
    f faults.

Definition findings_result (f : Findings) : option (list ValidationError) :=
  match fErrors f with [] => None | l => Some l end.

(** [Rebase]. *)
Definition rebase_path (prefix path : string) : string := TrimPrefix (TrimPrefix path prefix) ".".
Definition Rebase (prefix : string) (l : list ValidationError) : list ValidationError :=
  (λ e, MkValidationError (rebase_path prefix (vePath e)) (veErr e) (veDetail e)) <$> l.

(** A path with an index: [fmt.Sprintf("%s[%d]", path, i)]. *)
Definition at_index (path : string) (i : nat) : string :=
  path +:+ "[" +:+ FormatInt (Z.of_nat i) +:+ "]".

(** The stable name of an admission rule. *)
Definition ruleName (e : AdmissionError) : string :=
  match e with
  | ErrDirectionOutbound => "direction-outbound"
  | ErrDirectionUnspecified => "direction-required"
  | ErrBadDirection => "direction"
  | ErrEmptySelector => "selector-empty"
  | ErrEmptyLabelKey => "label-key-required"
  | ErrBadLabelKey => "label-key"
  | ErrBadLabelValue => "label-value"
  | ErrDuplicateLabelKey => "label-key-duplicate"
  | ErrEmptyLabelValues => "label-values-required"
  | ErrBadPortRange => "port-range"
  | ErrBadPortSpec => "port-spec"
  | ErrPortsOnPortless => "ports-on-portless-protocol"
  | ErrBadProtocol => "protocol"
  | ErrBadCIDR => "cidr"
  | ErrUnknownService => "service-unknown"
  | ErrUnknownAddressGroup => "address-group-unknown"
  | ErrBadPeer => "peer-shape"
  | ErrNoPeers => "peers-required"
  | ErrNoServices => "services-required"
  | ErrNoEntries => "entries-required"
  | ErrNoCIDRs => "cidrs-required"
  | ErrEmptyName => "name-required"
  | ErrBadID => "id"
  | ErrDuplicateRule => "rule-id-duplicate"
  end.

(** ** The label grammar *)

Definition MaxLabelLength : nat := 63.

Definition alnum (c : ascii) : bool := is_lower c || is_upper c || is_digit c.

(** The loop of [inGrammar] from index [i] of a string of [n] bytes. *)
Fixpoint grammar_loop (key : bool) (n i : nat) (s : string) : bool :=
  match s with
  | "" => true
  | String c s' =>
      if alnum c then grammar_loop key n (S i) s'
      else if decide (i = 0 ∨ i = n - 1) then false
      else if bool_decide (c = "."%char ∨ c = "_"%char ∨ c = "-"%char) || (bool_decide (c = "/"%char) && key)
      then grammar_loop key n (S i) s'
      else false
  end.

Definition inGrammar (s : string) (key : bool) : bool :=
  if decide (String.length s = 0 ∨ MaxLabelLength < String.length s) then false
  else grammar_loop key (String.length s) 0 s.

Definition CheckLabelKey (key : string) : option AdmissionError :=
  if decide (key = "") then Some ErrEmptyLabelKey
  else if inGrammar key true then None else Some ErrBadLabelKey.

Definition CheckLabelValue (value : string) : option AdmissionError :=
  if inGrammar value false then None else Some ErrBadLabelValue.

(** [LabelPair] *)
Record LabelPair := MkLabelPair { lpKey : string; lpValue : string }.

(** One iteration of [ValidateLabelSet], on the findings and the keys seen. *)
Definition validateLabel (i : nat) (l : LabelPair) (st : Findings * gmap string nat)
  : Findings * gmap string nat :=
  let '(f, seen) := st in
  let path := at_index "labels" i in
  let '(f, bad) := match CheckLabelKey (lpKey l) with
                   | Some err => (addFinding path err (DQuoted (lpKey l)) f, true)
                   | None => (f, false)
                   end in
  let '(f, bad) := match CheckLabelValue (lpValue l) with
                   | Some err => (addFinding path err (DPair (lpKey l) (lpValue l)) f, true)
                   | None => (f, bad)
                   end in
  if bad then (f, seen)
  else match seen !! lpKey l with
       | Some first => (addFinding path ErrDuplicateLabelKey (DAlsoAt (lpKey l) first) f, seen)
       | None => (f, <[lpKey l := i]> seen)
       end.

Fixpoint validateLabels (i : nat) (ls : list LabelPair) (st : Findings * gmap string nat)
  : Findings * gmap string nat :=
  match ls with
  | [] => st
  | l :: ls' => validateLabels (S i) ls' (validateLabel i l st)
  end.

Definition ValidateLabelSet (labels : list LabelPair) : option (list ValidationError) :=
  findings_result (validateLabels 0 labels (noFindings, ∅)).1.

(** ** Validators *)

(** A loop with an index: [for i := range xs]. *)
Fixpoint each {A} (check : nat → A → Findings → Findings) (i : nat) (xs : list A) (f : Findings)
  : Findings :=
  match xs with
  | [] => f
  | x :: xs' => each check (S i) xs' (check i x f)
  end.

Definition add_if (b : bool) (path : string) (err : AdmissionError) (detail : Detail)
    (f : Findings) : Findings :=
  if b then addFinding path err detail f else f.

Definition bad_range (p : PortRange) : bool :=
  bool_decide (prEnd p < prStart p ∨ 65535 < prEnd p)%Z.

(** The switch on the protocol in [validateEntry]. *)
Definition validateProtocol (path : string) (e : ServiceEntry) (f : Findings) : Findings :=
  match seProtocol e with
  | PROTOCOL_TCP | PROTOCOL_UDP => f
  | PROTOCOL_ICMP =>
      add_if (negb (bool_decide (sePorts e = []))) (path +:+ ".ports") ErrPortsOnPortless
        (DText "icmp") f
  | PROTOCOL_UNSPECIFIED => addFinding (path +:+ ".protocol") ErrBadProtocol (DText "") f
  | Protocol_unrecognized n =>
      addFinding (path +:+ ".protocol") ErrBadProtocol (DText ("unknown protocol " +:+ FormatInt n)) f
  end.

Definition validateEntry (path : string) (e : ServiceEntry) (f : Findings) : Findings :=
  each (λ i p, add_if (bad_range p) (at_index (path +:+ ".ports") i) ErrBadPortRange
                 (DText (FormatInt (prStart p) +:+ "-" +:+ FormatInt (prEnd p)))) 0 (sePorts e)
    (validateProtocol path e f).

Definition sortedSelectorKeys (s : Selector) : list string :=
  merge_sort String.le (elements (dom s)).

Definition validateValues (path key : string) (values : list string) (f : Findings) : Findings :=
  foldl (λ f v, match CheckLabelValue v with
                | Some err => addFinding (path +:+ "[" +:+ key +:+ "]") err (DPair key v) f
                | None => f
                end) f values.

Definition validateKey (path : string) (s : Selector) (f : Findings) (key : string) : Findings :=
  let values := default [] (s !! key) in
  match CheckLabelKey key with
  | Some err => addFinding path err (DQuoted key) f
  | None =>
      validateValues path key values
        (add_if (bool_decide (values = [])) (path +:+ "[" +:+ key +:+ "]") ErrEmptyLabelValues
           (DText "") f)
  end.

Definition validateSelector (path : string) (s : Selector) (f : Findings) : Findings :=
  if decide (size s = 0) then addFinding path ErrEmptySelector (DText "") f
  else foldl (validateKey path s) f (sortedSelectorKeys s).

Section validators.
Context `{UUIDLib}.

Record References := MkReferences {
  refServices : gset UUID;
  refAddressGroups : gset UUID;
}.

(** How many of a peer's forms are set. *)
Definition peer_set (p : Peer) : nat :=
  (if decide (0 < size (peerWorkloads p) ∨ peerKind p = PeerWorkloads) then 1 else 0) +
  (if decide (peerAddressGroupID p ≠ uuid_Nil ∨ peerKind p = PeerAddressGroup) then 1 else 0) +
  (if decide (peerCIDR p ≠ "" ∨ peerKind p = PeerCIDR) then 1 else 0).

Definition bad_prefix (c : string) : bool := bool_decide (ParsePrefix c = None).

Definition validatePeer (refs : References) (path : string) (p : Peer) (f : Findings) : Findings :=
  if decide (peer_set p ≠ 1) then addFinding path ErrBadPeer (DText "") f
  else match peerKind p with
       | PeerWorkloads => validateSelector (path +:+ ".workloads") (peerWorkloads p) f
       | PeerAddressGroup =>
           add_if (bool_decide (peerAddressGroupID p ∉ refAddressGroups refs))
             (path +:+ ".address_group") ErrUnknownAddressGroup
             (DText (uuid_String (peerAddressGroupID p))) f
       | PeerCIDR => add_if (bad_prefix (peerCIDR p)) (path +:+ ".cidr") ErrBadCIDR (DText (peerCIDR p)) f
       | PeerUnspecified => addFinding path ErrBadPeer (DText "") f
       | PeerKind_other n => addFinding path ErrBadPeer (DText ("unknown peer kind " +:+ FormatInt n)) f
       end.

Definition validateDirection (path : string) (d : Direction) (f : Findings) : Findings :=
  match d with
  | DIRECTION_INBOUND => f
  | DIRECTION_OUTBOUND => addFinding (join path "direction") ErrDirectionOutbound (DText "") f
  | DIRECTION_UNSPECIFIED => addFinding (join path "direction") ErrDirectionUnspecified (DText "") f
  | Direction_unrecognized n =>
      addFinding (join path "direction") ErrDirectionUnspecified
        (DText ("unknown direction " +:+ FormatInt n)) f
  end.

Definition validateRule (refs : References) (path : string) (r : Rule) (f : Findings) : Findings :=
  let f := carry path (ruleFaults r) f in
  let f := validateDirection path (ruleDirection r) f in
  let f := add_if (bool_decide (rulePeers r = [])) (join path "peers") ErrNoPeers (DText "") f in
  let f := each (λ i p, validatePeer refs (at_index (join path "peers") i) p) 0 (rulePeers r) f in
  let f := add_if (bool_decide (ruleServiceIDs r = [] ∧ ruleEntries r = [])) (join path "services")
             ErrNoServices (DText "") f in
  let f := each (λ i id, add_if (bool_decide (id ∉ refServices refs))
                           (at_index (join path "services") i) ErrUnknownService
                           (DText (uuid_String id))) 0 (ruleServiceIDs r) f in
  each (λ i e, validateEntry (at_index (join path "entries") i) e) 0 (ruleEntries r) f.

Definition ValidateService (s : Service) : option (list ValidationError) :=
  let f := carry "" (svcFaults s) noFindings in
  let f := add_if (bool_decide (svcName s = "")) "name" ErrEmptyName (DText "") f in
  let f := add_if (bool_decide (svcEntries s = [])) "entries" ErrNoEntries (DText "") f in
  findings_result (each (λ i e, validateEntry (at_index "entries" i) e) 0 (svcEntries s) f).

Definition ValidateAddressGroup (g : AddressGroup) : option (list ValidationError) :=
  let f := add_if (bool_decide (agName g = "")) "name" ErrEmptyName (DText "") noFindings in
  let f := add_if (bool_decide (agCIDRs g = [])) "cidrs" ErrNoCIDRs (DText "") f in
  findings_result
    (each (λ i c, add_if (bad_prefix c) (at_index "cidrs" i) ErrBadCIDR (DText c)) 0 (agCIDRs g) f).

(** The loop of [ValidateRuleset] over the rules, with the ids seen so far. *)
Fixpoint validateRules (refs : References) (i : nat) (rules : list Rule) (seen : gmap UUID nat)
    (f : Findings) : Findings :=
  match rules with
  | [] => f
  | r :: rules' =>
      let '(f, seen) :=
        if decide (ruleID r = uuid_Nil) then (f, seen)
        else match seen !! ruleID r with
             | Some first =>
                 (addFinding (at_index "rules" i +:+ ".id") ErrDuplicateRule
                    (DText ("also " +:+ at_index "rules" first)) f, seen)
             | None => (f, <[ruleID r := i]> seen)
             end in
      validateRules refs (S i) rules' seen (validateRule refs (at_index "rules" i) r f)
  end.

Definition ValidateRuleset (rs : Ruleset) (refs : References) : option (list ValidationError) :=
  let f := carry "" (rsFaults rs) noFindings in
  let f := add_if (bool_decide (rsName rs = "")) "name" ErrEmptyName (DText "") f in
  let f := validateSelector "scope" (rsScope rs) f in
  findings_result (validateRules refs 0 (rsRules rs) ∅ f).

Definition ValidateRule (r : Rule) (refs : References) : option (list ValidationError) :=
  let f := validateRule refs "" r noFindings in
  findings_result (MkFindings (Rebase "" (fErrors f)) (fFaulted f)).

Definition ValidateSelector (s : Selector) : option (list ValidationError) :=
  let f := validateSelector "" s noFindings in
  findings_result (MkFindings (Rebase "" (fErrors f)) (fFaulted f)).
End validators.

(** ** What admission means

    The declarative content of each validator, against which the findings are
    proved exact. *)

Definition label_byte (key : bool) (c : ascii) : Prop :=
  alnum c = true ∨ c = "."%char ∨ c = "_"%char ∨ c = "-"%char ∨ (c = "/"%char ∧ key = true).

Definition label_text (key : bool) (s : string) : Prop :=
  let l := String.list_ascii_of_string s in
  1 ≤ length l ≤ 63 ∧ Forall (label_byte key) l ∧
  (∀ c, head l = Some c → alnum c = true) ∧ (∀ c, last l = Some c → alnum c = true).

Definition entry_ok (e : ServiceEntry) : Prop :=
  (seProtocol e = PROTOCOL_TCP ∨ seProtocol e = PROTOCOL_UDP ∨
   seProtocol e = PROTOCOL_ICMP ∧ sePorts e = []) ∧
  Forall (λ p, prStart p ≤ prEnd p ≤ 65535)%Z (sePorts e).

Definition selector_ok (s : Selector) : Prop :=
  s ≠ ∅ ∧ map_Forall (λ key values,
    label_text true key ∧ values ≠ [] ∧ Forall (label_text false) values) s.

Section specification.
Context `{UUIDLib}.

Definition peer_ok (refs : References) (p : Peer) : Prop :=
  match peerKind p with
  | PeerWorkloads => selector_ok (peerWorkloads p) ∧ peerAddressGroupID p = uuid_Nil ∧ peerCIDR p = ""
  | PeerAddressGroup => peerWorkloads p = ∅ ∧ peerAddressGroupID p ∈ refAddressGroups refs ∧ peerCIDR p = ""
  | PeerCIDR => peerWorkloads p = ∅ ∧ peerAddressGroupID p = uuid_Nil ∧ is_Some (ParsePrefix (peerCIDR p))
  | PeerUnspecified | PeerKind_other _ => False
  end.

Record rule_ok (refs : References) (r : Rule) : Prop := {
  rok_faults : ruleFaults r = [];
  rok_direction : ruleDirection r = DIRECTION_INBOUND;
  rok_peers_some : rulePeers r ≠ [];
  rok_peers : Forall (peer_ok refs) (rulePeers r);
  rok_services_some : ruleServiceIDs r ≠ [] ∨ ruleEntries r ≠ [];
  rok_services : Forall (λ id, id ∈ refServices refs) (ruleServiceIDs r);
  rok_entries : Forall entry_ok (ruleEntries r);
}.

Record ruleset_ok (refs : References) (rs : Ruleset) : Prop := {
  rsok_faults : rsFaults rs = [];
  rsok_name : rsName rs ≠ "";
  rsok_scope : selector_ok (rsScope rs);
  rsok_ids : NoDup (filter (λ id, id ≠ uuid_Nil) (ruleID <$> rsRules rs));
  rsok_rules : Forall (rule_ok refs) (rsRules rs);
}.
End specification.

(** ** Checks

    [checks F P] says that the validator [F] leaves a clean set of findings
    clean exactly when [P] holds.  A document fault is a finding too, so the
    paths at which it silences admission never make a bad object clean. *)

Definition consistent (f : Findings) : Prop := fErrors f = [] → fFaulted f = ∅.

Definition checks (F : Findings → Findings) (P : Prop) : Prop :=
  ∀ f, consistent f → consistent (F f) ∧ (fErrors (F f) = [] ↔ fErrors f = [] ∧ P).

Lemma checks_iff F P Q : (P ↔ Q) → checks F P → checks F Q.
Proof. intros HPQ HF f Hf. destruct (HF f Hf) as [Hc He]. split; [done|]. by rewrite He, HPQ. Qed.

Lemma checks_id P : P → checks (λ f, f) P.
Proof. intros HP f Hf. naive_solver. Qed.

Lemma checks_comp F G P Q : checks F P → checks G Q → checks (λ f, G (F f)) (P ∧ Q).
Proof.
  intros HF HG f Hf. destruct (HF f Hf) as [HcF HeF]. destruct (HG _ HcF) as [HcG HeG].
  split; [done|]. rewrite HeG, HeF. tauto.
Qed.

Lemma checks_add path err d : checks (addFinding path err d) False.
Proof.
  intros f Hf. unfold addFinding. case_decide as Hin.
  - split; [done|]. split; [|naive_solver]. intros He. rewrite (Hf He) in Hin. set_solver.
  - split; cbn; [|split; [|naive_solver]]; intros He; by apply app_nil in He as [_ ?].
Qed.

Lemma checks_add_if b path err d : checks (add_if b path err d) (b = false).
Proof.
  destruct b; cbn; [|by apply checks_id].
  eapply checks_iff; [|apply checks_add]. done.
Qed.

Lemma checks_each {A} (c : nat → A → Findings → Findings) (P : A → Prop) xs i :
  (∀ i x, checks (c i x) (P x)) → checks (each c i xs) (Forall P xs).
Proof.
  intros Hc. revert i. induction xs as [|x xs IH]; intros i; cbn; [apply checks_id; constructor|].
  eapply checks_iff; [|apply checks_comp; [apply Hc|apply IH]]. by rewrite Forall_cons.
Qed.

Lemma checks_foldl {A} (c : Findings → A → Findings) (P : A → Prop) xs :
  (∀ x, x ∈ xs → checks (λ f, c f x) (P x)) → checks (λ f, foldl c f xs) (Forall P xs).
Proof.
  induction xs as [|x xs IH]; intros Hc; cbn; [apply checks_id; constructor|].
  eapply checks_iff; [by rewrite Forall_cons|].
  apply (checks_comp (λ f, c f x) (λ f, foldl c f xs)); [apply Hc; left|]. apply IH. intros y Hy. apply Hc. by right.
Qed.

Lemma checks_carry path faults : checks (carry path faults) (faults = []).
Proof.
  assert (∀ e : ValidationError, checks (λ f, MkFindings
    (fErrors f ++ [MkValidationError (join path (vePath e)) (veErr e) (veDetail e)])
    ({[join path (vePath e)]} ∪ fFaulted f)) False) as Hone.
  { intros e f Hf. split; cbn; [|split; [|naive_solver]]; intros He; by apply app_nil in He as [_ ?]. }
  eapply checks_iff; [|apply (checks_foldl _ (λ _, False)); intros e _; apply (Hone e)].
  destruct faults; [naive_solver|]. rewrite Forall_cons. naive_solver.
Qed.

Lemma checks_result F P : checks F P → findings_result (F noFindings) = None ↔ P.
Proof.
  intros HF. destruct (HF noFindings) as [_ He]; [done|]. cbn in He.
  unfold findings_result. destruct (fErrors (F noFindings)); naive_solver.
Qed.

(** ** The label grammar *)

Lemma grammar_loop_iff key n i s :
  grammar_loop key n i s = true ↔
  ∀ j c, String.list_ascii_of_string s !! j = Some c →
    alnum c = true ∨ (i + j ≠ 0 ∧ i + j ≠ n - 1 ∧ label_byte key c).
Proof.
  assert (∀ c, label_byte key c ↔ alnum c = true ∨ (bool_decide (c = "."%char ∨ c = "_"%char ∨
    c = "-"%char) || (bool_decide (c = "/"%char) && key)) = true) as Hb.
  { intros c. unfold label_byte. rewrite orb_true_iff, andb_true_iff, !bool_decide_eq_true. tauto. }
  revert i. induction s as [|c s IH]; intros i; cbn [grammar_loop String.list_ascii_of_string];
    [by split|].
  trans ((alnum c = true ∨ (i ≠ 0 ∧ i ≠ n - 1 ∧ label_byte key c)) ∧
         grammar_loop key n (S i) s = true).
  { rewrite Hb. destruct (alnum c); [naive_solver|]. case_decide; [naive_solver|].
    destruct (_ || _); naive_solver. }
  rewrite IH. split.
  - intros [H0 Hs] [|j] c' Hj; cbn in Hj; [injection Hj as <-; by rewrite Nat.add_0_r|].
    rewrite <-plus_n_Sm. apply (Hs j c' Hj).
  - intros Hall. split.
    + specialize (Hall 0%nat c eq_refl). by rewrite Nat.add_0_r in Hall.
    + intros j c' Hj. rewrite Nat.add_succ_l, plus_n_Sm. by apply (Hall (S j) c').
Qed.

Lemma length_list_ascii s : length (String.list_ascii_of_string s) = String.length s.
Proof. induction s as [|c s IH]; [done|]. cbn. by rewrite IH. Qed.

Lemma inGrammar_iff s key : inGrammar s key = true ↔ label_text key s.
Proof.
  unfold inGrammar, label_text. rewrite <-length_list_ascii. set (l := String.list_ascii_of_string s).
  unfold MaxLabelLength. case_decide as Hl; [split; [done|lia]|].
  rewrite grammar_loop_iff. fold l. cbn [Nat.add]. split.
  - intros Hall. split_and!; [lia|lia| | |].
    + apply Forall_lookup. intros j c Hj. destruct (Hall j c Hj) as [?|(_ & _ & ?)]; [by left|done].
    + intros c Hc. rewrite head_lookup in Hc. destruct (Hall _ _ Hc); naive_solver.
    + intros c Hc. rewrite last_lookup in Hc. destruct (Hall _ _ Hc) as [?|(_ & Hn & _)]; [done|].
      destruct Hn. lia.
  - intros (_ & Hall & Hh & Ht) j c Hj. rewrite Forall_lookup in Hall.
    destruct (decide (j = 0)) as [->|]; [left; apply Hh; by rewrite head_lookup|].
    destruct (decide (j = length l - 1)) as [->|].
    + left. apply Ht. rewrite last_lookup. by replace (pred (length l)) with (length l - 1) by lia.
    + right. eauto.
Qed.

Lemma CheckLabelKey_ok key : CheckLabelKey key = None ↔ label_text true key.
Proof.
  unfold CheckLabelKey. rewrite <-inGrammar_iff. case_decide; [subst; naive_solver|].
  destruct (inGrammar key true); naive_solver.
Qed.

Lemma CheckLabelValue_ok v : CheckLabelValue v = None ↔ label_text false v.
Proof.
  unfold CheckLabelValue. rewrite <-inGrammar_iff. destruct (inGrammar v false); naive_solver.
Qed.

(** ** Exactness of the validators *)

Lemma checks_protocol path e :
  checks (validateProtocol path e)
    (seProtocol e = PROTOCOL_TCP ∨ seProtocol e = PROTOCOL_UDP ∨
     seProtocol e = PROTOCOL_ICMP ∧ sePorts e = []).
Proof.
  unfold validateProtocol. destruct (seProtocol e);
    try (eapply checks_iff; [|apply checks_add]; naive_solver); try (apply checks_id; naive_solver).
  eapply checks_iff; [|apply checks_add_if]. rewrite negb_false_iff, bool_decide_eq_true.
  naive_solver.
Qed.

Lemma checks_entry path e : checks (validateEntry path e) (entry_ok e).
Proof.
  unfold validateEntry, entry_ok. eapply checks_iff; [|apply checks_comp;
    [apply checks_protocol|apply checks_each; intros i p; apply checks_add_if]].
  apply and_iff_compat_l. apply Forall_proper; [|done]. intros p. unfold bad_range.
  rewrite bool_decide_eq_false. lia.
Qed.

Lemma checks_values path key values :
  checks (validateValues path key values) (Forall (label_text false) values).
Proof.
  apply checks_foldl. intros v _. destruct (CheckLabelValue v) as [err|] eqn:Hv.
  - eapply checks_iff; [|apply checks_add]. rewrite <-CheckLabelValue_ok, Hv. done.
  - apply checks_id. by apply CheckLabelValue_ok.
Qed.

Lemma checks_selector path s : checks (validateSelector path s) (selector_ok s).
Proof.
  unfold validateSelector, selector_ok. case_decide as Hs.
  - apply map_size_empty_iff in Hs. eapply checks_iff; [|apply checks_add]. naive_solver.
  - rewrite map_size_empty_iff in Hs.
    eapply checks_iff; [|apply (checks_foldl _ (λ key, label_text true key ∧
      default [] (s !! key) ≠ [] ∧ Forall (label_text false) (default [] (s !! key))))].
    + rewrite Forall_forall. unfold sortedSelectorKeys.
      setoid_rewrite merge_sort_Permutation. setoid_rewrite elem_of_elements.
      setoid_rewrite elem_of_dom. split.
      * intros Hall. split; [done|]. intros key values Hk. specialize (Hall key).
        rewrite Hk in Hall. apply Hall. eauto.
      * intros [_ Hall] key [values Hk]. rewrite Hk. by apply Hall.
    + intros key _. unfold validateKey. destruct (CheckLabelKey key) as [err|] eqn:Hk.
      * eapply checks_iff; [|apply checks_add]. rewrite <-CheckLabelKey_ok, Hk. naive_solver.
      * eapply checks_iff; [|apply checks_comp; [apply checks_add_if|apply checks_values]].
        apply CheckLabelKey_ok in Hk. rewrite bool_decide_eq_false. naive_solver.
Qed.

Lemma not_or (P Q : Prop) : ¬ (P ∨ Q) → ¬ P ∧ ¬ Q.
Proof. tauto. Qed.

Section exactness.
Context `{UUIDLib}.

Lemma peer_set_one p :
  peer_set p = 1 ↔
  match peerKind p with
  | PeerWorkloads => peerAddressGroupID p = uuid_Nil ∧ peerCIDR p = ""
  | PeerAddressGroup => peerWorkloads p = ∅ ∧ peerCIDR p = ""
  | PeerCIDR => peerWorkloads p = ∅ ∧ peerAddressGroupID p = uuid_Nil
  | _ => peer_set p = 1
  end.
Proof.
  assert (0 < size (peerWorkloads p) ↔ peerWorkloads p ≠ ∅) as Hsize.
  { rewrite <-map_size_empty_iff. lia. }
  unfold peer_set. destruct (peerKind p); [done| | | |done];
    repeat match goal with |- context [decide (?A ∨ ?B)] =>
      destruct (decide (A ∨ B)) as [[?|?]|[]%not_or]; try discriminate end;
    (split; [intros Hn; try discriminate Hn; split; apply dec_stable; tauto
            |intros Hn; first [reflexivity|tauto]]).
Qed.

Lemma checks_peer refs path p : checks (validatePeer refs path p) (peer_ok refs p).
Proof.
  unfold validatePeer. pose proof (peer_set_one p) as Hset. unfold peer_ok. case_decide as Hd.
  - eapply checks_iff; [|apply checks_add]. destruct (peerKind p); tauto.
  - rewrite Hset in Hd.
    destruct (peerKind p); try (eapply checks_iff; [|apply checks_add]; done).
    + eapply checks_iff; [|apply checks_selector]. tauto.
    + eapply checks_iff; [|apply checks_add_if]. rewrite bool_decide_eq_false.
      destruct Hd as [-> ->].
      destruct (decide (peerAddressGroupID p ∈ refAddressGroups refs)); tauto.
    + eapply checks_iff; [|apply checks_add_if]. unfold bad_prefix. rewrite bool_decide_eq_false.
      rewrite <-not_eq_None_Some. tauto.
Qed.

Lemma checks_direction path d : checks (validateDirection path d) (d = DIRECTION_INBOUND).
Proof.
  destruct d; cbn; try (eapply checks_iff; [|apply checks_add]; done). by apply checks_id.
Qed.

Lemma checks_rule refs path r : checks (validateRule refs path r) (rule_ok refs r).
Proof.
  unfold validateRule. eapply checks_iff; [|
    eapply checks_comp; [eapply checks_comp; [eapply checks_comp; [eapply checks_comp;
      [eapply checks_comp; [eapply checks_comp|]|]|]|]|]].
  2: apply checks_carry.
  2: apply checks_direction.
  2: apply checks_add_if.
  2: apply checks_each; intros i p; apply checks_peer.
  2: apply checks_add_if.
  2: apply checks_each; intros i id; apply checks_add_if.
  2: apply checks_each; intros i e; apply checks_entry.
  rewrite !bool_decide_eq_false. split.
  - intros ((((((Hf & Hd) & Hp) & Hps) & Hs) & Hss) & He). split; try done.
    + destruct (ruleServiceIDs r); [right; naive_solver|by left].
    + eapply Forall_impl; [exact Hss|]. cbn. intros id. rewrite bool_decide_eq_false.
      apply dec_stable.
  - intros [Hf Hd Hp Hps Hs Hss He]. split_and!; try done; [naive_solver|].
    eapply Forall_impl; [exact Hss|]. cbn. intros id Hid. rewrite bool_decide_eq_false. tauto.
Qed.

(** The ids that take part in the duplicate check. *)
Definition stated_ids (rules : list Rule) : list UUID :=
  filter (λ id, id ≠ uuid_Nil) (ruleID <$> rules).

Lemma checks_rules refs rules i seen :
  checks (validateRules refs i rules seen)
    (NoDup (stated_ids rules) ∧ (∀ id, id ∈ stated_ids rules → seen !! id = None) ∧
     Forall (rule_ok refs) rules).
Proof.
  revert i seen. induction rules as [|r rules IH]; intros i seen; cbn [validateRules].
  - apply checks_id. split_and!; [constructor|set_solver|constructor].
  - unfold stated_ids. cbn [fmap list_fmap]. rewrite filter_cons. fold (stated_ids rules).
    destruct (decide (ruleID r = uuid_Nil)) as [Hnil|Hnil].
    + rewrite decide_False by tauto.
      eapply checks_iff; [|apply checks_comp; [apply checks_rule|apply IH]].
      rewrite Forall_cons. tauto.
    + rewrite decide_True by done. destruct (seen !! ruleID r) as [first|] eqn:Hs.
      * eapply checks_iff; [|eapply checks_comp; [eapply checks_comp;
          [apply checks_add|apply checks_rule]|apply IH]].
        split; [tauto|]. intros (_ & Hall & _). rewrite Hall in Hs; [done|left].
      * eapply checks_iff; [|apply checks_comp; [apply checks_rule|apply IH]].
        rewrite Forall_cons, NoDup_cons. split.
        -- intros (Hr & Hnd & Hseen & Hrs). split_and!; try done.
           ++ intros Hin. specialize (Hseen _ Hin). by rewrite lookup_insert_eq in Hseen.
           ++ intros id [->|Hin]%elem_of_cons; [done|]. specialize (Hseen _ Hin).
              by apply lookup_insert_None in Hseen as [? _].
        -- intros ((Hni & Hnd) & Hseen & Hr & Hrs). split_and!; try done.
           intros id Hin. rewrite lookup_insert_ne by congruence. apply Hseen. by right.
Qed.

Lemma checks_ruleset refs rs :
  checks (λ f, validateRules refs 0 (rsRules rs) ∅
            (validateSelector "scope" (rsScope rs)
               (add_if (bool_decide (rsName rs = "")) "name" ErrEmptyName (DText "")
                  (carry "" (rsFaults rs) f)))) (ruleset_ok refs rs).
Proof.
  eapply checks_iff; [|eapply checks_comp; [eapply checks_comp; [eapply checks_comp|]|]].
  2: apply checks_carry. 2: apply checks_add_if. 2: apply checks_selector. 2: apply checks_rules.
  rewrite bool_decide_eq_false. split.
  - intros (((Hf & Hn) & Hs) & Hnd & _ & Hr). by split.
  - intros [Hf Hn Hs Hnd Hr]. split_and!; try done.
Qed.

Lemma checks_service s :
  checks (λ f, each (λ i e, validateEntry (at_index "entries" i) e) 0 (svcEntries s)
    (add_if (bool_decide (svcEntries s = [])) "entries" ErrNoEntries (DText "")
      (add_if (bool_decide (svcName s = "")) "name" ErrEmptyName (DText "")
        (carry "" (svcFaults s) f))))
    (svcFaults s = [] ∧ svcName s ≠ "" ∧ svcEntries s ≠ [] ∧ Forall entry_ok (svcEntries s)).
Proof.
  eapply checks_iff; [|eapply checks_comp; [eapply checks_comp; [eapply checks_comp|]|]].
  2: apply checks_carry. 2-3: apply checks_add_if.
  2: apply checks_each; intros i e; apply checks_entry.
  rewrite !bool_decide_eq_false. tauto.
Qed.

Lemma checks_group g :
  checks (λ f, each (λ i c, add_if (bad_prefix c) (at_index "cidrs" i) ErrBadCIDR (DText c)) 0 (agCIDRs g)
    (add_if (bool_decide (agCIDRs g = [])) "cidrs" ErrNoCIDRs (DText "")
      (add_if (bool_decide (agName g = "")) "name" ErrEmptyName (DText "") f)))
    (agName g ≠ "" ∧ agCIDRs g ≠ [] ∧ Forall (λ c, is_Some (ParsePrefix c)) (agCIDRs g)).
Proof.
  eapply checks_iff; [|eapply checks_comp; [eapply checks_comp|]].
  2-3: apply checks_add_if. 2: apply checks_each; intros i e; apply checks_add_if.
  assert (∀ c, bad_prefix c = false ↔ is_Some (ParsePrefix c)) as Hb.
  { intros c. unfold bad_prefix. by rewrite bool_decide_eq_false, <-not_eq_None_Some. }
  setoid_rewrite Hb. rewrite !bool_decide_eq_false. tauto.
Qed.
End exactness.

Lemma Rebase_nil prefix l : Rebase prefix l = [] ↔ l = [].
Proof. by destruct l. Qed.

(** ** Label sets *)

Lemma checks_labels ls i seen f :
  consistent f →
  fErrors (validateLabels i ls (f, seen)).1 = [] ↔
  fErrors f = [] ∧ Forall (λ l, label_text true (lpKey l) ∧ label_text false (lpValue l)) ls ∧
  NoDup (lpKey <$> ls) ∧ ∀ k, k ∈ lpKey <$> ls → seen !! k = None.
Proof.
  revert i seen f. induction ls as [|l ls IH]; intros i seen f Hf.
  { cbn. split; [|tauto]. intros. split_and!; [done|constructor|constructor|set_solver]. }
  cbn [validateLabels validateLabel fmap list_fmap].
  rewrite Forall_cons, NoDup_cons, <-CheckLabelKey_ok, <-CheckLabelValue_ok.
  destruct (CheckLabelKey (lpKey l)) as [e1|] eqn:Hk.
  { destruct (checks_add (at_index "labels" i) e1 (DQuoted (lpKey l)) f Hf) as [Hc He].
    destruct (CheckLabelValue (lpValue l)) as [e2|].
    - destruct (checks_add (at_index "labels" i) e2 (DPair (lpKey l) (lpValue l)) _ Hc) as [Hc' He'].
      rewrite IH by done. rewrite He'. naive_solver.
    - rewrite IH by done. rewrite He. naive_solver. }
  destruct (CheckLabelValue (lpValue l)) as [e2|].
  { destruct (checks_add (at_index "labels" i) e2 (DPair (lpKey l) (lpValue l)) f Hf) as [Hc He].
    rewrite IH by done. rewrite He. naive_solver. }
  destruct (seen !! lpKey l) as [first|] eqn:Hs.
  - destruct (checks_add (at_index "labels" i) ErrDuplicateLabelKey (DAlsoAt (lpKey l) first) f Hf)
      as [Hc He]. rewrite IH by done. rewrite He. split; [tauto|].
    intros (_ & _ & _ & Hall). rewrite Hall in Hs; [done|left].
  - rewrite IH by done. split.
    + intros (Hfe & Hls & Hnd & Hseen). split_and!; try done.
      * intros Hin. specialize (Hseen _ Hin). by rewrite lookup_insert_eq in Hseen.
      * intros k [->|Hin]%elem_of_cons; [done|]. specialize (Hseen _ Hin).
        by apply lookup_insert_None in Hseen as [? _].
    + intros (Hfe & (_ & Hls) & (Hni & Hnd) & Hseen). split_and!; try done.
      intros k Hin. rewrite lookup_insert_ne by (intros Heq; by rewrite Heq in Hni). apply Hseen. by right.
Qed.


(** ** Properties *)

(** C30: admission of a ruleset is exact.  [ValidateRuleset] returns nil exactly
    for a ruleset that carries no document fault, has a name, a scope in the
    label grammar that is not empty, distinct rule ids, and rules that are
    inbound, list peers of one well-formed kind each whose references resolve,
    and list services that exist or entries whose ports suit their protocol. *)
Theorem ValidateRuleset_exact `{UUIDLib} rs refs :
  ValidateRuleset rs refs = None ↔ ruleset_ok refs rs.
Proof. exact (checks_result _ _ (checks_ruleset refs rs)). Qed.

(** Admission of the other authored objects is exact too: services, address
    groups, a rule on its own and a selector on its own. *)
Theorem Validate_objects_exact `{UUIDLib} (s : Service) (g : AddressGroup) (r : Rule)
    (sel : Selector) (refs : References) :
  (ValidateService s = None ↔
     svcFaults s = [] ∧ svcName s ≠ "" ∧ svcEntries s ≠ [] ∧ Forall entry_ok (svcEntries s)) ∧
  (ValidateAddressGroup g = None ↔
     agName g ≠ "" ∧ agCIDRs g ≠ [] ∧ Forall (λ c, is_Some (ParsePrefix c)) (agCIDRs g)) ∧
  (ValidateRule r refs = None ↔ rule_ok refs r) ∧
  (ValidateSelector sel = None ↔ selector_ok sel).
Proof.
  split_and!.
  - exact (checks_result _ _ (checks_service s)).
  - exact (checks_result _ _ (checks_group g)).
  - rewrite <-(checks_result _ _ (checks_rule refs "" r)). unfold ValidateRule, findings_result.
    cbn [fErrors]. by destruct (fErrors (validateRule refs "" r noFindings)).
  - rewrite <-(checks_result _ _ (checks_selector "" sel)). unfold ValidateSelector, findings_result.
    cbn [fErrors]. by destruct (fErrors (validateSelector "" sel noFindings)).
Qed.

(** The label grammar keeps the textual form unambiguous.  A label set is
    admitted exactly when its keys are distinct and every key and value is 1 to
    63 bytes of the grammar beginning and ending with a letter or digit; and no
    admitted text holds a space, a tab, a newline, an equals sign or a bar. *)
Theorem ValidateLabelSet_exact labels :
  (ValidateLabelSet labels = None ↔
     Forall (λ l, label_text true (lpKey l) ∧ label_text false (lpValue l)) labels ∧
     NoDup (lpKey <$> labels)) ∧
  ∀ key s c, label_text key s →
    c ∈ [" "; "009"; "010"; "013"; "="; "|"; ","]%char → contains_byte c s = false.
Proof.
  split.
  - unfold ValidateLabelSet, findings_result.
    trans (fErrors (validateLabels 0 labels (noFindings, ∅)).1 = []);
      [by destruct (fErrors _)|].
    rewrite checks_labels by done. split; [tauto|]. intros [? ?]. split_and!; try done.
  - intros key s c (_ & Hall & _) Hc. induction s as [|d s IH]; [done|].
    cbn in Hall. apply Forall_cons in Hall as [Hd Hall]. cbn. rewrite decide_False; [by apply IH|].
    intros <-. revert Hd. clear -Hc. unfold label_byte.
    repeat (apply elem_of_cons in Hc as [->|Hc]; [naive_solver|]). by apply elem_of_nil in Hc.
Qed.
