(* ===== verification/Registry.v ===== *)
(** * The workload registry: [internal/registry]

    The control plane's record of a workload, which of them are active, the
    digest of a label set that conditional label writes name, and the addresses
    a workload is reachable at.  Instants and durations are integers
    (nanoseconds); a nil pointer is [None]. *)

From S2P Require Import Prelude GoStd Netip Wire Uuid Sha256 Identity.

Record Label := MkLabel { lblKey : string; lblValue : string }.

#[export] Instance Label_eq_dec : EqDecision Label.
Proof. solve_decision. Defined.

Record PresentedCredential := MkPresentedCredential { presSerial : string; presExpiresAt : Z }.
Record LateRenewal := MkLateRenewal { lrRenewedAt : Z; lrExpiredAt : Z }.
Record ClockSkew := MkClockSkew { csOffset : Z; csObservedAt : Z; csCurrent : bool }.
Record AgentProcess := MkAgentProcess { apStartedAt : Z; apHeartbeatAt : Z }.

Section registry.
Context `{UUIDLib}.

Record Workload := MkWorkload {
  wID : WorkloadID;
  wHostname : string;
  wLabels : list Label;
  wMode : EnforcementMode;
  wFacts : option HostFacts;
  wAddresses : list Addr;
  wAgentVersion : string;
  wAgentCapabilities : list string;
  wEnrolledAt : Z;
  wLastSeenAt : option Z;
  wSyncState : SyncState;
  wAppliedVersion : Z;
  wSyncError : string;
  wDroppedFlowRecords : Z;
  wSourceOverruns : Z;
  wCredentialRenewalError : string;
  wCredentialSerial : string;
  wCredentialExpiresAt : Z;
  wPresentedCredential : option PresentedCredential;
  wLateRenewal : option LateRenewal;
  wLastSnapshotSentAt : option Z;
  wLastAckedAt : option Z;
  wLastApplyFailedAt : option Z;
  wClockSkew : option ClockSkew;
  wOwnedTable : OwnedTableState;
  wOwnedTableAbsentSince : option Z;
  wLastFlowReportAt : option Z;
  wRetiredAt : option Z;
}.

Definition Retired (w : Workload) : bool := bool_decide (wRetiredAt w ≠ None).

Definition Active (workloads : list Workload) : list Workload :=
  filter (λ w, Retired w = false) workloads.

(** [LabelMap]: the last label of a key wins. *)
Definition LabelMap (w : Workload) : gmap string string :=
  foldl (λ m l, <[lblKey l := lblValue l]> m) ∅ (wLabels w).
End registry.

(** [LabelsVersion]: the first 16 hexadecimal digits of the digest of the
    sorted pairs, each followed by a zero byte. *)
Definition label_pairs (labels : list Label) : list string :=
  merge_sort String.le ((λ l, lblKey l +:+ "=" +:+ lblValue l) <$> labels).

Definition LabelsVersion (labels : list Label) : string :=
  String.substring 0 16 (EncodeToString (Sum256
    (label_pairs labels ≫= λ p, string_bytes p ++ [0%Z]))).

(** ** Addresses *)

Definition parseAddr (s : string) : option Addr :=
  match ParsePrefix s with
  | Some pfx => Some (pAddr pfx)
  | None => ParseAddr s
  end.

(** The classes of address that never name a workload to its peers. *)
Definition local_address (x : Addr) : bool :=
  IsLoopback x || IsLinkLocalUnicast x || IsLinkLocalMulticast x || IsMulticast x ||
  IsUnspecified x || IsInterfaceLocalMulticast x.

(** One address text of the loop in [AddressesFromFacts]. *)
Definition takeAddress (st : gset Addr * list Addr) (s : string) : gset Addr * list Addr :=
  let '(seen, out) := st in
  match parseAddr s with
  | None => st
  | Some addr =>
      let addr := Unmap addr in
      if local_address addr then st
      else if decide (addr ∈ seen) then st
      else ({[addr]} ∪ seen, out ++ [addr])
  end.

(** The inner loop of [sortAddrs]: the element moves left past greater ones.
    The sorted part of the slice is kept in reverse. *)
Fixpoint sinkAddr (x : Addr) (rev : list Addr) : list Addr :=
  match rev with
  | [] => [x]
  | y :: rev' => if Addr_Less x y then y :: sinkAddr x rev' else x :: rev
  end.

Definition sortAddrs (a : list Addr) : list Addr :=
  reverse (foldl (λ rev x, sinkAddr x rev) [] a).

Definition AddressesFromFacts (facts : option HostFacts) : list Addr :=
  sortAddrs (foldl (λ st iface, foldl takeAddress st (niAddresses iface)) (∅, [])
               (GetInterfaces facts)).2.

(** ** Lemmas *)

Lemma sinkAddr_Permutation x rev : sinkAddr x rev ≡ₚ x :: rev.
Proof.
  induction rev as [|y rev IH]; [done|]. cbn. destruct (Addr_Less x y); [|done].
  rewrite IH. constructor.
Qed.

Definition addr_desc (x y : Addr) : Prop := Addr_Less x y = false.

Lemma Addr_Less_false_trans x y z :
  Addr_Less x y = false → Addr_Less y z = false → Addr_Less x z = false.
Proof.
  intros H1 H2. apply not_true_iff_false. intros H3.
  destruct (Addr_Less_total x y) as [?|[->|Hyx]]; [congruence|congruence|].
  by rewrite (Addr_Less_trans y x z) in H2.
Qed.

Lemma sinkAddr_sorted x rev :
  StronglySorted addr_desc rev → StronglySorted addr_desc (sinkAddr x rev).
Proof.
  induction 1 as [|y rev Hs IH Hy]; cbn; [repeat constructor|].
  destruct (Addr_Less x y) eqn:Hxy.
  - constructor; [done|]. rewrite sinkAddr_Permutation. constructor; [|done].
    unfold addr_desc. apply not_true_iff_false. intros Hyx.
    pose proof (Addr_Less_trans x y x Hxy Hyx) as Hxx. by rewrite Addr_Less_irrefl in Hxx.
  - constructor; [by constructor|]. constructor; [done|].
    eapply Forall_impl; [exact Hy|]. intros z. by apply Addr_Less_false_trans.
Qed.

Lemma sink_all l rev :
  StronglySorted addr_desc rev →
  StronglySorted addr_desc (foldl (λ rev x, sinkAddr x rev) rev l) ∧
  foldl (λ rev x, sinkAddr x rev) rev l ≡ₚ l ++ rev.
Proof.
  revert rev. induction l as [|x l IH]; intros rev Hs; cbn; [done|].
  destruct (IH (sinkAddr x rev) (sinkAddr_sorted x rev Hs)) as [Hs' Hp']. split; [done|].
  rewrite Hp', sinkAddr_Permutation. by rewrite <-Permutation_middle.
Qed.

Lemma sortAddrs_Permutation l : sortAddrs l ≡ₚ l.
Proof.
  unfold sortAddrs. rewrite reverse_Permutation.
  destruct (sink_all l [] ltac:(constructor)) as [_ ->]. by rewrite app_nil_r.
Qed.

(** Insertion sort sorts; without duplicates the order is strict. *)
Lemma sortAddrs_sorted l :
  NoDup l → StronglySorted (λ x y, Addr_Less x y = true) (sortAddrs l).
Proof.
  intros Hnd. assert (NoDup (sortAddrs l)) as Hnd' by (by rewrite sortAddrs_Permutation).
  revert Hnd'. unfold sortAddrs.
  destruct (sink_all l [] ltac:(constructor)) as [Hs _]. revert Hs.
  generalize (foldl (λ rev x, sinkAddr x rev) [] l). intros rev Hs.
  induction Hs as [|y rev Hs IH Hy]; [constructor|]. rewrite reverse_cons.
  intros [Hnd1 [Hd _]]%NoDup_app. apply StronglySorted_snoc; [by apply IH|].
  apply Forall_forall. intros x Hx. rewrite elem_of_reverse in Hx.
  rewrite Forall_forall in Hy. specialize (Hy x Hx). unfold addr_desc in Hy.
  destruct (Addr_Less_total x y) as [?|[->|?]]; [done| |congruence].
  destruct (Hd y); [by rewrite elem_of_reverse|left].
Qed.

(** The address a text contributes. *)
Definition reachable_as (s : string) (a : Addr) : Prop :=
  ∃ x, parseAddr s = Some x ∧ a = Unmap x ∧ local_address a = false.

Lemma takeAddress_spec s seen out :
  (∀ a, a ∈ seen ↔ a ∈ out) → NoDup out →
  ∃ seen' out', takeAddress (seen, out) s = (seen', out') ∧
    (∀ a, a ∈ seen' ↔ a ∈ out') ∧ NoDup out' ∧
    ∀ a, a ∈ out' ↔ a ∈ out ∨ reachable_as s a.
Proof.
  intros Hso Hnd. cbn. unfold reachable_as. destruct (parseAddr s) as [x|].
  2: { exists seen, out. split_and!; [done..|]. intros a. split; [auto|].
       intros [?|(y & ? & _)]; done. }
  destruct (local_address (Unmap x)) eqn:Hl.
  { exists seen, out. split_and!; [done..|]. intros a. split; [auto|].
    intros [?|(y & [= <-] & -> & ?)]; [done|congruence]. }
  case_decide as Hin.
  - exists seen, out. split_and!; [done..|]. intros a. split; [auto|].
    intros [?|(y & [= <-] & -> & ?)]; [done|by apply Hso].
  - eexists _, _. split_and!; [done| | |].
    + intros a. rewrite elem_of_union, elem_of_singleton, elem_of_app, Hso.
      rewrite list_elem_of_singleton. tauto.
    + apply NoDup_app. split_and!; [done| |apply NoDup_singleton].
      intros a Ha ->%list_elem_of_singleton. apply Hin. by rewrite Hso.
    + intros a. rewrite elem_of_app, list_elem_of_singleton. split.
      * intros [?| ->]; [by left|right; eauto].
      * intros [?|(y & [= <-] & -> & _)]; auto.
Qed.

Lemma takeAddresses_spec l seen out :
  (∀ a, a ∈ seen ↔ a ∈ out) → NoDup out →
  ∃ seen' out', foldl takeAddress (seen, out) l = (seen', out') ∧
    (∀ a, a ∈ seen' ↔ a ∈ out') ∧ NoDup out' ∧
    ∀ a, a ∈ out' ↔ a ∈ out ∨ ∃ s, s ∈ l ∧ reachable_as s a.
Proof.
  revert seen out. induction l as [|s l IH]; intros seen out Hso Hnd; cbn [foldl].
  - eexists _, _. split_and!; [done..|]. intros a. set_solver.
  - destruct (takeAddress_spec s seen out Hso Hnd) as (seen1 & out1 & -> & Hso1 & Hnd1 & Hel1).
    destruct (IH seen1 out1 Hso1 Hnd1) as (seen2 & out2 & -> & Hso2 & Hnd2 & Hel2).
    eexists _, _. split_and!; [done..|]. intros a. rewrite Hel2, Hel1. set_solver.
Qed.

Lemma takeInterfaces_spec ifs seen out :
  (∀ a, a ∈ seen ↔ a ∈ out) → NoDup out →
  ∃ seen' out', foldl (λ st iface, foldl takeAddress st (niAddresses iface)) (seen, out) ifs
    = (seen', out') ∧ NoDup out' ∧
  ∀ a, a ∈ out' ↔ a ∈ out ∨ ∃ iface s, iface ∈ ifs ∧ s ∈ niAddresses iface ∧ reachable_as s a.
Proof.
  revert seen out. induction ifs as [|iface ifs IH]; intros seen out Hso Hnd; cbn [foldl].
  - eexists _, _. split_and!; [done..|]. intros a. set_solver.
  - destruct (takeAddresses_spec (niAddresses iface) seen out Hso Hnd)
      as (seen1 & out1 & -> & Hso1 & Hnd1 & Hel1).
    destruct (IH seen1 out1 Hso1 Hnd1) as (seen2 & out2 & -> & Hnd2 & Hel2).
    eexists _, _. split_and!; [done..|]. intros a. rewrite Hel2, Hel1. set_solver.
Qed.

(** ** Properties *)

(** The addresses a workload is given in its peers' policies are exactly the
    addresses of its reported interfaces that parse and are not loopback,
    link-local, multicast or unspecified, with IPv4-mapped ones unmapped, in
    strictly increasing order: sorted and without duplicates. *)
Theorem AddressesFromFacts_spec facts :
  StronglySorted (λ x y, Addr_Less x y = true) (AddressesFromFacts facts) ∧
  ∀ a, a ∈ AddressesFromFacts facts ↔
    ∃ iface s x, iface ∈ GetInterfaces facts ∧ s ∈ niAddresses iface ∧ parseAddr s = Some x ∧
      a = Unmap x ∧ local_address a = false.
Proof.
  unfold AddressesFromFacts.
  destruct (takeInterfaces_spec (GetInterfaces facts) ∅ []) as (seen & out & -> & Hnd & Hel);
    [set_solver|constructor|].
  cbn [snd]. split; [by apply sortAddrs_sorted|]. intros a.
  rewrite sortAddrs_Permutation, Hel. unfold reachable_as. set_solver.
Qed.

(** The version of a label set is a function of the set: whatever order the
    labels are written in, [LabelsVersion] is the same. *)
Theorem LabelsVersion_order l1 l2 : l1 ≡ₚ l2 → LabelsVersion l1 = LabelsVersion l2.
Proof.
  intros Hp. unfold LabelsVersion. do 4 f_equal. unfold label_pairs.
  apply (StronglySorted_unique String.le); [apply (StronglySorted_merge_sort _)..|].
  by rewrite !merge_sort_Permutation, Hp.
Qed.

Lemma LabelsVersion_order_witness :
  LabelsVersion [MkLabel "app" "web"; MkLabel "env" "prod"] =
  LabelsVersion [MkLabel "env" "prod"; MkLabel "app" "web"].
Proof.
  apply (LabelsVersion_order [MkLabel "app" "web"; MkLabel "env" "prod"]
           [MkLabel "env" "prod"; MkLabel "app" "web"]). apply Permutation_swap.
Defined.
