(* ===== verification/Compiler.v ===== *)
(** * The policy compiler: [internal/compiler]

    [Render] turns the authored model and the registry into one policy per
    active workload ([render.go]); [Plan] decides which versions advance
    ([plan.go]); [DryRun] reports what a change would do and [StateVersion] what
    it was computed against ([dryrun.go]); [RenderIn] runs a render inside a
    transaction ([engine.go]).  The transaction is an interface, [RenderTx], with
    the laws its comment states; the SQL behind it is not modelled. *)

From S2P Require Import Prelude GoStd Netip Wire Rendered Uuid Sha256 Identity Policy Registry.

Section compiler.
Context `{UUIDLib}.

Record Inputs := MkInputs {
  inWorkloads : list Workload;
  inRulesets : list Ruleset;
  inServices : list Service;
  inAddressGroups : list AddressGroup;
}.

(** [newResolver]: objects by id, a later one with the same id winning. *)
Definition resolverServices (inp : Inputs) : gmap UUID Service :=
  foldl (λ m s, <[svcID s := s]> m) ∅ (inServices inp).
Definition resolverGroups (inp : Inputs) : gmap UUID AddressGroup :=
  foldl (λ m g, <[agID g := g]> m) ∅ (inAddressGroups inp).

(** [expandServices]: the ports per protocol so far, and the protocols some
    entry opened entirely. *)
Definition addEntry (st : gmap Protocol (list PortRange) * gset Protocol) (e : ServiceEntry)
  : gmap Protocol (list PortRange) * gset Protocol :=
  let '(out, allPorts) := st in
  if decide (sePorts e = []) then
    (<[seProtocol e := []]> out, {[seProtocol e]} ∪ allPorts)
  else if decide (seProtocol e ∈ allPorts) then st
  else (<[seProtocol e := default [] (out !! seProtocol e) ++ sePorts e]> out, allPorts).

(** The entries [add] is called on, in order. *)
Definition ruleAllEntries (inp : Inputs) (rule : Rule) : list ServiceEntry :=
  (ruleServiceIDs rule ≫= λ id, match resolverServices inp !! id with
                                | Some s => svcEntries s
                                | None => []
                                end) ++ ruleEntries rule.

Definition expandServices (inp : Inputs) (rule : Rule) : gmap Protocol (list PortRange) :=
  (foldl addEntry (∅, ∅) (ruleAllEntries inp rule)).1.

(** [resolvePeers] *)
Definition resolvePeer (inp : Inputs) (peer : Peer) : list string :=
  match peerKind peer with
  | PeerWorkloads =>
      inWorkloads inp ≫= λ w,
        if Retired w || negb (Matches (peerWorkloads peer) (LabelMap w)) then []
        else HostRoute <$> wAddresses w
  | PeerAddressGroup =>
      match resolverGroups inp !! peerAddressGroupID peer with
      | Some g => agCIDRs g
      | None => []
      end
  | PeerCIDR => [NormalizeCIDR (peerCIDR peer)]
  | PeerUnspecified | PeerKind_other _ => []
  end.

Definition resolvePeers (inp : Inputs) (peers : list Peer) : list string :=
  peers ≫= resolvePeer inp.

Definition renderRule (inp : Inputs) (rule : Rule) : list ResolvedRule :=
  let peers := resolvePeers inp (rulePeers rule) in
  let entries := expandServices inp rule in
  omap (λ proto, ports ← entries !! proto;
          Some (MkResolvedRule (RuleID (uuid_String (ruleID rule)) proto) peers proto ports))
       [PROTOCOL_TCP; PROTOCOL_UDP; PROTOCOL_ICMP].

(** The rules of [renderWorkload]: of the enabled rulesets whose scope matches,
    the enabled inbound rules. *)
Definition applicableRules (inp : Inputs) (w : Workload) : list Rule :=
  inRulesets inp ≫= λ rs,
    if negb (rsEnabled rs) || negb (Matches (rsScope rs) (LabelMap w)) then []
    else filter (λ r, ruleEnabled r = true ∧ ruleDirection r = DIRECTION_INBOUND) (rsRules rs).

Definition renderWorkload (inp : Inputs) (w : Workload) : WorkloadPolicy :=
  let mode := if decide (wMode w = ENFORCEMENT_MODE_UNSPECIFIED)
              then ENFORCEMENT_MODE_VISIBILITY else wMode w in
  Canonical (Some (MkWorkloadPolicy 0 mode (applicableRules inp w ≫= renderRule inp))).

Definition Render (inp : Inputs) : gmap WorkloadID WorkloadPolicy :=
  foldl (λ out w, if Retired w then out else <[wID w := renderWorkload inp w]> out) ∅
    (inWorkloads inp).

(** ** Versions *)

Record Outcome := MkOutcome {
  oID : WorkloadID;
  oPolicy : WorkloadPolicy;
  oChanges : list DeltaChange;
  oChanged : bool;
}.

Definition planOne (previous : gmap WorkloadID WorkloadPolicy) (id : WorkloadID)
    (cur : WorkloadPolicy) : Outcome :=
  let prev := default Empty (previous !! id) in
  let changes := Diff (Some prev) (Some cur) in
  let next := Canonical (Some cur) in
  let changed := negb (bool_decide (changes = [])) || negb (bool_decide (is_Some (previous !! id))) in
  let version := if changed then u64 (wpVersion prev + 1) else wpVersion prev in
  MkOutcome id (MkWorkloadPolicy version (wpMode next) (wpInboundRules next)) changes changed.

(** [sort.Slice] by the text of the id. *)
Definition outcome_le (a b : Outcome) : Prop := wid_le (oID a) (oID b).
#[global] Instance outcome_le_dec : RelDecision outcome_le.
Proof. intros a b. unfold outcome_le. apply _. Defined.
#[global] Instance outcome_le_trans : Transitive outcome_le.
Proof. intros a b c. unfold outcome_le. apply transitivity. Qed.
#[global] Instance outcome_le_total : Total outcome_le.
Proof. intros a b. unfold outcome_le. apply (total wid_le). Qed.

Definition Plan (previous current : gmap WorkloadID WorkloadPolicy) : list Outcome :=
  merge_sort outcome_le ((λ '(id, cur), planOne previous id cur) <$> map_to_list current).

(** ** Dry runs *)

Record RuleChange := MkRuleChange { rcBefore : option ResolvedRule; rcAfter : option ResolvedRule }.

Record WorkloadDiff := MkWorkloadDiff {
  wdID : WorkloadID;
  wdVersion : Z;
  wdMode : option (EnforcementMode * EnforcementMode);
  wdAdded : list (option ResolvedRule);
  wdRemoved : list (option ResolvedRule);
  wdChanged : list RuleChange;
}.

Record DryState := MkDryState {
  dsMode : option (EnforcementMode * EnforcementMode);
  dsAdded : list (option ResolvedRule);
  dsRemoved : list (option ResolvedRule);
  dsChanged : gset string;
}.

(** One change of the loop that classifies a delta. *)
Definition classifyChange (prevMode : EnforcementMode) (before after : gmap string ResolvedRule)
    (st : DryState) (ch : DeltaChange) : DryState :=
  match ch with
  | UpsertRule r =>
      let rid := rrRuleId r in
      if decide (is_Some (before !! rid))
      then MkDryState (dsMode st) (dsAdded st) (dsRemoved st) ({[rid]} ∪ dsChanged st)
      else MkDryState (dsMode st) (dsAdded st ++ [after !! rid]) (dsRemoved st) (dsChanged st)
  | RemoveRuleId id => MkDryState (dsMode st) (dsAdded st) (dsRemoved st ++ [before !! id]) (dsChanged st)
  | AddPeers pc | RemovePeers pc =>
      MkDryState (dsMode st) (dsAdded st) (dsRemoved st) ({[pcRuleId pc]} ∪ dsChanged st)
  | SetMode m => MkDryState (Some (prevMode, m)) (dsAdded st) (dsRemoved st) (dsChanged st)
  | ChangeUnset => st
  end.

Definition dryOne (previous : gmap WorkloadID WorkloadPolicy) (id : WorkloadID)
    (cur : WorkloadPolicy) : option WorkloadDiff :=
  let prev := default Empty (previous !! id) in
  let changes := Diff (Some prev) (Some cur) in
  if decide (changes = []) then None
  else
    let prev := Canonical (Some prev) in
    let cur := Canonical (Some cur) in
    let before := indexRules (wpInboundRules prev) in
    let after := indexRules (wpInboundRules cur) in
    let st := foldl (classifyChange (wpMode prev) before after) (MkDryState None [] [] ∅) changes in
    Some (MkWorkloadDiff id (wpVersion prev) (dsMode st) (dsAdded st) (dsRemoved st)
            ((λ rid, MkRuleChange (before !! rid) (after !! rid)) <$>
               merge_sort String.le (elements (dsChanged st)))).

Definition diff_le (a b : WorkloadDiff) : Prop := wid_le (wdID a) (wdID b).
#[global] Instance diff_le_dec : RelDecision diff_le.
Proof. intros a b. unfold diff_le. apply _. Defined.

Definition DryRun (previous current : gmap WorkloadID WorkloadPolicy) : list WorkloadDiff :=
  merge_sort diff_le (omap (λ '(id, cur), dryOne previous id cur) (map_to_list current)).

(** [StateVersion] *)
Definition workloadLine (w : Workload) : string :=
  if Retired w then "x " +:+ WorkloadID_String (wID w)
  else
    let labels := merge_sort String.le ((λ l, lblKey l +:+ "=" +:+ lblValue l) <$> wLabels w) in
    let addrs := merge_sort String.le (Addr_String <$> wAddresses w) in
    "w " +:+ WorkloadID_String (wID w) +:+ " " +:+ FormatInt (EnforcementMode_number (wMode w)) +:+
    " " +:+ Join labels "," +:+ " " +:+ Join addrs ",".

Definition objectLine (tag : string) (id : UUID) (version : Z) : string :=
  tag +:+ " " +:+ uuid_String id +:+ " " +:+ FormatInt version.

Definition stateLines (inp : Inputs) : list string :=
  merge_sort String.le (
    (workloadLine <$> inWorkloads inp) ++
    ((λ rs, objectLine "r" (rsID rs) (rsVersion rs)) <$> inRulesets inp) ++
    ((λ s, objectLine "s" (svcID s) (svcVersion s)) <$> inServices inp) ++
    ((λ g, objectLine "g" (agID g) (agVersion g)) <$> inAddressGroups inp)).

Definition StateVersion (inp : Inputs) : string :=
  String.substring 0 32 (EncodeToString (Sum256
    (stateLines inp ≫= λ l, string_bytes l ++ [10%Z]))).

(** ** The engine *)

Record Change := MkChange { chID : WorkloadID; chVersion : Z; chChanges : nat }.
Record Report := MkReport { repWorkloads : nat; repChanged : list Change }.

(** [compiler.Tx]: one transaction under the render lock, on a state [St]. *)
Class RenderTx (St Er : Type) := {
  LoadInputs : St → result Er Inputs;
  LoadPolicies : St → result Er (gmap WorkloadID WorkloadPolicy);
  SavePolicy : WorkloadID → WorkloadPolicy → Z → St → result Er St;
}.

(** A policy that is stored as it is: in canonical form, with a 64-bit version. *)
Definition savable (p : WorkloadPolicy) : Prop := Canonical (Some p) = p ∧ u64 (wpVersion p) = wpVersion p.

(** What a render relies on: a saved policy is the one loaded afterwards, and
    saving touches neither the other policies nor the inputs. *)
Class RenderTxLaws (St Er : Type) `{RenderTx St Er} : Prop := {
  save_inputs id p now s s' : SavePolicy id p now s = Ok s' → LoadInputs s' = LoadInputs s;
  save_policies id p now s s' m :
    savable p → SavePolicy id p now s = Ok s' → LoadPolicies s = Ok m → LoadPolicies s' = Ok (<[id := p]> m);
}.

(** The loop of [RenderIn] over the outcomes. *)
Fixpoint saveOutcomes {St Er} `{RenderTx St Er} (now : Z) (os : list Outcome) (s : St) (rep : Report)
  : result Er (St * Report) :=
  match os with
  | [] => Ok (s, rep)
  | o :: os' =>
      let rep := MkReport (S (repWorkloads rep)) (repChanged rep) in
      if oChanged o then
        s' ← SavePolicy (oID o) (oPolicy o) now s;
        saveOutcomes now os' s' (MkReport (repWorkloads rep)
          (repChanged rep ++ [MkChange (oID o) (wpVersion (oPolicy o)) (length (oChanges o))]))
      else saveOutcomes now os' s rep
  end.

Definition RenderIn {St Er} `{RenderTx St Er} (now : Z) (s : St) : result Er (St * Report) :=
  inp ← LoadInputs s;
  previous ← LoadPolicies s;
  saveOutcomes now (Plan previous (Render inp)) s (MkReport 0 []).
End compiler.

(** ** What the authored model permits

    The meaning of the authored rules, against which rendering is proved. *)

Section semantics.
Context `{UUIDLib}.

Definition peerReaches (inp : Inputs) (src : Addr) (peer : Peer) : Prop :=
  match peerKind peer with
  | PeerWorkloads =>
      ∃ w a, w ∈ inWorkloads inp ∧ wRetiredAt w = None ∧
        Matches (peerWorkloads peer) (LabelMap w) = true ∧ a ∈ wAddresses w ∧
        peerCovers src (HostRoute a) = true
  | PeerAddressGroup =>
      ∃ g c, resolverGroups inp !! peerAddressGroupID peer = Some g ∧ c ∈ agCIDRs g ∧
        peerCovers src c = true
  | PeerCIDR => peerCovers src (peerCIDR peer) = true
  | PeerUnspecified | PeerKind_other _ => False
  end.

Definition entryOpens (proto : Protocol) (port : Z) (e : ServiceEntry) : Prop :=
  seProtocol e = proto ∧ (sePorts e = [] ∨ ∃ pr, pr ∈ sePorts e ∧ portCovers port pr = true).

(** A rule lets a packet in when a peer reaches it and an entry opens it. *)
Definition ruleLets (inp : Inputs) (src : Addr) (proto : Protocol) (port : Z) (r : Rule) : Prop :=
  (∃ peer, peer ∈ rulePeers r ∧ peerReaches inp src peer) ∧
  (∃ e, e ∈ ruleAllEntries inp r ∧ entryOpens proto port e).

(** A rule bears on a workload: enabled and inbound, in an enabled ruleset
    whose scope matches the workload. *)
Definition bearsOn (inp : Inputs) (w : Workload) (r : Rule) : Prop :=
  ∃ rs, rs ∈ inRulesets inp ∧ rsEnabled rs = true ∧ Matches (rsScope rs) (LabelMap w) = true ∧
    r ∈ rsRules rs ∧ ruleEnabled r = true ∧ ruleDirection r = DIRECTION_INBOUND.

(** ** Services *)

(** What the accumulated state says of a protocol after some entries. *)
Definition expanded (es : list ServiceEntry) (out : gmap Protocol (list PortRange))
    (allp : gset Protocol) (p : Protocol) : Prop :=
  let mine := filter (λ e, seProtocol e = p) es in
  if decide (p ∈ allp) then out !! p = Some [] ∧ ∃ e, e ∈ mine ∧ sePorts e = []
  else Forall (λ e, sePorts e ≠ []) mine ∧
       out !! p = if decide (mine = []) then None else Some (mine ≫= sePorts).

Lemma addEntry_expanded es e out allp p :
  expanded es out allp p →
  expanded (es ++ [e]) (addEntry (out, allp) e).1 (addEntry (out, allp) e).2 p.
Proof.
  unfold expanded, addEntry. rewrite filter_app, filter_cons, filter_nil.
  destruct (decide (seProtocol e = p)) as [<-|Hne].
  - destruct (decide (sePorts e = [])) as [He|He]; cbn [fst snd].
    + intros _. rewrite decide_True by set_solver. rewrite lookup_insert_eq. split; [done|].
      exists e. split; [set_solver|done].
    + destruct (decide (seProtocol e ∈ allp)) as [Hin|Hout]; cbn [fst snd].
      * rewrite !(decide_True (P:=seProtocol e ∈ allp)) by done. intros [? (e' & ? & ?)]. split; [done|]. exists e'. set_solver.
      * rewrite !(decide_False (P:=seProtocol e ∈ allp)) by done. intros [Hall Hl]. split.
        { apply Forall_app. split; [done|]. by constructor. }
        rewrite lookup_insert_eq, decide_False by (by intros [_ ?]%app_nil).
        rewrite Hl, bind_app. cbn. rewrite app_nil_r. case_decide as Hm; [|done]. by rewrite Hm.
  - rewrite app_nil_r. destruct (decide (sePorts e = [])) as [He|He]; cbn [fst snd];
      [|destruct (decide (seProtocol e ∈ allp)); cbn [fst snd]; [done|]].
    + rewrite lookup_insert_ne by done. intros Hx.
      destruct (decide (p ∈ allp)); [rewrite decide_True by set_solver|rewrite decide_False by set_solver]; done.
    + by rewrite lookup_insert_ne.
Qed.

Lemma expandServices_expanded es p :
  let st := foldl addEntry (∅, ∅) es in expanded es st.1 st.2 p.
Proof.
  cbn zeta. induction es as [|e es IH] using rev_ind.
  - unfold expanded. cbn. rewrite decide_False by set_solver. split; [constructor|]. done.
  - rewrite foldl_app. cbn [foldl]. destruct (foldl addEntry (∅, ∅) es) as [out allp].
    by apply addEntry_expanded.
Qed.

(** The expanded ports of a protocol open exactly what its entries open. *)
Lemma expandServices_opens inp r proto port :
  (∃ ports, expandServices inp r !! proto = Some ports ∧
     (ports = [] ∨ ∃ pr, pr ∈ ports ∧ portCovers port pr = true)) ↔
  ∃ e, e ∈ ruleAllEntries inp r ∧ entryOpens proto port e.
Proof.
  pose proof (expandServices_expanded (ruleAllEntries inp r) proto) as Hx. cbn zeta in Hx.
  unfold expandServices, entryOpens. unfold expanded in Hx.
  destruct (foldl addEntry (∅, ∅) (ruleAllEntries inp r)) as [out allp]. cbn [fst snd] in *.
  case_decide as Hall.
  - destruct Hx as [Hl (e & He & Hp)]. rewrite Hl. apply list_elem_of_filter in He as [Hproto He].
    split; [intros _; eauto 6|eauto].
  - destruct Hx as [Hne Hl]. rewrite Hl. rewrite Forall_forall in Hne.
    setoid_rewrite list_elem_of_filter in Hne. case_decide as Hm.
    + split; [by intros (? & ? & _)|]. intros (e & He & Hproto & _).
      assert (e ∈ filter (λ e, seProtocol e = proto) (ruleAllEntries inp r)) as Hin
        by (by apply list_elem_of_filter). rewrite Hm in Hin. by apply elem_of_nil in Hin.
    + split.
      * intros (ports & [= <-] & Hp). destruct Hp as [Hp|(pr & Hpr & Hc)].
        { destruct (filter _ _) as [|e l] eqn:Hf; [done|]. exfalso. cbn in Hp.
          apply app_nil in Hp as [Hp _]. apply (Hne e); [|done].
          apply (list_elem_of_filter (λ e, seProtocol e = proto)). rewrite Hf. left. }
        apply list_elem_of_bind in Hpr as (e & Hpr & [Hproto He]%list_elem_of_filter). eauto 8.
      * intros (e & He & Hproto & Hp). eexists. split; [done|]. right.
        destruct Hp as [Hp|(pr & Hpr & Hc)]; [by destruct (Hne e)|]. exists pr. split; [|done].
        apply list_elem_of_bind. exists e. by rewrite list_elem_of_filter.
Qed.

(** ** Peers *)

Lemma Retired_false (w : Workload) : Retired w = false ↔ wRetiredAt w = None.
Proof.
  unfold Retired. rewrite bool_decide_eq_false. destruct (wRetiredAt w); naive_solver.
Qed.

Lemma resolvePeer_covers inp src peer :
  (∃ c, c ∈ resolvePeer inp peer ∧ peerCovers src c = true) ↔ peerReaches inp src peer.
Proof.
  unfold resolvePeer, peerReaches. destruct (peerKind peer); [set_solver| | | |set_solver].
  - setoid_rewrite list_elem_of_bind. split.
    + intros (c & (w & Hc & Hw) & Hcov). destruct (Retired w) eqn:Hr; [by apply elem_of_nil in Hc|].
      destruct (Matches (peerWorkloads peer) (LabelMap w)) eqn:Hm; [|by apply elem_of_nil in Hc].
      apply list_elem_of_fmap in Hc as (a & -> & Ha). apply Retired_false in Hr. eauto 8.
    + intros (w & a & Hw & Hr & Hm & Ha & Hcov). exists (HostRoute a). split; [|done]. exists w.
      apply Retired_false in Hr. rewrite Hr, Hm. split; [by apply list_elem_of_fmap_2|done].
  - destruct (resolverGroups inp !! peerAddressGroupID peer) as [g|]; set_solver.
  - setoid_rewrite list_elem_of_singleton. split.
    + intros (c & -> & Hc). by rewrite peerCovers_Normalize in Hc.
    + intros Hc. eexists. by rewrite peerCovers_Normalize.
Qed.

Lemma resolvePeers_covers inp src peers :
  existsb (peerCovers src) (resolvePeers inp peers) = true ↔
  ∃ peer, peer ∈ peers ∧ peerReaches inp src peer.
Proof.
  rewrite existsb_exists. setoid_rewrite <-list_elem_of_In. unfold resolvePeers.
  setoid_rewrite list_elem_of_bind. setoid_rewrite <-resolvePeer_covers. naive_solver.
Qed.

(** ** Rules *)

Definition compiled (proto : Protocol) : Prop :=
  proto = PROTOCOL_TCP ∨ proto = PROTOCOL_UDP ∨ proto = PROTOCOL_ICMP.

Lemma elem_of_renderRule inp r rr :
  rr ∈ renderRule inp r ↔
  ∃ proto ports, compiled proto ∧ expandServices inp r !! proto = Some ports ∧
    rr = MkResolvedRule (RuleID (uuid_String (ruleID r)) proto) (resolvePeers inp (rulePeers r))
           proto ports.
Proof.
  unfold renderRule, compiled. rewrite list_elem_of_omap. split.
  - intros (proto & Hp & (ports & Hl & [= <-])%bind_Some). exists proto, ports. set_solver.
  - intros (proto & ports & Hp & Hl & ->). exists proto. rewrite Hl. set_solver.
Qed.

Lemma rulePermits_rendered inp r src proto port :
  compiled proto →
  (∃ rr, rr ∈ renderRule inp r ∧ rulePermits src proto port rr = true) ↔
  ruleLets inp src proto port r.
Proof.
  intros Hp. unfold ruleLets. rewrite <-resolvePeers_covers, <-expandServices_opens.
  setoid_rewrite elem_of_renderRule. setoid_rewrite rulePermits_true. split.
  - intros (rr & (proto' & ports & Hp' & Hl & ->) & Hproto & Hports & Hpeers).
    cbn [rrProtocol rrPorts rrPeerCidrs] in *. subst. split; [done|]. by exists ports.
  - intros (Hpeers & ports & Hl & Hports). eexists. split; [by exists proto, ports|]. done.
Qed.

Lemma elem_of_applicableRules inp w r : r ∈ applicableRules inp w ↔ bearsOn inp w r.
Proof.
  unfold applicableRules, bearsOn. rewrite list_elem_of_bind. split.
  - intros (rs & Hr & Hrs). destruct (rsEnabled rs) eqn:He; [|by apply elem_of_nil in Hr].
    destruct (Matches (rsScope rs) (LabelMap w)) eqn:Hm; [|by apply elem_of_nil in Hr].
    apply list_elem_of_filter in Hr as [[? ?] ?]. eauto 10.
  - intros (rs & Hrs & He & Hm & Hr & Hen & Hd). exists rs. rewrite He, Hm.
    split; [|done]. by apply list_elem_of_filter.
Qed.

(** ** Which workloads are rendered *)

Lemma Render_fold inp ws (m : gmap WorkloadID WorkloadPolicy) id :
  foldl (λ out w, if Retired w then out else <[wID w := renderWorkload inp w]> out) m ws !! id =
  match last (filter (λ w, wRetiredAt w = None ∧ wID w = id) ws) with
  | Some w => Some (renderWorkload inp w)
  | None => m !! id
  end.
Proof.
  induction ws as [|w ws IH] using rev_ind; [done|].
  rewrite foldl_app, filter_app, filter_cons, filter_nil. cbn [foldl].
  destruct (Retired w) eqn:Hr.
  - rewrite decide_False, app_nil_r; [done|]. intros [Hn%Retired_false _]. congruence.
  - apply Retired_false in Hr. destruct (decide (wID w = id)) as [<-|Hne].
    + by rewrite lookup_insert_eq, decide_True, last_snoc.
    + rewrite lookup_insert_ne, decide_False, app_nil_r by naive_solver. done.
Qed.

Lemma Render_lookup inp w :
  NoDup (wID <$> inWorkloads inp) → w ∈ inWorkloads inp →
  Render inp !! wID w = if Retired w then None else Some (renderWorkload inp w).
Proof.
  intros Hnd Hw. unfold Render. rewrite Render_fold, <-list_filter_filter.
  rewrite (filter_unique wID) by done. rewrite filter_cons, filter_nil.
  destruct (Retired w) eqn:Hr.
  - rewrite decide_False; [done|]. rewrite <-Retired_false. congruence.
  - rewrite decide_True; [done|]. by apply Retired_false.
Qed.

(** ** Distinct rule ids *)

Context {Hlaws : UUIDLaws}.

Lemma applicableRules_sublist inp w : applicableRules inp w `sublist_of` (inRulesets inp ≫= rsRules).
Proof.
  unfold applicableRules. induction (inRulesets inp) as [|rs l IH]; [done|].
  rewrite !bind_cons. apply sublist_app; [|done].
  destruct (negb (rsEnabled rs) || negb (Matches (rsScope rs) (LabelMap w))).
  - apply sublist_nil_l.
  - apply sublist_filter.
Qed.

Lemma renderRule_ids inp r :
  NoDup (rrRuleId <$> renderRule inp r) ∧
  ∀ x, x ∈ rrRuleId <$> renderRule inp r → ∃ p, compiled p ∧ x = RuleID (uuid_String (ruleID r)) p.
Proof.
  split.
  - unfold renderRule. pose proof (uuid_String_no_slash (ruleID r)) as Hs.
    generalize dependent (uuid_String (ruleID r)). intros id Hs.
    assert (∀ p q, compiled p → compiled q → RuleID id p = RuleID id q → p = q) as Hinj.
    { intros p q Hp Hq Heq. by destruct (RuleID_inj id id p q). }
    assert (∀ l, NoDup l → Forall compiled l → NoDup (rrRuleId <$> omap (λ proto,
      ports ← expandServices inp r !! proto;
      Some (MkResolvedRule (RuleID id proto) (resolvePeers inp (rulePeers r)) proto ports)) l)) as Hl.
    { induction l as [|p l IH]; [constructor|]. intros [Hp Hnd]%NoDup_cons [Hc Hcl]%Forall_cons. cbn.
      destruct (expandServices inp r !! p) as [ports|]; cbn; [|by apply IH].
      constructor; [|by apply IH]. rewrite list_elem_of_fmap.
      intros (rr & Hid & (q & Hq & (ports' & _ & [= <-])%bind_Some)%list_elem_of_omap).
      cbn in Hid. rewrite Forall_forall in Hcl. apply Hinj in Hid; auto. by subst. }
    apply Hl; [|apply Forall_forall; unfold compiled; set_solver].
    apply (bool_decide_unpack _). vm_compute. exact I.
  - intros x Hx. apply list_elem_of_fmap in Hx as (rr & -> & Hrr).
    apply elem_of_renderRule in Hrr as (p & ports & Hp & _ & ->). eauto.
Qed.

Lemma renderRules_ids inp rules :
  NoDup (ruleID <$> rules) → NoDup (rrRuleId <$> (rules ≫= renderRule inp)).
Proof.
  induction rules as [|r rules IH]; [constructor|]. cbn [fmap list_fmap].
  intros [Hr Hnd]%NoDup_cons. rewrite bind_cons, fmap_app.
  destruct (renderRule_ids inp r) as [Hnd1 Hid]. apply NoDup_app. split_and!; [done| |by apply IH].
  intros x Hx Hx'. apply Hid in Hx as (p & Hp & ->). clear Hid.
  apply list_elem_of_fmap in Hx' as (rr & Hx' & (r' & Hrr & Hr')%list_elem_of_bind).
  apply elem_of_renderRule in Hrr as (q & ports & Hq & _ & ->). cbn in Hx'.
  apply RuleID_inj in Hx' as [Heq _]; try done; try apply uuid_String_no_slash.
  apply (inj uuid_String) in Heq. apply Hr. rewrite Heq. by apply list_elem_of_fmap_2.
Qed.
Lemma renderWorkload_permits inp w src proto port :
  NoDup (ruleID <$> (inRulesets inp ≫= rsRules)) → compiled proto →
  permits (Some (renderWorkload inp w)) src proto port = true ↔
  ∃ r, bearsOn inp w r ∧ ruleLets inp src proto port r.
Proof.
  intros Hrules Hp. unfold renderWorkload. rewrite Canonical_permits_lemma.
  - unfold permits. cbn [GetInboundRules fmap option_fmap option_map default wpInboundRules].
    rewrite existsb_exists. setoid_rewrite <-list_elem_of_In. setoid_rewrite list_elem_of_bind.
    setoid_rewrite <-elem_of_applicableRules. setoid_rewrite <-(rulePermits_rendered inp); [|done].
    naive_solver.
  - cbn [wpInboundRules]. apply renderRules_ids. eapply sublist_NoDup;
      [exact Hrules|apply fmap_sublist, applicableRules_sublist].
Qed.
End semantics.

(** ** Properties *)

(** C1: rendering implements the authored model.  With distinct workload and
    rule ids, as the store keeps them, an active workload is rendered, and its
    rendered policy permits a packet of a compiled protocol exactly when some
    enabled inbound rule of an enabled ruleset whose scope matches the workload
    has a peer that reaches the source and a service entry that opens the
    port; a peer by selector reaches only from the addresses of workloads that
    match and are not retired. *)
Theorem Render_permits `{UUIDLaws} inp w src proto port :
  NoDup (wID <$> inWorkloads inp) →
  NoDup (ruleID <$> (inRulesets inp ≫= rsRules)) →
  w ∈ inWorkloads inp → wRetiredAt w = None → compiled proto →
  ∃ p, Render inp !! wID w = Some p ∧
    (permits (Some p) src proto port = true ↔
     ∃ r, bearsOn inp w r ∧ ruleLets inp src proto port r).
Proof.
  intros Hnd Hrules Hw Hr Hp. apply Retired_false in Hr.
  exists (renderWorkload inp w). rewrite Render_lookup, Hr by done. split; [done|].
  by apply renderWorkload_permits.
Qed.

(** A small estate: a web workload lets the app tier in on 443. *)
Module Example.
Definition uid (n : Z) : UUID := Uuid128.of_Z n.
Definition workload (n : Z) (app : string) (addr : Z) (retired : option Z) : Workload :=
  MkWorkload (FromUUID (uid n)) app [MkLabel "app" app] ENFORCEMENT_MODE_ENFORCED None [Addr4 addr]
    "" [] 0 None SYNC_STATE_UNSPECIFIED 0 "" 0 0 "" "" 0 None None None None None None
    OWNED_TABLE_STATE_UNSPECIFIED None None retired.
Definition selector (app : string) : Selector := {["app" := [app]]}.
Definition rule : Rule :=
  MkRule (uid 20) DIRECTION_INBOUND true "" [MkPeer PeerWorkloads (selector "app") uuid_Nil ""] []
    [MkServiceEntry PROTOCOL_TCP [MkPortRange 443 443]] 0 0 1 [].
Definition ruleset : Ruleset := MkRuleset (uid 10) "web" "" true (selector "web") [rule] 0 0 1 [].
Definition inputs : Inputs :=
  MkInputs [workload 1 "web" 167772161 None; workload 2 "app" 167772162 None;
            workload 3 "app" 167772163 (Some 5%Z)] [ruleset] [] [].
End Example.

Lemma Render_permits_witness :
  ∃ p, Render Example.inputs !! FromUUID (Example.uid 1) = Some p ∧
    permits (Some p) (Addr4 167772162) PROTOCOL_TCP 443 = true ∧
    permits (Some p) (Addr4 167772163) PROTOCOL_TCP 443 = false.
Proof.
  destruct (Render_permits Example.inputs (Example.workload 1 "web" 167772161 None)
    (Addr4 167772162) PROTOCOL_TCP 443) as (p & Hp & _).
  - apply (bool_decide_unpack _). vm_compute. exact I.
  - apply (bool_decide_unpack _). vm_compute. exact I.
  - left.
  - reflexivity.
  - left. reflexivity.
  - exists p. split; [exact Hp|]. assert (Some p = Render Example.inputs !! FromUUID (Example.uid 1))
      as Hq by (symmetry; exact Hp). rewrite Hq. vm_compute. split; reflexivity.
Defined.

(** ** Versions *)

Section plan.
Context `{UUIDLib}.

Lemma elem_of_Plan previous current o :
  o ∈ Plan previous current ↔ ∃ id cur, current !! id = Some cur ∧ o = planOne previous id cur.
Proof.
  unfold Plan. rewrite merge_sort_Permutation, list_elem_of_fmap. split.
  - intros ([id cur] & -> & Hc%elem_of_map_to_list). eauto.
  - intros (id & cur & Hc%elem_of_map_to_list & ->). by exists (id, cur).
Qed.

Lemma Plan_ids previous current : NoDup (oID <$> Plan previous current).
Proof.
  unfold Plan. rewrite merge_sort_Permutation, <-list_fmap_compose.
  assert ((oID ∘ λ '(id, cur), planOne previous id cur) <$> map_to_list current =
    (map_to_list current).*1) as ->; [|apply NoDup_fst_map_to_list].
  apply list_fmap_ext. by intros i [id cur] _.
Qed.

Lemma planOne_content previous id cur :
  without_version (oPolicy (planOne previous id cur)) = without_version (Canonical (Some cur)).
Proof. done. Qed.

Lemma planOne_savable previous id cur :
  oChanged (planOne previous id cur) = true → savable (oPolicy (planOne previous id cur)).
Proof.
  intros Hc. pose proof (Canonical_idemp (Some cur)) as Hi. unfold planOne in *. cbn [oChanged oPolicy] in *. rewrite Hc.
  split; [|apply Z.mod_mod; lia].
  destruct cur as [v mo rs]. unfold Canonical in *. cbn in *. injection Hi as Hi. by rewrite Hi.
Qed.

Lemma Plan_savable previous current :
  Forall (λ o, oChanged o = true → savable (oPolicy o)) (Plan previous current).
Proof. apply Forall_forall. intros o (id & cur & _ & ->)%elem_of_Plan. apply planOne_savable. Qed.
End plan.

(** The versioning rule.  [Plan] has one outcome per rendered workload, in the
    order of their ids.  The outcome's policy is the rendered one in canonical
    form; it keeps the persisted version exactly when a policy is persisted
    whose content is equal, and takes the next one (modulo 2^64) otherwise; and
    the changes, applied to the persisted policy as a delta between the two
    versions, produce the outcome's policy. *)
Theorem Plan_versions `{UUIDLib} previous current :
  NoDup (oID <$> Plan previous current) ∧
  StronglySorted outcome_le (Plan previous current) ∧
  (∀ id, id ∈ oID <$> Plan previous current ↔ is_Some (current !! id)) ∧
  ∀ o, o ∈ Plan previous current → ∃ cur,
    let prev := default Empty (previous !! oID o) in
    current !! oID o = Some cur ∧
    without_version (oPolicy o) = without_version (Canonical (Some cur)) ∧
    (oChanged o = false ↔
       ∃ p, previous !! oID o = Some p ∧ Equal (Some p) (Some cur) = true) ∧
    wpVersion (oPolicy o) =
      (if oChanged o then u64 (wpVersion prev + 1) else wpVersion prev) ∧
    Apply (Some prev) (MkPolicyDelta (wpVersion prev) (wpVersion (oPolicy o)) (oChanges o))
      = Ok (oPolicy o).
Proof.
  split_and!.
  - apply Plan_ids.
  - apply (StronglySorted_merge_sort _).
  - intros id. rewrite list_elem_of_fmap. setoid_rewrite elem_of_Plan. split.
    + intros (o & -> & id0 & cur & Hc & ->). cbn. eauto.
    + intros [cur Hc]. exists (planOne previous id cur). eauto.
  - intros o (id & cur & Hc & ->)%elem_of_Plan. exists cur. cbn zeta.
    change (oID (planOne previous id cur)) with id. split_and!; [done|done| |done|].
    + unfold planOne. cbn [oChanged]. rewrite orb_false_iff, !negb_false_iff, !bool_decide_eq_true.
      destruct (previous !! id) as [p|]; cbn [default]; rewrite Diff_nil_Equal; naive_solver.
    + unfold planOne. cbn [oPolicy oChanges wpVersion].
      set (v := if _ : bool then _ else _).
      pose proof (Apply_Delta_ok (Some (default Empty (previous !! id)))
        (Some (MkWorkloadPolicy v (wpMode cur) (wpInboundRules cur)))) as Ha.
      exact Ha.
Qed.

(** [Outcome.Changes] is documented as "empty exactly when Changed is false".
    A workload's first render shows otherwise: with no persisted policy and an
    empty rendered one the outcome is changed, at version 1, and has no
    changes. *)
Theorem Outcome_changed_without_changes `{UUIDLib} id :
  ∃ previous current o, o ∈ Plan previous current ∧ oID o = id ∧
    oChanged o = true ∧ oChanges o = [] ∧ wpVersion (oPolicy o) = 1%Z.
Proof.
  exists ∅, {[id := Empty]}, (planOne ∅ id Empty). split_and!.
  - apply elem_of_Plan. exists id, Empty. by rewrite lookup_singleton_eq.
  - done.
  - unfold planOne. cbn [oChanged]. rewrite lookup_empty. by rewrite orb_true_r.
  - unfold planOne. cbn [oChanges]. rewrite lookup_empty. apply Diff_nil_Equal. vm_compute. done.
  - unfold planOne. cbn [oPolicy wpVersion]. rewrite lookup_empty. cbn [default].
    by rewrite orb_true_r.
Qed.

(** ** Renders inside a transaction *)

Section engine.
Context `{UUIDLib} {St Er : Type} `{RenderTx St Er} {HTx : RenderTxLaws St Er}.

(** The policies after the outcomes are saved. *)
Definition saved (m : gmap WorkloadID WorkloadPolicy) (os : list Outcome)
  : gmap WorkloadID WorkloadPolicy :=
  foldl (λ m o, if oChanged o then <[oID o := oPolicy o]> m else m) m os.

Lemma saveOutcomes_saved now os s rep s' rep' m :
  Forall (λ o, oChanged o = true → savable (oPolicy o)) os →
  LoadPolicies s = Ok m → saveOutcomes now os s rep = Ok (s', rep') →
  LoadInputs s' = LoadInputs s ∧ LoadPolicies s' = Ok (saved m os).
Proof.
  intros Hos. revert s rep m. induction Hos as [|o os Ho Hos IH]; intros s rep m Hm; cbn [saveOutcomes].
  - intros [= <- <-]. done.
  - unfold saved. cbn [foldl]. fold (saved (if oChanged o then <[oID o := oPolicy o]> m else m) os).
    destruct (oChanged o); [specialize (Ho eq_refl)|apply IH; done].
    intros (s1 & Hs1 & Hrest)%result_bind_Ok.
    destruct (IH s1 _ (<[oID o := oPolicy o]> m) (save_policies _ _ _ _ _ _ Ho Hs1 Hm) Hrest)
      as [Hi Hp]. split; [|done]. rewrite Hi. by eapply save_inputs.
Qed.

Lemma saveOutcomes_unchanged now os s rep :
  Forall (λ o, oChanged o = false) os →
  saveOutcomes now os s rep = Ok (s, MkReport (repWorkloads rep + length os) (repChanged rep)).
Proof.
  revert rep. induction os as [|o os IH]; intros rep; cbn [saveOutcomes length].
  - intros _. rewrite Nat.add_0_r. by destruct rep.
  - intros [Ho Hos]%Forall_cons. rewrite Ho, IH by done. cbn. by rewrite Nat.add_succ_r.
Qed.

Lemma saved_lookup m os :
  NoDup (oID <$> os) →
  (∀ o, o ∈ os → saved m os !! oID o = if oChanged o then Some (oPolicy o) else m !! oID o) ∧
  (∀ id, id ∉ oID <$> os → saved m os !! id = m !! id).
Proof.
  induction os as [|o os IH] using rev_ind; [by split; [intros o ?%elem_of_nil|]|].
  rewrite fmap_app. intros (Hnd & Hdis & _)%NoDup_app. destruct (IH Hnd) as [Hin Hout].
  assert (saved m (os ++ [o]) =
    if oChanged o then <[oID o := oPolicy o]> (saved m os) else saved m os) as ->
    by (unfold saved; by rewrite foldl_app).
  assert (oID o ∉ oID <$> os) as Ho by (intros Hx; destruct (Hdis _ Hx); left). split.
  - intros o' [Ho'|Ho']%elem_of_app.
    + assert (oID o ≠ oID o') by (intros E; apply Ho; rewrite E; by apply list_elem_of_fmap_2).
      destruct (oChanged o); rewrite ?lookup_insert_ne by done; by apply Hin.
    + apply list_elem_of_singleton in Ho' as ->. destruct (oChanged o); [by rewrite lookup_insert_eq|].
      by apply Hout.
  - intros id Hid. cbn in Hid. rewrite not_elem_of_app, not_elem_of_cons in Hid.
    destruct Hid as (Hid & Hne & _). destruct (oChanged o); rewrite ?lookup_insert_ne by done;
      by apply Hout.
Qed.
End engine.

Lemma Equal_of_content a b :
  without_version a = without_version (Canonical (Some b)) → Equal (Some a) (Some b) = true.
Proof.
  intros Hc. unfold Equal. apply bool_decide_eq_true.
  assert (∀ p q, without_version p = without_version q →
    without_version (Canonical (Some p)) = without_version (Canonical (Some q))) as Hw.
  { intros [v1 m1 r1] [v2 m2 r2]. unfold without_version. cbn. by intros [= -> ->]. }
  rewrite (Hw _ _ Hc). by rewrite Canonical_idemp.
Qed.

Section renders.
Context `{UUIDLib}.

(** What a render leaves persisted. *)
Lemma saved_rendered m cur_ id cur :
  cur_ !! id = Some cur →
  ∃ p, saved m (Plan m cur_) !! id = Some p ∧ Equal (Some p) (Some cur) = true.
Proof.
  intros Hc. destruct (saved_lookup m _ (Plan_ids m cur_)) as [Hin _].
  specialize (Hin (planOne m id cur)).
  change (oID (planOne m id cur)) with id in Hin. rewrite Hin by (apply elem_of_Plan; eauto).
  destruct (oChanged (planOne m id cur)) eqn:Hch.
  - eexists. split; [done|]. apply Equal_of_content, planOne_content.
  - unfold planOne in Hch. cbn [oChanged] in Hch.
    apply orb_false_iff in Hch as [Hd%negb_false_iff%bool_decide_eq_true Hs%negb_false_iff%bool_decide_eq_true].
    destruct Hs as [p Hp]. rewrite Hp in *. exists p. split; [done|]. by apply Diff_nil_Equal.
Qed.

Lemma saved_others m cur_ id : cur_ !! id = None → saved m (Plan m cur_) !! id = m !! id.
Proof.
  intros Hid. apply (saved_lookup m _ (Plan_ids m cur_)). rewrite list_elem_of_fmap.
  intros (o & -> & (id' & cur & Hc & ->)%elem_of_Plan). cbn in Hid. congruence.
Qed.

Lemma RenderIn_saved {St Er : Type} `{RenderTx St Er} {HTx : RenderTxLaws St Er} now s s' rep inp m :
  LoadInputs s = Ok inp → LoadPolicies s = Ok m → RenderIn now s = Ok (s', rep) →
  LoadInputs s' = Ok inp ∧ LoadPolicies s' = Ok (saved m (Plan m (Render inp))).
Proof.
  intros Hi Hm Hr. unfold RenderIn in Hr. rewrite Hi, Hm in Hr. cbn [mbind result_bind] in Hr.
  destruct (saveOutcomes_saved _ _ _ _ _ _ _ (Plan_savable _ _) Hm Hr) as [Hi' Hp']. split; [congruence|done].
Qed.
End renders.

(** A render persists what it rendered, and rendering an unchanged estate is a
    no-op.  After a render every rendered workload has a persisted policy whose
    content is the rendered one, the others keep what they had, the inputs are
    untouched, and a second render changes no state and reports no change.
    This holds of any transaction with the laws of the store's interface. *)
Theorem RenderIn_settles `{UUIDLib} {St Er : Type} `{RenderTx St Er} {HTx : RenderTxLaws St Er}
    now now' s s' rep inp m :
  LoadInputs s = Ok inp → LoadPolicies s = Ok m → RenderIn now s = Ok (s', rep) →
  ∃ m', LoadInputs s' = Ok inp ∧ LoadPolicies s' = Ok m' ∧
    (∀ id cur, Render inp !! id = Some cur →
       ∃ p, m' !! id = Some p ∧ Equal (Some p) (Some cur) = true) ∧
    (∀ id, Render inp !! id = None → m' !! id = m !! id) ∧
    RenderIn now' s' = Ok (s', MkReport (size (Render inp)) []).
Proof.
  intros Hi Hm Hr. destruct (RenderIn_saved _ _ _ _ _ _ Hi Hm Hr) as [Hi' Hp'].
  exists (saved m (Plan m (Render inp))).
  split_and!; [done|done|apply saved_rendered|apply saved_others|].
  unfold RenderIn. rewrite Hi', Hp'. cbn [mbind result_bind]. rewrite saveOutcomes_unchanged.
  - cbn [repWorkloads repChanged Nat.add]. unfold Plan.
    by rewrite (Permutation_length (merge_sort_Permutation _ _)), length_fmap, length_map_to_list.
  - apply Forall_forall. intros o (id & cur & Hc & ->)%elem_of_Plan.
    destruct (saved_rendered m (Render inp) id cur Hc) as (p & Hp & He). unfold planOne. cbn [oChanged]. rewrite Hp.
    change (default Empty (Some p)) with p. apply Diff_nil_Equal in He. rewrite He. by rewrite !bool_decide_eq_true_2 by eauto.
Qed.

(** A transaction over in-memory state. *)
#[export] Instance memoryTx `{UUIDLib} :
  RenderTx (Inputs * gmap WorkloadID WorkloadPolicy) Empty_set := {
  LoadInputs s := Ok s.1;
  LoadPolicies s := Ok s.2;
  SavePolicy id p _ s := Ok (s.1, <[id := p]> s.2);
}.

#[export] Instance memoryTx_laws `{UUIDLib} :
  RenderTxLaws (Inputs * gmap WorkloadID WorkloadPolicy) Empty_set.
Proof.
  split.
  - by intros id p now s s' [= <-].
  - by intros id p now s s' m _ [= <-] [= <-].
Qed.

Lemma RenderIn_settles_witness :
  match RenderIn (Er := Empty_set) 1 (Example.inputs, ∅) with
  | Ok (s', rep) => length (repChanged rep) = 2 ∧ RenderIn 2 s' = Ok (s', MkReport 2 [])
  | Err _ => False
  end.
Proof.
  assert (match RenderIn (Er := Empty_set) 1 (Example.inputs, ∅) with
          | Ok (_, rep) => length (repChanged rep) | Err _ => 0 end = 2) as Hn
    by (vm_compute; reflexivity).
  destruct (RenderIn 1 (Example.inputs, ∅)) as [[s' rep]|[]] eqn:Hr.
  split; [exact Hn|].
  destruct (RenderIn_settles (St := Inputs * gmap WorkloadID WorkloadPolicy) (Er := Empty_set) 1 2
    (Example.inputs, ∅) s' rep Example.inputs ∅) as (m' & _ & _ & _ & _ & Hfix);
    [reflexivity|reflexivity|exact Hr|].
  assert (size (Render Example.inputs) = 2) as Hs by (vm_compute; reflexivity).
  rewrite Hs in Hfix. exact Hfix.
Defined.

(** ** Dry runs *)

Section dryrun.
Context `{UUIDLib}.

(** The rules only one side has, and the ids whose rule differs. *)
Definition onlyIn (mine other : gmap string ResolvedRule) (l : list string) : list ResolvedRule :=
  omap (λ id, match other !! id with None => mine !! id | Some _ => None end) l.

Definition differing (F T : gmap string ResolvedRule) (l : list string) : gset string :=
  list_to_set (filter (λ id, is_Some (F !! id) ∧ is_Some (T !! id) ∧ F !! id ≠ T !! id) l).

Lemma ruleChanges_nil F T id :
  canonical_index F → canonical_index T →
  ruleChanges id (F !! id) (T !! id) = [] → F !! id = T !! id.
Proof.
  intros HF HT Hn. pose proof (apply_ruleChanges 0 ENFORCEMENT_MODE_UNSPECIFIED F F T id HF HT eq_refl) as Ha.
  rewrite Hn in Ha. cbn in Ha. injection Ha as Ha.
  rewrite Ha at 1. by rewrite lookup_partial_alter_eq.
Qed.

(** The changes of a rule that both sides have name only that rule. *)
Definition changes_rule (id : string) (c : ResolvedRule) (ch : DeltaChange) : Prop :=
  ch = UpsertRule c ∨ (∃ ps, ch = AddPeers (MkPeerChange id ps)) ∨
  (∃ ps, ch = RemovePeers (MkPeerChange id ps)).

Lemma ruleChanges_shape id o c : Forall (changes_rule id c) (ruleChanges id (Some o) (Some c)).
Proof.
  unfold ruleChanges. case_match; [constructor; [by left|constructor]|].
  destruct (setDiff _ _) as [a r]. unfold changes_rule.
  apply Forall_app; split; [destruct (decide (a = []))|destruct (decide (r = []))];
    constructor; eauto 6.
Qed.

Lemma classify_changed pm F T id o c mode added removed changed chs :
  F !! id = Some o → rrRuleId c = id → chs ≠ [] → Forall (changes_rule id c) chs →
  foldl (classifyChange pm F T) (MkDryState mode added removed changed) chs =
  MkDryState mode added removed ({[id]} ∪ changed).
Proof.
  intros Ho Hic. revert changed. induction chs as [|ch chs IH]; [done|].
  intros changed _ [Hch Hchs]%Forall_cons. cbn [foldl].
  assert (classifyChange pm F T (MkDryState mode added removed changed) ch =
    MkDryState mode added removed ({[id]} ∪ changed)) as ->.
  { destruct Hch as [->|[[ps ->]|[ps ->]]]; cbn; [|done..].
    rewrite Hic, Ho. by rewrite decide_True by eauto. }
  destruct (decide (chs = [])) as [->|Hn]; [done|]. rewrite IH by done. f_equal. set_solver.
Qed.

Lemma classify_ruleChanges pm F T st id :
  canonical_index F → canonical_index T →
  foldl (classifyChange pm F T) st (ruleChanges id (F !! id) (T !! id)) =
  MkDryState (dsMode st) (dsAdded st ++ (Some <$> onlyIn T F [id]))
    (dsRemoved st ++ (Some <$> onlyIn F T [id])) (differing F T [id] ∪ dsChanged st).
Proof.
  intros HF HT. pose proof (ruleChanges_nil F T id HF HT) as Hnil.
  unfold onlyIn, differing. cbn [omap list_omap]. rewrite filter_cons, filter_nil.
  destruct st as [mode added removed changed]. cbn [dsMode dsAdded dsRemoved dsChanged].
  destruct (F !! id) as [o|] eqn:Ho, (T !! id) as [c|] eqn:Hc; cbn [fmap list_fmap].
  - destruct (HT _ _ Hc) as [Hic _]. rewrite !app_nil_r.
    destruct (decide (o = c)) as [->|Hne].
    + rewrite ruleChanges_same. cbn [foldl]. rewrite decide_False by naive_solver.
      f_equal. set_solver.
    + rewrite decide_True by (split_and!; [eauto..|congruence]).
      rewrite (classify_changed pm F T id o c); [f_equal; set_solver|done|done| |].
      * intros Hn. apply Hne. specialize (Hnil Hn). congruence.
      * apply ruleChanges_shape.
  - rewrite decide_False by (by intros (_ & [? ?] & _)). cbn. rewrite Ho, app_nil_r. f_equal. set_solver.
  - destruct (HT _ _ Hc) as [Hic _]. rewrite decide_False by (by intros ([? ?] & _)). cbn.
    rewrite Hic, Ho, decide_False by (by intros [? ?]). cbn. rewrite Hc, app_nil_r. f_equal. set_solver.
  - rewrite decide_False by (by intros ([? ?] & _)). cbn. rewrite !app_nil_r. f_equal. set_solver.
Qed.

Lemma classify_all pm F T st l :
  canonical_index F → canonical_index T →
  foldl (classifyChange pm F T) st (l ≫= λ id, ruleChanges id (F !! id) (T !! id)) =
  MkDryState (dsMode st) (dsAdded st ++ (Some <$> onlyIn T F l))
    (dsRemoved st ++ (Some <$> onlyIn F T l)) (differing F T l ∪ dsChanged st).
Proof.
  intros HF HT. revert st. induction l as [|id l IH]; intros st.
  - unfold onlyIn, differing. cbn. rewrite !app_nil_r. destruct st. cbn. f_equal. set_solver.
  - rewrite bind_cons, foldl_app, classify_ruleChanges, IH by done. cbn [dsMode dsAdded dsRemoved dsChanged].
    assert (∀ A B : gmap string ResolvedRule, onlyIn A B (id :: l) = onlyIn A B [id] ++ onlyIn A B l)
      as Hcons by (intros A B; unfold onlyIn; change (id :: l) with ([id] ++ l); apply omap_app).
    rewrite !(Hcons _ _), !fmap_app, !(assoc_L (++)). f_equal.
    unfold differing. change (id :: l) with ([id] ++ l). rewrite filter_app, list_to_set_app_L. set_solver.
Qed.

Lemma elem_of_onlyIn mine other l r :
  r ∈ onlyIn mine other l ↔ ∃ rid, rid ∈ l ∧ other !! rid = None ∧ mine !! rid = Some r.
Proof.
  unfold onlyIn. rewrite list_elem_of_omap. apply exist_proper. intros rid.
  destruct (other !! rid); naive_solver.
Qed.

Lemma elem_of_differing F T l rid :
  rid ∈ differing F T l ↔ rid ∈ l ∧ ∃ o c, F !! rid = Some o ∧ T !! rid = Some c ∧ o ≠ c.
Proof.
  unfold differing. rewrite elem_of_list_to_set, list_elem_of_filter. split.
  - intros [([o Ho] & [c Hc] & Hne) Hin]. split; [done|]. exists o, c. rewrite Ho, Hc in Hne. naive_solver.
  - intros [Hin (o & c & Ho & Hc & Hne)]. rewrite Ho, Hc. split; [|done]. split_and!; [eauto..|congruence].
Qed.

(** The state after the loop over a whole delta. *)
Lemma classify_Diff from to :
  ∃ l, (∀ rid, rid ∉ l → canonicalIndex from !! rid = None ∧ canonicalIndex to !! rid = None) ∧
  foldl (classifyChange (wpMode (Canonical from)) (canonicalIndex from) (canonicalIndex to))
    (MkDryState None [] [] ∅) (Diff from to) =
  MkDryState (if decide (wpMode (Canonical from) = wpMode (Canonical to)) then None
              else Some (wpMode (Canonical from), wpMode (Canonical to)))
    (Some <$> onlyIn (canonicalIndex to) (canonicalIndex from) l)
    (Some <$> onlyIn (canonicalIndex from) (canonicalIndex to) l)
    (differing (canonicalIndex from) (canonicalIndex to) l).
Proof.
  eexists. split; [apply (diff_ids (canonicalIndex from) (canonicalIndex to))|].
  unfold Diff. rewrite !Canonical_index, foldl_app.
  rewrite classify_all by apply canonicalIndex_ok. case_decide; cbn [foldl classifyChange dsMode dsAdded dsRemoved dsChanged app];
    f_equal; set_solver.
Qed.

Lemma elem_of_DryRun previous current d :
  d ∈ DryRun previous current ↔
  ∃ id cur, current !! id = Some cur ∧ dryOne previous id cur = Some d.
Proof.
  unfold DryRun. rewrite merge_sort_Permutation, list_elem_of_omap. split.
  - intros ([id cur] & Hc%elem_of_map_to_list & Hd). eauto.
  - intros (id & cur & Hc%elem_of_map_to_list & Hd). by exists (id, cur).
Qed.

Lemma dryOne_some previous id cur :
  Equal (Some (default Empty (previous !! id))) (Some cur) = false → ∃ d, dryOne previous id cur = Some d.
Proof.
  intros He. unfold dryOne. rewrite decide_False; [eauto|]. rewrite Diff_nil_Equal. congruence.
Qed.

Lemma dryOne_fields previous id cur d :
  dryOne previous id cur = Some d →
  let prev := default Empty (previous !! id) in
  let F := canonicalIndex (Some prev) in
  let T := canonicalIndex (Some cur) in
  Equal (Some prev) (Some cur) = false ∧ wdID d = id ∧ wdVersion d = wpVersion prev ∧
  wdMode d = (if decide (wpMode prev = wpMode cur) then None else Some (wpMode prev, wpMode cur)) ∧
  (∀ x, x ∈ wdAdded d ↔ ∃ rid r, x = Some r ∧ F !! rid = None ∧ T !! rid = Some r) ∧
  (∀ x, x ∈ wdRemoved d ↔ ∃ rid r, x = Some r ∧ T !! rid = None ∧ F !! rid = Some r) ∧
  (∀ x, x ∈ wdChanged d ↔ ∃ rid o c, x = MkRuleChange (Some o) (Some c) ∧
     F !! rid = Some o ∧ T !! rid = Some c ∧ o ≠ c).
Proof.
  unfold dryOne. cbn zeta. generalize (default Empty (previous !! id)). intros prev.
  case_decide as Hne; [done|]. rewrite !Canonical_index.
  destruct (classify_Diff (Some prev) (Some cur)) as (l & Hl & ->).
  intros [= <-]. cbn [wdID wdVersion wdMode wdAdded wdRemoved wdChanged dsMode dsAdded dsRemoved dsChanged].
  revert Hl. generalize (canonicalIndex (Some prev)), (canonicalIndex (Some cur)). intros F T Hl.
  assert (∀ rid, is_Some (F !! rid) ∨ is_Some (T !! rid) → rid ∈ l) as Hin.
  { intros rid Hs. destruct (decide (rid ∈ l)) as [?|Hn]; [done|].
    destruct (Hl rid Hn) as [H1 H2]. rewrite H1, H2 in Hs. by destruct Hs as [[? ?]|[? ?]]. }
  split_and!; [|done|done|done| | |].
  - apply not_true_iff_false. by rewrite <-Diff_nil_Equal.
  - intros x. rewrite list_elem_of_fmap. setoid_rewrite elem_of_onlyIn. split.
    + intros (r & -> & rid & _ & ? & ?). eauto.
    + intros (rid & r & -> & ? & ?). exists r. split; [done|]. exists rid. eauto.
  - intros x. rewrite list_elem_of_fmap. setoid_rewrite elem_of_onlyIn. split.
    + intros (r & -> & rid & _ & ? & ?). eauto.
    + intros (rid & r & -> & ? & ?). exists r. split; [done|]. exists rid. eauto.
  - intros x. rewrite list_elem_of_fmap.
    setoid_rewrite merge_sort_Permutation. setoid_rewrite elem_of_elements.
    setoid_rewrite elem_of_differing. split.
    + intros (rid & -> & _ & o & c & Ho & Hc & Hoc). exists rid, o, c. by rewrite Ho, Hc.
    + intros (rid & o & c & -> & Ho & Hc & Hoc). exists rid. rewrite Ho, Hc. split; [done|].
      split; [apply Hin; eauto|eauto].
Qed.
End dryrun.

(** A dry run reports exactly the workloads whose policy would change, in id
    order, and classifies their rules correctly: a rule is reported added when
    only the new policy has it, removed when only the persisted one has it, and
    changed, with both forms, when both have it and they differ; the mode is
    reported when it changes. *)
Theorem DryRun_classifies `{UUIDLib} previous current :
  (∀ id, id ∈ wdID <$> DryRun previous current ↔
     ∃ cur, current !! id = Some cur ∧
       Equal (Some (default Empty (previous !! id))) (Some cur) = false) ∧
  ∀ d, d ∈ DryRun previous current → ∃ cur,
    let prev := default Empty (previous !! wdID d) in
    let F := canonicalIndex (Some prev) in
    let T := canonicalIndex (Some cur) in
    current !! wdID d = Some cur ∧
    wdVersion d = wpVersion prev ∧
    wdMode d = (if decide (wpMode prev = wpMode cur) then None else Some (wpMode prev, wpMode cur)) ∧
    (∀ x, x ∈ wdAdded d ↔ ∃ rid r, x = Some r ∧ F !! rid = None ∧ T !! rid = Some r) ∧
    (∀ x, x ∈ wdRemoved d ↔ ∃ rid r, x = Some r ∧ T !! rid = None ∧ F !! rid = Some r) ∧
    (∀ x, x ∈ wdChanged d ↔ ∃ rid o c, x = MkRuleChange (Some o) (Some c) ∧
       F !! rid = Some o ∧ T !! rid = Some c ∧ o ≠ c).
Proof.
  split.
  - intros id. rewrite list_elem_of_fmap. setoid_rewrite elem_of_DryRun. split.
    + intros (d & -> & id' & cur & Hc & Hs). apply dryOne_fields in Hs as (He & -> & _). eauto.
    + intros (cur & Hc & Hne). destruct (dryOne_some previous id cur Hne) as [d Hd].
      exists d. split; [|eauto]. by apply dryOne_fields in Hd as (_ & -> & _).
  - intros d (id & cur & Hc & Hs)%elem_of_DryRun. exists cur. cbn zeta.
    apply dryOne_fields in Hs as (_ & Hid & Hrest). rewrite Hid. split; [exact Hc|exact Hrest].
Qed.
