(* ===== verification/NftAllocator.v ===== *)
(** * The connection-mark allocator: [internal/agent/enforce/nft/allocator.go]

    Every resolved rule is given a stable value in the agent's region of the
    connection mark.  The allocator maps rule ids to slots and values back to
    the rule that holds them or held them last.  Values and generations are
    Go's [uint32] and [uint64]. *)

From S2P Require Import Prelude GoStd Netip Wire Rendered.
Local Open Scope Z_scope.

(** ** The mark region ([render.go]) *)

Definition MarkShift : Z := 16.
Definition MarkMask : Z := 0xffff0000.
Definition ForeignMask : Z := 0x0000ffff.
Definition WouldBlockIndex : Z := 0xffff.
Definition MaxRules : Z := WouldBlockIndex - 1.
Definition WouldBlockMark : Z := Z.shiftl WouldBlockIndex MarkShift.
Definition RuleMark (index : Z) : Z := u32 (Z.shiftl index MarkShift).
Definition RuleIndex (mark : Z) : Z := Z.shiftr (Z.land mark MarkMask) MarkShift.

(** ** The allocator *)

Record slot := MkSlot { slMark : Z; slGen : Z }.

#[export] Instance slot_eq_dec : EqDecision slot.
Proof. solve_decision. Defined.

Record Allocator := MkAllocator {
  alLimit : Z;
  alNext : Z;
  alGen : Z;
  alByID : gmap string slot;
  alByMark : gmap Z string;
}.

Definition newAllocator (limit : Z) : Allocator := MkAllocator limit 1 0 ∅ ∅.
Definition NewAllocator : Allocator := newAllocator MaxRules.

(** The rule ids of a policy that may be nil. *)
Definition policy_ids (p : option WorkloadPolicy) : list string := rrRuleId <$> GetInboundRules p.

(** [reusable]: free values, freed longest ago first. *)
Definition cand_le (a b : Z * Z) : Prop := a.2 < b.2 ∨ a.2 = b.2 ∧ a.1 ≤ b.1.

#[export] Instance cand_le_dec : RelDecision cand_le.
Proof. intros a b. unfold cand_le. apply _. Defined.
#[export] Instance cand_le_trans : Transitive cand_le.
Proof. intros a b c. unfold cand_le. lia. Qed.
#[export] Instance cand_le_total : Total cand_le.
Proof. intros a b. unfold cand_le. lia. Qed.

Definition cands (a : Allocator) (installed : option WorkloadPolicy) : list (Z * Z) :=
  omap (λ '(id, s), if decide (slGen s < alGen a ∧ id ∉ policy_ids installed)
                    then Some (slMark s, slGen s) else None) (map_to_list (alByID a)).

Definition reusable (a : Allocator) (installed : option WorkloadPolicy) : list Z :=
  (merge_sort cand_le (cands a installed)).*1.

(** The first loop of [Allocate]: known rules keep their value and are carried
    into this generation; the others are collected in order. *)
Definition touch (st : Allocator * gmap string Z * list string) (r : ResolvedRule)
  : Allocator * gmap string Z * list string :=
  let '(a, out, fresh) := st in
  let id := rrRuleId r in
  match alByID a !! id with
  | Some s =>
      (MkAllocator (alLimit a) (alNext a) (alGen a) (<[id := MkSlot (slMark s) (alGen a)]> (alByID a))
         (alByMark a), <[id := slMark s]> out, fresh)
  | None => (a, out, fresh ++ [id])
  end.

(** Giving [mark] to [id]. *)
Definition assign (a : Allocator) (next : Z) (byID : gmap string slot) (id : string) (mark : Z)
  : Allocator :=
  MkAllocator (alLimit a) next (alGen a) (<[id := MkSlot mark (alGen a)]> byID)
    (<[mark := id]> (alByMark a)).

(** The second loop: the lowest value never handed out, then the reusable ones,
    computed once when the first is needed. *)
Fixpoint allocFresh (installed : option WorkloadPolicy) (fresh : list string) (a : Allocator)
    (reus : option (list Z)) (out : gmap string Z) : option (gmap string Z * Allocator) :=
  match fresh with
  | [] => Some (out, a)
  | id :: fresh' =>
      if decide (alNext a ≤ alLimit a) then
        let mark := alNext a in
        allocFresh installed fresh' (assign a (u32 (alNext a + 1)) (alByID a) id mark) reus
          (<[id := mark]> out)
      else
        match default (reusable a installed) reus with
        | [] => None
        | mark :: rest =>
            let byID := delete (default "" (alByMark a !! mark)) (alByID a) in
            allocFresh installed fresh' (assign a (alNext a) byID id mark) (Some rest)
              (<[id := mark]> out)
        end
  end.

Inductive MarksError := ErrMarksExhausted (fresh : nat).

Definition Allocate (a : Allocator) (next installed : option WorkloadPolicy)
  : result MarksError (gmap string Z * Allocator) :=
  let rules := wpInboundRules (Canonical next) in
  let a := MkAllocator (alLimit a) (alNext a) (u64 (alGen a + 1)) (alByID a) (alByMark a) in
  let '(a, out, fresh) := foldl touch (a, ∅, []) rules in
  match allocFresh installed fresh a None out with
  | Some (out, a') => Ok (out, a')
  | None => Err (ErrMarksExhausted (length fresh))
  end.

(** [Allocator.Rule] and [Allocator.Mark]. *)
Definition AllocRule (a : Allocator) (index : Z) : option string := alByMark a !! index.
Definition AllocMark (a : Allocator) (ruleID : string) : option Z := slMark <$> alByID a !! ruleID.

(** ** The invariant

    Ids and values are in one-to-one correspondence, every value below [next]
    is held, and no slot is of a generation to come. *)
Record alloc_ok (a : Allocator) : Prop := {
  ao_limit : 0 ≤ alLimit a < 2 ^ 32 - 1;
  ao_next : 1 ≤ alNext a ≤ alLimit a + 1;
  ao_gen : 0 ≤ alGen a < 2 ^ 64;
  ao_slot id s : alByID a !! id = Some s →
    alByMark a !! slMark s = Some id ∧ 0 ≤ slGen s ≤ alGen a;
  ao_mark m id : alByMark a !! m = Some id → ∃ s, alByID a !! id = Some s ∧ slMark s = m;
  ao_dense m : is_Some (alByMark a !! m) ↔ 1 ≤ m < alNext a;
}.

Lemma newAllocator_ok limit : 0 ≤ limit < 2 ^ 32 - 1 → alloc_ok (newAllocator limit).
Proof.
  intros Hl. split; cbn; try lia.
  - by intros id s ?.
  - by intros m id ?.
  - intros m. rewrite lookup_empty. split; [by intros []|lia].
Qed.

Lemma alloc_ok_inj a id id' s s' :
  alloc_ok a → alByID a !! id = Some s → alByID a !! id' = Some s' → slMark s = slMark s' → id = id'.
Proof.
  intros Hok Hs Hs' Heq. destruct (ao_slot _ Hok _ _ Hs) as [H1 _].
  destruct (ao_slot _ Hok _ _ Hs') as [H2 _]. rewrite Heq in H1. congruence.
Qed.

Lemma elem_of_reusable a installed m :
  m ∈ reusable a installed ↔
  ∃ id s, alByID a !! id = Some s ∧ (slGen s < alGen a) ∧ (id ∉ policy_ids installed) ∧ slMark s = m.
Proof.
  unfold reusable, cands. rewrite list_elem_of_fmap. setoid_rewrite merge_sort_Permutation.
  setoid_rewrite list_elem_of_omap. split.
  - intros ([m' g] & -> & [id s] & Hin%elem_of_map_to_list & Hc). case_decide; [|done].
    injection Hc as <- <-. destr_and. eauto 6.
  - intros (id & s & Hin%elem_of_map_to_list & Hg & Hl & <-). exists (slMark s, slGen s).
    split; [done|]. exists (id, s). by rewrite decide_True.
Qed.

Lemma reusable_NoDup a installed : alloc_ok a → NoDup (reusable a installed).
Proof.
  intros Hok. unfold reusable. rewrite merge_sort_Permutation. unfold cands.
  assert (∀ l : list (string * slot), NoDup l.*1 → (∀ id s, (id, s) ∈ l → alByID a !! id = Some s) →
    NoDup (omap (λ '(id, s), if decide (slGen s < alGen a ∧ id ∉ policy_ids installed)
      then Some (slMark s, slGen s) else None) l).*1) as Hl.
  { induction l as [|[id s] l IH]; [constructor|]. cbn. intros [Hid Hnd]%NoDup_cons Hl.
    assert (NoDup (omap (λ '(id, s), if decide (slGen s < alGen a ∧ id ∉ policy_ids installed)
      then Some (slMark s, slGen s) else None) l).*1) as Hnd'
      by (apply IH; [done|]; intros; apply Hl; by right).
    case_decide; [|done]. cbn. constructor; [|done]. rewrite list_elem_of_fmap.
    intros ([m g] & Hm & ([id' s'] & Hin & Hc)%list_elem_of_omap). cbn in Hm. case_decide; [|done].
    injection Hc as <- <-. apply Hid.
    assert (id = id') as <-; [|by apply (list_elem_of_fmap_2 fst) in Hin].
    eapply (alloc_ok_inj a); [done|apply Hl; left|apply Hl; right; exact Hin|done]. }
  apply Hl; [apply NoDup_fst_map_to_list|]. intros id s. apply elem_of_map_to_list.
Qed.

(** ** One new rule *)

Lemma assign_next_ok a id :
  alloc_ok a → alNext a ≤ alLimit a → alByID a !! id = None →
  alloc_ok (assign a (u32 (alNext a + 1)) (alByID a) id (alNext a)).
Proof.
  intros Hok Hle Hid. pose proof (ao_limit _ Hok). pose proof (ao_next _ Hok).
  pose proof (ao_gen _ Hok). rewrite u32_small by lia.
  assert (alByMark a !! alNext a = None) as Hfree.
  { apply eq_None_not_Some. rewrite (ao_dense _ Hok). lia. }
  split; cbn [assign alLimit alNext alGen alByID alByMark]; try lia.
  - intros id' s [[<- <-]|[Hne Hs]]%lookup_insert_Some; cbn [slMark slGen].
    + rewrite lookup_insert_eq. split; [done|lia].
    + destruct (ao_slot _ Hok _ _ Hs) as [Hm Hg]. rewrite lookup_insert_ne; [done|].
      intros E. rewrite <-E in Hm. congruence.
  - intros m id' [[<- <-]|[Hne Hm]]%lookup_insert_Some.
    + rewrite lookup_insert_eq. eexists. done.
    + destruct (ao_mark _ Hok _ _ Hm) as (s & Hs & Heq). rewrite lookup_insert_ne by congruence. eauto.
  - intros m. destruct (decide (m = alNext a)) as [->|Hne].
    + rewrite lookup_insert_eq. split; [lia|eauto].
    + rewrite lookup_insert_ne by done. rewrite (ao_dense _ Hok). lia.
Qed.

Lemma assign_reuse_ok a id old m :
  alloc_ok a → alByMark a !! m = Some old → alByID a !! id = None →
  alloc_ok (assign a (alNext a) (delete old (alByID a)) id m).
Proof.
  intros Hok Hm Hid. pose proof (ao_gen _ Hok).
  split; cbn [assign alLimit alNext alGen alByID alByMark];
    [apply (ao_limit _ Hok)|apply (ao_next _ Hok)|done|..].
  - intros id' s [[<- <-]|[Hne [Hne' Hs]%lookup_delete_Some]]%lookup_insert_Some; cbn [slMark slGen].
    + rewrite lookup_insert_eq. split; [done|lia].
    + destruct (ao_slot _ Hok _ _ Hs) as [Hm' Hg]. rewrite lookup_insert_ne; [done|].
      intros E. rewrite <-E in Hm'. congruence.
  - intros m' id' [[<- <-]|[Hne Hm']]%lookup_insert_Some.
    + rewrite lookup_insert_eq. eexists. done.
    + destruct (ao_mark _ Hok _ _ Hm') as (s & Hs & Heq).
      assert (old ≠ id').
      { intros ->. destruct (ao_mark _ Hok _ _ Hm) as (s2 & Hs2 & Heq2). congruence. }
      rewrite lookup_insert_ne, lookup_delete_ne by congruence. eauto.
  - intros m'. rewrite <-(ao_dense _ Hok). destruct (decide (m' = m)) as [->|Hne].
    + rewrite lookup_insert_eq, Hm. split; eauto.
    + by rewrite lookup_insert_ne.
Qed.

(** ** All new rules *)

(** The list of reusable values the loop holds, once it has computed it. *)
Definition reus_ok (a : Allocator) (live : list string) (l : list Z) : Prop :=
  NoDup l ∧ ∀ m, m ∈ l ↔
    ∃ id s, alByID a !! id = Some s ∧ (slGen s < alGen a) ∧ (id ∉ live) ∧ slMark s = m.

(** What an allocation step keeps: the slots in use, by the new policy or by
    the installed one. *)
Definition keeps (live : list string) (a a' : Allocator) : Prop :=
  alLimit a' = alLimit a ∧ alGen a' = alGen a ∧
  ∀ id s, alByID a !! id = Some s → slGen s = alGen a ∨ id ∈ live → alByID a' !! id = Some s.

Lemma keeps_refl live a : keeps live a a.
Proof. by split. Qed.

Lemma keeps_trans live a b c : keeps live a b → keeps live b c → keeps live a c.
Proof.
  intros (L1 & G1 & K1) (L2 & G2 & K2). split_and!; [congruence|congruence|].
  intros id s Hs Hu. apply K2; [by apply K1|]. by rewrite G1.
Qed.

Lemma keeps_assign_next live a id :
  alByID a !! id = None → keeps live a (assign a (u32 (alNext a + 1)) (alByID a) id (alNext a)).
Proof.
  intros Hid. split_and!; [done..|]. intros id' s Hs _. cbn. rewrite lookup_insert_ne by congruence. done.
Qed.

(** Taking the first reusable value. *)
Lemma assign_first live a id m rest :
  alloc_ok a → alByID a !! id = None → reus_ok a live (m :: rest) →
  let byID := delete (default "" (alByMark a !! m)) (alByID a) in
  let a' := assign a (alNext a) byID id m in
  alloc_ok a' ∧ keeps live a a' ∧ reus_ok a' live rest.
Proof.
  intros Hok Hid [[Hm Hnd]%NoDup_cons Hl] byID a'.
  destruct (proj1 (Hl m)) as (old & so & Hso & Hg & Hlive & <-); [left|].
  destruct (ao_slot _ Hok _ _ Hso) as [Hmark _].
  assert (byID = delete old (alByID a)) as Hby by (unfold byID; by rewrite Hmark).
  unfold a'. rewrite Hby. split_and!.
  - by apply assign_reuse_ok.
  - split_and!; [done..|]. intros id' s Hs Hu. cbn. rewrite lookup_insert_ne by congruence.
    rewrite lookup_delete_ne; [done|]. intros <-. rewrite Hso in Hs. injection Hs as <-.
    destruct Hu; [lia|done].
  - split; [done|]. intros m'. cbn [assign alByID alGen]. split.
    + intros Hin. destruct (proj1 (Hl m')) as (id' & s & Hs & Hg' & Hlive' & <-); [by right|].
      assert (id' ≠ old) by (intros ->; rewrite Hso in Hs; injection Hs as <-; done).
      exists id', s. rewrite lookup_insert_ne, lookup_delete_ne by congruence. done.
    + intros (id' & s & [[<- <-]|[Hne [Hne' Hs]%lookup_delete_Some]]%lookup_insert_Some & Hg' & Hlive' & <-);
        [cbn in Hg'; lia|].
      assert (slMark s ∈ slMark so :: rest) as Hin by (apply Hl; eauto 6).
      apply elem_of_cons in Hin as [E|?]; [|done].
      destruct Hne'. symmetry. by apply (alloc_ok_inj a id' old s so).
Qed.

(** What the loop over the new rules establishes. *)
Record allocated (live fresh : list string) (a : Allocator) (out out' : gmap string Z) (a' : Allocator)
  : Prop := {
  al_ok : alloc_ok a';
  al_keeps : keeps live a a';
  al_in id : id ∈ fresh → ∃ m, out' !! id = Some m ∧ alByID a' !! id = Some (MkSlot m (alGen a'));
  al_out id : id ∉ fresh → out' !! id = out !! id;
  al_marks : alNext a + Z.of_nat (length fresh) ≤ alLimit a + 1 → alByMark a ⊆ alByMark a';
}.

Lemma allocated_cons live id fresh a a1 mark out out' a' :
  id ∉ fresh → keeps live a a1 → alByID a1 !! id = Some (MkSlot mark (alGen a1)) →
  (alNext a + Z.of_nat (length (id :: fresh)) ≤ alLimit a + 1 →
     alNext a1 + Z.of_nat (length fresh) ≤ alLimit a1 + 1 ∧ alByMark a ⊆ alByMark a1) →
  allocated live fresh a1 (<[id := mark]> out) out' a' →
  allocated live (id :: fresh) a out out' a'.
Proof.
  intros Hid Hk1 Hs1 Hroom [Hok' Hk' Hin' Hout' Hsub']. split.
  - done.
  - by eapply keeps_trans.
  - intros id' [->|Hin]%elem_of_cons; [|by apply Hin']. exists mark. rewrite Hout' by done.
    rewrite lookup_insert_eq. split; [done|]. destruct Hk' as (_ & Hg' & Hkeep).
    rewrite Hg'. apply Hkeep; [done|]. by left.
  - intros id' [Hne Hni]%not_elem_of_cons. rewrite Hout' by done. by rewrite lookup_insert_ne.
  - intros Hr. destruct (Hroom Hr) as [Hr1' Hsub1]. etrans; [exact Hsub1|by apply Hsub'].
Qed.

Lemma reus_ok_assign_next live a id l :
  alByID a !! id = None → reus_ok a live l →
  reus_ok (assign a (u32 (alNext a + 1)) (alByID a) id (alNext a)) live l.
Proof.
  intros Hid [Hnd Hl]. split; [done|]. intros m. rewrite Hl. cbn [assign alByID alGen]. split.
  - intros (id' & s & Hs & Hrest). exists id', s. by rewrite lookup_insert_ne by congruence.
  - intros (id' & s & [[<- <-]|[Hne Hs]]%lookup_insert_Some & Hg & Hrest); [cbn in Hg; lia|]. eauto.
Qed.

Lemma reus_ok_default a installed reus :
  alloc_ok a → (∀ l, reus = Some l → reus_ok a (policy_ids installed) l) →
  reus_ok a (policy_ids installed) (default (reusable a installed) reus).
Proof.
  intros Hok Hreus. destruct reus as [l|]; [by apply Hreus|]. cbn. split.
  - by apply reusable_NoDup.
  - intros m. apply elem_of_reusable.
Qed.

Lemma allocFresh_spec installed fresh a reus out out' a' :
  alloc_ok a → NoDup fresh → (∀ id, id ∈ fresh → alByID a !! id = None) →
  (∀ l, reus = Some l → reus_ok a (policy_ids installed) l) →
  allocFresh installed fresh a reus out = Some (out', a') →
  allocated (policy_ids installed) fresh a out out' a'.
Proof.
  intros Hok Hnd. revert a reus out Hok. induction Hnd as [|id fresh Hid Hnd IH];
    intros a reus out Hok Hnone Hreus.
  { cbn. intros [= <- <-]. split; [done|apply keeps_refl|by intros id ?%elem_of_nil|done|done]. }
  assert (alByID a !! id = None) as Hida by (apply Hnone; left).
  pose proof (ao_limit _ Hok). pose proof (ao_next _ Hok). cbn [allocFresh].
  destruct (decide (alNext a ≤ alLimit a)) as [Hle|Hgt].
  - intros Hrun. eapply allocated_cons; [done|by apply keeps_assign_next| | |eapply IH; [| | |exact Hrun]].
    + cbn. by rewrite lookup_insert_eq.
    + intros Hroom. cbn [length] in Hroom. cbn. rewrite u32_small by lia. split; [lia|].
      apply insert_subseteq, eq_None_not_Some. rewrite (ao_dense _ Hok). lia.
    + by apply assign_next_ok.
    + intros id' Hin. cbn. rewrite lookup_insert_ne by (intros ->; done). apply Hnone. by right.
    + intros l Hl. apply reus_ok_assign_next; auto.
  - pose proof (reus_ok_default a installed reus Hok Hreus) as Hr.
    destruct (default _ reus) as [|m rest]; [done|]. intros Hrun.
    destruct (assign_first _ a id m rest Hok Hida Hr) as (Hok1 & Hk1 & Hr1).
    eapply allocated_cons; [done|exact Hk1| | |eapply IH; [exact Hok1| | |exact Hrun]].
    + cbn. by rewrite lookup_insert_eq.
    + cbn [length]. lia.
    + intros id' Hin. cbn. rewrite lookup_insert_ne by (intros ->; done).
      apply lookup_delete_None. right. apply Hnone. by right.
    + intros l [= <-]. exact Hr1.
Qed.

(** ** Known rules *)

Definition carried (g : Z) (s : slot) : slot := MkSlot (slMark s) g.

Lemma touch_spec a0 l :
  ∃ a out fresh, foldl touch (a0, ∅, []) l = (a, out, fresh) ∧
    alLimit a = alLimit a0 ∧ alNext a = alNext a0 ∧ alGen a = alGen a0 ∧ alByMark a = alByMark a0 ∧
    (∀ id, alByID a !! id = if decide (id ∈ rrRuleId <$> l)
                            then carried (alGen a0) <$> alByID a0 !! id else alByID a0 !! id) ∧
    (∀ id, out !! id = if decide (id ∈ rrRuleId <$> l) then slMark <$> alByID a0 !! id else None) ∧
    fresh = filter (λ id, alByID a0 !! id = None) (rrRuleId <$> l).
Proof.
  induction l as [|r l IH] using rev_ind.
  { exists a0, ∅, []. split_and!; try done; intros id; by rewrite decide_False by apply not_elem_of_nil. }
  destruct IH as (a & out & fresh & Hf & HL & HN & HG & HM & HI & HO & HF).
  rewrite foldl_app, Hf, fmap_app. cbn [foldl touch fmap list_fmap].
  assert (∀ id, id ∈ (rrRuleId <$> l) ++ [rrRuleId r] ↔ id ∈ rrRuleId <$> l ∨ id = rrRuleId r) as Hin
    by (intros id; rewrite elem_of_app, list_elem_of_singleton; done).
  assert (alByID a !! rrRuleId r = None ↔ alByID a0 !! rrRuleId r = None) as Hnone.
  { rewrite HI. case_decide; [|done]. by rewrite fmap_None. }
  destruct (alByID a !! rrRuleId r) as [s|] eqn:Hs.
  - assert (∃ s0, alByID a0 !! rrRuleId r = Some s0 ∧ slMark s0 = slMark s) as (s0 & Hs0 & Hms).
    { rewrite HI in Hs. case_decide; [|eauto]. destruct (alByID a0 !! rrRuleId r) as [s0|]; [|done].
      injection Hs as <-. eauto. }
    eexists _, _, _. split_and!; [done|done|done|done|done| | |].
    + intros id. cbn. rewrite (decide_ext _ _ _ _ (Hin id)). destruct (decide (id = rrRuleId r)) as [->|Hne].
      * rewrite lookup_insert_eq, decide_True by auto. rewrite Hs0. cbn. unfold carried. by rewrite Hms, HG.
      * rewrite lookup_insert_ne, HI by done. apply decide_ext. naive_solver.
    + intros id. rewrite (decide_ext _ _ _ _ (Hin id)). destruct (decide (id = rrRuleId r)) as [->|Hne].
      * rewrite lookup_insert_eq, decide_True by auto. rewrite Hs0. cbn. by rewrite Hms.
      * rewrite lookup_insert_ne, HO by done. apply decide_ext. naive_solver.
    + rewrite filter_app, filter_cons_False by congruence. by rewrite filter_nil, app_nil_r.
  - eexists _, _, _. split_and!; [done|done|done|done|done| | |].
    + intros id. rewrite (decide_ext _ _ _ _ (Hin id)), HI.
      destruct (decide (id = rrRuleId r)) as [->|Hne]; [|apply decide_ext; naive_solver].
      rewrite (decide_True (P := _ ∨ _)) by auto.
      by case_decide; rewrite (proj1 Hnone eq_refl).
    + intros id. rewrite (decide_ext _ _ _ _ (Hin id)), HO.
      destruct (decide (id = rrRuleId r)) as [->|Hne]; [|apply decide_ext; naive_solver].
      rewrite (decide_True (P := _ ∨ _)) by auto. by case_decide; rewrite (proj1 Hnone eq_refl).
    + rewrite filter_app, filter_cons_True by (by apply Hnone). by rewrite filter_nil, HF.
Qed.

(** The first loop on a policy's canonical rules keeps the invariant. *)
Lemma touch_ok a0 l a out fresh :
  alloc_ok a0 → foldl touch (a0, ∅, []) l = (a, out, fresh) → alloc_ok a.
Proof.
  intros Hok Hf. destruct (touch_spec a0 l) as (a1 & out1 & fresh1 & Hf1 & HL & HN & HG & HM & HI & _ & _).
  rewrite Hf in Hf1. injection Hf1 as <- <- <-. pose proof (ao_gen _ Hok).
  split; rewrite ?HL, ?HN, ?HG, ?HM;
    [apply (ao_limit _ Hok)|apply (ao_next _ Hok)|done| | |apply (ao_dense _ Hok)].
  - intros id s. rewrite HI. case_decide; [|apply (ao_slot _ Hok)].
    intros (s0 & Hs0 & ->)%fmap_Some. destruct (ao_slot _ Hok _ _ Hs0) as [? ?].
    cbn. split; [done|lia].
  - intros m id Hm. destruct (ao_mark _ Hok _ _ Hm) as (s & Hs & Heq). rewrite HI, Hs.
    case_decide; eauto.
Qed.

(** ** Running out of values *)

(** Every value below [next] is held by its own id. *)
Lemma alloc_ok_size a : alloc_ok a → alNext a - 1 ≤ Z.of_nat (size (dom (alByID a))).
Proof.
  intros Hok. pose proof (ao_next _ Hok).
  set (ids := (λ m, default "" (alByMark a !! m)) <$> seqZ 1 (alNext a - 1)).
  assert (∀ m, m ∈ seqZ 1 (alNext a - 1) → is_Some (alByMark a !! m)) as Hs.
  { intros m Hm%elem_of_seqZ. apply (ao_dense _ Hok). lia. }
  assert (NoDup ids) as Hnd.
  { unfold ids. apply NoDup_fmap_2_strong; [|apply NoDup_seqZ].
    intros m1 m2 Hm1 Hm2. destruct (Hs m1 Hm1) as [i1 H1], (Hs m2 Hm2) as [i2 H2].
    rewrite H1, H2. cbn. intros <-.
    destruct (ao_mark _ Hok _ _ H1) as (s1 & Hs1 & <-), (ao_mark _ Hok _ _ H2) as (s2 & Hs2 & <-).
    congruence. }
  assert (list_to_set ids ⊆ dom (alByID a)) as Hsub.
  { intros id. rewrite elem_of_list_to_set. unfold ids. rewrite list_elem_of_fmap.
    intros (m & -> & Hm). destruct (Hs m Hm) as [i Hi]. rewrite Hi. cbn.
    destruct (ao_mark _ Hok _ _ Hi) as (s & Hsl & _). apply elem_of_dom. eauto. }
  apply subseteq_size in Hsub. rewrite size_list_to_set in Hsub by done.
  unfold ids in Hsub. rewrite length_fmap, length_seqZ in Hsub. lia.
Qed.

(** When the loop fails, every value is held by a rule of the new policy that
    was reached before, or of the installed one. *)
Lemma allocFresh_fails installed fresh a reus out (cur : gset string) :
  alloc_ok a → NoDup fresh → (∀ id, id ∈ fresh → alByID a !! id = None) →
  (∀ l, reus = Some l → reus_ok a (policy_ids installed) l) →
  (∀ id s, alByID a !! id = Some s → slGen s = alGen a → id ∈ cur) → (∀ id, id ∈ fresh → id ∈ cur) →
  allocFresh installed fresh a reus out = None →
  alLimit a < Z.of_nat (size (cur ∪ list_to_set (policy_ids installed))).
Proof.
  intros Hok Hnd. revert a reus out Hok. induction Hnd as [|id fresh Hid Hnd IH];
    intros a reus out Hok Hnone Hreus Hcur Hfresh; [done|].
  assert (alByID a !! id = None) as Hida by (apply Hnone; left).
  pose proof (ao_next _ Hok). cbn [allocFresh].
  destruct (decide (alNext a ≤ alLimit a)) as [Hle|Hgt].
  - intros Hrun. eapply (IH (assign a (u32 (alNext a + 1)) (alByID a) id (alNext a)));
      [by apply assign_next_ok| | | | |exact Hrun].
    + intros id' Hin. cbn. rewrite lookup_insert_ne by (intros ->; done). apply Hnone. by right.
    + intros l Hl. apply reus_ok_assign_next; auto.
    + cbn. intros id' s [[<- <-]|[Hne Hs]]%lookup_insert_Some Hg; [apply Hfresh; left|by eapply Hcur].
    + intros id' Hin. apply Hfresh. by right.
  - pose proof (reus_ok_default a installed reus Hok Hreus) as Hr.
    destruct (default _ reus) as [|m rest].
    + intros _. pose proof (alloc_ok_size a Hok) as Hsize.
      assert (dom (alByID a) ⊆ (cur ∪ list_to_set (policy_ids installed)) ∖ {[id]}) as Hsub.
      { intros id' [s Hs]%elem_of_dom. assert (id' ≠ id) by congruence.
        apply elem_of_difference. rewrite elem_of_singleton, elem_of_union, elem_of_list_to_set.
        split; [|done]. destruct (decide (id' ∈ policy_ids installed)) as [?|Hn]; [by right|left].
        apply (Hcur id' s Hs). destruct (ao_slot _ Hok _ _ Hs) as [_ Hg]. destruct Hr as [_ Hr].
        destruct (decide (slGen s < alGen a)) as [Hlt|]; [|lia]. exfalso.
        apply (elem_of_nil (slMark s)), Hr. eauto 6. }
      assert ({[id]} ⊆ cur ∪ list_to_set (policy_ids installed)) as Hin.
      { apply singleton_subseteq_l, elem_of_union. left. apply Hfresh. left. }
      apply subseteq_size in Hsub. rewrite size_difference, size_singleton in Hsub by done.
      apply subseteq_size in Hin. rewrite size_singleton in Hin. lia.
    + intros Hrun. destruct (assign_first _ a id m rest Hok Hida Hr) as (Hok1 & _ & Hr1).
      eapply (IH (assign a (alNext a) (delete (default "" (alByMark a !! m)) (alByID a)) id m));
        [exact Hok1| | | | |exact Hrun].
      * intros id' Hin. cbn. rewrite lookup_insert_ne by (intros ->; done).
        apply lookup_delete_None. right. apply Hnone. by right.
      * intros l [= <-]. exact Hr1.
      * cbn. intros id' s [[<- <-]|[Hne [_ Hs]%lookup_delete_Some]]%lookup_insert_Some Hg;
          [apply Hfresh; left|by eapply Hcur].
      * intros id' Hin. apply Hfresh. by right.
Qed.

(** The outcome of the first loop of [Allocate], on the advanced generation. *)
Definition advanced (a : Allocator) : Allocator :=
  MkAllocator (alLimit a) (alNext a) (u64 (alGen a + 1)) (alByID a) (alByMark a).

Lemma advanced_ok a : alloc_ok a → alGen a + 1 < 2 ^ 64 → alloc_ok (advanced a).
Proof.
  intros Hok Hg. pose proof (ao_gen _ Hok). unfold advanced. rewrite u64_small by lia.
  split; cbn; [apply (ao_limit _ Hok)|apply (ao_next _ Hok)|lia| |apply (ao_mark _ Hok)|apply (ao_dense _ Hok)].
  intros id s Hs. destruct (ao_slot _ Hok _ _ Hs). split; [done|lia].
Qed.

(** The rule ids [Allocate] serves: distinct, by canonical form. *)
Definition next_ids (next : option WorkloadPolicy) : list string :=
  rrRuleId <$> wpInboundRules (Canonical next).

Lemma next_ids_NoDup next : NoDup (next_ids next).
Proof.
  unfold next_ids. rewrite Canonical_rules, rules_by_id_ids
    by apply canonical_index_keyed, canonicalIndex_ok. apply sorted_ids_NoDup.
Qed.

Lemma Allocate_cases a next installed :
  alloc_ok a → alGen a + 1 < 2 ^ 64 →
  ∃ a1 out fresh,
    alloc_ok a1 ∧ alLimit a1 = alLimit a ∧ alNext a1 = alNext a ∧ alByMark a1 = alByMark a ∧
    fresh = filter (λ id, alByID a !! id = None) (next_ids next) ∧
    (∀ id, alByID a1 !! id = if decide (id ∈ next_ids next)
       then carried (alGen a1) <$> alByID a !! id else alByID a !! id) ∧
    (∀ id, out !! id = if decide (id ∈ next_ids next) then slMark <$> alByID a !! id else None) ∧
    alGen a1 = alGen a + 1 ∧
    Allocate a next installed = match allocFresh installed fresh a1 None out with
                                | Some (out, a') => Ok (out, a')
                                | None => Err (ErrMarksExhausted (length fresh))
                                end.
Proof.
  intros Hok Hg. pose proof (advanced_ok a Hok Hg) as Hadv.
  destruct (touch_spec (advanced a) (wpInboundRules (Canonical next)))
    as (a1 & out & fresh & Hf & HL & HN & HG & HM & HI & HO & HF).
  pose proof (ao_gen _ Hok). exists a1, out, fresh. split_and!; try done.
  - by eapply touch_ok.
  - intros id. rewrite HI, HG. done.
  - rewrite HG. cbn. by apply u64_small; lia.
  - unfold Allocate. fold (advanced a). rewrite Hf. done.
Qed.

Lemma fresh_unknown a a1 next :
  (∀ id, alByID a1 !! id = if decide (id ∈ next_ids next)
     then carried (alGen a1) <$> alByID a !! id else alByID a !! id) →
  ∀ id, id ∈ filter (λ id, alByID a !! id = None) (next_ids next) → alByID a1 !! id = None.
Proof.
  intros HI id [Hn Hin]%list_elem_of_filter. rewrite HI, decide_True by done. by rewrite Hn.
Qed.

(** ** Properties *)

(** Only rules of the new policy are added. *)
Lemma allocFresh_ids installed fresh a reus out out' a' id :
  allocFresh installed fresh a reus out = Some (out', a') →
  is_Some (alByID a' !! id) → is_Some (alByID a !! id) ∨ id ∈ fresh.
Proof.
  revert a reus out. induction fresh as [|x fresh IH]; intros a reus out; cbn [allocFresh].
  - intros Hr. assert (a = a') as -> by congruence. auto.
  - assert (∀ byID next mark, (∀ i, is_Some (byID !! i) → is_Some (alByID a !! i)) →
      is_Some (alByID (assign a next byID x mark) !! id) ∨ id ∈ fresh →
      is_Some (alByID a !! id) ∨ id ∈ x :: fresh) as Hstep.
    { intros byID next mark Hsub [Hi|Hi]; [|right; by right]. cbn in Hi.
      destruct (decide (id = x)) as [->|]; [right; by left|]. rewrite lookup_insert_ne in Hi by done. auto. }
    case_decide; [intros Hr Hi; eapply Hstep; [|by eapply IH]; done|].
    destruct (default _ reus) as [|mark rest]; [done|]. intros Hr Hi. eapply Hstep; [|by eapply IH].
    intros i [s Hs]. apply lookup_delete_Some in Hs as [_ Hs]. eauto.
Qed.

Lemma Allocate_ids a next installed out a' id :
  alloc_ok a → alGen a + 1 < 2 ^ 64 → Allocate a next installed = Ok (out, a') →
  is_Some (alByID a' !! id) → is_Some (alByID a !! id) ∨ id ∈ next_ids next.
Proof.
  intros Hok Hg Hrun Hi. destruct (Allocate_cases a next installed Hok Hg)
    as (a1 & out1 & fresh & _ & _ & _ & _ & HF & HI & _ & _ & Heq).
  rewrite Heq in Hrun. destruct (allocFresh installed fresh a1 None out1) as [[out2 a2]|] eqn:Hfr; [|done].
  injection Hrun as -> ->. destruct (allocFresh_ids _ _ _ _ _ _ _ _ Hfr Hi) as [H1|H1].
  - rewrite HI in H1. case_decide; auto.
  - right. rewrite HF in H1. apply list_elem_of_filter in H1. tauto.
Qed.

(** What [Allocate] establishes. *)
Lemma Allocate_ok a next installed out a' :
  alloc_ok a → alGen a + 1 < 2 ^ 64 → Allocate a next installed = Ok (out, a') →
  alloc_ok a' ∧ alLimit a' = alLimit a ∧ alGen a' = alGen a + 1 ∧
  (∀ id, is_Some (out !! id) ↔ id ∈ next_ids next) ∧
  (∀ id m, out !! id = Some m →
     1 ≤ m ≤ alLimit a ∧ AllocRule a' m = Some id ∧ AllocMark a' id = Some m) ∧
  (∀ id m, id ∈ next_ids next → AllocMark a id = Some m → out !! id = Some m) ∧
  (∀ id m, id ∈ policy_ids installed → AllocMark a id = Some m →
     AllocMark a' id = Some m ∧ AllocRule a' m = Some id) ∧
  (alNext a + Z.of_nat (length (filter (λ id, alByID a !! id = None) (next_ids next)))
     ≤ alLimit a + 1 → ∀ m id, AllocRule a m = Some id → AllocRule a' m = Some id).
Proof.
  intros Hok Hg Hrun. destruct (Allocate_cases a next installed Hok Hg)
    as (a1 & out1 & fresh & Hok1 & HL & HN & HM & HF & HI & HO & HG & Heq).
  rewrite Heq in Hrun. destruct (allocFresh installed fresh a1 None out1) as [[out2 a2]|] eqn:Hfr; [|done].
  injection Hrun as -> ->.
  destruct (allocFresh_spec installed fresh a1 None out1 out a') as [Hok' Hk Hin Hout Hsub];
    [done|rewrite HF; apply NoDup_filter, next_ids_NoDup|rewrite HF; by apply fresh_unknown|done|done|].
  destruct Hk as (HL' & HG' & Hkeep).
  assert (∀ id, id ∈ fresh ↔ id ∈ next_ids next ∧ alByID a !! id = None) as Hfresh.
  { intros id. rewrite HF, list_elem_of_filter. tauto. }
  assert (∀ id m, out !! id = Some m → AllocMark a' id = Some m) as Hmark.
  { intros id m Hm. unfold AllocMark. destruct (decide (id ∈ fresh)) as [Hi|Hi].
    - destruct (Hin id Hi) as (m' & Hm' & ->). cbn. congruence.
    - rewrite Hout, HO in Hm by done. case_decide as Hn; [|done].
      apply fmap_Some in Hm as (s & Hs & ->). rewrite (Hkeep id (carried (alGen a1) s)); [done| |by left].
      rewrite HI, decide_True by done. by rewrite Hs. }
  assert (∀ id m, AllocMark a' id = Some m → 1 ≤ m ≤ alLimit a ∧ AllocRule a' m = Some id) as Hrule.
  { intros id m (s & Hs & ->)%fmap_Some. destruct (ao_slot _ Hok' _ _ Hs) as [Hm _].
    split; [|done]. pose proof (ao_next _ Hok'). rewrite HL', HL in *.
    assert (is_Some (alByMark a' !! slMark s)) as Hd by eauto. apply (ao_dense _ Hok') in Hd. lia. }
  split_and!; [done|congruence|congruence| | | | |].
  - intros id. destruct (decide (id ∈ fresh)) as [Hi|Hi].
    + destruct (Hin id Hi) as (m & -> & _). apply Hfresh in Hi as [? _]. naive_solver.
    + rewrite Hout, HO by done. case_decide as Hn; [|by split; [intros []|]].
      destruct (alByID a !! id) eqn:Hs; [naive_solver|]. destruct Hi. by apply Hfresh.
  - intros id m Hm%Hmark. destruct (Hrule _ _ Hm). auto.
  - intros id m Hn Hm. rewrite Hout, HO, decide_True by (try done; intros [_ Hx]%Hfresh;
      unfold AllocMark in Hm; by rewrite Hx in Hm). done.
  - intros id m Hl (s & Hs & ->)%fmap_Some.
    enough (AllocMark a' id = Some (slMark s)) as Hm by (split; [exact Hm|by eapply Hrule]). unfold AllocMark.
    destruct (decide (id ∈ next_ids next)) as [Hn|Hn].
    + erewrite (Hkeep id (carried (alGen a1) s)); [done| |by left]. rewrite HI, decide_True by done. by rewrite Hs.
    + erewrite (Hkeep id s); [done| |by right]. by rewrite HI, decide_False.
  - intros Hroom m id Hm. unfold AllocRule in *. eapply lookup_weaken; [exact Hm|]. rewrite <-HM.
    apply Hsub. rewrite HN, HL, HF. exact Hroom.
Qed.

(** C29: allocation is stable and injective.  From a consistent allocation,
    [Allocate] leaves a consistent one in which exactly the rules of the new
    policy have a value, each in range and naming that rule alone; a rule the
    allocation knew keeps its value; the value of a rule of the installed policy
    still names that rule; and as long as values were never handed out remain,
    every value names the rule it named before, removed rules included. *)
Theorem Allocate_stable a next installed out a' :
  alloc_ok a → alGen a + 1 < 2 ^ 64 → Allocate a next installed = Ok (out, a') →
  alloc_ok a' ∧
  (∀ id, is_Some (out !! id) ↔ id ∈ next_ids next) ∧
  (∀ id m, out !! id = Some m →
     1 ≤ m ≤ alLimit a ∧ AllocRule a' m = Some id ∧ AllocMark a' id = Some m) ∧
  (∀ id m, id ∈ next_ids next → AllocMark a id = Some m → out !! id = Some m) ∧
  (∀ id m, id ∈ policy_ids installed → AllocMark a id = Some m → AllocRule a' m = Some id) ∧
  (alNext a + Z.of_nat (length (filter (λ id, alByID a !! id = None) (next_ids next)))
     ≤ alLimit a + 1 → ∀ m id, AllocRule a m = Some id → AllocRule a' m = Some id).
Proof.
  intros Hok Hg Hrun.
  destruct (Allocate_ok _ _ _ _ _ Hok Hg Hrun) as (? & _ & _ & ? & ? & ? & Hinst & ?).
  split_and!; try done. intros id m Hi Hm. by apply (Hinst id m).
Qed.

Definition rules_policy (ids : list string) : option WorkloadPolicy :=
  Some (MkWorkloadPolicy 1 ENFORCEMENT_MODE_ENFORCED
    ((λ id, MkResolvedRule id ["10.0.0.0/8"] PROTOCOL_TCP []) <$> ids)).

Lemma Allocate_stable_witness :
  ∃ out a', Allocate (newAllocator 3) (rules_policy ["a"; "b"]) None = Ok (out, a') ∧
    alloc_ok a' ∧ AllocRule a' 2 = Some "b".
Proof.
  destruct (Allocate (newAllocator 3) (rules_policy ["a"; "b"]) None) as [[out a']|e] eqn:Hrun;
    [|exfalso; vm_compute in Hrun; discriminate Hrun].
  destruct (Allocate_stable (newAllocator 3) (rules_policy ["a"; "b"]) None out a')
    as (Hok & _ & Hm & _).
  - apply newAllocator_ok. lia.
  - reflexivity.
  - exact Hrun.
  - exists out, a'. split; [reflexivity|]. split; [exact Hok|]. apply (Hm "b" 2).
    vm_compute in Hrun. injection Hrun as <- _. reflexivity.
Defined.

(** Allocation fails only when it must.  When the rules of the new policy and
    of the installed one together are no more than the values there are,
    [Allocate] gives every rule its value, however many rules came and went
    before. *)
Theorem Allocate_succeeds a next installed :
  alloc_ok a → alGen a + 1 < 2 ^ 64 →
  Z.of_nat (size (list_to_set (next_ids next) ∪ list_to_set (policy_ids installed) : gset string))
    ≤ alLimit a →
  ∃ out a', Allocate a next installed = Ok (out, a').
Proof.
  intros Hok Hg Hsize. destruct (Allocate_cases a next installed Hok Hg)
    as (a1 & out1 & fresh & Hok1 & HL & HN & HM & HF & HI & HO & HG & ->).
  destruct (allocFresh installed fresh a1 None out1) as [[out a']|] eqn:Hfr; [eauto|]. exfalso.
  apply (allocFresh_fails _ _ _ _ _ (list_to_set (next_ids next))) in Hfr; [lia|done| | |done| |].
  - rewrite HF. apply NoDup_filter, next_ids_NoDup.
  - rewrite HF. by apply fresh_unknown.
  - intros id s Hs Hgen. rewrite elem_of_list_to_set. rewrite HI in Hs. case_decide as Hn; [done|].
    destruct (ao_slot _ Hok _ _ Hs). lia.
  - intros id. rewrite HF, list_elem_of_filter, elem_of_list_to_set. tauto.
Qed.

Lemma Allocate_succeeds_witness :
  ∃ out a', Allocate (newAllocator 2) (rules_policy ["a"; "b"]) None = Ok (out, a').
Proof.
  apply (Allocate_succeeds (newAllocator 2) (rules_policy ["a"; "b"]) None).
  - apply newAllocator_ok. lia.
  - reflexivity.
  - vm_compute. discriminate.
Defined.
