(* ===== verification/Enforce.v ===== *)
(** * The agent's state directory and the owned table's presence:
      [internal/agent/enforce]

    [WriteDurable] ([durable.go]) is modelled on a disk that can lose what was not
    synced, one named fault per step; [PolicyFile] ([policyfile.go]) on top of
    it; [Presence] and [Watched] ([presence.go]) as a state machine with the calls
    it makes to [Removed] and [Restored]; [MemoryStore] ([store.go]).  The
    protobuf runtime is not part of the repository: its marshalling is the
    interface [PolicyCodec]. *)

From S2P Require Import Prelude GoStd Netip Wire Rendered Sha256.
Local Open Scope Z_scope.

(** Bytes. *)
Abbreviation bytestring := (list Z).

(** ** Files under a magic line and a checksum

    The format that the policy file and the mark allocation share. *)

Definition seal (magic body : bytestring) : bytestring := magic ++ body ++ Sum256 body.

Inductive SealError := BadMagic | BadChecksum.

Definition unseal (magic data : bytestring) : result SealError bytestring :=
  if decide (length data < length magic + 32)%nat then Err BadMagic
  else if decide (take (length magic) data ≠ magic) then Err BadMagic
  else
    let body := take (length data - 32 - length magic) (drop (length magic) data) in
    let want := drop (length data - 32) data in
    if decide (Sum256 body ≠ want) then Err BadChecksum else Ok body.

Lemma unseal_seal magic body : unseal magic (seal magic body) = Ok body.
Proof.
  unfold unseal, seal. pose proof (Sum256_length body) as Hs.
  rewrite !length_app, Hs. rewrite decide_False by lia.
  rewrite take_app_length, decide_False by tauto.
  replace (length magic + (length body + 32) - 32 - length magic)%nat with (length body) by lia.
  rewrite drop_app_length, take_app_length.
  replace (length magic + (length body + 32) - 32)%nat with (length magic + length body)%nat by lia.
  rewrite app_assoc, <-length_app, drop_app_length. by rewrite decide_False by tauto.
Qed.

(** What [unseal] accepts is exactly what [seal] writes: a truncated file, a
    foreign one or one with an altered checksum is refused. *)
Lemma unseal_Ok magic data body : unseal magic data = Ok body ↔ data = seal magic body.
Proof.
  split; [|intros ->; apply unseal_seal]. unfold unseal, seal.
  case_decide as Hl; [done|]. case_decide as Hm; [done|]. case_decide as Hsum; [done|].
  intros [= <-]. rewrite Hsum.
  rewrite <-Hm at 1. rewrite <-(take_drop (length magic) data) at 1. f_equal.
  rewrite <-(take_drop (length data - 32 - length magic) (drop (length magic) data)) at 1.
  f_equal. rewrite drop_drop. f_equal. lia.
Qed.

(** ** A disk that can lose what was not synced

    Directory entries and file contents, each as they are now and as the last
    sync left them.  Only one directory is modelled. *)

Record Disk := MkDisk {
  dEntries : gmap string nat;
  dSynced : gmap string nat;
  dData : gmap nat bytestring;
  dStable : gmap nat bytestring;
}.

Definition ReadFile (d : Disk) (path : string) : option bytestring :=
  dEntries d !! path ≫= λ i, dData d !! i.

(** The content [path] may have after a crash: the entry is the current one or
    the last synced one, and a file whose content was never synced may hold
    anything. *)
Definition after_crash (d : Disk) (path : string) (c : option bytestring) : Prop :=
  ∃ e, (e = dEntries d !! path ∨ e = dSynced d !! path) ∧
    match e with
    | None => c = None
    | Some i => ∃ b, c = Some b ∧ (∀ s, dStable d !! i = Some s → b = s)
    end.

(** Everything about [path] is on stable storage. *)
Definition settled (d : Disk) (path : string) : Prop :=
  dSynced d !! path = dEntries d !! path ∧
  ∀ i, dEntries d !! path = Some i → is_Some (dData d !! i) ∧ dStable d !! i = dData d !! i.

Inductive WriteStep :=
| WMkdirAll | WCreateTemp | WChmod | WWrite | WSyncFile | WClose | WRename | WSyncDir.

#[export] Instance WriteStep_eq_dec : EqDecision WriteStep.
Proof. solve_decision. Defined.

Section durable.
Context (fault : option WriteStep) (tmp : string) (inode : nat) (path : string) (data : bytestring).

Definition removeTmp (d : Disk) : Disk :=
  MkDisk (delete tmp (dEntries d)) (dSynced d) (dData d) (dStable d).

(** The effect of a step that succeeds. *)
Definition step_effect (s : WriteStep) (d : Disk) : Disk :=
  match s with
  | WCreateTemp =>
      MkDisk (<[tmp := inode]> (dEntries d)) (dSynced d) (<[inode := []]> (dData d))
        (delete inode (dStable d))
  | WWrite => MkDisk (dEntries d) (dSynced d) (<[inode := data]> (dData d)) (dStable d)
  | WSyncFile =>
      MkDisk (dEntries d) (dSynced d) (dData d) (<[inode := default [] (dData d !! inode)]> (dStable d))
  | WRename => MkDisk (<[path := inode]> (delete tmp (dEntries d))) (dSynced d) (dData d) (dStable d)
  | WSyncDir => MkDisk (dEntries d) (dEntries d) (dData d) (dStable d)
  | WMkdirAll | WChmod | WClose => d
  end.

(** The effect of a step that fails: from the temporary file's creation to the
    rename, the temporary file is removed. *)
Definition step_failed (s : WriteStep) (d : Disk) : Disk :=
  match s with
  | WChmod | WWrite | WSyncFile | WClose | WRename => removeTmp d
  | WMkdirAll | WCreateTemp | WSyncDir => d
  end.

(** Run the steps until one fails; the result is the step that failed, and the
    disks on the way, the last one first. *)
Fixpoint run_steps (steps : list WriteStep) (d : Disk) (trace : list Disk)
  : option WriteStep * list Disk :=
  match steps with
  | [] => (None, d :: trace)
  | s :: steps' =>
      if decide (fault = Some s) then (Some s, step_failed s d :: d :: trace)
      else run_steps steps' (step_effect s d) (d :: trace)
  end.

(** [WriteDurable]: the failing step, or [None] for a nil error, and every disk
    on the way. *)
Definition WriteDurable (d : Disk) : option WriteStep * list Disk :=
  run_steps [WMkdirAll; WCreateTemp; WChmod; WWrite; WSyncFile; WClose; WRename; WSyncDir] d [].
End durable.

(** The disk after a run. *)
Definition final (d : Disk) (r : option WriteStep * list Disk) : Disk := hd d r.2.

Section durable_proofs.
Context (tmp : string) (inode : nat) (path : string) (data : bytestring) (d : Disk).
Hypothesis Htmp : tmp ≠ path.
Hypothesis Hfresh : dEntries d !! path ≠ Some inode.
Hypothesis Hsettled : settled d path.

(** Nothing about [path] has changed. *)
Definition same_at (d' : Disk) : Prop :=
  dEntries d' !! path = dEntries d !! path ∧ dSynced d' !! path = dSynced d !! path ∧
  ∀ i, dEntries d !! path = Some i → dData d' !! i = dData d !! i ∧ dStable d' !! i = dStable d !! i.

(** The new content is in place and synced; the entry may not be. *)
Definition renamed (d' : Disk) : Prop :=
  dEntries d' !! path = Some inode ∧ dData d' !! inode = Some data ∧ dStable d' !! inode = Some data ∧
  (dSynced d' !! path = dSynced d !! path ∨ dSynced d' !! path = Some inode) ∧
  ∀ i, dEntries d !! path = Some i → dData d' !! i = dData d !! i ∧ dStable d' !! i = dStable d !! i.

(** The old file's content under its unchanged inode. *)
Lemma old_crash d' e c :
  (∀ i, dEntries d !! path = Some i → dData d' !! i = dData d !! i ∧ dStable d' !! i = dStable d !! i) →
  e = dEntries d !! path →
  match e with
  | None => c = None
  | Some i => ∃ b, c = Some b ∧ (∀ s, dStable d' !! i = Some s → b = s)
  end → c = ReadFile d path.
Proof.
  intros Hi -> Hc. unfold ReadFile. destruct Hsettled as [_ Hst].
  destruct (dEntries d !! path) as [i|] eqn:He; cbn; [|done].
  destruct Hc as (b & -> & Hb). destruct (Hst i eq_refl) as [[x Hx] Hs].
  destruct (Hi i eq_refl) as [_ Hs']. rewrite Hx in *. f_equal. apply Hb. congruence.
Qed.

Lemma same_at_crash d' c : same_at d' → after_crash d' path c → c = ReadFile d path.
Proof.
  intros (He & Hs & Hi) (e & Hc & Hm). apply (old_crash d' e c Hi); [|done].
  destruct Hsettled as [Hsy _]. destruct Hc as [->| ->]; congruence.
Qed.

Lemma renamed_crash d' c :
  renamed d' → after_crash d' path c → c = ReadFile d path ∨ c = Some data.
Proof.
  intros (He & _ & Hst & Hs & Hi) (e & Hc & Hm). destruct Hsettled as [Hsy _].
  assert (e = Some inode ∨ e = dEntries d !! path) as [->|Hold].
  { destruct Hc as [->| ->]; [auto|]. destruct Hs as [->| ->]; auto. }
  - right. destruct Hm as (b & -> & Hb). f_equal. by apply Hb.
  - left. by apply (old_crash d' e c Hi).
Qed.

Ltac disk_eq :=
  repeat first [ rewrite lookup_insert_eq | rewrite lookup_insert_ne by congruence
               | rewrite lookup_delete_eq | rewrite lookup_delete_ne by congruence ].

Lemma WriteDurable_trace fault :
  let r := WriteDurable fault tmp inode path data d in
  Forall (λ d', same_at d' ∨ renamed d') r.2 ∧
  (r.1 = None → renamed (final d r) ∧ dSynced (final d r) !! path = Some inode) ∧
  (∀ s, r.1 = Some s → s ≠ WSyncDir → same_at (final d r)).
Proof.
  assert (∀ d', dEntries d' !! path = dEntries d !! path → dSynced d' = dSynced d →
    (∀ i, i ≠ inode → dData d' !! i = dData d !! i ∧ dStable d' !! i = dStable d !! i) →
    same_at d') as Hsame.
  { intros d' He Hs Hi. split_and!; [done|by rewrite Hs|]. intros i Hpi. apply Hi. congruence. }
  assert (∀ d', dEntries d' !! path = Some inode → dData d' !! inode = Some data →
    dStable d' !! inode = Some data →
    (dSynced d' = dSynced d ∨ dSynced d' = dEntries d') →
    (∀ i, i ≠ inode → dData d' !! i = dData d !! i ∧ dStable d' !! i = dStable d !! i) →
    renamed d') as Hren.
  { intros d' He Hd Hst Hs Hi. split_and!; [done..| |].
    - destruct Hs as [->| ->]; auto.
    - intros i Hpi. apply Hi. congruence. }
  destruct fault as [[]|]; unfold WriteDurable; cbn [run_steps];
    repeat (rewrite (decide_False (P := _ = Some _)) by discriminate);
    rewrite ?(decide_True (P := _ = Some _)) by reflexivity;
    cbn [step_effect step_failed removeTmp fst snd final hd];
    (split; [|split; [intros Hn|intros s Hs Hne]]); try discriminate; try (by destruct Hne);
    repeat (apply Forall_cons_2); try apply Forall_nil_2;
    try (left; apply Hsame; cbn; [by disk_eq|done|intros i Hi; split; by disk_eq]);
    try (apply Hsame; cbn; [by disk_eq|done|intros i Hi; split; by disk_eq]);
    try (right; apply Hren; cbn; [by disk_eq|by disk_eq|by disk_eq|auto|intros i Hi; split; by disk_eq]).
  - injection Hs as <-. by destruct Hne.
  - split; [|cbn; by disk_eq].
    apply Hren; cbn; [by disk_eq|by disk_eq|by disk_eq|auto|intros i Hi; split; by disk_eq].
Qed.

(** A write leaves the other files of the directory alone. *)
Definition untouched (other : string) (d' : Disk) : Prop :=
  dEntries d' !! other = dEntries d !! other ∧
  (dSynced d' !! other = dSynced d !! other ∨ dSynced d' !! other = dEntries d !! other) ∧
  ∀ i, dEntries d !! other = Some i → dData d' !! i = dData d !! i ∧ dStable d' !! i = dStable d !! i.

Lemma WriteDurable_frame fault other :
  other ≠ path → other ≠ tmp → dEntries d !! other ≠ Some inode →
  Forall (untouched other) (WriteDurable fault tmp inode path data d).2.
Proof.
  intros Hp Ht Hi.
  assert (∀ d', dEntries d' !! other = dEntries d !! other →
    (dSynced d' = dSynced d ∨ dSynced d' = dEntries d') →
    (∀ i, i ≠ inode → dData d' !! i = dData d !! i ∧ dStable d' !! i = dStable d !! i) →
    untouched other d') as Hsame.
  { intros d' He Hs Hd'. split_and!; [done| |intros i Hoi; apply Hd'; congruence].
    destruct Hs as [->| ->]; auto. }
  destruct fault as [[]|]; unfold WriteDurable; cbn [run_steps];
    repeat (rewrite (decide_False (P := _ = Some _)) by discriminate);
    rewrite ?(decide_True (P := _ = Some _)) by reflexivity;
    cbn [step_effect step_failed removeTmp snd];
    repeat (apply Forall_cons_2); try apply Forall_nil_2;
    apply Hsame; cbn; [by disk_eq|auto|intros i Hne; split; by disk_eq|..]; try (by disk_eq); auto;
    intros i Hne; split; by disk_eq.
Qed.
End durable_proofs.

(** A durable write and a crash: the content afterwards is the old one or the
    new one, and the new one once the write has returned. *)
Lemma WriteDurable_crash fault tmp inode path data d :
  tmp ≠ path → dEntries d !! path ≠ Some inode → settled d path →
  let r := WriteDurable fault tmp inode path data d in
  (∀ d' c, d' ∈ r.2 → after_crash d' path c → c = ReadFile d path ∨ c = Some data) ∧
  (r.1 = None → ReadFile (final d r) path = Some data ∧ settled (final d r) path ∧
     dEntries (final d r) !! path = Some inode ∧
     ∀ c, after_crash (final d r) path c → c = Some data) ∧
  (∀ s, r.1 = Some s → s ≠ WSyncDir → ReadFile (final d r) path = ReadFile d path).
Proof.
  intros Htmp Hfresh Hset. cbn zeta.
  destruct (WriteDurable_trace tmp inode path data d Htmp Hfresh fault) as (Hall & Hok & Herr).
  destruct (WriteDurable fault tmp inode path data d) as [err trace]. unfold final in *. cbn [fst snd] in *.
  rewrite Forall_forall in Hall. split_and!.
  - intros d' c Hd' Hc. destruct (Hall d' Hd') as [Hs|Hr].
    + left. eapply same_at_crash; [..|exact Hc]; done.
    + eapply renamed_crash; [..|exact Hc]; done.
  - intros Hn. destruct (Hok Hn) as [(He & Hd & Hst & _ & _) Hsy]. split_and!.
    + unfold ReadFile. by rewrite He; cbn; rewrite Hd.
    + split; [by rewrite He|]. intros i. rewrite He. intros [= <-]. rewrite Hd, Hst. eauto.
    + done.
    + intros c (e & Hc & Hm). assert (e = Some inode) as -> by (destruct Hc as [->| ->]; congruence).
      destruct Hm as (b & -> & Hbs). by rewrite (Hbs _ Hst).
  - intros s Hs Hne. destruct (Herr s Hs Hne) as (Hen & _ & Hi).
    unfold ReadFile. rewrite Hen. destruct (dEntries d !! path) as [i|]; [|done].
    cbn. by destruct (Hi i eq_refl) as [-> _].
Qed.

Lemma settled_crash d path c : settled d path → after_crash d path c → c = ReadFile d path.
Proof.
  intros [Hsy Hst] (e & He & Hm). assert (e = dEntries d !! path) as -> by (destruct He; congruence).
  unfold ReadFile. destruct (dEntries d !! path) as [i|]; [|done]. destruct Hm as (b & -> & Hb). cbn.
  destruct (Hst i eq_refl) as [[x Hx] Hs]. rewrite Hx in *. f_equal. by apply Hb.
Qed.

Lemma settled_read d path : settled d path → after_crash d path (ReadFile d path).
Proof.
  intros [_ Hst]. exists (dEntries d !! path). split; [by left|]. unfold ReadFile.
  destruct (dEntries d !! path) as [i|]; [|done]. destruct (Hst i eq_refl) as [[b Hb] Hs].
  exists b. cbn. split; [done|]. rewrite Hs, Hb. congruence.
Qed.

Lemma WriteDurable_nonempty fault tmp inode path data d :
  (WriteDurable fault tmp inode path data d).2 ≠ [].
Proof.
  assert (∀ steps d tr, (run_steps fault tmp inode path data steps d tr).2 ≠ []) as Hr; [|apply Hr].
  induction steps as [|st steps IH]; intros d' tr; cbn [run_steps]; [done|]. case_decide; [done|]. apply IH.
Qed.

(** Reading while a write is under way, in place of a crash. *)
Lemma WriteDurable_read fault tmp inode path data d d' :
  tmp ≠ path → dEntries d !! path ≠ Some inode → d' ∈ (WriteDurable fault tmp inode path data d).2 →
  (dEntries d' !! path = dEntries d !! path ∨ dEntries d' !! path = Some inode) ∧
  (ReadFile d' path = ReadFile d path ∨ ReadFile d' path = Some data).
Proof.
  intros Htmp Hfresh Hd'. destruct (WriteDurable_trace tmp inode path data d Htmp Hfresh fault) as (Hall & _).
  rewrite Forall_forall in Hall. destruct (Hall d' Hd') as [(He & _ & Hi)|(He & Hd & _)].
  - split; [by left|]. left. unfold ReadFile. rewrite He. destruct (dEntries d !! path) as [i|]; [|done].
    cbn. by destruct (Hi i eq_refl) as [-> _].
  - split; [by right|]. right. unfold ReadFile. by rewrite He; cbn; rewrite Hd.
Qed.

Lemma untouched_read d other d' : untouched d other d' → ReadFile d' other = ReadFile d other.
Proof.
  intros (He & _ & Hi). unfold ReadFile. rewrite He. destruct (dEntries d !! other) as [i|]; [|done].
  cbn. by destruct (Hi i eq_refl) as [-> _].
Qed.

Lemma untouched_settled d other d' : untouched d other d' → settled d other → settled d' other.
Proof.
  intros (He & Hs & Hi) [Hsy Hst]. split; [destruct Hs; congruence|]. rewrite He. intros i Hoi.
  destruct (Hi i Hoi) as [-> ->]. auto.
Qed.

(** ** The policy file *)

(** [proto.Marshal] with deterministic output and [proto.Unmarshal], on
    policies: marshalling can fail, and what it writes is read back. *)
Class PolicyCodec := {
  proto_Marshal : WorkloadPolicy → option bytestring;
  proto_Unmarshal : bytestring → option WorkloadPolicy;
}.

Class PolicyCodecLaws `{PolicyCodec} : Prop := {
  proto_roundtrip p b : proto_Marshal p = Some b → proto_Unmarshal b = Some p;
}.

Definition policyMagic : bytestring := string_bytes ("innerwall-policy-v1" +:+ bytes [10%N]).

Inductive FileError :=
| ErrMarshal
| ErrWrite (s : WriteStep)
| ErrCorruptPolicyFile.

#[export] Instance FileError_eq_dec : EqDecision FileError.
Proof. solve_decision. Defined.

Section policyfile.
Context `{PolicyCodec}.

(** [rendered.Marshal] and [rendered.Unmarshal]. *)
Definition Marshal (p : option WorkloadPolicy) : option bytestring := proto_Marshal (Canonical p).
Definition Unmarshal (b : bytestring) : option WorkloadPolicy := proto_Unmarshal b.

(** [PolicyFile.Save]: the error, if any, and the disks on the way. *)
Definition PolicyFile_Save (fault : option WriteStep) (tmp : string) (inode : nat) (path : string)
    (policy : option WorkloadPolicy) (d : Disk) : option FileError * list Disk :=
  match Marshal policy with
  | None => (Some ErrMarshal, [d])
  | Some body =>
      let r := WriteDurable fault tmp inode path (seal policyMagic body) d in
      (ErrWrite <$> r.1, r.2)
  end.

(** [PolicyFile.Load] of the bytes a path holds: nothing when there is no
    file. *)
Definition PolicyFile_Load (data : option bytestring) : result FileError (option WorkloadPolicy) :=
  match data with
  | None => Ok None
  | Some data =>
      match unseal policyMagic data with
      | Err _ => Err ErrCorruptPolicyFile
      | Ok body => match Unmarshal body with
                   | None => Err ErrCorruptPolicyFile
                   | Some p => Ok (Some (Canonical (Some p)))
                   end
      end
  end.

(** [PolicyFile.Remove]. *)
Definition PolicyFile_Remove (path : string) (d : Disk) : Disk :=
  MkDisk (delete path (dEntries d)) (dSynced d) (dData d) (dStable d).

Lemma Load_sealed `{!PolicyCodecLaws} policy body :
  Marshal policy = Some body →
  PolicyFile_Load (Some (seal policyMagic body)) = Ok (Some (Canonical policy)).
Proof.
  intros Hb. unfold PolicyFile_Load. rewrite unseal_seal. unfold Unmarshal.
  rewrite (proto_roundtrip _ _ Hb). by rewrite Canonical_idemp.
Qed.
End policyfile.

(** A save and a crash. *)
Lemma PolicyFile_Save_crash `{PolicyCodecLaws} fault tmp inode path policy d :
  tmp ≠ path → dEntries d !! path ≠ Some inode → settled d path →
  let r := PolicyFile_Save fault tmp inode path policy d in
  let old := PolicyFile_Load (ReadFile d path) in
  let new := Ok (Some (Canonical policy)) in
  (∀ d' c, d' ∈ r.2 → after_crash d' path c →
     PolicyFile_Load c = old ∨ PolicyFile_Load c = new) ∧
  (r.1 = None →
     PolicyFile_Load (ReadFile (hd d r.2) path) = new ∧ settled (hd d r.2) path ∧
     ∀ c, after_crash (hd d r.2) path c → PolicyFile_Load c = new) ∧
  (∀ e, r.1 = Some e → e ≠ ErrWrite WSyncDir → ReadFile (hd d r.2) path = ReadFile d path).
Proof.
  intros Htmp Hfresh Hset. cbn zeta. unfold PolicyFile_Save.
  destruct (Marshal policy) as [body|] eqn:Hb; cbn [fst snd hd].
  2: { split_and!; [|done|done]. intros d' c ->%list_elem_of_singleton Hc. left. f_equal.
       by apply settled_crash. }
  set (data := seal policyMagic body). pose proof (Load_sealed policy body Hb) as Hload. fold data in Hload.
  destruct (WriteDurable_crash fault tmp inode path data d Htmp Hfresh Hset) as (Hall & Hok & Herr).
  destruct (WriteDurable fault tmp inode path data d) as [err trace]. unfold final in *. cbn [fst snd] in *.
  split_and!.
  - intros d' c Hd' Hc. destruct (Hall d' c Hd' Hc) as [->| ->]; auto.
  - intros Hn. destruct err; [done|]. destruct (Hok eq_refl) as (Hr & Hs & _ & Hc).
    split_and!; [by rewrite Hr|done|]. intros c Hcr. by rewrite (Hc c Hcr).
  - intros e He Hne. destruct err as [s|]; [|done]. injection He as <-. apply (Herr s eq_refl). congruence.
Qed.

(** The policy file survives a crash at any point of a save.  Whatever step
    of [WriteDurable] fails, and at whatever moment the host crashes, loading
    the file afterwards gives what it gave before or the canonical form of the
    new policy, never a corrupt file; once [Save] has returned nil a crash
    leaves the new policy; and a save that fails before the directory sync
    leaves the old file in place. *)
Theorem PolicyFile_Save_crash_safe `{PolicyCodecLaws} fault tmp inode path policy d :
  tmp ≠ path → dEntries d !! path ≠ Some inode → settled d path →
  let r := PolicyFile_Save fault tmp inode path policy d in
  let old := PolicyFile_Load (ReadFile d path) in
  let new := Ok (Some (Canonical policy)) in
  (∀ d' c, d' ∈ r.2 → after_crash d' path c →
     PolicyFile_Load c = old ∨ PolicyFile_Load c = new) ∧
  (r.1 = None →
     PolicyFile_Load (ReadFile (hd d r.2) path) = new ∧ settled (hd d r.2) path ∧
     ∀ c, after_crash (hd d r.2) path c → PolicyFile_Load c = new) ∧
  (∀ e, r.1 = Some e → e ≠ ErrWrite WSyncDir → ReadFile (hd d r.2) path = ReadFile d path).
Proof. exact (PolicyFile_Save_crash fault tmp inode path policy d). Qed.


(** A codec to evaluate with: the code stdpp gives a policy, in binary. *)
Module BinaryCodec.
Fixpoint digits (fuel : nat) (n : Z) : bytestring :=
  match fuel with
  | O => []
  | S fuel => if decide (n = 0) then [] else n mod 256 :: digits fuel (n / 256)
  end.
Definition bits (p : positive) : bytestring := digits (Pos.size_nat p) (Z.pos p).
Definition unbits (l : bytestring) : positive := Z.to_pos (foldr (λ b n, b + 256 * n) 0 l).

Lemma digits_value fuel n : 0 ≤ n < 2 ^ Z.of_nat fuel → foldr (λ b n, b + 256 * n) 0 (digits fuel n) = n.
Proof.
  revert n. induction fuel as [|fuel IH]; intros n Hn; cbn [digits foldr]; [cbn in Hn; lia|].
  case_decide; [cbn; lia|]. cbn [foldr]. rewrite IH; [pose proof (Z.div_mod n 256); lia|].
  rewrite Nat2Z.inj_succ, Z.pow_succ_r in Hn by lia.
  split; [apply Z.div_pos; lia|]. apply Z.div_lt_upper_bound; lia.
Qed.

Lemma size_bound p : Z.pos p < 2 ^ Z.of_nat (Pos.size_nat p).
Proof.
  induction p as [p IH|p IH|]; cbn [Pos.size_nat];
    try rewrite Nat2Z.inj_succ, Z.pow_succ_r by lia; lia.
Qed.

Lemma unbits_bits p : unbits (bits p) = p.
Proof.
  unfold unbits, bits. rewrite digits_value; [apply Pos2Z.id|]. split; [lia|apply size_bound].
Qed.

#[global] Instance codec : PolicyCodec := {
  proto_Marshal p := Some (bits (encode p));
  proto_Unmarshal b := decode (unbits b);
}.

#[global] Instance codec_laws : PolicyCodecLaws.
Proof. split. intros p b [= <-]. cbn. by rewrite unbits_bits, decode_encode. Qed.
End BinaryCodec.

Definition emptyDisk : Disk := MkDisk ∅ ∅ ∅ ∅.

Lemma PolicyFile_Save_crash_safe_witness :
  PolicyFile_Load (ReadFile
    (hd emptyDisk (PolicyFile_Save None ".p" 0 "policy.bin" (Some policy_example) emptyDisk).2)
    "policy.bin") = Ok (Some (Canonical (Some policy_example))).
Proof.
  destruct (PolicyFile_Save_crash_safe None ".p" 0 "policy.bin" (Some policy_example) emptyDisk)
    as (_ & Hok & _).
  - discriminate.
  - unfold emptyDisk. cbn [dEntries]. rewrite lookup_empty. discriminate.
  - split; [reflexivity|]. unfold emptyDisk. cbn [dEntries]. intros i Hi.
    rewrite lookup_empty in Hi. discriminate Hi.
  - destruct Hok as [Hload _]; [reflexivity|exact Hload].
Defined.

(** ** The policy store interface ([store.go])

    What the sync loop relies on: an apply installs the canonical form of the
    policy, or fails and leaves the installed one as it was. *)
Class PolicyStore (St Er : Type) := {
  ps_Apply : option WorkloadPolicy → St → result Er unit * St;
  ps_Current : St → option WorkloadPolicy;
}.

Class PolicyStoreLaws (St Er : Type) `{PolicyStore St Er} : Prop := {
  ps_apply_ok p s s' : ps_Apply p s = (Ok (), s') → ps_Current s' = Some (Canonical p);
  ps_apply_err p s e s' : ps_Apply p s = (Err e, s') → ps_Current s' = ps_Current s;
}.

(** [MemoryStore], with its test hook. *)
Record MemoryStore (Er : Type) := MkMemoryStore {
  msCurrent : option WorkloadPolicy;
  msFail : option (option WorkloadPolicy → option Er);
}.
Arguments MkMemoryStore {_} _ _.
Arguments msCurrent {_} _.
Arguments msFail {_} _.

Definition MemoryStore_Apply {Er} (policy : option WorkloadPolicy) (m : MemoryStore Er)
  : result Er unit * MemoryStore Er :=
  match msFail m ≫= λ f, f policy with
  | Some e => (Err e, m)
  | None => (Ok (), MkMemoryStore (Some (Canonical policy)) (msFail m))
  end.

#[export] Instance memory_store {Er} : PolicyStore (MemoryStore Er) Er := {
  ps_Apply := MemoryStore_Apply;
  ps_Current := msCurrent;
}.

#[export] Instance memory_store_laws {Er} : PolicyStoreLaws (MemoryStore Er) Er.
Proof.
  split; cbn; unfold MemoryStore_Apply; intros p s; [intros s'|intros e s'];
    destruct (msFail s ≫= λ f, f p); intros Heq; by simplify_eq.
Qed.

(** ** The presence of the owned table ([presence.go])

    [known] is the last instant the table was known present, [None] for Go's
    zero time.  The calls to [Removed] and [Restored] are the events. *)
Record Presence := MkPresence { prKnown : option Z; prAbsent : bool }.

Inductive PresenceEvent := Removed (since : Z) | Restored (at_ : Z).

Definition restoredLocked (at_ : Z) (p : Presence) : Presence * list PresenceEvent :=
  if prAbsent p then (MkPresence (Some at_) false, [Restored at_])
  else (MkPresence (Some at_) false, []).

(** [Check] with what [Installed] says, what [Probe] returns ([None] for an
    error) and the instant read after it. *)
Definition Check (installed : bool) (probe : option bool) (now : Z) (p : Presence)
  : OwnedTableState * Presence * list PresenceEvent :=
  if negb installed then (OWNED_TABLE_STATE_UNSPECIFIED, p, [])
  else match probe with
       | None => (OWNED_TABLE_STATE_UNSPECIFIED, p, [])
       | Some true =>
           let '(p, evs) := restoredLocked now p in (OWNED_TABLE_STATE_PRESENT, p, evs)
       | Some false =>
           if prAbsent p then (OWNED_TABLE_STATE_ABSENT, p, [])
           else (OWNED_TABLE_STATE_ABSENT, MkPresence (prKnown p) true,
                 [Removed (default now (prKnown p))])
       end.

Definition MarkInstalled (at_ : Z) (p : Presence) : Presence * list PresenceEvent :=
  restoredLocked at_ p.

(** [Watched.Apply]: a successful apply is reported to the presence. *)
Definition Watched_Apply {St Er} `{PolicyStore St Er} (now : Z) (policy : option WorkloadPolicy)
    (s : St) (p : Presence) : result Er unit * St * Presence * list PresenceEvent :=
  match ps_Apply policy s with
  | (Err e, s') => (Err e, s', p, [])
  | (Ok _, s') => let '(p', evs) := MarkInstalled now p in (Ok (), s', p', evs)
  end.

(** The presence over time: checks and applies at instants that do not go
    back, with the events so far. *)
Inductive presence_run : Z → Presence → list PresenceEvent → Prop :=
| run_start t : presence_run t (MkPresence None false) []
| run_check t p evs installed probe now st p' evs' :
    presence_run t p evs → t ≤ now → Check installed probe now p = (st, p', evs') →
    presence_run now p' (evs ++ evs')
| run_installed t p evs now p' evs' :
    presence_run t p evs → t ≤ now → MarkInstalled now p = (p', evs') →
    presence_run now p' (evs ++ evs').

(** Removals and restorations alternate, from a removal, and each restoration
    is no earlier than its removal. *)
Fixpoint alternating (open_ : option Z) (evs : list PresenceEvent) : option (option Z) :=
  match evs with
  | [] => Some open_
  | Removed since :: evs' =>
      match open_ with Some _ => None | None => alternating (Some since) evs' end
  | Restored at_ :: evs' =>
      match open_ with
      | Some since => if decide (since ≤ at_) then alternating None evs' else None
      | None => None
      end
  end.

Lemma alternating_app open_ e1 e2 :
  alternating open_ (e1 ++ e2) = (o ← alternating open_ e1; alternating o e2).
Proof.
  revert open_. induction e1 as [|[since|at_] e1 IH]; intros open_; cbn; [done|..];
    destruct open_; try done; repeat case_decide; done || apply IH.
Qed.

Lemma presence_run_inv t p evs :
  presence_run t p evs →
  (∀ k, prKnown p = Some k → k ≤ t) ∧
  ∃ o, alternating None evs = Some o ∧ (prAbsent p = bool_decide (is_Some o)) ∧
       ∀ since, o = Some since → since ≤ t.
Proof.
  assert (∀ t p evs now p' evs', t ≤ now →
    (∀ k, prKnown p = Some k → k ≤ t) →
    (∃ o, alternating None evs = Some o ∧ (prAbsent p = bool_decide (is_Some o)) ∧
       ∀ since, o = Some since → since ≤ t) →
    restoredLocked now p = (p', evs') →
    (∀ k, prKnown p' = Some k → k ≤ now) ∧
    ∃ o, alternating None (evs ++ evs') = Some o ∧ (prAbsent p' = bool_decide (is_Some o)) ∧
       ∀ since, o = Some since → since ≤ now) as Hrest.
  { clear. intros t p evs now p' evs' Hle Hk (o & Ho & Ha & Hs) Hr. unfold restoredLocked in Hr.
    rewrite alternating_app, Ho. cbn [mbind option_bind]. rewrite Ha in Hr.
    destruct o as [since|]; cbn in Hr; injection Hr as <- <-; cbn;
      (split; [intros k [= <-]; lia|]); exists None.
    - rewrite decide_True by (specialize (Hs since eq_refl); lia). by split_and!.
    - by split_and!. }
  induction 1 as [t|t p evs installed probe now st p' evs' Hrun IH Hle Hc|t p evs now p' evs' Hrun IH Hle Hm].
  - split; [done|]. exists None. by split_and!.
  - destruct IH as [Hk (o & Ho & Ha & Hs)]. unfold Check in Hc.
    assert ((p, []) = (p', evs') → (∀ k, prKnown p' = Some k → k ≤ now) ∧
      ∃ o, alternating None (evs ++ evs') = Some o ∧ (prAbsent p' = bool_decide (is_Some o)) ∧
       ∀ since, o = Some since → since ≤ now) as Hsame.
    { intros [= <- <-]. rewrite app_nil_r. split; [intros k Hkk; specialize (Hk k Hkk); lia|].
      exists o. split_and!; [done|done|]. intros since Hss. specialize (Hs since Hss). lia. }
    destruct installed; cbn in Hc; [|apply Hsame; congruence].
    destruct probe as [[]|]; [| |apply Hsame; congruence].
    + destruct (restoredLocked now p) as [p1 evs1] eqn:Hr. injection Hc as _ <- <-.
      eapply Hrest; [exact Hle|exact Hk| |exact Hr]. eauto.
    + destruct (prAbsent p) eqn:Hap; [apply Hsame; congruence|]. injection Hc as _ <- <-.
      destruct o as [since|]; [done|]. cbn.
      split; [intros k Hkk; specialize (Hk k Hkk); lia|].
      exists (Some (default now (prKnown p))). rewrite alternating_app, Ho. cbn. split_and!; [done|done|].
      intros since [= <-]. destruct (prKnown p) as [k|]; cbn; [specialize (Hk k eq_refl)|]; lia.
  - destruct IH as [Hk Ho]. by eapply Hrest.
Qed.

(** The owned table's removals are reported as proper intervals.  Over any
    run of checks and applies in time order, [Removed] and [Restored] alternate
    starting with a removal, a restoration is never before the removal it ends,
    no reported instant lies in the future, and the presence believes the table
    absent exactly while a removal is open.  In particular one removal is
    reported once, however many heartbeats find the table gone. *)
Theorem presence_intervals t p evs :
  presence_run t p evs →
  ∃ o, alternating None evs = Some o ∧ prAbsent p = bool_decide (is_Some o) ∧
       (∀ since, o = Some since → since ≤ t).
Proof. intros Hr. by apply presence_run_inv in Hr as [_ ?]. Qed.

Lemma presence_intervals_witness :
  ∃ o, alternating None [Removed 3; Restored 9] = Some o ∧ false = bool_decide (is_Some o) ∧
       (∀ since, o = Some since → since ≤ 9).
Proof.
  apply (presence_intervals 9 (MkPresence (Some 9) false) [Removed 3; Restored 9]).
  eapply (run_check 7 (MkPresence (Some 3) true) [Removed 3] true (Some true) 9);
    [|lia|reflexivity].
  eapply (run_check 5 (MkPresence (Some 3) true) [Removed 3] true (Some false) 7);
    [|lia|reflexivity].
  eapply (run_check 3 (MkPresence (Some 3) false) [] true (Some false) 5); [|lia|reflexivity].
  eapply (run_installed 0 (MkPresence None false) [] 3); [constructor|lia|reflexivity].
Defined.
