(* ===== verification/MarksFile.v ===== *)
(** * The persisted mark allocation: [Save] and [loadAllocator] of
      [internal/agent/enforce/nft/allocator.go]

    The allocation is written as JSON under a magic line and a SHA-256 trailer.
    The text [encoding/json] gives a [marksFile] is the interface [MarksCodec];
    what is relied on is that ASCII rule ids survive it. *)

From S2P Require Import Prelude GoStd Netip Wire Rendered Sha256 NftAllocator Enforce.
From Stdlib Require Import Ascii.
Local Open Scope Z_scope.

Record marksRule := MkMarksRule { mrID : string; mrMark : Z; mrGeneration : Z }.
Record marksFile := MkMarksFile { mfNext : Z; mfGeneration : Z; mfRules : list marksRule }.

#[export] Instance marksRule_eq_dec : EqDecision marksRule.
Proof. solve_decision. Defined.
#[export] Instance marksFile_eq_dec : EqDecision marksFile.
Proof. solve_decision. Defined.

Definition ascii_text (s : string) : Prop :=
  Forall (λ c, N_of_ascii c < 128)%N (String.list_ascii_of_string s).

#[export] Instance ascii_text_dec s : Decision (ascii_text s).
Proof. unfold ascii_text. apply _. Defined.

(** [json.Marshal] and [json.Unmarshal] at [marksFile]. *)
Class MarksCodec := {
  json_Marshal : marksFile → option bytestring;
  json_Unmarshal : bytestring → option marksFile;
}.

Class MarksCodecLaws `{MarksCodec} : Prop := {
  json_roundtrip f b : Forall (λ r, ascii_text (mrID r)) (mfRules f) →
    json_Marshal f = Some b → json_Unmarshal b = Some f;
}.

Definition marksMagic : bytestring := string_bytes ("innerwall-marks-v1" +:+ bytes [10%N]).

(** [sort.Slice] by mark. *)
Definition mark_le (a b : marksRule) : Prop := mrMark a ≤ mrMark b.
#[export] Instance mark_le_dec : RelDecision mark_le.
Proof. intros a b. unfold mark_le. apply _. Defined.
#[export] Instance mark_le_trans : Transitive mark_le.
Proof. intros a b c. unfold mark_le. lia. Qed.
#[export] Instance mark_le_total : Total mark_le.
Proof. intros a b. unfold mark_le. lia. Qed.

Definition marks_file (a : Allocator) : marksFile :=
  MkMarksFile (alNext a) (alGen a)
    (merge_sort mark_le
      ((λ '(id, s), MkMarksRule id (slMark s) (slGen s)) <$> map_to_list (alByID a))).

Inductive MarksFileError :=
| MarksMarshal
| MarksWrite (s : WriteStep)
| ErrCorruptMarksFile.

(** The loop of [loadAllocator] over the rules of the file; [None] when one is
    inconsistent. *)
Fixpoint loadRules (rules : list marksRule) (a : Allocator) : option Allocator :=
  match rules with
  | [] => Some a
  | r :: rules' =>
      if decide (mrMark r < 1 ∨ alNext a ≤ mrMark r ∨ alGen a < mrGeneration r ∨
                 is_Some (alByID a !! mrID r) ∨ is_Some (alByMark a !! mrMark r)) then None
      else loadRules rules'
             (MkAllocator (alLimit a) (alNext a) (alGen a)
                (<[mrID r := MkSlot (mrMark r) (mrGeneration r)]> (alByID a))
                (<[mrMark r := mrID r]> (alByMark a)))
  end.

Section marks.
Context `{MarksCodec}.

(** [Allocator.Save]: the error, if any, and the disks on the way. *)
Definition Allocator_Save (fault : option WriteStep) (tmp : string) (inode : nat) (path : string)
    (a : Allocator) (d : Disk) : option MarksFileError * list Disk :=
  match json_Marshal (marks_file a) with
  | None => (Some MarksMarshal, [d])
  | Some body =>
      let r := WriteDurable fault tmp inode path (seal marksMagic body) d in
      (MarksWrite <$> r.1, r.2)
  end.

(** [loadAllocator] of the bytes a path holds; nothing when there is no file. *)
Definition loadAllocator (limit : Z) (data : option bytestring)
  : result MarksFileError (option Allocator) :=
  match data with
  | None => Ok None
  | Some data =>
      match unseal marksMagic data with
      | Err _ => Err ErrCorruptMarksFile
      | Ok body =>
          match json_Unmarshal body with
          | None => Err ErrCorruptMarksFile
          | Some f =>
              if decide (mfNext f < 1 ∨ u32 (limit + 1) < mfNext f) then Err ErrCorruptMarksFile
              else match loadRules (mfRules f) (MkAllocator limit (mfNext f) (mfGeneration f) ∅ ∅) with
                   | None => Err ErrCorruptMarksFile
                   | Some a => Ok (Some a)
                   end
          end
      end
  end.

Definition LoadAllocator : option bytestring → result MarksFileError (option Allocator) :=
  loadAllocator MaxRules.
End marks.

(** The allocation's rule ids are ASCII. *)
Definition alloc_ascii (a : Allocator) : Prop := ∀ id, is_Some (alByID a !! id) → ascii_text id.

(** ** Loading what was saved *)

Definition rule_of (p : string * slot) : marksRule := MkMarksRule p.1 (slMark p.2) (slGen p.2).

(** Loading rules with distinct ids and marks in range accumulates them. *)
Lemma loadRules_ok (l : list (string * slot)) (a : Allocator) :
  NoDup l.*1 → NoDup (slMark <$> l.*2) →
  (∀ id s, (id, s) ∈ l → 1 ≤ slMark s < alNext a ∧ slGen s ≤ alGen a ∧
     alByID a !! id = None ∧ alByMark a !! slMark s = None) →
  ∃ byID byMark,
    loadRules (rule_of <$> l) a = Some (MkAllocator (alLimit a) (alNext a) (alGen a) byID byMark) ∧
    (∀ id s, byID !! id = Some s ↔ (id, s) ∈ l ∨ alByID a !! id = Some s) ∧
    (∀ m id, byMark !! m = Some id ↔ (∃ s, (id, s) ∈ l ∧ slMark s = m) ∨ alByMark a !! m = Some id).
Proof.
  revert a. induction l as [|[id s] l IH]; intros a Hnd Hndm Hall.
  - exists (alByID a), (alByMark a). split; [by destruct a|].
    split; intros; split; auto; intros [H|H]; auto; [by apply elem_of_nil in H|].
    destruct H as (? & H & _). by apply elem_of_nil in H.
  - cbn [fmap list_fmap loadRules rule_of mrMark mrGeneration mrID fst snd] in *.
    apply NoDup_cons in Hnd as [Hid Hnd], Hndm as [Hm Hndm].
    destruct (Hall id s) as (Hr & Hg & Hi & Hmk); [by left|].
    rewrite decide_False. 2: { rewrite Hi, Hmk. intros [?|[?|[?|[[]|[]]]]]; done || lia. }
    replace (MkSlot (slMark s) (slGen s)) with s by (by destruct s).
    assert (∀ id' s', (id', s') ∈ l → id' ≠ id ∧ slMark s' ≠ slMark s) as Hne.
    { intros id' s' Hin. split.
      - intros ->. apply Hid. apply list_elem_of_fmap. by exists (id, s').
      - intros Heq. apply Hm. rewrite <-list_fmap_compose. apply list_elem_of_fmap. by exists (id', s'). }
    edestruct IH as (byID & byMark & -> & HI & HM); [exact Hnd|exact Hndm| |];
      cbn [alLimit alNext alGen alByID alByMark].
    + intros id' s' Hin. destruct (Hall id' s') as (? & ? & ? & ?); [by right|].
      destruct (Hne id' s' Hin). by rewrite !lookup_insert_ne by done.
    + exists byID, byMark. split; [done|]. split.
      * intros id' s'. rewrite HI. cbn. rewrite lookup_insert_Some, elem_of_cons.
        split; [|naive_solver]. intros [?|[[<- <-]|[_ ?]]]; auto.
      * intros m id'. rewrite HM. cbn. rewrite lookup_insert_Some. setoid_rewrite elem_of_cons. split.
        { intros [(s' & ? & <-)|[[<- <-]|[_ ?]]]; eauto. }
        { intros [(s' & [[= -> ->]|?] & <-)|?]; [by auto|by eauto|].
          right; right. split; [|done]. intros <-. congruence. }
Qed.

(** The rules of the file are the slots, in some order. *)
Lemma marks_file_rules a :
  ∃ l, mfRules (marks_file a) = rule_of <$> l ∧ l ≡ₚ map_to_list (alByID a).
Proof.
  unfold marks_file. cbn [mfRules].
  assert (((λ '(id, s), MkMarksRule id (slMark s) (slGen s)) <$> map_to_list (alByID a)) =
    rule_of <$> map_to_list (alByID a)) as -> by (apply list_fmap_ext; by intros ? []).
  pose proof (merge_sort_Permutation mark_le (rule_of <$> map_to_list (alByID a))) as Hp.
  apply Permutation_map_inv in Hp as (l & Hl & Hp). by exists l.
Qed.

Lemma alloc_marks_NoDup a : alloc_ok a → NoDup (slMark <$> (map_to_list (alByID a)).*2).
Proof.
  intros Hok. rewrite <-list_fmap_compose. apply NoDup_fmap_2_strong; [|apply NoDup_map_to_list].
  intros [id s] [id' s'] H1%elem_of_map_to_list H2%elem_of_map_to_list. cbn. intros Heq.
  assert (id = id') as <- by (by eapply alloc_ok_inj). congruence.
Qed.

Lemma load_marks_file `{MarksCodecLaws} a body :
  alloc_ok a → alloc_ascii a → json_Marshal (marks_file a) = Some body →
  loadAllocator (alLimit a) (Some (seal marksMagic body)) = Ok (Some a).
Proof.
  intros Hok Hasc Hb. unfold loadAllocator. rewrite unseal_seal.
  destruct (marks_file_rules a) as (l & Hl & Hp).
  erewrite json_roundtrip; [|..|exact Hb].
  2: { rewrite Hl, Forall_fmap, Forall_forall. intros [id s] Hin. cbn. apply Hasc.
       rewrite Hp, elem_of_map_to_list in Hin. eauto. }
  pose proof (ao_next _ Hok). pose proof (ao_limit _ Hok).
  cbn [mfNext mfGeneration marks_file]. rewrite u32_small by lia. rewrite decide_False by lia.
  fold (marks_file a). change (merge_sort _ _) with (mfRules (marks_file a)). rewrite Hl.
  destruct (loadRules_ok l (MkAllocator (alLimit a) (alNext a) (alGen a) ∅ ∅))
    as (byID & byMark & Heq & HI & HM).
  - rewrite Hp. apply NoDup_fst_map_to_list.
  - rewrite Hp. by apply alloc_marks_NoDup.
  - intros id s Hin. rewrite Hp, elem_of_map_to_list in Hin. cbn. rewrite !lookup_empty.
    destruct (ao_slot _ Hok _ _ Hin) as [Hm Hg]. split_and!; try lia; try done;
      assert (is_Some (alByMark a !! slMark s)) as Hd by eauto; apply (ao_dense _ Hok) in Hd; lia.
  - rewrite Heq. do 2 f_equal. destruct a as [lim nx gn bi bm]; cbn in *. f_equal.
    + apply map_eq. intros id. apply option_eq. intros s. rewrite HI, Hp, elem_of_map_to_list, lookup_empty.
      naive_solver.
    + apply map_eq. intros m. apply option_eq. intros id. rewrite HM, lookup_empty. split.
      * intros [(s & Hs & <-)|]; [|done]. rewrite Hp, elem_of_map_to_list in Hs.
        by apply (ao_slot _ Hok).
      * intros Hm. apply (ao_mark _ Hok) in Hm as (s & Hs & <-). left. exists s.
        by rewrite Hp, elem_of_map_to_list.
Qed.

(** The mark allocation survives a restart.  Whatever happens during [Save]
    of a consistent allocation, and whenever the host crashes, loading the file
    afterwards gives what it gave before or exactly the saved allocation; and
    once [Save] has returned nil, loading gives the saved allocation, so every
    rule has its value back. *)
Theorem Allocator_Save_load `{MarksCodecLaws} fault tmp inode path a d :
  alloc_ok a → alloc_ascii a →
  tmp ≠ path → dEntries d !! path ≠ Some inode → settled d path →
  let r := Allocator_Save fault tmp inode path a d in
  let load := loadAllocator (alLimit a) in
  (∀ d' c, d' ∈ r.2 → after_crash d' path c →
     load c = load (ReadFile d path) ∨ load c = Ok (Some a)) ∧
  (r.1 = None → ∀ c, c = ReadFile (hd d r.2) path ∨ after_crash (hd d r.2) path c → load c = Ok (Some a)).
Proof.
  intros Hok Hasc Htmp Hfresh Hset. cbn zeta. unfold Allocator_Save.
  destruct (json_Marshal (marks_file a)) as [body|] eqn:Hb; cbn [fst snd hd].
  2: { split; [|done]. intros d' c ->%list_elem_of_singleton Hc. left. f_equal. by apply settled_crash. }
  pose proof (load_marks_file a body Hok Hasc Hb) as Hload.
  destruct (WriteDurable_crash fault tmp inode path (seal marksMagic body) d Htmp Hfresh Hset)
    as (Hall & Hrun & _).
  destruct (WriteDurable fault tmp inode path (seal marksMagic body) d) as [err trace].
  unfold final in *. cbn [fst snd] in *. split.
  - intros d' c Hd' Hc. destruct (Hall d' c Hd' Hc) as [->| ->]; auto.
  - intros Hn. destruct err; [done|]. destruct (Hrun eq_refl) as (Hr & _ & _ & Hc).
    intros c [->|Hcr]; [by rewrite Hr|]. by rewrite (Hc c Hcr).
Qed.

(** A codec to evaluate with. *)
Module BinaryMarks.
Definition tuple (r : marksRule) : string * Z * Z := (mrID r, mrMark r, mrGeneration r).
Definition untuple (t : string * Z * Z) : marksRule := MkMarksRule t.1.1 t.1.2 t.2.

#[global] Instance codec : MarksCodec := {
  json_Marshal f := Some (BinaryCodec.bits (encode (mfNext f, mfGeneration f, tuple <$> mfRules f)));
  json_Unmarshal b :=
    (λ '(n, g, l), MkMarksFile n g (untuple <$> l)) <$>
      (decode (A := Z * Z * list (string * Z * Z)) (BinaryCodec.unbits b));
}.

#[global] Instance codec_laws : MarksCodecLaws.
Proof.
  split. intros [n g l] b _ [= <-]. cbn. rewrite BinaryCodec.unbits_bits, decode_encode. cbn.
  do 2 f_equal. rewrite <-list_fmap_compose. induction l as [|[id m gen] l IH]; [done|]. cbn. by rewrite IH.
Qed.
End BinaryMarks.

Lemma Allocator_Save_load_witness :
  ∃ out a, Allocate (newAllocator 3) (rules_policy ["a"; "b"]) None = Ok (out, a) ∧
    loadAllocator (alLimit a)
      (ReadFile (hd emptyDisk (Allocator_Save None ".m" 0 "marks" a emptyDisk).2) "marks") = Ok (Some a).
Proof.
  destruct (Allocate (newAllocator 3) (rules_policy ["a"; "b"]) None) as [[out a]|e] eqn:Hrun;
    [|exfalso; vm_compute in Hrun; discriminate Hrun].
  destruct (Allocate_ok (newAllocator 3) (rules_policy ["a"; "b"]) None out a) as (Hok & _).
  - apply newAllocator_ok. lia.
  - reflexivity.
  - exact Hrun.
  - destruct (Allocator_Save_load None ".m" 0 "marks" a emptyDisk) as [_ Hload].
    + exact Hok.
    + intros id Hid. destruct (Allocate_ids (newAllocator 3) (rules_policy ["a"; "b"]) None out a id)
        as [Hx|Hx].
      * apply newAllocator_ok. lia.
      * reflexivity.
      * exact Hrun.
      * exact Hid.
      * destruct Hx as [s Hs]. cbn in Hs. rewrite lookup_empty in Hs. discriminate Hs.
      * assert (Forall ascii_text (next_ids (rules_policy ["a"; "b"]))) as Hall
          by (apply (bool_decide_unpack _); vm_compute; exact I).
        rewrite Forall_forall in Hall. exact (Hall id Hx).
    + discriminate.
    + cbn [emptyDisk dEntries]. rewrite lookup_empty. discriminate.
    + split; [reflexivity|]. cbn [emptyDisk dEntries]. intros i Hi. rewrite lookup_empty in Hi. discriminate Hi.
    + exists out, a. split; [reflexivity|]. apply Hload; [reflexivity|]. left. reflexivity.
Defined.
