(* ===== verification/NftRender.v ===== *)
(** * The nftables rendering: [internal/agent/enforce/nft/render.go], [delta.go]

    [Render] and [RenderDelta] produce the text given to the nft tool, as the code
    writes it.  [tableOf] is the structure of that text, and [evalTable] what the
    kernel does with a packet under such a table, for the statements the code
    emits: the meaning against which the rendering is proved. *)

From S2P Require Import Prelude GoStd Netip Wire Rendered NftAllocator.
From Stdlib Require Import Ascii.
Local Open Scope Z_scope.

Definition nl : string := bytes [10%N].
Definition tab : string := bytes [9%N].
Definition dq : string := bytes [34%N].
(** A line indented by [n] tabs. *)
Definition line (n : nat) (s : string) : string := Nat.iter n (λ t, tab +:+ t) s +:+ nl.

Definition DefaultTable : string := "innerwall".
Definition DefaultNflogGroup : Z := 200.
Definition ChainName : string := "inbound".
Definition ObserveChainName : string := "observe".
Definition Priority : string := "filter + 10".
Definition LogPrefix : string := "innerwall ".

Record Options := MkOptions { optTable : string; optNflogGroup : Z }.
Definition opt_table (o : Options) : string := if decide (optTable o = "") then DefaultTable else optTable o.
Definition opt_group (o : Options) : Z :=
  if decide (optNflogGroup o = 0) then DefaultNflogGroup else optNflogGroup o.

(** [fmt]'s [0x%08x]. *)
Definition hex8 (x : Z) : string :=
  "0x" +:+ foldr (λ d s, String (hex_digit d) s) "" (to_be 16 8 x).

(** ** Sets *)

Definition set_char (c : ascii) : bool :=
  is_lower c || is_upper c || is_digit c || bool_decide (c = "_"%char).

(** A rune of Go's string iteration: the UTF-8 sequence [s] starts with, or one
    invalid byte. *)
Definition byte_in (lo hi : N) (c : ascii) : bool := bool_decide (lo ≤ N_of_ascii c ≤ hi)%N.
Definition cont (c : ascii) : bool := byte_in 0x80 0xbf c.

Definition rune_len (s : string) : nat :=
  match s with
  | String a (String b s2) =>
      if byte_in 0xc2 0xdf a && cont b then 2
      else match s2 with
           | String c s3 =>
               if (byte_in 0xe0 0xe0 a && byte_in 0xa0 0xbf b || byte_in 0xe1 0xec a && cont b ||
                   byte_in 0xed 0xed a && byte_in 0x80 0x9f b || byte_in 0xee 0xef a && cont b) && cont c
               then 3
               else match s3 with
                    | String d _ =>
                        if (byte_in 0xf0 0xf0 a && byte_in 0x90 0xbf b || byte_in 0xf1 0xf3 a && cont b ||
                            byte_in 0xf4 0xf4 a && byte_in 0x80 0x8f b) && cont c && cont d
                        then 4 else 1
                    | "" => 1
                    end
           | "" => 1
           end
  | _ => 1
  end%nat.

(** The loop of [SetName] over the runes; the length of the text bounds their
    number. *)
Fixpoint set_chars (fuel : nat) (s : string) : string :=
  match fuel, s with
  | S fuel', String c _ =>
      let n := rune_len s in
      String (if set_char c then c else "_"%char)
        (set_chars fuel' (String.substring n (String.length s - n) s))
  | _, _ => ""
  end.

Definition SetName (ruleID : string) (v6 : bool) : string :=
  "r_" +:+ set_chars (String.length ruleID) ruleID +:+ (if v6 then "_v6" else "_v4").

(** [splitPeers]: by family, sorted. *)
Definition is_v6 (c : string) : bool := contains_byte ":" c.
Definition is_v4 (c : string) : bool := negb (contains_byte ":" c) && contains_byte "." c.

Definition splitPeers (cidrs : list string) : list string * list string :=
  (merge_sort String.le (filter (λ c, is_v4 c = true) cidrs),
   merge_sort String.le (filter (λ c, is_v6 c = true) cidrs)).

Definition writeSet (name kind : string) (elements : list string) : string :=
  line 1 ("set " +:+ name +:+ " {") +:+ line 2 ("type " +:+ kind) +:+ line 2 "flags interval" +:+
  (if decide (elements = []) then "" else line 2 ("elements = { " +:+ Join elements ", " +:+ " }")) +:+
  line 1 "}".

(** ** Matches *)

Definition ports (proto : string) (ranges : list PortRange) : string :=
  match ranges with
  | [] => "meta l4proto " +:+ proto
  | _ => proto +:+ " dport { " +:+
         Join ((λ p, if decide (prStart p = prEnd p) then FormatInt (prStart p)
                     else FormatInt (prStart p) +:+ "-" +:+ FormatInt (prEnd p)) <$> ranges) ", " +:+ " }"
  end.

(** [l4Match]: the match for each family. *)
Definition l4Match (r : ResolvedRule) (v6 : bool) : string :=
  match rrProtocol r with
  | PROTOCOL_TCP => ports "tcp" (rrPorts r)
  | PROTOCOL_UDP => ports "udp" (rrPorts r)
  | PROTOCOL_ICMP => if v6 then "meta l4proto ipv6-icmp" else "meta l4proto icmp"
  | PROTOCOL_UNSPECIFIED | Protocol_unrecognized _ => "meta l4proto 255"
  end.

Definition family (v6 : bool) : string := if v6 then "ip6" else "ip".

(** The two accepts of [writeAdmit]. *)
Definition admitUntracked (v6 : bool) (set match_ ruleID : string) : string :=
  line 2 (family v6 +:+ " saddr @" +:+ set +:+ " " +:+ match_ +:+
          " ct state untracked accept comment " +:+ dq +:+ "innerwall rule " +:+ ruleID +:+ " untracked" +:+ dq).
Definition admitMark (v6 : bool) (set match_ ruleID : string) (index : Z) : string :=
  line 2 (family v6 +:+ " saddr @" +:+ set +:+ " " +:+ match_ +:+
          " ct mark set (ct mark & " +:+ hex8 ForeignMask +:+ ") | " +:+ hex8 (RuleMark index) +:+
          " accept comment " +:+ dq +:+ "innerwall rule " +:+ ruleID +:+ " mark " +:+ FormatInt index +:+ dq).

Definition writeAdmit (v6 : bool) (set match_ ruleID : string) (index : Z) : string :=
  admitUntracked v6 set match_ ruleID +:+ admitMark v6 set match_ ruleID index.

(** ** Scripts *)

Definition carriesSets (mode : EnforcementMode) : bool :=
  match mode with
  | ENFORCEMENT_MODE_ENFORCED | ENFORCEMENT_MODE_SIMULATION => true
  | ENFORCEMENT_MODE_VISIBILITY | ENFORCEMENT_MODE_UNSPECIFIED | EnforcementMode_unrecognized _ => false
  end.

Inductive RenderError := ErrUnallocatedRule (id : string).

(** The declaration, deletion and recreation of the table. *)
Definition replaceTable (opts : Options) : string :=
  line 0 ("table inet " +:+ opt_table opts +:+ " {}") +:+
  line 0 ("delete table inet " +:+ opt_table opts) +:+
  line 0 ("table inet " +:+ opt_table opts +:+ " {").

Definition chainHead (name : string) : string :=
  line 1 ("chain " +:+ name +:+ " {") +:+
  line 2 ("type filter hook input priority " +:+ Priority +:+ "; policy accept;").

Definition observeChain : string :=
  chainHead ObserveChainName +:+
  line 2 ("ct state new counter accept comment " +:+ dq +:+ "innerwall observation visibility" +:+ dq) +:+
  line 1 "}" +:+ line 0 "}".

Definition ruleSets (r : ResolvedRule) : string :=
  let '(v4, v6) := splitPeers (rrPeerCidrs r) in
  writeSet (SetName (rrRuleId r) false) "ipv4_addr" v4 +:+
  writeSet (SetName (rrRuleId r) true) "ipv6_addr" v6.

Definition ruleAdmits (marks : gmap string Z) (r : ResolvedRule) : string :=
  let index := default 0 (marks !! rrRuleId r) in
  writeAdmit false (SetName (rrRuleId r) false) (l4Match r false) (rrRuleId r) index +:+
  writeAdmit true (SetName (rrRuleId r) true) (l4Match r true) (rrRuleId r) index.

Definition terminal (mode : EnforcementMode) (opts : Options) : string :=
  match mode with
  | ENFORCEMENT_MODE_ENFORCED =>
      line 2 ("log prefix " +:+ dq +:+ LogPrefix +:+ dq +:+ " group " +:+ FormatInt (opt_group opts) +:+
              " drop comment " +:+ dq +:+ "innerwall terminal enforced" +:+ dq)
  | ENFORCEMENT_MODE_SIMULATION =>
      line 2 ("log prefix " +:+ dq +:+ LogPrefix +:+ dq +:+ " group " +:+ FormatInt (opt_group opts) +:+
              " counter ct mark set (ct mark & " +:+ hex8 ForeignMask +:+ ") | " +:+ hex8 WouldBlockMark +:+
              " accept comment " +:+ dq +:+ "innerwall terminal simulation" +:+ dq)
  | _ => ""
  end.

Fixpoint concat_map {A} (f : A → string) (l : list A) : string :=
  match l with [] => "" | x :: l' => f x +:+ concat_map f l' end.

(** The first rule the allocation gives no usable value. *)
Definition unallocated (marks : gmap string Z) (r : ResolvedRule) : Prop :=
  match marks !! rrRuleId r with
  | None => True
  | Some m => m = 0 ∨ WouldBlockIndex ≤ m
  end.
#[export] Instance unallocated_dec marks r : Decision (unallocated marks r).
Proof. unfold unallocated. destruct (marks !! rrRuleId r); apply _. Defined.

Definition Render (policy : option WorkloadPolicy) (marks : gmap string Z) (opts : Options)
  : result RenderError string :=
  let policy := Canonical policy in
  if negb (carriesSets (wpMode policy)) then Ok (replaceTable opts +:+ observeChain)
  else
    let rules := wpInboundRules policy in
    match filter (unallocated marks) rules with
    | r :: _ => Err (ErrUnallocatedRule (rrRuleId r))
    | [] =>
        Ok (replaceTable opts +:+ concat_map ruleSets rules +:+ chainHead ChainName +:+
            line 2 ("iif " +:+ dq +:+ "lo" +:+ dq +:+ " accept") +:+
            line 2 "ct state established,related accept" +:+
            concat_map (ruleAdmits marks) rules +:+ terminal (wpMode policy) opts +:+
            line 1 "}" +:+ line 0 "}")
    end.

Definition RenderTeardown (opts : Options) : string :=
  line 0 ("table inet " +:+ opt_table opts +:+ " {}") +:+ line 0 ("delete table inet " +:+ opt_table opts).

(** ** Deltas *)

Definition writeElements (verb table : string) (pc : PeerChange) : string :=
  let '(v4, v6) := splitPeers (pcPeerCidrs pc) in
  (if decide (v4 = []) then "" else
     line 0 (verb +:+ " element inet " +:+ table +:+ " " +:+ SetName (pcRuleId pc) false +:+ " { " +:+
             Join v4 ", " +:+ " }")) +:+
  (if decide (v6 = []) then "" else
     line 0 (verb +:+ " element inet " +:+ table +:+ " " +:+ SetName (pcRuleId pc) true +:+ " { " +:+
             Join v6 ", " +:+ " }")).

Fixpoint deltaScript (table : string) (chs : list DeltaChange) : option string :=
  match chs with
  | [] => Some ""
  | AddPeers pc :: chs' => s ← deltaScript table chs'; Some (writeElements "add" table pc +:+ s)
  | RemovePeers pc :: chs' => s ← deltaScript table chs'; Some (writeElements "delete" table pc +:+ s)
  | _ => None
  end.

Definition RenderDelta (from to : option WorkloadPolicy) (opts : Options) : option string :=
  if negb (carriesSets (GetMode from)) || negb (carriesSets (GetMode to)) then None
  else match Diff from to with
       | [] => None
       | changes => deltaScript (opt_table opts) changes
       end.

(** ** The structure of a table *)

Inductive Statement :=
| SLoopback
| SEstablished
| SAdmitUntracked (v6 : bool) (r : ResolvedRule)
| SAdmitMark (v6 : bool) (r : ResolvedRule) (index : Z)
| SDrop
| SWouldBlock
| SObserve.

Record Table := MkTable {
  tSets : list (string * list string);
  tChain : list Statement;
}.

Definition setsOf (r : ResolvedRule) : list (string * list string) :=
  let '(v4, v6) := splitPeers (rrPeerCidrs r) in
  [(SetName (rrRuleId r) false, v4); (SetName (rrRuleId r) true, v6)].

Definition admitsOf (marks : gmap string Z) (r : ResolvedRule) : list Statement :=
  let index := default 0 (marks !! rrRuleId r) in
  [SAdmitUntracked false r; SAdmitMark false r index; SAdmitUntracked true r; SAdmitMark true r index].

Definition terminalOf (mode : EnforcementMode) : list Statement :=
  match mode with
  | ENFORCEMENT_MODE_ENFORCED => [SDrop]
  | ENFORCEMENT_MODE_SIMULATION => [SWouldBlock]
  | _ => []
  end.

(** The table the script of a canonical policy installs. *)
Definition tableOf (p : WorkloadPolicy) (marks : gmap string Z) : Table :=
  if carriesSets (wpMode p) then
    MkTable (wpInboundRules p ≫= setsOf)
      ([SLoopback; SEstablished] ++ (wpInboundRules p ≫= admitsOf marks) ++ terminalOf (wpMode p))
  else MkTable [] [SObserve].

(** The text of a table. *)
Definition printStatement (opts : Options) (s : Statement) : string :=
  match s with
  | SLoopback => line 2 ("iif " +:+ dq +:+ "lo" +:+ dq +:+ " accept")
  | SEstablished => line 2 "ct state established,related accept"
  | SAdmitUntracked v6 r => admitUntracked v6 (SetName (rrRuleId r) v6) (l4Match r v6) (rrRuleId r)
  | SAdmitMark v6 r index => admitMark v6 (SetName (rrRuleId r) v6) (l4Match r v6) (rrRuleId r) index
  | SDrop => terminal ENFORCEMENT_MODE_ENFORCED opts
  | SWouldBlock => terminal ENFORCEMENT_MODE_SIMULATION opts
  | SObserve =>
      line 2 ("ct state new counter accept comment " +:+ dq +:+ "innerwall observation visibility" +:+ dq)
  end.

(** Sets come in pairs, the IPv4 one first. *)
Fixpoint printSets (sets : list (string * list string)) : string :=
  match sets with
  | (n4, e4) :: (n6, e6) :: sets' =>
      writeSet n4 "ipv4_addr" e4 +:+ writeSet n6 "ipv6_addr" e6 +:+ printSets sets'
  | _ => ""
  end.

Definition printTable (opts : Options) (chain : string) (t : Table) : string :=
  replaceTable opts +:+ printSets (tSets t) +:+ chainHead chain +:+
  concat_map (printStatement opts) (tChain t) +:+ line 1 "}" +:+ line 0 "}".

(** ** What the kernel does with a packet

    A packet on the input hook, its connection-tracking state and mark.  An
    accepted packet carries the mark its connection then has. *)

Inductive CtState := CtNew | CtEstablished | CtUntracked.

#[export] Instance CtState_eq_dec : EqDecision CtState.
Proof. solve_decision. Defined.

Record Packet := MkPacket {
  pkLoopback : bool;
  pkState : CtState;
  pkSrc : Addr;
  pkProto : Protocol;
  pkPort : Z;
  pkMark : Z;
}.

Inductive Verdict := Accepted (mark : Z) | Dropped.

(** The mark write: the foreign bits are kept. *)
Definition setRegion (mark region : Z) : Z := Z.lor (Z.land mark ForeignMask) region.

Definition setHas (t : Table) (set : string) (src : Addr) : bool :=
  match list_find (λ s, s.1 = set) (tSets t) with
  | Some (_, s) => existsb (peerCovers src) s.2
  | None => false
  end.

Definition l4Matches (pk : Packet) (proto : Protocol) (prs : list PortRange) : bool :=
  match proto with
  | PROTOCOL_TCP | PROTOCOL_UDP =>
      bool_decide (pkProto pk = proto) && (bool_decide (prs = []) || existsb (portCovers (pkPort pk)) prs)
  | PROTOCOL_ICMP => bool_decide (pkProto pk = PROTOCOL_ICMP)
  | PROTOCOL_UNSPECIFIED | Protocol_unrecognized _ => false
  end.

Definition admits (t : Table) (pk : Packet) (v6 : bool) (r : ResolvedRule) : bool :=
  bool_decide (Is6 (pkSrc pk) = v6) && setHas t (SetName (rrRuleId r) v6) (pkSrc pk) &&
  l4Matches pk (rrProtocol r) (rrPorts r).

(** A statement decides the packet, or the next one is tried.  A mark write on
    an untracked packet ends its rule before the verdict. *)
Definition evalStatement (t : Table) (pk : Packet) (s : Statement) : option Verdict :=
  match s with
  | SLoopback => if pkLoopback pk then Some (Accepted (pkMark pk)) else None
  | SEstablished => match pkState pk with CtEstablished => Some (Accepted (pkMark pk)) | _ => None end
  | SAdmitUntracked v6 r =>
      match pkState pk with
      | CtUntracked => if admits t pk v6 r then Some (Accepted (pkMark pk)) else None
      | _ => None
      end
  | SAdmitMark v6 r index =>
      match pkState pk with
      | CtUntracked => None
      | _ => if admits t pk v6 r
             then Some (Accepted (setRegion (pkMark pk) (RuleMark index))) else None
      end
  | SDrop => Some Dropped
  | SWouldBlock => match pkState pk with
                   | CtUntracked => None
                   | _ => Some (Accepted (setRegion (pkMark pk) WouldBlockMark))
                   end
  | SObserve => match pkState pk with CtNew => Some (Accepted (pkMark pk)) | _ => None end
  end.

Fixpoint evalChain (t : Table) (pk : Packet) (c : list Statement) : Verdict :=
  match c with
  | [] => Accepted (pkMark pk)
  | s :: c' => default (evalChain t pk c') (evalStatement t pk s)
  end.

Definition evalTable (t : Table) (pk : Packet) : Verdict := evalChain t pk (tChain t).

(** ** Peers and families *)

Lemma addr_kind_contains s c : addr_kind s = Some c → contains_byte c s = true.
Proof.
  induction s as [|d s IH]; cbn; [done|]. repeat case_match; intros Heq; simplify_eq; auto;
    try (by rewrite decide_True); try (by case_decide; auto).
Qed.

Lemma no_colon_small n : 0 ≤ n < 256 → contains_byte ":" (FormatInt n) = false.
Proof.
  intros Hn. pose (P m := negb (contains_byte ":" (FormatInt m))).
  assert (P n = true) as HP by (apply (upto P 256); [vm_compute; reflexivity|done]).
  unfold P in HP. by apply negb_true_iff in HP.
Qed.

Lemma no_colon_string4 a : contains_byte ":" (string4 a) = false.
Proof.
  destruct (octets_inv a) as (p & q & r & s & Ho & Hp & Hq & Hr & Hs).
  rewrite (string4_eq _ _ _ _ _ Ho).
  repeat (rewrite contains_byte_app, no_colon_small by done; cbn). by rewrite no_colon_small.
Qed.

Lemma Prefix_String_family p :
  Prefix_ok p →
  is_v6 (Prefix_String p) = Is6 (pAddr p) ∧ is_v4 (Prefix_String p) = Is4 (pAddr p).
Proof.
  destruct p as [x b]. intros (Hok & Hz & Hzone & Hb). cbn in *. unfold is_v6, is_v4, Prefix_String.
  cbn [pAddr pBits]. rewrite !contains_byte_app.
  assert (contains_byte ":" ("/" +:+ FormatInt b) = false) as Hbits.
  { cbn. apply no_colon_small. destruct x; cbn in Hb; lia. }
  destruct x as [|a|a z]; [done|..]; cbn [Addr_String Is6 Is4].
  - rewrite no_colon_string4, contains_byte_app in *. rewrite Hbits.
    by rewrite (addr_kind_contains _ _ (addr_kind_string4 a)).
  - assert (contains_byte ":" (Addr_String (Addr6 a z)) = true) as Hc.
    { injection Hzone as <-. cbn [Addr_String]. destruct (mapped a); [done|].
      by apply addr_kind_contains, addr_kind_with_zone, addr_kind_string6. }
    cbn [Addr_String] in Hc. rewrite Hc. done.
Qed.

(** A canonical peer that covers a source is of the source's family. *)
Lemma peer_family src c :
  NormalizeCIDR c = c → peerCovers src c = true → is_v6 c = Is6 src ∧ is_v4 c = Is4 src.
Proof.
  intros Hn Hc.
  assert (∃ p, Prefix_ok p ∧ c = Prefix_String p) as (p & Hok & ->).
  { rewrite <-Hn. unfold NormalizeCIDR. unfold peerCovers, peerPrefix in Hc.
    destruct (ParsePrefix (TrimSpace c)) as [p|] eqn:Hp.
    - exists (Masked p). split; [|done]. by eapply Masked_ok, ParsePrefix_ok.
    - destruct (ParseAddr (TrimSpace c)) as [x|] eqn:Hx; [|done].
      apply ParseAddr_ok in Hx as [Hok Hz]. destruct (HostRoute_prefix x Hok Hz) as (p & _ & -> & ? & _).
      eauto. }
  rewrite peerCovers_prefix in Hc by done. destruct (Prefix_String_family p Hok) as [-> ->].
  unfold Contains in Hc. by destruct (pAddr p), src.
Qed.

Lemma splitPeers_covers src peers :
  (∀ c, c ∈ peers → NormalizeCIDR c = c) → src ≠ AddrZero →
  let '(v4, v6) := splitPeers peers in
  existsb (peerCovers src) (if Is6 src then v6 else v4) = existsb (peerCovers src) peers.
Proof.
  intros Hn Hz. cbn. apply existsb_ext_elem; intros c Hc Hcov; exists c; split; try done.
  - destruct (Is6 src); rewrite merge_sort_Permutation, list_elem_of_filter in Hc; tauto.
  - destruct (peer_family src c (Hn c Hc) Hcov) as [H6 H4].
    destruct src as [|a|a z]; [done|..]; cbn [Is6 Is4] in *;
      rewrite merge_sort_Permutation, list_elem_of_filter; done.
Qed.

(** ** Finding sets *)

(** Sets are found by their names when the names are distinct. *)
Definition names_distinct (rules : list ResolvedRule) : Prop :=
  NoDup ((rules ≫= setsOf).*1).

Lemma list_find_key (l : list (string * list string)) x :
  NoDup l.*1 → x ∈ l → ∃ i, list_find (λ s, s.1 = x.1) l = Some (i, x).
Proof.
  intros Hnd Hx. apply list_elem_of_lookup in Hx as [i Hi]. exists i. apply list_find_Some.
  split_and!; [done|done|]. intros j y Hj Hlt Heq.
  assert (i = j); [|lia]. eapply NoDup_lookup; [exact Hnd| |]; rewrite list_lookup_fmap;
    [rewrite Hi|rewrite Hj]; cbn; [reflexivity|by rewrite Heq].
Qed.

Lemma setHas_rule p marks r src :
  carriesSets (wpMode p) = true → names_distinct (wpInboundRules p) → r ∈ wpInboundRules p →
  canonicalRule r = r → src ≠ AddrZero →
  setHas (tableOf p marks) (SetName (rrRuleId r) (Is6 src)) src =
  existsb (peerCovers src) (rrPeerCidrs r).
Proof.
  intros Hc Hnd Hr Hcan Hz. unfold setHas, tableOf. rewrite Hc. cbn [tSets].
  pose proof (splitPeers_covers src (rrPeerCidrs r)) as Hcov.
  destruct (splitPeers (rrPeerCidrs r)) as [v4 v6] eqn:Hsp.
  assert ((SetName (rrRuleId r) (Is6 src), if Is6 src then v6 else v4) ∈ wpInboundRules p ≫= setsOf) as Hin.
  { apply list_elem_of_bind. exists r. split; [|done]. unfold setsOf. rewrite Hsp.
    destruct (Is6 src); set_solver. }
  destruct (list_find_key _ _ Hnd Hin) as [i Hf]. cbn [fst] in Hf. rewrite Hf. cbn [snd].
  apply Hcov; [|done]. intros c. apply canonicalCIDRs_fixed. by apply canonical_rule_peers.
Qed.

(** ** The verdict of a table *)

Section verdict.
Context (p : WorkloadPolicy) (marks : gmap string Z) (pk : Packet).
Hypothesis Hsets : carriesSets (wpMode p) = true.
Hypothesis Hnames : names_distinct (wpInboundRules p).
Hypothesis Hcan : Forall (λ r, canonicalRule r = r) (wpInboundRules p).
Hypothesis Hicmp : Forall (λ r, rrProtocol r = PROTOCOL_ICMP → rrPorts r = []) (wpInboundRules p).
Hypothesis Hsrc : pkSrc pk ≠ AddrZero.
Hypothesis Hproto : pkProto pk = PROTOCOL_TCP ∨ pkProto pk = PROTOCOL_UDP ∨ pkProto pk = PROTOCOL_ICMP.
Hypothesis Hlo : pkLoopback pk = false.
Hypothesis Hnew : pkState pk ≠ CtEstablished.

Definition pkPermitted (r : ResolvedRule) : bool := rulePermits (pkSrc pk) (pkProto pk) (pkPort pk) r.

Lemma admits_permits r v6 :
  r ∈ wpInboundRules p →
  admits (tableOf p marks) pk v6 r = bool_decide (Is6 (pkSrc pk) = v6) && pkPermitted r.
Proof.
  intros Hr. unfold admits, pkPermitted, rulePermits.
  destruct (decide (Is6 (pkSrc pk) = v6)) as [<-|Hne]; [|by rewrite bool_decide_eq_false_2].
  rewrite bool_decide_eq_true_2 by done. cbn [andb].
  rewrite Forall_forall in Hcan, Hicmp. rewrite setHas_rule by auto.
  rewrite andb_comm. f_equal. unfold l4Matches.
  destruct (rrProtocol r) eqn:Hp.
  - rewrite bool_decide_eq_false_2; [done|]. intros E. rewrite <-E in Hproto. naive_solver.
  - by rewrite (bool_decide_ext (pkProto pk = PROTOCOL_TCP) (PROTOCOL_TCP = pkProto pk)) by done.
  - by rewrite (bool_decide_ext (pkProto pk = PROTOCOL_UDP) (PROTOCOL_UDP = pkProto pk)) by done.
  - rewrite (Hicmp r Hr Hp). rewrite (bool_decide_eq_true_2 ([] = [])) by done. cbn [orb].
    rewrite andb_true_r. by apply bool_decide_ext.
  - rewrite bool_decide_eq_false_2; [done|]. intros E. rewrite <-E in Hproto. naive_solver.
Qed.

(** The mark an admitted packet's connection is left with. *)
Definition admittedMark (r : ResolvedRule) : Z :=
  match pkState pk with
  | CtUntracked => pkMark pk
  | _ => setRegion (pkMark pk) (RuleMark (default 0 (marks !! rrRuleId r)))
  end.

Lemma eval_admits rules rest :
  (∀ r, r ∈ rules → r ∈ wpInboundRules p) →
  evalChain (tableOf p marks) pk ((rules ≫= admitsOf marks) ++ rest) =
  match head (filter (λ r, pkPermitted r = true) rules) with
  | Some r => Accepted (admittedMark r)
  | None => evalChain (tableOf p marks) pk rest
  end.
Proof.
  induction rules as [|r rules IH]; intros Hin; [done|].
  assert (r ∈ wpInboundRules p) as Hr by (apply Hin; left).
  rewrite bind_cons, <-app_assoc. unfold admitsOf at 1. cbn [app evalChain evalStatement].
  rewrite !admits_permits by done. rewrite filter_cons.
  assert (∀ r', r' ∈ rules → r' ∈ wpInboundRules p) as Hin' by (intros; apply Hin; by right).
  specialize (IH Hin'). destruct (pkPermitted r) eqn:Hp.
  - rewrite decide_True by done. cbn [head]. unfold admittedMark.
    destruct (pkState pk), (Is6 (pkSrc pk)); done.
  - rewrite decide_False by done. rewrite <-IH, !andb_false_r. by destruct (pkState pk).
Qed.

Lemma permits_find rules :
  head (filter (λ r, pkPermitted r = true) rules) = None ↔ existsb pkPermitted rules = false.
Proof.
  rewrite <-not_true_iff_false, existsb_exists. setoid_rewrite <-list_elem_of_In.
  destruct (filter _ rules) as [|r l] eqn:Hf.
  - split; [|done]. intros _ (r & Hr & Hp). rewrite filter_nil_iff in Hf. by apply (Hf r).
  - split; [done|]. intros Hn. destruct Hn. exists r.
    assert (r ∈ filter (λ r, pkPermitted r = true) rules) as Hr by (rewrite Hf; left).
    apply list_elem_of_filter in Hr. tauto.
Qed.
End verdict.

(** ** The script of a table *)

Lemma concat_map_app {A} (f : A → string) l1 l2 :
  concat_map f (l1 ++ l2) = concat_map f l1 +:+ concat_map f l2.
Proof. induction l1 as [|x l1 IH]; [done|]. cbn. by rewrite IH, str_app_assoc. Qed.

Lemma print_sets rules : printSets (rules ≫= setsOf) = concat_map ruleSets rules.
Proof.
  induction rules as [|r rules IH]; [done|]. rewrite bind_cons. cbn [concat_map].
  unfold ruleSets, setsOf at 1. destruct (splitPeers (rrPeerCidrs r)) as [v4 v6].
  cbn [app printSets]. by rewrite IH, str_app_assoc.
Qed.

Lemma print_admits opts marks rules :
  concat_map (printStatement opts) (rules ≫= admitsOf marks) = concat_map (ruleAdmits marks) rules.
Proof.
  induction rules as [|r rules IH]; [done|]. rewrite bind_cons, concat_map_app, IH. cbn [concat_map].
  f_equal. unfold ruleAdmits, admitsOf, writeAdmit. cbn [concat_map printStatement].
  by autorewrite with gostr.
Qed.

Lemma Render_prints policy marks opts s :
  Render policy marks opts = Ok s →
  s = printTable opts (if carriesSets (wpMode (Canonical policy)) then ChainName else ObserveChainName)
        (tableOf (Canonical policy) marks) ∧
  (carriesSets (wpMode (Canonical policy)) = true →
   Forall (λ r, ¬ unallocated marks r) (wpInboundRules (Canonical policy))).
Proof.
  unfold Render. destruct (carriesSets (wpMode (Canonical policy))) eqn:Hc; cbn [negb].
  - destruct (filter (unallocated marks) _) as [|r l] eqn:Hf; [|done]. intros Hs.
    match type of Hs with Ok ?a = _ => assert (s = a) as -> by congruence end. split.
    + unfold printTable, tableOf. rewrite Hc. cbn [tSets tChain]. rewrite print_sets.
      rewrite !concat_map_app, print_admits. cbn [concat_map].
      assert (concat_map (printStatement opts) (terminalOf (wpMode (Canonical policy))) =
        terminal (wpMode (Canonical policy)) opts) as ->.
      { destruct (wpMode (Canonical policy)); try done; cbn [terminalOf concat_map];
          by rewrite str_app_nil_r. }
      rewrite str_app_nil_r, !str_app_assoc. reflexivity.
    + intros _. apply Forall_forall. rewrite filter_nil_iff in Hf. exact Hf.
  - intros Hs. match type of Hs with Ok ?a = _ => assert (s = a) as -> by congruence end.
    split; [|done]. unfold printTable, tableOf, observeChain. rewrite Hc.
    cbn [tSets tChain printSets concat_map]. rewrite !str_app_assoc. reflexivity.
Qed.


(** A policy as admission makes it, and the values of its rules. *)
Module RenderExample.
Definition policy : WorkloadPolicy :=
  MkWorkloadPolicy 3 ENFORCEMENT_MODE_SIMULATION
    [MkResolvedRule "a/tcp" ["10.0.0.0/8"; "2001:db8::/32"] PROTOCOL_TCP [MkPortRange 443 443];
     MkResolvedRule "b/icmp" ["192.0.2.7/32"] PROTOCOL_ICMP []].
Definition marks : gmap string Z := {["a/tcp" := 1; "b/icmp" := 2]}.
Definition opts : Options := MkOptions "" 0.
(** From 10.0.0.1 and from 192.0.2.8. *)
Definition packet (src : Z) : Packet :=
  MkPacket false CtNew (Addr4 src) PROTOCOL_TCP 443 0x1234.
End RenderExample.

