(* ===== verification/NftDelta.v ===== *)
(** * Set updates in place of a full rendering: [internal/agent/enforce/nft/delta.go]

    [RenderDelta] is defined with the rendering; here its script is read as the
    element commands it consists of, and running them on the table of the old
    policy is proved to give a table that treats every packet as the full
    rendering of the new policy does. *)

From S2P Require Import Prelude GoStd Netip Wire Rendered NftAllocator NftRender.
Local Open Scope Z_scope.

(** ** Element commands *)

(** [add element] and [delete element]. *)
Record ElementCmd := MkElementCmd { ecAdd : bool; ecSet : string; ecElements : list string }.

Definition printCmd (table : string) (c : ElementCmd) : string :=
  line 0 ((if ecAdd c then "add" else "delete") +:+ " element inet " +:+ table +:+ " " +:+ ecSet c +:+
          " { " +:+ Join (ecElements c) ", " +:+ " }").

(** The commands [writeElements] writes for one change. *)
Definition peerCmds (add : bool) (pc : PeerChange) : list ElementCmd :=
  let '(v4, v6) := splitPeers (pcPeerCidrs pc) in
  (if decide (v4 = []) then [] else [MkElementCmd add (SetName (pcRuleId pc) false) v4]) ++
  (if decide (v6 = []) then [] else [MkElementCmd add (SetName (pcRuleId pc) true) v6]).

Definition changeCmds (ch : DeltaChange) : list ElementCmd :=
  match ch with
  | AddPeers pc => peerCmds true pc
  | RemovePeers pc => peerCmds false pc
  | _ => []
  end.

Definition is_peers (ch : DeltaChange) : Prop :=
  match ch with AddPeers _ | RemovePeers _ => True | _ => False end.

(** What a command does to the elements of set [n]. *)
Definition updSet (n : string) (es : list string) (c : ElementCmd) : list string :=
  if decide (ecSet c = n)
  then if ecAdd c then es ++ ecElements c else filter (λ x, x ∉ ecElements c) es
  else es.

Definition execCmd (t : Table) (c : ElementCmd) : Table :=
  MkTable ((λ s, (s.1, updSet s.1 s.2 c)) <$> tSets t) (tChain t).
Definition execCmds (cmds : list ElementCmd) (t : Table) : Table := foldl execCmd t cmds.

(** ** The script is the commands *)

Lemma writeElements_cmds (add : bool) table pc :
  writeElements (if add then "add" else "delete") table pc = concat_map (printCmd table) (peerCmds add pc).
Proof.
  unfold writeElements, peerCmds. destruct (splitPeers (pcPeerCidrs pc)) as [v4 v6].
  rewrite concat_map_app. unfold printCmd.
  f_equal; destruct (decide _); cbn [concat_map ecAdd ecSet ecElements]; by rewrite ?str_app_nil_r.
Qed.

Lemma deltaScript_cmds table chs s :
  deltaScript table chs = Some s →
  Forall is_peers chs ∧ s = concat_map (printCmd table) (chs ≫= changeCmds).
Proof.
  revert s. induction chs as [|ch chs IH]; intros s; cbn [deltaScript]; [by intros [= <-]|].
  destruct ch; try done; destruct (deltaScript table chs) as [s'|]; try done; cbn [mbind option_bind];
    intros Hs; match type of Hs with Some ?a = _ => assert (s = a) as -> by congruence end;
    destruct (IH s' eq_refl) as [Hall ->]; (split; [by constructor|]);
    rewrite bind_cons, concat_map_app; f_equal; [exact (writeElements_cmds true _ _)|exact (writeElements_cmds false _ _)].
Qed.

(** ** Running the commands *)

Lemma execCmds_chain cmds t : tChain (execCmds cmds t) = tChain t.
Proof. revert t. induction cmds as [|c cmds IH]; intros t; [done|]. by apply (IH (execCmd t c)). Qed.

Lemma execCmds_names cmds t : (tSets (execCmds cmds t)).*1 = (tSets t).*1.
Proof.
  revert t. induction cmds as [|c cmds IH]; intros t; [done|]. etrans; [apply (IH (execCmd t c))|].
  cbn [tSets execCmd]. by rewrite <-list_fmap_compose.
Qed.

Lemma execCmds_set cmds t n es :
  (n, es) ∈ tSets t → (n, foldl (updSet n) es cmds) ∈ tSets (execCmds cmds t).
Proof.
  revert t es. induction cmds as [|c cmds IH]; intros t es Hin; [done|].
  apply (IH (execCmd t c)). cbn [tSets execCmd].
  apply list_elem_of_fmap. by exists (n, es).
Qed.

(** The commands that add or delete [x] in set [n]. *)
Definition mentions (add : bool) (n x : string) (cmds : list ElementCmd) : Prop :=
  ∃ c, c ∈ cmds ∧ ecAdd c = add ∧ ecSet c = n ∧ x ∈ ecElements c.

Lemma mentions_cons add n x c cmds :
  mentions add n x (c :: cmds) ↔
  (ecAdd c = add ∧ ecSet c = n ∧ x ∈ ecElements c) ∨ mentions add n x cmds.
Proof.
  unfold mentions. split.
  - intros (c' & [->|Hc]%elem_of_cons & H); eauto.
  - intros [H|(c' & Hc & H)]; [exists c|exists c']; rewrite elem_of_cons; auto.
Qed.

Lemma elem_of_updSet n es c x :
  x ∈ updSet n es c ↔
  (x ∈ es ∧ ¬ (ecAdd c = false ∧ ecSet c = n ∧ x ∈ ecElements c)) ∨
  (ecAdd c = true ∧ ecSet c = n ∧ x ∈ ecElements c).
Proof.
  unfold updSet. destruct (decide (ecSet c = n)) as [Hn|Hn]; [|naive_solver].
  destruct (ecAdd c).
  - rewrite elem_of_app. naive_solver.
  - rewrite list_elem_of_filter. split; [naive_solver|]. intros [[? H]|[? _]]; [|done].
    split; [|done]. intros ?. by apply H.
Qed.

(** Without deletions an element stays or comes; without additions it stays
    away or goes. *)
Lemma upd_kept n x cmds es :
  ¬ mentions false n x cmds → x ∈ es ∨ mentions true n x cmds → x ∈ foldl (updSet n) es cmds.
Proof.
  revert es. induction cmds as [|c cmds IH]; intros es Hd Ha; cbn.
  - destruct Ha as [?|(c & Hc & _)]; [done|]. by apply elem_of_nil in Hc.
  - rewrite mentions_cons in Hd, Ha. apply IH; [tauto|]. rewrite elem_of_updSet. tauto.
Qed.

Lemma upd_gone n x cmds es :
  ¬ mentions true n x cmds → x ∉ es ∨ mentions false n x cmds → x ∉ foldl (updSet n) es cmds.
Proof.
  revert es. induction cmds as [|c cmds IH]; intros es Ha Hd; cbn.
  - destruct Hd as [?|(c & Hc & _)]; [done|]. by apply elem_of_nil in Hc.
  - rewrite mentions_cons in Hd, Ha. apply IH; [tauto|]. rewrite elem_of_updSet. tauto.
Qed.

(** The part of [peers] of one family. *)
Definition familyPart (v6 : bool) (peers : list string) : list string :=
  if v6 then (splitPeers peers).2 else (splitPeers peers).1.

Lemma elem_of_familyPart v6 peers x :
  x ∈ familyPart v6 peers ↔ x ∈ peers ∧ (if v6 then is_v6 x else is_v4 x) = true.
Proof.
  unfold familyPart, splitPeers. destruct v6; cbn; rewrite merge_sort_Permutation, list_elem_of_filter; tauto.
Qed.

Lemma mentions_peerCmds b add n x pc :
  mentions b n x (peerCmds add pc) ↔
  b = add ∧ ∃ v6, n = SetName (pcRuleId pc) v6 ∧ x ∈ familyPart v6 (pcPeerCidrs pc).
Proof.
  unfold mentions, peerCmds, familyPart. destruct (splitPeers (pcPeerCidrs pc)) as [v4 v6]. cbn [fst snd].
  setoid_rewrite elem_of_app. split.
  - intros (c & [Hc|Hc] & <- & <- & Hx); destruct (decide _); try (by apply elem_of_nil in Hc);
      apply list_elem_of_singleton in Hc as ->; (split; [done|]); [by exists false|by exists true].
  - intros [-> (f & -> & Hx)]. exists (MkElementCmd add (SetName (pcRuleId pc) f) (if f then v6 else v4)).
    split; [|by destruct f]. destruct f; [right|left]; rewrite decide_False by (by intros ->; apply elem_of_nil in Hx);
      by apply list_elem_of_singleton.
Qed.

(** ** Tables up to the order of set elements

    The chain of a table prints no peers, and sets have no order. *)

(** The same rule but for its peers. *)
Definition same_but_peers (o c : ResolvedRule) : Prop :=
  rrRuleId o = rrRuleId c ∧ rrProtocol o = rrProtocol c ∧ rrPorts o = rrPorts c.

#[export] Instance same_but_peers_equivalence : Equivalence same_but_peers.
Proof.
  split.
  - by intros r.
  - intros r r' (? & ? & ?). by split_and!.
  - intros r1 r2 r3 (? & ? & ?) (? & ? & ?). split_and!; congruence.
Qed.

Definition same_statement (s s' : Statement) : Prop :=
  match s, s' with
  | SAdmitUntracked v r, SAdmitUntracked v' r' => v = v' ∧ same_but_peers r r'
  | SAdmitMark v r i, SAdmitMark v' r' i' => v = v' ∧ same_but_peers r r' ∧ i = i'
  | SLoopback, SLoopback | SEstablished, SEstablished | SDrop, SDrop
  | SWouldBlock, SWouldBlock | SObserve, SObserve => True
  | _, _ => False
  end.

Definition same_set (s s' : string * list string) : Prop := s.1 = s'.1 ∧ ∀ x, x ∈ s.2 ↔ x ∈ s'.2.

#[export] Instance same_statement_equivalence : Equivalence same_statement.
Proof.
  split.
  - intros []; cbn; by split_and?.
  - intros [] []; cbn; try done; intros; destruct_and?; split_and?; by symmetry.
  - intros [] [] []; cbn; try done; intros; destruct_and?; split_and?; by etrans.
Qed.

#[export] Instance same_set_equivalence : Equivalence same_set.
Proof.
  split.
  - by intros s.
  - intros s s' [Hn H]. split; [done|]. intros x. by rewrite H.
  - intros s1 s2 s3 [Hn H] [Hn' H']. split; [congruence|]. intros x. by rewrite H, H'.
Qed.

#[export] Instance table_equiv : Equiv Table := λ t t',
  Forall2 same_set (tSets t) (tSets t') ∧ Forall2 same_statement (tChain t) (tChain t').

#[export] Instance table_equivalence : Equivalence (≡@{Table}).
Proof.
  split.
  - intros t. split; reflexivity.
  - intros t t' [? ?]. split; by symmetry.
  - intros t1 t2 t3 [? ?] [? ?]. split; by etrans.
Qed.

Lemma setHas_same t t' n src : t ≡ t' → setHas t n src = setHas t' n src.
Proof.
  intros [Hs _]. unfold setHas. induction Hs as [|[a es] [a' es'] l l' [Hn Hes] _ IH]; [done|].
  cbn in Hn, Hes. subst a'. cbn [list_find fst].
  destruct (decide (a = n)); cbn [snd].
  - apply existsb_ext_elem; intros x Hx Hc; exists x; (split; [by apply Hes|done]).
  - destruct (list_find _ l) as [[i s]|], (list_find _ l') as [[i' s']|]; exact IH.
Qed.

#[export] Instance evalTable_proper : Proper ((≡) ==> (=) ==> (=)) evalTable.
Proof.
  intros t t' Ht pk ? <-. unfold evalTable. pose proof Ht as [_ Hc].
  induction Hc as [|s s' l l' Hs _ IH]; [done|]. cbn [evalChain]. rewrite IH. f_equal.
  assert (∀ v r r', same_but_peers r r' → admits t pk v r = admits t' pk v r') as Ha.
  { intros v r r' (Hi & Hp & Hq). unfold admits. by rewrite (setHas_same t t'), Hi, Hp, Hq. }
  destruct s, s'; cbn in Hs; try done; destruct_and?; simplify_eq; cbn [evalStatement];
    by rewrite (Ha _ _ _ ltac:(eassumption)).
Qed.

#[export] Instance execCmds_proper cmds : Proper ((≡) ==> (≡)) (execCmds cmds).
Proof.
  induction cmds as [|c cmds IH]; intros t t' Ht; [done|]. apply (IH (execCmd t c) (execCmd t' c)).
  destruct Ht as [Hs Hc]. split; [|done]. cbn [tSets execCmd]. apply Forall2_fmap.
  eapply Forall2_impl; [exact Hs|]. intros [n es] [n' es'] [Hn Hes]. cbn in Hn, Hes. subst n'.
  split; [done|]. intros x. cbn. rewrite !elem_of_updSet. by rewrite Hes.
Qed.

Lemma execCmds_sets cmds t :
  tSets (execCmds cmds t) = (λ s, (s.1, foldl (updSet s.1) s.2 cmds)) <$> tSets t.
Proof.
  revert t. induction cmds as [|c cmds IH]; intros t.
  - cbn. symmetry. etrans; [|apply list_fmap_id]. apply list_fmap_ext. by intros ? [].
  - etrans; [apply (IH (execCmd t c))|]. cbn [tSets execCmd]. by rewrite <-list_fmap_compose.
Qed.

(** ** Changes of peers only *)

Lemma mentions_bind b n x (f : DeltaChange → list ElementCmd) chs :
  mentions b n x (chs ≫= f) ↔ ∃ ch, ch ∈ chs ∧ mentions b n x (f ch).
Proof.
  unfold mentions. setoid_rewrite list_elem_of_bind. split.
  - intros (c & (ch & Hc & Hch) & H). eauto 10.
  - intros (ch & Hch & c & Hc & H). eauto 10.
Qed.

Section shape.
Context (from to : option WorkloadPolicy).
Hypothesis Hpeers : Forall is_peers (Diff from to).

Let F := canonicalIndex from.
Let T := canonicalIndex to.

Lemma diff_elem id ch :
  ch ∈ ruleChanges id (F !! id) (T !! id) → ch ∈ Diff from to.
Proof.
  intros Hch. unfold Diff. rewrite !Canonical_index. apply elem_of_app. right.
  apply list_elem_of_bind. exists id. split; [exact Hch|].
  rewrite merge_sort_Permutation, elem_of_app, list_elem_of_filter, !elem_of_elements, !elem_of_dom.
  fold F T. destruct (F !! id) eqn:HF; [left; eauto|]. destruct (T !! id) eqn:HT; [right; eauto|].
  by apply elem_of_nil in Hch.
Qed.

Lemma shape_mode : wpMode (Canonical from) = wpMode (Canonical to).
Proof.
  destruct (decide (wpMode (Canonical from) = wpMode (Canonical to))) as [|Hne]; [done|].
  rewrite Forall_forall in Hpeers. destruct (Hpeers (SetMode (wpMode (Canonical to)))).
  unfold Diff. apply elem_of_app. left. rewrite decide_False by done. by left.
Qed.

Lemma shape_rule id : option_Forall2 same_but_peers (F !! id) (T !! id).
Proof.
  pose proof (diff_elem id) as Hd. rewrite Forall_forall in Hpeers.
  destruct (F !! id) as [o|] eqn:HF, (T !! id) as [c|] eqn:HT; cbn [ruleChanges] in Hd.
  - destruct (negb _ || negb _) eqn:Hs.
    + destruct (Hpeers (UpsertRule c)). apply Hd. by left.
    + apply orb_false_iff in Hs as [Hp Hq]. apply negb_false_iff in Hp, Hq.
      apply bool_decide_eq_true in Hp. apply portsEqual_eq in Hq. constructor.
      pose proof (canonical_index_keyed _ (canonicalIndex_ok from) id o HF) as Ho.
      pose proof (canonical_index_keyed _ (canonicalIndex_ok to) id c HT) as Hc.
      split_and!; congruence.
  - destruct (Hpeers (RemoveRuleId id)). apply Hd. by left.
  - destruct (Hpeers (UpsertRule c)). apply Hd. by left.
  - constructor.
Qed.

(** The peers of a rule that the commands add and delete. *)
Lemma shape_mentions b n x :
  mentions b n x (Diff from to ≫= changeCmds) ↔
  ∃ id o c v6, F !! id = Some o ∧ T !! id = Some c ∧ n = SetName id v6 ∧
    x ∈ familyPart v6 (if b then filter (λ s, s ∉ rrPeerCidrs o) (rrPeerCidrs c)
                       else filter (λ s, s ∉ rrPeerCidrs c) (rrPeerCidrs o)).
Proof.
  rewrite mentions_bind. split.
  - intros (ch & Hch & Hm). unfold Diff in Hch. rewrite !Canonical_index in Hch.
    rewrite decide_True in Hch by apply shape_mode. cbn [app] in Hch.
    apply list_elem_of_bind in Hch as (id & Hch & _). fold F T in Hch.
    pose proof (shape_rule id) as Hs.
    destruct (F !! id) as [o|] eqn:HF, (T !! id) as [c|] eqn:HT;
      [|by inversion Hs..|by apply elem_of_nil in Hch].
    inversion Hs as [? ? (_ & Hp & Hq)|]; subst.
    cbn [ruleChanges] in Hch. rewrite bool_decide_eq_true_2, (proj2 (portsEqual_eq _ _)) in Hch by done.
    cbn [negb orb setDiff] in Hch. exists id, o, c.
    apply elem_of_app in Hch as [Hch|Hch]; destruct (decide _) in Hch; try (by apply elem_of_nil in Hch);
      apply list_elem_of_singleton in Hch as ->; cbn [changeCmds] in Hm;
      apply mentions_peerCmds in Hm as (-> & v6 & -> & Hx); exists v6; auto.
  - intros (id & o & c & v6 & HF & HT & -> & Hx).
    pose proof (shape_rule id) as Hs. rewrite HF, HT in Hs. inversion Hs as [? ? (_ & Hp & Hq)|]; subst.
    pose proof (diff_elem id) as Hd. rewrite HF, HT in Hd. cbn [ruleChanges] in Hd.
    rewrite bool_decide_eq_true_2, (proj2 (portsEqual_eq _ _)) in Hd by done. cbn [negb orb setDiff] in Hd.
    assert (∀ l : list string, x ∈ familyPart v6 l → l ≠ []) as Hne
      by (intros l Hl ->; apply elem_of_familyPart in Hl as [Hl _]; by apply elem_of_nil in Hl).
    destruct b.
    + exists (AddPeers (MkPeerChange id (filter (λ s, s ∉ rrPeerCidrs o) (rrPeerCidrs c)))). split.
      * apply Hd, elem_of_app. left. rewrite decide_False by (by apply Hne). by left.
      * apply mentions_peerCmds. eauto.
    + exists (RemovePeers (MkPeerChange id (filter (λ s, s ∉ rrPeerCidrs c) (rrPeerCidrs o)))). split.
      * apply Hd, elem_of_app. right. rewrite decide_False by (by apply Hne). by left.
      * apply mentions_peerCmds. eauto.
Qed.

(** After the commands a set holds the peers of the new rule. *)
Lemma shape_set id o c v6 x :
  (∀ id' v6', is_Some (F !! id') → SetName id v6 = SetName id' v6' → id' = id ∧ v6' = v6) →
  F !! id = Some o → T !! id = Some c →
  x ∈ foldl (updSet (SetName id v6)) (familyPart v6 (rrPeerCidrs o)) (Diff from to ≫= changeCmds) ↔
  x ∈ familyPart v6 (rrPeerCidrs c).
Proof.
  intros Hinj HF HT.
  assert (∀ b, mentions b (SetName id v6) x (Diff from to ≫= changeCmds) ↔
    x ∈ familyPart v6 (if b then filter (λ s, s ∉ rrPeerCidrs o) (rrPeerCidrs c)
                       else filter (λ s, s ∉ rrPeerCidrs c) (rrPeerCidrs o))) as Hm.
  { intros b. rewrite shape_mentions. split; [|eauto 10].
    intros (id' & o' & c' & v6' & HF' & HT' & Hn & Hx). apply Hinj in Hn as [-> ->]; [|eauto]. by simplify_eq. }
  pose proof (Hm true) as Ha. pose proof (Hm false) as Hd. cbn in Ha, Hd.
  rewrite elem_of_familyPart, list_elem_of_filter in Ha, Hd. clear Hm.
  pose proof (upd_kept (SetName id v6) x (Diff from to ≫= changeCmds) (familyPart v6 (rrPeerCidrs o))) as Hk.
  pose proof (upd_gone (SetName id v6) x (Diff from to ≫= changeCmds) (familyPart v6 (rrPeerCidrs o))) as Hg.
  rewrite elem_of_familyPart in Hk, Hg. rewrite elem_of_familyPart.
  destruct (decide (x ∈ rrPeerCidrs c)), (decide (x ∈ rrPeerCidrs o)); split; intros HH; try tauto.
  all: destruct (decide ((if v6 then is_v6 x else is_v4 x) = true)); tauto.
Qed.
End shape.

(** ** Set names *)

Lemma names_cons r rules :
  names_distinct (r :: rules) →
  names_distinct rules ∧ SetName (rrRuleId r) false ≠ SetName (rrRuleId r) true ∧
  ∀ r' v v', r' ∈ rules → SetName (rrRuleId r) v ≠ SetName (rrRuleId r') v'.
Proof.
  unfold names_distinct. rewrite bind_cons, fmap_app, NoDup_app. intros (H1 & H2 & H3).
  assert (∀ r v, SetName (rrRuleId r) v ∈ (setsOf r).*1) as Hin.
  { intros r0 v. unfold setsOf. destruct (splitPeers _), v; cbn; set_solver. }
  split_and!; [done| |].
  - unfold setsOf in H1. destruct (splitPeers _). cbn [fmap list_fmap fst] in H1. apply NoDup_cons in H1 as [H1 _].
    intros Heq. apply H1. rewrite Heq. by left.
  - intros r' v v' Hr' Heq. apply (H2 (SetName (rrRuleId r) v)); [apply Hin|]. rewrite Heq.
    apply list_elem_of_fmap. specialize (Hin r' v'). apply list_elem_of_fmap in Hin as (s & Hs & Hin).
    exists s. split; [done|]. apply list_elem_of_bind. eauto.
Qed.

Lemma names_inj rules r r' v v' :
  names_distinct rules → r ∈ rules → r' ∈ rules →
  SetName (rrRuleId r) v = SetName (rrRuleId r') v' → rrRuleId r' = rrRuleId r ∧ v' = v.
Proof.
  induction rules as [|x rules IH]; intros Hn Hr Hr' Heq; [by apply elem_of_nil in Hr|].
  apply names_cons in Hn as (Hn & Hff & Hx).
  apply elem_of_cons in Hr as [->|Hr], Hr' as [->|Hr'].
  - destruct v, v'; try done; by rewrite Heq in Hff || by rewrite <-Heq in Hff.
  - by destruct (Hx r' v v' Hr').
  - by destruct (Hx r v' v Hr).
  - by apply IH.
Qed.

Lemma names_ids rules rules' :
  rrRuleId <$> rules = rrRuleId <$> rules' → names_distinct rules → names_distinct rules'.
Proof.
  intros Hids. unfold names_distinct.
  assert (∀ l, (l ≫= setsOf).*1 = (rrRuleId <$> l) ≫= λ id, [SetName id false; SetName id true]) as Hn.
  { induction l as [|r l IH]; [done|]. rewrite bind_cons, fmap_app, IH. cbn [fmap list_fmap].
    rewrite bind_cons. unfold setsOf at 1. by destruct (splitPeers _). }
  by rewrite !Hn, Hids.
Qed.

Lemma rules_Forall2 (F T : gmap string ResolvedRule) (R : relation ResolvedRule) :
  (∀ id, option_Forall2 R (F !! id) (T !! id)) →
  Forall2 (λ o c, ∃ id, F !! id = Some o ∧ T !! id = Some c) (rules_by_id F) (rules_by_id T).
Proof.
  intros HR. unfold rules_by_id.
  assert (sorted_ids F = sorted_ids T) as ->.
  { unfold sorted_ids. do 2 f_equal. apply set_eq. intros id. rewrite !elem_of_dom.
    by destruct (HR id); split; intros []. }
  induction (sorted_ids T) as [|id l IH]; [constructor|]. cbn. pose proof (HR id) as Hid.
  destruct (F !! id) eqn:HF, (T !! id) eqn:HT; [|by inversion Hid..|done]. constructor; eauto.
Qed.

Lemma elem_of_rules_by_id (m : gmap string ResolvedRule) id r : m !! id = Some r → r ∈ rules_by_id m.
Proof.
  intros Hr. unfold rules_by_id. rewrite list_elem_of_omap. exists id. split; [|done].
  rewrite elem_of_sorted_ids. eauto.
Qed.

(** ** The commands lead to the new table *)

Lemma setsOf_family r :
  setsOf r = [(SetName (rrRuleId r) false, familyPart false (rrPeerCidrs r));
              (SetName (rrRuleId r) true, familyPart true (rrPeerCidrs r))].
Proof. unfold setsOf, familyPart. by destruct (splitPeers _). Qed.

Lemma Forall2_bind {A B} (R : relation A) (S : relation B) (f g : A → list B) l l' :
  Forall2 R l l' → (∀ x y, R x y → Forall2 S (f x) (g y)) → Forall2 S (l ≫= f) (l' ≫= g).
Proof. intros Hl Hfg. induction Hl; [constructor|]. rewrite !bind_cons. apply Forall2_app; auto. Qed.

Lemma delta_table from to marks :
  Forall is_peers (Diff from to) → carriesSets (wpMode (Canonical from)) = true →
  names_distinct (wpInboundRules (Canonical from)) →
  execCmds (Diff from to ≫= changeCmds) (tableOf (Canonical from) marks) ≡ tableOf (Canonical to) marks.
Proof.
  intros Hp Hcs Hn. pose proof (shape_mode _ _ Hp) as Hm.
  pose proof (rules_Forall2 _ _ _ (shape_rule _ _ Hp)) as Hrs. rewrite <-!Canonical_rules in Hrs.
  assert (∀ id o c, canonicalIndex from !! id = Some o → canonicalIndex to !! id = Some c →
    same_but_peers o c) as Hsame.
  { intros id o c HF HT. pose proof (shape_rule _ _ Hp id) as Hid. rewrite HF, HT in Hid. by inversion Hid. }
  split.
  - rewrite execCmds_sets. unfold tableOf. rewrite <-Hm, Hcs. cbn [tSets]. rewrite Forall2_fmap_l.
    eapply Forall2_bind; [exact Hrs|]. intros o c (id & HF & HT). cbn beta.
    destruct (Hsame id o c HF HT) as (Hid & _). rewrite !setsOf_family, <-Hid.
    pose proof (canonical_index_keyed _ (canonicalIndex_ok from)) as Hkf.
    assert (∀ id r, canonicalIndex from !! id = Some r → r ∈ wpInboundRules (Canonical from)) as Hin
      by (intros ? ? H; rewrite Canonical_rules; by eapply elem_of_rules_by_id).
    assert (∀ v6, same_set
      (SetName (rrRuleId o) v6, foldl (updSet (SetName (rrRuleId o) v6)) (familyPart v6 (rrPeerCidrs o))
         (Diff from to ≫= changeCmds))
      (SetName (rrRuleId o) v6, familyPart v6 (rrPeerCidrs c))) as Hset.
    { intros v6. split; [done|]. intros x. cbn [snd]. rewrite (Hkf id o HF).
      apply shape_set; [done| |done|done].
      intros id' v6' [r' Hr'] Heq. rewrite <-(Hkf _ _ Hr'), <-(Hkf _ _ HF) in Heq |- *.
      eapply names_inj; [exact Hn|by eapply Hin|by eapply Hin|exact Heq]. }
    repeat constructor; apply Hset.
  - rewrite execCmds_chain. unfold tableOf. rewrite <-Hm, Hcs. cbn [tChain].
    apply Forall2_app; [repeat constructor|]. apply Forall2_app; [|reflexivity].
    eapply Forall2_bind; [exact Hrs|]. intros o c (id & HF & HT).
    pose proof (Hsame id o c HF HT) as Hs. unfold admitsOf. destruct Hs as (Hid & Hpq). rewrite Hid.
    repeat constructor; cbn; naive_solver.
Qed.

Lemma RenderDelta_cmds from to opts s :
  RenderDelta from to opts = Some s →
  carriesSets (wpMode (Canonical from)) = true ∧ Forall is_peers (Diff from to) ∧
  s = concat_map (printCmd (opt_table opts)) (Diff from to ≫= changeCmds).
Proof.
  unfold RenderDelta. destruct (_ || _) eqn:Hc; [done|]. intros Hs.
  assert (deltaScript (opt_table opts) (Diff from to) = Some s) as Hd by (by destruct (Diff from to)).
  apply deltaScript_cmds in Hd as [Hp ->]. split_and!; [|done|done].
  apply orb_false_iff in Hc as [Hc _]. apply negb_false_iff in Hc. by destruct from.
Qed.

(** C27: a set update does what a full rendering would.  When [RenderDelta] gives
    a script, it is a sequence of element commands that, run on the table of
    the old policy, leave the table of the new one up to the order of set
    elements, so that every packet is treated exactly as under a full rendering,
    whatever values the rules' marks have.  Only the distinctness of the old
    rules' set names is assumed. *)
Theorem RenderDelta_equivalent from to opts s :
  RenderDelta from to opts = Some s → names_distinct (wpInboundRules (Canonical from)) →
  ∃ cmds, s = concat_map (printCmd (opt_table opts)) cmds ∧
    ∀ marks, execCmds cmds (tableOf (Canonical from) marks) ≡ tableOf (Canonical to) marks ∧
      ∀ pk, evalTable (execCmds cmds (tableOf (Canonical from) marks)) pk =
            evalTable (tableOf (Canonical to) marks) pk.
Proof.
  intros Hs Hn. destruct (RenderDelta_cmds _ _ _ _ Hs) as (Hc & Hp & ->).
  exists (Diff from to ≫= changeCmds). split; [done|]. intros marks.
  pose proof (delta_table from to marks Hp Hc Hn) as Ht. split; [done|]. intros pk. by rewrite Ht.
Qed.

(** A peer more and a peer less. *)
Definition delta_target : WorkloadPolicy :=
  MkWorkloadPolicy 4 ENFORCEMENT_MODE_SIMULATION
    [MkResolvedRule "a/tcp" ["2001:db8::/32"; "192.0.2.0/24"] PROTOCOL_TCP [MkPortRange 443 443];
     MkResolvedRule "b/icmp" ["192.0.2.7/32"] PROTOCOL_ICMP []].

Lemma RenderDelta_equivalent_witness :
  ∃ cmds, evalTable (execCmds cmds (tableOf (Canonical (Some RenderExample.policy)) RenderExample.marks))
            (RenderExample.packet 3221225992) = Accepted 0x00011234.
Proof.
  destruct (RenderDelta (Some RenderExample.policy) (Some delta_target) RenderExample.opts) as [s|] eqn:Hs;
    [|vm_compute in Hs; discriminate Hs].
  destruct (RenderDelta_equivalent (Some RenderExample.policy) (Some delta_target) RenderExample.opts s Hs)
    as (cmds & _ & He).
  - apply (bool_decide_unpack _). vm_compute. exact I.
  - exists cmds. rewrite (proj2 (He _)). vm_compute. reflexivity.
Defined.
