(* ===== verification/NftStore.v ===== *)
(** * The policy store over the owned table: [internal/agent/enforce/nft/store.go]

    [Apply], [Load] and [Restore] with the writes of the state directory and the
    nft transactions in the order the code makes them.  The kernel accepts a
    script or refuses it; the scripts it accepted, oldest first, are its state,
    and [execScript] is what they do to the owned table. *)

From S2P Require Import Prelude GoStd Netip Wire Rendered Sha256 NftAllocator Enforce MarksFile NftRender NftDelta.
Local Open Scope Z_scope.

(** ** State *)

Inductive ApplyKind := ApplyNone | ApplyFull | ApplyDelta.

Record Store := MkStore {
  stPolicyPath : string;
  stMarksPath : string;
  stOpts : Options;
  stCurrent : option WorkloadPolicy;
  stAlloc : Allocator;
  stLast : ApplyKind;
}.

(** The state directory's disk and the scripts the kernel accepted. *)
Record Host := MkHost { hDisk : Disk; hKernel : list string }.

(** What the environment decides about one call: which step of a durable write
    fails, the temporary files' names and inodes, and the scripts nft refuses. *)
Record Env := MkEnv {
  eMarksFault : option WriteStep;
  eMarksTmp : string;
  eMarksInode : nat;
  ePolicyFault : option WriteStep;
  ePolicyTmp : string;
  ePolicyInode : nat;
  eRefuse : string → bool;
}.

Inductive StoreError :=
| ErrTooManyRules (n : nat)
| ErrAllocation (e : MarksError)
| ErrRender (e : RenderError)
| ErrPersistMarks (e : MarksFileError)
| ErrPersistPolicy (e : FileError)
| ErrRefused (script : string).

Definition withAlloc (a : Allocator) (s : Store) : Store :=
  MkStore (stPolicyPath s) (stMarksPath s) (stOpts s) (stCurrent s) a (stLast s).
Definition withCurrent (p : WorkloadPolicy) (k : ApplyKind) (s : Store) : Store :=
  MkStore (stPolicyPath s) (stMarksPath s) (stOpts s) (Some p) (stAlloc s) k.
Definition withLast (k : ApplyKind) (s : Store) : Store :=
  MkStore (stPolicyPath s) (stMarksPath s) (stOpts s) (stCurrent s) (stAlloc s) k.

(** [New]. *)
Definition Store_New (policyPath marksPath : string) (opts : Options) : Store :=
  MkStore policyPath marksPath opts None NewAllocator ApplyNone.

(** [runner.Apply]: one transaction. *)
Definition runScript (env : Env) (script : string) (h : Host) : option Host :=
  if eRefuse env script then None else Some (MkHost (hDisk h) (hKernel h ++ [script])).

Section store.
Context `{PolicyCodec} `{MarksCodec}.

(** ** [Apply] *)

(** The kernel part of [Apply]: a set update where peers alone changed, and the
    full rendering otherwise or when the update is refused. *)
Definition applyKernel (env : Env) (current : option WorkloadPolicy) (next : WorkloadPolicy)
    (full : string) (opts : Options) (h : Host) : option (ApplyKind * Host) :=
  let delta := cur ← current; script ← RenderDelta (Some cur) (Some next) opts; runScript env script h in
  match delta with
  | Some h' => Some (ApplyDelta, h')
  | None => h' ← runScript env full h; Some (ApplyFull, h')
  end.

(** [Apply], with every state of the host on the way, the last one first. *)
Definition Store_Apply (env : Env) (policy : option WorkloadPolicy) (s : Store) (h : Host)
  : result StoreError unit * Store * list Host :=
  let next := Canonical policy in
  let n := length (wpInboundRules next) in
  if decide (MaxRules < Z.of_nat n) then (Err (ErrTooManyRules n), s, [h])
  else
    match Allocate (stAlloc s) (Some next) (stCurrent s) with
    | Err e => (Err (ErrAllocation e), s, [h])
    | Ok (marks, alloc) =>
        match Render (Some next) marks (stOpts s) with
        | Err e => (Err (ErrRender e), s, [h])
        | Ok full =>
            let saved := Allocator_Save (eMarksFault env) (eMarksTmp env) (eMarksInode env)
                           (stMarksPath s) alloc (hDisk h) in
            let trace1 := (λ d, MkHost d (hKernel h)) <$> saved.2 in
            match saved.1 with
            | Some e => (Err (ErrPersistMarks e), s, trace1)
            | None =>
                let s := withAlloc alloc s in
                let d1 := hd (hDisk h) saved.2 in
                let persisted := PolicyFile_Save (ePolicyFault env) (ePolicyTmp env) (ePolicyInode env)
                                   (stPolicyPath s) (Some next) d1 in
                let trace2 := ((λ d, MkHost d (hKernel h)) <$> persisted.2) ++ trace1 in
                match persisted.1 with
                | Some e => (Err (ErrPersistPolicy e), s, trace2)
                | None =>
                    match applyKernel env (stCurrent s) next full (stOpts s)
                            (MkHost (hd d1 persisted.2) (hKernel h)) with
                    | None => (Err (ErrRefused full), s, trace2)
                    | Some (kind, h') => (Ok (), withCurrent next kind s, h' :: trace2)
                    end
                end
            end
        end
    end.

(** ** [Load] and [Restore] *)

Inductive LoadError := LoadPolicy (e : FileError) | LoadAllocation (e : MarksError).

(** [Load]: the policy file, then the allocation, which is seeded from the policy
    when it is missing or does not verify. *)
Definition Store_Load (s : Store) (h : Host) : option LoadError * Store :=
  match PolicyFile_Load (ReadFile (hDisk h) (stPolicyPath s)) with
  | Err e => (Some (LoadPolicy e), s)
  | Ok p =>
      let alloc := match LoadAllocator (ReadFile (hDisk h) (stMarksPath s)) with
                   | Ok (Some a) => a
                   | Ok None | Err _ => NewAllocator
                   end in
      match p with
      | None => (None, withAlloc alloc s)
      | Some p =>
          match Allocate alloc (Some p) (Some p) with
          | Err e => (Some (LoadAllocation e), s)
          | Ok (_, alloc) =>
              (None, MkStore (stPolicyPath s) (stMarksPath s) (stOpts s) (Some p) alloc (stLast s))
          end
      end
  end.

(** [Restore]: the loaded policy as a full rendering. *)
Definition Store_Restore (env : Env) (s : Store) (h : Host) : result StoreError unit * Store * Host :=
  match stCurrent s with
  | None => (Ok (), s, h)
  | Some p =>
      match Allocate (stAlloc s) (Some p) (Some p) with
      | Err e => (Err (ErrAllocation e), s, h)
      | Ok (marks, _) =>
          match Render (Some p) marks (stOpts s) with
          | Err e => (Err (ErrRender e), s, h)
          | Ok script =>
              match runScript env script h with
              | None => (Err (ErrRefused script), s, h)
              | Some h' => (Ok (), withLast ApplyFull s, h')
              end
          end
      end
  end.
End store.

(** [Teardown], with no store: the local kill switch. *)
Definition Teardown (env : Env) (opts : Options) (h : Host) : option Host :=
  runScript env (RenderTeardown opts) h.

(** ** Reading connection marks *)

(** [Classify]. *)
Definition Classify (s : Store) (mark : Z) : PolicyDecision * string :=
  let index := RuleIndex mark in
  if decide (index = WouldBlockIndex) then (POLICY_DECISION_WOULD_BLOCK, "")
  else match AllocRule (stAlloc s) index with
       | Some id => (POLICY_DECISION_ALLOWED, id)
       | None => (POLICY_DECISION_OBSERVED, "")
       end.

(** [Store.Mark]. *)
Definition Store_Mark (s : Store) (ruleID : string) : option Z :=
  RuleMark <$> AllocMark (stAlloc s) ruleID.

(** [Mode] and [TerminalDecision]. *)
Definition Store_Mode (s : Store) : EnforcementMode :=
  match stCurrent s with
  | None => ENFORCEMENT_MODE_VISIBILITY
  | Some p => wpMode p
  end.

Definition TerminalDecision (s : Store) : PolicyDecision :=
  match Store_Mode s with
  | ENFORCEMENT_MODE_ENFORCED => POLICY_DECISION_BLOCKED
  | ENFORCEMENT_MODE_SIMULATION => POLICY_DECISION_WOULD_BLOCK
  | _ => POLICY_DECISION_OBSERVED
  end.

(** [TablePresent], given what [runner.Tables] returns. *)
Definition TablePresent (names : option (list string)) (s : Store) : option bool :=
  (λ l, bool_decide (opt_table (stOpts s) ∈ l)) <$> names.

(** ** The owned table under the accepted scripts *)

Inductive Script :=
| ScReplace (chain : string) (t : Table)
| ScElements (cmds : list ElementCmd)
| ScTeardown.

Definition printScript (opts : Options) (sc : Script) : string :=
  match sc with
  | ScReplace chain t => printTable opts chain t
  | ScElements cmds => concat_map (printCmd (opt_table opts)) cmds
  | ScTeardown => RenderTeardown opts
  end.

Definition execScript (k : option Table) (sc : Script) : option Table :=
  match sc with
  | ScReplace _ t => Some t
  | ScElements cmds => execCmds cmds <$> k
  | ScTeardown => None
  end.

(** The kernel's script log is the text of scripts whose execution leaves a
    table that is the table of [p], up to the order of set elements. *)
Definition kernel_holds (opts : Options) (log : list string) (p : WorkloadPolicy) (marks : gmap string Z)
  : Prop :=
  ∃ scs t, log = printScript opts <$> scs ∧ foldl execScript None scs = Some t ∧ t ≡ tableOf p marks.

(** The values the allocation gives. *)
Definition marksOf (a : Allocator) : gmap string Z := slMark <$> alByID a.

(** ** The mark region *)

Lemma land_low16 x : 0 ≤ x → Z.land x ForeignMask = x mod 2 ^ 16.
Proof. intros Hx. change ForeignMask with (Z.ones 16). by apply Z.land_ones. Qed.

(** The agent's region and the foreign bits do not touch. *)
Lemma setRegion_split mark m :
  0 ≤ mark < 2 ^ 32 → 0 ≤ m < 2 ^ 16 →
  setRegion mark (RuleMark m) = m * 2 ^ 16 + mark mod 2 ^ 16.
Proof.
  intros Hk Hm. unfold setRegion, RuleMark, MarkShift. rewrite land_low16 by lia.
  rewrite Z.shiftl_mul_pow2 by lia. rewrite u32_small by lia.
  rewrite <-Z.add_nocarry_lor; [lia|]. apply Z.bits_inj'. intros n Hn. rewrite Z.land_spec, Z.bits_0.
  destruct (decide (n < 16)).
  - rewrite Z.mul_pow2_bits_low by lia. by rewrite andb_false_r.
  - rewrite Z.mod_pow2_bits_high by lia. done.
Qed.

Lemma RuleIndex_split m low : 0 ≤ m < 2 ^ 16 → 0 ≤ low < 2 ^ 16 → RuleIndex (m * 2 ^ 16 + low) = m.
Proof.
  intros Hm Hl. unfold RuleIndex, MarkShift. rewrite Z.shiftr_land.
  change (Z.shiftr MarkMask 16) with (Z.ones 16). rewrite Z.land_ones, Z.shiftr_div_pow2 by lia.
  rewrite Z.add_comm, Z.div_add, Z.div_small, Z.add_0_l by lia. by apply Z.mod_small.
Qed.

Lemma setRegion_index mark m :
  0 ≤ mark < 2 ^ 32 → 0 ≤ m < 2 ^ 16 →
  RuleIndex (setRegion mark (RuleMark m)) = m ∧
  Z.land (setRegion mark (RuleMark m)) ForeignMask = Z.land mark ForeignMask.
Proof.
  intros Hk Hm. rewrite setRegion_split by done.
  pose proof (Z.mod_pos_bound mark (2 ^ 16)). split; [apply RuleIndex_split; lia|].
  rewrite !land_low16 by lia. rewrite Z.add_comm, Z.mod_add by lia. apply Z.mod_mod. lia.
Qed.

(** ** Tables and values *)

Lemma tableOf_ext p m1 m2 :
  (∀ id, id ∈ policy_ids (Some p) → m1 !! id = m2 !! id) → tableOf p m1 = tableOf p m2.
Proof.
  intros Heq. unfold tableOf. destruct (carriesSets _); [|done]. do 3 f_equal.
  assert (∀ r, r ∈ wpInboundRules p → admitsOf m1 r = admitsOf m2 r) as Hr.
  { intros r Hin. unfold admitsOf. rewrite Heq; [done|]. unfold policy_ids. apply list_elem_of_fmap. eauto. }
  clear Heq. induction (wpInboundRules p) as [|r rs IH]; [done|]. rewrite !bind_cons, Hr by left.
  f_equal. apply IH. intros r' Hr'. apply Hr. by right.
Qed.

Lemma kernel_holds_ext opts log p m1 m2 :
  (∀ id, id ∈ policy_ids (Some p) → m1 !! id = m2 !! id) →
  kernel_holds opts log p m1 → kernel_holds opts log p m2.
Proof. intros Heq (scs & t & ? & ? & Hev). exists scs, t. by rewrite <-(tableOf_ext p m1 m2 Heq). Qed.

Lemma Render_ext p m1 m2 opts :
  (∀ id, id ∈ next_ids p → m1 !! id = m2 !! id) → Render p m1 opts = Render p m2 opts.
Proof.
  intros Heq. unfold Render. destruct (negb _); [done|].
  assert (∀ r, r ∈ wpInboundRules (Canonical p) → m1 !! rrRuleId r = m2 !! rrRuleId r) as Hr.
  { intros r Hin. apply Heq. unfold next_ids. apply list_elem_of_fmap. eauto. }
  assert (filter (unallocated m1) (wpInboundRules (Canonical p)) =
    filter (unallocated m2) (wpInboundRules (Canonical p))) as ->.
  { clear Heq. induction (wpInboundRules (Canonical p)) as [|r rs IH]; [done|]. rewrite !filter_cons.
    rewrite IH by (intros r' Hr'; apply Hr; by right).
    apply decide_ext. unfold unallocated. by rewrite Hr by left. }
  assert (concat_map (ruleAdmits m1) (wpInboundRules (Canonical p)) =
    concat_map (ruleAdmits m2) (wpInboundRules (Canonical p))) as ->; [|done].
  clear Heq. induction (wpInboundRules (Canonical p)) as [|r rs IH]; [done|]. cbn [concat_map].
  rewrite IH by (intros r' Hr'; apply Hr; by right). f_equal. unfold ruleAdmits. by rewrite Hr by left.
Qed.

Lemma lookup_marksOf a id : marksOf a !! id = AllocMark a id.
Proof. unfold marksOf, AllocMark. by rewrite lookup_fmap. Qed.

(** A full rendering leaves its own table, whatever was there. *)
Lemma kernel_full opts log p marks s :
  (∃ scs, log = printScript opts <$> scs) → Canonical (Some p) = p →
  Render (Some p) marks opts = Ok s → kernel_holds opts (log ++ [s]) p marks.
Proof.
  intros [scs ->] Hp Hr. destruct (Render_prints _ _ _ _ Hr) as [-> _]. rewrite Hp.
  set (chain := if carriesSets _ then _ else _).
  exists (scs ++ [ScReplace chain (tableOf p marks)]), (tableOf p marks).
  split_and!; [by rewrite fmap_app|by rewrite foldl_app|done].
Qed.

(** A set update leads from the table of one policy to that of the next. *)
Lemma kernel_delta opts log cur next marks s :
  kernel_holds opts log cur marks → Canonical (Some cur) = cur → Canonical (Some next) = next →
  names_distinct (wpInboundRules cur) → RenderDelta (Some cur) (Some next) opts = Some s →
  kernel_holds opts (log ++ [s]) next marks.
Proof.
  intros (scs & t & -> & Ht & Heq) Hc Hn Hd Hs.
  destruct (RenderDelta_cmds _ _ _ _ Hs) as (Hcs & Hp & ->).
  set (cmds := Diff _ _ ≫= changeCmds).
  exists (scs ++ [ScElements cmds]), (execCmds cmds t). split_and!.
  - by rewrite fmap_app.
  - rewrite foldl_app. cbn [foldl execScript]. by rewrite Ht.
  - pose proof (delta_table (Some cur) (Some next) marks Hp Hcs) as Hdt. fold cmds in Hdt.
    rewrite Hc, Hn in Hdt. rewrite Heq. by apply Hdt.
Qed.

Lemma delta_ids cur next opts s :
  RenderDelta (Some cur) (Some next) opts = Some s → Canonical (Some cur) = cur → Canonical (Some next) = next →
  policy_ids (Some next) = policy_ids (Some cur).
Proof.
  intros Hs Hc Hn. destruct (RenderDelta_cmds _ _ _ _ Hs) as (_ & Hp & _).
  pose proof (rules_Forall2 _ _ _ (shape_rule _ _ Hp)) as Hrs. rewrite <-!Canonical_rules, Hc, Hn in Hrs.
  change (rrRuleId <$> wpInboundRules next = rrRuleId <$> wpInboundRules cur).
  pose proof (canonical_index_keyed _ (canonicalIndex_ok (Some cur))) as Hkf.
  pose proof (canonical_index_keyed _ (canonicalIndex_ok (Some next))) as Hkt.
  clear -Hrs Hkf Hkt. induction Hrs as [|o c l l' (id & HF & HT) _ IH]; [done|].
  cbn. rewrite IH. f_equal. by rewrite (Hkf _ _ HF), (Hkt _ _ HT).
Qed.

(** ** What an apply does *)

(** The allocation is consistent and knows the rules of the installed policy,
    which is canonical and has distinct set names. *)
Record store_ok (s : Store) : Prop := {
  so_alloc : alloc_ok (stAlloc s);
  so_limit : alLimit (stAlloc s) = MaxRules;
  so_current p : stCurrent s = Some p →
    Canonical (Some p) = p ∧ names_distinct (wpInboundRules p) ∧
    ∀ id, id ∈ policy_ids (Some p) → is_Some (AllocMark (stAlloc s) id);
}.

Lemma Store_New_ok pp mp opts : store_ok (Store_New pp mp opts).
Proof. split; [|done|done]. by apply newAllocator_ok. Qed.

Lemma next_ids_canonical p : next_ids (Some (Canonical p)) = policy_ids (Some (Canonical p)).
Proof. unfold next_ids. by rewrite Canonical_idemp. Qed.

(** The allocation moves on and the store stays consistent. *)
Lemma allocated_ok s next marks a :
  store_ok s → alGen (stAlloc s) + 1 < 2 ^ 64 →
  Allocate (stAlloc s) next (stCurrent s) = Ok (marks, a) →
  store_ok (withAlloc a s) ∧
  (∀ id m, id ∈ policy_ids (stCurrent s) → AllocMark (stAlloc s) id = Some m → AllocMark a id = Some m) ∧
  (∀ id, id ∈ next_ids next → marks !! id = AllocMark a id ∧ is_Some (AllocMark a id)).
Proof.
  intros [Hok Hl Hcur] Hg Hrun.
  destruct (Allocate_ok _ _ _ _ _ Hok Hg Hrun) as (Hok' & Hl' & _ & Hdom & Hval & _ & Hinst & _).
  assert (∀ id m, id ∈ policy_ids (stCurrent s) → AllocMark (stAlloc s) id = Some m → AllocMark a id = Some m)
    as Hkeep by (intros id m Hi Hm; by destruct (Hinst id m Hi Hm)).
  split_and!.
  - split; cbn; [done|congruence|]. intros p Hp. destruct (Hcur p Hp) as (Hc & Hn & Hk).
    split_and!; [done|done|]. intros id Hi. destruct (Hk id Hi) as [m Hm]. exists m. apply Hkeep; [|done].
    by rewrite Hp.
  - done.
  - intros id Hi. apply Hdom in Hi as [m Hm]. destruct (Hval id m Hm) as (_ & _ & Hma). rewrite Hm, Hma. eauto.
Qed.

Lemma Allocator_Save_trace `{MarksCodec} fault tmp inode path a d e :
  ¬ Allocator_Save fault tmp inode path a d = (e, []).
Proof.
  unfold Allocator_Save. destruct (json_Marshal _) as [b|]; [|done].
  intros Heq. apply (f_equal snd) in Heq. by apply WriteDurable_nonempty in Heq.
Qed.

Lemma PolicyFile_Save_trace `{PolicyCodec} fault tmp inode path p d e :
  ¬ PolicyFile_Save fault tmp inode path p d = (e, []).
Proof.
  unfold PolicyFile_Save. destruct (Marshal p) as [b|]; [|done].
  intros Heq. apply (f_equal snd) in Heq. by apply WriteDurable_nonempty in Heq.
Qed.

Lemma alloc_ascii_next a policy installed marks a' :
  alloc_ok a → alGen a + 1 < 2 ^ 64 → alloc_ascii a → Forall ascii_text (next_ids policy) →
  Allocate a (Some (Canonical policy)) installed = Ok (marks, a') → alloc_ascii a'.
Proof.
  intros Hok Hg Hasc Hn Ha id Hid.
  destruct (Allocate_ids _ _ _ _ _ id Hok Hg Ha Hid) as [Hi|Hi]; [by apply Hasc|].
  rewrite Forall_forall in Hn. apply Hn. unfold next_ids in *. by rewrite Canonical_idemp in Hi.
Qed.

Section apply.
Context `{PolicyCodec} `{MarksCodec}.
Context (env : Env) (policy : option WorkloadPolicy) (s : Store) (h : Host).

Let next := Canonical policy.

(** Every outcome of [Apply]. *)
Inductive apply_outcome : result StoreError unit → Store → list Host → Prop :=
| out_early e : apply_outcome (Err e) s [h]
| out_marks e marks alloc disks :
    Allocate (stAlloc s) (Some next) (stCurrent s) = Ok (marks, alloc) →
    Allocator_Save (eMarksFault env) (eMarksTmp env) (eMarksInode env) (stMarksPath s) alloc (hDisk h)
      = (Some e, disks) →
    apply_outcome (Err (ErrPersistMarks e)) s ((λ d, MkHost d (hKernel h)) <$> disks)
| out_saved e marks alloc disks1 disks2 full :
    Allocate (stAlloc s) (Some next) (stCurrent s) = Ok (marks, alloc) →
    Render (Some next) marks (stOpts s) = Ok full →
    Allocator_Save (eMarksFault env) (eMarksTmp env) (eMarksInode env) (stMarksPath s) alloc (hDisk h)
      = (None, disks1) →
    (e ≠ ErrRefused full →
     ∃ e', (PolicyFile_Save (ePolicyFault env) (ePolicyTmp env) (ePolicyInode env) (stPolicyPath s)
       (Some next) (hd (hDisk h) disks1)).1 = Some e') →
    (PolicyFile_Save (ePolicyFault env) (ePolicyTmp env) (ePolicyInode env) (stPolicyPath s)
       (Some next) (hd (hDisk h) disks1)).2 = disks2 →
    apply_outcome (Err e) (withAlloc alloc s)
      ((λ d, MkHost d (hKernel h)) <$> (disks2 ++ disks1))
| out_ok marks alloc full disks1 disks2 kind script :
    Allocate (stAlloc s) (Some next) (stCurrent s) = Ok (marks, alloc) →
    Render (Some next) marks (stOpts s) = Ok full →
    Allocator_Save (eMarksFault env) (eMarksTmp env) (eMarksInode env) (stMarksPath s) alloc (hDisk h)
      = (None, disks1) →
    PolicyFile_Save (ePolicyFault env) (ePolicyTmp env) (ePolicyInode env) (stPolicyPath s)
      (Some next) (hd (hDisk h) disks1) = (None, disks2) →
    (kind = ApplyFull ∧ script = full ∨
     kind = ApplyDelta ∧ ∃ cur, stCurrent s = Some cur ∧
       RenderDelta (Some cur) (Some next) (stOpts s) = Some script) →
    apply_outcome (Ok ()) (withCurrent next kind (withAlloc alloc s))
      (MkHost (hd (hd (hDisk h) disks1) disks2) (hKernel h ++ [script]) ::
       ((λ d, MkHost d (hKernel h)) <$> (disks2 ++ disks1))).

Lemma applyKernel_cases current full opts h0 kind h' :
  applyKernel env current next full opts h0 = Some (kind, h') →
  ∃ script, h' = MkHost (hDisk h0) (hKernel h0 ++ [script]) ∧
    (kind = ApplyFull ∧ script = full ∨
     kind = ApplyDelta ∧ ∃ cur, current = Some cur ∧ RenderDelta (Some cur) (Some next) opts = Some script).
Proof.
  unfold applyKernel. destruct current as [cur|]; cbn [mbind option_bind].
  2: { unfold runScript. destruct (eRefuse env full); [done|]. intros [= <- <-]. eauto. }
  destruct (RenderDelta (Some cur) (Some next) opts) as [sc|] eqn:Hd; cbn [mbind option_bind].
  2: { unfold runScript. destruct (eRefuse env full); [done|]. intros [= <- <-]. eauto. }
  unfold runScript. destruct (eRefuse env sc); cbn.
  - destruct (eRefuse env full); [done|]. intros [= <- <-]. eauto.
  - intros [= <- <-]. eauto 10.
Qed.

Lemma Store_Apply_cases r s' trace :
  Store_Apply env policy s h = (r, s', trace) → apply_outcome r s' trace.
Proof.
  unfold Store_Apply. fold next. case_decide; [intros [= <- <- <-]; constructor|].
  destruct (Allocate _ _ _) as [[marks alloc]|e] eqn:Ha; [|intros [= <- <- <-]; constructor].
  destruct (Render _ _ _) as [full|e] eqn:Hr; [|intros [= <- <- <-]; constructor].
  destruct (Allocator_Save _ _ _ _ _ _) as [err1 disks1] eqn:Hs1. cbn [fst snd].
  destruct err1 as [e|]; [intros [= <- <- <-]; by eapply out_marks|].
  cbn [stPolicyPath withAlloc stCurrent stOpts].
  destruct (PolicyFile_Save _ _ _ _ _ _) as [err2 disks2] eqn:Hs2. cbn [fst snd].
  rewrite <-fmap_app. destruct err2 as [e|].
  { intros [= <- <- <-]. eapply out_saved; [exact Ha|exact Hr|exact Hs1| |by rewrite Hs2].
    intros _. rewrite Hs2. eauto. }
  destruct (applyKernel _ _ _ _ _ _) as [[kind h']|] eqn:Hk.
  - intros [= <- <- <-]. apply applyKernel_cases in Hk as (script & -> & Hk). by eapply out_ok.
  - intros [= <- <- <-]. eapply out_saved; [exact Ha|exact Hr|exact Hs1|done|by rewrite Hs2].
Qed.

(** The installed policy and the kernel change together or not at all. *)
Lemma Store_Apply_spec r s' trace :
  store_ok s → alGen (stAlloc s) + 1 < 2 ^ 64 → names_distinct (wpInboundRules next) →
  Store_Apply env policy s h = (r, s', trace) →
  store_ok s' ∧ stOpts s' = stOpts s ∧ stPolicyPath s' = stPolicyPath s ∧ stMarksPath s' = stMarksPath s ∧
  match r with
  | Err _ => stCurrent s' = stCurrent s ∧ (∀ h', h' ∈ trace → hKernel h' = hKernel h) ∧ trace ≠ []
  | Ok _ => stCurrent s' = Some next ∧
      ∃ script, hKernel (hd h trace) = hKernel h ++ [script] ∧
        (Render (Some next) (marksOf (stAlloc s')) (stOpts s) = Ok script ∨
         ∃ cur, stCurrent s = Some cur ∧ RenderDelta (Some cur) (Some next) (stOpts s) = Some script)
  end ∧
  (∀ id m, id ∈ policy_ids (stCurrent s) → AllocMark (stAlloc s) id = Some m → AllocMark (stAlloc s') id = Some m).
Proof.
  intros Hok Hg Hn Hrun. apply Store_Apply_cases in Hrun.
  assert (∀ k (l : list Disk) h', h' ∈ (λ d, MkHost d k) <$> l → hKernel h' = k) as Hker
    by (intros k l h' (d & -> & _)%list_elem_of_fmap; done).
  inversion Hrun as [e He Hs' Ht|e marks alloc disks Ha Hsv He Hs' Ht
    |e marks alloc disks1 disks2 full Ha Hr Hsv Hpe Hpd He Hs' Ht
    |marks alloc full disks1 disks2 kind script Ha Hr Hsv Hps Hk He Hs' Ht]; subst r s'.
  - split_and!; try done. intros h' ->%list_elem_of_singleton. done.
  - split_and!; try done.
    + intros h' Hh. by eapply Hker.
    + intros ->%fmap_nil_inv. by eapply Allocator_Save_trace.
  - destruct (allocated_ok _ _ _ _ Hok Hg Ha) as (Hok' & Hkeep & _). split_and!; try done.
    + intros h' Hh. by eapply Hker.
    + intros [_ ->]%fmap_nil_inv%app_eq_nil. by eapply Allocator_Save_trace.
  - destruct (allocated_ok _ _ _ _ Hok Hg Ha) as ([Hal Hl _] & Hkeep & Hval).
    unfold next in Hval. rewrite next_ids_canonical in Hval. split_and!; try done.
    + split; cbn; [done|done|]. intros p [= <-]. split_and!; [apply Canonical_idemp|done|].
      intros id Hi. by apply Hval.
    + exists script. cbn [hd hKernel]. split; [done|]. destruct Hk as [[_ ->]|[_ Hd]]; [left|by right].
      rewrite <-Hr. apply Render_ext. intros id Hi. rewrite lookup_marksOf. cbn. symmetry.
      apply Hval. unfold next in Hi. by rewrite next_ids_canonical in Hi.
Qed.
End apply.

(** ** The disk during an apply *)

(** Temporary files are new files, and the two paths differ. *)
Record env_ok (env : Env) (s : Store) (d : Disk) : Prop := {
  eo_paths : stPolicyPath s ≠ stMarksPath s;
  eo_marks_tmp : eMarksTmp env ≠ stMarksPath s ∧ eMarksTmp env ≠ stPolicyPath s;
  eo_policy_tmp : ePolicyTmp env ≠ stMarksPath s ∧ ePolicyTmp env ≠ stPolicyPath s;
  eo_inodes : eMarksInode env ≠ ePolicyInode env;
  eo_fresh path i : path = stPolicyPath s ∨ path = stMarksPath s → dEntries d !! path = Some i →
    i ≠ eMarksInode env ∧ i ≠ ePolicyInode env;
}.

Section disk.
Context `{PolicyCodecLaws} `{MarksCodecLaws}.
Context (env : Env) (s : Store) (h : Host).
Hypothesis Henv : env_ok env s (hDisk h).

(** What the save of the allocation does to the disk. *)
Lemma save_marks alloc err disks d' :
  Allocator_Save (eMarksFault env) (eMarksTmp env) (eMarksInode env) (stMarksPath s) alloc (hDisk h)
    = (err, disks) → d' ∈ disks →
  untouched (hDisk h) (stPolicyPath s) d' ∧
  (dEntries d' !! stMarksPath s = dEntries (hDisk h) !! stMarksPath s ∨
   dEntries d' !! stMarksPath s = Some (eMarksInode env)).
Proof.
  destruct Henv as [Hp [Hm1 Hm2] [Hp1 Hp2] Hin Hfr]. unfold Allocator_Save.
  destruct (json_Marshal (marks_file alloc)) as [body|].
  - intros [= _ <-] Hd'. split.
    + pose proof (WriteDurable_frame (eMarksTmp env) (eMarksInode env) (stMarksPath s)
        (seal marksMagic body) (hDisk h) (eMarksFault env) (stPolicyPath s)) as Hall.
      rewrite Forall_forall in Hall. apply Hall; [done|done| |done].
      intros He. destruct (Hfr _ _ (or_introl eq_refl) He). done.
    + eapply WriteDurable_read in Hd'; [|done|intros He; by destruct (Hfr _ _ (or_intror eq_refl) He)]. tauto.
  - intros [= _ <-] ->%list_elem_of_singleton. split; [|by left]. repeat split; auto.
Qed.

Lemma save_marks_ok alloc disks :
  alloc_ok alloc → alloc_ascii alloc → alLimit alloc = MaxRules → settled (hDisk h) (stMarksPath s) →
  Allocator_Save (eMarksFault env) (eMarksTmp env) (eMarksInode env) (stMarksPath s) alloc (hDisk h)
    = (None, disks) →
  let d1 := hd (hDisk h) disks in
  d1 ∈ disks ∧ settled d1 (stMarksPath s) ∧ LoadAllocator (ReadFile d1 (stMarksPath s)) = Ok (Some alloc).
Proof.
  intros Hok Hasc Hl Hset Hs. destruct Henv as [Hp [Hm1 Hm2] [Hp1 Hp2] Hin Hfr]. cbn zeta.
  assert (disks ≠ []) as Hne by (intros ->; by eapply Allocator_Save_trace).
  split; [destruct disks; [done|left]|]. unfold Allocator_Save in Hs.
  destruct (json_Marshal (marks_file alloc)) as [body|] eqn:Hb; [|done]. injection Hs as Hn <-.
  destruct (WriteDurable_crash (eMarksFault env) (eMarksTmp env) (eMarksInode env) (stMarksPath s)
    (seal marksMagic body) (hDisk h)) as (_ & Hok2 & _); [done| |done|].
  { intros He. by destruct (Hfr _ _ (or_intror eq_refl) He). }
  destruct (WriteDurable _ _ _ _ _ _) as [w tr]. cbn [fst snd] in *. destruct w; [done|].
  destruct (Hok2 eq_refl) as (Hr & Hst & _). unfold final in *. cbn [snd] in *. split; [done|].
  unfold LoadAllocator. rewrite Hr, <-Hl. by apply load_marks_file.
Qed.

(** The policy is written on a disk where the allocation is already safe. *)
Lemma save_policy d1 policy err disks2 d' :
  (dEntries d1 !! stPolicyPath s = dEntries (hDisk h) !! stPolicyPath s) →
  (dEntries d1 !! stMarksPath s = dEntries (hDisk h) !! stMarksPath s ∨
   dEntries d1 !! stMarksPath s = Some (eMarksInode env)) →
  PolicyFile_Save (ePolicyFault env) (ePolicyTmp env) (ePolicyInode env) (stPolicyPath s) policy d1
    = (err, disks2) → d' ∈ disks2 →
  untouched d1 (stMarksPath s) d'.
Proof.
  destruct Henv as [Hp [Hm1 Hm2] [Hp1 Hp2] Hin Hfr]. intros Hd1 Hd2 Hsv Hd'. unfold PolicyFile_Save in Hsv.
  destruct (Marshal policy) as [body|].
  - injection Hsv as _ <-.
    pose proof (WriteDurable_frame (ePolicyTmp env) (ePolicyInode env) (stPolicyPath s)
      (seal policyMagic body) d1 (ePolicyFault env) (stMarksPath s)) as Hall.
    rewrite Forall_forall in Hall. apply Hall; [done|done| |done].
    intros He. destruct Hd2 as [Hd2|Hd2]; rewrite He in Hd2; [|congruence].
    symmetry in Hd2. by destruct (Hfr _ _ (or_intror eq_refl) Hd2).
  - injection Hsv as _ <-. apply list_elem_of_singleton in Hd' as ->. repeat split; auto.
Qed.
End disk.

(** What a start after a crash finds: the files as before, with the kernel as
    before; or the new policy beside an allocation that covers its rules. *)
Definition crash_outcome `{PolicyCodec} `{MarksCodec} (old : option bytestring) (k : list string)
    (next : WorkloadPolicy) (cp cm : option bytestring) (k' : list string) : Prop :=
  (PolicyFile_Load cp = PolicyFile_Load old ∧ k' = k) ∨
  (PolicyFile_Load cp = Ok (Some next) ∧
   ∃ a, LoadAllocator cm = Ok (Some a) ∧ alloc_ok a ∧
        ∀ id, id ∈ policy_ids (Some next) → is_Some (AllocMark a id)).

Section durable_apply.
Context `{PolicyCodecLaws} `{MarksCodecLaws}.
Context (env : Env) (policy : option WorkloadPolicy) (s : Store) (h : Host).
Hypothesis Henv : env_ok env s (hDisk h).
Hypothesis Hsp : settled (hDisk h) (stPolicyPath s).
Hypothesis Hsm : settled (hDisk h) (stMarksPath s).

Let next := Canonical policy.
Let old := ReadFile (hDisk h) (stPolicyPath s).

(** While the allocation is saved the policy file is as it was. *)
Lemma crash_marks alloc err disks d' cp cm k :
  Allocator_Save (eMarksFault env) (eMarksTmp env) (eMarksInode env) (stMarksPath s) alloc (hDisk h)
    = (err, disks) → d' ∈ disks → after_crash d' (stPolicyPath s) cp →
  crash_outcome old k next cp cm k.
Proof.
  intros Hs Hd' Hcp. destruct (save_marks env s h Henv _ _ _ _ Hs Hd') as [Hu _].
  left. split; [|done]. rewrite (settled_crash d' (stPolicyPath s) cp); [|by eapply untouched_settled|done].
  by rewrite (untouched_read _ _ _ Hu).
Qed.

(** While the policy is saved the allocation beside it covers it. *)
Lemma crash_policy alloc disks1 err disks2 d' cp cm :
  alloc_ok alloc → alloc_ascii alloc → alLimit alloc = MaxRules →
  (∀ id, id ∈ policy_ids (Some next) → is_Some (AllocMark alloc id)) →
  Allocator_Save (eMarksFault env) (eMarksTmp env) (eMarksInode env) (stMarksPath s) alloc (hDisk h)
    = (None, disks1) →
  PolicyFile_Save (ePolicyFault env) (ePolicyTmp env) (ePolicyInode env) (stPolicyPath s)
    (Some next) (hd (hDisk h) disks1) = (err, disks2) →
  d' ∈ disks2 → after_crash d' (stPolicyPath s) cp → after_crash d' (stMarksPath s) cm →
  (∀ k, crash_outcome old k next cp cm k) ∧
  (err = None → d' = hd (hd (hDisk h) disks1) disks2 → ∀ k k', crash_outcome old k next cp cm k').
Proof.
  intros Hok Hasc Hl Hcov Hs Hp Hd' Hcp Hcm.
  destruct (save_marks_ok env s h Henv _ _ Hok Hasc Hl Hsm Hs) as (Hin1 & Hset1 & Hload1).
  set (d1 := hd (hDisk h) disks1) in *.
  destruct (save_marks env s h Henv _ _ _ _ Hs Hin1) as [Hu1 He1].
  pose proof (untouched_settled _ _ _ Hu1 Hsp) as Hsp1.
  pose proof (save_policy env s h Henv d1 _ _ _ _ (proj1 Hu1) He1 Hp Hd') as Hu2.
  assert (LoadAllocator cm = Ok (Some alloc)) as Hlm.
  { rewrite <-Hload1. f_equal. rewrite <-(untouched_read _ _ _ Hu2).
    apply settled_crash; [by eapply untouched_settled|done]. }
  assert (PolicyFile_Load cp = Ok (Some next) → ∀ k k', crash_outcome old k next cp cm k') as Hnew.
  { intros Hn k k'. right. split; [done|]. exists alloc. auto. }
  destruct (PolicyFile_Save_crash (ePolicyFault env) (ePolicyTmp env) (ePolicyInode env) (stPolicyPath s)
    (Some next) d1) as (Hall & Hfin & _).
  - apply (eo_policy_tmp _ _ _ Henv).
  - rewrite (proj1 Hu1). intros He. by destruct (eo_fresh _ _ _ Henv _ _ (or_introl eq_refl) He).
  - done.
  - rewrite Hp in Hall, Hfin. cbn [fst snd] in *. unfold next in Hall, Hfin. rewrite Canonical_idemp in Hall, Hfin.
    fold next in Hall, Hfin. split.
    + intros k. destruct (Hall d' cp Hd' Hcp) as [Ho|Hn]; [|by apply Hnew].
      left. split; [|done]. rewrite Ho. f_equal. by apply untouched_read.
    + intros -> Hd k k'. apply Hnew. destruct (Hfin eq_refl) as (_ & _ & Hc). apply Hc.
      replace (hd d1 disks2) with d' by done. done.
Qed.
End durable_apply.

(** C33: an apply persists before it enforces.  Take a store whose state directory
    is on stable storage, and any apply: whatever write fails or script is
    refused, if the host crashes at any moment during the apply, then what the
    next start loads is either the old policy, and then the kernel has not been
    touched, or the new policy with a mark allocation that has a value for each
    of its rules.  So no policy reaches the kernel before its durable copy. *)
Theorem Store_Apply_durable `{PolicyCodecLaws} `{MarksCodecLaws} env policy s h r s' trace :
  env_ok env s (hDisk h) → store_ok s → alGen (stAlloc s) + 1 < 2 ^ 64 →
  alloc_ascii (stAlloc s) → Forall ascii_text (next_ids policy) →
  settled (hDisk h) (stPolicyPath s) → settled (hDisk h) (stMarksPath s) →
  Store_Apply env policy s h = (r, s', trace) →
  ∀ h' cp cm, h' ∈ trace →
    after_crash (hDisk h') (stPolicyPath s) cp → after_crash (hDisk h') (stMarksPath s) cm →
    crash_outcome (ReadFile (hDisk h) (stPolicyPath s)) (hKernel h) (Canonical policy) cp cm (hKernel h').
Proof.
  intros Henv Hok Hg Hasc Hnasc Hsp Hsm Hrun h' cp cm Hh' Hcp Hcm. apply Store_Apply_cases in Hrun.
  assert (∀ marks alloc, Allocate (stAlloc s) (Some (Canonical policy)) (stCurrent s) = Ok (marks, alloc) →
    alloc_ok alloc ∧ alloc_ascii alloc ∧ alLimit alloc = MaxRules ∧
    ∀ id, id ∈ policy_ids (Some (Canonical policy)) → is_Some (AllocMark alloc id)) as Halloc.
  { intros marks alloc Ha. destruct (allocated_ok _ _ _ _ Hok Hg Ha) as ([Hal Hl _] & _ & Hval).
    split_and!; [done| |done|].
    - eapply alloc_ascii_next; [apply (so_alloc _ Hok)|done..].
    - intros id Hi. apply Hval. by rewrite next_ids_canonical. }
  inversion Hrun as [e He Hs' Ht|e marks alloc disks Ha Hsv He Hs' Ht
    |e marks alloc disks1 disks2 full Ha Hr Hsv Hpe Hpd He Hs' Ht
    |marks alloc full disks1 disks2 kind script Ha Hr Hsv Hps Hk He Hs' Ht]; subst r s' trace.
  - apply list_elem_of_singleton in Hh' as ->. left. split; [|done]. f_equal. by apply settled_crash.
  - apply list_elem_of_fmap in Hh' as (d' & -> & Hd'). by eapply crash_marks.
  - destruct (Halloc _ _ Ha) as (Hal & Has & Hl & Hcov).
    apply list_elem_of_fmap in Hh' as (d' & -> & [Hd'|Hd']%elem_of_app); [|by eapply crash_marks].
    destruct (PolicyFile_Save _ _ _ _ _ _) as [err tr] eqn:Hps. cbn [snd] in Hpd. subst tr.
    destruct (crash_policy env policy s h Henv Hsp Hsm alloc disks1 err disks2 d' cp cm) as [Hc _]; done.
  - destruct (Halloc _ _ Ha) as (Hal & Has & Hl & Hcov).
    apply elem_of_cons in Hh' as [->|(d' & -> & [Hd'|Hd']%elem_of_app)%list_elem_of_fmap]; [| |by eapply crash_marks].
    + cbn [hDisk hKernel] in *. 
      assert (hd (hd (hDisk h) disks1) disks2 ∈ disks2) as Hin.
      { destruct disks2; [by apply PolicyFile_Save_trace in Hps|left]. }
      destruct (crash_policy env policy s h Henv Hsp Hsm alloc disks1 None disks2
        (hd (hd (hDisk h) disks1) disks2) cp cm) as [_ Hc]; try done. by apply Hc.
    + destruct (crash_policy env policy s h Henv Hsp Hsm alloc disks1 None disks2 d' cp cm) as [Hc _]; done.
Qed.

(** ** The life of a store

    A start on an empty state directory, applies, and restarts of the daemon or
    the host whose re-apply succeeds.  Counters are far from their bounds, rule
    ids are ASCII and a policy's set names are distinct. *)

Definition printable (opts : Options) (log : list string) : Prop := ∃ scs, log = printScript opts <$> scs.

Section life.
Context `{PolicyCodec} `{MarksCodec}.
Context (pp mp : string) (opts : Options).

Inductive store_run : Store → Host → Prop :=
| sr_new h :
    printable opts (hKernel h) → ReadFile (hDisk h) pp = None → ReadFile (hDisk h) mp = None →
    store_run (Store_New pp mp opts) h
| sr_apply env policy s h r s' trace :
    store_run s h → env_ok env s (hDisk h) → alGen (stAlloc s) + 1 < 2 ^ 64 →
    names_distinct (wpInboundRules (Canonical policy)) → Forall ascii_text (next_ids policy) →
    Store_Apply env policy s h = (r, s', trace) → store_run s' (hd h trace)
| sr_start env s h log s1 s2 h2 :
    store_run s h → (log = hKernel h ∨ log = []) →
    Store_Load (Store_New pp mp opts) (MkHost (hDisk h) log) = (None, s1) →
    (∀ a, LoadAllocator (ReadFile (hDisk h) mp) = Ok (Some a) → alGen a + 2 < 2 ^ 64) →
    Store_Restore env s1 (MkHost (hDisk h) log) = (Ok (), s2, h2) → store_run s2 h2.
End life.

(** What the files hold loads to something consistent. *)
Record disk_inv `{PolicyCodec} `{MarksCodec} (s : Store) (d : Disk) : Prop := {
  di_alloc a : LoadAllocator (ReadFile d (stMarksPath s)) = Ok (Some a) →
    alloc_ok a ∧ alLimit a = MaxRules ∧ alloc_ascii a;
  di_policy p : PolicyFile_Load (ReadFile d (stPolicyPath s)) = Ok (Some p) →
    names_distinct (wpInboundRules p) ∧ Forall ascii_text (policy_ids (Some p));
}.

Record run_inv `{PolicyCodec} `{MarksCodec} (s : Store) (h : Host) : Prop := {
  ri_store : store_ok s;
  ri_ascii : alloc_ascii (stAlloc s);
  ri_disk : disk_inv s (hDisk h);
  ri_log : printable (stOpts s) (hKernel h);
  ri_kernel p : stCurrent s = Some p → kernel_holds (stOpts s) (hKernel h) p (marksOf (stAlloc s));
}.

Section life_proofs.
Context `{PolicyCodecLaws} `{MarksCodecLaws}.

(** The files during an apply load as before or to what is being saved. *)
Lemma apply_disk env policy s h alloc disks1 err1 :
  env_ok env s (hDisk h) → alloc_ok alloc → alLimit alloc = MaxRules → alloc_ascii alloc →
  names_distinct (wpInboundRules (Canonical policy)) → Forall ascii_text (next_ids policy) →
  disk_inv s (hDisk h) →
  Allocator_Save (eMarksFault env) (eMarksTmp env) (eMarksInode env) (stMarksPath s) alloc (hDisk h)
    = (err1, disks1) →
  (∀ d', d' ∈ disks1 → disk_inv s d') ∧
  (∀ err2 disks2 d', PolicyFile_Save (ePolicyFault env) (ePolicyTmp env) (ePolicyInode env) (stPolicyPath s)
     (Some (Canonical policy)) (hd (hDisk h) disks1) = (err2, disks2) → d' ∈ disks2 → disk_inv s d').
Proof.
  intros Henv Hok Hl Hasc Hn Hna [Hda Hdp] Hs.
  assert (hd (hDisk h) disks1 ∈ disks1) as Hin1.
  { destruct disks1; [|left]. exfalso. by eapply Allocator_Save_trace. }
  assert (∀ d', d' ∈ disks1 → disk_inv s d') as Hd1.
  { intros d' Hd'. destruct (save_marks env s h Henv _ _ _ _ Hs Hd') as [Hu _]. split.
    - intros a. unfold Allocator_Save in Hs. destruct (json_Marshal (marks_file alloc)) as [body|] eqn:Hb.
      2: { injection Hs as _ <-. apply list_elem_of_singleton in Hd' as ->. apply Hda. }
      injection Hs as _ <-. eapply WriteDurable_read in Hd' as [_ Hr];
        [|apply (eo_marks_tmp _ _ _ Henv)|intros He; by destruct (eo_fresh _ _ _ Henv _ _ (or_intror eq_refl) He)].
      destruct Hr as [->| ->]; [apply Hda|]. unfold LoadAllocator. rewrite <-Hl, load_marks_file by done.
      intros Heq. assert (alloc = a) as <- by congruence. auto.
    - rewrite (untouched_read _ _ _ Hu). apply Hdp. }
  split; [done|]. intros err2 disks2 d' Hp Hd'.
  destruct (save_marks env s h Henv _ _ _ _ Hs Hin1) as [Hu1 He1].
  pose proof (save_policy env s h Henv _ _ _ _ _ (proj1 Hu1) He1 Hp Hd') as Hu2.
  destruct (Hd1 _ Hin1) as [Ha1 Hp1]. split; [by rewrite (untouched_read _ _ _ Hu2)|]. intros p.
  unfold PolicyFile_Save in Hp. destruct (Marshal (Some (Canonical policy))) as [body|] eqn:Hb.
  2: { injection Hp as _ <-. apply list_elem_of_singleton in Hd' as ->. apply Hp1. }
  injection Hp as _ <-. eapply WriteDurable_read in Hd' as [_ Hr]; [|apply (eo_policy_tmp _ _ _ Henv)|].
  - destruct Hr as [->| ->]; [apply Hp1|]. rewrite (Load_sealed _ _ Hb), Canonical_idemp.
    intros Heq. assert (Canonical policy = p) as <- by congruence. split; [done|]. exact Hna.
  - rewrite (proj1 Hu1). intros He. by destruct (eo_fresh _ _ _ Henv _ _ (or_introl eq_refl) He).
Qed.

Lemma disk_inv_paths s s' d :
  stPolicyPath s' = stPolicyPath s → stMarksPath s' = stMarksPath s → disk_inv s d → disk_inv s' d.
Proof. intros Hp Hm [Ha Hb]. split; [by rewrite Hm|by rewrite Hp]. Qed.

(** The files and the allocation after an apply. *)
Lemma apply_files env policy s h r s' trace :
  store_ok s → alloc_ascii (stAlloc s) → disk_inv s (hDisk h) → env_ok env s (hDisk h) →
  alGen (stAlloc s) + 1 < 2 ^ 64 →
  names_distinct (wpInboundRules (Canonical policy)) → Forall ascii_text (next_ids policy) →
  Store_Apply env policy s h = (r, s', trace) →
  alloc_ascii (stAlloc s') ∧ disk_inv s (hDisk (hd h trace)).
Proof.
  intros Hok Hasc Hdisk Henv Hg Hn Hna Hrun. apply Store_Apply_cases in Hrun.
  assert (∀ marks alloc, Allocate (stAlloc s) (Some (Canonical policy)) (stCurrent s) = Ok (marks, alloc) →
    alloc_ok alloc ∧ alLimit alloc = MaxRules ∧ alloc_ascii alloc) as Halloc.
  { intros marks alloc Ha. destruct (allocated_ok _ _ _ _ Hok Hg Ha) as ([Hal Hl _] & _).
    split_and!; [done|done|]. eapply alloc_ascii_next; [apply (so_alloc _ Hok)|done..]. }
  inversion Hrun as [e He Hs' Ht|e marks alloc disks Ha Hsv He Hs' Ht
    |e marks alloc disks1 disks2 full Ha Hr Hsv Hpe Hpd He Hs' Ht
    |marks alloc full disks1 disks2 kind script Ha Hr Hsv Hps Hk He Hs' Ht]; subst r s' trace.
  - done.
  - destruct (Halloc _ _ Ha) as (Hal & Hl & Has). split; [done|].
    destruct (apply_disk env policy s h alloc disks (Some e)) as [Hd1 _]; try done.
    destruct disks as [|d l]; [by apply Allocator_Save_trace in Hsv|]. apply Hd1. left.
  - destruct (Halloc _ _ Ha) as (Hal & Hl & Has). split; [done|].
    destruct (apply_disk env policy s h alloc disks1 None) as [_ Hd2]; try done.
    destruct (PolicyFile_Save _ _ _ _ _ _) as [err tr] eqn:Hps. cbn [snd] in Hpd. subst tr.
    destruct disks2 as [|d l]; [by apply PolicyFile_Save_trace in Hps|]. eapply Hd2; [done|left].
  - destruct (Halloc _ _ Ha) as (Hal & Hl & Has). split; [done|].
    destruct (apply_disk env policy s h alloc disks1 None) as [_ Hd2]; try done.
    cbn [hd hDisk]. destruct disks2 as [|d l]; [by apply PolicyFile_Save_trace in Hps|].
    eapply Hd2; [done|left].
Qed.

Lemma run_inv_apply env policy s h r s' trace :
  run_inv s h → env_ok env s (hDisk h) → alGen (stAlloc s) + 1 < 2 ^ 64 →
  names_distinct (wpInboundRules (Canonical policy)) → Forall ascii_text (next_ids policy) →
  Store_Apply env policy s h = (r, s', trace) → run_inv s' (hd h trace).
Proof.
  intros [Hok Hasc Hdisk Hlog Hker] Henv Hg Hn Hna Hrun.
  destruct (Store_Apply_spec env policy s h r s' trace Hok Hg Hn Hrun) as (Hok' & Ho & Hpp & Hmp & Hr & Hkeep).
  assert (alloc_ascii (stAlloc s') ∧ disk_inv s (hDisk (hd h trace))) as [Hasc' Hdisk']
    by (by eapply apply_files).
  assert (∀ p, stCurrent s' = Some p →
    kernel_holds (stOpts s) (hKernel (hd h trace)) p (marksOf (stAlloc s'))) as Hker'.
  { destruct r as [[]|e].
    - destruct Hr as (Hc & script & -> & Hs). intros p Hp. rewrite Hc in Hp.
      assert (Canonical policy = p) as <- by congruence.
      destruct Hs as [Hfull|(cur & Hcur & Hdelta)].
      + apply kernel_full; [done|apply Canonical_idemp|done].
      + destruct (so_current _ Hok cur Hcur) as (Hcc & Hcn & Hck).
        pose proof (Canonical_idemp policy) as Hnc.
        eapply (kernel_holds_ext _ _ _ (marksOf (stAlloc s))); [|by eapply kernel_delta; eauto].
        intros id Hi. rewrite (delta_ids _ _ _ _ Hdelta Hcc Hnc) in Hi. rewrite !lookup_marksOf.
        destruct (Hck id Hi) as [m Hm]. rewrite Hm. symmetry. apply Hkeep; [|done]. by rewrite Hcur.
    - destruct Hr as (Hc & Hk & Hne). intros p Hp. rewrite Hc in Hp.
      rewrite (Hk (hd h trace)) by (destruct trace; [done|left]).
      eapply kernel_holds_ext; [|by apply Hker]. intros id Hi. rewrite !lookup_marksOf.
      destruct (so_current _ Hok p Hp) as (_ & _ & Hck). destruct (Hck id Hi) as [m Hm]. rewrite Hm. symmetry.
      apply Hkeep; [|done]. by rewrite Hp. }
  split; [done|done|by eapply disk_inv_paths|rewrite Ho|by rewrite Ho].
  destruct r as [[]|e].
  - destruct Hr as (Hc & _). destruct (Hker' _ Hc) as (scs & _ & Hl & _). by exists scs.
  - destruct Hr as (_ & Hk & Hne). rewrite (Hk (hd h trace)) by (destruct trace; [done|left]). done.
Qed.

(** What [Load] makes of consistent files. *)
Lemma Load_ok pp mp opts d log s1 :
  let s0 := Store_New pp mp opts in
  disk_inv s0 d →
  (∀ a, LoadAllocator (ReadFile d mp) = Ok (Some a) → alGen a + 2 < 2 ^ 64) →
  Store_Load s0 (MkHost d log) = (None, s1) →
  store_ok s1 ∧ alloc_ascii (stAlloc s1) ∧ stOpts s1 = opts ∧ stPolicyPath s1 = pp ∧ stMarksPath s1 = mp ∧
  alGen (stAlloc s1) + 1 < 2 ^ 64.
Proof.
  cbn zeta. intros [Hda Hdp] Hg. unfold Store_Load. cbn [hDisk Store_New stPolicyPath stMarksPath stOpts stLast] in *.
  destruct (PolicyFile_Load (ReadFile d pp)) as [p|e] eqn:Hp; [|done].
  set (alloc := match LoadAllocator (ReadFile d mp) with Ok (Some a) => a | _ => NewAllocator end).
  assert (alloc_ok alloc ∧ alLimit alloc = MaxRules ∧ alloc_ascii alloc ∧ alGen alloc + 2 < 2 ^ 64)
    as (Hok & Hl & Hasc & Hgen).
  { unfold alloc. destruct (LoadAllocator (ReadFile d mp)) as [[a|]|e] eqn:Ha.
    - destruct (Hda a eq_refl) as (? & ? & ?). auto.
    - split_and!; try done; [by apply newAllocator_ok|]. intros id [x Hx]. cbn in Hx. by rewrite lookup_empty in Hx.
    - split_and!; try done; [by apply newAllocator_ok|]. intros id [x Hx]. cbn in Hx. by rewrite lookup_empty in Hx. }
  destruct p as [p|].
  2: { intros [= <-]. cbn [stAlloc withAlloc stOpts stPolicyPath stMarksPath Store_New].
       split_and!; try done. lia. }
  destruct (Allocate alloc (Some p) (Some p)) as [[marks a]|e] eqn:Ha; [|done]. intros [= <-]. cbn.
  assert (Canonical (Some p) = p) as Hcan.
  { unfold PolicyFile_Load in Hp. destruct (ReadFile d pp); [|done]. destruct (unseal _ _); [|done].
    destruct (Unmarshal _) as [q|]; [|done]. assert (p = Canonical (Some q)) as -> by congruence.
    apply Canonical_idemp. }
  destruct (Hdp p eq_refl) as [Hn Hna].
  destruct (Allocate_ok alloc (Some p) (Some p) marks a Hok ltac:(lia) Ha) as (Hok' & Hl' & Hg' & Hdom & Hval & _).
  split_and!; try done; [|eapply (alloc_ascii_next alloc (Some p)); [done|lia|done| |by rewrite Hcan]|lia].
  - split; cbn; [done|congruence|]. intros q [= <-]. split_and!; [done|done|].
    intros id Hi. destruct (proj2 (Hdom id)) as [m Hm].
    { unfold next_ids. by rewrite Hcan. }
    destruct (Hval id m Hm) as (_ & _ & ->). eauto.
  - unfold next_ids. by rewrite Hcan.
Qed.

Lemma run_inv_start pp mp opts env d log s1 s2 h2 :
  let s0 := Store_New pp mp opts in
  disk_inv s0 d → printable opts log →
  (∀ a, LoadAllocator (ReadFile d mp) = Ok (Some a) → alGen a + 2 < 2 ^ 64) →
  Store_Load s0 (MkHost d log) = (None, s1) →
  Store_Restore env s1 (MkHost d log) = (Ok (), s2, h2) → run_inv s2 h2.
Proof.
  cbn zeta. intros Hdisk Hlog Hg Hload.
  destruct (Load_ok pp mp opts d log s1 Hdisk Hg Hload) as (Hok & Hasc & Ho & Hpp & Hmp & Hgen).
  assert (disk_inv s1 d) as Hdisk1 by (by apply (disk_inv_paths (Store_New pp mp opts))).
  unfold Store_Restore. destruct (stCurrent s1) as [p|] eqn:Hc.
  2: { intros [= <- <-]. split; try done; [by rewrite Ho|]. intros p Hp. congruence. }
  destruct (Allocate (stAlloc s1) (Some p) (Some p)) as [[marks a]|e] eqn:Ha; [|done].
  destruct (Render (Some p) marks (stOpts s1)) as [script|e] eqn:Hr; [|done].
  unfold runScript. destruct (eRefuse env script); [done|]. intros [= <- <-].
  destruct (so_current _ Hok p Hc) as (Hcan & Hn & Hk).
  destruct (Allocate_ok _ _ _ _ _ (so_alloc _ Hok) Hgen Ha) as (_ & _ & _ & _ & _ & Hkept & _).
  assert (kernel_holds opts (log ++ [script]) p (marksOf (stAlloc s1))) as Hkh.
  { apply kernel_full; [done|done|]. rewrite <-Hr, Ho. apply Render_ext. intros id Hi. rewrite lookup_marksOf.
    unfold next_ids in Hi. rewrite Hcan in Hi. destruct (Hk id Hi) as [m Hm]. rewrite Hm. symmetry.
    apply Hkept; [|done]. unfold next_ids. by rewrite Hcan. }
  split; try done.
  - destruct Hok. by split.
  - by apply (disk_inv_paths s1).
  - cbn [withLast stOpts hKernel]. rewrite Ho. destruct Hkh as (scs & _ & -> & _). by exists scs.
  - cbn [withLast stOpts hKernel stCurrent stAlloc]. rewrite Ho. intros q Hq.
    assert (q = p) as -> by congruence. done.
Qed.

Lemma store_run_inv pp mp opts s h :
  store_run pp mp opts s h →
  run_inv s h ∧ stOpts s = opts ∧ stPolicyPath s = pp ∧ stMarksPath s = mp.
Proof.
  induction 1 as [h Hlog Hp Hm|env policy s h r s' trace Hrun IH Henv Hg Hn Hna Ha
    |env s h log s1 s2 h2 Hrun IH Hlog Hload Hg Hrest].
  - split; [|done]. split; [apply Store_New_ok| | |done|done].
    + intros id [x Hx]. cbn in Hx. by rewrite lookup_empty in Hx.
    + split; cbn [stMarksPath stPolicyPath Store_New]; [rewrite Hm|rewrite Hp]; done.
  - destruct IH as (IH & Ho & Hpp & Hmp). split; [by eapply run_inv_apply|].
    destruct (Store_Apply_spec env policy s h r s' trace (ri_store _ _ IH) Hg Hn Ha) as (_ & ? & ? & ? & _).
    split_and!; congruence.
  - destruct IH as (IH & Ho & Hpp & Hmp). pose proof (ri_disk _ _ IH) as Hd. pose proof (ri_log _ _ IH) as Hl.
    assert (disk_inv (Store_New pp mp opts) (hDisk h)) as Hd0 by (by apply (disk_inv_paths s)).
    split.
    + eapply run_inv_start; [exact Hd0| |exact Hg|exact Hload|exact Hrest].
      destruct Hlog as [->| ->]; [by rewrite <-Ho|]. by exists [].
    + destruct (Load_ok pp mp opts (hDisk h) log s1 Hd0 Hg Hload) as (_ & _ & Ho1 & Hp1 & Hm1 & _).
      unfold Store_Restore in Hrest. destruct (stCurrent s1); [|by simplify_eq].
      destruct (Allocate _ _ _) as [[? ?]|]; [|done]. destruct (Render _ _ _); [|done].
      destruct (runScript _ _ _); [|done]. by simplify_eq.
Qed.
End life_proofs.

(** A failed re-apply changes nothing. *)
Lemma Restore_err `{PolicyCodec} `{MarksCodec} env s h e s' h' :
  Store_Restore env s h = (Err e, s', h') → s' = s ∧ h' = h.
Proof.
  unfold Store_Restore. destruct (stCurrent s); [|done].
  destruct (Allocate _ _ _) as [[marks a]|]; [|intros Hr; by simplify_eq].
  destruct (Render _ _ _); [|intros Hr; by simplify_eq].
  destruct (runScript _ _ _); intros Hr; by simplify_eq.
Qed.

(** C4: the kernel holds the installed policy.  Over any life of a store, through
    applies that succeed as set updates or as full renderings, applies that fail
    at any write or are refused, and restarts whose re-apply succeeds, whenever
    the store has an installed policy the scripts the kernel accepted are the
    text of scripts that leave the owned table of exactly that policy, under the
    values of the current allocation, up to the order of set elements; and a
    packet's verdict is that table's. *)
Theorem store_kernel_agrees `{PolicyCodecLaws} `{MarksCodecLaws} pp mp opts s h p :
  store_run pp mp opts s h → stCurrent s = Some p →
  ∃ scs t, hKernel h = printScript opts <$> scs ∧ foldl execScript None scs = Some t ∧
    t ≡ tableOf p (marksOf (stAlloc s)) ∧
    ∀ pk, evalTable t pk = evalTable (tableOf p (marksOf (stAlloc s))) pk.
Proof.
  intros Hrun Hc. destruct (store_run_inv _ _ _ _ _ Hrun) as (Hinv & Ho & _).
  destruct (ri_kernel _ _ Hinv p Hc) as (scs & t & Hl & Ht & Heq). rewrite Ho in Hl.
  exists scs, t. split_and!; [done|done|done|]. intros pk. by rewrite Heq.
Qed.

(** Connection marks are attributed to the right rule.  Over any life of a
    store, a connection that the installed table admits by a rule, whatever its
    mark was before, is classified ALLOWED by that rule; one the simulation
    terminal passes is WOULD_BLOCK; and the bits outside the agent's region are
    as they were. *)
Theorem Classify_attributes `{PolicyCodecLaws} `{MarksCodecLaws} pp mp opts s h p r mark :
  store_run pp mp opts s h → stCurrent s = Some p → r ∈ wpInboundRules p → 0 ≤ mark < 2 ^ 32 →
  ∃ m, marksOf (stAlloc s) !! rrRuleId r = Some m ∧
    Classify s (setRegion mark (RuleMark m)) = (POLICY_DECISION_ALLOWED, rrRuleId r) ∧
    Classify s (setRegion mark WouldBlockMark) = (POLICY_DECISION_WOULD_BLOCK, "") ∧
    Z.land (setRegion mark (RuleMark m)) ForeignMask = Z.land mark ForeignMask.
Proof.
  intros Hrun Hc Hr Hmark. destruct (store_run_inv _ _ _ _ _ Hrun) as (Hinv & _).
  pose proof (ri_store _ _ Hinv) as Hok. destruct (so_current _ Hok p Hc) as (_ & _ & Hk).
  destruct (Hk (rrRuleId r)) as [m Hm]; [unfold policy_ids; apply list_elem_of_fmap; eauto|].
  exists m. rewrite lookup_marksOf. split; [done|].
  apply fmap_Some in Hm as (sl & Hsl & ->). destruct (ao_slot _ (so_alloc _ Hok) _ _ Hsl) as [Hbm _].
  assert (1 ≤ slMark sl < alNext (stAlloc s)) as Hrange by (apply (ao_dense _ (so_alloc _ Hok)); eauto).
  pose proof (ao_next _ (so_alloc _ Hok)) as Hnx. rewrite (so_limit _ Hok) in Hnx.
  unfold MaxRules, WouldBlockIndex in Hnx.
  destruct (setRegion_index mark (slMark sl)) as [Hi Hf]; [done|lia|].
  split_and!; [| |done].
  - unfold Classify, AllocRule. rewrite Hi, Hbm. unfold WouldBlockIndex. by rewrite decide_False by lia.
  - unfold Classify. change WouldBlockMark with (RuleMark WouldBlockIndex).
    destruct (setRegion_index mark WouldBlockIndex) as [-> _]; [done|done|]. by rewrite decide_True.
Qed.

(** ** The store as a policy store *)

Section instance.
Context `{PolicyCodec} `{MarksCodec} (env : Env).

#[global] Instance nft_store : PolicyStore (Store * Host) StoreError := {
  ps_Apply p st := let '(r, s', trace) := Store_Apply env p st.1 st.2 in (r, (s', hd st.2 trace));
  ps_Current st := stCurrent st.1;
}.

#[global] Instance nft_store_laws : PolicyStoreLaws (Store * Host) StoreError.
Proof.
  split; cbn; intros p [s h]; [intros [s' h']|intros e [s' h']]; cbn;
    destruct (Store_Apply env p s h) as [[r s1] trace] eqn:Ha; intros [= -> -> _];
    apply Store_Apply_cases in Ha; by inversion Ha.
Qed.
End instance.

(** ** An example life *)

Module StoreExample.
(** The [k]-th call: no write fails, and the kernel refuses everything or
    nothing. *)
Definition env (k : nat) (refuse : bool) : Env :=
  MkEnv None ".m" (2 * k) None ".p" (2 * k + 1) (λ _, refuse).
Definition opts : Options := MkOptions "" 0.
Definition new : Store := Store_New "policy.bin" "marks.bin" opts.
Definition host : Host := MkHost emptyDisk [].

Definition ruleA (peers : list string) : ResolvedRule :=
  MkResolvedRule "a/tcp" peers PROTOCOL_TCP [MkPortRange 443 443].
Definition ruleB : ResolvedRule := MkResolvedRule "b/tcp" ["192.0.2.0/24"] PROTOCOL_TCP [MkPortRange 22 22].
Definition v1 : WorkloadPolicy := MkWorkloadPolicy 1 ENFORCEMENT_MODE_ENFORCED [ruleA ["10.0.0.0/8"]; ruleB].
Definition v2 : WorkloadPolicy := MkWorkloadPolicy 2 ENFORCEMENT_MODE_ENFORCED [ruleA ["10.0.0.0/8"]].
Definition v3 : WorkloadPolicy :=
  MkWorkloadPolicy 3 ENFORCEMENT_MODE_ENFORCED [ruleA ["10.0.0.0/8"; "172.16.0.0/12"]].

(** A codec for these policies, so that the example is quick to evaluate. *)
#[local] Instance codec : PolicyCodec := {
  proto_Marshal p := (λ x, [Z.of_nat x.1]) <$> list_find (λ q, q = p) [v1; v2; v3];
  proto_Unmarshal b := match b with [n] => [v1; v2; v3] !! Z.to_nat n | _ => None end;
}.

#[local] Instance codec_laws : PolicyCodecLaws.
Proof.
  split. intros p b (x & Hf & ->)%fmap_Some. destruct x as [i q].
  apply list_find_Some in Hf as (Hi & -> & _). cbn [proto_Unmarshal codec fst]. by rewrite Nat2Z.id.
Qed.

(** Apply [v1]; apply [v2], which is persisted and refused; start again, where
    the re-apply is refused too; apply [v3], which the kernel accepts. *)
Definition first := Store_Apply (env 0 false) (Some v1) new host.
Definition store1 : Store := first.1.2.
Definition host1 : Host := hd host first.2.
Definition second := Store_Apply (env 1 true) (Some v2) store1 host1.
Definition store2 : Store := second.1.2.
Definition host2 : Host := hd host1 second.2.
Definition started := Store_Load new host2.
Definition restored := Store_Restore (env 2 true) started.2 host2.
Definition third := Store_Apply (env 3 false) (Some v3) restored.1.2 restored.2.
Definition store3 : Store := third.1.2.
Definition host3 : Host := hd restored.2 third.2.

(** What the kernel then holds. *)
Definition scripts : list Script :=
  [ScReplace ChainName (tableOf v1 (marksOf (stAlloc store1)));
   ScElements [MkElementCmd true (SetName "a/tcp" false) ["172.16.0.0/12"]]].
Definition packet : Packet := MkPacket false CtNew (Addr4 0xc0000207) PROTOCOL_TCP 22 0.

Ltac computed := apply (bool_decide_unpack _); vm_compute; exact I.

Definition ok {E A} (r : result E A) : bool := match r with Ok _ => true | Err _ => false end.

(** A call split into what it returns, its store and its host. *)
Lemma split_ok {E S T} (c : result E unit * S * T) : ok c.1.1 = true → c = (Ok (), c.1.2, c.2).
Proof. destruct c as [[[[]|] ?] ?]; done. Qed.
Lemma split_err {E S T} (c : result E unit * S * T) :
  ok c.1.1 = false → ∃ e, c = (Err e, c.1.2, c.2).
Proof. destruct c as [[[[]|] ?] ?]; [done|eauto]. Qed.

Lemma first_ok : Store_Apply (env 0 false) (Some v1) new host = (Ok (), store1, first.2).
Proof. apply (split_ok first). vm_compute. reflexivity. Qed.
Lemma second_err : ∃ e, Store_Apply (env 1 true) (Some v2) store1 host1 = (Err e, store2, second.2).
Proof. apply (split_err second). vm_compute. reflexivity. Qed.
Lemma third_ok :
  Store_Apply (env 3 false) (Some v3) restored.1.2 restored.2 = (Ok (), store3, third.2).
Proof. apply (split_ok third). vm_compute. reflexivity. Qed.

Lemma entries1 path i :
  path = "policy.bin" ∨ path = "marks.bin" → dEntries (hDisk host1) !! path = Some i → (i < 2)%nat.
Proof.
  intros [->| ->] Hi; vm_compute in Hi; injection Hi as <-; lia.
Qed.

Lemma env_fresh k refuse s d :
  stPolicyPath s = "policy.bin" → stMarksPath s = "marks.bin" →
  (∀ path i, path = "policy.bin" ∨ path = "marks.bin" → dEntries d !! path = Some i → (i < 2 * k)%nat) →
  env_ok (env k refuse) s d.
Proof.
  intros Hp Hm Hi. split; rewrite ?Hp, ?Hm; cbn [env eMarksTmp ePolicyTmp eMarksInode ePolicyInode];
    [done|done|done|lia|]. intros path i Hpath He. specialize (Hi path i Hpath He). lia.
Qed.

Lemma run1 : store_run "policy.bin" "marks.bin" opts store1 host1.
Proof.
  apply (sr_apply "policy.bin" "marks.bin" opts (env 0 false) (Some v1) new host (Ok ()) store1 first.2).
  - apply sr_new; [by exists []|done|done].
  - by split.
  - done.
  - computed.
  - computed.
  - apply first_ok.
Qed.

Lemma run2 : store_run "policy.bin" "marks.bin" opts store2 host2.
Proof.
  destruct second_err as [e He].
  apply (sr_apply "policy.bin" "marks.bin" opts (env 1 true) (Some v2) store1 host1 (Err e) store2 second.2).
  - apply run1.
  - apply env_fresh; [vm_compute; reflexivity|vm_compute; reflexivity|]. apply entries1.
  - assert (bool_decide (alGen (stAlloc store1) + 1 < 2 ^ 64) = true) as Hb by (vm_compute; reflexivity).
    by apply bool_decide_eq_true in Hb.
  - computed.
  - computed.
  - exact He.
Qed.

(** The store takes the kernel to hold what it loaded from disk, and when the
    re-apply at start fails it need not.  Here a policy that removes a rule is
    persisted and refused; at the next start it is loaded and refused again, the
    error is reported and the daemon goes on; the next policy differs from it in
    a peer only, so it is applied as a set update to the table of the policy
    before.  The apply succeeds and is acknowledged, and the kernel admits a
    packet that the policy said to be installed drops.  The comment on [current]
    says that it is the policy the kernel holds. *)
Theorem Restore_failure_diverges :
  ∃ s h s1 e h1 s2 trace t marks pk,
    store_run "policy.bin" "marks.bin" opts s h ∧
    Store_Load new h = (None, s1) ∧
    Store_Restore (env 2 true) s1 h = (Err e, s1, h1) ∧
    Store_Apply (env 3 false) (Some v3) s1 h1 = (Ok (), s2, trace) ∧
    hKernel (hd h1 trace) = printScript opts <$> scripts ∧
    foldl execScript None scripts = Some t ∧
    stCurrent s2 = Some v3 ∧ marks = marksOf (stAlloc s2) ∧
    evalTable t pk ≠ Dropped ∧ evalTable (tableOf v3 marks) pk = Dropped.
Proof.
  assert (∃ e, restored = (Err e, started.2, host2)) as [e He].
  { destruct (split_err restored) as [e He]; [vm_compute; reflexivity|]. exists e.
    destruct (Restore_err (env 2 true) started.2 host2 e restored.1.2 restored.2 He) as [<- <-]. exact He. }
  exists store2, host2, started.2, e, host2, store3, third.2.
  assert (restored.1.2 = started.2 ∧ restored.2 = host2) as [H1 H2]
    by (rewrite He; cbn [fst snd]; split; reflexivity).
  pose proof third_ok as Ht. rewrite H1, H2 in Ht.
  eexists _, _, packet. split_and!.
  - apply run2.
  - assert (started.1 = None) as Hs by (vm_compute; reflexivity).
    rewrite <-Hs. exact (surjective_pairing (Store_Load new host2)).
  - exact He.
  - exact Ht.
  - rewrite <-H2. fold host3. computed.
  - reflexivity.
  - vm_compute. reflexivity.
  - reflexivity.
  - vm_compute. discriminate.
  - vm_compute. reflexivity.
Qed.

Lemma current1 : stCurrent store1 = Some v1.
Proof. vm_compute. reflexivity. Qed.

Lemma store_kernel_agrees_witness :
  ∃ scs t, hKernel host1 = printScript opts <$> scs ∧ foldl execScript None scs = Some t ∧
    t ≡ tableOf v1 (marksOf (stAlloc store1)) ∧
    ∀ pk, evalTable t pk = evalTable (tableOf v1 (marksOf (stAlloc store1))) pk.
Proof.
  apply (store_kernel_agrees "policy.bin" "marks.bin" opts store1 host1 v1 run1 current1).
Defined.

Lemma Classify_attributes_witness :
  ∃ m, marksOf (stAlloc store1) !! "b/tcp" = Some m ∧
    Classify store1 (setRegion 0x1234 (RuleMark m)) = (POLICY_DECISION_ALLOWED, "b/tcp").
Proof.
  destruct (Classify_attributes "policy.bin" "marks.bin" opts store1 host1 v1 ruleB 0x1234 run1 current1)
    as (m & Hm & Hc & _).
  - right. left.
  - lia.
  - exists m. split; [exact Hm|exact Hc].
Defined.

Lemma settled1 path : path = "policy.bin" ∨ path = "marks.bin" → settled (hDisk host1) path.
Proof.
  intros [->| ->]; (split; [vm_compute; reflexivity|]); intros i Hi; vm_compute in Hi; injection Hi as <-;
    (split; [vm_compute; eauto|vm_compute; reflexivity]).
Qed.

Lemma Store_Apply_durable_witness :
  crash_outcome None [] (Canonical (Some v1)) (ReadFile (hDisk host1) "policy.bin")
    (ReadFile (hDisk host1) "marks.bin") (hKernel host1).
Proof.
  apply (Store_Apply_durable (env 0 false) (Some v1) new host (Ok ()) store1 first.2).
  - apply env_fresh; [reflexivity|reflexivity|]. intros path i _ Hi. discriminate Hi.
  - apply Store_New_ok.
  - reflexivity.
  - intros id [x Hx]. discriminate Hx.
  - computed.
  - split; [reflexivity|]. intros i Hi. discriminate Hi.
  - split; [reflexivity|]. intros i Hi. discriminate Hi.
  - apply first_ok.
  - unfold host1. destruct first.2 eqn:Hf; [apply (f_equal length) in Hf; vm_compute in Hf; discriminate Hf|left].
  - apply settled_read, settled1. left. reflexivity.
  - apply settled_read, settled1. right. reflexivity.
Defined.
End StoreExample.
