(* ===== verification/AgentSync.v ===== *)
(** * The agent's sync loop: [internal/agent/sync/daemon.go]

    [applyUpdate] and [handle] against the interface of the policy store, one
    session as the sequence of what its [select] receives, the reconnect loop
    and its backoff.  Sending on the stream succeeds or fails as the environment
    says; what was sent is the output. *)

From S2P Require Import Prelude GoStd Netip Wire Rendered Enforce.
Local Open Scope Z_scope.

(** Why a session ended. *)
Inductive SessionError :=
| ErrReenrollRequired
| ErrReconnectDirected
| ErrSecondHelloAck
| ErrNeitherSnapshotNorDelta
| ErrNoHelloAck
| ErrExpectedHelloAck
| ErrStream.

#[export] Instance SessionError_eq_dec : EqDecision SessionError.
Proof. solve_decision. Defined.

Section agent.
Context {St Er : Type} `{PolicyStore St Er}.

(** Why an update was not applied, and the text of the error. *)
Inductive ApplyFailure := BadDelta (e : ApplyError) | Refused (e : Er).
Context (errText : ApplyFailure → string).

(** The installed policy an update starts from. *)
Definition installed (s : St) : WorkloadPolicy := default Empty (ps_Current s).

(** The version an update names and the policy it leads to. *)
Definition updateTarget (update : PolicyUpdate) (current : WorkloadPolicy)
  : option (Z * result ApplyFailure WorkloadPolicy) :=
  match update with
  | UpdateSnapshot p =>
      let next := Canonical p in Some (wpVersion next, Ok next)
  | UpdateDelta d =>
      Some (pdToVersion d,
        match Apply (Some current) d with Ok next => Ok next | Err e => Err (BadDelta e) end)
  | UpdateUnset => None
  end.

(** [applyUpdate]: the acknowledgement to send and the store after. *)
Definition applyUpdate (update : PolicyUpdate) (s : St) : result SessionError PolicyAck * St :=
  match updateTarget update (installed s) with
  | None => (Err ErrNeitherSnapshotNorDelta, s)
  | Some (version, Err e) => (Ok (MkPolicyAck version ACK_STATUS_FAILED (errText e)), s)
  | Some (version, Ok next) =>
      match ps_Apply (Some next) s with
      | (Err e, s') => (Ok (MkPolicyAck version ACK_STATUS_FAILED (errText (Refused e))), s')
      | (Ok _, s') => (Ok (MkPolicyAck version ACK_STATUS_APPLIED ""), s')
      end
  end.

(** [handle], when sending succeeds or not. *)
Definition handle (sendOK : bool) (msg : SyncResponse) (s : St)
  : result SessionError unit * St * list SyncRequest :=
  match msg with
  | RespPolicyUpdate u =>
      match applyUpdate u s with
      | (Err e, s') => (Err e, s', [])
      | (Ok ack, s') =>
          if sendOK then (Ok (), s', [ReqPolicyAck ack]) else (Err ErrStream, s', [])
      end
  | RespDirective DirReconnect => (Err ErrReconnectDirected, s, [])
  | RespDirective DirReenroll => (Err ErrReenrollRequired, s, [])
  | RespDirective DirUnknown => (Ok (), s, [])
  | RespHelloAck _ => (Err ErrSecondHelloAck, s, [])
  | RespUnset => (Ok (), s, [])
  end.

(** What the [select] of a session receives.  Readings taken for a message are
    part of the event. *)
Inductive Event :=
| EvDone
| EvTimeout
| EvMessage (sendOK : bool) (msg : SyncResponse)
| EvRecvError
| EvHeartbeat (sendOK : bool) (h : Heartbeat)
| EvInventory (sendOK : bool) (r : InventoryReport).

(** One turn of the loop of [runSession]: whether it goes on, and otherwise how
    it returns. *)
Definition sessionStep (ev : Event) (s : St)
  : option (option SessionError) * St * list SyncRequest :=
  match ev with
  | EvDone => (Some None, s, [])
  | EvTimeout => (None, s, [])
  | EvMessage sendOK msg =>
      match handle sendOK msg s with
      | (Ok _, s', out) => (None, s', out)
      | (Err e, s', out) => (Some (Some e), s', out)
      end
  | EvRecvError => (Some (Some ErrStream), s, [])
  | EvHeartbeat sendOK h =>
      if sendOK then (None, s, [ReqHeartbeat h]) else (Some (Some ErrStream), s, [])
  | EvInventory sendOK r =>
      if sendOK then (None, s, [ReqInventory r]) else (Some (Some ErrStream), s, [])
  end.

(** The loop over the events that arrive; still running when they end. *)
Fixpoint sessionLoop (evs : list Event) (s : St)
  : option (option SessionError) * St * list SyncRequest :=
  match evs with
  | [] => (None, s, [])
  | ev :: evs' =>
      match sessionStep ev s with
      | (Some r, s', out) => (Some r, s', out)
      | (None, s', out) => let '(r, s'', out') := sessionLoop evs' s' in (r, s'', out ++ out')
      end
  end.

(** [runSession] after a successful dial: Hello with the installed version,
    HelloAck within the timeout, then the loop.  The flag says that the session
    was established. *)
Definition runSession (agentVersion : string) (capabilities : list string) (facts : option HostFacts)
    (helloSent : bool) (evs : list Event) (s : St)
  : option (option SessionError) * St * list SyncRequest * bool :=
  let hello := MkHello agentVersion capabilities (default 0 (wpVersion <$> ps_Current s)) facts in
  if negb helloSent then (Some (Some ErrStream), s, [], false)
  else
    match evs with
    | [] => (None, s, [ReqHello hello], false)
    | EvDone :: _ => (Some None, s, [ReqHello hello], false)
    | EvTimeout :: _ => (Some (Some ErrNoHelloAck), s, [ReqHello hello], false)
    | EvRecvError :: _ => (Some (Some ErrStream), s, [ReqHello hello], false)
    | EvMessage _ (RespHelloAck _) :: evs' =>
        let '(r, s', out) := sessionLoop evs' s in (r, s', ReqHello hello :: out, true)
    | EvMessage _ _ :: _ => (Some (Some ErrExpectedHelloAck), s, [ReqHello hello], false)
    | (EvHeartbeat _ _ | EvInventory _ _) :: _ => (None, s, [ReqHello hello], false)
    end.
End agent.

(** ** Reconnecting *)

(** [Backoff]: [draw n] is [rng.Int64N(n)], in [[0, n)]. *)
Definition Backoff (attempt base limit : Z) (draw : Z → Z) : Z :=
  let ceiling := i64 (Z.shiftl base (Z.min attempt 20)) in
  let ceiling := if decide (limit < ceiling ∨ ceiling ≤ 0) then limit else ceiling in
  draw ceiling.

(** What [Run] does after a session. *)
Inductive RunStep := RunStops (err : option SessionError) | RunRedials | RunWaits (attempt wait : Z).

(** One turn of the loop of [Run]: the attempt counter, whether the session was
    established, whether the context has ended, and the session's error. *)
Definition runAfter (attempt : Z) (established ctxDone : bool) (err : option SessionError)
    (base limit : Z) (draw : Z → Z) : RunStep :=
  let attempt := if established then 0 else attempt in
  if ctxDone then RunStops None
  else if decide (err = Some ErrReenrollRequired) then RunStops err
  else if decide (err = Some ErrReconnectDirected) then RunRedials
  else
    let attempt := i64 (attempt + 1) in
    RunWaits attempt (Backoff attempt base limit draw).

(** ** Properties *)

Section agent_proofs.
Context {St Er : Type} `{PolicyStoreLaws St Er} (errText : ApplyFailure (Er := Er) → string).

Lemma updateTarget_canonical u cur v next :
  updateTarget (Er := Er) u cur = Some (v, Ok next) → Canonical (Some next) = next ∧ wpVersion next = v.
Proof.
  destruct u as [p|d|]; cbn [updateTarget]; [| |done].
  - intros Heq. assert (next = Canonical p ∧ v = wpVersion (Canonical p)) as [-> ->] by (split; congruence).
    split; [apply Canonical_idemp|done].
  - unfold Apply. destruct (decide _); [done|].
    destruct (applyChanges 0 (pdChanges d) _) as [[mode rules]|e]; [|done]. cbn [mbind result_bind].
    intros Heq. match type of Heq with Some (?a, Ok ?b) = _ =>
      assert (next = b ∧ v = a) as [-> ->] by (split; congruence) end.
    split; [apply Canonical_idemp|apply Canonical_version].
Qed.

(** The outcomes of an update. *)
Lemma applyUpdate_cases u s r s' :
  applyUpdate errText u s = (r, s') →
  match r with
  | Err e => u = UpdateUnset ∧ e = ErrNeitherSnapshotNorDelta ∧ s' = s
  | Ok ack => ∃ t, updateTarget (Er := Er) u (installed s) = Some (paVersion ack, t) ∧
      ((paStatus ack = ACK_STATUS_APPLIED ∧ ∃ next, t = Ok next ∧ ps_Current s' = Some next) ∨
       (paStatus ack = ACK_STATUS_FAILED ∧ ps_Current s' = ps_Current s))
  end.
Proof.
  unfold applyUpdate. destruct (updateTarget u (installed s)) as [[v [next|e]]|] eqn:Ht.
  - destruct (ps_Apply (Some next) s) as [[[]|e] s1] eqn:Ha; intros Heq; simplify_eq/=.
    + exists (Ok next). split; [done|]. left. split; [done|]. exists next. split; [done|].
      rewrite (ps_apply_ok _ _ _ Ha). f_equal. by eapply updateTarget_canonical.
    + exists (Ok next). split; [done|]. right. split; [done|]. by eapply ps_apply_err.
  - intros Heq. simplify_eq/=. exists (Err e). auto.
  - intros Heq. simplify_eq/=. by destruct u.
Qed.

(** The updates of a session, one after the other. *)
Fixpoint agentRun (us : list PolicyUpdate) (s : St) : list PolicyAck * St :=
  match us with
  | [] => ([], s)
  | u :: us' =>
      match applyUpdate errText u s with
      | (Err _, s') => ([], s')
      | (Ok ack, s') => let '(acks, s'') := agentRun us' s' in (ack :: acks, s'')
      end
  end.

Definition ev_update (ev : Event) : option PolicyUpdate :=
  match ev with EvMessage _ (RespPolicyUpdate u) => Some u | _ => None end.
Definition req_ack (r : SyncRequest) : option PolicyAck :=
  match r with ReqPolicyAck a => Some a | _ => None end.

Lemma sessionLoop_run evs s s' out :
  sessionLoop errText evs s = (None, s', out) →
  (omap req_ack out, s') = agentRun (omap ev_update evs) s.
Proof.
  revert s s' out. induction evs as [|ev evs IH]; intros s s' out; cbn [sessionLoop].
  { intros Heq. by simplify_eq/=. }
  destruct (sessionStep errText ev s) as [[[r|] s1] out1] eqn:Hs; [done|].
  destruct (sessionLoop errText evs s1) as [[r s2] out2] eqn:Hl. intros Heq. simplify_eq.
  specialize (IH _ _ _ Hl). rewrite omap_app.
  destruct ev as [| |sendOK msg| |sendOK h|sendOK r]; cbn [sessionStep] in Hs; try done.
  - simplify_eq/=. exact IH.
  - destruct msg as [cfg|u|[]|]; cbn [handle] in Hs; try (by simplify_eq/=); try (simplify_eq/=; exact IH).
    destruct (applyUpdate errText u s) as [[ack|e] s3] eqn:Hu; [|done].
    destruct sendOK; [|done]. simplify_eq/=. rewrite Hu, <-IH. done.
  - destruct sendOK; simplify_eq/=. exact IH.
  - destruct sendOK; simplify_eq/=. exact IH.
Qed.
End agent_proofs.

(** An update is acknowledged as it went.  A snapshot or delta gets exactly
    one acknowledgement, which names the version the update leads to; when it
    says APPLIED, the installed policy is the canonical policy the update leads
    to, at that version; when it says FAILED, the installed policy is the one
    before.  Only an update that carries neither ends the session. *)
Theorem applyUpdate_acknowledges {St Er} `{PolicyStoreLaws St Er} errText u (s s' : St) r :
  applyUpdate errText u s = (r, s') →
  match r with
  | Err e => u = UpdateUnset ∧ s' = s
  | Ok ack =>
      ∃ t, updateTarget (Er := Er) u (installed s) = Some (paVersion ack, t) ∧
      ((paStatus ack = ACK_STATUS_APPLIED ∧ ∃ next, t = Ok next ∧ ps_Current s' = Some next ∧
          Canonical (Some next) = next ∧ wpVersion next = paVersion ack) ∨
       (paStatus ack = ACK_STATUS_FAILED ∧ ps_Current s' = ps_Current s))
  end.
Proof.
  intros Ha. pose proof (applyUpdate_cases errText _ _ _ _ Ha) as Hc. destruct r as [ack|e]; [|tauto].
  destruct Hc as (t & Ht & Hc). exists t. split; [done|].
  destruct Hc as [(Hs & next & -> & Hn)|Hc]; [left|by right].
  split; [done|]. exists next. destruct (updateTarget_canonical _ _ _ _ Ht). auto.
Qed.

Lemma applyUpdate_acknowledges_witness :
  ps_Current (applyUpdate (λ _, "") (UpdateSnapshot (Some policy_example))
    (MkMemoryStore (Er := unit) None None)).2 = Some (Canonical (Some policy_example)).
Proof.
  destruct (applyUpdate (λ _, "") (UpdateSnapshot (Some policy_example))
    (MkMemoryStore (Er := unit) None None)) as [r s'] eqn:Ha.
  pose proof (applyUpdate_acknowledges (λ _, "") (UpdateSnapshot (Some policy_example))
    (MkMemoryStore (Er := unit) None None) s' r Ha) as Hc.
  destruct r as [ack|e]; [|destruct Hc as [Hc _]; discriminate Hc].
  destruct Hc as (t & Ht & [(_ & next & -> & Hn & _)|[Hf _]]).
  - cbn [updateTarget] in Ht. cbn [snd]. rewrite Hn. congruence.
  - exfalso. cbn in Ha. injection Ha as <- _. discriminate Hf.
Defined.

(** Updates are applied and acknowledged in stream order.  While a session
    goes on, whatever heartbeats, inventory reports and directives come between
    them, the acknowledgements sent and the store reached are those of applying
    the updates received one after the other. *)
Theorem session_in_order {St Er} `{PolicyStoreLaws St Er} errText evs (s s' : St) out :
  sessionLoop errText evs s = (None, s', out) →
  (omap req_ack out, s') = agentRun errText (omap ev_update evs) s.
Proof. apply sessionLoop_run. Qed.

Lemma session_in_order_witness :
  (omap req_ack [ReqPolicyAck (MkPolicyAck 7 ACK_STATUS_APPLIED "")],
   MkMemoryStore (Er := unit) (Some (Canonical (Some policy_example))) None) =
  agentRun (λ _, "") [UpdateSnapshot (Some policy_example)] (MkMemoryStore (Er := unit) None None).
Proof.
  apply (session_in_order (λ _, "")
    [EvMessage true RespUnset; EvMessage true (RespPolicyUpdate (UpdateSnapshot (Some policy_example)));
     EvTimeout] (MkMemoryStore (Er := unit) None None)).
  vm_compute. reflexivity.
Defined.

(** The reconnect wait is bounded and jittered.  With positive parameters,
    whatever the attempt, and although the shifted base may overflow, the bound
    given to the generator is positive, at most the cap, and at most the base
    doubled [attempt] times as long as that does not overflow; so the wait is in
    [[0, cap)]. *)
Theorem Backoff_bounds attempt base limit draw :
  1 ≤ attempt → 0 < base → 0 < limit →
  (∀ n, 0 < n → 0 ≤ draw n < n) →
  0 ≤ Backoff attempt base limit draw < limit ∧
  (base * 2 ^ Z.min attempt 20 < 2 ^ 63 → Backoff attempt base limit draw < base * 2 ^ Z.min attempt 20).
Proof.
  intros Ha Hb Hl Hd. unfold Backoff. cbn zeta.
  assert (Z.shiftl base (Z.min attempt 20) = base * 2 ^ Z.min attempt 20) as -> by (apply Z.shiftl_mul_pow2; lia).
  set (x := base * 2 ^ Z.min attempt 20). assert (0 < x) by (apply Z.mul_pos_pos; lia).
  destruct (decide (limit < i64 x ∨ i64 x ≤ 0)) as [Hc|Hc].
  - specialize (Hd limit Hl). split; [lia|]. intros Hx. rewrite i64_small in Hc by lia. lia.
  - specialize (Hd (i64 x)). split; [lia|]. intros Hx. rewrite i64_small in Hd by lia. rewrite i64_small by lia. lia.
Qed.

Lemma Backoff_bounds_witness :
  0 ≤ Backoff 25 1000000000 300000000000 (λ n, n - 1) < 300000000000.
Proof.
  apply (Backoff_bounds 25 1000000000 300000000000 (λ n, n - 1)); lia.
Defined.
