(* ===== verification/GatewaySync.v ===== *)
(** * The gateway's sync streams: [internal/gateway/sync.go]

    The handlers of one stream, and the interleavings of the goroutines that
    share its session: the opening of the stream, the pushes that announcements
    start, and the reader that answers failed applies.  Each goroutine reads the
    persisted policy outside the session's lock and then changes the session
    under it, as the code does.  The queue holds every update put on the stream,
    oldest first. *)

From S2P Require Import Prelude GoStd Netip Wire Rendered Enforce AgentSync.
Local Open Scope Z_scope.

(** ** The session *)

Record session := MkSession {
  seLastSent : option WorkloadPolicy;
  seRecovery : Z;
  seQueue : list PolicyUpdate;
}.

Definition newSession : session := MkSession None 0 [].

Definition enqueue (u : PolicyUpdate) (s : session) : session :=
  MkSession (seLastSent s) (seRecovery s) (seQueue s ++ [u]).

(** [Sync], the opening: the tip is set under the lock, and the snapshot is
    queued after the lock is released. *)
Definition openTip (policy : WorkloadPolicy) (s : session) : session :=
  MkSession (Some policy) (seRecovery s) (seQueue s).
Definition openSnapshot (policy : WorkloadPolicy) (s : session) : session :=
  enqueue (UpdateSnapshot (Some policy)) s.

(** [pushLatest], from the lock on, with the policy it has read. *)
Definition pushLatest (policy : option WorkloadPolicy) (s : session) : session :=
  match policy, seLastSent s with
  | Some p, Some tip =>
      if decide (wpVersion p ≤ wpVersion tip) then s
      else enqueue (UpdateDelta (Delta (Some tip) (Some p))) (MkSession (Some p) (seRecovery s) (seQueue s))
  | _, _ => s
  end.

(** [sendRecoverySnapshot], from the lock on. *)
Definition sendRecoverySnapshot (policy : WorkloadPolicy) (s : session) : session :=
  enqueue (UpdateSnapshot (Some policy)) (MkSession (Some policy) (wpVersion policy) (seQueue s)).

(** ** Messages from the agent *)

(** Registry writes and what they return: nothing, a refusal of a retired
    workload, or another error. *)
Inductive RegistryError := RetiredWorkload | OtherError.

#[export] Instance RegistryError_eq_dec : EqDecision RegistryError.
Proof. solve_decision. Defined.

Inductive RegistryWrite :=
| RecordApplied (version : Z) (state : SyncState)
| RecordApplyFailed (detail : string)
| RecordFacts (facts : option HostFacts)
| RecordListeningServices (services : list ListeningService)
| RecordHeartbeat (dropped overruns : Z) (renewalError : string) (table : OwnedTableState) (uptime : Z).

(** The statuses a stream ends with. *)
Inductive Status :=
| InternalError
| InvalidArgument
| RefusedRetired.

Definition writeFailed (e : RegistryError) : Status :=
  match e with RetiredWorkload => RefusedRetired | OtherError => InternalError end.

Definition maxInt64 : Z := 2 ^ 63 - 1.
Definition second : Z := 1000000000.

(** [heartbeatUptime]. *)
Definition heartbeatUptime (seconds : Z) : Z := i64 (Z.min seconds (maxInt64 / second) * second).

(** What a message has the stream do next. *)
Inductive Reaction :=
| Continues
| Renders
| Recovers
| Ends (st : Status).

(** [handleAck]: the write made, given what the registry returns for it, and the
    reaction.  A recovery then reads the persisted policy. *)
Definition handleAck (s : session) (ack : PolicyAck) (err : option RegistryError)
  : list RegistryWrite * Reaction :=
  match paStatus ack with
  | ACK_STATUS_APPLIED =>
      let tip := GetVersion (seLastSent s) in
      let state := if decide (tip ≤ paVersion ack) then SYNC_STATE_SYNCED else SYNC_STATE_PENDING in
      ([RecordApplied (paVersion ack) state],
       match err with Some e => Ends (writeFailed e) | None => Continues end)
  | ACK_STATUS_FAILED =>
      ([RecordApplyFailed (paErrorDetail ack)],
       match err with
       | Some e => Ends (writeFailed e)
       | None => if decide (paVersion ack ≤ seRecovery s) then Continues else Recovers
       end)
  | ACK_STATUS_UNSPECIFIED | AckStatus_unrecognized _ => ([], Ends InvalidArgument)
  end.

(** [handleMessage]; [errs] are what the registry returns for the successive
    writes and [changed] whether the facts changed the addresses. *)
Definition handleMessage (s : session) (msg : SyncRequest) (errs : nat → option RegistryError)
    (changed : bool) : list RegistryWrite * Reaction :=
  match msg with
  | ReqPolicyAck ack => handleAck s ack (errs 0%nat)
  | ReqInventory r =>
      match errs 0%nat with
      | Some e => ([RecordFacts (irFacts r)], Ends (writeFailed e))
      | None =>
          ([RecordFacts (irFacts r); RecordListeningServices (irListeningServices r)],
           match errs 1%nat with
           | Some e => Ends (writeFailed e)
           | None => if changed then Renders else Continues
           end)
      end
  | ReqHeartbeat h =>
      ([RecordHeartbeat (hbDroppedFlowRecords h) (hbSourceOverruns h) (hbCredentialRenewalError h)
          (hbOwnedTable h) (heartbeatUptime (hbUptimeSeconds h))],
       match errs 0%nat with Some e => Ends (writeFailed e) | None => Continues end)
  | ReqHello _ | ReqUnset => ([], Ends InvalidArgument)
  end.

(** ** The goroutines of a stream *)

(** How far the opening is. *)
Inductive Opening :=
| OpenStart
| OpenRead (p : WorkloadPolicy)
| OpenTip (p : WorkloadPolicy)
| OpenDone.

Record world := MkWorld {
  woPersisted : option WorkloadPolicy;
  woSession : session;
  woOpening : Opening;
  woPushes : list (option WorkloadPolicy);
  woRecovering : option WorkloadPolicy;
  woRaced : bool;
}.

Definition startWorld (p : option WorkloadPolicy) : world := MkWorld p newSession OpenStart [] None false.

(** One atomic step.  [woRaced] records that a push put a delta on the stream
    between the opening's tip and its snapshot. *)
Inductive step : world → world → Prop :=
| step_render w p :
    GetVersion (woPersisted w) < wpVersion p →
    step w (MkWorld (Some p) (woSession w) (woOpening w) (woPushes w) (woRecovering w) (woRaced w))
| step_open_read w p :
    woOpening w = OpenStart → woPersisted w = Some p →
    step w (MkWorld (woPersisted w) (woSession w) (OpenRead p) (woPushes w) (woRecovering w) (woRaced w))
| step_open_tip w p :
    woOpening w = OpenRead p →
    step w (MkWorld (woPersisted w) (openTip p (woSession w)) (OpenTip p) (woPushes w) (woRecovering w)
              (woRaced w))
| step_open_snapshot w p :
    woOpening w = OpenTip p →
    step w (MkWorld (woPersisted w) (openSnapshot p (woSession w)) OpenDone (woPushes w) (woRecovering w)
              (woRaced w))
| step_push_read w :
    step w (MkWorld (woPersisted w) (woSession w) (woOpening w) (woPersisted w :: woPushes w)
              (woRecovering w) (woRaced w))
| step_push w p l1 l2 :
    woPushes w = l1 ++ p :: l2 →
    step w (MkWorld (woPersisted w) (pushLatest p (woSession w)) (woOpening w) (l1 ++ l2) (woRecovering w)
              (woRaced w || (match woOpening w with OpenTip _ => true | _ => false end &&
                             bool_decide (length (seQueue (pushLatest p (woSession w))) ≠ length (seQueue (woSession w))))))
| step_failed_ack w ack writes p :
    woOpening w = OpenDone → woRecovering w = None →
    handleAck (woSession w) ack None = (writes, Recovers) → woPersisted w = Some p →
    step w (MkWorld (woPersisted w) (woSession w) (woOpening w) (woPushes w) (Some p) (woRaced w))
| step_recover w p :
    woRecovering w = Some p →
    step w (MkWorld (woPersisted w) (sendRecoverySnapshot p (woSession w)) (woOpening w) (woPushes w) None
              (woRaced w)).

Definition reachable (p : option WorkloadPolicy) : world → Prop := rtc step (startWorld p).

(** ** What the queue is *)

(** The deltas from [p] along [ps]. *)
Fixpoint deltaPath (p : WorkloadPolicy) (ps : list WorkloadPolicy) : list PolicyUpdate :=
  match ps with
  | [] => []
  | q :: ps' => UpdateDelta (Delta (Some p) (Some q)) :: deltaPath q ps'
  end.

Fixpoint pathTip (p : WorkloadPolicy) (ps : list WorkloadPolicy) : WorkloadPolicy :=
  match ps with [] => p | q :: ps' => pathTip q ps' end.

(** A snapshot and the deltas that continue it, up to the tip. *)
Definition continues (queue : list PolicyUpdate) (tip : WorkloadPolicy) : Prop :=
  ∃ pre p ps, queue = pre ++ UpdateSnapshot (Some p) :: deltaPath p ps ∧ tip = pathTip p ps ∧
    Forall (λ u, u ≠ UpdateUnset) pre.

Lemma deltaPath_snoc p ps q :
  deltaPath p (ps ++ [q]) = deltaPath p ps ++ [UpdateDelta (Delta (Some (pathTip p ps)) (Some q))] ∧
  pathTip p (ps ++ [q]) = q.
Proof.
  revert p. induction ps as [|x ps IH]; intros p; [done|]. cbn [app deltaPath pathTip].
  destruct (IH x) as [-> ->]. done.
Qed.

(** A push continues the queue, and a snapshot starts it again. *)
Lemma push_continues p s tip :
  seLastSent s = Some tip → continues (seQueue s) tip →
  ∃ tip', seLastSent (pushLatest p s) = Some tip' ∧ continues (seQueue (pushLatest p s)) tip'.
Proof.
  intros Hl (pre & p0 & ps & Hq & Ht & Hu). unfold pushLatest. rewrite Hl. assert (continues (seQueue s) tip) as Hc by (by exists pre, p0, ps).
  destruct p as [p|]; [|by exists tip]. case_decide; [by exists tip|].
  exists p. split; [done|]. exists pre, p0, (ps ++ [p]). destruct (deltaPath_snoc p0 ps p) as [-> ->].
  cbn [seQueue enqueue]. split_and!; [|done|done]. by rewrite Hq, Ht, <-app_assoc.
Qed.

Lemma snapshot_continues q p :
  Forall (λ u, u ≠ UpdateUnset) q → continues (q ++ [UpdateSnapshot (Some p)]) p.
Proof. by exists q, p, []. Qed.

Lemma deltaPath_set p ps : Forall (λ u, u ≠ UpdateUnset) (deltaPath p ps).
Proof. revert p. induction ps as [|q ps IH]; intros p; constructor; [done|apply IH]. Qed.

Lemma continues_set q tip : continues q tip → Forall (λ u, u ≠ UpdateUnset) q.
Proof.
  intros (pre & p & ps & -> & _ & Hpre). apply Forall_app. split; [done|]. constructor; [done|].
  apply deltaPath_set.
Qed.

(** The state of the stream at each stage of its opening. *)
Definition stream_ok (w : world) : Prop :=
  match woOpening w with
  | OpenStart | OpenRead _ => seLastSent (woSession w) = None ∧ seQueue (woSession w) = [] ∧ woRecovering w = None
  | OpenTip p => seLastSent (woSession w) = Some p ∧ seQueue (woSession w) = [] ∧ woRecovering w = None
  | OpenDone => ∃ tip, seLastSent (woSession w) = Some tip ∧ continues (seQueue (woSession w)) tip
  end.

Lemma push_idle p s : seLastSent s = None → pushLatest p s = s.
Proof. intros Hl. unfold pushLatest. rewrite Hl. by destruct p. Qed.

Lemma step_ok w w' : step w w' → woRaced w' = false → (woRaced w = false → stream_ok w) → stream_ok w'.
Proof.
  intros Hs Hr Hok. unfold stream_ok in *.
  destruct Hs as [w p Hv|w p Ho Hp|w p Ho|w p Ho|w|w p l1 l2 Hl|w ack ws p Ho Hrec Ha Hp|w p Hrec];
    cbn [woOpening woSession woRecovering woRaced] in *.
  - exact (Hok Hr).
  - specialize (Hok Hr). rewrite Ho in Hok. done.
  - specialize (Hok Hr). rewrite Ho in Hok. destruct Hok as (_ & Hq & Hn). done.
  - specialize (Hok Hr). rewrite Ho in Hok. destruct Hok as (Hl & Hq & _). exists p.
    split; [done|]. apply snapshot_continues. by rewrite Hq.
  - exact (Hok Hr).
  - apply orb_false_iff in Hr as [Hr Hw]. specialize (Hok Hr).
    destruct (woOpening w) eqn:Ho.
    + destruct Hok as (Hn & ? & ?). by rewrite push_idle.
    + destruct Hok as (Hn & ? & ?). by rewrite push_idle.
    + cbn [andb] in Hw. apply bool_decide_eq_false in Hw. destruct Hok as (Hls & Hq & Hn).
      unfold pushLatest in *. rewrite Hls in *. destruct p as [p|]; [|done].
      case_decide; [done|]. destruct Hw. cbn. rewrite Hq. done.
    + destruct Hok as (tip & Hls & Hc). by eapply push_continues.
  - specialize (Hok Hr). rewrite Ho in *. exact Hok.
  - specialize (Hok Hr). destruct (woOpening w) eqn:Ho; try (destruct Hok as (_ & _ & Hn); congruence).
    destruct Hok as (tip & _ & Hc). exists p. split; [done|]. by eapply snapshot_continues, continues_set.
Qed.

Lemma reachable_ok p w : reachable p w → woRaced w = false → stream_ok w.
Proof.
  intros Hr. unfold reachable in Hr. revert w Hr.
  refine (rtc_ind_r (λ w, woRaced w = false → stream_ok w) (startWorld p) _ _); [done|].
  intros w1 w2 _ Hs IH Hraced. by eapply step_ok.
Qed.

(** ** The agent at the end of the queue *)

Section converge.
Context {St Er : Type} `{PolicyStoreLaws St Er} (errText : ApplyFailure (Er := Er) → string).

Definition applied (a : PolicyAck) : Prop := paStatus a = ACK_STATUS_APPLIED.

(** A store that refuses nothing. *)
Definition accepts : Prop := ∀ p (s : St), ∃ s', ps_Apply p s = (Ok (), s').

Lemma agentRun_app us vs s :
  Forall (λ u, u ≠ UpdateUnset) us →
  agentRun errText (us ++ vs) s =
  (let '(a, s1) := agentRun errText us s in let '(b, s2) := agentRun errText vs s1 in (a ++ b, s2)) ∧
  length (agentRun errText us s).1 = length us.
Proof.
  intros Hus. revert s. induction Hus as [|u us Hu _ IH]; intros s; cbn [app agentRun].
  { split; [|done]. by destruct (agentRun errText vs s). }
  destruct (applyUpdate errText u s) as [[ack|e] s1] eqn:Ha.
  2: { apply applyUpdate_cases in Ha as (-> & _). done. }
  destruct (IH s1) as [-> Hlen]. destruct (agentRun errText us s1) as [acks s2]. cbn [fst] in *.
  destruct (agentRun errText vs s2). split; [done|]. cbn. by rewrite Hlen.
Qed.

(** One update on a known base. *)
Lemma delta_step p q s ack s' :
  ps_Current s = Some (Canonical (Some p)) →
  applyUpdate errText (UpdateDelta (Delta (Some p) (Some q))) s = (Ok ack, s') →
  (applied ack → ps_Current s' = Some (Canonical (Some q))) ∧ (accepts → applied ack).
Proof.
  intros Hc Ha. assert (updateTarget (Er := Er) (UpdateDelta (Delta (Some p) (Some q))) (installed s) =
    Some (wpVersion q, Ok (Canonical (Some q)))) as Ht.
  { cbn [updateTarget]. unfold installed. rewrite Hc. cbn [default].
    assert (Apply (Some (Canonical (Some p))) (Delta (Some p) (Some q)) = Apply (Some p) (Delta (Some p) (Some q)))
      as Heq by (unfold Apply; by rewrite Canonical_idemp).
    unfold id. rewrite Heq, Apply_Delta_ok. done. }
  split.
  - intros Hap. apply applyUpdate_cases in Ha as (t & Ht' & [(_ & next & -> & Hn)|[Hf _]]).
    + rewrite Hn. rewrite Ht in Ht'. congruence.
    + unfold applied in Hap. congruence.
  - intros Hacc. unfold applyUpdate in Ha. rewrite Ht in Ha.
    destruct (Hacc (Some (Canonical (Some q))) s) as [s1 Hs]. rewrite Hs in Ha. by injection Ha as <- _.
Qed.

Lemma deltaPath_run p ps s acks s' :
  ps_Current s = Some (Canonical (Some p)) → agentRun errText (deltaPath p ps) s = (acks, s') →
  Forall applied acks ∨ accepts → ps_Current s' = Some (Canonical (Some (pathTip p ps))).
Proof.
  revert p s acks. induction ps as [|q ps IH]; intros p s acks Hc; cbn [deltaPath agentRun pathTip].
  { intros Heq. by simplify_eq. }
  destruct (applyUpdate _ _ _) as [[ack|e] s1] eqn:Ha.
  2: { apply applyUpdate_cases in Ha as (? & _). done. }
  destruct (delta_step _ _ _ _ _ Hc Ha) as [Happ Hacc].
  destruct (agentRun errText (deltaPath q ps) s1) as [acks1 s2] eqn:Hr. intros Heq Hor. simplify_eq.
  eapply IH; [|exact Hr|].
  - apply Happ. destruct Hor as [Hall|?]; [by inversion Hall|auto].
  - destruct Hor as [Hall|?]; [left; by inversion Hall|by right].
Qed.

Lemma continues_run queue tip s :
  continues queue tip →
  ∃ pre post p, queue = pre ++ UpdateSnapshot (Some p) :: post ∧
    ∀ acks s', agentRun errText queue s = (acks, s') →
      length acks = length queue ∧
      (Forall applied (drop (length pre) acks) ∨ accepts → ps_Current s' = Some (Canonical (Some tip))).
Proof.
  intros Hcont. pose proof (continues_set _ _ Hcont) as Hset.
  destruct Hcont as (pre & p & ps & Hq & -> & Hpre). exists pre, (deltaPath p ps), p. split; [done|].
  intros acks s' Hrun. split.
  { destruct (agentRun_app queue [] s Hset) as [_ Hl]. by rewrite Hrun in Hl. }
  intros Hor. rewrite Hq in Hrun. destruct (agentRun_app pre (UpdateSnapshot (Some p) :: deltaPath p ps) s Hpre)
    as [Heq Hl]. rewrite Heq in Hrun. destruct (agentRun errText pre s) as [acks1 s1]. cbn [fst] in Hl.
  destruct (agentRun errText (UpdateSnapshot (Some p) :: deltaPath p ps) s1) as [acks2 s2] eqn:H2.
  injection Hrun as <- <-. rewrite <-Hl, drop_app_length in Hor. cbn [agentRun] in H2.
  destruct (applyUpdate errText (UpdateSnapshot (Some p)) s1) as [[ack|e] s3] eqn:Ha.
  2: { apply applyUpdate_cases in Ha as (? & _). done. }
  destruct (agentRun errText (deltaPath p ps) s3) as [acks3 s4] eqn:H3. injection H2 as <- <-.
  assert (applied ack) as Hap.
  { destruct Hor as [Hall|Hacc]; [by inversion Hall|]. unfold applyUpdate in Ha. cbn [updateTarget] in Ha.
    destruct (Hacc (Some (Canonical (Some p))) s1) as [s5 Hs]. rewrite Hs in Ha. by injection Ha as <- _. }
  eapply deltaPath_run; [|exact H3|destruct Hor as [Hall|?]; [left; by inversion Hall|by right]].
  apply applyUpdate_cases in Ha as (t & Ht & [(_ & next & -> & Hn)|[Hf _]]).
  - cbn [updateTarget] in Ht. congruence.
  - unfold applied in Hap. congruence.
Qed.
End converge.

(** C5: a stream converges.  Take any interleaving of renders, pushes, failed
    acknowledgements and recoveries on a stream whose opening was not overtaken
    by a push.  Once it is open, the updates on the stream end with a snapshot
    and the deltas that continue it to the tip; so an agent, whatever it had
    installed before and whatever failed before that last snapshot, answers each
    update once and, if it applies that snapshot and what follows, ends with the
    canonical form of the tip installed; and if its store refuses nothing, it
    does apply them. *)
Theorem sync_converges {St Er} `{PolicyStoreLaws St Er} errText p0 w (s : St) :
  reachable p0 w → woRaced w = false → woOpening w = OpenDone →
  ∃ tip pre post p, seLastSent (woSession w) = Some tip ∧
    seQueue (woSession w) = pre ++ UpdateSnapshot (Some p) :: post ∧
    ∀ acks s', agentRun errText (seQueue (woSession w)) s = (acks, s') →
      length acks = length (seQueue (woSession w)) ∧
      (Forall applied (drop (length pre) acks) ∨ accepts (St := St) (Er := Er) →
       ps_Current s' = Some (Canonical (Some tip))).
Proof.
  intros Hr Hraced Hop. pose proof (reachable_ok _ _ Hr Hraced) as Hok. unfold stream_ok in Hok.
  rewrite Hop in Hok. destruct Hok as (tip & Hl & Hc).
  destruct (continues_run errText _ _ s Hc) as (pre & post & p & Hq & Hrun). by exists tip, pre, post, p.
Qed.

(** Two versions of a policy, and streams that carry them. *)
Module StreamExample.
Definition policy (v : Z) (peers : list string) : WorkloadPolicy :=
  MkWorkloadPolicy v ENFORCEMENT_MODE_ENFORCED
    [MkResolvedRule "a/tcp" peers PROTOCOL_TCP [MkPortRange 443 443]].
Definition p1 : WorkloadPolicy := policy 1 ["10.0.0.0/8"].
Definition p2 : WorkloadPolicy := policy 2 [].
Definition snapshot1 : PolicyUpdate := UpdateSnapshot (Some p1).
Definition delta12 : PolicyUpdate := UpdateDelta (Delta (Some p1) (Some p2)).

(** The push after the snapshot, and before it. *)
Definition served : world :=
  MkWorld (Some p2) (MkSession (Some p2) 0 [snapshot1; delta12]) OpenDone [] None false.
Definition overtaken : world :=
  MkWorld (Some p2) (MkSession (Some p2) 0 [delta12; snapshot1]) OpenDone [] None true.

Lemma served_reachable : reachable (Some p1) served.
Proof.
  eapply rtc_l; [by apply (step_open_read _ p1)|]. eapply rtc_l; [by apply (step_open_tip _ p1)|].
  eapply rtc_l; [by apply (step_open_snapshot _ p1)|]. eapply rtc_l; [by apply (step_render _ p2)|].
  eapply rtc_l; [apply step_push_read|]. eapply rtc_l; [by apply (step_push _ (Some p2) [] [])|].
  apply rtc_refl.
Qed.

Lemma overtaken_reachable : reachable (Some p1) overtaken.
Proof.
  eapply rtc_l; [by apply (step_open_read _ p1)|]. eapply rtc_l; [by apply (step_open_tip _ p1)|].
  eapply rtc_l; [by apply (step_render _ p2)|]. eapply rtc_l; [apply step_push_read|].
  eapply rtc_l; [by apply (step_push _ (Some p2) [] [])|]. eapply rtc_l; [by apply (step_open_snapshot _ p1)|].
  apply rtc_refl.
Qed.

(** An agent that already has [p1] installed, and refuses nothing. *)
Definition agent : MemoryStore unit := MkMemoryStore (Some (Canonical (Some p1))) None.
End StreamExample.

Lemma sync_converges_witness :
  ps_Current (agentRun (λ _, "") (seQueue (woSession StreamExample.served)) StreamExample.agent).2 =
  Some (Canonical (Some StreamExample.p2)).
Proof.
  destruct (sync_converges (λ _, "") (Some StreamExample.p1) StreamExample.served StreamExample.agent)
    as (tip & pre & post & p & Hl & _ & Hrun).
  - apply StreamExample.served_reachable.
  - reflexivity.
  - reflexivity.
  - destruct (agentRun (λ _, "") (seQueue (woSession StreamExample.served)) StreamExample.agent)
      as [acks s'] eqn:Hr.
    destruct (Hrun acks s') as [_ Hc]; [reflexivity|].
    assert (tip = StreamExample.p2) as -> by (cbn in Hl; congruence). cbn [snd]. apply Hc. left.
    apply Forall_drop. vm_compute in Hr. injection Hr as <- _. repeat constructor.
Defined.

(** A push can overtake the opening snapshot.  [Sync] sets the stream's tip,
    releases the session's lock and only then queues the snapshot; [pushLatest]
    needs only the tip.  If a render is announced in between, the delta goes out
    first.  An agent that reconnects with the snapshot's version installed then
    applies both and acknowledges both, and is left with the older policy,
    while the tip and the persisted policy are the newer one, so that pushing
    again sends nothing. *)
Theorem push_overtakes_snapshot :
  ∃ w acks s',
    reachable (Some StreamExample.p1) w ∧ woOpening w = OpenDone ∧ woPushes w = [] ∧ woRecovering w = None ∧
    agentRun (λ _, "") (seQueue (woSession w)) StreamExample.agent = (acks, s') ∧ Forall applied acks ∧
    woPersisted w = Some StreamExample.p2 ∧ seLastSent (woSession w) = woPersisted w ∧
    pushLatest (woPersisted w) (woSession w) = woSession w ∧
    ps_Current s' = Some (Canonical (Some StreamExample.p1)) ∧
    Canonical (Some StreamExample.p1) ≠ Canonical (Some StreamExample.p2).
Proof.
  exists StreamExample.overtaken.
  destruct (agentRun (λ _, "") (seQueue (woSession StreamExample.overtaken)) StreamExample.agent)
    as [acks s'] eqn:Hr. exists acks, s'.
  split_and!; [apply StreamExample.overtaken_reachable|done..| | | | | |]; vm_compute in Hr;
    injection Hr as <- <-; try (vm_compute; reflexivity).
  - repeat constructor.
  - vm_compute. discriminate.
Qed.

(** ** Failed applies *)

(** A failed apply is answered once.  APPLIED is recorded SYNCED exactly when
    it names the tip or beyond.  FAILED is recorded and answered with a snapshot
    of the persisted policy, which becomes the tip; and from then on no failure
    of a version up to that snapshot's is answered again, so that a policy the
    agent cannot install does not loop.  Any other status ends the stream. *)
Theorem handleAck_recovers s ack p :
  (paStatus ack = ACK_STATUS_APPLIED →
     handleAck s ack None =
       ([RecordApplied (paVersion ack)
           (if decide (GetVersion (seLastSent s) ≤ paVersion ack) then SYNC_STATE_SYNCED
            else SYNC_STATE_PENDING)], Continues)) ∧
  (paStatus ack = ACK_STATUS_FAILED →
     handleAck s ack None = ([RecordApplyFailed (paErrorDetail ack)],
       if decide (seRecovery s < paVersion ack) then Recovers else Continues)) ∧
  (let s' := sendRecoverySnapshot p s in
   seLastSent s' = Some p ∧ seQueue s' = seQueue s ++ [UpdateSnapshot (Some p)] ∧
   ∀ q ack', paStatus ack' = ACK_STATUS_FAILED → paVersion ack' ≤ wpVersion p →
     handleAck (pushLatest q s') ack' None = ([RecordApplyFailed (paErrorDetail ack')], Continues)) ∧
  (∀ err, (handleAck s ack err).2 = Ends InvalidArgument ↔
     paStatus ack ≠ ACK_STATUS_APPLIED ∧ paStatus ack ≠ ACK_STATUS_FAILED).
Proof.
  split_and!.
  - intros Ha. unfold handleAck. by rewrite Ha.
  - intros Ha. unfold handleAck. rewrite Ha. do 2 case_decide; done || lia.
  - cbn zeta. split_and!; [done|done|]. intros q ack' Hf Hv. unfold handleAck. rewrite Hf.
    assert (seRecovery (pushLatest q (sendRecoverySnapshot p s)) = wpVersion p) as ->.
    { unfold pushLatest. destruct q; [|done]. cbn. by case_decide. }
    by rewrite decide_True.
  - intros err. unfold handleAck. destruct (paStatus ack); [|destruct err as [[]|]..|]; cbn;
      repeat case_decide; naive_solver.
Qed.

(** An agent's uptime is held to what a duration can hold.  Whatever 64-bit
    count of seconds a heartbeat carries, the duration recorded is not negative
    and does not overflow, and it is exact for every uptime up to 292 years. *)
Theorem heartbeatUptime_bounds seconds :
  0 ≤ seconds < 2 ^ 64 →
  0 ≤ heartbeatUptime seconds < 2 ^ 63 ∧
  (seconds ≤ 9223372036 → heartbeatUptime seconds = seconds * second).
Proof.
  intros Hs. unfold heartbeatUptime, maxInt64, second.
  change ((2 ^ 63 - 1) / 1000000000) with 9223372036. rewrite i64_small by lia. lia.
Qed.

Lemma heartbeatUptime_bounds_witness : 0 ≤ heartbeatUptime (2 ^ 64 - 1) < 2 ^ 63.
Proof. apply (heartbeatUptime_bounds (2 ^ 64 - 1)). lia. Defined.

(** ** The registry of live streams

    [sessions]: the live stream of each workload, and the workloads whose last
    stream has left and whose offline mark is being written. *)

Section sessions.
Context {K : Type} `{Countable K}.

Record sessions := MkSessions { ssLive : gmap K nat; ssMarking : gset K }.

(** [add]: waits while a mark is being written; otherwise registers the stream
    and names the one it supersedes. *)
Definition sessions_add (id : K) (sess : nat) (r : sessions) : option (sessions * option nat) :=
  if decide (id ∈ ssMarking r) then None
  else Some (MkSessions (<[id := sess]> (ssLive r)) (ssMarking r), ssLive r !! id).

(** [remove]: whether the stream was the live one, and then the workload is held
    for its mark. *)
Definition sessions_remove (id : K) (sess : nat) (r : sessions) : sessions * bool :=
  if decide (ssLive r !! id = Some sess)
  then (MkSessions (delete id (ssLive r)) ({[id]} ∪ ssMarking r), true)
  else (r, false).

(** The function [remove] returns. *)
Definition sessions_marked (id : K) (r : sessions) : sessions :=
  MkSessions (ssLive r) (ssMarking r ∖ {[id]}).

(** Streams come and go: the registered state of each workload, and the
    workloads whose live stream has written its state since it registered. *)
Record plane := MkPlane {
  plSessions : sessions;
  plState : gmap K SyncState;
  plWrote : gset K;
}.

Inductive plane_step : plane → plane → Prop :=
| plane_add pl id sess r old :
    sessions_add id sess (plSessions pl) = Some (r, old) →
    plane_step pl (MkPlane r (plState pl) (plWrote pl ∖ {[id]}))
| plane_write pl id st :
    st ≠ SYNC_STATE_OFFLINE →
    plane_step pl (MkPlane (plSessions pl) (<[id := st]> (plState pl)) ({[id]} ∪ plWrote pl))
| plane_leave pl id sess r :
    sessions_remove id sess (plSessions pl) = (r, true) →
    plane_step pl (MkPlane r (plState pl) (plWrote pl))
| plane_leave_superseded pl id sess r :
    sessions_remove id sess (plSessions pl) = (r, false) →
    plane_step pl (MkPlane r (plState pl) (plWrote pl))
| plane_offline pl id :
    id ∈ ssMarking (plSessions pl) →
    plane_step pl (MkPlane (plSessions pl) (<[id := SYNC_STATE_OFFLINE]> (plState pl)) (plWrote pl))
| plane_marked pl id :
    plane_step pl (MkPlane (sessions_marked id (plSessions pl)) (plState pl) (plWrote pl)).

Definition plane_inv (pl : plane) : Prop :=
  ∀ id, is_Some (ssLive (plSessions pl) !! id) →
    (id ∉ ssMarking (plSessions pl)) ∧
    (id ∈ plWrote pl → plState pl !! id ≠ Some SYNC_STATE_OFFLINE).

Lemma plane_step_inv pl pl' : plane_step pl pl' → plane_inv pl → plane_inv pl'.
Proof.
  intros Hs Hinv id' Hl.
  destruct Hs as [pl id sess r old Ha|pl id st Hst|pl id sess r Hr|pl id sess r Hr|pl id Hm|pl id];
    cbn [plSessions plState plWrote] in *.
  - unfold sessions_add in Ha. case_decide; [done|]. simplify_eq/=.
    destruct (decide (id' = id)) as [->|Hne]; [set_solver|].
    rewrite lookup_insert_ne in Hl by done. destruct (Hinv id' Hl). set_solver.
  - destruct (Hinv id' Hl) as [Hm Hw]. split; [done|]. intros Hin.
    destruct (decide (id' = id)) as [->|Hne]; [rewrite lookup_insert_eq; congruence|].
    rewrite lookup_insert_ne by done. apply Hw. set_solver.
  - unfold sessions_remove in Hr. case_decide; [|done]. simplify_eq/=.
    destruct (decide (id' = id)) as [->|Hne]; [rewrite lookup_delete_eq in Hl; by destruct Hl|].
    rewrite lookup_delete_ne in Hl by done. destruct (Hinv id' Hl). set_solver.
  - unfold sessions_remove in Hr. case_decide; [done|]. simplify_eq/=. by apply Hinv.
  - destruct (Hinv id' Hl) as [Hm' Hw]. split; [done|]. intros Hin.
    rewrite lookup_insert_ne by congruence. auto.
  - destruct (Hinv id' Hl) as [Hm' Hw]. split; [set_solver|done].
Qed.
End sessions.
Arguments sessions K {_ _}.
Arguments plane K {_ _}.

(** A live workload is not recorded offline.  However streams register,
    supersede each other, leave and write their marks, a workload with a
    registered stream is not held for an offline mark, and once that stream has
    written its state the record is not OFFLINE; a superseded stream leaves
    without a mark. *)
Theorem live_not_offline {K} `{Countable K} (pl : plane K) id :
  rtc plane_step (MkPlane (MkSessions ∅ ∅) ∅ ∅) pl → is_Some (ssLive (plSessions pl) !! id) →
  (id ∉ ssMarking (plSessions pl)) ∧ (id ∈ plWrote pl → plState pl !! id ≠ Some SYNC_STATE_OFFLINE).
Proof.
  intros Hr. revert id. change (plane_inv pl). revert pl Hr.
  refine (rtc_ind_r plane_inv _ _ _); [|intros pl pl' _; apply plane_step_inv].
  intros id [n Hn]. cbn in Hn. by rewrite lookup_empty in Hn.
Qed.

Lemma live_not_offline_witness :
  ∃ pl : plane nat, is_Some (ssLive (plSessions pl) !! 7%nat) ∧
    plState pl !! 7%nat ≠ Some SYNC_STATE_OFFLINE.
Proof.
  pose (r0 := MkSessions (K := nat) {[7%nat := 1%nat]} ∅).
  pose (pl := MkPlane r0 {[7%nat := SYNC_STATE_PENDING]} {[7%nat]}).
  exists pl. split; [exists 1%nat; reflexivity|].
  apply (live_not_offline pl 7%nat); [|exists 1%nat; reflexivity|vm_compute; apply (bool_decide_unpack _); exact I].
  eapply rtc_l; [apply (plane_add _ 7%nat 1%nat r0 None); reflexivity|].
  eapply rtc_l; [apply (plane_write _ 7%nat SYNC_STATE_PENDING); discriminate|].
  assert (MkPlane r0 (<[7%nat := SYNC_STATE_PENDING]> ∅) ({[7%nat]} ∪ (∅ ∖ {[7%nat]})) = pl) as Heq
    by (unfold pl; f_equal; apply (bool_decide_unpack _); vm_compute; exact I).
  cbn [plSessions plState plWrote]. rewrite Heq. apply rtc_refl.
Defined.
