(* ===== verification/Gaps.v ===== *)
(** * Evidence gaps: [internal/agent/collect/gaps.go]

    Intervals in which the agent knows the flow map to be incomplete, held until
    they are shipped, with at most one open interval per source.  Instants are
    integers; a nil [Gaps] is not modelled. *)

From S2P Require Import Prelude.
Local Open Scope Z_scope.

Inductive GapKind :=
| GapSourceOverrun | GapSourceRestart | GapBufferOverflow | GapDumpTruncated | GapWindowOverflow
| GapWindowRejected | GapTableRemoved.

Inductive GapSource := GapNoSource | GapConntrack | GapNflog.

#[export] Instance GapKind_eq_dec : EqDecision GapKind.
Proof. solve_decision. Defined.
#[export] Instance GapSource_eq_dec : EqDecision GapSource.
Proof. solve_decision. Defined.

#[export] Instance GapSource_countable : Countable GapSource.
Proof.
  apply (inj_countable' (λ s, match s with GapNoSource => 0 | GapConntrack => 1 | GapNflog => 2 end%nat)
    (λ n, match n with 0 => GapNoSource | 1 => GapConntrack | _ => GapNflog end%nat)). by intros [].
Defined.

Definition cutWhileOpen (k : GapKind) : bool := bool_decide (k = GapTableRemoved).

(** The interval [[gFrom, gTo)], and the count when it is known. *)
Record Gap := MkGap {
  gKind : GapKind;
  gSource : GapSource;
  gFrom : Z;
  gTo : Z;
  gCount : option Z;
}.

Definition DefaultGapCapacity : Z := 1024.

Record Gaps := MkGaps {
  gsCapacity : Z;
  gsPending : list Gap;
  gsOpen : gmap GapSource Gap;
}.

Definition capacity (g : Gaps) : Z := if decide (0 < gsCapacity g) then gsCapacity g else DefaultGapCapacity.

(** [merge]: the sum of the counts is known only when both are. *)
Definition merge (p gap : Gap) : Gap :=
  MkGap (gKind p) (gSource p) (Z.min (gFrom p) (gFrom gap)) (Z.max (gTo p) (gTo gap))
    (match gCount p, gCount gap with Some a, Some b => Some (u64 (a + b)) | _, _ => None end).

Definition same_gap (p gap : Gap) : Prop := gKind p = gKind gap ∧ gSource p = gSource gap.
#[export] Instance same_gap_dec p gap : Decision (same_gap p gap).
Proof. unfold same_gap. apply _. Defined.

(** ** Shrinking *)

(** The scan of [shrink] for the two oldest gaps that share a kind and a source:
    [seen] are the gaps passed, oldest first. *)
Fixpoint mergeOldest (seen rest : list Gap) : option (list Gap) :=
  match rest with
  | [] => None
  | p :: rest' =>
      match list_find (λ q, same_gap q p) seen with
      | Some (j, q) => Some (<[j := merge q p]> seen ++ rest')
      | None => mergeOldest (seen ++ [p]) rest'
      end
  end.

(** One round of the loop. *)
Definition shrinkOnce (pending : list Gap) : list Gap :=
  match mergeOldest [] pending with
  | Some l => l
  | None => drop 1 pending
  end.

(** The loop; each round leaves one gap less, so the length bounds the rounds. *)
Fixpoint shrinkLoop (fuel : nat) (cap : Z) (pending : list Gap) : list Gap :=
  match fuel with
  | O => pending
  | S fuel => if decide (Z.of_nat (length pending) ≤ cap) then pending
              else shrinkLoop fuel cap (shrinkOnce pending)
  end.

Definition shrink (cap : Z) (pending : list Gap) : list Gap := shrinkLoop (length pending) cap pending.

(** ** Recording *)

(** The scan of [add] from the newest gap on, of the reversed list: extend the
    newest gap of the kind and source if the intervals touch. *)
Fixpoint extendNewest (gap : Gap) (newest : list Gap) : option (list Gap) :=
  match newest with
  | [] => None
  | p :: rest =>
      if decide (same_gap p gap)
      then if decide (gFrom gap ≤ gTo p ∧ gFrom p ≤ gTo gap) then Some (merge p gap :: rest) else None
      else (λ l, p :: l) <$> extendNewest gap rest
  end.

Definition clamp (gap : Gap) : Gap :=
  MkGap (gKind gap) (gSource gap) (gFrom gap) (Z.max (gFrom gap) (gTo gap)) (gCount gap).

Definition addPending (cap : Z) (gap : Gap) (pending : list Gap) : list Gap :=
  let gap := clamp gap in
  match extendNewest gap (reverse pending) with
  | Some l => reverse l
  | None => shrink cap (pending ++ [gap])
  end.

Definition gaps_add (gap : Gap) (g : Gaps) : Gaps :=
  MkGaps (gsCapacity g) (addPending (capacity g) gap (gsPending g)) (gsOpen g).

(** [Record]. *)
Definition Gaps_Record : Gap → Gaps → Gaps := gaps_add.

Definition withTo (to : Z) (gap : Gap) : Gap := MkGap (gKind gap) (gSource gap) (gFrom gap) to (gCount gap).
Definition withFrom (from : Z) (gap : Gap) : Gap := MkGap (gKind gap) (gSource gap) from (gTo gap) (gCount gap).
Definition withOpen (o : gmap GapSource Gap) (g : Gaps) : Gaps := MkGaps (gsCapacity g) (gsPending g) o.

Definition Gaps_Open (source : GapSource) (kind : GapKind) (from : Z) (g : Gaps) : Gaps :=
  let opened := MkGap kind source from 0 None in
  match gsOpen g !! source with
  | Some cur =>
      if decide (gKind cur = kind) then g
      else let g := gaps_add (withTo from cur) g in withOpen (<[source := opened]> (gsOpen g)) g
  | None => withOpen (<[source := opened]> (gsOpen g)) g
  end.

Definition Gaps_Close (source : GapSource) (to : Z) (g : Gaps) : Gaps :=
  match gsOpen g !! source with
  | Some cur => gaps_add (withTo to cur) (withOpen (delete source (gsOpen g)) g)
  | None => g
  end.

(** One open interval of [CutOpen]. *)
Definition cutOne (to : Z) (g : Gaps) (o : GapSource * Gap) : Gaps :=
  let '(source, cur) := o in
  if negb (cutWhileOpen (gKind cur)) || bool_decide (to ≤ gFrom cur) then g
  else
    let g := gaps_add (withTo to cur) g in
    withOpen (<[source := withFrom to cur]> (gsOpen g)) g.

Definition CutOpen (to : Z) (g : Gaps) : Gaps := foldl (cutOne to) g (map_to_list (gsOpen g)).

Definition Gaps_Take (g : Gaps) : list Gap * Gaps :=
  (gsPending g, MkGaps (gsCapacity g) [] (gsOpen g)).

Definition Gaps_Restore (gaps : list Gap) (g : Gaps) : Gaps :=
  match gaps with
  | [] => g
  | _ => MkGaps (gsCapacity g) (shrink (capacity g) (gaps ++ gsPending g)) (gsOpen g)
  end.

(** [Overrun]: the counter of overruns, an atomic of its own. *)
Definition Overrun (overruns : Z) : Z := u64 (overruns + 1).

(** ** Coverage

    An interval of loss is covered by a held gap of its kind and source. *)
Definition coveredBy (gap p : Gap) : Prop :=
  same_gap p gap ∧ gFrom p ≤ gFrom gap ∧ gTo gap ≤ gTo p.
Definition covered (gap : Gap) (pending : list Gap) : Prop := Exists (coveredBy gap) pending.

(** Merging covers both. *)
Lemma merge_left p q gap : coveredBy gap p → coveredBy gap (merge p q).
Proof. intros ([? ?] & ? & ?). split_and!; cbn; [done|lia|lia]. Qed.
Lemma merge_right p q gap : same_gap p q → coveredBy gap q → coveredBy gap (merge p q).
Proof. intros [? ?] ([? ?] & ? & ?). split_and!; cbn; [split; cbn; congruence|lia|lia]. Qed.

Lemma covered_insert gap l j q p :
  l !! j = Some q → same_gap q p → covered gap (l ++ [p]) → covered gap (<[j := merge q p]> l).
Proof.
  unfold covered. rewrite !Exists_exists. intros Hj Hs (x & Hx & Hc).
  assert (merge q p ∈ <[j := merge q p]> l) as Hm
    by (apply list_elem_of_insert; by eapply lookup_lt_Some).
  apply elem_of_app in Hx as [Hx|Hx%list_elem_of_singleton].
  - apply list_elem_of_lookup in Hx as [i Hi]. destruct (decide (i = j)) as [->|Hne].
    + exists (merge q p). split; [done|]. apply merge_left. congruence.
    + exists x. split; [|done]. apply list_elem_of_lookup. exists i. by rewrite list_lookup_insert_ne.
  - subst x. exists (merge q p). split; [done|]. by apply merge_right.
Qed.

Lemma mergeOldest_spec seen rest l :
  mergeOldest seen rest = Some l →
  S (length l) = (length seen + length rest)%nat ∧
  ∀ gap, covered gap (seen ++ rest) → covered gap l.
Proof.
  revert seen. induction rest as [|p rest IH]; intros seen; cbn [mergeOldest]; [done|].
  destruct (list_find _ seen) as [[j q]|] eqn:Hf.
  - apply list_find_Some in Hf as (Hj & Hs & _). intros [= <-]. split.
    + rewrite length_app, length_insert. cbn. lia.
    + intros gap Hg. unfold covered in *. rewrite (cons_middle p), app_assoc in Hg.
      apply Exists_app in Hg as [Hg|Hg]; apply Exists_app; [left|by right].
      by apply (covered_insert gap seen j q p).
  - intros Hl. destruct (IH _ Hl) as [Hlen Hcov]. split.
    + rewrite Hlen, length_app. cbn. lia.
    + intros gap Hg. apply Hcov. by rewrite <-app_assoc.
Qed.

(** ** Nothing is lost while the capacity covers the kinds and sources *)

Definition pairs : list (GapKind * GapSource) :=
  [GapSourceOverrun; GapSourceRestart; GapBufferOverflow; GapDumpTruncated; GapWindowOverflow;
   GapWindowRejected; GapTableRemoved] ≫= λ k, [(k, GapNoSource); (k, GapConntrack); (k, GapNflog)].

Definition pair_of (p : Gap) : GapKind * GapSource := (gKind p, gSource p).

Lemma mergeOldest_None seen rest :
  NoDup (pair_of <$> seen) → mergeOldest seen rest = None → NoDup (pair_of <$> (seen ++ rest)).
Proof.
  revert seen. induction rest as [|p rest IH]; intros seen Hnd; cbn [mergeOldest]; [by rewrite app_nil_r|].
  destruct (list_find _ seen) as [[j q]|] eqn:Hf; [done|]. intros Hm.
  rewrite (cons_middle p), app_assoc. apply IH; [|done]. rewrite fmap_app, NoDup_app.
  split_and!; [done| |apply NoDup_singleton].
  intros x (q & -> & Hq)%list_elem_of_fmap Hx%list_elem_of_singleton.
  apply list_find_None in Hf. rewrite Forall_forall in Hf. apply (Hf q Hq). injection Hx. done.
Qed.

Lemma pairs_bound l : NoDup (pair_of <$> l) → (length l ≤ 21)%nat.
Proof.
  intros Hnd. assert (pair_of <$> l ⊆+ pairs) as Hsub.
  { apply NoDup_submseteq; [done|]. intros [k s] _. destruct k, s; apply (bool_decide_unpack _); exact I. }
  apply submseteq_length in Hsub. by rewrite length_fmap in Hsub.
Qed.

Lemma shrinkOnce_spec pending :
  (21 < length pending)%nat →
  S (length (shrinkOnce pending)) = length pending ∧
  ∀ gap, covered gap pending → covered gap (shrinkOnce pending).
Proof.
  intros Hlen. unfold shrinkOnce. destruct (mergeOldest [] pending) as [l|] eqn:Hm.
  - destruct (mergeOldest_spec _ _ _ Hm) as [Hl Hc]. cbn in Hl, Hc. auto.
  - apply mergeOldest_None in Hm; [|constructor]. apply pairs_bound in Hm. cbn in Hm. lia.
Qed.

Lemma shrink_spec cap pending :
  21 ≤ cap →
  Z.of_nat (length (shrink cap pending)) ≤ cap ∧
  ∀ gap, covered gap pending → covered gap (shrink cap pending).
Proof.
  intros Hcap. unfold shrink.
  assert (∀ fuel l, (length l ≤ fuel)%nat → Z.of_nat (length (shrinkLoop fuel cap l)) ≤ cap ∧
    ∀ gap, covered gap l → covered gap (shrinkLoop fuel cap l)) as H; [|by apply H].
  induction fuel as [|fuel IH]; intros l Hl; cbn [shrinkLoop].
  - split; [lia|done].
  - case_decide; [done|]. destruct (shrinkOnce_spec l) as [Hs Hc]; [lia|].
    destruct (IH (shrinkOnce l)) as [Hb Hk]; [lia|]. auto.
Qed.

Lemma extendNewest_spec gap l l' :
  extendNewest gap l = Some l' →
  length l' = length l ∧ (∀ x, covered x l → covered x l') ∧
  (gFrom gap ≤ gTo gap → covered gap l').
Proof.
  revert l'. induction l as [|p l IH]; intros l'; cbn [extendNewest]; [done|].
  destruct (decide (same_gap p gap)) as [Hs|Hs].
  - case_decide; [|done]. intros [= <-]. split_and!; [done| |].
    + intros x Hx. apply Exists_cons in Hx as [Hx|Hx]; apply Exists_cons; [left|by right].
      by apply merge_left.
    + intros _. apply Exists_cons. left. apply merge_right; [done|]. split; [by split|lia].
  - destruct (extendNewest gap l) as [l1|]; [|done]. cbn. intros [= <-].
    destruct (IH l1 eq_refl) as (Hlen & Hc & Hg). split_and!; [cbn; congruence| |].
    + intros x Hx. apply Exists_cons in Hx as [Hx|Hx]; apply Exists_cons; [by left|right]. by apply Hc.
    + intros Hle. apply Exists_cons. right. by apply Hg.
Qed.

Lemma covered_reverse gap l : covered gap (reverse l) ↔ covered gap l.
Proof. unfold covered. rewrite !Exists_exists. by setoid_rewrite elem_of_reverse. Qed.

Lemma addPending_spec cap gap pending :
  21 ≤ cap → Z.of_nat (length pending) ≤ cap →
  Z.of_nat (length (addPending cap gap pending)) ≤ cap ∧
  (∀ x, covered x pending → covered x (addPending cap gap pending)) ∧
  covered (clamp gap) (addPending cap gap pending).
Proof.
  intros Hcap Hlen. unfold addPending. cbn zeta.
  destruct (extendNewest (clamp gap) (reverse pending)) as [l|] eqn:He.
  - destruct (extendNewest_spec _ _ _ He) as (Hl & Hc & Hg). rewrite length_reverse in *. split_and!.
    + lia.
    + intros x Hx. rewrite covered_reverse. apply Hc. by rewrite covered_reverse.
    + rewrite covered_reverse. apply Hg. cbn. lia.
  - destruct (shrink_spec cap (pending ++ [clamp gap]) Hcap) as [Hb Hk]. split_and!; [done| |].
    + intros x Hx. apply Hk. apply Exists_app. by left.
    + apply Hk. apply Exists_app. right. apply Exists_cons. left. split; [by split|lia].
Qed.

(** What an operation may do: keep everything covered within the capacity. *)
Definition keeps_gaps (g g' : Gaps) : Prop :=
  gsCapacity g' = gsCapacity g ∧
  (∀ x, covered x (gsPending g) → covered x (gsPending g')) ∧
  (Z.of_nat (length (gsPending g)) ≤ capacity g → Z.of_nat (length (gsPending g')) ≤ capacity g').

#[export] Instance keeps_gaps_preorder : PreOrder keeps_gaps.
Proof.
  split; [by intros g|]. intros g1 g2 g3 (H1 & H2 & H3) (H1' & H2' & H3'). split_and!; [congruence|auto|auto].
Qed.

Lemma gaps_add_keeps gap g :
  21 ≤ capacity g → Z.of_nat (length (gsPending g)) ≤ capacity g →
  keeps_gaps g (gaps_add gap g) ∧ covered (clamp gap) (gsPending (gaps_add gap g)).
Proof.
  intros Hc Hl. destruct (addPending_spec (capacity g) gap (gsPending g) Hc Hl) as (? & ? & ?).
  split; [|done]. by split_and!.
Qed.

Lemma withOpen_keeps o g : keeps_gaps g (withOpen o g).
Proof. by split_and!. Qed.

(** [CutOpen] goes through the open intervals; each cut piece is covered from
    then on. *)
Lemma cut_spec to l g :
  21 ≤ capacity g → Z.of_nat (length (gsPending g)) ≤ capacity g →
  keeps_gaps g (foldl (cutOne to) g l) ∧
  (∀ s cur, (s, cur) ∈ l → cutWhileOpen (gKind cur) = true → gFrom cur < to →
     covered (withTo to cur) (gsPending (foldl (cutOne to) g l))).
Proof.
  revert g. induction l as [|[s cur] l IH]; intros g Hc Hl; cbn [foldl].
  { split; [done|]. by intros ? ? ?%elem_of_nil. }
  destruct (gaps_add_keeps (withTo to cur) g Hc Hl) as [Hk Hcov].
  assert (keeps_gaps g (cutOne to g (s, cur))) as Hk1.
  { cbn. destruct (negb _ || _); [done|]. by etrans; [|apply withOpen_keeps]. }
  assert (capacity (cutOne to g (s, cur)) = capacity g) as Hcap
    by (unfold capacity; by rewrite (proj1 Hk1)).
  destruct (IH (cutOne to g (s, cur))) as [Hk2 Hall]; [by rewrite Hcap|by apply Hk1|].
  split; [by etrans|]. intros s' cur' [Heq|Hin]%elem_of_cons Hcut Hlt; [|by eapply Hall].
  injection Heq as -> ->. apply Hk2. cbn. rewrite Hcut, bool_decide_eq_false_2 by lia. cbn.
  assert (clamp (withTo to cur) = withTo to cur) as Hcl by (unfold clamp, withTo; cbn; f_equal; lia).
  by rewrite Hcl in Hcov.
Qed.

(** A known loss of evidence is never forgotten, only widened.  With a
    capacity of at least the kinds times the sources, every operation keeps the
    held gaps within the capacity and every interval they covered covered, by a
    gap of its own kind and source: recording covers the interval recorded;
    closing covers the open interval to its end, and a change of kind covers the
    interval before; cutting covers every interval that can last up to the cut;
    what is restored after a failed delivery is covered again; and taking hands
    out all of it. *)
Theorem Gaps_never_lose g :
  21 ≤ capacity g → Z.of_nat (length (gsPending g)) ≤ capacity g →
  (∀ gap, keeps_gaps g (Gaps_Record gap g) ∧ covered (clamp gap) (gsPending (Gaps_Record gap g))) ∧
  (∀ s k t, keeps_gaps g (Gaps_Open s k t g) ∧
     ∀ cur, gsOpen g !! s = Some cur → gKind cur ≠ k →
       covered (clamp (withTo t cur)) (gsPending (Gaps_Open s k t g))) ∧
  (∀ s t, keeps_gaps g (Gaps_Close s t g) ∧
     ∀ cur, gsOpen g !! s = Some cur → covered (clamp (withTo t cur)) (gsPending (Gaps_Close s t g))) ∧
  (∀ t, keeps_gaps g (CutOpen t g) ∧
     ∀ s cur, gsOpen g !! s = Some cur → cutWhileOpen (gKind cur) = true → gFrom cur < t →
       covered (withTo t cur) (gsPending (CutOpen t g))) ∧
  (∀ gaps, keeps_gaps g (Gaps_Restore gaps g) ∧
     ∀ x, covered x gaps → covered x (gsPending (Gaps_Restore gaps g))) ∧
  (Gaps_Take g).1 = gsPending g.
Proof.
  intros Hc Hl. split_and!.
  - intros gap. by apply gaps_add_keeps.
  - intros s k t. unfold Gaps_Open. destruct (gsOpen g !! s) as [cur|] eqn:Ho.
    + destruct (gaps_add_keeps (withTo t cur) g Hc Hl) as [Hk Hcov]. case_decide as Hd.
      * split; [done|]. intros cur' [= <-] Hne. by destruct Hne.
      * split; [etrans; [exact Hk|apply withOpen_keeps]|]. intros cur' [= <-] _. exact Hcov.
    + split; [apply withOpen_keeps|done].
  - intros s t. unfold Gaps_Close. destruct (gsOpen g !! s) as [cur|] eqn:Ho; [|by split].
    destruct (gaps_add_keeps (withTo t cur) (withOpen (delete s (gsOpen g)) g) Hc Hl) as [Hk Hcov].
    split; [by etrans; [apply withOpen_keeps|exact Hk]|]. intros cur' [= <-]. exact Hcov.
  - intros t. destruct (cut_spec t (map_to_list (gsOpen g)) g Hc Hl) as [Hk Hall]. split; [done|].
    intros s cur Ho. by apply (Hall s), elem_of_map_to_list.
  - intros gaps. unfold Gaps_Restore. destruct gaps as [|x0 gaps]; [split; [done|by intros ? ?%Exists_nil]|].
    destruct (shrink_spec (capacity g) ((x0 :: gaps) ++ gsPending g) Hc) as [Hb Hk]. split.
    + split_and!; [done| |done]. intros x Hx. apply Hk, Exists_app. by right.
    + intros x Hx. apply Hk, Exists_app. by left.
  - done.
Qed.

Lemma Gaps_never_lose_witness :
  covered (MkGap GapTableRemoved GapNoSource 3 9 None)
    (gsPending (Gaps_Close GapNoSource 9 (Gaps_Open GapNoSource GapTableRemoved 3 (MkGaps 0 [] ∅)))).
Proof.
  destruct (Gaps_never_lose (Gaps_Open GapNoSource GapTableRemoved 3 (MkGaps 0 [] ∅))) as (_ & _ & Hclose & _).
  - vm_compute. discriminate.
  - vm_compute. discriminate.
  - apply (proj2 (Hclose GapNoSource 9) (MkGap GapTableRemoved GapNoSource 3 0 None)). reflexivity.
Defined.
