(* ===== verification/Collect.v ===== *)
(** * Flow collection: [internal/agent/collect/collect.go] and [buffer.go]

    The open window folds observations into one record per key, up to a bound on
    the keys; the buffer holds closed windows, up to a bound on the records.
    What either drops is recorded as an evidence gap; the calls to
    [Gaps.Record] are the output.  Instants are wall-clock integers. *)

From S2P Require Import Prelude GoStd Netip Wire Gaps.
Local Open Scope Z_scope.

Record Observation := MkObservation {
  obAt : Z;
  obSrc : Addr;
  obDst : Addr;
  obDstPort : Z;
  obProtocol : Protocol;
  obDecision : PolicyDecision;
  obRuleID : string;
  obConnections : Z;
  obBytes : Z;
  obProcessName : string;
}.

Record Key := MkKey {
  kSrc : Addr;
  kDst : Addr;
  kDstPort : Z;
  kProtocol : Protocol;
  kDecision : PolicyDecision;
  kRuleID : string;
}.

#[export] Instance Key_eq_dec : EqDecision Key.
Proof. solve_decision. Defined.
#[export] Instance Key_countable : Countable Key.
Proof.
  apply (inj_countable' (λ k, (kSrc k, kDst k, kDstPort k, kProtocol k, kDecision k, kRuleID k))
    (λ x, MkKey x.1.1.1.1.1 x.1.1.1.1.2 x.1.1.1.2 x.1.1.2 x.1.2 x.2)). by intros [].
Defined.

Record record := MkRecord {
  rcConnections : Z;
  rcBytes : Z;
  rcFirst : Z;
  rcLast : Z;
  rcProcess : string;
}.

Record Window := MkWindow { winStart : Z; winEnd : Z; winRecords : list FlowRecord }.

Definition DefaultBufferRecords : Z := 50000.
Definition DefaultWindowKeys : Z := DefaultBufferRecords.

(** ** The open window *)

Record Aggregator := MkAggregator {
  agStart : Z;
  agRecords : gmap Key record;
  agMaxKeys : Z;
  agDropped : Z;
  agFirstDrop : Z;
}.

Definition NewBoundedAggregator (start maxKeys : Z) : Aggregator :=
  MkAggregator start ∅ (if decide (maxKeys ≤ 0) then DefaultWindowKeys else maxKeys) 0 0.

Definition keyOf (o : Observation) : Key :=
  MkKey (obSrc o) (obDst o) (obDstPort o) (obProtocol o) (obDecision o) (obRuleID o).

Definition newRecord (at_ : Z) : record := MkRecord 0 0 at_ at_ "".

(** Folding one observation into the record of its key. *)
Definition addTo (r : record) (o : Observation) : record :=
  MkRecord (u64 (rcConnections r + obConnections o)) (u64 (rcBytes r + obBytes o))
    (if decide (obAt o < rcFirst r) then obAt o else rcFirst r)
    (if decide (rcLast r < obAt o) then obAt o else rcLast r)
    (if decide (obProcessName o = "") then rcProcess r else obProcessName o).

Definition Add (a : Aggregator) (o : Observation) : Aggregator :=
  let key := keyOf o in
  match agRecords a !! key with
  | Some r => MkAggregator (agStart a) (<[key := addTo r o]> (agRecords a)) (agMaxKeys a) (agDropped a)
                (agFirstDrop a)
  | None =>
      if decide (agMaxKeys a ≤ Z.of_nat (size (agRecords a)))
      then MkAggregator (agStart a) (agRecords a) (agMaxKeys a) (u64 (agDropped a + 1))
             (if decide (agDropped a = 0 ∨ obAt o < agFirstDrop a) then obAt o else agFirstDrop a)
      else MkAggregator (agStart a) (<[key := addTo (newRecord (obAt o)) o]> (agRecords a)) (agMaxKeys a)
             (agDropped a) (agFirstDrop a)
  end.

Definition lessKey (a b : Key) : bool :=
  if decide (kSrc a ≠ kSrc b) then Addr_Less (kSrc a) (kSrc b)
  else if decide (kDst a ≠ kDst b) then Addr_Less (kDst a) (kDst b)
  else if decide (kDstPort a ≠ kDstPort b) then bool_decide (kDstPort a < kDstPort b)
  else if decide (kProtocol a ≠ kProtocol b)
  then bool_decide (Protocol_number (kProtocol a) < Protocol_number (kProtocol b))
  else if decide (kDecision a ≠ kDecision b)
  then bool_decide (PolicyDecision_number (kDecision a) < PolicyDecision_number (kDecision b))
  else bool_decide (String.le (kRuleID a) (kRuleID b) ∧ kRuleID a ≠ kRuleID b).

(** [sort.Slice] with [lessKey]. *)
Definition key_le (a b : Key) : Prop := lessKey b a = false.
#[export] Instance key_le_dec : RelDecision key_le.
Proof. intros a b. unfold key_le. apply _. Defined.

Definition flowRecord (hold : Z → Z) (k : Key) (r : record) : FlowRecord :=
  MkFlowRecord (Addr_String (kSrc k)) (Addr_String (kDst k)) (kDstPort k) (kProtocol k) DIRECTION_INBOUND
    (kDecision k) (kRuleID k) (rcConnections r) (rcBytes r) (hold (rcFirst r)) (hold (rcLast r)) (rcProcess r).

(** [close]: the window, the next one, and the gap recorded. *)
Definition close (a : Aggregator) (end_ next : Z) (within : bool) : Window * Aggregator * list Gap :=
  let start := agStart a in
  let hold t := if negb within then t
                else if decide (t < start) then start else if decide (end_ < t) then end_ else t in
  let gaps := if decide (0 < agDropped a)
              then [MkGap GapWindowOverflow GapNoSource (hold (agFirstDrop a)) end_ (Some (agDropped a))]
              else [] in
  let keys := merge_sort key_le (map_to_list (agRecords a)).*1 in
  let recs := omap (λ k, flowRecord hold k <$> agRecords a !! k) keys in
  (MkWindow start end_ recs, MkAggregator next ∅ (agMaxKeys a) 0 (agFirstDrop a), gaps).

Definition Close (a : Aggregator) (end_ : Z) : Window * Aggregator * list Gap := close a end_ end_ false.
Definition Cut (a : Aggregator) (end_ next : Z) : Window * Aggregator * list Gap := close a end_ next true.

(** ** The buffer *)

Record Buffer := MkBuffer {
  bWindows : list Window;
  bRecords : Z;
  bCapacity : Z;
  bDropped : Z;
}.

Definition NewBuffer (capacity : Z) : Buffer :=
  MkBuffer [] 0 (if decide (capacity ≤ 0) then DefaultBufferRecords else capacity) 0.

Definition winLen (w : Window) : Z := Z.of_nat (length (winRecords w)).

(** [overflow]: the count and the gap, when records were dropped. *)
Definition overflow (w : Window) (n : Z) (dropped : Z) : Z * list Gap :=
  if decide (n ≤ 0) then (dropped, [])
  else (u64 (dropped + n), [MkGap GapBufferOverflow GapNoSource (winStart w) (winEnd w) (Some n)]).

(** The loop of [trim], structural on the windows; the newest window stays. *)
Fixpoint trimLoop (windows : list Window) (records capacity dropped : Z)
  : list Window * Z * Z * list Gap :=
  match windows with
  | oldest :: ((_ :: _) as rest) =>
      if decide (capacity < records) then
        let '(dropped, gaps) := overflow oldest (winLen oldest) dropped in
        let '(ws, n, d, gaps') := trimLoop rest (records - winLen oldest) capacity dropped in
        (ws, n, d, gaps ++ gaps')
      else (windows, records, dropped, [])
  | _ => (windows, records, dropped, [])
  end.

Definition trim (b : Buffer) : Buffer * list Gap :=
  let '(ws, n, d, gaps) := trimLoop (bWindows b) (bRecords b) (bCapacity b) (bDropped b) in
  match ws with
  | [w] =>
      if decide (bCapacity b < n) then
        let excess := n - bCapacity b in
        let w' := MkWindow (winStart w) (winEnd w) (drop (Z.to_nat excess) (winRecords w)) in
        let '(d', gaps') := overflow w' excess d in
        (MkBuffer [w'] (n - excess) (bCapacity b) d', gaps ++ gaps')
      else (MkBuffer ws n (bCapacity b) d, gaps)
  | _ => (MkBuffer ws n (bCapacity b) d, gaps)
  end.

Definition Push (w : Window) (b : Buffer) : Buffer * list Gap :=
  if decide (winLen w = 0) then (b, [])
  else trim (MkBuffer (bWindows b ++ [w]) (bRecords b + winLen w) (bCapacity b) (bDropped b)).

Definition Requeue (w : Window) (b : Buffer) : Buffer * list Gap :=
  if decide (winLen w = 0) then (b, [])
  else trim (MkBuffer (w :: bWindows b) (bRecords b + winLen w) (bCapacity b) (bDropped b)).

Definition Carry (w : Window) (b : Buffer) : Buffer :=
  match bWindows b with
  | [] => MkBuffer [w] (bRecords b) (bCapacity b) (bDropped b)
  | _ => b
  end.

(** [Pop], when a window is queued. *)
Definition Pop (b : Buffer) : option (Window * Buffer) :=
  match bWindows b with
  | [] => None
  | w :: ws => Some (w, MkBuffer ws (bRecords b - winLen w) (bCapacity b) (bDropped b))
  end.

(** ** The buffer loses nothing silently *)

Definition total (ws : list Window) : Z := foldr (λ w n, winLen w + n) 0 ws.
Definition gapTotal (gaps : list Gap) : Z := foldr (λ g n, default 0 (gCount g) + n) 0 gaps.

Lemma total_app ws ws' : total (ws ++ ws') = total ws + total ws'.
Proof. induction ws as [|w ws IH]; [done|]. unfold total in *. cbn. lia. Qed.
Lemma gapTotal_app l l' : gapTotal (l ++ l') = gapTotal l + gapTotal l'.
Proof. induction l as [|w l IH]; [done|]. unfold gapTotal in *. cbn. lia. Qed.
Lemma total_nonneg ws : 0 ≤ total ws.
Proof. induction ws as [|w ws IH]; [done|]. unfold total, winLen in *. cbn. lia. Qed.

Lemma u64_add a b : u64 (u64 a + b) = u64 (a + b).
Proof. unfold u64. apply Zplus_mod_idemp_l. Qed.

Lemma overflow_spec w n d :
  0 ≤ n → 0 ≤ d < 2 ^ 64 →
  (overflow w n d).1 = u64 (d + n) ∧ gapTotal (overflow w n d).2 = n.
Proof.
  intros Hn Hd. unfold overflow. case_decide.
  - assert (n = 0) as -> by lia. cbn. rewrite Z.add_0_r. by rewrite u64_small.
  - cbn. split; [done|lia].
Qed.

Lemma u64_range n : 0 ≤ u64 n < 2 ^ 64.
Proof. apply Z.mod_pos_bound. lia. Qed.

Lemma trimLoop_spec ws n cap d ws' n' d' gaps :
  trimLoop ws n cap d = (ws', n', d', gaps) → n = total ws → 0 ≤ d < 2 ^ 64 →
  n' = total ws' ∧ d' = u64 (d + (n - n')) ∧ gapTotal gaps = n - n' ∧ 0 ≤ n - n' ∧
  (∃ pre, ws = pre ++ ws') ∧ (n' ≤ cap ∨ (length ws' ≤ 1)%nat).
Proof.
  revert n d ws' n' d' gaps. induction ws as [|w ws IH]; intros n d ws' n' d' gaps; cbn [trimLoop].
  - intros [= <- <- <- <-] -> Hd. rewrite Z.sub_diag, Z.add_0_r, u64_small by done.
    split_and!; try done; [by exists []|right; cbn; lia].
  - destruct ws as [|w2 ws].
    { intros [= <- <- <- <-] -> Hd. rewrite Z.sub_diag, Z.add_0_r, u64_small by done.
      split_and!; try done; [by exists []|right; cbn; lia]. }
    case_decide as Hc.
    + destruct (overflow w (winLen w) d) as [d1 g1] eqn:Ho.
      destruct (trimLoop (w2 :: ws) (n - winLen w) cap d1) as [[[ws1 n1] d2] g2] eqn:Ht.
      intros [= <- <- <- <-] Hn Hd.
      assert (0 ≤ winLen w) as Hw by (unfold winLen; lia).
      destruct (overflow_spec w (winLen w) d Hw Hd) as [Hd1 Hg1]. rewrite Ho in Hd1, Hg1. cbn [fst snd] in *.
      destruct (IH _ _ _ _ _ _ Ht) as (Hn1 & Hd2 & Hg2 & Hp & (pre & Hpre) & Hle).
      * rewrite Hn. unfold total at 1. cbn [foldr]. fold (total (w2 :: ws)). unfold total. cbn [foldr]. lia.
      * rewrite Hd1. apply u64_range.
      * split_and!; [done| |rewrite gapTotal_app; lia|lia|exists (w :: pre); cbn; by rewrite <-Hpre|done].
        rewrite Hd2, Hd1, u64_add. f_equal. lia.
    + intros [= <- <- <- <-] Hn Hd. rewrite Z.sub_diag, Z.add_0_r, u64_small by done.
      split_and!; try done; [by exists []|left; lia].
Qed.

(** [trim] keeps the newest records, and what it drops it counts and records. *)
Lemma trim_spec b b' gaps :
  trim b = (b', gaps) → bRecords b = total (bWindows b) → 0 ≤ bDropped b < 2 ^ 64 → 0 ≤ bCapacity b →
  bRecords b' = total (bWindows b') ∧ bRecords b' ≤ bCapacity b ∧ bCapacity b' = bCapacity b ∧
  bDropped b' = u64 (bDropped b + (bRecords b - bRecords b')) ∧ 0 ≤ bDropped b' < 2 ^ 64 ∧
  gapTotal gaps = bRecords b - bRecords b'.
Proof.
  unfold trim. destruct (trimLoop _ _ _ _) as [[[ws n] d] g] eqn:Ht. intros Htrim Hr Hd Hc.
  destruct (trimLoop_spec _ _ _ _ _ _ _ _ Ht Hr Hd) as (Hn & Hd' & Hg & Hp & _ & Hle).
  pose proof (u64_range (bDropped b + (bRecords b - n))) as Hrng. rewrite <-Hd' in Hrng.
  assert (n ≤ bCapacity b → (b', gaps) = (MkBuffer ws n (bCapacity b) d, g) →
    bRecords b' = total (bWindows b') ∧ bRecords b' ≤ bCapacity b ∧ bCapacity b' = bCapacity b ∧
    bDropped b' = u64 (bDropped b + (bRecords b - bRecords b')) ∧ 0 ≤ bDropped b' < 2 ^ 64 ∧
    gapTotal gaps = bRecords b - bRecords b') as Hfit
    by (intros Hle' [= -> ->]; cbn [bRecords bWindows bCapacity bDropped]; split_and!; done || lia).
  destruct ws as [|w [|w2 ws]].
  - apply Hfit; [|congruence]. rewrite Hn. cbn. lia.
  - case_decide as Hov; [|apply Hfit; [lia|congruence]].
    destruct (overflow _ _ _) as [d' g'] eqn:Ho. injection Htrim as <- <-.
    assert (0 ≤ n - bCapacity b) as Hex by lia.
    eassert (Hos := overflow_spec _ _ _ Hex Hrng). rewrite Ho in Hos. cbn [fst snd] in Hos.
    destruct Hos as [Hd1 Hg1]. cbn [bRecords bWindows bCapacity bDropped].
    assert (n = winLen w) as Hnw by (rewrite Hn; unfold total; cbn; lia).
    pose proof (u64_range (d + (n - bCapacity b))).
    split_and!; [|lia|done|rewrite Hd1, Hd', u64_add; f_equal; lia|lia|lia|rewrite gapTotal_app; lia].
    unfold total, winLen. cbn. rewrite length_drop. unfold winLen in Hnw. lia.
  - apply Hfit; [|congruence]. destruct Hle as [?|Hlen]; [done|]. cbn in Hlen. lia.
Qed.

(** The life of a buffer, with the records that went in and came out and those
    the recorded gaps count. *)
Inductive buffer_run (capacity : Z) : Buffer → Z → Z → Z → Prop :=
| br_new : buffer_run capacity (NewBuffer capacity) 0 0 0
| br_push b i o l w b' gaps :
    buffer_run capacity b i o l → Push w b = (b', gaps) →
    buffer_run capacity b' (i + winLen w) o (l + gapTotal gaps)
| br_requeue b i o l w b' gaps :
    buffer_run capacity b i o l → Requeue w b = (b', gaps) →
    buffer_run capacity b' (i + winLen w) o (l + gapTotal gaps)
| br_carry b i o l w :
    buffer_run capacity b i o l → winLen w = 0 → buffer_run capacity (Carry w b) i o l
| br_pop b i o l w b' :
    buffer_run capacity b i o l → Pop b = Some (w, b') → buffer_run capacity b' i (o + winLen w) l.

Definition buffer_inv (b : Buffer) (i o l : Z) : Prop :=
  bRecords b = total (bWindows b) ∧ bRecords b ≤ bCapacity b ∧ 0 < bCapacity b ∧
  0 ≤ bDropped b < 2 ^ 64 ∧ bDropped b = u64 l ∧ i = o + bRecords b + l.

Lemma buffer_run_inv capacity b i o l : buffer_run capacity b i o l → buffer_inv b i o l.
Proof.
  assert (∀ b i o l w ws b' gaps, buffer_inv b i o l → total ws = total (bWindows b) + winLen w →
    trim (MkBuffer ws (bRecords b + winLen w) (bCapacity b) (bDropped b)) = (b', gaps) →
    buffer_inv b' (i + winLen w) o (l + gapTotal gaps)) as Htrim.
  { intros b0 i0 o0 l0 w ws b' gaps (Hr & Hle & Hc & Hd & Hl & Hi) Ht Htr.
    destruct (trim_spec _ _ _ Htr) as (Hr' & Hle' & Hc' & Hd' & Hrng & Hg);
      cbn [bRecords bWindows bCapacity bDropped] in *; [lia|done|lia|].
    split_and!; [done|lia|lia|lia|lia| |lia]. rewrite Hd', Hl, u64_add. f_equal. lia. }
  assert (∀ b i o l w, buffer_inv b i o l → winLen w = 0 → buffer_inv b (i + winLen w) o (l + gapTotal [])) as Hsame.
  { intros b0 i0 o0 l0 w Hinv ->. cbn. by rewrite !Z.add_0_r. }
  induction 1 as [|b i o l w b' gaps _ IH Hp|b i o l w b' gaps _ IH Hp|b i o l w _ IH Hw|b i o l w b' _ IH Hp].
  - unfold buffer_inv, NewBuffer, DefaultBufferRecords. cbn. case_decide; split_and!; done || lia.
  - unfold Push in Hp. case_decide as Hw; [injection Hp as <- <-; by apply Hsame|].
    eapply Htrim; [exact IH| |exact Hp]. rewrite total_app. unfold total at 2. cbn. lia.
  - unfold Requeue in Hp. case_decide as Hw; [injection Hp as <- <-; by apply Hsame|].
    eapply Htrim; [exact IH| |exact Hp]. unfold total at 1. cbn. fold (total (bWindows b)). lia.
  - unfold Carry. destruct IH as (Hr & Hle & Hc & Hd & Hl & Hi).
    destruct (bWindows b) eqn:Hb; unfold buffer_inv; [|rewrite Hb; split_and!; done || lia].
    cbn [bRecords bWindows bCapacity bDropped]. unfold total in *. cbn [foldr] in *. split_and!; done || lia.
  - unfold Pop in Hp. destruct IH as (Hr & Hle & Hc & Hd & Hl & Hi).
    destruct (bWindows b) as [|w0 ws] eqn:Hb; [done|]. injection Hp as -> <-.
    unfold buffer_inv. cbn [bRecords bWindows bCapacity bDropped].
    pose proof (total_nonneg ws). unfold total in Hr. cbn in Hr. fold (total ws) in Hr. unfold winLen in *.
    split_and!; lia.
Qed.

(** The flow buffer loses no record silently.  Over any sequence of pushes,
    requeues, carried empty windows and pops, the buffer holds exactly the
    records its counter says, within its capacity; every record that went in
    came out, is held, or was dropped; and the records dropped are exactly those
    the recorded overflow gaps count and, modulo the counter's 64 bits, those
    the heartbeat reports. *)
Theorem Buffer_conserves capacity b i o l :
  buffer_run capacity b i o l →
  bRecords b = total (bWindows b) ∧ 0 ≤ bRecords b ≤ bCapacity b ∧
  i = o + bRecords b + l ∧ bDropped b = u64 l.
Proof.
  intros Hrun. destruct (buffer_run_inv _ _ _ _ _ Hrun) as (Hr & Hle & _ & _ & Hl & Hi).
  pose proof (total_nonneg (bWindows b)). split_and!; [done|lia|lia|done|done].
Qed.

(** A window of [n] records. *)
Definition window_of (n : nat) : Window :=
  MkWindow 0 60 (repeat (MkFlowRecord "" "" 0 PROTOCOL_TCP DIRECTION_INBOUND POLICY_DECISION_OBSERVED "" 1 0 0 0 "") n).

Lemma Buffer_conserves_witness :
  ∃ b gaps, Push (window_of 3) (Push (window_of 4) (NewBuffer 5)).1 = (b, gaps) ∧
    7 = 0 + bRecords b + gapTotal gaps ∧ bDropped b = u64 4.
Proof.
  destruct (Push (window_of 4) (NewBuffer 5)) as [b1 g1] eqn:H1.
  destruct (Push (window_of 3) b1) as [b2 g2] eqn:H2.
  assert (g1 = []) as -> by (vm_compute in H1; congruence).
  assert (gapTotal g2 = 4) as Hg by (vm_compute in H1; injection H1 as <-; vm_compute in H2;
    injection H2 as _ <-; reflexivity).
  destruct (Buffer_conserves 5 b2 (0 + winLen (window_of 4) + winLen (window_of 3)) 0
    (0 + gapTotal [] + gapTotal g2)) as (_ & _ & Hi & Hd).
  - eapply br_push; [|exact H2]. eapply br_push; [apply br_new|exact H1].
  - exists b2, g2. cbn [fst]. split; [exact H2|]. rewrite Hg in *. split; [exact Hi|exact Hd].
Defined.

(** ** The window is the aggregate of what it was given *)

(** The distinct keys, in the order they first appear. *)
Definition addKey (ks : list Key) (o : Observation) : list Key :=
  if decide (keyOf o ∈ ks) then ks else ks ++ [keyOf o].
Definition distinctKeys (l : list Observation) : list Key := foldl addKey [] l.

(** The keys a window bounded by [n] keeps, and what it holds for one of them. *)
Definition keptKeys (n : Z) (l : list Observation) : list Key := take (Z.to_nat n) (distinctKeys l).
Definition recordOf (l : list Observation) : option record :=
  match l with
  | [] => None
  | o :: _ => Some (foldl addTo (newRecord (obAt o)) l)
  end.
Definition ofKey (k : Key) (l : list Observation) : list Observation := filter (λ o, keyOf o = k) l.
Definition unkept (n : Z) (l : list Observation) : list Observation := filter (λ o, keyOf o ∉ keptKeys n l) l.

Lemma distinctKeys_snoc l o : distinctKeys (l ++ [o]) = addKey (distinctKeys l) o.
Proof. unfold distinctKeys. by rewrite foldl_app. Qed.

Lemma distinctKeys_NoDup l : NoDup (distinctKeys l).
Proof.
  induction l as [|o l IH] using rev_ind; [constructor|]. rewrite distinctKeys_snoc. unfold addKey.
  case_decide as Hin; [done|]. apply NoDup_app. split_and!; [done| |apply NoDup_singleton].
  intros k Hk ->%list_elem_of_singleton. done.
Qed.

Lemma elem_of_distinctKeys l o : o ∈ l → keyOf o ∈ distinctKeys l.
Proof.
  induction l as [|x l IH] using rev_ind; [by intros ?%elem_of_nil|]. rewrite distinctKeys_snoc.
  intros [Hin|Hin%list_elem_of_singleton]%elem_of_app; unfold addKey; case_decide;
    rewrite ?elem_of_app, ?list_elem_of_singleton; subst; auto.
Qed.

Lemma distinctKeys_elem l k : k ∈ distinctKeys l → ∃ o, o ∈ l ∧ k = keyOf o.
Proof.
  induction l as [|x l IH] using rev_ind; [by intros ?%elem_of_nil|]. rewrite distinctKeys_snoc.
  setoid_rewrite elem_of_app. setoid_rewrite list_elem_of_singleton. unfold addKey. case_decide; [naive_solver|].
  intros [Hk|Hk%list_elem_of_singleton]%elem_of_app; naive_solver.
Qed.

Lemma recordOf_snoc l o :
  recordOf (l ++ [o]) = Some (addTo (default (newRecord (obAt o)) (recordOf l)) o).
Proof. destruct l as [|x l]; [done|]. cbn [app recordOf default]. by rewrite app_comm_cons, foldl_app. Qed.

Lemma ofKey_snoc k l o : ofKey k (l ++ [o]) = if decide (keyOf o = k) then ofKey k l ++ [o] else ofKey k l.
Proof. unfold ofKey. rewrite filter_app, filter_cons, filter_nil. case_decide; [done|]. by rewrite app_nil_r. Qed.

Lemma ofKey_absent k l : k ∉ distinctKeys l → ofKey k l = [].
Proof.
  intros Hk. apply filter_nil_iff. intros o Ho <-. by apply Hk, elem_of_distinctKeys.
Qed.

(** The keys kept do not change once the bound is reached. *)
Lemma keptKeys_snoc n l o :
  0 < n →
  keptKeys n (l ++ [o]) =
  if decide (keyOf o ∈ keptKeys n l) then keptKeys n l
  else if decide (n ≤ Z.of_nat (length (keptKeys n l))) then keptKeys n l
  else keptKeys n l ++ [keyOf o].
Proof.
  intros Hn. unfold keptKeys. rewrite distinctKeys_snoc. unfold addKey. rewrite length_take.
  destruct (decide (n ≤ Z.of_nat (length (distinctKeys l)))) as [Hfull|Hroom].
  - assert (∀ x, take (Z.to_nat n) (distinctKeys l ++ x) = take (Z.to_nat n) (distinctKeys l)) as Ht
      by (intros x; apply take_app_le; lia).
    assert (take (Z.to_nat n) (if decide (keyOf o ∈ distinctKeys l) then distinctKeys l
      else distinctKeys l ++ [keyOf o]) = take (Z.to_nat n) (distinctKeys l)) as ->
      by (case_decide; auto).
    case_decide; [done|]. by rewrite decide_True by lia.
  - rewrite (take_ge (distinctKeys l)) by lia. case_decide; [rewrite take_ge by lia; done|].
    rewrite decide_False by lia. rewrite take_ge; [done|]. rewrite length_app. cbn. lia.
Qed.

Definition addAll (start n : Z) (l : list Observation) : Aggregator := foldl Add (NewBoundedAggregator start n) l.

Lemma addAll_snoc start n l o : addAll start n (l ++ [o]) = Add (addAll start n l) o.
Proof. unfold addAll. by rewrite foldl_app. Qed.

Lemma unkept_snoc n l o :
  0 < n →
  length (unkept n (l ++ [o])) =
  (length (unkept n l) + if decide (keyOf o ∈ keptKeys n (l ++ [o])) then 0 else 1)%nat.
Proof.
  intros Hn. unfold unkept. rewrite filter_app, length_app. f_equal.
  - (* an earlier observation is kept now exactly when it was *)
    assert (∀ x, x ∈ l → keyOf x ∈ keptKeys n (l ++ [o]) ↔ keyOf x ∈ keptKeys n l) as Hsame.
    { intros x Hx. rewrite keptKeys_snoc by done. repeat case_decide; try done.
      rewrite elem_of_app, list_elem_of_singleton. split; [|by left]. intros [?|Heq]; [done|].
      unfold keptKeys in *. rewrite length_take in *. rewrite take_ge by lia.
      by apply elem_of_distinctKeys. }
    revert Hsame. generalize (keptKeys n (l ++ [o])) as ks'. generalize (keptKeys n l) as ks.
    intros ks ks'. induction l as [|x l IH]; [done|]. intros Hsame. rewrite !filter_cons.
    assert (keyOf x ∈ ks' ↔ keyOf x ∈ ks) as Hx by (apply Hsame; left).
    destruct (decide (keyOf x ∉ ks')), (decide (keyOf x ∉ ks)); try tauto; cbn;
      rewrite IH; try done; intros y Hy; apply Hsame; by right.
  - rewrite filter_cons, filter_nil. by repeat case_decide.
Qed.

Lemma recordOf_kept n l k : k ∈ keptKeys n l → is_Some (recordOf (ofKey k l)).
Proof.
  intros Hk. assert (k ∈ distinctKeys l) as Hk'.
  { unfold keptKeys in Hk. apply elem_of_take in Hk as (i & Hi & _). by eapply list_elem_of_lookup_2. }
  apply distinctKeys_elem in Hk' as (x & Hx & ->).
  destruct (ofKey (keyOf x) l) as [|y l'] eqn:Hnil; [|by eauto].
  unfold ofKey in Hnil. rewrite filter_nil_iff in Hnil. by destruct (Hnil x Hx).
Qed.

Lemma addAll_spec start n l :
  0 < n →
  let a := addAll start n l in
  agStart a = start ∧ agMaxKeys a = n ∧
  (∀ k, agRecords a !! k = if decide (k ∈ keptKeys n l) then recordOf (ofKey k l) else None) ∧
  agDropped a = u64 (Z.of_nat (length (unkept n l))).
Proof.
  intros Hn. cbn zeta. induction l as [|o l IH] using rev_ind.
  { unfold addAll. cbn. rewrite decide_False by lia. split_and!; try done.
    intros k. rewrite lookup_empty, decide_False; [done|]. unfold keptKeys. cbn. rewrite take_nil.
    apply not_elem_of_nil. }
  destruct IH as (Hs & Hm & Hr & Hd). rewrite addAll_snoc. set (a := addAll start n l) in *.
  assert (∀ k, is_Some (agRecords a !! k) ↔ k ∈ keptKeys n l) as Hdom.
  { intros k. rewrite Hr. case_decide as Hk; [|by split; [intros []|]]. split; [done|]. intros _.
    by eapply recordOf_kept. }
  assert (size (agRecords a) = length (keptKeys n l)) as Hsize.
  { rewrite <-size_dom. assert (dom (agRecords a) = list_to_set (keptKeys n l)) as ->.
    { apply set_eq. intros k. rewrite elem_of_dom, elem_of_list_to_set. apply Hdom. }
    apply size_list_to_set. unfold keptKeys. apply (sublist_NoDup _ (distinctKeys l)); [apply distinctKeys_NoDup|].
    apply sublist_take. }
  assert (∀ k, keyOf o ≠ k → ofKey k (l ++ [o]) = ofKey k l) as Hother
    by (intros k Hk; by rewrite ofKey_snoc, decide_False).
  assert (recordOf (ofKey (keyOf o) (l ++ [o])) =
    Some (addTo (default (newRecord (obAt o)) (recordOf (ofKey (keyOf o) l))) o)) as Hown
    by (rewrite ofKey_snoc, decide_True by done; apply recordOf_snoc).
  rewrite unkept_snoc by done. unfold Add.
  destruct (agRecords a !! keyOf o) as [r|] eqn:Hlook; [|case_decide as Hfull].
  - (* a key the window holds *)
    assert (keyOf o ∈ keptKeys n l) as Hin by (apply Hdom; eauto).
    rewrite keptKeys_snoc, (decide_True (P := keyOf o ∈ keptKeys n l)) by done.
    rewrite (decide_True (P := keyOf o ∈ keptKeys n l)) by done. rewrite Nat.add_0_r.
    cbn [agStart agMaxKeys agRecords agDropped]. split_and!; try done. intros k.
    rewrite Hr, decide_True in Hlook by done.
    destruct (decide (keyOf o = k)) as [<-|Hne].
    + rewrite lookup_insert_eq, decide_True by done. by rewrite Hown, Hlook.
    + rewrite lookup_insert_ne, Hr by done. by rewrite Hother.
  - (* a new key, and the window is full *)
    assert (keyOf o ∉ keptKeys n l) as Hni by (rewrite <-Hdom, Hlook; by intros []).
    rewrite Hm, Hsize in Hfull.
    rewrite keptKeys_snoc, (decide_False (P := keyOf o ∈ keptKeys n l)), (decide_True (P := n ≤ _)) by done.
    rewrite (decide_False (P := keyOf o ∈ keptKeys n l)) by done.
    cbn [agStart agMaxKeys agRecords agDropped]. split_and!; try done.
    + intros k. rewrite Hr. case_decide; [|done]. rewrite Hother by (by intros <-). done.
    + rewrite Hd, u64_add. f_equal. lia.
  - (* a new key that fits *)
    assert (keyOf o ∉ keptKeys n l) as Hni by (rewrite <-Hdom, Hlook; by intros []).
    rewrite Hm, Hsize in Hfull.
    rewrite keptKeys_snoc, (decide_False (P := keyOf o ∈ keptKeys n l)), (decide_False (P := n ≤ _)) by done.
    rewrite (decide_True (P := keyOf o ∈ keptKeys n l ++ [keyOf o])) by set_solver. rewrite Nat.add_0_r.
    cbn [agStart agMaxKeys agRecords agDropped]. split_and!; try done. intros k.
    destruct (decide (keyOf o = k)) as [<-|Hne].
    + rewrite lookup_insert_eq, decide_True by set_solver. rewrite Hown.
      assert (ofKey (keyOf o) l = []) as ->; [|done]. apply ofKey_absent.
      unfold keptKeys in *. rewrite length_take in Hfull. by rewrite take_ge in Hni by lia.
    + rewrite lookup_insert_ne, Hr, Hother by done.
      destruct (decide (k ∈ keptKeys n l)); [rewrite decide_True by set_solver; done|].
      rewrite decide_False; [done|]. rewrite elem_of_app, list_elem_of_singleton. naive_solver.
Qed.

Definition sumOf (f : Observation → Z) (l : list Observation) : Z := foldr (λ o n, f o + n) 0 l.

(** What a record says of the observations of its key. *)
Lemma recordOf_sums l r :
  recordOf l = Some r →
  rcConnections r = u64 (sumOf obConnections l) ∧ rcBytes r = u64 (sumOf obBytes l) ∧
  (∀ o, o ∈ l → rcFirst r ≤ obAt o ≤ rcLast r) ∧
  (∃ o, o ∈ l ∧ obAt o = rcFirst r) ∧ (∃ o, o ∈ l ∧ obAt o = rcLast r).
Proof.
  assert (∀ f l o, sumOf f (l ++ [o]) = sumOf f l + f o) as Hsum.
  { intros f l0 o. unfold sumOf. induction l0 as [|x l0 IH]; cbn; lia. }
  revert r. induction l as [|o l IH] using rev_ind; [done|]. intros r. rewrite recordOf_snoc.
  intros Heq. assert (r = addTo (default (newRecord (obAt o)) (recordOf l)) o) as -> by congruence. clear Heq.
  setoid_rewrite elem_of_app. setoid_rewrite list_elem_of_singleton. rewrite !Hsum.
  destruct (recordOf l) as [r0|] eqn:Hl; cbn [default].
  - destruct (IH r0 eq_refl) as (Hc & Hb & Hr & (o1 & Hi1 & Ho1) & (o2 & Hi2 & Ho2)). unfold id, addTo.
    cbn [rcConnections rcBytes rcFirst rcLast]. rewrite Hc, Hb, !u64_add. split_and!; [done|done| | |].
    + intros x [Hx|Hx]; [specialize (Hr x Hx)|subst x]; repeat case_decide; lia.
    + case_decide; [exists o; auto|exists o1; auto].
    + case_decide; [exists o; auto|exists o2; auto].
  - destruct l as [|x l]; [|done]. unfold addTo, newRecord.
    cbn [rcConnections rcBytes rcFirst rcLast sumOf foldr]. rewrite !decide_False by lia.
    split_and!; [done|done| |exists o; auto|exists o; auto]. intros y [Hy%elem_of_nil|Hy]; [done|subst; lia].
Qed.

(** A closed window is the aggregate of its observations.  Whatever was
    observed, the window has one record for each of the first keys up to its
    bound and for no other; the record's counts are the sums over exactly the
    observations of that key (modulo 64 bits), and its first and last seen their
    earliest and latest instants; the overflow gap counts exactly the
    observations of the keys that did not fit; and the next window starts empty
    where this one ended. *)
Theorem Aggregator_window start n l end_ :
  0 < n → Z.of_nat (length l) < 2 ^ 64 →
  let '(w, next, gaps) := Close (addAll start n l) end_ in
  winStart w = start ∧ winEnd w = end_ ∧
  winRecords w ≡ₚ omap (λ k, flowRecord id k <$> recordOf (ofKey k l)) (keptKeys n l) ∧
  winLen w = Z.of_nat (length (keptKeys n l)) ∧ winLen w ≤ n ∧
  (∀ k r, recordOf (ofKey k l) = Some r →
     rcConnections r = u64 (sumOf obConnections (ofKey k l)) ∧ rcBytes r = u64 (sumOf obBytes (ofKey k l)) ∧
     (∀ o, o ∈ ofKey k l → rcFirst r ≤ obAt o ≤ rcLast r) ∧
     (∃ o, o ∈ ofKey k l ∧ obAt o = rcFirst r) ∧ (∃ o, o ∈ ofKey k l ∧ obAt o = rcLast r)) ∧
  gapTotal gaps = Z.of_nat (length (unkept n l)) ∧
  agRecords next = ∅ ∧ agStart next = end_ ∧ agDropped next = 0 ∧ agMaxKeys next = n.
Proof.
  intros Hn Hlen. destruct (addAll_spec start n l Hn) as (Hs & Hm & Hr & Hd).
  unfold Close, close. cbn zeta. set (a := addAll start n l) in *.
  assert (∀ k, is_Some (agRecords a !! k) ↔ k ∈ keptKeys n l) as Hdom.
  { intros k. rewrite Hr. case_decide; [|by split; [intros []|]]. split; [done|]. intros _. by eapply recordOf_kept. }
  assert (merge_sort key_le (map_to_list (agRecords a)).*1 ≡ₚ keptKeys n l) as Hkeys.
  { rewrite merge_sort_Permutation. apply NoDup_Permutation; [apply NoDup_fst_map_to_list| |].
    - unfold keptKeys. apply (sublist_NoDup _ (distinctKeys l)); [apply distinctKeys_NoDup|apply sublist_take].
    - intros k. rewrite <-Hdom, list_elem_of_fmap. split.
      + intros ([k' r] & -> & Hk%elem_of_map_to_list). cbn. eauto.
      + intros [r Hk]. exists (k, r). by rewrite elem_of_map_to_list. }
  assert (∀ k, k ∈ keptKeys n l → agRecords a !! k = recordOf (ofKey k l)) as Hrec
    by (intros k Hk; by rewrite Hr, decide_True).
  assert (∀ ks, (∀ k, k ∈ ks → k ∈ keptKeys n l) →
    omap (λ k, flowRecord (λ t, t) k <$> agRecords a !! k) ks =
    omap (λ k, flowRecord id k <$> recordOf (ofKey k l)) ks ∧
    length (omap (λ k, flowRecord id k <$> recordOf (ofKey k l)) ks) = length ks) as Homap.
  { induction ks as [|k ks IH]; intros Hks; [done|]. cbn. rewrite Hrec by (apply Hks; left).
    destruct (recordOf_kept n l k) as [r Hrk]; [apply Hks; left|]. rewrite Hrk. cbn.
    destruct IH as [-> IHl]; [intros k' Hk'; apply Hks; by right|]. rewrite IHl. done. }
  destruct (Homap (keptKeys n l) ltac:(auto)) as [_ Hl2].
  destruct (Homap (merge_sort key_le (map_to_list (agRecords a)).*1)) as [Hrecs _].
  { intros k. by rewrite Hkeys. }
  cbn [winStart winEnd winRecords agRecords agStart agDropped agMaxKeys negb].
  assert (omap (λ k, flowRecord id k <$> recordOf (ofKey k l))
    (merge_sort key_le (map_to_list (agRecords a)).*1) ≡ₚ
    omap (λ k, flowRecord id k <$> recordOf (ofKey k l)) (keptKeys n l)) as Hperm by (by rewrite Hkeys).
  unfold winLen. cbn [winRecords]. rewrite Hrecs. split_and!; try done.
  - by rewrite Hperm, Hl2.
  - rewrite Hperm, Hl2. unfold keptKeys. rewrite length_take. lia.
  - intros k r. apply recordOf_sums.
  - assert (length (unkept n l) ≤ length l)%nat by apply length_filter.
    rewrite Hd, u64_small by lia. case_decide; cbn; lia.
Qed.

Lemma Aggregator_window_witness :
  ∃ w next gaps, Close (addAll 0 1
      [MkObservation 5 (Addr4 1) (Addr4 2) 443 PROTOCOL_TCP POLICY_DECISION_ALLOWED "a/tcp" 1 0 "";
       MkObservation 3 (Addr4 1) (Addr4 2) 443 PROTOCOL_TCP POLICY_DECISION_ALLOWED "a/tcp" 1 90 "";
       MkObservation 7 (Addr4 9) (Addr4 2) 443 PROTOCOL_TCP POLICY_DECISION_ALLOWED "a/tcp" 1 0 ""]) 60
    = (w, next, gaps) ∧ winLen w ≤ 1 ∧ gapTotal gaps = 1.
Proof.
  pose (obs := [MkObservation 5 (Addr4 1) (Addr4 2) 443 PROTOCOL_TCP POLICY_DECISION_ALLOWED "a/tcp" 1 0 "";
       MkObservation 3 (Addr4 1) (Addr4 2) 443 PROTOCOL_TCP POLICY_DECISION_ALLOWED "a/tcp" 1 90 "";
       MkObservation 7 (Addr4 9) (Addr4 2) 443 PROTOCOL_TCP POLICY_DECISION_ALLOWED "a/tcp" 1 0 ""]).
  fold obs. pose proof (Aggregator_window 0 1 obs 60 ltac:(lia) ltac:(reflexivity)) as Hw.
  destruct (Close (addAll 0 1 obs) 60) as [[w next] gaps]. exists w, next, gaps.
  destruct Hw as (_ & _ & _ & _ & Hle & _ & Hg & _). split; [reflexivity|]. split; [exact Hle|].
  rewrite Hg. vm_compute. reflexivity.
Defined.
