(* ===== verification/Ingest.v ===== *)
(** * Resolving and dating flow reports: [internal/ingest/resolve.go], [clock.go]

    The index of one reported window resolves source addresses to peers; a
    report's clock reading compares the agent's clock with the control plane's.
    Instants and durations are nanoseconds; Go's [Time.Sub] saturates at the
    bounds of a duration. *)

From S2P Require Import Prelude GoStd Netip Wire Uuid Identity Policy Registry.
Local Open Scope Z_scope.

(** ** Resolution *)

(** [flowstore.Peer]. *)
Inductive FlowPeer :=
| FlowPeerUnknown (key : string)
| FlowPeerWorkload (key : string) (labels : gmap string string)
| FlowPeerAddressGroup (key : string).

Section resolve.
Context `{UUIDLib}.

Record workloadEntry := MkWorkloadEntry { weKey : string; weLabels : gmap string string }.
Record groupEntry := MkGroupEntry { gePrefix : Prefix; geKey : string }.

Record Index := MkIndex {
  ixWorkloads : gmap Addr workloadEntry;
  ixGroups : list groupEntry;
}.

Definition entryOf (w : Workload) : workloadEntry := MkWorkloadEntry (WorkloadID_String (wID w)) (LabelMap w).

(** One address: the first workload to report it keeps it. *)
Definition takeIndexed (e : workloadEntry) (m : gmap Addr workloadEntry) (a : Addr) : gmap Addr workloadEntry :=
  match m !! Unmap a with
  | Some _ => m
  | None => <[Unmap a := e]> m
  end.

Definition indexWorkload (m : gmap Addr workloadEntry) (w : Workload) : gmap Addr workloadEntry :=
  if Retired w then m else foldl (takeIndexed (entryOf w)) m (wAddresses w).

(** The prefix of one CIDR text of a group. *)
Definition groupPrefix (c : string) : option Prefix :=
  match ParsePrefix c with
  | Some pfx => Some (Masked pfx)
  | None => a ← ParseAddr c; pfx ← PrefixFrom a (BitLen a); Some (Masked pfx)
  end.

Definition groupEntries (g : AddressGroup) : list groupEntry :=
  omap (λ c, (λ p, MkGroupEntry p (uuid_String (agID g))) <$> groupPrefix c) (agCIDRs g).

(** [sort.SliceStable]: longest prefix first, then by id. *)
Definition group_le (a b : groupEntry) : Prop :=
  pBits (gePrefix b) < pBits (gePrefix a) ∨
  pBits (gePrefix a) = pBits (gePrefix b) ∧ String.le (geKey a) (geKey b).
#[global] Instance group_le_dec : RelDecision group_le.
Proof. intros a b. unfold group_le. apply _. Defined.
#[global] Instance group_le_trans : Transitive group_le.
Proof.
  intros a b c [?|[? H1]] [?|[? H2]]; unfold group_le; [left; lia|left; lia|left; lia|].
  right. split; [lia|]. by etrans.
Qed.
#[global] Instance group_le_total : Total group_le.
Proof.
  intros a b. unfold group_le. destruct (Z.lt_trichotomy (pBits (gePrefix a)) (pBits (gePrefix b))) as [?|[->|?]];
    [right; by left| |left; by left].
  destruct (total String.le (geKey a) (geKey b)); [left|right]; by right.
Qed.

Definition BuildIndex (workloads : list Workload) (groups : list AddressGroup) : Index :=
  MkIndex (foldl indexWorkload ∅ workloads) (merge_sort group_le (groups ≫= groupEntries)).

Definition Resolve (idx : Index) (addr : Addr) : FlowPeer :=
  let addr := Unmap addr in
  match ixWorkloads idx !! addr with
  | Some e => FlowPeerWorkload (weKey e) (weLabels e)
  | None =>
      match list_find (λ g, Contains (gePrefix g) addr = true) (ixGroups idx) with
      | Some (_, g) => FlowPeerAddressGroup (geKey g)
      | None => FlowPeerUnknown (Addr_String addr)
      end
  end.

Definition HasWorkload (idx : Index) (id : string) : bool :=
  existsb (λ '(_, e), bool_decide (weKey e = id)) (map_to_list (ixWorkloads idx)).

(** ** Properties of the index *)

(** A workload that has an address. *)
Definition holds (a : Addr) (w : Workload) : Prop := Retired w = false ∧ a ∈ Unmap <$> wAddresses w.
#[global] Instance holds_dec a w : Decision (holds a w).
Proof. unfold holds. apply _. Defined.

Lemma takeIndexed_lookup e m l a :
  foldl (takeIndexed e) m l !! a =
  match m !! a with Some x => Some x | None => if decide (a ∈ Unmap <$> l) then Some e else None end.
Proof.
  revert m. induction l as [|x l IH]; intros m; cbn [foldl fmap list_fmap].
  { rewrite decide_False by apply not_elem_of_nil. by destruct (m !! a). }
  rewrite IH. unfold takeIndexed. destruct (m !! Unmap x) eqn:Hx.
  - destruct (m !! a) eqn:Ha; [done|]. assert (a ≠ Unmap x) by congruence.
    destruct (decide (a ∈ Unmap <$> l)); [rewrite decide_True by (by right); done|].
    rewrite decide_False; [done|]. rewrite elem_of_cons. tauto.
  - destruct (decide (a = Unmap x)) as [->|Hne].
    + rewrite lookup_insert_eq, Hx, decide_True; [done|left].
    + rewrite lookup_insert_ne by done. destruct (m !! a); [done|].
      destruct (decide (a ∈ Unmap <$> l)); [rewrite decide_True by (by right); done|].
      rewrite decide_False; [done|]. rewrite elem_of_cons. tauto.
Qed.

(** The index holds the first active workload with the address. *)
Lemma index_lookup ws m a :
  foldl indexWorkload m ws !! a =
  match m !! a with
  | Some x => Some x
  | None => entryOf <$> (snd <$> list_find (holds a) ws)
  end.
Proof.
  revert m. induction ws as [|w ws IH]; intros m; cbn [foldl list_find].
  { by destruct (m !! a). }
  rewrite IH. unfold indexWorkload. destruct (Retired w) eqn:Hr.
  - rewrite (decide_False (P := holds a w)) by (intros [? _]; congruence).
    destruct (m !! a); [done|]. by destruct (list_find (holds a) ws) as [[i x]|].
  - rewrite takeIndexed_lookup. destruct (m !! a); [done|].
    destruct (decide (a ∈ Unmap <$> wAddresses w)) as [Hin|Hin].
    + by rewrite decide_True by (by split).
    + rewrite decide_False by (by intros [_ ?]). by destruct (list_find (holds a) ws) as [[i x]|].
Qed.

(** In a sorted list the first match is the least one. *)
Lemma first_match_least (P : groupEntry → Prop) `{∀ x, Decision (P x)} l i g :
  StronglySorted group_le l → list_find P l = Some (i, g) → ∀ g', g' ∈ l → P g' → group_le g g'.
Proof.
  intros Hs. revert i g. induction Hs as [|x l Hs IH Hx]; intros i g; cbn [list_find]; [done|].
  destruct (decide (P x)) as [Hp|Hp].
  - intros [= <- <-] g' [->|Hin]%elem_of_cons _; [by right|]. rewrite Forall_forall in Hx. by apply Hx.
  - destruct (list_find P l) as [[j y]|] eqn:Hf; [|done]. intros [= <- <-] g' [->|Hin]%elem_of_cons Hg'; [done|].
    by eapply IH.
Qed.
End resolve.

(** An address resolves to the one peer it should.  Its IPv6-mapped form
    aside, an active workload that reports it wins, the first in registry order
    and with its labels; otherwise the address group with the most specific
    prefix that contains it wins, the least id among equals; otherwise it stands
    for itself.  A retired workload never resolves. *)
Theorem Resolve_spec `{UUIDLib} workloads groups addr :
  let a := Unmap addr in
  let idx := BuildIndex workloads groups in
  match list_find (holds a) workloads with
  | Some (_, w) => Resolve idx addr = FlowPeerWorkload (WorkloadID_String (wID w)) (LabelMap w)
  | None =>
      (∃ g, g ∈ groups ≫= groupEntries ∧ Contains (gePrefix g) a = true ∧
         (∀ g', g' ∈ groups ≫= groupEntries → Contains (gePrefix g') a = true → group_le g g') ∧
         Resolve idx addr = FlowPeerAddressGroup (geKey g)) ∨
      ((∀ g, g ∈ groups ≫= groupEntries → Contains (gePrefix g) a = false) ∧
       Resolve idx addr = FlowPeerUnknown (Addr_String a))
  end.
Proof.
  cbn zeta. unfold Resolve, BuildIndex. cbn zeta. cbn [ixWorkloads ixGroups]. rewrite index_lookup, lookup_empty.
  destruct (list_find (holds (Unmap addr)) workloads) as [[i w]|]; [done|]. cbn [fmap option_fmap option_map].
  destruct (list_find _ (merge_sort group_le (groups ≫= groupEntries))) as [[i g]|] eqn:Hf.
  - left. exists g. pose proof Hf as Hf'. apply list_find_Some in Hf' as (Hi & Hc & _).
    apply list_elem_of_lookup_2 in Hi. rewrite merge_sort_Permutation in Hi. split_and!; [done|done| |done].
    intros g' Hg' Hc'. eapply first_match_least; [|exact Hf| |exact Hc'].
    + apply StronglySorted_merge_sort; apply _.
    + by rewrite merge_sort_Permutation.
  - right. split; [|done]. intros g Hg. apply list_find_None in Hf. rewrite Forall_forall in Hf.
    apply not_true_is_false, Hf. by rewrite merge_sort_Permutation.
Qed.

(** ** Clocks *)

Definition ClockSkewWindows : Z := 2.

Inductive ClockMeasure := MeasuredBySentAt | MeasuredByWindowEnd.

Record ClockReading := MkClockReading {
  crOffset : Z;
  crMeasuredBy : ClockMeasure;
  crSkewed : bool;
  crReceivedAt : Z;
}.

(** [Time.Sub]. *)
Definition timeSub (t u : Z) : Z := Z.max (- 2 ^ 63) (Z.min (2 ^ 63 - 1) (t - u)).

(** [ReadClock], with the report's [sent_at], if it carries one, and its window's
    end. *)
Definition ReadClock (sentAt : option Z) (windowEnd receivedAt window : Z) : ClockReading :=
  let tolerance := i64 (ClockSkewWindows * window) in
  match sentAt with
  | Some sent =>
      let offset := timeSub sent receivedAt in
      MkClockReading offset MeasuredBySentAt
        (bool_decide (tolerance < offset) || bool_decide (offset < i64 (- tolerance))) receivedAt
  | None =>
      let offset := timeSub windowEnd receivedAt in
      MkClockReading offset MeasuredByWindowEnd (bool_decide (tolerance < offset)) receivedAt
  end.

Lemma ReadClock_spec sentAt windowEnd receivedAt window :
  0 < window < 2 ^ 62 →
  crSkewed (ReadClock sentAt windowEnd receivedAt window) = true ↔
  match sentAt with
  | Some sent => 2 * window < Z.abs (sent - receivedAt)
  | None => receivedAt + 2 * window < windowEnd
  end.
Proof.
  intros Hw. unfold ReadClock, ClockSkewWindows, timeSub. cbn zeta.
  destruct sentAt as [sent|]; cbn [crSkewed]; rewrite !i64_small by (rewrite ?i64_small; lia).
  - rewrite orb_true_iff, !bool_decide_eq_true. lia.
  - rewrite bool_decide_eq_true. lia.
Qed.
