(* ===== verification/IngestService.v ===== *)
(** * The ingest service: [internal/ingest/service.go]

    One reported window is validated record by record, its sources are resolved
    against one view of the registry, and it is stored; on the way the receipt of
    the report is recorded, the silence it ended is derived as an evidence gap, and
    its clock is read.  The registry and the flow store are an interface; a call of
    it may fail, and may take effect although it failed.  Instants are nanoseconds. *)

From S2P Require Import Prelude GoStd Netip Wire Uuid Identity Policy Registry Ingest.
Local Open Scope Z_scope.

(** ** Messages *)

Inductive EvidenceGapKind :=
| EVIDENCE_GAP_KIND_UNSPECIFIED
| EVIDENCE_GAP_KIND_SOURCE_OVERRUN
| EVIDENCE_GAP_KIND_SOURCE_RESTART
| EVIDENCE_GAP_KIND_BUFFER_OVERFLOW
| EVIDENCE_GAP_KIND_DUMP_TRUNCATED
| EVIDENCE_GAP_KIND_WINDOW_OVERFLOW
| EVIDENCE_GAP_KIND_WINDOW_REJECTED
| EVIDENCE_GAP_KIND_TABLE_REMOVED
| EVIDENCE_GAP_KIND_AGENT_SILENT
| EvidenceGapKind_unrecognized (n : Z).

Inductive EvidenceSource :=
| EVIDENCE_SOURCE_UNSPECIFIED
| EVIDENCE_SOURCE_CONNTRACK
| EVIDENCE_SOURCE_NFLOG
| EvidenceSource_unrecognized (n : Z).

#[export] Instance EvidenceGapKind_eq_dec : EqDecision EvidenceGapKind.
Proof. solve_decision. Defined.
#[export] Instance EvidenceSource_eq_dec : EqDecision EvidenceSource.
Proof. solve_decision. Defined.

(** [innerwallv1.EvidenceGap]. *)
Record EvidenceGap := MkEvidenceGap {
  egKind : EvidenceGapKind; egSource : EvidenceSource;
  egFrom : option Z; egTo : option Z; egCount : option Z;
}.

(** [innerwallv1.FlowRecord] as it is received, with instants that may be unset. *)
Record FlowMessage := MkFlowMessage {
  fmSrcAddress : string; fmDstAddress : string; fmDstPort : Z;
  fmProtocol : Protocol; fmDirection : Direction; fmDecision : PolicyDecision;
  fmMatchedRuleId : string; fmConnectionCount : Z; fmByteCount : Z;
  fmFirstSeen : option Z; fmLastSeen : option Z; fmProcessName : string;
}.

Record ReportFlowsRequest := MkReportFlowsRequest {
  rqWindowStart : option Z; rqWindowEnd : option Z; rqSentAt : option Z;
  rqRecords : list FlowMessage; rqGaps : list EvidenceGap;
}.

(** ** What is stored: [flowstore.Gap], [Record] and [Window] *)

Record FlowGap := MkFlowGap {
  fgKind : EvidenceGapKind; fgSource : EvidenceSource; fgFrom : Z; fgTo : Z; fgCount : option Z;
}.

Record FlowEntry := MkFlowEntry {
  fePeer : FlowPeer; feSrcAddress : Addr; feDstAddress : Addr; feDstPort : Z;
  feProtocol : Protocol; feDirection : Direction; feDecision : PolicyDecision;
  feMatchedRuleID : string; feConnectionCount : Z; feByteCount : Z;
  feFirstSeen : Z; feLastSeen : Z; feProcessName : string;
}.

Record FlowWindow `{UUIDLib} := MkFlowWindow {
  fwWorkload : WorkloadID; fwStart : Z; fwEnd : Z; fwRecords : list FlowEntry; fwGaps : list FlowGap;
}.

Definition maxFieldLength : nat := 256.
Definition MaxGapsPerRequest : nat := 4096.
Definition SilenceWindows : Z := 2.

(** ** Conversion *)

Inductive ConvertError :=
| BadSource | BadDestination | PortOutOfRange | ProtocolUnspecified | UnknownProtocol | BadDirection
| DecisionUnspecified | UnknownDecision | FieldTooLong | SeenInverted.

Definition convert (fr : FlowMessage) (start end_ : Z) : result ConvertError FlowEntry :=
  match ParseAddr (fmSrcAddress fr) with
  | None => Err BadSource
  | Some src =>
  match ParseAddr (fmDstAddress fr) with
  | None => Err BadDestination
  | Some dst =>
  if decide (65535 < fmDstPort fr) then Err PortOutOfRange else
  match fmProtocol fr with
  | PROTOCOL_UNSPECIFIED => Err ProtocolUnspecified
  | Protocol_unrecognized _ => Err UnknownProtocol
  | _ =>
  if decide (fmDirection fr ≠ DIRECTION_INBOUND) then Err BadDirection else
  match fmDecision fr with
  | POLICY_DECISION_UNSPECIFIED => Err DecisionUnspecified
  | PolicyDecision_unrecognized _ => Err UnknownDecision
  | _ =>
  if decide (maxFieldLength < String.length (fmMatchedRuleId fr) ∨
             maxFieldLength < String.length (fmProcessName fr))%nat then Err FieldTooLong else
  let first := default start (fmFirstSeen fr) in
  let last := default end_ (fmLastSeen fr) in
  if decide (last < first) then Err SeenInverted else
  Ok (MkFlowEntry (FlowPeerUnknown "") (Unmap src) (Unmap dst) (u16 (fmDstPort fr)) (fmProtocol fr)
        (fmDirection fr) (fmDecision fr) (fmMatchedRuleId fr) (fmConnectionCount fr) (fmByteCount fr)
        first last (fmProcessName fr))
  end end end end.

Inductive GapError :=
| GapKindUnspecified | GapKindDerived | GapKindUnknown | GapSourceUnknown | GapBoundsMissing | GapInverted
| GapCountRange.

Definition convertGap (wg : EvidenceGap) : result GapError FlowGap :=
  match egKind wg with
  | EVIDENCE_GAP_KIND_UNSPECIFIED => Err GapKindUnspecified
  | EVIDENCE_GAP_KIND_AGENT_SILENT => Err GapKindDerived
  | EvidenceGapKind_unrecognized _ => Err GapKindUnknown
  | _ =>
  match egSource wg with
  | EvidenceSource_unrecognized _ => Err GapSourceUnknown
  | _ =>
  match egFrom wg, egTo wg with
  | Some from, Some to =>
      if decide (to < from) then Err GapInverted else
      match egCount wg with
      | Some n => if decide (2 ^ 63 - 1 < n) then Err GapCountRange
                  else Ok (MkFlowGap (egKind wg) (egSource wg) from to (Some n))
      | None => Ok (MkFlowGap (egKind wg) (egSource wg) from to None)
      end
  | _, _ => Err GapBoundsMissing
  end end end.

(** ** Silence *)

(** [receivedAt.Add(-window)]. *)
Definition ranThrough (proc : option AgentProcess) (prev receivedAt window : Z) : bool :=
  match proc with
  | None => false
  | Some p => bool_decide (apStartedAt p ≤ prev) && bool_decide (receivedAt - window ≤ apHeartbeatAt p)
  end.

Definition silent (prev : option Z) (proc : option AgentProcess) (at_ window : Z) : bool :=
  match prev with
  | None => false
  | Some p =>
      if decide (window ≤ 0) then false
      else if decide (timeSub at_ p ≤ i64 (SilenceWindows * window)) then false
      else negb (ranThrough proc p at_ window)
  end.

Definition silenceGap (from to : Z) : FlowGap :=
  MkFlowGap EVIDENCE_GAP_KIND_AGENT_SILENT EVIDENCE_SOURCE_UNSPECIFIED from to None.

Definition deriveSilence (prev : option Z) (proc : option AgentProcess) (req : ReportFlowsRequest)
    (receivedAt window : Z) : option FlowGap :=
  match prev with
  | Some p =>
      if silent prev proc receivedAt window then
        match rqWindowStart req with
        | Some start =>
            if decide (start ≤ p) then None
            else Some (silenceGap p (if decide (start < receivedAt) then start else receivedAt))
        | None => Some (silenceGap p receivedAt)
        end
      else None
  | None => None
  end.

Definition SilenceAtRetirement (prev : option Z) (proc : option AgentProcess) (at_ window : Z) : option FlowGap :=
  match prev with
  | Some p => if silent prev proc at_ window then Some (silenceGap p at_) else None
  | None => None
  end.

(** ** The service *)

Inductive IngestError `{UUIDLib} :=
| ErrInvalidWindow
| IngestWorkloadUnknown
| IngestRetired (id : WorkloadID) (retiredAt : Z)
| IngestStoreError.

(** [Directory], [ReportRecorder], [ClockRecorder] and [flowstore.FlowStore]: a call
    returns or fails, and leaves a state. *)
Class IngestStore `{UUIDLib} (St : Type) := {
  ig_ListWorkloads : St → result () (list Workload) * St;
  ig_ListAddressGroups : St → result () (list AddressGroup) * St;
  ig_RecordFlowReport : WorkloadID → Z → St → result () (option (option Z * option AgentProcess)) * St;
  ig_RecordClockReading : WorkloadID → Z → bool → Z → St → result () () * St;
  ig_WriteGaps : WorkloadID → list FlowGap → St → result () () * St;
  ig_WriteWindow : FlowWindow → St → result () nat * St;
}.

Record IngestResult := MkIngestResult {
  irAccepted : nat; irRejected : nat; irGaps : nat; irGapsRejected : nat; irDerived : nat;
}.

Section service.
Context `{UUIDLib} {St : Type} `{!IngestStore St}.

(** The configuration of a [Service]: whether receipts and clock readings are
    recorded, and the flow window. *)
Context (hasReports hasClock : bool) (window : Z).

(** [recordReport]: [Some] when the receipt advanced. *)
Definition recordReport (id : WorkloadID) (receivedAt : Z) (s : St) : option (option Z * option AgentProcess) * St :=
  if hasReports then
    match ig_RecordFlowReport id receivedAt s with
    | (Ok r, s') => (r, s')
    | (Err _, s') => (None, s')
    end
  else (None, s).

Definition recordSilence (id : WorkloadID) (prev : option Z) (proc : option AgentProcess)
    (req : ReportFlowsRequest) (receivedAt : Z) (s : St) : nat * St :=
  match deriveSilence prev proc req receivedAt window with
  | None => (0%nat, s)
  | Some gap =>
      match ig_WriteGaps id [gap] s with
      | (Ok _, s') => (1%nat, s')
      | (Err _, s') => (0%nat, s')
      end
  end.

Definition checkClock (id : WorkloadID) (req : ReportFlowsRequest) (receivedAt : Z) (s : St) : St :=
  if decide (window ≤ 0) then s
  else if decide (rqSentAt req = None ∧ rqWindowEnd req = None) then s
  else
    let r := ReadClock (rqSentAt req) (default 0 (rqWindowEnd req)) receivedAt window in
    if hasClock then (ig_RecordClockReading id (crOffset r) (crSkewed r) receivedAt s).2 else s.

(** The loop over the records: what is kept, and how many were rejected. *)
Fixpoint convertRecords (idx : Index) (start end_ : Z) (frs : list FlowMessage) : list FlowEntry * nat :=
  match frs with
  | [] => ([], 0%nat)
  | fr :: frs' =>
      let '(recs, rejected) := convertRecords idx start end_ frs' in
      match convert fr start end_ with
      | Err _ => (recs, S rejected)
      | Ok e =>
          (MkFlowEntry (Resolve idx (feSrcAddress e)) (feSrcAddress e) (feDstAddress e) (feDstPort e) (feProtocol e)
             (feDirection e) (feDecision e) (feMatchedRuleID e) (feConnectionCount e) (feByteCount e)
             (feFirstSeen e) (feLastSeen e) (feProcessName e) :: recs, rejected)
      end
  end.

(** The loop over the gaps, from index [i]. *)
Fixpoint convertGaps (i : nat) (wgs : list EvidenceGap) : list FlowGap * nat :=
  match wgs with
  | [] => ([], 0%nat)
  | wg :: wgs' =>
      if decide (MaxGapsPerRequest ≤ i)%nat then ([], length wgs)
      else
        let '(gaps, rejected) := convertGaps (S i) wgs' in
        match convertGap wg with
        | Err _ => (gaps, S rejected)
        | Ok g => (g :: gaps, rejected)
        end
  end.

(** From the bounds of the window on. *)
Definition storeWindow (id : WorkloadID) (req : ReportFlowsRequest) (workloads : list Workload) (derived : nat) (s : St)
  : IngestResult * option IngestError * St :=
  let res := MkIngestResult 0 0 0 0 derived in
  match rqWindowStart req, rqWindowEnd req with
  | Some start, Some end_ =>
      if decide (end_ < start) then (res, Some ErrInvalidWindow, s)
      else
        match ig_ListAddressGroups s with
        | (Err _, s) => (res, Some IngestStoreError, s)
        | (Ok groups, s) =>
            let '(recs, rejected) := convertRecords (BuildIndex workloads groups) start end_ (rqRecords req) in
            let '(gaps, gapsRejected) := convertGaps 0 (rqGaps req) in
            match ig_WriteWindow (MkFlowWindow _ id start end_ recs gaps) s with
            | (Err _, s) => (MkIngestResult 0 rejected (length gaps) gapsRejected derived, Some IngestStoreError, s)
            | (Ok n, s) => (MkIngestResult n rejected (length gaps) gapsRejected derived, None, s)
            end
        end
  | _, _ => (res, Some ErrInvalidWindow, s)
  end.

Definition Ingest (id : WorkloadID) (req : ReportFlowsRequest) (receivedAt : Z) (s : St)
  : IngestResult * option IngestError * St :=
  let none := MkIngestResult 0 0 0 0 0 in
  match ig_ListWorkloads s with
  | (Err _, s) => (none, Some IngestStoreError, s)
  | (Ok workloads, s) =>
      match list_find (λ w, wID w = id) workloads with
      | None => (none, Some IngestWorkloadUnknown, s)
      | Some (_, reporter) =>
          match wRetiredAt reporter with
          | Some t => (none, Some (IngestRetired id t), s)
          | None =>
              let '(receipt, s) := recordReport id receivedAt s in
              let '(derived, s) :=
                match receipt with
                | Some (prev, proc) => recordSilence id prev proc req receivedAt s
                | None => (0%nat, s)
                end in
              let s := checkClock id req receivedAt s in
              storeWindow id req workloads derived s
          end
      end
  end.
End service.

(** ** Conversion is exact *)

(** A record that is accepted. *)
Record flow_ok (fr : FlowMessage) (start end_ : Z) : Prop := {
  fo_src : is_Some (ParseAddr (fmSrcAddress fr));
  fo_dst : is_Some (ParseAddr (fmDstAddress fr));
  fo_port : fmDstPort fr ≤ 65535;
  fo_protocol : fmProtocol fr = PROTOCOL_TCP ∨ fmProtocol fr = PROTOCOL_UDP ∨ fmProtocol fr = PROTOCOL_ICMP;
  fo_direction : fmDirection fr = DIRECTION_INBOUND;
  fo_decision : fmDecision fr = POLICY_DECISION_OBSERVED ∨ fmDecision fr = POLICY_DECISION_ALLOWED ∨
    fmDecision fr = POLICY_DECISION_WOULD_BLOCK ∨ fmDecision fr = POLICY_DECISION_BLOCKED;
  fo_fields : (String.length (fmMatchedRuleId fr) ≤ maxFieldLength ∧ String.length (fmProcessName fr) ≤ maxFieldLength)%nat;
  fo_seen : default start (fmFirstSeen fr) ≤ default end_ (fmLastSeen fr);
}.

(** What is stored of it. *)
Definition stored (peer : Addr → FlowPeer) (start end_ : Z) (fr : FlowMessage) (e : FlowEntry) : Prop :=
  ∃ src dst, ParseAddr (fmSrcAddress fr) = Some src ∧ ParseAddr (fmDstAddress fr) = Some dst ∧
  e = MkFlowEntry (peer (Unmap src)) (Unmap src) (Unmap dst) (u16 (fmDstPort fr)) (fmProtocol fr) (fmDirection fr)
        (fmDecision fr) (fmMatchedRuleId fr) (fmConnectionCount fr) (fmByteCount fr)
        (default start (fmFirstSeen fr)) (default end_ (fmLastSeen fr)) (fmProcessName fr).

Lemma convert_exact fr start end_ :
  match convert fr start end_ with
  | Ok e => flow_ok fr start end_ ∧ stored (λ _, FlowPeerUnknown "") start end_ fr e
  | Err _ => ¬ flow_ok fr start end_
  end.
Proof.
  unfold convert, stored.
  destruct (ParseAddr (fmSrcAddress fr)) as [src|] eqn:Hs; [|intros [[a Ha] _ _ _ _ _ _ _]; congruence].
  destruct (ParseAddr (fmDstAddress fr)) as [dst|] eqn:Hd; [|intros [_ [a Ha] _ _ _ _ _ _]; congruence].
  case_decide as Hp; [intros [_ _ Hport _ _ _ _ _]; lia|].
  assert (is_Some (ParseAddr (fmSrcAddress fr)) ∧ is_Some (ParseAddr (fmDstAddress fr))) as [Hs' Hd']
    by (rewrite Hs, Hd; split; eexists; reflexivity).
  destruct (fmProtocol fr) eqn:Hpr.
  1,5: intros [_ _ _ Hpo _ _ _ _]; rewrite Hpr in Hpo; destruct Hpo as [?|[?|?]]; discriminate.
  all: case_decide as Hdir; [intros [_ _ _ _ Hdi _ _ _]; contradiction|].
  all: destruct (fmDecision fr) eqn:Hde.
  1,6,7,12,13,18: intros [_ _ _ _ _ Hdo _ _]; rewrite Hde in Hdo; destruct Hdo as [?|[?|[?|?]]]; discriminate.
  all: case_decide as Hf; [intros [_ _ _ _ _ _ Hfo _]; lia|].
  all: case_decide as Hl; [intros [_ _ _ _ _ _ _ Hse]; lia|].
  all: split; [|exists src, dst; by rewrite Hdir].
  all: constructor; [exact Hs'|exact Hd'|lia|rewrite Hpr; tauto|exact Hdir|rewrite Hde; tauto|lia|lia].
Qed.

Lemma convertGap_kind wg g : convertGap wg = Ok g → fgKind g ≠ EVIDENCE_GAP_KIND_AGENT_SILENT ∧ fgFrom g ≤ fgTo g.
Proof.
  unfold convertGap. destruct (egKind wg) eqn:Hk; try done.
  all: destruct (egSource wg); try done; destruct (egFrom wg) as [a|], (egTo wg) as [b|]; try done.
  all: destruct (decide (b < a)); [done|]; destruct (egCount wg) as [c|]; [destruct (decide (2 ^ 63 - 1 < c)); [done|]|].
  all: intros [= <-]; cbn; rewrite ?Hk; split; [done|lia].
Qed.

Lemma convertGaps_kind i wgs : Forall (λ g, fgKind g ≠ EVIDENCE_GAP_KIND_AGENT_SILENT ∧ fgFrom g ≤ fgTo g) (convertGaps i wgs).1.
Proof.
  revert i. induction wgs as [|wg wgs IH]; intros i; cbn [convertGaps]; [constructor|].
  case_decide; [constructor|]. specialize (IH (S i)). destruct (convertGaps (S i) wgs) as [gaps n].
  destruct (convertGap wg) as [g|] eqn:Hg; cbn; [|done]. constructor; [by apply convertGap_kind in Hg|done].
Qed.

Lemma convertGaps_count i wgs : (length (convertGaps i wgs).1 + (convertGaps i wgs).2 = length wgs)%nat.
Proof.
  revert i. induction wgs as [|wg wgs IH]; intros i; cbn [convertGaps]; [done|].
  case_decide; [done|]. specialize (IH (S i)). destruct (convertGaps (S i) wgs) as [gaps n].
  destruct (convertGap wg) as [g|]; cbn in *; lia.
Qed.

Section facts.
Context `{UUIDLib}.

(** The records kept are the good ones, in order. *)
Lemma convertRecords_exact idx start end_ frs :
  ∃ kept, kept `sublist_of` frs ∧ (∀ fr, fr ∈ kept ↔ fr ∈ frs ∧ flow_ok fr start end_) ∧
    Forall2 (stored (Resolve idx) start end_) kept (convertRecords idx start end_ frs).1 ∧
    (length kept + (convertRecords idx start end_ frs).2 = length frs)%nat.
Proof.
  induction frs as [|fr frs (kept & Hsub & Hin & Hst & Hlen)]; cbn [convertRecords].
  { exists []. split_and!; [done| |constructor|done]. intros fr. split; [by intros ?%elem_of_nil|by intros [?%elem_of_nil _]]. }
  destruct (convertRecords idx start end_ frs) as [recs n]. pose proof (convert_exact fr start end_) as Hc.
  destruct (convert fr start end_) as [e|er].
  - destruct Hc as [Hok (src & dst & Hs & Hd & ->)]. exists (fr :: kept). split_and!; [by constructor| | |cbn in *; lia].
    + intros x. rewrite !elem_of_cons, Hin. split.
      * intros [->|[? ?]]; (split; [|assumption]); [left|right]; trivial.
      * intros [[->|?] ?]; [by left|right; by split].
    + constructor; [|done]. exists src, dst. split_and!; [done..|]. cbn. done.
  - exists kept. split_and!; [by constructor| |done|cbn in *; lia]. intros x. rewrite elem_of_cons, Hin. split.
    + intros [? ?]. split; [by right|done].
    + intros [[->|?] ?]; [contradiction|by split].
Qed.
End facts.

(** ** Silences are stored once *)

(** The last receipt of a workload, and the gaps of the derived kind it has. *)
Class IngestView `{UUIDLib} (St : Type) := {
  receipt : St → WorkloadID → option Z;
  silences : St → WorkloadID → list FlowGap;
}.

Definition isSilence (g : FlowGap) : Prop := fgKind g = EVIDENCE_GAP_KIND_AGENT_SILENT.

(** The comments of the interfaces: a receipt is never moved backwards, and the one
    it replaced is handed to the report that replaced it; a gap that is written is
    stored for its workload, once; nothing else touches either.  A call that fails
    may have taken effect. *)
Class IngestLaws `{UUIDLib} (St : Type) `{!IngestStore St, !IngestView St} : Prop := {
  ig_workloads s r s' : ig_ListWorkloads s = (r, s') → receipt s' = receipt s ∧ silences s' = silences s;
  ig_groups s r s' : ig_ListAddressGroups s = (r, s') → receipt s' = receipt s ∧ silences s' = silences s;
  ig_clock id o k t s r s' : ig_RecordClockReading id o k t s = (r, s') → receipt s' = receipt s ∧ silences s' = silences s;
  ig_report id at_ s r s' : ig_RecordFlowReport id at_ s = (r, s') →
    silences s' = silences s ∧ (∀ id', id' ≠ id → receipt s' id' = receipt s id') ∧
    (receipt s' id = receipt s id ∨ receipt s' id = Some at_ ∧ ∀ p, receipt s id = Some p → p < at_) ∧
    ∀ prev proc, r = Ok (Some (prev, proc)) →
      prev = receipt s id ∧ receipt s' id = Some at_ ∧ ∀ p, prev = Some p → p < at_;
  ig_gaps id gaps s r s' : ig_WriteGaps id gaps s = (r, s') → receipt s' = receipt s ∧
    ∀ id' g, g ∈ silences s' id' → g ∈ silences s id' ∨ id' = id ∧ g ∈ gaps ∧ isSilence g;
  ig_window w s r s' : ig_WriteWindow w s = (r, s') → receipt s' = receipt s ∧
    ∀ id' g, g ∈ silences s' id' → g ∈ silences s id' ∨ id' = fwWorkload w ∧ g ∈ fwGaps w ∧ isSilence g;
}.

Section silence.
Context `{UUIDLib} {St : Type} `{!IngestStore St, !IngestView St, !IngestLaws St}.
Context (hasReports hasClock : bool) (window : Z).

(** The silences of a workload do not overlap, and end by its last receipt. *)
Record silence_ok (last : option Z) (gs : list FlowGap) : Prop := {
  so_bounds g : g ∈ gs → fgFrom g < fgTo g ∧ ∃ r, last = Some r ∧ fgTo g ≤ r;
  so_disjoint g g' : g ∈ gs → g' ∈ gs → g = g' ∨ fgTo g ≤ fgFrom g' ∨ fgTo g' ≤ fgFrom g;
}.

Definition silences_ok (s : St) : Prop := ∀ id, silence_ok (receipt s id) (silences s id).

Lemma silence_ok_advance last at_ gs : silence_ok last gs → (∀ p, last = Some p → p < at_) → silence_ok (Some at_) gs.
Proof.
  intros [Hb Hd] Hlt. split; [|done]. intros g Hg. destruct (Hb g Hg) as (? & r & Hr & ?). split; [done|].
  exists at_. split; [done|]. specialize (Hlt r Hr). lia.
Qed.

Lemma silence_ok_sub last gs gs' : silence_ok last gs → (∀ g, g ∈ gs' → g ∈ gs) → silence_ok last gs'.
Proof. intros [Hb Hd] Hs. split; eauto. Qed.

(** One more silence, from the last receipt but one. *)
Lemma silence_ok_add p at_ gs gs' g :
  silence_ok (Some p) gs → p < at_ → fgFrom g = p → p < fgTo g ≤ at_ →
  (∀ x, x ∈ gs' → x ∈ gs ∨ x = g) → silence_ok (Some at_) gs'.
Proof.
  intros [Hb Hd] Hlt Hf Ht Hs. split.
  - intros x Hx. destruct (Hs x Hx) as [Hin| ->]; [|split; [lia|]; exists at_; split; [done|lia]].
    destruct (Hb x Hin) as (? & r & [= <-] & ?). split; [done|]. exists at_. split; [done|lia].
  - intros x y Hx Hy. destruct (Hs x Hx) as [Hxi| ->], (Hs y Hy) as [Hyi| ->]; [by apply Hd|..|by left].
    + destruct (Hb x Hxi) as (? & r & [= <-] & ?). right. left. lia.
    + destruct (Hb y Hyi) as (? & r & [= <-] & ?). right. right. lia.
Qed.

Lemma deriveSilence_bounds prev proc req at_ g :
  deriveSilence prev proc req at_ window = Some g → (∀ p, prev = Some p → p < at_) →
  ∃ p, prev = Some p ∧ fgFrom g = p ∧ p < fgTo g ≤ at_ ∧ isSilence g.
Proof.
  unfold deriveSilence. destruct prev as [p|]; [|done]. destruct (silent _ _ _ _); [|done].
  intros Hg Hlt. specialize (Hlt p eq_refl). exists p. destruct (rqWindowStart req) as [start|].
  - destruct (decide (start ≤ p)); [done|]. injection Hg as <-. cbn.
    destruct (decide (start < at_)); split_and!; try done; lia.
  - injection Hg as <-. cbn. split_and!; try done; lia.
Qed.

(** What a step may do to receipts and silences. *)
Definition calm (s s' : St) : Prop := receipt s' = receipt s ∧ ∀ id g, g ∈ silences s' id → g ∈ silences s id.

Lemma calm_ok s s' : calm s s' → silences_ok s → silences_ok s'.
Proof. intros [Hr Hg] Hok id. rewrite Hr. eapply silence_ok_sub; [apply Hok|apply Hg]. Qed.

Lemma calm_refl s : calm s s.
Proof. by split. Qed.

Lemma calm_trans s1 s2 s3 : calm s1 s2 → calm s2 s3 → calm s1 s3.
Proof. intros [R1 G1] [R2 G2]. split; [congruence|eauto]. Qed.

Lemma checkClock_calm id req at_ s : calm s (checkClock hasClock window id req at_ s).
Proof.
  unfold checkClock. destruct (decide _); [apply calm_refl|]. destruct (decide _); [apply calm_refl|].
  destruct hasClock; [|apply calm_refl]. destruct (ig_RecordClockReading _ _ _ _ s) as [r s'] eqn:E.
  apply ig_clock in E as [Hr Hg]. cbn. split; [done|]. intros id' g. by rewrite Hg.
Qed.

Lemma storeWindow_calm id req workloads derived s : calm s (storeWindow id req workloads derived s).2.
Proof.
  unfold storeWindow. destruct (rqWindowStart req) as [start|], (rqWindowEnd req) as [end_|]; try apply calm_refl.
  destruct (decide _); [apply calm_refl|]. destruct (ig_ListAddressGroups s) as [[groups|] s1] eqn:E1;
    apply ig_groups in E1 as [Hr1 Hg1].
  2: { cbn. split; [done|]. intros id' g. by rewrite Hg1. }
  pose proof (convertGaps_kind 0 (rqGaps req)) as Hkind.
  destruct (convertRecords _ _ _ _) as [recs k], (convertGaps 0 (rqGaps req)) as [gaps m]. cbn [fst] in Hkind.
  destruct (ig_WriteWindow _ s1) as [r s2] eqn:E2. apply ig_window in E2 as [Hr2 Hg2].
  assert (calm s s2) as Hc; [|by destruct r].
  split; [congruence|]. intros id' g Hin. apply Hg2 in Hin as [Hin|(_ & Hin & Hsil)]; [by rewrite <-Hg1|].
  cbn in Hin. rewrite Forall_forall in Hkind. by destruct (Hkind g Hin).
Qed.

Lemma Ingest_silences id req at_ s : silences_ok s → silences_ok (Ingest hasReports hasClock window id req at_ s).2.
Proof.
  intros Hok. unfold Ingest. destruct (ig_ListWorkloads s) as [[workloads|] s1] eqn:E1; apply ig_workloads in E1 as [Hr1 Hg1].
  2: { eapply calm_ok; [|exact Hok]. cbn. split; [done|]. intros id' g. by rewrite Hg1. }
  assert (silences_ok s1) as Hok1 by (intros i; by rewrite Hr1, Hg1).
  destruct (list_find _ workloads) as [[i reporter]|]; [|done]. destruct (wRetiredAt reporter); [done|].
  assert (silences_ok (let '(receipt, s) := recordReport hasReports id at_ s1 in
    match receipt with Some (prev, proc) => (recordSilence window id prev proc req at_ s).2 | None => s end)) as Hok2.
  { unfold recordReport. destruct hasReports; [|done]. destruct (ig_RecordFlowReport id at_ s1) as [r s2] eqn:E2.
    apply ig_report in E2 as (Hg2 & Hother & Hadv & Hprev).
    assert (silences_ok s2) as Hok2.
    { intros i'. rewrite Hg2. destruct (decide (i' = id)) as [->|Hne]; [|by rewrite Hother].
      destruct Hadv as [->|[-> Hlt]]; [done|]. by eapply silence_ok_advance. }
    destruct r as [[[prev proc]|]|]; [|done..]. destruct (Hprev prev proc eq_refl) as (-> & Hr2 & Hlt).
    unfold recordSilence. destruct (deriveSilence _ _ _ _ _) as [g|] eqn:Hd; [|done].
    destruct (deriveSilence_bounds _ _ _ _ _ Hd Hlt) as (p & Hp & Hf & Ht & _).
    destruct (ig_WriteGaps id [g] s2) as [r3 s3] eqn:E3. apply ig_gaps in E3 as [Hr3 Hg3].
    assert (silences_ok s3) as Hok3; [|by destruct r3].
    intros i'. rewrite Hr3. destruct (decide (i' = id)) as [->|Hne].
    - rewrite Hr2. pose proof (Hok1 id) as Hs1. rewrite Hp in Hs1. eapply (silence_ok_add p at_ _ _ g); [exact Hs1|by apply Hlt|done|done|].
      intros x [Hx|(_ & Hx & _)]%Hg3; [left; by rewrite <-Hg2|right; by apply list_elem_of_singleton in Hx].
    - eapply silence_ok_sub; [apply (Hok2 i')|]. intros x [Hx|(Heq & _)]%Hg3; [done|congruence]. }
  destruct (recordReport hasReports id at_ s1) as [rc s2].
  assert (∃ derived s3, (match rc with Some (prev, proc) => recordSilence window id prev proc req at_ s2 | None => (0%nat, s2) end) = (derived, s3) ∧ silences_ok s3)
    as (derived & s3 & -> & Hok3).
  { destruct rc as [[prev proc]|]; [|eauto]. destruct (recordSilence window id prev proc req at_ s2) as [d s3]. eauto. }
  eapply calm_ok; [|exact Hok3]. eapply calm_trans; [apply checkClock_calm|apply storeWindow_calm].
Qed.

(** Reports one after the other, from any workloads. *)
Definition ingestAll (reports : list (WorkloadID * ReportFlowsRequest * Z)) (s : St) : St :=
  foldl (λ s '(id, req, at_), (Ingest hasReports hasClock window id req at_ s).2) s reports.
End silence.

(** No silence is stated twice.  Whatever reports arrive, from whichever
    workloads, in whatever order and however the stores fail, the agent-silence gaps
    of one workload never overlap and lie before its last receipt, none is empty, and
    none comes from an agent's own claim. *)
Theorem Silences_disjoint `{UUIDLib} {St} `{!IngestStore St, !IngestView St, !IngestLaws St}
    hasReports hasClock window reports (s : St) :
  silences_ok s → silences_ok (ingestAll hasReports hasClock window reports s).
Proof.
  revert s. induction reports as [|[[id req] at_] reports IH]; intros s Hs; [done|].
  apply IH. by apply Ingest_silences.
Qed.

(** A silence is derived exactly when evidence was lost in it.  A report received
    at [at_], after a receipt at [p], ends a silence that is a gap exactly when more than
    two flow windows passed, no agent process is known to have run from [p] until within
    a window of [at_], and the report's window, if it has a start, starts after [p]; the
    gap opens at [p] and closes where the window starts, or at [at_] at the latest.  A
    retirement closes the silence a report without a window would have. *)
Theorem deriveSilence_exact p proc req at_ window g :
  0 < window < 2 ^ 62 →
  (deriveSilence (Some p) proc req at_ window = Some g ↔
     2 * window < at_ - p ∧
     (∀ a, proc = Some a → apStartedAt a ≤ p → apHeartbeatAt a < at_ - window) ∧
     (∀ start, rqWindowStart req = Some start → p < start) ∧
     g = silenceGap p (Z.min at_ (default at_ (rqWindowStart req)))) ∧
  SilenceAtRetirement (Some p) proc at_ window =
    deriveSilence (Some p) proc (MkReportFlowsRequest None None None [] []) at_ window.
Proof.
  intros Hw. split; [|done]. unfold deriveSilence.
  assert (silent (Some p) proc at_ window = true ↔
    2 * window < at_ - p ∧ ∀ a, proc = Some a → apStartedAt a ≤ p → apHeartbeatAt a < at_ - window) as Hsil.
  { unfold silent, timeSub, SilenceWindows, ranThrough. rewrite i64_small by lia. destruct (decide (window ≤ 0)); [lia|].
    destruct (decide _) as [Hle|Hgt]; [split; [done|]; intros [? _]; lia|]. rewrite negb_true_iff. destruct proc as [a|].
    - rewrite andb_false_iff, !bool_decide_eq_false. split.
      + intros Hor. split; [lia|]. intros a' [= <-] ?. lia.
      + intros [_ Ha]. specialize (Ha a eq_refl). lia.
    - split; [intros _; split; [lia|done]|done]. }
  destruct (silent (Some p) proc at_ window).
  - destruct (proj1 Hsil eq_refl) as [Hlt Hproc]. destruct (rqWindowStart req) as [start|].
    + change (default at_ (Some start)) with start. destruct (decide (start ≤ p)); [split; [done|]; intros (_ & _ & Hst & _); specialize (Hst start eq_refl); lia|].
      assert (Z.min at_ start = if decide (start < at_) then start else at_) as -> by (case_decide; lia). split.
      * intros [= <-]. split_and!; try done. intros st [= <-]. lia.
      * by intros (_ & _ & _ & ->).
    + change (default at_ None) with at_. rewrite Z.min_id. split; [intros [= <-]; split_and!; try done|]. by intros (_ & _ & _ & ->).
  - split; [done|]. intros (H1 & H2 & _). assert (false = true) by by apply Hsil. done.
Qed.


(** ** An instance *)

Module IngestExample.
Import Uuid128.

(** Registry, receipts, windows and gaps in memory. *)
Record State := MkState {
  xWorkloads : list Workload; xReceipts : gmap WorkloadID Z; xGaps : gmap WorkloadID (list FlowGap);
}.

Definition putGaps (id : WorkloadID) (gaps : list FlowGap) (s : State) : State :=
  MkState (xWorkloads s) (xReceipts s) (<[id := default [] (xGaps s !! id) ++ gaps]> (xGaps s)).

#[global] Instance store : IngestStore State := {
  ig_ListWorkloads s := (Ok (xWorkloads s), s);
  ig_ListAddressGroups s := (Ok [], s);
  ig_RecordFlowReport id at_ s :=
    match xReceipts s !! id with
    | Some p => if decide (p < at_) then (Ok (Some (Some p, None)), MkState (xWorkloads s) (<[id := at_]> (xReceipts s)) (xGaps s))
                else (Ok None, s)
    | None => (Ok (Some (None, None)), MkState (xWorkloads s) (<[id := at_]> (xReceipts s)) (xGaps s))
    end;
  ig_RecordClockReading _ _ _ _ s := (Err (), s);
  ig_WriteGaps id gaps s := (Ok (), putGaps id gaps s);
  ig_WriteWindow w s := (Ok (length (fwRecords w)), putGaps (fwWorkload w) (fwGaps w) s);
}.

Definition silencesOf (s : State) (id : WorkloadID) : list FlowGap :=
  filter (λ g, fgKind g = EVIDENCE_GAP_KIND_AGENT_SILENT) (default [] (xGaps s !! id)).
#[global] Instance view : IngestView State := { receipt s id := xReceipts s !! id; silences := silencesOf }.

Lemma putGaps_silences id gaps s id' g :
  g ∈ silencesOf (putGaps id gaps s) id' → g ∈ silencesOf s id' ∨ id' = id ∧ g ∈ gaps ∧ isSilence g.
Proof.
  unfold silencesOf, putGaps. cbn. destruct (decide (id = id')) as [<-|Hne].
  - rewrite lookup_insert_eq. cbn [from_option]. unfold Datatypes.id. rewrite filter_app, elem_of_app.
    intros [Hg|Hg]; [by left|right]. apply list_elem_of_filter in Hg as [? ?]. by split_and!.
  - rewrite lookup_insert_ne by done. by left.
Qed.

#[global] Instance laws : IngestLaws State.
Proof.
  split.
  - by intros s r s' [= _ <-].
  - by intros s r s' [= _ <-].
  - by intros id o k t s r s' [= _ <-].
  - intros id at_ s r s' Hr. cbn in Hr.
    assert (∀ rc, xReceipts s !! id = rc → (∀ p, rc = Some p → p < at_) → (r, s') = (Ok (Some (rc, None)),
      MkState (xWorkloads s) (<[id := at_]> (xReceipts s)) (xGaps s)) → silences s' = silences s ∧
      (∀ id', id' ≠ id → receipt s' id' = receipt s id') ∧
      (receipt s' id = receipt s id ∨ receipt s' id = Some at_ ∧ ∀ p, receipt s id = Some p → p < at_) ∧
      ∀ prev proc, r = Ok (Some (prev, proc)) → prev = receipt s id ∧ receipt s' id = Some at_ ∧ ∀ p, prev = Some p → p < at_) as Hadv.
    { intros rc Hrc Hlt [= -> ->]. cbn. rewrite lookup_insert_eq, Hrc. split_and!; [done| |right; by split|].
      - intros id' Hne. by rewrite lookup_insert_ne.
      - by intros prev proc [= <- _]. }
    destruct (xReceipts s !! id) as [p|] eqn:Hp; [destruct (decide (p < at_))|].
    + apply (Hadv (Some p)); [done|by intros p' [= <-]|by rewrite <-Hr].
    + injection Hr as <- <-. split_and!; [done..|by left|done].
    + apply (Hadv None); [done..|by rewrite <-Hr].
  - intros id gaps s r s' [= _ <-]. split; [done|]. apply putGaps_silences.
  - intros w s r s' [= _ <-]. split; [done|]. apply putGaps_silences.
Qed.

Definition host : WorkloadID := FromUUID (of_Z 1).
Definition registered : Workload :=
  MkWorkload host "web" [] ENFORCEMENT_MODE_VISIBILITY None [] "" [] 0 None SYNC_STATE_SYNCED 0 "" 0 0 "" "" 0 None None None None None
    None OWNED_TABLE_STATE_PRESENT None None None.
Definition start : State := MkState [registered] ∅ ∅.
Definition minute : Z := 60 * 1000000000.
Definition flow : FlowMessage :=
  MkFlowMessage "10.0.0.9" "10.0.0.1" 443 PROTOCOL_TCP DIRECTION_INBOUND POLICY_DECISION_ALLOWED "" 3 300 None None "".
Definition badFlow : FlowMessage :=
  MkFlowMessage "10.0.0.9" "10.0.0.1" 70000 PROTOCOL_TCP DIRECTION_INBOUND POLICY_DECISION_ALLOWED "" 3 300 None None "".
Definition report (from to : Z) : ReportFlowsRequest := MkReportFlowsRequest (Some from) (Some to) (Some to) [badFlow; flow] [].

(** The second report comes ten minutes after the first. *)
Definition reports : list (WorkloadID * ReportFlowsRequest * Z) :=
  [(host, report 0 minute, minute); (host, report (10 * minute) (11 * minute), 11 * minute)].
End IngestExample.

Lemma Silences_disjoint_witness :
  silences_ok (ingestAll true true IngestExample.minute IngestExample.reports IngestExample.start).
Proof.
  apply (Silences_disjoint true true IngestExample.minute IngestExample.reports IngestExample.start).
  intros id. assert (silences IngestExample.start id = []) as -> by reflexivity.
  split; [intros g Hg|intros g g' Hg]; by apply elem_of_nil in Hg.
Defined.

Lemma deriveSilence_exact_witness :
  deriveSilence (Some 0) None (IngestExample.report 5 9) 10 3 = Some (silenceGap 0 5).
Proof.
  apply (deriveSilence_exact 0 None (IngestExample.report 5 9) 10 3 (silenceGap 0 5)); [lia|].
  split; [lia|]. split; [done|]. split; [by intros st [= <-]|done].
Defined.

