(* ===== verification/Collector.v ===== *)
(** * Collector and reporter: [internal/agent/collect/collector.go] and [reporter.go]

    The loops that move evidence: observations are folded into the open window,
    windows are closed into the buffer, and shipped with the gaps recorded so far.
    The collector, the reporter and the sources share the aggregator, the buffer and
    the gaps, each behind its lock; a step below is at most one critical section, so
    the runs of [pipeline] interleave them in every way the locks allow.  Instants
    are wall-clock nanoseconds, and readings of the monotonic clock are kept apart. *)

From S2P Require Import Prelude GoStd Netip Wire Gaps Collect Uuid Identity Policy Registry Ingest IngestService.
Local Open Scope Z_scope.

(** ** Closing a window *)

Definition second : Z := 10 ^ 9.
Definition DefaultWindow : Z := 60 * second.
Definition DefaultBatchMax : Z := 1000.

(** Division of durations truncates. *)
Definition stepTolerance (elapsed : Z) : Z := i64 (second + Z.quot elapsed 2000).

(** The end, the next start, and the step when the window is cut. *)
Definition closeBounds (start now elapsed : Z) : Z * Z * Z :=
  let wall := timeSub now start in
  let d := i64 (wall - elapsed) in
  if decide (d < i64 (- stepTolerance elapsed)) then (start + elapsed, now, d)
  else if decide (wall < 0) then (start, start, 0)
  else (now, now, 0).

(** ** Configuration *)

Definition Collector_SetConfig (cfg : option SyncConfig) (window : Z) : Z :=
  let s := match cfg with Some c => scFlowAggregationWindowSeconds c | None => 0 end in
  if decide (0 < s) then i64 (s * second) else window.

Definition Collector_Window (window : Z) : Z := if decide (0 < window) then window else DefaultWindow.

Definition Reporter_SetConfig (cfg : option SyncConfig) (batchMax : Z) : Z :=
  let n := match cfg with Some c => scFlowBatchMaxRecords c | None => 0 end in
  if decide (0 < n) then n else batchMax.

Definition BatchMax (batchMax : Z) : Z := if decide (0 < batchMax) then batchMax else DefaultBatchMax.

(** ** Restarting a source *)

Definition nextAttempt (attempt ran limit : Z) : Z := (if decide (limit < ran) then 0 else attempt) + 1.

(** [draw n] is [rng.Int64N(n)]. *)
Definition backoff (attempt base limit : Z) (draw : Z → Z) : Z :=
  let ceiling := i64 (Z.shiftl base (Z.min attempt 20)) in
  let ceiling := if decide (limit < ceiling ∨ ceiling ≤ 0) then limit else ceiling in
  draw ceiling.

(** One turn of [restarter.run] after a failure: the attempt, the wait, and the gap
    opened when the source records its own. *)
Definition restarter_failed (gapped : option GapSource) (attempt started failed base limit : Z) (draw : Z → Z)
    (g : Gaps) : Z * Z * Gaps :=
  let attempt := nextAttempt attempt (timeSub failed started) limit in
  let g := match gapped with Some name => Gaps_Open name GapSourceRestart failed g | None => g end in
  (attempt, backoff attempt base limit draw, g).

(** ** What is sent *)

Definition wireKinds (k : GapKind) : EvidenceGapKind :=
  match k with
  | GapSourceOverrun => EVIDENCE_GAP_KIND_SOURCE_OVERRUN
  | GapSourceRestart => EVIDENCE_GAP_KIND_SOURCE_RESTART
  | GapBufferOverflow => EVIDENCE_GAP_KIND_BUFFER_OVERFLOW
  | GapDumpTruncated => EVIDENCE_GAP_KIND_DUMP_TRUNCATED
  | GapWindowOverflow => EVIDENCE_GAP_KIND_WINDOW_OVERFLOW
  | GapWindowRejected => EVIDENCE_GAP_KIND_WINDOW_REJECTED
  | GapTableRemoved => EVIDENCE_GAP_KIND_TABLE_REMOVED
  end.

Definition wireSources (s : GapSource) : EvidenceSource :=
  match s with
  | GapNoSource => EVIDENCE_SOURCE_UNSPECIFIED
  | GapConntrack => EVIDENCE_SOURCE_CONNTRACK
  | GapNflog => EVIDENCE_SOURCE_NFLOG
  end.

Definition Gap_Wire (gap : Gap) : EvidenceGap :=
  MkEvidenceGap (wireKinds (gKind gap)) (wireSources (gSource gap)) (Some (gFrom gap)) (Some (gTo gap)) (gCount gap).

(** The record as the other side receives it: its instants are set. *)
Definition received (r : FlowRecord) : FlowMessage :=
  MkFlowMessage (frSrcAddress r) (frDstAddress r) (frDstPort r) (frProtocol r) (frDirection r) (frDecision r)
    (frMatchedRuleId r) (frConnectionCount r) (frByteCount r) (Some (frFirstSeen r)) (Some (frLastSeen r))
    (frProcessName r).

(** The loop of [Batches]; each round takes a record, so their number bounds the rounds. *)
Fixpoint chunks {A} (fuel : nat) (n : nat) (l : list A) : list (list A) :=
  match fuel, l with
  | S fuel, _ :: _ => take n l :: chunks fuel n (drop n l)
  | _, _ => []
  end.

Definition batchOf (w : Window) (rs : list FlowRecord) : ReportFlowsRequest :=
  MkReportFlowsRequest (Some (winStart w)) (Some (winEnd w)) None (received <$> rs) [].

Definition Batches (w : Window) (batchMax : Z) : list ReportFlowsRequest :=
  let batchMax := if decide (batchMax ≤ 0) then DefaultBatchMax else batchMax in
  match winRecords w with
  | [] => [batchOf w []]
  | rs => batchOf w <$> chunks (length rs) (Z.to_nat batchMax) rs
  end.

(** [reqs[0].Gaps = append(reqs[0].Gaps, g.Wire())]. *)
Definition withGaps (gaps : list Gap) (reqs : list ReportFlowsRequest) : list ReportFlowsRequest :=
  match reqs with
  | r :: rest =>
      MkReportFlowsRequest (rqWindowStart r) (rqWindowEnd r) (rqSentAt r) (rqRecords r)
        (rqGaps r ++ (Gap_Wire <$> gaps)) :: rest
  | [] => []
  end.

Definition stamp (now : Z) (r : ReportFlowsRequest) : ReportFlowsRequest :=
  MkReportFlowsRequest (rqWindowStart r) (rqWindowEnd r) (Some now) (rqRecords r) (rqGaps r).

(** ** One report

    The connection: the status code with which a call fails, if it does. *)
Inductive SendError := SendEOF | SendFailed (code : Z).

Definition codes_Unknown : Z := 2.
Definition codes_InvalidArgument : Z := 3.

Record Transport := MkTransport {
  tDial : option Z;
  tOpen : option Z;
  tSend : nat → option SendError;
  tClose : result Z Z;
}.

(** The loop over the requests from the [i]th: those sent, and the code it failed with. *)
Fixpoint sendAll (t : Transport) (now : nat → Z) (i : nat) (reqs : list ReportFlowsRequest)
  : list ReportFlowsRequest * option Z :=
  match reqs with
  | [] => ([], None)
  | req :: rest =>
      match tSend t i with
      | Some (SendFailed code) => ([], Some code)
      | Some SendEOF => ([], Some (match tClose t with Err code => code | Ok _ => codes_Unknown end))
      | None => let '(sent, err) := sendAll t now (S i) rest in (stamp (now i) req :: sent, err)
      end
  end.

Definition report (t : Transport) (now : nat → Z) (batchMax : Z) (w : Window) (gaps : list Gap)
  : list ReportFlowsRequest * result Z Z :=
  match tDial t with
  | Some code => ([], Err code)
  | None =>
  match tOpen t with
  | Some code => ([], Err code)
  | None =>
      let '(sent, err) := sendAll t now 0 (withGaps gaps (Batches w (BatchMax batchMax))) in
      match err with
      | Some code => (sent, Err code)
      | None => (sent, tClose t)
      end
  end end.

(** The gap [reject] records. *)
Definition reject (w : Window) : list Gap :=
  let '(from, to) := if decide (winEnd w < winStart w) then (winEnd w, winStart w) else (winStart w, winEnd w) in
  if decide (0 < winLen w) then [MkGap GapWindowRejected GapNoSource from to (Some (winLen w))] else [].

(** ** The pipeline *)

(** Where [Collector.Run] is; [final] when the context has ended. *)
Inductive CollectorAt :=
| CSelect
| CClosing (end_ next step : Z) (final : bool)
| COverflow (w : Window) (gaps : list Gap) (final : bool)
| CCarry (w : Window)
| CPush (w : Window) (final : bool)
| CTrimmed (gaps : list Gap) (final : bool)
| CStopped.

(** Where [Reporter.Run] is. *)
Inductive ReporterNext := NextPop | NextWait (wait : Z) | NextStop.
Inductive ReporterAt :=
| RPop
| RTake (w : Window)
| RReport (w : Window) (gaps : list Gap)
| RRestore (w : Window) (gaps : list Gap) (code : Z)
| RReject (w : Window)
| RRequeue (w : Window) (next : ReporterNext)
| RRecord (gaps : list Gap) (next : ReporterNext)
| RWait (wait : Z)
| RStopped.

Record Pipeline := MkPipeline {
  plAgg : Aggregator;
  plOpened : Z;
  plBuffer : Buffer;
  plGaps : Gaps;
  plWindow : Z;
  plBatchMax : Z;
  plCollector : CollectorAt;
  plReporter : ReporterAt;
  plAttempt : Z;
}.

(** What a step lets out: a window closed, a report sent and acknowledged, records or
    observations dropped, and a gap recorded. *)
Inductive Effect :=
| EClosed (w : Window)
| ESent (reqs : list ReportFlowsRequest)
| EAcknowledged (w : Window) (gaps : list Gap)
| EDropped (kind : GapKind) (n : Z)
| ERecorded (gap : Gap).

(** What the environment chooses: the readings of the clocks, the answers of the
    connection, when the context ends, and what the sources report. *)
Inductive Event :=
| Observe (o : Observation)
| SourceRecord (gap : Gap)
| SourceOpen (source : GapSource) (kind : GapKind) (from : Z)
| SourceClose (source : GapSource) (to : Z)
| SourceFailed (gapped : option GapSource) (attempt started failed base limit : Z) (draw : Z → Z)
| Configure (cfg : option SyncConfig)
| Rotate (now at_ : Z) (done : bool)
| CollectorStep
| ReporterPop (done : bool)
| ReporterTake
| ReporterReport (t : Transport) (now : nat → Z)
| ReporterRestore (done : bool) (draw : Z → Z)
| ReporterStep
| ReporterWaited (done : bool).

(** The losses that are counted; the collector, the buffer and the reporter alone
    record them. *)
Definition counted (k : GapKind) : bool :=
  match k with GapBufferOverflow | GapWindowOverflow | GapWindowRejected => true | _ => false end.

Definition withAgg (a : Aggregator) (p : Pipeline) : Pipeline :=
  MkPipeline a (plOpened p) (plBuffer p) (plGaps p) (plWindow p) (plBatchMax p) (plCollector p) (plReporter p)
    (plAttempt p).
Definition withGapsOf (g : Gaps) (p : Pipeline) : Pipeline :=
  MkPipeline (plAgg p) (plOpened p) (plBuffer p) g (plWindow p) (plBatchMax p) (plCollector p) (plReporter p)
    (plAttempt p).
Definition withBuffer (b : Buffer) (p : Pipeline) : Pipeline :=
  MkPipeline (plAgg p) (plOpened p) b (plGaps p) (plWindow p) (plBatchMax p) (plCollector p) (plReporter p)
    (plAttempt p).
Definition withCollector (c : CollectorAt) (p : Pipeline) : Pipeline :=
  MkPipeline (plAgg p) (plOpened p) (plBuffer p) (plGaps p) (plWindow p) (plBatchMax p) c (plReporter p)
    (plAttempt p).
Definition withReporter (r : ReporterAt) (p : Pipeline) : Pipeline :=
  MkPipeline (plAgg p) (plOpened p) (plBuffer p) (plGaps p) (plWindow p) (plBatchMax p) (plCollector p) r
    (plAttempt p).
Definition withAttempt (n : Z) (p : Pipeline) : Pipeline :=
  MkPipeline (plAgg p) (plOpened p) (plBuffer p) (plGaps p) (plWindow p) (plBatchMax p) (plCollector p)
    (plReporter p) n.

(** The records a trim dropped. *)
Definition trimmed (gaps : list Gap) : list Effect :=
  (λ g, EDropped GapBufferOverflow (default 0 (gCount g))) <$> gaps.

(** The collector's goroutine, between its reading of the clocks and the next select. *)
Definition collectorStep (p : Pipeline) : option (Pipeline * list Effect) :=
  match plCollector p with
  | CClosing end_ next step final =>
      let '(w, a, gaps) := if decide (step = 0) then Close (plAgg p) end_ else Cut (plAgg p) end_ next in
      Some (withCollector (COverflow w gaps final) (withAgg a p), [EClosed w])
  | COverflow w (g :: gaps) final =>
      Some (withCollector (COverflow w gaps final) (withGapsOf (Gaps_Record g (plGaps p)) p), [ERecorded g])
  | COverflow w [] final =>
      if negb final && bool_decide (winLen w = 0) && bool_decide (0 < length (gsPending (plGaps p)))%nat
      then Some (withCollector (CCarry w) p, [])
      else Some (withCollector (CPush w final) p, [])
  | CCarry w => Some (withCollector CSelect (withBuffer (Carry w (plBuffer p)) p), [])
  | CPush w final =>
      let '(b, gaps) := Push w (plBuffer p) in
      Some (withCollector (CTrimmed gaps final) (withBuffer b p), trimmed gaps)
  | CTrimmed (g :: gaps) final =>
      Some (withCollector (CTrimmed gaps final) (withGapsOf (Gaps_Record g (plGaps p)) p), [ERecorded g])
  | CTrimmed [] final => Some (withCollector (if final then CStopped else CSelect) p, [])
  | CSelect | CStopped => None
  end.

Definition resume (n : ReporterNext) : ReporterAt :=
  match n with NextPop => RPop | NextWait d => RWait d | NextStop => RStopped end.

(** The reporter's goroutine, where it needs nothing of the environment. *)
Definition reporterStep (p : Pipeline) : option (Pipeline * list Effect) :=
  match plReporter p with
  | RReject w =>
      Some (withReporter (RRecord (reject w) NextPop) (withAttempt 0 p),
            [EDropped GapWindowRejected (winLen w)])
  | RRequeue w next =>
      let '(b, gaps) := Requeue w (plBuffer p) in
      Some (withReporter (RRecord gaps next) (withBuffer b p), trimmed gaps)
  | RRecord (g :: gaps) next =>
      Some (withReporter (RRecord gaps next) (withGapsOf (Gaps_Record g (plGaps p)) p), [ERecorded g])
  | RRecord [] next => Some (withReporter (resume next) p, [])
  | _ => None
  end.

Section loops.
(** The bounds of the reporter's backoff. *)
Context (base limit : Z).

Definition pstep (e : Event) (p : Pipeline) : option (Pipeline * list Effect) :=
  match e, plCollector p, plReporter p with
  | Observe o, _, _ =>
      Some (withAgg (Add (plAgg p) o) p,
            if decide (agDropped (Add (plAgg p) o) = agDropped (plAgg p)) then [] else [EDropped GapWindowOverflow 1])
  | SourceRecord gap, _, _ =>
      if counted (gKind gap) then None else Some (withGapsOf (Gaps_Record gap (plGaps p)) p, [ERecorded gap])
  | SourceOpen source kind from, _, _ =>
      if counted kind then None else Some (withGapsOf (Gaps_Open source kind from (plGaps p)) p, [])
  | SourceClose source to, _, _ =>
      Some (withGapsOf (Gaps_Close source to (plGaps p)) p,
            match gsOpen (plGaps p) !! source with Some cur => [ERecorded (withTo to cur)] | None => [] end)
  | SourceFailed gapped attempt started failed base limit draw, _, _ =>
      Some (withGapsOf (restarter_failed gapped attempt started failed base limit draw (plGaps p)).2 p, [])
  | Configure cfg, _, _ =>
      Some (MkPipeline (plAgg p) (plOpened p) (plBuffer p) (plGaps p) (Collector_SetConfig cfg (plWindow p))
              (Reporter_SetConfig cfg (plBatchMax p)) (plCollector p) (plReporter p) (plAttempt p), [])
  | Rotate now at_ done, CSelect, _ =>
      let '(end_, next, step) := closeBounds (agStart (plAgg p)) now (i64 (at_ - plOpened p)) in
      Some (MkPipeline (plAgg p) at_ (plBuffer p) (CutOpen end_ (plGaps p)) (plWindow p) (plBatchMax p)
              (CClosing end_ next step done) (plReporter p) (plAttempt p), [])
  | CollectorStep, _, _ => collectorStep p
  | ReporterPop done, _, RPop =>
      match Pop (plBuffer p) with
      | Some (w, b) => Some (withReporter (RTake w) (withBuffer b p), [])
      | None => if done : bool then Some (withReporter RStopped p, []) else None
      end
  | ReporterTake, _, RTake w =>
      let '(gaps, g) := Gaps_Take (plGaps p) in Some (withReporter (RReport w gaps) (withGapsOf g p), [])
  | ReporterReport t now, _, RReport w gaps =>
      let '(sent, res) := report t now (plBatchMax p) w gaps in
      match res with
      | Ok _ => Some (withReporter RPop (withAttempt 0 p), [ESent sent; EAcknowledged w gaps])
      | Err code => Some (withReporter (RRestore w gaps code) p, [ESent sent])
      end
  | ReporterRestore done draw, _, RRestore w gaps code =>
      let p := withGapsOf (Gaps_Restore gaps (plGaps p)) p in
      if done : bool then Some (withReporter (RRequeue w NextStop) p, [])
      else if decide (code = codes_InvalidArgument) then Some (withReporter (RReject w) p, [])
      else
        let attempt := plAttempt p + 1 in
        Some (withReporter (RRequeue w (NextWait (backoff attempt base limit draw))) (withAttempt attempt p), [])
  | ReporterStep, _, _ => reporterStep p
  | ReporterWaited done, _, RWait _ => Some (withReporter (if done : bool then RStopped else RPop) p, [])
  | _, _, _ => None
  end.

(** [Collector.Run] and [Reporter.Run] at their start. *)
Definition startPipeline (now opened windowKeys bufferRecords gapCapacity : Z) : Pipeline :=
  MkPipeline (NewBoundedAggregator now windowKeys) opened (NewBuffer bufferRecords) (MkGaps gapCapacity [] ∅)
    0 0 CSelect RPop 0.

(** The runs in which every event satisfies [env], with what they let out. *)
Inductive pipeline (env : Event → Pipeline → Prop) (p0 : Pipeline) : Pipeline → list Effect → Prop :=
| pl_start : pipeline env p0 p0 []
| pl_step p l e p' l' :
    pipeline env p0 p l → env e p → pstep e p = Some (p', l') → pipeline env p0 p' (l ++ l').
End loops.
