(* ===== verification/CollectorProps.v ===== *)
(** * Evidence is accounted for: the properties of [Collector.v]

    The counts of the gaps modulo 64 bits, the ledger of a run, and the theorems over
    every interleaving of the collector, the reporter and the sources. *)

From S2P Require Import Prelude GoStd Netip Wire Gaps Collect Uuid Identity Policy Registry Ingest IngestService Collector.
Local Open Scope Z_scope.

(** ** Counts modulo 64 bits *)

Definition eqm (a b : Z) : Prop := u64 a = u64 b.
Local Infix "≡₆₄" := eqm (at level 70).

#[export] Instance eqm_equiv : Equivalence eqm.
Proof. unfold eqm. split; [by intros a|by intros a b|intros a b c; congruence]. Qed.
#[export] Instance eqm_add : Proper (eqm ==> eqm ==> eqm) Z.add.
Proof.
  intros a a' Ha b b' Hb. unfold eqm, u64 in *. rewrite (Zplus_mod a), (Zplus_mod a'). by rewrite Ha, Hb.
Qed.
Lemma eqm_u64 a : u64 a ≡₆₄ a.
Proof. unfold eqm, u64. by rewrite Zmod_mod. Qed.

Definition kindCount (k : GapKind) (g : Gap) : Z := if decide (gKind g = k) then default 0 (gCount g) else 0.
Definition kindTotal (k : GapKind) (l : list Gap) : Z := foldr (λ g n, kindCount k g + n) 0 l.

Lemma kindTotal_app k l l' : kindTotal k (l ++ l') = kindTotal k l + kindTotal k l'.
Proof. induction l as [|g l IH]; [done|]. unfold kindTotal in *. cbn. lia. Qed.
Lemma kindTotal_cons k g l : kindTotal k (g :: l) = kindCount k g + kindTotal k l.
Proof. done. Qed.
#[export] Instance kindTotal_perm k : Proper ((≡ₚ) ==> eq) (kindTotal k).
Proof. induction 1; rewrite ?kindTotal_cons; congruence || lia. Qed.
Lemma kindTotal_reverse k l : kindTotal k (reverse l) = kindTotal k l.
Proof. by rewrite reverse_Permutation. Qed.

(** A loss of a counted kind has its count; a held gap is in order. *)
Definition gap_counted (g : Gap) : Prop := counted (gKind g) = true → is_Some (gCount g).
Definition gap_ok (g : Gap) : Prop := gap_counted g ∧ gFrom g ≤ gTo g.

Lemma merge_ok p q : same_gap p q → gap_ok p → gap_ok q → gap_ok (merge p q).
Proof.
  intros [Hk _] [Hp Hpo] [Hq Hqo]. split; cbn; [|lia]. intros Hc. cbn in Hc.
  destruct (Hp Hc) as [a Ha]. rewrite Hk in Hc. destruct (Hq Hc) as [b Hb]. cbn. rewrite Ha, Hb. eauto.
Qed.

Lemma merge_count k p q :
  counted k = true → same_gap p q → gap_ok p → gap_ok q →
  kindCount k (merge p q) ≡₆₄ kindCount k p + kindCount k q.
Proof.
  intros Hc [Hk _] [Hp _] [Hq _]. unfold kindCount. cbn [gKind merge]. rewrite <-Hk.
  case_decide as Hd; [|done]. destruct (Hp ltac:(by rewrite Hd)) as [a Ha].
  destruct (Hq ltac:(by rewrite <-Hk, Hd)) as [b Hb]. cbn. rewrite Ha, Hb. apply eqm_u64.
Qed.

(** What merging, shrinking and adding preserve. *)
Definition recounts (l l' : list Gap) : Prop :=
  Forall gap_ok l' ∧ ∀ k, counted k = true → kindTotal k l' ≡₆₄ kindTotal k l.

Lemma kindTotal_insert k l j q x :
  l !! j = Some q → kindTotal k (<[j := x]> l) = kindTotal k l - kindCount k q + kindCount k x.
Proof.
  revert j. induction l as [|y l IH]; intros [|j] Hj; try done; cbn in Hj.
  - injection Hj as ->. change (<[0%nat:=x]> (q :: l)) with (x :: l). rewrite !kindTotal_cons. lia.
  - change (<[S j:=x]> (y :: l)) with (y :: <[j:=x]> l). rewrite !kindTotal_cons, (IH j Hj). lia.
Qed.

Lemma mergeOldest_recounts seen rest l :
  mergeOldest seen rest = Some l → Forall gap_ok (seen ++ rest) → recounts (seen ++ rest) l.
Proof.
  revert seen. induction rest as [|p rest IH]; intros seen; cbn [mergeOldest]; [done|].
  destruct (list_find _ seen) as [[j q]|] eqn:Hf.
  - apply list_find_Some in Hf as (Hj & Hs & _). intros [= <-] Hok.
    apply Forall_app in Hok as [Hseen [Hp Hrest]%Forall_cons].
    assert (gap_ok q) as Hq by (rewrite Forall_forall in Hseen; apply Hseen; by eapply list_elem_of_lookup_2).
    split.
    + apply Forall_app. split; [|done]. apply Forall_insert; [done|]. by apply merge_ok.
    + intros k Hk. rewrite !kindTotal_app, kindTotal_cons, (kindTotal_insert k seen j q) by done.
      rewrite merge_count by done. unfold eqm. f_equal. lia.
  - intros Hl Hok. rewrite (cons_middle p), app_assoc in Hok |- *. by apply IH.
Qed.

Lemma shrinkOnce_recounts pending :
  (21 < length pending)%nat → Forall gap_ok pending → recounts pending (shrinkOnce pending).
Proof.
  intros Hlen Hok. unfold shrinkOnce. destruct (mergeOldest [] pending) as [l|] eqn:Hm.
  - by apply mergeOldest_recounts in Hm.
  - apply mergeOldest_None in Hm; [|constructor]. apply pairs_bound in Hm. cbn in Hm. lia.
Qed.

Lemma shrink_recounts cap pending :
  21 ≤ cap → Forall gap_ok pending → recounts pending (shrink cap pending).
Proof.
  intros Hcap. unfold shrink. generalize (length pending) at 1. intros fuel. revert pending.
  induction fuel as [|fuel IH]; intros l Hok; cbn [shrinkLoop]; [by split|].
  case_decide as Hd; [by split|]. destruct (shrinkOnce_recounts l) as [Ho Hk]; [lia|done|].
  destruct (IH _ Ho) as [Ho' Hk']. split; [done|]. intros k Hc. etrans; [by apply Hk'|by apply Hk].
Qed.

Lemma extendNewest_recounts gap l l' :
  extendNewest gap l = Some l' → gap_ok gap → Forall gap_ok l →
  Forall gap_ok l' ∧ ∀ k, counted k = true → kindTotal k l' ≡₆₄ kindTotal k l + kindCount k gap.
Proof.
  intros He Hg. revert l' He. induction l as [|p l IH]; intros l'; cbn [extendNewest]; [done|].
  destruct (decide (same_gap p gap)) as [Hs|Hs].
  - case_decide; [|done]. intros [= <-] [Hp Hl]%Forall_cons. split.
    + constructor; [by apply merge_ok|done].
    + intros k Hk. rewrite !kindTotal_cons, merge_count by done. unfold eqm. f_equal. lia.
  - destruct (extendNewest gap l) as [l1|]; [|done]. cbn [fmap option_fmap option_map]. intros [= <-] [Hp Hl]%Forall_cons.
    destruct (IH l1 eq_refl Hl) as [Hok Hk]. split; [by constructor|]. intros k Hc.
    rewrite (kindTotal_cons k p l1), (kindTotal_cons k p l), (Hk k Hc). unfold eqm. f_equal. lia.
Qed.

Lemma clamp_ok gap : gap_counted gap → gap_ok (clamp gap).
Proof. intros Hg. split; [exact Hg|cbn; lia]. Qed.

Lemma addPending_recounts cap gap pending :
  21 ≤ cap → gap_counted gap → Forall gap_ok pending →
  Forall gap_ok (addPending cap gap pending) ∧
  ∀ k, counted k = true → kindTotal k (addPending cap gap pending) ≡₆₄ kindTotal k pending + kindCount k gap.
Proof.
  intros Hcap Hg Hok. unfold addPending. cbn zeta. pose proof (clamp_ok gap Hg) as Hcl.
  assert (∀ k, kindCount k (clamp gap) = kindCount k gap) as Hsame by done.
  destruct (extendNewest (clamp gap) (reverse pending)) as [l|] eqn:He.
  - destruct (extendNewest_recounts _ _ _ He Hcl) as [Ho Hk]; [by apply Forall_reverse|]. split.
    + by apply Forall_reverse.
    + intros k Hc. rewrite kindTotal_reverse, (Hk k Hc), kindTotal_reverse. done.
  - destruct (shrink_recounts cap (pending ++ [clamp gap]) Hcap) as [Ho Hk].
    { apply Forall_app. split; [done|]. by constructor. }
    split; [done|]. intros k Hc. rewrite (Hk k Hc), kindTotal_app, kindTotal_cons, Hsame. unfold eqm. cbn. f_equal. lia.
Qed.

(** ** What the gaps promise the loops *)

Definition gaps_ok (g : Gaps) : Prop :=
  21 ≤ capacity g ∧ Z.of_nat (length (gsPending g)) ≤ capacity g ∧ Forall gap_ok (gsPending g) ∧
  map_Forall (λ _ o, counted (gKind o) = false) (gsOpen g).

(** From [g] to [g'], the gaps [added] are held and none is lost. *)
Definition grows (g : Gaps) (added : list Gap) (g' : Gaps) : Prop :=
  gaps_ok g' ∧ keeps_gaps g g' ∧ Forall (λ x, covered (clamp x) (gsPending g')) added ∧
  ∀ k, counted k = true → kindTotal k (gsPending g') ≡₆₄ kindTotal k (gsPending g) + kindTotal k added.

Lemma grows_refl g : gaps_ok g → grows g [] g.
Proof. intros Hg. split_and!; try done; try constructor.
  intros k _. change (kindTotal k []) with 0. by rewrite Z.add_0_r. Qed.

Lemma grows_trans g g1 g2 l1 l2 : grows g l1 g1 → grows g1 l2 g2 → grows g (l1 ++ l2) g2.
Proof.
  intros (H1 & H2 & H3 & H4) (H1' & H2' & H3' & H4'). split_and!; [done|by etrans| |].
  - apply Forall_app. split; [|done]. eapply Forall_impl; [exact H3|]. intros x. apply H2'.
  - intros k Hc. rewrite (H4' k Hc), (H4 k Hc), kindTotal_app. unfold eqm. f_equal. lia.
Qed.

Lemma gaps_add_grows gap g : gaps_ok g → gap_counted gap → grows g [gap] (gaps_add gap g).
Proof.
  intros (Hc & Hl & Hp & Ho) Hg. destruct (gaps_add_keeps gap g Hc Hl) as [Hk Hcov].
  destruct (addPending_recounts _ _ _ Hc Hg Hp) as [Hok Hcnt].
  assert (capacity (gaps_add gap g) = capacity g) as Hcap by done.
  split_and!; [|done|by repeat constructor|].
  - split_and!; [done|by apply Hk|done|done].
  - intros k Hck. rewrite kindTotal_cons. unfold kindTotal at 3. cbn. rewrite Z.add_0_r. by apply Hcnt.
Qed.

Lemma withOpen_grows o g :
  gaps_ok g → map_Forall (λ _ x, counted (gKind x) = false) o → grows g [] (withOpen o g).
Proof.
  intros (Hc & Hl & Hp & Ho) Hm. split_and!; try done; try constructor.
  intros k _. change (kindTotal k []) with 0. by rewrite Z.add_0_r.
Qed.

Lemma uncounted gap : counted (gKind gap) = false → gap_counted gap.
Proof. intros Hg Hc. congruence. Qed.

(** Gaps of an uncounted kind add nothing to the counts. *)
Lemma uncounted_total k l :
  counted k = true → Forall (λ g, counted (gKind g) = false) l → kindTotal k l = 0.
Proof.
  intros Hk. induction 1 as [|g l Hg Hl IH]; [done|]. rewrite kindTotal_cons, IH. unfold kindCount.
  rewrite decide_False by congruence. done.
Qed.

Lemma grows_nil g l g' : Forall (λ x, counted (gKind x) = false) l → grows g l g' → grows g [] g'.
Proof.
  intros Hl (H1 & H2 & H3 & H4). split_and!; [done|done|constructor|]. intros k Hc.
  rewrite (H4 k Hc), (uncounted_total k l) by done. done.
Qed.

Lemma Gaps_Open_grows s kind from g : gaps_ok g → counted kind = false → grows g [] (Gaps_Open s kind from g).
Proof.
  intros Hg Hk. pose proof Hg as (_ & _ & _ & Ho). unfold Gaps_Open.
  destruct (gsOpen g !! s) as [cur|] eqn:Hcur.
  - case_decide; [by apply grows_refl|]. cbn zeta. pose proof (Ho _ _ Hcur) as Hu.
    apply (grows_nil _ ([withTo from cur] ++ [])); [by repeat constructor|].
    eapply grows_trans; [by apply gaps_add_grows, uncounted|].
    apply withOpen_grows; [by apply gaps_add_grows, uncounted|]. by apply map_Forall_insert_2.
  - apply withOpen_grows; [done|]. by apply map_Forall_insert_2.
Qed.

Lemma Gaps_Close_grows s to g :
  gaps_ok g →
  grows g (match gsOpen g !! s with Some cur => [withTo to cur] | None => [] end) (Gaps_Close s to g).
Proof.
  intros Hg. pose proof Hg as (_ & _ & _ & Ho). unfold Gaps_Close.
  destruct (gsOpen g !! s) as [cur|] eqn:Hcur; [|by apply grows_refl].
  apply (grows_trans _ (withOpen (delete s (gsOpen g)) g) _ []).
  - apply withOpen_grows; [done|]. by apply map_Forall_delete.
  - apply gaps_add_grows; [|by apply uncounted, (Ho _ _ Hcur)].
    apply withOpen_grows; [done|]. by apply map_Forall_delete.
Qed.

Lemma CutOpen_grows to g : gaps_ok g → grows g [] (CutOpen to g).
Proof.
  intros Hg. unfold CutOpen.
  assert (Forall (λ o, counted (gKind o.2) = false) (map_to_list (gsOpen g))) as Hl.
  { apply Forall_forall. intros [s cur] Hin%elem_of_map_to_list. pose proof Hg as (_ & _ & _ & Ho). by apply (Ho s). }
  revert g Hg Hl. intros g0. generalize (map_to_list (gsOpen g0)). intros l. revert g0.
  induction l as [|[s cur] l IH]; intros g Hg Hl; cbn [foldl]; [by apply grows_refl|].
  apply Forall_cons in Hl as [Hu Hl]. cbn [snd] in Hu.
  assert (grows g [] (cutOne to g (s, cur))) as Hone.
  { cbn. destruct (negb _ || _); [by apply grows_refl|]. cbn zeta.
    assert (grows g [withTo to cur] (gaps_add (withTo to cur) g)) as Hadd by (by apply gaps_add_grows, uncounted).
    apply (grows_nil _ ([withTo to cur] ++ [])); [by repeat constructor|]. eapply grows_trans; [exact Hadd|].
    apply withOpen_grows; [apply Hadd|]. apply map_Forall_insert_2; [done|]. apply Hadd. }
  apply (grows_trans _ _ _ [] []  Hone). apply IH; [apply Hone|done].
Qed.

Lemma Gaps_Restore_grows gaps g : gaps_ok g → Forall gap_ok gaps → grows g gaps (Gaps_Restore gaps g).
Proof.
  intros Hg Hgaps. pose proof Hg as (Hc & Hl & Hp & Ho). unfold Gaps_Restore.
  destruct gaps as [|x0 gaps]; [by apply grows_refl|]. set (l := x0 :: gaps) in *.
  destruct (shrink_spec (capacity g) (l ++ gsPending g) Hc) as [Hb Hk].
  destruct (shrink_recounts (capacity g) (l ++ gsPending g) Hc) as [Hok Hcnt]; [by apply Forall_app|].
  split_and!.
  - by split_and!.
  - split_and!; [done| |done]. intros x Hx. apply Hk, Exists_app. by right.
  - apply Forall_forall. intros x Hx. apply Hk, Exists_app. left. apply Exists_exists. exists x. split; [done|].
    rewrite Forall_forall in Hgaps. destruct (Hgaps x Hx) as [_ Hord]. split; [by split|]. cbn. lia.
  - intros k Hck. cbn [gsPending]. rewrite (Hcnt k Hck), kindTotal_app. unfold eqm. f_equal. lia.
Qed.

(** ** The ledger of a run *)

Definition effSum (f : Effect → Z) (l : list Effect) : Z := foldr (λ e n, f e + n) 0 l.
Definition closedIn (e : Effect) : Z := match e with EClosed w => winLen w | _ => 0 end.
Definition ackedIn (e : Effect) : Z := match e with EAcknowledged w _ => winLen w | _ => 0 end.
Definition droppedAs (k : GapKind) (e : Effect) : Z :=
  match e with EDropped k' n => if decide (k' = k) then n else 0 | _ => 0 end.

(** The records of the windows closed and acknowledged, and what was dropped as [k]. *)
Definition closedRecords : list Effect → Z := effSum closedIn.
Definition ackedRecords : list Effect → Z := effSum ackedIn.
Definition dropped (k : GapKind) : list Effect → Z := effSum (droppedAs k).

(** The gaps that were recorded, and those of acknowledged reports. *)
Definition shippedGaps (l : list Effect) : list Gap :=
  l ≫= λ e, match e with EAcknowledged _ gaps => gaps | _ => [] end.
Definition recordedGaps (l : list Effect) : list Gap :=
  l ≫= λ e, match e with ERecorded g => [g] | _ => [] end.

(** The records on their way, and the gaps in flight or about to be recorded. *)
Definition inHand (p : Pipeline) : Z :=
  match plCollector p with COverflow w _ _ | CCarry w | CPush w _ => winLen w | _ => 0 end +
  match plReporter p with
  | RTake w | RReport w _ | RRestore w _ _ | RReject w | RRequeue w _ => winLen w
  | _ => 0
  end.
Definition inFlight (p : Pipeline) : list Gap :=
  match plReporter p with RReport _ gaps | RRestore _ gaps _ => gaps | _ => [] end.
Definition toRecord (p : Pipeline) : list Gap :=
  match plCollector p with COverflow _ gaps _ | CTrimmed gaps _ => gaps | _ => [] end ++
  match plReporter p with RRecord gaps _ => gaps | _ => [] end.
Definition heldGaps (p : Pipeline) : list Gap := gsPending (plGaps p) ++ inFlight p.

Lemma effSum_app f l l' : effSum f (l ++ l') = effSum f l + effSum f l'.
Proof. unfold effSum. induction l as [|e l IH]; cbn; lia. Qed.

Lemma shippedGaps_app l l' : shippedGaps (l ++ l') = shippedGaps l ++ shippedGaps l'.
Proof. apply bind_app. Qed.
Lemma recordedGaps_app l l' : recordedGaps (l ++ l') = recordedGaps l ++ recordedGaps l'.
Proof. apply bind_app. Qed.
Lemma dropped_app k l l' : dropped k (l ++ l') = dropped k l + dropped k l'.
Proof. apply effSum_app. Qed.

(** The observations the open window has dropped. *)
Definition openDrops (k : GapKind) (p : Pipeline) : Z :=
  if decide (k = GapWindowOverflow) then agDropped (plAgg p) else 0.

Record pipeline_inv (p : Pipeline) (l : list Effect) : Prop := {
  pi_records : closedRecords l = ackedRecords l + inHand p + bRecords (plBuffer p)
                 + dropped GapBufferOverflow l + dropped GapWindowRejected l;
  pi_counts k : counted k = true →
    kindTotal k (heldGaps p) + kindTotal k (shippedGaps l) + kindTotal k (toRecord p) + openDrops k p
      ≡₆₄ dropped k l;
  pi_covered : Forall (λ x, covered (clamp x) (heldGaps p ++ shippedGaps l)) (recordedGaps l);
  pi_buffer : bRecords (plBuffer p) = total (bWindows (plBuffer p)) ∧
    bRecords (plBuffer p) ≤ bCapacity (plBuffer p) ∧ 0 < bCapacity (plBuffer p) ∧
    0 ≤ bDropped (plBuffer p) < 2 ^ 64 ∧ bDropped (plBuffer p) ≡₆₄ dropped GapBufferOverflow l;
  pi_gaps : gaps_ok (plGaps p);
  pi_flight : Forall gap_ok (inFlight p) ∧ Z.of_nat (length (inFlight p)) ≤ capacity (plGaps p);
  pi_calls : Forall gap_counted (toRecord p);
  pi_agg : 0 ≤ agDropped (plAgg p) < 2 ^ 64;
  pi_carry w : plCollector p = CCarry w → winLen w = 0;
}.

Lemma coveredBy_trans x y z : coveredBy x y → coveredBy y z → coveredBy x z.
Proof. intros ([? ?] & ? & ?) ([? ?] & ? & ?). split_and!; [split; congruence|lia|lia]. Qed.

(** What covers the gaps [l] covers what they cover. *)
Lemma covered_through x l m : covered x l → Forall (λ y, covered (clamp y) m) l → covered x m.
Proof.
  unfold covered. rewrite !Exists_exists, Forall_forall. intros (y & Hy & Hxy) Hm.
  specialize (Hm y Hy). rewrite Exists_exists in Hm. destruct Hm as (z & Hz & Hyz). exists z. split; [done|].
  eapply coveredBy_trans; [exact Hxy|]. destruct Hyz as ([? ?] & ? & ?). cbn in *. split_and!; [by split|lia|lia].
Qed.

Lemma covered_app x l m : covered x (l ++ m) ↔ covered x l ∨ covered x m.
Proof. apply Exists_app. Qed.

(** Steps on the gaps alone: [added] were added; what left the flight is among them. *)
Lemma inv_gaps p l added p' l' :
  pipeline_inv p l → grows (plGaps p) added (plGaps p') →
  plBuffer p' = plBuffer p → agDropped (plAgg p') = agDropped (plAgg p) → inHand p' = inHand p →
  (inFlight p' = inFlight p ∨ inFlight p' = [] ∧ inFlight p = added) →
  (∀ k, counted k = true → kindTotal k (toRecord p') + kindTotal k (inFlight p') + kindTotal k added
     ≡₆₄ kindTotal k (toRecord p) + kindTotal k (inFlight p)) →
  Forall gap_counted (toRecord p') → (∀ w, plCollector p' = CCarry w → winLen w = 0) →
  Forall (λ e, ∃ g, e = ERecorded g ∧ g ∈ added) l' →
  pipeline_inv p' (l ++ l').
Proof.
  intros [Hr Hc Hcov Hb Hg Hf Hcl Ha Hw] (Hg' & Hk & Hadd & Hcnt) Eb Ea Eh Ef Ecalls Hcl' Hw' Hl'.
  assert (∀ f, (∀ g, f (ERecorded g) = 0) → effSum f l' = 0) as Hzero.
  { intros f Hf0. clear -Hl' Hf0. induction Hl' as [|e l' (g & -> & _) _ IH]; [done|]. unfold effSum in *. cbn.
    by rewrite Hf0, IH. }
  assert (shippedGaps l' = []) as Hs.
  { clear -Hl'. induction Hl' as [|e l' (g & -> & _) _ IH]; [done|]. exact IH. }
  assert (Forall (λ x, x ∈ added) (recordedGaps l')) as Hrec.
  { clear -Hl'. induction Hl' as [|e l' (g & -> & Hin) _ IH]; [constructor|]. by constructor. }
  assert (∀ x, covered x (heldGaps p) → covered x (heldGaps p')) as Hheld.
  { intros x. unfold heldGaps. rewrite !covered_app. intros [Hx|Hx]; [left; by apply Hk|].
    destruct Ef as [->|[_ Ef]]; [by right|]. left. rewrite Ef in Hx. by eapply covered_through. }
  constructor.
  - unfold closedRecords, ackedRecords, dropped in *. rewrite !effSum_app, !(Hzero _) by done. rewrite Eb, Eh. lia.
  - intros k Hck. rewrite shippedGaps_app, dropped_app, Hs, app_nil_r. unfold dropped at 2.
    rewrite (Hzero (droppedAs k)), Z.add_0_r by done. rewrite <-(Hc k Hck). pose proof (Ecalls k Hck) as He.
    unfold heldGaps, openDrops. rewrite !kindTotal_app, (Hcnt k Hck), Ea.
    set (d := if decide (k = GapWindowOverflow) then _ else _).
    transitivity (kindTotal k (gsPending (plGaps p)) + kindTotal k (shippedGaps l) + d
      + (kindTotal k (toRecord p') + kindTotal k (inFlight p') + kindTotal k added)); [unfold eqm; f_equal; lia|].
    rewrite He. unfold eqm. f_equal. lia.
  - rewrite shippedGaps_app, recordedGaps_app, Hs, app_nil_r. apply Forall_app. split.
    + eapply Forall_impl; [exact Hcov|]. intros x. rewrite !covered_app. intros [Hx|Hx]; [left; by apply Hheld|by right].
    + eapply Forall_impl; [exact Hrec|]. intros x Hx. apply covered_app. left. apply covered_app. left.
      rewrite Forall_forall in Hadd. by apply Hadd.
  - unfold dropped. rewrite Eb, effSum_app, (Hzero (droppedAs _)), Z.add_0_r by done. exact Hb.
  - done.
  - assert (capacity (plGaps p') = capacity (plGaps p)) as Ecap by (unfold capacity; by rewrite (proj1 Hk)).
    destruct Ef as [->|[-> _]]; [by rewrite Ecap|]. split; [constructor|]. destruct Hg' as (? & _). cbn. lia.
  - done.
  - by rewrite Ea.
  - done.
Qed.

(** Steps that leave the gaps alone. *)
Lemma inv_same_gaps p l p' l' :
  pipeline_inv p l → plGaps p' = plGaps p → inFlight p' = inFlight p →
  shippedGaps l' = [] → recordedGaps l' = [] →
  closedRecords l' + inHand p + bRecords (plBuffer p) = ackedRecords l' + inHand p' + bRecords (plBuffer p')
    + dropped GapBufferOverflow l' + dropped GapWindowRejected l' →
  (∀ k, counted k = true → kindTotal k (toRecord p') + openDrops k p'
     ≡₆₄ kindTotal k (toRecord p) + openDrops k p + dropped k l') →
  (bRecords (plBuffer p') = total (bWindows (plBuffer p')) ∧
   bRecords (plBuffer p') ≤ bCapacity (plBuffer p') ∧ 0 < bCapacity (plBuffer p') ∧
   0 ≤ bDropped (plBuffer p') < 2 ^ 64 ∧
   bDropped (plBuffer p') ≡₆₄ bDropped (plBuffer p) + dropped GapBufferOverflow l') →
  Forall gap_counted (toRecord p') → 0 ≤ agDropped (plAgg p') < 2 ^ 64 →
  (∀ w, plCollector p' = CCarry w → winLen w = 0) →
  pipeline_inv p' (l ++ l').
Proof.
  intros [Hr Hc Hcov Hb Hg Hf Hcl Ha Hw] Eg Ef Hs Hrec Hsum Hcnt Hb' Hcl' Ha' Hw'.
  assert (heldGaps p' = heldGaps p) as Eh by (unfold heldGaps; by rewrite Eg, Ef).
  constructor; try done; try (by rewrite ?Eg, ?Ef).
  - unfold closedRecords, ackedRecords, dropped in *. rewrite !effSum_app. lia.
  - intros k Hck. rewrite shippedGaps_app, dropped_app, Hs, app_nil_r, Eh, <-(Hc k Hck).
    rewrite <-Z.add_assoc, (Hcnt k Hck). unfold eqm. f_equal. lia.
  - by rewrite shippedGaps_app, recordedGaps_app, Hs, Hrec, !app_nil_r, Eh.
  - destruct Hb as (_ & _ & _ & _ & Hd), Hb' as (? & ? & ? & ? & Hd'). do 4 (split; [done|]).
    by rewrite Hd', Hd, dropped_app.
Qed.

(** ** The steps *)

Definition overflow_gap (g : Gap) : Prop := gKind g = GapBufferOverflow ∧ is_Some (gCount g).

Lemma overflow_kind w n d : Forall overflow_gap (overflow w n d).2.
Proof. unfold overflow. case_decide; repeat constructor. by eexists. Qed.

Lemma trimLoop_kind ws n cap d : Forall overflow_gap (trimLoop ws n cap d).2.
Proof.
  revert n d. induction ws as [|w ws IH]; intros n d; cbn [trimLoop]; [constructor|].
  destruct ws as [|w2 ws]; [constructor|]. case_decide; [|constructor].
  pose proof (overflow_kind w (winLen w) d) as Ho. destruct (overflow w (winLen w) d) as [d1 g1].
  specialize (IH (n - winLen w) d1). destruct (trimLoop (w2 :: ws) _ _ _) as [[[ws1 n1] d2] g2].
  cbn in *. by apply Forall_app.
Qed.

Lemma trim_kind b : Forall overflow_gap (trim b).2.
Proof.
  unfold trim. pose proof (trimLoop_kind (bWindows b) (bRecords b) (bCapacity b) (bDropped b)) as Ht.
  destruct (trimLoop _ _ _ _) as [[[ws n] d] gaps]. cbn [snd] in Ht.
  destruct ws as [|w [|? ?]]; try done. case_decide; [|done]. cbn zeta.
  pose proof (overflow_kind (MkWindow (winStart w) (winEnd w) (drop (Z.to_nat (n - bCapacity b)) (winRecords w)))
    (n - bCapacity b) d) as Ho.
  destruct (overflow _ _ d) as [d' g']. cbn [snd] in *. by apply Forall_app.
Qed.

Lemma overflow_total k l : Forall overflow_gap l → kindTotal k l = dropped k (trimmed l).
Proof.
  induction 1 as [|g l [Hk [n Hn]] _ IH]; [done|]. rewrite kindTotal_cons, IH. unfold dropped, trimmed, effSum, kindCount.
  cbn. rewrite Hk, Hn. done.
Qed.

Lemma gapTotal_dropped l : Forall overflow_gap l → gapTotal l = dropped GapBufferOverflow (trimmed l).
Proof.
  induction 1 as [|g l [Hk [n Hn]] _ IH]; [done|].
  change (gapTotal (g :: l)) with (default 0 (gCount g) + gapTotal l). rewrite IH. unfold dropped, effSum. cbn.
  rewrite decide_True by done. done.
Qed.

Lemma trimmed_quiet l :
  shippedGaps (trimmed l) = [] ∧ recordedGaps (trimmed l) = [] ∧ closedRecords (trimmed l) = 0 ∧
  ackedRecords (trimmed l) = 0 ∧ dropped GapWindowRejected (trimmed l) = 0.
Proof.
  induction l as [|g l (H1 & H2 & H3 & H4 & H5)]; [done|]. split_and!; [exact H1|exact H2|exact H3|exact H4|exact H5].
Qed.

Definition buffer_ok (b : Buffer) : Prop :=
  bRecords b = total (bWindows b) ∧ bRecords b ≤ bCapacity b ∧ 0 < bCapacity b ∧ 0 ≤ bDropped b < 2 ^ 64.

(** Queuing a window, at either end: what does not fit is dropped and counted. *)
Lemma enqueue_spec b ws w b' gaps :
  buffer_ok b → total ws = total (bWindows b) + winLen w →
  (if decide (winLen w = 0) then (b, []) else trim (MkBuffer ws (bRecords b + winLen w) (bCapacity b) (bDropped b)))
    = (b', gaps) →
  buffer_ok b' ∧ Forall overflow_gap gaps ∧ bRecords b + winLen w = bRecords b' + gapTotal gaps ∧
  bDropped b' ≡₆₄ bDropped b + gapTotal gaps.
Proof.
  intros (Hr & Hle & Hc & Hd) Hws. case_decide as Hw.
  { intros [= <- <-]. change (gapTotal []) with 0. rewrite Hw, !Z.add_0_r. by split_and!. }
  intros Htr. pose proof (trim_kind (MkBuffer ws (bRecords b + winLen w) (bCapacity b) (bDropped b))) as Hk.
  rewrite Htr in Hk. cbn [snd] in Hk.
  destruct (trim_spec _ _ _ Htr) as (Hr' & Hle' & Hc' & Hd' & Hrng & Hg);
    cbn [bRecords bWindows bCapacity bDropped] in *; [lia|done|lia|].
  split; [|split; [done|split; [lia|]]].
  - unfold buffer_ok. split_and!; [done|lia|lia|lia|lia].
  - rewrite Hd', eqm_u64. unfold eqm. f_equal. lia.
Qed.

Lemma Push_spec w b b' gaps :
  buffer_ok b → Push w b = (b', gaps) →
  buffer_ok b' ∧ Forall overflow_gap gaps ∧ bRecords b + winLen w = bRecords b' + gapTotal gaps ∧
  bDropped b' ≡₆₄ bDropped b + gapTotal gaps.
Proof.
  intros Hb. apply enqueue_spec; [done|]. rewrite total_app. unfold total at 2. cbn. lia.
Qed.

Lemma Requeue_spec w b b' gaps :
  buffer_ok b → Requeue w b = (b', gaps) →
  buffer_ok b' ∧ Forall overflow_gap gaps ∧ bRecords b + winLen w = bRecords b' + gapTotal gaps ∧
  bDropped b' ≡₆₄ bDropped b + gapTotal gaps.
Proof.
  intros Hb. apply enqueue_spec; [done|]. unfold total at 1. cbn. fold (total (bWindows b)). lia.
Qed.

Lemma Carry_spec w b :
  buffer_ok b → winLen w = 0 →
  buffer_ok (Carry w b) ∧ bRecords (Carry w b) = bRecords b ∧ bDropped (Carry w b) = bDropped b.
Proof.
  intros (Hr & Hle & Hc & Hd) Hw. unfold Carry, buffer_ok. destruct (bWindows b) eqn:Hws; [|by rewrite Hws].
  cbn [bRecords bWindows bCapacity bDropped]. split; [|done]. split; [|done]. rewrite Hr. unfold total. cbn. lia.
Qed.

Lemma close_spec a end_ next within w a' gaps :
  close a end_ next within = (w, a', gaps) → 0 ≤ agDropped a →
  agDropped a' = 0 ∧ Forall gap_counted gaps ∧
  ∀ k, kindTotal k gaps = if decide (k = GapWindowOverflow) then agDropped a else 0.
Proof.
  unfold close. intros [= <- <- <-] Ha. split; [done|]. split.
  - case_decide; repeat constructor. by eexists.
  - intros k. case_decide.
    + unfold kindTotal, kindCount. cbn. destruct (decide (k = GapWindowOverflow)) as [->|Hne].
      * rewrite decide_True by done. lia.
      * rewrite decide_False by congruence. done.
    + cbn. destruct (decide _); lia.
Qed.

Lemma Add_dropped a o :
  0 ≤ agDropped a < 2 ^ 64 →
  (agDropped (Add a o) = agDropped a ∨ agDropped (Add a o) = u64 (agDropped a + 1)) ∧ 0 ≤ agDropped (Add a o) < 2 ^ 64.
Proof.
  intros Ha. unfold Add. destruct (agRecords a !! keyOf o); [by auto|]. case_decide; [|by auto].
  cbn. split; [by right|apply u64_range].
Qed.

Lemma inv_buffer p l : pipeline_inv p l → buffer_ok (plBuffer p).
Proof. intros [_ _ _ (? & ? & ? & ? & _) _ _ _ _ _]. do 3 (split; [done|]). done. Qed.

(** A gap is recorded: it leaves the calls to be made. *)
Lemma inv_record p l g p' :
  pipeline_inv p l → plGaps p' = Gaps_Record g (plGaps p) →
  plBuffer p' = plBuffer p → plAgg p' = plAgg p → inHand p' = inHand p → inFlight p' = inFlight p →
  toRecord p ≡ₚ g :: toRecord p' → (∀ w, plCollector p' = CCarry w → winLen w = 0) →
  pipeline_inv p' (l ++ [ERecorded g]).
Proof.
  intros Hinv Eg Eb Ea Eh Ef Hperm Hw. pose proof (pi_calls _ _ Hinv) as Hcalls. rewrite Hperm in Hcalls.
  apply Forall_cons in Hcalls as [Hgc Hcalls].
  assert (∀ k, kindTotal k (toRecord p) = kindCount k g + kindTotal k (toRecord p')) as Htot
    by (intros k; by rewrite Hperm, kindTotal_cons).
  eapply (inv_gaps _ _ [g]); [done| |done|by rewrite Ea|done|by left| |done|done|].
  - rewrite Eg. apply gaps_add_grows; [apply Hinv|done].
  - intros k Hk. rewrite Htot, Ef, kindTotal_cons. unfold eqm. f_equal. unfold kindTotal at 3. cbn. lia.
  - repeat constructor. exists g. split; [done|]. left.
Qed.

(** A window is queued: what was trimmed is to be recorded. *)
Lemma inv_enqueue p l w gaps p' b' :
  pipeline_inv p l → plGaps p' = plGaps p → plBuffer p' = b' → plAgg p' = plAgg p →
  buffer_ok b' → Forall overflow_gap gaps →
  bRecords (plBuffer p) + winLen w = bRecords b' + gapTotal gaps →
  bDropped b' ≡₆₄ bDropped (plBuffer p) + gapTotal gaps →
  inHand p = inHand p' + winLen w → inFlight p' = inFlight p → toRecord p' ≡ₚ gaps ++ toRecord p →
  (∀ w, plCollector p' = CCarry w → winLen w = 0) →
  pipeline_inv p' (l ++ trimmed gaps).
Proof.
  intros Hinv Eg Eb Ea (Hr & Hle & Hc & Hd) Hk Hsum Hdrop Hhand Hfl Hperm Hw.
  destruct (trimmed_quiet gaps) as (H1 & H2 & H3 & H4 & H5).
  assert (∀ k, kindTotal k (toRecord p') = kindTotal k gaps + kindTotal k (toRecord p)) as Htot
    by (intros k; by rewrite Hperm, kindTotal_app).
  rewrite gapTotal_dropped in Hsum, Hdrop by done.
  eapply inv_same_gaps; try done.
  - rewrite H3, H4, H5, Eb. lia.
  - intros k Hck. unfold openDrops. rewrite Htot, (overflow_total k gaps Hk), Ea. unfold eqm. f_equal. lia.
  - rewrite Eb. do 4 (split; [done|]). done.
  - rewrite Hperm. apply Forall_app. split; [|apply Hinv]. eapply Forall_impl; [exact Hk|]. intros g [_ Hg] _. done.
  - rewrite Ea. apply Hinv.
Qed.

Lemma collectorStep_inv p l p' l' :
  pipeline_inv p l → collectorStep p = Some (p', l') → pipeline_inv p' (l ++ l').
Proof.
  intros Hinv. pose proof (inv_buffer _ _ Hinv) as Hbuf.
  destruct p as [agg opened b g win bm c r att]. unfold collectorStep. cbn [plCollector plAgg plGaps plBuffer].
  destruct c as [|end_ next step final|w [|g0 gaps] final|w|w final|[|g0 gaps] final|]; try done.
  - destruct (if decide (step = 0) then _ else _) as [[w a] gaps] eqn:Hcl. intros [= <- <-].
    assert (∃ n wi, close agg end_ n wi = (w, a, gaps)) as (n & wi & Hclose).
    { unfold Close, Cut in Hcl. case_decide; eauto. }
    pose proof (pi_agg _ _ Hinv) as Ha. cbn [plAgg] in Ha.
    destruct (close_spec _ _ _ _ _ _ _ Hclose) as (Ha' & Hcnt & Htot); [lia|].
    eapply inv_same_gaps; try done; try (cbn; rewrite Ha'; lia).
    + unfold closedRecords, ackedRecords, dropped, inHand, effSum. cbn. lia.
    + intros k Hk. change (dropped k [EClosed w]) with 0. unfold toRecord, openDrops.
      cbn [plCollector plReporter plAgg withCollector withAgg app]. rewrite kindTotal_app, Htot, Ha'.
      unfold eqm. f_equal. destruct (decide (k = GapWindowOverflow)); lia.
    + destruct Hbuf as (? & ? & ? & ?). do 4 (split; [done|]). unfold dropped, effSum. cbn. by rewrite Z.add_0_r.
    + pose proof (pi_calls _ _ Hinv) as Hc. unfold toRecord in *. cbn in *. by apply Forall_app.
  - destruct (negb final && _ && _) eqn:Hcarry; intros [= <- <-]; rewrite app_nil_r.
    + apply andb_true_iff in Hcarry as [[_ Hz%bool_decide_eq_true]%andb_true_iff _].
      destruct Hinv. constructor; try done. intros w0 [= <-]. exact Hz.
    + destruct Hinv. by constructor.
  - intros [= <- <-]. eapply inv_record; [exact Hinv|done..].
  - intros [= <- <-]. rewrite app_nil_r. 
    destruct (Carry_spec w b Hbuf (pi_carry _ _ Hinv w eq_refl)) as (Hb' & Er & Ed).
    pose proof (pi_carry _ _ Hinv w eq_refl) as Hz.
    rewrite <-(app_nil_r l). eapply inv_same_gaps; [exact Hinv|..]; try done.
    + change (dropped _ []) with 0. change (closedRecords []) with 0. change (ackedRecords []) with 0.
      unfold inHand. cbn [plCollector plReporter plBuffer withCollector withBuffer]. lia.
    + intros k Hk. change (dropped k []) with 0. by rewrite Z.add_0_r.
    + change (dropped _ []) with 0. rewrite Z.add_0_r. destruct Hb' as (? & ? & ? & ?). do 4 (split; [done|]).
      cbn [plBuffer withCollector withBuffer]. by rewrite Ed.
    + apply (pi_calls _ _ Hinv).
    + apply (pi_agg _ _ Hinv).
  - destruct (Push w b) as [b' gaps] eqn:Hp. intros [= <- <-].
    destruct (Push_spec _ _ _ _ Hbuf Hp) as (Hb' & Hk & Hsum & Hdrop).
    eapply (inv_enqueue _ _ w); try done. unfold inHand. cbn. lia.
  - intros [= <- <-]. rewrite app_nil_r. destruct Hinv. destruct final; by constructor.
  - intros [= <- <-]. eapply inv_record; [exact Hinv|done..].
Qed.

Lemma reject_spec w :
  Forall gap_counted (reject w) ∧
  ∀ k, kindTotal k (reject w) = dropped k [EDropped GapWindowRejected (winLen w)].
Proof.
  unfold reject. destruct (if decide (winEnd w < winStart w) then _ else _) as [from to]. case_decide as Hw.
  - split; [repeat constructor; by eexists|]. intros k. unfold kindTotal, kindCount, dropped, effSum. cbn. done.
  - split; [constructor|]. intros k. unfold dropped, effSum, droppedAs. cbn.
    assert (winLen w = 0) as -> by (unfold winLen in *; lia). by case_decide.
Qed.

Lemma reporterStep_inv p l p' l' :
  pipeline_inv p l → reporterStep p = Some (p', l') → pipeline_inv p' (l ++ l').
Proof.
  intros Hinv. pose proof (inv_buffer _ _ Hinv) as Hbuf.
  destruct p as [agg opened b g win bm c r att]. unfold reporterStep. cbn [plReporter plBuffer plGaps].
  destruct r as [|w|w gaps|w gaps code|w|w next|[|g0 gaps] next|wait|]; try done.
  - intros [= <- <-]. destruct (reject_spec w) as [Hc Ht]. eapply inv_same_gaps; [exact Hinv|..]; try done.
    + change (dropped GapWindowRejected [EDropped GapWindowRejected (winLen w)]) with (winLen w + 0).
      change (dropped GapBufferOverflow [EDropped GapWindowRejected (winLen w)]) with 0.
      unfold closedRecords, ackedRecords, effSum, inHand. cbn. lia.
    + intros k Hk. unfold toRecord, openDrops. cbn [plCollector plReporter plAgg withReporter withAttempt].
      rewrite !kindTotal_app, Ht. unfold eqm. f_equal. change (kindTotal k []) with 0. lia.
    + change (dropped GapBufferOverflow [EDropped GapWindowRejected (winLen w)]) with 0. rewrite Z.add_0_r.
      destruct Hbuf as (? & ? & ? & ?). do 4 (split; [done|]). done.
    + pose proof (pi_calls _ _ Hinv) as Hcl. unfold toRecord in *. cbn in *. rewrite app_nil_r in Hcl. by apply Forall_app.
    + apply (pi_agg _ _ Hinv).
    + apply (pi_carry _ _ Hinv).
  - destruct (Requeue w b) as [b' gaps] eqn:Hp. intros [= <- <-].
    destruct (Requeue_spec _ _ _ _ Hbuf Hp) as (Hb' & Hk & Hsum & Hdrop).
    eapply (inv_enqueue _ _ w); try done.
    + unfold inHand. cbn. lia.
    + unfold toRecord. cbn. rewrite app_nil_r. apply Permutation_app_comm.
    + apply (pi_carry _ _ Hinv).
  - intros [= <- <-]. rewrite app_nil_r. destruct Hinv. destruct next; by constructor.
  - intros [= <- <-]. eapply inv_record; [exact Hinv|done..| |].
    + unfold toRecord. cbn [plCollector plReporter withReporter withGapsOf]. by rewrite Permutation_middle.
    + apply (pi_carry _ _ Hinv).
Qed.

(** Steps of the sources and of the configuration. *)
Lemma inv_source p l added g' l' :
  pipeline_inv p l → grows (plGaps p) added g' → Forall (λ x, counted (gKind x) = false) added →
  Forall (λ e, ∃ g, e = ERecorded g ∧ g ∈ added) l' → pipeline_inv (withGapsOf g' p) (l ++ l').
Proof.
  intros Hinv Hg Hu Hl. eapply (inv_gaps _ _ added); try done; [by left| |apply Hinv|apply Hinv].
  intros k Hk. rewrite (uncounted_total k added), Z.add_0_r by done. done.
Qed.

Lemma observe_inv o p l :
  pipeline_inv p l →
  pipeline_inv (withAgg (Add (plAgg p) o) p)
    (l ++ if decide (agDropped (Add (plAgg p) o) = agDropped (plAgg p)) then [] else [EDropped GapWindowOverflow 1]).
Proof.
  intros Hinv. pose proof (inv_buffer _ _ Hinv) as Hbuf.
  pose proof (pi_agg _ _ Hinv) as Ha. destruct (Add_dropped (plAgg p) o Ha) as [Hd Hrng].
  assert (∀ (L : list Effect) n, dropped GapWindowOverflow L = n → agDropped (Add (plAgg p) o) ≡₆₄ agDropped (plAgg p) + n →
    shippedGaps L = [] → recordedGaps L = [] → closedRecords L = 0 → ackedRecords L = 0 →
    (∀ k, k ≠ GapWindowOverflow → dropped k L = 0) → pipeline_inv (withAgg (Add (plAgg p) o) p) (l ++ L)) as Hgen.
  { intros L n Hn Hag H1 H2 H3 H4 H5. eapply inv_same_gaps; [exact Hinv|..]; try done; try apply Hinv.
    - rewrite H3, H4, !H5 by done. unfold inHand. cbn. lia.
    - intros k Hk. unfold toRecord, openDrops. cbn [plCollector plReporter plAgg withAgg].
      destruct (decide (k = GapWindowOverflow)) as [->|Hne].
      + rewrite Hag, Hn. unfold eqm. f_equal. lia.
      + rewrite H5 by done. unfold eqm. f_equal. lia.
    - rewrite H5 by done. rewrite Z.add_0_r. destruct Hbuf as (? & ? & ? & ?). do 4 (split; [done|]). done. }
  case_decide as Heq.
  + apply (Hgen [] 0); try done. by rewrite Heq, Z.add_0_r.
  + apply (Hgen [EDropped GapWindowOverflow 1] 1); try done.
    * destruct Hd as [?|Hd]; [done|]. rewrite Hd. apply eqm_u64.
    * intros k Hk. unfold dropped, effSum. cbn. by rewrite decide_False.
Qed.

Lemma pop_inv p l w b :
  pipeline_inv p l → plReporter p = RPop → Pop (plBuffer p) = Some (w, b) →
  pipeline_inv (withReporter (RTake w) (withBuffer b p)) l.
Proof.
  intros Hinv Hr Hp. destruct (inv_buffer _ _ Hinv) as (Hrec & Hle & Hc & Hd). unfold Pop in Hp.
  destruct (bWindows (plBuffer p)) as [|w0 ws] eqn:Hws; [done|]. injection Hp as -> <-.
  assert (bRecords (plBuffer p) = winLen w + total ws) as Hsum by (rewrite Hrec; done).
  pose proof (total_nonneg ws). assert (0 ≤ winLen w) by (unfold winLen; lia).
  rewrite <-(app_nil_r l). eapply inv_same_gaps; [exact Hinv|..]; try done; try apply Hinv.
  - unfold inFlight. by rewrite Hr.
  - change (dropped _ []) with 0. change (closedRecords []) with 0. change (ackedRecords []) with 0.
    unfold inHand. rewrite Hr. cbn [plCollector plReporter plBuffer withReporter withBuffer bRecords]. lia.
  - intros k Hk. change (dropped k []) with 0. unfold toRecord, openDrops. rewrite Hr.
    cbn [plCollector plReporter plAgg withReporter withBuffer]. by rewrite Z.add_0_r.
  - change (dropped _ []) with 0. rewrite Z.add_0_r. cbn [plBuffer withReporter withBuffer bRecords bWindows bCapacity bDropped].
    split; [lia|]. split; [lia|]. done.
  - pose proof (pi_calls _ _ Hinv) as Hcl. unfold toRecord in *. rewrite Hr in Hcl. exact Hcl.
Qed.

Lemma take_inv p l w :
  pipeline_inv p l → plReporter p = RTake w →
  pipeline_inv (withReporter (RReport w (Gaps_Take (plGaps p)).1) (withGapsOf (Gaps_Take (plGaps p)).2 p)) l.
Proof.
  intros [H1 H2 H3 H4 (Hc & Hl & Hok & Ho) H6 H7 H8 H9] Hr.
  unfold heldGaps, inHand, inFlight, toRecord in *. rewrite Hr in *. rewrite !app_nil_r in *.
  constructor; unfold heldGaps, inHand, inFlight, toRecord in *; cbn in *; try done; rewrite ?app_nil_r; try done.
  split; [exact Hc|]. split; [change (0 ≤ capacity (plGaps p)); lia|]. by split.
Qed.

Lemma acknowledged_inv p l w gaps sent :
  pipeline_inv p l → plReporter p = RReport w gaps →
  pipeline_inv (withReporter RPop (withAttempt 0 p)) (l ++ [ESent sent; EAcknowledged w gaps]).
Proof.
  intros [H1 H2 H3 H4 H5 H6 H7 H8 H9] Hr. unfold heldGaps, inHand, inFlight, toRecord in *. rewrite Hr in *.
  assert (shippedGaps [ESent sent; EAcknowledged w gaps] = gaps) as Hs by (cbn; by rewrite app_nil_r).
  constructor; unfold heldGaps, inHand, inFlight, toRecord; cbn [plCollector plReporter plGaps plBuffer plAgg withReporter withAttempt];
    rewrite ?shippedGaps_app, ?Hs, ?app_nil_r; try done.
  - unfold closedRecords, ackedRecords, dropped in *. rewrite !effSum_app. unfold effSum at 2 4 6 8. cbn. lia.
  - intros k Hk. rewrite dropped_app. change (dropped k [ESent sent; EAcknowledged w gaps]) with 0.
    rewrite Z.add_0_r, <-(H2 k Hk), !kindTotal_app, ?app_nil_r. unfold eqm, openDrops.
    cbn [plAgg withReporter withAttempt]. change (kindTotal k []) with 0. f_equal. lia.
  - rewrite recordedGaps_app. change (recordedGaps [ESent sent; EAcknowledged w gaps]) with (@nil Gap). rewrite app_nil_r.
    eapply Forall_impl; [exact H3|]. intros x. rewrite !covered_app. tauto.
  - rewrite dropped_app. change (dropped _ [ESent sent; EAcknowledged w gaps]) with 0. by rewrite Z.add_0_r.
  - split; [constructor|]. destruct H5 as (? & _). cbn. lia.
  - by rewrite app_nil_r in H7.
Qed.

Lemma failed_inv p l w gaps code sent :
  pipeline_inv p l → plReporter p = RReport w gaps →
  pipeline_inv (withReporter (RRestore w gaps code) p) (l ++ [ESent sent]).
Proof.
  intros Hinv Hr. eapply inv_same_gaps; [exact Hinv|..]; try done; try apply Hinv.
  - unfold inFlight. by rewrite Hr.
  - unfold closedRecords, ackedRecords, dropped, effSum, inHand. rewrite Hr. cbn. lia.
  - intros k Hk. change (dropped k [ESent sent]) with 0. unfold toRecord, openDrops. rewrite Hr. cbn. by rewrite Z.add_0_r.
  - change (dropped _ [ESent sent]) with 0. rewrite Z.add_0_r. destruct (inv_buffer _ _ Hinv) as (? & ? & ? & ?).
    do 4 (split; [done|]). done.
  - pose proof (pi_calls _ _ Hinv) as Hcl. unfold toRecord in *. rewrite Hr in Hcl. exact Hcl.
Qed.

Lemma restore_inv p l w gaps code r n :
  pipeline_inv p l → plReporter p = RRestore w gaps code →
  r = RReject w ∨ (∃ next, r = RRequeue w next) →
  pipeline_inv (withReporter r (withAttempt n (withGapsOf (Gaps_Restore gaps (plGaps p)) p))) l.
Proof.
  intros Hinv Hr Hnext. rewrite <-(app_nil_r l).
  destruct (pi_flight _ _ Hinv) as [Hf _]. unfold inFlight in Hf. rewrite Hr in Hf.
  eapply (inv_gaps _ _ gaps); [exact Hinv| |try done..|constructor].
  - apply Gaps_Restore_grows; [apply Hinv|done].
  - unfold inHand. rewrite Hr. by destruct Hnext as [->|[next ->]].
  - right. unfold inFlight. rewrite Hr. by destruct Hnext as [->|[next ->]].
  - intros k Hk. unfold toRecord, inFlight. rewrite Hr.
    destruct Hnext as [->|[next ->]]; cbn [plCollector plReporter withReporter withAttempt withGapsOf];
      change (kindTotal k []) with 0; by rewrite Z.add_0_r.
  - pose proof (pi_calls _ _ Hinv) as Hcl. unfold toRecord in *. rewrite Hr in Hcl. by destruct Hnext as [->|[next ->]].
  - apply Hinv.
Qed.

Lemma pstep_inv base limit e p l p' l' :
  pipeline_inv p l → pstep base limit e p = Some (p', l') → pipeline_inv p' (l ++ l').
Proof.
  intros Hinv. pose proof (pi_gaps _ _ Hinv) as Hg. pose proof Hg as (_ & _ & _ & Ho).
  destruct e as [o|gap|source kind from|source to|gapped attempt started failed bs lm draw|cfg|now at_ dn| |dn| |t now|dn draw| |dn];
    cbn [pstep].
  - intros [= <- <-]. by apply observe_inv.
  - destruct (counted (gKind gap)) eqn:Hc; [done|]. intros [= <- <-].
    apply (inv_source _ _ [gap]); [done|by apply gaps_add_grows, uncounted|by repeat constructor|].
    repeat constructor. exists gap. split; [done|left].
  - destruct (counted kind) eqn:Hc; [done|]. intros [= <- <-].
    apply (inv_source _ _ []); [done|by apply Gaps_Open_grows|constructor|constructor].
  - intros [= <- <-]. eapply inv_source; [done|by apply Gaps_Close_grows|..].
    + destruct (gsOpen (plGaps p) !! source) eqn:Hs; [|constructor]. constructor; [exact (Ho _ _ Hs)|constructor].
    + destruct (gsOpen (plGaps p) !! source) eqn:Hs; [|constructor]. constructor; [|constructor].
      eexists. split; [done|left].
  - intros [= <- <-]. apply (inv_source _ _ []); [done| |constructor|constructor]. cbn.
    destruct gapped; [by apply Gaps_Open_grows|by apply grows_refl].
  - intros [= <- <-]. rewrite app_nil_r. destruct Hinv. by constructor.
  - destruct (plCollector p) eqn:Hc; try done. destruct (closeBounds _ _ _) as [[end_ next] step]. intros [= <- <-].
    eapply (inv_gaps _ _ []); [exact Hinv|by apply CutOpen_grows|try done..|constructor].
    + unfold inHand. cbn. by rewrite Hc.
    + by left.
    + intros k Hk. unfold toRecord. cbn. by rewrite Hc, Z.add_0_r.
    + pose proof (pi_calls _ _ Hinv) as Hcl. unfold toRecord in *. rewrite Hc in Hcl. exact Hcl.
  - by apply collectorStep_inv.
  - destruct (plReporter p) eqn:Hr; try done. destruct (Pop (plBuffer p)) as [[w b]|] eqn:Hp.
    + intros [= <- <-]. rewrite app_nil_r. by apply pop_inv.
    + destruct dn; [|done]. intros [= <- <-]. rewrite app_nil_r. destruct Hinv.
      constructor; unfold heldGaps, inHand, inFlight, toRecord in *; rewrite Hr in *; done.
  - destruct (plReporter p) as [|w| | | | | | |] eqn:Hr; try done. intros [= <- <-]. rewrite app_nil_r. by apply take_inv.
  - destruct (plReporter p) as [| |w gaps| | | | | |] eqn:Hr; try done.
    destruct (report t now (plBatchMax p) w gaps) as [sent [n|code]]; intros [= <- <-].
    + by apply acknowledged_inv.
    + by apply failed_inv.
  - destruct (plReporter p) as [| | |w gaps code| | | | |] eqn:Hr; try done. cbn zeta.
    assert (∀ r, r = RReject w ∨ (∃ next, r = RRequeue w next) →
      pipeline_inv (withReporter r (withGapsOf (Gaps_Restore gaps (plGaps p)) p)) l) as Hkeep
      by (intros r Hnext; exact (restore_inv p l w gaps code r (plAttempt p) Hinv Hr Hnext)).
    destruct dn; [|case_decide]; intros [= <- <-]; rewrite app_nil_r.
    + apply Hkeep. right. by eexists.
    + apply Hkeep. by left.
    + eapply (restore_inv _ _ w gaps code); try done. right. by eexists.
  - by apply reporterStep_inv.
  - destruct (plReporter p) eqn:Hr; try done. intros [= <- <-]. rewrite app_nil_r. destruct Hinv.
    constructor; unfold heldGaps, inHand, inFlight, toRecord in *; rewrite Hr in *; by destruct dn.
Qed.

Lemma start_inv now opened windowKeys bufferRecords gapCapacity :
  gapCapacity ≤ 0 ∨ 21 ≤ gapCapacity →
  pipeline_inv (startPipeline now opened windowKeys bufferRecords gapCapacity) [].
Proof.
  intros Hcap. constructor; try done.
  - intros k Hk. unfold openDrops, toRecord, heldGaps, inFlight, eqm. cbn. by case_decide.
  - cbn. unfold DefaultBufferRecords. split; [done|]. by destruct (decide (bufferRecords ≤ 0)); split_and!; try lia.
  - unfold gaps_ok, capacity, DefaultGapCapacity. cbn. case_decide; split_and!; try done; try lia; constructor.
  - split; [constructor|]. unfold capacity, DefaultGapCapacity. cbn. case_decide; lia.
Qed.

Lemma pipeline_keeps base limit env p0 p l :
  pipeline_inv p0 [] → pipeline base limit env p0 p l → pipeline_inv p l.
Proof. intros H0. induction 1 as [|p l e p' l' _ IH _ Hs]; [done|]. by eapply pstep_inv. Qed.


(** ** What is shipped is well formed *)

(** An observation a source may report: addresses are valid, ports are 16 bits, and the
    protocol and the decision are known. *)
Definition observation_ok (o : Observation) : Prop :=
  (Addr_ok (obSrc o) ∧ obSrc o ≠ AddrZero) ∧ (Addr_ok (obDst o) ∧ obDst o ≠ AddrZero) ∧ obDstPort o ≤ 65535 ∧
  (obProtocol o = PROTOCOL_TCP ∨ obProtocol o = PROTOCOL_UDP ∨ obProtocol o = PROTOCOL_ICMP) ∧
  (obDecision o = POLICY_DECISION_OBSERVED ∨ obDecision o = POLICY_DECISION_ALLOWED ∨
   obDecision o = POLICY_DECISION_WOULD_BLOCK ∨ obDecision o = POLICY_DECISION_BLOCKED) ∧
  (String.length (obRuleID o) ≤ maxFieldLength ∧ String.length (obProcessName o) ≤ maxFieldLength)%nat.

(** The sources report such observations, and the monotonic clock never runs back. *)
Definition wellBehaved (e : Event) (p : Pipeline) : Prop :=
  match e with
  | Observe o => observation_ok o
  | Rotate _ at_ _ => plOpened p ≤ at_ < plOpened p + 2 ^ 63
  | _ => True
  end.

Definition window_ok (w : Window) : Prop :=
  winStart w ≤ winEnd w ∧ ∀ r, r ∈ winRecords w → flow_ok (received r) (winStart w) (winEnd w).

Definition record_ok (k : Key) (r : record) : Prop :=
  ∃ o, observation_ok o ∧ keyOf o = k ∧ rcFirst r ≤ rcLast r ∧ (String.length (rcProcess r) ≤ maxFieldLength)%nat.

Definition agg_ok (a : Aggregator) : Prop := map_Forall record_ok (agRecords a).

Lemma Add_ok a o : agg_ok a → observation_ok o → agg_ok (Add a o).
Proof.
  intros Ha Ho. unfold Add.
  assert (∀ r, rcFirst r ≤ rcLast r → (String.length (rcProcess r) ≤ maxFieldLength)%nat →
    record_ok (keyOf o) (addTo r o)) as Hadd.
  { intros r Hr Hp. exists o. split_and!; [done|done|cbn; repeat case_decide; lia|].
    cbn. case_decide; [done|]. apply Ho. }
  destruct (agRecords a !! keyOf o) as [r|] eqn:Hl; [|case_decide]; unfold agg_ok; cbn; [|done|].
  - apply map_Forall_insert_2; [|done]. destruct (Ha _ _ Hl) as (_ & _ & _ & Hr & Hp). by apply Hadd.
  - apply map_Forall_insert_2; [|done]. apply Hadd; cbn; [lia|]. unfold maxFieldLength. lia.
Qed.

(** A window closed in order is well formed, whether or not its instants are held. *)
Lemma close_ok a end_ next within w a' gaps :
  close a end_ next within = (w, a', gaps) → agg_ok a → agStart a ≤ end_ → window_ok w ∧ agg_ok a'.
Proof.
  unfold close. intros [= <- <- _] Ha Hle. split; [|by apply map_Forall_empty]. split; [done|].
  intros fr (k & _ & Hk)%list_elem_of_omap. cbn [winStart winEnd].
  destruct (agRecords a !! k) as [r|] eqn:Hl; [|done]. cbn in Hk. injection Hk as <-.
  destruct (Ha _ _ Hl) as (o & ((Hs & Hsz) & (Hd & Hdz) & Hport & Hproto & Hdec & Hf) & <- & Hr & Hp).
  constructor; cbn; try done.
  - rewrite ParseAddr_String by done. eauto.
  - rewrite ParseAddr_String by done. eauto.
  - split; [apply Hf|exact Hp].
  - destruct within; cbn; [|done]. repeat case_decide; lia.
Qed.

Lemma closeBounds_ordered start now elapsed end_ next step :
  0 ≤ elapsed → closeBounds start now elapsed = (end_, next, step) → start ≤ end_.
Proof.
  intros He. unfold closeBounds, timeSub. repeat case_decide; intros [= <- _ _]; lia.
Qed.

(** Trimming keeps whole windows, or the newest records of one. *)
Lemma trim_ok b : Forall window_ok (bWindows b) → Forall window_ok (bWindows (trim b).1).
Proof.
  intros Hb. assert (∀ ws n cap d, Forall window_ok ws → Forall window_ok (trimLoop ws n cap d).1.1.1) as Hloop.
  { induction ws as [|w ws IH]; intros n cap d Hws; cbn [trimLoop]; [done|]. destruct ws as [|w2 ws]; [done|].
    case_decide; [|done]. destruct (overflow w (winLen w) d) as [d1 g1]. apply Forall_cons in Hws as [_ Hws].
    specialize (IH (n - winLen w) cap d1 Hws). by destruct (trimLoop (w2 :: ws) _ _ _) as [[[ws1 n1] d2] g2]. }
  unfold trim. specialize (Hloop (bWindows b) (bRecords b) (bCapacity b) (bDropped b) Hb).
  destruct (trimLoop _ _ _ _) as [[[ws n] d] gaps]. cbn [fst] in Hloop.
  destruct ws as [|w [|? ?]]; try done. case_decide; [|done]. cbn zeta. destruct (overflow _ _ d) as [d' g'].
  apply Forall_cons in Hloop as [[Hord Hrec] _]. constructor; [|constructor]. split; [done|].
  intros r Hr. apply Hrec. rewrite <-(take_drop (Z.to_nat (n - bCapacity b)) (winRecords w)), elem_of_app. by right.
Qed.

Lemma Push_ok w b : window_ok w → Forall window_ok (bWindows b) → Forall window_ok (bWindows (Push w b).1).
Proof.
  intros Hw Hb. unfold Push. case_decide; [done|]. apply trim_ok, Forall_app. split; [done|]. by constructor.
Qed.

Lemma Requeue_ok w b : window_ok w → Forall window_ok (bWindows b) → Forall window_ok (bWindows (Requeue w b).1).
Proof. intros Hw Hb. unfold Requeue. case_decide; [done|]. apply trim_ok. by constructor. Qed.

(** The windows the goroutines hold. *)
Definition collecting (c : CollectorAt) : list Window :=
  match c with COverflow w _ _ | CCarry w | CPush w _ => [w] | _ => [] end.
Definition reporting (r : ReporterAt) : list Window :=
  match r with RTake w | RReport w _ | RRestore w _ _ | RReject w | RRequeue w _ => [w] | _ => [] end.

Record windows_ok (p : Pipeline) : Prop := {
  wo_agg : agg_ok (plAgg p);
  wo_closing e n s f : plCollector p = CClosing e n s f → agStart (plAgg p) ≤ e;
  wo_collector : Forall window_ok (collecting (plCollector p));
  wo_buffer : Forall window_ok (bWindows (plBuffer p));
  wo_reporter : Forall window_ok (reporting (plReporter p));
}.

(** The step of [pstep] keeps them, for a well-behaved event. *)

Local Ltac keep_windows := constructor; try done; cbn in *; auto using Forall_nil_2, Forall_cons_2.

Lemma collectorStep_ok p p' l' : windows_ok p → collectorStep p = Some (p', l') → windows_ok p'.
Proof.
  intros [Ha Hcl Hc Hb Hr]. destruct p as [agg opened b g win bm c r att]. unfold collectorStep.
  cbn [plCollector plAgg plGaps plBuffer plReporter] in *.
  destruct c as [|end_ next step final|w [|g0 gaps] final|w|w final|[|g0 gaps] final|]; try done.
  - destruct (if decide (step = 0) then _ else _) as [[w a] gaps] eqn:Heq. intros [= <- _].
    assert (window_ok w ∧ agg_ok a) as [Hw Ha'].
    { specialize (Hcl _ _ _ _ eq_refl). unfold Close, Cut in Heq. case_decide; by eapply close_ok. }
    keep_windows.
  - destruct (negb final && _ && _); intros [= <- _]; keep_windows.
  - intros [= <- _]. keep_windows.
  - intros [= <- _]. apply Forall_cons in Hc as [Hw _]. constructor; try done. cbn. unfold Carry.
    destruct (bWindows b) eqn:Hws; [by constructor|by rewrite Hws].
  - destruct (Push w b) as [b' gaps] eqn:Hp. intros [= <- _]. apply Forall_cons in Hc as [Hw _].
    pose proof (Push_ok w b Hw Hb) as Hb'. rewrite Hp in Hb'. keep_windows.
  - intros [= <- _]. destruct final; keep_windows.
  - intros [= <- _]. keep_windows.
Qed.

Lemma reporterStep_ok p p' l' : windows_ok p → reporterStep p = Some (p', l') → windows_ok p'.
Proof.
  intros [Ha Hcl Hc Hb Hr]. destruct p as [agg opened b g win bm c r att]. unfold reporterStep.
  cbn [plCollector plAgg plGaps plBuffer plReporter] in *.
  destruct r as [|w|w gaps|w gaps code|w|w next|[|g0 gaps] next|wait|]; try done.
  - intros [= <- _]. keep_windows.
  - destruct (Requeue w b) as [b' gaps] eqn:Hp. intros [= <- _]. apply Forall_cons in Hr as [Hw _].
    pose proof (Requeue_ok w b Hw Hb) as Hb'. rewrite Hp in Hb'. keep_windows.
  - intros [= <- _]. destruct next; keep_windows.
  - intros [= <- _]. keep_windows.
Qed.

Lemma pstep_ok base limit e p p' l' :
  windows_ok p → wellBehaved e p → pstep base limit e p = Some (p', l') → windows_ok p'.
Proof.
  intros Hok. pose proof Hok as [Ha Hcl Hc Hb Hr].
  destruct e as [o|gap|source kind from|source to|gapped attempt started failed bs lm draw|cfg|now at_ dn| |dn| |t now|dn draw| |dn];
    cbn [pstep wellBehaved]; intros Henv.
  - intros [= <- _]. constructor; try done; cbn; [by apply Add_ok|]. intros e n s f Hp. specialize (Hcl _ _ _ _ Hp).
    unfold Add. destruct (agRecords (plAgg p) !! keyOf o); [done|]. by case_decide.
  - destruct (counted (gKind gap)); [done|]. intros [= <- _]. keep_windows.
  - destruct (counted kind); [done|]. intros [= <- _]. keep_windows.
  - intros [= <- _]. keep_windows.
  - intros [= <- _]. keep_windows.
  - intros [= <- _]. keep_windows.
  - destruct (plCollector p) eqn:Hp; try done. destruct (closeBounds _ _ _) as [[end_ next] step] eqn:Hcb. intros [= <- _].
    constructor; try done; cbn. intros e n s f [= <- <- <- <-]. eapply closeBounds_ordered; [|exact Hcb].
    rewrite i64_small; lia.
  - by apply collectorStep_ok.
  - destruct (plReporter p) eqn:Hp; try done. unfold Pop. destruct (bWindows (plBuffer p)) as [|w ws] eqn:Hws.
    + destruct dn; [|done]. intros [= <- _]. constructor; try done. cbn. by rewrite Hws.
    + intros [= <- _]. apply Forall_cons in Hb as [Hw Hb]. keep_windows.
  - destruct (plReporter p) eqn:Hp; try done. intros [= <- _]. keep_windows.
  - destruct (plReporter p) as [| |w gaps| | | | | |] eqn:Hp; try done. destruct (report _ _ _ _ _) as [sent [n|code]]; intros [= <- _]; keep_windows.
  - destruct (plReporter p) eqn:Hp; try done. cbn zeta. destruct dn; [|case_decide]; intros [= <- _]; keep_windows.
  - by apply reporterStep_ok.
  - destruct (plReporter p) eqn:Hp; try done. intros [= <- _]. destruct dn; keep_windows.
Qed.

(** ** What a report carries *)

Lemma chunks_spec {A} (n : nat) : (0 < n)%nat → ∀ fuel (l : list A), (length l ≤ fuel)%nat →
  mjoin (chunks fuel n l) = l ∧ Forall (λ c, (length c ≤ n)%nat) (chunks fuel n l).
Proof.
  intros Hn. induction fuel as [|fuel IH]; intros l Hl.
  { destruct l; [|cbn in Hl; lia]. by split; [|constructor]. }
  destruct l as [|x l]; [by split; [|constructor]|].
  destruct (IH (drop n (x :: l))) as [Hj Hb].
  { rewrite length_drop. cbn [length] in *. lia. }
  cbn [chunks mjoin list_join]. split.
  - change (take n (x :: l) ++ mjoin (chunks fuel n (drop n (x :: l))) = x :: l). by rewrite Hj, take_drop.
  - constructor; [|exact Hb]. rewrite length_take. lia.
Qed.

(** The requests of a window: its bounds on each, its records in order over all, at
    most a batch in each, and the gaps on the first. *)
Definition requests_of (w : Window) (max : Z) (reqs : list ReportFlowsRequest) : Prop :=
  Forall (λ r, rqWindowStart r = Some (winStart w) ∧ rqWindowEnd r = Some (winEnd w) ∧
    Z.of_nat (length (rqRecords r)) ≤ max) reqs.

Lemma Batches_spec w max :
  0 < max →
  requests_of w max (Batches w max) ∧ Batches w max ≠ [] ∧
  (Batches w max ≫= rqRecords) = received <$> winRecords w ∧ (Batches w max ≫= rqGaps) = [].
Proof.
  intros Hm. unfold Batches. cbn zeta. rewrite decide_False by lia.
  destruct (winRecords w) as [|r0 rs] eqn:Hrs.
  { split_and!; [|done|done|done]. constructor; [|constructor]. do 2 (split; [done|]). change (0 ≤ max). lia. }
  destruct (chunks_spec (Z.to_nat max) ltac:(lia) (length (r0 :: rs)) (r0 :: rs) ltac:(done)) as [Hj Hb].
  set (cs := chunks _ _ _) in *.
  assert (requests_of w max (batchOf w <$> cs)) as Hreq.
  { unfold requests_of. apply Forall_fmap. eapply Forall_impl; [exact Hb|]. intros c Hc.
    do 2 (split; [done|]). cbn [batchOf rqRecords]. rewrite length_fmap. cbn beta in Hc. lia. }
  split; [exact Hreq|]. split; [by destruct cs|]. rewrite <-Hj. clear. split.
  - induction cs as [|c cs IH]; [done|]. cbn. rewrite fmap_app. f_equal. exact IH.
  - by induction cs as [|c cs IH].
Qed.

Lemma withGaps_spec w max gaps reqs :
  requests_of w max reqs → reqs ≠ [] → (reqs ≫= rqGaps) = [] →
  requests_of w max (withGaps gaps reqs) ∧ (withGaps gaps reqs ≫= rqRecords) = (reqs ≫= rqRecords) ∧
  (withGaps gaps reqs ≫= rqGaps) = Gap_Wire <$> gaps.
Proof.
  intros Hr Hne Hg. destruct reqs as [|r rest]; [done|]. cbn in Hg. apply app_eq_nil in Hg as [Hg1 Hg2].
  apply Forall_cons in Hr as [Hr1 Hr2]. cbn. split_and!; [by constructor|done|].
  rewrite Hg1. cbn. change (rest ≫= rqGaps) with (rest ≫= rqGaps) in Hg2.
  etrans; [apply (f_equal (app _)); exact Hg2|]. apply app_nil_r.
Qed.

(** What was sent of the requests, and all of it without an error. *)
Definition carried (w : Window) (max : Z) (reqs sent : list ReportFlowsRequest) (complete : Prop) : Prop :=
  requests_of w max sent ∧ (∀ x, x ∈ (sent ≫= rqRecords) → x ∈ (reqs ≫= rqRecords)) ∧
  (∃ rest, (reqs ≫= rqGaps) = (sent ≫= rqGaps) ++ rest) ∧
  (complete → (sent ≫= rqRecords) = (reqs ≫= rqRecords) ∧ (sent ≫= rqGaps) = (reqs ≫= rqGaps)).

Lemma sendAll_spec t now w max i reqs sent err :
  sendAll t now i reqs = (sent, err) → requests_of w max reqs → carried w max reqs sent (err = None).
Proof.
  revert i sent err. induction reqs as [|r reqs IH]; intros i sent err; cbn [sendAll].
  { intros [= <- <-] Hr. split_and!; try done. by exists []. }
  assert (∀ e, ([], Some e) = (sent, err) → requests_of w max (r :: reqs) → carried w max (r :: reqs) sent (err = None)) as Hfail.
  { intros e [= <- <-] _. split_and!; [constructor|by intros x ?%elem_of_nil|by eexists|done]. }
  destruct (tSend t i) as [[|code]|]; [apply Hfail|apply Hfail|].
  destruct (sendAll t now (S i) reqs) as [sent' err'] eqn:Hs. intros [= <- <-] [Hr1 Hr2]%Forall_cons.
  destruct (IH _ _ _ Hs Hr2) as (Hok & Hin & (rest & Hrest) & Hall). unfold carried.
  cbn [mbind list_bind stamp rqRecords rqGaps].
  split; [by constructor|]. split; [|split].
  - intros x. rewrite !elem_of_app. intros [?|Hx]; [by left|right; by apply Hin].
  - exists rest. rewrite <-app_assoc. f_equal. exact Hrest.
  - intros He. destruct (Hall He) as [H1 H2]. split; f_equal; [exact H1|exact H2].
Qed.

Lemma report_spec t now batchMax w gaps sent res :
  report t now batchMax w gaps = (sent, res) →
  requests_of w (BatchMax batchMax) sent ∧
  (∀ x, x ∈ (sent ≫= rqRecords) → ∃ r, r ∈ winRecords w ∧ x = received r) ∧
  (∃ rest, Gap_Wire <$> gaps = (sent ≫= rqGaps) ++ rest) ∧
  (∀ n, res = Ok n → (sent ≫= rqRecords) = received <$> winRecords w ∧ (sent ≫= rqGaps) = Gap_Wire <$> gaps).
Proof.
  assert (0 < BatchMax batchMax) as Hpos by (unfold BatchMax, DefaultBatchMax; case_decide; lia).
  destruct (Batches_spec w _ Hpos) as (Hb & Hne & Hrec & Hg).
  destruct (withGaps_spec w _ gaps _ Hb Hne Hg) as (Hb' & Hrec' & Hg').
  assert (∀ e, ([], Err e) = (sent, res) →
    requests_of w (BatchMax batchMax) sent ∧
    (∀ x, x ∈ (sent ≫= rqRecords) → ∃ r, r ∈ winRecords w ∧ x = received r) ∧
    (∃ rest, Gap_Wire <$> gaps = (sent ≫= rqGaps) ++ rest) ∧
    (∀ n, res = Ok n → (sent ≫= rqRecords) = received <$> winRecords w ∧ (sent ≫= rqGaps) = Gap_Wire <$> gaps)) as Hfail.
  { intros e [= <- <-]. split_and!; [constructor|by intros x ?%elem_of_nil|by eexists|done]. }
  unfold report. destruct (tDial t); [apply Hfail|]. destruct (tOpen t); [apply Hfail|].
  destruct (sendAll _ _ _ _) as [sent' err] eqn:Hs.
  destruct (sendAll_spec _ _ _ _ _ _ _ _ Hs Hb') as (Hok & Hin & (rest & Hrest) & Hall).
  intros Heq. assert (sent = sent') as -> by (by destruct err; injection Heq). split; [done|]. split; [|split].
  - intros x Hx%Hin. rewrite Hrec', Hrec in Hx. apply list_elem_of_fmap in Hx as (r & -> & Hr). eauto.
  - exists rest. by rewrite <-Hg'.
  - intros n ->. destruct err; [done|]. destruct (Hall eq_refl) as [-> ->]. by rewrite Hrec', Hrec, Hg'.
Qed.

(** ** The control plane accepts it *)

Lemma convertRecords_all `{UUIDLib} idx start end_ frs :
  (∀ fr, fr ∈ frs → flow_ok fr start end_) → (convertRecords idx start end_ frs).2 = 0%nat.
Proof.
  induction frs as [|fr frs IH]; intros Hok; [done|]. cbn [convertRecords].
  specialize (IH (λ x Hx, Hok x (list_elem_of_further x fr frs Hx))). destruct (convertRecords idx start end_ frs) as [recs n].
  pose proof (convert_exact fr start end_) as Hc. destruct (convert fr start end_); [done|].
  destruct Hc. apply Hok. left.
Qed.

Lemma Gap_Wire_converts g :
  gap_ok g → default 0 (gCount g) < 2 ^ 63 → ∃ fg, convertGap (Gap_Wire g) = Ok fg.
Proof.
  intros [_ Hord] Hc. unfold convertGap, Gap_Wire. cbn.
  destruct (gKind g), (gSource g); cbn; rewrite decide_False by lia;
    (destruct (gCount g) as [n|]; cbn in Hc; [rewrite decide_False by lia|]; by eexists).
Qed.

Lemma convertGaps_all i wgs :
  (i + length wgs ≤ MaxGapsPerRequest)%nat → (∀ g, g ∈ wgs → ∃ fg, convertGap g = Ok fg) →
  (convertGaps i wgs).2 = 0%nat.
Proof.
  revert i. induction wgs as [|g wgs IH]; intros i Hlen Hok; [done|]. cbn [convertGaps].
  cbn [length] in Hlen. rewrite decide_False by lia.
  specialize (IH (S i) ltac:(lia) (λ x Hx, Hok x (list_elem_of_further x g wgs Hx))).
  destruct (convertGaps (S i) wgs) as [gaps n]. destruct (Hok g (list_elem_of_here g wgs)) as [fg ->]. exact IH.
Qed.

(** A request in order, of good records and gaps, is not refused and loses none. *)
Lemma Ingest_accepts `{UUIDLib} {St} `{!IngestStore St} hasReports hasClock window id req at_ (s : St) res err s' start end_ :
  rqWindowStart req = Some start → rqWindowEnd req = Some end_ → start ≤ end_ →
  (∀ fr, fr ∈ rqRecords req → flow_ok fr start end_) →
  Ingest hasReports hasClock window id req at_ s = (res, err, s') →
  err ≠ Some ErrInvalidWindow ∧ irRejected res = 0%nat ∧ ((convertGaps 0 (rqGaps req)).2 = 0%nat → irGapsRejected res = 0%nat).
Proof.
  intros Hs He Hle Hok. unfold Ingest. destruct (ig_ListWorkloads s) as [[workloads|] s1]; [|by intros [= <- <- <-]].
  destruct (list_find _ workloads) as [[i r]|]; [|by intros [= <- <- <-]].
  destruct (wRetiredAt r); [by intros [= <- <- <-]|]. destruct (recordReport _ _ _ s1) as [rc s2].
  destruct (match rc with Some _ => _ | None => _ end) as [derived s3].
  generalize (checkClock hasClock window id req at_ s3). intros s4. unfold storeWindow. rewrite Hs, He.
  rewrite decide_False by lia. destruct (ig_ListAddressGroups s4) as [[groups|] s5]; [|by intros [= <- <- <-]].
  pose proof (convertRecords_all (BuildIndex workloads groups) start end_ (rqRecords req) Hok) as Hz.
  destruct (convertRecords _ _ _ _) as [recs n]. destruct (convertGaps 0 (rqGaps req)) as [gaps m]. cbn in Hz. subst n.
  destruct (ig_WriteWindow _ s5) as [[c|] s6]; by intros [= <- <- <-].
Qed.

Definition quiet (x : Effect) : Prop := match x with ESent _ | EAcknowledged _ _ => False | _ => True end.

(** Only a report sends, and an acknowledgement follows what it acknowledges. *)
Lemma pstep_sends base limit e p p' l' :
  pstep base limit e p = Some (p', l') →
  (∀ x, x ∈ l' → (∀ reqs, x ≠ ESent reqs) ∧ ∀ w gaps, x ≠ EAcknowledged w gaps) ∨
  ∃ t now w gaps sent res, plReporter p = RReport w gaps ∧ report t now (plBatchMax p) w gaps = (sent, res) ∧
    (l' = [ESent sent] ∨ l' = [ESent sent; EAcknowledged w gaps] ∧ ∃ n, res = Ok n).
Proof.
  assert (∀ L : list Effect, (∀ x, x ∈ L → quiet x) →
    ∀ x, x ∈ L → (∀ reqs, x ≠ ESent reqs) ∧ ∀ w gaps, x ≠ EAcknowledged w gaps) as Hq.
  { intros L HL x Hx. specialize (HL x Hx). by destruct x. }
  assert (∀ gaps x, x ∈ trimmed gaps → quiet x) as Htr by (intros gaps x (g & -> & _)%list_elem_of_fmap; done).
  assert (∀ y x, quiet y → x ∈ [y] → quiet x) as Hone by (intros y x Hy ->%list_elem_of_singleton; done).
  assert (∀ x, x ∈ @nil Effect → quiet x) as Hnil by (by intros x ?%elem_of_nil).
  destruct e; cbn [pstep].
  11:{ destruct (plReporter p) as [| |w gaps| | | | | |] eqn:Hr; try done.
       destruct (report t now (plBatchMax p) w gaps) as [sent [n|code]] eqn:Hrep; intros [= <- <-]; right;
         exists t, now, w, gaps, sent; eexists; eauto 10. }
  all: intros Hs; left; apply Hq; revert Hs.
  all: unfold collectorStep, reporterStep; intros Hs; repeat case_match; simplify_eq; eauto; intros x Hx;
    by apply (λ Hy, Hone _ x Hy Hx).
Qed.

Lemma start_ok now opened windowKeys bufferRecords gapCapacity :
  windows_ok (startPipeline now opened windowKeys bufferRecords gapCapacity).
Proof. constructor; try done; cbn; constructor. Qed.

(** The gaps' capacity is configured once. *)
Lemma grows_capacity g added g' : grows g added g' → gsCapacity g' = gsCapacity g.
Proof. by intros (_ & [Hc _] & _). Qed.

Lemma pstep_capacity base limit e p l p' l' :
  pipeline_inv p l → pstep base limit e p = Some (p', l') → gsCapacity (plGaps p') = gsCapacity (plGaps p).
Proof.
  intros Hinv. pose proof (pi_gaps _ _ Hinv) as Hg.
  destruct e; cbn [pstep]; unfold collectorStep, reporterStep; intros Hs; repeat case_match; simplify_eq; try done.
  - exact (grows_capacity _ _ _ (Gaps_Open_grows source kind from (plGaps p) Hg ltac:(done))).
  - exact (grows_capacity _ _ _ (Gaps_Close_grows source to (plGaps p) Hg)).
  - exact (grows_capacity _ _ _ (Gaps_Close_grows source to (plGaps p) Hg)).
  - cbn. destruct gapped as [name|]; [|done].
    exact (grows_capacity _ _ _ (Gaps_Open_grows name GapSourceRestart failed (plGaps p) Hg eq_refl)).
  - exact (grows_capacity _ _ _ (CutOpen_grows _ _ Hg)).
  - match goal with H : Gaps_Take _ = _ |- _ => injection H as _ <- end. done.
  - by destruct gaps.
  - by destruct gaps.
  - by destruct gaps.
Qed.

Lemma wellBehaved_run base limit now opened windowKeys bufferRecords gapCapacity p l :
  gapCapacity ≤ 0 ∨ 21 ≤ gapCapacity →
  pipeline base limit wellBehaved (startPipeline now opened windowKeys bufferRecords gapCapacity) p l →
  pipeline_inv p l ∧ windows_ok p ∧ gsCapacity (plGaps p) = gapCapacity.
Proof.
  intros Hcap. induction 1 as [|p l e p' l' _ (Hi & Hw & Hc) Henv Hs].
  - split; [by apply start_inv|]. split; [apply start_ok|done].
  - split; [by eapply pstep_inv|]. split; [by eapply pstep_ok|]. rewrite <-Hc. by eapply pstep_capacity.
Qed.

(** What the requests of one report, and its acknowledgement, satisfy. *)
Definition request_accepted (req : ReportFlowsRequest) : Prop :=
  ∀ (U : UUIDLib) (St : Type) (I : IngestStore St) hasReports hasClock window id at_ (s : St) res err s',
    Ingest hasReports hasClock window id req at_ s = (res, err, s') →
    err ≠ Some ErrInvalidWindow ∧ irRejected res = 0%nat ∧
    (Forall (λ g, default 0 (egCount g) < 2 ^ 63) (rqGaps req) → irGapsRejected res = 0%nat).

Lemma report_accepted t now batchMax w gaps sent res req :
  report t now batchMax w gaps = (sent, res) → window_ok w → Forall gap_ok gaps →
  (length gaps ≤ MaxGapsPerRequest)%nat → req ∈ sent → request_accepted req.
Proof.
  intros Hrep [Hord Hrec] Hg Hlen Hreq. destruct (report_spec _ _ _ _ _ _ _ Hrep) as (Hof & Hin & (rest & Hgaps) & _).
  unfold requests_of in Hof. rewrite Forall_forall in Hof. destruct (Hof req Hreq) as (Hs & He & _).
  assert (∀ x, x ∈ rqGaps req → ∃ g, g ∈ gaps ∧ x = Gap_Wire g) as Hgin.
  { intros x Hx. assert (x ∈ Gap_Wire <$> gaps) as (g & -> & Hgg)%list_elem_of_fmap; [|by eauto].
    rewrite Hgaps, elem_of_app. left. apply list_elem_of_bind. eauto. }
  assert (length (rqGaps req) ≤ length gaps)%nat as Hglen.
  { rewrite <-(length_fmap Gap_Wire), Hgaps, length_app. apply list_elem_of_split in Hreq as (l1 & l2 & ->).
    rewrite bind_app, length_app. cbn [mbind list_bind]. rewrite length_app. lia. }
  intros U St I hasReports hasClock window id at_ s r err s' Hing.
  destruct (Ingest_accepts _ _ _ _ _ _ _ _ _ _ _ _ Hs He Hord
    (λ fr Hfr, ltac:(destruct (Hin fr) as (x & Hx & ->); [apply list_elem_of_bind; eauto|by apply Hrec])) Hing)
    as (H1 & H2 & H3).
  split; [done|]. split; [done|]. intros Hcnt. apply H3, convertGaps_all; [lia|]. intros x Hx.
  rewrite Forall_forall in Hcnt. specialize (Hcnt x Hx). destruct (Hgin x Hx) as (g & Hgg & ->).
  apply Gap_Wire_converts; [|exact Hcnt]. rewrite Forall_forall in Hg. by apply Hg.
Qed.

(** C38: what the agent ships is well formed for the control plane.  As long as the sources
    report valid observations and the monotonic clock does not run back, and however the
    wall clock is stepped: no request of a report is refused for its window, no record of it
    is rejected, and no gap either, unless its count left 63 bits; and an acknowledged
    report carried every record of its window, once and in order, and every gap taken. *)
Theorem Shipped_accepted base limit now opened windowKeys bufferRecords gapCapacity p l :
  gapCapacity ≤ 0 ∨ 21 ≤ gapCapacity ≤ 4096 →
  pipeline base limit wellBehaved (startPipeline now opened windowKeys bufferRecords gapCapacity) p l →
  (∀ reqs req, ESent reqs ∈ l → req ∈ reqs → request_accepted req) ∧
  (∀ i w gaps, l !! i = Some (EAcknowledged w gaps) → ∃ j sent, i = S j ∧ l !! j = Some (ESent sent) ∧
     (sent ≫= rqRecords) = received <$> winRecords w ∧ (sent ≫= rqGaps) = Gap_Wire <$> gaps).
Proof.
  intros Hcap. assert (gapCapacity ≤ 0 ∨ 21 ≤ gapCapacity) as Hcap' by lia.
  induction 1 as [|p l e p' l' Hrun [IH1 IH2] Henv Hs].
  { split; [by intros ? ? ?%elem_of_nil|]. intros i w gaps. by rewrite lookup_nil. }
  destruct (wellBehaved_run _ _ _ _ _ _ _ _ _ Hcap' Hrun) as (Hinv & Hw & Hc).
  destruct (pstep_sends _ _ _ _ _ _ Hs) as [Hquiet|(t & clk & w & gaps & sent & res & Hr & Hrep & Hl')].
  - split.
    + intros reqs req [Hin|Hin]%elem_of_app; [by apply IH1|]. by destruct (proj1 (Hquiet _ Hin) reqs).
    + intros i w gaps [Hi|[Hlen Hi]]%lookup_app_Some.
      * destruct (IH2 _ _ _ Hi) as (j & sent & -> & Hj & H1 & H2). exists j, sent. split_and!; try done.
        by apply lookup_app_l_Some.
      * apply list_elem_of_lookup_2 in Hi. by destruct (proj2 (Hquiet _ Hi) w gaps).
  - assert (∀ req, req ∈ sent → request_accepted req) as Hacc.
    { intros req. destruct (pi_flight _ _ Hinv) as [Hf Hroom]. pose proof (wo_reporter _ Hw) as Hrw.
      unfold inFlight in Hf, Hroom. rewrite Hr in Hf, Hroom, Hrw. apply Forall_cons in Hrw as [Hrw _].
      eapply report_accepted; try done.
      change (Z.of_nat (length gaps) ≤ capacity (plGaps p)) in Hroom. unfold capacity, DefaultGapCapacity in Hroom. rewrite Hc in Hroom.
      unfold MaxGapsPerRequest. case_decide; lia. }
    split.
    + intros reqs req [Hin|Hin]%elem_of_app; [by apply IH1|]. destruct Hl' as [->|[-> _]]; set_solver.
    + intros i w0 gaps0 [Hi|[Hlen Hi]]%lookup_app_Some.
      * destruct (IH2 _ _ _ Hi) as (j & sent0 & -> & Hj & H1 & H2). exists j, sent0. split_and!; try done.
        by apply lookup_app_l_Some.
      * destruct Hl' as [->|[-> [n ->]]]; [by destruct (i - length l)%nat as [|[|]]|].
        destruct (i - length l)%nat as [|[|k]] eqn:Hk; [done| |done]. injection Hi as -> ->.
        exists (length l), sent. split; [lia|]. split; [by rewrite lookup_app_r, Nat.sub_diag by lia|].
        by apply (report_spec _ _ _ _ _ _ _ Hrep) with n.
Qed.

(** ** A run *)

Module CollectorExample.

Fixpoint prun (es : list Event) (p : Pipeline) : option (Pipeline * list Effect) :=
  match es with
  | [] => Some (p, [])
  | e :: es' =>
      '(p1, l1) ← pstep second (300 * second) e p;
      '(p2, l2) ← prun es' p1;
      Some (p2, l1 ++ l2)
  end.

Fixpoint along (env : Event → Pipeline → Prop) (es : list Event) (p : Pipeline) : Prop :=
  match es with
  | [] => True
  | e :: es' => env e p ∧ match pstep second (300 * second) e p with Some (p1, _) => along env es' p1 | None => True end
  end.

Lemma prun_pipeline env p0 es p l p' l' :
  pipeline second (300 * second) env p0 p l → along env es p → prun es p = Some (p', l') →
  pipeline second (300 * second) env p0 p' (l ++ l').
Proof.
  revert p l l'. induction es as [|e es IH]; intros p l l' Hrun Hal; cbn [prun].
  - intros [= <- <-]. by rewrite app_nil_r.
  - destruct Hal as [He Hal]. destruct (pstep _ _ e p) as [[p1 l1]|] eqn:Hs; [|done]. cbn.
    destruct (prun es p1) as [[p2 l2]|] eqn:Hp; [|done]. cbn. intros [= <- <-]. rewrite app_assoc.
    eapply IH; [|exact Hal|exact Hp]. by eapply pl_step.
Qed.

Lemma along_cons env e es p : env e p → (∀ p1, along env es p1) → along env (e :: es) p.
Proof. intros He Hes. split; [done|]. by destruct (pstep _ _ e p) as [[p1 l1]|]. Qed.

Lemma along_observe o es p :
  observation_ok o → along wellBehaved es (withAgg (Add (plAgg p) o) p) → along wellBehaved (Observe o :: es) p.
Proof. by split. Qed.

Definition flow (port : Z) (at_ : Z) : Observation :=
  MkObservation at_ (Addr4 167772161) (Addr4 167772162) port PROTOCOL_TCP POLICY_DECISION_ALLOWED "web" 1 512 "nginx".

(** A connection that loses the stream once and then answers. *)
Definition down : Transport := MkTransport None None (λ _, Some SendEOF) (Err 14).
Definition up : Transport := MkTransport None None (λ _, None) (Ok 1).

(** Two flows are seen; the wall clock is set back; the window is cut, and the buffer
    has room for one record; the first report fails, the second is acknowledged. *)
Definition events : list Event :=
  [Observe (flow 80 105); Observe (flow 443 106); Rotate (- 7 * second) (60 * second) false]
  ++ repeat CollectorStep 5
  ++ [ReporterPop false; ReporterTake; ReporterReport down (λ _, 107); ReporterRestore false (λ _, 5)]
  ++ repeat ReporterStep 2
  ++ [ReporterWaited false; ReporterPop false; ReporterTake; ReporterReport up (λ _, 109)].

Definition start : Pipeline := startPipeline 100 0 0 1 0.
Definition final : Pipeline * list Effect := Eval vm_compute in default (start, []) (prun events start).
End CollectorExample.

Import CollectorExample.

Lemma flow_ok' port at_ : port ≤ 65535 → observation_ok (flow port at_).
Proof.
  intros Hp. split_and!; try done; cbn; unfold maxFieldLength; try lia; auto.
Qed.

Lemma example_run : pipeline second (300 * second) wellBehaved start final.1 final.2.
Proof.
  apply (prun_pipeline _ _ events start []); [constructor| |reflexivity].
  apply along_observe; [by apply flow_ok'|]. apply along_observe; [by apply flow_ok'|].
  apply along_cons; [cbn; unfold second; lia|]. repeat (intros ?; apply along_cons; [done|]). by intros.
Qed.


Lemma Shipped_accepted_witness :
  ∃ reqs req, ESent reqs ∈ final.2 ∧ req ∈ reqs ∧ length (rqRecords req) = 1%nat ∧ length (rqGaps req) = 1%nat ∧
    request_accepted req.
Proof.
  destruct (Shipped_accepted second (300 * second) 100 0 0 1 0 final.1 final.2) as (H1 & _).
  - left. vm_compute. discriminate.
  - exact example_run.
  - eexists. eexists. assert (Hin := list_elem_of_lookup_2 final.2 4 _ eq_refl).
    assert (Hreq := list_elem_of_lookup_2 (match final.2 !! 4%nat with Some (ESent r) => r | _ => [] end) 0 _ eq_refl).
    split; [exact Hin|]. split; [exact Hreq|]. split; [reflexivity|]. split; [reflexivity|].
    exact (H1 _ _ Hin Hreq).
Defined.
