(* ===== verification/Authoring.v ===== *)
(** * The authoring service: [internal/policy/service.go], [store.go]

    Admission, then persistence, then rendering.  The store is a class: its
    operations, and the laws the interface's comments state.  Other callers use
    the store at the same time: [others] is what they do to it, run before each
    of the service's own calls, so every call may find the store changed.  The
    clock and [uuid.New] are streams of values.  An operation that changes the
    object it is given returns the changed object. *)

From S2P Require Import Prelude GoStd Netip Wire Uuid Identity Policy Validate.
Local Open Scope Z_scope.

(** ** Errors *)

(** What the store returns ([store.go], [version.go]); [ErrReference] is the
    admission error of a reference that vanished before the write, and
    [StoreFailure] any other failure. *)
Inductive StoreError :=
| ErrServiceUnknown | ErrAddressGroupUnknown | ErrRulesetUnknown
| ErrInUse | ErrDuplicateName | ErrDuplicateRuleID
| ErrReference (e : AdmissionError)
| VersionMismatchError (current : string)
| StoreFailure.

(** What the service returns. *)
Inductive AuthorError :=
| ErrFindings (f : list ValidationError)
| ErrStore (e : StoreError)
| ErrRuleUnknown
| RenderFailed.

Section rules.
Context `{UUIDLib}.

(** ** Comparing rules *)

(** [slices.EqualFunc]. *)
Fixpoint EqualFunc {A} (eq : A → A → bool) (l1 l2 : list A) : bool :=
  match l1, l2 with
  | [], [] => true
  | x :: l1', y :: l2' => eq x y && EqualFunc eq l1' l2'
  | _, _ => false
  end.

(** Reading a missing key of a map of slices gives the nil slice. *)
Definition peerEqual (a b : Peer) : bool :=
  bool_decide (peerKind a = peerKind b) && bool_decide (peerAddressGroupID a = peerAddressGroupID b) &&
  bool_decide (peerCIDR a = peerCIDR b) &&
  bool_decide (size (peerWorkloads a) = size (peerWorkloads b)) &&
  forallb (λ '(k, av), bool_decide (av = default [] (peerWorkloads b !! k))) (map_to_list (peerWorkloads a)).

Definition entryEqual (a b : ServiceEntry) : bool :=
  bool_decide (seProtocol a = seProtocol b) && bool_decide (sePorts a = sePorts b).

Definition RuleEqual (a b : Rule) : bool :=
  bool_decide (ruleDirection a = ruleDirection b) && bool_decide (ruleEnabled a = ruleEnabled b) &&
  bool_decide (ruleDescription a = ruleDescription b) &&
  EqualFunc peerEqual (rulePeers a) (rulePeers b) && bool_decide (ruleServiceIDs a = ruleServiceIDs b) &&
  EqualFunc entryEqual (ruleEntries a) (ruleEntries b).

(** ** Provenance *)

Definition withProvenance (created updated version : Z) (r : Rule) : Rule :=
  MkRule (ruleID r) (ruleDirection r) (ruleEnabled r) (ruleDescription r) (rulePeers r)
    (ruleServiceIDs r) (ruleEntries r) created updated version (ruleFaults r).

Definition withRules (rules : list Rule) (rs : Ruleset) : Ruleset :=
  MkRuleset (rsID rs) (rsName rs) (rsDescription rs) (rsEnabled rs) (rsScope rs) rules
    (rsCreatedAt rs) (rsUpdatedAt rs) (rsVersion rs) (rsFaults rs).

Definition withInstants (created updated : Z) (rs : Ruleset) : Ruleset :=
  MkRuleset (rsID rs) (rsName rs) (rsDescription rs) (rsEnabled rs) (rsScope rs) (rsRules rs)
    created updated (rsVersion rs) (rsFaults rs).

Definition withVersion (v : Z) (rs : Ruleset) : Ruleset :=
  MkRuleset (rsID rs) (rsName rs) (rsDescription rs) (rsEnabled rs) (rsScope rs) (rsRules rs)
    (rsCreatedAt rs) (rsUpdatedAt rs) v (rsFaults rs).

(** The map [before], in which a later rule of the same id replaces an earlier. *)
Definition rulesBefore (rules : list Rule) : gmap UUID Rule :=
  foldl (λ m r, <[ruleID r := r]> m) ∅ rules.

Definition carryRule (before : gmap UUID Rule) (now : Z) (r : Rule) : Rule :=
  match before !! ruleID r with
  | None => withProvenance now now 1 r
  | Some old =>
      if RuleEqual old r then withProvenance (ruleCreatedAt old) (ruleUpdatedAt old) (ruleVersion old) r
      else withProvenance (ruleCreatedAt old) now (i64 (ruleVersion old + 1)) r
  end.

Definition carryRuleProvenance (prev next : Ruleset) (now : Z) : Ruleset :=
  withRules (carryRule (rulesBefore (rsRules prev)) now <$> rsRules next) next.

(** ** Canonical CIDRs *)

Definition canonicalCIDR (s : string) : string :=
  match ParsePrefix s with
  | Some pfx => Prefix_String (Masked pfx)
  | None => s
  end.

Fixpoint canonicalLoop (seen : gset string) (l : list string) : list string :=
  match l with
  | [] => []
  | s :: l' =>
      let c := canonicalCIDR s in
      if decide (c ∈ seen) then canonicalLoop seen l' else c :: canonicalLoop ({[c]} ∪ seen) l'
  end.

Definition canonicalCIDRs : list string → list string := canonicalLoop ∅.

Definition canonicalPeer (p : Peer) : Peer :=
  match peerKind p with
  | PeerCIDR => MkPeer PeerCIDR (peerWorkloads p) (peerAddressGroupID p) (canonicalCIDR (peerCIDR p))
  | _ => p
  end.
End rules.

(** ** The store's interface ([policy.Store])

    Every operation is a function of the store's state; a read may change it too
    (a connection does), but not what is stored.  An update returns the version
    it set. *)
Class AuthoredStore `{UUIDLib} (St : Type) := {
  st_CreateService : Service → St → result StoreError () * St;
  st_UpdateService : Service → string → St → result StoreError Z * St;
  st_DeleteService : UUID → string → St → result StoreError () * St;
  st_ListServices : St → result StoreError (list Service) * St;
  st_CreateAddressGroup : AddressGroup → St → result StoreError () * St;
  st_UpdateAddressGroup : AddressGroup → string → St → result StoreError Z * St;
  st_DeleteAddressGroup : UUID → string → St → result StoreError () * St;
  st_ListAddressGroups : St → result StoreError (list AddressGroup) * St;
  st_CreateRuleset : Ruleset → St → result StoreError () * St;
  st_UpdateRuleset : Ruleset → string → St → result StoreError Z * St;
  st_DeleteRuleset : UUID → string → St → result StoreError () * St;
  st_GetRuleset : UUID → St → result StoreError Ruleset * St;
}.

(** ** The service *)

(** What the service runs in: the store, how often the clock was read and how
    many ids were drawn, and how often rendering ran. *)
Record World (St : Type) := MkWorld {
  woStore : St;
  woTicks : nat;
  woIDs : nat;
  woRenders : nat;
}.
Arguments MkWorld {_}.
Arguments woStore {_}.
Arguments woTicks {_}.
Arguments woIDs {_}.
Arguments woRenders {_}.

(** A step of the service: it fails or returns, and either way leaves a world. *)
Definition Author (St A : Type) : Type := World St → result AuthorError A * World St.

#[export] Instance author_ret {St} : MRet (Author St) := λ A a w, (Ok a, w).
#[export] Instance author_bind {St} : MBind (Author St) := λ A B f m w,
  match m w with (Ok a, w') => f a w' | (Err e, w') => (Err e, w') end.

Definition throw {St A} (e : AuthorError) : Author St A := λ w, (Err e, w).

(** [if err := m; err != nil { return h(err) }]. *)
Definition onError {St A} (m : Author St A) (h : AuthorError → Author St A) : Author St A := λ w,
  match m w with (Err e, w') => h e w' | r => r end.

Section service.
Context `{UUIDLib} {St : Type} `{!AuthoredStore St}.

(** What other callers do to the store, the clock, [uuid.New], and the renderer
    the service holds, if any, which succeeds or fails. *)
Context (others : St → St) (clock : nat → Z) (uuids : nat → UUID)
        (renderer : option (St → bool * St)).

Abbreviation Author := (Author St).

Definition store {A} (op : St → result StoreError A * St) : Author A := λ w,
  let '(r, s) := op (others (woStore w)) in
  (match r with Ok a => Ok a | Err e => Err (ErrStore e) end,
   MkWorld s (woTicks w) (woIDs w) (woRenders w)).

Definition now : Author Z := λ w,
  (Ok (clock (woTicks w)), MkWorld (woStore w) (S (woTicks w)) (woIDs w) (woRenders w)).

Definition uuid_New : Author UUID := λ w,
  (Ok (uuids (woIDs w)), MkWorld (woStore w) (woTicks w) (S (woIDs w)) (woRenders w)).

Definition render : Author () := λ w,
  match renderer with
  | None => (Ok (), w)
  | Some f =>
      let '(ok, s) := f (others (woStore w)) in
      (if ok then Ok () else Err RenderFailed,
       MkWorld s (woTicks w) (woIDs w) (S (woRenders w)))
  end.

(** [if err := Validate...; err != nil { return err }]. *)
Definition admitted (r : option (list ValidationError)) : Author () :=
  match r with Some f => throw (ErrFindings f) | None => mret () end.

(** [if id == uuid.Nil { id = uuid.New() }]. *)
Definition idOrNew (id : UUID) : Author UUID := if decide (id = uuid_Nil) then uuid_New else mret id.

Definition loadReferences : Author References :=
  services ← store st_ListServices;
  groups ← store st_ListAddressGroups;
  mret (MkReferences (list_to_set (svcID <$> services)) (list_to_set (agID <$> groups))).

(** *** Services *)

Definition CreateService (s : Service) : Author Service :=
  admitted (ValidateService s);;
  id ← idOrNew (svcID s);
  created ← now; updated ← now;
  let s := MkService id (svcName s) (svcEntries s) created updated 1 (svcFaults s) in
  store (st_CreateService s);;
  render;;
  mret s.

Definition UpdateService (s : Service) (expect : string) : Author Service :=
  admitted (ValidateService s);;
  updated ← now;
  let s := MkService (svcID s) (svcName s) (svcEntries s) (svcCreatedAt s) updated (svcVersion s) (svcFaults s) in
  v ← store (st_UpdateService s expect);
  render;;
  mret (MkService (svcID s) (svcName s) (svcEntries s) (svcCreatedAt s) updated v (svcFaults s)).

Definition DeleteService (id : UUID) (expect : string) : Author () :=
  store (st_DeleteService id expect);; render.

(** *** Address groups *)

Definition CreateAddressGroup (g : AddressGroup) : Author AddressGroup :=
  admitted (ValidateAddressGroup g);;
  id ← idOrNew (agID g);
  created ← now; updated ← now;
  let g := MkAddressGroup id (agName g) (canonicalCIDRs (agCIDRs g)) created updated 1 in
  store (st_CreateAddressGroup g);;
  render;;
  mret g.

Definition UpdateAddressGroup (g : AddressGroup) (expect : string) : Author AddressGroup :=
  admitted (ValidateAddressGroup g);;
  updated ← now;
  let g := MkAddressGroup (agID g) (agName g) (canonicalCIDRs (agCIDRs g)) (agCreatedAt g) updated (agVersion g) in
  v ← store (st_UpdateAddressGroup g expect);
  render;;
  mret (MkAddressGroup (agID g) (agName g) (agCIDRs g) (agCreatedAt g) updated v).

Definition DeleteAddressGroup (id : UUID) (expect : string) : Author () :=
  store (st_DeleteAddressGroup id expect);; render.

(** *** Rulesets *)

Definition assignRuleID (r : Rule) : Author Rule :=
  id ← idOrNew (ruleID r);
  mret (MkRule id (ruleDirection r) (ruleEnabled r) (ruleDescription r) (canonicalPeer <$> rulePeers r)
          (ruleServiceIDs r) (ruleEntries r) (ruleCreatedAt r) (ruleUpdatedAt r) (ruleVersion r) (ruleFaults r)).

Fixpoint assignRules (rules : list Rule) : Author (list Rule) :=
  match rules with
  | [] => mret []
  | r :: rules' => r ← assignRuleID r; rules' ← assignRules rules'; mret (r :: rules')
  end.

Definition assignRuleIDs (rs : Ruleset) : Author Ruleset :=
  rules ← assignRules (rsRules rs);
  mret (withRules rules rs).

Definition AssignIDs (rs : Ruleset) : Author Ruleset :=
  id ← idOrNew (rsID rs);
  assignRuleIDs (MkRuleset id (rsName rs) (rsDescription rs) (rsEnabled rs) (rsScope rs) (rsRules rs)
                   (rsCreatedAt rs) (rsUpdatedAt rs) (rsVersion rs) (rsFaults rs)).

Definition CreateRuleset (rs : Ruleset) : Author Ruleset :=
  refs ← loadReferences;
  admitted (ValidateRuleset rs refs);;
  rs ← AssignIDs rs;
  at_ ← now;
  let rs := withRules (withProvenance at_ at_ 1 <$> rsRules rs) (withVersion 1 (withInstants at_ at_ rs)) in
  store (st_CreateRuleset rs);;
  render;;
  mret rs.

Definition UpdateRuleset (rs : Ruleset) (expect : string) : Author Ruleset :=
  refs ← loadReferences;
  admitted (ValidateRuleset rs refs);;
  existing ← store (st_GetRuleset (rsID rs));
  rs ← assignRuleIDs rs;
  at_ ← now;
  let rs := withInstants (rsCreatedAt existing) at_ (carryRuleProvenance existing rs at_) in
  v ← store (st_UpdateRuleset rs expect);
  render;;
  mret (withVersion v rs).

Definition DeleteRuleset (id : UUID) (expect : string) : Author () :=
  store (st_DeleteRuleset id expect);; render.

(** *** Rules *)

Definition ruleWriteError {A} (rulesetID id : UUID) (err : AuthorError) (idx : option nat) : Author A :=
  match err, idx with
  | ErrFindings f, Some i => throw (ErrFindings (Rebase (at_index "rules" i) f))
  | ErrStore (VersionMismatchError _), _ =>
      rs ← store (st_GetRuleset rulesetID);
      match list_find (λ r, ruleID r = id) (rsRules rs) with
      | Some (_, r) => throw (ErrStore (VersionMismatchError (FormatVersion (ruleVersion r))))
      | None => throw ErrRuleUnknown
      end
  | _, _ => throw err
  end.

Definition CreateRule (rulesetID : UUID) (r : Rule) : Author Rule :=
  rs ← store (st_GetRuleset rulesetID);
  id ← idOrNew (ruleID r);
  let r := MkRule id (ruleDirection r) (ruleEnabled r) (ruleDescription r) (rulePeers r) (ruleServiceIDs r)
             (ruleEntries r) (ruleCreatedAt r) (ruleUpdatedAt r) (ruleVersion r) (ruleFaults r) in
  let rules := rsRules rs ++ [r] in
  rs' ← onError (UpdateRuleset (withRules rules rs) (FormatVersion (rsVersion rs)))
          (λ e, ruleWriteError rulesetID id e (Some (length rules - 1)%nat));
  mret (default r (last (rsRules rs'))).

(** The rule's own version, checked before the ruleset is written. *)
Definition checkRuleVersion (expect : string) (r : Rule) : Author () :=
  let current := FormatVersion (ruleVersion r) in
  if decide (expect ≠ "" ∧ expect ≠ current) then throw (ErrStore (VersionMismatchError current)) else mret ().

Definition UpdateRule (rulesetID : UUID) (r : Rule) (expect : string) : Author Rule :=
  rs ← store (st_GetRuleset rulesetID);
  match list_find (λ x, ruleID x = ruleID r) (rsRules rs) with
  | None => throw ErrRuleUnknown
  | Some (idx, old) =>
      checkRuleVersion expect old;;
      rs' ← onError (UpdateRuleset (withRules (<[idx := r]> (rsRules rs)) rs) (FormatVersion (rsVersion rs)))
              (λ e, ruleWriteError rulesetID (ruleID r) e (Some idx));
      mret (default r (rsRules rs' !! idx))
  end.

Definition DeleteRule (rulesetID id : UUID) (expect : string) : Author () :=
  rs ← store (st_GetRuleset rulesetID);
  match list_find (λ x, ruleID x = id) (rsRules rs) with
  | None => throw ErrRuleUnknown
  | Some (idx, old) =>
      checkRuleVersion expect old;;
      onError (UpdateRuleset (withRules (delete idx (rsRules rs)) rs) (FormatVersion (rsVersion rs)))
        (λ e, ruleWriteError rulesetID id e None);;
      mret ()
  end.
End service.

(** ** What the store promises *)

Record Content `{UUIDLib} := MkContent {
  cServices : gmap UUID Service;
  cGroups : gmap UUID AddressGroup;
  cRulesets : gmap UUID Ruleset;
}.

Arguments MkContent {_}.

(** The fields of a port range are [uint32]. *)
Definition typedEntry (e : ServiceEntry) : Prop :=
  Forall (λ p, 0 ≤ prStart p < 2 ^ 32 ∧ 0 ≤ prEnd p < 2 ^ 32) (sePorts e).

(** What is stored, in the states a store can be in, and the form in which rules
    and entries are stored: a store may keep a set for a list, or a coarser
    instant. *)
Class StoreView `{UUIDLib} (St : Type) := {
  valid : St → Prop;
  content : St → Content;
  keptRule : Rule → Rule;
  keptEntries : list ServiceEntry → list ServiceEntry;
}.

(** How a write ends: done; refused, with nothing stored; or failed with the
    reply lost, the object stored in full or not at all. *)
Inductive outcome `{UUIDLib} {A} (r : result StoreError A) (c c' : Content) (effect : A → Prop) : Prop :=
| outcome_done a : r = Ok a → effect a → outcome r c c' effect
| outcome_refused e : r = Err e → c' = c → outcome r c c' effect
| outcome_lost a : r = Err StoreFailure → effect a → outcome r c c' effect.

Section promises.
Context `{UUIDLib} {St : Type} `{!AuthoredStore St} `{!StoreView St}.

Definition setService (s : Service) (c : Content) : Content :=
  MkContent (<[svcID s := s]> (cServices c)) (cGroups c) (cRulesets c).
Definition setGroup (g : AddressGroup) (c : Content) : Content :=
  MkContent (cServices c) (<[agID g := g]> (cGroups c)) (cRulesets c).
Definition setRuleset (rs : Ruleset) (c : Content) : Content :=
  MkContent (cServices c) (cGroups c) (<[rsID rs := rs]> (cRulesets c)).

(** An object as it is stored at a version. *)
Definition serviceAs (s : Service) (v : Z) (x : Service) : Prop :=
  svcID x = svcID s ∧ svcName x = svcName s ∧ svcEntries x = keptEntries (svcEntries s) ∧
  svcVersion x = v ∧ svcFaults x = [].
Definition groupAs (g : AddressGroup) (v : Z) (x : AddressGroup) : Prop :=
  agID x = agID g ∧ agName x = agName g ∧ (∀ c, c ∈ agCIDRs x ↔ c ∈ agCIDRs g) ∧ agVersion x = v.
Definition rulesetAs (rs : Ruleset) (v : Z) (x : Ruleset) : Prop :=
  rsID x = rsID rs ∧ rsName x = rsName rs ∧ rsDescription x = rsDescription rs ∧
  rsEnabled x = rsEnabled rs ∧ rsScope x = rsScope rs ∧ rsRules x = keptRule <$> rsRules rs ∧
  rsVersion x = v ∧ rsFaults x = [].

(** The version a conditional write names. *)
Definition names (expect : string) (v : Z) : Prop := expect = "" ∨ expect = FormatVersion v.

Definition refsOf (c : Content) : References := MkReferences (dom (cServices c)) (dom (cGroups c)).

(** What a rule names exists. *)
Definition resolves (c : Content) (r : Rule) : Prop :=
  Forall (λ id, id ∈ dom (cServices c)) (ruleServiceIDs r) ∧
  Forall (λ p, peerKind p = PeerAddressGroup → peerAddressGroupID p ∈ dom (cGroups c)) (rulePeers r).

Definition storable (c : Content) (rs : Ruleset) : Prop :=
  NoDup (ruleID <$> rsRules rs) ∧ Forall (resolves c) (rsRules rs).
End promises.

(** The comments of [store.go]: composite writes are atomic; an update or delete
    applies only at the version it names, advances the version by one, and is
    refused with the current version otherwise; what a rule references cannot be
    deleted. *)
Class AuthoredStoreLaws `{UUIDLib} (St : Type) `{!AuthoredStore St, !StoreView St} : Prop := {
  list_services s r s' : valid s → st_ListServices s = (r, s') → valid s' ∧ content s' = content s ∧
    ∀ l, r = Ok l → ∀ id, id ∈ svcID <$> l ↔ id ∈ dom (cServices (content s));
  list_groups s r s' : valid s → st_ListAddressGroups s = (r, s') → valid s' ∧ content s' = content s ∧
    ∀ l, r = Ok l → ∀ id, id ∈ agID <$> l ↔ id ∈ dom (cGroups (content s));
  get_ruleset id s r s' : valid s → st_GetRuleset id s = (r, s') → valid s' ∧ content s' = content s ∧
    ∀ rs, r = Ok rs → cRulesets (content s) !! id = Some rs;
  create_service x s r s' : valid s → st_CreateService x s = (r, s') →
    valid s' ∧ outcome r (content s) (content s') (λ _, ∃ x', serviceAs x 1 x' ∧
      cServices (content s) !! svcID x = None ∧ content s' = setService x' (content s));
  update_service x expect s r s' : valid s → st_UpdateService x expect s = (r, s') →
    valid s' ∧ outcome r (content s) (content s') (λ v, ∃ old x', serviceAs x v x' ∧
      cServices (content s) !! svcID x = Some old ∧ names expect (svcVersion old) ∧ v = svcVersion old + 1 ∧
      content s' = setService x' (content s));
  delete_service id expect s r s' : valid s → st_DeleteService id expect s = (r, s') →
    valid s' ∧ outcome r (content s) (content s') (λ _, ∃ old,
      cServices (content s) !! id = Some old ∧ names expect (svcVersion old) ∧
      (∀ rid rs, cRulesets (content s) !! rid = Some rs → Forall (λ r, id ∉ ruleServiceIDs r) (rsRules rs)) ∧
      content s' = MkContent (delete id (cServices (content s))) (cGroups (content s)) (cRulesets (content s)));
  create_group x s r s' : valid s → st_CreateAddressGroup x s = (r, s') →
    valid s' ∧ outcome r (content s) (content s') (λ _, ∃ x', groupAs x 1 x' ∧
      cGroups (content s) !! agID x = None ∧ content s' = setGroup x' (content s));
  update_group x expect s r s' : valid s → st_UpdateAddressGroup x expect s = (r, s') →
    valid s' ∧ outcome r (content s) (content s') (λ v, ∃ old x', groupAs x v x' ∧
      cGroups (content s) !! agID x = Some old ∧ names expect (agVersion old) ∧ v = agVersion old + 1 ∧
      content s' = setGroup x' (content s));
  delete_group id expect s r s' : valid s → st_DeleteAddressGroup id expect s = (r, s') →
    valid s' ∧ outcome r (content s) (content s') (λ _, ∃ old,
      cGroups (content s) !! id = Some old ∧ names expect (agVersion old) ∧
      (∀ rid rs, cRulesets (content s) !! rid = Some rs →
         Forall (λ r, Forall (λ p, peerKind p = PeerAddressGroup → peerAddressGroupID p ≠ id) (rulePeers r))
           (rsRules rs)) ∧
      content s' = MkContent (cServices (content s)) (delete id (cGroups (content s))) (cRulesets (content s)));
  create_ruleset x s r s' : valid s → st_CreateRuleset x s = (r, s') →
    valid s' ∧ outcome r (content s) (content s') (λ _, ∃ x', rulesetAs x 1 x' ∧ storable (content s) x ∧
      cRulesets (content s) !! rsID x = None ∧ content s' = setRuleset x' (content s));
  update_ruleset x expect s r s' : valid s → st_UpdateRuleset x expect s = (r, s') →
    valid s' ∧ outcome r (content s) (content s') (λ v, ∃ old x', rulesetAs x v x' ∧ storable (content s) x ∧
      cRulesets (content s) !! rsID x = Some old ∧ names expect (rsVersion old) ∧ v = rsVersion old + 1 ∧
      content s' = setRuleset x' (content s));
  update_mismatch x expect s current s' : valid s →
    st_UpdateRuleset x expect s = (Err (VersionMismatchError current), s') →
    ∃ old, cRulesets (content s) !! rsID x = Some old ∧ current = FormatVersion (rsVersion old) ∧
      ¬ names expect (rsVersion old);
  delete_ruleset id expect s r s' : valid s → st_DeleteRuleset id expect s = (r, s') →
    valid s' ∧ outcome r (content s) (content s') (λ _, ∃ old,
      cRulesets (content s) !! id = Some old ∧ names expect (rsVersion old) ∧
      content s' = MkContent (cServices (content s)) (cGroups (content s)) (delete id (cRulesets (content s))));
  kept_rule_id r : ruleID (keptRule r) = ruleID r;
  kept_rule_version r : ruleVersion (keptRule r) = ruleVersion r;
  kept_rule_again r : keptRule (keptRule r) = keptRule r;
  kept_rule_ok refs r : rule_ok refs r → Forall typedEntry (ruleEntries r) →
    rule_ok refs (keptRule r) ∧ Forall typedEntry (ruleEntries (keptRule r)) ∧ rulePeers (keptRule r) = rulePeers r;
  kept_entries_ok es : es ≠ [] → Forall entry_ok es → Forall typedEntry es →
    keptEntries es ≠ [] ∧ Forall entry_ok (keptEntries es);
}.
