(* ===== verification/Fleet.v ===== *)
(** * Fleet operations: [internal/fleet]

    Mode changes, retirements and the preview of a selector.  A change of mode and a
    retirement run in one transaction under the render lock: the transaction is the
    interface of [Compiler.v] with the operations of [ModeChangeTx] and [RetireTx],
    and the laws each promises; [RegistryLaws.v] shows that the tables keep them.  A
    transaction that fails changes nothing; its commit may be refused, or go
    unanswered after it took effect. *)

From S2P Require Import Prelude GoStd Netip Wire Uuid Identity Policy Validate Registry Rendered Compiler Ingest IngestService.
From Stdlib Require Import Ascii.
Local Open Scope Z_scope.

(** ** Errors *)

Inductive FleetFault :=
| FaultAdmission (e : AdmissionError)
| ErrModeChangeSelection | ErrModeChangeMode | ErrModeChangeExpected | ErrUnknownWorkload | FaultDuplicateName.

Record FleetFinding := MkFleetFinding { ffPath : string; ffErr : FleetFault; ffDetail : Detail }.

Section fleet.
Context `{UUIDLib}.

Inductive FleetError (Er : Type) :=
| FeFindings (l : list FleetFinding)
| FeMatchCount (expected : Z) (matched : nat)
| FeRetired (id : WorkloadID) (retiredAt : Z)
| FeWorkloadUnknown
| FeMoved (updated needed : nat)
| FeNoPrincipal
| FeTx (e : Er)
| FeBegin
| FeCommit.
#[global] Arguments FeFindings {_}.
#[global] Arguments FeMatchCount {_}.
#[global] Arguments FeRetired {_}.
#[global] Arguments FeWorkloadUnknown {_}.
#[global] Arguments FeMoved {_}.
#[global] Arguments FeNoPrincipal {_}.
#[global] Arguments FeTx {_}.
#[global] Arguments FeBegin {_}.
#[global] Arguments FeCommit {_}.

(** [rebase]: a path under a prefix. *)
Definition rebasePath (prefix path : string) : string :=
  match path with
  | "" => prefix
  | String c _ => if decide (c = "["%char) then prefix +:+ path else prefix +:+ "." +:+ path
  end.
Definition rebase (prefix : string) (l : list ValidationError) : list FleetFinding :=
  (λ e, MkFleetFinding (rebasePath prefix (vePath e)) (FaultAdmission (veErr e)) (veDetail e)) <$> l.

(** ** Labels and selectors *)

Definition ValidateLabels (labels : list Label) : option (list ValidationError) :=
  ValidateLabelSet ((λ l, MkLabelPair (lblKey l) (lblValue l)) <$> labels).

Record WorkloadRef := MkWorkloadRef { rfID : WorkloadID; rfHostname : string; rfLabels : gmap string string }.

(** The index of the active workloads. *)
Definition activeLabels (workloads : list Workload) : gmap WorkloadID (gmap string string) :=
  foldl (λ m w, if Retired w then m else <[wID w := LabelMap w]> m) ∅ workloads.
Definition activeByID (workloads : list Workload) : gmap WorkloadID Workload :=
  foldl (λ m w, if Retired w then m else <[wID w := w]> m) ∅ workloads.

Definition resolve (sel : Selector) (workloads : list Workload) : list WorkloadRef :=
  omap (λ id, (λ w, MkWorkloadRef id (wHostname w) (LabelMap w)) <$> (activeByID workloads !! id))
    (MatchWorkloads sel (activeLabels workloads)).

Definition PreviewSelector {Er} (sel : Selector) (workloads : result Er (list Workload))
  : result (FleetError Er) (list WorkloadRef) :=
  match ValidateSelector sel with
  | Some f => Err (FeFindings (rebase "selector" f))
  | None => match workloads with Ok ws => Ok (resolve sel ws) | Err e => Err (FeTx e) end
  end.

(** ** Mode changes *)

Record ModeChangeRequest := MkModeChangeRequest {
  mqSelector : Selector; mqWorkloadIDs : list WorkloadID; mqTargetMode : EnforcementMode; mqExpectedMatchCount : Z;
}.
Record ModeChangeWorkload := MkModeChangeWorkload { mwID : WorkloadID; mwPreviousMode : EnforcementMode }.
Record ModeChangeRecord := MkModeChangeRecord {
  mcID : UUID; mcCreatedAt : Z; mcTargetMode : EnforcementMode; mcSelector : Selector;
  mcExpectedMatchCount : Z; mcWorkloads : list ModeChangeWorkload; mcDesiredUpdated : nat;
}.
Record ModeChangeResult := MkModeChangeResult {
  mrID : UUID; mrMatched : nat; mrDesiredUpdated : nat; mrRendered : Report;
}.

(** The check of the selection. *)
Definition selectionFindings (req : ModeChangeRequest) : list FleetFinding :=
  let sel := bool_decide (mqSelector req ≠ ∅) in
  let ids := bool_decide (mqWorkloadIDs req ≠ []) in
  if (sel && ids) || (negb sel && negb ids) then [MkFleetFinding "selector" ErrModeChangeSelection (DText "")]
  else if sel then
    match ValidateSelector (mqSelector req) with Some f => rebase "selector" f | None => [] end
  else [].

Definition modeFindings (m : EnforcementMode) : list FleetFinding :=
  match m with
  | ENFORCEMENT_MODE_VISIBILITY | ENFORCEMENT_MODE_SIMULATION | ENFORCEMENT_MODE_ENFORCED => []
  | ENFORCEMENT_MODE_UNSPECIFIED => [MkFleetFinding "target_mode" ErrModeChangeMode (DText "")]
  | EnforcementMode_unrecognized n =>
      [MkFleetFinding "target_mode" ErrModeChangeMode (DText ("unknown mode " +:+ FormatInt n))]
  end.

Definition validateModeChange (req : ModeChangeRequest) (hasExpected : bool) : list FleetFinding :=
  selectionFindings req ++ modeFindings (mqTargetMode req) ++
  (if negb hasExpected || bool_decide (mqExpectedMatchCount req < 0)
   then [MkFleetFinding "expected_match_count" ErrModeChangeExpected (DText "")] else []).

(** [refuseRetired]. *)
Definition refuseRetired {Er} (w : Workload) : result (FleetError Er) () :=
  match wRetiredAt w with Some t => Err (FeRetired (wID w) t) | None => Ok () end.

(** The loop over the ids of a request: findings, the ids seen and the resolved ones. *)
Fixpoint resolveIDs {Er} (byID : gmap WorkloadID Workload) (i : nat) (ids : list WorkloadID)
    (f : list FleetFinding) (seen : gset WorkloadID) (resolved : list WorkloadID)
  : result (FleetError Er) (list FleetFinding * list WorkloadID) :=
  match ids with
  | [] => Ok (f, resolved)
  | id :: ids' =>
      match byID !! id with
      | None =>
          resolveIDs byID (S i) ids'
            (f ++ [MkFleetFinding (at_index "workload_ids" i) ErrUnknownWorkload (DText (WorkloadID_String id))]) seen resolved
      | Some w =>
          _ ← refuseRetired w;
          if decide (id ∈ seen) then resolveIDs byID (S i) ids' f seen resolved
          else resolveIDs byID (S i) ids' f ({[id]} ∪ seen) (resolved ++ [id])
      end
  end.

Definition workloadsByID (inp : Inputs) : gmap WorkloadID Workload :=
  foldl (λ m w, <[wID w := w]> m) ∅ (inWorkloads inp).

Definition resolveRequest {Er} (req : ModeChangeRequest) (inp : Inputs) : result (FleetError Er) (list WorkloadID) :=
  if decide (mqSelector req ≠ ∅) then Ok (rfID <$> resolve (mqSelector req) (inWorkloads inp))
  else
    fr ← resolveIDs (workloadsByID inp) 0 (mqWorkloadIDs req) [] ∅ [];
    match fr.1 with [] => Ok fr.2 | f => Err (FeFindings f) end.

(** The recorded set with the modes it held. *)
Definition changeRecord (id : UUID) (at_ : Z) (req : ModeChangeRequest) (byID : gmap WorkloadID Workload)
    (resolved : list WorkloadID) : ModeChangeRecord :=
  let modeOf i := default ENFORCEMENT_MODE_UNSPECIFIED (wMode <$> byID !! i) in
  MkModeChangeRecord id at_ (mqTargetMode req) (mqSelector req) (mqExpectedMatchCount req)
    ((λ i, MkModeChangeWorkload i (modeOf i)) <$> resolved)
    (length (filter (λ i, modeOf i ≠ mqTargetMode req) resolved)).
End fleet.

(** [ModeChangeTx] and [RetireTx]: the render transaction and what each adds. *)
Class ModeChangeTx `{UUIDLib} (St Er : Type) `{!RenderTx St Er} := {
  RecordModeChange : ModeChangeRecord → St → result Er St;
  SetWorkloadModes : list WorkloadID → EnforcementMode → St → result Er (nat * St);
}.

Record RetireSubject := MkRetireSubject {
  rtRetiredAt : option Z; rtLastFlowReportAt : option Z; rtProcess : option AgentProcess;
}.

(** [LockWorkload] returns nothing for an unknown workload. *)
Class RetireTx `{UUIDLib} (St Er : Type) `{!RenderTx St Er} := {
  LockWorkload : WorkloadID → St → result Er (option RetireSubject);
  StampRetired : WorkloadID → Z → St → result Er St;
  WriteGaps : WorkloadID → list FlowGap → St → result Er St;
  DirectEnd : WorkloadID → St → result Er St;
}.

(** How a transaction goes: it does not begin (or its lock is not taken), it commits,
    its commit is refused, or the answer to its commit is lost. *)
Inductive Finish := FinNotBegun | FinCommitted | FinRefused | FinUnanswered.

Section operations.
Context `{UUIDLib} {St Er : Type} `{!RenderTx St Er, !ModeChangeTx St Er, !RetireTx St Er}.

(** One transaction. *)
Definition inTx {A} (fin : Finish) (fn : St → result (FleetError Er) (A * St)) (s : St) : result (FleetError Er) A * St :=
  match fin, fn s with
  | FinNotBegun, _ => (Err FeBegin, s)
  | _, Err e => (Err e, s)
  | FinCommitted, Ok (a, s') => (Ok a, s')
  | FinRefused, Ok _ => (Err FeCommit, s)
  | FinUnanswered, Ok (_, s') => (Err FeCommit, s')
  end.

Definition asTx {A} (r : result Er A) : result (FleetError Er) A :=
  match r with Ok a => Ok a | Err e => Err (FeTx e) end.

Definition changeModeIn (uuid : UUID) (now renderAt : Z) (req : ModeChangeRequest) (s : St)
  : result (FleetError Er) (ModeChangeResult * St) :=
  inp ← asTx (LoadInputs s);
  resolved ← resolveRequest req inp;
  if decide (Z.of_nat (length resolved) ≠ mqExpectedMatchCount req)
  then Err (FeMatchCount (mqExpectedMatchCount req) (length resolved))
  else
    let rec := changeRecord uuid now req (workloadsByID inp) resolved in
    s ← asTx (RecordModeChange rec s);
    us ← asTx (SetWorkloadModes resolved (mqTargetMode req) s);
    if decide (us.1 ≠ mcDesiredUpdated rec) then Err (FeMoved us.1 (mcDesiredUpdated rec))
    else
      sr ← asTx (RenderIn renderAt us.2);
      Ok (MkModeChangeResult uuid (length resolved) (mcDesiredUpdated rec) sr.2, sr.1).

Definition ChangeMode (fin : Finish) (uuid : UUID) (now renderAt : Z) (req : ModeChangeRequest) (hasExpected : bool) (s : St)
  : result (FleetError Er) ModeChangeResult * St :=
  match validateModeChange req hasExpected with
  | [] => inTx fin (changeModeIn uuid now renderAt req) s
  | f => (Err (FeFindings f), s)
  end.

Record Retirement := MkRetirement {
  rmID : WorkloadID; rmRetiredAt : Z; rmRendered : Report; rmClosed : option FlowGap;
}.

(** [Truncate(time.Microsecond)]: down, since the year 1, which is a whole number of
    seconds before the epoch. *)
Definition truncateMicros (t : Z) : Z := t - t `mod` 1000.

Definition retireIn (now renderAt window : Z) (id : WorkloadID) (s : St) : result (FleetError Er) (Retirement * St) :=
  subj ← asTx (LockWorkload id s);
  match subj with
  | None => Err FeWorkloadUnknown
  | Some subj =>
      match rtRetiredAt subj with
      | Some t => Err (FeRetired id t)
      | None =>
          let at_ := truncateMicros now in
          s ← asTx (StampRetired id at_ s);
          let closed := SilenceAtRetirement (rtLastFlowReportAt subj) (rtProcess subj) at_ window in
          s ← asTx (match closed with Some gap => WriteGaps id [gap] s | None => Ok s end);
          sr ← asTx (RenderIn renderAt s);
          s ← asTx (DirectEnd id sr.1);
          Ok (MkRetirement id at_ sr.2 closed, s)
      end
  end.

(** The caller's principal is in the context or not; the streams this process holds
    are ended after the commit. *)
Definition Retire (fin : Finish) (principal : bool) (now renderAt window : Z) (id : WorkloadID) (s : St)
  : result (FleetError Er) Retirement * St :=
  if principal then inTx fin (retireIn now renderAt window id) s else (Err FeNoPrincipal, s).
End operations.

(** ** What the transactions promise *)

Section promises.
Context `{UUIDLib}.

Definition setMode (mode : EnforcementMode) (w : Workload) : Workload :=
  MkWorkload (wID w) (wHostname w) (wLabels w) mode (wFacts w) (wAddresses w) (wAgentVersion w) (wAgentCapabilities w)
    (wEnrolledAt w) (wLastSeenAt w) (wSyncState w) (wAppliedVersion w) (wSyncError w) (wDroppedFlowRecords w)
    (wSourceOverruns w) (wCredentialRenewalError w) (wCredentialSerial w) (wCredentialExpiresAt w)
    (wPresentedCredential w) (wLateRenewal w) (wLastSnapshotSentAt w) (wLastAckedAt w) (wLastApplyFailedAt w)
    (wClockSkew w) (wOwnedTable w) (wOwnedTableAbsentSince w) (wLastFlowReportAt w) (wRetiredAt w).

Definition setRetired (at_ : Z) (w : Workload) : Workload :=
  MkWorkload (wID w) (wHostname w) (wLabels w) (wMode w) (wFacts w) (wAddresses w) (wAgentVersion w) (wAgentCapabilities w)
    (wEnrolledAt w) (wLastSeenAt w) (wSyncState w) (wAppliedVersion w) (wSyncError w) (wDroppedFlowRecords w)
    (wSourceOverruns w) (wCredentialRenewalError w) (wCredentialSerial w) (wCredentialExpiresAt w)
    (wPresentedCredential w) (wLateRenewal w) (wLastSnapshotSentAt w) (wLastAckedAt w) (wLastApplyFailedAt w)
    (wClockSkew w) (wOwnedTable w) (wOwnedTableAbsentSince w) (wLastFlowReportAt w) (Some at_).

(** The inputs with some workloads changed. *)
Definition changing (P : Workload → bool) (f : Workload → Workload) (inp : Inputs) : Inputs :=
  MkInputs ((λ w, if P w then f w else w) <$> inWorkloads inp) (inRulesets inp) (inServices inp) (inAddressGroups inp).

Definition withModes (ids : list WorkloadID) (mode : EnforcementMode) : Inputs → Inputs :=
  changing (λ w, bool_decide (wID w ∈ ids)) (setMode mode).
Definition withRetired (id : WorkloadID) (at_ : Z) : Inputs → Inputs :=
  changing (λ w, bool_decide (wID w = id)) (setRetired at_).

(** The workloads a flip changes. *)
Definition needing (ids : list WorkloadID) (mode : EnforcementMode) (inp : Inputs) : list Workload :=
  filter (λ w, wID w ∈ ids ∧ wMode w ≠ mode) (inWorkloads inp).
End promises.

Section laws.
Context `{UUIDLib} (St Er : Type) `{!RenderTx St Er}.

(** A step of the transaction that renders nothing and moves nothing a render reads. *)
Definition same_loads (s s' : St) : Prop := LoadInputs s' = LoadInputs s ∧ LoadPolicies s' = LoadPolicies s.

Class ModeChangeLaws `{!ModeChangeTx St Er} : Prop := {
  record_keeps rec s s' : RecordModeChange rec s = Ok s' → same_loads s s';
  modes_flip ids mode s n s' inp :
    modeFindings mode = [] → SetWorkloadModes ids mode s = Ok (n, s') → LoadInputs s = Ok inp →
    LoadInputs s' = Ok (withModes ids mode inp) ∧ LoadPolicies s' = LoadPolicies s ∧
    n = length (needing ids mode inp);
}.

Class RetireLaws `{!RetireTx St Er} : Prop := {
  lock_reads id s subj inp :
    LockWorkload id s = Ok subj → LoadInputs s = Ok inp →
    match subj with
    | None => id ∉ wID <$> inWorkloads inp
    | Some subj => ∃ w, w ∈ inWorkloads inp ∧ wID w = id ∧ rtRetiredAt subj = wRetiredAt w ∧
        rtLastFlowReportAt subj = wLastFlowReportAt w
    end;
  stamp_retires id now s s' inp :
    let at_ := truncateMicros now in
    StampRetired id at_ s = Ok s' → LoadInputs s = Ok inp →
    LoadInputs s' = Ok (withRetired id at_ inp) ∧ LoadPolicies s' = LoadPolicies s;
  gaps_keep id gaps s s' : WriteGaps id gaps s = Ok s' → same_loads s s';
  end_keeps id s s' : DirectEnd id s = Ok s' → same_loads s s';
}.
End laws.
Arguments same_loads {_ St Er _} _ _.

(** ** What a request selects *)

Section selection.
Context `{UUIDLib}.

(** A registered, active workload: one the selector matches, or one named. *)
Definition selected (req : ModeChangeRequest) (inp : Inputs) (id : WorkloadID) : Prop :=
  ∃ w, w ∈ inWorkloads inp ∧ wID w = id ∧ wRetiredAt w = None ∧
    if decide (mqSelector req ≠ ∅) then Matches (mqSelector req) (LabelMap w) = true else id ∈ mqWorkloadIDs req.

(** A map filled from a list without repeated keys. *)
Lemma fill_lookup {V} (P : Workload → bool) (f : Workload → V) ws id v :
  NoDup (wID <$> ws) →
  foldl (λ m w, if P w then m else <[wID w := f w]> m) (∅ : gmap WorkloadID V) ws !! id = Some v ↔
  ∃ w, w ∈ ws ∧ wID w = id ∧ P w = false ∧ v = f w.
Proof.
  induction ws as [|w ws IH] using rev_ind.
  - intros _. cbn [foldl]. rewrite lookup_empty. split; [done|]. by intros (w & ?%elem_of_nil & _).
  - rewrite fmap_app, foldl_app. intros (Hnd & Hdis & _)%NoDup_app. specialize (IH Hnd). cbn [foldl].
    assert (∀ x, x ∈ ws → wID x ≠ wID w) as Hne.
    { intros x Hx E. apply (Hdis (wID x)); [by apply list_elem_of_fmap_2|]. rewrite E. left. }
    setoid_rewrite elem_of_app. setoid_rewrite list_elem_of_singleton.
    destruct (P w) eqn:HP; [|destruct (decide (wID w = id)) as [<-|Hid]].
    + rewrite IH. naive_solver congruence.
    + rewrite lookup_insert_eq. split; [intros [= <-]; eauto 6|].
      intros (x & [Hx| ->] & Hid & _ & ->); [by destruct (Hne x Hx)|done].
    + rewrite lookup_insert_ne by done. rewrite IH. split.
      * intros (x & Hx & Hrest). exists x. split; [by left|done].
      * intros (x & [Hx| ->] & Hx' & Hrest); [by exists x|done].
Qed.

Lemma activeByID_lookup ws id w :
  NoDup (wID <$> ws) → activeByID ws !! id = Some w ↔ w ∈ ws ∧ wID w = id ∧ wRetiredAt w = None.
Proof.
  intros Hnd. unfold activeByID. rewrite (fill_lookup Retired (λ w, w)) by done.
  setoid_rewrite Retired_false. naive_solver.
Qed.

Lemma workloadsByID_lookup inp id w :
  NoDup (wID <$> inWorkloads inp) → workloadsByID inp !! id = Some w ↔ w ∈ inWorkloads inp ∧ wID w = id.
Proof.
  intros Hnd. unfold workloadsByID.
  pose proof (fill_lookup (λ _, false) (λ w, w) (inWorkloads inp) id w Hnd) as Hf. cbn in Hf. rewrite Hf. naive_solver.
Qed.

Lemma resolve_ids sel ws :
  NoDup (wID <$> ws) → rfID <$> resolve sel ws = MatchWorkloads sel (activeLabels ws).
Proof.
  intros Hnd. unfold resolve.
  assert (∀ id, id ∈ MatchWorkloads sel (activeLabels ws) → is_Some (activeByID ws !! id)) as Hin.
  { intros id (labels & Hl & _)%elem_of_MatchWorkloads. unfold activeLabels in Hl.
    apply (fill_lookup Retired LabelMap) in Hl as (w & Hw & Hid & Hr%Retired_false & _); [|done].
    exists w. by apply activeByID_lookup. }
  induction (MatchWorkloads sel (activeLabels ws)) as [|id l IH]; [done|]. cbn [omap list_omap].
  destruct (Hin id) as [w Hw]; [left|]. rewrite Hw. cbn [fmap option_fmap option_map list_fmap rfID].
  f_equal. apply IH. intros x Hx. apply Hin. by right.
Qed.

Lemma elem_of_resolved sel ws id :
  NoDup (wID <$> ws) →
  id ∈ rfID <$> resolve sel ws ↔
  ∃ w, w ∈ ws ∧ wID w = id ∧ wRetiredAt w = None ∧ Matches sel (LabelMap w) = true.
Proof.
  intros Hnd. rewrite resolve_ids, elem_of_MatchWorkloads by done. unfold activeLabels.
  setoid_rewrite (fill_lookup Retired LabelMap); [|done]. setoid_rewrite Retired_false. naive_solver.
Qed.

(** The loop over named ids. *)
Lemma resolveIDs_spec {Er} byID i ids f seen resolved f' resolved' :
  resolveIDs (Er := Er) byID i ids f seen resolved = Ok (f', resolved') →
  (∀ id, id ∈ seen ↔ id ∈ resolved) → NoDup resolved →
  NoDup resolved' ∧
  (f' = [] → f = [] ∧ (∀ id, id ∈ resolved' ↔ id ∈ resolved ∨ id ∈ ids) ∧
     ∀ id, id ∈ ids → ∃ w, byID !! id = Some w ∧ wRetiredAt w = None).
Proof.
  revert i f seen resolved. induction ids as [|id ids IH]; intros i f seen resolved; cbn [resolveIDs].
  - intros [= <- <-] _ Hnd. split; [done|]. intros ->. setoid_rewrite elem_of_nil. naive_solver.
  - destruct (byID !! id) as [w|] eqn:Hw.
    + unfold refuseRetired. destruct (wRetiredAt w) eqn:Hr; cbn [mbind result_bind]; [done|].
      destruct (decide (id ∈ seen)) as [Hs|Hs]; intros Hrun Hseen Hnd.
      * destruct (IH _ _ _ _ Hrun Hseen Hnd) as (? & Hrest). split; [done|]. intros Hf.
        destruct (Hrest Hf) as (? & Hmem & Hall). setoid_rewrite elem_of_cons. split_and!; [done| |naive_solver].
        intros x. rewrite Hmem. apply Hseen in Hs. naive_solver.
      * assert (id ∉ resolved) as Hnot by (by rewrite <-Hseen).
        destruct (IH _ _ _ _ Hrun) as (? & Hrest).
        { intros x. rewrite elem_of_union, elem_of_singleton, elem_of_app, list_elem_of_singleton, Hseen. tauto. }
        { apply NoDup_app. split_and!; [done| |apply NoDup_singleton].
          intros x Hx ->%list_elem_of_singleton. done. }
        split; [done|]. intros Hf. destruct (Hrest Hf) as (? & Hmem & Hall).
        setoid_rewrite elem_of_cons. split_and!; [done| |naive_solver].
        intros x. rewrite Hmem, elem_of_app, list_elem_of_singleton. tauto.
    + intros Hrun Hseen Hnd. destruct (IH _ _ _ _ Hrun Hseen Hnd) as (? & Hrest). split; [done|].
      intros Hf. destruct (Hrest Hf) as (Habs & _). by destruct f.
Qed.

Lemma resolveRequest_spec {Er} req inp ids :
  NoDup (wID <$> inWorkloads inp) → resolveRequest (Er := Er) req inp = Ok ids →
  NoDup ids ∧ ∀ id, id ∈ ids ↔ selected req inp id.
Proof.
  intros Hnd. unfold resolveRequest, selected. destruct (decide (mqSelector req ≠ ∅)).
  - intros [= <-]. split; [rewrite resolve_ids by done; apply MatchWorkloads_NoDup|].
    intros id. by apply elem_of_resolved.
  - intros ([f ids'] & Hrun & Hfin)%result_bind_Ok. cbn [fst snd] in Hfin. destruct f; [|done].
    injection Hfin as <-. destruct (resolveIDs_spec _ _ _ _ _ _ _ _ Hrun) as (Hu & Hrest); [set_solver|constructor|].
    split; [done|]. destruct (Hrest eq_refl) as (_ & Hmem & Hall). intros id. rewrite Hmem. split.
    + intros [?%elem_of_nil|Hid]; [done|]. destruct (Hall id Hid) as (w & [Hw Hwid]%workloadsByID_lookup & Hr); [|done]. eauto.
    + intros (w & _ & _ & _ & Hid). auto.
Qed.

(** The count the code makes of the workloads needing the change. *)
Lemma desired_count req inp ids uuid now :
  NoDup (wID <$> inWorkloads inp) → NoDup ids → (∀ id, id ∈ ids → id ∈ wID <$> inWorkloads inp) →
  mcDesiredUpdated (changeRecord uuid now req (workloadsByID inp) ids) = length (needing ids (mqTargetMode req) inp).
Proof.
  intros Hnd Hids Hin. unfold changeRecord, needing. cbn [mcDesiredUpdated].
  rewrite <-(length_fmap wID). apply Permutation_length, NoDup_Permutation.
  - by apply NoDup_filter.
  - eapply sublist_NoDup; [exact Hnd|]. apply fmap_sublist, sublist_filter.
  - intros id. rewrite list_elem_of_filter, list_elem_of_fmap. setoid_rewrite list_elem_of_filter. split.
    + intros [Hm Hid]. destruct (proj1 (list_elem_of_fmap _ _ _) (Hin id Hid)) as (w & -> & Hw). exists w.
      rewrite (proj2 (workloadsByID_lookup inp (wID w) w Hnd)) in Hm by done. done.
    + intros (w & -> & [Hid Hm] & Hw). rewrite (proj2 (workloadsByID_lookup inp (wID w) w Hnd)) by done. done.
Qed.
End selection.

(** ** What a render leaves of a changed estate *)

Section settled.
Context `{UUIDLib}.

(** The mode a workload is rendered with. *)
Definition effectiveMode (m : EnforcementMode) : EnforcementMode :=
  if decide (m = ENFORCEMENT_MODE_UNSPECIFIED) then ENFORCEMENT_MODE_VISIBILITY else m.

Definition canonical_policies : gmap WorkloadID WorkloadPolicy → Prop :=
  map_Forall (λ _ p, Canonical (Some p) = p).

Lemma Equal_content p q :
  Equal (Some p) (Some q) = true →
  without_version (Canonical (Some p)) = without_version (Canonical (Some q)).
Proof. unfold Equal. by intros Hb%bool_decide_eq_true. Qed.

Lemma Equal_mode p q : Equal (Some p) (Some q) = true → wpMode p = wpMode q.
Proof. intros Hb%Equal_content. by injection Hb. Qed.

Lemma Equal_permits p q src proto port :
  Canonical (Some p) = p → Canonical (Some q) = q → Equal (Some p) (Some q) = true →
  permits (Some p) src proto port = permits (Some q) src proto port.
Proof.
  intros Hp Hq Hb%Equal_content. rewrite Hp, Hq in Hb. unfold without_version in Hb. injection Hb as _ Hr.
  unfold permits. cbn [GetInboundRules fmap option_fmap option_map default]. by rewrite Hr.
Qed.

Lemma saved_canonical m current : canonical_policies m → canonical_policies (saved m (Plan m current)).
Proof.
  intros Hm id p Hp. destruct (current !! id) as [cur|] eqn:Hc; [|rewrite saved_others in Hp by done; by eapply Hm].
  destruct (saved_lookup m _ (Plan_ids m current)) as [Hin _]. specialize (Hin (planOne m id cur)).
  change (oID (planOne m id cur)) with id in Hin. rewrite Hin in Hp by (apply elem_of_Plan; eauto).
  destruct (oChanged (planOne m id cur)) eqn:Hch; [|by eapply Hm].
  injection Hp as <-. by apply planOne_savable.
Qed.

(** The policy kept for an active workload after a render. *)
Lemma settled_policy inp m w :
  NoDup (wID <$> inWorkloads inp) → w ∈ inWorkloads inp → wRetiredAt w = None →
  ∃ p, saved m (Plan m (Render inp)) !! wID w = Some p ∧ wpMode p = effectiveMode (wMode w) ∧
       Equal (Some p) (Some (renderWorkload inp w)) = true.
Proof.
  intros Hnd Hw Hr%Retired_false.
  destruct (saved_rendered m (Render inp) (wID w) (renderWorkload inp w)) as (p & Hp & He).
  { rewrite Render_lookup by done. by rewrite Hr. }
  exists p. split_and!; [done| |done]. by apply Equal_mode in He.
Qed.

Lemma settled_permits `{!UUIDLaws} inp m w src proto port :
  NoDup (wID <$> inWorkloads inp) → NoDup (ruleID <$> (inRulesets inp ≫= rsRules)) → canonical_policies m →
  w ∈ inWorkloads inp → wRetiredAt w = None → compiled proto →
  ∃ p, saved m (Plan m (Render inp)) !! wID w = Some p ∧
    (permits (Some p) src proto port = true ↔ ∃ r, bearsOn inp w r ∧ ruleLets inp src proto port r).
Proof.
  intros Hnd Hrules Hm Hw Hr Hc. destruct (settled_policy inp m w Hnd Hw Hr) as (p & Hp & _ & He).
  exists p. split; [done|]. rewrite (Equal_permits p (renderWorkload inp w)); [by apply renderWorkload_permits| | |done].
  - eapply (saved_canonical m (Render inp)); [done|exact Hp].
  - apply Canonical_idemp.
Qed.

Lemma changing_ids P f inp :
  (∀ w, wID (f w) = wID w) → wID <$> inWorkloads (changing P f inp) = wID <$> inWorkloads inp.
Proof.
  intros Hf. unfold changing. cbn [inWorkloads]. rewrite <-list_fmap_compose. apply list_fmap_ext.
  intros i w _. cbn. destruct (P w); auto.
Qed.

Lemma elem_of_changing (P : Workload → bool) f inp w :
  w ∈ inWorkloads inp → (if P w then f w else w) ∈ inWorkloads (changing P f inp).
Proof. intros Hw. cbn [changing inWorkloads]. by apply (list_elem_of_fmap_2 (λ w, if P w then f w else w)). Qed.

(** A failed operation changed nothing, unless only the answer to its commit was lost. *)
Definition nothing_done {St Er} (fin : Finish) (s : St) (e : FleetError Er) (s' : St) : Prop :=
  s' = s ∨ fin = FinUnanswered ∧ e = FeCommit.

Lemma inTx_cases {St Er A} (fin : Finish) (fn : St → result (FleetError Er) (A * St)) s
    (Q : A → St → Prop) (R : FleetError Er → Prop) :
  R (FeBegin (Er := Er)) → R (FeCommit (Er := Er)) →
  match fn s with Ok (a, s') => Q a s' | Err e => R e end →
  match inTx fin fn s with
  | (Ok a, s') => Q a s'
  | (Err e, s') => nothing_done fin s e s' ∧ R e
  end.
Proof.
  intros HB HC. unfold inTx, nothing_done. destruct fin, (fn s) as [[a s']|e]; auto.
Qed.
End settled.

(** ** Changing modes *)

Section changes.
Context `{UUIDLib} {St Er : Type} `{!RenderTx St Er, !RenderTxLaws St Er} `{!ModeChangeTx St Er, !ModeChangeLaws St Er}.

(** What a mode change did. *)
Definition mode_changed (req : ModeChangeRequest) (inp : Inputs) (res : ModeChangeResult) (s' : St) : Prop :=
  ∃ ids policies, NoDup ids ∧ (∀ id, id ∈ ids ↔ selected req inp id) ∧
    Z.of_nat (length ids) = mqExpectedMatchCount req ∧ mrMatched res = length ids ∧
    mrDesiredUpdated res = length (needing ids (mqTargetMode req) inp) ∧
    LoadInputs s' = Ok (withModes ids (mqTargetMode req) inp) ∧ LoadPolicies s' = Ok policies ∧
    ∀ w, w ∈ inWorkloads inp → wRetiredAt w = None →
      ∃ p, policies !! wID w = Some p ∧
        wpMode p = (if decide (wID w ∈ ids) then mqTargetMode req else effectiveMode (wMode w)).

Lemma modeFindings_specified m : modeFindings m = [] → effectiveMode m = m.
Proof. by destruct m. Qed.

Lemma resolveIDs_fails byID i ids f seen resolved e :
  resolveIDs (Er := Er) byID i ids f seen resolved = Err e → ∃ id t, e = FeRetired id t.
Proof.
  revert i f seen resolved. induction ids as [|id ids IH]; intros i f seen resolved; cbn [resolveIDs]; [done|].
  destruct (byID !! id) as [w|]; [|apply IH]. unfold refuseRetired.
  destruct (wRetiredAt w) as [t|]; cbn [mbind result_bind]; [intros [= <-]; eauto|].
  destruct (decide (id ∈ seen)); apply IH.
Qed.

Lemma resolveRequest_fails req inp e a b : resolveRequest (Er := Er) req inp = Err e → e ≠ FeMoved a b.
Proof.
  unfold resolveRequest. destruct (decide (mqSelector req ≠ ∅)); [done|].
  destruct (resolveIDs _ _ _ _ _ _) as [[[|] ids]|e'] eqn:Hrun; cbn [mbind result_bind fst snd]; [done| |].
  - by intros [= <-].
  - intros [= <-]. by apply resolveIDs_fails in Hrun as (id & t & ->).
Qed.

(** The rest of the transaction, once the set is resolved. *)
Lemma changed_after ids req inp m uuid now renderAt s s1 us s2 rep :
  LoadInputs s = Ok inp → LoadPolicies s = Ok m → NoDup (wID <$> inWorkloads inp) →
  modeFindings (mqTargetMode req) = [] →
  NoDup ids → (∀ id, id ∈ ids ↔ selected req inp id) → Z.of_nat (length ids) = mqExpectedMatchCount req →
  RecordModeChange (changeRecord uuid now req (workloadsByID inp) ids) s = Ok s1 →
  SetWorkloadModes ids (mqTargetMode req) s1 = Ok us → RenderIn renderAt us.2 = Ok (s2, rep) →
  mode_changed req inp (MkModeChangeResult uuid (length ids) (length (needing ids (mqTargetMode req) inp)) rep) s2.
Proof.
  intros Hi Hm Hnd Hmode Hids Hsel Hcount Hrec Hset Hren. destruct us as [n s1'].
  destruct (record_keeps _ _ _ _ _ Hrec) as [Ei Em]. rewrite Hi in Ei. rewrite Hm in Em.
  destruct (modes_flip _ _ _ _ _ _ _ _ Hmode Hset Ei) as (Ei' & Em' & _). rewrite Em in Em'. cbn [snd] in Hren.
  destruct (RenderIn_saved _ _ _ _ _ _ Ei' Em' Hren) as [Hi2 Hm2].
  eexists ids, _. split_and!; [done|done|done|done|done|exact Hi2|exact Hm2|]. intros w Hw Hr.
  pose (w' := if bool_decide (wID w ∈ ids) then setMode (mqTargetMode req) w else w).
  destruct (settled_policy (withModes ids (mqTargetMode req) inp) m w') as (p & Hp & Hpm & _).
  - unfold withModes. by rewrite changing_ids.
  - by apply (elem_of_changing (λ w, bool_decide (wID w ∈ ids)) (setMode (mqTargetMode req)) inp w).
  - unfold w'. by case_bool_decide.
  - exists p. unfold w' in *. case_bool_decide as Hin.
    + rewrite decide_True by done. split; [exact Hp|]. rewrite Hpm. by apply modeFindings_specified.
    + rewrite decide_False by done. done.
Qed.

Lemma changeModeIn_spec uuid now renderAt req s inp m :
  LoadInputs s = Ok inp → LoadPolicies s = Ok m → NoDup (wID <$> inWorkloads inp) →
  modeFindings (mqTargetMode req) = [] →
  match changeModeIn (Er := Er) uuid now renderAt req s with
  | Ok (res, s') => mode_changed req inp res s'
  | Err e => ∀ a b, e ≠ FeMoved a b
  end.
Proof.
  intros Hi Hm Hnd Hmode. unfold changeModeIn. rewrite Hi. cbn [asTx mbind result_bind].
  destruct (resolveRequest req inp) as [ids|e] eqn:Hres; cbn [mbind result_bind];
    [|intros a b; by eapply resolveRequest_fails].
  destruct (resolveRequest_spec _ _ _ Hnd Hres) as [Hids Hsel].
  destruct (decide _) as [|Hcount]; [done|]. apply dec_stable in Hcount.
  destruct (RecordModeChange _ s) as [s1|e] eqn:Hrec; cbn [asTx mbind result_bind]; [|done].
  destruct (SetWorkloadModes _ _ s1) as [us|e] eqn:Hset; cbn [asTx mbind result_bind]; [|done].
  rewrite desired_count; [|done|done|].
  2:{ intros id (w & Hw & <- & _)%Hsel. by apply list_elem_of_fmap_2. }
  rewrite decide_False.
  2:{ destruct us as [n s1']. destruct (record_keeps _ _ _ _ _ Hrec) as [Ei _]. rewrite Hi in Ei.
      destruct (modes_flip _ _ _ _ _ _ _ _ Hmode Hset Ei) as (_ & _ & Hn). cbn [fst]. intros Hne. by apply Hne. }
  destruct (RenderIn renderAt us.2) as [[s2 rep]|e] eqn:Hren; cbn [asTx mbind result_bind fst snd]; [|done].
  by eapply changed_after.
Qed.
End changes.

(** C11: a mode change flips exactly the selected set.  When it succeeds, the set is
    the registered, active workloads that match the selector or are named, without
    repetition; its size is the number the operator expected; the reported count is
    the number not already in the mode; those workloads and no others have the new
    mode afterwards, nothing else of the inputs changed, and every active workload has
    a persisted policy with its mode.  When it fails, nothing changed, unless only the
    answer to the commit was lost; the count of flipped rows never disagrees with the
    resolved set. *)
Theorem ChangeMode_exact `{UUIDLib} {St Er : Type} `{!RenderTx St Er, !RenderTxLaws St Er}
    `{!ModeChangeTx St Er, !ModeChangeLaws St Er} fin uuid now renderAt req hasExpected s inp m :
  LoadInputs s = Ok inp → LoadPolicies s = Ok m → NoDup (wID <$> inWorkloads inp) →
  match ChangeMode fin uuid now renderAt req hasExpected s with
  | (Ok res, s') => hasExpected = true ∧ mode_changed req inp res s'
  | (Err e, s') => nothing_done fin s e s' ∧ ∀ a b, e ≠ FeMoved a b
  end.
Proof.
  intros Hi Hm Hnd. unfold ChangeMode.
  destruct (validateModeChange req hasExpected) as [|f fs] eqn:Hv; [|by split; [left|]].
  unfold validateModeChange in Hv. apply app_eq_nil in Hv as [_ Hv]. apply app_eq_nil in Hv as [Hmode Hexp].
  assert (hasExpected = true) as -> by (by destruct hasExpected).
  apply (inTx_cases fin _ s (λ res s', true = true ∧ mode_changed req inp res s') (λ e, ∀ a b, e ≠ FeMoved a b)); [done|done|].
  pose proof (changeModeIn_spec uuid now renderAt req s inp m Hi Hm Hnd Hmode) as Hspec.
  destruct (changeModeIn uuid now renderAt req s) as [[res s']|e]; [by split|exact Hspec].
Qed.

(** ** Retiring *)

Section retiring.
Context `{UUIDLib} `{!UUIDLaws} {St Er : Type} `{!RenderTx St Er, !RenderTxLaws St Er} `{!RetireTx St Er, !RetireLaws St Er}.

(** What a retirement did. *)
Definition retired_from (id : WorkloadID) (now window : Z) (inp : Inputs) (m : gmap WorkloadID WorkloadPolicy)
    (res : Retirement) (s' : St) : Prop :=
  let at_ := truncateMicros now in
  let inp' := withRetired id at_ inp in
  ∃ w proc policies,
    w ∈ inWorkloads inp ∧ wID w = id ∧ wRetiredAt w = None ∧
    rmID res = id ∧ rmRetiredAt res = at_ ∧
    rmClosed res = SilenceAtRetirement (wLastFlowReportAt w) proc at_ window ∧
    LoadInputs s' = Ok inp' ∧ LoadPolicies s' = Ok policies ∧ policies !! id = m !! id ∧
    ∀ v src proto port, v ∈ inWorkloads inp → wID v ≠ id → wRetiredAt v = None → compiled proto →
      ∃ p, policies !! wID v = Some p ∧
        (permits (Some p) src proto port = true ↔ ∃ r, bearsOn inp' v r ∧ ruleLets inp' src proto port r).

Lemma retired_unrendered id at_ inp :
  NoDup (wID <$> inWorkloads inp) → id ∈ wID <$> inWorkloads inp → Render (withRetired id at_ inp) !! id = None.
Proof.
  intros Hnd (w & -> & Hw)%list_elem_of_fmap. unfold withRetired.
  set (inp' := changing _ _ inp).
  assert (setRetired at_ w ∈ inWorkloads inp') as Hw'.
  { pose proof (elem_of_changing (λ v, bool_decide (wID v = wID w)) (setRetired at_) inp w Hw) as He.
    cbn beta in He. by rewrite bool_decide_eq_true_2 in He by done. }
  pose proof (Render_lookup inp' (setRetired at_ w)) as Hl. change (wID (setRetired at_ w)) with (wID w) in Hl.
  rewrite Hl; [done| |done]. unfold inp'. by rewrite changing_ids.
Qed.

Lemma retireIn_spec now renderAt window id s inp m :
  LoadInputs s = Ok inp → LoadPolicies s = Ok m → NoDup (wID <$> inWorkloads inp) →
  NoDup (ruleID <$> (inRulesets inp ≫= rsRules)) → canonical_policies m →
  match retireIn (Er := Er) now renderAt window id s with
  | Ok (res, s') => retired_from id now window inp m res s'
  | Err (FeRetired i t) => ∃ w, w ∈ inWorkloads inp ∧ wID w = id ∧ i = id ∧ wRetiredAt w = Some t
  | Err FeWorkloadUnknown => id ∉ wID <$> inWorkloads inp
  | Err _ => True
  end.
Proof.
  intros Hi Hm Hnd Hrules Hcan. unfold retireIn.
  destruct (LockWorkload id s) as [subj|e] eqn:Hl; cbn [asTx mbind result_bind]; [|done].
  pose proof (lock_reads _ _ _ _ _ _ Hl Hi) as Hsubj. destruct subj as [subj|]; [|exact Hsubj].
  destruct Hsubj as (w & Hw & Hid & Hr & Hlast). destruct (rtRetiredAt subj) as [t|] eqn:Ht; [by exists w|].
  destruct (StampRetired _ _ _) as [s1|e] eqn:Hs; cbn [asTx mbind result_bind]; [|done].
  destruct (stamp_retires _ _ _ _ _ _ _ Hs Hi) as [Hi1 Hm1]. rewrite Hm in Hm1.
  set (at_ := truncateMicros now) in *.
  set (closed := SilenceAtRetirement _ _ _ _).
  destruct (match closed with Some gap => _ | None => _ end) as [s2|e] eqn:Hg; cbn [asTx mbind result_bind]; [|done].
  assert (same_loads s1 s2) as [Hi2 Hm2].
  { destruct closed as [gap|]; [by eapply gaps_keep|]. injection Hg as <-. done. }
  rewrite Hi1 in Hi2. rewrite Hm1 in Hm2.
  destruct (RenderIn renderAt s2) as [[s3 rep]|e] eqn:Hren; cbn [asTx mbind result_bind fst snd]; [|done].
  destruct (RenderIn_saved _ _ _ _ _ _ Hi2 Hm2 Hren) as [Hi3 Hm3].
  destruct (DirectEnd id s3) as [s4|e] eqn:Hd; cbn [asTx mbind result_bind]; [|done].
  destruct (end_keeps _ _ _ _ _ Hd) as [Hi4 Hm4]. rewrite Hi3 in Hi4. rewrite Hm3 in Hm4.
  exists w, (rtProcess subj), (saved m (Plan m (Render (withRetired id at_ inp)))).
  split_and!; [done|done|done|done|done| |done|done| |].
  - unfold closed. by rewrite Hlast.
  - apply saved_others, retired_unrendered; [done|]. rewrite <-Hid. by apply list_elem_of_fmap_2.
  - intros v src proto port Hv Hne Hvr Hp. apply settled_permits; [|done|done| |done|done].
    + unfold withRetired. by rewrite changing_ids.
    + pose proof (elem_of_changing (λ w, bool_decide (wID w = id)) (setRetired at_) inp v Hv) as He.
      cbn beta in He. by rewrite bool_decide_eq_false_2 in He by done.
Qed.
End retiring.

