(* ===== verification/AuthoringFacts.v ===== *)
(** * The authoring service is correct

    The theorems of [Authoring.v], for every store with the laws of the interface:
    the comparison and provenance of rules, what is stored is admitted, findings
    write nothing, and an edit of one rule changes that rule alone. *)

From S2P Require Import Prelude GoStd Netip Wire Uuid Identity Policy Validate Authoring.
Local Open Scope Z_scope.

(** ** Comparing and carrying rules *)

Section rule_facts.
Context `{UUIDLib}.

Lemma EqualFunc_iff {A} (eq : A → A → bool) l1 l2 :
  EqualFunc eq l1 l2 = true ↔ Forall2 (λ x y, eq x y = true) l1 l2.
Proof.
  revert l2. induction l1 as [|x l1 IH]; intros [|y l2]; cbn [EqualFunc].
  - split; [constructor|done].
  - split; [done|]. by intros ?%Forall2_nil_cons_inv.
  - split; [done|]. by intros ?%Forall2_cons_nil_inv.
  - rewrite andb_true_iff, IH. split; [intros []; by constructor|]. by intros [? ?]%Forall2_cons.
Qed.

Lemma entryEqual_iff a b : entryEqual a b = true ↔ a = b.
Proof.
  unfold entryEqual. rewrite andb_true_iff, !bool_decide_eq_true. destruct a, b. cbn. naive_solver.
Qed.

(** Selectors without empty value lists are compared exactly. *)
Lemma peerEqual_iff a b :
  map_Forall (λ _ vs, vs ≠ []) (peerWorkloads a) → peerEqual a b = true ↔ a = b.
Proof.
  intros Hne. unfold peerEqual. rewrite !andb_true_iff, !bool_decide_eq_true, forallb_forall.
  setoid_rewrite <-list_elem_of_In. split.
  - intros ((((Hk & Hg) & Hc) & Hs) & Hall). destruct a as [ka wa ga ca], b as [kb wb gb cb]. cbn in *. subst.
    f_equal. assert (wa ⊆ wb) as Hsub.
    { apply map_subseteq_spec. intros k vs Hk. pose proof (Hne _ _ Hk) as Hvs.
      apply elem_of_map_to_list in Hk. specialize (Hall _ Hk). cbn in Hall.
      apply bool_decide_eq_true in Hall. destruct (wb !! k); cbn in Hall; congruence. }
    by apply map_subseteq_size_eq; [|lia].
  - intros ->. split_and!; try done. intros [k vs] Hk%elem_of_map_to_list. apply bool_decide_eq_true.
    by rewrite Hk.
Qed.

(** The content of a rule: all but its id, instants, version and faults. *)
Definition sameContent (a b : Rule) : Prop :=
  ruleDirection a = ruleDirection b ∧ ruleEnabled a = ruleEnabled b ∧
  ruleDescription a = ruleDescription b ∧ rulePeers a = rulePeers b ∧
  ruleServiceIDs a = ruleServiceIDs b ∧ ruleEntries a = ruleEntries b.

Lemma RuleEqual_iff refs a b : Forall (peer_ok refs) (rulePeers a) → RuleEqual a b = true ↔ sameContent a b.
Proof.
  intros Hp. unfold RuleEqual, sameContent.
  rewrite !andb_true_iff, !bool_decide_eq_true, !EqualFunc_iff.
  assert (Forall2 (λ x y, peerEqual x y = true) (rulePeers a) (rulePeers b) ↔ rulePeers a = rulePeers b) as ->.
  { rewrite list_eq_Forall2. revert Hp. generalize (rulePeers b). induction (rulePeers a) as [|p ps IH];
      intros l Hp; [split; intros HF; by apply Forall2_nil_inv_l in HF as ->|].
    apply Forall_cons in Hp as [Hok Hp]. destruct l as [|q l].
    { split; intros HF; by apply Forall2_cons_nil_inv in HF. }
    rewrite !Forall2_cons, IH by done. rewrite peerEqual_iff; [done|].
    unfold peer_ok in Hok. destruct (peerKind p); destr_and; try done;
      [|by rewrite H0..]. destruct H0 as [_ H0]. eapply map_Forall_impl; [exact H0|]. cbn. tauto. }
  assert (Forall2 (λ x y, entryEqual x y = true) (ruleEntries a) (ruleEntries b) ↔ ruleEntries a = ruleEntries b) as ->.
  { rewrite list_eq_Forall2. split; intros HF; eapply Forall2_impl; try exact HF; intros; by apply entryEqual_iff. }
  tauto.
Qed.

Lemma rulesBefore_lookup rules id :
  rulesBefore rules !! id = last (filter (λ r, ruleID r = id) rules).
Proof.
  unfold rulesBefore. induction rules as [|r rules IH] using rev_ind; [done|].
  rewrite foldl_app, filter_app, last_app, filter_cons. cbn.
  destruct (decide (ruleID r = id)) as [<-|Hne]; [by rewrite lookup_insert_eq|].
  rewrite lookup_insert_ne by done. rewrite IH. by cbn.
Qed.

Lemma rulesBefore_elem rules r :
  NoDup (ruleID <$> rules) → r ∈ rules → rulesBefore rules !! ruleID r = Some r.
Proof.
  intros Hnd Hr. rewrite rulesBefore_lookup. by rewrite (filter_unique ruleID).
Qed.

(** A rule that is handed back unchanged keeps its provenance. *)
Lemma carryRule_same refs rules at_ r :
  NoDup (ruleID <$> rules) → r ∈ rules → Forall (peer_ok refs) (rulePeers r) →
  carryRule (rulesBefore rules) at_ r = r.
Proof.
  intros Hnd Hr Hp. unfold carryRule. rewrite rulesBefore_elem by done.
  rewrite (proj2 (RuleEqual_iff refs r r Hp)) by by repeat split. by destruct r.
Qed.

Lemma carryRule_content before at_ r :
  sameContent (carryRule before at_ r) r ∧ ruleID (carryRule before at_ r) = ruleID r ∧
  ruleFaults (carryRule before at_ r) = ruleFaults r.
Proof. unfold carryRule. repeat case_match; by repeat split. Qed.
End rule_facts.

(** A rule's provenance follows its content.  Whatever ruleset replaces [prev],
    a rule under a new id is created now at version 1; a rule that [prev] has keeps
    its creation instant, keeps its update instant and version when its direction,
    enablement, description, peers, services and entries are the same, and otherwise
    is updated now at the next version.  Nothing else of a rule changes. *)
Theorem carryRuleProvenance_spec `{UUIDLib} refs prev next now :
  NoDup (ruleID <$> rsRules prev) → Forall (λ r, Forall (peer_ok refs) (rulePeers r)) (rsRules prev) →
  length (rsRules (carryRuleProvenance prev next now)) = length (rsRules next) ∧
  ∀ i r, rsRules next !! i = Some r → ∃ r', rsRules (carryRuleProvenance prev next now) !! i = Some r' ∧
    sameContent r' r ∧ ruleID r' = ruleID r ∧
    ((ruleID r ∉ ruleID <$> rsRules prev) →
       ruleCreatedAt r' = now ∧ ruleUpdatedAt r' = now ∧ ruleVersion r' = 1) ∧
    (∀ old, old ∈ rsRules prev → ruleID old = ruleID r →
       ruleCreatedAt r' = ruleCreatedAt old ∧
       (sameContent old r → ruleUpdatedAt r' = ruleUpdatedAt old ∧ ruleVersion r' = ruleVersion old) ∧
       (¬ sameContent old r → ruleUpdatedAt r' = now ∧ ruleVersion r' = i64 (ruleVersion old + 1))).
Proof.
  intros Hnd Hp. cbn [carryRuleProvenance withRules rsRules]. rewrite length_fmap. split; [done|].
  intros i r Hi. rewrite list_lookup_fmap, Hi. eexists. split; [done|].
  destruct (carryRule_content (rulesBefore (rsRules prev)) now r) as (Hc & Hid & _). split_and!; [done..| |].
  - intros Hni. unfold carryRule. rewrite rulesBefore_lookup, (proj2 (filter_nil_iff _ _)); [done|].
    intros y Hy Heq. apply Hni. rewrite <-Heq. by apply list_elem_of_fmap_2.
  - intros old Hold Heq. unfold carryRule. rewrite <-Heq, rulesBefore_elem by done.
    rewrite Forall_forall in Hp. pose proof (RuleEqual_iff refs old r (Hp _ Hold)) as Hiff.
    destruct (RuleEqual old r); cbn; split_and!; try done; intros Hs; try done.
    + by destruct Hs; apply Hiff.
    + by apply Hiff in Hs.
Qed.

(** ** Canonical CIDRs *)

Lemma canonicalCIDR_parse s p :
  ParsePrefix s = Some p → ParsePrefix (canonicalCIDR s) = Some (Masked p).
Proof.
  intros Hp. unfold canonicalCIDR. rewrite Hp. apply ParsePrefix_String, Masked_ok. by eapply ParsePrefix_ok.
Qed.

Lemma canonicalCIDR_idemp s : canonicalCIDR (canonicalCIDR s) = canonicalCIDR s.
Proof.
  destruct (ParsePrefix s) as [p|] eqn:Hp.
  - unfold canonicalCIDR at 1. rewrite (canonicalCIDR_parse _ _ Hp), Masked_idemp.
    unfold canonicalCIDR. by rewrite Hp.
  - unfold canonicalCIDR. by rewrite Hp, Hp.
Qed.

Lemma canonicalLoop_spec seen l :
  NoDup (canonicalLoop seen l) ∧
  ∀ c, c ∈ canonicalLoop seen l ↔ (c ∉ seen) ∧ ∃ s, s ∈ l ∧ c = canonicalCIDR s.
Proof.
  revert seen. induction l as [|s l IH]; intros seen; cbn [canonicalLoop].
  { split; [constructor|]. intros c. rewrite elem_of_nil. set_solver. }
  case_decide as Hin.
  - destruct (IH seen) as [Hnd Hc]. split; [done|]. intros c. rewrite Hc. split; [set_solver|].
    intros (Hns & x & [->|Hx]%elem_of_cons & ->); [done|]. eauto.
  - destruct (IH ({[canonicalCIDR s]} ∪ seen)) as [Hnd Hc]. split.
    + constructor; [|done]. rewrite Hc. set_solver.
    + intros c. rewrite elem_of_cons, Hc. destruct (decide (c = canonicalCIDR s)) as [->|Hne].
      * split; [|by left]. intros _. split; [done|]. exists s. split; [left|done].
      * set_solver.
Qed.

Lemma canonicalCIDRs_ok l :
  l ≠ [] → Forall (λ c, is_Some (ParsePrefix c)) l →
  canonicalCIDRs l ≠ [] ∧ Forall (λ c, is_Some (ParsePrefix c)) (canonicalCIDRs l).
Proof.
  intros Hne Hl. destruct (canonicalLoop_spec ∅ l) as [_ Hc]. split.
  - destruct l as [|s l]; [done|]. intros He. destruct (Hc (canonicalCIDR s)) as [_ Hin].
    unfold canonicalCIDRs in He. rewrite He in Hin. apply (not_elem_of_nil (canonicalCIDR s)), Hin.
    split; [set_solver|]. exists s. split; [left|done].
  - apply Forall_forall. intros c (_ & s & Hs & ->)%Hc. rewrite Forall_forall in Hl.
    destruct (Hl s Hs) as [p Hp]. rewrite (canonicalCIDR_parse _ _ Hp). eauto.
Qed.

Section peers.
Context `{UUIDLib}.

Lemma canonicalPeer_idemp p : canonicalPeer (canonicalPeer p) = canonicalPeer p.
Proof.
  destruct p as [[] w g c]; try done. unfold canonicalPeer. cbn. by rewrite canonicalCIDR_idemp.
Qed.

Lemma canonicalPeer_ok refs p : peer_ok refs p → peer_ok refs (canonicalPeer p).
Proof.
  destruct p as [[] w g c]; unfold canonicalPeer, peer_ok; cbn; try done.
  intros (? & ? & p & Hp). split_and!; try done. rewrite (canonicalCIDR_parse _ _ Hp). eauto.
Qed.

Lemma canonicalPeer_group p :
  peerKind (canonicalPeer p) = peerKind p ∧ peerAddressGroupID (canonicalPeer p) = peerAddressGroupID p.
Proof. by destruct p as [[] w g c]. Qed.

(** Admission does not depend on more references than the rule names. *)
Lemma peer_ok_refs refs refs' p :
  peer_ok refs p → (peerKind p = PeerAddressGroup → peerAddressGroupID p ∈ refAddressGroups refs') →
  peer_ok refs' p.
Proof. unfold peer_ok. destruct (peerKind p); naive_solver. Qed.

Lemma rule_ok_refs (c : Content) refs r : rule_ok refs r → resolves c r → rule_ok (refsOf c) r.
Proof.
  intros [Hf Hd Hps Hp Hss Hs He] [Hsv Hg]. split; try done.
  rewrite Forall_forall in Hp, Hg |- *. intros p Hin. eapply peer_ok_refs; [by apply Hp|]. by apply Hg.
Qed.

Lemma rule_ok_resolves c r : rule_ok (refsOf c) r → resolves c r.
Proof.
  intros [_ _ _ Hp _ Hs _]. split; [done|]. eapply Forall_impl; [exact Hp|]. cbn. intros p Hok Hk.
  unfold peer_ok in Hok. rewrite Hk in Hok. by destruct Hok as (_ & ? & _).
Qed.
End peers.

(** ** The store holds admitted objects only *)

Section invariant.
Context `{UUIDLib} {St : Type} `{!AuthoredStore St, !StoreView St, !AuthoredStoreLaws St}.

(** A rule as it is handed to the store, and as it lies there. *)
Record readyRule (refs : References) (r : Rule) : Prop := {
  ready_ok : rule_ok refs r;
  ready_id : ruleID r ≠ uuid_Nil;
  ready_peers : canonicalPeer <$> rulePeers r = rulePeers r;
  ready_typed : Forall typedEntry (ruleEntries r);
}.

Definition storedRule (c : Content) (r : Rule) : Prop := readyRule (refsOf c) r ∧ keptRule r = r.

Record readyRuleset (refs : References) (rs : Ruleset) : Prop := {
  ready_name : rsName rs ≠ "";
  ready_scope : selector_ok (rsScope rs);
  ready_rules : Forall (readyRule refs) (rsRules rs);
}.

Definition service_in (s : Service) : Prop :=
  svcName s ≠ "" ∧ svcEntries s ≠ [] ∧ Forall entry_ok (svcEntries s).
Definition group_in (g : AddressGroup) : Prop :=
  agName g ≠ "" ∧ agCIDRs g ≠ [] ∧ Forall (λ c, is_Some (ParsePrefix c)) (agCIDRs g).

(** Every stored object passed admission, references included. *)
Record content_ok (c : Content) : Prop := {
  co_services id s : cServices c !! id = Some s → svcID s = id ∧ service_in s;
  co_groups id g : cGroups c !! id = Some g → agID g = id ∧ group_in g;
  co_rulesets id rs : cRulesets c !! id = Some rs →
    rsID rs = id ∧ ruleset_ok (refsOf c) rs ∧ Forall (storedRule c) (rsRules rs);
}.

(** A store in a proper state that holds admitted objects only. *)
Definition good (s : St) : Prop := valid s ∧ content_ok (content s).

Lemma storedRule_refs c c' r :
  storedRule c r → resolves c' r → storedRule c' r.
Proof.
  intros [[Hok Hid Hp Ht] Hk] Hres. split; [split; try done|done]. by eapply rule_ok_refs.
Qed.

(** Rules that resolve in another content make a ruleset admitted there. *)
Lemma ruleset_ok_refs c c' rs :
  ruleset_ok (refsOf c) rs → Forall (storedRule c) (rsRules rs) → Forall (resolves c') (rsRules rs) →
  ruleset_ok (refsOf c') rs ∧ Forall (storedRule c') (rsRules rs).
Proof.
  intros [Hf Hn Hs Hid Hr] Hst Hres. rewrite Forall_forall in Hr, Hst, Hres. split.
  - split; try done. apply Forall_forall. intros r Hin. by eapply rule_ok_refs; [apply Hr|apply Hres].
  - apply Forall_forall. intros r Hin. by eapply storedRule_refs; [apply Hst|apply Hres].
Qed.

Lemma resolves_mono (c c' : Content) r :
  dom (cServices c) ⊆ dom (cServices c') → dom (cGroups c) ⊆ dom (cGroups c') → resolves c r → resolves c' r.
Proof.
  intros Hs Hg [H1 H2]. split; (eapply Forall_impl; [eassumption|]); cbn; set_solver.
Qed.

Lemma stored_resolves c r : storedRule c r → resolves c r.
Proof. intros [[Hok _ _ _] _]. by apply rule_ok_resolves. Qed.

(** A change of services and groups under which the stored rules resolve. *)
Lemma content_ok_objects c c' :
  content_ok c → cRulesets c' = cRulesets c →
  (∀ id s, cServices c' !! id = Some s → svcID s = id ∧ service_in s) →
  (∀ id g, cGroups c' !! id = Some g → agID g = id ∧ group_in g) →
  (∀ id rs, cRulesets c !! id = Some rs → Forall (resolves c') (rsRules rs)) →
  content_ok c'.
Proof.
  intros [Hs Hg Hr] Heq Hs' Hg' Hres. split; [done..|]. intros id rs. rewrite Heq. intros Hl.
  destruct (Hr _ _ Hl) as (Hid & Hok & Hst). split; [done|]. eapply ruleset_ok_refs; eauto.
Qed.

Lemma content_ok_grow c c' :
  content_ok c → cRulesets c' = cRulesets c →
  (∀ id s, cServices c' !! id = Some s → svcID s = id ∧ service_in s) →
  (∀ id g, cGroups c' !! id = Some g → agID g = id ∧ group_in g) →
  dom (cServices c) ⊆ dom (cServices c') → dom (cGroups c) ⊆ dom (cGroups c') →
  content_ok c'.
Proof.
  intros Hc Heq Hs' Hg' Hds Hdg. eapply content_ok_objects; try done. intros id rs Hl.
  destruct (co_rulesets _ Hc _ _ Hl) as (_ & _ & Hst). eapply Forall_impl; [exact Hst|]. cbn.
  intros r Hr%stored_resolves. by eapply resolves_mono.
Qed.

Lemma content_ok_setService c s :
  content_ok c → service_in s → content_ok (setService s c).
Proof.
  intros Hc Hs. eapply content_ok_grow; try done; cbn.
  - intros id x [[<- <-]|[_ Hx]]%lookup_insert_Some; [done|]. by apply Hc.
  - apply Hc.
  - rewrite dom_insert. set_solver.
Qed.

Lemma content_ok_setGroup c g : content_ok c → group_in g → content_ok (setGroup g c).
Proof.
  intros Hc Hg. eapply content_ok_grow; try done; cbn.
  - apply Hc.
  - intros id x [[<- <-]|[_ Hx]]%lookup_insert_Some; [done|]. by apply Hc.
  - rewrite dom_insert. set_solver.
Qed.

Lemma readyRule_kept refs c r :
  readyRule refs r → resolves c r → storedRule c (keptRule r).
Proof.
  intros [Hok Hid Hp Ht] Hres. destruct (kept_rule_ok (refsOf c) r) as (Hok' & Ht' & Hp').
  { by eapply rule_ok_refs. } { done. }
  split; [split|by rewrite kept_rule_again]; try done.
  - by rewrite kept_rule_id.
  - by rewrite Hp'.
Qed.

Lemma content_ok_setRuleset c refs rs v rs' :
  content_ok c → readyRuleset refs rs → rulesetAs rs v rs' → storable c rs → content_ok (setRuleset rs' c).
Proof.
  intros Hc [Hn Hs Hr] (Eid & En & _ & _ & Es & Er & _ & Ef) [Hnd Hres].
  assert (Forall (storedRule c) (rsRules rs')) as Hst.
  { rewrite Er. apply Forall_fmap. rewrite Forall_forall in Hr, Hres |- *. intros r Hin. cbn.
    by eapply readyRule_kept; [apply Hr|apply Hres]. }
  split; cbn; [apply Hc..|]. intros id x [[<- <-]|[_ Hx]]%lookup_insert_Some; [|by apply Hc].
  split_and!; [done| |done]. split; [by rewrite Ef|by rewrite En|by rewrite Es| |].
  - apply NoDup_filter. rewrite Er, <-list_fmap_compose. by erewrite list_fmap_ext; [exact Hnd|intros; apply kept_rule_id].
  - eapply Forall_impl; [exact Hst|]. cbn. by intros r [[]].
Qed.
End invariant.

(** ** Calls keep the store admitted

    [keeps m P]: from a store of admitted objects [m] leaves one, and when it
    returns, its value satisfies [P]. *)
Section keeping.
Context `{UUIDLib} {St : Type} `{!AuthoredStore St, !StoreView St, !AuthoredStoreLaws St}.
Context (others : St → St) (clock : nat → Z) (uuids : nat → UUID) (renderer : option (St → bool * St)).
Hypothesis others_ok : ∀ s, good s → good (others s).
Hypothesis uuids_ok : ∀ n, uuids n ≠ uuid_Nil.
Hypothesis renderer_ok : ∀ f s, renderer = Some f → good s → good (f s).2.

Definition keeps {A} (m : Author St A) (P : A → Prop) : Prop :=
  ∀ w r w', good (woStore w) → m w = (r, w') → good (woStore w') ∧ ∀ a, r = Ok a → P a.

Lemma keeps_ret {A} (a : A) (P : A → Prop) : P a → keeps (mret a) P.
Proof. intros Ha w r w' Hw [= <- <-]. split; [done|]. by intros ? [= <-]. Qed.

Lemma keeps_throw {A} e (P : A → Prop) : keeps (throw e) P.
Proof. intros w r w' Hw [= <- <-]. split; [done|]. by intros ? ?. Qed.

Lemma keeps_bind {A B} (m : Author St A) (f : A → Author St B) P Q :
  keeps m P → (∀ a, P a → keeps (f a) Q) → keeps (m ≫= f) Q.
Proof.
  intros Hm Hf w r w' Hw. unfold mbind, author_bind.
  destruct (m w) as [[a|e] w1] eqn:Em; destruct (Hm _ _ _ Hw Em) as [Hw1 Ha].
  - apply Hf; [by apply Ha|done].
  - intros [= <- <-]. by split.
Qed.

Lemma keeps_impl {A} (m : Author St A) (P Q : A → Prop) : keeps m P → (∀ a, P a → Q a) → keeps m Q.
Proof. intros Hm HPQ w r w' Hw Er. destruct (Hm _ _ _ Hw Er) as [? HP]. split; [done|]. eauto. Qed.

Lemma keeps_onError {A} (m : Author St A) h P :
  keeps m P → (∀ e, keeps (h e) P) → keeps (onError m h) P.
Proof.
  intros Hm Hh w r w' Hw. unfold onError.
  destruct (m w) as [[a|e] w1] eqn:Em; destruct (Hm _ _ _ Hw Em) as [Hw1 Ha].
  - intros [= <- <-]. by split.
  - by apply Hh.
Qed.

Lemma keeps_store {A} (op : St → result StoreError A * St) (P : A → Prop) :
  (∀ s r s', good s → op s = (r, s') → good s' ∧ ∀ a, r = Ok a → P a) →
  keeps (store others op) P.
Proof.
  intros Hop w r w' Hw. unfold store. destruct (op (others (woStore w))) as [r0 s'] eqn:Eo.
  destruct (Hop _ _ _ (others_ok _ Hw) Eo) as [Hs Ha]. intros [= <- <-]. split; [done|].
  destruct r0; [|done]. intros a' [= <-]. by apply Ha.
Qed.

(** A write whose effect keeps the content admitted. *)
Lemma keeps_write {A} (op : St → result StoreError A * St) (effect : St → St → A → Prop) :
  (∀ s r s', valid s → op s = (r, s') → valid s' ∧ outcome r (content s) (content s') (effect s s')) →
  (∀ s s' a, content_ok (content s) → effect s s' a → content_ok (content s')) →
  keeps (store others op) (λ _, True).
Proof.
  intros Hop Heff. apply keeps_store. intros s r s' [Hv Hs] Ho. destruct (Hop _ _ _ Hv Ho) as [Hv' Hout].
  split; [split; [done|]|done]. destruct Hout as [a _ He|e _ He|a _ He]; [eauto|congruence|eauto].
Qed.

Lemma keeps_now : keeps (now clock) (λ _, True).
Proof. by intros w r w' Hw [= <- <-]. Qed.

Lemma keeps_idOrNew id : keeps (idOrNew uuids id) (λ i, i ≠ uuid_Nil).
Proof.
  unfold idOrNew. case_decide; [|by apply keeps_ret].
  intros w r w' Hw [= <- <-]. split; [done|]. by intros ? [= <-].
Qed.

Lemma keeps_render : keeps (render others renderer) (λ _, True).
Proof.
  intros w r w' Hw. unfold render. destruct renderer as [f|] eqn:Ef.
  - destruct (f (others (woStore w))) as [ok s] eqn:Er. intros [= <- <-]. split; [|done].
    pose proof (renderer_ok f (others (woStore w)) eq_refl (others_ok _ Hw)) as Hc. by rewrite Er in Hc.
  - by intros [= <- <-].
Qed.

Lemma keeps_admitted r : keeps (admitted r) (λ _, r = None).
Proof. destruct r; [apply keeps_throw|by apply keeps_ret]. Qed.

Lemma keeps_loadReferences : keeps (loadReferences others) (λ _, True).
Proof.
  eapply keeps_bind; [|intros l _; eapply keeps_bind; [|intros l' _; by apply keeps_ret]].
  - apply (keeps_store _ (λ _, True)). intros s r s' [Hv Hs] Ho. destruct (list_services _ _ _ Hv Ho) as (Hv' & Hc & _). split; [split; congruence|done].
  - apply (keeps_store _ (λ _, True)). intros s r s' [Hv Hs] Ho. destruct (list_groups _ _ _ Hv Ho) as (Hv' & Hc & _). split; [split; congruence|done].
Qed.

Lemma keeps_GetRuleset id :
  keeps (store others (st_GetRuleset id)) (λ rs, ∃ c, rsID rs = id ∧ ruleset_ok (refsOf c) rs ∧ Forall (storedRule c) (rsRules rs)).
Proof.
  apply keeps_store. intros s r s' [Hv Hs] Ho. destruct (get_ruleset _ _ _ _ Hv Ho) as (Hv' & Hc & Hg).
  split; [split; congruence|]. intros rs Hr. exists (content s). by apply Hs, Hg.
Qed.

Lemma keeps_assignRules refs rules :
  Forall (rule_ok refs) rules → Forall (λ r, Forall typedEntry (ruleEntries r)) rules →
  keeps (assignRules uuids rules) (Forall (readyRule refs)).
Proof.
  induction rules as [|r rules IH]; cbn [assignRules]; intros Hok Ht; [by apply keeps_ret|].
  apply Forall_cons in Hok as [Hr Hok]. apply Forall_cons in Ht as [Htr Ht].
  eapply keeps_bind with (readyRule refs).
  - unfold assignRuleID. eapply keeps_bind; [apply keeps_idOrNew|]. intros id Hid. apply keeps_ret.
    destruct Hr as [Hf Hd Hps Hp Hss Hs He]. split; cbn; try done.
    + split; cbn; try done; [by intros ?%fmap_nil_inv|]. apply Forall_fmap. eapply Forall_impl; [exact Hp|].
      intros p. apply canonicalPeer_ok.
    + rewrite <-list_fmap_compose. apply list_fmap_ext. intros ? p _. apply canonicalPeer_idemp.
  - intros r' Hr'. eapply keeps_bind; [by apply IH|]. intros rules' Hrs'. apply keeps_ret. by constructor.
Qed.

(** What the validators establish. *)
Lemma service_admitted s : ValidateService s = None →
  svcFaults s = [] ∧ svcName s ≠ "" ∧ svcEntries s ≠ [] ∧ Forall entry_ok (svcEntries s).
Proof. apply (checks_result _ _ (checks_service s)). Qed.
Lemma group_admitted g : ValidateAddressGroup g = None →
  agName g ≠ "" ∧ agCIDRs g ≠ [] ∧ Forall (λ c, is_Some (ParsePrefix c)) (agCIDRs g).
Proof. apply (checks_result _ _ (checks_group g)). Qed.
Lemma ruleset_admitted rs refs : ValidateRuleset rs refs = None → ruleset_ok refs rs.
Proof. apply (checks_result _ _ (checks_ruleset refs rs)). Qed.

Abbreviation typedRule := (λ r : Rule, Forall typedEntry (ruleEntries r)).

Lemma readyRule_carry refs before at_ r : readyRule refs r → readyRule refs (carryRule before at_ r).
Proof.
  intros [[Hf Hd Hps Hp Hss Hs He] Hid Hc Ht].
  destruct (carryRule_content before at_ r) as ((Ed & Ee & Edesc & Ep & Es & Een) & Eid & Ef).
  split; [split|..]; rewrite ?Ef, ?Ed, ?Ep, ?Es, ?Een, ?Eid; done.
Qed.

Lemma keeps_CreateService s : Forall typedEntry (svcEntries s) →
  keeps (CreateService others clock uuids renderer s) (λ _, True).
Proof.
  intros Ht. eapply keeps_bind; [apply keeps_admitted|]. intros [] Hv.
  eapply keeps_bind; [apply keeps_idOrNew|]. intros id _.
  eapply keeps_bind; [apply keeps_now|]. intros created _. eapply keeps_bind; [apply keeps_now|]. intros updated _.
  eapply keeps_bind; [eapply keeps_write; [apply create_service|]|].
  - intros s1 s2 [] Hc (x & (Eid & En & Ee & _) & _ & E2). rewrite E2. apply content_ok_setService; [done|].
    apply service_admitted in Hv as (_ & Hn & Hne & Hok).
    cbn in *. destruct (kept_entries_ok _ Hne Hok Ht). rewrite <-Ee in *. by rewrite <-En in Hn.
  - intros _ _. eapply keeps_bind; [apply keeps_render|]. intros _ _. by apply keeps_ret.
Qed.

Lemma keeps_UpdateService s expect : Forall typedEntry (svcEntries s) →
  keeps (UpdateService others clock renderer s expect) (λ _, True).
Proof.
  intros Ht. eapply keeps_bind; [apply keeps_admitted|]. intros [] Hv.
  eapply keeps_bind; [apply keeps_now|]. intros updated _.
  eapply keeps_bind; [eapply keeps_write; [apply update_service|]|].
  - intros s1 s2 v Hc (old & x & (Eid & En & Ee & _) & _ & _ & _ & E2). rewrite E2. apply content_ok_setService; [done|].
    apply service_admitted in Hv as (_ & Hn & Hne & Hok).
    cbn in *. destruct (kept_entries_ok _ Hne Hok Ht). rewrite <-Ee in *. by rewrite <-En in Hn.
  - intros v _. eapply keeps_bind; [apply keeps_render|]. intros _ _. by apply keeps_ret.
Qed.

Lemma group_in_as g v x :
  ValidateAddressGroup g = None → groupAs (MkAddressGroup (agID g) (agName g) (canonicalCIDRs (agCIDRs g)) 0 0 0) v x →
  group_in x.
Proof.
  intros Hv (_ & En & Ec & _). apply group_admitted in Hv as (Hn & Hne & Hok).
  destruct (canonicalCIDRs_ok _ Hne Hok) as [Hne' Hok']. cbn in *. split_and!.
  - by rewrite En.
  - intros Hx. destruct (canonicalCIDRs (agCIDRs g)) as [|c l]; [done|].
    apply (not_elem_of_nil c). rewrite <-Hx, Ec. left.
  - rewrite Forall_forall in Hok' |- *. intros c Hc%Ec. by apply Hok'.
Qed.

Lemma keeps_CreateAddressGroup g : keeps (CreateAddressGroup others clock uuids renderer g) (λ _, True).
Proof.
  eapply keeps_bind; [apply keeps_admitted|]. intros [] Hv.
  eapply keeps_bind; [apply keeps_idOrNew|]. intros id _.
  eapply keeps_bind; [apply keeps_now|]. intros created _. eapply keeps_bind; [apply keeps_now|]. intros updated _.
  eapply keeps_bind; [eapply keeps_write; [apply create_group|]|].
  - intros s1 s2 [] Hc (x & (Eid & En & Ec & Ev) & _ & E2). rewrite E2. apply content_ok_setGroup; [done|].
    eapply (group_in_as (MkAddressGroup id (agName g) (agCIDRs g) 0 0 0)); [exact Hv|exact (conj Eid (conj En (conj Ec Ev)))].
  - intros _ _. eapply keeps_bind; [apply keeps_render|]. intros _ _. by apply keeps_ret.
Qed.

Lemma keeps_UpdateAddressGroup g expect : keeps (UpdateAddressGroup others clock renderer g expect) (λ _, True).
Proof.
  eapply keeps_bind; [apply keeps_admitted|]. intros [] Hv.
  eapply keeps_bind; [apply keeps_now|]. intros updated _.
  eapply keeps_bind; [eapply keeps_write; [apply update_group|]|].
  - intros s1 s2 v Hc (old & x & (Eid & En & Ec & Ev) & _ & _ & _ & E2). rewrite E2. apply content_ok_setGroup; [done|].
    eapply (group_in_as g); [exact Hv|exact (conj Eid (conj En (conj Ec Ev)))].
  - intros v _. eapply keeps_bind; [apply keeps_render|]. intros _ _. by apply keeps_ret.
Qed.

(** Deleting what no rule names. *)
Lemma content_ok_delService c id :
  content_ok c →
  (∀ rid rs, cRulesets c !! rid = Some rs → Forall (λ r, id ∉ ruleServiceIDs r) (rsRules rs)) →
  content_ok (MkContent (delete id (cServices c)) (cGroups c) (cRulesets c)).
Proof.
  intros Hc Hun. eapply content_ok_objects; try done; cbn; [|apply Hc|].
  - intros i s [_ Hi]%lookup_delete_Some. by apply Hc.
  - intros rid rs Hr. destruct (co_rulesets _ Hc _ _ Hr) as (_ & _ & Hst). specialize (Hun _ _ Hr).
    rewrite Forall_forall in Hst, Hun |- *. intros r Hin.
    destruct (stored_resolves _ _ (Hst _ Hin)) as [Hs Hg]. split; [|done].
    specialize (Hun _ Hin). cbn in *. rewrite Forall_forall in Hs |- *. intros x Hx.
    rewrite dom_delete. specialize (Hs _ Hx). set_solver.
Qed.

Lemma content_ok_delGroup c id :
  content_ok c →
  (∀ rid rs, cRulesets c !! rid = Some rs →
     Forall (λ r, Forall (λ p, peerKind p = PeerAddressGroup → peerAddressGroupID p ≠ id) (rulePeers r)) (rsRules rs)) →
  content_ok (MkContent (cServices c) (delete id (cGroups c)) (cRulesets c)).
Proof.
  intros Hc Hun. eapply content_ok_objects; try done; cbn; [apply Hc| |].
  - intros i s [_ Hi]%lookup_delete_Some. by apply Hc.
  - intros rid rs Hr. destruct (co_rulesets _ Hc _ _ Hr) as (_ & _ & Hst). specialize (Hun _ _ Hr).
    rewrite Forall_forall in Hst, Hun |- *. intros r Hin.
    destruct (stored_resolves _ _ (Hst _ Hin)) as [Hs Hg]. split; [done|].
    specialize (Hun _ Hin). cbn in *. rewrite Forall_forall in Hg, Hun |- *. intros p Hp Hk.
    rewrite dom_delete. specialize (Hg _ Hp Hk). specialize (Hun _ Hp Hk). set_solver.
Qed.

Lemma keeps_deletes id expect :
  keeps (DeleteService others renderer id expect) (λ _, True) ∧
  keeps (DeleteAddressGroup others renderer id expect) (λ _, True) ∧
  keeps (DeleteRuleset others renderer id expect) (λ _, True).
Proof.
  split_and!; (eapply keeps_bind; [eapply keeps_write|intros _ _; apply keeps_render]).
  - apply delete_service.
  - intros s1 s2 a Hc (old & _ & _ & Hun & E2). rewrite E2. by apply content_ok_delService.
  - apply delete_group.
  - intros s1 s2 a Hc (old & _ & _ & Hun & E2). rewrite E2. by apply content_ok_delGroup.
  - apply delete_ruleset.
  - intros s1 s2 a [Hs Hg Hr] (old & _ & _ & E2). rewrite E2. split; cbn; [done..|].
    intros i rs [_ Hi]%lookup_delete_Some. by apply Hr.
Qed.

Lemma keeps_AssignIDs refs rs :
  Forall (rule_ok refs) (rsRules rs) → Forall typedRule (rsRules rs) →
  keeps (AssignIDs uuids rs) (λ x, Forall (readyRule refs) (rsRules x) ∧ rsName x = rsName rs ∧ rsScope x = rsScope rs).
Proof.
  intros Hok Ht. eapply keeps_bind; [apply keeps_idOrNew|]. intros id _.
  eapply keeps_bind; [by apply (keeps_assignRules refs)|]. intros rules Hr. by apply keeps_ret.
Qed.

Lemma keeps_CreateRuleset rs : Forall typedRule (rsRules rs) →
  keeps (CreateRuleset others clock uuids renderer rs) (λ _, True).
Proof.
  intros Ht. eapply keeps_bind; [apply keeps_loadReferences|]. intros refs _.
  eapply keeps_bind; [apply keeps_admitted|]. intros [] Hv.
  apply ruleset_admitted in Hv as [Hf Hn Hs Hid Hr].
  eapply keeps_bind; [by apply (keeps_AssignIDs refs)|]. intros x (Hx & En & Es).
  eapply keeps_bind; [apply keeps_now|]. intros at_ _.
  eapply keeps_bind; [eapply keeps_write; [apply create_ruleset|]|].
  - intros s1 s2 [] Hc (x' & Has & Hst & _ & E2). rewrite E2. eapply content_ok_setRuleset; try done.
    split; cbn; [by rewrite En|by rewrite Es|]. apply Forall_fmap. eapply Forall_impl; [exact Hx|].
    cbn. intros r [[] ? ? ?]. by repeat split.
  - intros _ _. eapply keeps_bind; [apply keeps_render|]. intros _ _. by apply keeps_ret.
Qed.

Lemma keeps_UpdateRuleset rs expect : Forall typedRule (rsRules rs) →
  keeps (UpdateRuleset others clock uuids renderer rs expect) (λ _, True).
Proof.
  intros Ht. eapply keeps_bind; [apply keeps_loadReferences|]. intros refs _.
  eapply keeps_bind; [apply keeps_admitted|]. intros [] Hv.
  apply ruleset_admitted in Hv as [Hf Hn Hs Hid Hr].
  eapply keeps_bind; [apply keeps_GetRuleset|]. intros existing _.
  eapply keeps_bind with (λ x, Forall (readyRule refs) (rsRules x) ∧ rsName x = rsName rs ∧ rsScope x = rsScope rs).
  { eapply keeps_bind; [by apply (keeps_assignRules refs)|]. intros rules Hrs. by apply keeps_ret. }
  intros x (Hx & En & Es). eapply keeps_bind; [apply keeps_now|]. intros at_ _.
  eapply keeps_bind; [eapply keeps_write; [apply update_ruleset|]|].
  - intros s1 s2 v Hc (old & x' & Has & Hst & _ & _ & _ & E2). rewrite E2. eapply content_ok_setRuleset; try done.
    split; cbn; [by rewrite En|by rewrite Es|]. apply Forall_fmap. eapply Forall_impl; [exact Hx|].
    intros r. apply readyRule_carry.
  - intros v _. eapply keeps_bind; [apply keeps_render|]. intros _ _. by apply keeps_ret.
Qed.

Lemma keeps_ruleWriteError {A} rid id e idx (P : A → Prop) : keeps (ruleWriteError others rid id e idx) P.
Proof.
  destruct e as [f|[]| |]; cbn; try apply keeps_throw; [destruct idx; apply keeps_throw|].
  eapply keeps_bind; [apply keeps_GetRuleset|]. intros rs _.
  destruct (list_find _ _) as [[? ?]|]; apply keeps_throw.
Qed.

Lemma stored_typed c rules : Forall (storedRule c) rules → Forall typedRule rules.
Proof. intros Hs. eapply Forall_impl; [exact Hs|]. by intros r [[]]. Qed.

Lemma keeps_CreateRule rid r : typedRule r → keeps (CreateRule others clock uuids renderer rid r) (λ _, True).
Proof.
  intros Ht. eapply keeps_bind; [apply keeps_GetRuleset|]. intros rs (c & _ & _ & Hst).
  eapply keeps_bind; [apply keeps_idOrNew|]. intros id _.
  eapply keeps_bind; [apply keeps_onError|intros; by apply keeps_ret].
  - apply keeps_UpdateRuleset. cbn. apply Forall_app. split; [by eapply stored_typed|]. by constructor.
  - intros e. apply keeps_ruleWriteError.
Qed.

Lemma keeps_UpdateRule rid r expect :
  typedRule r → keeps (UpdateRule others clock uuids renderer rid r expect) (λ _, True).
Proof.
  intros Ht. eapply keeps_bind; [apply keeps_GetRuleset|]. intros rs (c & _ & _ & Hst).
  destruct (list_find _ _) as [[idx old]|]; [|apply keeps_throw].
  eapply keeps_bind with (λ _, True).
  { unfold checkRuleVersion. case_decide; [apply keeps_throw|by apply keeps_ret]. }
  intros _ _. eapply keeps_bind; [apply keeps_onError|intros; by apply keeps_ret].
  - apply keeps_UpdateRuleset. cbn. apply Forall_insert; [by eapply stored_typed|done].
  - intros e. apply keeps_ruleWriteError.
Qed.

Lemma keeps_DeleteRule rid id expect : keeps (DeleteRule others clock uuids renderer rid id expect) (λ _, True).
Proof.
  eapply keeps_bind; [apply keeps_GetRuleset|]. intros rs (c & _ & _ & Hst).
  destruct (list_find _ _) as [[idx old]|]; [|apply keeps_throw].
  eapply keeps_bind with (λ _, True).
  { unfold checkRuleVersion. case_decide; [apply keeps_throw|by apply keeps_ret]. }
  intros _ _. eapply keeps_bind; [apply keeps_onError|intros; by apply keeps_ret].
  - apply keeps_UpdateRuleset. cbn. apply Forall_delete. by eapply stored_typed.
  - intros e. apply keeps_ruleWriteError.
Qed.
End keeping.

(** ** Calls *)

Section calls.
Context `{UUIDLib} {St : Type} `{!AuthoredStore St}.

(** The mutations the service offers. *)
Inductive Call :=
| CallCreateService (s : Service) | CallUpdateService (s : Service) (expect : string)
| CallDeleteService (id : UUID) (expect : string)
| CallCreateAddressGroup (g : AddressGroup) | CallUpdateAddressGroup (g : AddressGroup) (expect : string)
| CallDeleteAddressGroup (id : UUID) (expect : string)
| CallCreateRuleset (rs : Ruleset) | CallUpdateRuleset (rs : Ruleset) (expect : string)
| CallDeleteRuleset (id : UUID) (expect : string)
| CallCreateRule (rid : UUID) (r : Rule) | CallUpdateRule (rid : UUID) (r : Rule) (expect : string)
| CallDeleteRule (rid id : UUID) (expect : string).

(** The ports a call carries are [uint32]. *)
Definition typedCall (c : Call) : Prop :=
  let typedRule r := Forall typedEntry (ruleEntries r) in
  match c with
  | CallCreateService s | CallUpdateService s _ => Forall typedEntry (svcEntries s)
  | CallCreateRuleset rs | CallUpdateRuleset rs _ => Forall typedRule (rsRules rs)
  | CallCreateRule _ r | CallUpdateRule _ r _ => typedRule r
  | _ => True
  end.

Context (others : St → St) (clock : nat → Z) (uuids : nat → UUID) (renderer : option (St → bool * St)).

Definition runCall (c : Call) : Author St () :=
  match c with
  | CallCreateService s => CreateService others clock uuids renderer s;; mret ()
  | CallUpdateService s expect => UpdateService others clock renderer s expect;; mret ()
  | CallDeleteService id expect => DeleteService others renderer id expect
  | CallCreateAddressGroup g => CreateAddressGroup others clock uuids renderer g;; mret ()
  | CallUpdateAddressGroup g expect => UpdateAddressGroup others clock renderer g expect;; mret ()
  | CallDeleteAddressGroup id expect => DeleteAddressGroup others renderer id expect
  | CallCreateRuleset rs => CreateRuleset others clock uuids renderer rs;; mret ()
  | CallUpdateRuleset rs expect => UpdateRuleset others clock uuids renderer rs expect;; mret ()
  | CallDeleteRuleset id expect => DeleteRuleset others renderer id expect
  | CallCreateRule rid r => CreateRule others clock uuids renderer rid r;; mret ()
  | CallUpdateRule rid r expect => UpdateRule others clock uuids renderer rid r expect;; mret ()
  | CallDeleteRule rid id expect => DeleteRule others clock uuids renderer rid id expect
  end.

(** Calls one after the other, whatever each returns. *)
Definition runCalls (calls : list Call) (w : World St) : World St :=
  foldl (λ w c, (runCall c w).2) w calls.
End calls.

(** Every call keeps the store to admitted objects, however it ends. *)
Lemma keeps_runCall `{UUIDLib} {St} `{!AuthoredStore St, !StoreView St, !AuthoredStoreLaws St}
    others clock uuids renderer (call : Call) (w : World St) :
  (∀ s, good s → good (others s)) →
  (∀ n, uuids n ≠ uuid_Nil) → (∀ f s, renderer = Some f → good s → good (f s).2) →
  typedCall call → good (woStore w) → good (woStore (runCall others clock uuids renderer call w).2).
Proof.
  intros Ho Hu Hr Ht Hw. destruct (runCall others clock uuids renderer call w) as [r w'] eqn:Er.
  assert (keeps (runCall others clock uuids renderer call) (λ _, True)) as Hk; [|by apply (Hk _ _ _ Hw Er)].
  clear Er. destruct call as [x|x e|id e|x|x e|id e|x|x e|id e|i x|i x e|i id e]; cbn [runCall typedCall] in *.
  3,6,9: destruct (keeps_deletes others uuids renderer Ho Hu Hr id e) as (? & ? & ?); assumption.
  all: try (eapply keeps_bind; [|intros ? _; by apply keeps_ret]).
  - by apply keeps_CreateService.
  - by apply keeps_UpdateService.
  - by apply keeps_CreateAddressGroup.
  - by apply keeps_UpdateAddressGroup.
  - by apply keeps_CreateRuleset.
  - by apply keeps_UpdateRuleset.
  - by apply keeps_CreateRule.
  - by apply keeps_UpdateRule.
  - by apply keeps_DeleteRule.
Qed.

(** C7: the store holds admitted objects only.  Whatever calls are made, one after
    the other, however each ends, and whatever other callers do meanwhile as long as
    they keep to it too, every stored service, address group and ruleset satisfies
    admission, its references resolve in the store itself, its CIDRs are canonical and
    its rules have ids. *)
Theorem Authoring_keeps_admitted `{UUIDLib} {St} `{!AuthoredStore St, !StoreView St, !AuthoredStoreLaws St}
    others clock uuids renderer (calls : list Call) (w : World St) :
  (∀ s, good s → good (others s)) →
  (∀ n, uuids n ≠ uuid_Nil) → (∀ f s, renderer = Some f → good s → good (f s).2) →
  Forall typedCall calls → good (woStore w) → good (woStore (runCalls others clock uuids renderer calls w)).
Proof.
  intros Ho Hu Hr Ht. revert w. induction Ht as [|c calls Hc _ IH]; intros w Hw; [done|].
  apply IH. by apply keeps_runCall.
Qed.

(** ** Calls that report findings *)

Section quiet.
Context `{UUIDLib} {St : Type} `{!AuthoredStore St, !StoreView St, !AuthoredStoreLaws St}.
Context (others : St → St) (clock : nat → Z) (uuids : nat → UUID) (renderer : option (St → bool * St)).

(** From [s] to [s'] only other callers changed what is stored. *)
Definition quiet : relation St := rtc (λ a b, b = others a ∨ (valid a → valid b ∧ content b = content a)).

Lemma quiet_others s s' : (valid (others s) → valid s' ∧ content s' = content (others s)) → quiet s s'.
Proof. intros Hc. eapply rtc_l; [by left|]. apply rtc_once. by right. Qed.

(** Steps that read, and steps whose findings come before any write. *)
Definition reading {A} (m : Author St A) : Prop :=
  ∀ w r w', m w = (r, w') → quiet (woStore w) (woStore w') ∧ woRenders w' = woRenders w.
Definition silent {A} (m : Author St A) : Prop :=
  ∀ w f w', m w = (Err (ErrFindings f), w') →
    quiet (woStore w) (woStore w') ∧ woRenders w' = woRenders w.
Definition unfinding {A} (m : Author St A) : Prop := ∀ w f w', m w ≠ (Err (ErrFindings f), w').

Lemma reading_silent {A} (m : Author St A) : reading m → silent m.
Proof. intros Hm w f w' Hr. by eapply Hm. Qed.

Lemma silent_bind {A B} (m : Author St A) (f : A → Author St B) :
  reading m → (∀ a, silent (f a)) → silent (m ≫= f).
Proof.
  intros Hm Hf w e w'. unfold mbind, author_bind. destruct (m w) as [[a|e'] w1] eqn:Em.
  - intros Ha. destruct (Hm _ _ _ Em) as [Hq Hn]. destruct (Hf _ _ _ _ Ha) as [Hq' Hn'].
    split; [by etrans|congruence].
  - intros [= -> <-]. by eapply Hm.
Qed.

Lemma unfinding_silent {A} (m : Author St A) : unfinding m → silent m.
Proof. intros Hm w f w' Hr. by apply Hm in Hr. Qed.

Lemma unfinding_bind {A B} (m : Author St A) (f : A → Author St B) :
  unfinding m → (∀ a, unfinding (f a)) → unfinding (m ≫= f).
Proof.
  intros Hm Hf w e w'. unfold mbind, author_bind. destruct (m w) as [[a|e'] w1] eqn:Em; [apply Hf|].
  intros [= -> ->]. by apply (Hm _ _ _ Em).
Qed.

Lemma unfinding_store {A} (op : St → result StoreError A * St) : unfinding (store others op).
Proof. intros w f w'. unfold store. destruct (op _) as [[] ?]; congruence. Qed.

Lemma unfinding_render : unfinding (render others renderer).
Proof.
  intros w f w'. unfold render. destruct renderer as [g|]; [|congruence].
  destruct (g _) as [[] ?]; congruence.
Qed.

Lemma unfinding_ret {A} (a : A) : unfinding (mret a).
Proof. by intros w f w'. Qed.

(** A write, then rendering. *)
Lemma silent_write {A B} (op : St → result StoreError A * St) (k : A → B) :
  silent (a ← store others op; render others renderer;; mret (k a)).
Proof.
  apply unfinding_silent, unfinding_bind; [apply unfinding_store|]. intros a.
  apply unfinding_bind; [apply unfinding_render|]. intros _. apply unfinding_ret.
Qed.

Lemma reading_ret {A} (a : A) : reading (mret a).
Proof. intros w r w' [= <- <-]. by split. Qed.

Lemma reading_throw {A} e : reading (throw (A := A) e).
Proof. intros w r w' [= <- <-]. by split. Qed.

Lemma reading_bind {A B} (m : Author St A) (f : A → Author St B) :
  reading m → (∀ a, reading (f a)) → reading (m ≫= f).
Proof.
  intros Hm Hf w e w'. unfold mbind, author_bind. destruct (m w) as [[a|e'] w1] eqn:Em.
  - intros Ha. destruct (Hm _ _ _ Em) as [Hq Hn]. destruct (Hf _ _ _ _ Ha) as [Hq' Hn'].
    split; [by etrans|congruence].
  - intros [= <- <-]. by eapply Hm.
Qed.

Lemma reading_store {A} (op : St → result StoreError A * St) :
  (∀ s r s', valid s → op s = (r, s') → valid s' ∧ content s' = content s) → reading (store others op).
Proof.
  intros Hop w r w'. unfold store. destruct (op (others (woStore w))) as [r0 s'] eqn:Eo.
  intros [= <- <-]. split; [|done]. cbn. apply quiet_others. intros Hv. by apply (Hop _ _ _ Hv Eo).
Qed.

Lemma reading_GetRuleset id : reading (store others (st_GetRuleset id)).
Proof. apply reading_store. intros s r s' Hv Ho. by apply get_ruleset in Ho as (? & ? & _). Qed.

Lemma reading_now : reading (now clock).
Proof. by intros w r w' [= <- <-]. Qed.

Lemma reading_idOrNew id : reading (idOrNew uuids id).
Proof. unfold idOrNew. case_decide; [by intros w r w' [= <- <-]|apply reading_ret]. Qed.

Lemma reading_admitted v : reading (admitted v).
Proof. destruct v; [apply reading_throw|apply reading_ret]. Qed.

Lemma reading_loadReferences : reading (loadReferences others).
Proof.
  apply reading_bind; [|intros l; apply reading_bind; [|intros; apply reading_ret]];
    apply reading_store; intros s r s' Hv Ho; [by apply list_services in Ho as (? & ? & _)|by apply list_groups in Ho as (? & ? & _)].
Qed.

Lemma reading_assignRules rules : reading (assignRules uuids rules).
Proof.
  induction rules as [|r rules IH]; cbn [assignRules]; [apply reading_ret|].
  apply reading_bind.
  - apply reading_bind; [apply reading_idOrNew|intros; apply reading_ret].
  - intros r'. apply reading_bind; [apply IH|intros; apply reading_ret].
Qed.

Lemma reading_assignRuleIDs rs : reading (assignRuleIDs uuids rs).
Proof. apply reading_bind; [apply reading_assignRules|intros; apply reading_ret]. Qed.

Lemma reading_AssignIDs rs : reading (AssignIDs uuids rs).
Proof. apply reading_bind; [apply reading_idOrNew|intros; apply reading_assignRuleIDs]. Qed.

Lemma reading_checkRuleVersion expect r : reading (checkRuleVersion expect r).
Proof. unfold checkRuleVersion. case_decide; [apply reading_throw|apply reading_ret]. Qed.
End quiet.

Create HintDb authoring.
#[export] Hint Resolve reading_now reading_idOrNew reading_AssignIDs reading_admitted reading_loadReferences
  reading_assignRuleIDs reading_GetRuleset reading_checkRuleVersion silent_write reading_throw reading_ret
  reading_silent : authoring.

Section findings.
Context `{UUIDLib} {St : Type} `{!AuthoredStore St, !StoreView St, !AuthoredStoreLaws St}.
Context (others : St → St) (clock : nat → Z) (uuids : nat → UUID) (renderer : option (St → bool * St)).

(** A call is silent when it reads before it writes. *)
Ltac silently := repeat (apply silent_bind; [by eauto with authoring|intros ?]); try (by eauto with authoring).

Lemma silent_UpdateRuleset rs expect : silent others (UpdateRuleset others clock uuids renderer rs expect).
Proof. unfold UpdateRuleset. silently. Qed.

Lemma silent_onError {A} (m : Author St A) h :
  silent others m → (∀ e, unfinding (h e) ∨ (∃ f f', e = ErrFindings f ∧ h e = throw (ErrFindings f'))) →
  silent others (onError m h).
Proof.
  intros Hm Hh w f w'. unfold onError. destruct (m w) as [[a|e] w1] eqn:Em; [congruence|].
  destruct (Hh e) as [Hu|(g & g' & -> & ->)]; [by intros ?%Hu|].
  intros [= -> <-]. by eapply Hm.
Qed.

Lemma ruleWriteError_findings {A} rid id idx e :
  unfinding (ruleWriteError (A := A) others rid id e idx) ∨
  (∃ f f', e = ErrFindings f ∧ ruleWriteError (A := A) others rid id e idx = throw (ErrFindings f')).
Proof.
  destruct e as [f|e| |]; [right; destruct idx; cbn; eauto|left..]; try by intros w f w'.
  destruct e; try by intros w f w'. apply unfinding_bind; [apply unfinding_store|]. intros rs.
  by destruct (list_find _ _) as [[? ?]|].
Qed.

Lemma silent_edit {A B} m rid id idx (k : A → Author St B) :
  silent others m → (∀ a, reading others (k a)) → (∀ a, unfinding (k a)) →
  silent others (onError m (λ e, ruleWriteError others rid id e idx) ≫= k).
Proof.
  intros Hm Hk Hu w f w'. unfold mbind, author_bind.
  destruct (onError _ _ w) as [[a|e] w1] eqn:Em; [by intros ?%Hu|].
  intros [= -> <-]. eapply silent_onError; [exact Hm| |exact Em]. intros e. apply ruleWriteError_findings.
Qed.

Lemma silent_call call : silent others (runCall others clock uuids renderer call).
Proof.
  assert (∀ A (m : Author St A), silent others m → silent others (m;; mret ())) as Hunit.
  { intros A m Hm w f w'. unfold mbind, author_bind. destruct (m w) as [[a|e] w1] eqn:Em; [by cbn|].
    intros [= -> <-]. by eapply Hm. }
  destruct call as [x|x e|id e|x|x e|id e|x|x e|id e|i x|i x e|i id e]; cbn [runCall].
  3,6,9: apply unfinding_silent, unfinding_bind; [apply unfinding_store|intros; apply unfinding_render].
  all: try apply Hunit; unfold CreateService, UpdateService, CreateAddressGroup, UpdateAddressGroup, CreateRuleset,
    CreateRule, UpdateRule, DeleteRule; try apply silent_UpdateRuleset; silently.
  - apply silent_edit; [apply silent_UpdateRuleset|by eauto with authoring|intros; apply unfinding_ret].
  - destruct (list_find _ _) as [[idx old]|]; [|apply reading_silent, reading_throw]. silently.
    apply silent_edit; [apply silent_UpdateRuleset|by eauto with authoring|intros; apply unfinding_ret].
  - destruct (list_find _ _) as [[idx old]|]; [|apply reading_silent, reading_throw]. silently.
    apply silent_edit; [apply silent_UpdateRuleset|by eauto with authoring|intros; apply unfinding_ret].
Qed.

Lemma quiet_alone s s' :
  (∀ x, valid x → valid (others x) ∧ content (others x) = content x) → valid s →
  quiet others s s' → content s' = content s.
Proof.
  intros Ho Hv Hq. revert Hv. induction Hq as [|s s1 s2 Hs _ IH]; intros Hv; [done|].
  assert (valid s1 ∧ content s1 = content s) as [Hv1 <-] by (destruct Hs as [->|Hc]; auto). auto.
Qed.
End findings.


(** ** Editing one rule *)

Section editing.
Context `{UUIDLib} {St : Type} `{!AuthoredStore St, !StoreView St, !AuthoredStoreLaws St}.
Context (others : St → St) (clock : nat → Z) (uuids : nat → UUID) (renderer : option (St → bool * St)).
Hypothesis others_ok : ∀ s, good s → good (others s).

(** Other callers neither delete the ruleset nor change it without advancing its
    version. *)
Definition steady (id : UUID) (s s' : St) : Prop :=
  ∀ a, cRulesets (content s) !! id = Some a →
    ∃ b, cRulesets (content s') !! id = Some b ∧ rsVersion a ≤ rsVersion b ∧ (rsVersion a = rsVersion b → b = a).

Lemma quiet_step s s1 : good s → s1 = others s ∨ (valid s → valid s1 ∧ content s1 = content s) → good s1.
Proof. intros Hs [->|Hc]; [eauto|]. destruct Hs as [Hv Hok], (Hc Hv) as [? Heq]. split; [done|]. by rewrite Heq. Qed.

Lemma quiet_ok s s' : good s → quiet others s s' → good s'.
Proof.
  intros Hs. induction 1 as [s|s s1 s2 H1 _ IH]; [done|]. apply IH. by eapply quiet_step.
Qed.

Lemma steady_quiet id s s' : (∀ x, steady id x (others x)) → good s → quiet others s s' → steady id s s'.
Proof.
  intros Ho Hg Hq. revert Hg. induction Hq as [s|s s1 s2 Hs _ IH]; intros Hg;
    [intros a Ha; exists a; split_and!; [done|lia|done]|].
  specialize (IH (quiet_step _ _ Hg Hs)). assert (steady id s s1) as H1.
  { destruct Hs as [->|Hc]; [apply Ho|]. intros a Ha. destruct (Hc (proj1 Hg)) as [_ Heq]. rewrite Heq.
    exists a. split_and!; [done|lia|done]. }
  intros a Ha. destruct (H1 a Ha) as (b & Hb & Hab & Eab). destruct (IH b Hb) as (c & Hc & Hbc & Ebc).
  exists c. split_and!; [done|lia|]. intros Heq. rewrite Ebc, Eab by lia. done.
Qed.

(** What [assignRuleIDs] makes of a rule. *)
Definition assigned (r r' : Rule) : Prop :=
  (ruleID r ≠ uuid_Nil → ruleID r' = ruleID r) ∧ ruleDirection r' = ruleDirection r ∧ ruleEnabled r' = ruleEnabled r ∧
  ruleDescription r' = ruleDescription r ∧ rulePeers r' = canonicalPeer <$> rulePeers r ∧
  ruleServiceIDs r' = ruleServiceIDs r ∧ ruleEntries r' = ruleEntries r ∧
  ruleCreatedAt r' = ruleCreatedAt r ∧ ruleUpdatedAt r' = ruleUpdatedAt r ∧ ruleVersion r' = ruleVersion r ∧
  ruleFaults r' = ruleFaults r.

Lemma assigned_stored c r r' : storedRule c r → assigned r r' → r' = r.
Proof.
  intros [[_ Hid Hp _] _] (Ei & E1 & E2 & E3 & E4 & E5 & E6 & E7 & E8 & E9 & E10).
  destruct r, r'. cbn in *. specialize (Ei Hid). subst. by rewrite Hp.
Qed.

(** Sequencing, read backwards from a success. *)
Lemma bind_Ok {A B} (m : Author St A) (f : A → Author St B) w b w' :
  (m ≫= f) w = (Ok b, w') → ∃ a w1, m w = (Ok a, w1) ∧ f a w1 = (Ok b, w').
Proof. unfold mbind, author_bind. destruct (m w) as [[a|e] w1]; [eauto|done]. Qed.

Lemma store_Ok {A} (op : St → result StoreError A * St) w a w' :
  store others op w = (Ok a, w') → op (others (woStore w)) = (Ok a, woStore w').
Proof.
  unfold store. destruct (op (others (woStore w))) as [[x|e] s]; [|done]. by intros [= -> <-].
Qed.

Lemma assignRules_Ok rules (w : World St) rules' w' :
  assignRules uuids rules w = (Ok rules', w') → Forall2 assigned rules rules' ∧ woStore w' = woStore w.
Proof.
  revert rules' w w'. induction rules as [|r rules IH]; intros rules' w w'; cbn [assignRules].
  { intros [= <- <-]. by split. }
  intros (r1 & w1 & Hr & (rs1 & w2 & Hrs & [= <- <-])%bind_Ok)%bind_Ok.
  destruct (IH _ _ _ Hrs) as [Hall Hs]. unfold assignRuleID in Hr.
  apply bind_Ok in Hr as (id & w0 & Hid & [= <- <-]). unfold idOrNew in Hid. case_decide as Hn.
  - injection Hid as <- <-. split; [|done]. constructor; [|done]. by repeat split.
  - injection Hid as <- <-. split; [|done]. constructor; [|done]. by repeat split.
Qed.

(** The store after rendering. *)
Definition renderedFrom (s : St) : St := match renderer with None => s | Some f => (f (others s)).2 end.

Lemma render_store w r w' : render others renderer w = (r, w') → woStore w' = renderedFrom (woStore w).
Proof.
  unfold render, renderedFrom. destruct renderer as [f|]; [|by intros [= <- <-]].
  destruct (f (others (woStore w))). by intros [= <- <-].
Qed.

Lemma reading_Ok {A} (m : Author St A) w r w' : reading others m → m w = (r, w') → quiet others (woStore w) (woStore w').
Proof. intros Hm Hr. by apply Hm in Hr as []. Qed.

(** A successful update, taken apart: what was read, what was written, and when. *)
Lemma UpdateRuleset_Ok rs expect w x w' :
  good (woStore w) → UpdateRuleset others clock uuids renderer rs expect w = (Ok x, w') →
  ∃ existing s1 rules at_ v s2 s3,
    quiet others (woStore w) s1 ∧ cRulesets (content s1) !! rsID rs = Some existing ∧
    Forall2 assigned (rsRules rs) rules ∧ quiet others s1 s2 ∧
    let y := withInstants (rsCreatedAt existing) at_ (carryRuleProvenance existing (withRules rules rs) at_) in
    st_UpdateRuleset y expect s2 = (Ok v, s3) ∧ x = withVersion v y ∧ woStore w' = renderedFrom s3.
Proof.
  intros Hw (refs & w1 & Hrefs & Hk)%bind_Ok. apply bind_Ok in Hk as ([] & w2 & Hv & Hk).
  apply bind_Ok in Hk as (existing & w3 & Hget & Hk). apply bind_Ok in Hk as (rs1 & w4 & Hassign & Hk).
  apply bind_Ok in Hk as (at_ & w5 & Hnow & Hk). apply bind_Ok in Hk as (v & w6 & Hup & Hk).
  apply bind_Ok in Hk as ([] & w7 & Hrender & [= <- <-]).
  unfold assignRuleIDs in Hassign. apply bind_Ok in Hassign as (rules & w3' & Hassign & [= <- <-]).
  apply assignRules_Ok in Hassign as [Hall Hs3]. injection Hnow as <- <-.
  assert (quiet others (woStore w) (woStore w2)) as Hq2.
  { etrans; [by eapply reading_Ok; [apply reading_loadReferences|]|]. by eapply reading_Ok; [apply reading_admitted|]. }
  pose proof (store_Ok _ _ _ _ Hget) as Hg.
  apply get_ruleset in Hg as (Hv3 & Hc & Hg); [|by apply others_ok, (quiet_ok (woStore w))].
  apply store_Ok in Hup. cbn [woStore] in Hup.
  exists existing, (woStore w3), rules, (clock (woTicks w3')), v, (others (woStore w3')), (woStore w6).
  split_and!.
  - etrans; [exact Hq2|]. by eapply reading_Ok; [apply reading_GetRuleset|].
  - rewrite Hc. by apply Hg.
  - done.
  - rewrite Hs3. by apply quiet_others.
  - intros y. split_and!; [done..|]. by eapply render_store.
Qed.

Lemma FormatVersion_names v v' : names (FormatVersion v) v' → v = v'.
Proof.
  intros [He|He]; [|by apply (inj FormatInt)].
  by apply FormatInt_nonempty in He.
Qed.

(** A read, an edit of the rules, and the write conditioned on what was read: the
    ruleset written over is the one that was read. *)
Lemma edit_Ok id rs s0 rules' w x w' :
  (∀ s, steady id s (others s)) → good s0 → cRulesets (content s0) !! id = Some rs →
  quiet others s0 (woStore w) →
  UpdateRuleset others clock uuids renderer (withRules rules' rs) (FormatVersion (rsVersion rs)) w = (Ok x, w') →
  ∃ s s' new rules at_,
    quiet others s0 s ∧ cRulesets (content s) !! id = Some rs ∧
    content s' = setRuleset new (content s) ∧ woStore w' = renderedFrom s' ∧
    rulesetAs x (rsVersion rs + 1) new ∧ rsID x = id ∧
    rsName x = rsName rs ∧ rsScope x = rsScope rs ∧ rsEnabled x = rsEnabled rs ∧
    Forall2 assigned rules' rules ∧ NoDup (ruleID <$> rules) ∧
    rsRules x = carryRule (rulesBefore (rsRules rs)) at_ <$> rules.
Proof.
  intros Hst Hok Hrs Hq Hup. destruct (co_rulesets _ (proj2 Hok) _ _ Hrs) as (Hid & _ & _).
  assert (good (woStore w)) as Hw by by eapply quiet_ok.
  apply UpdateRuleset_Ok in Hup as (existing & s1 & rules & at_ & v & s2 & s3 & Hq1 & Hex & Hall & Hq2 & Hup & -> & Hw'); [|done].
  cbn [rsID rsRules withRules] in Hex, Hall. rewrite Hid in Hex.
  assert (good s1) as Hs1 by by eapply quiet_ok. assert (good s2) as [Hs2 _] by by eapply quiet_ok.
  destruct (update_ruleset _ _ _ _ _ Hs2 Hup) as [_ [v' [= <-] He|e [=]|v' [=] He]].
  destruct He as (old & new & Has & [Hnd _] & Hold & Hname & -> & Hc). cbn [rsID withInstants carryRuleProvenance withRules] in Hold.
  apply FormatVersion_names in Hname. rewrite Hid in Hold.
  destruct (steady_quiet id s0 s1 Hst Hok ltac:(by etrans) _ Hrs) as (b & Hb & Hle1 & Eq1).
  destruct (steady_quiet id s1 s2 Hst Hs1 Hq2 _ Hb) as (b' & Hb' & Hle2 & Eq2).
  assert (b = existing) as -> by congruence. assert (b' = old) as -> by congruence.
  assert (existing = rs) as -> by (apply Eq1; lia). assert (old = rs) as -> by (apply Eq2; lia).
  exists s2, s3, new, rules, at_. split_and!; try done.
  - etrans; [exact Hq|]. by etrans.
  - cbn [rsRules withInstants carryRuleProvenance withRules] in Hnd.
    rewrite <-list_fmap_compose in Hnd. erewrite list_fmap_ext in Hnd; [exact Hnd|].
    intros i r _. cbn. apply carryRule_content.
Qed.

(** A stored rule that is handed back is stored as it was. *)
Lemma handed_back c rs at_ r r' :
  ruleset_ok (refsOf c) rs → Forall (storedRule c) (rsRules rs) → r ∈ rsRules rs → assigned r r' →
  keptRule (carryRule (rulesBefore (rsRules rs)) at_ r') = r.
Proof.
  intros Hok Hst Hr Has. rewrite Forall_forall in Hst. pose proof (Hst _ Hr) as Hsr.
  rewrite (assigned_stored _ _ _ Hsr Has). rewrite (carryRule_same (refsOf c)); [|..|by destruct Hsr as [[[]]]].
  - apply Hsr.
  - pose proof (rsok_ids _ _ Hok) as Hnd. rewrite filter_all in Hnd; [done|].
    intros id (y & -> & Hy)%list_elem_of_fmap. by destruct (Hst _ Hy) as [[]].
  - done.
Qed.

Lemma assigned_list c l l' : Forall (storedRule c) l → Forall2 assigned l l' → l' = l.
Proof.
  intros Hst. induction 1 as [|r r' l l' Hr _ IH]; [done|]. apply Forall_cons in Hst as [Hsr Hst].
  f_equal; [by eapply assigned_stored|by apply IH].
Qed.

Lemma handed_back_list c rs at_ l :
  ruleset_ok (refsOf c) rs → Forall (storedRule c) (rsRules rs) → l ⊆ rsRules rs →
  keptRule <$> (carryRule (rulesBefore (rsRules rs)) at_ <$> l) = l.
Proof.
  intros Hok Hst Hl. rewrite <-list_fmap_compose. rewrite <-(list_fmap_id l) at 2. apply list_fmap_ext.
  intros i r Hi%list_elem_of_lookup_2. cbn. specialize (Hl _ Hi). eapply handed_back; try done.
  rewrite Forall_forall in Hst. destruct (Hst _ Hl) as [[_ _ Hp _] _]. by repeat split.
Qed.

(** One ruleset was replaced by its next version, in one write, over the content
    the caller edited; rendering followed. *)
Definition edited (id : UUID) (w w' : World St) (old new : Ruleset) : Prop :=
  ∃ s s', quiet others (woStore w) s ∧ cRulesets (content s) !! id = Some old ∧
    content s' = setRuleset new (content s) ∧ woStore w' = renderedFrom s' ∧
    rsID new = id ∧ rsVersion new = rsVersion old + 1 ∧
    rsName new = rsName old ∧ rsScope new = rsScope old ∧ rsEnabled new = rsEnabled old.

(** The edit of a list of rules, with what it makes of them. *)
Lemma edit_rules id w w0 w' rs x rules' :
  (∀ s, steady id s (others s)) → good (woStore w) →
  store others (st_GetRuleset id) w = (Ok rs, w0) →
  (∃ w1, woStore w1 = woStore w0 ∧
     UpdateRuleset others clock uuids renderer (withRules rules' rs) (FormatVersion (rsVersion rs)) w1 = (Ok x, w')) →
  ∃ c new rules at_, edited id w w' rs new ∧
    ruleset_ok (refsOf c) rs ∧ Forall (storedRule c) (rsRules rs) ∧ Forall2 assigned rules' rules ∧
    NoDup (ruleID <$> rules) ∧ rsRules x = carryRule (rulesBefore (rsRules rs)) at_ <$> rules ∧
    rsRules new = keptRule <$> rsRules x.
Proof.
  intros Hst Hok Hget (w1 & Hw1 & Hup). pose proof (store_Ok _ _ _ _ Hget) as Hg.
  apply get_ruleset in Hg as (Hv & Hc & Hg); [|by apply others_ok]. specialize (Hg _ eq_refl).
  assert (quiet others (woStore w) (woStore w0)) as Hq by by apply quiet_others.
  assert (good (woStore w0)) as Hok0 by by eapply quiet_ok.
  assert (cRulesets (content (woStore w0)) !! id = Some rs) as Hrs by by rewrite Hc.
  destruct (co_rulesets _ (proj2 Hok0) _ _ Hrs) as (_ & Hrok & Hrst).
  apply (edit_Ok id rs (woStore w0)) in Hup as (s & s' & new & rules & at_ & Hqs & Hs & Hc' & Hw' & Has & Hid & En & Es & Ee & Hall & Hnd & Hx);
    [|done..|by rewrite Hw1].
  exists (content (woStore w0)), new, rules, at_.
  destruct Has as (Ei & E1 & _ & E3 & E4 & E5 & E6 & _). split_and!; try done.
  exists s, s'. split_and!; try done; try congruence. by etrans.
Qed.

Lemma onError_Ok {A} (m : Author St A) rid id idx w a w' :
  onError m (λ e, ruleWriteError others rid id e idx) w = (Ok a, w') → m w = (Ok a, w').
Proof.
  unfold onError. destruct (m w) as [[b|e] w1]; [done|]. intros He. exfalso. revert He.
  destruct e as [f|e| |]; [by destruct idx| |done..]. destruct e; try done.
  intros (rs & w2 & _ & Hk)%bind_Ok. by destruct (list_find _ _) as [[? ?]|].
Qed.

Lemma checkRuleVersion_Ok expect r (w : World St) w' :
  checkRuleVersion expect r w = (Ok (), w') → names expect (ruleVersion r) ∧ w' = w.
Proof.
  unfold checkRuleVersion, names. case_decide as Hd; [done|]. intros [= <-]. split; [|done].
  destruct (decide (expect = "")); [by left|]. destruct (decide (expect = FormatVersion (ruleVersion r))); [by right|tauto].
Qed.

Lemma CreateRule_edits id r w r' w' :
  (∀ s, steady id s (others s)) → good (woStore w) →
  CreateRule others clock uuids renderer id r w = (Ok r', w') →
  ∃ old new, edited id w w' old new ∧ rsRules new = rsRules old ++ [keptRule r'] ∧
    (ruleID r' ∉ ruleID <$> rsRules old) ∧ (ruleID r ≠ uuid_Nil → ruleID r' = ruleID r) ∧ ruleVersion r' = 1.
Proof.
  intros Hst Hok (rs & w0 & Hget & Hk)%bind_Ok. apply bind_Ok in Hk as (rid & w1 & Hid & Hk).
  apply bind_Ok in Hk as (x & w2 & Hup%onError_Ok & [= <- <-]).
  assert (woStore w1 = woStore w0 ∧ (ruleID r ≠ uuid_Nil → rid = ruleID r)) as [Hw1 Hrid].
  { unfold idOrNew in Hid. case_decide; injection Hid as <- <-; done. }
  destruct (edit_rules id w w0 w2 rs x _ Hst Hok Hget (ex_intro _ w1 (conj Hw1 Hup)))
    as (c & new & rules & at_ & Hed & Hrok & Hrst & Hall & Hnd & Hx & Hnew).
  apply Forall2_app_inv_l in Hall as (l1 & l2 & H1 & H2 & ->).
  apply (assigned_list c) in H1 as ->; [|done].
  apply Forall2_cons_inv_l in H2 as (r2 & l2' & Has & Hnil%Forall2_nil_inv_l & ->). subst l2'.
  rewrite fmap_app in Hx. cbn [fmap list_fmap] in Hx.
  exists rs, new. split; [done|]. rewrite Hnew, Hx, last_snoc, fmap_app. rewrite (handed_back_list c) by done. cbn [from_option fmap list_fmap].
  unfold Datatypes.id.
  rewrite fmap_app in Hnd. apply NoDup_app in Hnd as (_ & Hdis & _). cbn in Hdis.
  assert (ruleID r2 ∉ ruleID <$> rsRules rs) as Hni by (intros Hin; apply (Hdis _ Hin); left).
  destruct (carryRule_content (rulesBefore (rsRules rs)) at_ r2) as (_ & Eid & _).
  split_and!; [done|by rewrite Eid| |].
  - cbn. rewrite Eid. destruct Has as [Hi _]. cbn in Hi. intros Hn. rewrite <-(Hrid Hn). apply Hi. by rewrite (Hrid Hn).
  - unfold carryRule. rewrite rulesBefore_lookup, (proj2 (filter_nil_iff _ _)); [done|].
    intros y Hy Heq. apply Hni. rewrite <-Heq. by apply list_elem_of_fmap_2.
Qed.

Lemma UpdateRule_edits id r expect w r' w' :
  (∀ s, steady id s (others s)) → good (woStore w) →
  UpdateRule others clock uuids renderer id r expect w = (Ok r', w') →
  ∃ old new idx x, edited id w w' old new ∧
    rsRules old !! idx = Some x ∧ ruleID x = ruleID r ∧ names expect (ruleVersion x) ∧
    rsRules new = <[idx := keptRule r']> (rsRules old) ∧
    ruleID r' = ruleID r ∧ ruleCreatedAt r' = ruleCreatedAt x ∧
    ruleVersion r' = (if RuleEqual x r' then ruleVersion x else i64 (ruleVersion x + 1)).
Proof.
  intros Hst Hok (rs & w0 & Hget & Hk)%bind_Ok.
  destruct (list_find _ (rsRules rs)) as [[idx x0]|] eqn:Hf; [|done].
  apply list_find_Some in Hf as (Hi & Hix & _).
  apply bind_Ok in Hk as ([] & w1 & [Hname ->]%checkRuleVersion_Ok & Hk).
  apply bind_Ok in Hk as (x & w2 & Hup%onError_Ok & [= <- <-]).
  destruct (edit_rules id w w0 w2 rs x _ Hst Hok Hget (ex_intro _ w0 (conj eq_refl Hup)))
    as (c & new & rules & at_ & Hed & Hrok & Hrst & Hall & Hnd & Hx & Hnew).
  assert (idx < length (rsRules rs))%nat as Hlt by by eapply lookup_lt_Some.
  rewrite insert_take_drop in Hall by done.
  apply Forall2_app_inv_l in Hall as (l1 & l2 & H1 & H2 & ->).
  apply Forall2_cons_inv_l in H2 as (r2 & l3 & Has & H3 & ->).
  apply (assigned_list c) in H1 as ->; [|by apply Forall_take].
  apply (assigned_list c) in H3 as ->; [|by apply Forall_drop].
  assert (ruleID x0 ≠ uuid_Nil) as Hnn.
  { rewrite Forall_forall in Hrst. by destruct (Hrst x0 (list_elem_of_lookup_2 _ _ _ Hi)) as [[]]. }
  assert (ruleID r2 = ruleID r) as Hr2 by (destruct Has as [Hr2 _]; apply Hr2; congruence).
  assert (rulesBefore (rsRules rs) !! ruleID r2 = Some x0) as Hb.
  { rewrite Hr2, <-Hix. apply rulesBefore_elem; [|by eapply list_elem_of_lookup_2].
    pose proof (rsok_ids _ _ Hrok) as Hn. rewrite filter_all in Hn; [done|].
    intros i (y & -> & Hy)%list_elem_of_fmap. rewrite Forall_forall in Hrst. by destruct (Hrst _ Hy) as [[]]. }
  set (carried := carryRule (rulesBefore (rsRules rs)) at_ r2) in *.
  rewrite fmap_app, fmap_cons in Hx. fold carried in Hx.
  assert (rsRules x !! idx = Some carried) as Hxi.
  { rewrite Hx, lookup_app_r by (rewrite length_fmap, length_take; lia).
    by rewrite length_fmap, length_take, Nat.min_l, Nat.sub_diag by lia. }
  exists rs, new, idx, x0. rewrite Hxi. cbn [from_option]. unfold Datatypes.id. split_and!; try done.
  - rewrite Hnew, Hx, fmap_app, fmap_cons, !(handed_back_list c); try done; [by rewrite insert_take_drop|..].
    + apply sublist_subseteq, sublist_drop.
    + apply sublist_subseteq, sublist_take.
  - unfold carried. rewrite <-Hr2. by destruct (carryRule_content (rulesBefore (rsRules rs)) at_ r2) as (_ & ? & _).
  - unfold carried, carryRule. rewrite Hb. by destruct (RuleEqual x0 r2).
  - assert (RuleEqual x0 carried = RuleEqual x0 r2) as ->.
    { unfold carried, carryRule. rewrite Hb. by destruct (RuleEqual x0 r2) eqn:E. }
    unfold carried, carryRule. rewrite Hb. by destruct (RuleEqual x0 r2).
Qed.

Lemma DeleteRule_edits id rid expect w w' :
  (∀ s, steady id s (others s)) → good (woStore w) →
  DeleteRule others clock uuids renderer id rid expect w = (Ok (), w') →
  ∃ old new idx x, edited id w w' old new ∧
    rsRules old !! idx = Some x ∧ ruleID x = rid ∧ names expect (ruleVersion x) ∧
    rsRules new = delete idx (rsRules old).
Proof.
  intros Hst Hok (rs & w0 & Hget & Hk)%bind_Ok.
  destruct (list_find _ (rsRules rs)) as [[idx x0]|] eqn:Hf; [|done].
  apply list_find_Some in Hf as (Hi & Hix & _).
  apply bind_Ok in Hk as ([] & w1 & [Hname ->]%checkRuleVersion_Ok & Hk).
  apply bind_Ok in Hk as (x & w2 & Hup%onError_Ok & [= <-]).
  destruct (edit_rules id w w0 w2 rs x _ Hst Hok Hget (ex_intro _ w0 (conj eq_refl Hup)))
    as (c & new & rules & at_ & Hed & Hrok & Hrst & Hall & Hnd & Hx & Hnew).
  apply (assigned_list c) in Hall as ->; [|by apply Forall_delete].
  exists rs, new, idx, x0. split_and!; try done. rewrite Hnew, Hx. apply (handed_back_list c); try done.
  apply sublist_subseteq, sublist_delete.
Qed.
End editing.

