(* ===== verification/Postgres.v ===== *)
(** * The authored tables: [internal/store/migrations/00002_policy.sql],
      [queries/services.sql], [address_groups.sql], [rulesets.sql]

    PostgreSQL is not part of the repository; the schema and the statements are,
    and this file says what they mean.  A table is the list of its rows; a
    statement fails on a constraint, or changes the tables.  Two things depend on
    the server: the instants it keeps ([pgTime], a coarser clock) and the order of
    text ([pgText_le], the collation).  Identifiers are ordered by their text, and
    ordinals are integers: the code converts them to [int32], which is exact below
    2^31 rows of one object. *)

From S2P Require Import Prelude GoStd Netip Wire Uuid Identity Policy.
Local Open Scope Z_scope.

Class PgLib := {
  pgTime : Z → Z;
  pgText_le : relation string;
  #[global] pgText_dec :: RelDecision pgText_le;
}.

(** Rounding an instant twice is rounding it once; a deterministic collation is a
    total order in which only equal texts are level. *)
Class PgLaws `{PgLib} : Prop := {
  pgTime_idemp t : pgTime (pgTime t) = pgTime t;
  #[global] pgText_po :: PartialOrder pgText_le;
  #[global] pgText_total :: Total pgText_le;
}.

(** Two's complement reading of a 32-bit word: Go's [int32]. *)
Definition i32 (n : Z) : Z := (n + 2 ^ 31) `mod` 2 ^ 32 - 2 ^ 31.

Inductive PgError := UniqueViolation | ForeignKeyViolation | OtherError.

(** ** Rows *)

Section tables.
Context `{UUIDLib}.

(** [services] and [address_groups]. *)
Record objectRow := MkObjectRow {
  obID : UUID; obName : string; obCreatedAt : Z; obUpdatedAt : Z; obVersion : Z;
}.
(** [service_entries] and [rule_service_entries]. *)
Record entryRow := MkEntryRow {
  enOwner : UUID; enOrdinal : Z; enProtocol : Z; enStart : option Z; enEnd : option Z;
}.
(** [address_group_cidrs]. *)
Record cidrRow := MkCidrRow { ciGroup : UUID; ciCidr : string }.
Record rulesetRow := MkRulesetRow {
  rwID : UUID; rwName : string; rwDescription : string; rwEnabled : bool;
  rwCreatedAt : Z; rwUpdatedAt : Z; rwVersion : Z;
}.
(** [ruleset_scope_matches]. *)
Record scopeRow := MkScopeRow { scRuleset : UUID; scKey : string; scValues : list string }.
Record ruleRow := MkRuleRow {
  rlID : UUID; rlRuleset : UUID; rlOrdinal : Z; rlDirection : Z; rlEnabled : bool; rlDescription : string;
  rlCreatedAt : Z; rlUpdatedAt : Z; rlVersion : Z;
}.
Record peerRow := MkPeerRow {
  peRule : UUID; peOrdinal : Z; peKind : Z; peGroup : option UUID; peCidr : option string;
}.
(** [rule_peer_matches]. *)
Record matchRow := MkMatchRow { maRule : UUID; maPeer : Z; maKey : string; maValues : list string }.
(** [rule_service_refs]. *)
Record refRow := MkRefRow { reRule : UUID; reService : UUID }.

Record DB := MkDB {
  dbServices : list objectRow;
  dbServiceEntries : list entryRow;
  dbGroups : list objectRow;
  dbCIDRs : list cidrRow;
  dbRulesets : list rulesetRow;
  dbScopes : list scopeRow;
  dbRules : list ruleRow;
  dbPeers : list peerRow;
  dbMatches : list matchRow;
  dbRefs : list refRow;
  dbRuleEntries : list entryRow;
}.

(** ** Constraints and order *)

(** Insert under a unique key. *)
Definition insertRow {R K} `{EqDecision K} (key : R → K) (r : R) (t : list R) : result PgError (list R) :=
  if decide (key r ∈ key <$> t) then Err UniqueViolation else Ok (t ++ [r]).

Definition entryKey (e : entryRow) : UUID * Z := (enOwner e, enOrdinal e).
Definition cidrKey (c : cidrRow) : UUID * string := (ciGroup c, ciCidr c).
Definition scopeKey (s : scopeRow) : UUID * string := (scRuleset s, scKey s).
Definition ruleKey (r : ruleRow) : UUID * Z := (rlRuleset r, rlOrdinal r).
Definition peerKey (p : peerRow) : UUID * Z := (peRule p, peOrdinal p).
Definition matchKey (m : matchRow) : UUID * Z * string := (maRule m, maPeer m, maKey m).
Definition refKey (r : refRow) : UUID * UUID := (reRule r, reService r).

(** [ORDER BY owner, ...]. *)
Definition owned_le {R K} (key : R → UUID * K) (le : relation K) (a b : R) : Prop :=
  uuid_le (key a).1 (key b).1 ∧ ((key a).1 = (key b).1 → le (key a).2 (key b).2).
#[global] Instance owned_le_dec {R K} (key : R → UUID * K) (le : relation K) `{!RelDecision le} :
  RelDecision (owned_le key le).
Proof. intros a b. unfold owned_le. apply _. Defined.

(** The check constraints. *)
Definition entryCheck (e : entryRow) : bool :=
  match enStart e, enEnd e with
  | None, None => true
  | Some s, Some t => bool_decide (0 ≤ s ≤ t) && bool_decide (t ≤ 65535)
  | _, _ => false
  end.

Definition peerCheck (p : peerRow) : bool :=
  match peGroup p, peCidr p with
  | None, None => bool_decide (peKind p = 1)
  | Some _, None => bool_decide (peKind p = 2)
  | None, Some _ => bool_decide (peKind p = 3)
  | Some _, Some _ => false
  end.

(** The test of a conditional statement. *)
Definition expectedIs (expected : option string) (version : Z) : Prop :=
  match expected with None => True | Some e => FormatInt version = e end.
#[global] Instance expectedIs_dec expected v : Decision (expectedIs expected v).
Proof. unfold expectedIs. destruct expected; apply _. Defined.
End tables.

(** ** Statements *)

Section statements.
Context `{UUIDLib} `{PgLib}.

Definition setServices (t : list objectRow) (d : DB) : DB :=
  MkDB t (dbServiceEntries d) (dbGroups d) (dbCIDRs d) (dbRulesets d) (dbScopes d) (dbRules d) (dbPeers d) (dbMatches d) (dbRefs d) (dbRuleEntries d).
Definition setServiceEntries (t : list entryRow) (d : DB) : DB :=
  MkDB (dbServices d) t (dbGroups d) (dbCIDRs d) (dbRulesets d) (dbScopes d) (dbRules d) (dbPeers d) (dbMatches d) (dbRefs d) (dbRuleEntries d).
Definition setGroups (t : list objectRow) (d : DB) : DB :=
  MkDB (dbServices d) (dbServiceEntries d) t (dbCIDRs d) (dbRulesets d) (dbScopes d) (dbRules d) (dbPeers d) (dbMatches d) (dbRefs d) (dbRuleEntries d).
Definition setCIDRs (t : list cidrRow) (d : DB) : DB :=
  MkDB (dbServices d) (dbServiceEntries d) (dbGroups d) t (dbRulesets d) (dbScopes d) (dbRules d) (dbPeers d) (dbMatches d) (dbRefs d) (dbRuleEntries d).
Definition setRulesets (t : list rulesetRow) (d : DB) : DB :=
  MkDB (dbServices d) (dbServiceEntries d) (dbGroups d) (dbCIDRs d) t (dbScopes d) (dbRules d) (dbPeers d) (dbMatches d) (dbRefs d) (dbRuleEntries d).
Definition setScopes (t : list scopeRow) (d : DB) : DB :=
  MkDB (dbServices d) (dbServiceEntries d) (dbGroups d) (dbCIDRs d) (dbRulesets d) t (dbRules d) (dbPeers d) (dbMatches d) (dbRefs d) (dbRuleEntries d).
Definition setRules (t : list ruleRow) (d : DB) : DB :=
  MkDB (dbServices d) (dbServiceEntries d) (dbGroups d) (dbCIDRs d) (dbRulesets d) (dbScopes d) t (dbPeers d) (dbMatches d) (dbRefs d) (dbRuleEntries d).
Definition setPeers (t : list peerRow) (d : DB) : DB :=
  MkDB (dbServices d) (dbServiceEntries d) (dbGroups d) (dbCIDRs d) (dbRulesets d) (dbScopes d) (dbRules d) t (dbMatches d) (dbRefs d) (dbRuleEntries d).
Definition setMatches (t : list matchRow) (d : DB) : DB :=
  MkDB (dbServices d) (dbServiceEntries d) (dbGroups d) (dbCIDRs d) (dbRulesets d) (dbScopes d) (dbRules d) (dbPeers d) t (dbRefs d) (dbRuleEntries d).
Definition setRefs (t : list refRow) (d : DB) : DB :=
  MkDB (dbServices d) (dbServiceEntries d) (dbGroups d) (dbCIDRs d) (dbRulesets d) (dbScopes d) (dbRules d) (dbPeers d) (dbMatches d) t (dbRuleEntries d).
Definition setRuleEntries (t : list entryRow) (d : DB) : DB :=
  MkDB (dbServices d) (dbServiceEntries d) (dbGroups d) (dbCIDRs d) (dbRulesets d) (dbScopes d) (dbRules d) (dbPeers d) (dbMatches d) (dbRefs d) t.

(** A statement reads and writes the tables, or fails and leaves them. *)
Abbreviation Stmt A := (DB → result PgError (A * DB)).

Definition onTable {R} (get : DB → list R) (set : list R → DB → DB) (f : list R → result PgError (list R))
  : Stmt () := λ d,
  match f (get d) with Ok t => Ok ((), set t d) | Err e => Err e end.

(** *** Objects with a name and a version: services and address groups *)

Definition insertObject (id : UUID) (name : string) (created : Z) (t : list objectRow)
  : result PgError (list objectRow) :=
  if decide (id ∈ obID <$> t ∨ name ∈ obName <$> t) then Err UniqueViolation
  else Ok (t ++ [MkObjectRow id name (pgTime created) (pgTime created) 1]).

(** [UPDATE ... SET ..., version = version + 1 WHERE id = $1 AND ... RETURNING version]:
    the new version, or no row. *)
Definition updateObject (id : UUID) (name : string) (updated : Z) (expected : option string)
    (t : list objectRow) : result PgError (option Z * list objectRow) :=
  match list_find (λ r, obID r = id ∧ expectedIs expected (obVersion r)) t with
  | None => Ok (None, t)
  | Some (i, r) =>
      if decide (name ∈ obName <$> filter (λ x, obID x ≠ id) t) then Err UniqueViolation
      else if decide (2 ^ 63 ≤ obVersion r + 1) then Err OtherError
      else Ok (Some (obVersion r + 1),
               <[i := MkObjectRow id name (obCreatedAt r) (pgTime updated) (obVersion r + 1)]> t)
  end.

Definition sql_CreateService (id : UUID) (name : string) (created : Z) : Stmt () :=
  onTable dbServices setServices (insertObject id name created).

Definition sql_UpdateService (id : UUID) (name : string) (updated : Z) (expected : option string)
  : Stmt (option Z) := λ d,
  match updateObject id name updated expected (dbServices d) with
  | Ok (v, t) => Ok (v, setServices t d)
  | Err e => Err e
  end.

(** [DELETE FROM services]: restricted by [rule_service_refs], cascades to the
    entries; the number of rows deleted. *)
Definition sql_DeleteService (id : UUID) (expected : option string) : Stmt nat := λ d,
  let hit r := obID r = id ∧ expectedIs expected (obVersion r) in
  match filter hit (dbServices d) with
  | [] => Ok (0%nat, d)
  | rows =>
      if decide (id ∈ reService <$> dbRefs d) then Err ForeignKeyViolation
      else Ok (length rows, setServiceEntries (filter (λ e, enOwner e ≠ id) (dbServiceEntries d))
                              (setServices (filter (λ r, ¬ hit r) (dbServices d)) d))
  end.

Definition sql_GetService (id : UUID) : Stmt (option objectRow) := λ d,
  Ok (snd <$> list_find (λ r, obID r = id) (dbServices d), d).

(** [ORDER BY name, id]. *)
Definition object_le (a b : objectRow) : Prop :=
  pgText_le (obName a) (obName b) ∧ (pgText_le (obName b) (obName a) → uuid_le (obID a) (obID b)).
#[global] Instance object_le_dec : RelDecision object_le.
Proof. intros a b. unfold object_le. apply _. Defined.

Definition sql_ListServices : Stmt (list objectRow) := λ d, Ok (merge_sort object_le (dbServices d), d).

Definition insertEntry (owners : list UUID) (e : entryRow) (t : list entryRow) : result PgError (list entryRow) :=
  if entryCheck e then
    t' ← insertRow entryKey e t;
    if decide (enOwner e ∈ owners) then Ok t' else Err ForeignKeyViolation
  else Err OtherError.

Definition sql_AddServiceEntry (e : entryRow) : Stmt () := λ d,
  onTable dbServiceEntries setServiceEntries (insertEntry (obID <$> dbServices d) e) d.

Definition sql_DeleteServiceEntries (id : UUID) : Stmt () := λ d,
  Ok ((), setServiceEntries (filter (λ e, enOwner e ≠ id) (dbServiceEntries d)) d).

Definition entries_le : relation entryRow := owned_le entryKey Z.le.

Definition sql_ListServiceEntries (id : UUID) : Stmt (list entryRow) := λ d,
  Ok (merge_sort entries_le (filter (λ e, enOwner e = id) (dbServiceEntries d)), d).

Definition sql_ListAllServiceEntries : Stmt (list entryRow) := λ d,
  Ok (merge_sort entries_le (dbServiceEntries d), d).

(** *** Address groups *)

Definition sql_CreateAddressGroup (id : UUID) (name : string) (created : Z) : Stmt () :=
  onTable dbGroups setGroups (insertObject id name created).

Definition sql_UpdateAddressGroup (id : UUID) (name : string) (updated : Z) (expected : option string)
  : Stmt (option Z) := λ d,
  match updateObject id name updated expected (dbGroups d) with
  | Ok (v, t) => Ok (v, setGroups t d)
  | Err e => Err e
  end.

(** Restricted by [rule_peers], cascades to the CIDRs. *)
Definition sql_DeleteAddressGroup (id : UUID) (expected : option string) : Stmt nat := λ d,
  let hit r := obID r = id ∧ expectedIs expected (obVersion r) in
  match filter hit (dbGroups d) with
  | [] => Ok (0%nat, d)
  | rows =>
      if decide (Some id ∈ peGroup <$> dbPeers d) then Err ForeignKeyViolation
      else Ok (length rows, setCIDRs (filter (λ c, ciGroup c ≠ id) (dbCIDRs d))
                              (setGroups (filter (λ r, ¬ hit r) (dbGroups d)) d))
  end.

Definition sql_GetAddressGroup (id : UUID) : Stmt (option objectRow) := λ d,
  Ok (snd <$> list_find (λ r, obID r = id) (dbGroups d), d).

Definition sql_ListAddressGroups : Stmt (list objectRow) := λ d, Ok (merge_sort object_le (dbGroups d), d).

Definition sql_AddAddressGroupCIDR (c : cidrRow) : Stmt () := λ d,
  onTable dbCIDRs setCIDRs (λ t,
    t' ← insertRow cidrKey c t;
    if decide (ciGroup c ∈ obID <$> dbGroups d) then Ok t' else Err ForeignKeyViolation) d.

Definition sql_DeleteAddressGroupCIDRs (id : UUID) : Stmt () := λ d,
  Ok ((), setCIDRs (filter (λ c, ciGroup c ≠ id) (dbCIDRs d)) d).

Definition sql_ListAddressGroupCIDRs (id : UUID) : Stmt (list cidrRow) := λ d,
  Ok (merge_sort (owned_le cidrKey pgText_le) (filter (λ c, ciGroup c = id) (dbCIDRs d)), d).

Definition sql_ListAllAddressGroupCIDRs : Stmt (list cidrRow) := λ d,
  Ok (merge_sort (owned_le cidrKey pgText_le) (dbCIDRs d), d).

(** *** Rulesets *)

Definition sql_CreateRuleset (id : UUID) (name description : string) (enabled : bool) (created : Z) : Stmt () :=
  onTable dbRulesets setRulesets (λ t,
    if decide (id ∈ rwID <$> t ∨ name ∈ rwName <$> t) then Err UniqueViolation
    else Ok (t ++ [MkRulesetRow id name description enabled (pgTime created) (pgTime created) 1])).

Definition sql_UpdateRuleset (id : UUID) (name description : string) (enabled : bool) (updated : Z)
    (expected : option string) : Stmt (option Z) := λ d,
  match list_find (λ r, rwID r = id ∧ expectedIs expected (rwVersion r)) (dbRulesets d) with
  | None => Ok (None, d)
  | Some (i, r) =>
      if decide (name ∈ rwName <$> filter (λ x, rwID x ≠ id) (dbRulesets d)) then Err UniqueViolation
      else if decide (2 ^ 63 ≤ rwVersion r + 1) then Err OtherError
      else Ok (Some (rwVersion r + 1),
               setRulesets (<[i := MkRulesetRow id name description enabled (rwCreatedAt r) (pgTime updated)
                                     (rwVersion r + 1)]> (dbRulesets d)) d)
  end.

(** Deleting rules cascades to their peers, to the matches of those, to their
    service references and to their entries. *)
Definition dropRules (gone : list UUID) (d : DB) : DB :=
  setRuleEntries (filter (λ e, enOwner e ∉ gone) (dbRuleEntries d))
    (setRefs (filter (λ r, reRule r ∉ gone) (dbRefs d))
      (setMatches (filter (λ m, maRule m ∉ gone) (dbMatches d))
        (setPeers (filter (λ p, peRule p ∉ gone) (dbPeers d))
          (setRules (filter (λ r, rlID r ∉ gone) (dbRules d)) d)))).

Definition rulesOf (id : UUID) (d : DB) : list UUID := rlID <$> filter (λ r, rlRuleset r = id) (dbRules d).

(** [DELETE FROM rulesets] cascades to the scope and the rules. *)
Definition sql_DeleteRuleset (id : UUID) (expected : option string) : Stmt nat := λ d,
  let hit r := rwID r = id ∧ expectedIs expected (rwVersion r) in
  match filter hit (dbRulesets d) with
  | [] => Ok (0%nat, d)
  | rows =>
      Ok (length rows, dropRules (rulesOf id d)
            (setScopes (filter (λ s, scRuleset s ≠ id) (dbScopes d))
              (setRulesets (filter (λ r, ¬ hit r) (dbRulesets d)) d)))
  end.

Definition sql_GetRuleset (id : UUID) : Stmt (option rulesetRow) := λ d,
  Ok (snd <$> list_find (λ r, rwID r = id) (dbRulesets d), d).

Definition ruleset_le (a b : rulesetRow) : Prop :=
  pgText_le (rwName a) (rwName b) ∧ (pgText_le (rwName b) (rwName a) → uuid_le (rwID a) (rwID b)).
#[global] Instance ruleset_le_dec : RelDecision ruleset_le.
Proof. intros a b. unfold ruleset_le. apply _. Defined.

Definition sql_ListRulesets : Stmt (list rulesetRow) := λ d, Ok (merge_sort ruleset_le (dbRulesets d), d).

Definition sql_AddRulesetScopeMatch (s : scopeRow) : Stmt () := λ d,
  onTable dbScopes setScopes (λ t,
    t' ← insertRow scopeKey s t;
    if decide (scRuleset s ∈ rwID <$> dbRulesets d) then Ok t' else Err ForeignKeyViolation) d.

Definition sql_DeleteRulesetScopeMatches (id : UUID) : Stmt () := λ d,
  Ok ((), setScopes (filter (λ s, scRuleset s ≠ id) (dbScopes d)) d).

Definition sql_ListAllRulesetScopeMatches : Stmt (list scopeRow) := λ d,
  Ok (merge_sort (owned_le scopeKey pgText_le) (dbScopes d), d).

(** [id] is the primary key, and [(ruleset_id, ordinal)] is unique. *)
Definition sql_AddRule (r : ruleRow) : Stmt () := λ d,
  onTable dbRules setRules (λ t,
    if decide (rlID r ∈ rlID <$> t) then Err UniqueViolation else
    t' ← insertRow ruleKey r t;
    if decide (rlRuleset r ∈ rwID <$> dbRulesets d) then Ok t' else Err ForeignKeyViolation) d.

Definition sql_DeleteRules (id : UUID) : Stmt () := λ d, Ok ((), dropRules (rulesOf id d) d).

Definition sql_ListAllRules : Stmt (list ruleRow) := λ d, Ok (merge_sort (owned_le ruleKey Z.le) (dbRules d), d).

Definition sql_AddRulePeer (p : peerRow) : Stmt () := λ d,
  onTable dbPeers setPeers (λ t,
    if peerCheck p then
      t' ← insertRow peerKey p t;
      if decide (peRule p ∈ rlID <$> dbRules d ∧ peGroup p ∈ None :: (Some <$> (obID <$> dbGroups d)))
      then Ok t' else Err ForeignKeyViolation
    else Err OtherError) d.

Definition sql_ListAllRulePeers : Stmt (list peerRow) := λ d, Ok (merge_sort (owned_le peerKey Z.le) (dbPeers d), d).

Definition sql_AddRulePeerMatch (m : matchRow) : Stmt () := λ d,
  onTable dbMatches setMatches (λ t,
    t' ← insertRow matchKey m t;
    if decide ((maRule m, maPeer m) ∈ peerKey <$> dbPeers d) then Ok t' else Err ForeignKeyViolation) d.

(** [ORDER BY rule_id, peer_ordinal, key]. *)
Definition match_le (a b : matchRow) : Prop :=
  owned_le (λ m, (maRule m, maPeer m)) Z.le a b ∧
  ((maRule a, maPeer a) = (maRule b, maPeer b) → pgText_le (maKey a) (maKey b)).
#[global] Instance match_le_dec : RelDecision match_le.
Proof. intros a b. unfold match_le. apply _. Defined.

Definition sql_ListAllRulePeerMatches : Stmt (list matchRow) := λ d, Ok (merge_sort match_le (dbMatches d), d).

Definition sql_AddRuleServiceRef (r : refRow) : Stmt () := λ d,
  onTable dbRefs setRefs (λ t,
    t' ← insertRow refKey r t;
    if decide (reRule r ∈ rlID <$> dbRules d ∧ reService r ∈ obID <$> dbServices d) then Ok t'
    else Err ForeignKeyViolation) d.

Definition sql_ListAllRuleServiceRefs : Stmt (list refRow) := λ d,
  Ok (merge_sort (owned_le refKey uuid_le) (dbRefs d), d).

Definition sql_AddRuleServiceEntry (e : entryRow) : Stmt () := λ d,
  onTable dbRuleEntries setRuleEntries (insertEntry (rlID <$> dbRules d) e) d.

Definition sql_ListAllRuleServiceEntries : Stmt (list entryRow) := λ d,
  Ok (merge_sort entries_le (dbRuleEntries d), d).
End statements.
