(* ===== verification/PolicyStore.v ===== *)
(** * The store of the authored model: [internal/store/policy.go]

    Composite objects are flattened into rows and put together again.  A session
    runs statements in order; any statement may also fail for a reason of the
    server's own (a lost connection, an encoding), which is the countdown
    [option nat] of a session.  [tx] is a transaction: an error rolls it back, and
    the reply to a commit may be lost after it took effect. *)

From S2P Require Import Prelude GoStd Netip Wire Uuid Identity Policy Validate Authoring Postgres.
Local Open Scope Z_scope.

Section store.
Context `{UUIDLib} `{PgLib}.

(** ** Sessions *)

Record Session := MkSession { seFault : option nat; seDB : DB }.

Definition Tx (A : Type) : Type := Session → result StoreError (A * Session).

#[global] Instance tx_ret : MRet Tx := λ A a s, Ok (a, s).
#[global] Instance tx_bind : MBind Tx := λ A B f m s,
  match m s with Ok (a, s') => f a s' | Err e => Err e end.

Definition fails {A} (e : StoreError) : Tx A := λ _, Err e.

(** One statement; [wrap] is the error the code makes of a failure. *)
Definition exec {A} (wrap : PgError → StoreError) (q : DB → result PgError (A * DB)) : Tx A := λ s,
  match seFault s with
  | Some O => Err (wrap OtherError)
  | _ =>
      match q (seDB s) with
      | Ok (a, d) => Ok (a, MkSession (pred <$> seFault s) d)
      | Err e => Err (wrap e)
      end
  end.

(** [fmt.Errorf("store: ...: %w", err)] for every error. *)
Definition failure : PgError → StoreError := λ _, StoreFailure.
(** [isPgCode(err, code)] first. *)
Definition onUnique (e : StoreError) : PgError → StoreError := λ p,
  match p with UniqueViolation => e | _ => StoreFailure end.
Definition onForeignKey (e : StoreError) : PgError → StoreError := λ p,
  match p with ForeignKeyViolation => e | _ => StoreFailure end.

(** A loop with an index that stops at the first error. *)
Fixpoint forEach {A} (f : nat → A → Tx ()) (i : nat) (l : list A) : Tx () :=
  match l with
  | [] => mret ()
  | x :: l' => f i x;; forEach f (S i) l'
  end.

Inductive Commit := Committed | CommitRefused | ReplyLost.

(** How the server treats one call: whether the transaction begins, the statement
    that fails, and the commit. *)
Record Server := MkServer { svBegins : bool; svFault : option nat; svCommit : Commit }.

Definition tx {A} (sv : Server) (m : Tx A) (d : DB) : result StoreError A * DB :=
  if svBegins sv then
    match m (MkSession (svFault sv) d) with
    | Err e => (Err e, d)
    | Ok (a, s) =>
        match svCommit sv with
        | Committed => (Ok a, seDB s)
        | CommitRefused => (Err StoreFailure, d)
        | ReplyLost => (Err StoreFailure, seDB s)
        end
    end
  else (Err StoreFailure, d).

(** A statement outside a transaction commits by itself. *)
Definition autocommit {A} (sv : Server) (m : Tx A) (d : DB) : result StoreError A * DB :=
  tx (MkServer true (svFault sv) (svCommit sv)) m d.

(** Reads outside a transaction, on one state of the tables. *)
Definition reads {A} (sv : Server) (m : Tx A) (d : DB) : result StoreError A * DB :=
  match m (MkSession (svFault sv) d) with Err e => (Err e, d) | Ok (a, _) => (Ok a, d) end.

Definition expected (expect : string) : option string := if decide (expect = "") then None else Some expect.

Definition versionMismatch (unknown : StoreError) (version : option Z) : StoreError :=
  match version with
  | None => unknown
  | Some v => VersionMismatchError (FormatVersion v)
  end.

(** ** Entries *)

Definition entryRows (e : ServiceEntry) : list (option Z * option Z) :=
  match sePorts e with
  | [] => [(None, None)]
  | ports => (λ p, (Some (i32 (prStart p)), Some (i32 (prEnd p)))) <$> ports
  end.

(** The rows of a list of entries, each with its protocol, in order. *)
Definition flatEntries (es : list ServiceEntry) : list (Z * (option Z * option Z)) :=
  es ≫= λ e, (λ row, (Protocol_number (seProtocol e), row)) <$> entryRows e.

(** [innerwallv1.Protocol(n)]. *)
Definition Protocol_of (n : Z) : Protocol :=
  if decide (n = 0) then PROTOCOL_UNSPECIFIED else if decide (n = 1) then PROTOCOL_TCP
  else if decide (n = 2) then PROTOCOL_UDP else if decide (n = 3) then PROTOCOL_ICMP
  else Protocol_unrecognized n.

(** The loop of [entriesFromRows]: the entries so far, and where each protocol is. *)
Definition addFlat (st : list ServiceEntry * gmap Z nat) (row : Z * (option Z * option Z))
  : list ServiceEntry * gmap Z nat :=
  let '(out, index) := st in
  let '(protocol, (start, end_)) := row in
  let '(i, out, index) :=
    match index !! protocol with
    | Some i => (i, out, index)
    | None => (length out, out ++ [MkServiceEntry (Protocol_of protocol) []], <[protocol := length out]> index)
    end in
  let put ports := alter (λ e, MkServiceEntry (seProtocol e) (ports (sePorts e))) i out in
  match start, end_ with
  | Some a, Some b => (put (λ ports, ports ++ [MkPortRange (u32 a) (u32 b)]), index)
  | _, _ => (put (λ _, []), index)
  end.

Definition entriesFromRows (rows : list (Z * (option Z * option Z))) : list ServiceEntry :=
  (foldl addFlat ([], ∅) rows).1.

Definition flatOf (e : entryRow) : Z * (option Z * option Z) := (enProtocol e, (enStart e, enEnd e)).

(** The nested loops of [addServiceEntries] and [addRulesetChildren] over entries
    and their rows, with one running ordinal. *)
Definition addEntries (owner : UUID) (add : entryRow → DB → result PgError (() * DB)) (es : list ServiceEntry)
  : Tx () :=
  forEach (λ i row, exec failure
    (add (MkEntryRow owner (Z.of_nat i) row.1 row.2.1 row.2.2))) 0 (flatEntries es).

Definition addServiceEntries (svc : Service) : Tx () :=
  addEntries (svcID svc) sql_AddServiceEntry (svcEntries svc).

(** ** Services *)

Definition Store_CreateService (sv : Server) (svc : Service) : DB → result StoreError () * DB :=
  tx sv (exec (onUnique ErrDuplicateName) (sql_CreateService (svcID svc) (svcName svc) (svcCreatedAt svc));;
         addServiceEntries svc).

Definition Store_UpdateService (sv : Server) (svc : Service) (expect : string) : DB → result StoreError Z * DB :=
  tx sv (
    v ← exec (onUnique ErrDuplicateName)
          (sql_UpdateService (svcID svc) (svcName svc) (svcUpdatedAt svc) (expected expect));
    match v with
    | None =>
        row ← exec failure (sql_GetService (svcID svc));
        fails (versionMismatch ErrServiceUnknown (obVersion <$> row))
    | Some v =>
        exec failure (sql_DeleteServiceEntries (svcID svc));;
        addServiceEntries svc;;
        mret v
    end).

Definition Store_DeleteService (sv : Server) (id : UUID) (expect : string) : DB → result StoreError () * DB :=
  autocommit sv (
    n ← exec (onForeignKey ErrInUse) (sql_DeleteService id (expected expect));
    match n with
    | O => row ← exec failure (sql_GetService id); fails (versionMismatch ErrServiceUnknown (obVersion <$> row))
    | _ => mret ()
    end).

Definition serviceOf (r : objectRow) (entries : list entryRow) : Service :=
  MkService (obID r) (obName r) (entriesFromRows (flatOf <$> entries)) (obCreatedAt r) (obUpdatedAt r) (obVersion r) [].

Definition Store_GetService (sv : Server) (id : UUID) : DB → result StoreError Service * DB :=
  reads sv (
    row ← exec failure (sql_GetService id);
    match row with
    | None => fails ErrServiceUnknown
    | Some r => entries ← exec failure (sql_ListServiceEntries id); mret (serviceOf r entries)
    end).

(** [index[key] = append(index[key], row)] over the rows. *)
Definition groupRows {R V} (owner : R → UUID) (val : R → V) (rows : list R) : gmap UUID (list V) :=
  foldl (λ m r, <[owner r := default [] (m !! owner r) ++ [val r]]> m) ∅ rows.

(** What [listServices] makes of the rows. *)
Definition assembleServices (rows : list objectRow) (entries : list entryRow) : list Service :=
  let flat := groupRows enOwner id entries in
  (λ r, serviceOf r (default [] (flat !! obID r))) <$> rows.

Definition listServices : Tx (list Service) :=
  rows ← exec failure sql_ListServices;
  entries ← exec failure sql_ListAllServiceEntries;
  mret (assembleServices rows entries).

(** ** Address groups *)

Definition addGroupCIDRs (g : AddressGroup) : Tx () :=
  forEach (λ _ c, exec failure (sql_AddAddressGroupCIDR (MkCidrRow (agID g) c))) 0 (agCIDRs g).

Definition Store_CreateAddressGroup (sv : Server) (g : AddressGroup) : DB → result StoreError () * DB :=
  tx sv (exec (onUnique ErrDuplicateName) (sql_CreateAddressGroup (agID g) (agName g) (agCreatedAt g));;
         addGroupCIDRs g).

Definition Store_UpdateAddressGroup (sv : Server) (g : AddressGroup) (expect : string) : DB → result StoreError Z * DB :=
  tx sv (
    v ← exec (onUnique ErrDuplicateName)
          (sql_UpdateAddressGroup (agID g) (agName g) (agUpdatedAt g) (expected expect));
    match v with
    | None =>
        row ← exec failure (sql_GetAddressGroup (agID g));
        fails (versionMismatch ErrAddressGroupUnknown (obVersion <$> row))
    | Some v =>
        exec failure (sql_DeleteAddressGroupCIDRs (agID g));;
        addGroupCIDRs g;;
        mret v
    end).

Definition Store_DeleteAddressGroup (sv : Server) (id : UUID) (expect : string) : DB → result StoreError () * DB :=
  autocommit sv (
    n ← exec (onForeignKey ErrInUse) (sql_DeleteAddressGroup id (expected expect));
    match n with
    | O => row ← exec failure (sql_GetAddressGroup id);
           fails (versionMismatch ErrAddressGroupUnknown (obVersion <$> row))
    | _ => mret ()
    end).

Definition groupOf (r : objectRow) (cidrs : list string) : AddressGroup :=
  MkAddressGroup (obID r) (obName r) cidrs (obCreatedAt r) (obUpdatedAt r) (obVersion r).

Definition Store_GetAddressGroup (sv : Server) (id : UUID) : DB → result StoreError AddressGroup * DB :=
  reads sv (
    row ← exec failure (sql_GetAddressGroup id);
    match row with
    | None => fails ErrAddressGroupUnknown
    | Some r => cidrs ← exec failure (sql_ListAddressGroupCIDRs id); mret (groupOf r (ciCidr <$> cidrs))
    end).

Definition assembleGroups (rows : list objectRow) (cidrs : list cidrRow) : list AddressGroup :=
  let byGroup := groupRows ciGroup ciCidr cidrs in
  (λ r, groupOf r (default [] (byGroup !! obID r))) <$> rows.

Definition listAddressGroups : Tx (list AddressGroup) :=
  rows ← exec failure sql_ListAddressGroups;
  cidrs ← exec failure sql_ListAllAddressGroupCIDRs;
  mret (assembleGroups rows cidrs).

(** ** Rulesets *)

Definition Direction_number (d : Direction) : Z :=
  match d with
  | DIRECTION_UNSPECIFIED => 0 | DIRECTION_INBOUND => 1 | DIRECTION_OUTBOUND => 2
  | Direction_unrecognized n => n
  end.
Definition Direction_of (n : Z) : Direction :=
  if decide (n = 0) then DIRECTION_UNSPECIFIED else if decide (n = 1) then DIRECTION_INBOUND
  else if decide (n = 2) then DIRECTION_OUTBOUND else Direction_unrecognized n.
Definition PeerKind_number (k : PeerKind) : Z :=
  match k with
  | PeerUnspecified => 0 | PeerWorkloads => 1 | PeerAddressGroup => 2 | PeerCIDR => 3 | PeerKind_other n => n
  end.
Definition PeerKind_of (n : Z) : PeerKind :=
  if decide (n = 0) then PeerUnspecified else if decide (n = 1) then PeerWorkloads
  else if decide (n = 2) then PeerAddressGroup else if decide (n = 3) then PeerCIDR else PeerKind_other n.

Definition sortedKeys (m : Selector) : list string := merge_sort String.le (map_to_list m).*1.

Definition addRuleset_scope (rs : Ruleset) : Tx () :=
  forEach (λ _ key, exec failure
    (sql_AddRulesetScopeMatch (MkScopeRow (rsID rs) key (default [] (rsScope rs !! key))))) 0 (sortedKeys (rsScope rs)).

Definition peerRowOf (rule : UUID) (j : nat) (p : Peer) : peerRow :=
  MkPeerRow rule (Z.of_nat j) (PeerKind_number (peerKind p))
    (match peerKind p with PeerAddressGroup => Some (peerAddressGroupID p) | _ => None end)
    (match peerKind p with PeerCIDR => Some (peerCIDR p) | _ => None end).

Definition addPeer (rule : UUID) (j : nat) (p : Peer) : Tx () :=
  exec (onForeignKey (ErrReference ErrUnknownAddressGroup)) (sql_AddRulePeer (peerRowOf rule j p));;
  match peerKind p with
  | PeerWorkloads =>
      forEach (λ _ key, exec failure
        (sql_AddRulePeerMatch (MkMatchRow rule (Z.of_nat j) key (default [] (peerWorkloads p !! key)))))
        0 (sortedKeys (peerWorkloads p))
  | _ => mret ()
  end.

Definition ruleRowOf (rulesetID : UUID) (i : nat) (r : Rule) : ruleRow :=
  MkRuleRow (ruleID r) rulesetID (Z.of_nat i) (Direction_number (ruleDirection r)) (ruleEnabled r)
    (ruleDescription r) (pgTime (ruleCreatedAt r)) (pgTime (ruleUpdatedAt r)) (ruleVersion r).

Definition addRule (rulesetID : UUID) (i : nat) (r : Rule) : Tx () :=
  exec (onUnique ErrDuplicateRuleID) (sql_AddRule (ruleRowOf rulesetID i r));;
  forEach (addPeer (ruleID r)) 0 (rulePeers r);;
  forEach (λ _ sid, exec (onForeignKey (ErrReference ErrUnknownService))
    (sql_AddRuleServiceRef (MkRefRow (ruleID r) sid))) 0 (ruleServiceIDs r);;
  addEntries (ruleID r) sql_AddRuleServiceEntry (ruleEntries r).

Definition addRulesetChildren (rs : Ruleset) : Tx () :=
  addRuleset_scope rs;; forEach (addRule (rsID rs)) 0 (rsRules rs).

Definition Store_CreateRuleset (sv : Server) (rs : Ruleset) : DB → result StoreError () * DB :=
  tx sv (exec (onUnique ErrDuplicateName)
           (sql_CreateRuleset (rsID rs) (rsName rs) (rsDescription rs) (rsEnabled rs) (rsCreatedAt rs));;
         addRulesetChildren rs).

Definition Store_UpdateRuleset (sv : Server) (rs : Ruleset) (expect : string) : DB → result StoreError Z * DB :=
  tx sv (
    v ← exec (onUnique ErrDuplicateName)
          (sql_UpdateRuleset (rsID rs) (rsName rs) (rsDescription rs) (rsEnabled rs) (rsUpdatedAt rs) (expected expect));
    match v with
    | None =>
        row ← exec failure (sql_GetRuleset (rsID rs));
        fails (versionMismatch ErrRulesetUnknown (rwVersion <$> row))
    | Some v =>
        exec failure (sql_DeleteRulesetScopeMatches (rsID rs));;
        exec failure (sql_DeleteRules (rsID rs));;
        addRulesetChildren rs;;
        mret v
    end).

Definition Store_DeleteRuleset (sv : Server) (id : UUID) (expect : string) : DB → result StoreError () * DB :=
  autocommit sv (
    n ← exec failure (sql_DeleteRuleset id (expected expect));
    match n with
    | O => row ← exec failure (sql_GetRuleset id); fails (versionMismatch ErrRulesetUnknown (rwVersion <$> row))
    | _ => mret ()
    end).

(** *** Reading rulesets *)

(** The selectors of the peers: [matchIndex]. *)
Definition indexMatches (rows : list matchRow) : gmap UUID (gmap Z Selector) :=
  foldl (λ m r, <[maRule r :=
           <[maPeer r := <[maKey r := maValues r]> (default ∅ (default ∅ (m !! maRule r) !! maPeer r))]>
             (default ∅ (m !! maRule r))]> m) ∅ rows.

Definition peerOf (matchIndex : gmap UUID (gmap Z Selector)) (p : peerRow) : Peer :=
  match PeerKind_of (peKind p) with
  | PeerWorkloads =>
      MkPeer PeerWorkloads (default ∅ (default ∅ (matchIndex !! peRule p) !! peOrdinal p)) uuid_Nil ""
  | PeerAddressGroup => MkPeer PeerAddressGroup ∅ (default uuid_Nil (peGroup p)) ""
  | PeerCIDR => MkPeer PeerCIDR ∅ uuid_Nil (default "" (peCidr p))
  | k => MkPeer k ∅ uuid_Nil ""
  end.

Definition ruleOf (peerIndex : gmap UUID (list Peer)) (refIndex : gmap UUID (list UUID))
    (entryIndex : gmap UUID (list (Z * (option Z * option Z)))) (r : ruleRow) : Rule :=
  MkRule (rlID r) (Direction_of (rlDirection r)) (rlEnabled r) (rlDescription r)
    (default [] (peerIndex !! rlID r)) (default [] (refIndex !! rlID r))
    (entriesFromRows (default [] (entryIndex !! rlID r))) (rlCreatedAt r) (rlUpdatedAt r) (rlVersion r) [].

(** [scopeIndex]. *)
Definition indexScopes (rows : list scopeRow) : gmap UUID Selector :=
  foldl (λ m r, <[scRuleset r := <[scKey r := scValues r]> (default ∅ (m !! scRuleset r))]> m) ∅ rows.

Definition rulesetOf (ruleIndex : gmap UUID (list Rule)) (scopeIndex : gmap UUID Selector) (r : rulesetRow) : Ruleset :=
  MkRuleset (rwID r) (rwName r) (rwDescription r) (rwEnabled r) (default ∅ (scopeIndex !! rwID r))
    (default [] (ruleIndex !! rwID r)) (rwCreatedAt r) (rwUpdatedAt r) (rwVersion r) [].

(** What [listRulesets] makes of the rows. *)
Definition assembleRulesets (rows : list rulesetRow) (scopes : list scopeRow) (rules : list ruleRow)
    (peers : list peerRow) (matches : list matchRow) (refs : list refRow) (entries : list entryRow)
  : list Ruleset :=
  let peerIndex := groupRows peRule (peerOf (indexMatches matches)) peers in
  let refIndex := groupRows reRule reService refs in
  let entryIndex := groupRows enOwner flatOf entries in
  let ruleIndex := groupRows rlRuleset (ruleOf peerIndex refIndex entryIndex) rules in
  rulesetOf ruleIndex (indexScopes scopes) <$> rows.

Definition listRulesets : Tx (list Ruleset) :=
  rows ← exec failure sql_ListRulesets;
  scopes ← exec failure sql_ListAllRulesetScopeMatches;
  rules ← exec failure sql_ListAllRules;
  peers ← exec failure sql_ListAllRulePeers;
  matches ← exec failure sql_ListAllRulePeerMatches;
  refs ← exec failure sql_ListAllRuleServiceRefs;
  entries ← exec failure sql_ListAllRuleServiceEntries;
  mret (assembleRulesets rows scopes rules peers matches refs entries).

Definition Store_GetRuleset (sv : Server) (id : UUID) : DB → result StoreError Ruleset * DB :=
  reads sv (
    row ← exec failure (sql_GetRuleset id);
    match row with
    | None => fails ErrRulesetUnknown
    | Some _ =>
        all ← listRulesets;
        match list_find (λ rs, rsID rs = id) all with
        | Some (_, rs) => mret rs
        | None => fails ErrRulesetUnknown
        end
    end).

(** ** The store behind the interface *)

(** [Store.ListServices], [Store.ListAddressGroups] and [Store.ListRulesets]. *)
Definition Store_ListServices (sv : Server) : DB → result StoreError (list Service) * DB := reads sv listServices.
Definition Store_ListAddressGroups (sv : Server) : DB → result StoreError (list AddressGroup) * DB :=
  reads sv listAddressGroups.
Definition Store_ListRulesets (sv : Server) : DB → result StoreError (list Ruleset) * DB := reads sv listRulesets.

(** The tables, and how the server treats each call to come. *)
Record PgState := MkPgState { psDB : DB; psServers : nat → Server; psCalls : nat }.

Definition onServer {A} (op : Server → DB → result StoreError A * DB) (s : PgState) : result StoreError A * PgState :=
  let '(r, d) := op (psServers s (psCalls s)) (psDB s) in (r, MkPgState d (psServers s) (S (psCalls s))).

(** The store implements [policy.Store]. *)
#[global] Instance pg_store : AuthoredStore PgState := {
  st_CreateService svc := onServer (λ sv, Store_CreateService sv svc);
  st_UpdateService svc expect := onServer (λ sv, Store_UpdateService sv svc expect);
  st_DeleteService id expect := onServer (λ sv, Store_DeleteService sv id expect);
  st_ListServices := onServer Store_ListServices;
  st_CreateAddressGroup g := onServer (λ sv, Store_CreateAddressGroup sv g);
  st_UpdateAddressGroup g expect := onServer (λ sv, Store_UpdateAddressGroup sv g expect);
  st_DeleteAddressGroup id expect := onServer (λ sv, Store_DeleteAddressGroup sv id expect);
  st_ListAddressGroups := onServer Store_ListAddressGroups;
  st_CreateRuleset rs := onServer (λ sv, Store_CreateRuleset sv rs);
  st_UpdateRuleset rs expect := onServer (λ sv, Store_UpdateRuleset sv rs expect);
  st_DeleteRuleset id expect := onServer (λ sv, Store_DeleteRuleset sv id expect);
  st_GetRuleset id := onServer (λ sv, Store_GetRuleset sv id);
}.
End store.
