(* ===== verification/RegistryStore.v ===== *)
(** * The store of the registry: [internal/store/registry.go], [fleet.go] and [render.go],
      with [queries/workloads.sql], [mode_changes.sql] and [workload_policies.sql]

    The tables of workloads and what hangs off them, the statements, and the store's
    operations on them.  A table with a primary key is a finite map from it.  The
    columns of [workloads] are grouped by what writes them.  One call of the store is
    one transaction or one statement: it succeeds, fails and changes nothing, or takes
    effect although its answer is lost ([Answer]).  The authored tables are those of
    [Postgres.v]; protobuf's encodings are the parameters [PolicyCodec] and
    [FactsCodec]. *)

From S2P Require Import Prelude GoStd Netip Wire Uuid Identity Policy Registry Rendered Compiler Enforce Ingest IngestService Authoring Fleet Postgres PolicyStore.
Local Open Scope Z_scope.

Class FactsCodec := {
  facts_Marshal : HostFacts → option bytestring;
  facts_Unmarshal : bytestring → option HostFacts;
}.

(** ** Rows *)

Section rows.
Context `{UUIDLib}.

(** Written by enrolment, renewal, the Hello of a stream and heartbeats. *)
Record credentialCols := MkCredentialCols {
  ccSerial : string; ccExpiresAt : Z; ccLastRenewedAt : option Z;
  ccLateRenewalAt : option Z; ccLateRenewalExpiredAt : option Z;
  ccPresentedSerial : option string; ccPresentedExpiresAt : option Z; ccRenewalError : string;
}.
(** What the agent says of itself, and when. *)
Record agentCols := MkAgentCols {
  acVersion : string; acCapabilities : list string; acLastSeenAt : option Z;
  acLastHeartbeatAt : option Z; acStartedAt : option Z;
}.
(** Convergence and the owned table. *)
Record syncCols := MkSyncCols {
  scState : SyncState; scAppliedVersion : Z; scError : string;
  scLastSnapshotSentAt : option Z; scLastAckedAt : option Z; scLastApplyFailedAt : option Z;
  scOwnedTable : OwnedTableState; scAbsentSince : option Z;
}.
(** What flow reports and the loss counters say. *)
Record evidenceCols := MkEvidenceCols {
  ecDropped : Z; ecOverruns : Z;
  ecSkewOffsetMs : option Z; ecSkewObservedAt : option Z; ecSkewCurrent : bool; ecLastFlowReportAt : option Z;
}.
Record workloadRow := MkWorkloadRow {
  wkHostname : string; wkEnrolledAt : Z; wkMode : Z; wkFacts : option bytestring; wkRetiredAt : option Z;
  wkCredential : credentialCols; wkAgent : agentCols; wkSync : syncCols; wkEvidence : evidenceCols;
}.

Record policyRow := MkPolicyRow { plVersion : Z; plPolicy : bytestring; plRenderedAt : Z }.
Record modeChangeRow := MkModeChangeRow {
  moCreatedAt : Z; moTargetMode : Z; moSelector : Selector; moExpected : Z; moMatched : Z; moUpdated : Z;
}.
(** [flow_gaps], by the key of its unique constraint. *)
Record gapKey := MkGapKey { gkKind : EvidenceGapKind; gkSource : EvidenceSource; gkFrom : Z; gkTo : Z }.
#[global] Instance gapKey_eq_dec : EqDecision gapKey.
Proof. solve_decision. Defined.

Record labelRow := MkLabelRow { lbOwner : UUID; lbKey : string; lbValue : string }.
Record addressRow := MkAddressRow { adOwner : UUID; adAddress : string }.

Record RegistryDB := MkRegistryDB {
  rgAuthored : DB;
  rgWorkloads : gmap UUID workloadRow;
  rgLabels : gmap (UUID * string) string;
  rgAddresses : gset (UUID * string);
  rgListening : gmap (UUID * (Z * Z)) (string * string);
  rgPolicies : gmap UUID policyRow;
  rgModeChanges : gmap UUID modeChangeRow;
  rgModeChangeWorkloads : gmap (UUID * UUID) Z;
  rgGaps : list (UUID * gapKey * option Z);
  rgNotes : list string;
}.

Definition setWorkloads (t : gmap UUID workloadRow) (d : RegistryDB) : RegistryDB :=
  MkRegistryDB (rgAuthored d) t (rgLabels d) (rgAddresses d) (rgListening d) (rgPolicies d) (rgModeChanges d)
    (rgModeChangeWorkloads d) (rgGaps d) (rgNotes d).
Definition setLabels (t : gmap (UUID * string) string) (d : RegistryDB) : RegistryDB :=
  MkRegistryDB (rgAuthored d) (rgWorkloads d) t (rgAddresses d) (rgListening d) (rgPolicies d) (rgModeChanges d)
    (rgModeChangeWorkloads d) (rgGaps d) (rgNotes d).
Definition setAddresses (t : gset (UUID * string)) (d : RegistryDB) : RegistryDB :=
  MkRegistryDB (rgAuthored d) (rgWorkloads d) (rgLabels d) t (rgListening d) (rgPolicies d) (rgModeChanges d)
    (rgModeChangeWorkloads d) (rgGaps d) (rgNotes d).
Definition setListening (t : gmap (UUID * (Z * Z)) (string * string)) (d : RegistryDB) : RegistryDB :=
  MkRegistryDB (rgAuthored d) (rgWorkloads d) (rgLabels d) (rgAddresses d) t (rgPolicies d) (rgModeChanges d)
    (rgModeChangeWorkloads d) (rgGaps d) (rgNotes d).
Definition setPolicies (t : gmap UUID policyRow) (d : RegistryDB) : RegistryDB :=
  MkRegistryDB (rgAuthored d) (rgWorkloads d) (rgLabels d) (rgAddresses d) (rgListening d) t (rgModeChanges d)
    (rgModeChangeWorkloads d) (rgGaps d) (rgNotes d).
Definition setModeChanges (t : gmap UUID modeChangeRow) (ws : gmap (UUID * UUID) Z) (d : RegistryDB) : RegistryDB :=
  MkRegistryDB (rgAuthored d) (rgWorkloads d) (rgLabels d) (rgAddresses d) (rgListening d) (rgPolicies d) t ws
    (rgGaps d) (rgNotes d).
Definition setGaps (t : list (UUID * gapKey * option Z)) (d : RegistryDB) : RegistryDB :=
  MkRegistryDB (rgAuthored d) (rgWorkloads d) (rgLabels d) (rgAddresses d) (rgListening d) (rgPolicies d)
    (rgModeChanges d) (rgModeChangeWorkloads d) t (rgNotes d).
Definition notify (payload : string) (d : RegistryDB) : RegistryDB :=
  MkRegistryDB (rgAuthored d) (rgWorkloads d) (rgLabels d) (rgAddresses d) (rgListening d) (rgPolicies d)
    (rgModeChanges d) (rgModeChangeWorkloads d) (rgGaps d) (rgNotes d ++ [payload]).

(** *** Columns *)

Definition onCredential (f : credentialCols → credentialCols) (r : workloadRow) : workloadRow :=
  MkWorkloadRow (wkHostname r) (wkEnrolledAt r) (wkMode r) (wkFacts r) (wkRetiredAt r) (f (wkCredential r)) (wkAgent r)
    (wkSync r) (wkEvidence r).
Definition onAgent (f : agentCols → agentCols) (r : workloadRow) : workloadRow :=
  MkWorkloadRow (wkHostname r) (wkEnrolledAt r) (wkMode r) (wkFacts r) (wkRetiredAt r) (wkCredential r) (f (wkAgent r))
    (wkSync r) (wkEvidence r).
Definition onSync (f : syncCols → syncCols) (r : workloadRow) : workloadRow :=
  MkWorkloadRow (wkHostname r) (wkEnrolledAt r) (wkMode r) (wkFacts r) (wkRetiredAt r) (wkCredential r) (wkAgent r)
    (f (wkSync r)) (wkEvidence r).
Definition onEvidence (f : evidenceCols → evidenceCols) (r : workloadRow) : workloadRow :=
  MkWorkloadRow (wkHostname r) (wkEnrolledAt r) (wkMode r) (wkFacts r) (wkRetiredAt r) (wkCredential r) (wkAgent r)
    (wkSync r) (f (wkEvidence r)).
Definition rowMode (mode : Z) (r : workloadRow) : workloadRow :=
  MkWorkloadRow (wkHostname r) (wkEnrolledAt r) mode (wkFacts r) (wkRetiredAt r) (wkCredential r) (wkAgent r)
    (wkSync r) (wkEvidence r).
Definition rowRetired (at_ : Z) (r : workloadRow) : workloadRow :=
  MkWorkloadRow (wkHostname r) (wkEnrolledAt r) (wkMode r) (wkFacts r) (Some at_) (wkCredential r) (wkAgent r)
    (wkSync r) (wkEvidence r).
Definition rowFacts (hostname : string) (facts : option bytestring) (r : workloadRow) : workloadRow :=
  MkWorkloadRow hostname (wkEnrolledAt r) (wkMode r) facts (wkRetiredAt r) (wkCredential r) (wkAgent r)
    (wkSync r) (wkEvidence r).
Definition seen (now : Z) (a : agentCols) : agentCols :=
  MkAgentCols (acVersion a) (acCapabilities a) (Some now) (acLastHeartbeatAt a) (acStartedAt a).
End rows.

(** ** Errors and calls *)

Section store.
Context `{UUIDLib} `{PgLib} `{FactsCodec} `{PolicyCodec}.

Inductive RegError :=
| RegUnknown
| RegRetired (id : WorkloadID) (retiredAt : Z)
| LabelsVersionError (current : string)
| RegAuthored (e : StoreError)
| RegFailure.

(** How the server answers one call. *)
Inductive Answer := Answers | Fails | AnswerLost.

Abbreviation Body A := (RegistryDB → result RegError (A * RegistryDB)).

Definition call {A} (ans : Answer) (body : Body A) (d : RegistryDB) : result RegError A * RegistryDB :=
  match ans with
  | Fails => (Err RegFailure, d)
  | Answers => match body d with Ok (a, d') => (Ok a, d') | Err e => (Err e, d) end
  | AnswerLost => match body d with Ok (_, d') => (Err RegFailure, d') | Err e => (Err e, d) end
  end.

(** ** Statements on [workloads] *)

Definition active (r : workloadRow) : bool := bool_decide (wkRetiredAt r = None).

(** [UPDATE workloads SET ... WHERE id = $1 AND cond]: the rows it changed. *)
Definition updateRow (cond : workloadRow → bool) (f : workloadRow → workloadRow) (id : UUID) (d : RegistryDB)
  : nat * RegistryDB :=
  match rgWorkloads d !! id with
  | Some r => if cond r then (1%nat, setWorkloads (<[id := f r]> (rgWorkloads d)) d) else (0%nat, d)
  | None => (0%nat, d)
  end.

(** [absent]. *)
Definition absent (id : WorkloadID) (d : RegistryDB) : RegError :=
  match rgWorkloads d !! wid id with
  | None => RegUnknown
  | Some r => match wkRetiredAt r with Some t => RegRetired id t | None => RegUnknown end
  end.

(** A write conditioned on the workload being active; one that is not. *)
Definition conditioned (f : workloadRow → workloadRow) (id : WorkloadID) : Body () := λ d,
  match updateRow active f (wid id) d with
  | (O, _) => Err (absent id d)
  | (_, d') => Ok ((), d')
  end.
Definition unconditioned (f : workloadRow → workloadRow) (id : WorkloadID) : Body () := λ d,
  match updateRow (λ _, true) f (wid id) d with
  | (O, _) => Err RegUnknown
  | (_, d') => Ok ((), d')
  end.

(** ** Reading workloads *)

Definition EnforcementMode_of (n : Z) : EnforcementMode :=
  if decide (n = 0) then ENFORCEMENT_MODE_UNSPECIFIED else if decide (n = 1) then ENFORCEMENT_MODE_VISIBILITY
  else if decide (n = 2) then ENFORCEMENT_MODE_SIMULATION else if decide (n = 3) then ENFORCEMENT_MODE_ENFORCED
  else EnforcementMode_unrecognized n.

Definition pair_of {A B C} (f : A → B → C) (a : option A) (b : option B) : option C :=
  match a, b with Some a, Some b => Some (f a b) | _, _ => None end.

(** [workloadFromRow]: nothing when the stored facts do not parse. *)
Definition workloadFromRow (id : UUID) (r : workloadRow) (labels : list Label) (addrs : list Addr) : option Workload :=
  let c := wkCredential r in let a := wkAgent r in let s := wkSync r in let e := wkEvidence r in
  let w facts := MkWorkload (FromUUID id) (wkHostname r) labels (EnforcementMode_of (wkMode r)) facts addrs (acVersion a)
    (acCapabilities a) (wkEnrolledAt r) (acLastSeenAt a) (scState s) (u64 (scAppliedVersion s)) (scError s)
    (u64 (ecDropped e)) (u64 (ecOverruns e)) (ccRenewalError c) (ccSerial c) (ccExpiresAt c)
    (pair_of MkPresentedCredential (ccPresentedSerial c) (ccPresentedExpiresAt c))
    (pair_of MkLateRenewal (ccLateRenewalAt c) (ccLateRenewalExpiredAt c))
    (scLastSnapshotSentAt s) (scLastAckedAt s) (scLastApplyFailedAt s)
    (pair_of (λ ms t, MkClockSkew (i64 (ms * 1000000)) t (ecSkewCurrent e)) (ecSkewOffsetMs e) (ecSkewObservedAt e))
    (scOwnedTable s) (scAbsentSince s) (ecLastFlowReportAt e) (wkRetiredAt r) in
  match wkFacts r with
  | None | Some [] => Some (w None)
  | Some b => f ← facts_Unmarshal b; Some (w (Some f))
  end.

(** [ORDER BY workload_id, key] and [ORDER BY workload_id, address]. *)
Definition labelRows (d : RegistryDB) : list labelRow :=
  merge_sort (owned_le (λ l, (lbOwner l, lbKey l)) pgText_le)
    ((λ '((o, k), v), MkLabelRow o k v) <$> map_to_list (rgLabels d)).
Definition addressRows (d : RegistryDB) : list addressRow :=
  merge_sort (owned_le (λ a, (adOwner a, adAddress a)) pgText_le)
    ((λ '(o, a), MkAddressRow o a) <$> elements (rgAddresses d)).

(** [ORDER BY enrolled_at, id]. *)
Definition enrolled_le (a b : Z * UUID) : Prop := a.1 < b.1 ∨ a.1 = b.1 ∧ uuid_le a.2 b.2.
#[global] Instance enrolled_le_dec : RelDecision enrolled_le.
Proof. intros a b. unfold enrolled_le. apply _. Defined.

Definition workloadIDs (d : RegistryDB) : list UUID :=
  snd <$> merge_sort enrolled_le ((λ '(id, r), (wkEnrolledAt r, id)) <$> map_to_list (rgWorkloads d)).

Definition labelOf (l : labelRow) : Label := MkLabel (lbKey l) (lbValue l).

(** The loop that makes the workloads, stopping at facts that do not parse. *)
Fixpoint fromRows (t : gmap UUID workloadRow) (labels : gmap UUID (list Label)) (addrs : gmap UUID (list Addr)) (ids : list UUID)
  : result RegError (list Workload) :=
  match ids with
  | [] => Ok []
  | id :: ids' =>
      match t !! id with
      | None => fromRows t labels addrs ids'
      | Some r =>
          match workloadFromRow id r (default [] (labels !! id)) (default [] (addrs !! id)) with
          | None => Err RegFailure
          | Some w => ws ← fromRows t labels addrs ids'; Ok (w :: ws)
          end
      end
  end.

(** An address that does not parse is left out. *)
Definition addrIndex (rows : list addressRow) : gmap UUID (list Addr) :=
  foldl (λ m r, match ParseAddr (adAddress r) with
                | Some a => <[adOwner r := default [] (m !! adOwner r) ++ [a]]> m
                | None => m
                end) ∅ rows.

Definition listWorkloads (d : RegistryDB) : result RegError (list Workload) :=
  fromRows (rgWorkloads d) (groupRows lbOwner labelOf (labelRows d)) (addrIndex (addressRows d)) (workloadIDs d).

(** The labels and addresses of one workload. *)
Definition labelsOf (id : UUID) (d : RegistryDB) : list Label :=
  labelOf <$> filter (λ l, lbOwner l = id) (labelRows d).
Definition addressesOf (id : UUID) (d : RegistryDB) : list string :=
  adAddress <$> filter (λ a, adOwner a = id) (addressRows d).

Definition LookupWorkload (id : WorkloadID) (d : RegistryDB) : result RegError Workload :=
  match rgWorkloads d !! wid id with
  | None => Err RegUnknown
  | Some r =>
      match workloadFromRow (wid id) r (labelsOf (wid id) d) (omap ParseAddr (addressesOf (wid id) d)) with
      | Some w => Ok w
      | None => Err RegFailure
      end
  end.

Definition listening_le (a b : Z * Z) : Prop := a.1 < b.1 ∨ a.1 = b.1 ∧ a.2 ≤ b.2.
#[global] Instance listening_le_dec : RelDecision listening_le.
Proof. intros a b. unfold listening_le. apply _. Defined.

Definition ListListeningServices (id : WorkloadID) (d : RegistryDB) : list ListeningService :=
  omap (λ k, (λ p, MkListeningService (Protocol_of k.1) (u32 k.2) p.1 p.2) <$> rgListening d !! (wid id, k))
    (merge_sort listening_le (snd <$> filter (λ k, k.1 = wid id) (map_to_list (rgListening d)).*1)).

(** ** Labels, mode and facts *)

(** The inserts of a loop under a primary key. *)
Fixpoint addLabels (id : UUID) (labels : list Label) (t : gmap (UUID * string) string)
  : result RegError (gmap (UUID * string) string) :=
  match labels with
  | [] => Ok t
  | l :: labels' =>
      match t !! (id, lblKey l) with
      | Some _ => Err RegFailure
      | None => addLabels id labels' (<[(id, lblKey l) := lblValue l]> t)
      end
  end.

(** [LockWorkload], the statement. *)
Definition lockedRow (id : WorkloadID) (d : RegistryDB) : option workloadRow := rgWorkloads d !! wid id.

Definition Store_ReplaceWorkloadLabels (id : WorkloadID) (labels : list Label) (expect : string) : Body () := λ d,
  match lockedRow id d with
  | None => Err RegUnknown
  | Some r =>
      match wkRetiredAt r with
      | Some t => Err (RegRetired id t)
      | None =>
          let current := LabelsVersion (labelsOf (wid id) d) in
          if decide (expect ≠ "" ∧ current ≠ expect) then Err (LabelsVersionError current)
          else
            t ← addLabels (wid id) labels (filter (λ '((o, _), _), o ≠ wid id) (rgLabels d));
            Ok ((), setLabels t d)
      end
  end.

Definition Store_SetWorkloadMode (id : WorkloadID) (mode : EnforcementMode) : Body () :=
  unconditioned (rowMode (EnforcementMode_number mode)) id.

(** [sameAddresses]: as many, and each current one among the old. *)
Definition sameAddresses (old : list string) (current : list Addr) : bool :=
  bool_decide (length old = length current) &&
  forallb (λ a, bool_decide (Addr_String a ∈ (list_to_set old : gset string))) current.

Fixpoint addAddresses (id : UUID) (l : list Addr) (t : gset (UUID * string)) : result RegError (gset (UUID * string)) :=
  match l with
  | [] => Ok t
  | a :: l' => if decide ((id, Addr_String a) ∈ t) then Err RegFailure else addAddresses id l' ({[(id, Addr_String a)]} ∪ t)
  end.

Definition GetHostname (f : option HostFacts) : string := default "" (hfHostname <$> f).

Definition Store_RecordFacts (id : WorkloadID) (facts : option HostFacts) (now : Z) : Body bool := λ d,
  b ← match facts with
      | None => Ok None
      | Some f => match facts_Marshal f with Some b => Ok (Some b) | None => Err RegFailure end
      end;
  ud ← conditioned (λ r, rowFacts (GetHostname facts) b (onAgent (seen (pgTime now)) r)) id d;
  let d := ud.2 in
  let current := AddressesFromFacts facts in
  if sameAddresses (addressesOf (wid id) d) current then Ok (false, d)
  else
    t ← addAddresses (wid id) current (filter (λ k, k.1 ≠ wid id) (rgAddresses d));
    Ok (true, setAddresses t d).

(** [ON CONFLICT DO UPDATE]: the last of a port wins. *)
Definition Store_RecordListeningServices (id : WorkloadID) (services : list ListeningService) (now : Z) : Body () := λ d,
  ud ← conditioned (onAgent (seen (pgTime now))) id d;
  let d := ud.2 in
  Ok ((), setListening
    (foldl (λ t s, <[(wid id, (Protocol_number (lsProtocol s), i32 (lsPort s))) := (lsProcessName s, lsProcessPath s)]> t)
       (filter (λ '((o, _), _), o ≠ wid id) (rgListening d)) services) d).

(** ** What a stream writes *)

Definition Store_RecordAgent (id : WorkloadID) (version : string) (capabilities : list string) (applied : Z)
    (presented : option PresentedCredential) (now : Z) : Body () :=
  conditioned (λ r,
    onCredential (λ c, MkCredentialCols (ccSerial c) (ccExpiresAt c) (ccLastRenewedAt c) (ccLateRenewalAt c)
        (ccLateRenewalExpiredAt c)
        (match presSerial <$> presented with Some s => Some s | None => ccPresentedSerial c end)
        (match presExpiresAt <$> presented with Some t => Some (pgTime t) | None => ccPresentedExpiresAt c end)
        (ccRenewalError c))
    (onSync (λ s, MkSyncCols (scState s) (i64 applied) (scError s) (scLastSnapshotSentAt s) (scLastAckedAt s)
        (scLastApplyFailedAt s) (scOwnedTable s) (scAbsentSince s))
    (onAgent (λ a, MkAgentCols version capabilities (Some (pgTime now)) (acLastHeartbeatAt a) (acStartedAt a)) r))) id.

Record RegHeartbeat := MkRegHeartbeat {
  rhDropped : Z; rhOverruns : Z; rhRenewalError : string; rhOwnedTable : OwnedTableState; rhUptime : Z;
}.

(** The [CASE]s of the heartbeat on the owned table. *)
Definition heartbeatTable (reported : OwnedTableState) (now : Z) (s : syncCols) : syncCols :=
  let put state since :=
    MkSyncCols (scState s) (scAppliedVersion s) (scError s) (scLastSnapshotSentAt s) (scLastAckedAt s)
      (scLastApplyFailedAt s) state since in
  match reported with
  | OWNED_TABLE_STATE_UNSPECIFIED => put (scOwnedTable s) (scAbsentSince s)
  | OWNED_TABLE_STATE_ABSENT => put OWNED_TABLE_STATE_ABSENT (Some (default now (scAbsentSince s)))
  | OWNED_TABLE_STATE_PRESENT => put OWNED_TABLE_STATE_PRESENT None
  end.

Definition Store_RecordHeartbeat (id : WorkloadID) (hb : RegHeartbeat) (now : Z) : Body () :=
  conditioned (λ r,
    onCredential (λ c, MkCredentialCols (ccSerial c) (ccExpiresAt c) (ccLastRenewedAt c) (ccLateRenewalAt c)
        (ccLateRenewalExpiredAt c) (ccPresentedSerial c) (ccPresentedExpiresAt c) (rhRenewalError hb))
    (onEvidence (λ e, MkEvidenceCols (i64 (rhDropped hb)) (i64 (rhOverruns hb)) (ecSkewOffsetMs e) (ecSkewObservedAt e)
        (ecSkewCurrent e) (ecLastFlowReportAt e))
    (onSync (heartbeatTable (rhOwnedTable hb) (pgTime now))
    (onAgent (λ a, MkAgentCols (acVersion a) (acCapabilities a) (Some (pgTime now)) (Some (pgTime now))
        (Some (pgTime (now - rhUptime hb)))) r)))) id.

Definition Store_SetSyncState (id : WorkloadID) (state : SyncState) (detail : string) (now : Z) : Body () :=
  unconditioned (λ r,
    onSync (λ s, MkSyncCols state (scAppliedVersion s) detail (scLastSnapshotSentAt s) (scLastAckedAt s)
        (scLastApplyFailedAt s) (scOwnedTable s) (scAbsentSince s))
    (onAgent (seen (pgTime now)) r)) id.

Definition Store_RecordApplied (id : WorkloadID) (version : Z) (state : SyncState) (now : Z) : Body () :=
  conditioned (λ r,
    onSync (λ s, MkSyncCols state (i64 version) "" (scLastSnapshotSentAt s) (Some (pgTime now)) (scLastApplyFailedAt s)
        (match scOwnedTable s with OWNED_TABLE_STATE_ABSENT => OWNED_TABLE_STATE_PRESENT | t => t end) None)
    (onAgent (seen (pgTime now)) r)) id.

Definition Store_RecordApplyFailed (id : WorkloadID) (detail : string) (now : Z) : Body () :=
  conditioned (λ r,
    onSync (λ s, MkSyncCols SYNC_STATE_DEGRADED (scAppliedVersion s) detail (scLastSnapshotSentAt s) (scLastAckedAt s)
        (Some (pgTime now)) (scOwnedTable s) (scAbsentSince s))
    (onAgent (seen (pgTime now)) r)) id.

Definition Store_RecordSnapshotSent (id : WorkloadID) (at_ : Z) : Body () :=
  unconditioned (onSync (λ s, MkSyncCols (scState s) (scAppliedVersion s) (scError s) (Some (pgTime at_)) (scLastAckedAt s)
    (scLastApplyFailedAt s) (scOwnedTable s) (scAbsentSince s))) id.

(** ** What flow ingest writes *)

(** A skewed reading, or the end of a current skew; nothing else is written. *)
Definition Store_RecordClockReading (id : WorkloadID) (offset : Z) (skewed : bool) (receivedAt : Z) : Body () := λ d,
  Ok ((), (updateRow (λ r, skewed || ecSkewCurrent (wkEvidence r))
    (onEvidence (λ e, MkEvidenceCols (ecDropped e) (ecOverruns e)
      (if skewed then Some (offset `quot` 1000000) else ecSkewOffsetMs e)
      (if skewed then Some (pgTime receivedAt) else ecSkewObservedAt e) skewed (ecLastFlowReportAt e))) (wid id) d).2).

Definition processOf (a : agentCols) : option AgentProcess := pair_of MkAgentProcess (acStartedAt a) (acLastHeartbeatAt a).

(** The receipt of a report: the one it replaced and the process, or nothing. *)
Definition Store_RecordFlowReport (id : WorkloadID) (receivedAt : Z) : Body (option (option Z * option AgentProcess)) := λ d,
  let at_ := pgTime receivedAt in
  let advances r :=
    active r && match ecLastFlowReportAt (wkEvidence r) with None => true | Some p => bool_decide (p < at_) end in
  match rgWorkloads d !! wid id with
  | None => Ok (None, d)
  | Some r =>
      if advances r then
        Ok (Some (ecLastFlowReportAt (wkEvidence r), processOf (wkAgent r)),
            (updateRow advances (onEvidence (λ e, MkEvidenceCols (ecDropped e) (ecOverruns e) (ecSkewOffsetMs e)
               (ecSkewObservedAt e) (ecSkewCurrent e) (Some at_))) (wid id) d).2)
      else Ok (None, d)
  end.

(** ** Renewals *)

(** [store.go]: a late renewal replaces the late record, an on-time one leaves it. *)
Definition Store_RecordRenewal (id : WorkloadID) (serial : string) (expiresAt now : Z) (late : option LateRenewal) : Body () :=
  conditioned (onCredential (λ c,
    MkCredentialCols serial (pgTime expiresAt) (Some (pgTime now))
      (match late with None => ccLateRenewalAt c | Some _ => Some (pgTime now) end)
      (match late with None => ccLateRenewalExpiredAt c | Some l => Some (pgTime (lrExpiredAt l)) end)
      (ccPresentedSerial c) (ccPresentedExpiresAt c) (ccRenewalError c))) id.
End store.

(** ** The render, mode-change and retirement transactions *)

Section transactions.
Context `{UUIDLib} `{PgLib} `{FactsCodec} `{PolicyCodec}.

(** A transaction under the render lock: the tables as it sees them, and the write
    that will fail, if any.  A failed read ends the transaction as a failed write
    before it does, so only writes fail here. *)
Record RenderSession := MkRenderSession { rsDB : RegistryDB; rsFault : option nat }.

Definition writes {A} (body : RegistryDB → result RegError (A * RegistryDB)) (s : RenderSession)
  : result RegError (A * RenderSession) :=
  match rsFault s with
  | Some O => Err RegFailure
  | f => match body (rsDB s) with Ok (a, d) => Ok (a, MkRenderSession d (pred <$> f)) | Err e => Err e end
  end.
Definition writes_ (body : RegistryDB → result RegError (() * RegistryDB)) (s : RenderSession) : result RegError RenderSession :=
  us ← writes body s; Ok us.2.

(** What the authored tables hold. *)
Definition authored {A} (m : Tx A) (d : RegistryDB) : result RegError A :=
  match m (MkSession None (rgAuthored d)) with Ok (a, _) => Ok a | Err e => Err (RegAuthored e) end.

Definition renderTx_LoadInputs (d : RegistryDB) : result RegError Inputs :=
  workloads ← listWorkloads d;
  rulesets ← authored listRulesets d;
  services ← authored listServices d;
  groups ← authored listAddressGroups d;
  Ok (MkInputs workloads rulesets services groups).

(** The policies, each with the version of its row. *)
Fixpoint policiesOf (rows : list (UUID * policyRow)) (out : gmap WorkloadID WorkloadPolicy)
  : result RegError (gmap WorkloadID WorkloadPolicy) :=
  match rows with
  | [] => Ok out
  | (id, r) :: rows' =>
      match Unmarshal (plPolicy r) with
      | None => Err RegFailure
      | Some p => policiesOf rows' (<[FromUUID id := MkWorkloadPolicy (u64 (plVersion r)) (wpMode p) (wpInboundRules p)]> out)
      end
  end.

(** [ORDER BY workload_id]. *)
Definition policy_le (a b : UUID * policyRow) : Prop := uuid_le a.1 b.1.
#[global] Instance policy_le_dec : RelDecision policy_le.
Proof. intros a b. unfold policy_le. apply _. Defined.

Definition renderTx_LoadPolicies (d : RegistryDB) : result RegError (gmap WorkloadID WorkloadPolicy) :=
  policiesOf (merge_sort policy_le (map_to_list (rgPolicies d))) ∅.

(** The row, and the announcement delivered on commit. *)
Definition renderTx_SavePolicy (id : WorkloadID) (p : WorkloadPolicy) (now : Z) (d : RegistryDB)
  : result RegError (() * RegistryDB) :=
  match Marshal (Some p) with
  | None => Err RegFailure
  | Some b =>
      match rgWorkloads d !! wid id with
      | None => Err RegFailure
      | Some _ =>
          Ok ((), notify (WorkloadID_String id +:+ " " +:+ FormatInt (wpVersion p))
                    (setPolicies (<[wid id := MkPolicyRow (i64 (wpVersion p)) b (pgTime now)]> (rgPolicies d)) d))
      end
  end.

#[global] Instance pg_renderTx : RenderTx RenderSession RegError := {
  LoadInputs s := renderTx_LoadInputs (rsDB s);
  LoadPolicies s := renderTx_LoadPolicies (rsDB s);
  SavePolicy id p now := writes_ (renderTx_SavePolicy id p now);
}.

(** [RecordModeChange]: the intent, then each workload of the set. *)
Fixpoint addModeChangeWorkloads (id : UUID) (l : list ModeChangeWorkload) (t : gmap (UUID * UUID) Z)
  : result RegError (gmap (UUID * UUID) Z) :=
  match l with
  | [] => Ok t
  | w :: l' =>
      if decide (is_Some (t !! (id, wid (mwID w)))) then Err RegFailure
      else addModeChangeWorkloads id l' (<[(id, wid (mwID w)) := EnforcementMode_number (mwPreviousMode w)]> t)
  end.

Definition modeChangeTx_RecordModeChange (rec : ModeChangeRecord) (d : RegistryDB) : result RegError (() * RegistryDB) :=
  if decide (is_Some (rgModeChanges d !! mcID rec)) then Err RegFailure
  else
    ws ← addModeChangeWorkloads (mcID rec) (mcWorkloads rec) (rgModeChangeWorkloads d);
    Ok ((), setModeChanges (<[mcID rec := MkModeChangeRow (pgTime (mcCreatedAt rec)) (EnforcementMode_number (mcTargetMode rec))
         (mcSelector rec) (i32 (mcExpectedMatchCount rec)) (i32 (Z.of_nat (length (mcWorkloads rec))))
         (i32 (Z.of_nat (mcDesiredUpdated rec)))]> (rgModeChanges d)) ws d).

(** [UPDATE workloads SET mode = $1 WHERE id = ANY($2) AND mode <> $1]. *)
Definition flips (ids : list WorkloadID) (mode : Z) (id : UUID) (r : workloadRow) : bool :=
  bool_decide (id ∈ wid <$> ids) && bool_decide (wkMode r ≠ mode).

Definition modeChangeTx_SetWorkloadModes (ids : list WorkloadID) (mode : EnforcementMode) (d : RegistryDB)
  : result RegError (nat * RegistryDB) :=
  let n := EnforcementMode_number mode in
  Ok (size (filter (λ '(id, r), flips ids n id r = true) (rgWorkloads d)),
      setWorkloads (map_imap (λ id r, Some (if flips ids n id r then rowMode n r else r)) (rgWorkloads d)) d).

#[global] Instance pg_modeChangeTx : ModeChangeTx RenderSession RegError := {
  RecordModeChange rec := writes_ (modeChangeTx_RecordModeChange rec);
  SetWorkloadModes ids mode := writes (modeChangeTx_SetWorkloadModes ids mode);
}.

(** [GetModeChange]: the rows of a recorded change. *)
Definition Store_GetModeChange (id : UUID) (d : RegistryDB) : result RegError ModeChangeRecord :=
  match rgModeChanges d !! id with
  | None => Err RegFailure
  | Some r =>
      Ok (MkModeChangeRecord id (moCreatedAt r) (EnforcementMode_of (moTargetMode r)) (moSelector r) (moExpected r)
        (omap (λ w, (λ m, MkModeChangeWorkload (FromUUID w) (EnforcementMode_of m)) <$> rgModeChangeWorkloads d !! (id, w))
          (merge_sort uuid_le (snd <$> filter (λ k, k.1 = id) (map_to_list (rgModeChangeWorkloads d)).*1)))
        (Z.to_nat (moUpdated r)))
  end.

Definition retireTx_LockWorkload (id : WorkloadID) (d : RegistryDB) : option RetireSubject :=
  (λ r, MkRetireSubject (wkRetiredAt r) (ecLastFlowReportAt (wkEvidence r)) (processOf (wkAgent r))) <$> lockedRow id d.

(** No row changed: the workload changed under its lock. *)
Definition retireTx_StampRetired (id : WorkloadID) (at_ : Z) (d : RegistryDB) : result RegError (() * RegistryDB) :=
  match updateRow active (rowRetired (pgTime at_)) (wid id) d with
  | (O, _) => Err RegFailure
  | (_, d') => Ok ((), d')
  end.

(** The checks of [flow_gaps]. *)
Definition gapCheck (g : FlowGap) : bool :=
  match fgKind g with EVIDENCE_GAP_KIND_UNSPECIFIED | EvidenceGapKind_unrecognized _ => false | _ => true end &&
  match fgSource g with EvidenceSource_unrecognized _ => false | _ => true end &&
  bool_decide (pgTime (fgFrom g) ≤ pgTime (fgTo g)) &&
  match fgCount g with None => true | Some n => bool_decide (0 ≤ i64 n) end.

(** [writeGaps]: a gap already stored is skipped. *)
Fixpoint writeGaps (id : WorkloadID) (gaps : list FlowGap) (d : RegistryDB) : result RegError (() * RegistryDB) :=
  match gaps with
  | [] => Ok ((), d)
  | g :: gaps' =>
      let key := (wid id, MkGapKey (fgKind g) (fgSource g) (pgTime (fgFrom g)) (pgTime (fgTo g))) in
      if gapCheck g then
        match rgWorkloads d !! wid id with
        | None => Err RegFailure
        | Some _ =>
            writeGaps id gaps'
              (if decide (key ∈ (rgGaps d).*1) then d else setGaps (rgGaps d ++ [(key, i64 <$> fgCount g)]) d)
        end
      else Err RegFailure
  end.

Definition directEnd (id : WorkloadID) (d : RegistryDB) : result RegError (() * RegistryDB) :=
  Ok ((), notify (WorkloadID_String id +:+ " end") d).

#[global] Instance pg_retireTx : RetireTx RenderSession RegError := {
  LockWorkload id s := Ok (retireTx_LockWorkload id (rsDB s));
  StampRetired id at_ := writes_ (retireTx_StampRetired id at_);
  WriteGaps id gaps := writes_ (writeGaps id gaps);
  DirectEnd id := writes_ (directEnd id);
}.
End transactions.
