(* ===== verification/RegistryLaws.v ===== *)
(** * The registry's tables keep the promises of the fleet's transactions

    [RenderTxLaws], [ModeChangeLaws] and [RetireLaws] of the tables: what a mode change
    and a retirement rely on is what the store's statements do. *)

From S2P Require Import Prelude GoStd Netip Wire Uuid Identity Policy Registry Rendered Compiler Enforce Ingest IngestService Authoring Fleet Postgres PolicyStore RegistryStore.
Local Open Scope Z_scope.

(** PostgreSQL keeps whole microseconds as they are. *)
Class PgMicros `{PgLib} : Prop := {
  pgTime_micros t : t `mod` 1000 = 0 → pgTime t = t;
}.

Section workloads.
Context `{UUIDLib} `{!UUIDLaws} `{PgLib} `{FactsCodec} `{PolicyCodec}.

(** ** The list of workloads *)

#[local] Instance enrolled_le_trans : Transitive enrolled_le.
Proof.
  intros [a u] [b v] [c w]. unfold enrolled_le. cbn. intros [?|[-> ?]] [?|[-> ?]]; [left; lia|by left|by left|].
  right. split; [done|]. by transitivity v.
Qed.
#[local] Instance enrolled_le_anti : AntiSymm (=) enrolled_le.
Proof.
  intros [a u] [b v]. unfold enrolled_le. cbn. intros [?|[-> ?]] [?|[Heq ?]]; try lia.
  f_equal. by apply (anti_symm uuid_le).
Qed.
#[local] Instance enrolled_le_total : Total enrolled_le.
Proof.
  intros [a u] [b v]. unfold enrolled_le. cbn. destruct (Z.lt_total a b) as [|[->|]]; [left; by left| |right; by left].
  destruct (total uuid_le u v); [left|right]; right; done.
Qed.

Definition enrolments (t : gmap UUID workloadRow) : list (Z * UUID) :=
  (λ '(id, r), (wkEnrolledAt r, id)) <$> map_to_list t.

Lemma elem_of_enrolments t p : p ∈ enrolments t ↔ wkEnrolledAt <$> t !! p.2 = Some p.1.
Proof.
  unfold enrolments. rewrite list_elem_of_fmap. destruct p as [e id]. cbn. split.
  - intros ([id' r] & [= -> ->] & Hin%elem_of_map_to_list). by rewrite Hin.
  - intros (r & Hr & ->)%fmap_Some. exists (id, r). split; [done|]. by apply elem_of_map_to_list.
Qed.

Lemma enrolments_ids t : (enrolments t).*2 = (map_to_list t).*1.
Proof. unfold enrolments. rewrite <-list_fmap_compose. apply list_fmap_ext. by intros i [id r] _. Qed.

Lemma enrolments_NoDup t : NoDup (enrolments t).
Proof. apply (NoDup_fmap_1 snd). rewrite enrolments_ids. apply NoDup_fst_map_to_list. Qed.

(** The order depends on the ids and the enrolment instants alone. *)
Lemma workloadIDs_same d d' :
  (∀ id, wkEnrolledAt <$> rgWorkloads d' !! id = wkEnrolledAt <$> rgWorkloads d !! id) →
  workloadIDs d' = workloadIDs d.
Proof.
  intros Hsame. unfold workloadIDs. fold (enrolments (rgWorkloads d)). fold (enrolments (rgWorkloads d')). f_equal.
  apply (StronglySorted_unique enrolled_le); [apply (StronglySorted_merge_sort _)..|].
  rewrite !merge_sort_Permutation. apply NoDup_Permutation; [apply enrolments_NoDup..|].
  intros p. rewrite !elem_of_enrolments. by rewrite Hsame.
Qed.

Lemma workloadIDs_perm d : workloadIDs d ≡ₚ (map_to_list (rgWorkloads d)).*1.
Proof.
  unfold workloadIDs. fold (enrolments (rgWorkloads d)). by rewrite merge_sort_Permutation, enrolments_ids.
Qed.

Lemma elem_of_workloadIDs d id : id ∈ workloadIDs d ↔ is_Some (rgWorkloads d !! id).
Proof.
  rewrite workloadIDs_perm, list_elem_of_fmap. split.
  - intros ([id' r] & -> & Hin%elem_of_map_to_list). eauto.
  - intros [r Hr%elem_of_map_to_list]. by exists (id, r).
Qed.

(** What is read of each id. *)
Definition reads_as (d : RegistryDB) (labels : gmap UUID (list Label)) (addrs : gmap UUID (list Addr)) (id : UUID)
    (w : Workload) : Prop :=
  ∃ r, rgWorkloads d !! id = Some r ∧
    workloadFromRow id r (default [] (labels !! id)) (default [] (addrs !! id)) = Some w.

Lemma fromRows_spec d labels addrs ids ws :
  (∀ id, id ∈ ids → is_Some (rgWorkloads d !! id)) →
  fromRows (rgWorkloads d) labels addrs ids = Ok ws ↔ Forall2 (reads_as d labels addrs) ids ws.
Proof.
  revert ws. induction ids as [|id ids IH]; intros ws Hin; cbn [fromRows].
  - split; [by intros [= <-]|]. by intros ->%Forall2_nil_inv_l.
  - destruct (Hin id) as [r Hr]; [left|]. rewrite Hr.
    assert (∀ x, x ∈ ids → is_Some (rgWorkloads d !! x)) as Hin' by (intros x Hx; apply Hin; by right).
    destruct (workloadFromRow _ _ _ _) as [w|] eqn:Hw.
    + rewrite result_bind_Ok. setoid_rewrite IH; [|done]. split.
      * intros (ws' & Hws & [= <-]). constructor; [by exists r|done].
      * intros (w' & ws' & (r' & Hr' & Hw') & Hws & ->)%Forall2_cons_inv_l. exists ws'. split; [done|].
        rewrite Hr in Hr'. injection Hr' as <-. rewrite Hw in Hw'. by injection Hw' as ->.
    + split; [done|]. intros (w' & ws' & (r' & Hr' & Hw') & _ & _)%Forall2_cons_inv_l.
      rewrite Hr in Hr'. injection Hr' as <-. by rewrite Hw in Hw'.
Qed.

Definition labelIndexOf (d : RegistryDB) : gmap UUID (list Label) := groupRows lbOwner labelOf (labelRows d).

Lemma listWorkloads_spec d ws :
  listWorkloads d = Ok ws ↔ Forall2 (reads_as d (labelIndexOf d) (addrIndex (addressRows d))) (workloadIDs d) ws.
Proof. apply fromRows_spec. intros id. apply elem_of_workloadIDs. Qed.

Lemma workloadFromRow_id id r labels addrs w :
  workloadFromRow id r labels addrs = Some w →
  wID w = FromUUID id ∧ wMode w = EnforcementMode_of (wkMode r) ∧ wRetiredAt w = wkRetiredAt r ∧
  wLastFlowReportAt w = ecLastFlowReportAt (wkEvidence r).
Proof.
  unfold workloadFromRow. destruct (wkFacts r) as [[|b bs]|]; [by intros [= <-]| |by intros [= <-]].
  destruct (facts_Unmarshal (b :: bs)); [|done]. by intros [= <-].
Qed.

Lemma listed_ids d ws : listWorkloads d = Ok ws → wID <$> ws = FromUUID <$> workloadIDs d.
Proof.
  intros Hl%listWorkloads_spec. induction Hl as [|id w ids ws (r & _ & Hw) _ IH]; [done|]. cbn.
  by rewrite IH, (proj1 (workloadFromRow_id _ _ _ _ _ Hw)).
Qed.

Lemma listed_NoDup d ws : listWorkloads d = Ok ws → NoDup (wID <$> ws).
Proof.
  intros ->%listed_ids. apply NoDup_fmap_2; [intros u v [= ->]; done|].
  rewrite workloadIDs_perm. apply NoDup_fst_map_to_list.
Qed.

(** A change of the table that changes what is read of each row by [g]. *)
Lemma listWorkloads_map d t g ws :
  (∀ id r, rgWorkloads d !! id = Some r →
     ∃ r', t !! id = Some r' ∧ wkEnrolledAt r' = wkEnrolledAt r ∧
       ∀ labels addrs, workloadFromRow id r' labels addrs = g <$> workloadFromRow id r labels addrs) →
  (∀ id, rgWorkloads d !! id = None → t !! id = None) →
  listWorkloads d = Ok ws → listWorkloads (setWorkloads t d) = Ok (g <$> ws).
Proof.
  intros Hsome Hnone Hl%listWorkloads_spec. apply listWorkloads_spec. rewrite (workloadIDs_same d).
  - apply Forall2_fmap_r. eapply Forall2_impl; [exact Hl|]. intros id w (r & Hr & Hw).
    destruct (Hsome id r Hr) as (r' & Hr' & _ & Hg). exists r'. split; [exact Hr'|].
    change (labelIndexOf (setWorkloads t d)) with (labelIndexOf d).
    change (addressRows (setWorkloads t d)) with (addressRows d). by rewrite Hg, Hw.
  - intros id. cbn [setWorkloads rgWorkloads]. destruct (rgWorkloads d !! id) as [r|] eqn:Hr.
    + destruct (Hsome id r Hr) as (r' & -> & He & _). cbn. by rewrite He.
    + by rewrite Hnone.
Qed.

(** The inputs after such a change. *)
Lemma LoadInputs_map d t P f inp :
  (∀ id r, rgWorkloads d !! id = Some r →
     ∃ r', t !! id = Some r' ∧ wkEnrolledAt r' = wkEnrolledAt r ∧
       ∀ labels addrs, workloadFromRow id r' labels addrs =
         (λ w, if (P w : bool) then f w else w) <$> workloadFromRow id r labels addrs) →
  (∀ id, rgWorkloads d !! id = None → t !! id = None) →
  renderTx_LoadInputs d = Ok inp → renderTx_LoadInputs (setWorkloads t d) = Ok (changing P f inp).
Proof.
  intros Hsome Hnone. unfold renderTx_LoadInputs. rewrite !result_bind_Ok. intros (ws & Hws & Hrest).
  eexists. split; [by eapply listWorkloads_map|]. clear Hws Hsome Hnone.
  change (authored listRulesets (setWorkloads t d)) with (authored listRulesets d).
  change (authored listServices (setWorkloads t d)) with (authored listServices d).
  change (authored listAddressGroups (setWorkloads t d)) with (authored listAddressGroups d).
  apply result_bind_Ok in Hrest as (rs & -> & Hrest). apply result_bind_Ok in Hrest as (ss & -> & Hrest).
  apply result_bind_Ok in Hrest as (gs & -> & Hrest). injection Hrest as <-. done.
Qed.

Lemma LoadInputs_workloads d inp : renderTx_LoadInputs d = Ok inp → listWorkloads d = Ok (inWorkloads inp).
Proof.
  unfold renderTx_LoadInputs. rewrite result_bind_Ok. intros (ws & Hws & Hrest).
  apply result_bind_Ok in Hrest as (rs & _ & Hrest). apply result_bind_Ok in Hrest as (ss & _ & Hrest).
  apply result_bind_Ok in Hrest as (gs & _ & Hrest). by injection Hrest as <-.
Qed.

(** ** Modes *)

Lemma EnforcementMode_admitted mode n :
  modeFindings mode = [] → EnforcementMode_of n = mode ↔ n = EnforcementMode_number mode.
Proof.
  intros Hm. unfold EnforcementMode_of. repeat case_decide; subst; destruct mode; cbn in *; try done; split; intros; try lia; congruence.
Qed.

Lemma workloadFromRow_mode id r mode labels addrs :
  workloadFromRow id (rowMode mode r) labels addrs = setMode (EnforcementMode_of mode) <$> workloadFromRow id r labels addrs.
Proof.
  unfold workloadFromRow. destruct r as [h e m [[|b bs]|] rt c a s ev]; cbn [rowMode wkFacts]; [done| |done].
  destruct (facts_Unmarshal (b :: bs)); done.
Qed.

Lemma setMode_same w : setMode (wMode w) w = w.
Proof. by destruct w. Qed.

Lemma flip_row ids mode id r labels addrs :
  modeFindings mode = [] →
  workloadFromRow id (if flips ids (EnforcementMode_number mode) id r then rowMode (EnforcementMode_number mode) r else r)
    labels addrs =
  (λ w, if bool_decide (wID w ∈ ids) then setMode mode w else w) <$> workloadFromRow id r labels addrs.
Proof.
  intros Hm. assert (EnforcementMode_of (EnforcementMode_number mode) = mode) as Hof by by apply EnforcementMode_admitted.
  assert (∀ w, workloadFromRow id r labels addrs = Some w →
    (if flips ids (EnforcementMode_number mode) id r then setMode mode w else w) =
    (if bool_decide (wID w ∈ ids) then setMode mode w else w)) as Hw.
  { intros w (Hid & Hmode & _)%workloadFromRow_id. unfold flips. rewrite Hid.
    assert (id ∈ wid <$> ids ↔ FromUUID id ∈ ids) as Hin.
    { rewrite list_elem_of_fmap. split; [by intros ([u] & -> & ?)|]. intros Hx. by exists (FromUUID id). }
    destruct (decide (FromUUID id ∈ ids)) as [Hi|Hi]; [|rewrite (bool_decide_eq_false_2 (FromUUID id ∈ ids)), (bool_decide_eq_false_2 (id ∈ _)) by tauto; done].
    rewrite (bool_decide_eq_true_2 (FromUUID id ∈ ids)), (bool_decide_eq_true_2 (id ∈ _)) by tauto. cbn [andb].
    case_bool_decide as Hne; [done|]. apply EnforcementMode_admitted in Hne; [|done].
    rewrite Hne in Hmode. rewrite <-Hmode. by rewrite setMode_same. }
  destruct (flips ids (EnforcementMode_number mode) id r) eqn:Hf.
  - rewrite workloadFromRow_mode, Hof. destruct (workloadFromRow id r labels addrs) as [w|]; [|done]. cbn. by rewrite <-(Hw w).
  - destruct (workloadFromRow id r labels addrs) as [w|]; [|done]. cbn. by rewrite <-(Hw w).
Qed.

Lemma flips_reads ids mode d labels addrs id w :
  modeFindings mode = [] → reads_as d labels addrs id w →
  (∃ r, rgWorkloads d !! id = Some r ∧ flips ids (EnforcementMode_number mode) id r = true) ↔
  wID w ∈ ids ∧ wMode w ≠ mode.
Proof.
  intros Hm (r & Hr & (Hid & Hmode & _)%workloadFromRow_id). rewrite Hid, Hmode, EnforcementMode_admitted by done.
  assert (id ∈ wid <$> ids ↔ FromUUID id ∈ ids) as Hin.
  { rewrite list_elem_of_fmap. split; [by intros ([u] & -> & ?)|]. intros Hx. by exists (FromUUID id). }
  unfold flips. rewrite <-Hin. split.
  - intros (r' & Hr' & Hf). rewrite Hr in Hr'. injection Hr' as <-. by rewrite andb_true_iff, !bool_decide_eq_true in Hf.
  - intros Hf. exists r. by rewrite andb_true_iff, !bool_decide_eq_true.
Qed.

(** The rows changed are the workloads needing the change. *)
Lemma flips_count ids mode d inp :
  modeFindings mode = [] → renderTx_LoadInputs d = Ok inp →
  size (filter (λ '(id, r), flips ids (EnforcementMode_number mode) id r = true) (rgWorkloads d)) =
  length (needing ids mode inp).
Proof.
  intros Hm Hl%LoadInputs_workloads%listWorkloads_spec. unfold needing.
  set (Q id := ∃ r, rgWorkloads d !! id = Some r ∧ flips ids (EnforcementMode_number mode) id r = true).
  assert (∀ id, Decision (Q id)) as Hdec.
  { intros id. unfold Q. destruct (rgWorkloads d !! id) as [r|]; [|right; by intros (r & ? & _)].
    destruct (flips ids (EnforcementMode_number mode) id r) eqn:E; [left; eauto|right; intros (r' & [= <-] & Hf); congruence]. }
  trans (length (filter Q (workloadIDs d))).
  - rewrite <-length_map_to_list, <-(length_fmap fst). apply Permutation_length, NoDup_Permutation.
    + apply NoDup_fst_map_to_list.
    + apply NoDup_filter. rewrite workloadIDs_perm. apply NoDup_fst_map_to_list.
    + intros id. rewrite list_elem_of_fmap, list_elem_of_filter, elem_of_workloadIDs. unfold Q. split.
      * intros ([id' r] & -> & [Hr Hf]%elem_of_map_to_list%map_lookup_filter_Some). cbn. eauto.
      * intros [(r & Hr & Hf) _]. exists (id, r). split; [done|]. apply elem_of_map_to_list, map_lookup_filter_Some. done.
  - induction Hl as [|id w ids' ws Hr _ IH]; [done|]. rewrite !filter_cons.
    pose proof (flips_reads ids mode d _ _ id w Hm Hr) as Hiff. fold (Q id) in Hiff.
    destruct (decide (Q id)), (decide (wID w ∈ ids ∧ wMode w ≠ mode)); cbn [length]; rewrite ?IH; tauto.
Qed.
End workloads.

(** ** Policies *)

Section policies.
Context `{UUIDLib} `{!UUIDLaws} `{PgLib} `{FactsCodec} `{PolicyCodec}.

Definition decodeRow (r : policyRow) : option WorkloadPolicy :=
  (λ p, MkWorkloadPolicy (u64 (plVersion r)) (wpMode p) (wpInboundRules p)) <$> Unmarshal (plPolicy r).

(** The map holds what the rows decode to. *)
Definition decodes (t : gmap UUID policyRow) (m : gmap WorkloadID WorkloadPolicy) : Prop :=
  map_Forall (λ _ r, is_Some (decodeRow r)) t ∧ ∀ id, m !! FromUUID id = t !! id ≫= decodeRow.

Lemma policiesOf_spec rows out m :
  NoDup rows.*1 →
  policiesOf rows out = Ok m ↔
  Forall (λ kr, is_Some (decodeRow kr.2)) rows ∧
  ∀ id, m !! FromUUID id =
    match (list_to_map rows : gmap UUID policyRow) !! id with Some r => decodeRow r | None => out !! FromUUID id end.
Proof.
  revert out. induction rows as [|[id r] rows IH]; intros out; cbn [policiesOf fmap list_fmap fst].
  - intros _. split.
    + intros [= <-]. split; [constructor|]. intros id. by rewrite list_to_map_nil, lookup_empty.
    + intros [_ Hm]. f_equal. symmetry. apply map_eq. intros [id]. by rewrite Hm, list_to_map_nil, lookup_empty.
  - intros [Hid Hnd]%NoDup_cons. rewrite Forall_cons. cbn [snd]. unfold decodeRow at 1 2.
    destruct (Unmarshal (plPolicy r)) as [p|] eqn:Hu; cbn [fmap option_fmap option_map]; [|split; [done|by intros [[[? ?] _] _]]].
    rewrite IH by done. rewrite list_to_map_cons.
    assert ((list_to_map rows : gmap UUID policyRow) !! id = None) as Hno by by apply not_elem_of_list_to_map_1.
    split.
    + intros [Hall Hm]. split; [split; [eauto|done]|]. intros x. rewrite Hm. destruct (decide (x = id)) as [->|Hx].
      * rewrite Hno, !lookup_insert_eq. unfold decodeRow. by rewrite Hu.
      * rewrite !lookup_insert_ne by congruence. done.
    + intros [[_ Hall] Hm]. split; [done|]. intros x. rewrite Hm. destruct (decide (x = id)) as [->|Hx].
      * rewrite Hno, !lookup_insert_eq. unfold decodeRow. by rewrite Hu.
      * rewrite !lookup_insert_ne by congruence. done.
Qed.

Lemma LoadPolicies_spec d m : renderTx_LoadPolicies d = Ok m ↔ decodes (rgPolicies d) m.
Proof.
  unfold renderTx_LoadPolicies, decodes.
  assert (NoDup (merge_sort policy_le (map_to_list (rgPolicies d))).*1) as Hnd.
  { rewrite merge_sort_Permutation. apply NoDup_fst_map_to_list. }
  rewrite policiesOf_spec by done.
  assert ((list_to_map (merge_sort policy_le (map_to_list (rgPolicies d))) : gmap UUID policyRow) = rgPolicies d) as ->.
  { rewrite (list_to_map_proper _ (map_to_list (rgPolicies d)) Hnd (merge_sort_Permutation _ _)). apply list_to_map_to_list. }
  rewrite merge_sort_Permutation, map_Forall_to_list. f_equiv; [apply Forall_iff; by intros [id r]|].
  split; intros Hm id; rewrite Hm; by destruct (rgPolicies d !! id).
Qed.

Lemma decode_saved `{!PolicyCodecLaws} p b now :
  savable p → Marshal (Some p) = Some b → decodeRow (MkPolicyRow (i64 (wpVersion p)) b now) = Some p.
Proof.
  intros [Hc Hv] Hb. unfold Marshal in Hb. rewrite Hc in Hb. unfold decodeRow, Unmarshal. cbn [plPolicy plVersion].
  rewrite (proto_roundtrip _ _ Hb). cbn. rewrite u64_i64, Hv. by destruct p.
Qed.
End policies.

(** ** The promises *)

Section promises.
Context `{UUIDLib} `{!UUIDLaws} `{PgLib} `{!PgMicros} `{FactsCodec} `{PolicyCodec} `{!PolicyCodecLaws}.

Lemma writes_Ok {A} (body : RegistryDB → result RegError (A * RegistryDB)) s a s' :
  writes body s = Ok (a, s') → body (rsDB s) = Ok (a, rsDB s').
Proof.
  unfold writes. destruct (rsFault s) as [[|n]|]; [done|..];
    destruct (body (rsDB s)) as [[a' d]|e]; [|done| |done]; by intros [= <- <-].
Qed.

Lemma writes__Ok (body : RegistryDB → result RegError (() * RegistryDB)) s s' :
  writes_ body s = Ok s' → body (rsDB s) = Ok ((), rsDB s').
Proof.
  unfold writes_. rewrite result_bind_Ok. intros ([[] s1] & Hw & [= <-]). by apply writes_Ok.
Qed.

#[global] Instance pg_renderTx_laws : RenderTxLaws RenderSession RegError.
Proof.
  split; cbn [LoadInputs LoadPolicies SavePolicy pg_renderTx].
  - intros id p now s s' Hs%writes__Ok. unfold renderTx_SavePolicy in Hs.
    destruct (Marshal (Some p)); [|done]. destruct (rgWorkloads (rsDB s) !! wid id); [|done]. injection Hs as <-. reflexivity.
  - intros id p now s s' m Hp Hs%writes__Ok [Hall Hm]%LoadPolicies_spec. unfold renderTx_SavePolicy in Hs.
    destruct (Marshal (Some p)) as [b|] eqn:Hb; [|done]. destruct (rgWorkloads (rsDB s) !! wid id); [|done].
    injection Hs as <-. apply LoadPolicies_spec. cbn [notify setPolicies rgPolicies].
    pose proof (decode_saved p b (pgTime now) Hp Hb) as Hd. split.
    + apply map_Forall_insert_2; [by rewrite Hd|done].
    + intros x. destruct id as [id]. cbn [wid]. destruct (decide (x = id)) as [->|Hx].
      * rewrite !lookup_insert_eq. by cbn [mbind option_bind].
      * rewrite !lookup_insert_ne by congruence. apply Hm.
Qed.

#[global] Instance pg_modeChange_laws : ModeChangeLaws RenderSession RegError.
Proof.
  split; cbn [LoadInputs LoadPolicies RecordModeChange SetWorkloadModes pg_renderTx pg_modeChangeTx].
  - intros rec s s' Hs%writes__Ok. unfold modeChangeTx_RecordModeChange in Hs.
    destruct (decide _); [done|]. apply result_bind_Ok in Hs as (ws & _ & [= Hs]).
    split; cbn [LoadInputs LoadPolicies pg_renderTx]; rewrite <-Hs; reflexivity.
  - intros ids mode s n s' inp Hm Hs%writes_Ok Hi. unfold modeChangeTx_SetWorkloadModes in Hs. injection Hs as <- <-.
    split_and!; [|reflexivity|by apply flips_count].
    apply LoadInputs_map; [| |done].
    + intros id r Hr. eexists. rewrite map_lookup_imap, Hr. split; [done|]. split; [by destruct (flips _ _ _ _)|].
      intros labels addrs. by apply flip_row.
    + intros id Hr. by rewrite map_lookup_imap, Hr.
Qed.

Lemma workloadFromRow_retired id r at_ labels addrs :
  workloadFromRow id (rowRetired at_ r) labels addrs = setRetired at_ <$> workloadFromRow id r labels addrs.
Proof.
  unfold workloadFromRow. destruct r as [h e m [[|b bs]|] rt c a s ev]; cbn [rowRetired wkFacts]; [done| |done].
  destruct (facts_Unmarshal (b :: bs)); done.
Qed.

Lemma stamp_inputs id at_ d d' inp :
  pgTime at_ = at_ → retireTx_StampRetired id at_ d = Ok ((), d') → renderTx_LoadInputs d = Ok inp →
  renderTx_LoadInputs d' = Ok (withRetired id at_ inp) ∧ renderTx_LoadPolicies d' = renderTx_LoadPolicies d.
Proof.
  intros Ht. unfold retireTx_StampRetired, updateRow. rewrite Ht.
  destruct (rgWorkloads d !! wid id) as [r|] eqn:Hr; [|done]. destruct (active r); [|done]. intros [= <-] Hi.
  split; [|reflexivity]. apply LoadInputs_map; [| |done].
  - intros x rx Hx. destruct id as [id]. cbn [wid] in *. destruct (decide (x = id)) as [->|Hne].
    + rewrite Hr in Hx. injection Hx as <-. exists (rowRetired at_ r). rewrite lookup_insert_eq. split_and!; [done|done|].
      intros labels addrs. rewrite workloadFromRow_retired.
      destruct (workloadFromRow id r labels addrs) as [w|] eqn:Hw; [|done]. cbn.
      by rewrite (proj1 (workloadFromRow_id _ _ _ _ _ Hw)), bool_decide_eq_true_2.
    + exists rx. rewrite lookup_insert_ne by done. split_and!; [done|done|]. intros labels addrs.
      destruct (workloadFromRow x rx labels addrs) as [w|] eqn:Hw; [|done]. cbn.
      rewrite (proj1 (workloadFromRow_id _ _ _ _ _ Hw)), bool_decide_eq_false_2; [done|]. by intros [= ->].
  - intros x Hx. rewrite lookup_insert_ne; [done|]. intros <-. congruence.
Qed.

Lemma writeGaps_keeps id gaps d d' :
  writeGaps id gaps d = Ok ((), d') →
  renderTx_LoadInputs d' = renderTx_LoadInputs d ∧ renderTx_LoadPolicies d' = renderTx_LoadPolicies d.
Proof.
  revert d. induction gaps as [|g gaps IH]; intros d; cbn [writeGaps]; [by intros [= <-]|].
  destruct (gapCheck g); [|done]. destruct (rgWorkloads d !! wid id); [|done]. intros [Hi Hp]%IH. rewrite Hi, Hp.
  destruct (decide _); split; reflexivity.
Qed.

#[global] Instance pg_retire_laws : RetireLaws RenderSession RegError.
Proof.
  split; cbn [LoadInputs LoadPolicies LockWorkload StampRetired WriteGaps DirectEnd pg_renderTx pg_retireTx].
  - intros id s subj inp [= <-] Hl%LoadInputs_workloads. unfold retireTx_LockWorkload, lockedRow.
    pose proof (listed_ids _ _ Hl) as Hids. apply listWorkloads_spec in Hl.
    destruct (rgWorkloads (rsDB s) !! wid id) as [r|] eqn:Hr; cbn [fmap option_fmap option_map].
    + destruct (proj1 (list_elem_of_lookup _ _) (proj2 (elem_of_workloadIDs (rsDB s) (wid id)) (mk_is_Some _ _ Hr))) as [i Hi].
      destruct (Forall2_lookup_l _ _ _ _ _ Hl Hi) as (w & Hw & (r' & Hr' & (Hid & _ & Hret & Hlast)%workloadFromRow_id)).
      rewrite Hr in Hr'. injection Hr' as <-. exists w. split; [by eapply list_elem_of_lookup_2|].
      destruct id as [id]. by split_and!.
    + rewrite Hids, list_elem_of_fmap. intros (u & -> & Hu%elem_of_workloadIDs). cbn [wid] in Hr. rewrite Hr in Hu. by destruct Hu.
  - intros id now s s' inp Hs%writes__Ok Hi. apply (stamp_inputs id _ (rsDB s)); [|done|done].
    apply pgTime_micros. unfold truncateMicros. rewrite Zminus_mod_idemp_r, Z.sub_diag. done.
  - intros id gaps s s' Hs%writes__Ok. by eapply writeGaps_keeps.
  - intros id s s' Hs%writes__Ok. injection Hs as Hs.
    split; cbn [LoadInputs LoadPolicies pg_renderTx]; rewrite <-Hs; reflexivity.
Qed.
End promises.
