(* ===== verification/PolicyStoreFacts.v ===== *)
(** * The store of the authored model implements its interface

    What the tables hold, read as objects ([dbContent]); the schema's invariant
    ([wf]); and that every operation of [PolicyStore.v] has the laws of the store's
    interface, so that the theorems of [AuthoringFacts.v] hold over it. *)

From S2P Require Import Prelude GoStd Netip Wire Uuid Identity Policy Validate Authoring AuthoringFacts Postgres PolicyStore.
Local Open Scope Z_scope.

(** ** Reading one owner's rows in order *)

(** Sorted lists with the same elements are equal when level elements are. *)
Lemma sorted_unique {A} (R : relation A) (l1 l2 : list A) :
  StronglySorted R l1 → StronglySorted R l2 → l1 ≡ₚ l2 →
  (∀ x y, x ∈ l1 → y ∈ l1 → R x y → R y x → x = y) → l1 = l2.
Proof.
  revert l2. induction l1 as [|x l1 IH]; intros l2 H1 H2 Hp Ha.
  { by apply Permutation_nil_l in Hp as ->. }
  destruct l2 as [|y l2]; [by apply Permutation_nil_r in Hp|].
  apply StronglySorted_inv in H1 as [H1 Hx]. apply StronglySorted_inv in H2 as [H2 Hy].
  rewrite Forall_forall in Hx, Hy. assert (x = y) as ->.
  { assert (x ∈ y :: l2) as Hxin by (rewrite <-Hp; left).
    assert (y ∈ x :: l1) as Hyin by (rewrite Hp; left).
    apply elem_of_cons in Hxin as [->|Hxin]; [done|]. apply elem_of_cons in Hyin as [->|Hyin]; [done|].
    apply Ha; [left|by right|by apply Hx|by apply Hy]. }
  f_equal. apply IH; [done..|by apply Permutation_cons_inv in Hp|].
  intros a b ? ?. by apply Ha; right.
Qed.

Lemma StronglySorted_filter {A} (R : relation A) (P : A → Prop) `{∀ x, Decision (P x)} l :
  StronglySorted R l → StronglySorted R (filter P l).
Proof.
  induction 1 as [|x l Hs IH Hx]; [constructor|]. rewrite filter_cons. case_decide; [|done].
  constructor; [done|]. rewrite Forall_forall in Hx |- *. intros y [_ Hy]%list_elem_of_filter. by apply Hx.
Qed.

Lemma NoDup_fmap_filter {A B} (f : A → B) (P : A → Prop) `{∀ x, Decision (P x)} l :
  NoDup (f <$> l) → NoDup (f <$> filter P l).
Proof. intros Hnd. eapply sublist_NoDup; [exact Hnd|]. apply fmap_sublist, sublist_filter. Qed.

Section reading.
Context `{UUIDLaws} {R K : Type} (key : R → UUID * K) (le : relation K).
Context `{!RelDecision le, !PartialOrder le, !Total le}.

#[local] Instance owned_trans : Transitive (owned_le key le).
Proof.
  intros a b c [H1 K1] [H2 K2]. split; [by etrans|]. intros Heq.
  assert ((key a).1 = (key b).1) as E1 by (apply (anti_symm uuid_le); [done|by rewrite Heq]).
  etrans; [by apply K1|]. apply K2. congruence.
Qed.
#[local] Instance owned_total : Total (owned_le key le).
Proof.
  intros a b. unfold owned_le. destruct (total uuid_le (key a).1 (key b).1) as [Hl|Hl].
  - destruct (total le (key a).2 (key b).2); [left; by split|].
    destruct (decide ((key a).1 = (key b).1)) as [He|He]; [right|left; by split].
    split; [by rewrite He|done].
  - destruct (total le (key b).2 (key a).2); [right; by split|].
    destruct (decide ((key b).1 = (key a).1)) as [He|He]; [left|right; by split].
    split; [by rewrite He|done].
Qed.

(** The rows of owner [o], as a statement over the whole table lists them. *)
Definition ofOwner (o : UUID) (t : list R) : list R := filter (λ r, (key r).1 = o) t.
Definition readOwner (o : UUID) (t : list R) : list R := ofOwner o (merge_sort (owned_le key le) t).

Lemma readOwner_perm o t : readOwner o t ≡ₚ ofOwner o t.
Proof. unfold readOwner, ofOwner. by rewrite merge_sort_Permutation. Qed.

Lemma readOwner_sorted o t : StronglySorted (owned_le key le) (readOwner o t).
Proof. apply StronglySorted_filter, StronglySorted_merge_sort; apply _. Qed.

Lemma keyed_unique t x y : NoDup (key <$> t) → x ∈ t → y ∈ t → key x = key y → x = y.
Proof.
  intros Hnd Hx Hy Hk. apply (list_elem_of_lookup_1 t) in Hx as [i Hi].
  apply (list_elem_of_lookup_1 t) in Hy as [j Hj].
  assert (i = j) as ->; [|congruence]. eapply (NoDup_lookup _ _ _ (key x) Hnd).
  - by rewrite list_lookup_fmap, Hi.
  - by rewrite list_lookup_fmap, Hj, Hk.
Qed.

Lemma level_key x y : owned_le key le x y → owned_le key le y x → key x = key y.
Proof.
  intros [H1 K1] [H2 K2]. assert ((key x).1 = (key y).1) as E1 by by apply (anti_symm uuid_le).
  assert ((key x).2 = (key y).2) as E2 by (apply (anti_symm le); [by apply K1|by apply K2]).
  rewrite (surjective_pairing (key x)), (surjective_pairing (key y)). congruence.
Qed.

(** The reading depends on the owner's rows only, not on the others. *)
Lemma readOwner_ext o t l :
  NoDup (key <$> t) → ofOwner o t ≡ₚ l → StronglySorted (owned_le key le) l → readOwner o t = l.
Proof.
  intros Hnd Hp Hl. apply (sorted_unique (owned_le key le)); [apply readOwner_sorted|done|by rewrite readOwner_perm|].
  intros x y Hx Hy Hxy Hyx. rewrite readOwner_perm in Hx, Hy.
  apply list_elem_of_filter in Hx as [_ Hx]. apply list_elem_of_filter in Hy as [_ Hy].
  eapply keyed_unique; try done. by apply level_key.
Qed.

Lemma readOwner_same o t t' :
  NoDup (key <$> t) → ofOwner o t ≡ₚ ofOwner o t' → readOwner o t = readOwner o t'.
Proof.
  intros Hnd Hp. apply readOwner_ext; [done| |apply readOwner_sorted]. by rewrite readOwner_perm.
Qed.
End reading.

(** ** Indexes *)

Lemma groupRows_lookup `{UUIDLib} {R V} (owner : R → UUID) (val : R → V) rows o :
  default [] (groupRows owner val rows !! o) = val <$> filter (λ r, owner r = o) rows.
Proof.
  unfold groupRows. induction rows as [|r rows IH] using rev_ind; [done|].
  rewrite foldl_app. cbn [foldl]. rewrite filter_app, fmap_app, filter_cons, filter_nil.
  destruct (decide (owner r = o)) as [<-|Hne].
  - by rewrite lookup_insert_eq, <-IH.
  - by rewrite lookup_insert_ne, IH, app_nil_r by done.
Qed.

(** A selector put together from rows of keys and values. *)
Definition selectorOf {R} (key : R → string) (val : R → list string) (rows : list R) : Selector :=
  foldl (λ m r, <[key r := val r]> m) ∅ rows.

Lemma selectorOf_lookup {R} (key : R → string) (val : R → list string) rows k v :
  NoDup (key <$> rows) → selectorOf key val rows !! k = Some v ↔ ∃ r, r ∈ rows ∧ key r = k ∧ val r = v.
Proof.
  unfold selectorOf. induction rows as [|r rows IH] using rev_ind.
  { intros _. split; [done|]. by intros (r & ?%elem_of_nil & _). }
  rewrite fmap_app, foldl_app. cbn [foldl]. intros (Hnd & Hdis & _)%NoDup_app.
  setoid_rewrite elem_of_app. setoid_rewrite list_elem_of_singleton.
  destruct (decide (key r = k)) as [<-|Hne].
  - rewrite lookup_insert_eq. split; [intros [= <-]; eauto|].
    intros (r' & [Hr| ->] & Hk & <-); [|done]. exfalso. eapply Hdis; [|left]. rewrite <-Hk.
    by apply list_elem_of_fmap_2.
  - rewrite lookup_insert_ne by done. rewrite IH by done. split.
    + intros (r' & ? & ? & ?). eauto 10.
    + intros (r' & [Hr| ->] & Hk & ?); [eauto|done].
Qed.

Lemma selectorOf_perm {R} (key : R → string) (val : R → list string) rows rows' :
  NoDup (key <$> rows) → rows ≡ₚ rows' → selectorOf key val rows = selectorOf key val rows'.
Proof.
  intros Hnd Hp. apply map_eq. intros k. apply option_eq. intros v.
  rewrite !selectorOf_lookup; [by setoid_rewrite Hp|by rewrite <-Hp|done].
Qed.

(** Writing a selector out by its keys and reading it back. *)
Lemma selectorOf_written {R} (key : R → string) (val : R → list string) (mk : string → R) (m : Selector) :
  (∀ k, key (mk k) = k) → (∀ k, val (mk k) = default [] (m !! k)) →
  selectorOf key val (mk <$> sortedKeys m) = m.
Proof.
  intros Hk Hv. assert (key <$> (mk <$> sortedKeys m) = sortedKeys m) as Hkeys.
  { rewrite <-list_fmap_compose. rewrite <-(list_fmap_id (sortedKeys m)) at 2. apply list_fmap_ext.
    intros; apply Hk. }
  apply map_eq. intros k. apply option_eq. intros v. rewrite selectorOf_lookup.
  - setoid_rewrite list_elem_of_fmap. unfold sortedKeys. split.
    + intros (r & (k' & -> & Hin) & Hkk & <-). rewrite Hk in Hkk. subst k'. rewrite Hv.
      rewrite merge_sort_Permutation in Hin. apply list_elem_of_fmap in Hin as ([? v'] & -> & Hin%elem_of_map_to_list).
      cbn in *. by rewrite Hin.
    + intros Hm. exists (mk k). rewrite Hk, Hv, Hm. split_and!; try done. exists k. split; [done|].
      rewrite merge_sort_Permutation. apply list_elem_of_fmap. exists (k, v). split; [done|].
      by apply elem_of_map_to_list.
  - rewrite Hkeys. unfold sortedKeys. rewrite merge_sort_Permutation. apply NoDup_fst_map_to_list.
Qed.

Section indexes.
Context `{ul : UUIDLib, pg : PgLib}.

Lemma indexScopes_lookup rows o :
  default ∅ (indexScopes rows !! o) = selectorOf scKey scValues (filter (λ r, scRuleset r = o) rows).
Proof.
  unfold indexScopes, selectorOf. induction rows as [|r rows IH] using rev_ind; [done|].
  rewrite foldl_app. cbn [foldl]. rewrite filter_app, foldl_app, filter_cons, filter_nil.
  destruct (decide (scRuleset r = o)) as [<-|Hne].
  - by rewrite lookup_insert_eq, <-IH.
  - by rewrite lookup_insert_ne, IH by done.
Qed.

Lemma indexMatches_lookup rows o j :
  default ∅ (default ∅ (indexMatches rows !! o) !! j) =
  selectorOf maKey maValues (filter (λ r, maRule r = o ∧ maPeer r = j) rows).
Proof.
  unfold indexMatches, selectorOf. induction rows as [|r rows IH] using rev_ind; [done|].
  rewrite foldl_app. cbn [foldl]. rewrite filter_app, foldl_app, filter_cons, filter_nil.
  destruct (decide (maRule r = o ∧ maPeer r = j)) as [[<- <-]|Hne].
  - by rewrite lookup_insert_eq; cbn [from_option]; unfold Datatypes.id; rewrite lookup_insert_eq, <-IH.
  - destruct (decide (maRule r = o)) as [<-|Ho].
    + rewrite lookup_insert_eq. cbn [from_option]. unfold Datatypes.id in *.
      rewrite lookup_insert_ne by naive_solver. by rewrite IH.
    + by rewrite lookup_insert_ne, IH by done.
Qed.
End indexes.

(** ** What the tables hold *)

Definition keyed `{UUIDLib} {A} (f : A → UUID) (l : list A) : gmap UUID A := list_to_map ((λ x, (f x, x)) <$> l).

Lemma keyed_lookup `{UUIDLib} {A} (f : A → UUID) l k x :
  NoDup (f <$> l) → keyed f l !! k = Some x ↔ x ∈ l ∧ f x = k.
Proof.
  intros Hnd. unfold keyed. rewrite <-elem_of_list_to_map.
  - rewrite list_elem_of_fmap. naive_solver.
  - by rewrite <-list_fmap_compose.
Qed.

Section content.
Context `{ul : UUIDLib, pg : PgLib}.

Definition serviceAt (d : DB) (r : objectRow) : Service :=
  serviceOf r (readOwner entryKey Z.le (obID r) (dbServiceEntries d)).
Definition groupAt (d : DB) (r : objectRow) : AddressGroup :=
  groupOf r (ciCidr <$> readOwner cidrKey pgText_le (obID r) (dbCIDRs d)).

(** The selector of one peer. *)
Definition matchesAt (d : DB) (rule : UUID) (j : Z) : list matchRow :=
  filter (λ r, maRule r = rule ∧ maPeer r = j) (dbMatches d).
Definition peerAt (d : DB) (p : peerRow) : Peer :=
  peerOf {[peRule p := {[peOrdinal p := selectorOf maKey maValues (matchesAt d (peRule p) (peOrdinal p))]}]} p.
Definition ruleAt (d : DB) (r : ruleRow) : Rule :=
  MkRule (rlID r) (Direction_of (rlDirection r)) (rlEnabled r) (rlDescription r)
    (peerAt d <$> readOwner peerKey Z.le (rlID r) (dbPeers d))
    (reService <$> readOwner refKey uuid_le (rlID r) (dbRefs d))
    (entriesFromRows (flatOf <$> readOwner entryKey Z.le (rlID r) (dbRuleEntries d)))
    (rlCreatedAt r) (rlUpdatedAt r) (rlVersion r) [].
Definition scopeAt (d : DB) (id : UUID) : Selector :=
  selectorOf scKey scValues (filter (λ r, scRuleset r = id) (dbScopes d)).
Definition rulesetAt (d : DB) (r : rulesetRow) : Ruleset :=
  MkRuleset (rwID r) (rwName r) (rwDescription r) (rwEnabled r) (scopeAt d (rwID r))
    (ruleAt d <$> readOwner ruleKey Z.le (rwID r) (dbRules d)) (rwCreatedAt r) (rwUpdatedAt r) (rwVersion r) [].

Definition dbContent (d : DB) : Content :=
  MkContent (keyed svcID (serviceAt d <$> dbServices d)) (keyed agID (groupAt d <$> dbGroups d))
    (keyed rsID (rulesetAt d <$> dbRulesets d)).

(** ** The schema's invariant *)

(** A child table: its key is unique and its owners exist. *)
Definition childOk {R K} (key : R → UUID * K) (owners : list UUID) (t : list R) : Prop :=
  NoDup (key <$> t) ∧ ∀ r, r ∈ t → (key r).1 ∈ owners.

Definition matchKey' (m : matchRow) : UUID * (Z * string) := (maRule m, (maPeer m, maKey m)).

Record wf (d : DB) : Prop := {
  wf_services : NoDup (obID <$> dbServices d);
  wf_groups : NoDup (obID <$> dbGroups d);
  wf_rulesets : NoDup (rwID <$> dbRulesets d);
  wf_rules : NoDup (rlID <$> dbRules d);
  wf_service_entries : childOk entryKey (obID <$> dbServices d) (dbServiceEntries d);
  wf_cidrs : childOk cidrKey (obID <$> dbGroups d) (dbCIDRs d);
  wf_scopes : childOk scopeKey (rwID <$> dbRulesets d) (dbScopes d);
  wf_ruleset_rules : childOk ruleKey (rwID <$> dbRulesets d) (dbRules d);
  wf_peers : childOk peerKey (rlID <$> dbRules d) (dbPeers d);
  wf_matches : childOk matchKey' (rlID <$> dbRules d) (dbMatches d);
  wf_refs : childOk refKey (rlID <$> dbRules d) (dbRefs d);
  wf_rule_entries : childOk entryKey (rlID <$> dbRules d) (dbRuleEntries d);
  wf_peer_check : Forall (λ p, peerCheck p = true) (dbPeers d);
}.

Lemma childOk_insert {R K} `{EqDecision K} (key : R → UUID * K) owners t r t' :
  childOk key owners t → insertRow key r t = Ok t' → (key r).1 ∈ owners → t' = t ++ [r] ∧ childOk key owners t'.
Proof.
  intros [Hnd Hfk] Hi Hr. unfold insertRow in Hi. case_decide as Hni; [done|].
  assert (t' = t ++ [r]) as -> by congruence. split; [done|]. split.
  - rewrite fmap_app. apply NoDup_app. split_and!; [done| |apply NoDup_singleton].
    intros k Hk ->%list_elem_of_singleton. done.
  - intros x [Hx| ->%list_elem_of_singleton]%elem_of_app; [by apply Hfk|done].
Qed.

Lemma childOk_filter {R K} (key : R → UUID * K) owners owners' t (P : R → Prop) `{∀ x, Decision (P x)} :
  childOk key owners t → (∀ r, r ∈ t → P r → (key r).1 ∈ owners → (key r).1 ∈ owners') →
  childOk key owners' (filter P t).
Proof.
  intros [Hnd Hfk] Ho. split.
  - by apply NoDup_fmap_filter.
  - intros r [HP Hr]%list_elem_of_filter. apply Ho; auto.
Qed.

Lemma childOk_mono {R K} (key : R → UUID * K) owners owners' t :
  childOk key owners t → owners ⊆ owners' → childOk key owners' t.
Proof. intros [Hnd Hfk] Hs. split; [done|]. intros r Hr. by apply Hs, Hfk. Qed.

Lemma childOk_none {R K} (key : R → UUID * K) owners t o :
  childOk key owners t → o ∉ owners → ofOwner key o t = [].
Proof. intros [_ Hfk] Ho. apply filter_nil_iff. intros r Hr Heq. apply Ho. rewrite <-Heq. by apply Hfk. Qed.
End content.

(** ** Reads return the content *)

Section reads.
Context `{ul : UUIDLib, !UUIDLaws, pg : PgLib, !PgLaws}.

Lemma tx_bind_Ok {A B} (m : Tx A) (f : A → Tx B) s b s' :
  (m ≫= f) s = Ok (b, s') → ∃ a s1, m s = Ok (a, s1) ∧ f a s1 = Ok (b, s').
Proof. unfold mbind, tx_bind. destruct (m s) as [[a s1]|e]; [eauto|done]. Qed.

Lemma exec_Ok {A} wrap (q : DB → result PgError (A * DB)) s a s' :
  exec wrap q s = Ok (a, s') → q (seDB s) = Ok (a, seDB s').
Proof.
  unfold exec. intros Hs. destruct (q (seDB s)) as [[a' d]|e] eqn:Eq; [|by destruct (seFault s) as [[]|]].
  assert (Ok (a', MkSession (pred <$> seFault s) d) = Ok (E := StoreError) (a, s')) as [= <- <-] by
    by destruct (seFault s) as [[]|]. done.
Qed.

Lemma serviceAt_assembled d rows :
  wf d → assembleServices rows (merge_sort entries_le (dbServiceEntries d)) = serviceAt d <$> rows.
Proof.
  intros Hd. unfold assembleServices. apply list_fmap_ext. intros i r _. unfold serviceAt.
  by rewrite groupRows_lookup, list_fmap_id.
Qed.

Lemma groupAt_assembled d rows :
  assembleGroups rows (merge_sort (owned_le cidrKey pgText_le) (dbCIDRs d)) = groupAt d <$> rows.
Proof. apply list_fmap_ext. intros i r _. unfold groupAt. by rewrite groupRows_lookup. Qed.

Lemma peerAt_assembled d p :
  wf d → peerOf (indexMatches (merge_sort match_le (dbMatches d))) p = peerAt d p.
Proof.
  intros Hd. unfold peerAt, peerOf. destruct (PeerKind_of (peKind p)); try done. f_equal.
  rewrite indexMatches_lookup, lookup_singleton_eq. cbn [from_option]. unfold Datatypes.id.
  rewrite lookup_singleton_eq. cbn [from_option]. apply selectorOf_perm; [|by unfold matchesAt; rewrite merge_sort_Permutation].
  rewrite merge_sort_Permutation. destruct (wf_matches _ Hd) as [Hnd _].
  apply (NoDup_fmap_1 (λ k, (peRule p, (peOrdinal p, k)))). rewrite <-list_fmap_compose.
  erewrite list_fmap_ext; [apply NoDup_fmap_filter, Hnd|]. intros i m Hm%list_elem_of_lookup_2. cbn.
  apply list_elem_of_filter in Hm as [[<- <-] _]. done.
Qed.

Lemma ruleAt_assembled d r :
  wf d → ruleOf (groupRows peRule (peerOf (indexMatches (merge_sort match_le (dbMatches d))))
                   (merge_sort (owned_le peerKey Z.le) (dbPeers d)))
           (groupRows reRule reService (merge_sort (owned_le refKey uuid_le) (dbRefs d)))
           (groupRows enOwner flatOf (merge_sort entries_le (dbRuleEntries d))) r = ruleAt d r.
Proof.
  intros Hd. unfold ruleOf, ruleAt. rewrite !groupRows_lookup. f_equal.
  apply list_fmap_ext. intros i p _. by apply peerAt_assembled.
Qed.

Lemma rulesetAt_assembled d rows :
  wf d →
  assembleRulesets rows (merge_sort (owned_le scopeKey pgText_le) (dbScopes d))
    (merge_sort (owned_le ruleKey Z.le) (dbRules d)) (merge_sort (owned_le peerKey Z.le) (dbPeers d))
    (merge_sort match_le (dbMatches d)) (merge_sort (owned_le refKey uuid_le) (dbRefs d))
    (merge_sort entries_le (dbRuleEntries d)) = rulesetAt d <$> rows.
Proof.
  intros Hd. apply list_fmap_ext. intros i r _. unfold rulesetOf, rulesetAt. f_equal.
  - rewrite indexScopes_lookup. unfold scopeAt.
    apply selectorOf_perm; [|by rewrite merge_sort_Permutation].
    rewrite merge_sort_Permutation. destruct (wf_scopes _ Hd) as [Hnd _].
    apply (NoDup_fmap_1 (λ k, (rwID r, k))). rewrite <-list_fmap_compose.
    erewrite list_fmap_ext; [apply NoDup_fmap_filter, Hnd|]. intros j m Hm%list_elem_of_lookup_2. cbn.
    by apply list_elem_of_filter in Hm as [<- _].
  - rewrite groupRows_lookup. apply list_fmap_ext. intros j x _. by apply ruleAt_assembled.
Qed.

(** The rows of one object by its id. *)
Lemma content_service d id s :
  wf d → cServices (dbContent d) !! id = Some s ↔ ∃ r, r ∈ dbServices d ∧ obID r = id ∧ s = serviceAt d r.
Proof.
  intros Hd. cbn. rewrite keyed_lookup.
  - rewrite list_elem_of_fmap. naive_solver.
  - rewrite <-list_fmap_compose. apply (wf_services _ Hd).
Qed.

Lemma content_group d id g :
  wf d → cGroups (dbContent d) !! id = Some g ↔ ∃ r, r ∈ dbGroups d ∧ obID r = id ∧ g = groupAt d r.
Proof.
  intros Hd. cbn. rewrite keyed_lookup.
  - rewrite list_elem_of_fmap. naive_solver.
  - rewrite <-list_fmap_compose. apply (wf_groups _ Hd).
Qed.

Lemma content_ruleset d id rs :
  wf d → cRulesets (dbContent d) !! id = Some rs ↔ ∃ r, r ∈ dbRulesets d ∧ rwID r = id ∧ rs = rulesetAt d r.
Proof.
  intros Hd. cbn. rewrite keyed_lookup.
  - rewrite list_elem_of_fmap. naive_solver.
  - rewrite <-list_fmap_compose. apply (wf_rulesets _ Hd).
Qed.

(** A statement that reads. *)
Lemma exec_read {A} wrap (f : DB → A) s a s' :
  exec wrap (λ d, Ok (f d, d)) s = Ok (a, s') → a = f (seDB s) ∧ seDB s' = seDB s.
Proof. intros Hs%exec_Ok. by injection Hs as -> ->. Qed.

Lemma listServices_Ok s l s' :
  wf (seDB s) → listServices s = Ok (l, s') → l = serviceAt (seDB s) <$> merge_sort object_le (dbServices (seDB s)).
Proof.
  intros Hd (rows & s1 & [-> E1]%exec_read & Hk)%tx_bind_Ok.
  apply tx_bind_Ok in Hk as (entries & s2 & [-> E2]%exec_read & [= <- <-]). rewrite E1.
  by apply serviceAt_assembled.
Qed.

Lemma listAddressGroups_Ok s l s' :
  listAddressGroups s = Ok (l, s') → l = groupAt (seDB s) <$> merge_sort object_le (dbGroups (seDB s)).
Proof.
  intros (rows & s1 & [-> E1]%exec_read & Hk)%tx_bind_Ok.
  apply tx_bind_Ok in Hk as (entries & s2 & [-> E2]%exec_read & [= <- <-]). rewrite E1.
  by apply groupAt_assembled.
Qed.

Lemma listRulesets_Ok s l s' :
  wf (seDB s) → listRulesets s = Ok (l, s') → l = rulesetAt (seDB s) <$> merge_sort ruleset_le (dbRulesets (seDB s)).
Proof.
  intros Hd (rows & s1 & [-> E1]%exec_read & Hk)%tx_bind_Ok.
  apply tx_bind_Ok in Hk as (scopes & s2 & [-> E2]%exec_read & Hk).
  apply tx_bind_Ok in Hk as (rules & s3 & [-> E3]%exec_read & Hk).
  apply tx_bind_Ok in Hk as (peers & s4 & [-> E4]%exec_read & Hk).
  apply tx_bind_Ok in Hk as (matches & s5 & [-> E5]%exec_read & Hk).
  apply tx_bind_Ok in Hk as (refs & s6 & [-> E6]%exec_read & Hk).
  apply tx_bind_Ok in Hk as (entries & s7 & [-> E7]%exec_read & [= <- <-]).
  rewrite ?E6, ?E5, ?E4, ?E3, ?E2, ?E1. by apply rulesetAt_assembled.
Qed.

(** [GetRuleset] returns what is stored under the id. *)
Lemma GetRuleset_Ok sv id d rs d' :
  wf d → Store_GetRuleset sv id d = (Ok rs, d') → cRulesets (dbContent d) !! id = Some rs.
Proof.
  intros Hd. unfold Store_GetRuleset, reads.
  destruct ((row ← exec failure (sql_GetRuleset id); _) _) as [[x s']|e] eqn:Er; [|done].
  intros [= -> <-]. apply tx_bind_Ok in Er as (row & s1 & [-> E1]%exec_read & Hk). cbn [seDB] in *.
  destruct (snd <$> _) as [r0|]; [|done]. apply tx_bind_Ok in Hk as (all & s2 & Hl & Hk).
  apply listRulesets_Ok in Hl; [|by rewrite E1]. rewrite E1 in Hl.
  destruct (list_find _ all) as [[i y]|] eqn:Hf; [|done]. injection Hk as -> _.
  apply list_find_Some in Hf as (Hi & Hid & _). apply list_elem_of_lookup_2 in Hi. rewrite Hl in Hi.
  apply list_elem_of_fmap in Hi as (r & -> & Hr). rewrite merge_sort_Permutation in Hr.
  apply content_ruleset; [done|]. by exists r.
Qed.
End reads.

(** ** Statements keep the schema *)

Section statements.
Context `{ul : UUIDLib, !UUIDLaws, pg : PgLib, !PgLaws}.

(** An insert into one table. *)
Lemma onTable_Ok {R} (get : DB → list R) set f d u d' :
  onTable get set f d = Ok (u, d') → ∃ t, f (get d) = Ok t ∧ d' = set t d.
Proof. unfold onTable. destruct (f (get d)) as [t|e]; [|done]. intros [= <-]. eauto. Qed.

(** A guarded insert under a unique key. *)
Lemma insert_guarded {R K} `{EqDecision K} (key : R → UUID * K) (P : Prop) `{!Decision P} e owners t r t' :
  (t1 ← insertRow key r t; if decide P then Ok t1 else Err e) = Ok t' →
  childOk key owners t → (P → (key r).1 ∈ owners) → t' = t ++ [r] ∧ P ∧ childOk key owners t'.
Proof.
  intros Hi Hc HP. destruct (insertRow key r t) as [t1|] eqn:E1; [|done]. cbn in Hi. case_decide as HPd; [|done].
  assert (t' = t1) as -> by congruence. destruct (childOk_insert key owners t r t1) as [-> Hc']; [done..|by apply HP|].
  by split_and!.
Qed.

Lemma AddServiceEntry_Ok e d d' :
  wf d → sql_AddServiceEntry e d = Ok ((), d') →
  d' = setServiceEntries (dbServiceEntries d ++ [e]) d ∧ wf d'.
Proof.
  intros [] Ht. unfold sql_AddServiceEntry in Ht. apply onTable_Ok in Ht as (t & Ht & ->). unfold insertEntry in Ht. destruct (entryCheck e); [|done].
  eapply insert_guarded in Ht as (-> & _ & Hc); [|eassumption|done]. by split; [|split].
Qed.

Lemma AddAddressGroupCIDR_Ok c d d' :
  wf d → sql_AddAddressGroupCIDR c d = Ok ((), d') → d' = setCIDRs (dbCIDRs d ++ [c]) d ∧ wf d'.
Proof.
  intros [] Ht. unfold sql_AddAddressGroupCIDR in Ht. apply onTable_Ok in Ht as (t & Ht & ->). eapply insert_guarded in Ht as (-> & _ & Hc); [|eassumption|done].
  by split; [|split].
Qed.

Lemma AddRulesetScopeMatch_Ok x d d' :
  wf d → sql_AddRulesetScopeMatch x d = Ok ((), d') → d' = setScopes (dbScopes d ++ [x]) d ∧ wf d'.
Proof.
  intros [] Ht. unfold sql_AddRulesetScopeMatch in Ht. apply onTable_Ok in Ht as (t & Ht & ->). eapply insert_guarded in Ht as (-> & _ & Hc); [|eassumption|done].
  by split; [|split].
Qed.

Lemma AddRule_Ok r d d' :
  wf d → sql_AddRule r d = Ok ((), d') →
  d' = setRules (dbRules d ++ [r]) d ∧ (rlID r ∉ rlID <$> dbRules d) ∧ wf d'.
Proof.
  intros [] Ht. unfold sql_AddRule in Ht. apply onTable_Ok in Ht as (t & Ht & ->). case_decide as Hni; [done|].
  eapply insert_guarded in Ht as (-> & _ & Hc); [|eassumption|done]. split_and!; [done..|].
  split; cbn; try done.
  - rewrite fmap_app. apply NoDup_app. split_and!; [done| |apply NoDup_singleton].
    by intros x Hx ->%list_elem_of_singleton.
  - eapply childOk_mono; [done|]. rewrite fmap_app. apply list_subseteq_app_l. done.
  - eapply childOk_mono; [done|]. rewrite fmap_app. apply list_subseteq_app_l. done.
  - eapply childOk_mono; [done|]. rewrite fmap_app. apply list_subseteq_app_l. done.
  - eapply childOk_mono; [done|]. rewrite fmap_app. apply list_subseteq_app_l. done.
Qed.

Lemma AddRulePeer_Ok p d d' :
  wf d → sql_AddRulePeer p d = Ok ((), d') →
  d' = setPeers (dbPeers d ++ [p]) d ∧ (∀ g, peGroup p = Some g → g ∈ obID <$> dbGroups d) ∧
  peerCheck p = true ∧ wf d'.
Proof.
  intros [] Ht. unfold sql_AddRulePeer in Ht. apply onTable_Ok in Ht as (t & Ht & ->). destruct (peerCheck p) eqn:Hp; [|done].
  eapply insert_guarded in Ht as (-> & [_ Hg] & Hc); [|eassumption|by intros []].
  split; [done|]. split; [|split; [done|]].
  - intros g Heq. rewrite Heq in Hg. apply elem_of_cons in Hg as [[=]|Hg].
    apply list_elem_of_fmap in Hg as (x & [= ->] & Hg). done.
  - split; cbn; try done. apply Forall_app. split; [done|]. by constructor.
Qed.

Lemma AddRulePeerMatch_Ok m d d' :
  wf d → sql_AddRulePeerMatch m d = Ok ((), d') → d' = setMatches (dbMatches d ++ [m]) d ∧ wf d'.
Proof.
  intros [] Ht. unfold sql_AddRulePeerMatch in Ht. apply onTable_Ok in Ht as (t & Ht & ->). unfold insertRow in Ht.
  destruct (decide (matchKey m ∈ matchKey <$> dbMatches d)) as [|Hni]; [done|].
  cbn in Ht. case_decide as Hp; [|done]. assert (t = dbMatches d ++ [m]) as -> by congruence.
  split; [done|]. split; cbn; try done.
  eapply (childOk_insert matchKey' _ _ m); [eassumption| |].
  - unfold insertRow. rewrite decide_False; [done|]. intros Hin. apply Hni.
    apply list_elem_of_fmap in Hin as (x & Heq & Hx). apply list_elem_of_fmap. exists x. split; [|done].
    unfold matchKey, matchKey' in *. congruence.
  - cbn. apply list_elem_of_fmap in Hp as (x & [= Er _] & Hx).
    rewrite Er. destruct wf_peers0 as [_ Hfk]. by apply (Hfk x).
Qed.

Lemma AddRuleServiceRef_Ok r d d' :
  wf d → sql_AddRuleServiceRef r d = Ok ((), d') →
  d' = setRefs (dbRefs d ++ [r]) d ∧ reService r ∈ obID <$> dbServices d ∧ wf d'.
Proof.
  intros [] Ht. unfold sql_AddRuleServiceRef in Ht. apply onTable_Ok in Ht as (t & Ht & ->).
  eapply insert_guarded in Ht as (-> & [_ Hs] & Hc); [|eassumption|by intros []].
  split; [done|]. split; [done|]. by split.
Qed.

Lemma AddRuleServiceEntry_Ok e d d' :
  wf d → sql_AddRuleServiceEntry e d = Ok ((), d') → d' = setRuleEntries (dbRuleEntries d ++ [e]) d ∧ wf d'.
Proof.
  intros [] Ht. unfold sql_AddRuleServiceEntry in Ht. apply onTable_Ok in Ht as (t & Ht & ->). unfold insertEntry in Ht. destruct (entryCheck e); [|done].
  eapply insert_guarded in Ht as (-> & _ & Hc); [|eassumption|done]. by split; [|split].
Qed.
End statements.

(** ** Loops of inserts *)

Section loops.
Context `{ul : UUIDLib, !UUIDLaws, pg : PgLib, !PgLaws}.

(** The tables after a loop whose step changes them by [g]. *)
Fixpoint iterDB {A} (g : nat → A → DB → DB) (i : nat) (l : list A) (d : DB) : DB :=
  match l with
  | [] => d
  | x :: l' => iterDB g (S i) l' (g i x d)
  end.

Lemma forEach_Ok {A} (f : nat → A → Tx ()) g (P : DB → Prop) (Q : A → Prop) :
  (∀ i x s s', P (seDB s) → f i x s = Ok ((), s') → seDB s' = g i x (seDB s) ∧ P (seDB s') ∧ Q x) →
  ∀ l i s s', P (seDB s) → forEach f i l s = Ok ((), s') →
    seDB s' = iterDB g i l (seDB s) ∧ P (seDB s') ∧ Forall Q l.
Proof.
  intros Hstep. induction l as [|x l IH]; intros i s s' HP Hf; cbn [forEach iterDB] in *.
  { injection Hf as <-. by split_and!. }
  apply tx_bind_Ok in Hf as ([] & s1 & H1 & H2). destruct (Hstep _ _ _ _ HP H1) as (E1 & HP1 & HQ).
  destruct (IH _ _ _ HP1 H2) as (E2 & HP2 & HQ2). rewrite <-E1. split_and!; [done..|]. by constructor.
Qed.

(** What a loop does to one table. *)
Lemma iterDB_field {A R} (get : DB → list R) (rows : nat → A → list R) g :
  (∀ i x d, get (g i x d) = get d ++ rows i x) →
  ∀ l i d, get (iterDB g i l d) = get d ++ concat (imap (λ j, rows (i + j)%nat) l).
Proof.
  intros Hg. induction l as [|x l IH]; intros i d; cbn [iterDB]; [by rewrite app_nil_r|].
  rewrite IH, Hg, <-(assoc_L (++)). cbn [imap concat]. rewrite Nat.add_0_r. do 2 f_equal.
  f_equal. apply imap_ext. intros j y _. cbn. by rewrite Nat.add_succ_r.
Qed.

Lemma iterDB_same {A B} (get : DB → B) (g : nat → A → DB → DB) :
  (∀ i x d, get (g i x d) = get d) → ∀ l i d, get (iterDB g i l d) = get d.
Proof. intros Hg. induction l as [|x l IH]; intros i d; cbn [iterDB]; [done|]. by rewrite IH, Hg. Qed.

(** Appending rows one by one. *)
Lemma iterDB_append {A R} (get : DB → list R) (set : list R → DB → DB) (row : nat → A → R) :
  (∀ t d, get (set t d) = t) → (∀ t t' d, set t (set t' d) = set t d) → (∀ d, set (get d) d = d) →
  ∀ l i d, iterDB (λ i x d, set (get d ++ [row i x]) d) i l d = set (get d ++ imap (λ j, row (i + j)%nat) l) d.
Proof.
  intros Hgs Hss Hsg. induction l as [|x l IH]; intros i d; cbn [iterDB]; [by rewrite app_nil_r, Hsg|].
  rewrite IH, Hgs, Hss, <-(assoc_L (++)). cbn [imap app]. rewrite Nat.add_0_r.
  rewrite (imap_ext _ ((λ j, row (i + j)%nat) ∘ S)); [done|]. intros j y _. cbn. by rewrite Nat.add_succ_r.
Qed.

(** The rows of one object. *)
Definition entryRowsOf (owner : UUID) (es : list ServiceEntry) : list entryRow :=
  imap (λ i row, MkEntryRow owner (Z.of_nat i) row.1 row.2.1 row.2.2) (flatEntries es).
Definition matchRowsOf (rule : UUID) (j : nat) (p : Peer) : list matchRow :=
  match peerKind p with
  | PeerWorkloads =>
      (λ key, MkMatchRow rule (Z.of_nat j) key (default [] (peerWorkloads p !! key))) <$> sortedKeys (peerWorkloads p)
  | _ => []
  end.
Definition scopeRowsOf (rs : Ruleset) : list scopeRow :=
  (λ key, MkScopeRow (rsID rs) key (default [] (rsScope rs !! key))) <$> sortedKeys (rsScope rs).

Definition putPeer (rule : UUID) (j : nat) (p : Peer) (d : DB) : DB :=
  setMatches (dbMatches d ++ matchRowsOf rule j p) (setPeers (dbPeers d ++ [peerRowOf rule j p]) d).
Definition putRule (rid : UUID) (i : nat) (r : Rule) (d : DB) : DB :=
  setRuleEntries (dbRuleEntries d ++ entryRowsOf (ruleID r) (ruleEntries r))
    (setRefs (dbRefs d ++ (MkRefRow (ruleID r) <$> ruleServiceIDs r))
      (iterDB (putPeer (ruleID r)) 0 (rulePeers r)
        (setRules (dbRules d ++ [ruleRowOf rid i r]) d))).
Definition putChildren (rs : Ruleset) (d : DB) : DB :=
  iterDB (putRule (rsID rs)) 0 (rsRules rs) (setScopes (dbScopes d ++ scopeRowsOf rs) d).

Lemma addEntries_service owner es s s' :
  wf (seDB s) → addEntries owner sql_AddServiceEntry es s = Ok ((), s') →
  seDB s' = setServiceEntries (dbServiceEntries (seDB s) ++ entryRowsOf owner es) (seDB s) ∧ wf (seDB s').
Proof.
  intros Hd Hf. apply (forEach_Ok _ (λ i row d, setServiceEntries (dbServiceEntries d ++
    [MkEntryRow owner (Z.of_nat i) row.1 row.2.1 row.2.2]) d) wf (λ _, True)) in Hf as (E & Hw & _); [| |exact Hd].
  - split; [|done]. rewrite E. apply (iterDB_append dbServiceEntries setServiceEntries); by intros [].
  - intros i x s1 s2 H1 H2%exec_Ok. apply AddServiceEntry_Ok in H2 as [? ?]; [|done]. by split_and!.
Qed.

Lemma addEntries_rule owner es s s' :
  wf (seDB s) → addEntries owner sql_AddRuleServiceEntry es s = Ok ((), s') →
  seDB s' = setRuleEntries (dbRuleEntries (seDB s) ++ entryRowsOf owner es) (seDB s) ∧ wf (seDB s').
Proof.
  intros Hd Hf. apply (forEach_Ok _ (λ i row d, setRuleEntries (dbRuleEntries d ++
    [MkEntryRow owner (Z.of_nat i) row.1 row.2.1 row.2.2]) d) wf (λ _, True)) in Hf as (E & Hw & _); [| |exact Hd].
  - split; [|done]. rewrite E. apply (iterDB_append dbRuleEntries setRuleEntries); by intros [].
  - intros i x s1 s2 H1 H2%exec_Ok. apply AddRuleServiceEntry_Ok in H2 as [? ?]; [|done]. by split_and!.
Qed.

Lemma addGroupCIDRs_Ok g s s' :
  wf (seDB s) → addGroupCIDRs g s = Ok ((), s') →
  seDB s' = setCIDRs (dbCIDRs (seDB s) ++ (MkCidrRow (agID g) <$> agCIDRs g)) (seDB s) ∧ wf (seDB s').
Proof.
  intros Hd Hf. apply (forEach_Ok _ (λ i c d, setCIDRs (dbCIDRs d ++ [MkCidrRow (agID g) c]) d) wf (λ _, True))
    in Hf as (E & Hw & _); [| |exact Hd].
  - split; [|done]. rewrite E, <-imap_const. apply (iterDB_append dbCIDRs setCIDRs); by intros [].
  - intros i x s1 s2 H1 H2%exec_Ok. apply AddAddressGroupCIDR_Ok in H2 as [? ?]; [|done]. by split_and!.
Qed.

Lemma addPeer_Ok rule j p s s' :
  wf (seDB s) → addPeer rule j p s = Ok ((), s') →
  seDB s' = putPeer rule j p (seDB s) ∧ wf (seDB s') ∧
  (peerKind p = PeerAddressGroup → peerAddressGroupID p ∈ obID <$> dbGroups (seDB s)) ∧
  peerCheck (peerRowOf rule j p) = true.
Proof.
  intros Hd Hf. unfold addPeer in Hf. apply tx_bind_Ok in Hf as ([] & s1 & H1%exec_Ok & H2).
  apply AddRulePeer_Ok in H1 as (E1 & Hg & Hck & Hw1); [|done].
  assert (peerKind p = PeerAddressGroup → peerAddressGroupID p ∈ obID <$> dbGroups (seDB s)) as Href.
  { intros Hk. apply Hg. cbn. by rewrite Hk. }
  unfold putPeer, matchRowsOf. destruct (peerKind p) eqn:Hk.
  2: { apply (forEach_Ok _ (λ i key d, setMatches (dbMatches d ++
         [MkMatchRow rule (Z.of_nat j) key (default [] (peerWorkloads p !! key))]) d) wf (λ _, True))
         in H2 as (E2 & Hw2 & _); [| |exact Hw1].
       - split_and!; [|done..]. rewrite E2, <-E1, <-imap_const.
         replace (dbMatches (seDB s)) with (dbMatches (seDB s1)) by by rewrite E1.
         apply (iterDB_append dbMatches setMatches); by intros [].
       - intros i x s2 s3 H3 H4%exec_Ok. apply AddRulePeerMatch_Ok in H4 as [? ?]; [|done]. by split_and!. }
  all: injection H2 as <-; split_and!; try done; rewrite app_nil_r, E1; by destruct (seDB s).
Qed.

(** What a rule's rows name exists. *)
Definition resolvesIn (services groups : list UUID) (r : Rule) : Prop :=
  Forall (λ id, id ∈ services) (ruleServiceIDs r) ∧
  Forall (λ p, peerKind p = PeerAddressGroup → peerAddressGroupID p ∈ groups) (rulePeers r).

Lemma putPeer_same {B} (get : DB → B) rule j p :
  (∀ t d, get (setMatches t d) = get d) → (∀ t d, get (setPeers t d) = get d) →
  ∀ d, get (putPeer rule j p d) = get d.
Proof. intros H1 H2 d. unfold putPeer. by rewrite H1, H2. Qed.

Lemma addRule_Ok rid i r s s' services groups :
  wf (seDB s) ∧ obID <$> dbServices (seDB s) = services ∧ obID <$> dbGroups (seDB s) = groups →
  addRule rid i r s = Ok ((), s') →
  seDB s' = putRule rid i r (seDB s) ∧
  (wf (seDB s') ∧ obID <$> dbServices (seDB s') = services ∧ obID <$> dbGroups (seDB s') = groups) ∧
  resolvesIn services groups r.
Proof.
  intros (Hd & Es & Eg) Hf. unfold addRule in Hf.
  apply tx_bind_Ok in Hf as ([] & s1 & H1%exec_Ok & Hf). apply AddRule_Ok in H1 as (E1 & _ & Hw1); [|done].
  apply tx_bind_Ok in Hf as ([] & s2 & H2 & Hf).
  apply (forEach_Ok _ (putPeer (ruleID r)) (λ d, wf d ∧ dbGroups d = dbGroups (seDB s1) ∧ dbServices d = dbServices (seDB s1))
    (λ p, peerKind p = PeerAddressGroup → peerAddressGroupID p ∈ groups)) in H2 as (E2 & (Hw2 & Hg2 & Hs2) & Hp); [| |done].
  2: { intros j p t t' (Hw & Hg & Hs) Ht. apply addPeer_Ok in Ht as (E & Hw' & Hr & _); [|done].
       rewrite E in *. split_and!; try done. intros Hk. specialize (Hr Hk). rewrite Hg, E1 in Hr. cbn in Hr. by rewrite <-Eg. }
  apply tx_bind_Ok in Hf as ([] & s3 & H3 & Hf).
  apply (forEach_Ok _ (λ _ sid d, setRefs (dbRefs d ++ [MkRefRow (ruleID r) sid]) d)
    (λ d, wf d ∧ dbServices d = dbServices (seDB s2)) (λ sid, sid ∈ services)) in H3 as (E3 & (Hw3 & Hs3) & Hss); [| |done].
  2: { intros j sid t t' (Hw & Hs) Ht%exec_Ok. apply AddRuleServiceRef_Ok in Ht as (E & Hin & Hw'); [|done].
       rewrite E in *. split_and!; try done. cbn in Hin. rewrite Hs, Hs2, E1 in Hin. cbn in Hin. by rewrite <-Es. }
  rewrite (iterDB_append dbRefs setRefs (λ _, MkRefRow (ruleID r))) in E3 by (by intros []).
  apply addEntries_rule in Hf as [E4 Hw4]; [|done].
  assert (seDB s' = putRule rid i r (seDB s)) as E.
  { rewrite E4, E3, E2, E1. unfold putRule.
    assert (∀ d, dbRefs (iterDB (putPeer (ruleID r)) 0 (rulePeers r) d) = dbRefs d ∧
                 dbRuleEntries (iterDB (putPeer (ruleID r)) 0 (rulePeers r) d) = dbRuleEntries d) as Hsame.
    { intros d. by split; apply iterDB_same. }
    destruct (Hsame (setRules (dbRules (seDB s) ++ [ruleRowOf rid i r]) (seDB s))) as [Hr He].
    cbn [dbRuleEntries setRefs]. rewrite Hr, He, <-imap_const. done. }
  split; [done|]. split; [|by split]. split; [done|].
  rewrite E. unfold putRule. cbn. rewrite !(iterDB_same (λ d, obID <$> dbServices d)), !(iterDB_same (λ d, obID <$> dbGroups d)) by done.
  done.
Qed.

Lemma addRulesetChildren_Ok rs s s' :
  wf (seDB s) → addRulesetChildren rs s = Ok ((), s') →
  seDB s' = putChildren rs (seDB s) ∧ wf (seDB s') ∧
  Forall (resolvesIn (obID <$> dbServices (seDB s)) (obID <$> dbGroups (seDB s))) (rsRules rs).
Proof.
  intros Hd Hf. unfold addRulesetChildren in Hf. apply tx_bind_Ok in Hf as ([] & s1 & H1 & Hf).
  apply (forEach_Ok _ (λ _ key d, setScopes (dbScopes d ++ [MkScopeRow (rsID rs) key (default [] (rsScope rs !! key))]) d)
    wf (λ _, True)) in H1 as (E1 & Hw1 & _); [| |done].
  2: { intros j key t t' Hw Ht%exec_Ok. apply AddRulesetScopeMatch_Ok in Ht as [E Hw']; [|done]. by split_and!. }
  rewrite (iterDB_append dbScopes setScopes (λ _ key, MkScopeRow (rsID rs) key (default [] (rsScope rs !! key))))
    in E1 by (by intros []).
  assert (seDB s1 = setScopes (dbScopes (seDB s) ++ scopeRowsOf rs) (seDB s)) as E1'
    by (unfold scopeRowsOf; by rewrite <-imap_const). clear E1. rename E1' into E1.
  set (services := obID <$> dbServices (seDB s)). set (groups := obID <$> dbGroups (seDB s)).
  set (P d := wf d ∧ obID <$> dbServices d = services ∧ obID <$> dbGroups d = groups).
  assert (P (seDB s1)) as HP1 by (split; [done|]; by rewrite E1).
  destruct (forEach_Ok (addRule (rsID rs)) (putRule (rsID rs)) P (resolvesIn services groups)
    (λ i r t t' Ht Hf', addRule_Ok _ i r t t' _ _ Ht Hf') _ _ _ _ HP1 Hf) as (E2 & (Hw2 & _) & Hr).
  rewrite E2, E1 in *. by split_and!.
Qed.
End loops.

(** ** Reading back what was written *)

Section written.
Context `{ul : UUIDLib, !UUIDLaws, pg : PgLib, !PgLaws}.

Lemma imap_ignore {A B} (f : A → B) (l : list A) : imap (λ _, f) l = f <$> l.
Proof. exact (imap_const f l). Qed.

Lemma concat_imap_bind {A B} (f : A → list B) (l : list A) : concat (imap (λ _, f) l) = l ≫= f.
Proof. rewrite imap_ignore. induction l as [|x l IH]; [done|]. cbn. by rewrite IH. Qed.

Lemma concat_imap_one {A B} (f : nat → A → B) (l : list A) : concat (imap (λ i x, [f i x]) l) = imap f l.
Proof. revert f. induction l as [|x l IH]; intros f; [done|]. cbn. f_equal. apply (IH (f ∘ S)). Qed.

(** Rows grouped by owners that differ. *)
Lemma ofOwner_bind {A R K} (key : R → UUID * K) (owner : A → UUID) (f : A → list R) (l : list A) :
  (∀ x r, r ∈ f x → (key r).1 = owner x) → NoDup (owner <$> l) →
  (∀ x, x ∈ l → ofOwner key (owner x) (l ≫= f) = f x) ∧
  (∀ o, o ∉ owner <$> l → ofOwner key o (l ≫= f) = []).
Proof.
  intros Ho Hnd. assert (∀ o, o ∉ owner <$> l → ofOwner key o (l ≫= f) = []) as Hnone.
  { intros o Hni. apply filter_nil_iff. intros r (x & Hr & Hx)%list_elem_of_bind Heq. apply Hni.
    rewrite <-Heq, (Ho x r Hr). by apply list_elem_of_fmap_2. }
  split; [|done]. clear Hnone. induction l as [|y l IH]; intros x Hx; [by apply elem_of_nil in Hx|].
  cbn [fmap list_fmap] in Hnd. apply NoDup_cons in Hnd as [Hy Hnd]. cbn [mbind list_bind].
  unfold ofOwner. rewrite filter_app. apply elem_of_cons in Hx as [->|Hx].
  - rewrite (filter_all _ (f y)) by (intros r Hr; by apply Ho).
    rewrite (proj2 (filter_nil_iff _ _)), app_nil_r; [done|].
    intros r (z & Hr & Hz)%list_elem_of_bind Heq. apply Hy. rewrite <-Heq, (Ho z r Hr). by apply list_elem_of_fmap_2.
  - rewrite (proj2 (filter_nil_iff _ (f y))); [by apply IH|].
    intros r Hr Heq. apply Hy. rewrite <-(Ho y r Hr), Heq. by apply list_elem_of_fmap_2.
Qed.

(** Rows numbered in order are sorted. *)
Lemma numbered_sorted {A R} (key : R → UUID * Z) (f : nat → A → R) o (l : list A) :
  (∀ i x, key (f i x) = (o, Z.of_nat i)) → StronglySorted (owned_le key Z.le) (imap f l).
Proof.
  intros Hk. assert (∀ n, StronglySorted (owned_le key Z.le) (imap (λ i, f (n + i)%nat) l)) as Hn; [|apply (Hn 0%nat)].
  induction l as [|x l IH]; intros n; cbn [imap]; constructor.
  - rewrite (imap_ext _ (λ i, f (S n + i)%nat)); [apply IH|]. intros i y _. cbn. by rewrite Nat.add_succ_r.
  - apply Forall_forall. intros r Hr. apply elem_of_lookup_imap_1 in Hr as (i & y & -> & _). unfold owned_le. cbn.
    rewrite !Hk. cbn. split; [done|]. intros _. lia.
Qed.

Definition keptPeer (p : Peer) : Peer :=
  match peerKind p with
  | PeerWorkloads => MkPeer PeerWorkloads (peerWorkloads p) uuid_Nil ""
  | PeerAddressGroup => MkPeer PeerAddressGroup ∅ (peerAddressGroupID p) ""
  | PeerCIDR => MkPeer PeerCIDR ∅ uuid_Nil (peerCIDR p)
  | k => MkPeer (PeerKind_of (PeerKind_number k)) ∅ uuid_Nil ""
  end.

(** Entries as they are stored: flattened, and grouped by protocol again. *)
Definition pg_keptEntries (es : list ServiceEntry) : list ServiceEntry := entriesFromRows (flatEntries es).

(** A rule as it is stored: services as a set, entries regrouped, instants rounded. *)
Definition pg_keptRule (r : Rule) : Rule :=
  MkRule (ruleID r) (Direction_of (Direction_number (ruleDirection r))) (ruleEnabled r) (ruleDescription r)
    (keptPeer <$> rulePeers r) (merge_sort uuid_le (ruleServiceIDs r)) (pg_keptEntries (ruleEntries r))
    (pgTime (ruleCreatedAt r)) (pgTime (ruleUpdatedAt r)) (ruleVersion r) [].

Lemma flatOf_entryRowsOf owner es : flatOf <$> entryRowsOf owner es = flatEntries es.
Proof.
  unfold entryRowsOf. rewrite fmap_imap. rewrite (imap_ext _ (λ _ x, x)); [by rewrite (imap_ignore id), list_fmap_id|].
  intros i [p [a b]] _. done.
Qed.

(** The tables after the children of a ruleset were added. *)
Definition peerRowsOf (r : Rule) : list peerRow := imap (peerRowOf (ruleID r)) (rulePeers r).
Definition ruleMatchRowsOf (r : Rule) : list matchRow := concat (imap (matchRowsOf (ruleID r)) (rulePeers r)).
Definition refRowsOf (r : Rule) : list refRow := MkRefRow (ruleID r) <$> ruleServiceIDs r.

Lemma putChildren_tables rs d :
  let d' := putChildren rs d in
  dbServices d' = dbServices d ∧ dbServiceEntries d' = dbServiceEntries d ∧ dbGroups d' = dbGroups d ∧
  dbCIDRs d' = dbCIDRs d ∧ dbRulesets d' = dbRulesets d ∧
  dbScopes d' = dbScopes d ++ scopeRowsOf rs ∧
  dbRules d' = dbRules d ++ imap (ruleRowOf (rsID rs)) (rsRules rs) ∧
  dbPeers d' = dbPeers d ++ (rsRules rs ≫= peerRowsOf) ∧
  dbMatches d' = dbMatches d ++ (rsRules rs ≫= ruleMatchRowsOf) ∧
  dbRefs d' = dbRefs d ++ (rsRules rs ≫= refRowsOf) ∧
  dbRuleEntries d' = dbRuleEntries d ++ (rsRules rs ≫= λ r, entryRowsOf (ruleID r) (ruleEntries r)).
Proof.
  assert (∀ rule l e, dbPeers (iterDB (putPeer rule) 0 l e) = dbPeers e ++ imap (peerRowOf rule) l ∧
    dbMatches (iterDB (putPeer rule) 0 l e) = dbMatches e ++ concat (imap (matchRowsOf rule) l)) as Hpeers.
  { intros rule l e. split; [|by rewrite (iterDB_field dbMatches (matchRowsOf rule))].
    rewrite (iterDB_field dbPeers (λ i x, [peerRowOf rule i x])) by done. by rewrite concat_imap_one. }
  intros d'. subst d'. unfold putChildren.
  split_and!; try (by rewrite (iterDB_same _ (putRule (rsID rs))); [|intros i r e; unfold putRule; cbn; rewrite iterDB_same]).
  - rewrite (iterDB_field dbRules (λ i r, [ruleRowOf (rsID rs) i r])).
    + by rewrite concat_imap_one.
    + intros i r e. unfold putRule. cbn. by rewrite iterDB_same.
  - rewrite (iterDB_field dbPeers (λ _, peerRowsOf)); [by rewrite concat_imap_bind|].
    intros i r e. unfold putRule. cbn. by rewrite (proj1 (Hpeers _ _ _)).
  - rewrite (iterDB_field dbMatches (λ _, ruleMatchRowsOf)); [by rewrite concat_imap_bind|].
    intros i r e. unfold putRule. cbn. by rewrite (proj2 (Hpeers _ _ _)).
  - rewrite (iterDB_field dbRefs (λ _, refRowsOf)); [by rewrite concat_imap_bind|]. done.
  - rewrite (iterDB_field dbRuleEntries (λ _ r, entryRowsOf (ruleID r) (ruleEntries r))); [|done].
    by rewrite (concat_imap_bind (λ r, entryRowsOf (ruleID r) (ruleEntries r))).
Qed.

Lemma matchRowsOf_key rule j p m : m ∈ matchRowsOf rule j p → maRule m = rule ∧ maPeer m = Z.of_nat j.
Proof. unfold matchRowsOf. destruct (peerKind p); try by intros ?%elem_of_nil. by intros (k & -> & _)%list_elem_of_fmap. Qed.

Lemma matchRows_of_peer rule n peers j p :
  peers !! j = Some p →
  filter (λ m, maPeer m = Z.of_nat (n + j)) (concat (imap (λ i, matchRowsOf rule (n + i)%nat) peers)) =
  matchRowsOf rule (n + j) p.
Proof.
  revert n j. induction peers as [|q peers IH]; intros n j; [done|]. cbn [imap concat].
  rewrite filter_app. rewrite (imap_ext _ (λ i, matchRowsOf rule (S n + i)%nat))
    by (intros i y _; cbn; by rewrite Nat.add_succ_r).
  destruct j as [|j]; cbn [lookup list_lookup].
  - intros [= ->]. rewrite filter_all by (intros m Hm; by apply matchRowsOf_key in Hm as []).
    rewrite (proj2 (filter_nil_iff _ _)), app_nil_r; [done|].
    intros m Hm Heq. apply list_elem_of_In, in_concat in Hm as (l & Hl & Hm%list_elem_of_In).
    apply list_elem_of_In, elem_of_lookup_imap_1 in Hl as (i & y & -> & _). apply matchRowsOf_key in Hm as [_ Hm]. lia.
  - intros Hj. rewrite (proj2 (filter_nil_iff _ (matchRowsOf rule (n + 0) q))).
    + cbn [app]. rewrite Nat.add_succ_r. by apply (IH (S n) j).
    + intros m [_ Hm]%matchRowsOf_key Heq. lia.
Qed.

(** The ids of the rules are new and differ. *)
Lemma putChildren_fresh rs d :
  wf (putChildren rs d) →
  NoDup (ruleID <$> rsRules rs) ∧ ∀ id, id ∈ ruleID <$> rsRules rs → id ∉ rlID <$> dbRules d.
Proof.
  intros Hd. destruct (putChildren_tables rs d) as (_ & _ & _ & _ & _ & _ & Er & _).
  pose proof (wf_rules _ Hd) as Hnd. rewrite Er, fmap_app, fmap_imap in Hnd.
  rewrite (imap_ext _ (λ _, ruleID)) in Hnd by done. rewrite imap_ignore in Hnd.
  apply NoDup_app in Hnd as (_ & Hdis & Hnd). split; [done|]. intros id Hid Hin. by apply (Hdis id).
Qed.

Lemma peerAt_written rs d i r j p :
  wf d → wf (putChildren rs d) → rsRules rs !! i = Some r → rulePeers r !! j = Some p →
  peerAt (putChildren rs d) (peerRowOf (ruleID r) j p) = keptPeer p.
Proof.
  intros Hd Hd' Hi Hj. destruct (putChildren_fresh rs d Hd') as [Hnd Hfresh].
  destruct (putChildren_tables rs d) as (_ & _ & _ & _ & _ & _ & _ & Ep & Em & _).
  assert (matchesAt (putChildren rs d) (ruleID r) (Z.of_nat j) = matchRowsOf (ruleID r) j p) as Hm.
  { unfold matchesAt. rewrite Em, filter_app, (proj2 (filter_nil_iff _ (dbMatches d))).
    - cbn [app]. pose proof (matchRows_of_peer (ruleID r) 0 (rulePeers r) j p Hj) as Hrow. cbn [Nat.add] in Hrow. rewrite <-Hrow.
      destruct (ofOwner_bind matchKey' ruleID ruleMatchRowsOf (rsRules rs)) as [Hof _]; [|done|].
      { intros x m Hm. apply list_elem_of_In, in_concat in Hm as (l & Hl & Hm%list_elem_of_In).
        apply list_elem_of_In, elem_of_lookup_imap_1 in Hl as (k & y & -> & _). by apply matchRowsOf_key in Hm as [? _]. }
      specialize (Hof r (list_elem_of_lookup_2 _ _ _ Hi)). unfold ofOwner in Hof. cbn in Hof.
      change (concat _) with (ruleMatchRowsOf r). rewrite <-Hof, list_filter_filter. apply list_filter_iff. intros m. tauto.
    - intros m Hin [Hr _]. apply (Hfresh (ruleID r)); [by apply list_elem_of_fmap_2, list_elem_of_lookup_2 with i|].
      rewrite <-Hr. by apply (wf_matches _ Hd). }
  assert (peerCheck (peerRowOf (ruleID r) j p) = true) as Hck.
  { pose proof (wf_peer_check _ Hd') as Hc. rewrite Ep in Hc. rewrite Forall_forall in Hc. apply Hc.
    apply elem_of_app. right. apply list_elem_of_bind. exists r. split; [|by eapply list_elem_of_lookup_2].
    apply elem_of_lookup_imap. eauto. }
  unfold peerAt. change (peRule (peerRowOf (ruleID r) j p)) with (ruleID r).
  change (peOrdinal (peerRowOf (ruleID r) j p)) with (Z.of_nat j). rewrite Hm.
  unfold peerOf, keptPeer, matchRowsOf. cbn [peKind peGroup peCidr peRule peOrdinal peerRowOf].
  rewrite lookup_singleton_eq. cbn [from_option]. unfold Datatypes.id. rewrite lookup_singleton_eq. cbn [from_option].
  destruct (peerKind p) as [| | | |n] eqn:Hk; cbn [PeerKind_number].
  - unfold peerCheck in Hck. cbn in Hck. rewrite Hk in Hck. done.
  - unfold PeerKind_of. cbn. f_equal. by apply selectorOf_written.
  - done.
  - done.
  - unfold peerCheck in Hck. cbn in Hck. rewrite Hk in Hck. apply bool_decide_eq_true in Hck. cbn in Hck. by subst.
Qed.

Lemma ruleAt_written rs d i r :
  wf d → wf (putChildren rs d) → rsRules rs !! i = Some r →
  ruleAt (putChildren rs d) (ruleRowOf (rsID rs) i r) = pg_keptRule r.
Proof.
  intros Hd Hd' Hi. destruct (putChildren_fresh rs d Hd') as [Hnd Hfresh].
  destruct (putChildren_tables rs d) as (_ & _ & _ & _ & _ & _ & _ & Ep & _ & Er & Ee).
  assert (r ∈ rsRules rs) as Hr by by eapply list_elem_of_lookup_2.
  assert (ruleID r ∉ rlID <$> dbRules d) as Hni by by apply Hfresh, list_elem_of_fmap_2.
  unfold ruleAt, pg_keptRule. change (rlID (ruleRowOf (rsID rs) i r)) with (ruleID r).
  assert (readOwner peerKey Z.le (ruleID r) (dbPeers (putChildren rs d)) = peerRowsOf r) as ->.
  { apply (readOwner_ext peerKey Z.le); [apply (wf_peers _ Hd')| |by apply (numbered_sorted _ _ (ruleID r))].
    rewrite Ep. unfold ofOwner. rewrite filter_app. fold (ofOwner peerKey (ruleID r) (dbPeers d)).
    rewrite (childOk_none _ _ _ _ (wf_peers _ Hd) Hni). cbn [app].
    destruct (ofOwner_bind peerKey ruleID peerRowsOf (rsRules rs)) as [Hof _]; [|done|].
    - intros x m Hm. by apply elem_of_lookup_imap_1 in Hm as (k & y & -> & _).
    - unfold ofOwner in Hof. by rewrite Hof. }
  assert (readOwner refKey uuid_le (ruleID r) (dbRefs (putChildren rs d)) = MkRefRow (ruleID r) <$> merge_sort uuid_le (ruleServiceIDs r)) as ->.
  { apply (readOwner_ext refKey uuid_le); [apply (wf_refs _ Hd')| |].
    - rewrite Er. unfold ofOwner. rewrite filter_app. fold (ofOwner refKey (ruleID r) (dbRefs d)).
      rewrite (childOk_none _ _ _ _ (wf_refs _ Hd) Hni). cbn [app].
      destruct (ofOwner_bind refKey ruleID refRowsOf (rsRules rs)) as [Hof _]; [|done|].
      + intros x m Hm. by apply list_elem_of_fmap in Hm as (y & -> & _).
      + unfold ofOwner in Hof. rewrite Hof by done. unfold refRowsOf. by rewrite merge_sort_Permutation.
    - assert (StronglySorted uuid_le (merge_sort uuid_le (ruleServiceIDs r))) as Hs by (apply StronglySorted_merge_sort; apply _).
      induction Hs as [|x l Hs IH Hx]; [constructor|]. cbn. constructor; [done|]. apply Forall_fmap.
      eapply Forall_impl; [exact Hx|]. cbn. intros y Hy. unfold owned_le. cbn. by split. }
  assert (readOwner entryKey Z.le (ruleID r) (dbRuleEntries (putChildren rs d)) = entryRowsOf (ruleID r) (ruleEntries r)) as ->.
  { apply (readOwner_ext entryKey Z.le); [apply (wf_rule_entries _ Hd')| |by apply (numbered_sorted _ _ (ruleID r))].
    rewrite Ee. unfold ofOwner. rewrite filter_app. fold (ofOwner entryKey (ruleID r) (dbRuleEntries d)).
    rewrite (childOk_none _ _ _ _ (wf_rule_entries _ Hd) Hni). cbn [app].
    destruct (ofOwner_bind entryKey ruleID (λ r, entryRowsOf (ruleID r) (ruleEntries r)) (rsRules rs)) as [Hof _]; [|done|].
    - intros x m Hm. by apply elem_of_lookup_imap_1 in Hm as (k & y & -> & _).
    - unfold ofOwner in Hof. by rewrite Hof. }
  rewrite flatOf_entryRowsOf. unfold ruleRowOf at 1. cbn. f_equal.
  - unfold peerRowsOf. rewrite fmap_imap. apply list_eq. intros j. rewrite list_lookup_imap, list_lookup_fmap.
    destruct (rulePeers r !! j) as [p|] eqn:Hj; [|done]. cbn. f_equal. by eapply peerAt_written.
  - by rewrite <-list_fmap_compose, list_fmap_id.
Qed.
End written.

(** ** What a write leaves alone *)

Section frame.
Context `{ul : UUIDLib, !UUIDLaws, pg : PgLib, !PgLaws}.

(** Two states of the tables that have the same rows of one rule. *)
Definition sameRule (d d' : DB) (id : UUID) : Prop :=
  ofOwner peerKey id (dbPeers d') = ofOwner peerKey id (dbPeers d) ∧
  ofOwner matchKey' id (dbMatches d') = ofOwner matchKey' id (dbMatches d) ∧
  ofOwner refKey id (dbRefs d') = ofOwner refKey id (dbRefs d) ∧
  ofOwner entryKey id (dbRuleEntries d') = ofOwner entryKey id (dbRuleEntries d).

Lemma ruleAt_frame d d' r : wf d' → sameRule d d' (rlID r) → ruleAt d' r = ruleAt d r.
Proof.
  intros Hd' (Ep & Em & Er & Ee). unfold ruleAt.
  rewrite (readOwner_same peerKey Z.le _ (dbPeers d') (dbPeers d)); [|apply (wf_peers _ Hd')|by rewrite Ep].
  rewrite (readOwner_same refKey uuid_le _ (dbRefs d') (dbRefs d)); [|apply (wf_refs _ Hd')|by rewrite Er].
  rewrite (readOwner_same entryKey Z.le _ (dbRuleEntries d') (dbRuleEntries d)); [|apply (wf_rule_entries _ Hd')|by rewrite Ee].
  f_equal. apply list_fmap_ext. intros i p Hp%list_elem_of_lookup_2. rewrite readOwner_perm in Hp.
  apply list_elem_of_filter in Hp as [Hown _]. cbn in Hown. unfold peerAt.
  assert (matchesAt d' (peRule p) (peOrdinal p) = matchesAt d (peRule p) (peOrdinal p)) as ->; [|done].
  assert (∀ e, matchesAt e (rlID r) (peOrdinal p) = filter (λ m, maPeer m = peOrdinal p) (ofOwner matchKey' (rlID r) (dbMatches e))) as Hm.
  { intros e. unfold matchesAt, ofOwner. rewrite list_filter_filter. apply list_filter_iff. intros m. cbn. tauto. }
  by rewrite Hown, !Hm, Em.
Qed.

Lemma rulesetAt_frame d d' row :
  wf d' →
  filter (λ r, scRuleset r = rwID row) (dbScopes d') = filter (λ r, scRuleset r = rwID row) (dbScopes d) →
  ofOwner ruleKey (rwID row) (dbRules d') = ofOwner ruleKey (rwID row) (dbRules d) →
  (∀ r, r ∈ dbRules d → rlRuleset r = rwID row → sameRule d d' (rlID r)) →
  rulesetAt d' row = rulesetAt d row.
Proof.
  intros Hd' Es Er Hsame. unfold rulesetAt, scopeAt. rewrite Es.
  rewrite (readOwner_same ruleKey Z.le _ (dbRules d') (dbRules d)); [|apply (wf_ruleset_rules _ Hd')|by rewrite Er].
  f_equal. apply list_fmap_ext. intros i r Hr%list_elem_of_lookup_2. rewrite readOwner_perm in Hr.
  apply list_elem_of_filter in Hr as [Hown Hr]. apply ruleAt_frame; [done|]. by apply Hsame.
Qed.

Lemma ofOwner_app {R K} (key : R → UUID * K) o (t t' : list R) : ofOwner key o (t ++ t') = ofOwner key o t ++ ofOwner key o t'.
Proof. apply filter_app. Qed.

Lemma ofOwner_other {R K} (key : R → UUID * K) o (t : list R) :
  (∀ r, r ∈ t → (key r).1 ≠ o) → ofOwner key o t = [].
Proof. intros Ht. apply filter_nil_iff. intros r Hr. by apply Ht. Qed.

(** Adding the children of one ruleset leaves the others as they are. *)
Lemma rulesetAt_putChildren_other rs d row :
  wf d → wf (putChildren rs d) → rwID row ≠ rsID rs → rulesetAt (putChildren rs d) row = rulesetAt d row.
Proof.
  intros Hd Hd' Hne. destruct (putChildren_fresh rs d Hd') as [Hnd Hfresh].
  destruct (putChildren_tables rs d) as (_ & _ & _ & _ & _ & Es & Er & Ep & Em & Ef & Ee).
  apply rulesetAt_frame; [done|..].
  - rewrite Es, filter_app, (proj2 (filter_nil_iff _ (scopeRowsOf rs))), app_nil_r; [done|].
    intros x (k & -> & _)%list_elem_of_fmap Heq. cbn in Heq. congruence.
  - rewrite Er, ofOwner_app, (ofOwner_other _ _ (imap _ _)), app_nil_r; [done|].
    intros x (i & y & -> & _)%elem_of_lookup_imap_1. cbn. congruence.
  - intros r Hr _. assert (rlID r ∉ ruleID <$> rsRules rs) as Hni.
    { intros Hin. apply (Hfresh _ Hin). by apply list_elem_of_fmap_2. }
    assert (∀ R K (key : R → UUID * K) (f : Rule → list R), (∀ x m, m ∈ f x → (key m).1 = ruleID x) →
      ofOwner key (rlID r) (rsRules rs ≫= f) = []) as Hnone.
    { intros R K key f Hf. by apply (ofOwner_bind key ruleID f (rsRules rs)). }
    split_and!.
    + rewrite Ep, ofOwner_app, Hnone, app_nil_r; [done|].
      intros x m Hm. by apply elem_of_lookup_imap_1 in Hm as (k & y & -> & _).
    + rewrite Em, ofOwner_app, Hnone, app_nil_r; [done|].
      intros x m Hm. apply list_elem_of_In, in_concat in Hm as (l & Hl & Hm%list_elem_of_In).
      apply list_elem_of_In, elem_of_lookup_imap_1 in Hl as (k & y & -> & _). by apply matchRowsOf_key in Hm as [? _].
    + rewrite Ef, ofOwner_app, Hnone, app_nil_r; [done|].
      intros x m Hm. by apply list_elem_of_fmap in Hm as (y & -> & _).
    + rewrite Ee, ofOwner_app, Hnone, app_nil_r; [done|].
      intros x m Hm. by apply elem_of_lookup_imap_1 in Hm as (k & y & -> & _).
Qed.

(** A ruleset whose header had no children reads as it was written. *)
Lemma rulesetAt_putChildren rs d row :
  wf d → wf (putChildren rs d) → rwID row = rsID rs →
  filter (λ r, scRuleset r = rsID rs) (dbScopes d) = [] → ofOwner ruleKey (rsID rs) (dbRules d) = [] →
  rulesetAt (putChildren rs d) row =
  MkRuleset (rsID rs) (rwName row) (rwDescription row) (rwEnabled row) (rsScope rs) (pg_keptRule <$> rsRules rs)
    (rwCreatedAt row) (rwUpdatedAt row) (rwVersion row) [].
Proof.
  intros Hd Hd' Hid Hsc Hru.
  destruct (putChildren_tables rs d) as (_ & _ & _ & _ & _ & Es & Er & _).
  unfold rulesetAt. rewrite Hid. f_equal.
  - unfold scopeAt. rewrite Es, filter_app, Hsc. cbn [app]. rewrite filter_all; [by apply selectorOf_written|].
    by intros x (k & -> & _)%list_elem_of_fmap.
  - rewrite (readOwner_ext ruleKey Z.le _ _ (imap (ruleRowOf (rsID rs)) (rsRules rs))).
    + rewrite fmap_imap. apply list_eq. intros i. rewrite list_lookup_imap, list_lookup_fmap.
      destruct (rsRules rs !! i) as [r|] eqn:Hi; [|done]. cbn. f_equal. by apply ruleAt_written.
    + apply (wf_ruleset_rules _ Hd').
    + rewrite Er, ofOwner_app, Hru. cbn [app]. unfold ofOwner. rewrite filter_all; [done|].
      by intros x (i & y & -> & _)%elem_of_lookup_imap_1.
    + by apply (numbered_sorted _ _ (rsID rs)).
Qed.
End frame.
