(* ===== verification/PolicyStoreForm.v ===== *)
(** * The form in which rules and entries are stored

    [entriesFromRows] after [flatEntries]: entries are put together by protocol, in
    the order the protocols are first seen ([grouped] is the reference).  Storing
    twice is storing once, and what passed admission passes it again. *)

From S2P Require Import Prelude GoStd Netip Wire Uuid Identity Policy Validate Authoring Postgres PolicyStore PolicyStoreFacts.
Local Open Scope Z_scope.

Abbreviation flat := (Z * (option Z * option Z))%type.

Definition pushNew (l : list Z) (n : Z) : list Z := if decide (n ∈ l) then l else l ++ [n].
(** The protocols of the rows, in the order they are first seen. *)
Definition seenProtocols (rows : list flat) : list Z := foldl pushNew [] (fst <$> rows).

Definition addPorts (ports : list PortRange) (row : option Z * option Z) : list PortRange :=
  match row with (Some a, Some b) => ports ++ [MkPortRange (u32 a) (u32 b)] | _ => [] end.
(** The ports of one protocol. *)
Definition portsOf (n : Z) (rows : list flat) : list PortRange :=
  foldl addPorts [] (snd <$> filter (λ row, row.1 = n) rows).

Definition grouped (rows : list flat) : list ServiceEntry :=
  (λ n, MkServiceEntry (Protocol_of n) (portsOf n rows)) <$> seenProtocols rows.

Lemma pushNew_spec l n : NoDup l → NoDup (pushNew l n) ∧ ∀ m, m ∈ pushNew l n ↔ m ∈ l ∨ m = n.
Proof.
  intros Hnd. unfold pushNew. case_decide as Hin; [split; [done|naive_solver]|]. split.
  - apply NoDup_app. split_and!; [done| |apply NoDup_singleton]. by intros x Hx ->%list_elem_of_singleton.
  - intros m. by rewrite elem_of_app, list_elem_of_singleton.
Qed.

Lemma seenProtocols_snoc rows row : seenProtocols (rows ++ [row]) = pushNew (seenProtocols rows) row.1.
Proof. unfold seenProtocols. by rewrite fmap_app, foldl_app. Qed.

Lemma seenProtocols_spec rows : NoDup (seenProtocols rows) ∧ ∀ n, n ∈ seenProtocols rows ↔ n ∈ rows.*1.
Proof.
  induction rows as [|row rows [Hnd Hin]] using rev_ind; [split; [constructor|done]|].
  rewrite seenProtocols_snoc. destruct (pushNew_spec _ row.1 Hnd) as [Hnd' Hin']. split; [done|].
  intros n. rewrite Hin', Hin, fmap_app, elem_of_app. cbn. by rewrite list_elem_of_singleton.
Qed.

Lemma portsOf_snoc n rows row :
  portsOf n (rows ++ [row]) = if decide (row.1 = n) then addPorts (portsOf n rows) row.2 else portsOf n rows.
Proof.
  unfold portsOf. rewrite filter_app, filter_cons, filter_nil. case_decide; [|by rewrite app_nil_r].
  by rewrite fmap_app, foldl_app.
Qed.

Lemma portsOf_new n rows : n ∉ rows.*1 → portsOf n rows = [].
Proof.
  intros Hni. unfold portsOf. rewrite (proj2 (filter_nil_iff _ _)); [done|].
  intros row Hr Heq. apply Hni. rewrite <-Heq. by apply list_elem_of_fmap_2.
Qed.

(** The index finds the entry of a protocol. *)
Definition indexes (index : gmap Z nat) (l : list Z) : Prop := ∀ n i, index !! n = Some i ↔ l !! i = Some n.

Lemma grouped_same rows row i :
  seenProtocols rows !! i = Some row.1 →
  grouped (rows ++ [row]) = alter (λ e, MkServiceEntry (seProtocol e) (addPorts (sePorts e) row.2)) i (grouped rows).
Proof.
  intros Hi. destruct (seenProtocols_spec rows) as [Hnd _]. unfold grouped. rewrite seenProtocols_snoc.
  unfold pushNew. rewrite decide_True by by eapply list_elem_of_lookup_2. apply list_eq. intros j.
  destruct (decide (j = i)) as [->|Hj].
  - rewrite list_lookup_alter_eq, !list_lookup_fmap, Hi. cbn. by rewrite portsOf_snoc, decide_True.
  - rewrite list_lookup_alter_ne, !list_lookup_fmap by done.
    destruct (seenProtocols rows !! j) as [n|] eqn:Ej; [|done]. cbn. rewrite portsOf_snoc, decide_False; [done|].
    intros <-. apply Hj. by eapply NoDup_lookup.
Qed.

Lemma grouped_new rows row :
  row.1 ∉ seenProtocols rows →
  grouped (rows ++ [row]) = grouped rows ++ [MkServiceEntry (Protocol_of row.1) (addPorts [] row.2)].
Proof.
  intros Hni. pose proof (proj2 (seenProtocols_spec rows)) as Hin. unfold grouped. rewrite seenProtocols_snoc. unfold pushNew.
  rewrite decide_False, fmap_app by done. f_equal.
  - apply list_fmap_ext. intros j n Hj%list_elem_of_lookup_2. rewrite portsOf_snoc, decide_False; [done|]. by intros <-.
  - cbn. rewrite portsOf_snoc, decide_True by done. rewrite portsOf_new; [done|]. by rewrite <-Hin.
Qed.

Lemma addFlat_add out index row i :
  index !! row.1 = Some i →
  addFlat (out, index) row = (alter (λ e, MkServiceEntry (seProtocol e) (addPorts (sePorts e) row.2)) i out, index).
Proof. intros Hi. destruct row as [n [[a|] [b|]]]; cbn in *; by rewrite Hi. Qed.

Lemma addFlat_new out index row :
  index !! row.1 = None →
  addFlat (out, index) row =
  (out ++ [MkServiceEntry (Protocol_of row.1) (addPorts [] row.2)], <[row.1 := length out]> index).
Proof.
  intros Hi. assert (∀ f e, alter f (length out) (out ++ [e]) = out ++ [f e]) as Halter.
  { intros f e. by rewrite alter_app_r_alt, Nat.sub_diag by done. }
  destruct row as [n [[a|] [b|]]]; cbn in *; rewrite Hi; by rewrite Halter.
Qed.

(** The loop computes the reference. *)
Lemma foldl_addFlat rows :
  ∃ index, foldl addFlat ([], ∅) rows = (grouped rows, index) ∧ indexes index (seenProtocols rows).
Proof.
  induction rows as [|row rows (index & Hf & Hix)] using rev_ind.
  { exists ∅. split; [done|]. by intros n i. }
  rewrite foldl_app, Hf. cbn [foldl]. rewrite seenProtocols_snoc. unfold pushNew.
  destruct (index !! row.1) as [i|] eqn:Hi.
  - exists index. rewrite (addFlat_add _ _ _ i) by done. apply Hix in Hi. rewrite (grouped_same _ _ i) by done.
    split; [done|]. rewrite decide_True; [done|]. by eapply list_elem_of_lookup_2.
  - assert (row.1 ∉ seenProtocols rows) as Hni.
    { intros [i Hl]%list_elem_of_lookup_1. apply Hix in Hl. congruence. }
    exists (<[row.1 := length (grouped rows)]> index). rewrite addFlat_new, grouped_new by done. split; [done|].
    rewrite decide_False by done. intros n i. unfold grouped. rewrite length_fmap.
    destruct (decide (row.1 = n)) as [<-|Hne].
    + rewrite lookup_insert_eq. split.
      * intros [= <-]. by rewrite lookup_app_r, Nat.sub_diag.
      * intros [Hl|[Hle Hl]]%lookup_app_Some; [by apply list_elem_of_lookup_2 in Hl|].
        apply list_lookup_singleton_Some in Hl as [? _]. f_equal. lia.
    + rewrite lookup_insert_ne by done. rewrite (Hix n i). split.
      * intros Hl. by apply lookup_app_l_Some.
      * intros [Hl|[Hle Hl]]%lookup_app_Some; [done|]. by apply list_lookup_singleton_Some in Hl as [_ ?].
Qed.

Lemma entriesFromRows_grouped rows : entriesFromRows rows = grouped rows.
Proof. unfold entriesFromRows. by destruct (foldl_addFlat rows) as (index & -> & _). Qed.

(** ** Storing twice is storing once *)

Lemma Protocol_number_of n : Protocol_number (Protocol_of n) = n.
Proof. unfold Protocol_of. repeat case_decide; subst; done. Qed.

Lemma i32_u32 a : i32 (u32 (i32 a)) = i32 a.
Proof.
  unfold i32, u32. set (b := (a + 2 ^ 31) `mod` 2 ^ 32).
  assert (0 ≤ b < 2 ^ 32) as Hb by (apply Z.mod_pos_bound; lia).
  rewrite Zplus_mod_idemp_l. replace (b - 2 ^ 31 + 2 ^ 31) with b by lia. by rewrite (Z.mod_small b).
Qed.
Lemma u32_i32 a : u32 (i32 (u32 a)) = u32 a.
Proof.
  unfold i32, u32. rewrite Zminus_mod_idemp_l. replace (a `mod` 2 ^ 32 + 2 ^ 31 - 2 ^ 31) with (a `mod` 2 ^ 32) by lia.
  by rewrite Zmod_mod.
Qed.

(** Ports as the rows hold them. *)
Definition storedPort (p : PortRange) : PortRange := MkPortRange (u32 (i32 (prStart p))) (u32 (i32 (prEnd p))).

Lemma entryRows_ports e : foldl addPorts [] (entryRows e) = storedPort <$> sePorts e.
Proof.
  assert (∀ l acc, foldl addPorts acc ((λ p, (Some (i32 (prStart p)), Some (i32 (prEnd p)))) <$> l) = acc ++ (storedPort <$> l)) as Hl.
  { induction l as [|p l IH]; intros acc; cbn [fmap list_fmap foldl]; [by rewrite app_nil_r|]. rewrite IH. cbn [addPorts].
    by rewrite <-(assoc_L (++)). }
  unfold entryRows. destruct (sePorts e) as [|p l] eqn:He; [done|]. by rewrite <-He, Hl.
Qed.

Lemma entryRows_some e : entryRows e ≠ [].
Proof. unfold entryRows. by destruct (sePorts e). Qed.

(** Rows of one new protocol. *)
Lemma pushNew_run l n ks : ks ≠ [] → n ∉ l → Forall (eq n) ks → foldl pushNew l ks = l ++ [n].
Proof.
  intros Hne Hni Hall. destruct Hall as [|k ks <- Hall]; [done|]. cbn [foldl]. unfold pushNew at 2.
  rewrite decide_False by done. clear Hne. induction Hall as [|k ks <- Hall IH]; [done|]. cbn [foldl].
  unfold pushNew at 2. rewrite decide_True; [done|]. set_solver.
Qed.

Definition protocolOf (e : ServiceEntry) : Z := Protocol_number (seProtocol e).

Lemma flatEntries_snoc es e : flatEntries (es ++ [e]) = flatEntries es ++ (pair (protocolOf e) <$> entryRows e).
Proof. unfold flatEntries. rewrite bind_app. cbn. by rewrite app_nil_r. Qed.

Lemma flatEntries_protocols es n : n ∈ (flatEntries es).*1 → n ∈ protocolOf <$> es.
Proof.
  intros (row & -> & (e & (x & -> & _)%list_elem_of_fmap & He)%list_elem_of_bind)%list_elem_of_fmap.
  cbn. by apply (list_elem_of_fmap_2 protocolOf).
Qed.

(** Entries with one entry a protocol are kept in order, with their ports. *)
Lemma grouped_distinct es :
  NoDup (protocolOf <$> es) →
  seenProtocols (flatEntries es) = protocolOf <$> es ∧
  ∀ e, e ∈ es → portsOf (protocolOf e) (flatEntries es) = storedPort <$> sePorts e.
Proof.
  induction es as [|e es IH] using rev_ind; [split; [done|]; by intros e ?%elem_of_nil|].
  rewrite fmap_app. intros (Hnd & Hdis & _)%NoDup_app. destruct (IH Hnd) as [Hseen Hports].
  assert (protocolOf e ∉ protocolOf <$> es) as Hni by (intros Hin; apply (Hdis _ Hin); left).
  rewrite flatEntries_snoc. split.
  - unfold seenProtocols in *. rewrite fmap_app, foldl_app, Hseen. apply pushNew_run; [|done|].
    + pose proof (entryRows_some e). by destruct (entryRows e).
    + apply Forall_fmap, Forall_fmap, Forall_true. done.
  - unfold portsOf in *. intros x [Hx| ->%list_elem_of_singleton]%elem_of_app.
    + rewrite filter_app, (proj2 (filter_nil_iff _ (pair _ <$> _))), app_nil_r; [by apply Hports|].
      intros row (y & -> & _)%list_elem_of_fmap Heq. cbn in Heq. apply Hni. rewrite Heq. by apply list_elem_of_fmap_2.
    + rewrite filter_app, (proj2 (filter_nil_iff _ (flatEntries es))), filter_all.
      * cbn [app]. rewrite <-list_fmap_compose, list_fmap_id. apply entryRows_ports.
      * by intros row (y & -> & _)%list_elem_of_fmap.
      * intros row Hr Heq. apply Hni, flatEntries_protocols. rewrite <-Heq. by apply list_elem_of_fmap_2.
Qed.

Lemma elem_of_portsOf n rows p :
  p ∈ portsOf n rows → ∃ a b, (n, (Some a, Some b)) ∈ rows ∧ p = MkPortRange (u32 a) (u32 b).
Proof.
  induction rows as [|row rows IH] using rev_ind; [by intros ?%elem_of_nil|].
  rewrite portsOf_snoc. case_decide as Hn; [|intros (a & b & ? & ?)%IH; set_solver].
  destruct row as [m [[a|] [b|]]]; cbn in *; subst m; try by intros ?%elem_of_nil.
  intros [(a' & b' & ? & ?)%IH| ->%list_elem_of_singleton]%elem_of_app; [set_solver|].
  exists a, b. split; [|done]. apply elem_of_app. right. by left.
Qed.

Section form.
Context `{ul : UUIDLib, !UUIDLaws, pg : PgLib, !PgLaws}.

Lemma keptEntries_again es : pg_keptEntries (pg_keptEntries es) = pg_keptEntries es.
Proof.
  unfold pg_keptEntries. rewrite !entriesFromRows_grouped. set (rows := flatEntries es).
  assert (protocolOf <$> grouped rows = seenProtocols rows) as Hp.
  { unfold grouped. rewrite <-list_fmap_compose. rewrite <-(list_fmap_id (seenProtocols rows)) at 2.
    apply list_fmap_ext. intros i n _. apply Protocol_number_of. }
  destruct (grouped_distinct (grouped rows)) as [Hseen Hports]; [rewrite Hp; apply seenProtocols_spec|].
  unfold grouped at 1. rewrite Hseen, <-list_fmap_compose.
  rewrite <-(list_fmap_id (grouped rows)) at 2. apply list_fmap_ext. intros i e He%list_elem_of_lookup_2.
  cbn. rewrite Hports by done. apply list_elem_of_fmap in He as (n & -> & _). unfold protocolOf. cbn.
  rewrite Protocol_number_of. f_equal. rewrite <-(list_fmap_id (portsOf n rows)) at 2. apply list_fmap_ext.
  intros j p (a & b & _ & ->)%list_elem_of_lookup_2%elem_of_portsOf. unfold storedPort. cbn. by rewrite !u32_i32.
Qed.

Lemma keptPeer_again p : keptPeer (keptPeer p) = keptPeer p.
Proof.
  unfold keptPeer at 2. destruct (peerKind p) as [| | | |n] eqn:Hk; unfold keptPeer; cbn; rewrite ?Hk; try done.
  unfold PeerKind_of. by repeat (case_decide; [by subst|]); cbn; rewrite ?decide_False.
Qed.

Lemma Direction_of_number_of n : Direction_number (Direction_of n) = n.
Proof. unfold Direction_of. repeat case_decide; subst; done. Qed.

Lemma keptRule_again r : pg_keptRule (pg_keptRule r) = pg_keptRule r.
Proof.
  unfold pg_keptRule. cbn. rewrite Direction_of_number_of, keptEntries_again, !pgTime_idemp, <-list_fmap_compose. f_equal.
  - apply list_fmap_ext. intros i p _. apply keptPeer_again.
  - apply (sorted_unique uuid_le); [apply StronglySorted_merge_sort; apply _..|apply merge_sort_Permutation|].
    intros x y _ _. apply (anti_symm uuid_le).
Qed.

(** ** What is stored is as it was admitted *)

Lemma u32_i32_id n : 0 ≤ n < 2 ^ 32 → u32 (i32 n) = n.
Proof.
  intros Hn. unfold i32, u32. rewrite Zminus_mod_idemp_l. replace (n + 2 ^ 31 - 2 ^ 31) with n by lia.
  by apply Z.mod_small.
Qed.

(** Every port of a stored entry is a port of an entry of the protocol. *)
Lemma stored_port es n p :
  Forall typedEntry es → p ∈ portsOf n (flatEntries es) → ∃ e, e ∈ es ∧ protocolOf e = n ∧ p ∈ sePorts e.
Proof.
  intros Ht (a & b & Hin & ->)%elem_of_portsOf.
  apply list_elem_of_bind in Hin as (e & Hrow & He). apply list_elem_of_fmap in Hrow as (x & Heq & Hx).
  injection Heq as -> <-. exists e. split_and!; [done..|]. rewrite Forall_forall in Ht. specialize (Ht e He).
  unfold typedEntry in Ht. unfold entryRows in Hx. destruct (sePorts e) as [|q l] eqn:El; [by apply list_elem_of_singleton in Hx|].
  rewrite <-El in Hx |- *. apply list_elem_of_fmap in Hx as (q' & [= -> ->] & Hq).
  rewrite Forall_forall in Ht. rewrite <-El in Ht. destruct (Ht q' Hq). rewrite !u32_i32_id by done. by destruct q'.
Qed.

Lemma stored_protocol es n : n ∈ seenProtocols (flatEntries es) → ∃ e, e ∈ es ∧ protocolOf e = n.
Proof.
  intros Hn%seenProtocols_spec%flatEntries_protocols. apply list_elem_of_fmap in Hn as (e & -> & He). eauto.
Qed.

Lemma keptEntries_typed es : Forall typedEntry (pg_keptEntries es).
Proof.
  unfold pg_keptEntries. rewrite entriesFromRows_grouped. apply Forall_fmap, Forall_forall. intros n _.
  unfold typedEntry. cbn. apply Forall_forall. intros p (a & b & _ & ->)%elem_of_portsOf. cbn. unfold u32.
  by split; apply Z.mod_pos_bound.
Qed.

Lemma keptEntries_ok es : Forall typedEntry es → Forall entry_ok es → Forall entry_ok (pg_keptEntries es).
Proof.
  intros Ht Hok. unfold pg_keptEntries. rewrite entriesFromRows_grouped. apply Forall_fmap, Forall_forall.
  rewrite Forall_forall in Hok. intros n Hn. cbn. split; cbn.
  - destruct (stored_protocol _ _ Hn) as (e & He & <-). destruct (Hok e He) as [Hp _].
    unfold protocolOf. destruct Hp as [->|[->|[Hicmp _]]]; [by left|by right; left|right; right].
    rewrite Hicmp. split; [done|].
    destruct (portsOf _ _) as [|p l] eqn:Hl; [done|]. exfalso.
    assert (p ∈ portsOf (Protocol_number PROTOCOL_ICMP) (flatEntries es)) as Hin by (rewrite Hl; left).
    apply stored_port in Hin as (e' & He' & Hpe & Hpp); [|done]. destruct (Hok e' He') as [Hp' _].
    unfold protocolOf in Hpe. destruct Hp' as [E|[E|[E Hnil]]]; rewrite ?E in Hpe; try done.
    rewrite Hnil in Hpp. by apply elem_of_nil in Hpp.
  - apply Forall_forall. intros p (e & He & _ & Hp)%stored_port; [|done]. destruct (Hok e He) as [_ Hports].
    rewrite Forall_forall in Hports. by apply Hports.
Qed.

Lemma keptEntries_some es : es ≠ [] → pg_keptEntries es ≠ [].
Proof.
  intros Hne. unfold pg_keptEntries. rewrite entriesFromRows_grouped. unfold grouped.
  destruct es as [|e es]; [done|]. assert (protocolOf e ∈ seenProtocols (flatEntries (e :: es))) as Hin.
  { apply seenProtocols_spec. unfold flatEntries. cbn [mbind list_bind]. rewrite fmap_app. apply elem_of_app. left.
    pose proof (entryRows_some e). destruct (entryRows e); [done|]. by left. }
  destruct (seenProtocols _); [by apply elem_of_nil in Hin|done].
Qed.

Lemma keptPeer_ok refs p : peer_ok refs p → keptPeer p = p.
Proof. unfold peer_ok, keptPeer. destruct p as [[] w g c]; cbn; intros H'; naive_solver. Qed.

Lemma keptRule_ok refs r :
  rule_ok refs r → Forall typedEntry (ruleEntries r) →
  rule_ok refs (pg_keptRule r) ∧ Forall typedEntry (ruleEntries (pg_keptRule r)) ∧ rulePeers (pg_keptRule r) = rulePeers r.
Proof.
  intros [? ? ? Hp Hs Hsv He] Ht. assert (keptPeer <$> rulePeers r = rulePeers r) as Hpeers.
  { rewrite <-(list_fmap_id (rulePeers r)) at 2. apply list_fmap_ext. intros i p Hi%list_elem_of_lookup_2.
    rewrite Forall_forall in Hp. by eapply keptPeer_ok, Hp. }
  split_and!; [|apply keptEntries_typed|done]. split; cbn; rewrite ?Hpeers; try done.
  - by rewrite rok_direction.
  - destruct Hs as [Hs|Hs]; [left|right; by apply keptEntries_some]. intros Heq.
    pose proof (merge_sort_Permutation uuid_le (ruleServiceIDs r)) as Hperm. rewrite Heq in Hperm.
    by apply Permutation_nil_l in Hperm.
  - by rewrite merge_sort_Permutation.
  - by apply keptEntries_ok.
Qed.
End form.
