(* ===== verification/PolicyStoreLaws.v ===== *)
(** * The laws of the store of the authored model

    Each operation of [PolicyStore.v] against the interface of [Authoring.v]: what
    it does to the content of the tables, and that it keeps the schema. *)

From S2P Require Import Prelude GoStd Netip Wire Uuid Identity Policy Validate Authoring AuthoringFacts Postgres PolicyStore PolicyStoreFacts PolicyStoreForm.
Local Open Scope Z_scope.

Section laws.
Context `{ul : UUIDLib, !UUIDLaws, pg : PgLib, !PgLaws}.

(** What the tables show through the interface. *)
#[global] Instance pg_view : StoreView PgState := {
  valid s := wf (psDB s);
  content s := dbContent (psDB s);
  keptRule := pg_keptRule;
  keptEntries := pg_keptEntries;
}.

(** ** Transactions *)

(** A write keeps the schema and ends as the interface says. *)
Lemma tx_outcome {A} sv (m : Tx A) d r d' (E : A → Prop) :
  wf d → tx sv m d = (r, d') → (∀ f a s, m (MkSession f d) = Ok (a, s) → seDB s = d' → wf d' ∧ E a) →
  wf d' ∧ outcome r (dbContent d) (dbContent d') E.
Proof.
  intros Hd Htx HE. assert (∀ e, (Err e, d) = (r, d') → wf d' ∧ outcome r (dbContent d) (dbContent d') E) as Hrefused.
  { intros e [= <- <-]. split; [done|]. by eapply outcome_refused. }
  unfold tx in Htx. destruct (svBegins sv); [|by eapply Hrefused].
  destruct (m (MkSession (svFault sv) d)) as [[a s]|e] eqn:Em; [|by eapply Hrefused].
  destruct (svCommit sv); [| |]; try (by eapply Hrefused); injection Htx as <- <-;
    destruct (HE _ _ _ Em eq_refl) as [Hw Ha]; (split; [done|]).
  - by eapply outcome_done.
  - by eapply outcome_lost.
Qed.

(** ** Content by its tables *)

Lemma services_same d d' :
  dbServices d' = dbServices d → dbServiceEntries d' = dbServiceEntries d →
  cServices (dbContent d') = cServices (dbContent d).
Proof. intros E1 E2. cbn. unfold serviceAt. by rewrite E1, E2. Qed.

Lemma groups_same d d' :
  dbGroups d' = dbGroups d → dbCIDRs d' = dbCIDRs d → cGroups (dbContent d') = cGroups (dbContent d).
Proof. intros E1 E2. cbn. unfold groupAt. by rewrite E1, E2. Qed.

Lemma rulesets_same d d' :
  dbRulesets d' = dbRulesets d → dbScopes d' = dbScopes d → dbRules d' = dbRules d → dbPeers d' = dbPeers d →
  dbMatches d' = dbMatches d → dbRefs d' = dbRefs d → dbRuleEntries d' = dbRuleEntries d →
  cRulesets (dbContent d') = cRulesets (dbContent d).
Proof.
  intros E1 E2 E3 E4 E5 E6 E7. cbn. unfold rulesetAt, scopeAt, ruleAt, peerAt, matchesAt.
  by rewrite E1, E2, E3, E4, E5, E6, E7.
Qed.

Lemma content_eq (c c' : Content) :
  cServices c = cServices c' → cGroups c = cGroups c' → cRulesets c = cRulesets c' → c = c'.
Proof. destruct c, c'. cbn. congruence. Qed.

(** ** Rulesets *)

(** The children of a ruleset are gone. *)
Definition cleared (id : UUID) (d : DB) : DB :=
  dropRules (rulesOf id d) (setScopes (filter (λ s, scRuleset s ≠ id) (dbScopes d)) d).

Lemma elem_of_rulesOf id d x : x ∈ rulesOf id d ↔ ∃ r, r ∈ dbRules d ∧ rlRuleset r = id ∧ rlID r = x.
Proof. unfold rulesOf. rewrite list_elem_of_fmap. setoid_rewrite list_elem_of_filter. naive_solver. Qed.

Lemma rule_unique d r r' : wf d → r ∈ dbRules d → r' ∈ dbRules d → rlID r = rlID r' → r = r'.
Proof.
  intros Hd Hr Hr' Heq. apply (list_elem_of_lookup_1 (dbRules d)) in Hr as [i Hi].
  apply (list_elem_of_lookup_1 (dbRules d)) in Hr' as [j Hj].
  assert (i = j) as ->; [|congruence]. eapply (NoDup_lookup _ _ _ (rlID r) (wf_rules _ Hd)).
  - by rewrite list_lookup_fmap, Hi.
  - by rewrite list_lookup_fmap, Hj, Heq.
Qed.

Lemma wf_cleared id d t :
  wf d → NoDup (rwID <$> t) → (∀ x, x ∈ rwID <$> dbRulesets d → x ≠ id → x ∈ rwID <$> t) →
  wf (cleared id (setRulesets t d)).
Proof.
  intros Hd Ht Hin. assert (∀ x, x ∈ rlID <$> dbRules d → x ∉ rulesOf id d →
    x ∈ rlID <$> filter (λ r, rlID r ∉ rulesOf id d) (dbRules d)) as Hkeep.
  { intros x (r & -> & Hr)%list_elem_of_fmap Hni. apply list_elem_of_fmap_2, list_elem_of_filter. by split. }
  destruct Hd. split; cbn; try done.
  - by apply NoDup_fmap_filter.
  - eapply childOk_filter; [done|]. intros r _ Hne. cbn in *. intros Hx. by apply Hin.
  - eapply childOk_filter; [done|]. intros r Hr Hni Hx. cbn in *. apply Hin; [done|].
    intros Heq. apply Hni. apply elem_of_rulesOf. eauto.
  - eapply childOk_filter; [done|]. intros r Hr Hni Hx. by apply Hkeep.
  - eapply childOk_filter; [done|]. intros r Hr Hni Hx. by apply Hkeep.
  - eapply childOk_filter; [done|]. intros r Hr Hni Hx. by apply Hkeep.
  - eapply childOk_filter; [done|]. intros r Hr Hni Hx. by apply Hkeep.
  - apply Forall_forall. intros p [_ Hp]%list_elem_of_filter. rewrite Forall_forall in wf_peer_check. by apply wf_peer_check.
Qed.

Lemma cleared_empty id d :
  filter (λ r, scRuleset r = id) (dbScopes (cleared id d)) = [] ∧ ofOwner ruleKey id (dbRules (cleared id d)) = [].
Proof.
  split; apply filter_nil_iff; cbn.
  - by intros s [Hne _]%list_elem_of_filter.
  - intros r [Hni Hr]%list_elem_of_filter Heq. apply Hni, elem_of_rulesOf. eauto.
Qed.

Lemma ofOwner_filter {R K} (key : R → UUID * K) o (P : R → Prop) `{∀ x, Decision (P x)} t :
  (∀ r, r ∈ t → (key r).1 = o → P r) → ofOwner key o (filter P t) = ofOwner key o t.
Proof.
  unfold ofOwner. induction t as [|r t IH]; intros HP; [done|]. rewrite (filter_cons P).
  assert (∀ x, x ∈ t → (key x).1 = o → P x) as HP' by (intros x Hx; apply HP; by right).
  destruct (decide (P r)) as [Hr|Hr]; rewrite !filter_cons, (IH HP'); [done|].
  rewrite decide_False; [done|]. intros Heq. by apply Hr, HP; [left|].
Qed.

(** Clearing one ruleset leaves the others as they are. *)
Lemma rulesetAt_cleared_other id d t row :
  wf d → wf (cleared id (setRulesets t d)) → rwID row ≠ id →
  rulesetAt (cleared id (setRulesets t d)) row = rulesetAt d row.
Proof.
  intros Hd Hd' Hne. apply rulesetAt_frame; [done|..].
  - cbn. rewrite list_filter_filter. apply list_filter_iff. naive_solver.
  - apply (ofOwner_filter ruleKey _ (λ r, rlID r ∉ rulesOf id d)). intros r Hr Heq (r' & Hr' & Hid & Hrl)%elem_of_rulesOf. cbn in *.
    rewrite (rule_unique d r' r) in Hid by done. congruence.
  - intros r Hr Hrs. assert (rlID r ∉ rulesOf id d) as Hni.
    { intros (r' & Hr' & Hid & Hrl)%elem_of_rulesOf. rewrite (rule_unique d r' r) in Hid by done. congruence. }
    split_and!.
    + apply (ofOwner_filter peerKey _ (λ p, peRule p ∉ rulesOf id d)). intros x _ Heq. cbn in Heq. by rewrite Heq.
    + apply (ofOwner_filter matchKey' _ (λ m, maRule m ∉ rulesOf id d)). intros x _ Heq. cbn in Heq. by rewrite Heq.
    + apply (ofOwner_filter refKey _ (λ x, reRule x ∉ rulesOf id d)). intros x _ Heq. cbn in Heq. by rewrite Heq.
    + apply (ofOwner_filter entryKey _ (λ e, enOwner e ∉ rulesOf id d)). intros x _ Heq. cbn in Heq. by rewrite Heq.
Qed.

Lemma CreateRuleset_stmt id name desc en created d d' :
  wf d → sql_CreateRuleset id name desc en created d = Ok ((), d') →
  let row := MkRulesetRow id name desc en (pgTime created) (pgTime created) 1 in
  d' = setRulesets (dbRulesets d ++ [row]) d ∧ (id ∉ rwID <$> dbRulesets d) ∧ wf d'.
Proof.
  intros Hd Ht. unfold sql_CreateRuleset in Ht. apply onTable_Ok in Ht as (t & Ht & ->).
  case_decide as Hni; [done|]. assert (t = dbRulesets d ++ [MkRulesetRow id name desc en (pgTime created) (pgTime created) 1]) as -> by congruence.
  split_and!; [done|tauto|]. destruct Hd. split; cbn; try done.
  - rewrite fmap_app. apply NoDup_app. split_and!; [done| |apply NoDup_singleton].
    intros x Hx ->%list_elem_of_singleton. tauto.
  - eapply childOk_mono; [done|]. rewrite fmap_app. by apply list_subseteq_app_l.
  - eapply childOk_mono; [done|]. rewrite fmap_app. by apply list_subseteq_app_l.
Qed.

Lemma expected_names expect v : expectedIs (expected expect) v → names expect v.
Proof. unfold expected, names. case_decide; [by left|]. cbn. by right. Qed.

Lemma UpdateRuleset_stmt id name desc en updated expect d v d' :
  wf d → sql_UpdateRuleset id name desc en updated (expected expect) d = Ok (Some v, d') →
  ∃ r, r ∈ dbRulesets d ∧ rwID r = id ∧ names expect (rwVersion r) ∧ v = rwVersion r + 1 ∧
    let row := MkRulesetRow id name desc en (rwCreatedAt r) (pgTime updated) v in
    ∃ t, d' = setRulesets t d ∧ row ∈ t ∧ rwID <$> t = rwID <$> dbRulesets d ∧
      ∀ x, rwID x ≠ id → x ∈ t ↔ x ∈ dbRulesets d.
Proof.
  intros Hd Hu. unfold sql_UpdateRuleset in Hu.
  destruct (list_find _ (dbRulesets d)) as [[i r]|] eqn:Hf; [|done].
  repeat (case_decide; [done|]). injection Hu as <- <-.
  apply list_find_Some in Hf as (Hi & [Hid Hex] & _). exists r.
  split_and!; [by eapply list_elem_of_lookup_2|done|by apply expected_names|done|].
  eexists. split; [done|]. assert (i < length (dbRulesets d))%nat as Hlt by by eapply lookup_lt_Some.
  split_and!.
  - by apply list_elem_of_insert.
  - rewrite list_fmap_insert. cbn. apply list_insert_id. by rewrite list_lookup_fmap, Hi, <-Hid.
  - intros x Hx. split.
    + intros Hin. apply list_elem_of_lookup_1 in Hin as [j Hj].
      apply list_lookup_insert_Some in Hj as [(-> & <- & _)|[_ Hj]]; [done|]. by eapply list_elem_of_lookup_2.
    + intros Hin. apply list_elem_of_lookup_1 in Hin as [j Hj]. apply list_elem_of_lookup_2 with j.
      rewrite list_lookup_insert_ne; [done|]. intros <-. congruence.
Qed.

Lemma rulesets_unique d r r' : wf d → r ∈ dbRulesets d → r' ∈ dbRulesets d → rwID r = rwID r' → r = r'.
Proof.
  intros Hd Hr Hr' Heq. apply (list_elem_of_lookup_1 (dbRulesets d)) in Hr as [i Hi].
  apply (list_elem_of_lookup_1 (dbRulesets d)) in Hr' as [j Hj].
  assert (i = j) as ->; [|congruence]. eapply (NoDup_lookup _ _ _ (rwID r) (wf_rulesets _ Hd)).
  - by rewrite list_lookup_fmap, Hi.
  - by rewrite list_lookup_fmap, Hj, Heq.
Qed.

(** ** One object of a table written, the others as they were *)

Section keyed_tables.
Context {R A : Type} (kid : R → UUID) (key : A → UUID) (f f' : R → A) (t t' : list R) (id : UUID).
Context (Hf : ∀ r, key (f r) = kid r) (Hf' : ∀ r, key (f' r) = kid r).
Context (Hnd : NoDup (kid <$> t)) (Hnd' : NoDup (kid <$> t')).

Lemma keyed_at (g : R → A) (u : list R) k x :
  (∀ r, key (g r) = kid r) → NoDup (kid <$> u) →
  keyed key (g <$> u) !! k = Some x ↔ ∃ r, r ∈ u ∧ kid r = k ∧ x = g r.
Proof.
  intros Hg Hu. rewrite keyed_lookup.
  - rewrite list_elem_of_fmap. naive_solver.
  - rewrite <-list_fmap_compose. by erewrite list_fmap_ext; [exact Hu|intros i r _; apply Hg].
Qed.

Context (Hsame : ∀ r, kid r ≠ id → r ∈ t' ↔ r ∈ t) (Hframe : ∀ r, kid r ≠ id → f' r = f r).

Lemma keyed_insert row :
  row ∈ t' → kid row = id → keyed key (f' <$> t') = <[id := f' row]> (keyed key (f <$> t)).
Proof.
  intros Hrow Hid. apply map_eq. intros k. apply option_eq. intros x. rewrite keyed_at by done.
  destruct (decide (id = k)) as [<-|Hk].
  - rewrite lookup_insert_eq. split; [|intros [= <-]; eauto]. intros (r & Hr & Hrk & ->). do 2 f_equal.
    apply (list_elem_of_lookup_1 t') in Hrow as [i Hi]. apply (list_elem_of_lookup_1 t') in Hr as [j Hj].
    assert (i = j) as ->; [|congruence]. eapply (NoDup_lookup _ _ _ id Hnd').
    + by rewrite list_lookup_fmap, Hi, <-Hid.
    + by rewrite list_lookup_fmap, Hj, <-Hrk.
  - rewrite lookup_insert_ne, keyed_at by done.
    split; intros (r & Hr & <- & ->); exists r; rewrite Hframe by done; by rewrite ?Hsame in * by done.
Qed.

Lemma keyed_delete : id ∉ kid <$> t' → keyed key (f' <$> t') = delete id (keyed key (f <$> t)).
Proof.
  intros Hni. apply map_eq. intros k. apply option_eq. intros x. rewrite keyed_at by done.
  destruct (decide (id = k)) as [<-|Hk].
  - rewrite lookup_delete_eq. split; [|done]. intros (r & Hr & <- & _). exfalso. apply Hni. by apply list_elem_of_fmap_2.
  - rewrite lookup_delete_ne, keyed_at by done.
    split; intros (r & Hr & <- & ->); exists r; rewrite Hframe by done; by rewrite ?Hsame in * by done.
Qed.
End keyed_tables.

(** ** Rulesets written *)

Lemma rulesetAt_id d r : rsID (rulesetAt d r) = rwID r.
Proof. done. Qed.

(** The header of [rs] is in the table, without children; the children are added. *)
Lemma children_written rs d d1 row s s' :
  wf d → wf d1 → seDB s = d1 → addRulesetChildren rs s = Ok ((), s') →
  row ∈ dbRulesets d1 → rwID row = rsID rs → rwName row = rsName rs → rwDescription row = rsDescription rs →
  rwEnabled row = rsEnabled rs →
  (∀ r, rwID r ≠ rsID rs → r ∈ dbRulesets d1 ↔ r ∈ dbRulesets d) →
  (∀ r, rwID r ≠ rsID rs → rulesetAt d1 r = rulesetAt d r) →
  dbServices d1 = dbServices d → dbServiceEntries d1 = dbServiceEntries d → dbGroups d1 = dbGroups d → dbCIDRs d1 = dbCIDRs d →
  filter (λ r, scRuleset r = rsID rs) (dbScopes d1) = [] → ofOwner ruleKey (rsID rs) (dbRules d1) = [] →
  wf (seDB s') ∧ ∃ x', rulesetAs (St := PgState) rs (rwVersion row) x' ∧ storable (dbContent d) rs ∧
    dbContent (seDB s') = setRuleset x' (dbContent d).
Proof.
  intros Hd Hd1 Hs Hadd Hrow Hid Hname Hdesc Hen Hsame Hframe E1 E2 E3 E4 Hsc Hru.
  apply addRulesetChildren_Ok in Hadd as (E & Hw & Hres); [|by rewrite Hs]. rewrite Hs in E, Hres. split; [done|].
  rewrite E in Hw |- *. pose proof (rulesetAt_putChildren rs d1 row Hd1 Hw Hid Hsc Hru) as Hx.
  destruct (putChildren_tables rs d1) as (F1 & F2 & F3 & F4 & F5 & _).
  exists (rulesetAt (putChildren rs d1) row). split_and!.
  - rewrite Hx. unfold rulesetAs. cbn. by rewrite Hname, Hdesc, Hen.
  - split; [by apply putChildren_fresh in Hw as []|]. eapply Forall_impl; [exact Hres|]. intros r [Hs' Hg'].
    split; (eapply Forall_impl; [eassumption|]); cbn.
    + intros i Hi. apply elem_of_dom. rewrite E1 in Hi. apply list_elem_of_fmap in Hi as (o & -> & Ho).
      exists (serviceAt d o). apply content_service; [done|]. eauto.
    + intros p Hp Hk. apply Hp in Hk. apply elem_of_dom. rewrite E3 in Hk. apply list_elem_of_fmap in Hk as (o & -> & Ho).
      exists (groupAt d o). apply content_group; [done|]. eauto.
  - apply content_eq.
    + apply services_same; congruence.
    + apply groups_same; congruence.
    + unfold setRuleset. cbn [cRulesets]. rewrite rulesetAt_id, Hid. cbn.
      apply (keyed_insert rwID rsID (rulesetAt d) (rulesetAt (putChildren rs d1))); rewrite ?F5; try done.
      * apply (wf_rulesets _ Hd).
      * apply (wf_rulesets _ Hd1).
      * intros r Hne. rewrite rulesetAt_putChildren_other by done. by apply Hframe.
Qed.

Lemma CreateRuleset_run rs f d s' :
  wf d →
  (exec (onUnique ErrDuplicateName)
     (sql_CreateRuleset (rsID rs) (rsName rs) (rsDescription rs) (rsEnabled rs) (rsCreatedAt rs));;
   addRulesetChildren rs) (MkSession f d) = Ok ((), s') →
  wf (seDB s') ∧ ∃ x', rulesetAs (St := PgState) rs 1 x' ∧ storable (dbContent d) rs ∧
    cRulesets (dbContent d) !! rsID rs = None ∧ dbContent (seDB s') = setRuleset x' (dbContent d).
Proof.
  intros Hd Hr. apply tx_bind_Ok in Hr as ([] & s1 & H1%exec_Ok & H2). cbn [seDB] in H1.
  apply CreateRuleset_stmt in H1 as (E1 & Hni & Hw1); [|done].
  assert (cRulesets (dbContent d) !! rsID rs = None) as Hnone.
  { apply eq_None_not_Some. intros [x (r & Hr & Hid & _)%content_ruleset]; [|done]. apply Hni. rewrite <-Hid.
    by apply list_elem_of_fmap_2. }
  set (row := MkRulesetRow (rsID rs) (rsName rs) (rsDescription rs) (rsEnabled rs) (pgTime (rsCreatedAt rs))
    (pgTime (rsCreatedAt rs)) 1) in *.
  destruct (children_written rs d (seDB s1) row s1 s') as (Hw & x' & Hx & Hst & Hc); rewrite ?E1; try done.
  - by rewrite <-E1.
  - cbn. apply elem_of_app. right. by left.
  - intros r Hne. cbn. rewrite elem_of_app, list_elem_of_singleton. split; [|by left]. by intros [?| ->].
  - apply filter_nil_iff. cbn. intros x Hx Heq. apply Hni. rewrite <-Heq. by apply (wf_scopes _ Hd).
  - apply (childOk_none _ _ _ _ (wf_ruleset_rules _ Hd) Hni).
  - split; [done|]. by exists x'.
Qed.

Lemma UpdateRuleset_run rs expect f d v s' :
  wf d →
  (v ← exec (onUnique ErrDuplicateName)
         (sql_UpdateRuleset (rsID rs) (rsName rs) (rsDescription rs) (rsEnabled rs) (rsUpdatedAt rs) (expected expect));
   match v with
   | None => row ← exec failure (sql_GetRuleset (rsID rs)); fails (versionMismatch ErrRulesetUnknown (rwVersion <$> row))
   | Some v => exec failure (sql_DeleteRulesetScopeMatches (rsID rs));; exec failure (sql_DeleteRules (rsID rs));;
               addRulesetChildren rs;; mret v
   end) (MkSession f d) = Ok (v, s') →
  wf (seDB s') ∧ ∃ old x', rulesetAs (St := PgState) rs v x' ∧ storable (dbContent d) rs ∧
    cRulesets (dbContent d) !! rsID rs = Some old ∧ names expect (rsVersion old) ∧ v = rsVersion old + 1 ∧
    dbContent (seDB s') = setRuleset x' (dbContent d).
Proof.
  intros Hd Hr. apply tx_bind_Ok in Hr as (ov & s1 & H1%exec_Ok & H2). cbn [seDB] in H1.
  destruct ov as [v'|]; [|apply tx_bind_Ok in H2 as (? & ? & _ & H2); done].
  apply tx_bind_Ok in H2 as ([] & s2 & Hdel%exec_Ok & H2). injection Hdel as E2.
  apply tx_bind_Ok in H2 as ([] & s3 & Hdel%exec_Ok & H2). injection Hdel as E3.
  apply tx_bind_Ok in H2 as ([] & s4 & Hadd & [= -> ->]).
  apply UpdateRuleset_stmt in H1 as (old & Hold & Hid & Hnames & -> & t & E1 & Hrow & Hids & Hsame); [|done].
  assert (seDB s3 = cleared (rsID rs) (setRulesets t d)) as E by by rewrite <-E3, <-E2, E1.
  assert (wf (cleared (rsID rs) (setRulesets t d))) as Hw1.
  { apply wf_cleared; [done|rewrite Hids; apply (wf_rulesets _ Hd)|]. by rewrite Hids. }
  destruct (cleared_empty (rsID rs) (setRulesets t d)) as [Hsc Hru].
  eapply (children_written rs d (seDB s3) _ s3 s') in Hadd as (Hw & x' & Hx & Hst & Hc); rewrite ?E; try done.
  - split; [done|]. exists (rulesetAt d old), x'. split_and!; try done. apply content_ruleset; eauto.
  - intros r Hne. by apply rulesetAt_cleared_other.
Qed.

(** Errors other than a version mismatch. *)
Definition mismatch (e : StoreError) : Prop := match e with VersionMismatchError _ => True | _ => False end.
Definition plain {A} (m : Tx A) : Prop := ∀ s e, m s = Err e → ¬ mismatch e.

Lemma plain_ret {A} (a : A) : plain (mret a).
Proof. done. Qed.
Lemma plain_bind {A B} (m : Tx A) (k : A → Tx B) : plain m → (∀ a, plain (k a)) → plain (m ≫= k).
Proof.
  intros Hm Hk s e. unfold mbind, tx_bind. destruct (m s) as [[a s1]|e'] eqn:Em; [apply Hk|].
  intros [= <-]. by eapply Hm.
Qed.
Lemma plain_exec {A} wrap (q : DB → result PgError (A * DB)) : (∀ p, ¬ mismatch (wrap p)) → plain (exec wrap q).
Proof.
  intros Hw s e. unfold exec. intros He.
  assert (∃ p, e = wrap p) as [p ->]; [|apply Hw].
  destruct (seFault s) as [[|n]|], (q (seDB s)) as [[]|p]; try done; injection He as <-; eauto.
Qed.
Lemma plain_forEach {A} (f : nat → A → Tx ()) : (∀ i x, plain (f i x)) → ∀ l i, plain (forEach f i l).
Proof.
  intros Hf. induction l as [|x l IH]; intros i; cbn [forEach]; [apply plain_ret|].
  apply plain_bind; [apply Hf|]. intros _. apply IH.
Qed.

Lemma plain_addRulesetChildren rs : plain (addRulesetChildren rs).
Proof.
  assert (∀ p, ¬ mismatch (failure p)) as Hfail by by intros [] [].
  apply plain_bind; [|intros _]; apply plain_forEach; [intros; by apply plain_exec|]. intros i r.
  apply plain_bind; [apply plain_exec; by intros [] []|intros _].
  apply plain_bind; [apply plain_forEach; intros j p|intros _].
  - apply plain_bind; [apply plain_exec; by intros [] []|intros _].
    destruct (peerKind p); try apply plain_ret. apply plain_forEach. intros; by apply plain_exec.
  - apply plain_bind; [apply plain_forEach; intros; apply plain_exec; by intros [] []|intros _].
    apply plain_forEach. intros; by apply plain_exec.
Qed.

Lemma UpdateRuleset_none id name desc en updated expect d d' :
  sql_UpdateRuleset id name desc en updated (expected expect) d = Ok (None, d') →
  d' = d ∧ ∀ r, r ∈ dbRulesets d → rwID r = id → ¬ names expect (rwVersion r).
Proof.
  unfold sql_UpdateRuleset. destruct (list_find _ (dbRulesets d)) as [[i r]|] eqn:Hf; [repeat (case_decide; [done|]); done|].
  intros [= <-]. split; [done|]. apply list_find_None in Hf. rewrite Forall_forall in Hf. intros r Hr Hid Hn.
  apply (Hf r Hr). split; [done|]. unfold expected. case_decide as He; [done|]. by destruct Hn as [| ->].
Qed.

Lemma UpdateRuleset_mismatch sv rs expect d current d' :
  wf d → Store_UpdateRuleset sv rs expect d = (Err (VersionMismatchError current), d') →
  ∃ old, cRulesets (dbContent d) !! rsID rs = Some old ∧ current = FormatVersion (rsVersion old) ∧
    ¬ names expect (rsVersion old).
Proof.
  intros Hd. unfold Store_UpdateRuleset, tx. destruct (svBegins sv); [|done].
  destruct (exec (onUnique ErrDuplicateName) (sql_UpdateRuleset (rsID rs) (rsName rs) (rsDescription rs) (rsEnabled rs)
    (rsUpdatedAt rs) (expected expect)) (MkSession (svFault sv) d)) as [[[v|] s1]|e] eqn:Eu.
  - assert (∀ m : Tx Z, plain m → match m s1 with
       | Ok (a, s) => match svCommit sv with
           | Committed => (Ok a, seDB s) | CommitRefused => (Err StoreFailure, d) | ReplyLost => (Err StoreFailure, seDB s) end
       | Err e => (Err e, d) end = (Err (VersionMismatchError current), d') → False) as Hplain.
    { intros m Hm. destruct (m s1) as [[a s]|e] eqn:Em; [by destruct (svCommit sv)|]. intros [= -> <-]. by apply (Hm _ _ Em). }
    unfold mbind at 1, tx_bind at 1. rewrite Eu. intros Hx. exfalso. eapply Hplain, Hx.
    apply plain_bind; [apply plain_exec; by intros [] []|intros _].
    apply plain_bind; [apply plain_exec; by intros [] []|intros _].
    apply plain_bind; [apply plain_addRulesetChildren|intros _]. apply plain_ret.
  - unfold mbind at 1, tx_bind at 1. rewrite Eu. apply exec_Ok, UpdateRuleset_none in Eu as [E1 Hnone]. cbn [seDB] in *.
    unfold mbind at 1, tx_bind at 1. destruct (exec failure (sql_GetRuleset (rsID rs)) s1) as [[row s2]|e] eqn:Eg.
    + apply exec_read in Eg as [-> _]. rewrite E1. destruct (list_find _ (dbRulesets d)) as [[i r]|] eqn:Hf; [|done].
      cbn. intros [= <- _]. apply list_find_Some in Hf as (Hi & Hid & _). apply list_elem_of_lookup_2 in Hi.
      exists (rulesetAt d r). split_and!; [apply content_ruleset; eauto|done|]. by apply Hnone.
    + intros [= -> _]. exfalso. eapply (plain_exec failure _ _ _ _ Eg); done.
  - unfold mbind at 1, tx_bind at 1. rewrite Eu. intros [= -> _]. exfalso.
    eapply (plain_exec (onUnique ErrDuplicateName) _ _ _ _ Eu); done.
    Unshelve. all: by intros [] [].
Qed.

(** ** Deleting *)

(** The rows a conditional delete hits are the one row of its id. *)
Lemma filter_hit {R} (kid : R → UUID) (P : R → Prop) `{∀ r, Decision (P r)} id (t : list R) x l :
  NoDup (kid <$> t) → filter (λ r, kid r = id ∧ P r) t = x :: l →
  x ∈ t ∧ kid x = id ∧ P x ∧ (id ∉ kid <$> filter (λ r, ¬ (kid r = id ∧ P r)) t) ∧
  (∀ r, kid r ≠ id → r ∈ filter (λ r, ¬ (kid r = id ∧ P r)) t ↔ r ∈ t).
Proof.
  intros Hnd Hf. assert (x ∈ filter (λ r, kid r = id ∧ P r) t) as Hx by (rewrite Hf; left).
  apply list_elem_of_filter in Hx as [[Hid HP] Hx]. split_and!; try done.
  - intros (r & Hr & Hin)%list_elem_of_fmap. apply list_elem_of_filter in Hin as [Hno Hin]. apply Hno. split; [done|].
    apply (list_elem_of_lookup_1 t) in Hin as [i Hi]. apply (list_elem_of_lookup_1 t) in Hx as [j Hj].
    assert (i = j) as ->; [|congruence]. eapply (NoDup_lookup _ _ _ id Hnd).
    + rewrite list_lookup_fmap, Hi. cbn. by rewrite <-Hr.
    + rewrite list_lookup_fmap, Hj. cbn. by rewrite Hid.
  - intros r Hne. rewrite list_elem_of_filter. tauto.
Qed.

(** A delete that hits no row fails, so it wrote nothing. *)
Lemma delete_run {X} (m : Tx nat) (q : Tx X) (err : X → StoreError) s s' :
  (n ← m; match n with O => x ← q; fails (err x) | _ => mret () end) s = Ok ((), s') →
  ∃ n, m s = Ok (S n, s').
Proof.
  intros Hr. apply tx_bind_Ok in Hr as ([|n] & s1 & H1 & H2).
  - by apply tx_bind_Ok in H2 as (x & s2 & _ & H2).
  - injection H2 as <-. eauto.
Qed.

Lemma DeleteRuleset_run id expect f d s' :
  wf d →
  (n ← exec failure (sql_DeleteRuleset id (expected expect));
   match n with
   | O => row ← exec failure (sql_GetRuleset id); fails (versionMismatch ErrRulesetUnknown (rwVersion <$> row))
   | _ => mret ()
   end) (MkSession f d) = Ok ((), s') →
  wf (seDB s') ∧ ∃ old, cRulesets (dbContent d) !! id = Some old ∧ names expect (rsVersion old) ∧
    dbContent (seDB s') = MkContent (cServices (dbContent d)) (cGroups (dbContent d)) (delete id (cRulesets (dbContent d))).
Proof.
  intros Hd (n & Hn%exec_Ok)%(delete_run _ _ (λ row, versionMismatch ErrRulesetUnknown (rwVersion <$> row))). cbn [seDB] in Hn. unfold sql_DeleteRuleset in Hn.
  destruct (filter _ (dbRulesets d)) as [|x l] eqn:Hf; [done|]. injection Hn as _ E.
  destruct (filter_hit rwID (λ r, expectedIs (expected expect) (rwVersion r)) id _ x l (wf_rulesets _ Hd) Hf)
    as (Hx & Hid & Hex & Hgone & Hsame).
  set (t := filter (λ r, ¬ (rwID r = id ∧ expectedIs (expected expect) (rwVersion r))) (dbRulesets d)) in *.
  change (cleared id (setRulesets t d) = seDB s') in E.
  assert (NoDup (rwID <$> t)) as Hnd by (apply NoDup_fmap_filter, (wf_rulesets _ Hd)).
  assert (wf (cleared id (setRulesets t d))) as Hw.
  { apply wf_cleared; [done..|]. intros y (r & -> & Hr)%list_elem_of_fmap Hne.
    apply list_elem_of_fmap_2. by apply Hsame. }
  rewrite <-E. split; [done|]. exists (rulesetAt d x). split_and!.
  - apply content_ruleset; eauto.
  - by apply expected_names.
  - apply content_eq; [done..|]. cbn. apply (keyed_delete rwID rsID); try done; [apply (wf_rulesets _ Hd)|].
    intros r Hne. by apply rulesetAt_cleared_other.
Qed.

(** ** Services and address groups *)

Lemma insertObject_Ok id name created t t' :
  NoDup (obID <$> t) → insertObject id name created t = Ok t' →
  t' = t ++ [MkObjectRow id name (pgTime created) (pgTime created) 1] ∧ (id ∉ obID <$> t) ∧ NoDup (obID <$> t').
Proof.
  intros Hnd. unfold insertObject. case_decide as Hni; [done|]. intros [= <-]. split_and!; [done|tauto|].
  rewrite fmap_app. apply NoDup_app. split_and!; [done| |apply NoDup_singleton].
  intros x Hx ->%list_elem_of_singleton. tauto.
Qed.

Lemma updateObject_Ok id name updated expect t v t' :
  updateObject id name updated (expected expect) t = Ok (Some v, t') →
  ∃ r, r ∈ t ∧ obID r = id ∧ names expect (obVersion r) ∧ v = obVersion r + 1 ∧
    MkObjectRow id name (obCreatedAt r) (pgTime updated) v ∈ t' ∧ obID <$> t' = obID <$> t ∧
    ∀ x, obID x ≠ id → x ∈ t' ↔ x ∈ t.
Proof.
  intros Hu. unfold updateObject in Hu. destruct (list_find _ t) as [[i r]|] eqn:Hf; [|done].
  repeat (case_decide; [done|]). injection Hu as <- <-.
  apply list_find_Some in Hf as (Hi & [Hid Hex] & _). assert (i < length t)%nat as Hlt by by eapply lookup_lt_Some.
  exists r. split_and!; [by eapply list_elem_of_lookup_2|done|by apply expected_names|done|..].
  - by apply list_elem_of_insert.
  - rewrite list_fmap_insert. cbn. apply list_insert_id. by rewrite list_lookup_fmap, Hi, <-Hid.
  - intros x Hx. split.
    + intros Hin. apply list_elem_of_lookup_1 in Hin as [j Hj].
      apply list_lookup_insert_Some in Hj as [(-> & <- & _)|[_ Hj]]; [done|]. by eapply list_elem_of_lookup_2.
    + intros Hin. apply list_elem_of_lookup_1 in Hin as [j Hj]. apply list_elem_of_lookup_2 with j.
      rewrite list_lookup_insert_ne; [done|]. intros <-. congruence.
Qed.

Lemma wf_replaceServices d t e :
  wf d → NoDup (obID <$> t) → childOk entryKey (obID <$> t) e → wf (setServiceEntries e (setServices t d)).
Proof. intros [] Ht He. by split. Qed.

Lemma wf_replaceGroups d t c :
  wf d → NoDup (obID <$> t) → childOk cidrKey (obID <$> t) c → wf (setCIDRs c (setGroups t d)).
Proof. intros [] Ht He. by split. Qed.

(** The header of a service is in the table without entries; they are added. *)
Lemma entries_written svc d d1 row s s' :
  wf d → wf d1 → seDB s = d1 → addServiceEntries svc s = Ok ((), s') →
  row ∈ dbServices d1 → obID row = svcID svc → obName row = svcName svc →
  (∀ r, obID r ≠ svcID svc → r ∈ dbServices d1 ↔ r ∈ dbServices d) →
  (∀ o, o ≠ svcID svc → ofOwner entryKey o (dbServiceEntries d1) = ofOwner entryKey o (dbServiceEntries d)) →
  ofOwner entryKey (svcID svc) (dbServiceEntries d1) = [] →
  cGroups (dbContent d1) = cGroups (dbContent d) → cRulesets (dbContent d1) = cRulesets (dbContent d) →
  wf (seDB s') ∧ ∃ x', serviceAs (St := PgState) svc (obVersion row) x' ∧
    dbContent (seDB s') = setService x' (dbContent d).
Proof.
  intros Hd Hd1 Hs Hadd Hrow Hid Hname Hsame Hframe Hnone Hg Hr.
  apply addEntries_service in Hadd as [E Hw]; [|by rewrite Hs]. rewrite Hs in E. split; [done|].
  rewrite E in Hw |- *. set (d' := setServiceEntries _ d1) in *.
  assert (readOwner entryKey Z.le (svcID svc) (dbServiceEntries d') = entryRowsOf (svcID svc) (svcEntries svc)) as Hread.
  { apply (readOwner_ext entryKey Z.le); [apply (wf_service_entries _ Hw)| |by apply (numbered_sorted _ _ (svcID svc))].
    change (dbServiceEntries d') with (dbServiceEntries d1 ++ entryRowsOf (svcID svc) (svcEntries svc)).
    rewrite ofOwner_app, Hnone. unfold ofOwner. rewrite filter_all; [done|].
    by intros x (i & y & -> & _)%elem_of_lookup_imap_1. }
  exists (serviceAt d' row). split.
  - unfold serviceAs, serviceAt, serviceOf. cbn [svcID svcName svcEntries svcVersion svcFaults]. rewrite Hid, Hname, Hread, flatOf_entryRowsOf. done.
  - apply content_eq; [|exact Hg|exact Hr].
    unfold setService. cbn [cServices]. change (svcID (serviceAt d' row)) with (obID row). rewrite Hid. cbn.
    apply (keyed_insert obID svcID (serviceAt d) (serviceAt d')); try done; [apply (wf_services _ Hd)|apply (wf_services _ Hd1)|].
    intros r Hne. unfold serviceAt. rewrite (readOwner_same entryKey Z.le _ _ (dbServiceEntries d)); [done|apply (wf_service_entries _ Hw)|].
    change (dbServiceEntries d') with (dbServiceEntries d1 ++ entryRowsOf (svcID svc) (svcEntries svc)).
    rewrite ofOwner_app, Hframe by done. rewrite (ofOwner_other _ _ (entryRowsOf _ _)), app_nil_r; [done|].
    intros x (i & y & -> & _)%elem_of_lookup_imap_1. cbn. congruence.
Qed.

Lemma CreateService_run svc f d s' :
  wf d →
  (exec (onUnique ErrDuplicateName) (sql_CreateService (svcID svc) (svcName svc) (svcCreatedAt svc));;
   addServiceEntries svc) (MkSession f d) = Ok ((), s') →
  wf (seDB s') ∧ ∃ x', serviceAs (St := PgState) svc 1 x' ∧ cServices (dbContent d) !! svcID svc = None ∧
    dbContent (seDB s') = setService x' (dbContent d).
Proof.
  intros Hd Hr. apply tx_bind_Ok in Hr as ([] & s1 & H1%exec_Ok & H2). cbn [seDB] in H1. unfold sql_CreateService in H1.
  apply onTable_Ok in H1 as (t & Ht & E1). apply insertObject_Ok in Ht as (-> & Hni & Hnd); [|apply (wf_services _ Hd)].
  assert (cServices (dbContent d) !! svcID svc = None) as Hnone.
  { apply eq_None_not_Some. intros [x (r & Hr & Hid & _)%content_service]; [|done]. apply Hni. rewrite <-Hid.
    by apply list_elem_of_fmap_2. }
  set (row := MkObjectRow _ _ _ _ _) in *.
  assert (wf (seDB s1)) as Hw1.
  { rewrite E1. apply (wf_replaceServices d (dbServices d ++ [row]) (dbServiceEntries d)); [done..|].
    eapply childOk_mono; [apply (wf_service_entries _ Hd)|]. rewrite fmap_app. by apply list_subseteq_app_l. }
  destruct (entries_written svc d (seDB s1) row s1 s') as (Hw & x' & Hx & Hc); rewrite ?E1; try done.
  - by rewrite <-E1.
  - cbn. apply elem_of_app. right. by left.
  - intros r Hne. cbn. rewrite elem_of_app, list_elem_of_singleton. split; [|by left]. by intros [?| ->].
  - by apply (childOk_none _ _ _ _ (wf_service_entries _ Hd)).
  - split; [done|]. by exists x'.
Qed.

Lemma UpdateService_run svc expect f d v s' :
  wf d →
  (v ← exec (onUnique ErrDuplicateName)
         (sql_UpdateService (svcID svc) (svcName svc) (svcUpdatedAt svc) (expected expect));
   match v with
   | None => row ← exec failure (sql_GetService (svcID svc)); fails (versionMismatch ErrServiceUnknown (obVersion <$> row))
   | Some v => exec failure (sql_DeleteServiceEntries (svcID svc));; addServiceEntries svc;; mret v
   end) (MkSession f d) = Ok (v, s') →
  wf (seDB s') ∧ ∃ old x', serviceAs (St := PgState) svc v x' ∧ cServices (dbContent d) !! svcID svc = Some old ∧
    names expect (svcVersion old) ∧ v = svcVersion old + 1 ∧ dbContent (seDB s') = setService x' (dbContent d).
Proof.
  intros Hd Hr. apply tx_bind_Ok in Hr as (ov & s1 & H1%exec_Ok & H2). cbn [seDB] in H1.
  destruct ov as [v'|]; [|apply tx_bind_Ok in H2 as (? & ? & _ & H2); done].
  apply tx_bind_Ok in H2 as ([] & s2 & Hdel%exec_Ok & H2). injection Hdel as E2.
  apply tx_bind_Ok in H2 as ([] & s3 & Hadd & [= -> ->]). unfold sql_UpdateService in H1.
  destruct (updateObject _ _ _ _ _) as [[w t]|e] eqn:Hu; [|done]. injection H1 as -> E1.
  apply updateObject_Ok in Hu as (old & Hold & Hid & Hnames & -> & Hrow & Hids & Hsame).
  assert (seDB s2 = setServiceEntries (filter (λ e, enOwner e ≠ svcID svc) (dbServiceEntries d)) (setServices t d)) as E
    by by rewrite <-E2, <-E1.
  assert (wf (seDB s2)) as Hw1.
  { rewrite E. apply wf_replaceServices; [done|rewrite Hids; apply (wf_services _ Hd)|]. rewrite Hids.
    by eapply childOk_filter; [apply (wf_service_entries _ Hd)|]. }
  eapply (entries_written svc d (seDB s2) _ s2 s') in Hadd as (Hw & x' & Hx & Hc); rewrite ?E; try done.
  - split; [done|]. exists (serviceAt d old), x'. split_and!; try done. apply content_service; eauto.
  - by rewrite <-E.
  - intros o Hne. cbn. apply (ofOwner_filter entryKey _ (λ e, enOwner e ≠ svcID svc)). intros r _ Heq. cbn in Heq. congruence.
  - apply filter_nil_iff. cbn. intros r [Hne _]%list_elem_of_filter. done.
Qed.

(** Every service a stored rule names is in a reference row. *)
Lemma stored_refs d rid rs r id :
  wf d → cRulesets (dbContent d) !! rid = Some rs → r ∈ rsRules rs → id ∈ ruleServiceIDs r → id ∈ reService <$> dbRefs d.
Proof.
  intros Hd (row & _ & _ & ->)%content_ruleset Hr Hid; [|done]. cbn in Hr. apply list_elem_of_fmap in Hr as (x & -> & _).
  cbn in Hid. apply list_elem_of_fmap in Hid as (y & -> & Hy). rewrite readOwner_perm in Hy.
  apply list_elem_of_filter in Hy as [_ Hy]. by apply list_elem_of_fmap_2.
Qed.

Lemma DeleteService_run id expect f d s' :
  wf d →
  (n ← exec (onForeignKey ErrInUse) (sql_DeleteService id (expected expect));
   match n with
   | O => row ← exec failure (sql_GetService id); fails (versionMismatch ErrServiceUnknown (obVersion <$> row))
   | _ => mret ()
   end) (MkSession f d) = Ok ((), s') →
  wf (seDB s') ∧ ∃ old, cServices (dbContent d) !! id = Some old ∧ names expect (svcVersion old) ∧
    (∀ rid rs, cRulesets (dbContent d) !! rid = Some rs → Forall (λ r, id ∉ ruleServiceIDs r) (rsRules rs)) ∧
    dbContent (seDB s') = MkContent (delete id (cServices (dbContent d))) (cGroups (dbContent d)) (cRulesets (dbContent d)).
Proof.
  intros Hd (n & Hn%exec_Ok)%(delete_run _ _ (λ row, versionMismatch ErrServiceUnknown (obVersion <$> row))).
  cbn [seDB] in Hn. unfold sql_DeleteService in Hn.
  destruct (filter _ (dbServices d)) as [|x l] eqn:Hf; [done|]. case_decide as Hrefs; [done|]. injection Hn as _ E.
  destruct (filter_hit obID (λ r, expectedIs (expected expect) (obVersion r)) id _ x l (wf_services _ Hd) Hf)
    as (Hx & Hid & Hex & Hgone & Hsame).
  set (t := filter (λ r, ¬ (obID r = id ∧ expectedIs (expected expect) (obVersion r))) (dbServices d)) in *.
  assert (NoDup (obID <$> t)) as Hnd by (apply NoDup_fmap_filter, (wf_services _ Hd)).
  assert (wf (seDB s')) as Hw.
  { rewrite <-E. apply wf_replaceServices; [done..|].
    eapply childOk_filter; [apply (wf_service_entries _ Hd)|]. intros e He Hne Ho. cbn in *.
    apply list_elem_of_fmap in Ho as (r & Hr & Hin). rewrite Hr in *. apply list_elem_of_fmap_2. by apply Hsame. }
  split; [done|]. exists (serviceAt d x). split_and!.
  - apply content_service; eauto.
  - by apply expected_names.
  - intros rid rs Hrs. apply Forall_forall. intros r Hr Hin. by eapply Hrefs, stored_refs.
  - rewrite <-E in Hw |- *. apply content_eq; [|done..]. cbn.
    apply (keyed_delete obID svcID); try done; [apply (wf_services _ Hd)|].
    intros r Hne. unfold serviceAt. rewrite (readOwner_same entryKey Z.le _ _ (dbServiceEntries d)); [done|apply (wf_service_entries _ Hw)|].
    apply reflexive_eq, (ofOwner_filter entryKey _ (λ e, enOwner e ≠ id)). intros e _ Heq. cbn in Heq. congruence.
Qed.

(** The header of a group is in the table without CIDRs; they are added. *)
Lemma cidrs_written g d d1 row s s' :
  wf d → wf d1 → seDB s = d1 → addGroupCIDRs g s = Ok ((), s') →
  row ∈ dbGroups d1 → obID row = agID g → obName row = agName g →
  (∀ r, obID r ≠ agID g → r ∈ dbGroups d1 ↔ r ∈ dbGroups d) →
  (∀ o, o ≠ agID g → ofOwner cidrKey o (dbCIDRs d1) = ofOwner cidrKey o (dbCIDRs d)) →
  ofOwner cidrKey (agID g) (dbCIDRs d1) = [] →
  cServices (dbContent d1) = cServices (dbContent d) → cRulesets (dbContent d1) = cRulesets (dbContent d) →
  wf (seDB s') ∧ ∃ x', groupAs g (obVersion row) x' ∧ dbContent (seDB s') = setGroup x' (dbContent d).
Proof.
  intros Hd Hd1 Hs Hadd Hrow Hid Hname Hsame Hframe Hnone Hsv Hr.
  apply addGroupCIDRs_Ok in Hadd as [E Hw]; [|by rewrite Hs]. rewrite Hs in E. split; [done|].
  rewrite E in Hw |- *. set (d' := setCIDRs _ d1) in *.
  assert (dbCIDRs d' = dbCIDRs d1 ++ (MkCidrRow (agID g) <$> agCIDRs g)) as Hcid by done.
  exists (groupAt d' row). split.
  - unfold groupAs, groupAt, groupOf. cbn [agID agName agCIDRs agVersion]. split_and!; try done. intros c.
    rewrite Hid, list_elem_of_fmap. setoid_rewrite readOwner_perm. rewrite Hcid, ofOwner_app, Hnone. cbn [app].
    unfold ofOwner. rewrite filter_all by by intros x (y & -> & _)%list_elem_of_fmap.
    split; [by intros (x & -> & (y & -> & Hy)%list_elem_of_fmap)|].
    intros Hc. exists (MkCidrRow (agID g) c). split; [done|]. by apply list_elem_of_fmap_2.
  - apply content_eq; [exact Hsv| |exact Hr].
    unfold setGroup. cbn [cGroups]. change (agID (groupAt d' row)) with (obID row). rewrite Hid. cbn.
    apply (keyed_insert obID agID (groupAt d) (groupAt d')); try done; [apply (wf_groups _ Hd)|apply (wf_groups _ Hd1)|].
    intros r Hne. unfold groupAt. rewrite (readOwner_same cidrKey pgText_le _ _ (dbCIDRs d)); [done|apply (wf_cidrs _ Hw)|].
    rewrite Hcid, ofOwner_app, Hframe by done. rewrite (ofOwner_other _ _ (_ <$> _)), app_nil_r; [done|].
    intros x (y & -> & _)%list_elem_of_fmap. cbn. congruence.
Qed.

Lemma CreateAddressGroup_run g f d s' :
  wf d →
  (exec (onUnique ErrDuplicateName) (sql_CreateAddressGroup (agID g) (agName g) (agCreatedAt g));;
   addGroupCIDRs g) (MkSession f d) = Ok ((), s') →
  wf (seDB s') ∧ ∃ x', groupAs g 1 x' ∧ cGroups (dbContent d) !! agID g = None ∧
    dbContent (seDB s') = setGroup x' (dbContent d).
Proof.
  intros Hd Hr. apply tx_bind_Ok in Hr as ([] & s1 & H1%exec_Ok & H2). cbn [seDB] in H1. unfold sql_CreateAddressGroup in H1.
  apply onTable_Ok in H1 as (t & Ht & E1). apply insertObject_Ok in Ht as (-> & Hni & Hnd); [|apply (wf_groups _ Hd)].
  assert (cGroups (dbContent d) !! agID g = None) as Hnone.
  { apply eq_None_not_Some. intros [x (r & Hr & Hid & _)%content_group]; [|done]. apply Hni. rewrite <-Hid.
    by apply list_elem_of_fmap_2. }
  set (row := MkObjectRow _ _ _ _ _) in *.
  assert (wf (seDB s1)) as Hw1.
  { rewrite E1. apply (wf_replaceGroups d (dbGroups d ++ [row]) (dbCIDRs d)); [done..|].
    eapply childOk_mono; [apply (wf_cidrs _ Hd)|]. rewrite fmap_app. by apply list_subseteq_app_l. }
  destruct (cidrs_written g d (seDB s1) row s1 s') as (Hw & x' & Hx & Hc); rewrite ?E1; try done.
  - by rewrite <-E1.
  - cbn. apply elem_of_app. right. by left.
  - intros r Hne. cbn. rewrite elem_of_app, list_elem_of_singleton. split; [|by left]. by intros [?| ->].
  - by apply (childOk_none _ _ _ _ (wf_cidrs _ Hd)).
  - split; [done|]. by exists x'.
Qed.

Lemma UpdateAddressGroup_run g expect f d v s' :
  wf d →
  (v ← exec (onUnique ErrDuplicateName)
         (sql_UpdateAddressGroup (agID g) (agName g) (agUpdatedAt g) (expected expect));
   match v with
   | None => row ← exec failure (sql_GetAddressGroup (agID g)); fails (versionMismatch ErrAddressGroupUnknown (obVersion <$> row))
   | Some v => exec failure (sql_DeleteAddressGroupCIDRs (agID g));; addGroupCIDRs g;; mret v
   end) (MkSession f d) = Ok (v, s') →
  wf (seDB s') ∧ ∃ old x', groupAs g v x' ∧ cGroups (dbContent d) !! agID g = Some old ∧
    names expect (agVersion old) ∧ v = agVersion old + 1 ∧ dbContent (seDB s') = setGroup x' (dbContent d).
Proof.
  intros Hd Hr. apply tx_bind_Ok in Hr as (ov & s1 & H1%exec_Ok & H2). cbn [seDB] in H1.
  destruct ov as [v'|]; [|apply tx_bind_Ok in H2 as (? & ? & _ & H2); done].
  apply tx_bind_Ok in H2 as ([] & s2 & Hdel%exec_Ok & H2). injection Hdel as E2.
  apply tx_bind_Ok in H2 as ([] & s3 & Hadd & [= -> ->]). unfold sql_UpdateAddressGroup in H1.
  destruct (updateObject _ _ _ _ _) as [[w t]|e] eqn:Hu; [|done]. injection H1 as -> E1.
  apply updateObject_Ok in Hu as (old & Hold & Hid & Hnames & -> & Hrow & Hids & Hsame).
  assert (seDB s2 = setCIDRs (filter (λ c, ciGroup c ≠ agID g) (dbCIDRs d)) (setGroups t d)) as E
    by by rewrite <-E2, <-E1.
  assert (wf (seDB s2)) as Hw1.
  { rewrite E. apply wf_replaceGroups; [done|rewrite Hids; apply (wf_groups _ Hd)|]. rewrite Hids.
    by eapply childOk_filter; [apply (wf_cidrs _ Hd)|]. }
  eapply (cidrs_written g d (seDB s2) _ s2 s') in Hadd as (Hw & x' & Hx & Hc); rewrite ?E; try done.
  - split; [done|]. exists (groupAt d old), x'. split_and!; try done. apply content_group; eauto.
  - by rewrite <-E.
  - intros o Hne. apply (ofOwner_filter cidrKey _ (λ c, ciGroup c ≠ agID g)). intros r _ Heq. cbn in Heq. congruence.
  - apply filter_nil_iff. cbn. intros r [Hne _]%list_elem_of_filter. done.
Qed.

(** Every group a stored rule names is in a peer row. *)
Lemma stored_groups d rid rs r p id :
  wf d → cRulesets (dbContent d) !! rid = Some rs → r ∈ rsRules rs → p ∈ rulePeers r →
  peerKind p = PeerAddressGroup → peerAddressGroupID p = id → Some id ∈ peGroup <$> dbPeers d.
Proof.
  intros Hd (row & _ & _ & ->)%content_ruleset Hr Hp Hk Hid; [|done]. cbn in Hr. apply list_elem_of_fmap in Hr as (x & -> & _).
  cbn in Hp. apply list_elem_of_fmap in Hp as (y & -> & Hy). rewrite readOwner_perm in Hy.
  apply list_elem_of_filter in Hy as [_ Hy]. pose proof (wf_peer_check _ Hd) as Hc. rewrite Forall_forall in Hc.
  specialize (Hc y Hy). apply list_elem_of_fmap. exists y. split; [|done].
  assert (PeerKind_of 1 = PeerWorkloads ∧ PeerKind_of 2 = PeerAddressGroup ∧ PeerKind_of 3 = PeerCIDR) as (K1 & K2 & K3) by done.
  unfold peerAt, peerOf in Hk, Hid. unfold peerCheck in Hc.
  destruct (peGroup y) as [gid|] eqn:Hg, (peCidr y); try done; apply bool_decide_eq_true in Hc;
    rewrite Hc, ?K1, ?K2, ?K3 in Hk, Hid; cbn in Hk, Hid; congruence.
Qed.

Lemma DeleteAddressGroup_run id expect f d s' :
  wf d →
  (n ← exec (onForeignKey ErrInUse) (sql_DeleteAddressGroup id (expected expect));
   match n with
   | O => row ← exec failure (sql_GetAddressGroup id); fails (versionMismatch ErrAddressGroupUnknown (obVersion <$> row))
   | _ => mret ()
   end) (MkSession f d) = Ok ((), s') →
  wf (seDB s') ∧ ∃ old, cGroups (dbContent d) !! id = Some old ∧ names expect (agVersion old) ∧
    (∀ rid rs, cRulesets (dbContent d) !! rid = Some rs →
       Forall (λ r, Forall (λ p, peerKind p = PeerAddressGroup → peerAddressGroupID p ≠ id) (rulePeers r)) (rsRules rs)) ∧
    dbContent (seDB s') = MkContent (cServices (dbContent d)) (delete id (cGroups (dbContent d))) (cRulesets (dbContent d)).
Proof.
  intros Hd (n & Hn%exec_Ok)%(delete_run _ _ (λ row, versionMismatch ErrAddressGroupUnknown (obVersion <$> row))).
  cbn [seDB] in Hn. unfold sql_DeleteAddressGroup in Hn.
  destruct (filter _ (dbGroups d)) as [|x l] eqn:Hf; [done|]. case_decide as Hrefs; [done|]. injection Hn as _ E.
  destruct (filter_hit obID (λ r, expectedIs (expected expect) (obVersion r)) id _ x l (wf_groups _ Hd) Hf)
    as (Hx & Hid & Hex & Hgone & Hsame).
  set (t := filter (λ r, ¬ (obID r = id ∧ expectedIs (expected expect) (obVersion r))) (dbGroups d)) in *.
  assert (NoDup (obID <$> t)) as Hnd by (apply NoDup_fmap_filter, (wf_groups _ Hd)).
  assert (wf (seDB s')) as Hw.
  { rewrite <-E. apply wf_replaceGroups; [done..|].
    eapply childOk_filter; [apply (wf_cidrs _ Hd)|]. intros e He Hne Ho. cbn in *.
    apply list_elem_of_fmap in Ho as (r & Hr & Hin). rewrite Hr in *. apply list_elem_of_fmap_2. by apply Hsame. }
  split; [done|]. exists (groupAt d x). split_and!.
  - apply content_group; eauto.
  - by apply expected_names.
  - intros rid rs Hrs. apply Forall_forall. intros r Hr. apply Forall_forall. intros p Hp Hk Heq. by eapply Hrefs, stored_groups.
  - rewrite <-E in Hw |- *. apply content_eq; [done| |done]. cbn.
    apply (keyed_delete obID agID); try done; [apply (wf_groups _ Hd)|].
    intros r Hne. unfold groupAt. rewrite (readOwner_same cidrKey pgText_le _ _ (dbCIDRs d)); [done|apply (wf_cidrs _ Hw)|].
    apply reflexive_eq, (ofOwner_filter cidrKey _ (λ c, ciGroup c ≠ id)). intros e _ Heq. cbn in Heq. congruence.
Qed.

(** ** The interface *)

Lemma reads_Ok {A} sv (m : Tx A) d r d' :
  reads sv m d = (r, d') → d' = d ∧ ∀ a, r = Ok a → ∃ s, m (MkSession (svFault sv) d) = Ok (a, s).
Proof.
  unfold reads. destruct (m _) as [[a s]|e]; intros [= <- <-]; (split; [done|]); [intros a' [= <-]; eauto|done].
Qed.

Lemma onServer_eq {A} (op : Server → DB → result StoreError A * DB) s r s' :
  onServer op s = (r, s') → ∃ sv, op sv (psDB s) = (r, psDB s').
Proof.
  unfold onServer. destruct (op _ (psDB s)) as [r' d] eqn:E. intros [= <- <-]. eauto.
Qed.

Lemma ListServices_law sv d r d' :
  wf d → Store_ListServices sv d = (r, d') →
  d' = d ∧ ∀ l, r = Ok l → ∀ id, id ∈ svcID <$> l ↔ id ∈ dom (cServices (dbContent d)).
Proof.
  intros Hd [-> Hl]%reads_Ok. split; [done|]. intros l (s1 & Hl')%Hl id.
  apply listServices_Ok in Hl' as ->; [|done]. cbn [seDB]. rewrite <-list_fmap_compose.
  rewrite merge_sort_Permutation, elem_of_dom. unfold is_Some. setoid_rewrite content_service; [|done].
  change (svcID ∘ serviceAt d) with obID. rewrite list_elem_of_fmap. naive_solver.
Qed.

Lemma ListAddressGroups_law sv d r d' :
  wf d → Store_ListAddressGroups sv d = (r, d') →
  d' = d ∧ ∀ l, r = Ok l → ∀ id, id ∈ agID <$> l ↔ id ∈ dom (cGroups (dbContent d)).
Proof.
  intros Hd [-> Hl]%reads_Ok. split; [done|]. intros l (s1 & Hl')%Hl id.
  apply listAddressGroups_Ok in Hl' as ->. cbn [seDB]. rewrite <-list_fmap_compose.
  rewrite merge_sort_Permutation, elem_of_dom. unfold is_Some. setoid_rewrite content_group; [|done].
  change (agID ∘ groupAt d) with obID. rewrite list_elem_of_fmap. naive_solver.
Qed.

(** One call of the interface as a call of the store. *)
Ltac on_server H :=
  cbn [st_CreateService st_UpdateService st_DeleteService st_CreateAddressGroup st_UpdateAddressGroup
       st_DeleteAddressGroup st_CreateRuleset st_UpdateRuleset st_DeleteRuleset st_GetRuleset pg_store] in H;
  apply onServer_eq in H as (sv & H).

#[global] Instance pg_store_laws : AuthoredStoreLaws PgState.
Proof.
  split.
  - intros s r s' Hv (sv & [E Hl]%ListServices_law)%onServer_eq; [|done]. cbn. rewrite E. by split_and!.
  - intros s r s' Hv (sv & [E Hl]%ListAddressGroups_law)%onServer_eq; [|done]. cbn. rewrite E. by split_and!.
  - intros id s r s' Hv Hop. on_server Hop. pose proof Hop as [E _]%reads_Ok. cbn. rewrite E. split_and!; [done..|].
    intros rs ->. by eapply GetRuleset_Ok.
  - intros x s r s' Hv Hop. on_server Hop. eapply tx_outcome; [exact Hv|exact Hop|].
    intros f [] s1 Hr E. rewrite <-?E. apply CreateService_run in Hr; [|done]. cbn. by rewrite <-E.
  - intros x e s r s' Hv Hop. on_server Hop. eapply tx_outcome; [exact Hv|exact Hop|].
    intros f v s1 Hr E. rewrite <-?E. apply UpdateService_run in Hr; [|done]. cbn. by rewrite <-E.
  - intros id e s r s' Hv Hop. on_server Hop. eapply tx_outcome; [exact Hv|exact Hop|].
    intros f [] s1 Hr E. rewrite <-?E. apply DeleteService_run in Hr; [|done]. cbn. by rewrite <-E.
  - intros x s r s' Hv Hop. on_server Hop. eapply tx_outcome; [exact Hv|exact Hop|].
    intros f [] s1 Hr E. rewrite <-?E. apply CreateAddressGroup_run in Hr; [|done]. cbn. by rewrite <-E.
  - intros x e s r s' Hv Hop. on_server Hop. eapply tx_outcome; [exact Hv|exact Hop|].
    intros f v s1 Hr E. rewrite <-?E. apply UpdateAddressGroup_run in Hr; [|done]. cbn. by rewrite <-E.
  - intros id e s r s' Hv Hop. on_server Hop. eapply tx_outcome; [exact Hv|exact Hop|].
    intros f [] s1 Hr E. rewrite <-?E. apply DeleteAddressGroup_run in Hr; [|done]. cbn. by rewrite <-E.
  - intros x s r s' Hv Hop. on_server Hop. eapply tx_outcome; [exact Hv|exact Hop|].
    intros f [] s1 Hr E. rewrite <-?E. apply CreateRuleset_run in Hr; [|done]. cbn. by rewrite <-E.
  - intros x e s r s' Hv Hop. on_server Hop. eapply tx_outcome; [exact Hv|exact Hop|].
    intros f v s1 Hr E. rewrite <-?E. apply UpdateRuleset_run in Hr; [|done]. cbn. by rewrite <-E.
  - intros x e s current s' Hv Hop. on_server Hop. by eapply UpdateRuleset_mismatch.
  - intros id e s r s' Hv Hop. on_server Hop. eapply tx_outcome; [exact Hv|exact Hop|].
    intros f [] s1 Hr E. rewrite <-?E. apply DeleteRuleset_run in Hr; [|done]. cbn. by rewrite <-E.
  - done.
  - done.
  - apply keptRule_again.
  - apply keptRule_ok.
  - intros es Hne Hok Ht. split; [by apply keptEntries_some|by apply keptEntries_ok].
Qed.
End laws.
