(* ===== verification/PolicyStoreProps.v ===== *)
(** * The authored model on its store

    The store of [store/policy.go] behind [policy.Store]: round trips, and the
    theorems of [AuthoringFacts.v] at work on it.  The module [AuthoredExample] runs
    the service on tables that start empty. *)

From S2P Require Import Prelude GoStd Netip Wire Uuid Identity Policy Validate Authoring AuthoringFacts Postgres PolicyStore PolicyStoreFacts PolicyStoreForm PolicyStoreLaws.
Local Open Scope Z_scope.

Section roundtrip.
Context `{ul : UUIDLib, !UUIDLaws, pg : PgLib, !PgLaws}.

(** A transaction that succeeds ran to its end and was committed. *)
Lemma tx_Ok {A} sv (m : Tx A) d a d' : tx sv m d = (Ok a, d') → ∃ s, m (MkSession (svFault sv) d) = Ok (a, s) ∧ seDB s = d'.
Proof.
  unfold tx. destruct (svBegins sv); [|done]. destruct (m _) as [[a' s]|e]; [|done].
  destruct (svCommit sv); [|done..]. intros [= <- <-]. eauto.
Qed.

(** A server that does not fail answers every read. *)
Lemma GetRuleset_total sv id d x :
  wf d → svFault sv = None → cRulesets (dbContent d) !! id = Some x → Store_GetRuleset sv id d = (Ok x, d).
Proof.
  intros Hd Hsv (r & Hr & Hid & ->)%content_ruleset; [|done].
  destruct (Store_GetRuleset sv id d) as [[y|e] d'] eqn:Hg.
  { pose proof Hg as Hx%GetRuleset_Ok; [|done]. apply content_ruleset in Hx as (r' & Hr' & Hid' & ->); [|done].
    rewrite (rulesets_unique d r' r) by (done || congruence). unfold Store_GetRuleset in Hg. by apply reads_Ok in Hg as [-> _]. }
  exfalso. unfold Store_GetRuleset, reads in Hg. rewrite Hsv in Hg. unfold mbind, tx_bind in Hg. cbn [exec seFault seDB fmap option_fmap option_map sql_GetRuleset] in Hg.
  destruct (list_find (λ r, rwID r = id) (dbRulesets d)) as [[i r0]|] eqn:Hf.
  2: { apply list_find_None in Hf. rewrite Forall_forall in Hf. by apply (Hf r Hr). }
  cbn [fmap option_fmap option_map snd] in Hg. destruct (listRulesets (MkSession None d)) as [[all s2]|e'] eqn:Hl.
  - apply listRulesets_Ok in Hl; [|done]. cbn [seDB] in Hl. destruct (list_find _ all) as [[j y]|] eqn:Hf2; [done|].
    apply list_find_None in Hf2. rewrite Forall_forall in Hf2. apply (Hf2 (rulesetAt d r)); [|done].
    rewrite Hl. apply list_elem_of_fmap_2. by rewrite merge_sort_Permutation.
  - by cbn in Hl.
Qed.

Lemma keptEntries_distinct es :
  NoDup (protocolOf <$> es) → Forall entry_ok es → Forall typedEntry es → pg_keptEntries es = es.
Proof.
  intros Hnd Hok Ht. unfold pg_keptEntries. rewrite entriesFromRows_grouped. unfold grouped.
  destruct (grouped_distinct es Hnd) as [-> Hports]. rewrite <-list_fmap_compose.
  rewrite <-(list_fmap_id es) at 2. apply list_fmap_ext. intros i e He%list_elem_of_lookup_2. cbn. rewrite Hports by done.
  rewrite Forall_forall in Hok, Ht. destruct (Hok e He) as [Hp _]. specialize (Ht e He). destruct e as [p ports]. cbn in *.
  f_equal; [by destruct Hp as [->|[->|[-> _]]]|]. rewrite <-(list_fmap_id ports) at 2. apply list_fmap_ext.
  intros j q Hq%list_elem_of_lookup_2. unfold typedEntry in Ht. rewrite Forall_forall in Ht. destruct (Ht q Hq).
  unfold storedPort. rewrite !u32_i32_id by done. by destruct q.
Qed.

(** A rule that names its services in order and has one entry a protocol. *)
Definition plainRule (r : Rule) : Prop := StronglySorted uuid_le (ruleServiceIDs r) ∧ NoDup (protocolOf <$> ruleEntries r).

Lemma keptRule_plain refs r :
  rule_ok refs r → Forall typedEntry (ruleEntries r) → plainRule r →
  pg_keptRule r = withProvenance (pgTime (ruleCreatedAt r)) (pgTime (ruleUpdatedAt r)) (ruleVersion r) r.
Proof.
  intros Hok Ht [Hs Hnd]. destruct (keptRule_ok refs r Hok Ht) as (_ & _ & Hp). cbn in Hp.
  destruct Hok. unfold pg_keptRule, withProvenance. rewrite Hp, keptEntries_distinct by done. rewrite rok_direction, rok_faults.
  f_equal. apply (sorted_unique uuid_le); [apply StronglySorted_merge_sort; apply _|done|apply merge_sort_Permutation|].
  intros x y _ _. apply (anti_symm uuid_le).
Qed.
End roundtrip.

(** ** Examples *)

Module AuthoredExample.
Import Uuid128.

(** Instants to the microsecond, text by its bytes. *)
#[global] Instance pg : PgLib := { pgTime t := t `div` 1000 * 1000; pgText_le := String.le }.
#[global] Instance pg_laws : PgLaws.
Proof.
  split; [|apply _..]. intros t. cbn. by rewrite Z.div_mul.
Qed.

Definition emptyDB : DB := MkDB [] [] [] [] [] [] [] [] [] [] [].
Definition server : Server := MkServer true None Committed.
Definition start : World PgState := MkWorld (MkPgState emptyDB (λ _, server) 0) 0 0 0.

Lemma start_good : good (woStore start).
Proof.
  split.
  - split; cbn; try (split; [constructor|by intros r ?%elem_of_nil]); constructor.
  - split; cbn; intros id x; by rewrite lookup_empty.
Qed.

Definition clock (n : nat) : Z := 1000000 + 1500 * Z.of_nat n.
Definition ids (n : nat) : UUID := of_Z (100 + Z.of_nat n `mod` 1000).

Lemma ids_not_nil n : ids n ≠ uuid_Nil.
Proof.
  unfold ids, of_Z. assert (0 ≤ Z.of_nat n `mod` 1000 < 1000) as Hb by (apply Z.mod_pos_bound; lia).
  destruct (decide _) as [Hz|Hz].
  - intros Heq. apply (f_equal proj1_sig) in Heq. cbn in Heq. lia.
  - exfalso. apply Hz. unfold in128. apply bool_decide_pack. lia.
Qed.

Definition web : Service :=
  MkService (of_Z 1) "web" [MkServiceEntry PROTOCOL_TCP [MkPortRange 80 80; MkPortRange 443 443]] 0 0 0 [].
Definition office : AddressGroup := MkAddressGroup (of_Z 2) "office" ["10.1.2.3/8"] 0 0 0.
Definition fromOffice : Rule :=
  MkRule uuid_Nil DIRECTION_INBOUND true "from the office" [MkPeer PeerAddressGroup ∅ (of_Z 2) ""] [of_Z 1] [] 0 0 0 [].
Definition front : Ruleset :=
  MkRuleset (of_Z 3) "front" "" true {["app" := ["front"]]} [fromOffice] 0 0 0 [].

Definition calls : list Call := [CallCreateService web; CallCreateAddressGroup office; CallCreateRuleset front].
Definition made : World PgState := runCalls id clock ids None calls start.

Lemma calls_typed : Forall typedCall calls.
Proof. repeat constructor; cbn; lia. Qed.

Lemma made_good : good (woStore made).
Proof.
  pose proof calls_typed as Ht. unfold calls in Ht. rewrite !Forall_cons in Ht. destruct Ht as (? & ? & ? & _).
  assert (∀ c w, typedCall c → good (woStore w) → good (woStore (runCall (St := PgState) id clock ids None c w).2)) as Hk.
  { intros c w Hc Hw. apply keeps_runCall; [intros s Hs; exact Hs|exact ids_not_nil|discriminate|exact Hc|exact Hw]. }
  unfold made, runCalls. cbn [foldl calls]. do 3 (apply Hk; [assumption|]). exact start_good.
Qed.

(** Another rule for the same ruleset. *)
Definition fromAnywhere : Rule :=
  MkRule (of_Z 4) DIRECTION_INBOUND true "" [MkPeer PeerCIDR ∅ uuid_Nil "10.9.9.9/8"] []
    [MkServiceEntry PROTOCOL_UDP [MkPortRange 53 53]] 0 0 0 [].
End AuthoredExample.

(** ** The store implements the interface *)



(** C10: a ruleset that was written is read back.  After a create or update that
    succeeds, a server that answers returns the ruleset under its id at the version
    the write reported, with its scope and its rules in order: each rule with its
    peers as written, its services as a set in the order of their ids, its entries
    put together by protocol, and its instants as the server keeps them.  A rule that
    names its services in order and has one entry a protocol is returned as it is. *)
Theorem Ruleset_roundtrip `{ul : UUIDLib, !UUIDLaws, pg : PgLib, !PgLaws} refs sv sv' rs expect v d d' :
  wf d → ruleset_ok refs rs → Forall (λ r, Forall typedEntry (ruleEntries r)) (rsRules rs) → svFault sv' = None →
  Store_CreateRuleset sv rs d = (Ok (), d') ∧ v = 1 ∨ Store_UpdateRuleset sv rs expect d = (Ok v, d') →
  ∃ x, Store_GetRuleset sv' (rsID rs) d' = (Ok x, d') ∧
    rsID x = rsID rs ∧ rsName x = rsName rs ∧ rsDescription x = rsDescription rs ∧ rsEnabled x = rsEnabled rs ∧
    rsScope x = rsScope rs ∧ rsVersion x = v ∧ rsFaults x = [] ∧ rsRules x = pg_keptRule <$> rsRules rs ∧
    (∀ i r, rsRules rs !! i = Some r → ∃ r', rsRules x !! i = Some r' ∧ rulePeers r' = rulePeers r ∧
       ruleServiceIDs r' ≡ₚ ruleServiceIDs r ∧ ruleVersion r' = ruleVersion r ∧
       (plainRule r → r' = withProvenance (pgTime (ruleCreatedAt r)) (pgTime (ruleUpdatedAt r)) (ruleVersion r) r)).
Proof.
  intros Hd Hok Ht Hsv Hw. assert (∃ x', wf d' ∧ rulesetAs (St := PgState) rs v x' ∧ cRulesets (dbContent d') !! rsID rs = Some x') as
    (x & Hwf & (Ei & En & Ed & Ee & Es & Er & Ev & Ef) & Hx).
  { assert (∀ x' : Ruleset, rsID x' = rsID rs → cRulesets (setRuleset x' (dbContent d)) !! rsID rs = Some x') as Hset.
    { intros x' Hid. unfold setRuleset. cbn [cRulesets]. rewrite Hid. apply lookup_insert_eq. }
    destruct Hw as [[(s & Hr & <-)%tx_Ok ->]|(s & Hr & <-)%tx_Ok].
    - apply CreateRuleset_run in Hr as (Hwf & x' & Hx & _ & _ & Hc); [|done]. exists x'. rewrite Hc. split_and!; [done..|].
      by apply Hset, Hx.
    - apply UpdateRuleset_run in Hr as (Hwf & old & x' & Hx & _ & _ & _ & _ & Hc); [|done]. exists x'. rewrite Hc.
      split_and!; [done..|]. by apply Hset, Hx. }
  exists x. split; [by apply GetRuleset_total|]. split_and!; try done. intros i r Hi. cbn in Er. rewrite Er, list_lookup_fmap, Hi.
  exists (pg_keptRule r). apply list_elem_of_lookup_2 in Hi. destruct Hok. rewrite Forall_forall in rsok_rules, Ht.
  split_and!; [done| | |done|].
  - by eapply keptRule_ok; [apply rsok_rules|apply Ht].
  - apply merge_sort_Permutation.
  - intros Hp. by eapply keptRule_plain; [apply rsok_rules|apply Ht|].
Qed.

Module AuthoredWitnesses.
Import Uuid128 AuthoredExample.

Lemma Authoring_keeps_admitted_witness : good (woStore (runCalls id clock ids None calls start)).
Proof.
  apply (Authoring_keeps_admitted id clock ids None calls start); try done.
  - exact ids_not_nil.
  - exact calls_typed.
  - exact start_good.
Defined.

(** An address group with a name that is no prefix. *)
Definition nowhere : AddressGroup := MkAddressGroup uuid_Nil "nowhere" ["10.0.0.0/40"] 0 0 0.

Definition finds {A} (r : result AuthorError A) : bool :=
  match r with Err (ErrFindings (_ :: _)) => true | _ => false end.


(** A call that succeeded. *)
Definition okay {A} (r : result AuthorError A) : bool := match r with Ok _ => true | Err _ => false end.


Definition older : Ruleset :=
  MkRuleset (of_Z 3) "front" "" true {["app" := ["front"]]} [withProvenance 5 6 1 fromAnywhere] 0 0 1 [].
(** The same rule, switched off, and a new one. *)
Definition newer : Ruleset :=
  MkRuleset (of_Z 3) "front" "" true {["app" := ["front"]]}
    [MkRule (of_Z 4) DIRECTION_INBOUND false "" [MkPeer PeerCIDR ∅ uuid_Nil "10.9.9.9/8"] []
       [MkServiceEntry PROTOCOL_UDP [MkPortRange 53 53]] 0 0 0 [];
     MkRule (of_Z 5) DIRECTION_INBOUND true "" [MkPeer PeerCIDR ∅ uuid_Nil "10.9.9.9/8"] [of_Z 1] [] 0 0 0 []] 0 0 1 [].

Lemma carryRuleProvenance_spec_witness :
  ∃ r0 r1, rsRules (carryRuleProvenance older newer 9) !! 0%nat = Some r0 ∧
    rsRules (carryRuleProvenance older newer 9) !! 1%nat = Some r1 ∧
    ruleCreatedAt r0 = 5 ∧ ruleUpdatedAt r0 = 9 ∧ ruleVersion r0 = 2 ∧ ruleVersion r1 = 1.
Proof.
  destruct (carryRuleProvenance_spec (MkReferences ∅ ∅) older newer 9) as [_ Hall].
  - repeat constructor; set_solver.
  - repeat constructor; vm_compute; eauto.
  - destruct (Hall 0%nat _ eq_refl) as (r0 & H0 & _ & _ & _ & Hold). destruct (Hall 1%nat _ eq_refl) as (r1 & H1 & _ & _ & Hnew & _).
    exists r0, r1. destruct (Hold (withProvenance 5 6 1 fromAnywhere)) as (Hc & _ & Hch); [left|done|].
    destruct Hch as [Hu Hv]; [by intros (_ & He & _)|]. destruct Hnew as (_ & _ & Hv1); [apply (bool_decide_unpack _); vm_compute; exact I|].
    by split_and!.
Defined.

(** A ruleset with its ids, and the objects it names. *)
Definition stored : Ruleset := withRules [withProvenance 5 6 1 fromAnywhere] older.
Definition tables : DB := psDB (woStore (runCalls id clock ids None [CallCreateService web] start)).

Lemma Ruleset_roundtrip_witness :
  ∃ x d', Store_CreateRuleset server stored tables = (Ok (), d') ∧ Store_GetRuleset server (of_Z 3) d' = (Ok x, d') ∧
    rsVersion x = 1 ∧ rsRules x = [withProvenance 0 0 1 fromAnywhere].
Proof.
  destruct (Store_CreateRuleset server stored tables) as [r d'] eqn:Hc.
  assert ((Store_CreateRuleset server stored tables).1 = Ok ()) as Hr by (vm_compute; reflexivity).
  rewrite Hc in Hr. cbn [fst] in Hr. subst r.
  destruct (Ruleset_roundtrip (MkReferences ∅ ∅) server server stored "" 1 tables d') as (x & Hg & _ & _ & _ & _ & _ & Hv & _ & Hk & _).
  - pose proof start_good as [Hw _]. cbn in Hw.
    assert (good (woStore (runCalls (St := PgState) id clock ids None [CallCreateService web] start))) as [Hw' _]; [|exact Hw'].
    unfold runCalls. cbn [foldl]. apply keeps_runCall; [intros s Hs; exact Hs|exact ids_not_nil|discriminate| |exact start_good].
    repeat constructor; cbn; lia.
  - apply (checks_result _ _ (checks_ruleset (MkReferences ∅ ∅) stored)). vm_compute. reflexivity.
  - repeat constructor; cbn; lia.
  - reflexivity.
  - left. split; [exact Hc|reflexivity].
  - exists x, d'. split; [reflexivity|]. split; [exact Hg|]. split; [exact Hv|]. rewrite Hk. reflexivity.
Defined.
End AuthoredWitnesses.

(** ** What storing changes *)

Module AuthoredFindings.
Import Uuid128 AuthoredExample AuthoredWitnesses.

(** All TCP ports, and TCP port 80. *)
Definition allThen80 : Service :=
  MkService (of_Z 7) "all" [MkServiceEntry PROTOCOL_TCP []; MkServiceEntry PROTOCOL_TCP [MkPortRange 80 80]] 0 0 0 [].

(** An entry for all ports is lost when a narrower entry of the same protocol
    follows it.  The service passes admission and is created, and what is stored and
    read back permits port 80 only; in the other order all ports are kept.  The
    comment in [entriesFromRows] says that all ports wins for the protocol. *)
Theorem All_ports_lost :
  let w := (runCall id clock ids None (CallCreateService allThen80) start) in
  ValidateService allThen80 = None ∧ w.1 = Ok () ∧
  svcEntries <$> cServices (content (woStore w.2)) !! of_Z 7 = Some [MkServiceEntry PROTOCOL_TCP [MkPortRange 80 80]] ∧
  pg_keptEntries (reverse (svcEntries allThen80)) = [MkServiceEntry PROTOCOL_TCP []].
Proof. vm_compute. repeat split. Qed.

(** A rule that names its services in an order of its own. *)
Definition shuffled : Rule :=
  MkRule (of_Z 8) DIRECTION_INBOUND true "" [MkPeer PeerCIDR ∅ uuid_Nil "10.0.0.0/8"] [of_Z 6; of_Z 1] [] 0 0 0 [].
Definition db : Service := MkService (of_Z 6) "db" [MkServiceEntry PROTOCOL_TCP [MkPortRange 5432 5432]] 0 0 0 [].
Definition prepared : World PgState :=
  runCalls id clock ids None (calls ++ [CallCreateService db; CallCreateRule (of_Z 3) shuffled]) start.

(** Handing the same rule in again advances its version.  A rule whose services
    are not in the order of their ids is stored in that order; the comparison of
    [RuleEqual] is in order, so an update with the very rule that was created finds
    it changed and makes it version 2.  The comment on [UpdateRuleset] says that the
    version advances only when the rule itself changed. *)
Theorem Resubmitted_rule_advances :
  (λ rs, ruleVersion <$> rsRules rs) <$> cRulesets (content (woStore prepared)) !! of_Z 3 = Some [1; 1] ∧
  match (UpdateRule id clock ids None (of_Z 3) shuffled "" prepared).1 with Ok r' => ruleVersion r' | Err _ => 0 end = 2.
Proof. vm_compute. split; reflexivity. Qed.

(** A rule that names one service twice. *)
Definition twice : Rule :=
  MkRule (of_Z 9) DIRECTION_INBOUND true "" [MkPeer PeerCIDR ∅ uuid_Nil "10.0.0.0/8"] [of_Z 1; of_Z 1] [] 0 0 0 [].
Definition twiceSet : Ruleset := MkRuleset (of_Z 10) "twice" "" true {["app" := ["front"]]} [twice] 0 0 0 [].

(** A rule that names a service twice passes admission and cannot be stored.
    No finding is reported, the server never fails, the name and the ids are free and
    the service exists; the primary key of the reference rows refuses the second row,
    and the call ends with an internal error. *)
Theorem Duplicate_service_fails :
  ValidateRuleset twiceSet (refsOf (content (woStore made))) = None ∧
  match (runCall id clock ids None (CallCreateRuleset twiceSet) made).1 with Err (ErrStore StoreFailure) => true | _ => false end = true.
Proof. vm_compute. split; reflexivity. Qed.
End AuthoredFindings.
