(* ===== verification/RegistryProps.v ===== *)
(** * What the registry's writes keep

    The operations of the store as a step relation: the invariants of a workload's row,
    what never goes back, what a retirement freezes, and the addresses a workload is
    reached at. *)

From S2P Require Import Prelude GoStd Netip Wire Uuid Identity Policy Registry Rendered Compiler Enforce Ingest IngestService Authoring Fleet Postgres PolicyStore RegistryStore RegistryLaws.
Local Open Scope Z_scope.

(** ** The operations as steps *)

Section steps.
Context `{UUIDLib} `{PgLib} `{FactsCodec} `{PolicyCodec}.

(** A write of the store that names one workload.  [RenderTx] and [SetWorkloadModes]
    write other columns by the same statements. *)
Inductive RegWrite :=
| WriteLabels (labels : list Label) (expect : string)
| WriteMode (mode : EnforcementMode)
| WriteFacts (facts : option HostFacts) (now : Z)
| WriteListening (services : list ListeningService) (now : Z)
| WriteAgent (version : string) (capabilities : list string) (applied : Z) (presented : option PresentedCredential) (now : Z)
| WriteHeartbeat (hb : RegHeartbeat) (now : Z)
| WriteSyncState (state : SyncState) (detail : string) (now : Z)
| WriteApplied (version : Z) (state : SyncState) (now : Z)
| WriteApplyFailed (detail : string) (now : Z)
| WriteSnapshotSent (at_ : Z)
| WriteClock (offset : Z) (skewed : bool) (receivedAt : Z)
| WriteReport (receivedAt : Z)
| WriteRenewal (serial : string) (expiresAt now : Z) (late : option LateRenewal)
| WriteRetired (at_ : Z).

Definition ignore {A} (body : RegistryDB → result RegError (A * RegistryDB)) : RegistryDB → result RegError (() * RegistryDB) :=
  λ d, ad ← body d; Ok ((), ad.2).

Definition runWrite (id : WorkloadID) (w : RegWrite) : RegistryDB → result RegError (() * RegistryDB) :=
  match w with
  | WriteLabels labels expect => Store_ReplaceWorkloadLabels id labels expect
  | WriteMode mode => Store_SetWorkloadMode id mode
  | WriteFacts facts now => ignore (Store_RecordFacts id facts now)
  | WriteListening services now => Store_RecordListeningServices id services now
  | WriteAgent version capabilities applied presented now => Store_RecordAgent id version capabilities applied presented now
  | WriteHeartbeat hb now => Store_RecordHeartbeat id hb now
  | WriteSyncState state detail now => Store_SetSyncState id state detail now
  | WriteApplied version state now => Store_RecordApplied id version state now
  | WriteApplyFailed detail now => Store_RecordApplyFailed id detail now
  | WriteSnapshotSent at_ => Store_RecordSnapshotSent id at_
  | WriteClock offset skewed receivedAt => Store_RecordClockReading id offset skewed receivedAt
  | WriteReport receivedAt => ignore (Store_RecordFlowReport id receivedAt)
  | WriteRenewal serial expiresAt now late => Store_RecordRenewal id serial expiresAt now late
  | WriteRetired at_ => retireTx_StampRetired id at_
  end.

(** One call, whatever its answer. *)
Definition reg_step (d d' : RegistryDB) : Prop := ∃ id w ans, (call ans (runWrite id w) d).2 = d'.

(** ** Rows *)

(** The pairs of columns that are written together, and the instant of an absent
    table. *)
Record row_ok (r : workloadRow) : Prop := {
  ro_table : scOwnedTable (wkSync r) = OWNED_TABLE_STATE_ABSENT ↔ is_Some (scAbsentSince (wkSync r));
  ro_late : is_Some (ccLateRenewalAt (wkCredential r)) ↔ is_Some (ccLateRenewalExpiredAt (wkCredential r));
  ro_presented : is_Some (ccPresentedSerial (wkCredential r)) ↔ is_Some (ccPresentedExpiresAt (wkCredential r));
  ro_process : is_Some (acLastHeartbeatAt (wkAgent r)) ↔ is_Some (acStartedAt (wkAgent r));
}.

(** What no write takes back. *)
Record row_keeps (r r' : workloadRow) : Prop := {
  rk_enrolled : wkEnrolledAt r' = wkEnrolledAt r;
  rk_retired t : wkRetiredAt r = Some t → wkRetiredAt r' = Some t;
  rk_report t : ecLastFlowReportAt (wkEvidence r) = Some t → ∃ t', ecLastFlowReportAt (wkEvidence r') = Some t' ∧ t ≤ t';
  rk_late : is_Some (ccLateRenewalAt (wkCredential r)) → is_Some (ccLateRenewalAt (wkCredential r'));
  rk_presented : is_Some (ccPresentedSerial (wkCredential r)) → is_Some (ccPresentedSerial (wkCredential r'));
}.

(** While a table stays absent the instant is the first one. *)
Definition absence_kept (r r' : workloadRow) : Prop :=
  scOwnedTable (wkSync r) = OWNED_TABLE_STATE_ABSENT → scOwnedTable (wkSync r') = OWNED_TABLE_STATE_ABSENT →
  scAbsentSince (wkSync r') = scAbsentSince (wkSync r).

(** A change of a row that is sound: it may rely on the row being sound. *)
Record row_step (r r' : workloadRow) : Prop := {
  rs_keeps : row_keeps r r';
  rs_ok : row_ok r → row_ok r';
  rs_absence : row_ok r → absence_kept r r';
}.

Lemma row_step_refl r : row_step r r.
Proof. split; [|done|done]. split; try done. intros t ->. exists t. split; [done|lia]. Qed.

Definition rows_ok (d : RegistryDB) : Prop := map_Forall (λ _ r, row_ok r) (rgWorkloads d).

(** The tables of workloads of two states, row by row. *)
Definition rows_step (d d' : RegistryDB) : Prop :=
  ∀ id, option_Forall2 row_step (rgWorkloads d !! id) (rgWorkloads d' !! id).

Lemma rows_step_refl d : rows_step d d.
Proof. intros id. destruct (rgWorkloads d !! id); constructor. apply row_step_refl. Qed.

Lemma rows_step_same d d' : rgWorkloads d' = rgWorkloads d → rows_step d d'.
Proof. intros E id. rewrite E. apply rows_step_refl. Qed.

Lemma updateRow_step cond f id d :
  (∀ r, cond r = true → row_step r (f r)) → rows_step d (updateRow cond f id d).2.
Proof.
  intros Hf. unfold updateRow. destruct (rgWorkloads d !! id) as [r|] eqn:Hr; [|apply rows_step_refl].
  destruct (cond r) eqn:Hc; [|apply rows_step_refl]. intros x. cbn [snd setWorkloads rgWorkloads].
  destruct (decide (x = id)) as [->|Hx].
  - rewrite Hr, lookup_insert_eq. constructor. auto.
  - rewrite lookup_insert_ne by done. apply rows_step_refl.
Qed.

(** The body of a call makes a sound step. *)
Definition sound {A} (body : RegistryDB → result RegError (A * RegistryDB)) : Prop :=
  ∀ d a d', body d = Ok (a, d') → rows_step d d'.

Lemma conditioned_sound f id : (∀ r, active r = true → row_step r (f r)) → sound (conditioned f id).
Proof.
  intros Hf d a d'. unfold conditioned. pose proof (updateRow_step active f (wid id) d Hf) as Hs.
  destruct (updateRow active f (wid id) d) as [[|n] d1]; [done|]. by intros [= _ <-].
Qed.

Lemma unconditioned_sound f id : (∀ r, row_step r (f r)) → sound (unconditioned f id).
Proof.
  intros Hf d a d'. unfold unconditioned. pose proof (updateRow_step (λ _, true) f (wid id) d (λ r _, Hf r)) as Hs.
  destruct (updateRow (λ _, true) f (wid id) d) as [[|n] d1]; [done|]. by intros [= _ <-].
Qed.

(** A step given column group by column group. *)
Lemma row_step_cols r r' :
  wkEnrolledAt r' = wkEnrolledAt r →
  (∀ t, wkRetiredAt r = Some t → wkRetiredAt r' = Some t) →
  (∀ t, ecLastFlowReportAt (wkEvidence r) = Some t → ∃ t', ecLastFlowReportAt (wkEvidence r') = Some t' ∧ t ≤ t') →
  (is_Some (ccLateRenewalAt (wkCredential r)) → is_Some (ccLateRenewalAt (wkCredential r'))) →
  (is_Some (ccPresentedSerial (wkCredential r)) → is_Some (ccPresentedSerial (wkCredential r'))) →
  (row_ok r → row_ok r' ∧ absence_kept r r') → row_step r r'.
Proof. intros. split; [by split|naive_solver|naive_solver]. Qed.

Lemma report_same r r' :
  ecLastFlowReportAt (wkEvidence r') = ecLastFlowReportAt (wkEvidence r) →
  ∀ t, ecLastFlowReportAt (wkEvidence r) = Some t → ∃ t', ecLastFlowReportAt (wkEvidence r') = Some t' ∧ t ≤ t'.
Proof. intros -> t ->. exists t. split; [done|lia]. Qed.

(** A write of columns the invariants do not mention. *)
Lemma row_step_quiet r r' :
  wkEnrolledAt r' = wkEnrolledAt r → wkRetiredAt r' = wkRetiredAt r →
  ecLastFlowReportAt (wkEvidence r') = ecLastFlowReportAt (wkEvidence r) →
  ccLateRenewalAt (wkCredential r') = ccLateRenewalAt (wkCredential r) →
  ccLateRenewalExpiredAt (wkCredential r') = ccLateRenewalExpiredAt (wkCredential r) →
  ccPresentedSerial (wkCredential r') = ccPresentedSerial (wkCredential r) →
  ccPresentedExpiresAt (wkCredential r') = ccPresentedExpiresAt (wkCredential r) →
  acLastHeartbeatAt (wkAgent r') = acLastHeartbeatAt (wkAgent r) → acStartedAt (wkAgent r') = acStartedAt (wkAgent r) →
  scOwnedTable (wkSync r') = scOwnedTable (wkSync r) → scAbsentSince (wkSync r') = scAbsentSince (wkSync r) →
  row_step r r'.
Proof.
  intros He Hr Hf Hl Hle Hp Hpe Hh Hs Ho Ha. apply row_step_cols; [done|by rewrite Hr|by apply report_same|by rewrite Hl|by rewrite Hp|].
  intros [Ht Hla Hpr Hpc]. split; [|intros _ _; done]. split; by rewrite ?Ho, ?Ha, ?Hl, ?Hle, ?Hp, ?Hpe, ?Hh, ?Hs.
Qed.

Lemma agent_step r version capabilities applied presented now :
  row_step r
    (onCredential (λ c, MkCredentialCols (ccSerial c) (ccExpiresAt c) (ccLastRenewedAt c) (ccLateRenewalAt c)
        (ccLateRenewalExpiredAt c)
        (match presSerial <$> presented with Some s => Some s | None => ccPresentedSerial c end)
        (match presExpiresAt <$> presented with Some t => Some (pgTime t) | None => ccPresentedExpiresAt c end)
        (ccRenewalError c))
    (onSync (λ s, MkSyncCols (scState s) (i64 applied) (scError s) (scLastSnapshotSentAt s) (scLastAckedAt s)
        (scLastApplyFailedAt s) (scOwnedTable s) (scAbsentSince s))
    (onAgent (λ a, MkAgentCols version capabilities (Some (pgTime now)) (acLastHeartbeatAt a) (acStartedAt a)) r))).
Proof.
  destruct presented as [[serial expires]|]; [|by apply row_step_quiet].
  apply row_step_cols; [done|done|by apply report_same|done|done|]. intros [Ht Hl Hp Hc]. split; [|done].
  split; [exact Ht|exact Hl| |exact Hc]. cbn. split; eauto.
Qed.

Lemma heartbeat_step r hb now :
  row_step r
    (onCredential (λ c, MkCredentialCols (ccSerial c) (ccExpiresAt c) (ccLastRenewedAt c) (ccLateRenewalAt c)
        (ccLateRenewalExpiredAt c) (ccPresentedSerial c) (ccPresentedExpiresAt c) (rhRenewalError hb))
    (onEvidence (λ e, MkEvidenceCols (i64 (rhDropped hb)) (i64 (rhOverruns hb)) (ecSkewOffsetMs e) (ecSkewObservedAt e)
        (ecSkewCurrent e) (ecLastFlowReportAt e))
    (onSync (heartbeatTable (rhOwnedTable hb) (pgTime now))
    (onAgent (λ a, MkAgentCols (acVersion a) (acCapabilities a) (Some (pgTime now)) (Some (pgTime now))
        (Some (pgTime (now - rhUptime hb)))) r)))).
Proof.
  apply row_step_cols; [done|done|by apply report_same|done|done|]. intros [Ht Hl Hp Hc]. split.
  - split; [|exact Hl|exact Hp|cbn; split; eauto].
    destruct (rhOwnedTable hb); [exact Ht|cbn; split; [done|by intros []]|cbn; split; eauto].
  - unfold absence_kept. cbn [onCredential onEvidence onSync onAgent wkSync]. intros Habs. apply Ht in Habs as [t Ha].
    destruct (rhOwnedTable hb); cbn; [done|done|]. intros _. by rewrite Ha.
Qed.

Lemma applied_step r version state now :
  row_step r
    (onSync (λ s, MkSyncCols state (i64 version) "" (scLastSnapshotSentAt s) (Some (pgTime now)) (scLastApplyFailedAt s)
        (match scOwnedTable s with OWNED_TABLE_STATE_ABSENT => OWNED_TABLE_STATE_PRESENT | t => t end) None)
    (onAgent (seen (pgTime now)) r)).
Proof.
  apply row_step_cols; [done|done|by apply report_same|done|done|]. intros [Ht Hl Hp Hc]. split.
  - split; [|exact Hl|exact Hp|exact Hc]. cbn. split; [by destruct (scOwnedTable _)|by intros []].
  - unfold absence_kept. cbn. by destruct (scOwnedTable _).
Qed.

Lemma renewal_step r serial expiresAt now late :
  row_step r (onCredential (λ c,
    MkCredentialCols serial (pgTime expiresAt) (Some (pgTime now))
      (match late with None => ccLateRenewalAt c | Some _ => Some (pgTime now) end)
      (match late with None => ccLateRenewalExpiredAt c | Some l => Some (pgTime (lrExpiredAt l)) end)
      (ccPresentedSerial c) (ccPresentedExpiresAt c) (ccRenewalError c)) r).
Proof.
  destruct late as [l|]; [|by apply row_step_quiet].
  apply row_step_cols; [done|done|by apply report_same|by cbn; eauto|done|]. intros [Ht Hl Hp Hc].
  split; [|done]. split; [exact Ht|cbn; split; eauto|exact Hp|exact Hc].
Qed.

Lemma retired_step r at_ : active r = true → row_step r (rowRetired at_ r).
Proof.
  intros Hr%bool_decide_eq_true. apply row_step_cols; [done|intros t; congruence|by apply report_same|done|done|].
  intros [? ? ? ?]. split; [by split|done].
Qed.

(** Writes of other tables. *)
Lemma facts_sound id facts now : sound (Store_RecordFacts id facts now).
Proof.
  intros d a d'. unfold Store_RecordFacts. rewrite result_bind_Ok. intros (b & _ & Hrest).
  apply result_bind_Ok in Hrest as ([[] d1] & Hc & Hrest). cbn [snd] in Hrest.
  assert (rows_step d d1) as Hs.
  { eapply (conditioned_sound _ id); [|exact Hc]. intros r _. by apply row_step_quiet. }
  destruct (sameAddresses _ _); [by injection Hrest as _ <-|].
  apply result_bind_Ok in Hrest as (t & _ & [= _ <-]). exact Hs.
Qed.

Lemma report_sound id at_ : sound (Store_RecordFlowReport id at_).
Proof.
  intros d a d'. unfold Store_RecordFlowReport. destruct (rgWorkloads d !! wid id) as [r0|]; [|intros [= _ <-]; apply rows_step_refl].
  match goal with |- context [if ?b then _ else _] => destruct b end; [|intros [= _ <-]; apply rows_step_refl].
  intros [= _ <-]. apply updateRow_step. intros r [Hact Hadv]%andb_true_iff.
  apply row_step_cols; [done|done| |done|done|].
  - cbn. intros t Ht. rewrite Ht in Hadv. apply bool_decide_eq_true in Hadv. eexists. split; [done|lia].
  - intros [? ? ? ?]. split; [by split|done].
Qed.

Lemma runWrite_sound id w : sound (runWrite id w).
Proof.
  destruct w; cbn [runWrite].
  - intros d a d'. unfold Store_ReplaceWorkloadLabels. destruct (lockedRow id d) as [r|]; [|done].
    destruct (wkRetiredAt r); [done|]. destruct (decide _); [done|].
    rewrite result_bind_Ok. intros (t & _ & [= _ <-]). by apply rows_step_same.
  - apply unconditioned_sound. intros r. by apply row_step_quiet.
  - intros d a d'. unfold ignore. rewrite result_bind_Ok. intros ([b d1] & Hb & [= _ <-]). by eapply facts_sound.
  - intros d a d'. unfold Store_RecordListeningServices. rewrite result_bind_Ok. intros ([[] d1] & Hc & [= _ <-]).
    assert (rows_step d d1) as Hs; [|exact Hs].
    eapply (conditioned_sound _ id); [|exact Hc]. intros r _. by apply row_step_quiet.
  - apply conditioned_sound. intros r _. apply agent_step.
  - apply conditioned_sound. intros r _. apply heartbeat_step.
  - apply unconditioned_sound. intros r. by apply row_step_quiet.
  - apply conditioned_sound. intros r _. apply applied_step.
  - apply conditioned_sound. intros r _. by apply row_step_quiet.
  - apply unconditioned_sound. intros r. by apply row_step_quiet.
  - intros d a d' [= _ <-]. apply updateRow_step. intros r _. by apply row_step_quiet.
  - intros d a d'. unfold ignore. rewrite result_bind_Ok. intros ([b d1] & Hb & [= _ <-]). by eapply report_sound.
  - apply conditioned_sound. intros r _. apply renewal_step.
  - intros d a d'. unfold retireTx_StampRetired.
    pose proof (updateRow_step active (rowRetired (pgTime at_)) (wid id) d (λ r, retired_step r _)) as Hs.
    destruct (updateRow active _ (wid id) d) as [[|n] d1]; [done|]. by intros [= _ <-].
Qed.

Lemma reg_step_rows d d' : reg_step d d' → rows_step d d'.
Proof.
  intros (id & w & ans & <-). unfold call. pose proof (runWrite_sound id w d) as Hs.
  destruct ans; [|apply rows_step_refl|]; (destruct (runWrite id w d) as [[a d1]|e]; [by eapply Hs|apply rows_step_refl]).
Qed.

(** Along any number of calls. *)
Lemma row_keeps_trans r1 r2 r3 : row_keeps r1 r2 → row_keeps r2 r3 → row_keeps r1 r3.
Proof.
  intros [? ? Hr ? ?] [? ? Hr' ? ?]. split; [congruence|auto| |auto|auto].
  intros t (t' & Ht' & ?)%Hr. destruct (Hr' t' Ht') as (t'' & ? & ?). exists t''. split; [done|lia].
Qed.
End steps.

(** C26: the rows of the registry stay sound.  After any calls of the store, whatever
    their answers, from a state whose rows are sound: the owned table is recorded
    absent exactly when an instant of absence is; a late renewal, a presented
    credential and a process are recorded with both of their columns or neither; no
    workload disappears or is enrolled again, a retirement is never lifted or
    restamped, and the receipt of flow reports never goes back.  While the table stays
    absent, a call keeps the first instant. *)
Theorem Registry_rows_sound `{UUIDLib} `{PgLib} `{FactsCodec} `{PolicyCodec} d d' :
  rtc reg_step d d' → rows_ok d →
  rows_ok d' ∧
  (∀ id r, rgWorkloads d !! id = Some r → ∃ r', rgWorkloads d' !! id = Some r' ∧ row_keeps r r') ∧
  (∀ d'' id r r', reg_step d' d'' → rgWorkloads d' !! id = Some r → rgWorkloads d'' !! id = Some r' → absence_kept r r').
Proof.
  intros Hrun Hok.
  assert (rows_ok d' ∧ ∀ id r, rgWorkloads d !! id = Some r → ∃ r', rgWorkloads d' !! id = Some r' ∧ row_keeps r r') as [Hok' Hk].
  { induction Hrun as [d|d d1 d2 Hs%reg_step_rows Hrun IH].
    - split; [done|]. intros id r Hr. exists r. split; [done|]. apply (row_step_refl r).
    - destruct IH as [Hok2 Hk].
      { intros id r1 Hr1. specialize (Hs id). rewrite Hr1 in Hs. inversion Hs as [r r1' Hrs Hr E|]; subst.
        apply Hrs. by apply (Hok id). }
      split; [done|]. intros id r Hr. specialize (Hs id). rewrite Hr in Hs. inversion Hs as [r0 r1 Hrs E Hr1|]; subst.
      destruct (Hk id r1 (eq_sym Hr1)) as (r2 & Hr2 & Hk2). exists r2. split; [done|].
      eapply row_keeps_trans; [apply Hrs|done]. }
  split_and!; [done|done|]. intros d'' id r r' Hs%reg_step_rows Hr Hr'. specialize (Hs id). rewrite Hr, Hr' in Hs.
  inversion Hs as [r0 r1 Hrs E1 E2|]; subst. apply Hrs. by apply (Hok' id).
Qed.

(** ** Retirement freezes a row *)

Section retired.
Context `{UUIDLib} `{PgLib} `{FactsCodec} `{PolicyCodec}.

(** The writes that refuse a retired workload. *)
Definition refuses (w : RegWrite) : bool :=
  match w with
  | WriteLabels _ _ | WriteFacts _ _ | WriteListening _ _ | WriteAgent _ _ _ _ _ | WriteHeartbeat _ _
  | WriteApplied _ _ _ | WriteApplyFailed _ _ | WriteRenewal _ _ _ _ => true
  | WriteMode _ | WriteSyncState _ _ _ | WriteSnapshotSent _ | WriteClock _ _ _ | WriteReport _ | WriteRetired _ => false
  end.

(** Facts that are reported are encoded first. *)
Definition encodable (facts : option HostFacts) : Prop :=
  match facts with None => True | Some f => is_Some (facts_Marshal f) end.
Definition write_encodes (w : RegWrite) : Prop :=
  match w with WriteFacts facts _ => encodable facts | _ => True end.

Lemma conditioned_retired f id d r t :
  rgWorkloads d !! wid id = Some r → wkRetiredAt r = Some t → conditioned f id d = Err (RegRetired id t).
Proof.
  intros Hr Ht. unfold conditioned, updateRow, absent. rewrite Hr. unfold active. by rewrite Ht.
Qed.

Lemma facts_encode facts :
  encodable facts → ∃ b, match facts with
    | None => Ok None
    | Some f => match facts_Marshal f with Some b => Ok (Some b) | None => Err RegFailure end
    end = Ok b.
Proof. destruct facts as [f|]; cbn; [|eauto]. intros [b ->]. eauto. Qed.

Lemma runWrite_retired id w d r t :
  rgWorkloads d !! wid id = Some r → wkRetiredAt r = Some t → refuses w = true → write_encodes w →
  runWrite id w d = Err (RegRetired id t).
Proof.
  intros Hr Ht Hw Henc. destruct w; try discriminate Hw; cbn [runWrite];
    try (by eapply conditioned_retired).
  - unfold Store_ReplaceWorkloadLabels, lockedRow. by rewrite Hr, Ht.
  - unfold ignore, Store_RecordFacts. destruct (facts_encode facts Henc) as [b ->]. cbn [mbind result_bind].
    by rewrite (conditioned_retired _ _ _ _ _ Hr Ht).
  - unfold Store_RecordListeningServices. by rewrite (conditioned_retired _ _ _ _ _ Hr Ht).
Qed.
End retired.

(** A retired workload is frozen.  Every write an agent or an operator makes of a
    retired workload's labels, facts, listening services, agent, heartbeat,
    acknowledgement, failed apply or credential is refused, naming the workload and
    the instant it was retired, and changes nothing; a flow report does not move its
    receipt; and it is not retired again. *)
Theorem Retired_frozen `{UUIDLib} `{PgLib} `{FactsCodec} `{PolicyCodec} id d r t ans :
  rgWorkloads d !! wid id = Some r → wkRetiredAt r = Some t →
  (∀ w, refuses w = true → write_encodes w →
     call ans (runWrite id w) d = (Err (match ans with Fails => RegFailure | _ => RegRetired id t end), d)) ∧
  (∀ receivedAt, call ans (Store_RecordFlowReport id receivedAt) d =
     (match ans with Answers => Ok None | _ => Err RegFailure end, d)) ∧
  (∀ at_, call ans (retireTx_StampRetired id at_) d = (Err RegFailure, d)).
Proof.
  intros Hr Ht. split_and!.
  - intros w Hw Henc. unfold call. rewrite (runWrite_retired id w d r t) by done. by destruct ans.
  - intros at_. unfold call, Store_RecordFlowReport. rewrite Hr. unfold active. rewrite Ht. by destruct ans.
  - intros at_. unfold call, retireTx_StampRetired, updateRow. rewrite Hr. unfold active. rewrite Ht. by destruct ans.
Qed.

(** ** Addresses *)

Section addresses.
Context `{UUIDLib} `{PgLib} `{FactsCodec} `{PolicyCodec}.

Lemma elem_of_addressesOf id d s : s ∈ addressesOf id d ↔ (id, s) ∈ rgAddresses d.
Proof.
  unfold addressesOf, addressRows. rewrite list_elem_of_fmap. setoid_rewrite list_elem_of_filter.
  setoid_rewrite merge_sort_Permutation. setoid_rewrite list_elem_of_fmap. split.
  - intros (a & -> & <- & [o x] & -> & Hin%elem_of_elements). done.
  - intros Hin%elem_of_elements. exists (MkAddressRow id s). split_and!; [done|done|]. by exists (id, s).
Qed.

Lemma addressesOf_NoDup id d : NoDup (addressesOf id d).
Proof.
  unfold addressesOf. apply NoDup_fmap_2_strong.
  - intros [o1 a1] [o2 a2] [E1 _]%list_elem_of_filter [E2 _]%list_elem_of_filter. cbn in *. congruence.
  - apply NoDup_filter. unfold addressRows. rewrite merge_sort_Permutation. apply NoDup_fmap_2_strong; [|apply NoDup_elements].
    intros [o1 a1] [o2 a2] _ _. by intros [= -> ->].
Qed.

Lemma reached_ok facts a : a ∈ AddressesFromFacts facts → Addr_ok a ∧ a ≠ AddrZero.
Proof.
  intros (iface & s & x & _ & _ & Hp & -> & _)%AddressesFromFacts_spec. unfold parseAddr in Hp.
  assert (Addr_ok x ∧ x ≠ AddrZero) as [Hok Hz].
  { destruct (ParsePrefix s) as [p|] eqn:E; [|by eapply ParseAddr_ok].
    injection Hp as <-. apply ParsePrefix_ok in E as (? & ? & _). done. }
  split; [by apply Unmap_ok|]. by rewrite Unmap_zero.
Qed.

Lemma reached_strings facts : NoDup (Addr_String <$> AddressesFromFacts facts).
Proof.
  apply NoDup_fmap_2_strong.
  - intros a b [Ha Hza]%reached_ok [Hb Hzb]%reached_ok Heq. apply (f_equal ParseAddr) in Heq.
    rewrite !ParseAddr_String in Heq by done. by injection Heq.
  - unfold AddressesFromFacts. rewrite sortAddrs_Permutation.
    destruct (takeInterfaces_spec (GetInterfaces facts) ∅ []) as (seen & out & -> & Hnd & _); [set_solver|constructor|done].
Qed.

Definition reached_at (facts : option HostFacts) (s : string) : Prop := s ∈ Addr_String <$> AddressesFromFacts facts.

Lemma sameAddresses_spec old facts :
  NoDup old → sameAddresses old (AddressesFromFacts facts) = true ↔ ∀ s, s ∈ old ↔ reached_at facts s.
Proof.
  intros Hold. unfold sameAddresses, reached_at. rewrite andb_true_iff, bool_decide_eq_true, forallb_forall.
  setoid_rewrite <-list_elem_of_In. setoid_rewrite bool_decide_eq_true. setoid_rewrite elem_of_list_to_set.
  pose proof (reached_strings facts) as Hcur. set (cur := AddressesFromFacts facts) in *. split.
  - intros [Hlen Hin].
    assert (Addr_String <$> cur ⊆+ old) as Hsub.
    { apply NoDup_submseteq; [done|]. intros s (a & -> & Ha)%list_elem_of_fmap. auto. }
    apply submseteq_length_Permutation in Hsub; [|rewrite length_fmap; lia]. intros s. by rewrite Hsub.
  - intros Hiff. split.
    + rewrite <-(length_fmap Addr_String cur). by apply Permutation_length, NoDup_Permutation.
    + intros a Ha. apply Hiff. by apply list_elem_of_fmap_2.
Qed.

Lemma addAddresses_spec id l t :
  NoDup (Addr_String <$> l) → (∀ a, a ∈ l → (id, Addr_String a) ∉ t) →
  ∃ t', addAddresses id l t = Ok t' ∧ ∀ o s, (o, s) ∈ t' ↔ (o, s) ∈ t ∨ o = id ∧ s ∈ Addr_String <$> l.
Proof.
  revert t. induction l as [|a l IH]; intros t; cbn [addAddresses fmap list_fmap].
  - intros _ _. exists t. split; [done|]. set_solver.
  - intros [Ha Hnd]%NoDup_cons Hnew. rewrite decide_False by (apply Hnew; left).
    destruct (IH ({[(id, Addr_String a)]} ∪ t) Hnd) as (t' & -> & Ht').
    { intros b Hb [Heq|Hin]%elem_of_union; [|by apply (Hnew b); [right|]].
      apply elem_of_singleton in Heq. injection Heq as Heq. apply Ha. rewrite <-Heq. by apply list_elem_of_fmap_2. }
    exists t'. split; [done|]. intros o s. rewrite Ht', elem_of_union, elem_of_singleton, elem_of_cons.
    split; [intros [[[= -> ->]|?]|[? ?]]; auto|intros [?|[-> [->|?]]]; auto].
Qed.

(** What a report of facts leaves of the addresses. *)
Definition facts_recorded (id : WorkloadID) (facts : option HostFacts) (d : RegistryDB) (changed : bool) (d' : RegistryDB) : Prop :=
  (∀ s, s ∈ addressesOf (wid id) d' ↔ reached_at facts s) ∧
  (∀ a, a ∈ omap ParseAddr (addressesOf (wid id) d') ↔ a ∈ AddressesFromFacts facts) ∧
  (changed = false ↔ ∀ s, s ∈ addressesOf (wid id) d ↔ reached_at facts s) ∧
  ∀ o, o ≠ wid id → ∀ s, s ∈ addressesOf o d' ↔ s ∈ addressesOf o d.

Lemma reached_parse facts (l : list string) :
  (∀ s, s ∈ l ↔ reached_at facts s) → ∀ a, a ∈ omap ParseAddr l ↔ a ∈ AddressesFromFacts facts.
Proof.
  intros Hl a. rewrite list_elem_of_omap. split.
  - intros (s & (b & -> & Hb)%Hl%list_elem_of_fmap & Hp). destruct (reached_ok _ _ Hb).
    rewrite ParseAddr_String in Hp by done. by injection Hp as <-.
  - intros Ha. destruct (reached_ok _ _ Ha). exists (Addr_String a). split; [|by apply ParseAddr_String].
    apply Hl. by apply list_elem_of_fmap_2.
Qed.
End addresses.

(** A report of facts leaves the workload reached at exactly the addresses it
    names.  For an active workload and facts that can be encoded the report is
    recorded; afterwards the stored addresses are those derived from the facts and
    parse back to them, a change is reported exactly when the set is another one than
    before, and no other workload's addresses change. *)
Theorem RecordFacts_addresses `{UUIDLib} `{PgLib} `{FactsCodec} `{PolicyCodec} id facts now d r :
  rgWorkloads d !! wid id = Some r → wkRetiredAt r = None → encodable facts →
  ∃ changed d', Store_RecordFacts id facts now d = Ok (changed, d') ∧ facts_recorded id facts d changed d'.
Proof.
  intros Hr Ht Henc. unfold Store_RecordFacts. destruct (facts_encode facts Henc) as [b ->]. cbn [mbind result_bind].
  unfold conditioned, updateRow. rewrite Hr.
  assert (active r = true) as -> by (unfold active; by rewrite Ht). cbn [mbind result_bind snd fst].
  set (d1 := setWorkloads _ d). change (addressesOf (wid id) d1) with (addressesOf (wid id) d).
  pose proof (sameAddresses_spec (addressesOf (wid id) d) facts (addressesOf_NoDup _ _)) as Hsame.
  destruct (sameAddresses _ _) eqn:E.
  - exists false, d1. split; [done|]. pose proof (proj1 Hsame eq_refl) as Hin.
    split_and!; [exact Hin|by apply reached_parse|done|done].
  - destruct (addAddresses_spec (wid id) (AddressesFromFacts facts)
      (filter (λ k, k.1 ≠ wid id) (rgAddresses d1)) (reached_strings facts)) as (t & -> & Htab).
    { intros a _ [Hne _]%elem_of_filter. by apply Hne. }
    cbn [mbind result_bind]. eexists true, _. split; [reflexivity|].
    assert (∀ o s, s ∈ addressesOf o (setAddresses t d1) ↔
      o ≠ wid id ∧ s ∈ addressesOf o d ∨ o = wid id ∧ reached_at facts s) as Hall.
    { intros o s. rewrite !elem_of_addressesOf. cbn [setAddresses rgAddresses]. rewrite Htab, elem_of_filter. done. }
    assert (∀ s, s ∈ addressesOf (wid id) (setAddresses t d1) ↔ reached_at facts s) as Hmine by (intros s; rewrite Hall; tauto).
    split_and!; [exact Hmine|by apply reached_parse| |intros o Ho s; rewrite Hall; tauto].
    split; [done|]. intros Hs%Hsame. discriminate Hs.
Qed.
