(* ===== verification/RegistryStream.v ===== *)
(** * Streams over the registry, and examples

    The messages of a sync stream ([GatewaySync.v]) with the store they write to, and
    an estate of three workloads on which the fleet and registry theorems evaluate. *)

From S2P Require Import Prelude GoStd Netip Wire Uuid Identity Policy Registry Rendered Compiler Enforce Ingest IngestService Authoring AuthoringFacts Fleet Postgres PolicyStore RegistryStore RegistryLaws RegistryProps PolicyStoreProps.
From S2P Require Import GatewaySync.
Local Open Scope Z_scope.

Section stream.
Context `{UUIDLib} `{PgLib} `{FactsCodec} `{PolicyCodec}.

(** The calls of [handleMessage] and [handleAck] on the store: whether addresses
    changed, and the state after. *)
Definition applyWrite (id : WorkloadID) (now : Z) (w : RegistryWrite) : RegistryDB → result RegError (bool * RegistryDB) :=
  let quiet body d := ud ← body d; Ok (false, (ud : () * RegistryDB).2) in
  match w with
  | RecordApplied version state => quiet (Store_RecordApplied id version state now)
  | RecordApplyFailed detail => quiet (Store_RecordApplyFailed id detail now)
  | RecordFacts facts => Store_RecordFacts id facts now
  | RecordListeningServices services => quiet (Store_RecordListeningServices id services now)
  | RecordHeartbeat dropped overruns renewalError table uptime =>
      quiet (Store_RecordHeartbeat id (MkRegHeartbeat dropped overruns renewalError table uptime) now)
  end.

(** What the stream makes of the store's error. *)
Definition errorOf (e : RegError) : RegistryError :=
  match e with RegRetired _ _ => RetiredWorkload | _ => OtherError end.

(** The writes in order, up to the first that fails. *)
Fixpoint runWrites (answers : nat → Answer) (id : WorkloadID) (now : Z) (i : nat) (ws : list RegistryWrite) (d : RegistryDB)
  : option (nat * RegistryError) * bool * RegistryDB :=
  match ws with
  | [] => (None, false, d)
  | w :: ws' =>
      match call (answers i) (applyWrite id now w) d with
      | (Err e, d') => (Some (i, errorOf e), false, d')
      | (Ok c, d') => let '(err, c', d'') := runWrites answers id now (S i) ws' d' in (err, c || c', d'')
      end
  end.

(** One message served. *)
Definition serveMessage (answers : nat → Answer) (id : WorkloadID) (now : Z) (s : session) (msg : SyncRequest) (d : RegistryDB)
  : Reaction * RegistryDB :=
  let ws := (handleMessage s msg (λ _, None) false).1 in
  let '(err, changed, d') := runWrites answers id now 0 ws d in
  let errs i := match err with Some (j, e) => if decide (i = j) then Some e else None | None => None end in
  ((handleMessage s msg errs changed).2, d').

(** A message whose handling writes. *)
Definition writing (msg : SyncRequest) : Prop :=
  match msg with
  | ReqPolicyAck ack => paStatus ack = ACK_STATUS_APPLIED ∨ paStatus ack = ACK_STATUS_FAILED
  | ReqInventory r => encodable (irFacts r)
  | ReqHeartbeat _ => True
  | ReqHello _ | ReqUnset => False
  end.

Lemma applyWrite_retired id now w d r t :
  rgWorkloads d !! wid id = Some r → wkRetiredAt r = Some t →
  match w with RecordFacts facts => encodable facts | _ => True end →
  applyWrite id now w d = Err (RegRetired id t).
Proof.
  intros Hr Ht Henc. destruct w as [version state|detail|facts|services|dropped overruns err table uptime]; cbn [applyWrite].
  - pose proof (runWrite_retired id (WriteApplied version state now) d r t Hr Ht eq_refl I) as E. cbn [runWrite] in E. by rewrite E.
  - pose proof (runWrite_retired id (WriteApplyFailed detail now) d r t Hr Ht eq_refl I) as E. cbn [runWrite] in E. by rewrite E.
  - pose proof (runWrite_retired id (WriteFacts facts now) d r t Hr Ht eq_refl Henc) as E. cbn [runWrite] in E.
    unfold ignore in E. destruct (Store_RecordFacts id facts now d) as [[c d1]|e]; [done|]. by injection E as ->.
  - pose proof (runWrite_retired id (WriteListening services now) d r t Hr Ht eq_refl I) as E. cbn [runWrite] in E. by rewrite E.
  - pose proof (runWrite_retired id (WriteHeartbeat (MkRegHeartbeat dropped overruns err table uptime) now) d r t Hr Ht eq_refl I) as E.
    cbn [runWrite] in E. by rewrite E.
Qed.
End stream.

(** The stream of a retired workload ends at its next message that writes, with
    the refusal every door gives a retired identity, and the registry is as it was:
    the messages of the stream over the store's conditioned writes. *)
Theorem Retired_stream_refused `{UUIDLib} `{PgLib} `{FactsCodec} `{PolicyCodec} answers id now s msg d r t :
  rgWorkloads d !! wid id = Some r → wkRetiredAt r = Some t → writing msg → answers 0%nat ≠ Fails →
  serveMessage answers id now s msg d = (Ends RefusedRetired, d).
Proof.
  intros Hr Ht Hw Hans.
  assert (∃ w ws, (handleMessage s msg (λ _, None) false).1 = w :: ws ∧
    match w with RecordFacts facts => encodable facts | _ => True end ∧
    ∀ errs changed, errs 0%nat = Some RetiredWorkload → (handleMessage s msg errs changed).2 = Ends RefusedRetired)
    as (w & ws & Hws & Henc & Hend).
  { destruct msg as [h|ack|inv|hb|]; cbn [writing] in Hw; [done| | | |done].
    - destruct Hw as [Ha|Ha]; cbn [handleMessage]; unfold handleAck; rewrite Ha; eexists _, _;
        (split_and!; [reflexivity|exact I|]); intros errs changed He; by rewrite He.
    - eexists _, _. split_and!; [reflexivity|exact Hw|]. intros errs changed He. cbn [handleMessage]. by rewrite He.
    - eexists _, _. split_and!; [reflexivity|exact I|]. intros errs changed He. cbn [handleMessage]. by rewrite He. }
  unfold serveMessage. rewrite Hws. cbn [runWrites].
  assert (call (answers 0%nat) (applyWrite id now w) d = (Err (RegRetired id t), d)) as ->.
  { unfold call. rewrite (applyWrite_retired id now w d r t) by done. by destruct (answers 0%nat). }
  cbn [errorOf]. f_equal. by apply Hend.
Qed.

(** ** An estate *)

Module RegistryExample.
Import Uuid128 AuthoredExample.

#[global] Instance pg_micros : PgMicros.
Proof. split. intros t Ht. cbn. apply Z.div_exact in Ht; lia. Qed.

#[global] Instance interface_eq_dec : EqDecision NetworkInterface.
Proof. solve_decision. Defined.
#[global] Instance interface_countable : Countable NetworkInterface.
Proof.
  refine (inj_countable' (λ i, (niName i, niAddresses i, niMacAddress i)) (λ '(n, a, m), MkNetworkInterface n a m) _).
  by intros [].
Defined.
#[global] Instance facts_eq_dec : EqDecision HostFacts.
Proof. solve_decision. Defined.
#[global] Instance facts_countable : Countable HostFacts.
Proof.
  refine (inj_countable' (λ f, (hfHostname f, hfInterfaces f)) (λ '(h, i), MkHostFacts h i) _). by intros [].
Defined.
#[global] Instance factsCodec : FactsCodec := {
  facts_Marshal f := Some (BinaryCodec.bits (encode f));
  facts_Unmarshal b := decode (BinaryCodec.unbits b);
}.
#[global] Existing Instance BinaryCodec.codec.
#[global] Existing Instance BinaryCodec.codec_laws.

Definition wuid (n : Z) : WorkloadID := FromUUID (of_Z n).

(** The front lets the database in. *)
Definition fromDB : Rule :=
  MkRule uuid_Nil DIRECTION_INBOUND true "" [MkPeer PeerWorkloads {["app" := ["db"]]} uuid_Nil ""] []
    [MkServiceEntry PROTOCOL_TCP [MkPortRange 443 443]] 0 0 0 [].
Definition frontRules : Ruleset := MkRuleset (of_Z 3) "front" "" true {["app" := ["front"]]} [fromDB] 0 0 0 [].
Definition authoredTables : DB := psDB (woStore (runCalls id clock ids None [CallCreateRuleset frontRules] start)).

Definition row (hostname : string) (enrolled : Z) (retired : option Z) : workloadRow :=
  MkWorkloadRow hostname enrolled 1 None retired
    (MkCredentialCols "01" 100 None None None None None "")
    (MkAgentCols "1.0" [] None (Some 9000) (Some 1000))
    (MkSyncCols SYNC_STATE_SYNCED 1 "" None None None OWNED_TABLE_STATE_ABSENT (Some 5000))
    (MkEvidenceCols 0 0 None None false (Some 2000)).

Definition estate : RegistryDB :=
  MkRegistryDB authoredTables
    {[of_Z 1 := row "front" 10 None; of_Z 2 := row "db" 20 None; of_Z 4 := row "old" 5 (Some 4000)]}
    {[(of_Z 1, "app") := "front"; (of_Z 2, "app") := "db"; (of_Z 4, "app") := "front"]}
    {[(of_Z 1, "10.0.0.1"); (of_Z 2, "10.0.0.2")]} ∅ ∅ ∅ ∅ [] [].
Definition transaction : RenderSession := MkRenderSession estate None.

Definition loaded : Inputs := match LoadInputs transaction with Ok inp => inp | Err _ => MkInputs [] [] [] [] end.

Lemma loads_ok : match LoadInputs transaction with Ok _ => true | Err _ => false end = true.
Proof. vm_compute. reflexivity. Qed.

Lemma loaded_ok : LoadInputs transaction = Ok loaded.
Proof. unfold loaded. pose proof loads_ok as Hl. destruct (LoadInputs transaction); [reflexivity|discriminate Hl]. Qed.

Lemma loaded_ids : NoDup (wID <$> inWorkloads loaded).
Proof. eapply listed_NoDup, LoadInputs_workloads. exact loaded_ok. Qed.

Lemma policies_none : LoadPolicies transaction = Ok ∅.
Proof. reflexivity. Qed.

Definition request : ModeChangeRequest := MkModeChangeRequest {["app" := ["front"]]} [] ENFORCEMENT_MODE_ENFORCED 1.
End RegistryExample.

Lemma ChangeMode_exact_witness :
  match ChangeMode FinCommitted (Uuid128.of_Z 50) 0 0 RegistryExample.request true RegistryExample.transaction with
  | (Ok res, s') => mrMatched res = 1%nat ∧ mode_changed RegistryExample.request RegistryExample.loaded res s'
  | (Err _, _) => False
  end.
Proof.
  assert (match (ChangeMode FinCommitted (Uuid128.of_Z 50) 0 0 RegistryExample.request true RegistryExample.transaction).1 with
          | Ok res => Nat.eqb (mrMatched res) 1 | Err _ => false end = true) as Hb by (vm_compute; reflexivity).
  pose proof (ChangeMode_exact FinCommitted (Uuid128.of_Z 50) 0 0 RegistryExample.request true RegistryExample.transaction
    RegistryExample.loaded ∅ RegistryExample.loaded_ok RegistryExample.policies_none RegistryExample.loaded_ids) as Hs.
  destruct (ChangeMode _ _ _ _ _ _ _) as [[res|e] s']; [|discriminate Hb].
  cbn [fst] in Hb. apply Nat.eqb_eq in Hb. split; [exact Hb|apply Hs].
Defined.


(** The old front is retired; its table is recorded absent. *)
Lemma Retired_frozen_witness :
  (call Answers (runWrite (RegistryExample.wuid 4) (WriteApplyFailed "no" 8000)) RegistryExample.estate).1 =
  Err (RegRetired (RegistryExample.wuid 4) 4000).
Proof.
  destruct (Retired_frozen (RegistryExample.wuid 4) RegistryExample.estate (RegistryExample.row "old" 5 (Some 4000)) 4000 Answers)
    as (Hw & _ & _); [reflexivity|reflexivity|].
  rewrite Hw; [reflexivity|reflexivity|exact I].
Defined.

Definition facts_example : option HostFacts :=
  Some (MkHostFacts "front" [MkNetworkInterface "eth0" ["10.0.0.9/24"; "127.0.0.1/8"] ""]).

Lemma RecordFacts_addresses_witness :
  ∃ changed d', Store_RecordFacts (RegistryExample.wuid 1) facts_example 8000 RegistryExample.estate = Ok (changed, d') ∧
    facts_recorded (RegistryExample.wuid 1) facts_example RegistryExample.estate changed d'.
Proof.
  apply (RecordFacts_addresses _ _ _ _ (RegistryExample.row "front" 10 None)); [reflexivity|reflexivity|].
  eexists. reflexivity.
Defined.

Lemma Retired_stream_refused_witness :
  (serveMessage (λ _, Answers) (RegistryExample.wuid 4) 8000 (MkSession None 0 []) (ReqHeartbeat (MkHeartbeat 1 0 "" 0 OWNED_TABLE_STATE_PRESENT))
     RegistryExample.estate).1 = Ends RefusedRetired.
Proof.
  rewrite (Retired_stream_refused _ _ _ _ _ _ (RegistryExample.row "old" 5 (Some 4000)) 4000);
    [reflexivity|reflexivity|reflexivity|exact I|discriminate].
Defined.

Lemma Registry_rows_sound_witness :
  ∃ d', d' = (call Answers (runWrite (RegistryExample.wuid 1)
      (WriteHeartbeat (MkRegHeartbeat 0 0 "" OWNED_TABLE_STATE_ABSENT 1000) 9000000)) RegistryExample.estate).2 ∧
    rows_ok d' ∧ (scAbsentSince ∘ wkSync <$> rgWorkloads d' !! Uuid128.of_Z 1) = Some (Some 5000).
Proof.
  eexists. split; [reflexivity|]. split; [|reflexivity].
  apply (Registry_rows_sound RegistryExample.estate).
  - apply rtc_once. by exists (RegistryExample.wuid 1), (WriteHeartbeat (MkRegHeartbeat 0 0 "" OWNED_TABLE_STATE_ABSENT 1000) 9000000), Answers.
  - unfold rows_ok. cbn [RegistryExample.estate rgWorkloads].
    repeat apply map_Forall_insert_2; try apply map_Forall_empty; split; cbn; split; intros; eauto;
      match goal with Hx : is_Some None |- _ => destruct Hx; discriminate | |- _ => reflexivity end.
Defined.
