(* ===== verification/Token.v ===== *)
(** * Provisioning tokens: [internal/enroll/token.go]

    A token is a prefix and 32 random bytes in unpadded URL-safe base64; only its
    SHA-256 is stored.  The base64 of the standard library is modelled as it decodes:
    line breaks are skipped anywhere, and the unused bits of the last character are not
    looked at, so a token has several spellings, each with a hash of its own. *)

From S2P Require Import Prelude GoStd Netip Uuid Sha256 Registry.
From Stdlib Require Import Ascii.
Local Open Scope Z_scope.

(** ** [encoding/base64], unpadded *)

Definition urlAlphabet : string := "ABCDEFGHIJKLMNOPQRSTUVWXYZabcdefghijklmnopqrstuvwxyz0123456789-_".
Definition stdAlphabet : string := "ABCDEFGHIJKLMNOPQRSTUVWXYZabcdefghijklmnopqrstuvwxyz0123456789+/".

Section base64.
Context (alphabet : string).

Definition b64_char (d : Z) : ascii := default "A"%char (String.list_ascii_of_string alphabet !! Z.to_nat d).
Definition b64_val (c : ascii) : option Z :=
  (λ p, Z.of_nat p.1) <$> list_find (λ x, x = c) (String.list_ascii_of_string alphabet).

Definition digit (v : Z) (i : Z) : Z := (v `div` 64 ^ i) `mod` 64.

Fixpoint b64_encode (bs : list Z) : list ascii :=
  match bs with
  | x :: y :: z :: rest =>
      let v := x * 65536 + y * 256 + z in
      b64_char (digit v 3) :: b64_char (digit v 2) :: b64_char (digit v 1) :: b64_char (digit v 0) :: b64_encode rest
  | [x; y] =>
      let v := x * 65536 + y * 256 in [b64_char (digit v 3); b64_char (digit v 2); b64_char (digit v 1)]
  | [x] => let v := x * 65536 in [b64_char (digit v 3); b64_char (digit v 2)]
  | [] => []
  end.

Definition EncodeToString (bs : list Z) : string := String.string_of_list_ascii (b64_encode bs).

(** The quanta of the values. *)
Fixpoint b64_quanta (l : list Z) : option (list Z) :=
  match l with
  | a :: b :: c :: d :: rest =>
      let v := a * 262144 + b * 4096 + c * 64 + d in
      bs ← b64_quanta rest; Some (v `div` 65536 :: (v `div` 256) `mod` 256 :: v `mod` 256 :: bs)
  | [a; b; c] => let v := a * 262144 + b * 4096 + c * 64 in Some [v `div` 65536; (v `div` 256) `mod` 256]
  | [a; b] => let v := a * 262144 + b * 4096 in Some [v `div` 65536]
  | [_] => None
  | [] => Some []
  end.

Definition line_break (c : ascii) : bool := bool_decide (c = "010"%char ∨ c = "013"%char).

(** Nothing when a character is outside the alphabet, or one is left over. *)
Definition DecodeString (s : string) : option (list Z) :=
  vs ← mapM b64_val (filter (λ c, line_break c = false) (String.list_ascii_of_string s));
  b64_quanta vs.
End base64.

Definition RawURLEncoding_EncodeToString : list Z → string := EncodeToString urlAlphabet.
Definition RawURLEncoding_DecodeString : string → option (list Z) := DecodeString urlAlphabet.
Definition RawStdEncoding_EncodeToString : list Z → string := EncodeToString stdAlphabet.
Definition RawStdEncoding_DecodeString : string → option (list Z) := DecodeString stdAlphabet.

(** ** Tokens *)

Definition TokenPrefix : string := "iw_".
Definition tokenEntropyBytes : nat := 32.
Definition listPrefixChars : nat := 8.
Definition DefaultTokenTTL : Z := 30 * 24 * 3600 * 10 ^ 9.

Inductive TokenError := ErrTokenMalformed | ErrTokenUnknown | ErrTokenExpired | ErrTokenRevoked.

Record Token `{UUIDLib} := MkToken {
  tkID : UUID; tkHash : list Z; tkPrefix : option string; tkName : string; tkLabels : list Label;
  tkCreatedAt : Z; tkExpiresAt : Z; tkRevokedAt : option Z; tkUseCount : Z; tkLastUsedAt : option Z;
}.

Definition HashToken (plaintext : string) : result TokenError (list Z) :=
  match strip_prefix TokenPrefix plaintext with
  | None => Err ErrTokenMalformed
  | Some body =>
      match RawURLEncoding_DecodeString body with
      | Some raw => if decide (length raw = tokenEntropyBytes) then Ok (Sum256 (string_bytes plaintext))
                    else Err ErrTokenMalformed
      | None => Err ErrTokenMalformed
      end
  end.

(** [rand.Read] fills [raw], or fails. *)
Definition NewToken (raw : option (list Z)) : option (string * list Z) :=
  match raw with
  | None => None
  | Some raw =>
      let plaintext := TokenPrefix +:+ RawURLEncoding_EncodeToString raw in
      match HashToken plaintext with Ok hash => Some (plaintext, hash) | Err _ => None end
  end.

Definition ListingHint (plaintext : string) : string :=
  let n := (String.length TokenPrefix + listPrefixChars)%nat in
  if decide (String.length plaintext < n)%nat then plaintext else String.substring 0 n plaintext.

Definition Token_Check `{UUIDLib} (t : option Token) (now : Z) : option TokenError :=
  match t with
  | None => Some ErrTokenUnknown
  | Some t =>
      if match tkRevokedAt t with Some r => bool_decide (r ≤ now) | None => false end then Some ErrTokenRevoked
      else if decide (tkExpiresAt t ≤ now) then Some ErrTokenExpired
      else None
  end.

(** ** Round trip *)

Definition byte_list (l : list Z) : Prop := Forall (λ b, 0 ≤ b < 256) l.

(** Each digit has a character of its own, and none is a line break. *)
Definition faithful (alphabet : string) : bool :=
  forallb (λ n, bool_decide (b64_val alphabet (b64_char alphabet (Z.of_nat n)) = Some (Z.of_nat n)) &&
                negb (line_break (b64_char alphabet (Z.of_nat n)))) (seq 0 64).

Lemma urlAlphabet_faithful : faithful urlAlphabet = true.
Proof. vm_compute. reflexivity. Qed.
Lemma stdAlphabet_faithful : faithful stdAlphabet = true.
Proof. vm_compute. reflexivity. Qed.

Lemma b64_char_faithful alphabet d :
  faithful alphabet = true → 0 ≤ d < 64 →
  b64_val alphabet (b64_char alphabet d) = Some d ∧ line_break (b64_char alphabet d) = false.
Proof.
  unfold faithful. rewrite forallb_forall. intros Hall Hd. specialize (Hall (Z.to_nat d)).
  rewrite Z2Nat.id in Hall by lia. rewrite in_seq, andb_true_iff, bool_decide_eq_true, negb_true_iff in Hall. apply Hall. lia.
Qed.

Lemma digit_range v i : 0 ≤ digit v i < 64.
Proof. unfold digit. apply Z.mod_pos_bound. lia. Qed.

(** A list is taken three at a time. *)
Lemma triples_ind {A} (P : list A → Prop) :
  P [] → (∀ x, P [x]) → (∀ x y, P [x; y]) → (∀ x y z l, P l → P (x :: y :: z :: l)) → ∀ l, P l.
Proof.
  intros H0 H1 H2 H3. fix IH 1. intros [|x [|y [|z l]]]; [exact H0|apply H1|apply H2|apply H3, IH].
Qed.

Section roundtrip.
Context (alphabet : string) (Halpha : faithful alphabet = true).

Definition char_digits (l : list ascii) (ds : list Z) : Prop := Forall2 (λ c d, 0 ≤ d < 64 ∧ c = b64_char alphabet d) l ds.

Lemma b64_encode_digits bs : byte_list bs → ∃ ds, char_digits (b64_encode alphabet bs) ds ∧ b64_quanta ds = Some bs.
Proof.
  induction bs as [|x|x y|x y z bs IH] using triples_ind; intros Hb.
  - exists []. split; [constructor|done].
  - apply Forall_cons in Hb as [Hx _]. eexists. split.
    + repeat (constructor; [split; [|reflexivity]; apply digit_range|]). constructor.
    + cbn [b64_quanta]. unfold digit. do 2 f_equal. Z.to_euclidean_division_equations. lia.
  - apply Forall_cons in Hb as [Hx [Hy _]%Forall_cons]. eexists. split.
    + repeat (constructor; [split; [|reflexivity]; apply digit_range|]). constructor.
    + cbn [b64_quanta]. unfold digit. f_equal. f_equal; [|f_equal]; Z.to_euclidean_division_equations; lia.
  - apply Forall_cons in Hb as [Hx [Hy [Hz Hb]%Forall_cons]%Forall_cons]. destruct (IH Hb) as (ds & Hds & Hq).
    eexists (_ :: _ :: _ :: _ :: ds). split.
    + cbn [b64_encode]. do 4 (constructor; [split; [|reflexivity]; apply digit_range|]). exact Hds.
    + cbn [b64_quanta]. rewrite Hq. cbn [mbind option_bind]. unfold digit. f_equal.
      f_equal; [|f_equal; [|f_equal]]; Z.to_euclidean_division_equations; lia.
Qed.

Lemma base64_roundtrip bs : byte_list bs → DecodeString alphabet (EncodeToString alphabet bs) = Some bs.
Proof.
  intros Hb. destruct (b64_encode_digits bs Hb) as (ds & Hds & Hq).
  unfold DecodeString, EncodeToString. rewrite String.list_ascii_of_string_of_list_ascii.
  assert (filter (λ c, line_break c = false) (b64_encode alphabet bs) = b64_encode alphabet bs) as ->.
  { apply filter_all. intros c Hc. apply list_elem_of_lookup in Hc as [i Hi].
    destruct (Forall2_lookup_l _ _ _ _ _ Hds Hi) as (d & _ & Hd & ->). by apply b64_char_faithful. }
  assert (mapM (b64_val alphabet) (b64_encode alphabet bs) = Some ds) as ->; [|done].
  apply mapM_Some. eapply Forall2_impl; [exact Hds|]. intros c d [Hd ->]. by apply b64_char_faithful.
Qed.

(** A character that is not of the alphabet is in no text. *)
Lemma base64_free c bs :
  byte_list bs → b64_val alphabet c = None → contains_byte c (EncodeToString alphabet bs) = false.
Proof.
  intros Hb Hc. destruct (b64_encode_digits bs Hb) as (ds & Hds & _). unfold EncodeToString.
  induction Hds as [|x d l ds' [Hd ->] Hds IH]; cbn; [done|]. case_decide as He; [|exact IH].
  destruct (b64_char_faithful alphabet d Halpha Hd) as [Hv _]. congruence.
Qed.
End roundtrip.

Lemma RawURLEncoding_roundtrip bs :
  byte_list bs → RawURLEncoding_DecodeString (RawURLEncoding_EncodeToString bs) = Some bs.
Proof. apply base64_roundtrip, urlAlphabet_faithful. Qed.

(** A token that is drawn has the shape that is hashed. *)
Lemma NewToken_hashes raw :
  byte_list raw → length raw = tokenEntropyBytes →
  ∃ plaintext hash, NewToken (Some raw) = Some (plaintext, hash) ∧ HashToken plaintext = Ok hash ∧
    plaintext = TokenPrefix +:+ RawURLEncoding_EncodeToString raw.
Proof.
  intros Hb Hlen. unfold NewToken. cbn zeta.
  assert (HashToken (TokenPrefix +:+ RawURLEncoding_EncodeToString raw) =
    Ok (Sum256 (string_bytes (TokenPrefix +:+ RawURLEncoding_EncodeToString raw)))) as Hh.
  { unfold HashToken. assert (strip_prefix TokenPrefix (TokenPrefix +:+ RawURLEncoding_EncodeToString raw) =
      Some (RawURLEncoding_EncodeToString raw)) as -> by (by apply strip_prefix_Some).
    by rewrite RawURLEncoding_roundtrip, decide_True. }
  rewrite Hh. eauto.
Qed.

(** What is hashed is a token's text. *)
Lemma HashToken_Ok plaintext hash :
  HashToken plaintext = Ok hash ↔
  hash = Sum256 (string_bytes plaintext) ∧
  ∃ body raw, plaintext = TokenPrefix +:+ body ∧ RawURLEncoding_DecodeString body = Some raw ∧
    length raw = tokenEntropyBytes.
Proof.
  unfold HashToken. split.
  - destruct (strip_prefix TokenPrefix plaintext) as [body|] eqn:Hp; [|done]. apply strip_prefix_Some in Hp.
    destruct (RawURLEncoding_DecodeString body) as [raw|] eqn:Hd; [|done]. case_decide; [|done].
    intros [= <-]. eauto 6.
  - intros (-> & body & raw & -> & Hd & Hl).
    assert (strip_prefix TokenPrefix (TokenPrefix +:+ body) = Some body) as -> by (by apply strip_prefix_Some).
    by rewrite Hd, decide_True.
Qed.
