(* ===== verification/Enroll.v ===== *)
(** * Enrolment and renewal: [internal/enroll/service.go], [internal/ca], the token and
      workload operations of [internal/store/store.go], and the interceptor of
      [internal/gateway/auth.go]

    Tokens and workloads are tables beside the registry's; the column
    [provisioning_token_id] of [workloads] is a table of its own.  A call of the store is
    one transaction or statement, which succeeds, fails, or takes effect although its
    answer is lost; other callers may change the tables before each call.  Parsing and
    signing of certificates are parameters. *)

From S2P Require Import Prelude GoStd Netip Wire Uuid Identity Sha256 Policy Validate Registry Ingest Enforce Postgres PolicyStore RegistryStore Token.
From Stdlib Require Import Ascii.
Local Open Scope Z_scope.

Definition hour : Z := 3600 * 10 ^ 9.
Definition second : Z := 10 ^ 9.
Definition DefaultLeafTTL : Z := 24 * hour.
Definition DefaultRenewalGrace : Z := 72 * hour.
Definition BackdateNotBefore : Z := 5 * 60 * second.

(** ** Certificates *)

(** [x509.Certificate], the fields the program sets or reads. *)
Record Certificate := MkCertificate {
  crSerial : Z; crCommonName : string; crURIs : list URL; crNotBefore : Z; crNotAfter : Z; crClientAuth : bool; crIsCA : bool;
}.

(** [big.Int.Text(16)] of a non-negative number. *)
Fixpoint hexDigits (fuel : nat) (n : Z) (acc : string) : string :=
  match fuel with
  | O => acc
  | S fuel => let acc := String (hex_digit (n `mod` 16)) acc in
              if decide (n < 16) then acc else hexDigits fuel (n `div` 16) acc
  end.
Definition Text16 (n : Z) : string := hexDigits (S (Z.to_nat (Z.log2 n))) n "".

Definition CredentialSerial (cert : Certificate) : string := Text16 (crSerial cert).

(** The kinds of public keys, with their size in bits. *)
Inductive PublicKey := KeyECDSA (bits : option Z) | KeyEd25519 | KeyRSA (bits : Z) | KeyOther.

(** A parsed request: its key, and whether its signature verifies. *)
Record CSR := MkCSR { csKey : PublicKey; csSigned : bool }.

(** [encoding/pem] and [crypto/x509]: a block with its type and the rest; parsing; the
    certificate of a template, a key and an issuer. *)
Class X509Lib := {
  pem_Decode : bytestring → option (string * bytestring * bytestring);
  pem_Encode : string → bytestring → bytestring;
  x509_ParseCertificateRequest : bytestring → option CSR;
  x509_CreateCertificate : Certificate → Certificate → PublicKey → option bytestring;
  x509_ParseCertificate : bytestring → option Certificate;
}.

(** A certificate carries whole seconds. *)
Definition wholeSeconds (t : Z) : Z := t - t `mod` second.
Definition encoded (c : Certificate) : Certificate :=
  MkCertificate (crSerial c) (crCommonName c) (crURIs c) (wholeSeconds (crNotBefore c)) (wholeSeconds (crNotAfter c))
    (crClientAuth c) (crIsCA c).

(** What is encoded is decoded, and the certificate made of a template says what it said. *)
Class X509Laws `{X509Lib} : Prop := {
  pem_Decode_Encode ty b : ∃ rest, pem_Decode (pem_Encode ty b) = Some (ty, b, rest);
  x509_Parse_Create t parent k b : x509_CreateCertificate t parent k = Some b → x509_ParseCertificate b = Some (encoded t);
}.

Inductive IssueError :=
| ErrBadCSR | ErrZeroIdentity | ErrTTL | ErrNoSerial | ErrOutlivesRoot | ErrSigning
| ErrNoCertificate | ErrUnparseable | ErrWrongIdentity | ErrBundle.

Section authority.
Context `{UUIDLib} `{X509Lib}.

Definition checkKey (k : PublicKey) : bool :=
  match k with
  | KeyECDSA (Some bits) => bool_decide (256 ≤ bits)
  | KeyECDSA None => false
  | KeyEd25519 => true
  | KeyRSA bits => bool_decide (2048 ≤ bits)
  | KeyOther => false
  end.

Definition PublicKeyFromCSR (csrPEM : bytestring) : result IssueError PublicKey :=
  match pem_Decode csrPEM with
  | None => Err ErrBadCSR
  | Some (ty, b, rest) =>
      if decide (ty ≠ "CERTIFICATE REQUEST"%string) then Err ErrBadCSR else
      match pem_Decode rest with
      | Some _ => Err ErrBadCSR
      | None =>
          match x509_ParseCertificateRequest b with
          | None => Err ErrBadCSR
          | Some csr => if csSigned csr && checkKey (csKey csr) then Ok (csKey csr) else Err ErrBadCSR
          end
      end
  end.

(** [serial] is the random draw of [newSerial], or its failure. *)
Definition LeafTemplate (serial : option Z) (id : WorkloadID) (now ttl : Z) : result IssueError Certificate :=
  if IsZero id then Err ErrZeroIdentity
  else if decide (ttl ≤ 0) then Err ErrTTL
  else match serial with
       | None => Err ErrNoSerial
       | Some n => Ok (MkCertificate n (WorkloadID_String id) [URI id] (now - BackdateNotBefore) (now + ttl) true false)
       end.

(** [fileca.Authority.Sign]. *)
Definition fileca_Sign (root : Certificate) (serial : option Z) (now : Z) (csrPEM : bytestring) (id : WorkloadID) (ttl : Z)
  : result IssueError bytestring :=
  pub ← PublicKeyFromCSR csrPEM;
  tmpl ← LeafTemplate serial id now ttl;
  if decide (crNotAfter root < crNotAfter tmpl) then Err ErrOutlivesRoot
  else match x509_CreateCertificate tmpl root pub with
       | None => Err ErrSigning
       | Some der => Ok (pem_Encode "CERTIFICATE" der)
       end.
End authority.

(** ** Standing *)

Inductive Standing := StandingValid | StandingInGrace | StandingPastGrace.

(** [Duration.Truncate]. *)
Definition truncate (d m : Z) : Z := d - Z.rem d m.

Definition StandingAt (notAfter now grace : Z) : Standing :=
  if decide (now ≤ notAfter) then StandingValid
  else if decide (grace < truncate (timeSub now notAfter) second) then StandingPastGrace
  else StandingInGrace.

Inductive AdmitError := ErrNotYetValid | ErrExpiredPastGrace | ErrExpiredMayRenew.

Definition Grace (renewalGrace : Z) : Z := if decide (0 < renewalGrace) then renewalGrace else DefaultRenewalGrace.
Definition leafTTL (ttl : Z) : Z := if decide (0 < ttl) then ttl else DefaultLeafTTL.

Definition AdmitCredential (grace now notBefore notAfter : Z) (renewal : bool) : option AdmitError :=
  if decide (now < notBefore) then Some ErrNotYetValid
  else match StandingAt notAfter now grace with
       | StandingValid => None
       | StandingPastGrace => Some ErrExpiredPastGrace
       | StandingInGrace => if renewal then None else Some ErrExpiredMayRenew
       end.

(** ** Tables *)

Section tables.
Context `{UUIDLib}.

Record tokenRow := MkTokenRow {
  trHash : list Z; trPrefix : option string; trName : string; trCreatedAt : Z; trExpiresAt : Z; trRevokedAt : option Z;
  trUseCount : Z; trLastUsedAt : option Z;
}.

Record EnrollDB := MkEnrollDB {
  edTokens : gmap UUID tokenRow;
  edTokenLabels : gmap (UUID * string) string;
  edTokenOf : gmap UUID UUID;
  edRegistry : RegistryDB;
}.

(** [enroll.Workload]. *)
Record EnrolledWorkload := MkEnrolledWorkload {
  ewID : WorkloadID; ewTokenID : UUID; ewHostname : string; ewLabels : list Label; ewEnrolledAt : Z;
  ewSerial : string; ewExpiresAt : Z; ewLastRenewedAt : option Z; ewLateRenewal : option LateRenewal;
  ewRetiredAt : option Z;
}.

Inductive EnrollError :=
| EnrollToken (e : TokenError)
| ErrTokenLabelsInvalid (fs : list ValidationError)
| EnrollLabels (fs : list ValidationError)
| EnrollAdmit (e : AdmitError)
| EnrollIssue (e : IssueError)
| EnrollRandom
| ErrWorkloadUnknown
| EnrollRetired (id : WorkloadID) (retiredAt : Z)
| EnrollFailure.

Definition setTokens (t : gmap UUID tokenRow) (d : EnrollDB) : EnrollDB :=
  MkEnrollDB t (edTokenLabels d) (edTokenOf d) (edRegistry d).
Definition setRegistry (r : RegistryDB) (d : EnrollDB) : EnrollDB :=
  MkEnrollDB (edTokens d) (edTokenLabels d) (edTokenOf d) r.
End tables.

Section store.
Context `{UUIDLib} `{PgLib} `{FactsCodec} `{PolicyCodec}.

Abbreviation EBody A := (EnrollDB → result EnrollError (A * EnrollDB)).

Definition answer {A} (ans : Answer) (body : EBody A) (d : EnrollDB) : result EnrollError A * EnrollDB :=
  match ans with
  | Fails => (Err EnrollFailure, d)
  | Answers => match body d with Ok (a, d') => (Ok a, d') | Err e => (Err e, d) end
  | AnswerLost => match body d with Ok (_, d') => (Err EnrollFailure, d') | Err e => (Err e, d) end
  end.

(** [CreateToken]: [serverNow] is the [now()] of the server; the hash is unique. *)
Definition Store_CreateToken (serverNow : Z) (t : Token) : EBody () := λ d,
  match edTokens d !! tkID t with
  | Some _ => Err EnrollFailure
  | None =>
      if decide (map_Exists (λ _ r, trHash r = tkHash t) (edTokens d)) then Err EnrollFailure
      else
        match addLabels (tkID t) (tkLabels t) (edTokenLabels d) with
        | Err _ => Err EnrollFailure
        | Ok labels =>
            Ok ((), MkEnrollDB
              (<[tkID t := MkTokenRow (tkHash t) (tkPrefix t) (tkName t) (pgTime serverNow) (pgTime (tkExpiresAt t)) None 0 None]>
                 (edTokens d))
              labels (edTokenOf d) (edRegistry d))
        end
  end.

(** [ORDER BY token_id, key]. *)
Definition tokenLabelRows (d : EnrollDB) : list labelRow :=
  merge_sort (owned_le (λ l, (lbOwner l, lbKey l)) pgText_le)
    ((λ '((o, k), v), MkLabelRow o k v) <$> map_to_list (edTokenLabels d)).
Definition tokenLabels (id : UUID) (d : EnrollDB) : list Label :=
  labelOf <$> filter (λ l, lbOwner l = id) (tokenLabelRows d).

Definition tokenFromRow (id : UUID) (r : tokenRow) (labels : list Label) : Token :=
  MkToken _ id (trHash r) (trPrefix r) (trName r) labels (trCreatedAt r) (trExpiresAt r) (trRevokedAt r) (trUseCount r)
    (trLastUsedAt r).

(** The row of a hash; the constraint leaves one at most. *)
Definition byHash (hash : list Z) (d : EnrollDB) : option (UUID * tokenRow) :=
  snd <$> list_find (λ kr, trHash kr.2 = hash) (map_to_list (edTokens d)).

Definition Store_FindTokenByHash (hash : list Z) : EBody Token := λ d,
  match byHash hash d with
  | None => Err (EnrollToken ErrTokenUnknown)
  | Some (id, r) => Ok (tokenFromRow id r (tokenLabels id d), d)
  end.

(** [ORDER BY created_at DESC, id]. *)
Definition newest_le (a b : Z * UUID) : Prop := b.1 < a.1 ∨ a.1 = b.1 ∧ uuid_le a.2 b.2.
#[global] Instance newest_le_dec : RelDecision newest_le.
Proof. intros a b. unfold newest_le. apply _. Defined.

Definition Store_ListTokens : EBody (list Token) := λ d,
  Ok (omap (λ p, (λ r, tokenFromRow p.2 r (tokenLabels p.2 d)) <$> edTokens d !! p.2)
        (merge_sort newest_le ((λ '(id, r), (trCreatedAt r, id)) <$> map_to_list (edTokens d))), d).

Definition Store_RevokeToken (id : UUID) (now : Z) : EBody () := λ d,
  match edTokens d !! id with
  | None => Err (EnrollToken ErrTokenUnknown)
  | Some r =>
      match trRevokedAt r with
      | Some _ => Err (EnrollToken ErrTokenRevoked)
      | None =>
          Ok ((), setTokens (<[id := MkTokenRow (trHash r) (trPrefix r) (trName r) (trCreatedAt r) (trExpiresAt r)
                                       (Some (pgTime now)) (trUseCount r) (trLastUsedAt r)]> (edTokens d)) d)
      end
  end.

(** The row of a new workload: the columns it does not name have their defaults. *)
Definition newWorkloadRow (w : EnrolledWorkload) : workloadRow :=
  MkWorkloadRow (ewHostname w) (pgTime (ewEnrolledAt w)) 1 None None
    (MkCredentialCols (ewSerial w) (pgTime (ewExpiresAt w)) None None None None None "")
    (MkAgentCols "" [] None None None)
    (MkSyncCols SYNC_STATE_OFFLINE 0 "" None None None OWNED_TABLE_STATE_UNSPECIFIED None)
    (MkEvidenceCols 0 0 None None false None).

Definition tokenUsed (now : Z) (r : tokenRow) : tokenRow :=
  MkTokenRow (trHash r) (trPrefix r) (trName r) (trCreatedAt r) (trExpiresAt r) (trRevokedAt r)
    (trUseCount r + 1) (Some (pgTime now)).

(** [CreateWorkload]: the row, its labels, and the use of its token, in one transaction;
    the token must exist. *)
Definition Store_CreateWorkload (w : EnrolledWorkload) (now : Z) : EBody () := λ d,
  let reg := edRegistry d in let u := wid (ewID w) in
  match rgWorkloads reg !! u, edTokens d !! ewTokenID w with
  | None, Some tr =>
      match addLabels u (ewLabels w) (rgLabels reg) with
      | Err _ => Err EnrollFailure
      | Ok labels =>
          Ok ((), MkEnrollDB (<[ewTokenID w := tokenUsed now tr]> (edTokens d)) (edTokenLabels d)
                    (<[u := ewTokenID w]> (edTokenOf d))
                    (setLabels labels (setWorkloads (<[u := newWorkloadRow w]> (rgWorkloads reg)) reg)))
      end
  | _, _ => Err EnrollFailure
  end.

(** The token's column is not null. *)
Definition Store_GetWorkload (id : WorkloadID) : EBody EnrolledWorkload := λ d,
  match rgWorkloads (edRegistry d) !! wid id with
  | None => Err ErrWorkloadUnknown
  | Some r =>
      let c := wkCredential r in
      Ok (MkEnrolledWorkload id (default uuid_Nil (edTokenOf d !! wid id)) (wkHostname r) (labelsOf (wid id) (edRegistry d))
            (wkEnrolledAt r) (ccSerial c) (ccExpiresAt c) (ccLastRenewedAt c)
            (pair_of MkLateRenewal (ccLateRenewalAt c) (ccLateRenewalExpiredAt c)) (wkRetiredAt r), d)
  end.

Definition renewalError (e : RegError) : EnrollError :=
  match e with
  | RegUnknown => ErrWorkloadUnknown
  | RegRetired id t => EnrollRetired id t
  | _ => EnrollFailure
  end.

(** [RecordRenewal], on the registry's row. *)
Definition RecordRenewal (id : WorkloadID) (serial : string) (expiresAt now : Z) (late : option LateRenewal) : EBody () := λ d,
  match Store_RecordRenewal id serial expiresAt now late (edRegistry d) with
  | Ok (_, r) => Ok ((), setRegistry r d)
  | Err e => Err (renewalError e)
  end.
End store.

(** ** The service *)

Section service.
Context `{UUIDLib} `{PgLib} `{FactsCodec} `{PolicyCodec} `{X509Lib}.

(** The configuration, and what is outside: the clock, the other callers and the answers
    of the store, by the number of the reading or call; the signing authority. *)
Context (renewalGrace ttl : Z).
Context (clock : nat → Z) (others : nat → EnrollDB → EnrollDB) (answers : nat → Answer).
Context (Sign : nat → bytestring → WorkloadID → Z → result IssueError bytestring) (Bundle : nat → option bytestring).

Record EnrollWorld := MkEnrollWorld { eoDB : EnrollDB; eoTicks : nat; eoCalls : nat }.

Definition M (A : Type) : Type := EnrollWorld → result EnrollError A * EnrollWorld.
#[global] Instance M_ret : MRet M := λ A a w, (Ok a, w).
#[global] Instance M_bind : MBind M := λ A B f m w,
  match m w with (Ok a, w') => f a w' | (Err e, w') => (Err e, w') end.

Definition fail {A} (e : EnrollError) : M A := λ w, (Err e, w).
Definition now : M Z := λ w, (Ok (clock (eoTicks w)), MkEnrollWorld (eoDB w) (S (eoTicks w)) (eoCalls w)).

(** A call of the store: other callers come first. *)
Definition stored {A} (body : EnrollDB → result EnrollError (A * EnrollDB)) : M A := λ w,
  let n := eoCalls w in
  let '(r, d) := answer (answers n) body (others n (eoDB w)) in (r, MkEnrollWorld d (eoTicks w) (S n)).

(** A call of the authority, which other callers do not see. *)
Definition signed {A} (f : nat → result IssueError A) : M A := λ w,
  let n := eoCalls w in
  (match f n with Ok a => Ok a | Err e => Err (EnrollIssue e) end, MkEnrollWorld (eoDB w) (eoTicks w) (S n)).

Definition validateTokenLabels (labels : list Label) : option (list ValidationError) :=
  ValidateLabelSet ((λ l, MkLabelPair (lblKey l) (lblValue l)) <$> labels).

Definition Admit (presentedFrom presentedUntil : Z) (renewal : bool) : M () :=
  t ← now;
  match AdmitCredential (Grace renewalGrace) t presentedFrom presentedUntil renewal with
  | None => mret ()
  | Some e => fail (EnrollAdmit e)
  end.

Definition RevokeToken (id : UUID) : M () := t ← now; stored (Store_RevokeToken id t).

(** [raw] is what [rand.Read] drew and [id] the new id. *)
Definition MintToken (raw : option (list Z)) (id : UUID) (serverNow : Z) (name : string) (labels : list Label) (tokenTTL : Z)
  : M (string * Token) :=
  let tokenTTL := if decide (tokenTTL ≤ 0) then DefaultTokenTTL else tokenTTL in
  match validateTokenLabels labels with
  | Some fs => fail (EnrollLabels fs)
  | None =>
      match NewToken raw with
      | None => fail EnrollRandom
      | Some (plaintext, hash) =>
          t ← now;
          let tok := MkToken _ id hash (Some (ListingHint plaintext)) name labels t (t + tokenTTL) None 0 None in
          stored (Store_CreateToken serverNow tok);;
          mret (plaintext, tok)
      end
  end.

Record Credential := MkCredential {
  cdCertificate : bytestring; cdBundle : bytestring; cdSerial : string; cdExpiresAt : Z; cdLateBy : Z;
}.

(** [issue], after the two calls of the authority. *)
Definition checkIssued (id : WorkloadID) (certPEM bundle : bytestring) : result IssueError Credential :=
  match pem_Decode certPEM with
  | None => Err ErrNoCertificate
  | Some (_, der, _) =>
      match x509_ParseCertificate der with
      | None => Err ErrUnparseable
      | Some cert =>
          match FromCertificate (Some (crURIs cert)) with
          | Ok got => if decide (got = id)
                      then Ok (MkCredential certPEM bundle (CredentialSerial cert) (crNotAfter cert) 0)
                      else Err ErrWrongIdentity
          | Err _ => Err ErrWrongIdentity
          end
      end
  end.

Definition issue (id : WorkloadID) (csrPEM : bytestring) : M Credential :=
  certPEM ← signed (λ n, Sign n csrPEM id (leafTTL ttl));
  bundle ← signed (λ n, match Bundle n with Some b => Ok b | None => Err ErrBundle end);
  signed (λ _, checkIssued id certPEM bundle).

(** [newID] is the draw of [identity.NewWorkloadID], or its failure. *)
Definition Enroll (newID : option WorkloadID) (tokenPlaintext : string) (csrPEM : bytestring) (hostname : string)
  : M (EnrolledWorkload * Credential) :=
  match HashToken tokenPlaintext with
  | Err e => fail (EnrollToken e)
  | Ok hash =>
      tok ← stored (Store_FindTokenByHash hash);
      t ← now;
      match Token_Check (Some tok) t with
      | Some e => fail (EnrollToken e)
      | None =>
          match validateTokenLabels (tkLabels tok) with
          | Some fs => fail (ErrTokenLabelsInvalid fs)
          | None =>
              match newID with
              | None => fail EnrollRandom
              | Some id =>
                  cred ← issue id csrPEM;
                  let w := MkEnrolledWorkload id (tkID tok) hostname (tkLabels tok) t (cdSerial cred) (cdExpiresAt cred)
                             None None None in
                  stored (Store_CreateWorkload w t);;
                  mret (w, cred)
              end
          end
      end
  end.

Definition Renew (id : WorkloadID) (presentedFrom presentedUntil : Z) (csrPEM : bytestring) : M Credential :=
  Admit presentedFrom presentedUntil true;;
  w ← stored (Store_GetWorkload id);
  match ewRetiredAt w with
  | Some t => fail (EnrollRetired id t)
  | None =>
      cred ← issue id csrPEM;
      t ← now;
      let late := if decide (presentedUntil < t) then Some (MkLateRenewal t presentedUntil) else None in
      let cred := MkCredential (cdCertificate cred) (cdBundle cred) (cdSerial cred) (cdExpiresAt cred)
                    (if decide (presentedUntil < t) then timeSub t presentedUntil else 0) in
      stored (RecordRenewal id (cdSerial cred) (cdExpiresAt cred) t late);;
      mret cred
  end.

Definition CheckNotRetired (id : WorkloadID) : M () := λ w,
  match stored (Store_GetWorkload id) w with
  | (Err ErrWorkloadUnknown, w') => (Ok (), w')
  | (Err e, w') => (Err e, w')
  | (Ok x, w') => (match ewRetiredAt x with Some t => Err (EnrollRetired id t) | None => Ok () end, w')
  end.

(** ** The interceptor *)

Definition enrollmentServicePrefix : string := "/innerwall.v1.EnrollmentService/".
Definition renewMethod : string := "/innerwall.v1.AgentService/RenewCredential".

(** What an agent is told: a code, and what its message says. *)
Inductive Refusal :=
| NoCredential | NoIdentity | IssuerInvalid | CredentialRefused (e : AdmitError) | Refused | Unavailable.

Record Principal := MkPrincipal { prID : WorkloadID; prSerial : string; prNotBefore : Z; prNotAfter : Z }.

(** The loop over the issuing chain. *)
Fixpoint admitIssuers (chain : list Certificate) : M bool :=
  match chain with
  | [] => mret true
  | c :: chain' =>
      t ← now;
      match AdmitCredential (Grace renewalGrace) t (crNotBefore c) (crNotAfter c) false with
      | None => admitIssuers chain'
      | Some _ => mret false
      end
  end.

(** [chain] is the chain of the connection as [verifyChain] verified it, leaf first, or
    nothing when there is none or it does not verify. *)
Definition authenticate (fullMethod : string) (chain : option (list Certificate))
  (w : EnrollWorld) : result Refusal (option Principal) * EnrollWorld :=
  match strip_prefix enrollmentServicePrefix fullMethod with
  | Some _ => (Ok None, w)
  | None =>
      match chain with
      | None | Some [] => (Err NoCredential, w)
      | Some (leaf :: issuers) =>
          match FromCertificate (Some (crURIs leaf)) with
          | Err _ => (Err NoIdentity, w)
          | Ok id =>
              match admitIssuers issuers w with
              | (Ok true, w) =>
                  match Admit (crNotBefore leaf) (crNotAfter leaf) (bool_decide (fullMethod = renewMethod)) w with
                  | (Err (EnrollAdmit e), w) => (Err (CredentialRefused e), w)
                  | (Err _, w) => (Err Unavailable, w)
                  | (Ok _, w) =>
                      match CheckNotRetired id w with
                      | (Err (EnrollRetired _ _), w) => (Err Refused, w)
                      | (Err _, w) => (Err Unavailable, w)
                      | (Ok _, w) =>
                          (Ok (Some (MkPrincipal id (CredentialSerial leaf) (crNotBefore leaf) (crNotAfter leaf))), w)
                      end
                  end
              | (_, w) => (Err IssuerInvalid, w)
              end
          end
      end
  end.
End service.
