(* ===== verification/EnrollProps.v ===== *)
(** * The properties of enrolment and renewal

    What a token buys, what a renewal may change, and whom the interceptor lets in, with
    other callers at work between the calls of the store. *)

From S2P Require Import Prelude GoStd Netip Wire Uuid Identity Sha256 Policy Validate Registry Ingest Enforce Postgres PolicyStore RegistryStore PolicyStoreProps RegistryStream Token Enroll.
Local Open Scope Z_scope.

(** ** Standing *)

Lemma truncate_second d : 0 ≤ d → truncate d second ≤ d < truncate d second + second.
Proof.
  intros Hd. unfold truncate, second. rewrite Z.rem_mod_nonneg by lia.
  pose proof (Z.mod_pos_bound d (10 ^ 9) ltac:(lia)). lia.
Qed.

(** When a credential is let in. *)
Definition admissible (grace now notBefore notAfter : Z) (renewal : bool) : Prop :=
  notBefore ≤ now ∧ (now ≤ notAfter ∨ renewal = true ∧ truncate (timeSub now notAfter) second ≤ grace).

Lemma AdmitCredential_exact grace now notBefore notAfter renewal :
  AdmitCredential grace now notBefore notAfter renewal = None ↔ admissible grace now notBefore notAfter renewal.
Proof.
  unfold AdmitCredential, StandingAt, admissible. case_decide; [split; [done|lia]|].
  case_decide; [split; [lia|done]|]. case_decide; [split; [done|intros [? [?|[_ ?]]]; lia]|].
  destruct renewal.
  - split; [intros _; split; [lia|right; split; [done|lia]]|done].
  - split; [done|]. intros [_ [?|[? _]]]; [lia|done].
Qed.

(** ** The authority *)

Section authority.
Context `{UUIDLib} `{!UUIDLaws} `{X509Lib} `{!X509Laws}.

Lemma FromCertificate_URI id : wid id ≠ uuid_Nil → FromCertificate (Some [URI id]) = Ok id.
Proof. intros Hid. change (ParseURI (Some (URI id)) = Ok id). by apply ParseURI_Ok. Qed.

(** What the file authority signs names the identity it was asked for and nobody else, is
    for the key of a request whose sender holds it, and does not outlive the root; the
    check of the service accepts it. *)
Lemma fileca_Sign_issued root serial now csr id ttl certPEM bundle :
  fileca_Sign root serial now csr id ttl = Ok certPEM →
  ∃ n key der, serial = Some n ∧ PublicKeyFromCSR csr = Ok key ∧ checkKey key = true ∧ 0 < ttl ∧ now + ttl ≤ crNotAfter root ∧
    (∃ rest, pem_Decode certPEM = Some ("CERTIFICATE"%string, der, rest)) ∧
    x509_ParseCertificate der =
      Some (encoded (MkCertificate n (WorkloadID_String id) [URI id] (now - BackdateNotBefore) (now + ttl) true false)) ∧
    checkIssued id certPEM bundle = Ok (MkCredential certPEM bundle (Text16 n) (wholeSeconds (now + ttl)) 0).
Proof.
  unfold fileca_Sign. intros (key & Hkey & (tmpl & Htmpl & Hs)%result_bind_Ok)%result_bind_Ok.
  unfold LeafTemplate, IsZero in Htmpl. case_bool_decide as Hid; [done|].
  destruct (decide (ttl ≤ 0)) as [|Httl]; [done|].
  destruct serial as [n|]; [|done]. injection Htmpl as <-. cbn [crNotAfter] in Hs. case_decide as Hroot; [done|].
  destruct (x509_CreateCertificate _ root key) as [der|] eqn:Hc; [|done]. injection Hs as <-.
  apply x509_Parse_Create in Hc. destruct (pem_Decode_Encode "CERTIFICATE" der) as [rest Hpem].
  exists n, key, der. split; [done|]. split; [done|]. split.
  { unfold PublicKeyFromCSR in Hkey. destruct (pem_Decode csr) as [[[ty b] rest']|]; [|done]. case_decide; [done|].
    destruct (pem_Decode rest'); [done|]. destruct (x509_ParseCertificateRequest b) as [c|]; [|done].
    destruct (csSigned c); [|done]. cbn in Hkey. destruct (checkKey (csKey c)) eqn:Hk; [|done]. by injection Hkey as <-. }
  split; [lia|]. split; [lia|]. split; [by exists rest|]. split; [exact Hc|].
  unfold checkIssued. rewrite Hpem, Hc. cbn [encoded crURIs crSerial crNotAfter]. rewrite FromCertificate_URI by done.
  by rewrite decide_True.
Qed.
End authority.

(** What the check of the service lets through. *)
Lemma checkIssued_Ok `{UUIDLib} `{X509Lib} id certPEM bundle cred :
  checkIssued id certPEM bundle = Ok cred →
  ∃ ty der rest cert, pem_Decode certPEM = Some (ty, der, rest) ∧ x509_ParseCertificate der = Some cert ∧
    FromCertificate (Some (crURIs cert)) = Ok id ∧
    cred = MkCredential certPEM bundle (CredentialSerial cert) (crNotAfter cert) 0.
Proof.
  unfold checkIssued. destruct (pem_Decode certPEM) as [[[ty der] rest]|]; [|done].
  destruct (x509_ParseCertificate der) as [cert|] eqn:Hp; [|done].
  destruct (FromCertificate _) as [got|] eqn:Hf; [|done]. case_decide; [|done]. intros [= <-]. subst.
  exists ty, der, rest, cert. by split_and!.
Qed.

(** ** The service *)

Section service.
Context `{UUIDLib} `{PgLib} `{FactsCodec} `{PolicyCodec} `{X509Lib}.
Context (renewalGrace ttl : Z).
Context (clock : nat → Z) (others : nat → EnrollDB → EnrollDB) (answers : nat → Answer).
Context (Sign : nat → bytestring → WorkloadID → Z → result IssueError bytestring) (Bundle : nat → option bytestring).

Abbreviation Enroll := (Enroll ttl clock others answers Sign Bundle).
Abbreviation Renew := (Renew renewalGrace ttl clock others answers Sign Bundle).
Abbreviation authenticate := (authenticate renewalGrace clock others answers).
Abbreviation stored := (stored others answers).

(** The tables a call of the store finds. *)
Definition found (w : EnrollWorld) : EnrollDB := others (eoCalls w) (eoDB w).

Lemma enroll_bind_Ok {A B} (m : M A) (f : A → M B) w b w' :
  (m ≫= f) w = (Ok b, w') → ∃ a w1, m w = (Ok a, w1) ∧ f a w1 = (Ok b, w').
Proof. unfold mbind, M_bind. destruct (m w) as [[a|e] w1]; [eauto|done]. Qed.

Lemma enroll_bind_Err {A B} (m : M A) (f : A → M B) w e w' :
  (m ≫= f) w = (Err e, w') → m w = (Err e, w') ∨ ∃ a w1, m w = (Ok a, w1) ∧ f a w1 = (Err e, w').
Proof. unfold mbind, M_bind. destruct (m w) as [[a|e'] w1]; [eauto|]. intros [= <- <-]. by left. Qed.

Lemma stored_Ok {A} (body : EnrollDB → result EnrollError (A * EnrollDB)) w a w' :
  stored body w = (Ok a, w') →
  ∃ d, body (found w) = Ok (a, d) ∧ w' = MkEnrollWorld d (eoTicks w) (S (eoCalls w)).
Proof.
  unfold Enroll.stored, answer, found. destruct (answers (eoCalls w)), (body _) as [[x d]|e]; intros Heq; try done.
  injection Heq as <- <-. eauto.
Qed.

(** Without other callers or lost answers, a call that fails changes nothing. *)
Lemma stored_Err {A} (body : EnrollDB → result EnrollError (A * EnrollDB)) w e w' :
  (∀ n d, others n d = d) → (∀ n, answers n ≠ AnswerLost) →
  stored body w = (Err e, w') → eoDB w' = eoDB w.
Proof.
  unfold Enroll.stored, answer. intros Ho Ha. specialize (Ha (eoCalls w)).
  destruct (answers (eoCalls w)); [| |done]; [destruct (body _) as [[x d]|e']|]; intros Heq; try done;
    injection Heq as _ <-; cbn; apply Ho.
Qed.

Lemma signed_spec {A} (f : nat → result IssueError A) w r w' :
  signed f w = (r, w') → eoDB w' = eoDB w ∧ eoTicks w' = eoTicks w ∧ ∀ a, r = Ok a → f (eoCalls w) = Ok a.
Proof.
  unfold signed. intros [= <- <-]. split_and!; try done. intros a. destruct (f (eoCalls w)); [by intros [= ->]|done].
Qed.

(** [issue] touches no table, and what it returns names the identity. *)
Lemma issue_spec id csr w r w' :
  issue ttl Sign Bundle id csr w = (r, w') →
  eoDB w' = eoDB w ∧ eoTicks w' = eoTicks w ∧ ∀ cred, r = Ok cred →
    ∃ n certPEM bundle, Sign n csr id (leafTTL ttl) = Ok certPEM ∧ checkIssued id certPEM bundle = Ok cred.
Proof.
  unfold issue, mbind, M_bind. destruct (signed _ w) as [[certPEM|e] w1] eqn:E1;
    apply signed_spec in E1 as (Hd1 & Ht1 & Hs1); [|intros [= <- <-]; by split_and!].
  destruct (signed _ w1) as [[bundle|e] w2] eqn:E2;
    apply signed_spec in E2 as (Hd2 & Ht2 & Hs2); [|intros [= <- <-]; split_and!; [congruence..|done]].
  intros E3. apply signed_spec in E3 as (Hd3 & Ht3 & Hs3). split_and!; [congruence..|]. intros cred Hr.
  exists (eoCalls w), certPEM, bundle. split; [by apply Hs1|]. by apply Hs3.
Qed.

Lemma byHash_Some hash d id r : byHash hash d = Some (id, r) → edTokens d !! id = Some r ∧ trHash r = hash.
Proof.
  unfold byHash. destruct (list_find _ _) as [[i [id' r']]|] eqn:Hf; [|done]. intros [= -> ->].
  apply list_find_Some in Hf as (Hi & Hh & _). split; [|done]. apply elem_of_map_to_list.
  by eapply list_elem_of_lookup_2.
Qed.

(** The certificate of a credential. *)
Definition certifies (cred : Credential) (id : WorkloadID) : Prop :=
  ∃ ty der rest cert, pem_Decode (cdCertificate cred) = Some (ty, der, rest) ∧ x509_ParseCertificate der = Some cert ∧
    FromCertificate (Some (crURIs cert)) = Ok id ∧ cdSerial cred = CredentialSerial cert ∧ cdExpiresAt cred = crNotAfter cert.

Lemma checkIssued_certifies id certPEM bundle cred : checkIssued id certPEM bundle = Ok cred → certifies cred id.
Proof.
  intros (ty & der & rest & cert & E1 & E2 & E3 & ->)%checkIssued_Ok. exists ty, der, rest, cert. by split_and!.
Qed.

(** The tables after a workload was added under a token. *)
Definition enrolledIn (w : EnrolledWorkload) (now : Z) (d d' : EnrollDB) : Prop :=
  ∃ tr labels, rgWorkloads (edRegistry d) !! wid (ewID w) = None ∧ edTokens d !! ewTokenID w = Some tr ∧
    addLabels (wid (ewID w)) (ewLabels w) (rgLabels (edRegistry d)) = Ok labels ∧
    d' = MkEnrollDB (<[ewTokenID w := tokenUsed now tr]> (edTokens d)) (edTokenLabels d)
           (<[wid (ewID w) := ewTokenID w]> (edTokenOf d))
           (setLabels labels (setWorkloads (<[wid (ewID w) := newWorkloadRow w]> (rgWorkloads (edRegistry d))) (edRegistry d))).

Lemma CreateWorkload_Ok w now d d' : Store_CreateWorkload w now d = Ok ((), d') → enrolledIn w now d d'.
Proof.
  unfold Store_CreateWorkload. cbn zeta. destruct (rgWorkloads (edRegistry d) !! _) eqn:Hw; [done|].
  destruct (edTokens d !! _) as [tr|] eqn:Ht; [|done]. destruct (addLabels _ _ _) as [labels|] eqn:Hl; [|done].
  intros [= <-]. exists tr, labels. by split_and!.
Qed.


(** The row of a workload after a renewal. *)
Definition renewed (cred : Credential) (now presentedUntil : Z) (c : credentialCols) : credentialCols :=
  MkCredentialCols (cdSerial cred) (pgTime (cdExpiresAt cred)) (Some (pgTime now))
    (if decide (presentedUntil < now) then Some (pgTime now) else ccLateRenewalAt c)
    (if decide (presentedUntil < now) then Some (pgTime presentedUntil) else ccLateRenewalExpiredAt c)
    (ccPresentedSerial c) (ccPresentedExpiresAt c) (ccRenewalError c).

Lemma RecordRenewal_Ok id serial expires now late d d' :
  RecordRenewal id serial expires now late d = Ok ((), d') →
  ∃ r, rgWorkloads (edRegistry d) !! wid id = Some r ∧ wkRetiredAt r = None ∧
    d' = setRegistry (setWorkloads (<[wid id := onCredential (λ c,
      MkCredentialCols serial (pgTime expires) (Some (pgTime now))
      (match late with None => ccLateRenewalAt c | Some _ => Some (pgTime now) end)
      (match late with None => ccLateRenewalExpiredAt c | Some l => Some (pgTime (lrExpiredAt l)) end)
      (ccPresentedSerial c) (ccPresentedExpiresAt c) (ccRenewalError c)) r]> (rgWorkloads (edRegistry d))) (edRegistry d)) d.
Proof.
  unfold RecordRenewal, Store_RecordRenewal, conditioned, updateRow, active.
  destruct (rgWorkloads (edRegistry d) !! wid id) as [r|]; [|done].
  case_bool_decide as Hr; [|done]. intros [= <-]. exists r. by split_and!.
Qed.

Lemma admit_spec from until renewal w r w' :
  Admit renewalGrace clock from until renewal w = (r, w') →
  w' = MkEnrollWorld (eoDB w) (S (eoTicks w)) (eoCalls w) ∧
  (r = Ok () ↔ admissible (Grace renewalGrace) (clock (eoTicks w)) from until renewal).
Proof.
  unfold Admit, mbind, M_bind, now. pose proof (AdmitCredential_exact (Grace renewalGrace) (clock (eoTicks w)) from until renewal) as Hex.
  destruct (AdmitCredential _ _ _ _ _) as [e|]; intros [= <- <-]; (split; [done|]); (split; intros Hr; [|done || by apply Hex in Hr]);
    done || by apply Hex.
Qed.

(** C14: a renewal renews one live identity.  Whatever other callers do between its steps, a
    renewal that returns a credential was presented one that was valid, or expired within
    the grace; the new one was signed for the same identity and names exactly it; and, in the
    tables its write found, the workload was registered and not retired, and the write
    changed its credential columns alone, recording the lateness of an expired one.  So a
    workload retired at any moment before the write gets nothing.  Alone, a renewal that is
    refused changes nothing, unless the answer of the store is lost. *)
Theorem Renew_guarded id from until csr w r w' :
  Renew id from until csr w = (r, w') →
  (∀ cred, r = Ok cred →
     admissible (Grace renewalGrace) (clock (eoTicks w)) from until true ∧
     (∃ n, Sign n csr id (leafTTL ttl) = Ok (cdCertificate cred)) ∧ certifies cred id ∧
     let now := clock (S (eoTicks w)) in
     cdLateBy cred = (if decide (until < now) then timeSub now until else 0) ∧
     ∃ d row, rgWorkloads (edRegistry d) !! wid id = Some row ∧ wkRetiredAt row = None ∧
       d = others (pred (eoCalls w')) (found w) ∧
       eoDB w' = setRegistry (setWorkloads
         (<[wid id := onCredential (renewed cred now until) row]> (rgWorkloads (edRegistry d))) (edRegistry d)) d) ∧
  (∀ e, r = Err e → (∀ n d, others n d = d) → (∀ n, answers n ≠ AnswerLost) → eoDB w' = eoDB w).
Proof.
  unfold Enroll.Renew. intros Hrun. split.
  - intros cred ->. apply enroll_bind_Ok in Hrun as ([] & w1 & E1 & Hrun). apply admit_spec in E1 as [-> [Hadm _]].
    specialize (Hadm eq_refl). apply enroll_bind_Ok in Hrun as (x & w2 & E2 & Hrun). apply stored_Ok in E2 as (d2 & E2 & ->).
    assert (d2 = found w) as ->.
    { unfold Store_GetWorkload in E2. destruct (_ !! _); [|done]. by injection E2 as _ <-. }
    destruct (ewRetiredAt x); [done|]. apply enroll_bind_Ok in Hrun as (c0 & w3 & Hiss & Hrun).
    apply issue_spec in Hiss as (Hd3 & Ht3 & Hcred). destruct (Hcred _ eq_refl) as (n & certPEM & bundle & Hsign & Hci).
    pose proof (checkIssued_certifies _ _ _ _ Hci) as Hcert. apply checkIssued_Ok in Hci as (? & ? & ? & cert & _ & _ & _ & ->).
    apply enroll_bind_Ok in Hrun as (t & w4 & [= <- <-] & Hrun). apply enroll_bind_Ok in Hrun as ([] & w5 & E5 & [= <- <-]).
    apply stored_Ok in E5 as (d5 & E5 & ->). apply RecordRenewal_Ok in E5 as (row & Hrow & Hret & ->).
    cbn [eoDB eoTicks eoCalls pred] in *. rewrite Ht3 in *. cbn zeta.
    split; [done|]. split; [by exists n|]. split; [exact Hcert|]. split; [done|].
    eexists _, row. split; [exact Hrow|]. split; [done|].
    split; [unfold found; cbn [eoDB eoCalls]; by rewrite Hd3|]. unfold renewed. by case_decide.
  - intros e -> Ho Ha. apply enroll_bind_Err in Hrun as [E1|([] & w1 & E1 & Hrun)]; apply admit_spec in E1 as [-> _]; [done|].
    apply enroll_bind_Err in Hrun as [E2|(x & w2 & E2 & Hrun)]; [by eapply stored_Err in E2|].
    apply stored_Ok in E2 as (d2 & E2 & ->).
    assert (d2 = eoDB w) as ->.
    { unfold Store_GetWorkload in E2. destruct (_ !! _); [|done]. injection E2 as _ <-. apply Ho. }
    destruct (ewRetiredAt x); [by injection Hrun as _ <-|].
    apply enroll_bind_Err in Hrun as [Hiss|(c0 & w3 & Hiss & Hrun)]; apply issue_spec in Hiss as (Hd3 & _); [by rewrite Hd3|].
    apply enroll_bind_Err in Hrun as [[=]|(t & w4 & [= <- <-] & Hrun)].
    apply enroll_bind_Err in Hrun as [E4|([] & w5 & _ & [=])]. apply stored_Err in E4; [|done..]. by rewrite E4.
Qed.

(** ** The interceptor *)

(** Every certificate of the issuing chain is valid at its reading of the clock. *)
Definition issuersValid (issuers : list Certificate) (tick : nat) : Prop :=
  ∀ i c, issuers !! i = Some c →
    admissible (Grace renewalGrace) (clock (tick + i)%nat) (crNotBefore c) (crNotAfter c) false.

Lemma admitIssuers_spec issuers w :
  (issuersValid issuers (eoTicks w) →
     admitIssuers renewalGrace clock issuers w =
     (Ok true, MkEnrollWorld (eoDB w) (eoTicks w + length issuers) (eoCalls w))) ∧
  (∀ w', admitIssuers renewalGrace clock issuers w = (Ok true, w') →
     issuersValid issuers (eoTicks w) ∧ w' = MkEnrollWorld (eoDB w) (eoTicks w + length issuers) (eoCalls w)).
Proof.
  revert w. induction issuers as [|c issuers IH]; intros w; cbn [admitIssuers].
  { rewrite Nat.add_0_r. split; [by destruct w|]. intros w' [= <-]. split; [by intros i c|by destruct w]. }
  unfold mbind, M_bind, now. cbn [fst].
  set (w1 := MkEnrollWorld (eoDB w) (S (eoTicks w)) (eoCalls w)). destruct (IH w1) as [IH1 IH2].
  pose proof (AdmitCredential_exact (Grace renewalGrace) (clock (eoTicks w)) (crNotBefore c) (crNotAfter c) false) as Hex.
  assert (issuersValid (c :: issuers) (eoTicks w) ↔
    admissible (Grace renewalGrace) (clock (eoTicks w)) (crNotBefore c) (crNotAfter c) false ∧ issuersValid issuers (S (eoTicks w))) as Hcons.
  { unfold issuersValid. split.
    - intros Hv. split; [specialize (Hv 0%nat c eq_refl); by rewrite Nat.add_0_r in Hv|].
      intros i x Hx. specialize (Hv (S i) x Hx). by rewrite Nat.add_succ_r in Hv.
    - intros [Hc Hv] [|i] x Hx; [injection Hx as <-; by rewrite Nat.add_0_r|]. rewrite Nat.add_succ_r. by apply Hv. }
  cbn [eoDB eoTicks eoCalls w1] in *. cbn [length]. rewrite Nat.add_succ_r, Hcons.
  destruct (AdmitCredential _ _ _ _ _) as [e|].
  - split; [intros [Hc _]; discriminate (proj2 Hex Hc)|done].
  - split; [intros [_ Hv]; by apply IH1|]. intros w' Hrun. destruct (IH2 _ Hrun) as [Hv ->].
    split; [apply Hcons; split; [exact (proj1 Hex eq_refl)|done]|done].
Qed.

Definition notRetired (id : WorkloadID) (d : EnrollDB) : Prop :=
  ∀ row, rgWorkloads (edRegistry d) !! wid id = Some row → wkRetiredAt row = None.

Lemma CheckNotRetired_spec id w :
  (∀ w', CheckNotRetired others answers id w = (Ok (), w') → notRetired id (found w)) ∧
  (answers (eoCalls w) = Answers → notRetired id (found w) →
     CheckNotRetired others answers id w = (Ok (), MkEnrollWorld (found w) (eoTicks w) (S (eoCalls w)))).
Proof.
  unfold CheckNotRetired, Enroll.stored, answer, Store_GetWorkload, notRetired. fold (found w).
  destruct (rgWorkloads (edRegistry (found w)) !! wid id) as [row|] eqn:Hr.
  - split.
    + intros w'. destruct (answers (eoCalls w)); try done. cbn [ewRetiredAt]. destruct (wkRetiredAt row) eqn:Ht; [done|].
      intros _ row' [= <-]. done.
    + intros -> Hn. cbn [ewRetiredAt]. by rewrite (Hn row eq_refl).
  - split; [by intros w' _ row|]. by intros ->.
Qed.

(** C13: who is let in.  A call outside the enrolment service is let in exactly for the
    identity that the leaf of a verified chain names, and only when every issuing
    certificate is valid now, the leaf is valid now or, for a renewal alone, expired within
    the grace, and the registry has no retired workload of that identity at the check; the
    principal is the leaf's.  When the store answers, these conditions are enough.  Without
    a certificate, only the enrolment service is reachable. *)
Theorem Authenticate_exact method chain p w :
  (∀ w', authenticate method chain w = (Ok p, w') →
     match p with
     | None => ∃ rest, method = enrollmentServicePrefix +:+ rest
     | Some p =>
         strip_prefix enrollmentServicePrefix method = None ∧
         ∃ leaf issuers, chain = Some (leaf :: issuers) ∧ FromCertificate (Some (crURIs leaf)) = Ok (prID p) ∧
           p = MkPrincipal (prID p) (CredentialSerial leaf) (crNotBefore leaf) (crNotAfter leaf) ∧
           issuersValid issuers (eoTicks w) ∧
           admissible (Grace renewalGrace) (clock (eoTicks w + length issuers)) (crNotBefore leaf) (crNotAfter leaf)
             (bool_decide (method = renewMethod)) ∧
           notRetired (prID p) (found w)
     end) ∧
  (∀ leaf issuers id, strip_prefix enrollmentServicePrefix method = None → chain = Some (leaf :: issuers) →
     FromCertificate (Some (crURIs leaf)) = Ok id → issuersValid issuers (eoTicks w) →
     admissible (Grace renewalGrace) (clock (eoTicks w + length issuers)) (crNotBefore leaf) (crNotAfter leaf)
       (bool_decide (method = renewMethod)) →
     notRetired id (found w) → answers (eoCalls w) = Answers →
     (authenticate method chain w).1 = Ok (Some (MkPrincipal id (CredentialSerial leaf) (crNotBefore leaf) (crNotAfter leaf)))).
Proof.
  unfold Enroll.authenticate. split.
  - intros w'. destruct (strip_prefix _ method) as [rest|] eqn:Hp.
    { intros [= <- _]. apply strip_prefix_Some in Hp. eauto. }
    destruct chain as [[|leaf issuers]|]; [done| |done]. destruct (FromCertificate _) as [id|] eqn:Hf; [|done].
    destruct (admitIssuers _ _ issuers w) as [[[]|] w1] eqn:Hi; try done.
    apply (admitIssuers_spec issuers w) in Hi as [Hiv ->].
    destruct (Admit _ _ _ _ _ _) as [[[]|e] w2] eqn:Ha; [|by destruct e].
    apply admit_spec in Ha as [-> [Hadm _]]. specialize (Hadm eq_refl).
    destruct (CheckNotRetired _ _ id _) as [[[]|e] w3] eqn:Hr; [|by destruct e].
    apply (proj1 (CheckNotRetired_spec id _)) in Hr. intros [= <- _]. split; [done|].
    exists leaf, issuers. by split_and!.
  - intros leaf issuers id Hp -> Hf Hiv Hadm Hret Hans. rewrite Hp, Hf, (proj1 (admitIssuers_spec issuers w) Hiv).
    destruct (Admit _ _ _ _ _ _) as [r w2] eqn:Ha. apply admit_spec in Ha as [-> [_ Hadm']]. rewrite (Hadm' Hadm).
    set (w2 := MkEnrollWorld _ _ _). destruct (CheckNotRetired_spec id w2) as [_ Hok]. by rewrite (Hok Hans Hret).
Qed.
End service.

(** ** The life of a token *)

(** The inserts of the labels of a new owner. *)
Lemma addLabels_new `{UUIDLib} (id : UUID) (labels : list Label) (t : gmap (UUID * string) string) :
  NoDup (lblKey <$> labels) → (∀ k, t !! (id, k) = None) →
  ∃ t', addLabels id labels t = Ok t' ∧
    map_to_list t' ≡ₚ ((λ l, ((id, lblKey l), lblValue l)) <$> labels) ++ map_to_list t.
Proof.
  intros Hnd Ht. assert (∀ l, l ∈ labels → t !! (id, lblKey l) = None) as Hfree by auto. clear Ht.
  revert t Hfree. induction labels as [|l labels IH]; intros t Hfree; [by exists t|].
  cbn [fmap list_fmap] in Hnd. apply NoDup_cons in Hnd as [Hl Hnd]. cbn [addLabels]. rewrite Hfree by left.
  destruct (IH Hnd (<[(id, lblKey l) := lblValue l]> t)) as (t' & Hadd & Hperm).
  { intros l' Hl'. rewrite lookup_insert_ne; [apply Hfree; by right|]. intros [= Heq]. apply Hl. rewrite Heq.
    by apply list_elem_of_fmap_2. }
  exists t'. split; [done|]. rewrite Hperm, map_to_list_insert by (apply Hfree; left). symmetry.
  apply Permutation_middle.
Qed.

Definition pairOf (l : Label) : LabelPair := MkLabelPair (lblKey l) (lblValue l).

Lemma validateTokenLabels_exact labels :
  validateTokenLabels labels = None ↔
  Forall (λ l, label_text true (lblKey l) ∧ label_text false (lblValue l)) labels ∧ NoDup (lblKey <$> labels).
Proof.
  unfold validateTokenLabels. destruct (ValidateLabelSet_exact (pairOf <$> labels)) as [Hex _]. rewrite Hex, Forall_fmap.
  by rewrite <-list_fmap_compose.
Qed.

Lemma validateTokenLabels_perm l l' : l ≡ₚ l' → validateTokenLabels l = None → validateTokenLabels l' = None.
Proof. intros Hp. rewrite !validateTokenLabels_exact. by rewrite Hp. Qed.

(** The labels of a token are those it was created with. *)
Lemma tokenLabels_created `{UUIDLib} `{PgLib} (id : UUID) (labels : list Label) (t : gmap (UUID * string) string) d :
  (∀ k, t !! (id, k) = None) →
  map_to_list (edTokenLabels d) ≡ₚ ((λ l, ((id, lblKey l), lblValue l)) <$> labels) ++ map_to_list t →
  tokenLabels id d ≡ₚ labels.
Proof.
  intros Ht Hperm. unfold tokenLabels, tokenLabelRows. rewrite merge_sort_Permutation, Hperm, fmap_app, filter_app, fmap_app.
  assert (filter (λ l, lbOwner l = id) ((λ '((o, k), v), MkLabelRow o k v) <$> map_to_list t) = []) as ->.
  { apply filter_nil_iff. intros x ([[o k] v] & -> & Hin%elem_of_map_to_list)%list_elem_of_fmap. cbn. intros ->.
    by rewrite Ht in Hin. }
  rewrite app_nil_r, filter_all.
  - rewrite <-!list_fmap_compose. clear. induction labels as [|[k v] labels IH]; [done|]. cbn. by f_equiv.
  - intros x (y & -> & (l & -> & _)%list_elem_of_fmap)%list_elem_of_fmap. done.
Qed.

Section life.
Context `{UUIDLib} `{!UUIDLaws} `{PgLib} `{FactsCodec} `{PolicyCodec} `{X509Lib} `{!X509Laws}.

(** The tables have room for a token and a workload: their ids and the hash are new, and
    no labels are left of either. *)
Definition tokenNew (tid : UUID) (hash : list Z) (d : EnrollDB) : Prop :=
  edTokens d !! tid = None ∧ map_Forall (λ _ r, trHash r ≠ hash) (edTokens d) ∧ ∀ k, edTokenLabels d !! (tid, k) = None.
Definition workloadNew (id : WorkloadID) (d : EnrollDB) : Prop :=
  wid id ≠ uuid_Nil ∧ rgWorkloads (edRegistry d) !! wid id = None ∧ ∀ k, rgLabels (edRegistry d) !! (wid id, k) = None.

(** The tables hold the token as it was minted, and revoked when [revoked] says. *)
Definition holdsToken (tid : UUID) (hash : list Z) (labels : list Label) (expires : Z) (revoked : option Z) (d : EnrollDB) : Prop :=
  ∃ tr, edTokens d !! tid = Some tr ∧ trHash tr = hash ∧ trExpiresAt tr = expires ∧ trRevokedAt tr = revoked ∧ trUseCount tr = 0 ∧
    (∀ id r, edTokens d !! id = Some r → trHash r = hash → id = tid) ∧ tokenLabels tid d ≡ₚ labels.

Lemma byHash_holds tid hash labels expires revoked d :
  holdsToken tid hash labels expires revoked d → ∃ tr, byHash hash d = Some (tid, tr) ∧ edTokens d !! tid = Some tr.
Proof.
  intros (tr & Htr & Hh & _ & _ & _ & Huniq & _). unfold byHash.
  destruct (list_find _ (map_to_list (edTokens d))) as [[i [id r]]|] eqn:Hf.
  - apply list_find_Some in Hf as (Hi & Hr & _). apply list_elem_of_lookup_2, elem_of_map_to_list in Hi.
    cbn in Hr. pose proof (Huniq _ _ Hi Hr) as ->. exists r. split; [done|exact Hi].
  - apply list_find_None in Hf. rewrite Forall_forall in Hf. destruct (Hf (tid, tr)); [|done].
    by apply elem_of_map_to_list.
Qed.

Lemma CreateToken_holds serverNow tok d :
  tokenNew (tkID tok) (tkHash tok) d → NoDup (lblKey <$> tkLabels tok) →
  ∃ d', Store_CreateToken serverNow tok d = Ok ((), d') ∧
    holdsToken (tkID tok) (tkHash tok) (tkLabels tok) (pgTime (tkExpiresAt tok)) None d' ∧ edRegistry d' = edRegistry d.
Proof.
  intros (Hid & Hhash & Hlab) Hnd. unfold Store_CreateToken. rewrite Hid, decide_False.
  2:{ intros (id & r & Hr & Heq). by destruct (Hhash id r Hr). }
  destruct (addLabels_new _ _ _ Hnd Hlab) as (t' & -> & Hperm). eexists. split; [done|]. split; [|done].
  eexists. cbn [edTokens]. split; [apply lookup_insert_eq|]. cbn. split_and!; try done.
  - intros id r. destruct (decide (id = tkID tok)) as [->|Hne]; [done|]. rewrite lookup_insert_ne by done.
    intros Hr Heq. by destruct (Hhash id r Hr).
  - eapply tokenLabels_created; [exact Hlab|exact Hperm].
Qed.

(** One caller, a store that answers, and the file authority. *)
Context (ttl : Z) (clock : nat → Z) (root : Certificate) (serial : nat → option Z) (caClock : nat → Z) (bundle : bytestring).
Abbreviation noOthers := (λ (_ : nat) (d : EnrollDB), d).
Abbreviation answering := (λ _ : nat, Answers).
Abbreviation signing := (λ n, fileca_Sign root (serial n) (caClock n)).
Abbreviation EnrollAlone := (Enroll ttl clock noOthers answering signing (λ _, Some bundle)).
Abbreviation MintAlone := (MintToken clock noOthers answering).
Abbreviation RevokeAlone := (RevokeToken clock noOthers answering).

Lemma Enroll_refused tid hash labels expires revoked newID plaintext csr hostname w e :
  holdsToken tid hash labels expires revoked (eoDB w) → HashToken plaintext = Ok hash →
  (∀ tok, tkExpiresAt tok = expires → tkRevokedAt tok = revoked → Token_Check (Some tok) (clock (eoTicks w)) = Some e) →
  (EnrollAlone newID plaintext csr hostname w).1 = Err (EnrollToken e).
Proof.
  intros Hh Hp Hchk. destruct (byHash_holds _ _ _ _ _ _ Hh) as (tr & Hby & Htr).
  destruct Hh as (tr' & Htr' & _ & Hexp & Hrev & _). rewrite Htr in Htr'. injection Htr' as <-.
  unfold Enroll.Enroll, mbind, M_bind, Enroll.stored, answer, Store_FindTokenByHash, now. rewrite Hp, Hby.
  cbn [eoDB eoTicks eoCalls]. rewrite Hchk; [done|exact Hexp|exact Hrev].
Qed.

Lemma Enroll_accepted tid hash labels expires id plaintext csr hostname w certPEM :
  holdsToken tid hash labels expires None (eoDB w) → HashToken plaintext = Ok hash → validateTokenLabels labels = None →
  clock (eoTicks w) < expires → workloadNew id (eoDB w) →
  signing (S (eoCalls w)) csr id (leafTTL ttl) = Ok certPEM →
  ∃ ew cred w', EnrollAlone (Some id) plaintext csr hostname w = (Ok (ew, cred), w') ∧
    ewID ew = id ∧ ewTokenID ew = tid ∧ ewLabels ew ≡ₚ labels ∧
    rgWorkloads (edRegistry (eoDB w')) !! wid id = Some (newWorkloadRow ew) ∧
    ∃ tr, edTokens (eoDB w') !! tid = Some tr ∧ trUseCount tr = 1.
Proof.
  intros Hh Hp Hlab Hlive (Hnil & Hnew & Hnolab) Hsign. destruct (byHash_holds _ _ _ _ _ _ Hh) as (tr & Hby & Htr).
  destruct Hh as (tr' & Htr' & _ & Hexp & Hrev & Huse & _ & Hperm). rewrite Htr in Htr'. injection Htr' as <-.
  destruct (fileca_Sign_issued _ _ _ _ _ _ _ bundle Hsign) as (n & key & der & _ & _ & _ & _ & _ & _ & _ & Hci).
  unfold Enroll.Enroll, issue, mbind, M_bind, Enroll.stored, answer, Store_FindTokenByHash, now, signed. rewrite Hp, Hby.
  cbn [eoDB eoTicks eoCalls Token_Check tokenFromRow tkRevokedAt tkExpiresAt tkLabels tkID]. rewrite Hrev, decide_False by lia.
  rewrite (validateTokenLabels_perm labels) by done. cbn [eoDB eoTicks eoCalls]. rewrite Hsign, Hci.
  cbn [cdSerial cdExpiresAt eoDB eoTicks eoCalls].
  unfold Store_CreateWorkload. cbn [ewID ewTokenID ewLabels]. rewrite Hnew, Htr.
  destruct (addLabels_new (wid id) (tokenLabels tid (eoDB w)) (rgLabels (edRegistry (eoDB w)))) as (t' & -> & _);
    [|done|].
  { rewrite Hperm. by apply validateTokenLabels_exact. }
  eexists _, _, _. split; [reflexivity|]. cbn. split_and!; [done|done|done|apply lookup_insert_eq|].
  eexists. split; [apply lookup_insert_eq|]. cbn. lia.
Qed.

(** A renewal of a live workload, presented in time, succeeds. *)
Lemma Renew_accepted renewalGrace id from until csr w row certPEM :
  admissible (Grace renewalGrace) (clock (eoTicks w)) from until true →
  rgWorkloads (edRegistry (eoDB w)) !! wid id = Some row → wkRetiredAt row = None →
  signing (S (eoCalls w)) csr id (leafTTL ttl) = Ok certPEM →
  ∃ cred w', Renew renewalGrace ttl clock noOthers answering signing (λ _, Some bundle) id from until csr w = (Ok cred, w').
Proof.
  intros Hadm Hrow Hret Hsign.
  destruct (fileca_Sign_issued _ _ _ _ _ _ _ bundle Hsign) as (n & key & der & _ & _ & _ & _ & _ & _ & _ & Hci).
  unfold Enroll.Renew, Admit, issue, mbind, M_bind, Enroll.stored, answer, Store_GetWorkload, now, signed.
  rewrite (proj2 (AdmitCredential_exact _ _ _ _ _) Hadm). cbn [mret M_ret eoDB eoTicks eoCalls]. rewrite Hrow.
  cbn [ewRetiredAt]. rewrite Hret. cbn [eoDB eoTicks eoCalls]. rewrite Hsign, Hci. cbn [eoDB eoTicks eoCalls].
  unfold RecordRenewal, Store_RecordRenewal, conditioned, updateRow, active. rewrite Hrow, bool_decide_eq_true_2 by done.
  eexists _, _. reflexivity.
Qed.

End life.

(** ** An instance *)

Module EnrollExample.
Import Uuid128 AuthoredExample RegistryExample.

#[global] Instance URL_eq_dec : EqDecision URL.
Proof. solve_decision. Defined.
#[global] Instance URL_countable : Countable URL.
Proof.
  refine (inj_countable'
    (λ u, (uScheme u, uOpaque u, uUser u, uHost u, uPath u, (uRawPath u, uOmitHost u, uForceQuery u, uRawQuery u, uFragment u, uRawFragment u)))
    (λ '(a, b, c, d, e, (f, g, h, i, j, k)), MkURL a b c d e f g h i j k) _). by intros [].
Defined.
#[global] Instance Certificate_eq_dec : EqDecision Certificate.
Proof. solve_decision. Defined.
#[global] Instance Certificate_countable : Countable Certificate.
Proof.
  refine (inj_countable' (λ c, (crSerial c, crCommonName c, crURIs c, crNotBefore c, crNotAfter c, crClientAuth c, crIsCA c))
    (λ '(a, b, c, d, e, f, g), MkCertificate a b c d e f g) _). by intros [].
Defined.

(** A block is its type and its bytes, and a certificate one number. *)
#[global] Instance x509 : X509Lib := {
  pem_Decode b := match b with Zpos t :: b => (λ ty, (ty, b, [])) <$> (decode t : option string) | _ => None end;
  pem_Encode ty b := Zpos (encode ty) :: b;
  x509_ParseCertificateRequest b := if decide (b = [7]) then Some (MkCSR (KeyECDSA (Some 256)) true) else None;
  x509_CreateCertificate t _ _ := Some [Zpos (encode (encoded t))];
  x509_ParseCertificate b := match b with [Zpos n] => decode n | _ => None end;
}.
#[global] Instance x509_laws : X509Laws.
Proof.
  split.
  - intros ty b. exists []. cbn. by rewrite decode_encode.
  - intros t parent k b [= <-]. cbn. by rewrite decode_encode.
Qed.

Definition request : bytestring := pem_Encode "CERTIFICATE REQUEST" [7].
Definition rootCert : Certificate := MkCertificate 1 "Innerwall Root" [] 0 (10 ^ 20) false true.
Definition newcomer : WorkloadID := wuid 7.
Definition tokenBytes : list Z := replicate 32 171.
Definition tables : EnrollDB := MkEnrollDB ∅ ∅ ∅ (MkRegistryDB authoredTables ∅ ∅ ∅ ∅ ∅ ∅ ∅ [] []).
Definition world : EnrollWorld := MkEnrollWorld tables 0 0.
Definition theClock (n : nat) : Z := 1000000 * (1 + Z.of_nat n).

Lemma newcomer_zero : IsZero newcomer = false.
Proof. vm_compute. reflexivity. Qed.

Lemma newcomer_nil : wid newcomer ≠ uuid_Nil.
Proof. intros Heq. pose proof newcomer_zero as Hz. unfold IsZero in Hz. by rewrite bool_decide_eq_true_2 in Hz. Qed.

Lemma signs now : 0 ≤ now ≤ 10 ^ 19 →
  ∃ certPEM, fileca_Sign rootCert (Some 5) now request newcomer (leafTTL 0) = Ok certPEM.
Proof.
  intros Hn. unfold fileca_Sign.
  assert (PublicKeyFromCSR request = Ok (KeyECDSA (Some 256))) as -> by (vm_compute; reflexivity).
  cbn [mbind result_bind]. unfold LeafTemplate. rewrite newcomer_zero.
  assert (leafTTL 0 = 86400000000000) as -> by (vm_compute; reflexivity). rewrite decide_False by lia.
  cbn [mbind result_bind crNotAfter]. rewrite decide_False; [by eexists|]. cbn [rootCert crNotAfter]. lia.
Qed.

Lemma tokenBytes_ok : byte_list tokenBytes ∧ length tokenBytes = tokenEntropyBytes.
Proof. split; [|reflexivity]. unfold byte_list, tokenBytes. apply Forall_replicate. lia. Qed.

Definition webLabels : list Label := [MkLabel "app" "web"].
Lemma webLabels_ok : validateTokenLabels webLabels = None.
Proof. vm_compute. reflexivity. Qed.
End EnrollExample.
Import Uuid128 AuthoredExample RegistryExample EnrollExample.


(** The tables with one token, of the bytes above, and with one workload. *)
Definition tokenHeld (hash : list Z) : EnrollDB :=
  MkEnrollDB {[of_Z 9 := MkTokenRow hash None "ci" 0 (10 ^ 18) None 0 None]} ∅ ∅ (edRegistry tables).
Definition workloadHeld : EnrollDB :=
  MkEnrollDB ∅ ∅ {[wid newcomer := of_Z 9]}
    (setWorkloads {[wid newcomer := row "web-1" 10 None]} (edRegistry tables)).


Lemma workload_held : rgWorkloads (edRegistry workloadHeld) !! wid newcomer = Some (row "web-1" 10 None).
Proof. apply lookup_singleton_eq. Qed.

Lemma Renew_guarded_witness :
  ∃ cred w', Renew 0 0 theClock (λ _ d, d) (λ _, Answers) (λ _, fileca_Sign rootCert (Some 5) 2000000) (λ _, Some [])
      newcomer 0 500000 request (MkEnrollWorld workloadHeld 0 0) = (Ok cred, w') ∧
    certifies cred newcomer ∧ cdLateBy cred = 1500000.
Proof.
  destruct (signs 2000000 ltac:(lia)) as [certPEM Hsign].
  destruct (Renew_accepted 0 theClock rootCert (λ _, Some 5) (λ _, 2000000) [] 0 newcomer 0 500000 request
    (MkEnrollWorld workloadHeld 0 0) (row "web-1" 10 None) certPEM) as (cred & w' & Hrun).
  - apply AdmitCredential_exact. vm_compute. reflexivity.
  - exact workload_held.
  - reflexivity.
  - exact Hsign.
  - destruct (Renew_guarded 0 0 theClock (λ _ d, d) (λ _, Answers) (λ _, fileca_Sign rootCert (Some 5) 2000000) (λ _, Some [])
      newcomer 0 500000 request (MkEnrollWorld workloadHeld 0 0) _ _ Hrun) as [Hok _].
    destruct (Hok cred eq_refl) as (_ & _ & Hcert & Hlate & _).
    exists cred, w'. split; [exact Hrun|]. split; [exact Hcert|]. rewrite Hlate. vm_compute. reflexivity.
Defined.

(** A credential that has expired renews, and does nothing else. *)
Definition expiredLeaf : Certificate := MkCertificate 255 "" [URI newcomer] 0 500000 true false.

Lemma Authenticate_exact_witness :
  (authenticate 0 theClock (λ _ d, d) (λ _, Answers) renewMethod (Some [expiredLeaf; rootCert])
     (MkEnrollWorld workloadHeld 0 0)).1 = Ok (Some (MkPrincipal newcomer "ff" 0 500000)) ∧
  ∀ p w', authenticate 0 theClock (λ _ d, d) (λ _, Answers) "/innerwall.v1.AgentService/Sync" (Some [expiredLeaf; rootCert])
     (MkEnrollWorld workloadHeld 0 0) ≠ (Ok p, w').
Proof.
  assert (FromCertificate (Some [URI newcomer]) = Ok newcomer) as Hf by (apply FromCertificate_URI, newcomer_nil).
  split.
  - destruct (Authenticate_exact 0 theClock (λ _ d, d) (λ _, Answers) renewMethod (Some [expiredLeaf; rootCert]) None
      (MkEnrollWorld workloadHeld 0 0)) as [_ Hin].
    apply (Hin expiredLeaf [rootCert] newcomer); [reflexivity|reflexivity|exact Hf| | | |reflexivity].
    + intros [|i] c Hc; [|by destruct i]. injection Hc as <-. apply AdmitCredential_exact. vm_compute. reflexivity.
    + apply AdmitCredential_exact. vm_compute. reflexivity.
    + intros r Hr. pose proof (eq_trans (eq_sym workload_held) Hr) as [= <-]. reflexivity.
  - intros p w' Hrun.
    destruct (Authenticate_exact 0 theClock (λ _ d, d) (λ _, Answers) "/innerwall.v1.AgentService/Sync"
      (Some [expiredLeaf; rootCert]) p (MkEnrollWorld workloadHeld 0 0)) as [Hout _].
    specialize (Hout w' Hrun). destruct p as [p|].
    + destruct Hout as (_ & leaf & issuers & [= <- <-] & _ & _ & _ & Hadm & _).
      apply AdmitCredential_exact in Hadm. vm_compute in Hadm. discriminate Hadm.
    + destruct Hout as [rest Hrest]. discriminate Hrest.
Defined.
