(* ===== verification/Throttle.v ===== *)
(** * The login throttle: [internal/api/throttle.go]

    A table of windows, found by their source in a map and by their age in a list.  The
    elements of the list are shared by both, so they are pointers into a heap here, and
    that the two structures stay in step is an invariant that is proved.  A nil front of
    the list is a panic: [None]. *)

From S2P Require Import Prelude Ingest.
Local Open Scope Z_scope.

Definition DefaultLoginAttempts : Z := 10.
Definition DefaultLoginWindow : Z := 60 * 10 ^ 9.
Definition throttleMaxSources : Z := 4096.

Record window := MkWindow { wnKey : string; wnStart : Z; wnCount : Z }.

(** [thHeap] holds the list's elements; [thNext] is the next address. *)
Record Throttle := MkThrottle {
  thWindows : gmap string nat; thOrder : list nat; thHeap : gmap nat window; thNext : nat;
}.

Definition newThrottle : Throttle := MkThrottle ∅ [] ∅ 0.

Definition throttle_limit (limit : Z) : Z := if decide (0 < limit) then limit else DefaultLoginAttempts.
Definition throttle_window (span : Z) : Z := if decide (0 < span) then span else DefaultLoginWindow.

(** The loop of [makeRoom]; the list's length is its fuel. *)
Fixpoint makeRoom (fuel : nat) (t : Throttle) : option Throttle :=
  if decide (Z.of_nat (size (thWindows t)) < throttleMaxSources) then Some t else
  match fuel, thOrder t with
  | S fuel, front :: order =>
      w ← thHeap t !! front;
      makeRoom fuel (MkThrottle (delete (wnKey w) (thWindows t)) order (thHeap t) (thNext t))
  | _, _ => None
  end.

Definition Sources (t : Throttle) : Z := Z.of_nat (size (thWindows t)).

Definition MoveToBack (e : nat) (order : list nat) : list nat := filter (.≠ e) order ++ [e].

Section throttle.
Context (Limit Window : Z).
Abbreviation limit := (throttle_limit Limit).
Abbreviation span := (throttle_window Window).

(** The element of the source's window, which may be a new one. *)
Definition currentWindow (now : Z) (key : string) (t : Throttle) : option (nat * Throttle) :=
  match thWindows t !! key with
  | Some e =>
      w ← thHeap t !! e;
      if decide (span ≤ timeSub now (wnStart w)) then
        Some (e, MkThrottle (thWindows t) (MoveToBack e (thOrder t)) (<[e := MkWindow (wnKey w) now 0]> (thHeap t)) (thNext t))
      else Some (e, t)
  | None =>
      t ← makeRoom (length (thOrder t)) t;
      let e := thNext t in
      Some (e, MkThrottle (<[key := e]> (thWindows t)) (thOrder t ++ [e]) (<[e := MkWindow key now 0]> (thHeap t)) (S e))
  end.

(** [Allow]: whether the attempt is within the budget, and else the time to wait. *)
Definition Allow (now : Z) (key : string) (t : Throttle) : option (bool * Z * Throttle) :=
  '(e, t) ← currentWindow now key t;
  w ← thHeap t !! e;
  let w := MkWindow (wnKey w) (wnStart w) (i64 (wnCount w + 1)) in
  let t := MkThrottle (thWindows t) (thOrder t) (<[e := w]> (thHeap t)) (thNext t) in
  if decide (limit < wnCount w) then Some (false, timeSub (wnStart w + span) now, t) else Some (true, 0, t).

(** The attempts in the order the lock admits them, each with the clock it read before,
    and what was answered. *)
Record Entry := MkEntry { enAt : Z; enKey : string; enAllowed : bool; enRetryAfter : Z }.

Definition attempt (acc : option (list Entry * Throttle)) (a : Z * string) : option (list Entry * Throttle) :=
  '(log, t) ← acc;
  '(ok, retry, t) ← Allow a.1 a.2 t;
  Some (log ++ [MkEntry a.1 a.2 ok retry], t).
Definition serveLogins (attempts : list (Z * string)) : option (list Entry * Throttle) :=
  foldl attempt (Some ([], newThrottle)) attempts.

(** ** The two structures in step *)

Definition inStep (t : Throttle) : Prop :=
  NoDup (thOrder t) ∧
  (∀ key e, thWindows t !! key = Some e ↔ e ∈ thOrder t ∧ ∃ w, thHeap t !! e = Some w ∧ wnKey w = key) ∧
  (∀ e, e ∈ thOrder t → is_Some (thHeap t !! e)) ∧
  (∀ e, is_Some (thHeap t !! e) → (e < thNext t)%nat).

Lemma inStep_size t : inStep t → size (thWindows t) = length (thOrder t).
Proof.
  intros (Hnd & Hk & Hh & _). transitivity (length (map_to_list (thWindows t)).*2).
  { by rewrite length_fmap, length_map_to_list. }
  apply Permutation_length, NoDup_Permutation; [|done|].
  - apply NoDup_fmap_2_strong; [|apply NoDup_map_to_list].
    intros [k1 e1] [k2 e2] H1%elem_of_map_to_list H2%elem_of_map_to_list He. cbn in He. subst e2.
    apply Hk in H1 as (_ & w1 & Hw1 & <-), H2 as (_ & w2 & Hw2 & <-). by simplify_eq.
  - intros e. rewrite list_elem_of_fmap. split.
    + intros ([k e'] & -> & Hin%elem_of_map_to_list). by apply Hk in Hin as [? _].
    + intros He. destruct (Hh e He) as [w Hw]. exists (wnKey w, e). split; [done|].
      apply elem_of_map_to_list, Hk. eauto.
Qed.

Lemma inStep_new : inStep newThrottle.
Proof. split_and!; [constructor| | |]; try set_solver. intros e [? [=]]. Qed.

(** Dropping the front. *)
Lemma inStep_drop t front order w :
  inStep t → thOrder t = front :: order → thHeap t !! front = Some w →
  inStep (MkThrottle (delete (wnKey w) (thWindows t)) order (thHeap t) (thNext t)).
Proof.
  intros (Hnd & Hk & Hh & Hlow) Ho Hw. rewrite Ho in *. apply NoDup_cons in Hnd as [Hni Hnd].
  split_and!; cbn; [done| |set_solver|done]. intros key e. rewrite lookup_delete_Some, Hk. split.
  - intros (Hne & He & w' & Hw' & <-). split; [|eauto]. apply elem_of_cons in He as [->|He]; [|done]. by simplify_eq.
  - intros (He & w' & Hw' & <-). split; [|split; [by right|eauto]]. intros Heq.
    assert (thWindows t !! wnKey w = Some front) as H1 by (apply Hk; split; [by left|eauto]).
    assert (thWindows t !! wnKey w' = Some e) as H2 by (apply Hk; split; [by right|eauto]). rewrite Heq in H1. by simplify_eq.
Qed.

(** The table makes room for one: nothing goes below the bound, and at it the front. *)
Lemma makeRoom_spec t :
  inStep t → Sources t ≤ throttleMaxSources →
  (Sources t < throttleMaxSources ∧ makeRoom (length (thOrder t)) t = Some t) ∨
  (Sources t = throttleMaxSources ∧ ∃ front order w,
     thOrder t = front :: order ∧ thHeap t !! front = Some w ∧
     let t' := MkThrottle (delete (wnKey w) (thWindows t)) order (thHeap t) (thNext t) in
     makeRoom (length (thOrder t)) t = Some t' ∧ inStep t' ∧ Sources t' < throttleMaxSources).
Proof.
  intros Hin Hle. pose proof (inStep_size t Hin) as Hsz. unfold Sources, throttleMaxSources in *.
  destruct (decide (Z.of_nat (size (thWindows t)) < 4096)) as [Hlt|Hge].
  - left. split; [done|]. destruct (length (thOrder t)); cbn; by rewrite decide_True.
  - right. split; [lia|]. destruct (thOrder t) as [|front order] eqn:Ho; [cbn in Hsz; lia|].
    pose proof Hin as (_ & Hk & Hh & _). destruct (Hh front) as [w Hw]; [rewrite Ho; by left|].
    exists front, order, w. do 2 (split; [done|]). cbn zeta.
    pose proof (inStep_drop t front order w Hin Ho Hw) as Hin'.
    assert (size (delete (wnKey w) (thWindows t)) = length order) as Hsz' by apply (inStep_size _ Hin').
    cbn [length] in *. split; [|split; [done|cbn; rewrite Hsz'; lia]].
    cbn [makeRoom]. rewrite decide_False by done. rewrite Ho, Hw. cbn [mbind option_bind].
    destruct (length order) eqn:Hl; cbn [makeRoom thWindows]; rewrite decide_True; try done; unfold throttleMaxSources; lia.
Qed.

Lemma inStep_push t key w :
  inStep t → thWindows t !! key = None → wnKey w = key →
  inStep (MkThrottle (<[key := thNext t]> (thWindows t)) (thOrder t ++ [thNext t]) (<[thNext t := w]> (thHeap t)) (S (thNext t))).
Proof.
  intros (Hnd & Hk & Hh & Hlow) Hkey <-. set (e := thNext t).
  assert (∀ f, is_Some (thHeap t !! f) → e ≠ f) as Hfresh by (intros f Hf%Hlow; unfold e; lia).
  split_and!; cbn.
  - apply NoDup_app. split_and!; [done|intros f Hf%Hh%Hfresh; set_solver|apply NoDup_singleton].
  - intros k f. rewrite lookup_insert_Some, elem_of_app, list_elem_of_singleton. split.
    + intros [[<- <-]|[Hkk Hf]]; [rewrite lookup_insert_eq; eauto|].
      apply Hk in Hf as (Hf & v & Hv & <-). rewrite lookup_insert_ne by eauto. eauto.
    + intros ([Hf| ->] & v & Hv & <-); [right|left; by rewrite lookup_insert_eq in Hv; simplify_eq].
      rewrite lookup_insert_ne in Hv by eauto. assert (thWindows t !! wnKey v = Some f) as Hf' by (apply Hk; eauto).
      split; [congruence|done].
  - intros f [Hf| ->%list_elem_of_singleton]%elem_of_app; [|rewrite lookup_insert_eq; by eexists].
    rewrite lookup_insert_ne by auto. auto.
  - intros f Hf. destruct (decide (e = f)) as [<-|Hne]; [unfold e; lia|].
    rewrite lookup_insert_ne in Hf by done. apply Hlow in Hf. unfold e. lia.
Qed.

(** A window is changed in place, and the list reordered. *)
Lemma inStep_update t e w w' order :
  inStep t → thHeap t !! e = Some w → wnKey w' = wnKey w → order ≡ₚ thOrder t →
  inStep (MkThrottle (thWindows t) order (<[e := w']> (thHeap t)) (thNext t)).
Proof.
  intros (Hnd & Hk & Hh & Hlow) Hw Hkey Hp.
  assert (∀ f k, (∃ v, <[e := w']> (thHeap t) !! f = Some v ∧ wnKey v = k) ↔ (∃ v, thHeap t !! f = Some v ∧ wnKey v = k)) as Hv.
  { intros f k. destruct (decide (e = f)) as [<-|Hne]; [|by rewrite lookup_insert_ne].
    rewrite lookup_insert_eq, Hw. split; [intros (v & [= <-] & <-); eauto|intros (v & [= <-] & <-); eauto]. }
  assert (∀ f, is_Some (<[e := w']> (thHeap t) !! f) ↔ is_Some (thHeap t !! f)) as Hs.
  { intros f. rewrite lookup_insert_is_Some. split; [intros [<-|[_ ?]]; [by eexists|done]|].
    destruct (decide (e = f)); auto. }
  split_and!; cbn.
  - by rewrite Hp.
  - intros k f. by rewrite Hk, Hv, Hp.
  - intros f. rewrite Hs, Hp. apply Hh.
  - intros f. rewrite Hs. apply Hlow.
Qed.

Lemma MoveToBack_perm e order : NoDup order → e ∈ order → MoveToBack e order ≡ₚ order.
Proof.
  intros Hnd He. apply NoDup_Permutation; [|done|].
  - apply NoDup_app. split_and!; [by apply NoDup_filter| |apply NoDup_singleton].
    intros f [Hf _]%list_elem_of_filter ->%list_elem_of_singleton. done.
  - intros f. unfold MoveToBack. rewrite elem_of_app, list_elem_of_filter, list_elem_of_singleton.
    destruct (decide (f = e)) as [->|]; naive_solver.
Qed.

(** ** One attempt *)

(** What the table knows of a source, and the ages of its windows. *)
Definition windowAt (t : Throttle) (key : string) : option (Z * Z) :=
  e ← thWindows t !! key; w ← thHeap t !! e; Some (wnStart w, wnCount w).
Definition startOf (t : Throttle) (e : nat) : Z := default 0 (wnStart <$> thHeap t !! e).
Definition byAge (t : Throttle) : Prop := StronglySorted Z.le (startOf t <$> thOrder t).

Lemma inStep_window t e w : inStep t → e ∈ thOrder t → thHeap t !! e = Some w → windowAt t (wnKey w) = Some (wnStart w, wnCount w).
Proof.
  intros (_ & Hk & _) He Hw. unfold windowAt.
  assert (thWindows t !! wnKey w = Some e) as -> by (apply Hk; eauto). cbn. by rewrite Hw.
Qed.

Lemma inStep_source t key e :
  inStep t → thWindows t !! key = Some e →
  ∃ w, thHeap t !! e = Some w ∧ e ∈ thOrder t ∧ wnKey w = key ∧ windowAt t key = Some (wnStart w, wnCount w).
Proof.
  intros Hin He. pose proof Hin as (_ & Hk & _). apply Hk in He as (He & w & Hw & <-).
  exists w. split_and!; try done. by apply (inStep_window t e).
Qed.

(** The window of an element is changed, and the other sources keep theirs. *)
Lemma windowAt_update t e w w' order key :
  inStep t → thHeap t !! e = Some w → e ∈ thOrder t → wnKey w' = wnKey w →
  windowAt (MkThrottle (thWindows t) order (<[e := w']> (thHeap t)) (thNext t)) key =
  if decide (key = wnKey w) then Some (wnStart w', wnCount w') else windowAt t key.
Proof.
  intros (_ & Hk & _) Hw He Hkey. unfold windowAt. cbn. destruct (decide (key = wnKey w)) as [->|Hne].
  - assert (thWindows t !! wnKey w = Some e) as -> by (apply Hk; eauto). cbn. by rewrite lookup_insert_eq.
  - destruct (thWindows t !! key) as [f|] eqn:Hf; [|done]. cbn. rewrite lookup_insert_ne; [done|].
    intros <-. apply Hk in Hf as (_ & v & Hv & <-). by simplify_eq.
Qed.

Lemma byAge_update t e w w' :
  thHeap t !! e = Some w → wnStart w' = wnStart w → byAge t →
  byAge (MkThrottle (thWindows t) (thOrder t) (<[e := w']> (thHeap t)) (thNext t)).
Proof.
  intros Hw Hs. unfold byAge. cbn. intros Hb. erewrite list_fmap_ext; [exact Hb|].
  intros i f _. unfold startOf. cbn. destruct (decide (e = f)) as [<-|Hne].
  - by rewrite lookup_insert_eq, Hw; cbn.
  - by rewrite lookup_insert_ne.
Qed.

Lemma StronglySorted_sublist {A} (R : relation A) l k : sublist k l → StronglySorted R l → StronglySorted R k.
Proof.
  induction 1 as [|x k l Hs IH|x k l Hs IH]; intros Hss; [done| |].
  - apply StronglySorted_inv in Hss as [Hss Hx]. constructor; [by apply IH|].
    apply Forall_forall. intros y Hy. rewrite Forall_forall in Hx. apply Hx. by eapply elem_of_sublist.
  - apply IH. by apply StronglySorted_inv in Hss as [? _].
Qed.

(** A newer window goes to the back. *)
Lemma byAge_back t windows order e w' next :
  byAge t → sublist order (thOrder t) → e ∉ order → (∀ f, f ∈ thOrder t → startOf t f ≤ wnStart w') →
  byAge (MkThrottle windows (order ++ [e]) (<[e := w']> (thHeap t)) next).
Proof.
  intros Hb Hsub He Hmax. unfold byAge. cbn. rewrite fmap_app. cbn.
  assert (startOf t <$> order = startOf (MkThrottle windows (order ++ [e]) (<[e := w']> (thHeap t)) next) <$> order) as Heq.
  { apply list_fmap_ext. intros i f Hf%list_elem_of_lookup_2. unfold startOf. cbn.
    rewrite lookup_insert_ne; [done|]. by intros <-. }
  rewrite <-Heq. apply StronglySorted_snoc.
  - eapply StronglySorted_sublist; [|exact Hb]. clear -Hsub. induction Hsub; cbn; by constructor.
  - apply Forall_forall. intros x (f & -> & Hf)%list_elem_of_fmap. unfold startOf at 2. cbn. rewrite lookup_insert_eq. cbn.
    apply Hmax. by eapply elem_of_sublist.
Qed.

(** The window an attempt counts in. *)
Definition nextWindow (now : Z) (w : option (Z * Z)) : Z * Z :=
  match w with
  | Some (start, count) => if decide (span ≤ timeSub now start) then (now, 0) else (start, count)
  | None => (now, 0)
  end.

(** The one source that a full table loses to a new one: the oldest. *)
Definition evicts (t : Throttle) (key k : string) : Prop :=
  windowAt t key = None ∧ Sources t = throttleMaxSources ∧
  ∃ front w, head (thOrder t) = Some front ∧ thHeap t !! front = Some w ∧ wnKey w = k.

Lemma windowAt_None t key : inStep t → thWindows t !! key = None → windowAt t key = None.
Proof. intros _ H. unfold windowAt. by rewrite H. Qed.

(** A new source. *)
Lemma push_spec now key t :
  inStep t → thWindows t !! key = None → Sources t < throttleMaxSources →
  let t' := MkThrottle (<[key := thNext t]> (thWindows t)) (thOrder t ++ [thNext t])
              (<[thNext t := MkWindow key now 0]> (thHeap t)) (S (thNext t)) in
  inStep t' ∧ Sources t' ≤ throttleMaxSources ∧ (∀ k, k ≠ key → windowAt t' k = windowAt t k) ∧
  (byAge t → (∀ f, f ∈ thOrder t → startOf t f ≤ now) → byAge t').
Proof.
  intros Hin Hkey Hlt. cbn zeta. pose proof Hin as (_ & Hk & Hh & Hlow). split; [by apply inStep_push|]. split; [|split].
  - unfold Sources in *. cbn. rewrite map_size_insert_None by done. lia.
  - intros k Hne. unfold windowAt. cbn. rewrite lookup_insert_ne by done.
    destruct (thWindows t !! k) as [f|] eqn:Hf; [|done]. cbn. rewrite lookup_insert_ne; [done|].
    apply Hk in Hf as [Hf%Hh%Hlow _]. lia.
  - intros Hb Hmax. apply byAge_back; [done|done| |done]. intros Hf%Hh%Hlow. lia.
Qed.

(** The other sources once the front is dropped. *)
Lemma dropped_spec t front order w key k :
  inStep t → Sources t = throttleMaxSources → windowAt t key = None → thOrder t = front :: order → thHeap t !! front = Some w →
  let t' := MkThrottle (delete (wnKey w) (thWindows t)) order (thHeap t) (thNext t) in
  windowAt t' k = windowAt t k ∨ windowAt t' k = None ∧ evicts t key k.
Proof.
  intros Hin Hfull Hkey Ho Hw. cbn zeta. destruct (decide (k = wnKey w)) as [->|Hne].
  - right. split; [unfold windowAt; cbn; by rewrite lookup_delete_eq|]. do 2 (split; [done|]). exists front, w. by rewrite Ho.
  - left. unfold windowAt. cbn. by rewrite lookup_delete_ne.
Qed.

Lemma currentWindow_spec now key t :
  inStep t → Sources t ≤ throttleMaxSources →
  ∃ e t1 w, currentWindow now key t = Some (e, t1) ∧ inStep t1 ∧ Sources t1 ≤ throttleMaxSources ∧
    e ∈ thOrder t1 ∧ thHeap t1 !! e = Some w ∧ wnKey w = key ∧
    (wnStart w, wnCount w) = nextWindow now (windowAt t key) ∧
    (∀ k, k ≠ key → windowAt t1 k = windowAt t k ∨ windowAt t1 k = None ∧ evicts t key k) ∧
    (byAge t → (∀ f, f ∈ thOrder t → startOf t f ≤ now) → byAge t1).
Proof.
  intros Hin Hle. unfold currentWindow. destruct (thWindows t !! key) as [e|] eqn:Hkey.
  - destruct (inStep_source t key e Hin Hkey) as (w & Hw & He & Hwk & Hat). rewrite Hw. cbn [mbind option_bind].
    rewrite Hat. cbn [nextWindow]. destruct (decide _) as [Hel|Hel].
    + eexists e, _, _. split; [done|]. pose proof Hin as (Hnd & _).
      assert (MoveToBack e (thOrder t) ≡ₚ thOrder t) as Hp by by apply MoveToBack_perm.
      split; [by eapply inStep_update|]. split; [done|]. cbn.
      split; [by rewrite Hp|]. rewrite lookup_insert_eq. split; [done|]. cbn. do 2 (split; [done|]). split.
      * intros k Hk. left. rewrite (windowAt_update t e w) by done. by rewrite decide_False by (by subst).
      * intros Hb Hmax. apply byAge_back; [done|apply sublist_filter| |done]. by intros [? _]%list_elem_of_filter.
    + exists e, t, w. split_and!; auto.
  - destruct (makeRoom_spec t Hin Hle) as [[Hlt ->]|(Hfull & front & order & w & Ho & Hw & -> & Hin' & Hlt)].
    + destruct (push_spec now key t Hin Hkey Hlt) as (Hi & Hs & Hk & Hb). eexists _, _, (MkWindow key now 0).
      split; [done|]. do 2 (split; [done|]). cbn. rewrite lookup_insert_eq, (windowAt_None t key) by done.
      split; [set_solver|]. do 3 (split; [done|]). split; [by left; apply Hk|done].
    + cbn in Hlt. set (t' := MkThrottle _ order _ _) in *.
      assert (thWindows t' !! key = None) as Hkey' by (cbn; by rewrite lookup_delete_None; right).
      destruct (push_spec now key t' Hin' Hkey' Hlt) as (Hi & Hs & Hk & Hb). eexists _, _, (MkWindow key now 0).
      split; [done|]. do 2 (split; [done|]). cbn. rewrite lookup_insert_eq, (windowAt_None t key) by done.
      split; [set_solver|]. do 3 (split; [done|]). split.
      * intros k Hkk. destruct (dropped_spec t front order w key k) as [Hd|[Hd Hev]]; try done; [by apply windowAt_None|left|right; split; [|done]];
          (etransitivity; [exact (Hk k Hkk)|exact Hd]).
      * intros Hage Hmax. apply Hb.
        -- unfold byAge in Hage |- *. rewrite Ho in Hage. by apply StronglySorted_inv in Hage as [? _].
        -- intros f Hf. apply Hmax. rewrite Ho. by right.
Qed.

Lemma Allow_spec now key t :
  inStep t → Sources t ≤ throttleMaxSources →
  let '(start, count) := nextWindow now (windowAt t key) in
  let n := i64 (count + 1) in
  ∃ t', Allow now key t =
      Some (bool_decide (n ≤ limit), if decide (n ≤ limit) then 0 else timeSub (start + span) now, t') ∧
    inStep t' ∧ Sources t' ≤ throttleMaxSources ∧ windowAt t' key = Some (start, n) ∧
    (∀ k, k ≠ key → windowAt t' k = windowAt t k ∨ windowAt t' k = None ∧ evicts t key k) ∧
    (byAge t → (∀ f, f ∈ thOrder t → startOf t f ≤ now) → byAge t').
Proof.
  intros Hin Hle. destruct (currentWindow_spec now key t Hin Hle) as (e & t1 & w & Hcur & Hin1 & Hs1 & He & Hw & Hwk & Hnext & Hoth & Hage).
  rewrite <-Hnext. unfold Allow. rewrite Hcur. cbn [mbind option_bind]. rewrite Hw. cbn [mbind option_bind wnKey wnStart wnCount].
  set (n := i64 (wnCount w + 1)). set (t2 := MkThrottle _ _ _ _). exists t2.
  split; [destruct (decide (limit < n)), (decide (n ≤ limit)); try lia; [by rewrite bool_decide_false|by rewrite bool_decide_true]|].
  split; [by eapply inStep_update|]. split; [done|]. split.
  { unfold t2. rewrite (windowAt_update t1 e w) by done. by rewrite decide_True. }
  split.
  - intros k Hk. unfold t2. rewrite (windowAt_update t1 e w) by done. rewrite decide_False by (by subst). by apply Hoth.
  - intros Hb Hmax. eapply byAge_update; [done|done|auto].
Qed.

(** ** Sequences of attempts *)

Definition inOrder (l : list (Z * string)) : Prop := StronglySorted Z.le l.*1.

Lemma inOrder_snoc l a : inOrder (l ++ [a]) → inOrder l ∧ ∀ b, b ∈ l → b.1 ≤ a.1.
Proof.
  unfold inOrder. rewrite fmap_app. intros H. split; [by eapply StronglySorted_app_1_l|].
  intros b Hb. eapply StronglySorted_app_1_elem_of; [exact H| |by left]. by apply list_elem_of_fmap_2.
Qed.

(** The attempts of a source since an instant. *)
Definition since (l : list (Z * string)) (key : string) (start : Z) : list (Z * string) :=
  filter (λ a, a.2 = key ∧ start ≤ a.1) l.

Lemma since_snoc l key start a :
  since (l ++ [a]) key start = since l key start ++ (if decide (a.2 = key ∧ start ≤ a.1) then [a] else []).
Proof. unfold since. by rewrite filter_app, filter_cons, filter_nil. Qed.

Definition counted (l : list (Z * string)) (t : Throttle) : Prop :=
  ∀ key start count, windowAt t key = Some (start, count) →
    0 ≤ count ≤ Z.of_nat (length l) ∧
    (inOrder l → (start, key) ∈ l ∧ count ≤ Z.of_nat (length (since l key start))).

Definition answered (l : list (Z * string)) (log : list Entry) : Prop := (λ e, (enAt e, enKey e)) <$> log = l.

Lemma serveLogins_snoc l a : serveLogins (l ++ [a]) = attempt (serveLogins l) a.
Proof. unfold serveLogins. by rewrite foldl_app. Qed.

Lemma nextWindow_counted now key l t :
  counted l t → Z.of_nat (length l) < 2 ^ 63 - 1 →
  let '(start, count) := nextWindow now (windowAt t key) in i64 (count + 1) = count + 1 ∧ 0 ≤ count ≤ Z.of_nat (length l).
Proof.
  intros Hc Hl. destruct (windowAt t key) as [[s c]|] eqn:Hw; cbn.
  - destruct (Hc _ _ _ Hw) as [Hr _]. destruct (decide _); rewrite i64_small; lia.
  - rewrite i64_small; lia.
Qed.

(** The table never fails and never exceeds its bound, whatever the clocks read; and each
    count is of attempts that were made. *)
Lemma serveLogins_any l :
  Z.of_nat (length l) < 2 ^ 63 →
  ∃ log t, serveLogins l = Some (log, t) ∧ inStep t ∧ Sources t ≤ throttleMaxSources ∧ counted l t ∧ answered l log.
Proof.
  induction l as [|[now key] l IH] using rev_ind; intros Hlen.
  { exists [], newThrottle. split; [done|]. split; [apply inStep_new|]. split; [done|]. split; [|done]. intros key s c [=]. }
  rewrite length_app in Hlen. cbn [length] in Hlen. destruct IH as (log & t & Hrun & Hin & Hs & Hc & Ha); [lia|].
  rewrite serveLogins_snoc, Hrun. cbn [attempt mbind option_bind].
  pose proof (Allow_spec now key t Hin Hs) as HA. pose proof (nextWindow_counted now key l t Hc ltac:(lia)) as Hnw.
  destruct (nextWindow now (windowAt t key)) as [start count] eqn:Hnext. destruct Hnw as [Hi Hr]. cbn zeta in HA. rewrite Hi in HA.
  destruct HA as (t' & HA & Hin' & Hs' & Hk & Hoth & _). cbn [fst snd]. rewrite HA. cbn [mbind option_bind].
  eexists _, t'. split; [done|]. do 2 (split; [done|]). split; [|unfold answered; by rewrite fmap_app, Ha].
  intros k s c Hw. rewrite length_app. cbn [length]. destruct (decide (k = key)) as [->|Hne].
  - rewrite Hk in Hw. injection Hw as <- <-. split; [lia|]. intros [Ho Hmax]%inOrder_snoc.
    rewrite elem_of_app, since_snoc, length_app. cbn [snd fst].
    destruct (windowAt t key) as [[s0 c0]|] eqn:Hw0; cbn in Hnext.
    + destruct (Hc _ _ _ Hw0) as [_ Hc0]. destruct (Hc0 Ho) as [Hel Hcnt]. pose proof (Hmax _ Hel) as Hs0. cbn in Hs0.
      destruct (decide _) in Hnext; injection Hnext as <- <-; rewrite decide_True by (split; [done|lia]); cbn [length].
      * split; [right; by left|lia].
      * split; [by left|lia].
    + injection Hnext as <- <-. rewrite decide_True by (split; [done|lia]). cbn [length]. split; [right; by left|lia].
  - destruct (Hoth k Hne) as [Heq|[Heq _]]; rewrite Heq in Hw; [|done]. destruct (Hc _ _ _ Hw) as [Hr' Hc']. split; [lia|].
    intros [Ho _]%inOrder_snoc. destruct (Hc' Ho) as [? ?]. rewrite elem_of_app, since_snoc, length_app. split; [by left|lia].
Qed.

(** Attempts are counted in a window that has begun. *)
Lemma startOf_bound t l now :
  inStep t → counted l t → inOrder l → (∀ b, b ∈ l → b.1 ≤ now) → ∀ f, f ∈ thOrder t → startOf t f ≤ now.
Proof.
  intros Hin Hc Ho Hmax f Hf. pose proof Hin as (_ & _ & Hh & _). destruct (Hh f Hf) as [w Hw].
  pose proof (inStep_window t f w Hin Hf Hw) as Hat. destruct (Hc _ _ _ Hat) as [_ [Hel _]]; [done|].
  unfold startOf. rewrite Hw. apply (Hmax _ Hel).
Qed.

(** The sources that attempted within the last window. *)
Definition recent (now : Z) (l : list (Z * string)) : gset string :=
  list_to_set (filter (λ a, now - span < a.1) l).*2.
Definition uncrowded (l : list (Z * string)) : Prop :=
  ∀ i now key, l !! i = Some (now, key) → Z.of_nat (size (recent now (take (S i) l))) ≤ throttleMaxSources.

Lemma uncrowded_snoc l now key :
  uncrowded (l ++ [(now, key)]) →
  uncrowded l ∧ Z.of_nat (size (recent now (l ++ [(now, key)]))) ≤ throttleMaxSources.
Proof.
  intros H. split.
  - intros i n k Hi. specialize (H i n k). rewrite lookup_app_l, take_app_le in H; eauto using lookup_lt_Some.
    apply lookup_lt_Some in Hi. lia.
  - specialize (H (length l) now key). rewrite list_lookup_middle in H by done.
    rewrite take_ge in H by (rewrite length_app; cbn; lia). auto.
Qed.

Lemma span_pos : 0 < span.
Proof. unfold throttle_window, DefaultLoginWindow. case_decide; lia. Qed.

(** With no more sources in one window than the table holds, only a window that has
    elapsed is dropped. *)
Lemma evicts_elapsed t l now key k start count :
  inStep t → counted l t → inOrder l → byAge t →
  Z.of_nat (size (recent now (l ++ [(now, key)]))) ≤ throttleMaxSources →
  evicts t key k → windowAt t k = Some (start, count) → start + span ≤ now.
Proof.
  intros Hin Hc Ho Hb Hroom (Hkey & Hfull & front & w & Hf & Hw & <-) Hat.
  destruct (decide (start + span ≤ now)) as [|Hlive]; [done|]. exfalso.
  pose proof Hin as (_ & Hk & Hh & _). destruct (thOrder t) as [|front' order] eqn:Hor; [done|]. injection Hf as ->.
  assert (windowAt t (wnKey w) = Some (wnStart w, wnCount w)) as Hat' by (apply (inStep_window t front); [done|rewrite Hor; by left|done]).
  rewrite Hat' in Hat. injection Hat as <- <-.
  assert (∀ f, f ∈ thOrder t → wnStart w ≤ startOf t f) as Hold.
  { intros f Hf. rewrite Hor in Hf. unfold byAge in Hb. rewrite Hor in Hb. cbn in Hb.
    apply StronglySorted_inv in Hb as [_ Hb]. rewrite Forall_forall in Hb.
    assert (startOf t front = wnStart w) as Hsf by (unfold startOf; by rewrite Hw).
    apply elem_of_cons in Hf as [->|Hf]; [lia|]. rewrite <-Hsf. apply Hb. by apply list_elem_of_fmap_2. }
  assert (dom (thWindows t) ∪ {[key]} ⊆ recent now (l ++ [(now, key)])) as Hsub.
  { intros x. rewrite elem_of_union, elem_of_singleton. unfold recent.
    rewrite elem_of_list_to_set, list_elem_of_fmap. intros [[e He]%elem_of_dom| ->].
    - destruct (inStep_source t x e Hin He) as (v & Hv & Hve & Hvk & Hvat). destruct (Hc _ _ _ Hvat) as [_ [Hel _]]; [done|].
      pose proof (Hold e Hve) as Hge. unfold startOf in Hge. rewrite Hv in Hge. cbn in Hge.
      exists (wnStart v, x). split; [done|]. apply list_elem_of_filter. cbn. split; [lia|]. apply elem_of_app. by left.
    - exists (now, key). split; [done|]. apply list_elem_of_filter. cbn. pose proof span_pos. split; [lia|]. apply elem_of_app. right. by left. }
  apply subseteq_size in Hsub. rewrite size_union, size_singleton, size_dom in Hsub.
  - unfold Sources in Hfull. lia.
  - intros x [e He]%elem_of_dom ->%elem_of_singleton. destruct (inStep_source t key e Hin He) as (v & _ & _ & _ & Hv). by rewrite Hkey in Hv.
Qed.

(** ** A limiter with room for every source *)

Definition reference (l : list (Z * string)) : gmap string (Z * Z) :=
  foldl (λ m a, let '(start, count) := nextWindow a.1 (m !! a.2) in <[a.2 := (start, count + 1)]> m) ∅ l.

Lemma reference_snoc l a :
  reference (l ++ [a]) =
  let '(start, count) := nextWindow a.1 (reference l !! a.2) in <[a.2 := (start, count + 1)]> (reference l).
Proof. unfold reference. by rewrite foldl_app. Qed.

(** The table agrees with it, but for windows that elapsed. *)
Definition agrees (l : list (Z * string)) (t : Throttle) : Prop :=
  ∀ key, windowAt t key = reference l !! key ∨
    windowAt t key = None ∧ ∃ start count a, reference l !! key = Some (start, count) ∧ a ∈ l ∧ start + span ≤ a.1.

Lemma agrees_next l t now key :
  Window < 2 ^ 63 → (∀ b, b ∈ l → b.1 ≤ now) → agrees l t →
  nextWindow now (windowAt t key) = nextWindow now (reference l !! key).
Proof.
  intros HW Hmax Ha. destruct (Ha key) as [->|(-> & s & c & a & -> & Hel & Hl)]; [done|]. cbn.
  specialize (Hmax _ Hel). pose proof span_pos as Hp. rewrite decide_True; [done|]. unfold timeSub.
  assert (span < 2 ^ 63) by (unfold throttle_window, DefaultLoginWindow in *; case_decide; lia). lia.
Qed.

(** What a refusal says. *)
Definition refusalsFair (l : list (Z * string)) (log : list Entry) : Prop :=
  ∀ i e, log !! i = Some e → enAllowed e = false →
    0 < enRetryAfter e ≤ span ∧
    limit ≤ Z.of_nat (length (since (take i l) (enKey e) (enAt e + enRetryAfter e - span))).

Lemma timeSub_elapsed now start : Window < 2 ^ 63 → span ≤ timeSub now start ↔ start + span ≤ now.
Proof.
  intros HW. pose proof span_pos. assert (span < 2 ^ 63) by (unfold throttle_window, DefaultLoginWindow in *; case_decide; lia).
  unfold timeSub. lia.
Qed.

(** The window an attempt counts in has begun and has not elapsed. *)
Lemma nextWindow_live l t now key :
  Window < 2 ^ 63 → counted l t → inOrder l → (∀ b, b ∈ l → b.1 ≤ now) →
  let '(start, count) := nextWindow now (windowAt t key) in
  start ≤ now < start + span ∧ count ≤ Z.of_nat (length (since l key start)).
Proof.
  intros HW Hc Ho Hmax. pose proof span_pos. destruct (windowAt t key) as [[s c]|] eqn:Hw; cbn; [|lia].
  destruct (Hc _ _ _ Hw) as [_ [Hel Hcnt]]; [done|]. specialize (Hmax _ Hel). cbn in Hmax.
  destruct (decide _) as [He|He]; rewrite timeSub_elapsed in He by done; lia.
Qed.

Lemma serveLogins_ordered l log t :
  Window < 2 ^ 63 → Z.of_nat (length l) < 2 ^ 63 → inOrder l → serveLogins l = Some (log, t) →
  byAge t ∧ refusalsFair l log ∧ (uncrowded l → agrees l t).
Proof.
  intros HW. revert log t. induction l as [|[now key] l IH] using rev_ind; intros log2 t2 Hlen Ho.
  { intros [= <- <-]. split; [constructor|]. split; [intros i e Hi; by rewrite lookup_nil in Hi|]. intros _ k. left. done. }
  rewrite length_app in Hlen. cbn [length] in Hlen. apply inOrder_snoc in Ho as [Ho Hmax]. cbn [fst] in Hmax.
  destruct (serveLogins_any l ltac:(lia)) as (log & t & Hrun & Hin & Hs & Hc & Ha).
  destruct (IH log t ltac:(lia) Ho Hrun) as (Hb & Hfair & Hag). rewrite serveLogins_snoc, Hrun. cbn [attempt mbind option_bind fst snd].
  pose proof (Allow_spec now key t Hin Hs) as HA. pose proof (nextWindow_counted now key l t Hc ltac:(lia)) as Hnw.
  pose proof (nextWindow_live l t now key HW Hc Ho Hmax) as Hlive.
  destruct (nextWindow now (windowAt t key)) as [start count] eqn:Hnext. destruct Hnw as [Hi Hr]. cbn zeta in HA. rewrite Hi in HA.
  destruct HA as (t' & HA & Hin' & Hs' & Hk & Hoth & Hage). rewrite HA. cbn [mbind option_bind]. intros [= <- <-].
  split; [apply Hage; [done|by apply (startOf_bound t l)]|]. split.
  - intros i e [Hi'|[Hge Hi']]%lookup_app_Some Hno.
    + destruct (Hfair i e Hi' Hno) as [? ?]. split; [done|]. rewrite take_app_le; [done|].
      apply lookup_lt_Some in Hi'. rewrite <-Ha, length_fmap. lia.
    + apply list_lookup_singleton_Some in Hi' as [Hz <-]. cbn in *.
      assert (i = length l) as -> by (rewrite <-Ha, length_fmap; lia). rewrite take_app_length.
      apply bool_decide_eq_false in Hno. rewrite decide_False by done. unfold timeSub.
      assert (span < 2 ^ 63) by (unfold throttle_window, DefaultLoginWindow in *; case_decide; lia).
      rewrite Z.min_r, Z.max_r by lia. split; [lia|].
      replace (now + (start + span - now) - span) with start by lia. lia.
  - intros [Hu Hroom]%uncrowded_snoc k. specialize (Hag Hu). rewrite reference_snoc. cbn [fst snd].
    rewrite <-(agrees_next l t now key HW Hmax Hag), Hnext. destruct (decide (k = key)) as [->|Hne].
    { left. by rewrite lookup_insert_eq. }
    rewrite lookup_insert_ne by done. destruct (Hoth k Hne) as [->|[-> Hev]].
    + destruct (Hag k) as [->|(-> & s & c & a & Hs2 & Hel & Hl)]; [by left|right].
      split; [done|]. exists s, c, a. split; [done|]. split; [apply elem_of_app; by left|done].
    + destruct (Hag k) as [Heq|(Heq & s & c & a & Hs2 & Hel & Hl)].
      * destruct (reference l !! k) as [[s c]|]; [right|by left]. split; [done|]. exists s, c, (now, key).
        split; [done|]. split; [apply elem_of_app; right; by left|]. cbn. by eapply (evicts_elapsed t l now key k).
      * right. split; [done|]. exists s, c, a. split; [done|]. split; [apply elem_of_app; by left|done].
Qed.

Lemma reference_made l key start count : reference l !! key = Some (start, count) → 0 < count ∧ (start, key) ∈ l.
Proof.
  revert start count. induction l as [|[now k] l IH] using rev_ind; intros start count; [done|].
  rewrite reference_snoc, elem_of_app, list_elem_of_singleton. cbn [fst snd].
  destruct (nextWindow now (reference l !! k)) as [s c] eqn:Hn. destruct (decide (k = key)) as [->|Hne].
  - rewrite lookup_insert_eq. intros [= <- <-]. destruct (reference l !! key) as [[s0 c0]|] eqn:Hr; cbn in Hn.
    + destruct (IH s0 c0 eq_refl). destruct (decide _); injection Hn as <- <-; auto with lia.
    + injection Hn as <- <-. auto with lia.
  - rewrite lookup_insert_ne by done. intros [? ?]%IH. auto.
Qed.

(** The attempts of a source that were let through within [span] of an instant. *)
Definition letThrough (log : list Entry) (key : string) (from : Z) : list Entry :=
  filter (λ e, enKey e = key ∧ enAllowed e = true ∧ from ≤ enAt e < from + span) log.

Definition budget (l : list (Z * string)) (log : list Entry) (key : string) (from : Z) : Prop :=
  let n := Z.of_nat (length (letThrough log key from)) in
  match reference l !! key with
  | None => n = 0
  | Some (start, count) =>
      (start < from ∧ n ≤ Z.min count limit) ∨
      (from ≤ start < from + span ∧ n ≤ limit + Z.min count limit) ∨
      (from + span ≤ start ∧ n ≤ 2 * limit)
  end.

Lemma limit_pos : 0 < limit.
Proof. unfold throttle_limit, DefaultLoginAttempts. case_decide; lia. Qed.

Lemma letThrough_snoc log e key from :
  letThrough (log ++ [e]) key from = letThrough log key from ++
    (if decide (enKey e = key ∧ enAllowed e = true ∧ from ≤ enAt e < from + span) then [e] else []).
Proof. unfold letThrough. by rewrite filter_app, filter_cons, filter_nil. Qed.

(** None was let through before the instant. *)
Lemma letThrough_none l log key from now :
  answered l log → (∀ b, b ∈ l → b.1 ≤ now) → now < from → length (letThrough log key from) = 0%nat.
Proof.
  intros Ha Hmax Hlt. unfold letThrough. apply length_zero_iff_nil, filter_nil_iff. intros e He (_ & _ & Hr & _).
  assert ((enAt e, enKey e) ∈ l) as Hel by (rewrite <-Ha; by apply (list_elem_of_fmap_2 (λ e, (enAt e, enKey e)))).
  apply Hmax in Hel. cbn in Hel. lia.
Qed.

Lemma serveLogins_budget l log t key from :
  Window < 2 ^ 63 → Z.of_nat (length l) < 2 ^ 63 → inOrder l → uncrowded l → serveLogins l = Some (log, t) →
  budget l log key from.
Proof.
  intros HW. revert log t. induction l as [|[now k] l IH] using rev_ind; intros log2 t2 Hlen Ho Hu; [by intros [= <- <-]|].
  rewrite length_app in Hlen. cbn [length] in Hlen. apply inOrder_snoc in Ho as [Ho Hmax]. cbn [fst] in Hmax.
  apply uncrowded_snoc in Hu as [Hu _]. destruct (serveLogins_any l ltac:(lia)) as (log & t & Hrun & Hin & Hs & Hc & Ha).
  destruct (serveLogins_ordered l log t HW ltac:(lia) Ho Hrun) as (_ & _ & Hag). specialize (Hag Hu).
  specialize (IH log t ltac:(lia) Ho Hu Hrun). rewrite serveLogins_snoc, Hrun. cbn [attempt mbind option_bind fst snd].
  pose proof (Allow_spec now k t Hin Hs) as HA. pose proof (nextWindow_counted now k l t Hc ltac:(lia)) as Hnw.
  pose proof (nextWindow_live l t now k HW Hc Ho Hmax) as Hlive.
  rewrite (agrees_next l t now k HW Hmax Hag) in HA, Hnw, Hlive.
  unfold budget in IH |- *. rewrite reference_snoc. cbn [fst snd].
  destruct (nextWindow now (reference l !! k)) as [start count] eqn:Hnext. destruct Hnw as [Hi Hr]. cbn zeta in HA. rewrite Hi in HA.
  destruct HA as (t' & HA & _). rewrite HA. cbn [mbind option_bind]. intros [= <- <-].
  rewrite letThrough_snoc, length_app. cbn [enKey enAllowed enAt].
  destruct (decide (k = key)) as [->|Hne].
  2:{ rewrite lookup_insert_ne by done. rewrite decide_False by naive_solver. cbn [length]. by rewrite Nat.add_0_r. }
  rewrite lookup_insert_eq. pose proof (letThrough_none l log key from now Ha Hmax) as Hnone. pose proof limit_pos. pose proof span_pos.
  set (n := length (letThrough log key from)) in *.
  assert (∃ d : Z, Z.of_nat (n + length (if decide (key = key ∧ bool_decide (count + 1 ≤ limit) = true ∧ from ≤ now < from + span)
      then [MkEntry now key (bool_decide (count + 1 ≤ limit)) (if decide (count + 1 ≤ limit) then 0 else timeSub (start + span) now)] else []))
      = Z.of_nat n + d ∧ (d = 0 ∨ d = 1 ∧ count + 1 ≤ limit ∧ from ≤ now < from + span)) as (d & -> & Hd).
  { destruct (decide (key = key ∧ _)) as [(_ & Hb & Hr2)|_]; [exists 1|exists 0]; cbn [length]; split; try lia.
    apply bool_decide_eq_true in Hb. by right. }
  destruct (reference l !! key) as [[s0 c0]|] eqn:Href; cbn [nextWindow] in Hnext; [|injection Hnext as <- <-; lia].
  destruct (reference_made l key s0 c0 Href) as [Hc0 Hel%Hmax]. cbn [fst] in Hel.
  destruct (decide _) as [He|He] in Hnext; rewrite timeSub_elapsed in He by done; injection Hnext as <- <-; lia.
Qed.

(** C34: the brake on password guessing.  Whatever clocks the attempts read, the table
    holds 4096 sources at most, every attempt is answered, and no window is looked for in
    vain.  When the clock does not go back, a refused source has made as many attempts as a
    window allows within the window that is running, and is told when that ends; and while
    no more sources attempt within one window than the table holds, no stretch of a
    window's length lets more than twice the limit through from one source. *)
Theorem Throttle_limits attempts :
  Window < 2 ^ 63 → Z.of_nat (length attempts) < 2 ^ 63 →
  ∃ log t, serveLogins attempts = Some (log, t) ∧ answered attempts log ∧ Sources t ≤ throttleMaxSources ∧
    (inOrder attempts →
       (∀ i e, log !! i = Some e → enAllowed e = false →
          0 < enRetryAfter e ≤ span ∧
          limit ≤ Z.of_nat (length (since (take i attempts) (enKey e) (enAt e + enRetryAfter e - span)))) ∧
       (uncrowded attempts → ∀ key from, Z.of_nat (length (letThrough log key from)) ≤ 2 * limit)).
Proof.
  intros HW Hlen. destruct (serveLogins_any attempts Hlen) as (log & t & Hrun & _ & Hs & _ & Ha).
  exists log, t. do 3 (split; [done|]). intros Ho.
  destruct (serveLogins_ordered attempts log t HW Hlen Ho Hrun) as (_ & Hfair & _). split; [exact Hfair|].
  intros Hu key from. pose proof (serveLogins_budget attempts log t key from HW Hlen Ho Hu Hrun) as Hb. pose proof limit_pos.
  unfold budget in Hb. destruct (reference attempts !! key) as [[s c]|]; lia.
Qed.
End throttle.

(** Two sources, two attempts per window of ten: the third attempt is refused, and the
    first after the window is let through. *)
Lemma Throttle_limits_witness :
  let l := [(0, "a"); (1, "a"); (2, "a"); (3, "b"); (10, "a")]%string in
  (enAllowed <$> default [] (fst <$> serveLogins 2 10 l)) = [true; true; false; true; true] ∧
  ∃ log t, serveLogins 2 10 l = Some (log, t) ∧ Sources t ≤ throttleMaxSources ∧
    ∀ from, Z.of_nat (length (letThrough 10 log "a" from)) ≤ 4.
Proof.
  cbn zeta. split; [vm_compute; reflexivity|].
  destruct (Throttle_limits 2 10 [(0, "a"); (1, "a"); (2, "a"); (3, "b"); (10, "a")]%string) as (log & t & Hrun & _ & Hs & Hord);
    [lia|cbn; lia|].
  exists log, t. do 2 (split; [done|]). intros from. apply Hord.
  - unfold inOrder. cbn. repeat (constructor; [|repeat (constructor; [lia|]); constructor]). constructor.
  - intros i now key Hi. do 5 (destruct i as [|i]; [injection Hi as <- <-; vm_compute; done|]). done.
Defined.
