(* ===== verification/Password.v ===== *)
(** * Operator passwords: [internal/operator/password.go]

    The key derivation is a parameter; the self-describing text of a hash, which is split,
    scanned and decoded again at each verification, is modelled as it is read. *)

From S2P Require Import Prelude GoStd Netip Sha256 Token.
From Stdlib Require Import Ascii.
Local Open Scope Z_scope.

Definition MinPasswordLength : nat := 12.
Definition argonTime : Z := 2.
Definition argonMemory : Z := 64 * 1024.
Definition argonThreads : Z := 2.
Definition argonKeyLen : Z := 32.
Definition argonSaltLen : nat := 16.

(** [golang.org/x/crypto/argon2]: [IDKey] of the password, salt, rounds, memory, lanes and
    length of the key; it panics when there are no rounds or no lanes. *)
Class Argon2Lib := {
  argon2_Version : Z;
  argon2_IDKey : list Z → list Z → Z → Z → Z → Z → option (list Z);
}.

Class Argon2Laws `{Argon2Lib} : Prop := {
  argon2_Version_19 : argon2_Version = 19;
  argon2_IDKey_key password salt time memory threads keyLen :
    1 ≤ time → 1 ≤ threads → 0 ≤ keyLen →
    ∃ key, argon2_IDKey password salt time memory threads keyLen = Some key ∧
      length key = Z.to_nat keyLen ∧ byte_list key;
}.

Inductive PasswordError := ErrPasswordMismatch | errHashMalformed | PasswordRandom | PasswordPanic.

(** ** [fmt.Sscanf] of decimal integers *)

(** [SkipSpace]: a newline in the input is an error, and no space is left otherwise.  The
    length of the input bounds the loop. *)
Definition newline (s : string) : bool :=
  match s with
  | String "010"%char _ => true
  | String "013"%char (String "010"%char _) => true
  | _ => false
  end.
Fixpoint SkipSpace (fuel : nat) (s : string) : option string :=
  if newline s then None else
  match fuel, strip_space s with
  | S fuel, Some s' => SkipSpace fuel s'
  | _, _ => Some s
  end.

Definition decimal (c : ascii) : Z := Z.of_N (N_of_ascii c) - 48.

Fixpoint scanDigits (acc : Z) (s : string) : Z * string :=
  match s with
  | String c s' => if is_digit c then scanDigits (10 * acc + decimal c) s' else (acc, s)
  | "" => (acc, s)
  end.

(** [scanNumber]: one digit at least. *)
Definition scanNumber (s : string) : option (Z * string) :=
  match s with
  | String c _ => if is_digit c then Some (scanDigits 0 s) else None
  | "" => None
  end.

(** [%d] into an unsigned integer of [bits]. *)
Definition scanUint (bits : Z) (s : string) : option (Z * string) :=
  s ← SkipSpace (String.length s) s;
  '(n, rest) ← scanNumber s;
  if decide (n < 2 ^ bits) then Some (n, rest) else None.

(** [%d] into an [int]: a sign may come first. *)
Definition scanInt (s : string) : option (Z * string) :=
  s ← SkipSpace (String.length s) s;
  let '(negative, s) := match s with
                        | String "+"%char s' => (false, s')
                        | String "-"%char s' => (true, s')
                        | _ => (false, s)
                        end in
  '(n, rest) ← scanNumber s;
  let n := if negative : bool then - n else n in
  if decide (- 2 ^ 63 ≤ n < 2 ^ 63) then Some (n, rest) else None.

(** What follows the last verb is not looked at. *)
Definition scanVersion (s : string) : option Z :=
  s ← strip_prefix "v=" s; fst <$> scanInt s.
Definition scanCosts (s : string) : option (Z * Z * Z) :=
  s ← strip_prefix "m=" s;
  '(memory, s) ← scanUint 32 s;
  s ← strip_prefix ",t=" s;
  '(iterations, s) ← scanUint 32 s;
  s ← strip_prefix ",p=" s;
  '(lanes, _) ← scanUint 8 s;
  Some (memory, iterations, lanes).

(** ** Hashing and verifying *)

Section password.
Context `{Argon2Lib}.

Definition encodeHash (salt sum : list Z) : string :=
  "$argon2id$v=" +:+ FormatInt argon2_Version +:+
  "$m=" +:+ FormatInt argonMemory +:+ ",t=" +:+ FormatInt argonTime +:+ ",p=" +:+ FormatInt argonThreads +:+
  "$" +:+ RawStdEncoding_EncodeToString salt +:+ "$" +:+ RawStdEncoding_EncodeToString sum.

(** [salt] is what [rand.Read] drew, or its failure. *)
Definition HashPassword (salt : option (list Z)) (password : string) : result PasswordError string :=
  match salt with
  | None => Err PasswordRandom
  | Some salt =>
      match argon2_IDKey (string_bytes password) salt argonTime argonMemory argonThreads argonKeyLen with
      | None => Err PasswordPanic
      | Some sum => Ok (encodeHash salt sum)
      end
  end.

Definition VerifyPassword (encoded password : string) : result PasswordError () :=
  match Split encoded "$" with
  | [p0; p1; p2; p3; p4; p5] =>
      if decide (p0 ≠ "" ∨ p1 ≠ "argon2id")%string then Err errHashMalformed else
      match scanVersion p2, scanCosts p3, RawStdEncoding_DecodeString p4, RawStdEncoding_DecodeString p5 with
      | Some version, Some (memory, iterations, lanes), Some salt, Some want =>
          if decide (version ≠ argon2_Version ∨ want = []) then Err errHashMalformed else
          match argon2_IDKey (string_bytes password) salt iterations memory lanes (u32 (Z.of_nat (length want))) with
          | None => Err PasswordPanic
          | Some got => if decide (got = want) then Ok () else Err ErrPasswordMismatch
          end
      | _, _, _, _ => Err errHashMalformed
      end
  | _ => Err errHashMalformed
  end.

(** ** The text of a hash reads back *)

Context `{!Argon2Laws}.

Lemma scanVersion_written : scanVersion ("v=" +:+ FormatInt argon2_Version) = Some argon2_Version.
Proof. rewrite argon2_Version_19. vm_compute. reflexivity. Qed.

Lemma scanCosts_written :
  scanCosts ("m=" +:+ FormatInt argonMemory +:+ ",t=" +:+ FormatInt argonTime +:+ ",p=" +:+ FormatInt argonThreads) =
  Some (argonMemory, argonTime, argonThreads).
Proof. vm_compute. reflexivity. Qed.

Lemma Split_encodeHash salt sum :
  byte_list salt → byte_list sum →
  Split (encodeHash salt sum) "$" =
    [""; "argon2id"; "v=" +:+ FormatInt argon2_Version;
     "m=" +:+ FormatInt argonMemory +:+ ",t=" +:+ FormatInt argonTime +:+ ",p=" +:+ FormatInt argonThreads;
     RawStdEncoding_EncodeToString salt; RawStdEncoding_EncodeToString sum]%string.
Proof.
  intros Hsalt Hsum. unfold encodeHash. rewrite argon2_Version_19.
  assert (∀ l, byte_list l → contains_byte "$" (RawStdEncoding_EncodeToString l) = false) as Hfree.
  { intros l Hl. apply base64_free; [apply stdAlphabet_faithful|done|vm_compute; reflexivity]. }
  change (FormatInt 19) with "19"%string. change (FormatInt argonMemory) with "65536"%string.
  change (FormatInt argonTime) with "2"%string. change (FormatInt argonThreads) with "2"%string.
  set (a := RawStdEncoding_EncodeToString salt). set (b := RawStdEncoding_EncodeToString sum).
  change (Split _ "$") with (Split ("" +:+ String "$" ("argon2id" +:+ String "$" ("v=19" +:+ String "$"
    ("m=65536,t=2,p=2" +:+ String "$" (a +:+ String "$" b)))))%string "$").
  rewrite !Split_app by (apply Hfree || reflexivity; done). by rewrite (Split_single b) by by apply Hfree.
Qed.

(** A stored hash admits exactly the passwords of its key. *)
Lemma Verify_Hash salt password stored attempt :
  byte_list salt → HashPassword (Some salt) password = Ok stored →
  VerifyPassword stored attempt =
    if decide (argon2_IDKey (string_bytes attempt) salt argonTime argonMemory argonThreads argonKeyLen =
               argon2_IDKey (string_bytes password) salt argonTime argonMemory argonThreads argonKeyLen)
    then Ok () else Err ErrPasswordMismatch.
Proof.
  intros Hsalt. unfold HashPassword, VerifyPassword.
  destruct (argon2_IDKey_key (string_bytes password) salt argonTime argonMemory argonThreads argonKeyLen) as (sum & Hsum & Hlen & Hb);
    try (unfold argonTime, argonThreads, argonKeyLen; lia).
  destruct (argon2_IDKey_key (string_bytes attempt) salt argonTime argonMemory argonThreads argonKeyLen) as (got & Hgot & _);
    try (unfold argonTime, argonThreads, argonKeyLen; lia).
  rewrite Hsum, Hgot. intros [= <-]. rewrite Split_encodeHash by done. rewrite decide_False by naive_solver.
  rewrite scanVersion_written, scanCosts_written. unfold RawStdEncoding_DecodeString, RawStdEncoding_EncodeToString.
  rewrite !base64_roundtrip by (done || apply stdAlphabet_faithful).
  assert (u32 (Z.of_nat (length sum)) = argonKeyLen) as -> by (rewrite Hlen; reflexivity).
  rewrite decide_False by (intros [?| ->]; [done|by vm_compute in Hlen]). rewrite Hgot.
  destruct (decide (got = sum)) as [->|Hne]; [by rewrite decide_True|]. rewrite decide_False by congruence. done.
Qed.
End password.
