(* ===== verification/Operator.v ===== *)
(** * Operators: [internal/operator], [internal/authn], and the operator's tables
      ([internal/store/operator.go])

    The one operator's password, browser sessions and bearer tokens.  A session and a
    token are kept by the SHA-256 of their secret.  As in the enrolment service, a call of
    the store is one statement, which succeeds, fails, or takes effect although its answer
    is lost, and other callers may change the tables before each. *)

From S2P Require Import Prelude GoStd Netip Uuid Sha256 Postgres RegistryStore Token Password.
From Stdlib Require Import Ascii.
Local Open Scope Z_scope.

Definition OperatorTokenPrefix : string := "iwo_".
Definition listPrefixChars : nat := 8.
Definition secretEntropyBytes : nat := 32.
Definition DefaultSessionTTL : Z := 7 * 24 * 3600 * 10 ^ 9.

Inductive OpError :=
| ErrNoOperator | OpPassword (e : PasswordError) | ErrPasswordTooShort
| ErrSessionMalformed | ErrSessionUnknown | ErrSessionExpired
| ErrTokenMalformed | ErrTokenUnknown | ErrTokenExpired | ErrTokenRevoked
| OpRandom | OpFailure | ErrUnsupportedForm | errNoCredential.

(** ** Secrets *)

(** [rand.Read] fills [raw], or fails. *)
Definition randomSecret (raw : option (list Z)) : option string := RawURLEncoding_EncodeToString <$> raw.

Definition digest (s : string) : list Z := Sum256 (string_bytes s).

Definition NewSessionID (raw : option (list Z)) : option (string * list Z) :=
  plaintext ← randomSecret raw; Some (plaintext, digest plaintext).

Definition wellShaped (body : string) : bool :=
  match RawURLEncoding_DecodeString body with
  | Some raw => bool_decide (length raw = secretEntropyBytes)
  | None => false
  end.

Definition HashSessionID (plaintext : string) : result OpError (list Z) :=
  if wellShaped plaintext then Ok (digest plaintext) else Err ErrSessionMalformed.

Definition NewOperatorToken (raw : option (list Z)) : option (string * list Z * string) :=
  body ← randomSecret raw;
  let plaintext := OperatorTokenPrefix +:+ body in
  Some (plaintext, digest plaintext, String.substring 0 (String.length OperatorTokenPrefix + listPrefixChars) plaintext).

Definition HashOperatorToken (plaintext : string) : result OpError (list Z) :=
  match strip_prefix OperatorTokenPrefix plaintext with
  | None => Err ErrTokenMalformed
  | Some body => if wellShaped body then Ok (digest plaintext) else Err ErrTokenMalformed
  end.

(** ** Rows *)

Record Operator := MkOperator {
  opPasswordHash : string; opDisplayName : option string; opCreatedAt : Z; opUpdatedAt : Z;
}.

Record Session := MkSession { ssIDHash : list Z; ssCreatedAt : Z; ssExpiresAt : Z }.

Record OperatorToken `{UUIDLib} := MkOperatorToken {
  otID : UUID; otHash : list Z; otPrefix : string; otName : string; otCreatedAt : Z; otExpiresAt : option Z;
  otRevokedAt : option Z; otLastUsedAt : option Z;
}.

Definition Session_Check (s : option Session) (now : Z) : option OpError :=
  match s with
  | None => Some ErrSessionUnknown
  | Some s => if decide (ssExpiresAt s ≤ now) then Some ErrSessionExpired else None
  end.

Definition past (t : option Z) (now : Z) : bool :=
  match t with Some t => bool_decide (t ≤ now) | None => false end.

Definition OperatorToken_Check `{UUIDLib} (t : option OperatorToken) (now : Z) : option OpError :=
  match t with
  | None => Some ErrTokenUnknown
  | Some t =>
      if past (otRevokedAt t) now then Some ErrTokenRevoked
      else if past (otExpiresAt t) now then Some ErrTokenExpired
      else None
  end.

(** ** The store *)

Section store.
Context `{UUIDLib} `{PgLib}.

(** The operators' table has one row at most; sessions are keyed by their hash, tokens by
    their id, and a hash of a token is unique. *)
Record OperatorDB := MkOperatorDB {
  odOperator : option Operator; odSessions : gmap (list Z) Session; odTokens : gmap UUID OperatorToken;
}.

Abbreviation OBody A := (OperatorDB → result OpError (A * OperatorDB)).

Definition reply {A} (ans : Answer) (body : OBody A) (d : OperatorDB) : result OpError A * OperatorDB :=
  match ans with
  | Fails => (Err OpFailure, d)
  | Answers => match body d with Ok (a, d') => (Ok a, d') | Err e => (Err e, d) end
  | AnswerLost => match body d with Ok (_, d') => (Err OpFailure, d') | Err e => (Err e, d) end
  end.

Definition Store_GetOperator : OBody Operator := λ d,
  match odOperator d with Some op => Ok (op, d) | None => Err ErrNoOperator end.

(** A conflict keeps the row's creation. *)
Definition Store_SetOperator (op : Operator) : OBody () := λ d,
  let at_ := pgTime (opUpdatedAt op) in
  let created := match odOperator d with Some old => opCreatedAt old | None => at_ end in
  Ok ((), MkOperatorDB (Some (MkOperator (opPasswordHash op) (opDisplayName op) created at_)) (odSessions d) (odTokens d)).

Definition setSessions (s : gmap (list Z) Session) (d : OperatorDB) : OperatorDB := MkOperatorDB (odOperator d) s (odTokens d).
Definition setOpTokens (t : gmap UUID OperatorToken) (d : OperatorDB) : OperatorDB := MkOperatorDB (odOperator d) (odSessions d) t.

Definition Store_CreateSession (s : Session) : OBody () := λ d,
  match odSessions d !! ssIDHash s with
  | Some _ => Err OpFailure
  | None => Ok ((), setSessions (<[ssIDHash s := MkSession (ssIDHash s) (pgTime (ssCreatedAt s)) (pgTime (ssExpiresAt s))]>
                                   (odSessions d)) d)
  end.

Definition Store_GetSession (idHash : list Z) : OBody Session := λ d,
  match odSessions d !! idHash with Some s => Ok (s, d) | None => Err ErrSessionUnknown end.

Definition Store_DeleteSession (idHash : list Z) : OBody () := λ d,
  Ok ((), setSessions (delete idHash (odSessions d)) d).

Definition Store_DeleteExpiredSessions (now : Z) : OBody Z := λ d,
  Ok (Z.of_nat (size (filter (λ p, ssExpiresAt p.2 ≤ pgTime now) (odSessions d))),
      setSessions (filter (λ p, ¬ ssExpiresAt p.2 ≤ pgTime now) (odSessions d)) d).

Definition Store_CreateOperatorToken (t : OperatorToken) : OBody () := λ d,
  match odTokens d !! otID t with
  | Some _ => Err OpFailure
  | None =>
      if decide (map_Exists (λ _ r, otHash r = otHash t) (odTokens d)) then Err OpFailure else
      Ok ((), setOpTokens (<[otID t := MkOperatorToken _ (otID t) (otHash t) (otPrefix t) (otName t) (pgTime (otCreatedAt t))
                                       (pgTime <$> otExpiresAt t) None None]> (odTokens d)) d)
  end.

Definition tokenByHash (hash : list Z) (d : OperatorDB) : option OperatorToken :=
  (λ p, p.2.2) <$> list_find (λ kr, otHash kr.2 = hash) (map_to_list (odTokens d)).

Definition Store_FindOperatorTokenByHash (hash : list Z) : OBody OperatorToken := λ d,
  match tokenByHash hash d with Some t => Ok (t, d) | None => Err ErrTokenUnknown end.

(** [ORDER BY created_at DESC, id]. *)
Definition newest_first (a b : OperatorToken) : Prop :=
  otCreatedAt b < otCreatedAt a ∨ otCreatedAt a = otCreatedAt b ∧ uuid_le (otID a) (otID b).
#[global] Instance newest_first_dec : RelDecision newest_first.
Proof. intros a b. unfold newest_first. apply _. Defined.

Definition Store_ListOperatorTokens : OBody (list OperatorToken) := λ d,
  Ok (merge_sort newest_first (map_to_list (odTokens d)).*2, d).

Definition withRevoked (now : Z) (t : OperatorToken) : OperatorToken :=
  MkOperatorToken _ (otID t) (otHash t) (otPrefix t) (otName t) (otCreatedAt t) (otExpiresAt t) (Some (pgTime now)) (otLastUsedAt t).
Definition withUse (now : Z) (t : OperatorToken) : OperatorToken :=
  MkOperatorToken _ (otID t) (otHash t) (otPrefix t) (otName t) (otCreatedAt t) (otExpiresAt t) (otRevokedAt t) (Some (pgTime now)).

(** [UPDATE ... WHERE id = $1 AND revoked_at IS NULL]: the number of rows. *)
Definition sql_RevokeOperatorToken (id : UUID) (now : Z) : OBody Z := λ d,
  match odTokens d !! id with
  | Some t => match otRevokedAt t with
              | None => Ok (1, setOpTokens (<[id := withRevoked now t]> (odTokens d)) d)
              | Some _ => Ok (0, d)
              end
  | None => Ok (0, d)
  end.

Definition sql_GetOperatorToken (id : UUID) : OBody OperatorToken := λ d,
  match odTokens d !! id with Some t => Ok (t, d) | None => Err ErrTokenUnknown end.

Definition Store_RecordOperatorTokenUse (id : UUID) (now : Z) : OBody () := λ d,
  Ok ((), setOpTokens (alter (withUse now) id (odTokens d)) d).
End store.

(** ** The service *)

Section service.
Context `{UUIDLib} `{PgLib} `{Argon2Lib}.

(** The session lifetime, and what is outside: the clock, the other callers and the
    answers of the store, by the number of the reading or call. *)
Context (SessionTTL : Z).
Context (clock : nat → Z) (others : nat → OperatorDB → OperatorDB) (answers : nat → Answer).

Record OpWorld := MkOpWorld { owDB : OperatorDB; owTicks : nat; owCalls : nat }.

Definition OM (A : Type) : Type := OpWorld → result OpError A * OpWorld.
#[global] Instance OM_ret : MRet OM := λ A a w, (Ok a, w).
#[global] Instance OM_bind : MBind OM := λ A B f m w,
  match m w with (Ok a, w') => f a w' | (Err e, w') => (Err e, w') end.

Definition refuse {A} (e : OpError) : OM A := λ w, (Err e, w).
Definition lift {A} (r : result OpError A) : OM A := λ w, (r, w).
Definition check (e : option OpError) : OM () := λ w, (match e with None => Ok () | Some e => Err e end, w).
Definition op_now : OM Z := λ w, (Ok (clock (owTicks w)), MkOpWorld (owDB w) (S (owTicks w)) (owCalls w)).

Definition query {A} (body : OperatorDB → result OpError (A * OperatorDB)) : OM A := λ w,
  let n := owCalls w in
  let '(r, d) := reply (answers n) body (others n (owDB w)) in (r, MkOpWorld d (owTicks w) (S n)).

Definition sessionTTL : Z := if decide (0 < SessionTTL) then SessionTTL else DefaultSessionTTL.

(** [salt] and [raw] are what [rand.Read] draws. *)
Definition SetPassword (salt : option (list Z)) (password : string) (displayName : option string) : OM () :=
  if decide (String.length password < MinPasswordLength)%nat then refuse ErrPasswordTooShort else
  match HashPassword salt password with
  | Err e => refuse (OpPassword e)
  | Ok hash => t ← op_now; query (Store_SetOperator (MkOperator hash displayName t t))
  end.

Definition Service_VerifyPassword (password : string) : OM () :=
  op ← query Store_GetOperator;
  lift (match VerifyPassword (opPasswordHash op) password with Ok _ => Ok () | Err e => Err (OpPassword e) end).

Definition CreateSession (raw : option (list Z)) : OM (string * Session) :=
  match NewSessionID raw with
  | None => refuse OpRandom
  | Some (plaintext, hash) =>
      t ← op_now;
      let sess := MkSession hash t (t + sessionTTL) in
      query (Store_CreateSession sess);;
      mret (plaintext, sess)
  end.

Record Principal := MkPrincipal { prDisplayName : option string }.

Definition principal : OM Principal := λ w,
  match query Store_GetOperator w with
  | (Err ErrNoOperator, w') => (Ok (MkPrincipal None), w')
  | (Err e, w') => (Err e, w')
  | (Ok op, w') => (Ok (MkPrincipal (opDisplayName op)), w')
  end.

Definition ValidateSession (plaintext : string) : OM Principal :=
  hash ← lift (HashSessionID plaintext);
  sess ← query (Store_GetSession hash);
  t ← op_now;
  check (Session_Check (Some sess) t);;
  principal.

Definition DeleteSession (plaintext : string) : OM () :=
  match HashSessionID plaintext with
  | Err _ => mret ()
  | Ok hash => query (Store_DeleteSession hash)
  end.

Definition PruneSessions (now : Z) : OM Z := query (Store_DeleteExpiredSessions now).

Definition MintOperatorToken (raw : option (list Z)) (id : UUID) (name : string) (ttl : Z) : OM (string * OperatorToken) :=
  match NewOperatorToken raw with
  | None => refuse OpRandom
  | Some (plaintext, hash, prefix) =>
      t ← op_now;
      let tok := MkOperatorToken _ id hash prefix name t (if decide (0 < ttl) then Some (t + ttl) else None) None None in
      query (Store_CreateOperatorToken tok);;
      mret (plaintext, tok)
  end.

Definition ListOperatorTokens : OM (list OperatorToken) := query Store_ListOperatorTokens.

(** [Store.RevokeOperatorToken]: two statements when the first changes no row. *)
Definition Store_RevokeOperatorToken (id : UUID) (now : Z) : OM () :=
  n ← query (sql_RevokeOperatorToken id now);
  if decide (n = 1) then mret () else query (sql_GetOperatorToken id);; refuse ErrTokenRevoked.

Definition RevokeOperatorToken (id : UUID) : OM () := t ← op_now; Store_RevokeOperatorToken id t.

Definition ValidateToken (plaintext : string) : OM Principal :=
  hash ← lift (HashOperatorToken plaintext);
  tok ← query (Store_FindOperatorTokenByHash hash);
  t ← op_now;
  check (OperatorToken_Check (Some tok) t);;
  query (Store_RecordOperatorTokenUse (otID tok) t);;
  principal.

(** ** [internal/authn], and the operator's authenticator *)

Inductive Form := Password | OperatorTokenForm | SessionForm.
#[global] Instance Form_eq_dec : EqDecision Form.
Proof. solve_decision. Defined.

Record Credential := MkCredential { crForm : Form; crSecret : string }.
Record Verifier := MkVerifier { vfForm : Form; vfVerify : string → OM Principal }.

(** [Chain.Verify]: the first verifier of the form decides. *)
Fixpoint Chain_Verify (verifiers : list Verifier) (c : Credential) : OM Principal :=
  match verifiers with
  | [] => refuse ErrUnsupportedForm
  | v :: rest => if decide (vfForm v = crForm c) then vfVerify v (crSecret c) else Chain_Verify rest c
  end.

Definition PasswordVerifier : Verifier := MkVerifier Password (λ s, Service_VerifyPassword s;; principal).
Definition TokenVerifier : Verifier := MkVerifier OperatorTokenForm ValidateToken.
Definition SessionVerifier : Verifier := MkVerifier SessionForm ValidateSession.
Definition NewAuthenticator : list Verifier := [PasswordVerifier; TokenVerifier; SessionVerifier].

Definition Verify (c : Credential) : OM Principal := Chain_Verify NewAuthenticator c.

(** [SessionMinter]: the identifier and its lifetime; and its end. *)
Definition Mint (raw : option (list Z)) : OM (string * Z) :=
  '(id, sess) ← CreateSession raw; mret (id, ssExpiresAt sess - ssCreatedAt sess).
Definition End_ (id : string) : OM () := DeleteSession id.
End service.
