(* ===== verification/Surface.v ===== *)
(** * The operator surface: [internal/api] (server.go, auth.go, csrf.go, problem.go, and the
      middleware of throttle.go)

    A request passes the origin guard, the login throttle and the authentication, in that
    order, before the router gives it to the handler of its method and path.  What stands
    for a handler here is its name and the context it is called with; the handlers of the
    session itself are modelled.  Parsing of requests and of URLs is a parameter, and so is
    the comparison of text outside ASCII under Unicode's case folding. *)

From S2P Require Import Prelude GoStd Netip Uuid Sha256 Postgres RegistryStore Ingest Token Password Operator Throttle.
From Stdlib Require Import Ascii.
Local Open Scope Z_scope.

Definition APIPrefix : string := "/api/v1".
Definition SessionCookie : string := "innerwall_session".
Definition MethodGet : string := "GET".
Definition MethodHead : string := "HEAD".
Definition MethodOptions : string := "OPTIONS".
Definition MethodPost : string := "POST".
Definition MethodPut : string := "PUT".
Definition MethodDelete : string := "DELETE".

(** [net/url.Parse], as the scheme and host of what it accepts, and [strings.EqualFold] of
    strings that are not both ASCII. *)
Class WebLib := {
  url_Parse : string → option (string * string);
  unicode_EqualFold : string → string → bool;
}.

(** An origin as a browser writes it: a scheme, and a host of letters, digits, dots and
    hyphens with an optional port. *)
Definition hostByte (c : ascii) : bool :=
  is_lower c || is_upper c || is_digit c || bool_decide (c = "."%char) || bool_decide (c = "-"%char).
Definition plainHost (h : string) : bool :=
  bool_decide (h ≠ "")%string && forallb hostByte (String.list_ascii_of_string h).
Class WebLaws `{WebLib} : Prop := {
  url_Parse_origin scheme host :
    scheme ∈ ["http"; "https"]%string → plainHost host = true → url_Parse (scheme +:+ "://" +:+ host) = Some (scheme, host);
}.

(** A body as [decodeJSON] finds it: no document of the shape, or the login's password,
    and whether more follows. *)
Inductive RequestBody := BodyUnreadable | BodyLogin (password : string) (more : bool).

(** The fields of [http.Request] that are read; an absent header is empty. *)
Record Request := MkRequest {
  rqMethod : string; rqPath : string; rqHost : string; rqRemoteAddr : string; rqSecFetchSite : string; rqOrigin : string;
  rqAuthorization : string; rqCookies : list (string * string); rqBody : RequestBody;
}.

Record Problem := MkProblem { pbType : string; pbTitle : string; pbStatus : Z; pbDetail : string }.
Definition problemTypeBase : string := "urn:innerwall:problem:".
Definition ProblemUnauthenticated : string := problemTypeBase +:+ "unauthenticated".
Definition ProblemInvalidCredentials : string := problemTypeBase +:+ "invalid-credentials".
Definition ProblemNoPassword : string := problemTypeBase +:+ "no-password".
Definition ProblemCrossOrigin : string := problemTypeBase +:+ "cross-origin".
Definition ProblemTooManyAttempts : string := problemTypeBase +:+ "too-many-attempts".
Definition ProblemInvalidRequest : string := problemTypeBase +:+ "invalid-request".
Definition ProblemNotFound : string := problemTypeBase +:+ "not-found".
Definition ProblemMethodNotAllowed : string := problemTypeBase +:+ "method-not-allowed".
Definition ProblemInternal : string := problemTypeBase +:+ "internal".
Definition problemUnauthenticated : Problem := MkProblem ProblemUnauthenticated "Authentication required" 401 "".
Definition problemInternal : Problem := MkProblem ProblemInternal "Internal Server Error" 500 "".
Definition problemNotFound : Problem := MkProblem ProblemNotFound "Not Found" 404 "".

Record Cookie := MkCookie {
  ckName : string; ckValue : string; ckPath : string; ckMaxAge : Z; ckHttpOnly : bool; ckSecure : bool; ckSameSiteLax : bool;
}.

Definition sessionCookie (id : string) (ttl : Z) : Cookie :=
  MkCookie SessionCookie id "/" (Z.quot ttl (10 ^ 9)) true true true.
Definition clearSessionCookie : Cookie := let c := sessionCookie "" 0 in
  MkCookie (ckName c) (ckValue c) (ckPath c) (-1) (ckHttpOnly c) (ckSecure c) (ckSameSiteLax c).

Record Me := MkMe { meDisplayName : option string; meSite : string; meGatewayAddress : option string; meVersion : string }.
Inductive ResponseBody := RespProblem (p : Problem) | RespMe (m : Me) | RespEmpty.
Record Response := MkResponse { rspHeaders : list (string * string); rspCookies : list Cookie; rspBody : ResponseBody }.

Definition writeProblem (headers : list (string * string)) (cookies : list Cookie) (p : Problem) : Response :=
  MkResponse headers cookies (RespProblem p).

Definition optionalString (s : string) : option string := if decide (s = ""%string) then None else Some s.

(** ** The origin guard *)

Fixpoint isASCII (s : string) : bool :=
  match s with "" => true | String c s' => bool_decide (N_of_ascii c < 128)%N && isASCII s' end%string.

Definition EqualFold `{WebLib} (s t : string) : bool :=
  if isASCII s && isASCII t then bool_decide (ToLower s = ToLower t) else unicode_EqualFold s t.

(** [crossOrigin]: nothing when the request may proceed, or why not. *)
Definition crossOrigin `{WebLib} (r : Request) : option string :=
  if decide (rqMethod r ∈ [MethodGet; MethodHead; MethodOptions]) then None
  else if decide (rqSecFetchSite r ∉ [""; "same-origin"; "none"]%string)
       then Some ("request was made from a " +:+ rqSecFetchSite r +:+ " site")
  else if decide (rqOrigin r = ""%string) then None
  else match url_Parse (rqOrigin r) with
       | Some (scheme, host) =>
           if bool_decide (scheme = "https"%string) && EqualFold host (rqHost r) then None
           else Some "request origin does not match this listener"%string
       | None => Some "request origin does not match this listener"%string
       end.

(** ** The throttle's key *)

(** [net.SplitHostPort], its host. *)
Definition SplitHost (hostport : string) : option string :=
  match CutLast hostport ":" with
  | None => None
  | Some (before, port) =>
      match hostport with
      | String "["%char rest =>
          match Cut rest "]" with
          | None => None
          | Some (host, tail) =>
              if bool_decide (tail = String ":" port) && negb (contains_byte "[" rest) && negb (contains_byte "]" tail)
              then Some host else None
          end
      | _ => if contains_byte ":" before || contains_byte "[" hostport || contains_byte "]" hostport then None else Some before
      end
  end.

Definition sourceAddress (r : Request) : string := default (rqRemoteAddr r) (SplitHost (rqRemoteAddr r)).

(** ** Routes *)

Record Route := MkRoute { roMethod : string; roPattern : string; roHandler : string }.
Record route := MkRouteEntry { rtPattern : string; rtSegments : list string; rtMethods : gmap string string }.

(** [router.handle]. *)
Fixpoint handle (method pattern h : string) (routes : list route) : list route :=
  match routes with
  | [] => [MkRouteEntry pattern (Split pattern "/") {[ method := h ]}]
  | rt :: routes' =>
      if decide (rtPattern rt = pattern) then MkRouteEntry (rtPattern rt) (rtSegments rt) (<[method := h]> (rtMethods rt)) :: routes'
      else rt :: handle method pattern h routes'
  end.

Definition Surface_router (rs : list Route) : list route :=
  foldl (λ acc r, handle (roMethod r) (roPattern r) (roHandler r) acc) [] rs.

(** A parameter's name. *)
Definition parameter (want : string) : option string :=
  match want with String "{"%char rest => strip_suffix "}" rest | _ => None end.

Fixpoint matchSegments (want got : list string) (params : gmap string string) : option (gmap string string) :=
  match want, got with
  | [], [] => Some params
  | w :: want, g :: got =>
      match parameter w with
      | Some name => if decide (g = ""%string) then None else matchSegments want got (<[name := g]> params)
      | None => if decide (g = w) then matchSegments want got params else None
      end
  | _, _ => None
  end.

(** [route.match]. *)
Definition route_match (rt : route) (path : string) : option (gmap string string) :=
  matchSegments (rtSegments rt) (Split path "/") ∅.

Definition literal (s : string) : bool := match s with String "{"%char _ => false | _ => true end.
Definition literalness (rt : route) : nat := length (filter (λ s, literal s = true) (rtSegments rt)).

(** The loop of [router.ServeHTTP]. *)
Fixpoint bestRoute (path : string) (best : option (route * gmap string string)) (routes : list route) : option (route * gmap string string) :=
  match routes with
  | [] => best
  | rt :: routes' =>
      match route_match rt path with
      | None => bestRoute path best routes'
      | Some params =>
          bestRoute path
            (match best with
             | Some (b, _) => if decide (literalness b < literalness rt)%nat then Some (rt, params) else best
             | None => Some (rt, params)
             end) routes'
      end
  end.

(** The context of a request: the principal, the session's identifier, the path's parameters. *)
Record Context := MkContext { cxPrincipal : option Principal; cxSession : option string; cxParams : gmap string string }.

Inductive Served := Answered (r : Response) | Dispatched (handler : string) (c : Context) | Panicked.

Definition router_ServeHTTP (routes : list route) (c : Context) (r : Request) : Served :=
  match bestRoute (rqPath r) None routes with
  | None => Answered (writeProblem [] [] problemNotFound)
  | Some (best, params) =>
      match rtMethods best !! rqMethod r with
      | Some h => Dispatched h (MkContext (cxPrincipal c) (cxSession c) params)
      | None =>
          let allowed := merge_sort String.le (map_to_list (rtMethods best)).*1 in
          Answered (writeProblem [("Allow", Join allowed ", ")]%string []
            (MkProblem ProblemMethodNotAllowed "Method Not Allowed" 405 ""))
      end
  end.

(** [Server.mount]. *)
Definition mount : list Route :=
  (λ '(m, p, h), MkRoute m (APIPrefix +:+ p) h) <$>
  [(MethodPost, "/session", "createSession"); (MethodDelete, "/session", "deleteSession"); (MethodGet, "/me", "getMe");
   (MethodGet, "/flows/rollup", "getFlowsRollup"); (MethodGet, "/flows/gaps", "getFlowGaps"); (MethodGet, "/flows", "getFlows");
   (MethodGet, "/workloads", "getWorkloads"); (MethodGet, "/workloads/counts", "getWorkloadCounts");
   (MethodGet, "/workloads/{id}", "getWorkload"); (MethodGet, "/workloads/{id}/rendered-policy", "getRenderedPolicy");
   (MethodGet, "/workloads/{id}/labels", "getWorkloadLabels"); (MethodPut, "/workloads/{id}/labels", "putWorkloadLabels");
   (MethodPost, "/workloads/{id}/resend-snapshot", "resendSnapshot"); (MethodPost, "/workloads/{id}/retire", "retireWorkload");
   (MethodGet, "/rulesets", "listRulesets"); (MethodPost, "/rulesets", "createRuleset"); (MethodGet, "/rulesets/{id}", "getRuleset");
   (MethodPut, "/rulesets/{id}", "putRuleset"); (MethodDelete, "/rulesets/{id}", "deleteRuleset");
   (MethodPost, "/rulesets/{id}/rules", "createRule"); (MethodGet, "/rulesets/{id}/rules/{rule_id}", "getRule");
   (MethodPut, "/rulesets/{id}/rules/{rule_id}", "putRule"); (MethodDelete, "/rulesets/{id}/rules/{rule_id}", "deleteRule");
   (MethodGet, "/services", "listServices"); (MethodPost, "/services", "createService"); (MethodGet, "/services/{id}", "getService");
   (MethodPut, "/services/{id}", "putService"); (MethodDelete, "/services/{id}", "deleteService");
   (MethodGet, "/address-groups", "listAddressGroups"); (MethodPost, "/address-groups", "createAddressGroup");
   (MethodGet, "/address-groups/{id}", "getAddressGroup"); (MethodPut, "/address-groups/{id}", "putAddressGroup");
   (MethodDelete, "/address-groups/{id}", "deleteAddressGroup"); (MethodPost, "/mode-changes", "createModeChange");
   (MethodPost, "/selectors/preview", "previewSelector"); (MethodPost, "/policies/render-dryrun", "renderDryRun");
   (MethodGet, "/provisioning-tokens", "listProvisioningTokens"); (MethodPost, "/provisioning-tokens", "mintProvisioningToken");
   (MethodDelete, "/provisioning-tokens/{id}", "revokeProvisioningToken"); (MethodGet, "/operator-tokens", "listOperatorTokens");
   (MethodPost, "/operator-tokens", "mintOperatorToken"); (MethodDelete, "/operator-tokens/{id}", "revokeOperatorToken")]%string.

(** ** The listener *)

Section surface.
Context `{UUIDLib} `{PgLib} `{Argon2Lib} `{WebLib}.
Context (SessionTTL LoginAttempts LoginWindow : Z) (site gateway version : string).
Context (clock : nat → Z) (others : nat → OperatorDB → OperatorDB) (answers : nat → Answer).

(** The throttle is shared by the requests. *)
Record Listener := MkListener { lsThrottle : Throttle; lsOp : OpWorld }.
Definition onOp {A} (m : OM A) (l : Listener) : result OpError A * Listener :=
  let '(r, w) := m (lsOp l) in (r, MkListener (lsThrottle l) w).

Definition Handler : Type := Context → Request → Listener → Served * Listener.
Definition Middleware : Type := Handler → Handler.

Definition CrossOriginGuard : Middleware := λ next c r l,
  match crossOrigin r with
  | Some reason => (Answered (writeProblem [] [] (MkProblem ProblemCrossOrigin "Cross-origin request refused" 403 reason)), l)
  | None => next c r l
  end.

Definition Throttle_Middleware : Middleware := λ next c r l,
  if decide (rqMethod r ≠ MethodPost ∨ rqPath r ≠ APIPrefix +:+ "/session"%string) then next c r l else
  match onOp (op_now clock) l with
  | (Ok t, l) =>
      match Allow LoginAttempts LoginWindow t (sourceAddress r) (lsThrottle l) with
      | None => (Panicked, l)
      | Some (true, _, th) => next c r (MkListener th (lsOp l))
      | Some (false, retryAfter, th) =>
          (Answered (writeProblem [("Retry-After", FormatInt (Z.quot retryAfter (10 ^ 9) + 1))]%string []
             (MkProblem ProblemTooManyAttempts "Too many login attempts" 429 "wait before trying again")),
           MkListener th (lsOp l))
      end
  | (Err _, l) => (Panicked, l)
  end.

Definition publicRoutes : list string := [MethodPost +:+ " " +:+ APIPrefix +:+ "/session"]%string.

(** [Request.Cookie]: the first of its name. *)
Definition cookie (r : Request) : option string := snd <$> (snd <$> list_find (λ p, p.1 = SessionCookie) (rqCookies r)).

Definition authenticate (r : Request) : OM (Principal * string) :=
  if decide (rqAuthorization r ≠ ""%string) then
    match Cut (rqAuthorization r) " " with
    | Some (scheme, token) =>
        if negb (EqualFold scheme "Bearer") || bool_decide (TrimSpace token = ""%string) then refuse ErrTokenMalformed
        else p ← Verify clock others answers (MkCredential OperatorTokenForm (TrimSpace token)); mret (p, ""%string)
    | None => refuse ErrTokenMalformed
    end
  else match cookie r with
       | None => refuse errNoCredential
       | Some v =>
           if decide (v = ""%string) then refuse errNoCredential
           else p ← Verify clock others answers (MkCredential SessionForm v); mret (p, v)
       end.

Definition authenticateHeader : string * string := ("WWW-Authenticate"%string, "Bearer realm=" +:+ String "034"%char ("innerwall" +:+ String "034"%char ""))%string.

Definition Auth_Middleware : Middleware := λ next c r l,
  if decide (rqMethod r +:+ " " +:+ rqPath r ∈ publicRoutes)%string then next c r l else
  match onOp (authenticate r) l with
  | (Err _, l) =>
      let cookies := match cookie r with Some v => if decide (v = ""%string) then [] else [clearSessionCookie] | None => [] end in
      (Answered (writeProblem [authenticateHeader] cookies problemUnauthenticated), l)
  | (Ok (p, sessionID), l) => next (MkContext (Some p) (optionalString sessionID) (cxParams c)) r l
  end.

(** [Surface.Handler], below the prefix: outermost first. *)
Definition Surface_Handler (middleware : list Middleware) (routes : list Route) : Handler :=
  foldr (λ wrap next, wrap next) (λ c r l, (router_ServeHTTP (Surface_router routes) c r, l)) middleware.

(** [Server.Surface]. *)
Definition Server_Surface : Handler := Surface_Handler [CrossOriginGuard; Throttle_Middleware; Auth_Middleware] mount.

(** ** The handlers of a session *)

Definition me (p : option Principal) : Me := MkMe (p ≫= prDisplayName) site (optionalString gateway) version.

(** [raw] is what the draw of the session's identifier would be. *)
Definition createSession (raw : option (list Z)) (r : Request) (l : Listener) : Served * Listener :=
  match rqBody r with
  | BodyUnreadable =>
      (Answered (writeProblem [] [] (MkProblem ProblemInvalidRequest "Invalid request body" 400
         "the body is not a JSON document of the expected shape")), l)
  | BodyLogin password true =>
      (Answered (writeProblem [] [] (MkProblem ProblemInvalidRequest "Invalid request body" 400
         "the body holds more than one document")), l)
  | BodyLogin password false =>
      match onOp (Verify clock others answers (MkCredential Password password)) l with
      | (Err ErrNoOperator, l) =>
          (Answered (writeProblem [] [] (MkProblem ProblemNoPassword "No operator password has been set" 403
             "no operator password has been set; run `innerwall operator set-password` on the control-plane host")), l)
      | (Err (OpPassword ErrPasswordMismatch), l) =>
          (Answered (writeProblem [authenticateHeader] [] (MkProblem ProblemInvalidCredentials "Invalid credentials" 401
             "the password is not correct")), l)
      | (Err (OpPassword PasswordPanic), l) => (Panicked, l)
      | (Err _, l) => (Answered (writeProblem [] [] problemInternal), l)
      | (Ok p, l) =>
          match onOp (Mint SessionTTL clock others answers raw) l with
          | (Err _, l) => (Answered (writeProblem [] [] problemInternal), l)
          | (Ok (id, lifetime), l) => (Answered (MkResponse [] [sessionCookie id lifetime] (RespMe (me (Some p)))), l)
          end
      end
  end.

(** [EndSession], and its handler. *)
Definition deleteSession (c : Context) (l : Listener) : Served * Listener :=
  match cxSession c with
  | Some id =>
      match onOp (End_ others answers id) l with
      | (Err _, l) => (Answered (writeProblem [] [] problemInternal), l)
      | (Ok _, l) => (Answered (MkResponse [] [clearSessionCookie] RespEmpty), l)
      end
  | None => (Answered (MkResponse [] [clearSessionCookie] RespEmpty), l)
  end.

Definition getMe (c : Context) : Served :=
  match cxPrincipal c with
  | None => Answered (writeProblem [] [] problemUnauthenticated)
  | Some p => Answered (MkResponse [] [] (RespMe (me (Some p))))
  end.

(** A request served to its end, when its handler is one of these. *)
Definition serve (raw : option (list Z)) (r : Request) (l : Listener) : Served * Listener :=
  match Server_Surface (MkContext None None ∅) r l with
  | (Dispatched h c, l) =>
      if decide (h = "createSession"%string) then createSession raw r l
      else if decide (h = "deleteSession"%string) then deleteSession c l
      else if decide (h = "getMe"%string) then (getMe c, l)
      else (Dispatched h c, l)
  | (s, l) => (s, l)
  end.
End surface.
