(* ===== verification/OperatorProps.v ===== *)
(** * The operator surface: theorems

    Who reaches a handler, that an ended credential stays ended, the life of a session, and
    that the router's choice does not depend on the order of registration. *)

From S2P Require Import Prelude GoStd Netip Uuid Sha256 Postgres RegistryStore Ingest Token Password Operator Throttle Surface PolicyStoreProps.
From Stdlib Require Import Ascii.
Local Open Scope Z_scope.

(** ** Credentials *)

Section credentials.
Context `{UUIDLib} `{PgLib} `{Argon2Lib}.
Context (clock : nat → Z) (others : nat → OperatorDB → OperatorDB) (answers : nat → Answer).
Abbreviation query := (Operator.query others answers).
Abbreviation ValidateToken := (Operator.ValidateToken clock others answers).
Abbreviation ValidateSession := (Operator.ValidateSession clock others answers).
Abbreviation Verify := (Operator.Verify clock others answers).

(** The tables the next call of the store finds. *)
Definition foundTables (w : OpWorld) : OperatorDB := others (owCalls w) (owDB w).

Lemma op_bind_Ok {A B} (m : OM A) (f : A → OM B) w b w' :
  (m ≫= f) w = (Ok b, w') → ∃ a w1, m w = (Ok a, w1) ∧ f a w1 = (Ok b, w').
Proof. unfold mbind, OM_bind. destruct (m w) as [[a|e] w1]; [eauto|done]. Qed.

Lemma query_Ok {A} (body : OperatorDB → result OpError (A * OperatorDB)) w a w' :
  query body w = (Ok a, w') →
  ∃ d, body (foundTables w) = Ok (a, d) ∧ w' = MkOpWorld d (owTicks w) (S (owCalls w)).
Proof.
  unfold Operator.query, reply, foundTables. destruct (answers (owCalls w)), (body _) as [[x d]|e]; intros Heq; try done.
  injection Heq as <- <-. eauto.
Qed.

(** What a live credential is, in the tables at an instant. *)
Definition tokenLive (plaintext : string) (d : OperatorDB) (now : Z) : Prop :=
  ∃ hash tok, HashOperatorToken plaintext = Ok hash ∧ tokenByHash hash d = Some tok ∧
    (∀ t, otRevokedAt tok = Some t → now < t) ∧ (∀ t, otExpiresAt tok = Some t → now < t).
Definition sessionLive (plaintext : string) (d : OperatorDB) (now : Z) : Prop :=
  ∃ hash s, HashSessionID plaintext = Ok hash ∧ odSessions d !! hash = Some s ∧ now < ssExpiresAt s.

Lemma past_false t now : past t now = false ↔ ∀ x, t = Some x → now < x.
Proof. destruct t as [x|]; cbn; [rewrite bool_decide_eq_false|]; naive_solver lia. Qed.

Lemma Check_None tok now :
  OperatorToken_Check (Some tok) now = None ↔
  (∀ t, otRevokedAt tok = Some t → now < t) ∧ (∀ t, otExpiresAt tok = Some t → now < t).
Proof.
  rewrite <-!past_false. cbn. destruct (past (otRevokedAt tok) now), (past (otExpiresAt tok) now); naive_solver.
Qed.

Lemma ValidateToken_Ok plaintext w p w' :
  ValidateToken plaintext w = (Ok p, w') → tokenLive plaintext (foundTables w) (clock (owTicks w)).
Proof.
  unfold Operator.ValidateToken. intros (hash & w1 & Hh & Hrest)%op_bind_Ok. unfold lift in Hh. injection Hh as Hh <-.
  apply op_bind_Ok in Hrest as (tok & w2 & Hq & Hrest). apply query_Ok in Hq as (d & Hf & ->).
  unfold Store_FindOperatorTokenByHash in Hf. destruct (tokenByHash hash (foundTables w)) as [tok'|] eqn:Ht; [|done].
  injection Hf as -> <-. apply op_bind_Ok in Hrest as (t & w3 & Hn & Hrest). unfold op_now in Hn. injection Hn as <- <-.
  apply op_bind_Ok in Hrest as ([] & w4 & Hc & _). unfold check in Hc.
  destruct (OperatorToken_Check (Some tok) _) eqn:Hchk; [done|]. apply Check_None in Hchk. exists hash, tok. by rewrite Hh.
Qed.

Lemma ValidateSession_Ok plaintext w p w' :
  ValidateSession plaintext w = (Ok p, w') → sessionLive plaintext (foundTables w) (clock (owTicks w)).
Proof.
  unfold Operator.ValidateSession. intros (hash & w1 & Hh & Hrest)%op_bind_Ok. unfold lift in Hh. injection Hh as Hh <-.
  apply op_bind_Ok in Hrest as (s & w2 & Hq & Hrest). apply query_Ok in Hq as (d & Hf & ->).
  unfold Store_GetSession in Hf. destruct (odSessions (foundTables w) !! hash) as [s'|] eqn:Ht; [|done].
  injection Hf as -> <-. apply op_bind_Ok in Hrest as (t & w3 & Hn & Hrest). unfold op_now in Hn. injection Hn as <- <-.
  apply op_bind_Ok in Hrest as ([] & w4 & Hc & _). unfold check in Hc. cbn [Session_Check] in Hc.
  destruct (decide (ssExpiresAt s ≤ _)); [done|]. exists hash, s. rewrite Hh. split_and!; try done. cbn in *. lia.
Qed.

(** With a store that answers, a live credential is accepted. *)
Lemma principal_answers w : (∀ n, answers n = Answers) → ∃ p w', principal others answers w = (Ok p, w') ∧ owTicks w' = owTicks w.
Proof.
  intros Ha. unfold principal, Operator.query, reply, Store_GetOperator. rewrite Ha.
  destruct (odOperator (others (owCalls w) (owDB w))); eauto.
Qed.

Lemma ValidateToken_live plaintext w :
  (∀ n, answers n = Answers) → tokenLive plaintext (foundTables w) (clock (owTicks w)) →
  ∃ p w', ValidateToken plaintext w = (Ok p, w').
Proof.
  intros Ha (hash & tok & Hh & Hf & Hlive). apply Check_None in Hlive. unfold foundTables in Hf.
  unfold Operator.ValidateToken, mbind, OM_bind, lift, Operator.query, reply, Store_FindOperatorTokenByHash, op_now, check.
  rewrite Hh, Ha, Hf. cbn [owTicks]. rewrite Hlive, Ha. cbn [Store_RecordOperatorTokenUse].
  match goal with |- context [principal _ _ ?v] => destruct (principal_answers v Ha) as (p & w' & -> & _) end. eauto.
Qed.

Lemma ValidateSession_live plaintext w :
  (∀ n, answers n = Answers) → sessionLive plaintext (foundTables w) (clock (owTicks w)) →
  ∃ p w', ValidateSession plaintext w = (Ok p, w').
Proof.
  intros Ha (hash & s & Hh & Hf & Hlive). unfold foundTables in Hf.
  unfold Operator.ValidateSession, mbind, OM_bind, lift, Operator.query, reply, Store_GetSession, op_now, check, Session_Check.
  rewrite Hh, Ha, Hf. cbn [owTicks]. rewrite decide_False by lia.
  match goal with |- context [principal _ _ ?v] => destruct (principal_answers v Ha) as (p & w' & -> & _) end. eauto.
Qed.

(** ** Ended credentials stay ended *)

(** The writes of the operator's tables. *)
Inductive OpWrite :=
| WriteOperator (op : Operator) | WriteSession (s : Session) | WriteSessionEnd (idHash : list Z) | WritePrune (now : Z)
| WriteToken (t : OperatorToken) | WriteRevoke (id : UUID) (now : Z) | WriteUse (id : UUID) (now : Z).

Definition effect {A} (body : OperatorDB → result OpError (A * OperatorDB)) (d : OperatorDB) : OperatorDB :=
  match body d with Ok (_, d') => d' | Err _ => d end.

Definition runOpWrite (d : OperatorDB) (x : OpWrite) : OperatorDB :=
  match x with
  | WriteOperator op => effect (Store_SetOperator op) d
  | WriteSession s => effect (Store_CreateSession s) d
  | WriteSessionEnd h => effect (Store_DeleteSession h) d
  | WritePrune now => effect (Store_DeleteExpiredSessions now) d
  | WriteToken t => effect (Store_CreateOperatorToken t) d
  | WriteRevoke id now => effect (sql_RevokeOperatorToken id now) d
  | WriteUse id now => effect (Store_RecordOperatorTokenUse id now) d
  end.

(** The constraint on the hashes. *)
Definition hashesUnique (d : OperatorDB) : Prop :=
  ∀ i j a b, odTokens d !! i = Some a → odTokens d !! j = Some b → otHash a = otHash b → i = j.

Lemma tokenByHash_Some hash d tok :
  hashesUnique d → tokenByHash hash d = Some tok ↔ ∃ id, odTokens d !! id = Some tok ∧ otHash tok = hash.
Proof.
  intros Hu. unfold tokenByHash. split.
  - intros ([i [id t]] & Hf & ->)%fmap_Some. apply list_find_Some in Hf as (Hi & He & _). cbn in *.
    exists id. split; [|done]. by apply elem_of_map_to_list, (list_elem_of_lookup_2 _ i).
  - intros (id & Hid & <-). destruct (list_find_elem_of (λ kr, otHash kr.2 = otHash tok) (map_to_list (odTokens d)) (id, tok)) as [[i [j t]] Hf];
      [by apply elem_of_map_to_list|done|].
    rewrite Hf. cbn. f_equal. apply list_find_Some in Hf as (Hi & He & _). cbn in He.
    apply list_elem_of_lookup_2, elem_of_map_to_list in Hi. rewrite (Hu _ _ _ _ Hi Hid He) in Hi. by simplify_eq.
Qed.

(** A row of a token after a write: what it identifies and its end do not change, and a
    revocation stands. *)
Definition sameToken (a b : OperatorToken) : Prop :=
  otID a = otID b ∧ otHash a = otHash b ∧ otExpiresAt a = otExpiresAt b ∧ (∀ t, otRevokedAt a = Some t → otRevokedAt b = Some t).

Lemma runOpWrite_tokens d x id tok :
  odTokens d !! id = Some tok → ∃ tok', odTokens (runOpWrite d x) !! id = Some tok' ∧ sameToken tok tok'.
Proof.
  intros Hid. assert (sameToken tok tok) as Hrefl by (split_and!; auto).
  destruct x as [op|s|h|now|t|i now|i now]; cbn; try (by exists tok).
  - unfold effect, Store_CreateSession. destruct (odSessions d !! _); by exists tok.
  - unfold effect, Store_CreateOperatorToken. destruct (odTokens d !! otID t) eqn:Ht; [by exists tok|].
    destruct (decide _); [by exists tok|]. cbn. rewrite lookup_insert_ne by (intros <-; congruence). by exists tok.
  - unfold effect, sql_RevokeOperatorToken. destruct (odTokens d !! i) as [t|] eqn:Ht; [|by exists tok].
    destruct (otRevokedAt t) eqn:Hr; [by exists tok|]. cbn. destruct (decide (i = id)) as [->|Hne].
    + rewrite lookup_insert_eq. simplify_eq. eexists. split; [done|]. split_and!; try done. intros t0. by rewrite Hr.
    + rewrite lookup_insert_ne by done. by exists tok.
  - destruct (decide (i = id)) as [->|Hne]; [rewrite lookup_alter_eq, Hid|rewrite lookup_alter_ne by done; by exists tok].
    eexists. split; [done|]. by split_and!.
Qed.

(** A token is a new one, or one that was there. *)
Lemma runOpWrite_origin d x id tok :
  odTokens (runOpWrite d x) !! id = Some tok →
  (∃ old, odTokens d !! id = Some old ∧ otHash tok = otHash old) ∨
  (odTokens d !! id = None ∧ ∀ j old, odTokens d !! j = Some old → otHash old ≠ otHash tok).
Proof.
  destruct x as [op|s|h|now|t|i now|i now]; cbn; try (by eauto).
  - unfold effect, Store_CreateSession. destruct (odSessions d !! _); by eauto.
  - unfold effect, Store_CreateOperatorToken. destruct (odTokens d !! otID t) eqn:Ht; [by eauto|].
    destruct (decide _) as [|Hno]; [by eauto|]. cbn. intros [[<- <-]|[Hne Hl]]%lookup_insert_Some; [|by eauto].
    right. split; [done|]. intros j old Hj He. apply Hno. by exists j, old.
  - unfold effect, sql_RevokeOperatorToken. destruct (odTokens d !! i) as [t|] eqn:Ht; [|by eauto].
    destruct (otRevokedAt t) eqn:Hr; [by eauto|]. cbn. intros [[<- <-]|[Hne Hl]]%lookup_insert_Some; by eauto.
  - destruct (decide (i = id)) as [->|Hne]; [rewrite lookup_alter_eq|rewrite lookup_alter_ne by done; by eauto].
    intros (old & Ho & ->)%fmap_Some. by eauto.
Qed.

Lemma runOpWrite_unique d x : hashesUnique d → hashesUnique (runOpWrite d x).
Proof.
  intros Hu i j a b Ha Hb He.
  destruct (runOpWrite_origin d x i a Ha) as [(a0 & Ha0 & Hah)|[Hna Hfa]], (runOpWrite_origin d x j b Hb) as [(b0 & Hb0 & Hbh)|[Hnb Hfb]].
  - apply (Hu i j a0 b0 Ha0 Hb0). congruence.
  - destruct (Hfb i a0 Ha0). congruence.
  - destruct (Hfa j b0 Hb0). congruence.
  - destruct x; cbn in *; try congruence; unfold effect in *.
    + unfold Store_CreateSession in *. destruct (odSessions d !! _); cbn in *; congruence.
    + unfold Store_CreateOperatorToken in *. destruct (odTokens d !! otID t); [congruence|]. destruct (decide _); [congruence|]. cbn in *.
      apply lookup_insert_Some in Ha as [[<- _]|[_ Ha]]; [|congruence]. by apply lookup_insert_Some in Hb as [[<- _]|[_ Hb]]; [|congruence].
    + unfold sql_RevokeOperatorToken in *. destruct (odTokens d !! id) as [t|] eqn:Ht; [|congruence]. destruct (otRevokedAt t); [congruence|]. cbn in *.
      apply lookup_insert_Some in Ha as [[<- _]|[_ Ha]]; congruence.
    + apply lookup_alter_Some in Ha as [(<- & y & Hy & _)|[_ Ha]]; congruence.
Qed.

(** A session is as it was, or gone, or one that was created. *)
Lemma runOpWrite_session d x h s :
  (∀ new, x = WriteSession new → ssIDHash new ≠ h) → odSessions (runOpWrite d x) !! h = Some s → odSessions d !! h = Some s.
Proof.
  intros Hnew. destruct x as [op|s0|h0|now|t|i now|i now]; cbn; try done.
  - specialize (Hnew s0 eq_refl). unfold effect, Store_CreateSession. destruct (odSessions d !! ssIDHash s0); [done|]. cbn.
    by rewrite lookup_insert_ne.
  - by intros [_ ?]%lookup_delete_Some.
  - by intros [? _]%map_lookup_filter_Some.
  - unfold effect, Store_CreateOperatorToken. destruct (odTokens d !! otID t); [done|]. by destruct (decide _).
  - unfold effect, sql_RevokeOperatorToken. destruct (odTokens d !! i) as [t|]; [|done]. by destruct (otRevokedAt t).
Qed.

Definition opWrites (ws : list OpWrite) (d : OperatorDB) : OperatorDB := foldl runOpWrite d ws.

Lemma opWrites_unique ws d : hashesUnique d → hashesUnique (opWrites ws d).
Proof. revert d. induction ws as [|x ws IH]; intros d Hu; [done|]. apply IH. by apply runOpWrite_unique. Qed.

Lemma sameToken_trans a b c : sameToken a b → sameToken b c → sameToken a c.
Proof. unfold sameToken. intros (? & ? & ? & ?) (? & ? & ? & ?). split_and!; try congruence. auto. Qed.

Lemma opWrites_tokens ws d id tok :
  odTokens d !! id = Some tok → ∃ tok', odTokens (opWrites ws d) !! id = Some tok' ∧ sameToken tok tok'.
Proof.
  revert d tok. induction ws as [|x ws IH]; intros d tok Hid; [exists tok; split; [done|by split_and!]|].
  destruct (runOpWrite_tokens d x id tok Hid) as (tok1 & E1 & S1). destruct (IH _ tok1 E1) as (tok2 & E2 & S2).
  exists tok2. split; [done|]. by eapply sameToken_trans.
Qed.

Lemma opWrites_session ws d h s :
  (∀ new, WriteSession new ∈ ws → ssIDHash new ≠ h) → odSessions (opWrites ws d) !! h = Some s → odSessions d !! h = Some s.
Proof.
  revert d. induction ws as [|x ws IH]; intros d Hnew Hs; [done|]. apply (runOpWrite_session d x).
  - intros new ->. apply Hnew. by left.
  - apply IH; [|done]. intros new Hin. apply Hnew. by right.
Qed.

(** What has ended: a token that is known, and revoked or expired; a session that is not
    there, or expired. *)
Definition ended (c : Credential) (d : OperatorDB) (now : Z) : Prop :=
  match crForm c with
  | Password => False
  | OperatorTokenForm => ∃ hash tok t, HashOperatorToken (crSecret c) = Ok hash ∧ tokenByHash hash d = Some tok ∧
      (otRevokedAt tok = Some t ∨ otExpiresAt tok = Some t) ∧ t ≤ now
  | SessionForm => ∀ hash s, HashSessionID (crSecret c) = Ok hash → odSessions d !! hash = Some s → ssExpiresAt s ≤ now
  end.

(** C22: an ended credential stays ended.  Take a token that is known and revoked or
    expired, or a session that was ended or has expired.  After any writes of the
    operator's tables that do not create a session of that very identifier, and at any
    later instant, no verification accepts it, whatever the store answers: no write
    prolongs a session or a token, lifts a revocation, or forgets a token. *)
Theorem Credentials_final (c : Credential) d now ws w p w' :
  hashesUnique d → ended c d now →
  (∀ new, WriteSession new ∈ ws → HashSessionID (crSecret c) ≠ Ok (ssIDHash new)) →
  foundTables w = opWrites ws d → now ≤ clock (owTicks w) →
  Verify c w ≠ (Ok p, w').
Proof.
  intros Hu Hend Hnew Hw Hnow. unfold Operator.Verify, NewAuthenticator. cbn [Chain_Verify vfForm vfVerify PasswordVerifier TokenVerifier SessionVerifier].
  unfold ended in Hend. destruct (crForm c) eqn:Hform; [done| |]; repeat (rewrite decide_False by done); rewrite decide_True by done.
  - destruct Hend as (hash & tok & t & Hh & Hf & Ht & Hle). intros (hash' & tok' & Hh' & Hf' & Hrev & Hexp)%ValidateToken_Ok.
    rewrite Hh in Hh'. injection Hh' as <-. rewrite Hw in Hf'.
    apply (tokenByHash_Some hash d tok Hu) in Hf as (id & Hid & <-).
    destruct (opWrites_tokens ws d id tok Hid) as (tok2 & Hid2 & _ & Hh2 & He2 & Hr2).
    pose proof (opWrites_unique ws d Hu) as Hu2. apply (tokenByHash_Some _ _ _ Hu2) in Hf' as (id2 & Hid3 & Hh3).
    assert (id2 = id) as -> by (apply (Hu2 id2 id tok' tok2); congruence). simplify_eq.
    destruct Ht as [Hr|He]; [apply Hr2, Hrev in Hr; lia|]. rewrite He2 in He. apply Hexp in He. lia.
  - intros (hash & s & Hh & Hs & Hlive)%ValidateSession_Ok. rewrite Hw in Hs.
    apply opWrites_session in Hs; [|intros new Hin Heq; apply (Hnew new Hin); by rewrite Hh, Heq].
    specialize (Hend hash s Hh Hs). lia.
Qed.
End credentials.

(** ** The router *)

Definition routeKey (r : Route) : string * string := (roMethod r, roPattern r).

(** A table of routes: an entry per pattern, with the handler of each method. *)
Definition tableOf (rs : list Route) (rts : list route) : Prop :=
  NoDup (rtPattern <$> rts) ∧
  (∀ p, p ∈ (rtPattern <$> rts) ↔ p ∈ (roPattern <$> rs)) ∧
  (∀ rt, rt ∈ rts → rtSegments rt = Split (rtPattern rt) "/" ∧
     ∀ m h, rtMethods rt !! m = Some h ↔ MkRoute m (rtPattern rt) h ∈ rs).

Lemma handle_patterns m p h rts :
  (rtPattern <$> handle m p h rts) = if decide (p ∈ (rtPattern <$> rts)) then (rtPattern <$> rts) else (rtPattern <$> rts) ++ [p].
Proof.
  induction rts as [|x rts IH]; [done|]. cbn [handle]. destruct (decide (rtPattern x = p)) as [<-|Hne].
  - rewrite decide_True by (cbn; by left). done.
  - cbn [fmap list_fmap]. rewrite IH. destruct (decide (p ∈ (rtPattern <$> rts))) as [Hin|Hin].
    + by rewrite decide_True by by right.
    + rewrite decide_False; [done|]. by intros [->|?]%elem_of_cons.
Qed.

Lemma handle_elem m p h rts rt :
  NoDup (rtPattern <$> rts) → rt ∈ handle m p h rts →
  (rtPattern rt ≠ p ∧ rt ∈ rts) ∨
  (∃ old, old ∈ rts ∧ rtPattern old = p ∧ rt = MkRouteEntry p (rtSegments old) (<[m := h]> (rtMethods old))) ∨
  ((p ∉ (rtPattern <$> rts)) ∧ rt = MkRouteEntry p (Split p "/") {[ m := h ]}).
Proof.
  induction rts as [|x rts IH]; cbn [handle fmap list_fmap].
  - intros _ ->%list_elem_of_singleton. right. right. split; [apply not_elem_of_nil|done].
  - intros [Hx Hnd]%NoDup_cons. destruct (decide (rtPattern x = p)) as [<-|Hne].
    + intros [->|Hin]%elem_of_cons; [right; left; exists x; split; [by left|done]|]. left. split; [|by right].
      intros Heq. apply Hx. rewrite <-Heq. by apply list_elem_of_fmap_2.
    + intros [->|Hin]%elem_of_cons; [left; split; [done|by left]|].
      destruct (IH Hnd Hin) as [[? ?]|[(old & ? & ? & ?)|[? ?]]]; [left; split; [done|by right]| |].
      * right. left. exists old. split; [by right|done].
      * right. right. split; [|done]. by intros [->|?]%elem_of_cons.
Qed.

Lemma tableOf_handle rs rts r :
  NoDup (routeKey <$> (rs ++ [r])) → tableOf rs rts → tableOf (rs ++ [r]) (handle (roMethod r) (roPattern r) (roHandler r) rts).
Proof.
  destruct r as [m p h]. intros Hkeys (Hnd & Hp & Hrt). cbn. rewrite fmap_app in Hkeys. apply NoDup_app in Hkeys as (_ & Hfresh & _).
  assert (∀ h', MkRoute m p h' ∉ rs) as Hnew.
  { intros h' Hin. apply (Hfresh (m, p)); [|by left]. by apply (list_elem_of_fmap_2 routeKey _ (MkRoute m p h')). }
  unfold tableOf. rewrite handle_patterns. split; [|split].
  - destruct (decide _); [done|]. apply NoDup_app. split_and!; [done| |apply NoDup_singleton]. set_solver.
  - intros q. rewrite fmap_app, elem_of_app. cbn. rewrite list_elem_of_singleton, <-Hp.
    destruct (decide _); [naive_solver|]. by rewrite elem_of_app, list_elem_of_singleton.
  - intros rt [[Hne Hin]|[(old & Hin & <- & ->)|[Hni ->]]]%handle_elem; [| |cbn|done].
    + destruct (Hrt rt Hin) as [? Hm]. split; [done|]. intros m' h'. rewrite Hm, elem_of_app, list_elem_of_singleton. naive_solver.
    + destruct (Hrt old Hin) as [? Hm]. split; [done|]. intros m' h'. cbn. rewrite lookup_insert_Some, Hm, elem_of_app, list_elem_of_singleton.
      split; [naive_solver|]. intros [Hin'|[= -> ->]]; [|auto]. right. split; [|done]. intros ->. by apply (Hnew h').
    + split; [done|]. intros m' h'. rewrite lookup_singleton_Some, elem_of_app, list_elem_of_singleton.
      split; [naive_solver|]. intros [Hin'|[= -> ->]]; [|done]. destruct Hni. rewrite Hp. by apply (list_elem_of_fmap_2 roPattern _ (MkRoute m' p h')).
Qed.

Lemma Surface_router_table rs : NoDup (routeKey <$> rs) → tableOf rs (Surface_router rs).
Proof.
  induction rs as [|r rs IH] using rev_ind; intros Hnd.
  - split; [constructor|]. split; [done|]. intros rt []%not_elem_of_nil.
  - unfold Surface_router. rewrite foldl_app. apply tableOf_handle; [done|]. apply IH.
    rewrite fmap_app in Hnd. by apply NoDup_app in Hnd as [? _].
Qed.

(** The best match: one that no other match outranks. *)
Definition outranked (path : string) (rts : list route) (n : nat) : Prop :=
  ∀ rt, rt ∈ rts → is_Some (route_match rt path) → (literalness rt ≤ n)%nat.

Lemma bestRoute_acc path rts best :
  match bestRoute path best rts with
  | None => best = None ∧ ∀ rt, rt ∈ rts → route_match rt path = None
  | Some (rt, ps) =>
      (best = Some (rt, ps) ∨ rt ∈ rts ∧ route_match rt path = Some ps) ∧ outranked path rts (literalness rt) ∧
      (∀ b, fst <$> best = Some b → (literalness b ≤ literalness rt)%nat)
  end.
Proof.
  revert best. induction rts as [|x rts IH]; intros best; cbn [bestRoute].
  - destruct best as [[rt ps]|]; [|split; [done|by intros rt ?%not_elem_of_nil]].
    split; [by left|]. split; [by intros r ?%not_elem_of_nil|]. intros b [= <-]. done.
  - destruct (route_match x path) as [params|] eqn:Hx.
    + set (best' := match best with Some (b, _) => _ | None => _ end). specialize (IH best').
      assert ((∀ b, fst <$> best = Some b → ∃ b', fst <$> best' = Some b' ∧ (literalness b ≤ literalness b')%nat) ∧
              (∃ b', fst <$> best' = Some b' ∧ (literalness x ≤ literalness b')%nat) ∧
              (best' = best ∨ best' = Some (x, params))) as (Hold & (b' & Hb' & Hxb) & Hor).
      { unfold best'. destruct best as [[b q]|]; [destruct (decide _)|]; cbn; split_and!; auto; try (eexists; split; [done|lia]);
          intros b0 [= <-]; eexists; (split; [done|lia]). }
      destruct (bestRoute path best' rts) as [[rt ps]|]; [|by destruct IH as [-> _]].
      destruct IH as (Hfrom & Hrank & Hacc). split; [|split].
      * destruct Hfrom as [Heq|[? ?]]; [|right; split; [by right|done]]. destruct Hor as [Ho|Ho]; rewrite Ho in Heq; [by left|].
        injection Heq as <- <-. right. split; [by left|done].
      * intros r [->|Hin]%elem_of_cons Hm; [|by apply Hrank]. specialize (Hacc b' Hb'). lia.
      * intros b Hb. destruct (Hold b Hb) as (b2 & Hb2 & Hle). specialize (Hacc b2 Hb2). lia.
    + specialize (IH best). destruct (bestRoute path best rts) as [[rt ps]|].
      * destruct IH as (Hfrom & Hrank & Hacc). split; [|split; [|done]].
        -- destruct Hfrom as [|[? ?]]; [by left|right; split; [by right|done]].
        -- intros r [->|Hin]%elem_of_cons Hm; [rewrite Hx in Hm; by destruct Hm|by apply Hrank].
      * destruct IH as [-> Hnone]. split; [done|]. intros r [->|Hin]%elem_of_cons; [done|by apply Hnone].
Qed.

Lemma bestRoute_Some path rts rt ps :
  bestRoute path None rts = Some (rt, ps) → rt ∈ rts ∧ route_match rt path = Some ps ∧ outranked path rts (literalness rt).
Proof. intros Hb. pose proof (bestRoute_acc path rts None) as Ha. rewrite Hb in Ha. destruct Ha as ([[=]|[? ?]] & ? & _). done. Qed.

Lemma bestRoute_None path rts : bestRoute path None rts = None → ∀ rt, rt ∈ rts → route_match rt path = None.
Proof. intros Hb. pose proof (bestRoute_acc path rts None) as Ha. rewrite Hb in Ha. by destruct Ha. Qed.

(** Two patterns that no path fits: of different lengths, or with two literals that differ. *)
Fixpoint clash (a b : list string) : bool :=
  match a, b with
  | [], [] => false
  | x :: a, y :: b =>
      (bool_decide (parameter x = None) && bool_decide (parameter y = None) && bool_decide (x ≠ y)) || clash a b
  | _, _ => true
  end.

Lemma clash_sound a b got ps qs :
  clash a b = true → is_Some (matchSegments a got ps) → is_Some (matchSegments b got qs) → False.
Proof.
  revert b got ps qs. induction a as [|x a IH]; intros [|y b] [|g got] ps qs; cbn [clash matchSegments]; try (intros ? [? ?] [? ?]; done).
  rewrite orb_true_iff, !andb_true_iff, !bool_decide_eq_true. intros [[[-> ->] Hne]|Hc].
  - destruct (decide (g = x)) as [->|]; [|intros [? [=]]]. intros _. rewrite decide_False by done. intros [? [=]].
  - destruct (parameter x), (parameter y); repeat (destruct (decide _); [|try (by intros [? ?]); try (by intros ? [? ?])]);
      try (by intros [? ?]); try (by intros ? [? ?]); by apply IH.
Qed.

Definition separated (rts : list route) : bool :=
  forallb (λ a, forallb (λ b, bool_decide (rtPattern a = rtPattern b) || clash (rtSegments a) (rtSegments b) ||
                              negb (bool_decide (literalness a = literalness b))) rts) rts.

Lemma separated_unique rts a b path :
  separated rts = true → NoDup (rtPattern <$> rts) → a ∈ rts → b ∈ rts →
  is_Some (route_match a path) → is_Some (route_match b path) → literalness a = literalness b → a = b.
Proof.
  unfold separated. rewrite forallb_forall. intros Hs Hnd Ha Hb Hma Hmb Hl.
  specialize (Hs a ltac:(by apply list_elem_of_In)). rewrite forallb_forall in Hs.
  specialize (Hs b ltac:(by apply list_elem_of_In)). rewrite !orb_true_iff, bool_decide_eq_true, negb_true_iff, bool_decide_eq_false in Hs.
  destruct Hs as [[Hp|Hc]|?]; [|by destruct (clash_sound _ _ _ _ _ Hc Hma Hmb)|done].
  apply list_elem_of_lookup in Ha as [i Hi], Hb as [j Hj].
  assert (i = j) as <- by (eapply (NoDup_lookup _ i j (rtPattern a) Hnd); rewrite list_lookup_fmap; [by rewrite Hi|by rewrite Hj, Hp]).
  congruence.
Qed.

Lemma mount_keys : NoDup (routeKey <$> mount).
Proof. apply (bool_decide_unpack _). vm_compute. exact I. Qed.

Lemma mount_separated : separated (Surface_router mount) = true.
Proof. vm_compute. reflexivity. Qed.

(** The table does not depend on the order but for its own. *)
Lemma tableOf_elem rs rs' rts rts' rt : rs ≡ₚ rs' → tableOf rs rts → tableOf rs' rts' → rt ∈ rts → rt ∈ rts'.
Proof.
  intros Hp (_ & Hpat & Hrt) (_ & Hpat' & Hrt') Hin.
  assert (rtPattern rt ∈ (rtPattern <$> rts')) as (rt' & Heq & Hin')%list_elem_of_fmap.
  { rewrite Hpat', <-Hp, <-Hpat. by apply list_elem_of_fmap_2. }
  destruct (Hrt rt Hin) as [Hs Hm], (Hrt' rt' Hin') as [Hs' Hm']. rewrite <-Heq in Hs', Hm'.
  assert (rt = rt') as ->; [|done]. destruct rt as [p s m], rt' as [p' s' m']. cbn in *. subst. f_equal.
  apply map_eq. intros k. apply option_eq. intros h. rewrite Hm, Hm', Hp. done.
Qed.

Lemma bestRoute_order rs path :
  rs ≡ₚ mount → bestRoute path None (Surface_router rs) = bestRoute path None (Surface_router mount).
Proof.
  intros Hp. assert (NoDup (routeKey <$> rs)) as Hk by (rewrite Hp; apply mount_keys).
  pose proof (Surface_router_table rs Hk) as Ht. pose proof (Surface_router_table mount mount_keys) as Htm.
  assert (∀ rt, rt ∈ Surface_router rs ↔ rt ∈ Surface_router mount) as Hsame.
  { intros rt. split; [by apply (tableOf_elem rs mount)|apply (tableOf_elem mount rs); [by symmetry|done|done]]. }
  destruct (bestRoute path None (Surface_router rs)) as [[a ps]|] eqn:Ha, (bestRoute path None (Surface_router mount)) as [[b qs]|] eqn:Hb; try done.
  - apply bestRoute_Some in Ha as (Hain & Ham & Har), Hb as (Hbin & Hbm & Hbr).
    assert (a = b) as ->; [|congruence]. apply (separated_unique (Surface_router mount) a b path); [apply mount_separated|apply Htm| |done| | |].
    + by apply Hsame.
    + by eexists.
    + by eexists.
    + apply Nat.le_antisymm; [apply Hbr; [by apply Hsame|by eexists]|apply Har; [by apply Hsame|by eexists]].
  - apply bestRoute_Some in Ha as (Hain & Ham & _). apply Hsame in Hain. by rewrite (bestRoute_None _ _ Hb a Hain) in Ham.
  - apply bestRoute_Some in Hb as (Hbin & Hbm & _). apply Hsame in Hbin. by rewrite (bestRoute_None _ _ Ha b Hbin) in Hbm.
Qed.

(** The path fits a pattern, binding its parameters. *)
Definition fits (pattern path : string) (params : gmap string string) : Prop :=
  matchSegments (Split pattern "/") (Split path "/") ∅ = Some params.
Definition literals (pattern : string) : nat := length (filter (λ s, literal s = true) (Split pattern "/")).

Lemma routed_iff c r h c' :
  router_ServeHTTP (Surface_router mount) c r = Dispatched h c' ↔
  MkContext (cxPrincipal c) (cxSession c) (cxParams c') = c' ∧
  ∃ rt, rt ∈ mount ∧ roMethod rt = rqMethod r ∧ roHandler rt = h ∧ fits (roPattern rt) (rqPath r) (cxParams c') ∧
    ∀ other params, other ∈ mount → fits (roPattern other) (rqPath r) params → (literals (roPattern other) ≤ literals (roPattern rt))%nat.
Proof.
  pose proof (Surface_router_table mount mount_keys) as (Hnd & Hpat & Hrt). unfold router_ServeHTTP. split.
  - destruct (bestRoute (rqPath r) None _) as [[best ps]|] eqn:Hb; [|done]. apply bestRoute_Some in Hb as (Hin & Hm & Hrank).
    destruct (rtMethods best !! rqMethod r) as [h0|] eqn:Hh; [|done]. intros [= <- <-]. cbn. split; [done|].
    destruct (Hrt best Hin) as [Hseg Hmeth]. apply Hmeth in Hh. unfold route_match in Hm. rewrite Hseg in Hm.
    exists (MkRoute (rqMethod r) (rtPattern best) h0). cbn. do 4 (split; [done|]). intros other params Ho Hf.
    assert (roPattern other ∈ (rtPattern <$> Surface_router mount)) as (rt & Hp & Hrin)%list_elem_of_fmap.
    { rewrite Hpat. by apply list_elem_of_fmap_2. }
    destruct (Hrt rt Hrin) as [Hs2 _]. assert (is_Some (route_match rt (rqPath r))) as Hm2.
    { unfold route_match. rewrite Hs2, <-Hp. eexists. exact Hf. }
    specialize (Hrank rt Hrin Hm2). unfold literalness in Hrank. rewrite Hseg, Hs2, <-Hp in Hrank. exact Hrank.
  - intros (Hc & rt & Hin & Hmeth & <- & Hf & Hrank).
    assert (roPattern rt ∈ (rtPattern <$> Surface_router mount)) as (e & Hp & Hein)%list_elem_of_fmap.
    { rewrite Hpat. by apply list_elem_of_fmap_2. }
    destruct (Hrt e Hein) as [Hs Hm]. assert (route_match e (rqPath r) = Some (cxParams c')) as Hme.
    { unfold route_match. rewrite Hs, <-Hp. exact Hf. }
    destruct (bestRoute (rqPath r) None _) as [[b qs]|] eqn:Hb.
    + apply bestRoute_Some in Hb as (Hbin & Hbm & Hbr).
      assert (b = e) as ->.
      { apply (separated_unique (Surface_router mount) b e (rqPath r)); [apply mount_separated|done|done|done|by eexists|by eexists|].
        apply Nat.le_antisymm; [|apply Hbr; [done|by eexists]]. destruct (Hrt b Hbin) as [Hsb _].
        assert (rtPattern b ∈ (roPattern <$> mount)) as (o & Hop & Hoin)%list_elem_of_fmap by (rewrite <-Hpat; by apply list_elem_of_fmap_2).
        unfold literalness. rewrite Hs, Hsb, <-Hp, Hop. apply (Hrank o qs Hoin). unfold fits. rewrite <-Hop, <-Hsb. exact Hbm. }
      assert (qs = cxParams c') as -> by congruence.
      assert (rtMethods e !! rqMethod r = Some (roHandler rt)) as ->.
      { apply Hm. rewrite <-Hp, <-Hmeth. by destruct rt. }
      by rewrite <-Hc.
    + by rewrite (bestRoute_None _ _ Hb e Hein) in Hme.
Qed.

(** The mounted routes.  A request is given to a handler exactly when the handler is
    mounted for its method on a pattern that its path fits and that no fitting pattern
    outranks by literal segments; and the choice, with the answer to a path or a method
    that is not there, is the same in whatever order the routes are registered. *)
Theorem Router_exact rs c r h c' :
  rs ≡ₚ mount →
  router_ServeHTTP (Surface_router rs) c r = router_ServeHTTP (Surface_router mount) c r ∧
  (router_ServeHTTP (Surface_router mount) c r = Dispatched h c' ↔
   MkContext (cxPrincipal c) (cxSession c) (cxParams c') = c' ∧
   ∃ rt, rt ∈ mount ∧ roMethod rt = rqMethod r ∧ roHandler rt = h ∧ fits (roPattern rt) (rqPath r) (cxParams c') ∧
     ∀ other params, other ∈ mount → fits (roPattern other) (rqPath r) params → (literals (roPattern other) ≤ literals (roPattern rt))%nat).
Proof.
  intros Hp. split; [|apply routed_iff]. unfold router_ServeHTTP. by rewrite (bestRoute_order rs (rqPath r) Hp).
Qed.

(** ** Who reaches a handler *)

Lemma Join_Split s sep : Join (Split s sep) (String sep "") = s.
Proof.
  induction s as [|c s IH]; [done|]. cbn [Split]. destruct (Split s sep) as [|x l] eqn:Hs.
  { exfalso. destruct s as [|d s]; cbn in Hs; [done|]. destruct (decide (d = sep)); [done|]. by destruct (Split s sep). }
  destruct (decide (c = sep)) as [->|Hne].
  - change (Join ("" :: x :: l) (String sep "")) with ("" +:+ String sep (Join (x :: l) (String sep ""))). by rewrite IH.
  - rewrite <-IH. by destruct l.
Qed.

Lemma Split_inj s t sep : Split s sep = Split t sep → s = t.
Proof. intros He. rewrite <-(Join_Split s sep), He. apply Join_Split. Qed.

(** A path fits a pattern of literals when it is that pattern. *)
Lemma match_literals want got ps qs :
  forallb (λ w, bool_decide (parameter w = None)) want = true → matchSegments want got ps = Some qs → got = want.
Proof.
  revert got. induction want as [|w want IH]; intros [|g got]; cbn; try done.
  rewrite andb_true_iff, bool_decide_eq_true. intros [-> Hall]. destruct (decide (g = w)) as [->|]; [|done].
  intros Hm. f_equal. by apply IH.
Qed.

Definition sessionPath : string := APIPrefix +:+ "/session".

Lemma public_iff m p : m +:+ " " +:+ p ∈ publicRoutes ↔ m = MethodPost ∧ p = sessionPath.
Proof.
  unfold publicRoutes. rewrite list_elem_of_singleton. split; [|by intros [-> ->]].
  change (MethodPost +:+ " " +:+ APIPrefix +:+ "/session")%string with ("POST /api/v1/session")%string.
  destruct m as [|a m]; [done|]. cbn. intros [= -> Heq]. destruct m as [|a m]; [done|]. cbn in Heq. injection Heq as -> Heq.
  destruct m as [|a m]; [done|]. cbn in Heq. injection Heq as -> Heq. destruct m as [|a m]; [done|]. cbn in Heq. injection Heq as -> Heq.
  destruct m as [|a m]; [injection Heq as ->; done|]. cbn in Heq. injection Heq as -> Heq. exfalso.
  assert (contains_byte " " (m +:+ String " " p) = true) as Hc by (rewrite contains_byte_app; cbn; by rewrite orb_true_r).
  rewrite Heq in Hc. by vm_compute in Hc.
Qed.

(** The login is mounted at one place. *)
Lemma mount_login rt path ps :
  rt ∈ mount → fits (roPattern rt) path ps →
  (roHandler rt = "createSession" ↔ roMethod rt = MethodPost ∧ path = sessionPath)%string.
Proof.
  intros Hin Hf. assert (path = sessionPath → fits (roPattern rt) sessionPath ps) as Hsess by (by intros ->).
  assert (∃ b, b = bool_decide (roHandler rt = "createSession"%string) ∧
    (b = true → roMethod rt = MethodPost ∧ roPattern rt = sessionPath) ∧
    (b = false → roMethod rt = MethodPost → matchSegments (Split (roPattern rt) "/") (Split sessionPath "/") ∅ = None)) as (b & Hb & Ht & Hff).
  { clear Hf Hsess. revert rt Hin. apply Forall_forall. unfold mount. rewrite Forall_fmap.
    repeat (constructor; [eexists; split; [reflexivity|]; split; vm_compute; by intros|]). constructor. }
  split.
  - intros Hh. rewrite Hh, bool_decide_true in Hb by done. destruct (Ht Hb) as [-> Hp]. split; [done|].
    unfold fits in Hf. rewrite Hp in Hf. apply (Split_inj _ _ "/"). by apply match_literals in Hf.
  - intros [Hm ->]. destruct (decide (roHandler rt = "createSession"%string)) as [|Hne]; [done|].
    rewrite bool_decide_false in Hb by done. specialize (Hff Hb Hm). unfold fits in Hf. congruence.
Qed.

Lemma mount_methods rt : rt ∈ mount → roMethod rt ∈ [MethodGet; MethodPost; MethodPut; MethodDelete].
Proof.
  revert rt. apply Forall_forall. unfold mount. rewrite Forall_fmap.
  repeat (constructor; [apply list_elem_of_In; vm_compute; tauto|]). constructor.
Qed.

Section surface.
Context `{UUIDLib} `{PgLib} `{Argon2Lib} `{WebLib}.
Context (LoginAttempts LoginWindow : Z).
Context (clock : nat → Z) (others : nat → OperatorDB → OperatorDB) (answers : nat → Answer).
Abbreviation Server_Surface := (Surface.Server_Surface LoginAttempts LoginWindow clock others answers).
Abbreviation authenticate := (Surface.authenticate clock others answers).

(** A request that no other site can make a browser send with its cookie: a read, or one
    that the browser marks as of this origin, or that says nothing of its origin. *)
Definition sameOrigin (r : Request) : Prop :=
  rqMethod r = MethodGet ∨
  rqSecFetchSite r ∈ [""; "same-origin"; "none"]%string ∧
  (rqOrigin r = ""%string ∨
   ∃ host, url_Parse (rqOrigin r) = Some ("https"%string, host) ∧ EqualFold host (rqHost r) = true).

(** The credential of a request: its bearer token if it has an authorization header, and
    else its cookie, live in the tables. *)
Definition presented (r : Request) (d : OperatorDB) (now : Z) : Prop :=
  if decide (rqAuthorization r = ""%string) then ∃ v, cookie r = Some v ∧ sessionLive v d now
  else ∃ scheme token, Cut (rqAuthorization r) " " = Some (scheme, token) ∧ EqualFold scheme "Bearer" = true ∧
         tokenLive (TrimSpace token) d now.

Lemma authenticate_Ok r w p s w' :
  authenticate r w = (Ok (p, s), w') → presented r (foundTables others w) (clock (owTicks w)).
Proof.
  unfold Surface.authenticate, presented. destruct (decide (rqAuthorization r = ""%string)) as [He|He].
  - rewrite decide_False by (by intros ?). destruct (cookie r) as [v|]; [|done]. destruct (decide (v = ""%string)); [done|].
    intros (q & w1 & Hv & _)%op_bind_Ok. exists v. split; [done|]. exact (ValidateSession_Ok clock others answers v w q w1 Hv).
  - rewrite decide_True by done. destruct (Cut _ _) as [[scheme token]|]; [|done].
    destruct (EqualFold scheme "Bearer") eqn:Hs; [|done]. destruct (bool_decide (TrimSpace token = ""%string)); [done|]. cbn [negb orb].
    intros (q & w1 & Hv & _)%op_bind_Ok. exists scheme, token. do 2 (split; [done|]). exact (ValidateToken_Ok clock others answers _ w q w1 Hv).
Qed.

Lemma authenticate_live r w :
  (∀ n, answers n = Answers) → presented r (foundTables others w) (clock (owTicks w)) →
  ∃ p s w', authenticate r w = (Ok (p, s), w').
Proof.
  intros Ha. unfold Surface.authenticate, presented. destruct (decide (rqAuthorization r = ""%string)) as [He|He].
  - rewrite decide_False by (by intros ?). intros (v & -> & Hlive). rewrite decide_False.
    2:{ intros ->. destruct Hlive as (hash & s & Hh & _). by vm_compute in Hh. }
    destruct (ValidateSession_live clock others answers v w Ha Hlive) as (p & w' & Hv).
    exists p, v, w'. unfold mbind, OM_bind. change (Verify _ _ _ _ w) with (ValidateSession clock others answers v w). by rewrite Hv.
  - rewrite decide_True by done. intros (scheme & token & -> & -> & Hlive). rewrite bool_decide_false.
    2:{ intros Hn. destruct Hlive as (hash & s & Hh & _). rewrite Hn in Hh. by vm_compute in Hh. }
    destruct (ValidateToken_live clock others answers _ w Ha Hlive) as (p & w' & Hv).
    exists p, ""%string, w'. cbn [negb orb]. unfold mbind, OM_bind.
    change (Verify _ _ _ _ w) with (ValidateToken clock others answers (TrimSpace token) w). by rewrite Hv.
Qed.

Lemma crossOrigin_None r :
  crossOrigin r = None →
  rqMethod r ∈ [MethodHead; MethodOptions] ∨ sameOrigin r.
Proof.
  unfold crossOrigin, sameOrigin. destruct (decide (rqMethod r ∈ _)) as [Hm|_]; [set_solver|].
  destruct (decide (rqSecFetchSite r ∉ _)) as [|Hs]; [done|]. apply dec_stable in Hs. destruct (decide (rqOrigin r = _)) as [Ho|_]; [by auto|].
  destruct (url_Parse (rqOrigin r)) as [[scheme host]|]; [|done].
  destruct (bool_decide (scheme = "https"%string)) eqn:Hb; [|done]. apply bool_decide_eq_true in Hb as ->.
  destruct (EqualFold host (rqHost r)) eqn:He; [|done]. intros _. right. right. split; [done|]. eauto.
Qed.

Definition noContext : Context := MkContext None None ∅.

(** C21: what stands before a handler.  A request that reaches a handler came from this
    origin or is a read; its method and path are those of the handler's route; and either
    it is the login, which the throttle let through, or it presents a token or a session
    that is live in the tables at the instant of its check, and reaches the handler as the
    operator.  Conversely, with a store that answers, every request of this origin with a
    live credential is given to the router. *)
Theorem Surface_guarded r l :
  (∀ h c l', Server_Surface noContext r l = (Dispatched h c, l') →
     sameOrigin r ∧
     (∃ rt, rt ∈ mount ∧ roMethod rt = rqMethod r ∧ roHandler rt = h ∧ fits (roPattern rt) (rqPath r) (cxParams c)) ∧
     match cxPrincipal c with
     | None => h = "createSession"%string ∧ rqMethod r = MethodPost ∧ rqPath r = sessionPath ∧
         ∃ wait, Allow LoginAttempts LoginWindow (clock (owTicks (lsOp l))) (sourceAddress r) (lsThrottle l) =
                   Some (true, wait, lsThrottle l')
     | Some _ => h ≠ "createSession"%string ∧ presented r (foundTables others (lsOp l)) (clock (owTicks (lsOp l)))
     end) ∧
  ((∀ n, answers n = Answers) → crossOrigin r = None → (rqMethod r ≠ MethodPost ∨ rqPath r ≠ sessionPath) →
   presented r (foundTables others (lsOp l)) (clock (owTicks (lsOp l))) →
   ∃ p s, (Server_Surface noContext r l).1 = router_ServeHTTP (Surface_router mount) (MkContext (Some p) s ∅) r).
Proof.
  unfold Surface.Server_Surface, Surface_Handler. cbn [foldr]. unfold CrossOriginGuard, Throttle_Middleware, Auth_Middleware.
  split.
  - intros h c l'. destruct (crossOrigin r) as [reason|] eqn:Hor; [done|].
    assert (∀ c0, router_ServeHTTP (Surface_router mount) c0 r = Dispatched h c →
      cxPrincipal c = cxPrincipal c0 ∧ sameOrigin r ∧
      (∃ rt, rt ∈ mount ∧ roMethod rt = rqMethod r ∧ roHandler rt = h ∧ fits (roPattern rt) (rqPath r) (cxParams c))) as Hroute.
    { intros c0 (Hc & rt & Hin & Hm & Hh & Hf & _)%routed_iff. split; [by rewrite <-Hc|]. split; [|by exists rt].
      destruct (crossOrigin_None r Hor) as [Hhead|]; [|done]. exfalso. pose proof (mount_methods rt Hin) as Hmm. rewrite Hm in Hmm.
      clear -Hhead Hmm. apply list_elem_of_In in Hhead, Hmm. vm_compute in Hhead, Hmm. intuition congruence. }
    destruct (decide (rqMethod r ≠ MethodPost ∨ rqPath r ≠ _)) as [Hnp|Hp].
    + rewrite decide_False. 2:{ rewrite public_iff. intros [Hm Hp]. unfold sessionPath in Hp. destruct Hnp; congruence. }
      destruct (onOp (authenticate r) l) as [[[p s]|e] l1] eqn:Ha; [|done]. unfold onOp in Ha.
      destruct (authenticate r (lsOp l)) as [rr w1] eqn:Hau. injection Ha as -> <-. apply authenticate_Ok in Hau.
      intros Heq. assert (router_ServeHTTP (Surface_router mount) (MkContext (Some p) (optionalString s) ∅) r = Dispatched h c) as Hd.
      { by injection Heq as -> _. }
      destruct (Hroute _ Hd) as (Hcp & Hso & rt & Hin & Hm & Hh & Hf). split; [done|]. split; [by exists rt|].
      rewrite Hcp. cbn. split; [|done]. intros Hlogin. rewrite <-Hh in Hlogin. apply (mount_login rt (rqPath r) _ Hin Hf) in Hlogin as [Hmp Hpp].
      rewrite Hm in Hmp. unfold sessionPath in Hpp. destruct Hnp; congruence.
    + assert (rqMethod r = MethodPost) as Hm by (apply dec_stable; auto). assert (rqPath r = sessionPath) as Hp' by (apply dec_stable; auto). clear Hp. rename Hp' into Hp. cbn [onOp op_now].
      destruct (Allow _ _ _ _ _) as [[[[] wait] th]|] eqn:Hal; [|done|done].
      rewrite decide_True by (by apply public_iff). intros Heq. assert (router_ServeHTTP (Surface_router mount) noContext r = Dispatched h c) as Hd.
      { by injection Heq as -> _. }
      destruct (Hroute _ Hd) as (Hcp & Hso & rt & Hin & Hmm & Hh & Hf). split; [done|]. split; [by exists rt|].
      rewrite Hcp. cbn. split; [|split; [done|split; [done|]]].
      * rewrite <-Hh. apply (mount_login rt (rqPath r) _ Hin Hf). split; [congruence|done].
      * exists wait. injection Heq as _ <-. done.
  - intros Ha Hor Hnp Hpres. rewrite Hor. rewrite decide_True by done.
    rewrite decide_False. 2:{ rewrite public_iff. intros [Hm Hp]. destruct Hnp; congruence. }
    destruct (authenticate_live r (lsOp l) Ha Hpres) as (p & s & w' & Hau). unfold onOp. rewrite Hau. cbn. eauto.
Qed.
End surface.

(** ** The life of a session *)

Section session.
Context `{UUIDLib} `{PgLib} `{Argon2Lib} `{!Argon2Laws} `{WebLib}.
Context (SessionTTL LoginAttempts LoginWindow : Z) (site gateway version : string) (clock : nat → Z).

(** Without other callers, on a store that answers. *)
Definition alone (_ : nat) (d : OperatorDB) : OperatorDB := d.
Definition prompt (_ : nat) : Answer := Answers.
Abbreviation serve := (Surface.serve SessionTTL LoginAttempts LoginWindow site gateway version clock alone prompt).
Abbreviation me := (Surface.me site gateway version).
Abbreviation key password salt :=
  (argon2_IDKey (string_bytes password) salt argonTime argonMemory argonThreads argonKeyLen).

(** A request with a session's cookie; the listener when the clock has been read [n] times. *)
Definition asks (q : Request) (method path id : string) : Prop :=
  rqMethod q = method ∧ rqPath q = path ∧ crossOrigin q = None ∧ rqAuthorization q = ""%string ∧ cookie q = Some id.
Definition after (n : nat) (l : Listener) : Listener := MkListener (lsThrottle l) (MkOpWorld (owDB (lsOp l)) n (owCalls (lsOp l))).

Definition refusedCookie : Served := Answered (writeProblem [authenticateHeader] [clearSessionCookie] problemUnauthenticated).

Lemma routes_to q c method path h :
  rqMethod q = method → rqPath q = path →
  ((λ '(b, ps), (rtMethods b !! method, ps)) <$> bestRoute path None (Surface_router mount)) = Some (Some h, ∅) →
  router_ServeHTTP (Surface_router mount) c q = Dispatched h (MkContext (cxPrincipal c) (cxSession c) ∅).
Proof.
  intros Hm Hp. unfold router_ServeHTTP. rewrite Hp, Hm. destruct (bestRoute path None _) as [[b ps]|]; [|done]. cbn. by intros [= -> ->].
Qed.

(** A cookie that is of a session, and one that is of none. *)
Lemma HashSessionID_new raw :
  byte_list raw → length raw = secretEntropyBytes →
  HashSessionID (RawURLEncoding_EncodeToString raw) = Ok (digest (RawURLEncoding_EncodeToString raw)).
Proof. intros Hb Hl. unfold HashSessionID, wellShaped. rewrite RawURLEncoding_roundtrip by done. by rewrite bool_decide_true. Qed.

Lemma HashSessionID_nonempty id hash : HashSessionID id = Ok hash → id ≠ ""%string.
Proof. intros Hh ->. by vm_compute in Hh. Qed.

Lemma ValidateSession_alone id hash w :
  HashSessionID id = Ok hash →
  ValidateSession clock alone prompt id w =
    match odSessions (owDB w) !! hash with
    | None => (Err ErrSessionUnknown, MkOpWorld (owDB w) (owTicks w) (S (owCalls w)))
    | Some s =>
        if decide (ssExpiresAt s ≤ clock (owTicks w)) then (Err ErrSessionExpired, MkOpWorld (owDB w) (S (owTicks w)) (S (owCalls w)))
        else (Ok (MkPrincipal (odOperator (owDB w) ≫= opDisplayName)), MkOpWorld (owDB w) (S (owTicks w)) (S (S (owCalls w))))
    end.
Proof.
  intros Hh. unfold ValidateSession, mbind, OM_bind, lift. rewrite Hh.
  unfold query, reply, prompt, alone, Store_GetSession, op_now, check, Session_Check, principal, Store_GetOperator, query, reply.
  destruct (odSessions (owDB w) !! hash) as [s|]; [|done]. cbn [owTicks owDB owCalls]. destruct (decide _); [done|].
  cbn [owTicks owDB owCalls]. by destruct (odOperator (owDB w)).
Qed.

(** The surface, for a request with a cookie. *)
Lemma surface_cookie q method path id hash l :
  asks q method path id → (method ≠ MethodPost ∨ path ≠ sessionPath) → HashSessionID id = Ok hash →
  Server_Surface LoginAttempts LoginWindow clock alone prompt noContext q l =
    match ValidateSession clock alone prompt id (lsOp l) with
    | (Err _, w) => (refusedCookie, MkListener (lsThrottle l) w)
    | (Ok p, w) => (router_ServeHTTP (Surface_router mount) (MkContext (Some p) (Some id) ∅) q, MkListener (lsThrottle l) w)
    end.
Proof.
  intros (<- & <- & Hor & Hau & Hck) Hnp Hh. unfold Server_Surface, Surface_Handler. cbn [foldr].
  unfold CrossOriginGuard, Throttle_Middleware, Auth_Middleware. rewrite Hor, decide_True by done.
  rewrite decide_False. 2:{ rewrite public_iff. intros [Hm Hp]. destruct Hnp; congruence. }
  unfold onOp, authenticate. rewrite Hau, decide_False by (by intros ?). rewrite Hck.
  pose proof (HashSessionID_nonempty id hash Hh) as Hne. rewrite decide_False by done. unfold mbind, OM_bind.
  change (Verify clock alone prompt (MkCredential SessionForm id) (lsOp l)) with (ValidateSession clock alone prompt id (lsOp l)).
  destruct (ValidateSession clock alone prompt id (lsOp l)) as [[p|e] w]; [|cbn; by rewrite decide_False].
  cbn [mret OM_ret lsOp lsThrottle cxParams noContext]. unfold optionalString. by rewrite decide_False.
Qed.

(** Asking who one is. *)
Lemma serve_me q id hash l :
  asks q MethodGet (APIPrefix +:+ "/me") id → HashSessionID id = Ok hash →
  (serve None q l).1 =
    match odSessions (owDB (lsOp l)) !! hash with
    | None => refusedCookie
    | Some s => if decide (ssExpiresAt s ≤ clock (owTicks (lsOp l))) then refusedCookie
                else Answered (MkResponse [] [] (RespMe (me (Some (MkPrincipal (odOperator (owDB (lsOp l)) ≫= opDisplayName))))))
    end.
Proof.
  intros Hq Hh. unfold Surface.serve. fold noContext. rewrite (surface_cookie q _ _ id hash l Hq) by (done || by left).
  rewrite (ValidateSession_alone id hash (lsOp l) Hh). destruct (odSessions _ !! hash) as [s|]; [|done]. destruct (decide _); [done|].
  destruct Hq as (Hm & Hp & _). erewrite routes_to; [|exact Hm|exact Hp|vm_compute; reflexivity]. done.
Qed.

(** Logging out. *)
Lemma serve_logout q id hash l s :
  asks q MethodDelete sessionPath id → HashSessionID id = Ok hash → odSessions (owDB (lsOp l)) !! hash = Some s →
  clock (owTicks (lsOp l)) < ssExpiresAt s →
  ∃ l', serve None q l = (Answered (MkResponse [] [clearSessionCookie] RespEmpty), l') ∧
    owDB (lsOp l') = setSessions (delete hash (odSessions (owDB (lsOp l)))) (owDB (lsOp l)).
Proof.
  intros Hq Hh Hs Hlive. unfold Surface.serve. fold noContext. rewrite (surface_cookie q _ _ id hash l Hq) by (done || by left).
  rewrite (ValidateSession_alone id hash (lsOp l) Hh), Hs, decide_False by lia.
  destruct Hq as (Hm & Hp & _). erewrite routes_to; [|exact Hm|exact Hp|vm_compute; reflexivity].
  cbn [cxPrincipal cxSession]. unfold deleteSession, End_, DeleteSession. cbn. rewrite Hh. unfold onOp, query, reply, prompt, alone. cbn. eauto.
Qed.

(** The surface, for a login. *)
Lemma surface_login r l wait th :
  rqMethod r = MethodPost → rqPath r = sessionPath → crossOrigin r = None →
  Allow LoginAttempts LoginWindow (clock (owTicks (lsOp l))) (sourceAddress r) (lsThrottle l) = Some (true, wait, th) →
  Server_Surface LoginAttempts LoginWindow clock alone prompt noContext r l =
    (Dispatched "createSession" noContext, MkListener th (MkOpWorld (owDB (lsOp l)) (S (owTicks (lsOp l))) (owCalls (lsOp l)))).
Proof.
  intros Hm Hp Hor Hallow. pose proof (routes_to r noContext MethodPost sessionPath "createSession" Hm Hp) as Hr.
  unfold Server_Surface, Surface_Handler. cbn [foldr].
  unfold CrossOriginGuard, Throttle_Middleware, Auth_Middleware. rewrite Hor, decide_False by (intros [?|?]; [done|by unfold sessionPath in *]).
  cbn [onOp op_now lsOp lsThrottle]. rewrite Hallow, decide_True by (by apply public_iff). rewrite Hr by (vm_compute; reflexivity). done.
Qed.

Lemma Mint_alone raw w :
  let id := RawURLEncoding_EncodeToString raw in let t := clock (owTicks w) in
  odSessions (owDB w) !! digest id = None →
  Mint SessionTTL clock alone prompt (Some raw) w =
    (Ok (id, sessionTTL SessionTTL),
     MkOpWorld (setSessions (<[digest id := MkSession (digest id) (pgTime t) (pgTime (t + sessionTTL SessionTTL))]> (odSessions (owDB w))) (owDB w))
       (S (owTicks w)) (S (owCalls w))).
Proof.
  intros id t. unfold Mint, CreateSession, NewSessionID, randomSecret.
  change (RawURLEncoding_EncodeToString <$> Some raw) with (Some id). change (Some id ≫= λ p, Some (p, digest p)) with (Some (id, digest id)).
  generalize (digest id). intros hash Hf. unfold mbind, OM_bind, op_now, query, reply, prompt, alone, Store_CreateSession.
  cbn [owDB owCalls owTicks ssIDHash ssCreatedAt ssExpiresAt]. rewrite Hf. cbn [mret OM_ret ssCreatedAt ssExpiresAt]. fold t.
  by replace (t + sessionTTL SessionTTL - t) with (sessionTTL SessionTTL) by lia.
Qed.

(** Logging in: the password decides. *)
Lemma serve_login salt password tried raw r l op wait th :
  byte_list salt → odOperator (owDB (lsOp l)) = Some op → HashPassword (Some salt) password = Ok (opPasswordHash op) →
  rqMethod r = MethodPost → rqPath r = sessionPath → crossOrigin r = None → rqBody r = BodyLogin tried false →
  Allow LoginAttempts LoginWindow (clock (owTicks (lsOp l))) (sourceAddress r) (lsThrottle l) = Some (true, wait, th) →
  let id := RawURLEncoding_EncodeToString raw in
  let t := clock (S (owTicks (lsOp l))) in
  odSessions (owDB (lsOp l)) !! digest id = None →
  if decide (key tried salt = key password salt) then
    ∃ l', serve (Some raw) r l =
        (Answered (MkResponse [] [sessionCookie id (sessionTTL SessionTTL)] (RespMe (me (Some (MkPrincipal (opDisplayName op)))))), l') ∧
      owDB (lsOp l') = setSessions (<[digest id := MkSession (digest id) (pgTime t) (pgTime (t + sessionTTL SessionTTL))]>
                                      (odSessions (owDB (lsOp l)))) (owDB (lsOp l))
  else ∃ l', serve (Some raw) r l =
        (Answered (writeProblem [authenticateHeader] [] (MkProblem ProblemInvalidCredentials "Invalid credentials" 401
           "the password is not correct")), l') ∧ owDB (lsOp l') = owDB (lsOp l).
Proof.
  intros Hsalt Hop Hhash Hm Hp Hor Hbody Hallow id t Hfresh. unfold Surface.serve. fold noContext.
  rewrite (surface_login r l wait th Hm Hp Hor Hallow). rewrite (decide_True (P := "createSession"%string = "createSession"%string)) by done.
  unfold createSession. rewrite Hbody. unfold onOp. cbn [lsOp lsThrottle].
  unfold Verify, NewAuthenticator. cbn [Chain_Verify vfForm vfVerify PasswordVerifier crForm crSecret]. rewrite (decide_True (P := Password = Password)) by done.
  unfold Service_VerifyPassword, mbind, OM_bind, query, reply, prompt, alone, Store_GetOperator, lift. cbn [owDB owCalls owTicks]. rewrite Hop.
  rewrite (Verify_Hash salt password (opPasswordHash op) tried Hsalt Hhash).
  destruct (decide (key tried salt = key password salt)) as [Hk|Hk].
  - unfold principal, query, reply, prompt, alone, Store_GetOperator. cbn [owDB owCalls owTicks lsOp lsThrottle]. rewrite Hop.
    cbn [owDB owCalls owTicks lsOp lsThrottle]. rewrite (Mint_alone raw) by exact Hfresh. eexists. split; [reflexivity|done].
  - eauto.
Qed.

End session.

(** ** A surface at work *)

Module OperatorExample.
Import Uuid128 AuthoredExample.

(** A key derivation, for the witnesses: the password and the salt, cut to length. *)
#[global] Instance argon : Argon2Lib := {
  argon2_Version := 19;
  argon2_IDKey password salt time memory threads keyLen :=
    if decide (time < 1 ∨ threads < 1) then None
    else Some (take (Z.to_nat keyLen) (((λ b, b `mod` 256) <$> password) ++ replicate (Z.to_nat keyLen) 0));
}.
#[global] Instance argon_laws : Argon2Laws.
Proof.
  split; [done|]. intros password salt time memory threads keyLen Ht Hp Hk. cbn. rewrite decide_False by lia.
  eexists. split; [done|]. split.
  - rewrite length_take, length_app, length_replicate. lia.
  - apply Forall_take, Forall_app. split; [|apply Forall_replicate; lia].
    apply Forall_fmap, Forall_true. intros b. cbn. apply Z.mod_pos_bound. lia.
Qed.

(** Origins as browsers write them. *)
#[global] Instance web : WebLib := {
  url_Parse o := match strip_prefix "https://" o with
                 | Some h => Some ("https"%string, h)
                 | None => (λ h, ("http"%string, h)) <$> strip_prefix "http://" o
                 end;
  unicode_EqualFold s t := bool_decide (s = t);
}.
#[global] Instance web_laws : WebLaws.
Proof.
  split. intros scheme host Hs _. apply list_elem_of_In in Hs. destruct Hs as [<-|[<-|[]]]; cbn.
  - done.
  - done.
Qed.

Definition theClock (n : nat) : Z := 1000000 * (1 + Z.of_nat n).
Definition secret : list Z := replicate 32 171.
Definition salt : list Z := replicate 16 7.
Definition thePassword : string := "correct horse battery".
Definition storedHash : string := match HashPassword (Some salt) thePassword with Ok h => h | Err _ => "" end.
Definition theOperator : Operator := MkOperator storedHash (Some "Ada"%string) 0 0.
Definition tables : OperatorDB := MkOperatorDB (Some theOperator) ∅ ∅.
Definition listener : Listener := MkListener newThrottle (MkOpWorld tables 0 0).
Definition request (method path : string) (cookies : list (string * string)) (body : RequestBody) : Request :=
  MkRequest method path "wall.example" "10.0.0.9:4711" "same-origin" "https://wall.example" "" cookies body.
Definition login : Request := request MethodPost sessionPath [] (BodyLogin thePassword false).

Lemma secret_ok : byte_list secret ∧ length secret = secretEntropyBytes.
Proof. split; [|reflexivity]. unfold byte_list, secret. apply Forall_replicate. lia. Qed.

Definition cookieRequest (method path : string) : Request :=
  request method path [(SessionCookie, RawURLEncoding_EncodeToString secret)] BodyUnreadable.

(** A token that was revoked. *)
Definition plaintext : string := OperatorTokenPrefix +:+ RawURLEncoding_EncodeToString secret.
Definition revoked : OperatorToken := MkOperatorToken _ (of_Z 4) (digest plaintext) "iwo_q6urq6ur" "ci" 0 None (Some 5000) None.
Definition tokenTables : OperatorDB := MkOperatorDB None ∅ {[ of_Z 4 := revoked ]}.

Lemma tokenTables_unique : hashesUnique tokenTables.
Proof.
  intros i j a b Ha Hb _. cbn [tokenTables odTokens] in Ha, Hb. apply lookup_singleton_Some in Ha as [<- _], Hb as [<- _]. done.
Qed.
End OperatorExample.

Import Uuid128 AuthoredExample OperatorExample.


(** A revoked token, after another is minted and it is tried again. *)
Lemma Credentials_final_witness :
  let d := opWrites [WriteUse (of_Z 4) 6000; WriteRevoke (of_Z 4) 900000000] tokenTables in
  (odTokens d !! of_Z 4 ≫= otRevokedAt) = Some 5000 ∧
  ∀ p w', Verify theClock alone prompt (MkCredential OperatorTokenForm plaintext) (MkOpWorld d 0 0) ≠ (Ok p, w').
Proof.
  cbn zeta. split; [vm_compute; reflexivity|]. intros p w'.
  apply (Credentials_final theClock alone prompt (MkCredential OperatorTokenForm plaintext) tokenTables 5000
           [WriteUse (of_Z 4) 6000; WriteRevoke (of_Z 4) 900000000]).
  - apply tokenTables_unique.
  - exists (digest plaintext), revoked, 5000. split; [vm_compute; reflexivity|]. split; [|by auto with lia].
    apply tokenByHash_Some; [apply tokenTables_unique|]. exists (of_Z 4). split; [apply lookup_singleton_eq|reflexivity].
  - intros new Hin. apply list_elem_of_In in Hin. destruct Hin as [[=]|[[=]|[]]].
  - reflexivity.
  - vm_compute. done.
Defined.

(** The literal outranks the parameter, in either order of registration. *)
Lemma Router_exact_witness :
  router_ServeHTTP (Surface_router (reverse mount)) noContext (cookieRequest MethodGet "/api/v1/workloads/counts") =
    router_ServeHTTP (Surface_router mount) noContext (cookieRequest MethodGet "/api/v1/workloads/counts") ∧
  router_ServeHTTP (Surface_router mount) noContext (cookieRequest MethodGet "/api/v1/workloads/counts") = Dispatched "getWorkloadCounts" noContext.
Proof.
  split; [|vm_compute; reflexivity].
  destruct (Router_exact (reverse mount) noContext (cookieRequest MethodGet "/api/v1/workloads/counts") "getWorkloadCounts" noContext)
    as [He _]; [apply reverse_Permutation|exact He].
Defined.

(** Asking without a credential, and with a session that is live. *)
Lemma Surface_guarded_witness :
  let l := MkListener newThrottle (MkOpWorld (setSessions {[ digest (RawURLEncoding_EncodeToString secret) :=
             MkSession (digest (RawURLEncoding_EncodeToString secret)) 0 (10 ^ 15) ]} tables) 0 0) in
  (∀ h c l', Server_Surface 0 0 theClock alone prompt noContext (request MethodGet "/api/v1/me" [] BodyUnreadable) l ≠ (Dispatched h c, l')) ∧
  ∃ p s, (Server_Surface 0 0 theClock alone prompt noContext (cookieRequest MethodGet "/api/v1/me") l).1 =
    router_ServeHTTP (Surface_router mount) (MkContext (Some p) s ∅) (cookieRequest MethodGet "/api/v1/me").
Proof.
  cbn zeta. split.
  - intros h c l' Heq. apply Surface_guarded in Heq as (_ & _ & Hc). destruct (cxPrincipal c).
    + destruct Hc as [_ (v & Hck & _)]. by vm_compute in Hck.
    + destruct Hc as (_ & Hm & _). done.
  - apply Surface_guarded; [done|vm_compute; reflexivity|by left|].
    exists (RawURLEncoding_EncodeToString secret). split; [vm_compute; reflexivity|].
    exists (digest (RawURLEncoding_EncodeToString secret)), (MkSession (digest (RawURLEncoding_EncodeToString secret)) 0 (10 ^ 15)).
    split; [apply HashSessionID_new; apply secret_ok|]. split; [apply lookup_singleton_eq|]. vm_compute. reflexivity.
Defined.
