(* ===== verification/Flows.v ===== *)
(** * The flow store: [internal/flowstore], and the statements of
      [internal/store/db/flows.sql.go], [batch.go] and [copyfrom.go]

    Windows, totals and gaps are tables beside the registry's.  A call is one transaction,
    or one statement, which succeeds, fails, or takes effect although its answer is lost.
    The sums of a rollup are exact numbers that are cast to 64 bits, which is an error out
    of range; a counter of the program is stored as the signed number of its bits. *)

From S2P Require Import Prelude GoStd Netip Wire Uuid Identity Ingest IngestService Enforce Postgres PolicyStore RegistryStore.
From Stdlib Require Import Ascii.
Local Open Scope Z_scope.

(** ** Label snapshots *)

(** [encoding/json] on [map[string]string]: what [Marshal] writes, and what is in the map
    after [Unmarshal], whether or not it fails; and the text of a [jsonb] value as it is
    read back. *)
Class LabelsJSON := {
  json_Marshal : gmap string string → option bytestring;
  json_Unmarshal : bytestring → gmap string string;
  pg_jsonb : bytestring → bytestring;
}.

Definition emptyObject : bytestring := [123; 125].

(** A snapshot of ASCII labels is read as it was written. *)
Definition plainText (s : string) : bool := forallb (λ c, bool_decide (N_of_ascii c < 128)%N) (String.list_ascii_of_string s).
Class LabelsJSONLaws `{LabelsJSON} : Prop := {
  json_empty : json_Unmarshal (pg_jsonb emptyObject) = ∅;
  json_snapshot m : map_Forall (λ k v, plainText k = true ∧ plainText v = true) m →
    ∃ b, json_Marshal m = Some b ∧ json_Unmarshal (pg_jsonb b) = m;
  json_text_nonempty b : b ≠ [] → pg_jsonb b ≠ [];
  json_Marshal_nonempty m b : json_Marshal m = Some b → b ≠ [];
}.

Definition encodeLabels `{LabelsJSON} (labels : gmap string string) : bytestring :=
  if decide (labels = ∅) then emptyObject else default emptyObject (json_Marshal labels).
Definition decodeLabels `{LabelsJSON} (b : bytestring) : gmap string string :=
  if decide (b = []) then ∅ else json_Unmarshal b.

(** ** Peers and keys *)

Definition PeerUnknown : Z := 0.
Definition PeerWorkload : Z := 1.
Definition PeerAddressGroup : Z := 2.

(** [flowstore.Peer]. *)
Record Peer := MkPeer { peKind : Z; peKey : string; peLabels : gmap string string }.
Definition peerOf (p : FlowPeer) : Peer :=
  match p with
  | FlowPeerUnknown k => MkPeer PeerUnknown k ∅
  | FlowPeerWorkload k labels => MkPeer PeerWorkload k labels
  | FlowPeerAddressGroup k => MkPeer PeerAddressGroup k ∅
  end.

(** [TotalsKey]: the peer's kind and key, the port, and the numbers of the enumerations. *)
Definition TotalsKey : Type := Z * string * Z * Z * Z * Z.
Definition Record_Key (r : FlowEntry) : TotalsKey :=
  (peKind (peerOf (fePeer r)), peKey (peerOf (fePeer r)), feDstPort r, Protocol_number (feProtocol r),
   Direction_number (feDirection r), PolicyDecision_number (feDecision r)).

Definition lessKey (a b : TotalsKey) : bool :=
  let '(k1, n1, p1, r1, d1, c1) := a in
  let '(k2, n2, p2, r2, d2, c2) := b in
  if decide (k1 ≠ k2) then bool_decide (k1 < k2)
  else if decide (n1 ≠ n2) then bool_decide (String.le n1 n2)
  else if decide (p1 ≠ p2) then bool_decide (p1 < p2)
  else if decide (r1 ≠ r2) then bool_decide (r1 < r2)
  else if decide (d1 ≠ d2) then bool_decide (d1 < d2)
  else bool_decide (c1 < c2).

(** One record folded into another of its key. *)
Definition mergeRecord (merged r : FlowEntry) : FlowEntry :=
  let conns := u64 (feConnectionCount merged + feConnectionCount r) in
  let size := u64 (feByteCount merged + feByteCount r) in
  let first := if decide (feFirstSeen r < feFirstSeen merged) then feFirstSeen r else feFirstSeen merged in
  let k := if decide (feLastSeen merged ≤ feLastSeen r) then r else merged in
  MkFlowEntry (fePeer k) (feSrcAddress k) (feDstAddress k) (feDstPort merged) (feProtocol merged) (feDirection merged)
    (feDecision merged) (feMatchedRuleID k) conns size first (feLastSeen k) (feProcessName k).

(** The loop of [AggregateTotals], with its index of positions. *)
Definition aggregate (acc : gmap TotalsKey nat * list FlowEntry) (r : FlowEntry) : gmap TotalsKey nat * list FlowEntry :=
  let '(index, out) := acc in
  match index !! Record_Key r with
  | None => (<[Record_Key r := length out]> index, out ++ [r])
  | Some j => (index, alter (λ merged, mergeRecord merged r) j out)
  end.

Definition key_le (a b : FlowEntry) : Prop := lessKey (Record_Key b) (Record_Key a) = false.
#[global] Instance key_le_dec : RelDecision key_le.
Proof. intros a b. unfold key_le. apply _. Defined.

Definition AggregateTotals (records : list FlowEntry) : list FlowEntry :=
  merge_sort key_le (foldl aggregate (∅, []) records).2.

(** ** Tables *)

Section store.
Context `{UUIDLib} `{PgLib} `{LabelsJSON}.

(** [flow_windows]; without its identity, what [InsertFlowWindows] is given. *)
Record flowColumns := MkFlowColumns {
  fcWorkload : UUID; fcStart : Z; fcEnd : Z; fcPeerKind : Z; fcPeerKey : string; fcPeerLabels : bytestring;
  fcSrcAddress : string; fcDstAddress : string; fcDstPort : Z; fcProtocol : Z; fcDirection : Z; fcDecision : Z;
  fcMatchedRuleID : string; fcConnectionCount : Z; fcByteCount : Z; fcFirstSeen : Z; fcLastSeen : Z; fcProcessName : string;
}.
Record flowRow := MkFlowRow { flID : Z; flColumns : flowColumns }.

Record totalRow := MkTotalRow {
  toPeerLabels : bytestring; toMatchedRuleID : string; toFirstSeen : Z; toLastSeen : Z; toConnectionCount : Z; toByteCount : Z;
  toWindowCount : Z;
}.

Record gapRow := MkGapRow { gpID : Z; gpWorkload : UUID; gpKey : gapKey; gpLost : option Z; gpReceivedAt : Z }.

(** [fdKnown] are the workloads a row may refer to. *)
Record FlowDB := MkFlowDB {
  fdKnown : gset UUID; fdWindows : list flowRow; fdNextWindow : Z; fdTotals : gmap (UUID * TotalsKey) totalRow;
  fdGaps : list gapRow; fdNextGap : Z;
}.

Inductive FlowError := FlowFailure | ErrUnknownGroupBy.
Abbreviation FBody A := (FlowDB → result FlowError (A * FlowDB)).

Definition flowCall {A} (ans : Answer) (body : FBody A) (d : FlowDB) : result FlowError A * FlowDB :=
  match ans with
  | Fails => (Err FlowFailure, d)
  | Answers => match body d with Ok (a, d') => (Ok a, d') | Err e => (Err e, d) end
  | AnswerLost => match body d with Ok (_, d') => (Err FlowFailure, d') | Err e => (Err e, d) end
  end.

(** ** Writing *)

Definition columnsOf (w : FlowWindow) (r : FlowEntry) : flowColumns :=
  let p := peerOf (fePeer r) in
  MkFlowColumns (wid (fwWorkload w)) (pgTime (fwStart w)) (pgTime (fwEnd w)) (peKind p) (peKey p) (pg_jsonb (encodeLabels (peLabels p)))
    (Addr_String (feSrcAddress r)) (Addr_String (feDstAddress r)) (feDstPort r) (Protocol_number (feProtocol r))
    (Direction_number (feDirection r)) (PolicyDecision_number (feDecision r)) (feMatchedRuleID r)
    (i64 (feConnectionCount r)) (i64 (feByteCount r)) (pgTime (feFirstSeen r)) (pgTime (feLastSeen r)) (feProcessName r).

(** The constraints of [flow_windows]. *)
Definition windowCheck (known : gset UUID) (c : flowColumns) : bool :=
  bool_decide (fcWorkload c ∈ known) && bool_decide (fcStart c ≤ fcEnd c) && bool_decide (0 ≤ fcDstPort c ≤ 65535).

Fixpoint numberRows (next : Z) (cs : list flowColumns) : list flowRow :=
  match cs with [] => [] | c :: cs' => MkFlowRow next c :: numberRows (next + 1) cs' end.

Definition sql_InsertFlowWindows (cs : list flowColumns) : FBody Z := λ d,
  if forallb (windowCheck (fdKnown d)) cs then
    Ok (Z.of_nat (length cs),
        MkFlowDB (fdKnown d) (fdWindows d ++ numberRows (fdNextWindow d) cs) (fdNextWindow d + Z.of_nat (length cs)) (fdTotals d)
          (fdGaps d) (fdNextGap d))
  else Err FlowFailure.

Definition isBigint (n : Z) : bool := bool_decide (- 2 ^ 63 ≤ n < 2 ^ 63).

(** [INSERT ... ON CONFLICT ... DO UPDATE]; a sum that leaves 64 bits is an error. *)
Definition upsertTotal (old : option totalRow) (labels : bytestring) (rule : string) (first last conns size : Z) : option totalRow :=
  match old with
  | None => Some (MkTotalRow labels rule first last conns size 1)
  | Some t =>
      let conns := toConnectionCount t + conns in let size := toByteCount t + size in
      if isBigint conns && isBigint size && isBigint (toWindowCount t + 1)
      then Some (MkTotalRow labels rule (Z.min (toFirstSeen t) first) (Z.max (toLastSeen t) last) conns size (toWindowCount t + 1))
      else None
  end.

Definition sql_UpsertFlowTotal (w : UUID) (r : FlowEntry) : FBody () := λ d,
  if decide (w ∉ fdKnown d) then Err FlowFailure else
  match upsertTotal (fdTotals d !! (w, Record_Key r)) (pg_jsonb (encodeLabels (peLabels (peerOf (fePeer r))))) (feMatchedRuleID r)
          (pgTime (feFirstSeen r)) (pgTime (feLastSeen r)) (i64 (feConnectionCount r)) (i64 (feByteCount r)) with
  | None => Err FlowFailure
  | Some t => Ok ((), MkFlowDB (fdKnown d) (fdWindows d) (fdNextWindow d) (<[(w, Record_Key r) := t]> (fdTotals d)) (fdGaps d) (fdNextGap d))
  end.

(** A batch stops at its first error, which fails its transaction. *)
Fixpoint flowBatch {A} (stmt : A → FBody ()) (l : list A) : FBody () := λ d,
  match l with
  | [] => Ok ((), d)
  | x :: l' => '(_, d) ← stmt x d; flowBatch stmt l' d
  end.

(** [ON CONFLICT DO NOTHING]; [serverNow] is the [now()] of the server. *)
Definition sql_InsertFlowGap (serverNow : Z) (id : WorkloadID) (g : FlowGap) : FBody () := λ d,
  let key := MkGapKey (fgKind g) (fgSource g) (pgTime (fgFrom g)) (pgTime (fgTo g)) in
  if gapCheck g && bool_decide (wid id ∈ fdKnown d) then
    if decide (Exists (λ r, gpWorkload r = wid id ∧ gpKey r = key) (fdGaps d)) then Ok ((), d)
    else Ok ((), MkFlowDB (fdKnown d) (fdWindows d) (fdNextWindow d) (fdTotals d)
                   (fdGaps d ++ [MkGapRow (fdNextGap d) (wid id) key (i64 <$> fgCount g) serverNow]) (fdNextGap d + 1))
  else Err FlowFailure.

Definition flow_writeGaps (serverNow : Z) (id : WorkloadID) (gaps : list FlowGap) : FBody () := flowBatch (sql_InsertFlowGap serverNow id) gaps.

(** [WriteWindow]: one transaction, or nothing to do. *)
Definition writeWindow (serverNow : Z) (w : FlowWindow) : FBody Z := λ d,
  '(_, d) ← flow_writeGaps serverNow (fwWorkload w) (fwGaps w) d;
  if decide (fwRecords w = []) then Ok (0, d) else
  '(n, d) ← sql_InsertFlowWindows (columnsOf w <$> fwRecords w) d;
  '(_, d) ← flowBatch (sql_UpsertFlowTotal (wid (fwWorkload w))) (AggregateTotals (fwRecords w)) d;
  Ok (n, d).
Definition WriteWindow (ans : Answer) (serverNow : Z) (w : FlowWindow) (d : FlowDB) : result FlowError Z * FlowDB :=
  if decide (fwRecords w = [] ∧ fwGaps w = []) then (Ok 0, d) else flowCall ans (writeWindow serverNow w) d.

(** [WriteGaps]: a batch outside a transaction is one. *)
Definition WriteGaps (ans : Answer) (serverNow : Z) (id : WorkloadID) (gaps : list FlowGap) (d : FlowDB) : result FlowError () * FlowDB :=
  if decide (gaps = []) then (Ok (), d) else flowCall ans (flow_writeGaps serverNow id gaps) d.

(** ** Retention *)

Definition pruneBatchSize : nat := Z.to_nat 5000.

(** [DELETE ... WHERE id IN (SELECT ... ORDER BY ... LIMIT ...)]: the oldest. *)
Definition oldest_le {A} (age : A → Z) (a b : A) : Prop := age a ≤ age b.
#[global] Instance oldest_le_dec {A} (age : A → Z) : RelDecision (oldest_le age).
Proof. intros a b. unfold oldest_le. apply _. Defined.
Definition oldestIDs {A} (id age : A → Z) (horizon : Z) (limit : nat) (rows : list A) : list Z :=
  id <$> take limit (merge_sort (oldest_le age) (filter (λ r, age r < horizon) rows)).

Definition sql_DeleteFlowWindowsBefore (horizon : Z) (batch : nat) : FBody nat := λ d,
  let ids := oldestIDs flID (λ r, fcStart (flColumns r)) (pgTime horizon) batch (fdWindows d) in
  Ok (length (filter (λ r, flID r ∈ ids) (fdWindows d)),
      MkFlowDB (fdKnown d) (filter (λ r, flID r ∉ ids) (fdWindows d)) (fdNextWindow d) (fdTotals d) (fdGaps d) (fdNextGap d)).
Definition sql_DeleteFlowGapsBefore (horizon : Z) (batch : nat) : FBody nat := λ d,
  let ids := oldestIDs gpID (λ r, gkTo (gpKey r)) (pgTime horizon) batch (fdGaps d) in
  Ok (length (filter (λ r, gpID r ∈ ids) (fdGaps d)),
      MkFlowDB (fdKnown d) (fdWindows d) (fdNextWindow d) (fdTotals d) (filter (λ r, gpID r ∉ ids) (fdGaps d)) (fdNextGap d)).

(** One batch: whether the lock is held, and then what the transaction's answer is. *)
Inductive BatchResult := BatchUnheld | BatchFailed | BatchDone (windows gaps : nat).
Definition pruneBatch (held : bool) (ans : Answer) (horizon : Z) (d : FlowDB) : BatchResult * FlowDB :=
  if held then
    match flowCall ans (λ d, '(windows, d) ← sql_DeleteFlowWindowsBefore horizon pruneBatchSize d;
                             '(gaps, d) ← sql_DeleteFlowGapsBefore horizon pruneBatchSize d;
                             Ok ((windows, gaps), d)) d with
    | (Ok (windows, gaps), d) => (BatchDone windows gaps, d)
    | (Err _, d) => (BatchFailed, d)
    end
  else match ans with Answers => (BatchUnheld, d) | _ => (BatchFailed, d) end.

(** The loop of [PruneWindows]: what was deleted, whether it ran, and whether it failed.
    Each batch has its own lock, answer and other writers before it. *)
Fixpoint pruneLoop (fuel : nat) (held : nat → bool) (answers : nat → Answer) (others : nat → FlowDB → FlowDB)
  (horizon : Z) (total : nat) (n : nat) (d : FlowDB) : option (nat * bool * bool) * FlowDB :=
  match fuel with
  | O => (None, d)
  | S fuel =>
      match pruneBatch (held n) (answers n) horizon (others n d) with
      | (BatchFailed, d) => (Some (total, true, true), d)
      | (BatchUnheld, d) => (Some (total, bool_decide (0 < total)%nat, false), d)
      | (BatchDone windows gaps, d) =>
          let total := (total + windows)%nat in
          if decide (windows < pruneBatchSize ∧ gaps < pruneBatchSize)%nat then (Some (total, true, false), d)
          else pruneLoop fuel held answers others horizon total (S n) d
      end
  end.
Definition PruneWindows (fuel : nat) (held : nat → bool) (answers : nat → Answer) (others : nat → FlowDB → FlowDB) (horizon : Z) (d : FlowDB)
  : option (nat * bool * bool) * FlowDB := pruneLoop fuel held answers others horizon 0 0 d.

Definition DefaultRetention : Z := 30 * 24 * 3600 * 10 ^ 9.
Definition retentionHorizon (configured : Z) : Z := if decide (0 < configured) then configured else DefaultRetention.
Definition RunOnce (configured now : Z) (fuel : nat) (held : nat → bool) (answers : nat → Answer) (others : nat → FlowDB → FlowDB) (d : FlowDB)
  : option (nat * bool * bool) * FlowDB := PruneWindows fuel held answers others (now - retentionHorizon configured) d.
End store.
