(* ===== verification/FlowReads.v ===== *)
(** * Reading the flow store: listings, pages and grouped rollups
      ([internal/flowstore/groups.go], [postgres.go], [postgres_groups.go])

    A statement reads the tables as one state.  Every grouping is one statement of its own;
    their keys are columns of one record here, constant in the columns a grouping leaves
    out, so that one order and one aggregation serve the five. *)

From S2P Require Import Prelude GoStd Strconv Netip Wire Uuid Identity Ingest IngestService Enforce Postgres PolicyStore RegistryStore Flows.
From Stdlib Require Import Ascii.
Local Open Scope Z_scope.

(** ** Names and bounds *)

Inductive GroupBy := GroupByRule | GroupByRulePeer | GroupBySrcDst | GroupByDstService | GroupByPeerService.
#[global] Instance GroupBy_eq_dec : EqDecision GroupBy.
Proof. solve_decision. Defined.
Definition GroupBys : list GroupBy := [GroupByRule; GroupByRulePeer; GroupBySrcDst; GroupByDstService; GroupByPeerService].
Definition groupName (g : GroupBy) : string :=
  match g with
  | GroupByRule => "rule" | GroupByRulePeer => "rule,peer" | GroupBySrcDst => "src,dst"
  | GroupByDstService => "dst,service" | GroupByPeerService => "peer,service"
  end.

Definition ParseGroupBy (s : string) : option GroupBy :=
  let joined := Join ((λ p, lowerName (TrimSpace p)) <$> Split s ",") "," in
  snd <$> list_find (λ g, groupName g = joined) GroupBys.

(** The default is [dst]. *)
Definition ParseEndpoint (s : string) : option string :=
  let e := lowerName (TrimSpace s) in
  if decide (e = "") then Some "dst"%string else if decide (e = "dst" ∨ e = "either") then Some e else None.

Definition DefaultGroupLimit : Z := 200.
Definition MaxGroupLimit : Z := 1000.
Definition DefaultPageLimit : Z := 100.
Definition MaxPageLimit : Z := 500.
Definition boundedGroupLimit (n : Z) : Z :=
  if decide (n ≤ 0) then DefaultGroupLimit else if decide (MaxGroupLimit < n) then MaxGroupLimit else n.
Definition boundedPageLimit (n : Z) : Z :=
  if decide (n ≤ 0) then DefaultPageLimit else if decide (MaxPageLimit < n) then MaxPageLimit else n.

(** The aggregates of a statement. *)
Definition sumOf {A} (f : A → Z) (l : list A) : Z := foldr (λ a n, f a + n) 0 l.
Definition minOf {A} (f : A → Z) (l : list A) : Z := match l with [] => 0 | a :: l => foldr (λ a n, Z.min (f a) n) (f a) l end.
Definition maxOf {A} (f : A → Z) (l : list A) : Z := match l with [] => 0 | a :: l => foldr (λ a n, Z.max (f a) n) (f a) l end.

Section reads.
Context `{UUIDLib} `{PgLib} `{LabelsJSON}.

(** ** Windows *)

Record WindowRow := MkWindowRow {
  wrID : Z; wrWorkload : WorkloadID; wrStart : Z; wrEnd : Z; wrPeer : Peer; wrSrcAddress : option Addr; wrDstAddress : option Addr;
  wrDstPort : Z; wrProtocol : Protocol; wrDirection : Direction; wrDecision : Z; wrMatchedRuleID : string;
  wrConnectionCount : Z; wrByteCount : Z; wrFirstSeen : Z; wrLastSeen : Z; wrProcessName : string;
}.

(** An address that does not parse is the zero one. *)
Definition windowRowFromDB (r : flowRow) : WindowRow :=
  let c := flColumns r in
  MkWindowRow (flID r) (FromUUID (fcWorkload c)) (fcStart c) (fcEnd c) (MkPeer (fcPeerKind c) (fcPeerKey c) (decodeLabels (fcPeerLabels c)))
    (ParseAddr (fcSrcAddress c)) (ParseAddr (fcDstAddress c)) (u16 (fcDstPort c)) (Protocol_of (fcProtocol c))
    (Direction_of (fcDirection c)) (fcDecision c) (fcMatchedRuleID c) (u64 (fcConnectionCount c)) (u64 (fcByteCount c))
    (fcFirstSeen c) (fcLastSeen c) (fcProcessName c).

(** [ORDER BY window_start DESC, id DESC]. *)
Definition newest (a b : flowRow) : Prop :=
  fcStart (flColumns b) < fcStart (flColumns a) ∨ fcStart (flColumns a) = fcStart (flColumns b) ∧ flID b ≤ flID a.
#[global] Instance newest_dec : RelDecision newest.
Proof. intros a b. unfold newest. apply _. Defined.

(** A zero filter means any. *)
Definition anyOr (want got : Z) : bool := bool_decide (want = 0) || bool_decide (got = want).
Definition inRange (since until : Z) (c : flowColumns) : bool :=
  bool_decide (pgTime since ≤ fcStart c) && bool_decide (fcStart c < pgTime until).
Definition service (protocol port : Z) (c : flowColumns) : bool :=
  bool_decide (protocol = 0) || (bool_decide (fcProtocol c = protocol) && bool_decide (fcDstPort c = port)).

(** A limit of the caller is 32 bits of a statement; [LIMIT] of a negative number is an
    error. *)
Definition limited {A B} (f : A → B) (limit : Z) (l : list A) : result FlowError (list B) :=
  let limit := i32 (if decide (limit ≤ 0) then 200 else limit) in
  if decide (limit < 0) then Err FlowFailure else Ok (f <$> take (Z.to_nat limit) l).

Definition sql_ListFlowWindows (workload : UUID) (since until decision : Z) (d : FlowDB) : list flowRow :=
  merge_sort newest (filter (λ r, let c := flColumns r in
    bool_decide (fcWorkload c = workload) && inRange since until c && anyOr decision (fcDecision c) = true) (fdWindows d)).
Definition ListWindows (workload : WorkloadID) (since until decision limit : Z) (d : FlowDB) : result FlowError (list WindowRow) :=
  limited windowRowFromDB limit (sql_ListFlowWindows (wid workload) since until decision d).

Record WindowCursor := MkWindowCursor { wcStart : Z; wcID : Z }.
Record WindowPageQuery := MkWindowPageQuery {
  wqWorkload : WorkloadID; wqSince : Z; wqUntil : Z; wqDecision : Z; wqDirection : Z; wqPeerKey : string; wqProtocol : Z; wqDstPort : Z;
  wqLimit : Z;
}.

Definition pageSelects (q : WindowPageQuery) (c : flowColumns) : bool :=
  bool_decide (fcWorkload c = wid (wqWorkload q)) && inRange (wqSince q) (wqUntil q) c &&
  anyOr (wqDecision q) (fcDecision c) && anyOr (wqDirection q) (fcDirection c) &&
  (bool_decide (wqPeerKey q = ""%string) || bool_decide (fcPeerKey c = wqPeerKey q)) && service (wqProtocol q) (wqDstPort q) c.

Definition beyond (cursor : WindowCursor) (r : flowRow) : bool :=
  let start := pgTime (wcStart cursor) in
  bool_decide (fcStart (flColumns r) < start) || (bool_decide (fcStart (flColumns r) = start) && bool_decide (flID r < wcID cursor)).

(** [time.Unix(math.MaxInt32, 0)] and [math.MaxInt64]. *)
Definition firstCursor : WindowCursor := MkWindowCursor ((2 ^ 31 - 1) * 10 ^ 9) (2 ^ 63 - 1).

Definition sql_ListFlowWindowPage (q : WindowPageQuery) (cursor : WindowCursor) (limit : Z) (d : FlowDB) : list flowRow :=
  take (Z.to_nat limit) (merge_sort newest (filter (λ r, pageSelects q (flColumns r) && beyond cursor r = true) (fdWindows d))).
Definition ListWindowPage (q : WindowPageQuery) (before : option WindowCursor) (d : FlowDB) : list WindowRow :=
  windowRowFromDB <$> sql_ListFlowWindowPage q (default firstCursor before) (boundedPageLimit (wqLimit q)) d.

(** ** Totals and gaps *)

(** [ORDER BY last_seen DESC, peer_kind, peer_key, dst_port, protocol, decision]. *)
Definition totals_le (a b : UUID * TotalsKey * totalRow) : Prop :=
  let '(_, (k1, n1, p1, r1, _, c1), t1) := a in
  let '(_, (k2, n2, p2, r2, _, c2), t2) := b in
  if decide (toLastSeen t1 = toLastSeen t2) then
    if decide (k1 = k2) then
      if decide (n1 = n2) then
        if decide (p1 = p2) then if decide (r1 = r2) then c1 ≤ c2 else r1 ≤ r2 else p1 ≤ p2
      else pgText_le n1 n2
    else k1 ≤ k2
  else toLastSeen t2 ≤ toLastSeen t1.
#[global] Instance totals_le_dec : RelDecision totals_le.
Proof.
  intros [[u1 [[[[[k1 n1] p1] r1] d1] c1]] t1] [[u2 [[[[[k2 n2] p2] r2] d2] c2]] t2]. unfold totals_le.
  repeat (destruct (decide _); try apply _).
Defined.

(** [Total]. *)
Record Total := MkTotal {
  ttWorkload : WorkloadID; ttPeer : Peer; ttDstPort : Z; ttProtocol : Protocol; ttDirection : Direction; ttDecision : Z;
  ttMatchedRuleID : string; ttFirstSeen : Z; ttLastSeen : Z; ttConnectionCount : Z; ttByteCount : Z; ttWindowCount : Z;
}.
Definition totalFromDB (p : UUID * TotalsKey * totalRow) : Total :=
  let '(w, (kind, key, port, protocol, direction, decision), t) := p in
  MkTotal (FromUUID w) (MkPeer kind key (decodeLabels (toPeerLabels t))) (u16 port) (Protocol_of protocol) (Direction_of direction) decision
    (toMatchedRuleID t) (toFirstSeen t) (toLastSeen t) (u64 (toConnectionCount t)) (u64 (toByteCount t)) (u64 (toWindowCount t)).

Definition sql_ListFlowTotals (workload : UUID) (decision : Z) (d : FlowDB) : list (UUID * TotalsKey * totalRow) :=
  merge_sort totals_le
    (filter (λ p : UUID * TotalsKey * totalRow, bool_decide (p.1.1 = workload) && anyOr decision (p.1.2).2 = true)
       (map_to_list (fdTotals d))).
Definition ListTotals (workload : WorkloadID) (decision : Z) (d : FlowDB) : list Total :=
  totalFromDB <$> sql_ListFlowTotals (wid workload) decision d.

(** [ORDER BY gap_from DESC, id DESC]. *)
Definition newestGap (a b : gapRow) : Prop :=
  gkFrom (gpKey b) < gkFrom (gpKey a) ∨ gkFrom (gpKey a) = gkFrom (gpKey b) ∧ gpID b ≤ gpID a.
#[global] Instance newestGap_dec : RelDecision newestGap.
Proof. intros a b. unfold newestGap. apply _. Defined.

Definition anyWorkload (ids : list WorkloadID) (w : UUID) : bool := bool_decide (ids = []) || bool_decide (w ∈ (wid <$> ids)).
Definition gapSelected (ids : list WorkloadID) (since until : Z) (r : gapRow) : bool :=
  let g := gpKey r in
  anyWorkload ids (gpWorkload r) && bool_decide (gkFrom g < pgTime until) &&
  (bool_decide (pgTime since < gkTo g) || (bool_decide (gkFrom g = gkTo g) && bool_decide (pgTime since ≤ gkFrom g))).
Definition sql_ListFlowGaps (ids : list WorkloadID) (since until : Z) (d : FlowDB) : list gapRow :=
  merge_sort newestGap (filter (λ r, gapSelected ids since until r = true) (fdGaps d)).
Definition ListGaps (ids : list WorkloadID) (since until limit : Z) (d : FlowDB) : result FlowError (list gapRow) :=
  limited (λ r, MkGapRow (gpID r) (gpWorkload r) (gpKey r) (u64 <$> gpLost r) (gpReceivedAt r)) limit
    (sql_ListFlowGaps ids since until d).

(** ** Grouped rollups *)

(** The columns of a group's key; a grouping sets those it names. *)
Record GroupKey := MkGroupKey {
  gkRule : string; gkPeerKind : Z; gkPeerKey : string; gkWorkload : option UUID; gkDstPort : Z; gkProtocol : Z;
}.
#[global] Instance GroupKey_eq_dec : EqDecision GroupKey.
Proof. solve_decision. Defined.

Definition groupKey (g : GroupBy) (c : flowColumns) : GroupKey :=
  match g with
  | GroupByRule => MkGroupKey (fcMatchedRuleID c) 0 "" None 0 0
  | GroupByRulePeer => MkGroupKey (fcMatchedRuleID c) (fcPeerKind c) (fcPeerKey c) None 0 0
  | GroupBySrcDst => MkGroupKey "" (fcPeerKind c) (fcPeerKey c) (Some (fcWorkload c)) 0 0
  | GroupByDstService => MkGroupKey "" 0 "" (Some (fcWorkload c)) (fcDstPort c) (fcProtocol c)
  | GroupByPeerService => MkGroupKey "" (fcPeerKind c) (fcPeerKey c) None (fcDstPort c) (fcProtocol c)
  end.

Record GroupQuery := MkGroupQuery {
  gqGroupBy : string; gqWorkloads : list WorkloadID; gqEndpoint : string; gqSince : Z; gqUntil : Z; gqDecision : Z; gqDirection : Z;
  gqProtocol : Z; gqDstPort : Z; gqOrder : string; gqLimit : Z;
}.

(** The [WHERE] that the five statements share. *)
Definition rollupSelects (q : GroupQuery) (c : flowColumns) : bool :=
  (anyWorkload (gqWorkloads q) (fcWorkload c) ||
   (bool_decide (gqEndpoint q = "either"%string) && bool_decide (fcPeerKind c = 1) && bool_decide (fcPeerKey c ∈ (WorkloadID_String <$> gqWorkloads q)))) &&
  inRange (gqSince q) (gqUntil q) c && anyOr (gqDecision q) (fcDecision c) && anyOr (gqDirection q) (fcDirection c) &&
  service (gqProtocol q) (gqDstPort q) c.

(** The label snapshot of the latest record; of several, any. *)
Definition latest_le (a b : flowColumns) : Prop := fcLastSeen b ≤ fcLastSeen a.
#[global] Instance latest_le_dec : RelDecision latest_le.
Proof. intros a b. unfold latest_le. apply _. Defined.
Definition latestLabels (cs : list flowColumns) : bytestring := default [] (fcPeerLabels <$> head (merge_sort latest_le cs)).

(** A row of a statement's result before the window aggregates. *)
Record groupRow (K : Type) := MkGroupRow {
  grKey : K; grLabels : bytestring; grWorkloads : Z; grFlows : Z; grConnections : Z; grBytes : Z; grFirst : Z; grLast : Z;
}.
#[global] Arguments MkGroupRow {K}.
#[global] Arguments grKey {K}.
#[global] Arguments grLabels {K}.
#[global] Arguments grWorkloads {K}.
#[global] Arguments grFlows {K}.
#[global] Arguments grConnections {K}.
#[global] Arguments grBytes {K}.
#[global] Arguments grFirst {K}.
#[global] Arguments grLast {K}.
Definition groupOf {K} (key : K) (cs : list flowColumns) : groupRow K :=
  MkGroupRow key (latestLabels cs) (Z.of_nat (length (remove_dups (fcWorkload <$> cs)))) (Z.of_nat (length cs))
    (sumOf fcConnectionCount cs) (sumOf fcByteCount cs) (minOf fcFirstSeen cs) (maxOf fcLastSeen cs).

(** [GROUP BY]. *)
Definition groupRows `{EqDecision K} (keyOf : flowColumns → K) (cs : list flowColumns) : list (groupRow K) :=
  (λ key, groupOf key (filter (λ c, keyOf c = key) cs)) <$> remove_dups (keyOf <$> cs).

(** The order of the keys' columns, as each statement names them. *)
Definition uuid_opt_le (a b : option UUID) : Prop :=
  match a, b with Some a, Some b => uuid_le a b | Some _, None => False | None, _ => True end.
#[global] Instance uuid_opt_le_dec : RelDecision uuid_opt_le.
Proof. intros [a|] [b|]; cbn; apply _. Defined.
Definition keys_le (a b : GroupKey) : Prop :=
  if decide (gkRule a = gkRule b) then
    if decide (gkPeerKind a = gkPeerKind b) then
      if decide (gkPeerKey a = gkPeerKey b) then
        if decide (gkWorkload a = gkWorkload b) then
          if decide (gkDstPort a = gkDstPort b) then gkProtocol a ≤ gkProtocol b else gkDstPort a ≤ gkDstPort b
        else uuid_opt_le (gkWorkload a) (gkWorkload b)
      else pgText_le (gkPeerKey a) (gkPeerKey b)
    else gkPeerKind a ≤ gkPeerKind b
  else pgText_le (gkRule a) (gkRule b).
#[global] Instance keys_le_dec : RelDecision keys_le.
Proof. intros a b. unfold keys_le. repeat (destruct (decide _); try apply _). Defined.

(** [ORDER BY CASE WHEN $9 = 'recent' THEN max(last_seen) END DESC NULLS LAST,
    sum(connection_count) DESC, ...]. *)
Definition rank_le (recent : bool) (a b : groupRow GroupKey) : Prop :=
  if decide (recent = true ∧ grLast a ≠ grLast b) then grLast b ≤ grLast a
  else if decide (grConnections a = grConnections b) then keys_le (grKey a) (grKey b)
  else grConnections b ≤ grConnections a.
#[global] Instance rank_le_dec recent : RelDecision (rank_le recent).
Proof. intros a b. unfold rank_le. repeat (destruct (decide _); try apply _). Defined.

Record Group := MkGroup {
  goRuleID : string; goPeer : Peer; goWorkload : option UUID; goDstPort : Z; goProtocol : Protocol;
  goWorkloadCount : Z; goFlowCount : Z; goConnectionCount : Z; goByteCount : Z; goFirstSeen : Z; goLastSeen : Z;
}.
Record GroupResult := MkGroupResult {
  gsGroups : list Group; gsEffective : option (Z * Z); gsGroupCount : Z; gsFlowCount : Z; gsConnectionCount : Z; gsByteCount : Z;
}.
Definition Truncated (r : GroupResult) : bool := bool_decide (Z.of_nat (length (gsGroups r)) < gsGroupCount r).

(** A stored counter that is negative is read as none. *)
Definition unsigned (n : Z) : Z := if decide (n < 0) then 0 else n.

(** Which columns of a row a grouping fills in. *)
Definition groupFromRow (g : GroupBy) (r : groupRow GroupKey) : Group :=
  let k := grKey r in
  let named := match g with GroupByRulePeer | GroupBySrcDst | GroupByPeerService => true | _ => false end in
  let counted := match g with GroupByRule | GroupByPeerService => true | _ => false end in
  MkGroup (gkRule k) (MkPeer (gkPeerKind k) (gkPeerKey k) (if named : bool then decodeLabels (grLabels r) else ∅)) (gkWorkload k)
    (u16 (gkDstPort k)) (Protocol_of (gkProtocol k)) (if counted : bool then grWorkloads r else 0) (grFlows r)
    (unsigned (grConnections r)) (unsigned (grBytes r)) (grFirst r) (grLast r).

(** The statement of a grouping; a sum out of 64 bits fails it. *)
Definition rollupBy (g : GroupBy) (q : GroupQuery) (d : FlowDB) : result FlowError GroupResult :=
  let cs := filter (λ c, rollupSelects q c = true) (flColumns <$> fdWindows d) in
  let rows := groupRows (groupKey g) cs in
  let conns := sumOf fcConnectionCount cs in let size := sumOf fcByteCount cs in
  if forallb (λ r, isBigint (grConnections r) && isBigint (grBytes r)) rows && isBigint conns && isBigint size then
    let served := take (Z.to_nat (boundedGroupLimit (gqLimit q))) (merge_sort (rank_le (bool_decide (gqOrder q = "recent"%string))) rows) in
    let groups := groupFromRow g <$> served in
    Ok (if decide (served = []) then MkGroupResult groups None 0 0 0 0
        else MkGroupResult groups (Some (minOf fcStart cs, maxOf fcEnd cs)) (Z.of_nat (length rows)) (Z.of_nat (length cs))
               (unsigned conns) (unsigned size))
  else Err FlowFailure.

Definition sql_RollupFlowsByRule : GroupQuery → FlowDB → result FlowError GroupResult := rollupBy GroupByRule.
Definition sql_RollupFlowsByRulePeer : GroupQuery → FlowDB → result FlowError GroupResult := rollupBy GroupByRulePeer.
Definition sql_RollupFlowsBySrcDst : GroupQuery → FlowDB → result FlowError GroupResult := rollupBy GroupBySrcDst.
Definition sql_RollupFlowsByDstService : GroupQuery → FlowDB → result FlowError GroupResult := rollupBy GroupByDstService.
Definition sql_RollupFlowsByPeerService : GroupQuery → FlowDB → result FlowError GroupResult := rollupBy GroupByPeerService.

Definition RollupGroups (q : GroupQuery) (d : FlowDB) : result FlowError GroupResult :=
  match list_find (λ g, groupName g = gqGroupBy q) GroupBys with
  | Some (_, GroupByRule) => sql_RollupFlowsByRule q d
  | Some (_, GroupByRulePeer) => sql_RollupFlowsByRulePeer q d
  | Some (_, GroupBySrcDst) => sql_RollupFlowsBySrcDst q d
  | Some (_, GroupByDstService) => sql_RollupFlowsByDstService q d
  | Some (_, GroupByPeerService) => sql_RollupFlowsByPeerService q d
  | None => Err ErrUnknownGroupBy
  end.

(** [Rollup], by peer, service and decision; [ANY] of no workload selects none. *)
Definition PairKey : Type := Z * string * Z * Z * Z.
Definition pairKey (c : flowColumns) : PairKey := (fcPeerKind c, fcPeerKey c, fcDstPort c, fcProtocol c, fcDecision c).
Definition pair_le (a b : groupRow PairKey) : Prop :=
  let '(k1, n1, p1, r1, c1) := grKey a in
  let '(k2, n2, p2, r2, c2) := grKey b in
  if decide (grConnections a = grConnections b) then
    if decide (k1 = k2) then
      if decide (n1 = n2) then if decide (p1 = p2) then if decide (r1 = r2) then c1 ≤ c2 else r1 ≤ r2 else p1 ≤ p2
      else pgText_le n1 n2
    else k1 ≤ k2
  else grConnections b ≤ grConnections a.
#[global] Instance pair_le_dec : RelDecision pair_le.
Proof.
  intros [[[[[k1 n1] p1] r1] c1] ? ? ? ? ? ? ?] [[[[[k2 n2] p2] r2] c2] ? ? ? ? ? ? ?]. unfold pair_le. cbn [grKey].
  repeat (destruct (decide _); try apply _).
Defined.

Record RollupRow := MkRollupRow {
  rowPeer : Peer; rowDstPort : Z; rowProtocol : Protocol; rowDecision : Z; rowWorkloads : Z; rowConnectionCount : Z; rowByteCount : Z;
  rowFirstSeen : Z; rowLastSeen : Z;
}.
Definition rollupFromRow (r : groupRow PairKey) : RollupRow :=
  let '(kind, key, port, protocol, decision) := grKey r in
  MkRollupRow (MkPeer kind key ∅) (u16 port) (Protocol_of protocol) decision (grWorkloads r) (u64 (grConnections r)) (u64 (grBytes r))
    (grFirst r) (grLast r).
Definition sql_RollupFlowWindows (workloads : list UUID) (since until decision : Z) (d : FlowDB) : result FlowError (list (groupRow PairKey)) :=
  let cs := filter (λ c, bool_decide (fcWorkload c ∈ workloads) && inRange since until c && anyOr decision (fcDecision c) = true)
              (flColumns <$> fdWindows d) in
  let rows := groupRows pairKey cs in
  if forallb (λ r, isBigint (grConnections r) && isBigint (grBytes r)) rows then Ok (merge_sort pair_le rows) else Err FlowFailure.
Definition Rollup (workloads : list WorkloadID) (since until decision : Z) (d : FlowDB) : result FlowError (list RollupRow) :=
  match sql_RollupFlowWindows (wid <$> workloads) since until decision d with
  | Ok rows => Ok (rollupFromRow <$> rows)
  | Err e => Err e
  end.
End reads.
