(* ===== verification/ReadModel.v ===== *)
(** * The read model: [internal/readmodel]

    What the operator's reads answer, over the registry's reads and the flow store.  Both are
    read by several statements of their own, so what each of them answers is given
    separately; a [Reader] carries the answers of the registry's store during one request.
    A zero instant of a request is [None]. *)

From S2P Require Import Prelude GoStd Strconv Netip Wire Uuid Identity Sha256 Rendered Registry Policy Validate Ingest IngestService Enroll Token Enforce Postgres PolicyStore RegistryStore Flows FlowReads.
From Stdlib Require Import Ascii.
Local Open Scope Z_scope.

(** ** Cursors *)

Definition bytes_string (bs : list Z) : string := String.string_of_list_ascii ((λ b, ascii_of_N (Z.to_N b)) <$> bs).

Definition encodeCursor (parts : list string) : string := RawURLEncoding_EncodeToString (string_bytes (Join parts "|")).

(** The parts after the kind, [n] of them. *)
Definition decodeCursor (token kind : string) (n : nat) : option (list string) :=
  raw ← RawURLEncoding_DecodeString token;
  match Split (bytes_string raw) "|" with
  | k :: parts => if decide (length parts = n ∧ k = kind) then Some parts else None
  | [] => None
  end.

(** [cursorTime]: an instant in nanoseconds. *)
Definition cursorTime (s : string) : option Z := ParseInt 64 s.

Definition flowsCursorKind : string := "f1".
Definition encodeFlowsCursor (c : WindowCursor) : string := encodeCursor [flowsCursorKind; FormatInt (i64 (wcStart c)); FormatInt (wcID c)].
(** The cursor of a token; an empty one is none. *)
Definition decodeFlowsCursor (token : string) : option (option WindowCursor) :=
  if decide (token = "") then Some None else
  parts ← decodeCursor token flowsCursorKind 2;
  match parts with
  | [start; id] => start ← cursorTime start; id ← ParseInt 64 id; Some (Some (MkWindowCursor start id))
  | _ => None
  end.

(** ** Requests and answers *)

Definition DefaultRange : Z := 24 * 3600 * 10 ^ 9.
Record Range := MkRange { rgFrom : Z; rgTo : Z }.

Record Service := MkService { svProtocol : Protocol; svPort : Z }.

(** [policy.ParseProtocol]. *)
Definition ParseProtocol (s : string) : option Protocol :=
  let s := lowerName (TrimSpace s) in
  if decide (s = "tcp") then Some PROTOCOL_TCP else if decide (s = "udp") then Some PROTOCOL_UDP
  else if decide (s = "icmp") then Some PROTOCOL_ICMP else None.

Definition ParseService (s : string) : option Service :=
  let s := TrimSpace (lowerName s) in
  let '(protoName, portText, hasPort) := match Cut s "/"%char with Some (a, b) => (a, b, true) | None => (s, ""%string, false) end in
  proto ← ParseProtocol protoName;
  if decide (proto = PROTOCOL_ICMP) then
    if decide (hasPort = true ∧ portText ≠ "" ∧ portText ≠ "0") then None else Some (MkService proto 0)
  else if (hasPort : bool) then port ← ParseUint 16 portText; Some (MkService proto port)
  else None.

Record RuleRef := MkRuleRef { rfID : string; rfAuthored : string; rfProtocol : Protocol }.
Definition ruleRef (id : string) : option RuleRef :=
  if decide (id = "") then None else
  Some match Provenance id with Ok (authored, proto) => MkRuleRef id authored proto | Err _ => MkRuleRef id "" PROTOCOL_UNSPECIFIED end.

Record PeerRef := MkPeerRef { pfKind : Z; pfKey : string; pfName : string; pfLabels : gmap string string }.

(** A position in the fleet order. *)
Definition workloadsCursorKind : string := "w1".
Definition RetiredRank : Z := 5.
Definition DefaultWorkloadPageLimit : Z := 100.
Definition MaxWorkloadPageLimit : Z := 500.

(** The states of a credential, and what is still accepted from it. *)
Inductive CredentialState := CredentialRenews | CredentialRenewalFailed | CredentialExpired.
Inductive CredentialLifecycle := CredentialValid | CredentialInGrace | CredentialPastGrace.
Inductive Lifecycle := LifecycleActive | LifecycleRetired.

Definition TelemetryLiveWindows : Z := 2.
Definition telemetryLive (last : option Z) (window now : Z) : bool :=
  bool_decide (0 < window) && from_option (λ last, bool_decide (timeSub now last ≤ i64 (TelemetryLiveWindows * window))) false last.

(** [TerminalVerdict]. *)
Definition TerminalVerdict (mode : EnforcementMode) : PolicyDecision :=
  match mode with
  | ENFORCEMENT_MODE_SIMULATION => POLICY_DECISION_WOULD_BLOCK
  | ENFORCEMENT_MODE_ENFORCED => POLICY_DECISION_BLOCKED
  | _ => POLICY_DECISION_OBSERVED
  end.

Definition GapKindName (k : EvidenceGapKind) : string :=
  match k with
  | EVIDENCE_GAP_KIND_SOURCE_OVERRUN => "source_overrun" | EVIDENCE_GAP_KIND_SOURCE_RESTART => "source_restart"
  | EVIDENCE_GAP_KIND_BUFFER_OVERFLOW => "buffer_overflow" | EVIDENCE_GAP_KIND_DUMP_TRUNCATED => "dump_truncated"
  | EVIDENCE_GAP_KIND_WINDOW_OVERFLOW => "window_overflow" | EVIDENCE_GAP_KIND_WINDOW_REJECTED => "window_rejected"
  | EVIDENCE_GAP_KIND_TABLE_REMOVED => "table_removed" | EVIDENCE_GAP_KIND_AGENT_SILENT => "agent_silent"
  | _ => "unknown"
  end.
Definition GapSourceName (s : EvidenceSource) : string :=
  match s with EVIDENCE_SOURCE_CONNTRACK => "conntrack" | EVIDENCE_SOURCE_NFLOG => "nflog" | _ => "" end.

(** ** Names of the enumerations *)

Definition OwnedTableStateName (s : OwnedTableState) : string :=
  match s with OWNED_TABLE_STATE_PRESENT => "present" | OWNED_TABLE_STATE_ABSENT => "absent" | OWNED_TABLE_STATE_UNSPECIFIED => "unknown" end.

(** [strings.ReplaceAll] of one byte by another. *)
Fixpoint ReplaceByte (old new : ascii) (s : string) : string :=
  match s with EmptyString => EmptyString | String c s' => String (if decide (c = old) then new else c) (ReplaceByte old new s') end.

(** The names of the generated enumerations, by number. *)
Definition PolicyDecision_names : list string :=
  ["POLICY_DECISION_UNSPECIFIED"; "POLICY_DECISION_OBSERVED"; "POLICY_DECISION_ALLOWED"; "POLICY_DECISION_WOULD_BLOCK"; "POLICY_DECISION_BLOCKED"]%string.
Definition SyncState_names : list string :=
  ["SYNC_STATE_UNSPECIFIED"; "SYNC_STATE_SYNCED"; "SYNC_STATE_PENDING"; "SYNC_STATE_DEGRADED"; "SYNC_STATE_OFFLINE"]%string.
Definition enumValue (names : list string) (s : string) : option Z := (λ p, Z.of_nat p.1) <$> list_find (λ n, n = s) names.
Definition enumString (names : list string) (n : Z) : string :=
  if decide (0 ≤ n) then default (FormatInt n) (names !! Z.to_nat n) else FormatInt n.

(** An empty name is any, and the number of the unspecified one is no answer. *)
Definition ParseVerdict (s : string) : option Z :=
  if decide (s = "") then Some 0 else
  v ← enumValue PolicyDecision_names ("POLICY_DECISION_" +:+ ToUpper (ReplaceByte "-" "_" (TrimSpace s)));
  if decide (v = 0) then None else Some v.
Definition VerdictName (d : Z) : string := ToLower (TrimPrefix (enumString PolicyDecision_names d) "POLICY_DECISION_").
Definition ParseSyncState (s : string) : option Z :=
  if decide (s = "") then Some 0 else
  v ← enumValue SyncState_names ("SYNC_STATE_" +:+ ToUpper (TrimSpace s));
  if decide (v = 0) then None else Some v.
Definition SyncStateName (n : Z) : string := ToLower (TrimPrefix (enumString SyncState_names n) "SYNC_STATE_").

Section reader.
Context `{UUIDLib} `{PgLib} `{LabelsJSON}.

Record WorkloadRef := MkWorkloadRef { wfID : WorkloadID; wfHostname : string; wfLabels : gmap string string }.

(** [WorkloadRecord]. *)
Record WorkloadRecord := MkWorkloadRecord {
  wrWorkloadOf : Workload; wrLastRenewedAt : option Z; wrLatestVersion : Z; wrLatestRenderedAt : option Z;
  wrListeningServices : list ListeningService; wrSyncRank : Z; wrSeenKey : Z;
}.

Inductive ReadError :=
  | ReadFailure | ErrReadUnknown | ErrInvalidRange | ErrInvalidCursor | ErrWorkloadRequired | ErrReadLifecycle | ErrReadState (n state : Z)
  | ErrReadSelector (errs : list ValidationError) | ErrReadFlows (e : FlowError) | ErrUnknownEndpoint.

Record WorkloadCursor := MkWorkloadCursor { wuRank : Z; wuSeen : Z; wuID : WorkloadID }.
Definition encodeWorkloadCursor (c : WorkloadCursor) : string :=
  encodeCursor [workloadsCursorKind; FormatInt (wuRank c); FormatInt (i64 (wuSeen c)); WorkloadID_String (wuID c)].
Definition decodeWorkloadCursor (token : string) : option (option WorkloadCursor) :=
  if decide (token = "") then Some None else
  parts ← decodeCursor token workloadsCursorKind 3;
  match parts with
  | [rank; seen; id] =>
      rank ← ParseInt 32 rank; seen ← cursorTime seen; id ← uuid_Parse id; Some (Some (MkWorkloadCursor rank seen (FromUUID id)))
  | _ => None
  end.

(** [WorkloadPageQuery]; the enumerations by number, zero for any. *)
Record WorkloadPageQuery := MkWorkloadPageQuery {
  pqIDs : list WorkloadID; pqMode : Z; pqSyncState : Z; pqRetired : bool; pqAfter : option WorkloadCursor; pqLimit : Z;
}.

Record StatusCount := MkStatusCount { scState : Z; scRemoved : bool; scRetired : bool; scWorkloads : Z }.

(** The answers of the store, the clock, and the settings of the reader. *)
Record Reader := MkReader {
  rdListWorkloads : result ReadError (list Workload);
  rdListAddressGroups : result ReadError (list AddressGroup);
  rdListRulesets : result ReadError (list Ruleset);
  rdGetWorkloadPolicy : WorkloadID → result ReadError (option WorkloadPolicy);
  rdGetWorkloadRecord : WorkloadID → result ReadError WorkloadRecord;
  rdLabelIndex : result ReadError (gmap WorkloadID (gmap string string));
  rdListWorkloadPage : WorkloadPageQuery → result ReadError (list WorkloadRecord);
  rdCounts : result ReadError (list StatusCount);
  rdNow : Z; rdFlowWindow : Z; rdRenewalGrace : Z;
}.

Definition resolveRange (s : Reader) (from to : option Z) : result ReadError Range :=
  let to := default (rdNow s) to in
  let from := default (to - DefaultRange) from in
  if decide (to ≤ from) then Err ErrInvalidRange else Ok (MkRange from to).

(** ** Names *)

Record names := MkNames { nmWorkloads : gmap string Workload; nmGroups : gmap string string }.
Definition loadNames (s : Reader) : result ReadError names :=
  workloads ← rdListWorkloads s;
  groups ← rdListAddressGroups s;
  Ok (MkNames (foldl (λ m w, <[WorkloadID_String (wID w) := w]> m) ∅ workloads)
        (foldl (λ m g, <[uuid_String (agID g) := agName g]> m) ∅ groups)).

Definition names_peer (n : names) (p : Flows.Peer) : PeerRef :=
  MkPeerRef (peKind p) (peKey p)
    (if decide (peKind p = PeerWorkload) then from_option wHostname ""%string (nmWorkloads n !! peKey p)
     else if decide (peKind p = Flows.PeerAddressGroup) then default ""%string (nmGroups n !! peKey p)
     else "") (peLabels p).
Definition names_workload (n : names) (id : WorkloadID) : WorkloadRef :=
  match nmWorkloads n !! WorkloadID_String id with
  | Some w => MkWorkloadRef id (wHostname w) (LabelMap w)
  | None => MkWorkloadRef id "" ∅
  end.
Definition workloadRef (w : Workload) : WorkloadRef := MkWorkloadRef (wID w) (wHostname w) (LabelMap w).

(** [scope]: the workloads, and whether any were asked for. *)
Definition scope (s : Reader) (workload : option WorkloadID) (selector : Selector) : result ReadError (list WorkloadID * bool) :=
  '(ids, scoped) ← match workload with
    | Some id => _ ← rdGetWorkloadRecord s id; Ok ([id], true)
    | None => Ok ([], false)
    end;
  if decide (selector = ∅) then Ok (ids, scoped) else
  match ValidateSelector selector with
  | Some errs => Err (ErrReadSelector errs)
  | None =>
      index ← rdLabelIndex s;
      Ok (filter (λ id, from_option (λ w, bool_decide (id = w)) true workload = true) (MatchWorkloads selector index), true)
  end.

(** ** Flows *)

Record FlowsRequest := MkFlowsRequest {
  fqWorkload : WorkloadID; fqFrom : option Z; fqTo : option Z; fqVerdict : Z; fqDirection : Z; fqPeer : string; fqService : option Service;
  fqCursor : string; fqLimit : Z;
}.
Record Flow := MkFlow {
  flwID : Z; flwStart : Z; flwEnd : Z; flwPeer : PeerRef; flwSrc : option Addr; flwDst : option Addr; flwService : Service;
  flwDirection : Direction; flwVerdict : Z; flwRule : option RuleRef; flwConnections : Z; flwBytes : Z; flwFirst : Z; flwLast : Z;
  flwProcess : string;
}.
Record FlowsPage := MkFlowsPage { fpWorkload : WorkloadRef; fpRange : Range; fpFlows : list Flow; fpNext : string }.

Definition flowOf (n : names) (r : WindowRow) : Flow :=
  MkFlow (wrID r) (wrStart r) (wrEnd r) (names_peer n (wrPeer r)) (wrSrcAddress r) (wrDstAddress r) (MkService (wrProtocol r) (wrDstPort r))
    (wrDirection r) (wrDecision r) (ruleRef (wrMatchedRuleID r)) (wrConnectionCount r) (wrByteCount r) (wrFirstSeen r) (wrLastSeen r)
    (wrProcessName r).

Definition pageLimit (n : Z) : Z :=
  let n := if decide (n ≤ 0) then DefaultPageLimit else n in if decide (MaxPageLimit < n) then MaxPageLimit else n.

(** [ListFlows]; one row more than the page tells whether there is a next one. *)
Definition ListFlows (s : Reader) (d : FlowDB) (req : FlowsRequest) : result ReadError FlowsPage :=
  if IsZero (fqWorkload req) then Err ErrWorkloadRequired else
  r ← resolveRange s (fqFrom req) (fqTo req);
  match decodeFlowsCursor (fqCursor req) with
  | None => Err ErrInvalidCursor
  | Some before =>
      rec ← rdGetWorkloadRecord s (fqWorkload req);
      let limit := pageLimit (fqLimit req) in
      let q := MkWindowPageQuery (fqWorkload req) (rgFrom r) (rgTo r) (fqVerdict req) (fqDirection req) (fqPeer req)
                 (from_option (λ v, Protocol_number (svProtocol v)) 0 (fqService req)) (from_option svPort 0 (fqService req)) (limit + 1) in
      let rows := ListWindowPage q before d in
      names ← loadNames s;
      let more := bool_decide (limit < Z.of_nat (length rows)) in
      let rows := if more then take (Z.to_nat limit) rows else rows in
      Ok (MkFlowsPage (workloadRef (wrWorkloadOf rec)) r (flowOf names <$> rows)
            (if more then from_option (λ w, encodeFlowsCursor (MkWindowCursor (wrStart w) (wrID w))) ""%string (last rows) else ""))
  end.

(** ** Rollups *)

Record RollupRequest := MkRollupRequest {
  rqFrom : option Z; rqTo : option Z; rqGroupBy : string; rqVerdict : Z; rqDirection : Z; rqWorkload : option WorkloadID;
  rqSelector : Selector; rqEndpoint : string; rqService : option Service; rqOrder : string; rqLimit : Z;
}.
Record Counters := MkCounters { cnFlows : Z; cnConnections : Z; cnBytes : Z }.
Record GroupKeys := MkGroupKeys {
  kyRule : option RuleRef; kyPeer : option PeerRef; kySrc : option PeerRef; kyDst : option WorkloadRef; kyService : option Service;
}.
Record RollupGroup := MkRollupGroup { ruKeys : GroupKeys; ruCounters : Counters; ruWorkloads : option Z; ruFirst : Z; ruLast : Z }.
Record RollupPage := MkRollupPage {
  rpRange : Range; rpEffective : option (Z * Z); rpGroupBy : string; rpGroups : list RollupGroup; rpGroupCount : Z; rpTruncated : bool;
  rpTotals : Counters;
}.

Definition groupKeysOf (by_ : string) (n : names) (g : Group) : GroupKeys * option Z :=
  let service := Some (MkService (goProtocol g) (goDstPort g)) in
  let dst := names_workload n (FromUUID (default uuid_Nil (goWorkload g))) in
  if decide (by_ = groupName GroupByRule) then (MkGroupKeys (ruleRef (goRuleID g)) None None None None, Some (goWorkloadCount g))
  else if decide (by_ = groupName GroupByRulePeer) then
    (MkGroupKeys (ruleRef (goRuleID g)) (Some (names_peer n (goPeer g))) None None None, None)
  else if decide (by_ = groupName GroupBySrcDst) then
    (MkGroupKeys None None (Some (names_peer n (goPeer g))) (Some dst) None, None)
  else if decide (by_ = groupName GroupByDstService) then (MkGroupKeys None None None (Some dst) service, None)
  else if decide (by_ = groupName GroupByPeerService) then
    (MkGroupKeys None (Some (names_peer n (goPeer g))) None None service, Some (goWorkloadCount g))
  else (MkGroupKeys None None None None None, None).

Definition rollupGroupOf (by_ : string) (n : names) (g : Group) : RollupGroup :=
  let '(keys, workloads) := groupKeysOf by_ n g in
  MkRollupGroup keys (MkCounters (goFlowCount g) (goConnectionCount g) (goByteCount g)) workloads (goFirstSeen g) (goLastSeen g).

(** [Reader.Rollup]; a scope that matches no workload sees nothing. *)
Definition Reader_Rollup (s : Reader) (d : FlowDB) (req : RollupRequest) : result ReadError RollupPage :=
  match ParseGroupBy (rqGroupBy req), ParseEndpoint (rqEndpoint req) with
  | None, _ => Err (ErrReadFlows ErrUnknownGroupBy)
  | _, None => Err ErrUnknownEndpoint
  | Some _, Some endpoint =>
      r ← resolveRange s (rqFrom req) (rqTo req);
      '(ids, scoped) ← scope s (rqWorkload req) (rqSelector req);
      if decide (scoped = true ∧ ids = []) then Ok (MkRollupPage r None (rqGroupBy req) [] 0 false (MkCounters 0 0 0)) else
      let q := MkGroupQuery (rqGroupBy req) ids endpoint (rgFrom r) (rgTo r) (rqVerdict req) (rqDirection req)
                 (from_option (λ v, Protocol_number (svProtocol v)) 0 (rqService req)) (from_option svPort 0 (rqService req)) (rqOrder req)
                 (rqLimit req) in
      match RollupGroups q d with
      | Err e => Err (ErrReadFlows e)
      | Ok res =>
          n ← loadNames s;
          Ok (MkRollupPage r (if decide (gsGroups res = []) then None else gsEffective res) (rqGroupBy req)
                (rollupGroupOf (rqGroupBy req) n <$> gsGroups res) (gsGroupCount res) (Truncated res)
                (MkCounters (gsFlowCount res) (gsConnectionCount res) (gsByteCount res)))
      end
  end.

(** ** Gaps *)

Definition DefaultGapLimit : Z := 500.
Definition MaxGapLimit : Z := 5000.
Record GapRef := MkGapRef { gfWorkload : WorkloadRef; gfKey : gapKey; gfCount : option Z }.
Record GapsPage := MkGapsPage { gaRange : Range; gaGaps : list GapRef; gaTruncated : bool }.

Definition Reader_Gaps (s : Reader) (d : FlowDB) (from to : option Z) (workload : option WorkloadID) (selector : Selector) (limit : Z)
  : result ReadError GapsPage :=
  r ← resolveRange s from to;
  '(ids, scoped) ← scope s workload selector;
  if decide (scoped = true ∧ ids = []) then Ok (MkGapsPage r [] false) else
  let limit := Z.min (if decide (limit ≤ 0) then DefaultGapLimit else limit) MaxGapLimit in
  match ListGaps ids (rgFrom r) (rgTo r) (limit + 1) d with
  | Err e => Err (ErrReadFlows e)
  | Ok rows =>
      let truncated := bool_decide (limit < Z.of_nat (length rows)) in
      let rows := if truncated then take (Z.to_nat limit) rows else rows in
      if decide (rows = []) then Ok (MkGapsPage r [] truncated) else
      n ← loadNames s;
      Ok (MkGapsPage r ((λ g, MkGapRef (names_workload n (FromUUID (gpWorkload g))) (gpKey g) (gpLost g)) <$> rows) truncated)
  end.

(** ** Rendered policies *)

Record RulesetRef := MkRulesetRef { seID : UUID; seName : string }.
Record RenderedRule := MkRenderedRule {
  reID : string; reAuthored : string; reRuleset : option RulesetRef; reDescription : string; reCreatedAt : option Z; reUpdatedAt : option Z;
  reProtocol : Protocol; rePorts : list PortRange; rePeers : list string; reVerdict : PolicyDecision;
}.
Record RenderedPolicy := MkRenderedPolicy {
  rnWorkload : WorkloadRef; rnVersion : Z; rnMode : EnforcementMode; rnRenderedAt : option Z; rnTerminal : PolicyDecision; rnRules : list RenderedRule;
}.

(** The authored rules by their id, with the set each is in; the last of an id wins. *)
Definition authoredRules (rulesets : list Ruleset) : gmap string (Rule * Ruleset) :=
  foldl (λ m rs, foldl (λ m r, <[uuid_String (ruleID r) := (r, rs)]> m) m (rsRules rs)) ∅ rulesets.

Definition renderedRuleOf (authored : gmap string (Rule * Ruleset)) (rr : ResolvedRule) : RenderedRule :=
  let shown (id : string) (from : option (Rule * Ruleset)) :=
    MkRenderedRule (rrRuleId rr) id ((λ p, MkRulesetRef (rsID p.2) (rsName p.2)) <$> from) (from_option (λ p, ruleDescription p.1) ""%string from)
      ((λ p, ruleCreatedAt p.1) <$> from) ((λ p, ruleUpdatedAt p.1) <$> from) (rrProtocol rr) (rrPorts rr) (rrPeerCidrs rr) POLICY_DECISION_ALLOWED in
  match Provenance (rrRuleId rr) with
  | Ok (id, _) => shown id (authored !! id)
  | Err _ => shown ""%string None
  end.

Definition Reader_RenderedPolicy (s : Reader) (id : WorkloadID) : result ReadError RenderedPolicy :=
  rec ← rdGetWorkloadRecord s id;
  let w := wrWorkloadOf rec in
  p ← rdGetWorkloadPolicy s id;
  match p with
  | None => Ok (MkRenderedPolicy (workloadRef w) 0 (wMode w) (wrLatestRenderedAt rec) (TerminalVerdict (wMode w)) [])
  | Some p =>
      let p := Canonical (Some p) in
      rulesets ← rdListRulesets s;
      Ok (MkRenderedPolicy (workloadRef w) (wpVersion p) (wpMode p) (wrLatestRenderedAt rec) (TerminalVerdict (wpMode p))
            (renderedRuleOf (authoredRules rulesets) <$> wpInboundRules p))
  end.

(** ** The fleet *)

Record CredentialStatus := MkCredentialStatus {
  csState : CredentialState; csLifecycle : CredentialLifecycle; csRenewableUntil : Z; csSerial : string; csExpiresAt : Z; csLastRenewedAt : option Z;
  csLastError : string; csLastLate : option LateRenewal; csLastPresented : option PresentedCredential;
}.
Definition credentialStatus (rec : WorkloadRecord) (now grace : Z) : CredentialStatus :=
  let w := wrWorkloadOf rec in
  let expires := wCredentialExpiresAt w in
  MkCredentialStatus
    (if decide (expires ≤ now) then CredentialExpired
     else if decide (wCredentialRenewalError w ≠ "") then CredentialRenewalFailed else CredentialRenews)
    (match StandingAt expires now grace with
     | StandingValid => CredentialValid | StandingInGrace => CredentialInGrace | StandingPastGrace => CredentialPastGrace
     end)
    (expires + grace) (wCredentialSerial w) expires (wrLastRenewedAt rec) (wCredentialRenewalError w) (wLateRenewal w) (wPresentedCredential w).

Record SyncStatus := MkSyncStatus {
  ssState : SyncState; ssApplied : Z; ssLatest : Z; ssLatestRenderedAt : option Z; ssError : string; ssSnapshotSentAt : option Z;
  ssAckedAt : option Z; ssApplyFailedAt : option Z;
}.
Record Health := MkHealth {
  heLastSeenAt : option Z; heCredential : CredentialStatus; heDropped : Z; heOverruns : Z; heClockSkew : option ClockSkew;
  heOwnedTable : OwnedTableState; heAbsentSince : option Z; heLastFlowReportAt : option Z; heTelemetryLive : bool;
}.
Record WorkloadView := MkWorkloadView {
  vwID : WorkloadID; vwHostname : string; vwLabels : list Label; vwMode : EnforcementMode; vwEnrolledAt : Z; vwAddresses : list Addr;
  vwFacts : option HostFacts; vwAgentVersion : string; vwAgentCapabilities : list string; vwServices : list ListeningService;
  vwSync : SyncStatus; vwHealth : Health; vwLifecycle : Lifecycle; vwRetiredAt : option Z;
}.

(** [Reader.workload]. *)
Definition workloadView (s : Reader) (rec : WorkloadRecord) (now : Z) : WorkloadView :=
  let w := wrWorkloadOf rec in
  MkWorkloadView (wID w) (wHostname w) (wLabels w) (wMode w) (wEnrolledAt w) (wAddresses w) (wFacts w) (wAgentVersion w) (wAgentCapabilities w)
    (wrListeningServices rec)
    (MkSyncStatus (wSyncState w) (wAppliedVersion w) (wrLatestVersion rec) (wrLatestRenderedAt rec) (wSyncError w) (wLastSnapshotSentAt w)
       (wLastAckedAt w) (wLastApplyFailedAt w))
    (MkHealth (wLastSeenAt w) (credentialStatus rec now (Grace (rdRenewalGrace s))) (wDroppedFlowRecords w) (wSourceOverruns w) (wClockSkew w)
       (wOwnedTable w) (wOwnedTableAbsentSince w) (wLastFlowReportAt w) (telemetryLive (wLastFlowReportAt w) (rdFlowWindow s) now))
    (if Retired w then LifecycleRetired else LifecycleActive) (wRetiredAt w).

Definition GetWorkload (s : Reader) (id : WorkloadID) : result ReadError WorkloadView :=
  rec ← rdGetWorkloadRecord s id; Ok (workloadView s rec (rdNow s)).

Record WorkloadsRequest := MkWorkloadsRequest {
  wsSelector : Selector; wsMode : Z; wsSyncState : Z; wsLifecycle : string; wsCursor : string; wsLimit : Z;
}.
Record WorkloadsPage := MkWorkloadsPage { wgWorkloads : list WorkloadView; wgNext : string }.

Definition ListWorkloads (s : Reader) (req : WorkloadsRequest) : result ReadError WorkloadsPage :=
  match decodeWorkloadCursor (wsCursor req) with
  | None => Err ErrInvalidCursor
  | Some after =>
      retired ← (if decide (wsLifecycle req = "" ∨ wsLifecycle req = "active") then Ok false
                 else if decide (wsLifecycle req = "retired") then Ok true else Err ErrReadLifecycle);
      let limit := if decide (wsLimit req ≤ 0) then DefaultWorkloadPageLimit else wsLimit req in
      let limit := if decide (MaxWorkloadPageLimit < limit) then MaxWorkloadPageLimit else limit in
      '(ids, scoped) ← scope s None (wsSelector req);
      if decide (scoped = true ∧ ids = []) then Ok (MkWorkloadsPage [] "") else
      records ← rdListWorkloadPage s (MkWorkloadPageQuery ids (wsMode req) (wsSyncState req) retired after (limit + 1));
      let more := bool_decide (limit < Z.of_nat (length records)) in
      let records := if more then take (Z.to_nat limit) records else records in
      Ok (MkWorkloadsPage ((λ rec, workloadView s rec (rdNow s)) <$> records)
            (if more then from_option (λ rec, encodeWorkloadCursor (MkWorkloadCursor (wrSyncRank rec) (wrSeenKey rec) (wID (wrWorkloadOf rec))))
                            ""%string (last records) else ""))
  end.

(** [WorkloadCounts]; the states by number, synced, pending, degraded and offline. *)
Definition syncStates : list Z := [1; 2; 3; 4].
Record WorkloadCounts := MkWorkloadCounts { coTotal : Z; coBySync : gmap Z Z; coRemoved : Z; coRetired : Z }.
Definition countStatus (out : result ReadError WorkloadCounts) (c : StatusCount) : result ReadError WorkloadCounts :=
  out ← out;
  if decide (scWorkloads c = 0) then Ok out
  else if scRetired c then Ok (MkWorkloadCounts (coTotal out) (coBySync out) (coRemoved out) (i64 (coRetired out + scWorkloads c)))
  else match coBySync out !! scState c with
       | None => Err (ErrReadState (scWorkloads c) (scState c))
       | Some n =>
           let total := i64 (coTotal out + scWorkloads c) in
           Ok (if scRemoved c then MkWorkloadCounts total (coBySync out) (i64 (coRemoved out + scWorkloads c)) (coRetired out)
               else MkWorkloadCounts total (<[scState c := i64 (n + scWorkloads c)]> (coBySync out)) (coRemoved out) (coRetired out))
       end.
Definition CountWorkloads (s : Reader) : result ReadError WorkloadCounts :=
  stored ← rdCounts s;
  foldl countStatus (Ok (MkWorkloadCounts 0 (foldl (λ m st, <[st := 0]> m) ∅ syncStates) 0 0)) stored.
End reader.
