(* ===== verification/FlowsFacts.v ===== *)
(** * Facts about the flow store: aggregation, the totals, and pruning

    What [AggregateTotals] folds per key, what a transaction that takes effect does to each
    table, and which rows a batch of the retention deletes. *)

From S2P Require Import Prelude GoStd Netip Wire Uuid Identity Ingest IngestService Enforce Collect Postgres PolicyStore RegistryStore Flows FlowReads.
Local Open Scope Z_scope.

(** ** Sums, minima and maxima *)

Section sums.
Context {A : Type} (f : A → Z).

Lemma sumOf_app l1 l2 : sumOf f (l1 ++ l2) = sumOf f l1 + sumOf f l2.
Proof. unfold sumOf. induction l1 as [|a l1 IH]; cbn [foldr app]; lia. Qed.

Lemma sumOf_perm l1 l2 : l1 ≡ₚ l2 → sumOf f l1 = sumOf f l2.
Proof. unfold sumOf. induction 1; cbn [foldr]; lia. Qed.

Lemma sumOf_nonneg l : (∀ a, a ∈ l → 0 ≤ f a) → 0 ≤ sumOf f l.
Proof.
  unfold sumOf. induction l as [|a l IH]; cbn [foldr]; [lia|]. intros Hl.
  pose proof (Hl a (list_elem_of_here _ _)). enough (0 ≤ foldr (λ a n, f a + n) 0 l) by lia.
  apply IH. intros b Hb. apply Hl. by right.
Qed.

Lemma sumOf_filter_le P `{∀ a, Decision (P a)} l : (∀ a, a ∈ l → 0 ≤ f a) → sumOf f (filter P l) ≤ sumOf f l.
Proof.
  unfold sumOf. induction l as [|a l IH]; [done|]. intros Hl. pose proof (Hl a (list_elem_of_here _ _)).
  assert (foldr (λ a n, f a + n) 0 (filter P l) ≤ foldr (λ a n, f a + n) 0 l) by (apply IH; intros b Hb; apply Hl; by right).
  rewrite filter_cons. destruct (decide (P a)); cbn [foldr]; lia.
Qed.

Lemma minOf_cons a b l : minOf f (a :: b :: l) = Z.min (f a) (minOf f (b :: l)).
Proof. cbn [minOf foldr]. induction l as [|c l IH]; cbn [foldr] in *; lia. Qed.
Lemma maxOf_cons a b l : maxOf f (a :: b :: l) = Z.max (f a) (maxOf f (b :: l)).
Proof. cbn [maxOf foldr]. induction l as [|c l IH]; cbn [foldr] in *; lia. Qed.

Lemma minOf_app l1 l2 : l1 ≠ [] → l2 ≠ [] → minOf f (l1 ++ l2) = Z.min (minOf f l1) (minOf f l2).
Proof.
  intros Hl1 Hl2. induction l1 as [|a l1 IH]; [done|]. destruct l1 as [|b l1].
  - destruct l2 as [|c l2]; [done|]. cbn [app]. rewrite minOf_cons. done.
  - cbn [app] in *. rewrite !minOf_cons, IH by done. lia.
Qed.
Lemma maxOf_app l1 l2 : l1 ≠ [] → l2 ≠ [] → maxOf f (l1 ++ l2) = Z.max (maxOf f l1) (maxOf f l2).
Proof.
  intros Hl1 Hl2. induction l1 as [|a l1 IH]; [done|]. destruct l1 as [|b l1].
  - destruct l2 as [|c l2]; [done|]. cbn [app]. rewrite maxOf_cons. done.
  - cbn [app] in *. rewrite !maxOf_cons, IH by done. lia.
Qed.
End sums.

Lemma minOf_mono {A} (f : A → Z) (g : Z → Z) l : (∀ a b, a ≤ b → g a ≤ g b) → l ≠ [] → minOf (λ a, g (f a)) l = g (minOf f l).
Proof.
  intros Hg Hl. induction l as [|a l IH]; [done|]. destruct l as [|b l]; [done|]. rewrite !minOf_cons, IH by done.
  destruct (Z.le_ge_cases (f a) (minOf f (b :: l))) as [Hc|Hc]; pose proof (Hg _ _ Hc);
    [rewrite (Z.min_l (f a)) by done|rewrite (Z.min_r (f a)) by done]; lia.
Qed.
Lemma maxOf_mono {A} (f : A → Z) (g : Z → Z) l : (∀ a b, a ≤ b → g a ≤ g b) → l ≠ [] → maxOf (λ a, g (f a)) l = g (maxOf f l).
Proof.
  intros Hg Hl. induction l as [|a l IH]; [done|]. destruct l as [|b l]; [done|]. rewrite !maxOf_cons, IH by done.
  destruct (Z.le_ge_cases (f a) (maxOf f (b :: l))) as [Hc|Hc]; pose proof (Hg _ _ Hc);
    [rewrite (Z.max_r (f a)) by done|rewrite (Z.max_l (f a)) by done]; lia.
Qed.

(** ** What [AggregateTotals] folds *)

(** The records of a key, and what they are folded into. *)
Definition keyRecords (k : TotalsKey) (rs : list FlowEntry) : list FlowEntry := filter (λ r, Record_Key r = k) rs.
Definition mergeAll (rs : list FlowEntry) : option FlowEntry :=
  match rs with [] => None | r :: rs => Some (foldl mergeRecord r rs) end.

(** The record seen last; of several, the later one. *)
Definition later (merged r : FlowEntry) : FlowEntry := if decide (feLastSeen merged ≤ feLastSeen r) then r else merged.
Definition lastSeenOf (rs : list FlowEntry) : option FlowEntry := match rs with [] => None | r :: rs => Some (foldl later r rs) end.

Lemma mergeRecord_key merged r : Record_Key r = Record_Key merged → Record_Key (mergeRecord merged r) = Record_Key merged.
Proof.
  unfold mergeRecord, Record_Key. intros Hk. cbn. destruct (decide _); [|done]. simplify_eq Hk. congruence.
Qed.

Lemma mergeAll_snoc rs r : mergeAll (rs ++ [r]) = Some (match mergeAll rs with None => r | Some m => mergeRecord m r end).
Proof. destruct rs as [|r' rs]; [done|]. cbn [app mergeAll]. by rewrite foldl_snoc. Qed.
Lemma lastSeenOf_snoc rs r : lastSeenOf (rs ++ [r]) = Some (match lastSeenOf rs with None => r | Some m => later m r end).
Proof. destruct rs as [|r' rs]; [done|]. cbn [app lastSeenOf]. by rewrite foldl_snoc. Qed.

Lemma mergeAll_key rs k m : mergeAll (keyRecords k rs) = Some m → Record_Key m = k.
Proof.
  assert (Forall (λ r, Record_Key r = k) (keyRecords k rs)) as Ho.
  { apply Forall_forall. intros r Hr. by apply list_elem_of_filter in Hr as [? _]. }
  destruct (keyRecords k rs) as [|r l]; [done|]. intros [= <-]. apply Forall_cons in Ho as [Hr Hl]. revert r Hr.
  induction Hl as [|r' l Hr' _ IH]; intros r Hr; cbn [foldl]; [done|]. apply IH. rewrite mergeRecord_key; congruence.
Qed.

Lemma keyRecords_snoc k rs r : keyRecords k (rs ++ [r]) = keyRecords k rs ++ (if decide (Record_Key r = k) then [r] else []).
Proof. unfold keyRecords. rewrite filter_app. f_equal. Qed.

(** The index has the position of every key of the output, and at a key's position is the
    fold of its records. *)
Definition indexed (rs : list FlowEntry) (acc : gmap TotalsKey nat * list FlowEntry) : Prop :=
  (∀ k j, acc.1 !! k = Some j ↔ (Record_Key <$> acc.2) !! j = Some k) ∧
  (∀ k, (acc.1 !! k ≫= λ j, acc.2 !! j) = mergeAll (keyRecords k rs)).

Lemma alter_same_keys (j : nat) (g : FlowEntry → FlowEntry) (out : list FlowEntry) : (∀ m, out !! j = Some m → Record_Key (g m) = Record_Key m) →
  Record_Key <$> alter g j out = Record_Key <$> out.
Proof.
  intros Hg. apply list_eq. intros i. rewrite !list_lookup_fmap. destruct (decide (i = j)) as [->|Hi].
  - rewrite list_lookup_alter_eq. destruct (out !! j) as [m|] eqn:E; [|done]. cbn. f_equal. by apply Hg.
  - by rewrite list_lookup_alter_ne.
Qed.

Lemma aggregate_indexed rs : indexed rs (foldl aggregate (∅, []) rs).
Proof.
  induction rs as [|r rs IH] using rev_ind.
  { split; intros k; cbn; [|by rewrite lookup_empty]. intros j. by rewrite lookup_empty. }
  rewrite foldl_snoc. destruct (foldl aggregate (∅, []) rs) as [index out]. destruct IH as [IHi IHm].
  cbn [fst snd] in IHi, IHm. unfold aggregate. destruct (index !! Record_Key r) as [j|] eqn:Ej.
  - pose proof (proj1 (IHi _ _) Ej) as Hj. rewrite list_lookup_fmap in Hj. destruct (out !! j) as [m|] eqn:Em; [|done].
    assert (Hmr : Record_Key r = Record_Key m) by (by apply (f_equal (default (Record_Key r))) in Hj).
    assert (Hkeys : Record_Key <$> alter (λ merged, mergeRecord merged r) j out = Record_Key <$> out).
    { apply alter_same_keys. intros m' Hm'. rewrite Em in Hm'. injection Hm' as <-. by apply mergeRecord_key. }
    split; cbn [fst snd]; [by rewrite Hkeys|]. intros k. rewrite keyRecords_snoc. destruct (decide (Record_Key r = k)) as [<-|Hk].
    + rewrite mergeAll_snoc, <-IHm, Ej. cbn. by rewrite list_lookup_alter_eq, Em.
    + rewrite app_nil_r, <-IHm. destruct (index !! k) as [i|] eqn:Ei; [|done]. cbn.
      rewrite list_lookup_alter_ne; [done|]. intros <-. apply (proj1 (IHi _ _)) in Ei, Ej. congruence.
  - assert (Hnone : keyRecords (Record_Key r) rs = []).
    { pose proof (IHm (Record_Key r)) as Hm. rewrite Ej in Hm. cbn in Hm. by destruct (keyRecords (Record_Key r) rs). }
    assert (Hin : ∀ k i, index !! k = Some i → (i < length out)%nat).
    { intros k i Hi. apply (proj1 (IHi _ _)) in Hi. apply lookup_lt_Some in Hi. by rewrite length_fmap in Hi. }
    split; cbn [fst snd].
    + intros k i. rewrite fmap_app. destruct (decide (k = Record_Key r)) as [->|Hk].
      * rewrite lookup_insert_eq. split.
        -- intros [= <-]. rewrite lookup_app_r by (by rewrite length_fmap). by rewrite length_fmap, Nat.sub_diag.
        -- intros Hl. apply lookup_app_Some in Hl as [Hl|[Hge Hl]].
           ++ apply IHi in Hl. congruence.
           ++ rewrite length_fmap in Hl, Hge. apply list_lookup_singleton_Some in Hl as [Hl _]. f_equal. lia.
      * rewrite lookup_insert_ne by done. rewrite IHi. split.
        -- intros Hl. by apply lookup_app_l_Some.
        -- intros Hl. apply lookup_app_Some in Hl as [Hl|[_ Hl]]; [done|].
           apply list_lookup_singleton_Some in Hl as [_ Hl]. congruence.
    + intros k. rewrite keyRecords_snoc. destruct (decide (Record_Key r = k)) as [<-|Hk].
      * rewrite lookup_insert_eq, Hnone. cbn. by rewrite lookup_app_r, Nat.sub_diag by lia.
      * rewrite lookup_insert_ne, app_nil_r, <-IHm by done. destruct (index !! k) as [i|] eqn:Ei; [|done]. cbn.
        rewrite lookup_app_l; [done|]. by eapply Hin.
Qed.

(** One record per key, the fold of the key's records. *)
Lemma AggregateTotals_spec rs :
  NoDup (Record_Key <$> AggregateTotals rs) ∧
  ∀ r, r ∈ AggregateTotals rs ↔ mergeAll (keyRecords (Record_Key r) rs) = Some r.
Proof.
  unfold AggregateTotals. destruct (aggregate_indexed rs) as [Hi Hm]. destruct (foldl aggregate (∅, []) rs) as [index out].
  cbn [fst snd] in *. split.
  - rewrite (merge_sort_Permutation key_le out). apply NoDup_alt. intros i j k Ei Ej. apply Hi in Ei, Ej. congruence.
  - intros r. rewrite (merge_sort_Permutation key_le out), <-Hm. rewrite list_elem_of_lookup. split.
    + intros [j Hj]. pose proof (proj2 (Hi (Record_Key r) j)) as Hk. rewrite list_lookup_fmap, Hj in Hk.
      rewrite (Hk eq_refl). done.
    + intros Hb. apply bind_Some in Hb as (j & _ & Hj). by exists j.
Qed.

(** Counters that are no sum's overflow. *)
Definition countersFit (rs : list FlowEntry) : Prop :=
  (∀ r, r ∈ rs → 0 ≤ feConnectionCount r ∧ 0 ≤ feByteCount r) ∧ sumOf feConnectionCount rs < 2 ^ 63 ∧ sumOf feByteCount rs < 2 ^ 63.

Lemma countersFit_filter P `{∀ r, Decision (P r)} rs : countersFit rs → countersFit (filter P rs).
Proof.
  intros (Hn & Hc & Hb). split.
  - intros r Hr. apply list_elem_of_filter in Hr as [_ Hr]. by apply Hn.
  - split; (eapply Z.le_lt_trans; [apply sumOf_filter_le|done]); intros r Hr; by apply Hn.
Qed.

Lemma countersFit_app l1 l2 : countersFit (l1 ++ l2) → countersFit l1.
Proof.
  intros (Hn & Hc & Hb). rewrite sumOf_app in Hc, Hb.
  pose proof (sumOf_nonneg feConnectionCount l2). pose proof (sumOf_nonneg feByteCount l2).
  assert (∀ r, r ∈ l2 → 0 ≤ feConnectionCount r ∧ 0 ≤ feByteCount r) as Hl2 by (intros r Hr; apply Hn, elem_of_app; by right).
  assert (0 ≤ sumOf feConnectionCount l2) by (by apply sumOf_nonneg; intros r Hr; apply Hl2).
  assert (0 ≤ sumOf feByteCount l2) by (by apply sumOf_nonneg; intros r Hr; apply Hl2).
  split; [intros r Hr; apply Hn, elem_of_app; by left|lia].
Qed.

(** The counters are the sums, the instants the extremes, and the rest the record's that
    was seen last. *)
Lemma mergeAll_spec rs m : countersFit rs → mergeAll rs = Some m →
  feConnectionCount m = sumOf feConnectionCount rs ∧ feByteCount m = sumOf feByteCount rs ∧
  feFirstSeen m = minOf feFirstSeen rs ∧ feLastSeen m = maxOf feLastSeen rs ∧
  ∃ k, lastSeenOf rs = Some k ∧ fePeer m = fePeer k ∧ feMatchedRuleID m = feMatchedRuleID k ∧ feLastSeen m = feLastSeen k.
Proof.
  revert m. induction rs as [|r rs IH] using rev_ind; [done|]. intros m Hfit. rewrite mergeAll_snoc, lastSeenOf_snoc. intros [= <-].
  pose proof (countersFit_app _ _ Hfit) as Hrs. destruct (mergeAll rs) as [m|] eqn:Em.
  - destruct (IH m Hrs eq_refl) as (Hc & Hb & Hf & Hl & k & Ek & Hp & Hr & Hk). clear IH. rewrite Ek.
    assert (rs ≠ []) as Hne by (intros ->; done). destruct Hfit as (Hn & Hfc & Hfb). rewrite sumOf_app in Hfc, Hfb.
    assert (0 ≤ feConnectionCount r ∧ 0 ≤ feByteCount r) as [Hrc Hrb] by (apply Hn, elem_of_app; right; by apply list_elem_of_singleton).
    assert (0 ≤ sumOf feConnectionCount rs ∧ 0 ≤ sumOf feByteCount rs) as [Hsc Hsb].
    { split; apply sumOf_nonneg; intros a Ha; apply Hn, elem_of_app; by left. }
    rewrite !sumOf_app, minOf_app, maxOf_app by done. change (sumOf ?f [r]) with (f r + 0) in *. cbn [minOf maxOf foldr].
    unfold mergeRecord. cbn. rewrite !u64_small by lia. do 2 (split; [lia|]).
    split; [destruct (decide (feFirstSeen r < feFirstSeen m)); lia|].
    split; [destruct (decide (feLastSeen m ≤ feLastSeen r)); lia|].
    exists (later k r). split; [done|]. unfold later. rewrite <-Hk. by destruct (decide (feLastSeen m ≤ feLastSeen r)).
  - destruct rs as [|r' rs]; [|done]. cbn. rewrite !Z.add_0_r. do 4 (split; [done|]). by exists r.
Qed.

(** ** What a batch deletes *)

Lemma filter_ext_in {A} (P Q : A → Prop) `{∀ a, Decision (P a), ∀ a, Decision (Q a)} (l : list A) :
  (∀ a, a ∈ l → P a ↔ Q a) → filter P l = filter Q l.
Proof.
  induction l as [|a l IH]; intros Hl; [done|]. rewrite !filter_cons, IH by (intros b Hb; apply Hl; by right).
  apply decide_ext, Hl. by left.
Qed.

Section oldest.
Context {A : Type} (id age : A → Z) (horizon : Z) (limit : nat) (rows : list A) (Hnd : NoDup (id <$> rows)).
Let old := filter (λ r, age r < horizon) rows.
Let taken := take limit (merge_sort (oldest_le age) old).
Let ids := oldestIDs id age horizon limit rows.

Lemma oldest_taken r : r ∈ rows → id r ∈ ids ↔ r ∈ taken.
Proof.
  intros Hr. unfold ids, oldestIDs. fold old. fold taken. split; [|by apply list_elem_of_fmap_2].
  intros (r' & He & Hr')%list_elem_of_fmap.
  assert (r' ∈ rows) as Hin.
  { apply elem_of_take in Hr' as (i & Hi & _). apply list_elem_of_lookup_2 in Hi. rewrite merge_sort_Permutation in Hi.
    by apply list_elem_of_filter in Hi as [_ ?]. }
  enough (r = r') as -> by done. apply list_elem_of_lookup in Hr as [i Hi]. apply list_elem_of_lookup in Hin as [j Hj].
  assert (i = j) as ->; [|congruence]. apply (NoDup_lookup _ i j (id r) Hnd); by rewrite list_lookup_fmap, ?Hi, ?Hj; cbn; rewrite ?He.
Qed.

Lemma taken_old r : r ∈ taken → r ∈ rows ∧ age r < horizon.
Proof.
  intros (i & Hi & _)%elem_of_take. apply list_elem_of_lookup_2 in Hi. rewrite merge_sort_Permutation in Hi.
  by apply list_elem_of_filter in Hi as [? ?].
Qed.

Lemma oldest_deleted : filter (λ r, id r ∈ ids) rows ≡ₚ taken.
Proof.
  assert (NoDup rows) as Hrows by (by eapply NoDup_fmap_1). apply NoDup_Permutation.
  - by apply NoDup_filter.
  - unfold taken. eapply sublist_NoDup; [|apply sublist_take]. rewrite merge_sort_Permutation. by apply NoDup_filter.
  - intros r. rewrite list_elem_of_filter. split; [intros [Hi Hr]; by apply oldest_taken|].
    intros Ht. destruct (taken_old r Ht) as [Hr _]. split; [by apply oldest_taken|done].
Qed.

Lemma oldest_count : length (filter (λ r, id r ∈ ids) rows) = Nat.min limit (length old).
Proof. rewrite oldest_deleted. unfold taken. rewrite length_take. by rewrite merge_sort_Permutation. Qed.

(** What is left: every row that is not old, and the old ones over the limit. *)
Lemma oldest_left_new P `{∀ r, Decision (P r)} : (∀ r, P r → horizon ≤ age r) → filter P (filter (λ r, id r ∉ ids) rows) = filter P rows.
Proof.
  intros HP. rewrite list_filter_filter. apply filter_ext_in. intros r Hr. split; [by intros [? ?]|].
  intros Hp. split; [done|]. intros Hi. apply oldest_taken in Hi; [|done]. apply taken_old in Hi as [_ Ha]. apply HP in Hp. lia.
Qed.

Lemma oldest_left_count : length (filter (λ r, age r < horizon) (filter (λ r, id r ∉ ids) rows)) = (length old - limit)%nat.
Proof.
  assert (length old = length (filter (λ r, id r ∈ ids) rows) + length (filter (λ r, age r < horizon)%Z (filter (λ r, id r ∉ ids) rows)))%nat as Hs.
  { rewrite <-length_app. apply Permutation_length. unfold old.
    rewrite <-(filter_app_complement (λ r, id r ∈ ids) rows) at 1. rewrite filter_app. f_equiv.
    rewrite (list_filter_filter (λ r, age r < horizon)). apply reflexive_eq, filter_ext_in. intros r Hr. split; [by intros [? ?]|].
    intros Hi. split; [|done]. by apply oldest_taken, taken_old in Hi as [_ ?]. }
  rewrite oldest_count in Hs. lia.
Qed.
End oldest.

(** ** What the transactions do *)

Section store.
Context `{ul : UUIDLib, pg : PgLib, lj : LabelsJSON}.

(** Rows are numbered in order, a gap is stored once, and an instant is as the server
    keeps it. *)
Record flowWF (d : FlowDB) : Prop := {
  wf_ids : NoDup (flID <$> fdWindows d);
  wf_next : Forall (λ r, flID r < fdNextWindow d) (fdWindows d);
  wf_times : Forall (λ r, pgTime (fcStart (flColumns r)) = fcStart (flColumns r)) (fdWindows d);
  wf_gapIDs : NoDup (gpID <$> fdGaps d);
  wf_nextGap : Forall (λ r, gpID r < fdNextGap d) (fdGaps d);
  wf_gaps : NoDup ((λ r, (gpWorkload r, gpKey r)) <$> fdGaps d);
}.

(** Reference semantics: the records of a key in each window that has any, and the total
    they make. *)
Definition shares (ws : list FlowWindow) (id : UUID) (k : TotalsKey) : list (list FlowEntry) :=
  filter (λ rs, rs ≠ []) ((λ w, keyRecords k (fwRecords w)) <$> filter (λ w, wid (fwWorkload w) = id) ws).
Definition labelsOf (r : FlowEntry) : bytestring := pg_jsonb (encodeLabels (peLabels (peerOf (fePeer r)))).
Definition totalOf (ws : list FlowWindow) (id : UUID) (k : TotalsKey) : option totalRow :=
  let rs := concat (shares ws id k) in
  r ← last (shares ws id k) ≫= lastSeenOf;
  Some (MkTotalRow (labelsOf r) (feMatchedRuleID r) (minOf (λ r, pgTime (feFirstSeen r)) rs) (maxOf (λ r, pgTime (feLastSeen r)) rs)
          (sumOf feConnectionCount rs) (sumOf feByteCount rs) (Z.of_nat (length (shares ws id k)))).
Definition rowsOf (ws : list FlowWindow) : list flowColumns := ws ≫= λ w, columnsOf w <$> fwRecords w.

Definition upsertOf (old : option totalRow) (r : FlowEntry) : option totalRow :=
  upsertTotal old (labelsOf r) (feMatchedRuleID r) (pgTime (feFirstSeen r)) (pgTime (feLastSeen r)) (i64 (feConnectionCount r))
    (i64 (feByteCount r)).

(** The batch of upserts changes the rows of its keys, and no other table. *)
Lemma upserts_spec w l d d' : flowBatch (sql_UpsertFlowTotal w) l d = Ok ((), d') → NoDup (Record_Key <$> l) →
  d' = MkFlowDB (fdKnown d) (fdWindows d) (fdNextWindow d) (fdTotals d') (fdGaps d) (fdNextGap d) ∧
  (∀ r, r ∈ l → fdTotals d' !! (w, Record_Key r) = upsertOf (fdTotals d !! (w, Record_Key r)) r ∧
                is_Some (fdTotals d' !! (w, Record_Key r))) ∧
  (∀ id k, id ≠ w ∨ k ∉ (Record_Key <$> l) → fdTotals d' !! (id, k) = fdTotals d !! (id, k)).
Proof.
  revert d. induction l as [|r l IH]; intros d; cbn [flowBatch fmap list_fmap].
  { intros [= <-] _. split; [by destruct d|]. split; [by intros r ?%not_elem_of_nil|done]. }
  intros ([[] d1] & Hs & Hb)%result_bind_Ok [Hr Hl]%NoDup_cons. unfold sql_UpsertFlowTotal in Hs. destruct (decide (w ∉ fdKnown d)); [done|].
  fold (labelsOf r) in Hs. fold (upsertOf (fdTotals d !! (w, Record_Key r)) r) in Hs.
  destruct (upsertOf (fdTotals d !! (w, Record_Key r)) r) as [t|] eqn:Et; [|done]. injection Hs as <-.
  apply IH in Hb as (Hd & Hin & Hout); [|done]. cbn [fdKnown fdWindows fdNextWindow fdTotals fdGaps fdNextGap] in Hd, Hin, Hout. split; [done|]. split.
  - intros r' [->|Hr']%elem_of_cons.
    + rewrite Hout by (by right). rewrite lookup_insert_eq, Et. by eauto.
    + destruct (Hin r' Hr') as [Hu ?]. split; [|done]. rewrite Hu, lookup_insert_ne; [done|].
      intros He. apply (f_equal snd) in He. cbn [snd] in He. apply Hr. rewrite He. by apply list_elem_of_fmap_2.
  - intros id k Hk. rewrite Hout.
    + apply lookup_insert_ne. intros He. assert (w = id) as -> by apply (f_equal fst He).
      assert (Record_Key r = k) as <- by apply (f_equal snd He). destruct Hk as [?|Hk]; [done|]. apply Hk. by left.
    + destruct Hk as [?|Hk]; [by left|right]. intros ?. apply Hk. by right.
Qed.

(** The batch of gaps changes the table of gaps, which stays well formed. *)
Lemma writeGaps_spec now id gaps d d' : flow_writeGaps now id gaps d = Ok ((), d') → flowWF d →
  d' = MkFlowDB (fdKnown d) (fdWindows d) (fdNextWindow d) (fdTotals d) (fdGaps d') (fdNextGap d') ∧ flowWF d'.
Proof.
  unfold flow_writeGaps. revert d. induction gaps as [|g gaps IH]; intros d; cbn [flowBatch].
  { intros [= <-]. by destruct d. }
  intros ([[] d1] & Hs & Hb)%result_bind_Ok Hwf. unfold sql_InsertFlowGap in Hs. destruct (gapCheck g && _); [|done].
  destruct (decide _) as [?|Hnew] in Hs; injection Hs as <-; [by apply IH in Hb|].
  apply IH in Hb as [Hd Hwf']; [by split|]. destruct Hwf. split; cbn; try done.
  - rewrite fmap_app, NoDup_app. split; [done|]. split; [|by apply NoDup_singleton].
    intros n Hn ->%list_elem_of_singleton. apply list_elem_of_fmap in Hn as (r & Hr & Hin).
    apply (proj1 (Forall_forall _ _) wf_nextGap0) in Hin. cbn in Hr, Hin. lia.
  - apply Forall_app. split; [|by apply Forall_singleton; cbn; lia]. eapply Forall_impl; [done|]. cbn. intros r ?. lia.
  - rewrite fmap_app, NoDup_app. split; [done|]. split; [|by apply NoDup_singleton].
    intros p Hp ->%list_elem_of_singleton. apply list_elem_of_fmap in Hp as (r & Hr & Hin). cbn in Hr. simplify_eq Hr. intros E1 E2.
    apply Hnew, Exists_exists. by exists r.
Qed.

Lemma numberRows_columns n cs : flColumns <$> numberRows n cs = cs.
Proof. revert n. induction cs as [|c cs IH]; intros n; cbn; [done|]. by f_equal. Qed.
Lemma numberRows_ids n cs : NoDup (flID <$> numberRows n cs) ∧ Forall (λ r, n ≤ flID r < n + Z.of_nat (length cs)) (numberRows n cs).
Proof.
  revert n. induction cs as [|c cs IH]; intros n; cbn; [by split; constructor|]. destruct (IH (n + 1)) as [IHn IHf]. split.
  - constructor; [|done]. intros (r & Hr & Hin)%list_elem_of_fmap. apply (proj1 (Forall_forall _ _) IHf) in Hin. lia.
  - constructor; [cbn; lia|]. eapply Forall_impl; [done|]. cbn. lia.
Qed.

Lemma shares_snoc ws w id k :
  shares (ws ++ [w]) id k =
  shares ws id k ++ (if decide (wid (fwWorkload w) = id ∧ keyRecords k (fwRecords w) ≠ []) then [keyRecords k (fwRecords w)] else []).
Proof.
  unfold shares. rewrite filter_app, fmap_app, filter_app. f_equal. rewrite filter_cons, filter_nil.
  destruct (decide (wid (fwWorkload w) = id)) as [Hid|Hid].
  - cbn [fmap list_fmap]. rewrite filter_cons, filter_nil. destruct (decide (keyRecords k (fwRecords w) ≠ [])) as [Hk|Hk].
    + by rewrite decide_True.
    + rewrite decide_False; [done|]. by intros [_ ?].
  - rewrite decide_False; [done|]. by intros [? _].
Qed.

Lemma totalOf_same ws w id k : wid (fwWorkload w) ≠ id ∨ keyRecords k (fwRecords w) = [] → totalOf (ws ++ [w]) id k = totalOf ws id k.
Proof.
  intros Hw. unfold totalOf. rewrite shares_snoc, decide_False, app_nil_r; [done|]. intros [? ?]. by destruct Hw.
Qed.

Lemma shares_nonempty ws id k rs : rs ∈ shares ws id k → rs ≠ [].
Proof. unfold shares. intros Hrs. by apply list_elem_of_filter in Hrs as [? _]. Qed.

(** The row of a key after a window with a share of it. *)
Lemma totalOf_upsert ws w id k m t : (∀ a b, a ≤ b → pgTime a ≤ pgTime b) → countersFit (fwRecords w) →
  wid (fwWorkload w) = id → mergeAll (keyRecords k (fwRecords w)) = Some m → upsertOf (totalOf ws id k) m = Some t →
  totalOf (ws ++ [w]) id k = Some t.
Proof.
  intros Hmono Hfit Hid Hm Hu.
  assert (keyRecords k (fwRecords w) ≠ []) as Hne by (intros Hn; by rewrite Hn in Hm).
  pose proof (countersFit_filter (λ r, Record_Key r = k) _ Hfit) as Hkfit. fold (keyRecords k (fwRecords w)) in Hkfit.
  destruct (mergeAll_spec _ _ Hkfit Hm) as (Hc & Hb & Hf & Hl & r & Er & Hp & Hrule & _).
  destruct Hkfit as (Hn & Hcb & Hbb).
  pose proof (sumOf_nonneg feConnectionCount (keyRecords k (fwRecords w)) (λ a Ha, proj1 (Hn a Ha))).
  pose proof (sumOf_nonneg feByteCount (keyRecords k (fwRecords w)) (λ a Ha, proj2 (Hn a Ha))).
  assert (Hlab : labelsOf m = labelsOf r) by (unfold labelsOf; by rewrite Hp).
  unfold upsertOf in Hu. rewrite Hlab, Hrule, Hf, Hl, <-minOf_mono, <-maxOf_mono, Hc, Hb, !i64_small in Hu by (done || lia).
  unfold totalOf. rewrite shares_snoc, decide_True by done. rewrite last_snoc. cbn [mbind option_bind].
  rewrite Er. cbn [mbind option_bind]. rewrite concat_app. cbn [concat]. rewrite app_nil_r, length_app. cbn [length].
  unfold totalOf in Hu. destruct (last (shares ws id k)) as [rs|] eqn:El.
  - assert (shares ws id k ≠ []) as Hsn by (intros Hn'; by rewrite Hn' in El).
    apply last_Some in El as [l El]. assert (rs ≠ []) as Hrs by (apply (shares_nonempty ws id k); rewrite El; apply elem_of_app; right; by left).
    assert (concat (shares ws id k) ≠ []) as Hcn.
    { rewrite El, concat_app. cbn. rewrite app_nil_r. intros [_ ?]%app_eq_nil. done. }
    destruct (lastSeenOf rs) as [r0|] eqn:E0; [|by destruct rs]. cbn [mbind option_bind upsertTotal toConnectionCount toByteCount toWindowCount toFirstSeen toLastSeen] in Hu.
    rewrite E0 in Hu. cbn [mbind option_bind upsertTotal toConnectionCount toByteCount toWindowCount toFirstSeen toLastSeen] in Hu.
    destruct (_ && _) in Hu; [|done]. rewrite minOf_app, maxOf_app, !sumOf_app by done. rewrite <-Hu. do 2 f_equal. lia.
  - apply last_None in El. rewrite El in *. cbn in *. by rewrite <-Hu.
Qed.

(** [COPY] appends the rows. *)
Lemma InsertFlowWindows_spec `{!PgLaws} w rs d d' n : sql_InsertFlowWindows (columnsOf w <$> rs) d = Ok (n, d') → flowWF d →
  n = Z.of_nat (length rs) ∧ flowWF d' ∧ fdTotals d' = fdTotals d ∧ fdKnown d' = fdKnown d ∧
  flColumns <$> fdWindows d' = (flColumns <$> fdWindows d) ++ (columnsOf w <$> rs).
Proof.
  unfold sql_InsertFlowWindows. destruct (forallb _ _); [|done]. intros [= <- <-] [Hids Hnext Htimes Hg1 Hg2 Hg3].
  rewrite length_fmap. destruct (numberRows_ids (fdNextWindow d) (columnsOf w <$> rs)) as [Hn Hf]. rewrite length_fmap in Hf.
  split; [done|]. split; [|cbn; rewrite fmap_app, numberRows_columns; done]. split; cbn; try done.
  - rewrite fmap_app, NoDup_app. split; [done|]. split; [|done]. intros i Hi Hi'.
    apply list_elem_of_fmap in Hi as (r & -> & Hr). apply list_elem_of_fmap in Hi' as (r' & He & Hr').
    apply (proj1 (Forall_forall _ _) Hnext) in Hr. apply (proj1 (Forall_forall _ _) Hf) in Hr'. cbn in Hr, Hr'. lia.
  - apply Forall_app. split; [apply (Forall_impl _ _ _ Hnext)|apply (Forall_impl _ _ _ Hf)]; cbn; intros r Hr; lia.
  - apply Forall_app. split; [done|]. apply Forall_forall. intros r Hr.
    assert (flColumns r ∈ (columnsOf w <$> rs)) as Hc by (rewrite <-(numberRows_columns (fdNextWindow d)); by apply list_elem_of_fmap_2).
    apply list_elem_of_fmap in Hc as (e & -> & _). cbn. apply pgTime_idemp.
Qed.

(** The transaction of a window: its rows, its totals, its gaps. *)
Lemma writeWindow_spec `{!PgLaws} now w d d' n : writeWindow now w d = Ok (n, d') → flowWF d →
  n = Z.of_nat (length (fwRecords w)) ∧ flowWF d' ∧
  flColumns <$> fdWindows d' = (flColumns <$> fdWindows d) ++ (columnsOf w <$> fwRecords w) ∧
  (∀ k m, mergeAll (keyRecords k (fwRecords w)) = Some m →
     fdTotals d' !! (wid (fwWorkload w), k) = upsertOf (fdTotals d !! (wid (fwWorkload w), k)) m ∧
     is_Some (fdTotals d' !! (wid (fwWorkload w), k))) ∧
  (∀ id k, wid (fwWorkload w) ≠ id ∨ keyRecords k (fwRecords w) = [] → fdTotals d' !! (id, k) = fdTotals d !! (id, k)).
Proof.
  unfold writeWindow. intros ([[] d1] & Hg & Hw)%result_bind_Ok Hwf. apply writeGaps_spec in Hg as [Hd1 Hwf1]; [|done].
  assert (fdWindows d1 = fdWindows d ∧ fdTotals d1 = fdTotals d) as [Hw1 Ht1] by (rewrite Hd1; done). clear Hd1.
  rewrite <-Hw1, <-Ht1. clear Hw1 Ht1 Hwf d. destruct (decide (fwRecords w = [])) as [E|Hne].
  { injection Hw as <- <-. rewrite E. cbn [fmap list_fmap keyRecords]. rewrite app_nil_r. done. }
  apply result_bind_Ok in Hw as ([n2 d2] & Hi & Hw). apply InsertFlowWindows_spec in Hi as (-> & Hwf2 & Ht2 & _ & Hc2); [|done].
  apply result_bind_Ok in Hw as ([[] d3] & Hu & [= <- <-]). destruct (AggregateTotals_spec (fwRecords w)) as [Hnd Hag].
  apply upserts_spec in Hu as (Hd3 & Hin & Hout); [|done]. rewrite Ht2 in Hin, Hout. split; [done|].
  split. { rewrite Hd3. by destruct Hwf2. }
  split. { rewrite Hd3. done. } split.
  - intros k m Hm. assert (Record_Key m = k) as Hk by (by apply (mergeAll_key (fwRecords w))).
    subst k. apply Hin. by apply Hag.
  - intros id k Hk. apply Hout. destruct Hk as [Hk|Hk]; [left; congruence|right].
    intros (m & -> & Hm)%list_elem_of_fmap. apply Hag in Hm. by rewrite Hk in Hm.
Qed.
End store.
