(* ===== verification/FlowsProps.v ===== *)
(** * The flow store: its histories and its retention

    A history is any sequence of writes, derived gaps and batches of the retention, each
    with any answer of the server.  The totals of every flow are those of the windows that
    were committed, however much was pruned; the window rows are the committed ones, down to
    the horizons that were pruned to; and a run of the retention removes exactly what is
    older than its horizon. *)

From S2P Require Import Prelude GoStd Netip Wire Uuid Identity Ingest IngestService Enforce Collect Postgres PolicyStore PolicyStoreProps RegistryStore Flows FlowReads FlowsFacts.
Local Open Scope Z_scope.

Section histories.
Context `{ul : UUIDLib, pg : PgLib, lj : LabelsJSON}.

(** ** Histories *)

Inductive FlowOp :=
  | OpWindow (ans : Answer) (now : Z) (w : FlowWindow)
  | OpGaps (ans : Answer) (now : Z) (id : WorkloadID) (gaps : list FlowGap)
  | OpPrune (held : bool) (ans : Answer) (horizon : Z).

Definition flowStep (d : FlowDB) (op : FlowOp) : FlowDB :=
  match op with
  | OpWindow ans now w => (WriteWindow ans now w d).2
  | OpGaps ans now id gaps => (WriteGaps ans now id gaps d).2
  | OpPrune held ans horizon => (pruneBatch held ans horizon d).2
  end.

(** The windows whose transaction takes effect. *)
Definition committed (d : FlowDB) (op : FlowOp) : list FlowWindow :=
  match op with
  | OpWindow ans now w => match ans, writeWindow now w d with Fails, _ | _, Err _ => [] | _, Ok _ => [w] end
  | _ => []
  end.

Fixpoint flowHistory (ops : list FlowOp) (d : FlowDB) (ws : list FlowWindow) : FlowDB * list FlowWindow :=
  match ops with
  | [] => (d, ws)
  | op :: ops => flowHistory ops (flowStep d op) (ws ++ committed d op)
  end.

Definition emptyFlows (known : gset UUID) : FlowDB := MkFlowDB known [] 1 ∅ [] 1.

(** The counters of a window stay in 63 bits, and no batch is pruned beyond [hz]. *)
Definition opFits (hz : Z) (op : FlowOp) : Prop :=
  match op with
  | OpWindow _ _ w => countersFit (fwRecords w)
  | OpGaps _ _ _ _ => True
  | OpPrune _ _ horizon => pgTime horizon ≤ hz
  end.

(** ** The invariant of a history *)

Record tracks (hz : Z) (ws : list FlowWindow) (d : FlowDB) : Prop := {
  tr_wf : flowWF d;
  tr_totals id k : fdTotals d !! (id, k) = totalOf ws id k;
  tr_rows : filter (λ c, hz ≤ fcStart c) (flColumns <$> fdWindows d) = filter (λ c, hz ≤ fcStart c) (rowsOf ws);
}.

Lemma tracks_empty hz known : tracks hz [] (emptyFlows known).
Proof. split; [split; cbn; constructor|done|done]. Qed.

Lemma tracks_window `{!PgLaws} hz ws d now w n d' : (∀ a b, a ≤ b → pgTime a ≤ pgTime b) → countersFit (fwRecords w) →
  tracks hz ws d → writeWindow now w d = Ok (n, d') → tracks hz (ws ++ [w]) d'.
Proof.
  intros Hmono Hfit [Hwf Ht Hr] Hw. apply writeWindow_spec in Hw as (_ & Hwf' & Hc & Hin & Hout); [|done]. split; [done| |].
  - intros id k. destruct (decide (wid (fwWorkload w) = id)) as [<-|Hid].
    + destruct (mergeAll (keyRecords k (fwRecords w))) as [m|] eqn:Em.
      * destruct (Hin k m Em) as [Hu [t Et]]. rewrite Et in *. symmetry. eapply totalOf_upsert; [done..|]. by rewrite <-Ht.
      * assert (keyRecords k (fwRecords w) = []) by (by destruct (keyRecords k (fwRecords w))).
        rewrite Hout, totalOf_same by (by right). apply Ht.
    + rewrite Hout, totalOf_same by (by left). apply Ht.
  - rewrite Hc. unfold rowsOf. rewrite bind_app, !filter_app, Hr. cbn. by rewrite app_nil_r.
Qed.

Lemma tracks_gaps hz ws d now id gaps d' : tracks hz ws d → flow_writeGaps now id gaps d = Ok ((), d') → tracks hz ws d'.
Proof.
  intros [Hwf Ht Hr] Hg. apply writeGaps_spec in Hg as [Hd Hwf']; [|done]. split; [done| |]; rewrite Hd; done.
Qed.

Lemma filter_columns P `{∀ c, Decision (P c)} (rows : list flowRow) : filter P (flColumns <$> rows) = flColumns <$> filter (λ r, P (flColumns r)) rows.
Proof.
  induction rows as [|r rows IH]; [done|]. cbn [fmap list_fmap]. rewrite !filter_cons, IH. by destruct (decide (P (flColumns r))).
Qed.

(** Deleting the oldest rows keeps a table well formed. *)
Lemma flowWF_delete d (P : flowRow → Prop) (Q : gapRow → Prop) `{∀ r, Decision (P r), ∀ g, Decision (Q g)} :
  flowWF d → flowWF (MkFlowDB (fdKnown d) (filter P (fdWindows d)) (fdNextWindow d) (fdTotals d) (filter Q (fdGaps d)) (fdNextGap d)).
Proof.
  intros [H1 H2 H3 H4 H5 H6]. split; cbn.
  1: apply (sublist_NoDup _ _ H1). 4: apply (sublist_NoDup _ _ H4). 6: apply (sublist_NoDup _ _ H6).
  1,4,6: apply fmap_sublist, sublist_filter.
  all: apply Forall_forall; intros r [_ Hr]%list_elem_of_filter; revert r Hr; by apply Forall_forall.
Qed.

Definition prunedOnce (horizon : Z) (d : FlowDB) : FlowDB :=
  MkFlowDB (fdKnown d)
    (filter (λ r, flID r ∉ oldestIDs flID (λ r, fcStart (flColumns r)) (pgTime horizon) pruneBatchSize (fdWindows d)) (fdWindows d))
    (fdNextWindow d) (fdTotals d)
    (filter (λ r, gpID r ∉ oldestIDs gpID (λ r, gkTo (gpKey r)) (pgTime horizon) pruneBatchSize (fdGaps d)) (fdGaps d)) (fdNextGap d).

Lemma pruneBatch_cases held ans horizon d :
  (pruneBatch held ans horizon d).2 = d ∨ (pruneBatch held ans horizon d).2 = prunedOnce horizon d.
Proof. unfold pruneBatch. destruct held, ans; cbn; auto. Qed.

Lemma tracks_pruned hz ws d horizon : pgTime horizon ≤ hz → tracks hz ws d → tracks hz ws (prunedOnce horizon d).
Proof.
  intros Hh [Hwf Ht Hr]. split; [by apply flowWF_delete|done|]. rewrite <-Hr. cbn [fdWindows prunedOnce]. rewrite !filter_columns. f_equal.
  apply oldest_left_new; [apply Hwf|]. intros r Hrr. cbn in *. lia.
Qed.

Lemma tracks_step `{!PgLaws} hz ws d op : (∀ a b, a ≤ b → pgTime a ≤ pgTime b) → opFits hz op →
  tracks hz ws d → tracks hz (ws ++ committed d op) (flowStep d op).
Proof.
  intros Hmono Hfit Htr. destruct op as [ans now w|ans now id gaps|held ans horizon]; cbn [flowStep committed opFits] in *.
  - unfold WriteWindow. destruct (decide _) as [[Hrec Hgap]|_].
    + assert (writeWindow now w d = Ok (0, d)) as Hw by (unfold writeWindow; rewrite Hgap, Hrec; done).
      rewrite Hw. assert (tracks hz (ws ++ [w]) d) by (by eapply tracks_window).
      destruct ans; rewrite ?app_nil_r; done.
    + unfold flowCall. destruct (writeWindow now w d) as [[n d']|e] eqn:Ew; destruct ans; rewrite ?app_nil_r; try done; by eapply tracks_window.
  - rewrite app_nil_r. unfold WriteGaps. destruct (decide _); [done|]. unfold flowCall.
    destruct (flow_writeGaps now id gaps d) as [[[] d']|e] eqn:Eg; destruct ans; try done; by eapply tracks_gaps.
  - rewrite app_nil_r. destruct (pruneBatch_cases held ans horizon d) as [-> | ->]; [done|]. by apply tracks_pruned.
Qed.

Lemma tracks_history `{!PgLaws} hz ops ws d : (∀ a b, a ≤ b → pgTime a ≤ pgTime b) → Forall (opFits hz) ops →
  tracks hz ws d → tracks hz (flowHistory ops d ws).2 (flowHistory ops d ws).1.
Proof.
  intros Hmono Hops. revert ws d. induction Hops as [|op ops Hop _ IH]; intros ws d Htr; [done|].
  cbn [flowHistory]. apply IH. by apply tracks_step.
Qed.

(** ** The retention *)

Definition oldWindows (horizon : Z) (d : FlowDB) : list flowRow := filter (λ r, fcStart (flColumns r) < pgTime horizon) (fdWindows d).
Definition oldGaps (horizon : Z) (d : FlowDB) : list gapRow := filter (λ r, gkTo (gpKey r) < pgTime horizon) (fdGaps d).
Definition retained (horizon : Z) (d : FlowDB) : FlowDB :=
  MkFlowDB (fdKnown d) (filter (λ r, pgTime horizon ≤ fcStart (flColumns r)) (fdWindows d)) (fdNextWindow d) (fdTotals d)
    (filter (λ r, pgTime horizon ≤ gkTo (gpKey r)) (fdGaps d)) (fdNextGap d).

Lemma pruneBatch_done horizon d : flowWF d →
  pruneBatch true Answers horizon d =
    (BatchDone (Nat.min pruneBatchSize (length (oldWindows horizon d))) (Nat.min pruneBatchSize (length (oldGaps horizon d))), prunedOnce horizon d).
Proof.
  intros Hwf. unfold pruneBatch. cbn [flowCall sql_DeleteFlowWindowsBefore mbind result_bind sql_DeleteFlowGapsBefore fdGaps].
  unfold oldWindows, oldGaps. rewrite <-(oldest_count flID (λ r, fcStart (flColumns r)) _ _ _ (wf_ids _ Hwf)).
  by rewrite <-(oldest_count gpID (λ r, gkTo (gpKey r)) _ _ _ (wf_gapIDs _ Hwf)).
Qed.

Lemma prunedOnce_left horizon d : flowWF d →
  length (oldWindows horizon (prunedOnce horizon d)) = (length (oldWindows horizon d) - pruneBatchSize)%nat ∧
  length (oldGaps horizon (prunedOnce horizon d)) = (length (oldGaps horizon d) - pruneBatchSize)%nat ∧
  flowWF (prunedOnce horizon d) ∧ retained horizon (prunedOnce horizon d) = retained horizon d.
Proof.
  intros Hwf. split; [apply (oldest_left_count flID (λ r, fcStart (flColumns r))), Hwf|].
  split; [apply (oldest_left_count gpID (λ r, gkTo (gpKey r))), Hwf|]. split; [by apply flowWF_delete|].
  unfold retained, prunedOnce. cbn [fdKnown fdWindows fdNextWindow fdTotals fdGaps fdNextGap].
  rewrite !oldest_left_new by (done || apply Hwf). done.
Qed.

Lemma retained_all horizon d : length (oldWindows horizon d) = 0%nat → length (oldGaps horizon d) = 0%nat → retained horizon d = d.
Proof.
  intros Hw Hg. apply nil_length_inv in Hw, Hg. unfold oldWindows in Hw. unfold oldGaps in Hg. unfold retained.
  rewrite (filter_ext_in _ (λ _, True)), (filter_ext_in (λ r, pgTime horizon ≤ gkTo (gpKey r)) (λ _, True)).
  - assert (∀ A (l : list A), filter (λ _, True) l = l) as Hall by (intros A l; induction l as [|a l IH]; [done|]; rewrite filter_cons, IH; done).
    rewrite !Hall. by destruct d.
  - intros g Hin. split; [done|]. intros _. destruct (decide (pgTime horizon ≤ gkTo (gpKey g))) as [?|Hn]; [done|].
    assert (g ∈ filter (λ r, gkTo (gpKey r) < pgTime horizon) (fdGaps d)) as He by (apply list_elem_of_filter; split; [lia|done]).
    rewrite Hg in He. by apply not_elem_of_nil in He.
  - intros r Hin. split; [done|]. intros _. destruct (decide (pgTime horizon ≤ fcStart (flColumns r))) as [?|Hn]; [done|].
    assert (r ∈ filter (λ r, fcStart (flColumns r) < pgTime horizon) (fdWindows d)) as He by (apply list_elem_of_filter; split; [lia|done]).
    rewrite Hw in He. by apply not_elem_of_nil in He.
Qed.

(** Batches go on until both tables are done, each batch with something to delete. *)
Lemma pruneLoop_exact horizon fuel total n d : flowWF d → (length (oldWindows horizon d) + length (oldGaps horizon d) < fuel)%nat →
  pruneLoop fuel (λ _, true) (λ _, Answers) (λ _ d, d) horizon total n d =
    (Some ((total + length (oldWindows horizon d))%nat, true, false), retained horizon d).
Proof.
  revert total n d. induction fuel as [|fuel IH]; intros total n d Hwf Hf; [lia|]. cbn [pruneLoop]. rewrite pruneBatch_done by done.
  destruct (prunedOnce_left horizon d Hwf) as (Hw & Hg & Hwf' & Hr).
  assert (0 < pruneBatchSize)%nat as Hpos by (unfold pruneBatchSize; lia).
  destruct (decide _) as [[Hlw Hlg]|Hfull].
  - rewrite <-Hr, retained_all by lia. do 4 f_equal. lia.
  - rewrite IH by (done || lia). rewrite Hr, Hw. do 4 f_equal. lia.
Qed.

Lemma pruneLoop_ends horizon held answers fuel total n d : flowWF d → (length (oldWindows horizon d) + length (oldGaps horizon d) < fuel)%nat →
  let r := pruneLoop fuel held answers (λ _ d, d) horizon total n d in
  is_Some r.1 ∧ retained horizon r.2 = retained horizon d.
Proof.
  assert (0 < pruneBatchSize)%nat as Hpos by (unfold pruneBatchSize; lia).
  revert total n d. induction fuel as [|fuel IH]; intros total n d Hwf Hf; [lia|]. cbn [pruneLoop].
  destruct (prunedOnce_left horizon d Hwf) as (Hw & Hg & Hwf' & Hr).
  destruct (held n), (answers n); try (rewrite pruneBatch_done by done); cbn -[pruneBatchSize retained prunedOnce]; eauto.
  all: try (unfold pruneBatch; cbn -[pruneBatchSize retained]; eauto).
  destruct (decide _) as [[Hlw Hlg]|Hfull]; [by eauto|]. rewrite <-Hr. apply IH; [done|lia].
Qed.
End histories.

(** ** The properties *)


(** C35: a run of the retention returns.  Whatever the lock and the answers of its batches
    are, it needs no more rounds than there are rows, and what started, or ended, at the
    horizon or later is as it was; when it holds the lock and is answered throughout, it
    reports the number of windows that started before the horizon and leaves exactly the
    windows and gaps that did not, in their order, with the totals untouched. *)
Theorem Retention_exact `{ul : UUIDLib, pg : PgLib, lj : LabelsJSON} (configured now : Z) (held : nat → bool) (answers : nat → Answer) (d : FlowDB) :
  flowWF d →
  let horizon := now - retentionHorizon configured in
  let fuel := S (length (fdWindows d) + length (fdGaps d)) in
  let r := RunOnce configured now fuel held answers (λ _ d, d) d in
  is_Some r.1 ∧ retained horizon r.2 = retained horizon d ∧
  RunOnce configured now fuel (λ _, true) (λ _, Answers) (λ _ d, d) d = (Some (length (oldWindows horizon d), true, false), retained horizon d).
Proof.
  intros Hwf horizon fuel r.
  assert (length (oldWindows horizon d) + length (oldGaps horizon d) < fuel)%nat as Hfuel.
  { unfold fuel, oldWindows, oldGaps.
    pose proof (length_filter (λ r, fcStart (flColumns r) < pgTime horizon) (fdWindows d)).
    pose proof (length_filter (λ r, gkTo (gpKey r) < pgTime horizon) (fdGaps d)). lia. }
  destruct (pruneLoop_ends horizon held answers fuel 0 0 d Hwf Hfuel) as [Hs Hr]. split; [done|]. split; [done|].
  unfold RunOnce, PruneWindows. fold horizon. by rewrite pruneLoop_exact.
Qed.

(** ** An example *)

Module FlowsExample.
Import Uuid128 AuthoredExample.

(** Any encoding that can be read back, for the witnesses. *)
#[global] Instance labelsJSON : LabelsJSON := {
  json_Marshal m := Some [Zpos (encode m)];
  json_Unmarshal b := match b with [Zpos p] => default ∅ (decode p) | _ => ∅ end;
  pg_jsonb b := b;
}.

Lemma pgTime_mono a b : a ≤ b → pgTime a ≤ pgTime b.
Proof. intros Hab. cbn. pose proof (Z.div_le_mono a b 1000 ltac:(lia) Hab). lia. Qed.

Definition theUUID : UUID := of_Z 7.
Definition web01 : WorkloadID := FromUUID theUUID.
Definition entry (src : Z) (conns bytes first last : Z) : FlowEntry :=
  MkFlowEntry (FlowPeerWorkload "peer" {[ "app"%string := "db"%string ]}) (Addr4 src) (Addr4 9) 5432 PROTOCOL_TCP DIRECTION_INBOUND
    POLICY_DECISION_ALLOWED "rule" conns bytes first last "postgres".
Definition window (start : Z) (rs : list FlowEntry) : FlowWindow :=
  MkFlowWindow _ web01 start (start + 1000) rs [MkFlowGap EVIDENCE_GAP_KIND_SOURCE_OVERRUN EVIDENCE_SOURCE_UNSPECIFIED 0 0 (Some 3)].
Definition ops : list FlowOp :=
  [OpWindow Answers 0 (window 1000 [entry 1 2 10 1000 2000; entry 2 3 20 0 1000]);
   OpWindow Fails 0 (window 3000 [entry 1 50 50 3000 3000]);
   OpWindow AnswerLost 0 (window 5000 [entry 1 1 1 5000 6000]);
   OpGaps Answers 0 web01 [MkFlowGap EVIDENCE_GAP_KIND_SOURCE_OVERRUN EVIDENCE_SOURCE_UNSPECIFIED 0 0 (Some 3)];
   OpPrune true Answers 3000].
Definition known : gset UUID := {[ theUUID ]}.
Definition after : FlowDB := (flowHistory ops (emptyFlows known) []).1.

(** Two windows of the three are committed; their rows but the pruned ones are left, the
    gap they report once, and the totals are of both. *)
Example after_tables :
  (length (fdWindows after), length (fdGaps after), (λ t, (toConnectionCount t, toByteCount t, toWindowCount t, toFirstSeen t, toLastSeen t)) <$>
     (map_to_list (fdTotals after)).*2) = (1%nat, 0%nat, [(6, 31, 2, 0, 6000)]).
Proof. vm_compute. reflexivity. Qed.

Lemma ops_fit : Forall (opFits 3000) ops.
Proof.
  repeat apply Forall_cons_2; [..|by apply Forall_nil_2]; cbn [opFits]; try done.
  all: split; [|split; cbn; lia]; cbn [fwRecords window]; intros r Hr; repeat (apply elem_of_cons in Hr as [-> |Hr]; [cbn; lia|]); by apply not_elem_of_nil in Hr.
Qed.


Lemma after_wf : flowWF after.
Proof. apply (tr_wf _ _ _ (tracks_history 3000 ops [] _ pgTime_mono ops_fit (tracks_empty 3000 known))). Qed.

Lemma Retention_exact_witness : (RunOnce 1000 7000 (S (S O)) (λ _, true) (λ _, Answers) (λ _ d, d) after).1 = Some (1%nat, true, false).
Proof.
  destruct (Retention_exact 1000 7000 (λ _, true) (λ _, Answers) after after_wf) as (_ & _ & Hr).
  exact (f_equal fst Hr).
Defined.
End FlowsExample.
