(* ===== verification/ReadModelProps.v ===== *)
(** * The read model: cursors, pages, rollups and counts

    A cursor the read issued is read back as the position it was made of, and one of another
    read is refused; walking the pages of a workload's flows by their cursors shows every
    flow once, newest first; and a rollup counts the records its scope selects. *)

From S2P Require Import Prelude GoStd Strconv Netip Wire Uuid Identity Sha256 Rendered Registry Policy Validate Ingest IngestService Enroll Token Enforce Collect Postgres PolicyStore PolicyStoreProps RegistryStore Flows FlowReads FlowsFacts FlowsProps ReadModel.
From Stdlib Require Import Ascii.
Local Open Scope Z_scope.

(** ** Names and cursors *)

Lemma FormatInt_no_bar n : contains_byte "|" (FormatInt n) = false.
Proof. by apply FormatInt_free. Qed.

(** The names of the enumerations are read back, also with dashes for the verdicts. *)
Lemma names_roundtrip n : 1 ≤ n ≤ 4 →
  ParseVerdict (VerdictName n) = Some n ∧ ParseVerdict (ReplaceByte "_" "-" (VerdictName n)) = Some n ∧ ParseSyncState (SyncStateName n) = Some n.
Proof.
  intros Hn. assert (n = 1 ∨ n = 2 ∨ n = 3 ∨ n = 4) as Hc by lia. repeat (destruct Hc as [-> |Hc]; [vm_compute; done|]). subst. vm_compute. done.
Qed.

(** ** Cursors *)

Lemma bytes_string_bytes s : bytes_string (string_bytes s) = s.
Proof.
  unfold bytes_string, string_bytes. rewrite <-list_fmap_compose.
  rewrite (list_fmap_ext _ id) by (intros _ c _; cbn; by rewrite N2Z.id, ascii_N_embedding).
  by rewrite list_fmap_id, String.string_of_list_ascii_of_string.
Qed.
Lemma string_bytes_list s : byte_list (string_bytes s).
Proof.
  unfold byte_list, string_bytes. apply Forall_fmap, Forall_true. intros c. cbn. pose proof (N_ascii_bounded c). lia.
Qed.

(** A cursor is read back as its parts. *)
Lemma decodeCursor_encode k kind n a parts :
  contains_byte "|" k = false → Forall (λ p, contains_byte "|" p = false) (a :: parts) →
  decodeCursor (encodeCursor (k :: a :: parts)) kind n = if decide (length (a :: parts) = n ∧ k = kind) then Some (a :: parts) else None.
Proof.
  intros Hk Hp. unfold decodeCursor, encodeCursor. rewrite RawURLEncoding_roundtrip by apply string_bytes_list. cbn [mbind option_bind].
  rewrite bytes_string_bytes.
  assert (∀ ps x, contains_byte "|" x = false → Forall (λ p, contains_byte "|" p = false) ps → Split (Join (x :: ps) "|") "|" = x :: ps) as Hs.
  { induction ps as [|y ps IH]; intros x Hx Hps; [by apply Split_single|]. apply Forall_cons in Hps as [Hy Hps].
    change (Join (x :: y :: ps) "|") with (x +:+ String "|" (Join (y :: ps) "|")). rewrite Split_app by done. by rewrite IH. }
  by rewrite Hs.
Qed.

Lemma decodeFlowsCursor_encode c : - 2 ^ 63 ≤ wcStart c < 2 ^ 63 → - 2 ^ 63 ≤ wcID c < 2 ^ 63 →
  decodeFlowsCursor (encodeFlowsCursor c) = Some (Some c).
Proof.
  intros Hs Hi. unfold decodeFlowsCursor, encodeFlowsCursor. rewrite decide_False.
  2:{ intros He. assert (RawURLEncoding_DecodeString "" = Some []) as Hd by done. unfold encodeCursor in He. rewrite <-He in Hd.
      rewrite RawURLEncoding_roundtrip in Hd by apply string_bytes_list. done. }
  rewrite decodeCursor_encode by (repeat constructor; apply FormatInt_no_bar). rewrite decide_True by done. cbn [mbind option_bind].
  unfold cursorTime. rewrite i64_small by done. rewrite !ParseInt_FormatInt by done. cbn. by destruct c.
Qed.

(** ** Pages *)

Lemma filter_shrinks {A} (P Q : A → Prop) `{∀ a, Decision (P a), ∀ a, Decision (Q a)} (l : list A) x :
  (∀ a, Q a → P a) → x ∈ l → P x → ¬ Q x → (length (filter Q l) < length (filter P l))%nat.
Proof.
  intros HQP Hx HPx HQx. assert (∀ l : list A, length (filter Q l) ≤ length (filter P l))%nat as Hle.
  { clear l Hx. induction l as [|a l IH]; [done|]. rewrite !filter_cons. repeat case_decide; cbn; try lia. naive_solver. }
  induction l as [|a l IH]; [by apply not_elem_of_nil in Hx|]. rewrite !filter_cons. apply elem_of_cons in Hx as [->|Hx].
  - rewrite decide_False by done. rewrite decide_True by done. cbn. pose proof (Hle l). lia.
  - pose proof (IH Hx). repeat case_decide; cbn; try lia. naive_solver.
Qed.

Section pages.
Context `{ul : UUIDLib, pg : PgLib, lj : LabelsJSON}.

#[local] Instance newest_total : base.Total newest.
Proof. intros a b. unfold newest. lia. Qed.
#[local] Instance newest_trans : Transitive newest.
Proof. intros a b c. unfold newest. lia. Qed.

Definition cursorOf (r : flowRow) : WindowCursor := MkWindowCursor (fcStart (flColumns r)) (flID r).
Definition newer (a b : flowRow) : Prop :=
  fcStart (flColumns b) < fcStart (flColumns a) ∨ fcStart (flColumns a) = fcStart (flColumns b) ∧ flID b < flID a.

Lemma beyond_cursorOf a r : pgTime (fcStart (flColumns a)) = fcStart (flColumns a) → beyond (cursorOf a) r = true ↔ newer a r.
Proof.
  intros Ha. unfold beyond, cursorOf, newer. cbn [wcStart wcID]. rewrite Ha, orb_true_iff, andb_true_iff, !bool_decide_eq_true. lia.
Qed.

Lemma newer_sorted rows : NoDup (flID <$> rows) → StronglySorted newer (merge_sort newest rows).
Proof.
  intros Hnd. assert (NoDup (flID <$> merge_sort newest rows)) as Hn by (by rewrite (merge_sort_Permutation newest rows)).
  pose proof (StronglySorted_merge_sort newest rows) as Hs. revert Hn. induction Hs as [|r l _ IH Hr]; [constructor|].
  cbn [fmap list_fmap]. intros [Hni Hl]%NoDup_cons. constructor; [by apply IH|]. apply Forall_forall. intros r' Hr'.
  pose proof (proj1 (Forall_forall _ _) Hr r' Hr') as Hle. assert (flID r ≠ flID r') as Hne.
  { intros He. apply Hni. rewrite He. by apply list_elem_of_fmap_2. }
  unfold newest in Hle. unfold newer. lia.
Qed.

(** The rows a page is cut from. *)
Definition candidates (q : WindowPageQuery) (c : WindowCursor) (d : FlowDB) : list flowRow :=
  merge_sort newest (filter (λ r, pageSelects q (flColumns r) && beyond c r = true) (fdWindows d)).

Lemma candidates_in q c d r : r ∈ candidates q c d ↔ r ∈ fdWindows d ∧ pageSelects q (flColumns r) = true ∧ beyond c r = true.
Proof.
  unfold candidates. rewrite (merge_sort_Permutation newest). rewrite list_elem_of_filter, andb_true_iff. tauto.
Qed.

Lemma candidates_sorted q c d : flowWF d → StronglySorted newer (candidates q c d).
Proof.
  intros Hwf. apply newer_sorted. eapply sublist_NoDup; [apply (wf_ids _ Hwf)|]. apply fmap_sublist, sublist_filter.
Qed.

(** The query of a request that gives its range. *)
Definition queryOf (req : FlowsRequest) (from to : Z) : WindowPageQuery :=
  MkWindowPageQuery (fqWorkload req) from to (fqVerdict req) (fqDirection req) (fqPeer req)
    (from_option (λ v, Protocol_number (svProtocol v)) 0 (fqService req)) (from_option svPort 0 (fqService req)) (pageLimit (fqLimit req) + 1).
Definition withCursor (req : FlowsRequest) (cursor : string) : FlowsRequest :=
  MkFlowsRequest (fqWorkload req) (fqFrom req) (fqTo req) (fqVerdict req) (fqDirection req) (fqPeer req) (fqService req) cursor (fqLimit req).

Definition flowsOf (nm : names) (rows : list flowRow) : list Flow := flowOf nm <$> (windowRowFromDB <$> rows).

(** What a page shows of the candidates, and where the next one starts. *)
Lemma ListFlows_page s d req from to cursor before rec nm : IsZero (fqWorkload req) = false → fqFrom req = Some from → fqTo req = Some to → from < to →
  decodeFlowsCursor cursor = Some before → rdGetWorkloadRecord s (fqWorkload req) = Ok rec → loadNames s = Ok nm →
  let rows := take (Z.to_nat (boundedPageLimit (pageLimit (fqLimit req) + 1))) (candidates (queryOf req from to) (default firstCursor before) d) in
  let more := bool_decide (pageLimit (fqLimit req) < Z.of_nat (length rows)) in
  let shown := if more then take (Z.to_nat (pageLimit (fqLimit req))) rows else rows in
  ListFlows s d (withCursor req cursor) =
    Ok (MkFlowsPage (workloadRef (wrWorkloadOf rec)) (MkRange from to) (flowsOf nm shown)
          (if more then from_option (λ r, encodeFlowsCursor (cursorOf r)) ""%string (last shown) else "")).
Proof.
  intros Hz Hf Ht Hlt Hc Hrec Hnm rows more shown. unfold ListFlows, withCursor, resolveRange.
  cbn [fqWorkload fqFrom fqTo fqCursor fqLimit fqVerdict fqDirection fqPeer fqService]. rewrite Hz, Hf, Ht. cbn [default from_option].
  unfold Datatypes.id. rewrite decide_False by lia. cbn [mbind result_bind rgFrom rgTo]. rewrite Hc, Hrec. cbn [mbind result_bind]. rewrite Hnm.
  cbn [mbind result_bind]. unfold ListWindowPage, sql_ListFlowWindowPage. cbn [wqLimit]. fold (queryOf req from to). fold (candidates (queryOf req from to) (default firstCursor before) d).
  fold rows. rewrite length_fmap. fold more. unfold flowsOf, shown. destruct more; [|done].
  rewrite <-fmap_take. f_equal. f_equal. rewrite fmap_last. by destruct (last (take (Z.to_nat (pageLimit (fqLimit req))) rows)).
Qed.

(** A client follows the cursors; other writers change the tables between the pages. *)
Fixpoint walkFlows (fuel : nat) (s : Reader) (dbs : nat → FlowDB) (req : FlowsRequest) (n : nat) (cursor : string) : option (list Flow) :=
  match fuel with
  | O => None
  | S fuel =>
      match ListFlows s (dbs n) (withCursor req cursor) with
      | Err _ => None
      | Ok page =>
          if decide (fpNext page = "") then Some (fpFlows page)
          else rest ← walkFlows fuel s dbs req (S n) (fpNext page); Some (fpFlows page ++ rest)
      end
  end.

Lemma encodeFlowsCursor_nonempty c : encodeFlowsCursor c ≠ "".
Proof.
  intros He. assert (RawURLEncoding_DecodeString "" = Some []) as Hd by done. unfold encodeFlowsCursor, encodeCursor in He.
  rewrite <-He in Hd. rewrite RawURLEncoding_roundtrip in Hd by apply string_bytes_list. done.
Qed.

Lemma StronglySorted_take_last (R : relation flowRow) l k x y :
  StronglySorted R l → last (take k l) = Some x → y ∈ drop k l → R x y.
Proof.
  intros Hs Hx Hy. rewrite <-(take_drop k l) in Hs. apply last_Some in Hx as [l' Hx]. rewrite Hx in Hs.
  rewrite <-app_assoc in Hs. clear Hx. induction l' as [|z l' IH]; cbn in Hs.
  - apply StronglySorted_inv in Hs as [_ Hf]. by apply (proj1 (Forall_forall _ _) Hf).
  - apply StronglySorted_inv in Hs as [Hs _]. by apply IH.
Qed.
Lemma StronglySorted_take (R : relation flowRow) l k : StronglySorted R l → StronglySorted R (take k l).
Proof.
  intros Hs. revert k. induction Hs as [|x l Hs IH Hx]; intros [|k]; cbn; try constructor; [apply IH|by apply Forall_take].
Qed.
Lemma StronglySorted_to_last (R : relation flowRow) l x a : StronglySorted R l → last l = Some x → a ∈ l → a = x ∨ R a x.
Proof.
  intros Hs Hx Ha. apply last_Some in Hx as [l' ->]. induction l' as [|z l' IH]; cbn in Hs.
  - left. by apply list_elem_of_singleton.
  - apply StronglySorted_inv in Hs as [Hs Hz]. apply elem_of_cons in Ha as [->|Ha]; [|by apply IH].
    right. apply Forall_app in Hz as [_ Hz]. by apply Forall_cons in Hz as [? _].
Qed.
Lemma StronglySorted_app_via (R : relation flowRow) l1 l2 : StronglySorted R l1 → StronglySorted R l2 →
  (∀ x y, x ∈ l1 → y ∈ l2 → R x y) → StronglySorted R (l1 ++ l2).
Proof.
  intros H1 H2 H12. induction H1 as [|x l Hs IH Hx]; [done|]. cbn. constructor.
  - apply IH. intros y z Hy. apply H12. by right.
  - apply Forall_app. split; [done|]. apply Forall_forall. intros y Hy. apply H12; [by left|done].
Qed.

(** The hypotheses of a walk: the request, the answers of the store, and the tables, whose
    rows are among [all]; a selected row of the first state stays. *)
Record walkable (s : Reader) (dbs : nat → FlowDB) (req : FlowsRequest) (from to : Z) (nm : names) (all : list flowRow) : Prop := {
  wa_workload : IsZero (fqWorkload req) = false;
  wa_from : fqFrom req = Some from;
  wa_to : fqTo req = Some to;
  wa_range : from < to;
  wa_limit : fqLimit req < MaxPageLimit;
  wa_record : ∃ rec, rdGetWorkloadRecord s (fqWorkload req) = Ok rec;
  wa_names : loadNames s = Ok nm;
  wa_wf n : flowWF (dbs n);
  wa_all n r : r ∈ fdWindows (dbs n) → r ∈ all;
  wa_stays n r : r ∈ fdWindows (dbs 0%nat) → pageSelects (queryOf req from to) (flColumns r) = true → r ∈ fdWindows (dbs n);
  wa_words r : r ∈ all → - 2 ^ 63 ≤ fcStart (flColumns r) < 2 ^ 63 ∧ - 2 ^ 63 ≤ flID r < 2 ^ 63;
}.

(** One page in the bound of the limits. *)
Lemma walk_page s dbs req from to nm all n cursor before : walkable s dbs req from to nm all → decodeFlowsCursor cursor = Some before →
  let rows := candidates (queryOf req from to) (default firstCursor before) (dbs n) in
  let k := Z.to_nat (pageLimit (fqLimit req)) in
  (0 < k)%nat ∧
  ∃ page, ListFlows s (dbs n) (withCursor req cursor) = Ok page ∧
    if decide (k < length rows)%nat then ∃ x, last (take k rows) = Some x ∧ fpFlows page = flowsOf nm (take k rows) ∧ fpNext page = encodeFlowsCursor (cursorOf x)
    else fpFlows page = flowsOf nm rows ∧ fpNext page = ""%string.
Proof.
  intros Hwa Hc rows k. assert (0 < pageLimit (fqLimit req) < 500) as Hk.
  { unfold pageLimit. pose proof (wa_limit _ _ _ _ _ _ _ Hwa). unfold MaxPageLimit, DefaultPageLimit in *. repeat case_decide; lia. }
  split; [lia|]. destruct (wa_record _ _ _ _ _ _ _ Hwa) as [rec Hrec].
  pose proof (ListFlows_page s (dbs n) req from to cursor before rec nm (wa_workload _ _ _ _ _ _ _ Hwa) (wa_from _ _ _ _ _ _ _ Hwa)
    (wa_to _ _ _ _ _ _ _ Hwa) (wa_range _ _ _ _ _ _ _ Hwa) Hc Hrec (wa_names _ _ _ _ _ _ _ Hwa)) as Hp. cbv zeta in Hp. fold rows in Hp.
  assert (boundedPageLimit (pageLimit (fqLimit req) + 1) = pageLimit (fqLimit req) + 1) as Hb.
  { unfold boundedPageLimit, MaxPageLimit. rewrite !decide_False by lia. done. }
  rewrite Hb, length_take in Hp. eexists. split; [exact Hp|]. clear Hp Hb. cbn [fpFlows fpNext].
  destruct (decide (k < length rows)%nat) as [Hlt|Hge].
  - rewrite bool_decide_true by lia. rewrite take_take, Nat.min_l by lia. fold k.
    destruct (last (take k rows)) as [x|] eqn:El; [by eauto|]. apply last_None in El. apply (f_equal length) in El.
    rewrite length_take in El. cbn in El. lia.
  - rewrite bool_decide_false by lia. rewrite take_ge by lia. done.
Qed.

Lemma walkFlows_spec s dbs req from to nm all fuel n cursor before : walkable s dbs req from to nm all →
  decodeFlowsCursor cursor = Some before → let c := default firstCursor before in
  (length (filter (λ r, beyond c r = true) all) < fuel)%nat →
  ∃ rows, walkFlows fuel s dbs req n cursor = Some (flowsOf nm rows) ∧ StronglySorted newer rows ∧
    (∀ r, r ∈ rows → r ∈ all ∧ pageSelects (queryOf req from to) (flColumns r) = true ∧ beyond c r = true) ∧
    (∀ r, r ∈ fdWindows (dbs 0%nat) → pageSelects (queryOf req from to) (flColumns r) = true → beyond c r = true → r ∈ rows).
Proof.
  intros Hwa. revert n cursor before. induction fuel as [|fuel IH]; intros n cursor before Hc c Hf; [lia|]. cbn [walkFlows].
  destruct (walk_page s dbs req from to nm all n cursor before Hwa Hc) as (Hk & page & Hp & Hcase). fold c in Hcase.
  rewrite Hp. clear Hp. set (rows := candidates (queryOf req from to) c (dbs n)) in *. set (k := Z.to_nat (pageLimit (fqLimit req))) in *.
  assert (StronglySorted newer rows) as Hs by (apply candidates_sorted, Hwa).
  assert (∀ r, r ∈ rows → r ∈ all ∧ pageSelects (queryOf req from to) (flColumns r) = true ∧ beyond c r = true) as Hin.
  { intros r (Hr & ? & ?)%candidates_in. split; [by eapply wa_all|done]. }
  assert (∀ r, r ∈ fdWindows (dbs 0%nat) → pageSelects (queryOf req from to) (flColumns r) = true → beyond c r = true → r ∈ rows) as Hall.
  { intros r Hr Hsel Hb. apply candidates_in. split; [by eapply wa_stays|done]. }
  destruct (decide (k < length rows)%nat) as [Hlt|Hge].
  2:{ destruct Hcase as [Hfl Hnx]. rewrite Hnx, decide_True by done. exists rows. by rewrite Hfl. }
  destruct Hcase as (x & Hx & Hfl & Hnx). rewrite Hnx, decide_False by apply encodeFlowsCursor_nonempty. rewrite Hfl. clear Hfl Hnx page.
  assert (x ∈ take k rows) as Hxt by (apply last_Some in Hx as [l' Hx]; rewrite Hx; apply elem_of_app; right; by left).
  assert (x ∈ rows) as Hxr by (apply (elem_of_take x k rows) in Hxt as (i & Hi & _); by eapply list_elem_of_lookup_2).
  destruct (Hin x Hxr) as (Hxa & Hxs & Hxb). pose proof (wa_words _ _ _ _ _ _ _ Hwa x Hxa) as [Hw1 Hw2].
  assert (pgTime (fcStart (flColumns x)) = fcStart (flColumns x)) as Hxt'.
  { apply candidates_in in Hxr as [Hxd _]. pose proof (wf_times _ (wa_wf _ _ _ _ _ _ _ Hwa n)) as Ht. by apply (proj1 (Forall_forall _ _) Ht). }
  assert (∀ r, beyond (cursorOf x) r = true ↔ newer x r) as Hbx by (intros r; by apply beyond_cursorOf).
  assert (∀ r, newer x r → beyond c r = true) as Htrans.
  { intros r Hr. revert Hxb. unfold beyond. rewrite !orb_true_iff, !andb_true_iff, !bool_decide_eq_true. unfold newer in Hr. lia. }
  assert (¬ newer x x) as Hirr by (unfold newer; lia).
  destruct (IH (S n) (encodeFlowsCursor (cursorOf x)) (Some (cursorOf x))) as (rest & Hrest & Hrs & Hrin & Hrall).
  { by apply decodeFlowsCursor_encode. }
  { cbn [default from_option]. unfold Datatypes.id. apply Nat.lt_le_trans with (length (filter (λ r, beyond c r = true) all)); [|lia].
    apply (filter_shrinks _ _ all x); [|done|done|by rewrite Hbx]. intros r Hr. by apply Htrans, Hbx. }
  cbn [default from_option] in Hrin, Hrall. unfold Datatypes.id in Hrin, Hrall.
  exists (take k rows ++ rest). rewrite Hrest. cbn [mbind option_bind]. split; [unfold flowsOf; by rewrite !fmap_app|]. split.
  - apply StronglySorted_app_via; [by apply StronglySorted_take|done|]. intros a b Ha Hb. apply Hrin in Hb as (_ & _ & Hb%Hbx).
    destruct (StronglySorted_to_last newer _ x a (StronglySorted_take newer rows k Hs) Hx Ha) as [-> |Hax]; [done|]. unfold newer in *. lia.
  - split.
    + intros r [Hr|Hr]%elem_of_app.
      * apply Hin. apply elem_of_take in Hr as (i & Hi & _). by eapply list_elem_of_lookup_2.
      * apply Hrin in Hr as (? & ? & Hb%Hbx). split; [done|]. split; [done|]. by apply Htrans.
    + intros r Hr Hsel Hb. apply elem_of_app. pose proof (Hall r Hr Hsel Hb) as Hrr. rewrite <-(take_drop k rows) in Hrr.
      apply elem_of_app in Hrr as [?|Hd]; [by left|right]. apply Hrall; [done|done|]. apply Hbx.
      by apply (StronglySorted_take_last newer rows k).
Qed.
End pages.

(** ** The properties of the flow pages *)


(** C40: a page of the maximal size has no next one.  A request for 500 flows or more is
    answered with the newest 500 the cursor leaves, and with an empty cursor, which means
    the last page, however many more there are: the row that would tell of a next page is cut
    off by the store's own bound, which is the same number. *)
Theorem Flows_max_page_stops `{ul : UUIDLib, pg : PgLib, lj : LabelsJSON} (s : Reader) (d : FlowDB) (req : FlowsRequest) (from to : Z)
    (cursor : string) (before : option WindowCursor) (rec : WorkloadRecord) (nm : names) :
  IsZero (fqWorkload req) = false → fqFrom req = Some from → fqTo req = Some to → from < to → decodeFlowsCursor cursor = Some before →
  rdGetWorkloadRecord s (fqWorkload req) = Ok rec → loadNames s = Ok nm → MaxPageLimit ≤ fqLimit req →
  ∃ page, ListFlows s d (withCursor req cursor) = Ok page ∧ fpNext page = ""%string ∧
    fpFlows page = flowsOf nm (take 500 (candidates (queryOf req from to) (default firstCursor before) d)).
Proof.
  intros Hz Hf Ht Hlt Hc Hrec Hnm Hmax. pose proof (ListFlows_page s d req from to cursor before rec nm Hz Hf Ht Hlt Hc Hrec Hnm) as Hp.
  cbv zeta in Hp. assert (pageLimit (fqLimit req) = 500) as Hk.
  { unfold pageLimit. unfold MaxPageLimit in Hmax |- *. rewrite (decide_False (P := fqLimit req ≤ 0)) by lia.
    destruct (decide (500 < fqLimit req)); lia. }
  rewrite Hk in Hp. change (Z.to_nat (boundedPageLimit (500 + 1))) with (Z.to_nat 500) in Hp. rewrite length_take in Hp.
  rewrite bool_decide_false in Hp by lia. eexists. split; [exact Hp|]. done.
Qed.

(** ** Rollups *)

Section groups.
Context {A K : Type} `{EqDecision K} (key : A → K) (f : A → Z).

Lemma sumOf_once (ks : list K) a : NoDup ks → key a ∈ ks → sumOf (λ k, if decide (key a = k) then f a else 0) ks = f a.
Proof.
  assert (∀ ks : list K, key a ∉ ks → sumOf (λ k, if decide (key a = k) then f a else 0) ks = 0) as Hz.
  { clear ks. induction ks as [|k ks IH]; intros Hk; [done|]. apply not_elem_of_cons in Hk as [Hk Hks].
    change (sumOf ?g (k :: ks)) with (g k + sumOf g ks). rewrite IH by done. by rewrite decide_False. }
  induction ks as [|k ks IH]; intros Hnd Ha; [by apply not_elem_of_nil in Ha|]. apply NoDup_cons in Hnd as [Hk Hnd].
  change (sumOf ?g (k :: ks)) with (g k + sumOf g ks). apply elem_of_cons in Ha as [<-|Ha].
  - rewrite Hz by done. rewrite decide_True by done. lia.
  - rewrite IH by done. rewrite decide_False by congruence. lia.
Qed.

Lemma sumOf_plus {B} (g h : B → Z) (l : list B) : sumOf (λ b, g b + h b) l = sumOf g l + sumOf h l.
Proof. unfold sumOf. induction l as [|b l IH]; cbn [foldr]; lia. Qed.

Lemma sumOf_ext {B} (g h : B → Z) (l : list B) : (∀ b, g b = h b) → sumOf g l = sumOf h l.
Proof. intros He. unfold sumOf. induction l as [|b l IH]; cbn [foldr]; [done|]. by rewrite He, IH. Qed.

Lemma sumOf_ext_in {B} (g h : B → Z) (l : list B) : (∀ b, b ∈ l → g b = h b) → sumOf g l = sumOf h l.
Proof.
  unfold sumOf. induction l as [|b l IH]; cbn [foldr]; intros He; [done|]. rewrite IH by (intros b' Hb; apply He; by right).
  rewrite He by (by left). done.
Qed.

(** The sums of the groups add up. *)
Lemma sumOf_groups (ks : list K) (l : list A) : NoDup ks → (∀ a, a ∈ l → key a ∈ ks) →
  sumOf (λ k, sumOf f (filter (λ a, key a = k) l)) ks = sumOf f l.
Proof.
  intros Hnd. induction l as [|a l IH]; intros Hl.
  - cbn. clear. unfold sumOf. induction ks as [|k ks IH]; cbn [foldr] in *; lia.
  - change (sumOf f (a :: l)) with (f a + sumOf f l). rewrite <-IH by (intros b Hb; apply Hl; by right).
    rewrite <-(sumOf_once ks a) at 1 by (done || (apply Hl; by left)). rewrite <-sumOf_plus. apply sumOf_ext. intros k.
    rewrite filter_cons. by destruct (decide (key a = k)).
Qed.
End groups.

Lemma sumOf_fmap {A B} (g : A → B) (f : B → Z) (l : list A) : sumOf f (g <$> l) = sumOf (λ a, f (g a)) l.
Proof. unfold sumOf. induction l as [|a l IH]; cbn [foldr fmap list_fmap]; [done|]. by rewrite <-IH. Qed.
Lemma sumOf_length {A} (l : list A) : sumOf (λ _, 1) l = Z.of_nat (length l).
Proof. unfold sumOf. induction l as [|a l IH]; cbn [foldr length]; lia. Qed.

Section rollups.
Context `{ul : UUIDLib, pg : PgLib, lj : LabelsJSON}.

Lemma groupRows_sum `{EqDecision K} (keyOf : flowColumns → K) (f : flowColumns → Z) (val : groupRow K → Z) cs :
  (∀ k l, val (groupOf k l) = sumOf f l) → sumOf val (groupRows keyOf cs) = sumOf f cs.
Proof.
  intros Hv. unfold groupRows. rewrite sumOf_fmap. rewrite (sumOf_ext _ (λ k, sumOf f (filter (λ c, keyOf c = k) cs))) by (intros k; apply Hv).
  apply sumOf_groups; [apply NoDup_remove_dups|]. intros c Hc. apply elem_of_remove_dups. by apply list_elem_of_fmap_2.
Qed.

Lemma groupRows_member `{EqDecision K} (keyOf : flowColumns → K) cs row : row ∈ groupRows keyOf cs →
  ∃ k, let mine := filter (λ c, keyOf c = k) cs in mine ≠ [] ∧ row = groupOf k mine.
Proof.
  unfold groupRows. intros (k & -> & Hk)%list_elem_of_fmap. exists k. split; [|done]. rewrite elem_of_remove_dups in Hk.
  apply list_elem_of_fmap in Hk as (c & -> & Hc). intros Hn.
  assert (c ∈ filter (λ c', keyOf c' = keyOf c) cs) as Hin by (by apply list_elem_of_filter). rewrite Hn in Hin. by apply not_elem_of_nil in Hin.
Qed.

Lemma boundedGroupLimit_range n : 1 ≤ boundedGroupLimit n ≤ MaxGroupLimit.
Proof. unfold boundedGroupLimit, DefaultGroupLimit, MaxGroupLimit. repeat case_decide; lia. Qed.

Definition selectedColumns (q : GroupQuery) (d : FlowDB) : list flowColumns := filter (λ c, rollupSelects q c = true) (flColumns <$> fdWindows d).

(** What the answer is made of. *)
Lemma rollupBy_spec g q d res : rollupBy g q d = Ok res →
  let cs := selectedColumns q d in let rows := groupRows (groupKey g) cs in
  ∃ served, served `sublist_of` merge_sort (rank_le (bool_decide (gqOrder q = "recent"%string))) rows ∧
    gsGroups res = groupFromRow g <$> served ∧ gsGroupCount res = Z.of_nat (length rows) ∧ gsFlowCount res = Z.of_nat (length cs) ∧
    gsConnectionCount res = unsigned (sumOf fcConnectionCount cs) ∧ gsByteCount res = unsigned (sumOf fcByteCount cs) ∧
    Z.of_nat (length served) = Z.min (boundedGroupLimit (gqLimit q)) (Z.of_nat (length rows)).
Proof.
  unfold rollupBy. fold (selectedColumns q d). set (cs := selectedColumns q d). set (rows := groupRows (groupKey g) cs).
  set (sorted := merge_sort _ rows). destruct (_ && _); [|done]. intros [= <-]. exists (take (Z.to_nat (boundedGroupLimit (gqLimit q))) sorted).
  split; [apply sublist_take|]. pose proof (boundedGroupLimit_range (gqLimit q)) as Hb.
  assert (length sorted = length rows) as Hlen by (unfold sorted; by rewrite merge_sort_Permutation).
  assert (length (take (Z.to_nat (boundedGroupLimit (gqLimit q))) sorted) = Nat.min (Z.to_nat (boundedGroupLimit (gqLimit q))) (length rows)) as Hl
    by (by rewrite length_take, Hlen).
  destruct (decide _) as [He|He].
  - assert (length rows = 0%nat) as H0 by (rewrite He in Hl; cbn in Hl; lia).
    assert (cs = []) as Hcs.
    { unfold rows, groupRows in H0. rewrite length_fmap in H0. apply nil_length_inv in H0. destruct cs as [|c cs']; [done|].
      assert (groupKey g c ∈ remove_dups (groupKey g <$> c :: cs')) as Hin by (apply elem_of_remove_dups; by left).
      rewrite H0 in Hin. by apply not_elem_of_nil in Hin. }
    cbn [gsGroups gsGroupCount gsFlowCount gsConnectionCount gsByteCount]. rewrite Hl, H0, Hcs. split; [done|]. cbn. do 4 (split; [done|]). lia.
  - cbn [gsGroups gsGroupCount gsFlowCount gsConnectionCount gsByteCount]. do 5 (split; [done|]). lia.
Qed.

Lemma RollupGroups_by q d res : RollupGroups q d = Ok res → ∃ g, rollupBy g q d = Ok res.
Proof. unfold RollupGroups. destruct (list_find _ _) as [[i []]|]; [by eauto..|done]. Qed.

(** Reference semantics: the records a rollup is asked about. *)
Definition asked (req : RollupRequest) (r : Range) (ids : list WorkloadID) (scoped : bool) (c : flowColumns) : bool :=
  (negb scoped || bool_decide (fcWorkload c ∈ (wid <$> ids)) ||
   (bool_decide (ParseEndpoint (rqEndpoint req) = Some "either"%string) && bool_decide (fcPeerKind c = 1) &&
    bool_decide (fcPeerKey c ∈ (WorkloadID_String <$> ids)))) &&
  inRange (rgFrom r) (rgTo r) c && anyOr (rqVerdict req) (fcDecision c) && anyOr (rqDirection req) (fcDirection c) &&
  service (from_option (λ v, Protocol_number (svProtocol v)) 0 (rqService req)) (from_option svPort 0 (rqService req)) c.

Lemma scope_unscoped s workload selector ids : scope s workload selector = Ok (ids, false) → ids = [].
Proof.
  unfold scope. destruct workload as [id|]; cbn [mbind result_bind].
  - destruct (rdGetWorkloadRecord s id); [|done]. cbn [mbind result_bind]. case_decide; [by intros [= <-]|].
    destruct (ValidateSelector selector); [done|]. by destruct (rdLabelIndex s).
  - case_decide; [by intros [= <-]|]. destruct (ValidateSelector selector); [done|]. by destruct (rdLabelIndex s).
Qed.

(** The records the store selects are the ones asked about. *)
Lemma rollupSelects_asked req r ids scoped endpoint c by_ order limit :
  ParseEndpoint (rqEndpoint req) = Some endpoint → (scoped = false → ids = []) → (scoped = true → ids ≠ []) →
  rollupSelects (MkGroupQuery by_ ids endpoint (rgFrom r) (rgTo r) (rqVerdict req) (rqDirection req)
    (from_option (λ v, Protocol_number (svProtocol v)) 0 (rqService req)) (from_option svPort 0 (rqService req)) order limit) c =
  asked req r ids scoped c.
Proof.
  intros He Hu Hs. unfold rollupSelects, asked, anyWorkload. cbn [gqWorkloads gqEndpoint gqSince gqUntil gqDecision gqDirection gqProtocol gqDstPort].
  rewrite He. rewrite (bool_decide_ext (Some endpoint = Some "either"%string) (endpoint = "either"%string)) by naive_solver.
  f_equal. f_equal. f_equal. f_equal. f_equal. f_equal. destruct scoped.
  - rewrite bool_decide_false by (by apply Hs). done.
  - rewrite Hu by done. done.
Qed.

Record rollupAccounts (cs : list flowColumns) (page : RollupPage) : Prop := {
  ra_flows : cnFlows (rpTotals page) = Z.of_nat (length cs);
  ra_connections : cnConnections (rpTotals page) = sumOf fcConnectionCount cs;
  ra_bytes : cnBytes (rpTotals page) = sumOf fcByteCount cs;
  ra_groups g : g ∈ rpGroups page → ∃ P : flowColumns → bool, let mine := filter P cs in mine ≠ [] ∧
    ruCounters g = MkCounters (Z.of_nat (length mine)) (sumOf fcConnectionCount mine) (sumOf fcByteCount mine) ∧
    ruFirst g = minOf fcFirstSeen mine ∧ ruLast g = maxOf fcLastSeen mine;
  ra_bound : Z.of_nat (length (rpGroups page)) ≤ MaxGroupLimit ∧ Z.of_nat (length (rpGroups page)) ≤ rpGroupCount page;
  ra_truncated : rpTruncated page = bool_decide (Z.of_nat (length (rpGroups page)) < rpGroupCount page);
  ra_complete : rpTruncated page = false →
    sumOf (λ g, cnFlows (ruCounters g)) (rpGroups page) = cnFlows (rpTotals page) ∧
    sumOf (λ g, cnConnections (ruCounters g)) (rpGroups page) = cnConnections (rpTotals page) ∧
    sumOf (λ g, cnBytes (ruCounters g)) (rpGroups page) = cnBytes (rpTotals page);
}.

Definition countersNonneg (d : FlowDB) : Prop := Forall (λ r, 0 ≤ fcConnectionCount (flColumns r) ∧ 0 ≤ fcByteCount (flColumns r)) (fdWindows d).

Lemma selected_nonneg q d c : countersNonneg d → c ∈ selectedColumns q d → 0 ≤ fcConnectionCount c ∧ 0 ≤ fcByteCount c.
Proof.
  intros Hd. unfold selectedColumns. intros [_ (r & -> & Hr)%list_elem_of_fmap]%list_elem_of_filter. by apply (proj1 (Forall_forall _ _) Hd).
Qed.
Lemma unsigned_nonneg n : 0 ≤ n → unsigned n = n.
Proof. intros Hn. unfold unsigned. by rewrite decide_False by lia. Qed.

(** A group of the page has the counters of its row. *)
Lemma rollupGroup_counters g by_ nm row : 0 ≤ grConnections row → 0 ≤ grBytes row →
  let x := rollupGroupOf by_ nm (groupFromRow g row) in
  ruCounters x = MkCounters (grFlows row) (grConnections row) (grBytes row) ∧ ruFirst x = grFirst row ∧ ruLast x = grLast row.
Proof.
  intros Hc Hb. unfold rollupGroupOf. destruct (groupKeysOf _ _ _) as [keys workloads]. cbn. by rewrite !unsigned_nonneg.
Qed.

Lemma rollup_accounts g q d res nm r : countersNonneg d → rollupBy g q d = Ok res →
  rollupAccounts (selectedColumns q d)
    (MkRollupPage r (if decide (gsGroups res = []) then None else gsEffective res) (gqGroupBy q) (rollupGroupOf (gqGroupBy q) nm <$> gsGroups res)
       (gsGroupCount res) (Truncated res) (MkCounters (gsFlowCount res) (gsConnectionCount res) (gsByteCount res))).
Proof.
  intros Hd Hr. apply rollupBy_spec in Hr. cbv zeta in Hr. set (cs := selectedColumns q d) in *. set (rows := groupRows (groupKey g) cs) in *.
  destruct Hr as (served & Hsub & Hg & Hgc & Hfc & Hcc & Hbc & Hlen).
  assert (∀ c, c ∈ cs → 0 ≤ fcConnectionCount c ∧ 0 ≤ fcByteCount c) as Hnn by (intros c; by apply selected_nonneg).
  assert (∀ row, row ∈ served → row ∈ rows) as Hin.
  { intros row Hrow. rewrite <-(merge_sort_Permutation (rank_le (bool_decide (gqOrder q = "recent"%string))) rows).
    by eapply elem_of_sublist. }
  assert (∀ row, row ∈ served → 0 ≤ grConnections row ∧ 0 ≤ grBytes row) as Hrow.
  { intros row Hs. apply Hin, groupRows_member in Hs as (k & _ & ->). cbn [grConnections grBytes groupOf].
    split; apply sumOf_nonneg; intros c [_ Hc]%list_elem_of_filter; by apply Hnn. }
  pose proof (boundedGroupLimit_range (gqLimit q)) as Hb.
  rewrite unsigned_nonneg in Hcc by (apply sumOf_nonneg; intros c Hc; by apply Hnn).
  rewrite unsigned_nonneg in Hbc by (apply sumOf_nonneg; intros c Hc; by apply Hnn).
  split; cbn [rpTotals rpGroups rpTruncated rpGroupCount cnFlows cnConnections cnBytes]; try done.
  - intros x Hx. rewrite Hg in Hx. apply list_elem_of_fmap in Hx as (y & -> & Hy). apply list_elem_of_fmap in Hy as (row & -> & Hrow').
    destruct (Hrow row Hrow') as [Hc0 Hb0]. destruct (rollupGroup_counters g (gqGroupBy q) nm row Hc0 Hb0) as (-> & -> & ->).
    apply Hin, groupRows_member in Hrow' as (k & Hne & ->). exists (λ c, bool_decide (groupKey g c = k)).
    rewrite (filter_ext_in (λ c, Is_true (bool_decide (groupKey g c = k))) (λ c, groupKey g c = k)) by (intros c _; by rewrite bool_decide_spec).
    done.
  - rewrite length_fmap, Hg, length_fmap. lia.
  - unfold Truncated. by rewrite length_fmap.
  - intros Ht. unfold Truncated in Ht. rewrite bool_decide_eq_false, Hg, length_fmap in Ht.
    assert (served ≡ₚ rows) as Hp.
    { assert (length served = length (merge_sort (rank_le (bool_decide (gqOrder q = "recent"%string))) rows)) as He
        by (rewrite (Permutation_length (merge_sort_Permutation _ rows)); lia).
      rewrite <-(merge_sort_Permutation (rank_le (bool_decide (gqOrder q = "recent"%string))) rows).
      apply submseteq_length_Permutation; [by apply sublist_submseteq|lia]. }
    assert (∀ (val : RollupGroup → Z) (rv : groupRow GroupKey → Z) f,
      (∀ row, row ∈ served → val (rollupGroupOf (gqGroupBy q) nm (groupFromRow g row)) = rv row) → (∀ k l, rv (groupOf k l) = sumOf f l) →
      sumOf val (rollupGroupOf (gqGroupBy q) nm <$> gsGroups res) = sumOf f cs) as Hsum.
    { intros val rv f Hv Hrv. rewrite Hg, !sumOf_fmap. rewrite (sumOf_ext_in _ rv) by done. rewrite (sumOf_perm rv _ _ Hp).
      by apply groupRows_sum. }
    rewrite Hfc, Hcc, Hbc, <-sumOf_length. split_and!.
    + apply (Hsum _ grFlows); [|by intros k l; rewrite sumOf_length]. intros row Hs. destruct (Hrow row Hs) as [Hc0 Hb0].
      by destruct (rollupGroup_counters g (gqGroupBy q) nm row Hc0 Hb0) as (-> & _).
    + apply (Hsum _ grConnections); [|done]. intros row Hs. destruct (Hrow row Hs) as [Hc0 Hb0].
      by destruct (rollupGroup_counters g (gqGroupBy q) nm row Hc0 Hb0) as (-> & _).
    + apply (Hsum _ grBytes); [|done]. intros row Hs. destruct (Hrow row Hs) as [Hc0 Hb0].
      by destruct (rollupGroup_counters g (gqGroupBy q) nm row Hc0 Hb0) as (-> & _).
Qed.
End rollups.


(** A cursor is good for the read that issued it and for no other.  The position of
    a flow, and of a workload, within 64 bits of nanoseconds, is read back from the cursor
    made of it as it was; the flows read refuses the cursors of the fleet list, and the fleet
    list those of the flows read. *)
Theorem Cursors_exact `{ul : UUIDLib, !UUIDLaws} (c : WindowCursor) (w : WorkloadCursor) :
  (∀ u, contains_byte "|" (uuid_String u) = false) →
  - 2 ^ 63 ≤ wcStart c < 2 ^ 63 → - 2 ^ 63 ≤ wcID c < 2 ^ 63 →
  - 2 ^ 31 ≤ wuRank w < 2 ^ 31 → - 2 ^ 63 ≤ wuSeen w < 2 ^ 63 →
  decodeFlowsCursor (encodeFlowsCursor c) = Some (Some c) ∧ decodeWorkloadCursor (encodeWorkloadCursor w) = Some (Some w) ∧
  decodeFlowsCursor (encodeWorkloadCursor w) = None ∧ decodeWorkloadCursor (encodeFlowsCursor c) = None.
Proof.
  intros Hu Hs Hi Hr Hw. split; [by apply decodeFlowsCursor_encode|].
  assert (encodeWorkloadCursor w ≠ ""%string) as Hne.
  { intros He. assert (RawURLEncoding_DecodeString "" = Some []) as Hd by done. unfold encodeWorkloadCursor, encodeCursor in He.
    rewrite <-He in Hd. rewrite RawURLEncoding_roundtrip in Hd by apply string_bytes_list. done. }
  unfold decodeWorkloadCursor, decodeFlowsCursor. rewrite !decide_False by (done || apply encodeFlowsCursor_nonempty).
  unfold encodeWorkloadCursor, encodeFlowsCursor.
  rewrite !decodeCursor_encode by (repeat constructor; try apply FormatInt_no_bar; apply Hu). rewrite decide_True by done.
  rewrite (decide_False (P := length [FormatInt (wuRank w); FormatInt (i64 (wuSeen w)); WorkloadID_String (wuID w)] = 2%nat ∧ _)) by (intros [? _]; done).
  rewrite decide_False by (intros [? _]; done). split; [|done]. cbn [mbind option_bind]. unfold cursorTime.
  rewrite (i64_small (wuSeen w)) by done. rewrite !ParseInt_FormatInt by done. cbn [mbind option_bind]. unfold WorkloadID_String.
  rewrite uuid_Parse_String. cbn. by destruct w as [rank seen [u]].
Qed.

(** ** Examples *)

Module ReadExample.
Import Uuid128 AuthoredExample FlowsExample.

Definition theWorkload : Workload :=
  MkWorkload web01 "web01" [MkLabel "app" "web"] ENFORCEMENT_MODE_VISIBILITY None [] "" [] 0 None SYNC_STATE_SYNCED 0 "" 0 0 "" "" 0 None None None None None
    None OWNED_TABLE_STATE_UNSPECIFIED None None None.
Definition theRecord : WorkloadRecord := MkWorkloadRecord theWorkload None 0 None [] 4 0.
Definition theNames : names := MkNames {[ WorkloadID_String web01 := theWorkload ]} ∅.
Definition reader : Reader :=
  MkReader (Ok [theWorkload]) (Ok []) (Ok []) (λ _, Ok None) (λ _, Ok theRecord) (Ok {[ web01 := LabelMap theWorkload ]}) (λ _, Ok [theRecord]) (Ok [])
    9000 1000 0.
Definition columns (start : Z) : flowColumns := columnsOf (window start []) (entry 1 2 10 1000 2000).
Definition request (limit : Z) : FlowsRequest := MkFlowsRequest web01 (Some 0) (Some 9000) 0 0 "" None "" limit.

(** Three windows, shown two at a time. *)
Definition three : FlowDB := MkFlowDB known (numberRows 1 [columns 1000; columns 3000; columns 2000]) 4 ∅ [] 1.
Lemma three_walkable : walkable reader (λ _, three) (request 2) 0 9000 theNames (fdWindows three).
Proof.
  split; try done.
  - by exists theRecord.
  - intros _. split; cbn; [|repeat (constructor; [cbn; lia|]); constructor|repeat (constructor; [reflexivity|]); constructor|constructor..].
    repeat (constructor; [rewrite ?not_elem_of_cons, ?list_elem_of_singleton; cbn; set_solver|]). constructor.
  - intros r Hr. unfold three in Hr. cbn [fdWindows numberRows] in Hr. repeat (apply elem_of_cons in Hr as [-> |Hr]; [split; split; vm_compute; (reflexivity || discriminate)|]). by apply not_elem_of_nil in Hr.
Qed.

Example three_walk :
  option_map (map (λ f, (flwStart f, flwID f))) (walkFlows 4 reader (λ _, three) (request 2) 0 "") = Some [(3000, 2); (2000, 3); (1000, 1)].
Proof. vm_compute. reflexivity. Qed.


(** 501 flows, of which the page of 500 says that it is the last. *)
Definition many : FlowDB := MkFlowDB known (numberRows 1 (replicate (Z.to_nat 501) (columns 1000))) 502 ∅ [] 1.
Lemma many_candidates : Nat.eqb (length (candidates (queryOf (request 500) 0 9000) firstCursor many)) (Z.to_nat 501) = true.
Proof. vm_compute. reflexivity. Qed.
Lemma Flows_max_page_stops_witness :
  ∃ page, ListFlows reader many (request 500) = Ok page ∧ fpNext page = ""%string ∧ length (fpFlows page) = 500%nat ∧
    length (fdWindows many) = Z.to_nat 501.
Proof.
  destruct (Flows_max_page_stops reader many (request 500) 0 9000 "" None theRecord theNames) as (page & Hp & Hn & Hf);
    [reflexivity|reflexivity|reflexivity|lia|reflexivity|reflexivity|reflexivity|unfold MaxPageLimit; cbn; lia|].
  exists page. split; [exact Hp|]. split; [exact Hn|]. split; [|vm_compute; reflexivity].
  rewrite Hf. unfold flowsOf. rewrite !length_fmap, length_take. cbn [default from_option]. unfold Datatypes.id.
  rewrite (proj1 (Nat.eqb_eq _ _) many_candidates). lia.
Defined.

(** Of the three windows one, and the scope of no workload none. *)
Definition rollup (selector : Selector) : RollupRequest :=
  MkRollupRequest (Some 0) (Some 2500) "rule" 0 0 None selector "" None "" 0.
Definition dbScope : Selector := {[ "app"%string := ["db"%string] ]}.
Lemma three_nonneg : countersNonneg three.
Proof. repeat (constructor; [split; vm_compute; discriminate|]). constructor. Qed.
Example rollup_answers : match Reader_Rollup reader three (rollup ∅) with Ok _ => true | Err _ => false end = true.
Proof. vm_compute. reflexivity. Qed.
Example no_scope : match Reader_Rollup reader three (rollup dbScope) with Ok page => cnFlows (rpTotals page) | Err _ => -1 end = 0.
Proof. vm_compute. reflexivity. Qed.

Lemma print_free z : contains_byte "|" (print z) = false.
Proof.
  unfold print. destruct (to_be_32 z) as (ds & Hds & _ & Hd). rewrite Hds.
  assert (∀ ds, Forall (Netip.digit 16) ds → contains_byte "|" (hex_text ds) = false) as Hh.
  { induction 1 as [|x l Hx _ IH]; [done|]. cbn. rewrite decide_False; [done|]. intros E. destruct (hex_digit_ok x Hx) as (Hv & _). by rewrite <-E in Hv. }
  rewrite !contains_byte_app, !Hh by auto using Forall_take, Forall_drop. done.
Qed.
Lemma Cursors_exact_witness :
  decodeFlowsCursor (encodeFlowsCursor (MkWindowCursor 3000 2)) = Some (Some (MkWindowCursor 3000 2)) ∧
  decodeFlowsCursor (encodeWorkloadCursor (MkWorkloadCursor 4 0 web01)) = None.
Proof.
  destruct (Cursors_exact (MkWindowCursor 3000 2) (MkWorkloadCursor 4 0 web01)) as (Hf & _ & Hw & _);
    [intros u; apply print_free|cbn; lia|cbn; lia|cbn; lia|cbn; lia|]. split; [exact Hf|exact Hw].
Defined.
End ReadExample.
