(* ===== verification/FleetService.v ===== *)
(** * The rest of the fleet service: labels, dry runs and directed reconnects
      ([internal/fleet/fleet.go], [reconnect.go])

    Labels are replaced by the store and rendered after; a dry run renders a hypothetical
    set of rulesets over one snapshot of the persisted state and keeps nothing; a reconnect is
    judged by the read model and sent as a directive. *)

From S2P Require Import Prelude GoStd Netip Wire Uuid Identity Policy Validate Registry Rendered Compiler Ingest IngestService Enforce Postgres PolicyStore Authoring Fleet RegistryStore Flows FlowReads ReadModel.
Local Open Scope Z_scope.

Section service.
Context `{UUIDLib} {St Er : Type} `{!RenderTx St Er}.

(** [Engine.Render]: a render in a transaction of its own. *)
Definition Engine_Render (fin : Finish) (now : Z) (s : St) : result (FleetError Er) Report * St :=
  inTx fin (λ s, sr ← asTx (RenderIn now s); Ok (sr.2, sr.1)) s.

(** ** Labels *)

(** [ReplaceWorkloadLabels] of the store is [replace]. *)
Definition SetLabels (replace : WorkloadID → list Label → string → St → result Er () * St) (fin : Finish) (now : Z)
    (id : WorkloadID) (labels : list Label) (expect : string) (s : St) : result (FleetError Er) () * St :=
  match ValidateLabels labels with
  | Some f => (Err (FeFindings ((λ e, MkFleetFinding (vePath e) (FaultAdmission (veErr e)) (veDetail e)) <$> f)), s)
  | None =>
      match replace id labels expect s with
      | (Err e, s) => (Err (FeTx e), s)
      | (Ok _, s) => match Engine_Render fin now s with (Ok _, s) => (Ok (), s) | (Err e, s) => (Err e, s) end
      end
  end.

(** ** Dry runs *)

(** The loop over the hypothetical rulesets; [seen] has the first ruleset of a name. *)
Fixpoint dryFindings (refs : References) (i : nat) (seen : gmap string nat) (rulesets : list Ruleset) : list FleetFinding :=
  match rulesets with
  | [] => []
  | rs :: rulesets' =>
      let here := match ValidateRuleset rs refs with Some f => rebase (at_index "rulesets" i) f | None => [] end in
      match (if decide (rsName rs = "") then None else seen !! rsName rs) with
      | Some first =>
          here ++ [MkFleetFinding (at_index "rulesets" i +:+ ".name") FaultDuplicateName (DText ("also " +:+ at_index "rulesets" first))] ++
          dryFindings refs (S i) seen rulesets'
      | None => here ++ dryFindings refs (S i) (<[rsName rs := i]> seen) rulesets'
      end
  end.

Definition inputReferences (inp : Inputs) : References :=
  MkReferences (list_to_set (svcID <$> inServices inp)) (list_to_set (agID <$> inAddressGroups inp)).

(** [AssignIDs] on a copy of each ruleset, with the ids that are drawn. *)
Fixpoint assignAll (uuids : nat → UUID) (rulesets : list Ruleset) (w : World ()) : list Ruleset * World () :=
  match rulesets with
  | [] => ([], w)
  | rs :: rulesets' =>
      match AssignIDs uuids rs w with
      | (Ok rs', w) => let '(l, w) := assignAll uuids rulesets' w in (rs' :: l, w)
      | (Err _, w) => ([], w)
      end
  end.

Record DryRunRequest := MkDryRunRequest { dqRulesets : list Ruleset; dqStateVersion : string }.
Record DryRunResult := MkDryRunResult { dxStateVersion : string; dxStale : bool; dxWorkloads : list WorkloadDiff }.

Definition hypothetical (uuids : nat → UUID) (req : DryRunRequest) (inp : Inputs) : Inputs :=
  MkInputs (inWorkloads inp) (assignAll uuids (dqRulesets req) (MkWorld () 0 0 0)).1 (inServices inp) (inAddressGroups inp).

(** [state] is the answer of [LoadRenderState]. *)
Definition Service_DryRun (uuids : nat → UUID) (state : result Er (Inputs * gmap WorkloadID WorkloadPolicy)) (req : DryRunRequest)
  : result (FleetError Er) DryRunResult :=
  st ← asTx state;
  let '(inp, previous) := st in
  match dryFindings (inputReferences inp) 0 ∅ (dqRulesets req) with
  | [] =>
      let version := StateVersion inp in
      Ok (MkDryRunResult version (bool_decide (dqStateVersion req ≠ "" ∧ dqStateVersion req ≠ version))
            (DryRun previous (Render (hypothetical uuids req inp))))
  | f => Err (FeFindings f)
  end.

Definition Service_StateVersion (state : result Er (Inputs * gmap WorkloadID WorkloadPolicy)) : result (FleetError Er) string :=
  st ← asTx state; Ok (StateVersion st.1).
Definition AuthoringState (state : result Er (Inputs * gmap WorkloadID WorkloadPolicy)) : result (FleetError Er) (list Ruleset * string) :=
  st ← asTx state; Ok (inRulesets st.1, StateVersion st.1).
End service.

(** ** Directed reconnects *)

Section reconnect.
Context `{UUIDLib}.

Inductive ReconnectError :=
  | RcRead (e : ReadError) | RcRetired (id : WorkloadID) (retiredAt : Z) | RcAgentOffline (lastSeenAt : option Z) | RcDirective.

(** The answer, and the workloads a directive was sent for; [publish] is the answer of the
    notification. *)
Definition RequestReconnect (s : Reader) (publish : bool) (id : WorkloadID) : result ReconnectError (option Z) * list WorkloadID :=
  match GetWorkload s id with
  | Err e => (Err (RcRead e), [])
  | Ok w =>
      match vwRetiredAt w with
      | Some t => (Err (RcRetired id t), [])
      | None =>
          if decide (ssState (vwSync w) = SYNC_STATE_OFFLINE) then (Err (RcAgentOffline (heLastSeenAt (vwHealth w))), [])
          else if publish then (Ok (ssSnapshotSentAt (vwSync w)), [id]) else (Err RcDirective, [])
      end
  end.
End reconnect.

(** ** What a dry run predicts *)

Section predicts.
Context `{UUIDLib} {St Er : Type} `{!RenderTx St Er}.

(** A render reports the outcomes that changed. *)
Lemma saveOutcomes_reports now (os : list Outcome) (s : St) rep s' rep' : saveOutcomes now os s rep = Ok (s', rep') →
  chID <$> repChanged rep' = (chID <$> repChanged rep) ++ (oID <$> filter (λ o, oChanged o = true) os).
Proof.
  revert s rep. induction os as [|o os IH]; intros s rep; cbn [saveOutcomes].
  - intros [= _ <-]. by rewrite app_nil_r.
  - rewrite filter_cons. destruct (oChanged o) eqn:Ho.
    + intros (s1 & _ & Hs)%result_bind_Ok. apply IH in Hs. rewrite Hs. cbn [repChanged]. rewrite fmap_app, <-app_assoc. done.
    + intros Hs. apply IH in Hs. rewrite Hs. done.
Qed.

Lemma dryFindings_nil refs i seen rulesets : dryFindings refs i seen rulesets = [] →
  (∀ rs, rs ∈ rulesets → ValidateRuleset rs refs = None ∧ (rsName rs ≠ "" → seen !! rsName rs = None)) ∧
  NoDup (filter (λ n, n ≠ ""%string) (rsName <$> rulesets)).
Proof.
  revert i seen. induction rulesets as [|rs rulesets IH]; intros i seen; cbn [dryFindings].
  { intros _. split; [by intros rs ?%not_elem_of_nil|constructor]. }
  assert (match ValidateRuleset rs refs with Some f => rebase (at_index "rulesets" i) f | None => [] end = [] → ValidateRuleset rs refs = None) as Hv.
  { destruct (ValidateRuleset rs refs) as [f|] eqn:Ef; [|done]. unfold rebase. intros Hn%fmap_nil_inv. subst f. unfold ValidateRuleset, findings_result in Ef. by case_match. }
  destruct (if decide (rsName rs = "") then None else seen !! rsName rs) as [first|] eqn:Eq.
  { intros [_ [? _]%app_eq_nil]%app_eq_nil. done. }
  intros [Hh Hr]%app_eq_nil. apply IH in Hr as [Hin Hnd]. cbn [fmap list_fmap]. rewrite filter_cons. split.
  - intros rs' [->|Hrs']%elem_of_cons.
    + split; [by apply Hv|]. intros Hne. by rewrite decide_False in Eq.
    + destruct (Hin rs' Hrs') as [Hval Hseen]. split; [done|]. intros Hne. apply lookup_insert_None in Hseen as [? _]; done.
  - destruct (decide (rsName rs ≠ "")) as [Hne|He]; [|done]. constructor; [|done]. intros [_ Hn]%list_elem_of_filter.
    apply list_elem_of_fmap in Hn as (rs' & Hn & Hrs'). destruct (Hin rs' Hrs') as [_ Hseen]. rewrite <-Hn in Hseen.
    rewrite lookup_insert_eq in Hseen. by discriminate (Hseen Hne).
Qed.
End predicts.


(** ** An example *)

Module DryRunExample.
Import Uuid128.

Definition ids (n : nat) : UUID := of_Z (100 + Z.of_nat n `mod` 1000).
Definition request : DryRunRequest := MkDryRunRequest [Example.ruleset] "older".
Definition dry : result (FleetError Empty_set) DryRunResult := Service_DryRun ids (Ok (Example.inputs, ∅)) request.
Definition rendering : result Empty_set ((Inputs * gmap WorkloadID WorkloadPolicy) * Report) :=
  RenderIn 1 (hypothetical ids request Example.inputs, ∅).

Example dry_answers : match dry with Ok res => dxStale res && bool_decide (length (dxWorkloads res) = 2%nat) | Err _ => false end = true.
Proof. vm_compute. reflexivity. Qed.
Example render_answers : match rendering with Ok _ => true | Err _ => false end = true.
Proof. vm_compute. reflexivity. Qed.

End DryRunExample.
