(* ===== verification/Credential.v ===== *)
(** * The agent's credential: [internal/agent/credential]

    The key, certificate and bundle files of the state directory, the exchange of a signing
    request for a certificate, the holder a running daemon presents its credential from, and
    the renewer's loop with its schedule.  A file is written beside and renamed, so a write
    happens or does not.  Other processes may change the directory between the steps. *)

From S2P Require Import Prelude GoStd Netip Wire Uuid Identity Policy Registry Enforce Ingest Enroll.
Local Open Scope Z_scope.

(** ** Keys and certificates *)

(** What is used of [crypto/x509], [crypto/tls] and [encoding/pem] besides [X509Lib]: keys,
    signing requests, the certificate of a pair (the DER of its leaf), whether a leaf carries a
    key, whether a bundle holds a certificate, and verification against a bundle. *)
Class CredentialLib := {
  PrivateKey : Type;
  #[global] PrivateKey_eq_dec :: EqDecision PrivateKey;
  x509_MarshalPKCS8 : PrivateKey → option bytestring;
  x509_ParsePKCS8 : bytestring → option (option PrivateKey);
  x509_CreateCertificateRequest : PrivateKey → option bytestring;
  tls_X509KeyPair : bytestring → bytestring → option bytestring;
  x509_carries : bytestring → PrivateKey → bool;
  pool_AppendCerts : bytestring → bool;
  x509_Verify : bytestring → bytestring → bool;
}.

Definition minute : Z := 60 * second.

(** ** The state directory *)

Record CredDir := MkCredDir { cdKey : option bytestring; cdCert : option bytestring; cdBundle : option bytestring }.

Inductive CredError :=
  | ErrNotEnrolled | ErrReenrolled | ErrHoldsCredential | CredIO | CredBadKey | CredBadPair | CredBadCertificate | CredBadIdentity
  | CredWrongKey | CredBadBundle | CredUnverified | CredCSR | CredCall.

(** A file that is read: its content, its absence, or an error. *)
Inductive FileRead := FileContent (b : bytestring) | FileAbsent | FileError.
Definition readFile (readable : bool) (f : option bytestring) : FileRead :=
  if readable then match f with Some b => FileContent b | None => FileAbsent end else FileError.

Section credential.
Context `{UUIDLib} `{X509Lib} `{CredentialLib}.

Definition encodePEM (typ : string) (der : bytestring) : bytestring := pem_Encode typ der.
(** [pemKey]; nothing when the key does not encode. *)
Definition pemKey (key : PrivateKey) : bytestring := match x509_MarshalPKCS8 key with Some der => encodePEM "PRIVATE KEY" der | None => [] end.

Definition NewCSR (key : PrivateKey) : option bytestring := encodePEM "CERTIFICATE REQUEST" <$> x509_CreateCertificateRequest key.

(** The outcome of each step of one write. *)
Record FileSteps := MkFileSteps { fsCreate : bool; fsChmod : bool; fsWrite : bool; fsSync : bool; fsClose : bool; fsRename : bool }.

(** [writeAtomic]: the content of the path afterwards; the temporary file is removed on every
    failure, and only the rename touches the path. *)
Definition writeAtomic (o : FileSteps) (old : option bytestring) (data : bytestring) : bool * option bytestring :=
  if negb (fsCreate o) then (false, old) else
  if negb (fsChmod o) then (false, old) else
  if negb (fsWrite o) then (false, old) else
  if negb (fsSync o) then (false, old) else
  if negb (fsClose o) then (false, old) else
  if negb (fsRename o) then (false, old) else
  (true, Some data).

(** [Store.Save]; [mkdir] is the outcome of creating and restricting the directory, and [w]
    of the write of each file. *)
Definition Store_Save (mkdir : bool) (w : nat → FileSteps) (key : PrivateKey) (certPEM bundlePEM : bytestring) (d : CredDir) : bool * CredDir :=
  if mkdir then
    match x509_MarshalPKCS8 key with
    | None => (false, d)
    | Some der =>
        let '(ok, k) := writeAtomic (w 0%nat) (cdKey d) (encodePEM "PRIVATE KEY" der) in
        let d := MkCredDir k (cdCert d) (cdBundle d) in
        if ok then
          let '(ok, b) := writeAtomic (w 1%nat) (cdBundle d) bundlePEM in
          let d := MkCredDir (cdKey d) (cdCert d) b in
          if ok then
            let '(ok, c) := writeAtomic (w 2%nat) (cdCert d) certPEM in
            (ok, MkCredDir (cdKey d) c (cdBundle d))
          else (false, d)
        else (false, d)
    end
  else (false, d).

Definition ReplaceCertificate (w : nat → FileSteps) (certPEM bundlePEM : bytestring) (d : CredDir) : bool * CredDir :=
  let '(ok, d) :=
    if decide (bundlePEM = []) then (true, d)
    else let '(ok, b) := writeAtomic (w 0%nat) (cdBundle d) bundlePEM in (ok, MkCredDir (cdKey d) (cdCert d) b) in
  if (ok : bool) then let '(ok, c) := writeAtomic (w 1%nat) (cdCert d) certPEM in (ok, MkCredDir (cdKey d) c (cdBundle d))
  else (false, d).

(** A credential: its leaf, as it is encoded and parsed. *)
Record AgentCredential := MkAgentCredential { crDER : bytestring; crLeaf : Certificate }.

(** [tls.X509KeyPair] and the parse of its leaf. *)
Definition keyPair (certPEM keyPEM : bytestring) : result CredError AgentCredential :=
  match tls_X509KeyPair certPEM keyPEM with
  | None => Err CredBadPair
  | Some der => match x509_ParseCertificate der with Some leaf => Ok (MkAgentCredential der leaf) | None => Err CredBadCertificate end
  end.

Definition Store_Load (readable : nat → bool) (d : CredDir) : result CredError (AgentCredential * bytestring) :=
  match readFile (readable 0%nat) (cdCert d) with
  | FileAbsent => Err ErrNotEnrolled
  | FileError => Err CredIO
  | FileContent certPEM =>
      match readFile (readable 1%nat) (cdKey d) with
      | FileContent keyPEM =>
          cred ← keyPair certPEM keyPEM;
          match readFile (readable 2%nat) (cdBundle d) with
          | FileContent bundlePEM => Ok (cred, bundlePEM)
          | _ => Err CredIO
          end
      | _ => Err CredIO
      end
  end.

Definition parseKey (keyPEM : bytestring) : result CredError PrivateKey :=
  match pem_Decode keyPEM with
  | Some (ty, der, _) =>
      if decide (ty ≠ "PRIVATE KEY"%string) then Err CredBadKey
      else match x509_ParsePKCS8 der with Some (Some key) => Ok key | _ => Err CredBadKey end
  | None => Err CredBadKey
  end.
Definition LoadKey (readable : bool) (d : CredDir) : result CredError PrivateKey :=
  match readFile readable (cdKey d) with
  | FileAbsent => Err ErrNotEnrolled
  | FileError => Err CredIO
  | FileContent keyPEM => parseKey keyPEM
  end.

(** [Enrollable]: the expired leaf that an enrolment would replace, if any. *)
Definition Enrollable (now : Z) (readable : nat → bool) (d : CredDir) : result CredError (option Certificate) :=
  match LoadKey (readable 3%nat) d with
  | Err ErrNotEnrolled => Ok None
  | Err _ => Err ErrHoldsCredential
  | Ok _ =>
      match Store_Load readable d with
      | Err _ => Err ErrHoldsCredential
      | Ok (cred, _) => if decide (now < crNotAfter (crLeaf cred)) then Err ErrHoldsCredential else Ok (Some (crLeaf cred))
      end
  end.

(** ** Exchanges with the control plane *)

Definition parseCert (certPEM : bytestring) : result CredError AgentCredential :=
  match pem_Decode certPEM with
  | Some (ty, der, _) =>
      if decide (ty ≠ "CERTIFICATE"%string) then Err CredBadCertificate
      else match x509_ParseCertificate der with Some leaf => Ok (MkAgentCredential der leaf) | None => Err CredBadCertificate end
  | None => Err CredBadCertificate
  end.
Definition verifyAgainst (cert : AgentCredential) (bundlePEM : bytestring) : result CredError () :=
  if pool_AppendCerts bundlePEM then if x509_Verify (crDER cert) bundlePEM then Ok () else Err CredUnverified else Err CredBadBundle.

(** [TLSConfig]: an empty anchor is the host's trust store. *)
Definition TLSConfig_ok (trustPEM : bytestring) : bool := bool_decide (trustPEM = []) || pool_AppendCerts trustPEM.

Record RenewResult := MkRenewResult { rnID : WorkloadID; rnCertificatePEM : bytestring; rnBundlePEM : bytestring }.

(** [Renew]; [server] answers a signing request with a certificate and a bundle, or not. *)
Definition Renew (server : bytestring → option (bytestring * bytestring)) (key : PrivateKey) (trust : bytestring) : result CredError RenewResult :=
  match NewCSR key with
  | None => Err CredCSR
  | Some csr =>
      if negb (TLSConfig_ok trust) then Err CredBadBundle else
      match server csr with
      | None => Err CredCall
      | Some (certPEM, bundlePEM) =>
          cert ← parseCert certPEM;
          match FromCertificate (Some (crURIs (crLeaf cert))) with
          | Err _ => Err CredBadIdentity
          | Ok id =>
              if negb (x509_carries (crDER cert) key) then Err CredWrongKey else
              _ ← verifyAgainst cert bundlePEM;
              Ok (MkRenewResult id certPEM bundlePEM)
          end
      end
  end.

Record EnrollResult := MkEnrollResult { erID : WorkloadID; erCertificatePEM : bytestring; erBundlePEM : bytestring; erLabels : list Label }.

(** [Enroll]; [server] answers a token and a request with the workload it names, the
    certificate, the bundle and the labels. *)
Definition Agent_Enroll (server : string → bytestring → option (string * bytestring * bytestring * list Label)) (key : PrivateKey) (token : string)
    (bootstrapCA : bytestring) : result CredError EnrollResult :=
  match NewCSR key with
  | None => Err CredCSR
  | Some csr =>
      if negb (TLSConfig_ok bootstrapCA) then Err CredBadBundle else
      match server token csr with
      | None => Err CredCall
      | Some (named, certPEM, bundlePEM, labels) =>
          cert ← parseCert certPEM;
          match FromCertificate (Some (crURIs (crLeaf cert))) with
          | Err _ => Err CredBadIdentity
          | Ok id =>
              if decide (named ≠ WorkloadID_String id) then Err CredBadIdentity else
              _ ← verifyAgainst cert bundlePEM;
              Ok (MkEnrollResult id certPEM bundlePEM labels)
          end
      end
  end.

(** ** The holder *)

Record Holder := MkHolder { hoKey : PrivateKey; hoCred : AgentCredential; hoTrust : bytestring }.

Definition LoadHolder (readable : nat → bool) (d : CredDir) : result CredError Holder :=
  ct ← Store_Load readable d;
  key ← LoadKey (readable 3%nat) d;
  Ok (MkHolder key ct.1 ct.2).

Definition checkStoredKey (h : Holder) (readable : bool) (d : CredDir) : result CredError () :=
  match LoadKey readable d with
  | Err ErrNotEnrolled => Err ErrReenrolled
  | Err e => Err e
  | Ok stored => if decide (stored = hoKey h) then Ok () else Err ErrReenrolled
  end.

(** [Replace]: the holder and the directory afterwards; [others] is what other processes do
    between the check and the writes. *)
Definition Replace (readable : bool) (others : CredDir → CredDir) (w : nat → FileSteps) (certPEM bundlePEM : bytestring) (h : Holder) (d : CredDir)
  : result CredError () * Holder * CredDir :=
  match keyPair certPEM (pemKey (hoKey h)) with
  | Err e => (Err e, h, d)
  | Ok cred =>
      match checkStoredKey h readable d with
      | Err e => (Err e, h, d)
      | Ok _ =>
          let '(ok, d) := ReplaceCertificate w certPEM bundlePEM (others d) in
          if ok then (Ok (), MkHolder (hoKey h) cred (if decide (bundlePEM = []) then hoTrust h else bundlePEM), d)
          else (Err CredIO, h, d)
      end
  end.

(** ** The schedule *)

(** Rounding to 53 significant bits, ties to even: a [float64] of a positive integer. *)
Definition round53 (n : Z) : Z :=
  if decide (n < 2 ^ 53) then n else
  let s := Z.log2 n - 52 in
  let q := n / 2 ^ s in
  let r := n `mod` 2 ^ s in
  (if decide (2 ^ (s - 1) < r ∨ r = 2 ^ (s - 1) ∧ Z.odd q = true) then q + 1 else q) * 2 ^ s.

(** The fractions as the nearest [float64]s, a mantissa over a power of two. *)
Definition RenewFraction : Z * Z := (6004799503160661, 53).
Definition RenewJitterFraction : Z * Z := (6004799503160661, 56).
(** [time.Duration(float64(d) * f)]. *)
Definition scaled (f : Z * Z) (d : Z) : Z := round53 (round53 d * f.1) / 2 ^ f.2.

(** [draw n] is [rng.Int64N(n)]. *)
Definition RenewAt (notBefore notAfter : Z) (draw : Z → Z) : Z :=
  let lifetime := timeSub notAfter notBefore in
  if decide (lifetime ≤ 0) then notAfter else
  let point := notBefore + scaled RenewFraction lifetime in
  let window := scaled RenewJitterFraction lifetime in
  if decide (0 < window) then point + - draw window else point.

Definition ExpiredRetryCap : Z := 5 * minute.

Record lifeClock := MkLifeClock { lcObtained : Z; lcAgeThen : Z }.
Definition lifeClock_age (c : lifeClock) (elapsed : Z) : Z := i64 (lcAgeThen c + i64 (elapsed - lcObtained c)).
Definition newLifeClock (leaf : Certificate) (now elapsed : Z) : lifeClock := MkLifeClock elapsed (Z.max 0 (timeSub now (crNotBefore leaf))).

Definition renewBackoff (attempt base limit : Z) (draw : Z → Z) : Z :=
  let ceiling := i64 (Z.shiftl base (Z.min attempt 20)) in
  let ceiling := if decide (limit < ceiling ∨ ceiling ≤ 0) then limit else ceiling in
  draw ceiling.

(** The expiry of the credential by either clock, and the wait before the next attempt. *)
Definition leafExpired (leaf : Certificate) (now age : Z) : bool :=
  bool_decide (crNotAfter leaf ≤ now) || bool_decide (timeSub (crNotAfter leaf) (crNotBefore leaf) ≤ age).
Definition renewWait (retryBase retryCap : Z) (leaf : Certificate) (attempt now age : Z) (draw : Z → Z) : Z :=
  let lifetime := timeSub (crNotAfter leaf) (crNotBefore leaf) in
  if leafExpired leaf now age then
    if decide (0 < attempt) then renewBackoff attempt retryBase (Z.min retryCap ExpiredRetryCap) draw else 0
  else if decide (attempt = 0) then
    let at_ := RenewAt (crNotBefore leaf) (crNotAfter leaf) draw in
    let byWall := timeSub at_ now in
    let byMonotonic := i64 (timeSub at_ (crNotBefore leaf) - age) in
    Z.max (if decide (byMonotonic < byWall) then byMonotonic else byWall) 0
  else
    let wait := renewBackoff attempt retryBase retryCap draw in
    Z.min wait (Z.min (timeSub (crNotAfter leaf) now) (i64 (lifetime - age))).

(** ** The renewer *)

(** The holder, the directory and the variables of [Run]; [rrLastError] has the reason and
    whether it says that the credential has expired. *)
Record RenewRun := MkRenewRun {
  rrHolder : Holder; rrDir : CredDir; rrAttempt : Z; rrClock : lifeClock; rrReported : bool; rrLastError : option (bool * CredError);
}.

(** What is outside of one turn of the loop: the clocks and the jitter; whether the context
    ends during the wait; what other processes do to the directory during the wait, the call,
    and between the check and the writes of [Replace]; the outcome of each access; the answer of
    the control plane; and the clocks after it. *)
Record Turn := MkTurn {
  tuNow : Z; tuElapsed : Z; tuDraw : Z → Z; tuDone : bool;
  tuWaiting : CredDir → CredDir; tuReadWait : bool;
  tuServer : bytestring → option (bytestring * bytestring);
  tuCalling : CredDir → CredDir; tuReadReplace : bool; tuBetween : CredDir → CredDir; tuWrites : nat → FileSteps;
  tuNowAfter : Z; tuElapsedAfter : Z;
}.

Inductive RunEnd := RunDone | RunReenrolled.

Definition is_reenrolled {A} (r : result CredError A) : bool := match r with Err ErrReenrolled => true | _ => false end.

(** The outcome of one attempt: the error if any, the holder and the directory. *)
Definition renewAttempt (t : Turn) (h : Holder) (d : CredDir) : result CredError () * Holder * CredDir :=
  match Renew (tuServer t) (hoKey h) (hoTrust h) with
  | Err e => (Err e, h, tuCalling t d)
  | Ok res => Replace (tuReadReplace t) (tuBetween t) (tuWrites t) (rnCertificatePEM res) (rnBundlePEM res) h (tuCalling t d)
  end.

Definition retryBaseOf (retryBase : Z) : Z := if decide (retryBase ≤ 0) then minute else retryBase.
Definition retryCapOf (retryCap : Z) : Z := if decide (retryCap ≤ 0) then hour else retryCap.

(** One turn of the loop: the wait it begins with, how [Run] returns if it does, and the run
    afterwards. *)
Definition renewTurn (retryBase retryCap : Z) (t : Turn) (r : RenewRun) : Z * option RunEnd * RenewRun :=
  let h := rrHolder r in
  let leaf := crLeaf (hoCred h) in
  let age := lifeClock_age (rrClock r) (tuElapsed t) in
  let expired := leafExpired leaf (tuNow t) age in
  let reported := rrReported r || expired in
  let wait := renewWait retryBase retryCap leaf (rrAttempt r) (tuNow t) age (tuDraw t) in
  let d := tuWaiting t (rrDir r) in
  if tuDone t then (wait, Some RunDone, MkRenewRun h d (rrAttempt r) (rrClock r) reported (rrLastError r)) else
  if is_reenrolled (checkStoredKey h (tuReadWait t) d) then
    (wait, Some RunReenrolled, MkRenewRun h d (rrAttempt r) (rrClock r) reported (rrLastError r))
  else
    let '(res, h, d) := renewAttempt t h d in
    match res with
    | Err ErrReenrolled => (wait, Some RunReenrolled, MkRenewRun h d (rrAttempt r) (rrClock r) reported (rrLastError r))
    | Err e => (wait, None, MkRenewRun h d (rrAttempt r + 1) (rrClock r) reported (Some (expired, e)))
    | Ok _ => (wait, None, MkRenewRun h d 0 (newLifeClock (crLeaf (hoCred h)) (tuNowAfter t) (tuElapsedAfter t)) false None)
    end.

(** The turns of [Run] that happen, with their waits. *)
Fixpoint renewTurns (retryBase retryCap : Z) (turns : list Turn) (r : RenewRun) : list Z * option RunEnd * RenewRun :=
  match turns with
  | [] => ([], None, r)
  | t :: turns' =>
      match renewTurn retryBase retryCap t r with
      | (wait, Some e, r) => ([wait], Some e, r)
      | (wait, None, r) => let '(waits, e, r) := renewTurns retryBase retryCap turns' r in (wait :: waits, e, r)
      end
  end.
Definition Renewer_Run (retryBase retryCap : Z) (now elapsed : Z) (turns : list Turn) (h : Holder) (d : CredDir)
  : list Z * option RunEnd * RenewRun :=
  renewTurns (retryBaseOf retryBase) (retryCapOf retryCap) turns
    (MkRenewRun h d 0 (newLifeClock (crLeaf (hoCred h)) now elapsed) false None).
End credential.

(** What is relied on: a key is read back from its encoding, and a pair depends on the key its
    key file holds and not on how the file spells it. *)
Class CredentialLaws `{UUIDLib} `{X509Lib} `{!CredentialLib} : Prop := {
  PKCS8_roundtrip key : ∃ der, x509_MarshalPKCS8 key = Some der ∧ x509_ParsePKCS8 der = Some (Some key);
  X509KeyPair_key certPEM k1 k2 key : parseKey k1 = Ok key → parseKey k2 = Ok key → tls_X509KeyPair certPEM k1 = tls_X509KeyPair certPEM k2;
}.
