(* ===== verification/CredentialProps.v ===== *)
(** * The credential a daemon keeps: the schedule of renewals, and what a restart finds

    The float arithmetic of [RenewAt] stays within nanoseconds of the fractions it means; every
    wait of the renewer is bounded by the two-thirds mark, the expiry or the expired cadence; the
    directory pairs the certificate the daemon presents with its key after every turn, and a
    directory enrolled again is left alone. *)

From S2P Require Import Prelude GoStd Netip Wire Uuid Identity Policy Registry Enforce Ingest Enroll EnrollProps Credential.
Local Open Scope Z_scope.

(** ** The schedule *)

(** A [float64] is off by at most one part in 2^53. *)
Lemma round53_error n : 0 ≤ n → 2 ^ 53 * Z.abs (round53 n - n) ≤ n.
Proof.
  intros Hn. unfold round53. case_decide as Hlt; [lia|]. cbv zeta.
  assert (Hlog : 53 ≤ Z.log2 n) by (apply Z.log2_le_pow2; lia).
  destruct (Z.log2_spec n ltac:(lia)) as [Hlo _].
  set (s := Z.log2 n - 52) in *.
  assert (Hs : 2 ^ s = 2 * 2 ^ (s - 1)) by (rewrite <- Z.pow_succ_r by lia; f_equal; lia).
  assert (Hn2 : 2 ^ Z.log2 n = 2 ^ 53 * 2 ^ (s - 1)) by (rewrite <- Z.pow_add_r by lia; f_equal; lia).
  assert (0 < 2 ^ (s - 1)) by (apply Z.pow_pos_nonneg; lia).
  pose proof (Z.div_mod n (2 ^ s) ltac:(lia)) as Hdm.
  pose proof (Z.mod_pos_bound n (2 ^ s) ltac:(lia)).
  case_decide; [|]; nia.
Qed.

Lemma round53_exact n : n < 2 ^ 53 → round53 n = n.
Proof. intros. unfold round53. by rewrite decide_True. Qed.

(** The two-thirds mark and the jitter window of a lifetime below 104 days. *)
Lemma scaled_RenewFraction d : 0 < d < 2 ^ 53 → 2 * d - 6 ≤ 3 * scaled RenewFraction d ≤ 2 * d + 2.
Proof.
  intros Hd. unfold scaled. rewrite (round53_exact d) by lia. cbn [RenewFraction fst snd].
  pose proof (round53_error (d * 6004799503160661) ltac:(lia)) as He.
  set (p := round53 _) in *.
  pose proof (Z.div_mod p (2 ^ 53) ltac:(lia)). pose proof (Z.mod_pos_bound p (2 ^ 53) ltac:(lia)). lia.
Qed.
Lemma scaled_RenewJitterFraction d : 0 < d < 2 ^ 53 → 0 ≤ scaled RenewJitterFraction d ∧ 12 * scaled RenewJitterFraction d ≤ d + 1.
Proof.
  intros Hd. unfold scaled. rewrite (round53_exact d) by lia. cbn [RenewJitterFraction fst snd].
  pose proof (round53_error (d * 6004799503160661) ltac:(lia)) as He.
  set (p := round53 _) in *.
  pose proof (Z.div_mod p (2 ^ 56) ltac:(lia)). pose proof (Z.mod_pos_bound p (2 ^ 56) ltac:(lia)). lia.
Qed.

(** A draw is below its bound. *)
Definition drawsBelow (draw : Z → Z) : Prop := ∀ n, 0 < n → 0 ≤ draw n < n.

Lemma timeSub_exact a b : - 2 ^ 63 ≤ a - b < 2 ^ 63 → timeSub a b = a - b.
Proof. unfold timeSub. lia. Qed.

Lemma RenewAt_bounds notBefore notAfter draw :
  0 < notAfter - notBefore < 2 ^ 53 → drawsBelow draw →
  let lifetime := notAfter - notBefore in
  let into := RenewAt notBefore notAfter draw - notBefore in
  7 * lifetime ≤ 12 * into + 24 ∧ 3 * into ≤ 2 * lifetime + 2.
Proof.
  intros Hl Hd. cbv zeta. unfold RenewAt. rewrite timeSub_exact by lia. rewrite decide_False by lia.
  set (d := notAfter - notBefore) in *.
  pose proof (scaled_RenewFraction d Hl). pose proof (scaled_RenewJitterFraction d Hl).
  case_decide as Hw; [pose proof (Hd _ Hw)|]; lia.
Qed.

Lemma renewBackoff_bounds attempt base limit draw : 0 < limit → drawsBelow draw → 0 ≤ renewBackoff attempt base limit draw < limit.
Proof.
  intros Hl Hd. unfold renewBackoff. cbv zeta.
  case_decide as Hc; [by apply Hd|]. pose proof (Hd (i64 (Z.shiftl base (Z.min attempt 20))) ltac:(lia)). lia.
Qed.

(** The clocks of a turn: the wall clock within 146 years of the certificate's, and the age of
    the credential by the monotonic clock. *)
Definition clocksSane (leaf : Certificate) (now age : Z) : Prop :=
  0 < crNotAfter leaf - crNotBefore leaf < 2 ^ 53 ∧ Z.abs (now - crNotBefore leaf) < 2 ^ 62 ∧ 0 ≤ age < 2 ^ 63.

Lemma leafExpired_spec leaf now age :
  clocksSane leaf now age →
  leafExpired leaf now age = bool_decide (crNotAfter leaf - crNotBefore leaf ≤ Z.max (now - crNotBefore leaf) age).
Proof.
  intros (? & ? & ?). unfold leafExpired. rewrite timeSub_exact by lia.
  repeat case_bool_decide; simpl; try reflexivity; lia.
Qed.

(** Before the expiry: the first attempt falls into the window before the two-thirds mark of
    the older clock, and no attempt waits past the expiry. *)
Lemma renewWait_first base cap leaf now age draw :
  clocksSane leaf now age → drawsBelow draw → leafExpired leaf now age = false →
  let lifetime := crNotAfter leaf - crNotBefore leaf in
  let older := Z.max (now - crNotBefore leaf) age in
  let wait := renewWait base cap leaf 0 now age draw in
  0 ≤ wait ∧ 7 * lifetime ≤ 12 * (older + wait) + 24 ∧ (wait = 0 ∨ 3 * (older + wait) ≤ 2 * lifetime + 2).
Proof.
  intros Hc Hd He. pose proof Hc as (? & ? & ?). cbv zeta. unfold renewWait. rewrite He, decide_True by done. cbv zeta.
  destruct (RenewAt_bounds (crNotBefore leaf) (crNotAfter leaf) draw ltac:(lia) Hd) as [Hlo Hhi].
  set (at_ := RenewAt _ _ _) in *.
  rewrite !timeSub_exact by lia. rewrite i64_small by lia. case_decide; lia.
Qed.

Lemma renewWait_retry base cap leaf attempt now age draw :
  0 < cap → 0 < attempt → clocksSane leaf now age → drawsBelow draw → leafExpired leaf now age = false →
  let wait := renewWait base cap leaf attempt now age draw in
  0 ≤ wait < cap ∧ now + wait ≤ crNotAfter leaf ∧ age + wait ≤ crNotAfter leaf - crNotBefore leaf.
Proof.
  intros Hcap Ha Hc Hd He. pose proof Hc as (? & ? & ?). cbv zeta. unfold renewWait. rewrite He, decide_False by lia. cbv zeta.
  rewrite leafExpired_spec in He by done. apply bool_decide_eq_false in He.
  pose proof (renewBackoff_bounds attempt base cap draw Hcap Hd).
  rewrite !timeSub_exact by lia. rewrite i64_small by lia. lia.
Qed.

Lemma renewWait_expired base cap leaf attempt now age draw :
  0 < cap → drawsBelow draw → leafExpired leaf now age = true →
  let wait := renewWait base cap leaf attempt now age draw in
  0 ≤ wait < 5 * minute ∧ wait ≤ cap ∧ (attempt = 0 → wait = 0).
Proof.
  intros Hcap Hd He. cbv zeta. unfold renewWait. rewrite He. unfold ExpiredRetryCap, minute, second in *.
  case_decide; [|lia].
  pose proof (renewBackoff_bounds attempt base (Z.min cap (5 * (60 * 10 ^ 9))) draw ltac:(lia) Hd). lia.
Qed.

(** ** What the directory holds *)

Definition readable : nat → bool := λ _, true.

Section restart.
Context `{UUIDLib} `{X509Lib} `{!X509Laws} `{!CredentialLib} `{!CredentialLaws}.

Lemma parseKey_pemKey key : parseKey (pemKey key) = Ok key.
Proof.
  destruct (PKCS8_roundtrip key) as (der & Hm & Hp). unfold pemKey, parseKey, encodePEM. rewrite Hm.
  destruct (pem_Decode_Encode "PRIVATE KEY" der) as [rest Hd]. rewrite Hd, decide_False by (intros Hn; by apply Hn). by rewrite Hp.
Qed.

Lemma keyPair_key certPEM k1 k2 key : parseKey k1 = Ok key → parseKey k2 = Ok key → keyPair certPEM k1 = keyPair certPEM k2.
Proof. intros Hk1 Hk2. unfold keyPair. by rewrite (X509KeyPair_key certPEM k1 k2 key). Qed.

(** A restart loads a holder exactly of a directory whose three files are there, whose key
    reads and whose certificate pairs with it. *)
Lemma LoadHolder_Ok d h :
  LoadHolder readable d = Ok h ↔
  ∃ keyPEM certPEM, d = MkCredDir (Some keyPEM) (Some certPEM) (Some (hoTrust h)) ∧ parseKey keyPEM = Ok (hoKey h) ∧ keyPair certPEM (pemKey (hoKey h)) = Ok (hoCred h).
Proof.
  split.
  - unfold LoadHolder, Store_Load, LoadKey, readable, readFile. destruct d as [[k|] [c|] [b|]]; cbn; try done.
    + destruct (keyPair c k) as [cred|e] eqn:Hp; cbn; [|done]. destruct (parseKey k) as [key|e] eqn:Hk; cbn; [|done].
      intros [= <-]. exists k, c. cbn. split; [done|]. split; [done|]. rewrite <- Hp. apply (keyPair_key c _ _ key); [apply parseKey_pemKey|done].
    + by destruct (keyPair c k).
  - intros (k & c & -> & Hk & Hp). unfold LoadHolder, Store_Load, LoadKey, readable, readFile. cbn.
    rewrite (keyPair_key c k (pemKey (hoKey h)) (hoKey h)) by (done || apply parseKey_pemKey). rewrite Hp. cbn. rewrite Hk. cbn. by destruct h.
Qed.

Definition everyStep : FileSteps := MkFileSteps true true true true true true.
Lemma writeAtomic_spec o old data : writeAtomic o old data = (true, Some data) ∨ writeAtomic o old data = (false, old).
Proof. unfold writeAtomic. repeat case_match; auto. Qed.

(** A saved credential is loaded back. *)
Theorem Save_Load d key certPEM bundlePEM cred :
  keyPair certPEM (pemKey key) = Ok cred →
  ∃ d', Store_Save true (λ _, everyStep) key certPEM bundlePEM d = (true, d') ∧ LoadHolder readable d' = Ok (MkHolder key cred bundlePEM).
Proof.
  intros Hp. destruct (PKCS8_roundtrip key) as (der & Hm & Hder). unfold Store_Save. rewrite Hm. cbn. eexists. split; [reflexivity|].
  apply LoadHolder_Ok. cbn. exists (pemKey key), certPEM. unfold pemKey at 1. rewrite Hm.
  split; [done|]. split; [|done]. apply parseKey_pemKey.
Qed.

(** An enrolment interrupted after its key is in place leaves a directory that takes no other
    enrolment while the certificate is missing or belongs to another key. *)
Theorem Save_interrupted now w key certPEM bundlePEM d d' :
  Store_Save true w key certPEM bundlePEM d = (false, d') → w 0%nat = everyStep →
  (∀ c, cdCert d = Some c → ∃ e, keyPair c (pemKey key) = Err e) →
  Enrollable now readable d' = Err ErrHoldsCredential.
Proof.
  intros Hs Hw Hc. destruct (PKCS8_roundtrip key) as (der & Hm & _). pose proof (parseKey_pemKey key) as Hk. unfold pemKey in Hk. rewrite Hm in Hk.
  assert (∃ b, d' = MkCredDir (Some (encodePEM "PRIVATE KEY" der)) (cdCert d) b) as [b ->].
  { revert Hs. unfold Store_Save. rewrite Hm, Hw. cbn.
    destruct (writeAtomic_spec (w 1%nat) (cdBundle d) bundlePEM) as [->| ->], (writeAtomic_spec (w 2%nat) (cdCert d) certPEM) as [Hw2|Hw2];
      cbn; rewrite ?Hw2; intros [= <-]; eauto. }
  unfold Enrollable, Store_Load, LoadKey, readable, readFile. cbn. rewrite Hk.
  destruct (cdCert d) as [c|]; [|done]. destruct (Hc c eq_refl) as [e He]. unfold pemKey in He. rewrite Hm in He. by rewrite He.
Qed.

(** ** Turns *)

(** The daemon presents a certificate that the directory pairs with its key. *)
Definition restarts (h : Holder) (d : CredDir) : Prop := ∃ trust, LoadHolder readable d = Ok (MkHolder (hoKey h) (hoCred h) trust).

Lemma LoadKey_restarts h d r : restarts h d → checkStoredKey h r d = if r then Ok () else Err CredIO.
Proof.
  intros [trust Hl]. apply LoadHolder_Ok in Hl as (k & c & -> & Hk & _). unfold checkStoredKey, LoadKey, readFile.
  destruct r; cbn; [|done]. cbn in Hk. rewrite Hk. by rewrite decide_True.
Qed.

Lemma ReplaceCertificate_spec w certPEM bundlePEM k c b :
  ∃ ok c' b', ReplaceCertificate w certPEM bundlePEM (MkCredDir (Some k) (Some c) (Some b)) = (ok, MkCredDir (Some k) (Some c') (Some b')) ∧
    c' = if ok : bool then certPEM else c.
Proof.
  unfold ReplaceCertificate. cbn [cdBundle cdCert cdKey].
  destruct (writeAtomic_spec (w 0%nat) (Some b) bundlePEM) as [->| ->], (writeAtomic_spec (w 1%nat) (Some c) certPEM) as [Hw1|Hw1];
    case_decide; cbn; rewrite ?Hw1; by eauto 10.
Qed.

Lemma Replace_restarts r w certPEM bundlePEM h d res h' d' :
  restarts h d → Replace r id w certPEM bundlePEM h d = (res, h', d') →
  restarts h' d' ∧ hoKey h' = hoKey h ∧ is_reenrolled res = false.
Proof.
  intros Hr. unfold Replace. destruct (keyPair certPEM _) as [cred|e] eqn:Hp.
  2:{ intros [= <- <- <-]. split_and!; try done. revert Hp. unfold keyPair. repeat case_match; by intros [= <-]. }
  rewrite (LoadKey_restarts h d r) by done. destruct r; [|by intros [= <- <- <-]].
  destruct Hr as [trust Hl]. pose proof Hl as Hl'. apply LoadHolder_Ok in Hl' as (k & c & -> & Hk & Hc). cbn in Hk, Hc. unfold id. cbn [hoTrust].
  destruct (ReplaceCertificate_spec w certPEM bundlePEM k c trust) as (ok & c' & b' & -> & ->).
  destruct ok; intros [= <- <- <-]; (split; [|done]); exists b'; apply LoadHolder_Ok; cbn; eauto.
Qed.

(** Other processes leave the directory alone during a turn. *)
Definition undisturbed (t : Turn) : Prop := tuWaiting t = id ∧ tuCalling t = id ∧ tuBetween t = id.

Lemma Renew_error server key trust e : Renew server key trust = Err e → is_reenrolled (A := RenewResult) (Err e) = false.
Proof.
  unfold Renew, parseCert, verifyAgainst. intros Hr.
  repeat (case_match; simplify_eq/=; try done).
Qed.

Lemma renewTurn_restarts base cap t r wait e r' :
  undisturbed t → restarts (rrHolder r) (rrDir r) → renewTurn base cap t r = (wait, e, r') →
  restarts (rrHolder r') (rrDir r') ∧ hoKey (rrHolder r') = hoKey (rrHolder r) ∧ e = if tuDone t then Some RunDone else None.
Proof.
  intros (Hw & Hca & Hb) Hr. unfold renewTurn. cbv zeta. rewrite Hw. unfold id at 1 2 3 4.
  destruct (tuDone t); [by intros [= <- <- <-]|].
  rewrite (LoadKey_restarts (rrHolder r) (rrDir r)) by done.
  assert (is_reenrolled (A := ()) (if tuReadWait t then Ok () else Err CredIO) = false) as -> by by destruct (tuReadWait t).
  unfold renewAttempt. rewrite Hca, Hb. unfold id at 1 2.
  destruct (Renew _ _ _) as [res|er] eqn:Hn.
  - destruct (Replace _ _ _ _ _ _ _) as [[res' h'] d'] eqn:Hrep.
    destruct (Replace_restarts _ _ _ _ _ _ _ _ _ Hr Hrep) as (Hr' & Hk & Hre).
    destruct res' as [[]|er]; [by intros [= <- <- <-]|].
    destruct er; try done; by intros [= <- <- <-].
  - apply Renew_error in Hn. destruct er; try done; by intros [= <- <- <-].
Qed.

Lemma renewTurns_restarts base cap turns r waits e r' :
  Forall undisturbed turns → restarts (rrHolder r) (rrDir r) → renewTurns base cap turns r = (waits, e, r') →
  restarts (rrHolder r') (rrDir r') ∧ hoKey (rrHolder r') = hoKey (rrHolder r) ∧
  e = if existsb tuDone turns then Some RunDone else None.
Proof.
  intros Ht. revert r waits e r'. induction Ht as [|t turns Hu _ IH]; intros r waits e r' Hr; cbn [renewTurns existsb]; [by intros [= <- <- <-]|].
  destruct (renewTurn base cap t r) as [[wait en] r1] eqn:Ht1.
  destruct (renewTurn_restarts _ _ _ _ _ _ _ Hu Hr Ht1) as (Hr1 & Hk1 & ->).
  destruct (tuDone t); cbn; [by intros [= <- <- <-]|].
  destruct (renewTurns base cap turns r1) as [[waits' e'] r2] eqn:Ht2. intros [= <- <- <-].
  destruct (IH _ _ _ _ Hr1 Ht2) as (? & ? & ?). rewrite <- Hk1. done.
Qed.

(** The directory holds a key that is not the holder's, or none. *)
Definition foreign (h : Holder) (d : CredDir) : Prop := ∀ ok, LoadKey ok d ≠ Ok (hoKey h).

Lemma Replace_foreign r others w certPEM bundlePEM h d res h' d' :
  foreign h d → Replace r others w certPEM bundlePEM h d = (res, h', d') → h' = h ∧ d' = d ∧ res ≠ Ok ().
Proof.
  intros Hf. unfold Replace. destruct (keyPair certPEM _) as [cred|e]; [|by intros [= <- <- <-]].
  unfold checkStoredKey. specialize (Hf r). destruct (LoadKey r d) as [k|e]; [|destruct e; by intros [= <- <- <-]].
  rewrite decide_False by congruence. by intros [= <- <- <-].
Qed.

Lemma renewTurn_foreign base cap t r wait e r' :
  renewTurn base cap t r = (wait, e, r') → foreign (rrHolder r) (tuCalling t (tuWaiting t (rrDir r))) →
  rrHolder r' = rrHolder r ∧ (rrDir r' = tuWaiting t (rrDir r) ∨ rrDir r' = tuCalling t (tuWaiting t (rrDir r))) ∧ rrAttempt r ≤ rrAttempt r'.
Proof.
  intros Ht Hf. revert Ht. unfold renewTurn. cbv zeta. destruct (tuDone t); [intros [= <- <- <-]; cbn; auto with lia|].
  destruct (is_reenrolled _); [intros [= <- <- <-]; cbn; auto with lia|]. unfold renewAttempt.
  destruct (Renew _ _ _) as [res|er] eqn:Hn.
  - destruct (Replace _ _ _ _ _ _ _) as [[res' h'] d'] eqn:Hrep. destruct (Replace_foreign _ _ _ _ _ _ _ _ _ _ Hf Hrep) as (-> & -> & Hne).
    destruct res' as [[]|er]; [done|]. destruct er; intros [= <- <- <-]; cbn; auto with lia.
  - destruct er; intros [= <- <- <-]; cbn; auto with lia.
Qed.

(** The key read after the wait is another one: the run ends there. *)
Lemma renewTurn_reenrolled base cap t r wait e r' key :
  renewTurn base cap t r = (wait, e, r') → tuDone t = false → tuReadWait t = true →
  LoadKey true (tuWaiting t (rrDir r)) = Ok key → key ≠ hoKey (rrHolder r) → e = Some RunReenrolled ∧ rrDir r' = tuWaiting t (rrDir r).
Proof.
  intros Ht Hd Hw Hl Hk. revert Ht. unfold renewTurn. cbv zeta. rewrite Hd, Hw. unfold checkStoredKey. rewrite Hl, decide_False by done.
  cbn. by intros [= <- <- <-].
Qed.
End restart.

Lemma checkStoredKey_reenrolled `{UUIDLib} `{X509Lib} `{!CredentialLib} h ok d :
  is_reenrolled (checkStoredKey h ok d) = true → LoadKey ok d ≠ Ok (hoKey h).
Proof. unfold checkStoredKey. intros Hc Hk. rewrite Hk, decide_True in Hc by done. done. Qed.

Lemma renewAttempt_reenrolled `{UUIDLib} `{X509Lib} `{!CredentialLib} t h d h' d' :
  renewAttempt t h d = (Err ErrReenrolled, h', d') → ∃ ok, LoadKey ok (tuCalling t d) ≠ Ok (hoKey h).
Proof.
  unfold renewAttempt. destruct (Renew _ _ _) as [res|er] eqn:Hn; [|intros [= -> _ _]; by apply Renew_error in Hn].
  unfold Replace. destruct (keyPair _ _) as [cred|er] eqn:Hp.
  2:{ intros [= -> _ _]. revert Hp. unfold keyPair. repeat case_match; done. }
  destruct (checkStoredKey _ _ _) as [[]|er] eqn:Hc.
  - destruct (ReplaceCertificate _ _ _ _) as [[] ?]; done.
  - intros [= -> _ _]. exists (tuReadReplace t). apply checkStoredKey_reenrolled. by rewrite Hc.
Qed.

Lemma retryCapOf_pos cap : 0 < retryCapOf cap.
Proof. unfold retryCapOf, hour. case_decide; lia. Qed.

(** The wait of a turn, and what its end says. *)
Lemma renewTurn_parts `{UUIDLib} `{X509Lib} `{!CredentialLib} base cap t r wait e r' :
  renewTurn base cap t r = (wait, e, r') →
  let leaf := crLeaf (hoCred (rrHolder r)) in
  let age := lifeClock_age (rrClock r) (tuElapsed t) in
  wait = renewWait base cap leaf (rrAttempt r) (tuNow t) age (tuDraw t) ∧
  match e with
  | None => rrAttempt r' = 0 ∧ rrLastError r' = None ∨
            rrAttempt r' = rrAttempt r + 1 ∧ ∃ why, rrLastError r' = Some (leafExpired leaf (tuNow t) age, why)
  | Some RunDone => tuDone t = true
  | Some RunReenrolled => tuDone t = false ∧ ∃ ok d, (d = tuWaiting t (rrDir r) ∨ d = tuCalling t (tuWaiting t (rrDir r))) ∧ LoadKey ok d ≠ Ok (hoKey (rrHolder r))
  end.
Proof.
  unfold renewTurn. cbv zeta. destruct (tuDone t); [by intros [= <- <- <-]|].
  destruct (is_reenrolled _) eqn:Hre.
  { intros [= <- <- <-]. split; [done|]. split; [done|]. apply checkStoredKey_reenrolled in Hre. eauto. }
  destruct (renewAttempt _ _ _) as [[res h'] d'] eqn:Hat.
  destruct res as [[]|er]; [intros [= <- <- <-]; eauto|].
  destruct er; intros [= <- <- <-]; (split; [done|]); eauto.
  split; [done|]. destruct (renewAttempt_reenrolled _ _ _ _ _ Hat) as [ok Hk]. eauto.
Qed.

(** ** Claims *)

(** C17: Renewal is attempted in time, at every turn of the renewer's loop, under the two clocks it
    takes the older of.  A first attempt waits until a point between seven twelfths and two
    thirds of the lifetime (to within two nanoseconds of float arithmetic), or not at all when
    that point is past; a retry waits less than the cap and never past the expiry by either
    clock; once the credential has expired the first attempt is immediate and a retry waits less
    than five minutes.  Expiry never ends the loop: it ends when the context does, or when the
    directory no longer holds the daemon's key. *)
Theorem Renewal_schedule `{UUIDLib} `{X509Lib} `{!CredentialLib} retryBase retryCap t r wait e r' :
  let leaf := crLeaf (hoCred (rrHolder r)) in
  let age := lifeClock_age (rrClock r) (tuElapsed t) in
  let lifetime := crNotAfter leaf - crNotBefore leaf in
  let older := Z.max (tuNow t - crNotBefore leaf) age in
  clocksSane leaf (tuNow t) age → drawsBelow (tuDraw t) → 0 ≤ rrAttempt r →
  renewTurn (retryBaseOf retryBase) (retryCapOf retryCap) t r = (wait, e, r') →
  (older < lifetime → rrAttempt r = 0 →
     7 * lifetime ≤ 12 * (older + wait) + 24 ∧ (wait = 0 ∨ 0 < wait ∧ 3 * (older + wait) ≤ 2 * lifetime + 2)) ∧
  (older < lifetime → 0 < rrAttempt r → 0 ≤ wait < retryCapOf retryCap ∧ older + wait ≤ lifetime) ∧
  (lifetime ≤ older → rrAttempt r = 0 → wait = 0) ∧
  (lifetime ≤ older → 0 ≤ wait < 5 * minute) ∧
  match e with
  | None => rrAttempt r' = 0 ∧ rrLastError r' = None ∨
            rrAttempt r' = rrAttempt r + 1 ∧ ∃ why, rrLastError r' = Some (bool_decide (lifetime ≤ older), why)
  | Some RunDone => tuDone t = true
  | Some RunReenrolled => tuDone t = false ∧ ∃ ok d, (d = tuWaiting t (rrDir r) ∨ d = tuCalling t (tuWaiting t (rrDir r))) ∧ LoadKey ok d ≠ Ok (hoKey (rrHolder r))
  end.
Proof.
  cbv zeta. intros Hc Hd Ha Ht. pose proof (renewTurn_parts _ _ _ _ _ _ _ Ht) as [Hw He].
  rewrite (leafExpired_spec _ _ _ Hc) in He. pose proof (leafExpired_spec _ _ _ Hc) as Hx.
  split_and!; [..|exact He]; intros Ho; rewrite ?bool_decide_eq_true_2, ?bool_decide_eq_false_2 in Hx by lia; subst wait.
  - intros ->. pose proof (renewWait_first (retryBaseOf retryBase) (retryCapOf retryCap) _ _ _ _ Hc Hd Hx) as Hb. cbv zeta in Hb. lia.
  - intros Hp. pose proof (renewWait_retry (retryBaseOf retryBase) (retryCapOf retryCap) _ _ _ _ _ (retryCapOf_pos _) Hp Hc Hd Hx) as Hb. cbv zeta in Hb. lia.
  - intros ->. by destruct (renewWait_expired (retryBaseOf retryBase) (retryCapOf retryCap) _ 0 _ _ _ (retryCapOf_pos _) Hd Hx) as (_ & _ & ->).
  - by destruct (renewWait_expired (retryBaseOf retryBase) (retryCapOf retryCap) _ (rrAttempt r) _ _ _ (retryCapOf_pos _) Hd Hx) as (? & _ & _).
Qed.

(** C16: What a restart finds.  While other processes leave the state directory alone, whatever
    calls, reads and writes fail, the directory at every point of a run loads as the key the
    daemon started with and the very certificate it presents then, and the run ends only with its
    context.  When the host was enrolled again underneath the daemon, nothing of the
    directory is written and the holder stays as it was; when the other key can be read after
    the wait, the loop ends there. *)
Theorem Renewer_restart `{UUIDLib} `{X509Lib} `{!X509Laws} `{!CredentialLib} `{!CredentialLaws} retryBase retryCap :
  (∀ now elapsed turns h d waits e r,
     LoadHolder readable d = Ok h → Forall undisturbed turns →
     Renewer_Run retryBase retryCap now elapsed turns h d = (waits, e, r) →
     hoKey (rrHolder r) = hoKey h ∧ e = (if existsb tuDone turns then Some RunDone else None) ∧
     ∃ trust, LoadHolder readable (rrDir r) = Ok (MkHolder (hoKey h) (hoCred (rrHolder r)) trust)) ∧
  (∀ t r wait e r',
     renewTurn retryBase retryCap t r = (wait, e, r') →
     let d1 := tuWaiting t (rrDir r) in
     let d2 := tuCalling t d1 in
     (foreign (rrHolder r) d2 → rrHolder r' = rrHolder r ∧ (rrDir r' = d1 ∨ rrDir r' = d2) ∧ rrAttempt r ≤ rrAttempt r') ∧
     (∀ key, tuDone t = false → tuReadWait t = true → LoadKey true d1 = Ok key → key ≠ hoKey (rrHolder r) →
        e = Some RunReenrolled ∧ rrDir r' = d1)).
Proof.
  split.
  - intros now elapsed turns h d waits e r Hl Ht Hr.
    assert (Hs : restarts h d) by (exists (hoTrust h); rewrite Hl; by destruct h).
    destruct (λ P, renewTurns_restarts _ _ _ (MkRenewRun h d 0 (newLifeClock (crLeaf (hoCred h)) now elapsed) false None) _ _ _ Ht P Hr) as ([trust Hl'] & Hk & He); [exact Hs|].
    cbn in Hk. rewrite Hk in Hl'. eauto.
  - intros t r wait e r' Ht. cbv zeta. split; [by apply (renewTurn_foreign _ _ _ _ _ _ _ Ht)|].
    intros key. by apply (renewTurn_reenrolled _ _ _ _ _ _ _ key Ht).
Qed.

(** ** An example *)

Module CredentialExample.
Import EnrollExample.

(** A certificate of the one workload is its serial number and its validity. *)
Definition simple (serial notBefore notAfter : Z) : Certificate := MkCertificate serial "" [URI newcomer] notBefore notAfter true false.
#[global] Instance numbered : X509Lib := {
  pem_Decode b := match b with Zpos t :: b => (λ ty, (ty, b, [])) <$> (decode t : option string) | _ => None end;
  pem_Encode ty b := Zpos (encode ty) :: b;
  x509_ParseCertificateRequest b := if decide (b = [7]) then Some (MkCSR (KeyECDSA (Some 256)) true) else None;
  x509_CreateCertificate t _ _ :=
    let c := encoded t in
    if decide (c = simple (crSerial c) (crNotBefore c) (crNotAfter c)) then Some [crSerial c; crNotBefore c; crNotAfter c] else None;
  x509_ParseCertificate b := match b with [serial; nb; na] => Some (simple serial nb na) | _ => None end;
}.
#[global] Instance numbered_laws : X509Laws.
Proof.
  split.
  - intros ty b. exists []. cbn. by rewrite decode_encode.
  - intros t parent k b. cbn [x509_CreateCertificate x509_ParseCertificate numbered]. case_decide as Hc; [|done].
    intros [= <-]. f_equal. symmetry. exact Hc.
Qed.

(** A key is a number, and a certificate carries the key of its serial number. *)
Definition carries (der : bytestring) (key : Z) : bool :=
  match x509_ParseCertificate der with Some c => bool_decide (crSerial c = key) | None => false end.
Definition keyOf (keyPEM : bytestring) : option Z :=
  match pem_Decode keyPEM with
  | Some (ty, der, _) => if decide (ty = "PRIVATE KEY"%string) then match der with [k] => Some k | _ => None end else None
  | None => None
  end.
#[global] Instance credentials : CredentialLib := {
  PrivateKey := Z;
  x509_MarshalPKCS8 k := Some [k];
  x509_ParsePKCS8 der := match der with [k] => Some (Some k) | _ => None end;
  x509_CreateCertificateRequest k := Some [k];
  tls_X509KeyPair certPEM keyPEM :=
    match pem_Decode certPEM, keyOf keyPEM with
    | Some (_, der, _), Some k => if carries der k then Some der else None
    | _, _ => None
    end;
  x509_carries := carries;
  pool_AppendCerts b := negb (bool_decide (b = []));
  x509_Verify _ _ := true;
}.

Lemma keyOf_parseKey keyPEM key : parseKey keyPEM = Ok key → keyOf keyPEM = Some key.
Proof.
  unfold parseKey, keyOf. destruct (pem_Decode keyPEM) as [[[ty der] rest]|]; [|done].
  case_decide as Hn; [done|]. rewrite decide_True by (destruct (decide (ty = "PRIVATE KEY"%string)); done).
  destruct der as [|k [|? ?]]; cbn; [done| |done]. by intros [= ->].
Qed.
#[global] Instance credentials_laws : CredentialLaws.
Proof.
  split.
  - intros key. by exists [key].
  - intros certPEM k1 k2 key H1 H2. apply keyOf_parseKey in H1, H2. cbn [tls_X509KeyPair credentials]. by rewrite H1, H2.
Qed.

Definition day : Z := 24 * hour.
Definition cert (key notBefore : Z) : bytestring :=
  pem_Encode "CERTIFICATE" [key; notBefore; notBefore + day].
Definition loaded (d : CredDir) : Holder :=
  match LoadHolder readable d with Ok h => h | Err _ => MkHolder 0 (MkAgentCredential [] rootCert) [] end.
Definition directory : CredDir := MkCredDir (Some (pemKey 5)) (Some (cert 5 0)) (Some [1]).
Definition theHolder : Holder := loaded directory.

(** At the start the control plane is away, and half a minute later it answers. *)
Definition turnAt (now : Z) (answer : option (bytestring * bytestring)) : Turn :=
  MkTurn now now (λ _, 0) false id true (λ _, answer) id true id (λ _, everyStep) now now.
Definition turns : list Turn := [turnAt 0 None; turnAt (16 * hour) (Some (cert 5 (16 * hour), [2]))].

(** Another process enrols the host between the check of the stored key and the write of the
    renewed certificate: the certificate is written beside the other key, and nothing loads. *)
Definition enrolledAgain (d : CredDir) : CredDir := MkCredDir (Some (pemKey 6)) (Some (cert 6 day)) (Some [3]).
Definition racing : result CredError () * Holder * CredDir :=
  Replace true enrolledAgain (λ _, everyStep) (cert 5 (16 * hour)) [2] theHolder directory.
Example racing_mispairs : racing.1.1 = Ok () ∧ Store_Load readable racing.2 = Err CredBadPair.
Proof. vm_compute. done. Qed.

Example directory_loads : LoadHolder readable directory = Ok theHolder.
Proof. vm_compute. reflexivity. Qed.
Definition theRun : list Z * option RunEnd * RenewRun := Renewer_Run 0 0 0 0 turns theHolder directory.
Example theRun_renews : crNotAfter (crLeaf (hoCred (rrHolder theRun.2))) = 40 * hour ∧ theRun.1.1 = [16 * hour; 0].
Proof. vm_compute. done. Qed.

(** The directory pairs the renewed certificate with the key after the two turns. *)
Lemma Renewer_restart_witness : restarts (rrHolder theRun.2) (rrDir theRun.2) ∧ theRun.1.2 = None.
Proof.
  destruct theRun as [[waits e] r] eqn:Hrun.
  destruct (proj1 (Renewer_restart 0 0) 0 0 turns theHolder directory waits e r directory_loads) as (Hk & He & trust & Hl).
  - repeat constructor.
  - exact Hrun.
  - split; [exists trust; cbn [fst snd]; rewrite Hk; exact Hl|exact He].
Defined.

(** The first turn waits two thirds of a day. *)
Definition started : RenewRun := MkRenewRun theHolder directory 0 (newLifeClock (crLeaf (hoCred theHolder)) 0 0) false None.
Lemma Renewal_schedule_witness :
  let wait := (renewTurn (retryBaseOf 0) (retryCapOf 0) (turnAt 0 None) started).1.1 in
  7 * day ≤ 12 * wait + 24 ∧ (wait = 0 ∨ 0 < wait ∧ 3 * wait ≤ 2 * day + 2).
Proof.
  destruct (renewTurn (retryBaseOf 0) (retryCapOf 0) (turnAt 0 None) started) as [[wait e] r'] eqn:Ht.
  destruct (Renewal_schedule 0 0 (turnAt 0 None) started wait e r') as [Hfirst _].
  - vm_compute. intuition discriminate.
  - intros n Hn. cbn. lia.
  - cbn. lia.
  - exact Ht.
  - cbn [fst snd]. assert (Hold : Z.max (tuNow (turnAt 0 None) - crNotBefore (crLeaf (hoCred (rrHolder started))))
        (lifeClock_age (rrClock started) (tuElapsed (turnAt 0 None))) = 0) by (vm_compute; reflexivity).
    assert (Hlife : crNotAfter (crLeaf (hoCred (rrHolder started))) - crNotBefore (crLeaf (hoCred (rrHolder started))) = day) by (vm_compute; reflexivity).
    rewrite Hold, Hlife in Hfirst. apply Hfirst; vm_compute; reflexivity.
Defined.
End CredentialExample.
