(* ===== verification/Document.v ===== *)
(** * Policy documents: [internal/policy/document.go]

    The JSON form of services and rulesets, with names or ids where the model has ids, names of
    enumerations, and port specifications as text.  What a document gets wrong is carried with
    the object as its faults, at paths relative to it; nothing is dropped, so that every element
    keeps its index.  [encoding/json] is outside: a body is the document it decodes to, if any. *)

From S2P Require Import Prelude GoStd Strconv Netip Wire Uuid Identity Policy Validate.
From Stdlib Require Import Ascii.
Local Open Scope Z_scope.

(** ** Documents *)

Record EntryDoc := MkEntryDoc { edProtocol : string; edPorts : list string }.

(** An absent map of workloads is not an empty one. *)
Record PeerDoc := MkPeerDoc { pdWorkloads : option Selector; pdAddressGroup : string; pdCIDR : string }.

Record RuleDoc := MkRuleDoc {
  rdID : string; rdDirection : string; rdEnabled : option bool; rdDescription : string; rdPeers : list PeerDoc;
  rdServices : list string; rdEntries : list EntryDoc; rdVersion : string; rdCreatedAt : string; rdUpdatedAt : string;
}.

Record RulesetDoc := MkRulesetDoc {
  rsdID : string; rsdName : string; rsdDescription : string; rsdEnabled : option bool; rsdScope : option Selector;
  rsdRules : list RuleDoc; rsdVersion : string; rsdCreatedAt : string; rsdUpdatedAt : string;
}.

Record ServiceDoc := MkServiceDoc { sdName : string; sdEntries : list EntryDoc }.

(** ** Names of enumerations *)

Definition ParseProtocol (s : string) : option Protocol :=
  let n := lowerName (TrimSpace s) in
  if decide (n = "tcp") then Some PROTOCOL_TCP
  else if decide (n = "udp") then Some PROTOCOL_UDP
  else if decide (n = "icmp") then Some PROTOCOL_ICMP
  else None.
Definition ProtocolName (p : Protocol) : string := ToLower (TrimPrefix (Protocol_String p) "PROTOCOL_").

(** The generated [String] of a direction. *)
Definition Direction_String (d : Direction) : string :=
  match d with
  | DIRECTION_UNSPECIFIED => "DIRECTION_UNSPECIFIED"
  | DIRECTION_INBOUND => "DIRECTION_INBOUND"
  | DIRECTION_OUTBOUND => "DIRECTION_OUTBOUND"
  | Direction_unrecognized n => FormatInt n
  end.
Definition ParseDirection (s : string) : option Direction :=
  let n := lowerName (TrimSpace s) in
  if decide (n = "inbound") then Some DIRECTION_INBOUND
  else if decide (n = "outbound") then Some DIRECTION_OUTBOUND
  else if decide (n = "") then Some DIRECTION_UNSPECIFIED
  else None.
Definition DirectionName (d : Direction) : string := ToLower (TrimPrefix (Direction_String d) "DIRECTION_").

Definition ParseMode (s : string) : option EnforcementMode :=
  let n := lowerName (TrimSpace s) in
  if decide (n = "visibility") then Some ENFORCEMENT_MODE_VISIBILITY
  else if decide (n = "simulation") then Some ENFORCEMENT_MODE_SIMULATION
  else if decide (n = "enforced") then Some ENFORCEMENT_MODE_ENFORCED
  else None.
Definition ModeName (m : EnforcementMode) : string := ToLower (TrimPrefix (EnforcementMode_String m) "ENFORCEMENT_MODE_").

(** ** Ports and entries *)

Definition ParsePortSpec (s : string) : option PortRange :=
  let s := TrimSpace s in
  let '(lo, hi) := match Cut s "-" with Some (lo, hi) => (lo, Some hi) | None => (s, None) end in
  start ← ParseUint 32 (TrimSpace lo);
  end_ ← match hi with Some hi => ParseUint 32 (TrimSpace hi) | None => Some start end;
  Some (MkPortRange start end_).

Definition FormatPortSpec (p : PortRange) : string :=
  if decide (prStart p = prEnd p) then FormatInt (prStart p) else FormatInt (prStart p) +:+ "-" +:+ FormatInt (prEnd p).

(** The entry of a command line. *)
Definition EntrySpecDoc (s : string) : EntryDoc :=
  let '(protoName, ports) := match Cut s ":" with Some (a, b) => (a, b) | None => (s, "") end in
  MkEntryDoc protoName (if decide (TrimSpace ports ≠ "") then Split ports "," else []).
Definition FormatEntrySpec (e : ServiceEntry) : string :=
  if decide (sePorts e = []) then ProtocolName (seProtocol e)
  else ProtocolName (seProtocol e) +:+ ":" +:+ Join (FormatPortSpec <$> sePorts e) ",".

(** A loop that converts every element and may add findings. *)
Fixpoint convertEach {A B} (convert : nat → A → Findings → B * Findings) (i : nat) (xs : list A) (f : Findings) : list B * Findings :=
  match xs with
  | [] => ([], f)
  | x :: xs' =>
      let '(y, f) := convert i x f in
      let '(ys, f) := convertEach convert (S i) xs' f in
      (y :: ys, f)
  end.

(** What is read of a field, or its zero value and a finding. *)
Definition readOr {B} (read : option B) (zero : B) (path : string) (err : AdmissionError) (text : string) (f : Findings) : B * Findings :=
  match read with Some b => (b, f) | None => (zero, addFinding path err (DText text) f) end.

Definition entryFromDoc (path : string) (d : EntryDoc) (f : Findings) : ServiceEntry * Findings :=
  let '(proto, f) := readOr (ParseProtocol (edProtocol d)) PROTOCOL_UNSPECIFIED (path +:+ ".protocol") ErrBadProtocol (edProtocol d) f in
  let '(ports, f) := convertEach (λ i spec, readOr (ParsePortSpec spec) (MkPortRange 0 0) (at_index (path +:+ ".ports") i) ErrBadPortSpec spec)
    0 (edPorts d) f in
  (MkServiceEntry proto ports, f).

Definition entryToDoc (e : ServiceEntry) : EntryDoc := MkEntryDoc (ProtocolName (seProtocol e)) (FormatPortSpec <$> sePorts e).

(** ** Instants as text *)

(** The zero [time.Time], the first instant of the year 1. *)
Definition zeroTime : Z := -62135596800 * 10 ^ 9.

(** Left-padded decimal digits of a number that is not negative. *)
Fixpoint zeroPad (width : nat) (n : Z) : string :=
  match width with O => "" | S w => zeroPad w (n / 10) +:+ FormatInt (n `mod` 10) end.
(** The day of the civil calendar, of days since 1970-01-01. *)
Definition civil (days : Z) : Z * Z * Z :=
  let z := days + 719468 in
  let era := z / 146097 in
  let doe := z `mod` 146097 in
  let yoe := (doe - doe / 1460 + doe / 36524 - doe / 146096) / 365 in
  let doy := doe - (365 * yoe + yoe / 4 - yoe / 100) in
  let mp := (5 * doy + 2) / 153 in
  let m := if decide (mp < 10) then mp + 3 else mp - 9 in
  (yoe + era * 400 + (if decide (m ≤ 2) then 1 else 0), m, doy - (153 * mp + 2) / 5 + 1).
(** A fraction of a second without its trailing zeros, and nothing of a whole one. *)
Fixpoint trimZeros (width : nat) (n : Z) : string :=
  match width with
  | O => ""
  | S w => if decide (n `mod` 10 = 0) then trimZeros w (n / 10) else "." +:+ zeroPad width n
  end.
(** [t.UTC().Format(time.RFC3339Nano)], of years with four digits. *)
Definition formatRFC3339Nano (t : Z) : string :=
  let s := t / 10 ^ 9 in
  let '(y, m, d) := civil (s / 86400) in
  let r := s `mod` 86400 in
  zeroPad 4 y +:+ "-" +:+ zeroPad 2 m +:+ "-" +:+ zeroPad 2 d +:+ "T" +:+ zeroPad 2 (r / 3600) +:+ ":" +:+ zeroPad 2 ((r / 60) `mod` 60) +:+ ":" +:+
  zeroPad 2 (r `mod` 60) +:+ trimZeros 9 (t `mod` 10 ^ 9) +:+ "Z".

Example format_instant :
  formatRFC3339Nano (1767323045 * 10 ^ 9) = "2026-01-02T03:04:05Z" ∧ formatRFC3339Nano (1709164799 * 10 ^ 9 + 120000000) = "2024-02-28T23:59:59.12Z" ∧
  formatRFC3339Nano zeroTime = "0001-01-01T00:00:00Z" ∧ formatRFC3339Nano (951782400 * 10 ^ 9 + 7) = "2000-02-29T00:00:00.000000007Z".
Proof. vm_compute. done. Qed.

Section documents.
Context `{UUIDLib}.
(** The value that [uuid.Parse] returns beside an error. *)
Context (uuid_partial : string → UUID).

(** ** Names *)

Record Names := MkNames {
  ServiceByName : gmap string UUID; ServiceName : gmap UUID string; AddressGroupByName : gmap string UUID; AddressGroupName : gmap UUID string;
}.

(** Later entries overwrite. *)
Definition NewNames (services : list Service) (groups : list AddressGroup) : Names :=
  MkNames (foldl (λ m s, <[svcName s := svcID s]> m) ∅ services) (foldl (λ m s, <[svcID s := svcName s]> m) ∅ services)
    (foldl (λ m g, <[agName g := agID g]> m) ∅ groups) (foldl (λ m g, <[agID g := agName g]> m) ∅ groups).

Definition ResolveID (s : string) (byName : gmap string UUID) : option UUID :=
  match uuid_Parse s with Some id => Some id | None => byName !! s end.

(** ** From documents *)

(** The id of a document, nil when there is none. *)
Definition idFromDoc (text : string) (f : Findings) : UUID * Findings :=
  if decide (text = "") then (uuid_Nil, f) else readOr (uuid_Parse text) (uuid_partial text) "id" ErrBadID text f.

Definition ServiceFromDoc (doc : ServiceDoc) : Service :=
  let '(entries, f) := convertEach (λ i, entryFromDoc (at_index "entries" i)) 0 (sdEntries doc) noFindings in
  MkService uuid_Nil (sdName doc) entries zeroTime zeroTime 0 (fErrors f).

Definition peerFromDoc (names : Names) (j : nat) (pd : PeerDoc) (f : Findings) : Peer * Findings :=
  match pdWorkloads pd with
  | Some sel => (MkPeer PeerWorkloads sel uuid_Nil "", f)
  | None =>
      if decide (pdAddressGroup pd ≠ "") then
        let '(id, f) := readOr (ResolveID (pdAddressGroup pd) (AddressGroupByName names)) uuid_Nil (at_index "peers" j +:+ ".address_group")
          ErrUnknownAddressGroup (pdAddressGroup pd) f in
        (MkPeer PeerAddressGroup ∅ id "", f)
      else if decide (pdCIDR pd ≠ "") then (MkPeer PeerCIDR ∅ uuid_Nil (pdCIDR pd), f)
      else (MkPeer PeerUnspecified ∅ uuid_Nil "", f)
  end.

Definition RuleFromDoc (rd : RuleDoc) (names : Names) : Rule :=
  let '(id, f) := idFromDoc (rdID rd) noFindings in
  let '(dir, f) := readOr (ParseDirection (rdDirection rd)) DIRECTION_UNSPECIFIED "direction" ErrBadDirection (rdDirection rd) f in
  let '(peers, f) := convertEach (peerFromDoc names) 0 (rdPeers rd) f in
  let '(services, f) := convertEach (λ j name, readOr (ResolveID name (ServiceByName names)) uuid_Nil (at_index "services" j) ErrUnknownService name)
    0 (rdServices rd) f in
  let '(entries, f) := convertEach (λ j, entryFromDoc (at_index "entries" j)) 0 (rdEntries rd) f in
  MkRule id dir (default true (rdEnabled rd)) (rdDescription rd) peers services entries zeroTime zeroTime 0 (fErrors f).

Definition RulesetFromDoc (doc : RulesetDoc) (names : Names) : Ruleset :=
  let '(id, f) := idFromDoc (rsdID doc) noFindings in
  MkRuleset id (rsdName doc) (rsdDescription doc) (default true (rsdEnabled doc)) (default ∅ (rsdScope doc))
    ((λ rd, RuleFromDoc rd names) <$> rsdRules doc) zeroTime zeroTime 0 (fErrors f).

(** [json_Decode] is the decoder with unknown fields disallowed. *)
Definition DecodeRuleset (json_Decode : list Z → option RulesetDoc) (data : list Z) (names : Names) : option Ruleset :=
  doc ← json_Decode data; Some (RulesetFromDoc doc names).

(** ** To documents *)

Definition versionToDoc (v : Z) : string := if decide (0 < v) then FormatVersion v else "".
Definition timeToDoc (updatedAt t : Z) : string := if decide (updatedAt = zeroTime) then "" else formatRFC3339Nano t.

Definition peerToDoc (names : Names) (p : Peer) : option PeerDoc :=
  match peerKind p with
  | PeerWorkloads => Some (MkPeerDoc (Some (peerWorkloads p)) "" "")
  | PeerAddressGroup => Some (MkPeerDoc None (default (uuid_String (peerAddressGroupID p)) (AddressGroupName names !! peerAddressGroupID p)) "")
  | PeerCIDR => Some (MkPeerDoc None "" (peerCIDR p))
  | PeerUnspecified | PeerKind_other _ => None
  end.

Definition RuleToDoc (names : Names) (r : Rule) : RuleDoc :=
  MkRuleDoc (uuid_String (ruleID r)) (DirectionName (ruleDirection r)) (Some (ruleEnabled r)) (ruleDescription r)
    (omap (peerToDoc names) (rulePeers r))
    ((λ id, default (uuid_String id) (ServiceName names !! id)) <$> ruleServiceIDs r) (entryToDoc <$> ruleEntries r)
    (versionToDoc (ruleVersion r)) (timeToDoc (ruleUpdatedAt r) (ruleCreatedAt r)) (timeToDoc (ruleUpdatedAt r) (ruleUpdatedAt r)).

Definition RulesetToDoc (rs : Ruleset) (names : Names) : RulesetDoc :=
  MkRulesetDoc (uuid_String (rsID rs)) (rsName rs) (rsDescription rs) (Some (rsEnabled rs)) (Some (rsScope rs))
    (RuleToDoc names <$> rsRules rs)
    (versionToDoc (rsVersion rs)) (timeToDoc (rsUpdatedAt rs) (rsCreatedAt rs)) (timeToDoc (rsUpdatedAt rs) (rsUpdatedAt rs)).
End documents.
