(* ===== verification/DocumentProps.v ===== *)
(** * Policy documents: what is printed is read, and what is unreadable is refused

    The conversions keep every element and carry what they cannot read to admission; a strict
    reader, which fails on the first such element, is the reference they are equivalent to once
    the result is admitted.  A ruleset that admission accepts survives the way to a document and
    back. *)

From S2P Require Import Prelude GoStd Strconv Netip Wire Uuid Identity Policy Validate Document.
From Stdlib Require Import Ascii.
Local Open Scope Z_scope.

(** ** Text without spaces *)

(** Printable ASCII, the space excluded. *)
Definition graphic (c : ascii) : bool := bool_decide (33 ≤ N_of_ascii c ≤ 126)%N.
Fixpoint graphics (s : string) : bool := match s with "" => true | String c s' => graphic c && graphics s' end.

Lemma graphics_app a b : graphics (a +:+ b) = graphics a && graphics b.
Proof. induction a as [|c a IH]; [done|]. cbn. by rewrite IH, andb_assoc. Qed.
Lemma space_not_graphic p : p ∈ space_runes → graphics p = false.
Proof.
  intros Hp. assert (Forall (λ p, graphics p = false) space_runes) as Hall by (repeat constructor).
  rewrite Forall_forall in Hall. by apply Hall.
Qed.
Lemma TrimSpace_graphics s : graphics s = true → TrimSpace s = s.
Proof.
  intros Hs. apply TrimSpace_id.
  - apply strip_space_None. intros p r Hp ->. rewrite graphics_app, (space_not_graphic p Hp) in Hs. done.
  - destruct (strip_space_end s) as [r|] eqn:E; [|done]. apply strip_space_end_Some in E as (p & Hp & ->).
    rewrite graphics_app, (space_not_graphic p Hp), andb_false_r in Hs. done.
Qed.

Lemma graphics_pretty x s : graphics s = true → graphics (pretty_N_go x s) = true.
Proof.
  revert s. induction (N.lt_wf_0 x) as [x _ IH]; intros s Hs. assert (x = 0 ∨ 0 < x)%N as [->|Hx] by lia; [done|].
  rewrite pretty_N_go_step by done. apply IH; [by apply N.div_lt|]. cbn. rewrite Hs, andb_true_r.
  unfold pretty_N_char. repeat case_match; done.
Qed.
Lemma graphics_FormatInt n : 0 ≤ n → graphics (FormatInt n) = true.
Proof.
  intros Hn. unfold FormatInt, pretty, pretty_Z. destruct n as [|p|p]; [done| |lia].
  change (pretty p) with (pretty (Npos p)). unfold pretty, pretty_N. rewrite decide_False by done. by apply graphics_pretty.
Qed.

(** ** Ports, entries and names *)

Lemma ParseUint_FormatInt bits n : 0 ≤ n < 2 ^ bits → ParseUint bits (FormatInt n) = Some n.
Proof.
  intros Hn. pose proof (FormatInt_nonempty n) as Hne. unfold ParseUint.
  assert (parseDigits 0 (FormatInt n) = Some n) as Hd.
  { unfold FormatInt, pretty, pretty_Z. destruct n as [|p|p]; [done| |lia].
    change (pretty p) with (pretty (Npos p)). unfold pretty, pretty_N. rewrite decide_False by done. by rewrite parseDigits_pretty. }
  destruct (FormatInt n); [done|]. rewrite Hd. cbn [mbind option_bind]. by rewrite decide_True by lia.
Qed.

Definition port32 (p : PortRange) : Prop := 0 ≤ prStart p < 2 ^ 32 ∧ 0 ≤ prEnd p < 2 ^ 32.
Lemma ParsePortSpec_Format p : port32 p → ParsePortSpec (FormatPortSpec p) = Some p.
Proof.
  intros [Hs He]. pose proof (graphics_FormatInt (prStart p) ltac:(lia)) as Gs. pose proof (graphics_FormatInt (prEnd p) ltac:(lia)) as Ge.
  pose proof (FormatInt_nonneg_free "-"%char (prStart p) eq_refl ltac:(lia)) as Fs.
  unfold ParsePortSpec, FormatPortSpec. case_decide as Heq.
  - rewrite !TrimSpace_graphics by done. rewrite Cut_None by done. rewrite TrimSpace_graphics by done.
    rewrite ParseUint_FormatInt by done. cbn. destruct p; cbn in *; congruence.
  - rewrite (TrimSpace_graphics (_ +:+ _)) by (rewrite !graphics_app, Gs, Ge; done).
    change ("-" +:+ ?b) with (String "-" b). rewrite Cut_app by done. rewrite !TrimSpace_graphics by done.
    rewrite !ParseUint_FormatInt by done. cbn. by destruct p.
Qed.

Lemma names_exact :
  (∀ p, p = PROTOCOL_TCP ∨ p = PROTOCOL_UDP ∨ p = PROTOCOL_ICMP → ParseProtocol (ProtocolName p) = Some p) ∧
  (∀ d, d = DIRECTION_INBOUND ∨ d = DIRECTION_OUTBOUND → ParseDirection (DirectionName d) = Some d) ∧
  (∀ m, m = ENFORCEMENT_MODE_VISIBILITY ∨ m = ENFORCEMENT_MODE_SIMULATION ∨ m = ENFORCEMENT_MODE_ENFORCED → ParseMode (ModeName m) = Some m).
Proof. split_and!; intros ?; intuition subst; vm_compute; reflexivity. Qed.

(** ** The strict reader *)

Definition entry_read (d : EntryDoc) : option ServiceEntry :=
  proto ← ParseProtocol (edProtocol d); ports ← mapM ParsePortSpec (edPorts d); Some (MkServiceEntry proto ports).

Section reader.
Context `{UUIDLib}.

Definition id_read (text : string) : option UUID := if decide (text = "") then Some uuid_Nil else uuid_Parse text.
Definition peer_read (names : Names) (pd : PeerDoc) : option Peer :=
  match pdWorkloads pd with
  | Some sel => Some (MkPeer PeerWorkloads sel uuid_Nil "")
  | None =>
      if decide (pdAddressGroup pd ≠ "") then
        id ← ResolveID (pdAddressGroup pd) (AddressGroupByName names); Some (MkPeer PeerAddressGroup ∅ id "")
      else if decide (pdCIDR pd ≠ "") then Some (MkPeer PeerCIDR ∅ uuid_Nil (pdCIDR pd))
      else Some (MkPeer PeerUnspecified ∅ uuid_Nil "")
  end.
Definition rule_read (names : Names) (rd : RuleDoc) : option Rule :=
  id ← id_read (rdID rd);
  dir ← ParseDirection (rdDirection rd);
  peers ← mapM (peer_read names) (rdPeers rd);
  services ← mapM (λ name, ResolveID name (ServiceByName names)) (rdServices rd);
  entries ← mapM entry_read (rdEntries rd);
  Some (MkRule id dir (default true (rdEnabled rd)) (rdDescription rd) peers services entries zeroTime zeroTime 0 []).
Definition ruleset_read (names : Names) (doc : RulesetDoc) : option Ruleset :=
  id ← id_read (rsdID doc);
  rules ← mapM (rule_read names) (rsdRules doc);
  Some (MkRuleset id (rsdName doc) (rsdDescription doc) (default true (rsdEnabled doc)) (default ∅ (rsdScope doc)) rules zeroTime zeroTime 0 []).
End reader.

(** ** Conversions *)

(** A conversion that reads what the strict reader reads, adds nothing then, and adds a
    finding when that fails. *)
Definition converts {B} (convert : Findings → B * Findings) (read : option B) : Prop :=
  ∀ f, fFaulted f = ∅ →
    fFaulted (convert f).2 = ∅ ∧ (fErrors f ≠ [] → fErrors (convert f).2 ≠ []) ∧
    match read with Some y => convert f = (y, f) | None => fErrors (convert f).2 ≠ [] end.

Lemma converts_readOr {B} (read : option B) zero path err text : converts (readOr read zero path err text) read.
Proof.
  intros f Hf. unfold readOr, addFinding. destruct read as [b|]; [done|]. rewrite decide_False by (rewrite Hf; set_solver). cbn.
  split; [done|]. split; by destruct (fErrors f).
Qed.

Lemma converts_ret {B} (b : B) : converts (λ f, (b, f)) (Some b).
Proof. by intros f Hf. Qed.

Lemma converts_bind {A B} (c : Findings → A * Findings) (k : A → Findings → B * Findings) (r : option A) (s : A → option B) :
  converts c r → (∀ a, converts (k a) (s a)) → converts (λ f, let '(a, f) := c f in k a f) (r ≫= s).
Proof.
  intros Hc Hk f Hf. destruct (Hc f Hf) as (Hf1 & Hk1 & Hr). destruct (c f) as [a f1]. cbn in *.
  destruct (Hk a f1 Hf1) as (Hf2 & Hk2 & Hs). split; [done|]. split; [auto|].
  destruct r as [a'|]; cbn; [|auto]. injection Hr as -> ->. exact Hs.
Qed.

Lemma converts_ext {B} (c c' : Findings → B * Findings) r : (∀ f, c' f = c f) → converts c r → converts c' r.
Proof. intros He Hc f Hf. rewrite He. by apply Hc. Qed.

Lemma converts_each {A B} (convert : nat → A → Findings → B * Findings) (read : A → option B) xs :
  (∀ i x, converts (convert i x) (read x)) → ∀ i, converts (convertEach convert i xs) (mapM read xs).
Proof.
  intros Hc. induction xs as [|x xs IH]; intros i; [exact (converts_ret [])|].
  change (mapM read (x :: xs)) with (y ← read x; ys ← mapM read xs; Some (y :: ys)).
  apply converts_bind with (k := λ y f, let '(ys, f) := convertEach convert (S i) xs f in (y :: ys, f)); [done|].
  intros y. apply converts_bind with (k := λ ys f, (y :: ys, f)); [done|]. intros ys. apply converts_ret.
Qed.

Lemma converts_entry path d : converts (entryFromDoc path d) (entry_read d).
Proof.
  unfold entryFromDoc, entry_read. apply (converts_bind _ (λ proto f, let '(ports, f) := convertEach _ _ _ f in (MkServiceEntry proto ports, f))); [apply converts_readOr|].
  intros proto. apply (converts_bind _ (λ ports f, (MkServiceEntry proto ports, f))); [|intros ports; apply converts_ret].
  apply converts_each. intros i spec. apply converts_readOr.
Qed.

Section conversions.
Context `{UUIDLib} (uuid_partial : string → UUID).

Lemma converts_id text : converts (idFromDoc uuid_partial text) (id_read text).
Proof. unfold idFromDoc, id_read. destruct (decide (text = "")); [apply converts_ret|apply converts_readOr]. Qed.

Lemma converts_peer names j pd : converts (peerFromDoc names j pd) (peer_read names pd).
Proof.
  unfold peerFromDoc, peer_read. destruct (pdWorkloads pd); [apply converts_ret|].
  case_decide; [|case_decide; apply converts_ret].
  apply (converts_bind _ (λ id f, (MkPeer PeerAddressGroup ∅ id "", f))); [apply converts_readOr|]. intros id. apply converts_ret.
Qed.

(** A conversion from no findings: what is read, and whether there are faults. *)
Lemma converts_start {B} (c : Findings → B * Findings) r :
  converts c r → match r with Some y => c noFindings = (y, noFindings) | None => fErrors (c noFindings).2 ≠ [] end.
Proof. intros Hc. by destruct (Hc noFindings eq_refl) as (_ & _ & Hr). Qed.

Lemma RuleFromDoc_read names rd :
  match rule_read names rd with Some r => RuleFromDoc uuid_partial rd names = r | None => ruleFaults (RuleFromDoc uuid_partial rd names) ≠ [] end.
Proof.
  pose (body := λ f, let '(id, f) := idFromDoc uuid_partial (rdID rd) f in
    let '(dir, f) := readOr (ParseDirection (rdDirection rd)) DIRECTION_UNSPECIFIED "direction" ErrBadDirection (rdDirection rd) f in
    let '(peers, f) := convertEach (peerFromDoc names) 0 (rdPeers rd) f in
    let '(services, f) := convertEach (λ j name, readOr (ResolveID name (ServiceByName names)) uuid_Nil (at_index "services" j) ErrUnknownService name) 0 (rdServices rd) f in
    let '(entries, f) := convertEach (λ j, entryFromDoc (at_index "entries" j)) 0 (rdEntries rd) f in
    (MkRule id dir (default true (rdEnabled rd)) (rdDescription rd) peers services entries zeroTime zeroTime 0 [], f)).
  assert (converts body (rule_read names rd)) as Hc.
  { unfold rule_read, body. eapply converts_bind; [apply converts_id|]. intros id. eapply converts_bind; [apply converts_readOr|]. intros dir.
    eapply converts_bind; [apply converts_each; intros; apply converts_peer|]. intros peers.
    eapply converts_bind; [apply converts_each; intros; apply converts_readOr|]. intros services.
    eapply converts_bind; [apply converts_each; intros; apply converts_entry|]. intros entries. apply converts_ret. }
  apply converts_start in Hc. revert Hc. unfold body, RuleFromDoc.
  destruct (idFromDoc _ _ _) as [id f1], (readOr _ _ _ _ _ f1) as [dir f2], (convertEach _ _ _ f2) as [peers f3], (convertEach _ _ _ f3) as [services f4],
    (convertEach _ _ _ f4) as [entries f5]. cbn [ruleFaults snd].
  destruct (rule_read names rd); [|done]. intros [= <- ->]. done.
Qed.

Lemma RulesetFromDoc_read names doc :
  match ruleset_read names doc with
  | Some rs => RulesetFromDoc uuid_partial doc names = rs
  | None => rsFaults (RulesetFromDoc uuid_partial doc names) ≠ [] ∨ Exists (λ r, ruleFaults r ≠ []) (rsRules (RulesetFromDoc uuid_partial doc names))
  end.
Proof.
  pose proof (converts_start _ _ (converts_id (rsdID doc))) as Hid. unfold ruleset_read, RulesetFromDoc.
  destruct (idFromDoc uuid_partial (rsdID doc) noFindings) as [id f]. cbn [snd] in Hid.
  destruct (id_read (rsdID doc)) as [id'|]; cbn [mbind option_bind]; [|by left]. injection Hid as -> ->.
  destruct (mapM (rule_read names) (rsdRules doc)) as [rules|] eqn:Hm; cbn [mbind option_bind].
  - apply mapM_Some in Hm. f_equal. induction Hm as [|rd r rds rs Hr _ IH]; [done|]. cbn. f_equal; [|done].
    pose proof (RuleFromDoc_read names rd) as Hrd. by rewrite Hr in Hrd.
  - right. cbn [rsRules]. apply mapM_None in Hm. apply Exists_fmap. eapply Exists_impl; [exact Hm|]. intros rd Hrd. cbn in Hrd |- *.
    pose proof (RuleFromDoc_read names rd) as Hf. by rewrite Hrd in Hf.
Qed.

Lemma RuleFromDoc_places names rd :
  let r := RuleFromDoc uuid_partial rd names in
  length (rulePeers r) = length (rdPeers rd) ∧ length (ruleServiceIDs r) = length (rdServices rd) ∧ length (ruleEntries r) = length (rdEntries rd).
Proof.
  assert (∀ A B (c : nat → A → Findings → B * Findings) xs i f, length (convertEach c i xs f).1 = length xs) as Hl.
  { intros A B c xs. induction xs as [|x xs IH]; intros i f; [done|]. cbn. destruct (c i x f) as [y f1]. specialize (IH (S i) f1).
    destruct (convertEach c (S i) xs f1). cbn in *. by rewrite IH. }
  unfold RuleFromDoc. destruct (idFromDoc _ _ _) as [id f1], (readOr _ _ _ _ _ f1) as [dir f2].
  pose proof (Hl _ _ (peerFromDoc names) (rdPeers rd) 0%nat f2) as H1. destruct (convertEach _ _ _ f2) as [peers f3].
  pose proof (Hl _ _ (λ j name, readOr (ResolveID name (ServiceByName names)) uuid_Nil (at_index "services" j) ErrUnknownService name) (rdServices rd) 0%nat f3) as H2.
  destruct (convertEach _ _ _ f3) as [services f4].
  pose proof (Hl _ _ (λ j, entryFromDoc (at_index "entries" j)) (rdEntries rd) 0%nat f4) as H3. destruct (convertEach _ _ _ f4) as [entries f5]. done.
Qed.
End conversions.

(** ** Entries of the command line *)

Lemma Split_Join l : l ≠ [] → Forall (λ s, contains_byte ","%char s = false) l → Split (Join l ",") "," = l.
Proof.
  intros Hne Hl. induction Hl as [|x l Hx Hl IH]; [done|]. destruct l as [|y l]; [by apply Split_single|].
  rewrite Join_cons by done. change ("," +:+ ?b) with (String "," b). rewrite Split_app by done. by rewrite IH.
Qed.

Lemma graphics_Join l : Forall (λ s, graphics s = true) l → graphics (Join l ",") = true.
Proof.
  induction 1 as [|x l Hx Hl IH]; [done|]. destruct l; [done|]. rewrite Join_cons by done. by rewrite !graphics_app, Hx, IH.
Qed.

Lemma ports_read ports : Forall port32 ports → mapM ParsePortSpec (FormatPortSpec <$> ports) = Some ports.
Proof.
  intros Hports. apply mapM_Some_2, Forall2_fmap_l, Forall_Forall2_diag. eapply Forall_impl; [exact Hports|]. apply ParsePortSpec_Format.
Qed.

Lemma FormatPortSpec_text p :
  port32 p → FormatPortSpec p ≠ "" ∧ graphics (FormatPortSpec p) = true ∧ contains_byte "," (FormatPortSpec p) = false.
Proof.
  intros [Hs He]. unfold FormatPortSpec.
  assert (∀ n, 0 ≤ n → FormatInt n ≠ "" ∧ graphics (FormatInt n) = true ∧ contains_byte "," (FormatInt n) = false) as Hn.
  { intros n Hn. split; [apply FormatInt_nonempty|]. split; [by apply graphics_FormatInt|]. by apply FormatInt_nonneg_free. }
  destruct (Hn (prStart p) ltac:(lia)) as (Hne & Hg & Hc), (Hn (prEnd p) ltac:(lia)) as (_ & Hg' & Hc'). case_decide; [done|]. split_and!.
  - by destruct (FormatInt (prStart p)).
  - by rewrite !graphics_app, Hg, Hg'.
  - by rewrite !contains_byte_app, Hc, Hc'.
Qed.

(** An entry printed for the command line is read as it was. *)
Theorem EntrySpec_roundtrip e : entry_ok e → Forall port32 (sePorts e) → entry_read (EntrySpecDoc (FormatEntrySpec e)) = Some e.
Proof.
  intros [Hp _] Hports. assert (contains_byte ":" (ProtocolName (seProtocol e)) = false) as Hname by (destruct Hp as [->|[->|[-> _]]]; done).
  assert (EntrySpecDoc (FormatEntrySpec e) = MkEntryDoc (ProtocolName (seProtocol e)) (FormatPortSpec <$> sePorts e)) as ->.
  { unfold EntrySpecDoc, FormatEntrySpec. case_decide as Hn.
    - rewrite Cut_None by done. by rewrite Hn.
    - change (":" +:+ ?b) with (String ":" b). rewrite Cut_app by done.
      assert (Forall (λ s, s ≠ "" ∧ graphics s = true ∧ contains_byte "," s = false) (FormatPortSpec <$> sePorts e)) as Ht.
      { apply Forall_fmap. eapply Forall_impl; [exact Hports|]. apply FormatPortSpec_text. }
      destruct (FormatPortSpec <$> sePorts e) as [|t l] eqn:El; [by apply fmap_nil_inv in El|].
      rewrite decide_True; [rewrite Split_Join; [done..|]; eapply Forall_impl; [exact Ht|]; tauto|].
      rewrite TrimSpace_graphics; [|by apply graphics_Join; eapply Forall_impl; [exact Ht|]; tauto].
      apply Forall_cons in Ht as [(Hne & _) _]. destruct l; [done|]. rewrite Join_cons by done. by destruct t. }
  unfold entry_read. cbn [edProtocol edPorts]. rewrite (proj1 names_exact) by tauto. cbn [mbind option_bind].
  rewrite ports_read by done. by destruct e.
Qed.

(** ** There and back *)

Lemma foldl_insert_Some {A K V} `{Countable K} (k : A → K) (v : A → V) l (m : gmap K V) key val :
  foldl (λ m x, <[k x := v x]> m) m l !! key = Some val → (∃ x, x ∈ l ∧ k x = key ∧ v x = val) ∨ m !! key = Some val.
Proof.
  revert m. induction l as [|x l IH]; intros m; cbn; [by right|]. intros [(y & Hy & ? & ?)|Hm]%IH; [left; exists y; set_solver|].
  apply lookup_insert_Some in Hm as [[<- <-]|[_ Hm]]; [left; exists x; set_solver|by right].
Qed.
Lemma foldl_insert_skip {A K V} `{Countable K} (k : A → K) (v : A → V) l (m : gmap K V) key :
  key ∉ (k <$> l) → foldl (λ m x, <[k x := v x]> m) m l !! key = m !! key.
Proof.
  revert m. induction l as [|x l IH]; intros m; cbn; [done|]. intros [Hne Hl]%not_elem_of_cons. rewrite IH by done. by rewrite lookup_insert_ne.
Qed.
Lemma foldl_insert_lookup {A K V} `{Countable K} (k : A → K) (v : A → V) l (m : gmap K V) x :
  NoDup (k <$> l) → x ∈ l → foldl (λ m x, <[k x := v x]> m) m l !! k x = Some (v x).
Proof.
  revert m. induction l as [|y l IH]; intros m; cbn; [by intros _ ?%not_elem_of_nil|].
  intros [Hn Hd]%NoDup_cons [->|Hx]%elem_of_cons; [|by apply IH]. rewrite foldl_insert_skip by done. by rewrite lookup_insert_eq.
Qed.

Section roundtrip.
Context `{UUIDLib} `{!UUIDLaws}.

(** A name stands for one object, and does not read as an id. *)
Definition named {A} (name : A → string) (objects : list A) : Prop :=
  NoDup (name <$> objects) ∧ Forall (λ a, name a ≠ "" ∧ uuid_Parse (name a) = None) objects.

(** What is written for an id is resolved to it. *)
Lemma Resolve_written {A} (key : A → UUID) (name : A → string) objects id :
  named name objects →
  let text := default (uuid_String id) (foldl (λ m a, <[key a := name a]> m) (∅ : gmap UUID string) objects !! id) in
  text ≠ "" ∧ ResolveID text (foldl (λ m a, <[name a := key a]> m) ∅ objects) = Some id.
Proof.
  intros [Hd Hn]. cbv zeta. destruct (foldl (λ m a, <[key a := name a]> m) ∅ objects !! id) as [n|] eqn:Hl; cbn.
  - apply foldl_insert_Some in Hl as [(a & Ha & <- & <-)|Hl]; [|by rewrite lookup_empty in Hl].
    rewrite Forall_forall in Hn. destruct (Hn a Ha) as [Hne Hp]. split; [done|]. unfold ResolveID. rewrite Hp. by apply foldl_insert_lookup.
  - split; [apply uuid_String_nonempty|]. unfold ResolveID. by rewrite uuid_Parse_String.
Qed.

(** An authored object without what the control plane writes. *)
Definition authoredRule (r : Rule) : Rule :=
  MkRule (ruleID r) (ruleDirection r) (ruleEnabled r) (ruleDescription r) (rulePeers r) (ruleServiceIDs r) (ruleEntries r) zeroTime zeroTime 0 [].
Definition authoredRuleset (rs : Ruleset) : Ruleset :=
  MkRuleset (rsID rs) (rsName rs) (rsDescription rs) (rsEnabled rs) (rsScope rs) (authoredRule <$> rsRules rs) zeroTime zeroTime 0 [].

Lemma entry_read_entryToDoc e : entry_ok e → Forall port32 (sePorts e) → entry_read (entryToDoc e) = Some e.
Proof.
  intros [Hp _] Hports. unfold entry_read, entryToDoc. cbn [edProtocol edPorts].
  rewrite (proj1 names_exact) by tauto. cbn [mbind option_bind].
  rewrite ports_read by done. by destruct e.
Qed.

Lemma id_read_String id : id_read (uuid_String id) = Some id.
Proof. unfold id_read. rewrite decide_False by apply uuid_String_nonempty. apply uuid_Parse_String. Qed.

Lemma peer_read_peerToDoc services groups refs p :
  named agName groups → peer_ok refs p → ∃ pd, peerToDoc (NewNames services groups) p = Some pd ∧ peer_read (NewNames services groups) pd = Some p.
Proof.
  intros Hg Hp. unfold peer_ok in Hp. unfold peerToDoc. destruct p as [k sel id cidr]. cbn in *. destruct k; try done.
  - destruct Hp as (_ & -> & ->). by eexists.
  - destruct Hp as (-> & _ & ->). eexists. split; [done|]. destruct (Resolve_written agID agName groups id Hg) as [Hne Hr].
    unfold peer_read. cbn [pdWorkloads pdAddressGroup]. rewrite decide_True by done. cbn [AddressGroupByName NewNames]. by rewrite Hr.
  - destruct Hp as (-> & -> & [px Hpx]). eexists. split; [done|]. unfold peer_read. cbn. rewrite decide_False by (intros Hn; by apply Hn).
    rewrite decide_True; [done|]. intros ->. done.
Qed.

Lemma rule_read_RuleToDoc services groups refs r :
  named svcName services → named agName groups → rule_ok refs r → Forall (λ e, Forall port32 (sePorts e)) (ruleEntries r) →
  rule_read (NewNames services groups) (RuleToDoc (NewNames services groups) r) = Some (authoredRule r).
Proof.
  intros Hs Hg Hok Hports. unfold rule_read, RuleToDoc. cbn [rdID rdDirection rdPeers rdServices rdEntries rdEnabled rdDescription].
  rewrite id_read_String. cbn [mbind option_bind]. rewrite (proj1 (proj2 names_exact)) by (left; apply Hok). cbn [mbind option_bind].
  assert (mapM (peer_read (NewNames services groups)) (omap (peerToDoc (NewNames services groups)) (rulePeers r)) = Some (rulePeers r)) as ->.
  { apply mapM_Some_2. destruct Hok as [_ _ _ Hpeers _ _ _]. induction Hpeers as [|p l Hp _ IH]; [constructor|]. cbn.
    destruct (peer_read_peerToDoc services groups refs p Hg Hp) as (pd & -> & Hrd). by constructor. }
  cbn [mbind option_bind].
  assert (mapM (λ name, ResolveID name (ServiceByName (NewNames services groups)))
    ((λ id, default (uuid_String id) (ServiceName (NewNames services groups) !! id)) <$> ruleServiceIDs r) = Some (ruleServiceIDs r)) as ->.
  { apply mapM_Some_2, Forall2_fmap_l, Forall_Forall2_diag, Forall_forall. intros id _. apply (Resolve_written svcID svcName services id Hs). }
  cbn [mbind option_bind].
  assert (mapM entry_read (entryToDoc <$> ruleEntries r) = Some (ruleEntries r)) as ->.
  { apply mapM_Some_2, Forall2_fmap_l, Forall_Forall2_diag. pose proof (rok_entries _ _ Hok) as He. rewrite Forall_forall in He, Hports |- *.
    intros e Hin. apply entry_read_entryToDoc; auto. }
  done.
Qed.

Lemma rule_ports refs r :
  rule_ok refs r → Forall (λ e, Forall (λ p, 0 ≤ prStart p) (sePorts e)) (ruleEntries r) → Forall (λ e, Forall port32 (sePorts e)) (ruleEntries r).
Proof.
  intros Hok Hp. pose proof (rok_entries _ _ Hok) as He. rewrite Forall_forall in He, Hp |- *. intros e Hin. destruct (He e Hin) as [_ Hr]. specialize (Hp e Hin).
  rewrite Forall_forall in Hr, Hp |- *. intros p Hpin. specialize (Hr p Hpin). specialize (Hp p Hpin). unfold port32. lia.
Qed.

Lemma ruleset_ok_authored refs rs : ruleset_ok refs rs → ruleset_ok refs (authoredRuleset rs).
Proof.
  intros [Hf Hn Hsc Hids Hr]. split; cbn; [done|done|done| |].
  - by rewrite <-list_fmap_compose.
  - apply Forall_fmap. eapply Forall_impl; [exact Hr|]. intros r [? ? ? ? ? ? ?]. by split.
Qed.
End roundtrip.

Lemma ValidateRuleset_None `{UUIDLib} rs refs : ValidateRuleset rs refs = None ↔ ruleset_ok refs rs.
Proof. exact (checks_result _ _ (checks_ruleset refs rs)). Qed.

(** ** Claims *)


(** C31: A ruleset survives its document.  When the services and address groups have distinct,
    non-empty names of which none reads as an id, an admissible ruleset written as a document
    and read back under the same names is the ruleset it was, but for the version and times the
    control plane writes, and it is admitted again. *)
Theorem Document_roundtrip `{UUIDLib} `{!UUIDLaws} uuid_partial services groups refs rs :
  named svcName services → named agName groups → ruleset_ok refs rs →
  Forall (λ r, Forall (λ e, Forall (λ p, 0 ≤ prStart p) (sePorts e)) (ruleEntries r)) (rsRules rs) →
  let names := NewNames services groups in
  RulesetFromDoc uuid_partial (RulesetToDoc rs names) names = authoredRuleset rs ∧ ValidateRuleset (authoredRuleset rs) refs = None.
Proof.
  intros Hs Hg Hok Hports. cbv zeta. pose proof (rsok_rules _ _ Hok) as Hrules. split.
  - pose proof (RulesetFromDoc_read uuid_partial (NewNames services groups) (RulesetToDoc rs (NewNames services groups))) as Hr.
    assert (ruleset_read (NewNames services groups) (RulesetToDoc rs (NewNames services groups)) = Some (authoredRuleset rs)) as Heq; [|by rewrite Heq in Hr].
    unfold ruleset_read, RulesetToDoc. cbn [rsdID rsdRules]. rewrite id_read_String. cbn [mbind option_bind].
    assert (mapM (rule_read (NewNames services groups)) (RuleToDoc (NewNames services groups) <$> rsRules rs) = Some (authoredRule <$> rsRules rs)) as ->; [|done].
    apply mapM_Some_2, Forall2_fmap_l, Forall2_fmap_r, Forall_Forall2_diag, Forall_forall. rewrite Forall_forall in Hrules, Hports. intros r Hr'.
    apply (rule_read_RuleToDoc services groups refs); [done|done|auto|]. apply (rule_ports refs); auto.
  - apply ValidateRuleset_None. by apply ruleset_ok_authored.
Qed.

(** ** An example *)

Module DocumentExample.
Import Uuid128.

Definition web : Service := MkService (of_Z 1) "web" [MkServiceEntry PROTOCOL_TCP [MkPortRange 80 80]] 0 0 1 [].
Definition office : AddressGroup := MkAddressGroup (of_Z 2) "office" ["10.0.0.0/8"] 0 0 1.
Definition rule : Rule :=
  MkRule (of_Z 3) DIRECTION_INBOUND true "from the office" [MkPeer PeerAddressGroup ∅ (of_Z 2) ""; MkPeer PeerCIDR ∅ uuid_Nil "10.9.0.0/16"] [of_Z 1; of_Z 7]
    [MkServiceEntry PROTOCOL_UDP [MkPortRange 53 53; MkPortRange 6000 6010]; MkServiceEntry PROTOCOL_ICMP []] 5 6 2 [].
Definition front : Ruleset := MkRuleset (of_Z 4) "front" "" true {["app" := ["front"]]} [rule] 5 6 3 [].
Definition known : References := MkReferences {[of_Z 1; of_Z 7]} {[of_Z 2]}.
Definition partial (_ : string) : UUID := uuid_Nil.

Example front_clean : ValidateRuleset front known = None.
Proof. vm_compute. reflexivity. Qed.
Lemma front_ok : ruleset_ok known front.
Proof. apply ValidateRuleset_None, front_clean. Qed.

Lemma web_named : named svcName [web].
Proof. split; [apply NoDup_singleton|]. repeat constructor. done. Qed.
Lemma office_named : named agName [office].
Proof. split; [apply NoDup_singleton|]. repeat constructor. done. Qed.

Lemma Document_roundtrip_witness :
  RulesetFromDoc partial (RulesetToDoc front (NewNames [web] [office])) (NewNames [web] [office]) = authoredRuleset front.
Proof.
  apply (Document_roundtrip partial [web] [office] known front web_named office_named front_ok). repeat constructor; cbn; lia.
Defined.

(** The text of the document. *)
Example front_text :
  rdServices <$> rsdRules (RulesetToDoc front (NewNames [web] [office])) = [["web"; "00000000-0000-0000-0000-000000000007"]] ∧
  (λ rd, edPorts <$> rdEntries rd) <$> rsdRules (RulesetToDoc front (NewNames [web] [office])) = [[["53"; "6000-6010"]; []]].
Proof. vm_compute. done. Qed.

(** A service that is named like the id of another: the document of a rule that uses it reads
    back as a rule that uses the other. *)
Definition masked : Service := MkService (of_Z 1) (uuid_String (of_Z 7)) [MkServiceEntry PROTOCOL_TCP [MkPortRange 22 22]] 0 0 1 [].
Definition other : Service := MkService (of_Z 7) "web" [MkServiceEntry PROTOCOL_TCP [MkPortRange 80 80]] 0 0 1 [].
Definition usesMasked : Rule := MkRule (of_Z 3) DIRECTION_INBOUND true "" [MkPeer PeerCIDR ∅ uuid_Nil "10.9.0.0/16"] [of_Z 1] [] 5 6 2 [].
Example masked_name_redirects :
  ValidateService masked = None ∧
  let names := NewNames [masked; other] [] in
  let read := RuleFromDoc partial (RuleToDoc names usesMasked) names in
  bool_decide (ruleServiceIDs read = [of_Z 7]) = true ∧ ruleFaults read = [].
Proof. vm_compute. done. Qed.
End DocumentExample.
