(* ===== verification/Sources.v ===== *)
(** * Flow sources: [internal/agent/collect/conntrack] and [nflog]

    The connection tracking source listens for events and then dumps the table, and counts
    each inbound connection once whichever of the two it is read from first; the log source
    reads the headers of the packets the terminal rule logs.  The netlink sockets are outside:
    what they deliver, and when, is the input of the loops.  A map used as a set is a set. *)

From S2P Require Import Prelude GoStd Netip Wire Gaps Collect.
Local Open Scope Z_scope.

Definition protoICMP : Z := 1.
Definition protoTCP : Z := 6.
Definition protoUDP : Z := 17.
Definition protoICMPv6 : Z := 58.

Definition IsValid (a : Addr) : bool := bool_decide (a ≠ AddrZero).

(** ** Connection tracking *)

(** What is used of a [ct.Flow], and an event. *)
Record CtFlow := MkCtFlow {
  cfID : Z; cfSrc : Addr; cfDst : Addr; cfProto : Z; cfDstPort : Z; cfMark : Z; cfBytesOrig : Z; cfBytesReply : Z;
}.
Inductive CtEventType := EventUnknown | EventNew | EventUpdate | EventDestroy | EventExpNew | EventExpDestroy | CtEventType_other (n : Z).
Record CtEvent := MkCtEvent { ceType : CtEventType; ceFlow : option CtFlow }.

Record sightings := MkSightings {
  siMax : Z; siSeen : gset Z; siDumping : bool; siClosed : gset Z; siTruncated : bool; siFull : bool;
}.
Definition newSightings (max : Z) : sightings := MkSightings max ∅ true ∅ false false.

(** [sight], with whether tracking had to stop for the first time. *)
Definition sight (id : Z) (t : sightings) : bool * sightings :=
  if decide (siMax t ≤ Z.of_nat (size (siSeen t))) then
    (negb (siFull t), MkSightings (siMax t) (siSeen t) (siDumping t) (siClosed t) (siTruncated t) true)
  else (false, MkSightings (siMax t) ({[id]} ∪ siSeen t) (siDumping t) (siClosed t) (siTruncated t) (siFull t)).
Definition forget (id : Z) (t : sightings) : bool * sightings :=
  (bool_decide (id ∈ siSeen t), MkSightings (siMax t) (siSeen t ∖ {[id]}) (siDumping t) (siClosed t) (siTruncated t) (siFull t)).
(** [sighted] logs, besides. *)
Definition sighted (t : sightings) (id : Z) : sightings := (sight id t).2.
Definition withClosed (id : Z) (t : sightings) : sightings :=
  MkSightings (siMax t) (siSeen t) (siDumping t) ({[id]} ∪ siClosed t) (siTruncated t) (siFull t).

Definition dumpMax (DumpMax : Z) : Z := if decide (0 < DumpMax) then DumpMax else DefaultBufferRecords.

Definition withCounts (connections bytes : Z) (o : Observation) : Observation :=
  MkObservation (obAt o) (obSrc o) (obDst o) (obDstPort o) (obProtocol o) (obDecision o) (obRuleID o) connections bytes (obProcessName o).

(** [refreshLocal], of the addresses it reads. *)
Definition refreshLocal (addrs : list Addr) : gset Addr := list_to_set (Unmap <$> addrs).
(** [interfaceAddresses], of the texts of the interfaces' addresses when they can be read. *)
Definition interfaceAddresses (texts : option (list string)) : list Addr :=
  omap (λ s, match ParsePrefix s with Some p => Some (pAddr p) | None => ParseAddr s end) (default [] texts).

Section conntrack.
(** The classification of a mark; none is visibility. *)
Context (Classify : option (Z → PolicyDecision * string)).

Definition inbound (local : gset Addr) (f : CtFlow) (now : Z) : option Observation :=
  let src := Unmap (cfSrc f) in
  let dst := Unmap (cfDst f) in
  if negb (IsValid src) || negb (IsValid dst) || IsLoopback src || IsLoopback dst then None else
  if negb (bool_decide (dst ∈ local)) then None else
  let transport :=
    if decide (cfProto f = protoTCP) then Some (PROTOCOL_TCP, cfDstPort f)
    else if decide (cfProto f = protoUDP) then Some (PROTOCOL_UDP, cfDstPort f)
    else if decide (cfProto f = protoICMP ∨ cfProto f = protoICMPv6) then Some (PROTOCOL_ICMP, 0)
    else None in
  '(proto, port) ← transport;
  let '(decision, rule) := match Classify with Some c => c (cfMark f) | None => (POLICY_DECISION_OBSERVED, "") end in
  Some (MkObservation now src dst port proto decision rule 0 0 "").

Definition wouldBlock (o : Observation) : bool := bool_decide (obDecision o = POLICY_DECISION_WOULD_BLOCK).

Definition observe (local : gset Addr) (ev : CtEvent) (now subscribed : Z) (t : sightings) (g : Gaps) : option Observation * sightings * Gaps :=
  match ceFlow ev with
  | None => (None, t, g)
  | Some f =>
      match inbound local f now with
      | None => (None, t, g)
      | Some o =>
          match ceType ev with
          | EventNew =>
              if wouldBlock o then (None, t, g)
              else if decide (cfID f ∈ siSeen t) then (None, t, g)
              else (Some (withCounts 1 0 o), sighted t (cfID f), g)
          | EventDestroy =>
              let bytes := u64 (cfBytesOrig f + cfBytesReply f) in
              let t := if siDumping t then withClosed (cfID f) t else t in
              if wouldBlock o then (Some (withCounts 0 bytes o), t, g)
              else
                let '(counted, t) := forget (cfID f) t in
                if counted : bool then (Some (withCounts 0 bytes o), t, g)
                else
                  (Some (withCounts 1 bytes o), t,
                   if negb (siDumping t) && siTruncated t then Gaps_Record (MkGap GapDumpTruncated GapConntrack subscribed now (Some 0)) g else g)
          | EventUnknown | EventUpdate | EventExpNew | EventExpDestroy | CtEventType_other _ => (None, t, g)
          end
      end
  end.

(** The loop of [fold] over the entries it processes. *)
Fixpoint foldFlows (local : gset Addr) (flows : list CtFlow) (subscribed : Z) (t : sightings) : list Observation * sightings :=
  match flows with
  | [] => ([], t)
  | f :: flows' =>
      match inbound local f subscribed with
      | None => foldFlows local flows' subscribed t
      | Some o =>
          if decide (cfID f ∈ siSeen t) then foldFlows local flows' subscribed t
          else if decide (cfID f ∈ siClosed t) then foldFlows local flows' subscribed t
          else if wouldBlock o then foldFlows local flows' subscribed t
          else
            let '(emitted, t) := foldFlows local flows' subscribed (sighted t (cfID f)) in
            (withCounts 1 0 o :: emitted, t)
      end
  end.

Definition fold (local : gset Addr) (flows : list CtFlow) (subscribed now : Z) (t : sightings) (g : Gaps) : list Observation * sightings * Gaps :=
  let skipped := if decide (siMax t < Z.of_nat (length flows)) then Z.of_nat (length flows) - siMax t else 0 in
  let flows := if decide (siMax t < Z.of_nat (length flows)) then take (Z.to_nat (siMax t)) flows else flows in
  let '(emitted, t) := foldFlows local flows subscribed t in
  (emitted, MkSightings (siMax t) (siSeen t) false ∅ (siTruncated t || bool_decide (0 < skipped)) (siFull t),
   if decide (0 < skipped) then Gaps_Record (MkGap GapDumpTruncated GapConntrack subscribed now (Some (u64 skipped))) g else g).

(** ** A subscription *)

Record Subscription := MkSubscription { suTrack : sightings; suLast : Z; suLocal : gset Addr; suGaps : Gaps; suOverruns : Z }.

(** What the select of [subscribe] receives. *)
Inductive SubInput :=
| InDone
| InError (enobufs : bool)
| InRefresh (addrs : list Addr)
| InEvent (ev : CtEvent) (now : Z)
| InDumped (flows : option (list CtFlow)) (now : Z).

Inductive SubEnd := SubDone | SubOverrun | SubFailed.

(** One turn of its loop: what is emitted, and how it returns if it does. *)
Definition subStep (subscribed : Z) (i : SubInput) (s : Subscription) : list Observation * option SubEnd * Subscription :=
  match i with
  | InDone => ([], Some SubDone, s)
  | InError true =>
      ([], Some SubOverrun,
       MkSubscription (suTrack s) (suLast s) (suLocal s) (Gaps_Open GapConntrack GapSourceOverrun (suLast s) (suGaps s)) (Overrun (suOverruns s)))
  | InError false => ([], Some SubFailed, s)
  | InRefresh addrs => ([], None, MkSubscription (suTrack s) (suLast s) (refreshLocal addrs) (suGaps s) (suOverruns s))
  | InEvent ev now =>
      let '(o, t, g) := observe (suLocal s) ev now subscribed (suTrack s) (suGaps s) in
      (option_list o, None, MkSubscription t now (suLocal s) g (suOverruns s))
  | InDumped None now =>
      ([], Some SubFailed, MkSubscription (suTrack s) (suLast s) (suLocal s) (Gaps_Open GapConntrack GapSourceRestart subscribed (suGaps s)) (suOverruns s))
  | InDumped (Some flows) now =>
      let '(emitted, t, g) := fold (suLocal s) flows subscribed now (suTrack s) (suGaps s) in
      (emitted, None, MkSubscription t (suLast s) (suLocal s) g (suOverruns s))
  end.

Fixpoint subSteps (subscribed : Z) (inputs : list SubInput) (s : Subscription) : list Observation * option SubEnd * Subscription :=
  match inputs with
  | [] => ([], None, s)
  | i :: inputs' =>
      match subStep subscribed i s with
      | (emitted, Some e, s) => (emitted, Some e, s)
      | (emitted, None, s) => let '(rest, e, s) := subSteps subscribed inputs' s in (emitted ++ rest, e, s)
      end
  end.

(** What lasts from one subscription to the next. *)
Record CtSource := MkCtSource { csLocal : gset Addr; csGaps : Gaps; csOverruns : Z }.

(** The environment of one subscription: whether the socket opens and listens, the instant it
    does, and what the loop receives. *)
Record SubEnv := MkSubEnv { seOpen : bool; seListen : bool; seSubscribed : Z; seInputs : list SubInput }.

Definition subscribe (DumpMax : Z) (e : SubEnv) (s : CtSource) : list Observation * option SubEnd * CtSource :=
  if negb (seOpen e && seListen e) then ([], Some SubFailed, s) else
  let '(emitted, end_, u) := subSteps (seSubscribed e) (seInputs e)
    (MkSubscription (newSightings (dumpMax DumpMax)) (seSubscribed e) (csLocal s) (Gaps_Close GapConntrack (seSubscribed e) (csGaps s)) (csOverruns s)) in
  (emitted, end_, MkCtSource (suLocal u) (suGaps u) (suOverruns u)).

(** The loop of [Run] over its subscriptions; it goes on after an overrun. *)
Fixpoint runSubscriptions (DumpMax : Z) (envs : list SubEnv) (s : CtSource) : list Observation * option SubEnd * CtSource :=
  match envs with
  | [] => ([], None, s)
  | e :: envs' =>
      match subscribe DumpMax e s with
      | (emitted, Some SubOverrun, s) => let '(rest, end_, s) := runSubscriptions DumpMax envs' s in (emitted ++ rest, end_, s)
      | r => r
      end
  end.
Definition Conntrack_Run (DumpMax : Z) (addrs : list Addr) (envs : list SubEnv) (s : CtSource) : list Observation * option SubEnd * CtSource :=
  runSubscriptions DumpMax envs (MkCtSource (refreshLocal addrs) (csGaps s) (csOverruns s)).
End conntrack.

(** ** Logged packets *)

Record Packet := MkPacket { pkSrc : Addr; pkDst : Addr; pkDstPort : Z; pkProtocol : Protocol; pkLength : Z }.

(** [b[i:j]] and [b[i:]], which panic out of range. *)
Definition slice (b : list Z) (i j : nat) : option (list Z) := if decide (i ≤ j ≤ length b)%nat then Some (take (j - i) (drop i b)) else None.
Definition sliceFrom (b : list Z) (i : nat) : option (list Z) := slice b i (length b).
(** [binary.BigEndian.Uint16]. *)
Definition be16 (b : list Z) : option Z := match b with hi :: lo :: _ => Some (256 * hi + lo) | _ => None end.

(** The network header: source, destination, length, the transport protocol and what follows; [None]
    inside is an unparseable packet and outside a panic. *)
Definition parseNetwork (payload : list Z) : option (option (Addr * Addr * Z * Z * list Z)) :=
  b0 ← payload !! 0%nat;
  let version := Z.shiftr b0 4 in
  if decide (version = 4) then
    if decide (length payload < 20)%nat then Some None else
    let ihl := Z.to_nat (Z.land b0 15 * 4) in
    if decide (ihl < 20 ∨ length payload < ihl)%nat then Some None else
    proto ← payload !! 9%nat;
    src ← slice payload 12 16;
    dst ← slice payload 16 20;
    len ← slice payload 2 4 ≫= be16;
    l4 ← sliceFrom payload ihl;
    Some (Some (Addr4 (of_be 256 src), Addr4 (of_be 256 dst), len, proto, l4))
  else if decide (version = 6) then
    if decide (length payload < 40)%nat then Some None else
    proto ← payload !! 6%nat;
    src ← slice payload 8 24;
    dst ← slice payload 24 40;
    len ← slice payload 4 6 ≫= be16;
    l4 ← sliceFrom payload 40;
    Some (Some (Addr6 (of_be 256 src) "", Addr6 (of_be 256 dst) "", 40 + len, proto, l4))
  else Some None.

(** [Parse]: a packet, unparseable, or a panic. *)
Definition Parse (payload : list Z) : option (option Packet) :=
  if decide (length payload < 1)%nat then Some None else
  net ← parseNetwork payload;
  match net with
  | None => Some None
  | Some (src, dst, len, proto, l4) =>
      if decide (proto = protoICMP ∨ proto = protoICMPv6) then Some (Some (MkPacket src dst 0 PROTOCOL_ICMP len))
      else if decide (proto = protoTCP ∨ proto = protoUDP) then
        if decide (length l4 < 4)%nat then Some None else
        port ← slice l4 2 4 ≫= be16;
        Some (Some (MkPacket src dst port (if decide (proto = protoTCP) then PROTOCOL_TCP else PROTOCOL_UDP) len))
      else Some None
  end.

(** [classify] of the log source; [Decide] is the decision of the installed mode. *)
Definition nflog_classify (Decide : option PolicyDecision) (payload : list Z) (now : Z) : option (option Observation) :=
  let decision := default POLICY_DECISION_UNSPECIFIED Decide in
  if decide (decision ≠ POLICY_DECISION_BLOCKED ∧ decision ≠ POLICY_DECISION_WOULD_BLOCK) then Some None else
  match Parse payload with
  | None => None
  | Some None => Some None
  | Some (Some p) => Some (Some (MkObservation now (Unmap (pkSrc p)) (Unmap (pkDst p)) (pkDstPort p) (pkProtocol p) decision "" 1 (pkLength p) ""))
  end.

(** The state of one run: the instant of the last event, and the gaps. *)
Record NflogRun := MkNflogRun { nrLast : Z; nrGaps : Gaps; nrOverruns : Z }.

(** [overran]. *)
Definition overran (enobufs : bool) (last now : Z) (r : NflogRun) : bool * NflogRun :=
  if enobufs then (true, MkNflogRun (nrLast r) (Gaps_Record (MkGap GapSourceOverrun GapNflog last now None) (nrGaps r)) (Overrun (nrOverruns r)))
  else (false, r).

(** What the receive goroutine hands over: a message with its payload if any, and the decision
    then; or an error, with the readings of the clock around its handling. *)
Inductive NflogInput :=
| NfPacket (payload : option (list Z)) (Decide : option PolicyDecision) (now : Z)
| NfError (enobufs : bool) (ended : bool) (now after : Z).

(** What is emitted, and whether the subscription goes on. *)
Definition nflogStep (i : NflogInput) (r : NflogRun) : option (list Observation * bool * NflogRun) :=
  match i with
  | NfPacket payload Decide now =>
      let r := MkNflogRun now (nrGaps r) (nrOverruns r) in
      match payload with
      | None => Some ([], true, r)
      | Some payload => o ← nflog_classify Decide payload now; Some (option_list o, true, r)
      end
  | NfError enobufs ended now after =>
      if ended then Some ([], false, r)
      else
        let '(over, r) := overran enobufs (nrLast r) now r in
        if over : bool then Some ([], true, MkNflogRun after (nrGaps r) (nrOverruns r)) else Some ([], false, r)
  end.

Fixpoint nflogSteps (inputs : list NflogInput) (r : NflogRun) : option (list Observation * bool * NflogRun) :=
  match inputs with
  | [] => Some ([], true, r)
  | i :: inputs' =>
      match nflogStep i r with
      | None => None
      | Some (emitted, false, r) => Some (emitted, false, r)
      | Some (emitted, true, r) => '(rest, on, r) ← nflogSteps inputs' r; Some (emitted ++ rest, on, r)
      end
  end.

(** [Run]: whether the socket opens and registers; what is received before the gap of the source
    is closed, at [subscribed], and after.  Nothing is received once an error ends it. *)
Definition Nflog_Run (opened registered : bool) (started : Z) (early : list NflogInput) (subscribed : Z) (late : list NflogInput) (g : Gaps) (overruns : Z)
  : option (list Observation * bool * NflogRun) :=
  if negb (opened && registered) then Some ([], false, MkNflogRun started g overruns) else
  '(emitted, on, r) ← nflogSteps early (MkNflogRun started g overruns);
  let r := MkNflogRun (nrLast r) (Gaps_Close GapNflog subscribed (nrGaps r)) (nrOverruns r) in
  if on : bool then '(rest, on, r) ← nflogSteps late r; Some (emitted ++ rest, on, r) else Some (emitted, false, r).
