(* ===== verification/SourcesProps.v ===== *)
(** * Flow sources: every connection is counted once, and no packet makes the parser panic

    The kernel's side of a subscription is a history: the connections that are live when it
    begins, and the events after it.  The dump is the table at some instant of that history, read
    at any point between the events.  The counts the source emits are those of the history. *)

From S2P Require Import Prelude GoStd Netip Wire Gaps Collect Sources.
Local Open Scope Z_scope.

(** ** Histories *)

(** A connection: a flow without its counters. *)
Definition conn (f : CtFlow) : CtFlow := MkCtFlow (cfID f) (cfSrc f) (cfDst f) (cfProto f) (cfDstPort f) (cfMark f) 0 0.

Definition openedBy (ev : CtEvent) : option CtFlow := match ceType ev with EventNew => conn <$> ceFlow ev | _ => None end.
Definition closedBy (ev : CtEvent) : option CtFlow := match ceType ev with EventDestroy => conn <$> ceFlow ev | _ => None end.
Definition opened (evs : list CtEvent) : list CtFlow := omap openedBy evs.
Definition closed (evs : list CtEvent) : list CtFlow := omap closedBy evs.

(** Every event is about a connection that was there before or was opened, each is opened once
    with an id of its own, closed once at most, and not before it is opened. *)
Record history (before : list CtFlow) (evs : list CtEvent) : Prop := {
  hi_ids : NoDup (cfID <$> before ++ opened evs);
  hi_closed : ∀ c, c ∈ closed evs → c ∈ before ++ opened evs;
  hi_once : NoDup (closed evs);
  hi_order : ∀ p ev q c, evs = p ++ ev :: q → openedBy ev = Some c → c ∉ closed p;
}.

(** The table after some events. *)
#[export] Instance CtFlow_eq_dec : EqDecision CtFlow.
Proof. solve_decision. Defined.
Definition live (before : list CtFlow) (evs : list CtEvent) : list CtFlow := filter (λ c, c ∉ closed evs) (before ++ opened evs).

Section counting.
Context (Classify : option (Z → PolicyDecision * string)) (local : gset Addr).

(** The key under which a connection is counted: none unless it is inbound to this host, and
    none when the log counts it. *)
Definition countKey (c : CtFlow) : option Key :=
  o ← inbound Classify local c 0; if wouldBlock o then None else Some (keyOf o).
(** The bytes that the end of a connection reports. *)
Definition closeBytes (ev : CtEvent) : option (Key * Z) :=
  match ceType ev, ceFlow ev with
  | EventDestroy, Some f => o ← inbound Classify local (conn f) 0; Some (keyOf o, u64 (cfBytesOrig f + cfBytesReply f))
  | _, _ => None
  end.

Definition counted (obs : list Observation) : list Key := keyOf <$> filter (λ o, obConnections o = 1) obs.
Definition byteCounts (obs : list Observation) : list (Key * Z) := filter (λ kb, kb.2 ≠ 0) ((λ o, (keyOf o, obBytes o)) <$> obs).

Definition atTime (now : Z) (o : Observation) : Observation :=
  MkObservation now (obSrc o) (obDst o) (obDstPort o) (obProtocol o) (obDecision o) (obRuleID o) (obConnections o) (obBytes o) (obProcessName o).
Lemma inbound_conn f now : inbound Classify local f now = atTime now <$> inbound Classify local (conn f) 0.
Proof.
  unfold inbound. cbn [conn cfSrc cfDst cfProto cfDstPort cfMark]. case_match; [done|]. case_match; [done|].
  destruct (if decide (cfProto f = protoTCP) then _ else _) as [[p q]|]; [|done]. cbn. by case_match.
Qed.

Lemma counted_app a b : counted (a ++ b) = counted a ++ counted b.
Proof. unfold counted. by rewrite filter_app, fmap_app. Qed.
Lemma byteCounts_app a b : byteCounts (a ++ b) = byteCounts a ++ byteCounts b.
Proof. unfold byteCounts. by rewrite fmap_app, filter_app. Qed.

Lemma omap_cons_list {A B} (h : A → option B) x l : omap h (x :: l) = option_list (h x) ++ omap h l.
Proof. cbn. by destruct (h x). Qed.

(** ** The invariant *)

Context (universe : list CtFlow) (max : Z).
Hypothesis (Hids : NoDup (cfID <$> universe)) (Hmax : Z.of_nat (length universe) ≤ max).

Lemma same_id c c' : c ∈ universe → c' ∈ universe → cfID c = cfID c' → c = c'.
Proof.
  intros Hc Hc' Heq. apply list_elem_of_lookup in Hc as [i Hi], Hc' as [j Hj].
  assert (i = j) as ->; [|congruence]. apply (NoDup_lookup _ i j (cfID c) Hids); rewrite list_lookup_fmap; [by rewrite Hi|by rewrite Hj, Heq].
Qed.

(** What the sightings say after some events were read and some connections counted. *)
Record tracks (ends : list CtFlow) (done_ : list CtFlow) (t : sightings) : Prop := {
  tr_max : siMax t = max;
  tr_nodup : NoDup (cfID <$> done_);
  tr_in : ∀ c, c ∈ done_ → c ∈ universe ∧ is_Some (countKey c);
  tr_seen : ∀ id, id ∈ siSeen t ↔ ∃ c, c ∈ done_ ∧ cfID c = id ∧ c ∉ ends;
  tr_closed : siDumping t = true → ∀ id, id ∈ siClosed t ↔ ∃ c, c ∈ ends ∧ cfID c = id ∧ is_Some (inbound Classify local c 0);
}.

(** A connection that is not done leaves room to track it. *)
Lemma room ends done_ t c : tracks ends done_ t → c ∈ universe → c ∉ done_ → Z.of_nat (size (siSeen t)) < max.
Proof.
  intros Ht Hc Hn. assert (NoDup (cfID <$> c :: done_)) as Hnd.
  { cbn. apply NoDup_cons. split; [|apply Ht]. intros (c' & Heq & Hc')%list_elem_of_fmap_1.
    assert (c = c') as -> by (apply same_id; [done|by apply (tr_in _ _ _ Ht)|done]). done. }
  assert (length (cfID <$> c :: done_) ≤ length (cfID <$> universe))%nat as Hlen.
  { apply submseteq_length, NoDup_submseteq; [done|]. intros id (c' & -> & Hc')%list_elem_of_fmap_1. apply list_elem_of_fmap_2.
    apply elem_of_cons in Hc' as [->|Hc']; [done|by apply (tr_in _ _ _ Ht)]. }
  rewrite !length_fmap in Hlen. cbn in Hlen.
  assert (size (siSeen t) ≤ length done_)%nat.
  { transitivity (size (list_to_set (cfID <$> done_) : gset Z)).
    - apply subseteq_size. intros id (c' & Hc' & <- & _)%(tr_seen _ _ _ Ht). apply elem_of_list_to_set. by apply list_elem_of_fmap_2.
    - rewrite size_list_to_set by apply Ht. by rewrite length_fmap. }
  lia.
Qed.

Lemma seen_done ends done_ t c : tracks ends done_ t → c ∈ universe → c ∉ ends → cfID c ∈ siSeen t ↔ c ∈ done_.
Proof.
  intros Ht Hc He. rewrite (tr_seen _ _ _ Ht). split.
  - intros (c' & Hc' & Heq & _). by rewrite <-(same_id c' c); [|apply (tr_in _ _ _ Ht)|..].
  - intros Hd. by exists c.
Qed.

(** Counting one more. *)
Lemma tracks_sighted ends done_ t c :
  tracks ends done_ t → c ∈ universe → c ∉ ends → c ∉ done_ → is_Some (countKey c) → tracks ends (done_ ++ [c]) (sighted t (cfID c)).
Proof.
  intros Ht Hc He Hn Hk. pose proof (room _ _ _ _ Ht Hc Hn) as Hroom. destruct Ht as [Hm Hnd Hin Hseen Hclosed].
  unfold sighted, sight. rewrite decide_False by lia. cbn [snd]. split; cbn; [done| | | |done].
  - rewrite fmap_app. apply NoDup_app. split; [done|]. split; [|apply NoDup_singleton].
    intros id (c' & -> & Hc')%list_elem_of_fmap_1 Hx. cbn in Hx. apply list_elem_of_singleton in Hx.
    assert (c' = c) as -> by (apply same_id; [by apply Hin|done|done]). done.
  - intros c' [Hc'| ->%list_elem_of_singleton]%elem_of_app; [by apply Hin|done].
  - intros id. rewrite elem_of_union, elem_of_singleton, Hseen. setoid_rewrite elem_of_app. setoid_rewrite list_elem_of_singleton. naive_solver.
Qed.

(** ** One event *)

Lemma tracks_skip ends done_ t c : tracks ends done_ t → inbound Classify local c 0 = None → tracks (ends ++ [c]) done_ t.
Proof.
  intros [Hm Hnd Hin Hseen Hclosed] Hi. assert (countKey c = None) as Hk by (unfold countKey; by rewrite Hi). split; [done..| |].
  - intros id. rewrite Hseen. setoid_rewrite not_elem_of_app. setoid_rewrite list_elem_of_singleton. split; [|naive_solver].
    intros (c' & Hc' & Heq & He). exists c'. split_and!; try done. intros ->. destruct (Hin c Hc') as [_ [k Hk']]. congruence.
  - intros Hd id. rewrite Hclosed by done. setoid_rewrite elem_of_app. setoid_rewrite list_elem_of_singleton. split; [naive_solver|].
    intros (c' & [Hc'|Hc'] & Heq & Hs); [naive_solver|]. subst c'. rewrite Hi in Hs. by destruct Hs.
Qed.

(** The end of a connection that is inbound: it is forgotten, and noted while the dump is out. *)
Lemma tracks_close ends done_ t c :
  tracks ends done_ t → c ∈ universe → is_Some (inbound Classify local c 0) →
  tracks (ends ++ [c]) done_ (forget (cfID c) (if siDumping t then withClosed (cfID c) t else t)).2.
Proof.
  intros [Hm Hnd Hin Hseen Hclosed] Hc Hi. split; [by destruct (siDumping t)|done|done| |].
  - intros id. destruct (siDumping t); cbn; rewrite elem_of_difference, elem_of_singleton, Hseen;
      setoid_rewrite not_elem_of_app; setoid_rewrite list_elem_of_singleton;
      (split; [intros [(c' & Hc' & Heq & He) Hne]; exists c'; split_and!; [done|done|done|]; intros ->; congruence|];
       intros (c' & Hc' & Heq & He & Hne); split; [by eauto|]; intros ->; apply Hne; apply same_id; [by apply Hin|done|done]).
  - destruct (siDumping t) eqn:Hd; [|cbn; by rewrite Hd]. intros _ id. cbn. rewrite elem_of_union, elem_of_singleton, Hclosed by done.
    setoid_rewrite elem_of_app. setoid_rewrite list_elem_of_singleton. split.
    + intros [->|(c' & ? & ? & ?)]; eauto 10.
    + intros (c' & [Hc'| ->] & Heq & Hs); [right; eauto|by left].
Qed.

(** One that was never counted stays unknown to the sightings when it is counted at its end. *)
Lemma tracks_late ends done_ t c : tracks (ends ++ [c]) done_ t → c ∈ universe → c ∉ done_ → is_Some (countKey c) → tracks (ends ++ [c]) (done_ ++ [c]) t.
Proof.
  intros [Hm Hnd Hin Hseen Hclosed] Hc Hn Hk. split; [done| | | |done].
  - rewrite fmap_app. apply NoDup_app. split; [done|]. split; [|apply NoDup_singleton].
    intros id (c' & -> & Hc')%list_elem_of_fmap_1 Hx. cbn in Hx. apply list_elem_of_singleton in Hx.
    assert (c' = c) as -> by (apply same_id; [by apply Hin|done|done]). done.
  - intros c' [Hc'| ->%list_elem_of_singleton]%elem_of_app; [by apply Hin|done].
  - intros id. rewrite Hseen. split; [intros (c' & ? & ? & ?); exists c'; rewrite elem_of_app; auto|].
    intros (c' & [Hc'| ->%list_elem_of_singleton]%elem_of_app & Heq & He); [eauto|]. destruct He. apply elem_of_app. right. by apply list_elem_of_singleton.
Qed.

(** One that is never counted is not among them. *)
Lemma forget_unseen id t : id ∉ siSeen t → (forget id t).2 = t.
Proof. intros Hn. unfold forget. cbn. assert (siSeen t ∖ {[id]} = siSeen t) as -> by set_solver. by destruct t. Qed.
Lemma siSeen_withClosed id (b : bool) t : siSeen (if b then withClosed id t else t) = siSeen t.
Proof. by destruct b. Qed.

(** What one event does. *)
Definition steps (ends done_ : list CtFlow) (t : sightings) (ev : CtEvent) (o : option Observation) (t' : sightings) : Prop :=
  ∃ new, tracks (ends ++ option_list (closedBy ev)) (done_ ++ new) t' ∧ siDumping t' = siDumping t ∧
    counted (option_list o) = omap countKey new ∧
    byteCounts (option_list o) = filter (λ kb, kb.2 ≠ 0) (option_list (closeBytes ev)) ∧
    (∀ c, openedBy ev = Some c ∨ closedBy ev = Some c → is_Some (countKey c) → c ∈ done_ ++ new).

Lemma observe_new ends done_ t f now subscribed g o t' g' :
  tracks ends done_ t → conn f ∈ universe → conn f ∉ ends →
  observe Classify local (MkCtEvent EventNew (Some f)) now subscribed t g = (o, t', g') → steps ends done_ t (MkCtEvent EventNew (Some f)) o t'.
Proof.
  intros Ht Hc He. unfold observe, steps. cbn [ceFlow ceType closedBy closeBytes openedBy option_list]. rewrite inbound_conn, app_nil_r.
  destruct (inbound Classify local (conn f) 0) as [o0|] eqn:Hi; cbn [fmap option_fmap option_map].
  2:{ intros [= <- <- _]. exists []. rewrite app_nil_r. split_and!; try done. intros c [[= <-]|[=]] [k Hk]. unfold countKey in Hk. by rewrite Hi in Hk. }
  change (wouldBlock (atTime now o0)) with (wouldBlock o0).
  destruct (wouldBlock o0) eqn:Hw.
  { intros [= <- <- _]. exists []. rewrite app_nil_r. split_and!; try done. intros c [[= <-]|[=]] [k Hk]. unfold countKey in Hk. rewrite Hi in Hk. cbn in Hk. by rewrite Hw in Hk. }
  assert (countKey (conn f) = Some (keyOf o0)) as Hk by (unfold countKey; rewrite Hi; cbn; by rewrite Hw).
  change (cfID f) with (cfID (conn f)). case_decide as Hs; apply (seen_done _ _ _ _ Ht Hc He) in Hs || (rewrite (seen_done _ _ _ _ Ht Hc He) in Hs).
  - intros [= <- <- _]. exists []. rewrite app_nil_r. split_and!; try done. by intros c [[= <-]|[=]] _.
  - intros [= <- <- _]. exists [conn f]. split; [exact (tracks_sighted _ _ _ (conn f) Ht Hc He Hs (ex_intro _ _ Hk))|]. split; [unfold sighted, sight; by case_decide|]. split; [|split].
    + cbn. by rewrite Hk.
    + done.
    + intros c [[= <-]|[=]] _. apply elem_of_app. right. by apply list_elem_of_singleton.
Qed.

Lemma observe_destroy ends done_ t f now subscribed g o t' g' :
  tracks ends done_ t → conn f ∈ universe → conn f ∉ ends →
  observe Classify local (MkCtEvent EventDestroy (Some f)) now subscribed t g = (o, t', g') → steps ends done_ t (MkCtEvent EventDestroy (Some f)) o t'.
Proof.
  intros Ht Hc He. unfold observe, steps. cbn [ceFlow ceType closedBy closeBytes openedBy option_list fmap option_fmap option_map]. rewrite inbound_conn.
  destruct (inbound Classify local (conn f) 0) as [o0|] eqn:Hi; cbn [fmap option_fmap option_map mbind option_bind].
  2:{ intros [= <- <- _]. exists []. rewrite app_nil_r. split; [by apply tracks_skip|]. split_and!; try done.
      intros c [[=]|[= <-]] [k Hk]. unfold countKey in Hk. by rewrite Hi in Hk. }
  change (wouldBlock (atTime now o0)) with (wouldBlock o0). change (cfID f) with (cfID (conn f)).
  pose proof (tracks_close _ _ _ _ Ht Hc ltac:(rewrite Hi; eauto)) as Hcl.
  set (t1 := if siDumping t then withClosed (cfID (conn f)) t else t) in *.
  assert (siDumping t1 = siDumping t) as Hdump by (unfold t1; by destruct (siDumping t) eqn:?).
  assert (siSeen t1 = siSeen t) as Hseen by apply siSeen_withClosed.
  destruct (wouldBlock o0) eqn:Hw.
  { assert (countKey (conn f) = None) as Hk by (unfold countKey; rewrite Hi; cbn; by rewrite Hw).
    rewrite forget_unseen in Hcl.
    2:{ rewrite Hseen. intros Hs%(seen_done _ _ _ _ Ht Hc He). destruct (tr_in _ _ _ Ht _ Hs) as [_ [k Hk']]. congruence. }
    intros [= <- <- _]. exists []. rewrite app_nil_r. split_and!; try done. intros c [[=]|[= <-]] [k Hk']. congruence. }
  assert (countKey (conn f) = Some (keyOf o0)) as Hk by (unfold countKey; rewrite Hi; cbn; by rewrite Hw).
  unfold forget at 1. case_bool_decide as Hs; rewrite Hseen, (seen_done _ _ _ _ Ht Hc He) in Hs.
  - intros [= <- <- _]. exists []. rewrite app_nil_r. split_and!; try done. by intros c [[=]|[= <-]] _.
  - intros [= <- <- _]. exists [conn f]. split; [exact (tracks_late _ _ _ (conn f) Hcl Hc Hs (ex_intro _ _ Hk))|]. split; [done|]. split; [|split].
    + cbn. by rewrite Hk.
    + done.
    + intros c [[=]|[= <-]] _. apply elem_of_app. right. by apply list_elem_of_singleton.
Qed.

Lemma observe_step ends done_ t ev now subscribed g o t' g' :
  tracks ends done_ t → (∀ c, openedBy ev = Some c ∨ closedBy ev = Some c → c ∈ universe ∧ c ∉ ends) →
  observe Classify local ev now subscribed t g = (o, t', g') → steps ends done_ t ev o t'.
Proof.
  intros Ht Hev Ho.
  assert (openedBy ev = None → closedBy ev = None → closeBytes ev = None → o = None → t' = t → steps ends done_ t ev o t') as Hnone.
  { intros Hop Hcl Hb -> ->. exists []. rewrite Hcl, Hb. cbn. rewrite !app_nil_r. split_and!; try done. intros c [?|?]; congruence. }
  destruct ev as [ty [f|]]; [|apply Hnone; destruct ty; cbn in *; congruence].
  destruct ty; try (apply Hnone; cbn in Ho |- *; try done; revert Ho; case_match; congruence).
  - apply (observe_new _ _ _ _ now subscribed g o t' g'); try done; apply Hev; by left.
  - apply (observe_destroy _ _ _ _ now subscribed g o t' g'); try done; apply Hev; by right.
Qed.

(** ** The dump *)

Lemma foldFlows_tracks ends flows subscribed : ∀ done_ t emitted t',
  (∀ c, c ∈ ends → c ∈ universe) → tracks ends done_ t → siDumping t = true → Forall (λ f, conn f ∈ universe) flows →
  foldFlows Classify local flows subscribed t = (emitted, t') →
  ∃ new, tracks ends (done_ ++ new) t' ∧ counted emitted = omap countKey new ∧ byteCounts emitted = [] ∧
    (∀ f, f ∈ flows → is_Some (countKey (conn f)) → conn f ∈ done_ ++ new ∨ conn f ∈ ends).
Proof.
  induction flows as [|f flows IH]; intros done_ t emitted t' He Ht Hd Hall; cbn [foldFlows].
  { intros [= <- <-]. exists []. rewrite app_nil_r. split_and!; try done. by intros f ?%not_elem_of_nil. }
  apply Forall_cons in Hall as [Hf Hall].
  (** An entry that is skipped because it was dealt with, or is not to be counted. *)
  assert (∀ r, foldFlows Classify local flows subscribed t = r → (is_Some (countKey (conn f)) → conn f ∈ done_ ∨ conn f ∈ ends) → r = (emitted, t') →
    ∃ new, tracks ends (done_ ++ new) t' ∧ counted emitted = omap countKey new ∧ byteCounts emitted = [] ∧
      (∀ f', f' ∈ f :: flows → is_Some (countKey (conn f')) → conn f' ∈ done_ ++ new ∨ conn f' ∈ ends)) as Hskip.
  { intros r Hr Hdone ->. destruct (IH _ _ _ _ He Ht Hd Hall Hr) as (new & Ht' & Hcnt & Hb & Hcov). exists new. split_and!; try done.
    intros f' [->|Hf']%elem_of_cons Hk; [|auto]. destruct (Hdone Hk); [left; apply elem_of_app; auto|auto]. }
  rewrite inbound_conn. destruct (inbound Classify local (conn f) 0) as [o0|] eqn:Hi; cbn [fmap option_fmap option_map].
  2:{ apply (Hskip _ eq_refl). intros [k Hk]. unfold countKey in Hk. by rewrite Hi in Hk. }
  change (wouldBlock (atTime subscribed o0)) with (wouldBlock o0). change (cfID f) with (cfID (conn f)).
  case_decide as Hs.
  { apply (Hskip _ eq_refl). intros _. left. apply (tr_seen _ _ _ Ht) in Hs as (c & Hc & Heq & _).
    by rewrite <-(same_id c (conn f)); [|apply (tr_in _ _ _ Ht)|..]. }
  case_decide as Hcl.
  { apply (Hskip _ eq_refl). intros _. right. apply (tr_closed _ _ _ Ht Hd) in Hcl as (c & Hc & Heq & _). by rewrite <-(same_id c (conn f)); [|apply He|..]. }
  destruct (wouldBlock o0) eqn:Hw.
  { apply (Hskip _ eq_refl). intros [k Hk]. unfold countKey in Hk. rewrite Hi in Hk. cbn in Hk. by rewrite Hw in Hk. }
  assert (countKey (conn f) = Some (keyOf o0)) as Hk by (unfold countKey; rewrite Hi; cbn; by rewrite Hw).
  assert (conn f ∉ ends) as Hne. { intros Hin. apply Hcl, (tr_closed _ _ _ Ht Hd). exists (conn f). rewrite Hi. eauto. }
  assert (conn f ∉ done_) as Hnd by by rewrite <-(seen_done _ _ _ _ Ht Hf Hne).
  destruct (foldFlows Classify local flows subscribed (sighted t (cfID (conn f)))) as [em t1] eqn:Hr. intros [= <- <-].
  destruct (IH _ _ _ _ He (tracks_sighted _ _ _ (conn f) Ht Hf Hne Hnd (ex_intro _ _ Hk)) ltac:(unfold sighted, sight; by case_decide) Hall Hr)
    as (new & Ht' & Hcnt & Hb & Hcov).
  exists (conn f :: new). rewrite <-app_assoc in Ht'. split; [done|]. split; [|split].
  - change (counted ([withCounts 1 0 (atTime subscribed o0)] ++ em) = omap countKey (conn f :: new)). rewrite counted_app, Hcnt. cbn. by rewrite Hk.
  - change (byteCounts ([withCounts 1 0 (atTime subscribed o0)] ++ em) = []). by rewrite byteCounts_app, Hb.
  - intros f' [->|Hf']%elem_of_cons Hk'; [left; rewrite elem_of_app, elem_of_cons; auto|].
    specialize (Hcov f' Hf' Hk'). by rewrite <-app_assoc in Hcov.
Qed.

Lemma fold_tracks ends done_ t flows subscribed now g emitted t' g' :
  (∀ c, c ∈ ends → c ∈ universe) → tracks ends done_ t → siDumping t = true → Forall (λ f, conn f ∈ universe) flows → Z.of_nat (length flows) ≤ max →
  fold Classify local flows subscribed now t g = (emitted, t', g') →
  ∃ new, tracks ends (done_ ++ new) t' ∧ counted emitted = omap countKey new ∧ byteCounts emitted = [] ∧
    (∀ f, f ∈ flows → is_Some (countKey (conn f)) → conn f ∈ done_ ++ new ∨ conn f ∈ ends).
Proof.
  intros He Ht Hd Hall Hlen. unfold fold. rewrite (tr_max _ _ _ Ht). rewrite !(decide_False (P := max < _)) by lia.
  destruct (foldFlows _ _ _ _ _) as [em t1] eqn:Hr. intros [= <- <- _].
  destruct (foldFlows_tracks _ _ _ _ _ _ _ He Ht Hd Hall Hr) as (new & [? ? ? ? ?] & ? & ? & ?). exists new. split_and!; done.
Qed.

(** ** Events in their order *)

Definition reads (evs : list (CtEvent * Z)) : list SubInput := (λ e, InEvent e.1 e.2) <$> evs.

Lemma subSteps_events subscribed evs : ∀ ends done_ s obs e s',
  suLocal s = local → tracks ends done_ (suTrack s) →
  (∀ p ev q c, evs.*1 = p ++ ev :: q → openedBy ev = Some c ∨ closedBy ev = Some c → c ∈ universe ∧ c ∉ ends ++ closed p) →
  subSteps Classify subscribed (reads evs) s = (obs, e, s') →
  e = None ∧ suLocal s' = local ∧ siDumping (suTrack s') = siDumping (suTrack s) ∧
  ∃ new, tracks (ends ++ closed evs.*1) (done_ ++ new) (suTrack s') ∧ counted obs = omap countKey new ∧
    byteCounts obs = filter (λ kb, kb.2 ≠ 0) (omap closeBytes evs.*1) ∧
    (∀ c, c ∈ opened evs.*1 ++ closed evs.*1 → is_Some (countKey c) → c ∈ done_ ++ new).
Proof.
  induction evs as [|[ev now] evs IH]; intros ends done_ s obs e s' Hl Ht Hev; cbn [reads fmap list_fmap subSteps].
  { intros [= <- <- <-]. do 3 (split; [done|]). exists []. cbn. rewrite !app_nil_r. split_and!; try done. by intros c ?%not_elem_of_nil. }
  cbn [subStep fst snd]. rewrite Hl. destruct (observe _ _ _ _ _ _ _) as [[o t1] g1] eqn:Ho.
  destruct (observe_step _ _ _ _ _ _ _ _ _ _ Ht (λ c Hc, let '(conj a b) := Hev [] ev evs.*1 c eq_refl Hc in conj a (λ Hx, b (proj2 (elem_of_app _ _ _) (or_introl Hx)))) Ho)
    as (new & Ht1 & Hd1 & Hc1 & Hb1 & Hcov1).
  destruct (subSteps _ _ _ _) as [[rest e1] s1] eqn:Hrest. intros [= <- <- <-].
  destruct (IH _ _ (MkSubscription t1 now local g1 (suOverruns s)) _ _ _ eq_refl Ht1 ltac:(intros p ev' q c Hsplit Hc;
      destruct (Hev (ev :: p) ev' q c ltac:(cbn; by rewrite Hsplit) Hc) as [? Hn]; split; [done|];
      unfold closed in Hn |- *; cbn in Hn; by destruct (closedBy ev); cbn in *; rewrite <-?app_assoc, ?app_nil_r) Hrest)
    as (-> & Hl1 & Hd2 & new2 & Ht2 & Hc2 & Hb2 & Hcov2).
  split; [done|]. split; [done|]. split; [by rewrite Hd2, <-Hd1|]. exists (new ++ new2). split; [|split; [|split]].
  - replace (ends ++ closed (ev :: evs.*1)) with ((ends ++ option_list (closedBy ev)) ++ closed evs.*1); [by rewrite (app_assoc done_)|].
    unfold closed. cbn. destruct (closedBy ev); cbn; by rewrite <-?app_assoc, ?app_nil_r.
  - by rewrite counted_app, omap_app, Hc1, Hc2.
  - rewrite byteCounts_app, Hb1, Hb2. cbn [fmap list_fmap fst]. by rewrite omap_cons_list, filter_app.
  - intros c Hc Hk. rewrite app_assoc. rewrite elem_of_app in Hc. unfold opened, closed in Hc. cbn in Hc.
    assert (openedBy ev = Some c ∨ closedBy ev = Some c ∨ c ∈ opened evs.*1 ++ closed evs.*1) as [Hx|[Hx|Hx]].
    { rewrite elem_of_app. unfold opened, closed. destruct (openedBy ev), (closedBy ev); cbn in Hc; rewrite ?elem_of_cons in Hc; naive_solver. }
    + apply elem_of_app. left. auto.
    + apply elem_of_app. left. auto.
    + auto.
Qed.
End counting.

(** ** Subscriptions *)

Lemma subSteps_app Classify subscribed a b s obs s1 :
  subSteps Classify subscribed a s = (obs, None, s1) →
  subSteps Classify subscribed (a ++ b) s = (let '(rest, e, s2) := subSteps Classify subscribed b s1 in (obs ++ rest, e, s2)).
Proof.
  revert s obs. induction a as [|i a IH]; intros s obs; cbn [subSteps app].
  { intros [= <- <-]. by destruct (subSteps _ _ b s) as [[rest e] s2]. }
  destruct (subStep Classify subscribed i s) as [[em e] s']; destruct e as [e|]; [done|].
  destruct (subSteps Classify subscribed a s') as [[rest e] s''] eqn:Hr. intros [= <- -> <-]. rewrite (IH _ _ Hr).
  destruct (subSteps _ _ b s'') as [[rest' e'] s2]. by rewrite app_assoc.
Qed.

Lemma omap_filter_Some {A B} (h : A → option B) (l : list A) `{!∀ x, Decision (is_Some (h x))} : omap h (filter (λ x, is_Some (h x)) l) = omap h l.
Proof.
  induction l as [|x l IH]; [done|]. rewrite filter_cons. case_decide as Hx.
  - cbn. rewrite IH. done.
  - cbn. destruct (h x); [destruct Hx; eauto|done].
Qed.

(** The connections that are done are the ones to count. *)
Lemma done_complete Classify local universe max ends done_ t :
  NoDup (cfID <$> universe) → tracks Classify local universe max ends done_ t →
  (∀ c, c ∈ universe → is_Some (countKey Classify local c) → c ∈ done_) →
  omap (countKey Classify local) done_ ≡ₚ omap (countKey Classify local) universe.
Proof.
  intros Hids Ht Hall. rewrite <-(omap_filter_Some _ universe). apply omap_Permutation, NoDup_Permutation.
  - by eapply NoDup_fmap_1, tr_nodup.
  - apply NoDup_filter. by eapply NoDup_fmap_1.
  - intros c. rewrite list_elem_of_filter. split; [|naive_solver]. intros Hc. destruct (tr_in _ _ _ _ _ _ _ Ht c Hc). done.
Qed.

Lemma tracks_start Classify local universe max : tracks Classify local universe max [] [] (newSightings max).
Proof. split; cbn; [done|constructor|by intros c ?%not_elem_of_nil|set_solver|set_solver]. Qed.

(** The events of a history, from any point of it. *)
Lemma history_fresh before evs p0 evs' p ev q c :
  history before evs → evs = p0 ++ evs' → evs' = p ++ ev :: q → openedBy ev = Some c ∨ closedBy ev = Some c →
  c ∈ before ++ opened evs ∧ c ∉ closed p0 ++ closed p.
Proof.
  intros [_ Hcl Honce Hord] -> -> Hc.
  assert (∀ a b, closed (a ++ b) = closed a ++ closed b) as Happ by (intros; apply omap_app).
  destruct Hc as [Ho|Hc].
  - split.
    + apply elem_of_app. right. unfold opened. rewrite !omap_app, !elem_of_app. do 2 right. cbn. rewrite Ho. apply list_elem_of_here.
    + rewrite <-Happ. apply (Hord (p0 ++ p) ev q); [by rewrite app_assoc|done].
  - rewrite !Happ in Hcl, Honce. assert (closed (ev :: q) = c :: closed q) as Hev by (unfold closed; cbn; by rewrite Hc). rewrite Hev in Hcl, Honce. split.
    + apply Hcl. rewrite !elem_of_app. do 2 right. apply list_elem_of_here.
    + rewrite app_assoc in Honce. apply NoDup_app in Honce as (_ & Hd & _). intros Hin. apply (Hd c Hin), list_elem_of_here.
Qed.

(** The dump lists connections of the history, each once. *)
Lemma dump_known before evs k flows :
  conn <$> flows ≡ₚ live before (take k evs) →
  Forall (λ f, conn f ∈ before ++ opened evs) flows ∧ (length flows ≤ length (before ++ opened evs))%nat.
Proof.
  intros Hdump. assert (opened evs = opened (take k evs) ++ opened (drop k evs)) as Ho by (unfold opened; by rewrite <-omap_app, take_drop). split.
  - apply Forall_forall. intros f Hf. assert (conn f ∈ conn <$> flows) as Hin by by apply list_elem_of_fmap_2. rewrite Hdump in Hin.
    apply list_elem_of_filter in Hin as [_ Hin]. rewrite Ho, app_assoc. apply elem_of_app. by left.
  - rewrite <-(length_fmap conn flows), Hdump. etransitivity; [apply length_filter|]. rewrite Ho, !length_app. lia.
Qed.

(** A connection of the history has an event, or is in the dump. *)
Lemma history_covered before (evs evs1 evs2 : list CtEvent) k flows c :
  conn <$> flows ≡ₚ live before (take k evs) → evs = evs1 ++ evs2 → c ∈ before ++ opened evs →
  c ∈ opened evs1 ++ closed evs1 ∨ c ∈ opened evs2 ++ closed evs2 ∨ ∃ f, c = conn f ∧ f ∈ flows.
Proof.
  intros Hdump -> Hc. destruct (decide (c ∈ opened evs1 ++ closed evs1)) as [|Hn1]; [by left|].
  destruct (decide (c ∈ opened evs2 ++ closed evs2)) as [|Hn2]; [by right; left|]. do 2 right. apply list_elem_of_fmap_1. rewrite Hdump.
  rewrite elem_of_app in Hn1, Hn2. apply list_elem_of_filter. split.
  - intros Hx. assert (c ∈ closed (evs1 ++ evs2)) as Hy.
    { rewrite <-(take_drop k (evs1 ++ evs2)). unfold closed. rewrite omap_app. apply elem_of_app. by left. }
    unfold closed in Hy. rewrite omap_app in Hy. apply elem_of_app in Hy. tauto.
  - apply elem_of_app. left. unfold opened in Hc. rewrite omap_app in Hc. apply elem_of_app in Hc as [?|Hc]; [done|]. apply elem_of_app in Hc. tauto.
Qed.

(** ** Claims *)


(** ** Logged packets *)

Lemma slice_Some b i j : (i ≤ j ≤ length b)%nat → ∃ x, slice b i j = Some x ∧ length x = (j - i)%nat.
Proof. intros Hb. unfold slice. rewrite decide_True by lia. eexists. split; [done|]. rewrite length_take, length_drop. lia. Qed.
Lemma be16_Some b : (2 ≤ length b)%nat → is_Some (be16 b).
Proof. destruct b as [|x [|y b]]; cbn; [lia|lia|eauto]. Qed.
Lemma slice16_Some b i : (i + 2 ≤ length b)%nat → is_Some (slice b i (i + 2) ≫= be16).
Proof. intros Hb. destruct (slice_Some b i (i + 2) ltac:(lia)) as (x & -> & Hl). cbn. apply be16_Some. lia. Qed.

Lemma parseNetwork_total payload : (1 ≤ length payload)%nat → is_Some (parseNetwork payload).
Proof.
  intros Hl. unfold parseNetwork. destruct (lookup_lt_is_Some_2 payload 0 ltac:(lia)) as [b0 ->]. cbn [mbind option_bind]. case_decide.
  - case_decide; [eauto|]. case_decide as Hi; [eauto|]. destruct (lookup_lt_is_Some_2 payload 9 ltac:(lia)) as [x ->]. cbn [mbind option_bind].
    destruct (slice_Some payload 12 16 ltac:(lia)) as (src & -> & _), (slice_Some payload 16 20 ltac:(lia)) as (dst & -> & _). cbn [mbind option_bind].
    destruct (slice16_Some payload 2 ltac:(lia)) as [n Hn]. cbn in Hn. rewrite Hn. cbn [mbind option_bind].
    destruct (slice_Some payload (Z.to_nat (Z.land b0 15 * 4)) (length payload) ltac:(lia)) as (l4 & Hl4 & _). unfold sliceFrom. rewrite Hl4. cbn. eauto.
  - case_decide; [|eauto]. case_decide; [eauto|]. destruct (lookup_lt_is_Some_2 payload 6 ltac:(lia)) as [x ->]. cbn [mbind option_bind].
    destruct (slice_Some payload 8 24 ltac:(lia)) as (src & -> & _), (slice_Some payload 24 40 ltac:(lia)) as (dst & -> & _). cbn [mbind option_bind].
    destruct (slice16_Some payload 4 ltac:(lia)) as [n Hn]. cbn in Hn. rewrite Hn. cbn [mbind option_bind].
    destruct (slice_Some payload 40 (length payload) ltac:(lia)) as (l4 & Hl4 & _). unfold sliceFrom. rewrite Hl4. cbn. eauto.
Qed.

(** No payload makes the parser read out of range. *)
Theorem Parse_total payload : is_Some (Parse payload).
Proof.
  unfold Parse. case_decide; [eauto|]. destruct (parseNetwork_total payload ltac:(lia)) as [net ->]. cbn [mbind option_bind].
  destruct net as [[[[[src dst] len] proto] l4]|]; [|eauto]. case_decide; [eauto|]. case_decide; [|eauto]. case_decide; [eauto|].
  destruct (slice16_Some l4 2 ltac:(lia)) as [n Hn]. cbn in Hn. rewrite Hn. cbn. eauto.
Qed.

Lemma nflogSteps_total inputs r : is_Some (nflogSteps inputs r).
Proof.
  revert r. induction inputs as [|i inputs IH]; intros r; cbn [nflogSteps]; [eauto|].
  assert (is_Some (nflogStep i r)) as [[[em on] r'] ->].
  { destruct i as [[payload|] D now|eno ended now after]; cbn; [|eauto|destruct ended, eno; eauto].
    unfold nflog_classify. case_decide; [eauto|]. destruct (Parse_total payload) as [[p|] ->]; eauto. }
  destruct on; [|eauto]. destruct (IH r') as [[[rest on] r2] ->]. cbn. eauto.
Qed.
(** The log source never panics, whatever it receives. *)
Theorem Nflog_Run_total opened registered started early subscribed late g overruns :
  is_Some (Nflog_Run opened registered started early subscribed late g overruns).
Proof.
  unfold Nflog_Run. destruct (negb _); [eauto|]. destruct (nflogSteps_total early (MkNflogRun started g overruns)) as [[[em on] r] ->]. cbn. destruct on; [|eauto].
  match goal with |- context [nflogSteps late ?x] => destruct (nflogSteps_total late x) as [[[rest on] r2] ->] end. cbn. eauto.
Qed.

(** A slice in the middle of three parts. *)
Lemma slice_mid (a b c : list Z) i j : length a = i → (i + length b)%nat = j → slice (a ++ b ++ c) i j = Some b.
Proof.
  intros <- <-. unfold slice. rewrite decide_True by (rewrite !length_app; lia). f_equal.
  rewrite drop_app_length. replace (length a + length b - length a)%nat with (length b) by lia. by rewrite take_app_length.
Qed.

(** The layout of an IPv4 and of an IPv6 packet: the bytes that are read, between others. *)
Definition packet4 (n : Z) (tos lenHi lenLo : Z) (ident : list Z) (ttl proto : Z) (sum src dst options l4 : list Z) : list Z :=
  [64 + n; tos; lenHi; lenLo] ++ ident ++ [ttl; proto] ++ sum ++ src ++ dst ++ options ++ l4.
Definition packet6 (class1 : Z) (class lenHi lenLo proto hops : Z) (label src dst l4 : list Z) : list Z :=
  [96 + class1; class] ++ label ++ [lenHi; lenLo; proto; hops] ++ src ++ dst ++ l4.

Lemma version4 n : 0 ≤ n < 16 → Z.shiftr (64 + n) 4 = 4 ∧ Z.land (64 + n) 15 = n.
Proof.
  intros Hn. split.
  - rewrite Z.shiftr_div_pow2 by lia. change (2 ^ 4) with 16. rewrite Z.add_comm. rewrite <-(Z.div_unique (n + 64) 16 4 n); lia.
  - change 15 with (Z.ones 4). rewrite Z.land_ones by lia. change (2 ^ 4) with 16. rewrite <-(Z.mod_unique (64 + n) 16 4 n); lia.
Qed.

Lemma length4 (l : list Z) : length l = 4%nat → ∃ a b c d, l = [a; b; c; d].
Proof. destruct l as [|a [|b [|c [|d [|e l]]]]]; try done. eauto 10. Qed.
Lemma length2 (l : list Z) : length l = 2%nat → ∃ a b, l = [a; b].
Proof. destruct l as [|a [|b [|c l]]]; try done. eauto 10. Qed.
Lemma slice_In b i j : (i ≤ j ≤ length b)%nat → slice b i j = Some (take (j - i) (drop i b)).
Proof. intros. unfold slice. by rewrite decide_True. Qed.

Lemma parseNetwork4 n tos lenHi lenLo ident ttl proto sum src dst options l4 :
  5 ≤ n < 16 → length ident = 4%nat → length sum = 2%nat → length src = 4%nat → length dst = 4%nat → length options = Z.to_nat (4 * n - 20) →
  parseNetwork (packet4 n tos lenHi lenLo ident ttl proto sum src dst options l4) =
    Some (Some (Addr4 (of_be 256 src), Addr4 (of_be 256 dst), 256 * lenHi + lenLo, proto, l4)).
Proof.
  intros Hn (i0 & i1 & i2 & i3 & ->)%length4 (c0 & c1 & ->)%length2 (s0 & s1 & s2 & s3 & ->)%length4 (d0 & d1 & d2 & d3 & ->)%length4 Ho.
  destruct (version4 n ltac:(lia)) as [Hv Hland].
  set (h := [64 + n; tos; lenHi; lenLo; i0; i1; i2; i3; ttl; proto; c0; c1; s0; s1; s2; s3; d0; d1; d2; d3] ++ options).
  assert (packet4 n tos lenHi lenLo [i0; i1; i2; i3] ttl proto [c0; c1] [s0; s1; s2; s3] [d0; d1; d2; d3] options l4 = h ++ l4 ++ []) as ->
    by (unfold h; by rewrite <-app_assoc, app_nil_r).
  assert (length h = Z.to_nat (4 * n)) as Hh by (unfold h; rewrite length_app, Ho; cbn; lia).
  assert (length (h ++ l4 ++ []) = length h + length l4)%nat as Hlen by by rewrite !length_app, Nat.add_0_r.
  unfold parseNetwork, sliceFrom.
  change ((h ++ l4 ++ []) !! 0%nat) with (Some (64 + n)). cbn [mbind option_bind]. rewrite Hv, Hland. rewrite decide_True by done. rewrite decide_False by lia.
  rewrite decide_False by lia. change ((h ++ l4 ++ []) !! 9%nat) with (Some proto). cbn [mbind option_bind].
  rewrite !(slice_In _ 12), !(slice_In _ 16), !(slice_In _ 2) by lia. cbn [mbind option_bind]. unfold h at 1 2 3. cbn [app drop take Nat.sub be16 mbind option_bind].
  rewrite (slice_mid h l4 []) by (rewrite ?Hlen; lia). done.
Qed.

Lemma parseNetwork6 class1 class lenHi lenLo proto hops label src dst l4 :
  0 ≤ class1 < 16 → length label = 2%nat → length src = 16%nat → length dst = 16%nat →
  parseNetwork (packet6 class1 class lenHi lenLo proto hops label src dst l4) =
    Some (Some (Addr6 (of_be 256 src) "", Addr6 (of_be 256 dst) "", 40 + (256 * lenHi + lenLo), proto, l4)).
Proof.
  intros Hc (l0 & l1 & ->)%length2 Hsrc Hdst. set (h := [96 + class1; class; l0; l1; lenHi; lenLo; proto; hops]).
  assert (packet6 class1 class lenHi lenLo proto hops [l0; l1] src dst l4 = h ++ src ++ dst ++ l4) as -> by done.
  assert (length (h ++ src ++ dst ++ l4) = 40 + length l4)%nat as Hlen by (rewrite !length_app, Hsrc, Hdst; done).
  unfold parseNetwork, sliceFrom. change ((h ++ src ++ dst ++ l4) !! 0%nat) with (Some (96 + class1)). cbn [mbind option_bind].
  assert (Z.shiftr (96 + class1) 4 = 6) as ->. { rewrite Z.shiftr_div_pow2 by lia. change (2 ^ 4) with 16. rewrite <-(Z.div_unique (96 + class1) 16 6 class1); lia. }
  rewrite decide_False by done. rewrite decide_True by done. rewrite decide_False by lia.
  change ((h ++ src ++ dst ++ l4) !! 6%nat) with (Some proto). cbn [mbind option_bind].
  rewrite (slice_mid h src (dst ++ l4) 8 24) by (unfold h; cbn [length]; lia). cbn [mbind option_bind].
  rewrite (app_assoc h src). rewrite (slice_mid (h ++ src) dst l4 24 40) by (rewrite ?length_app; unfold h; cbn [length]; lia). cbn [mbind option_bind].
  rewrite <-(app_assoc h src). rewrite (slice_In _ 4 6) by lia.
  assert (take (6 - 4) (drop 4 (h ++ src ++ dst ++ l4)) = [lenHi; lenLo]) as -> by done. cbn [be16 mbind option_bind].
  assert (h ++ src ++ dst ++ l4 = (h ++ src ++ dst) ++ l4 ++ []) as -> by by rewrite <-!app_assoc, app_nil_r.
  rewrite (slice_mid (h ++ src ++ dst) l4 []) by (rewrite ?length_app; unfold h; cbn [length]; lia). done.
Qed.

(** What the parser answers once the network header is read. *)
Definition transport (src dst : Addr) (len proto : Z) (l4 : list Z) : option Packet :=
  if decide (proto = protoICMP ∨ proto = protoICMPv6) then Some (MkPacket src dst 0 PROTOCOL_ICMP len)
  else if decide (proto = protoTCP ∨ proto = protoUDP) then
    match l4 with
    | _ :: _ :: hi :: lo :: _ => Some (MkPacket src dst (256 * hi + lo) (if decide (proto = protoTCP) then PROTOCOL_TCP else PROTOCOL_UDP) len)
    | _ => None
    end
  else None.

Lemma Parse_transport payload src dst len proto l4 :
  (1 ≤ length payload)%nat → parseNetwork payload = Some (Some (src, dst, len, proto, l4)) → Parse payload = Some (transport src dst len proto l4).
Proof.
  intros Hl Hp. unfold Parse, transport. rewrite decide_False by lia. rewrite Hp. cbn [mbind option_bind]. case_decide; [done|]. case_decide; [|done].
  destruct l4 as [|a [|b [|hi [|lo l4]]]]; [done..|]. rewrite decide_False by (cbn; lia). rewrite slice_In by (cbn; lia). done.
Qed.

(** The headers of a packet are read at their places: addresses, length and destination port of an
    IPv4 packet with any options and of an IPv6 packet without extension headers. *)
Theorem Parse_reads :
  (∀ n tos lenHi lenLo ident ttl proto sum src dst options l4,
     5 ≤ n < 16 → length ident = 4%nat → length sum = 2%nat → length src = 4%nat → length dst = 4%nat → length options = Z.to_nat (4 * n - 20) →
     Parse (packet4 n tos lenHi lenLo ident ttl proto sum src dst options l4) =
       Some (transport (Addr4 (of_be 256 src)) (Addr4 (of_be 256 dst)) (256 * lenHi + lenLo) proto l4)) ∧
  (∀ class1 class lenHi lenLo proto hops label src dst l4,
     0 ≤ class1 < 16 → length label = 2%nat → length src = 16%nat → length dst = 16%nat →
     Parse (packet6 class1 class lenHi lenLo proto hops label src dst l4) =
       Some (transport (Addr6 (of_be 256 src) "") (Addr6 (of_be 256 dst) "") (40 + (256 * lenHi + lenLo)) proto l4)).
Proof.
  split; intros; apply Parse_transport; [unfold packet4; cbn; lia|by apply parseNetwork4|unfold packet6; cbn; lia|by apply parseNetwork6].
Qed.

(** ** An example *)

Module SourcesExample.

Definition host : Addr := Addr4 167772161.
Definition flow (id port orig reply : Z) : CtFlow := MkCtFlow id (Addr4 167772162) host protoTCP port 0 orig reply.
Definition event (ty : CtEventType) (f : CtFlow) (now : Z) : CtEvent * Z := (MkCtEvent ty (Some f), now).
Definition source : CtSource := MkCtSource {[host]} (MkGaps 0 [] ∅) 0.

(** One connection predates the subscription and closes; another opens before the dump is read,
    which was taken when both were open; a third opens and closes after. *)
Definition evs1 : list (CtEvent * Z) := [event EventNew (flow 2 443 0 0) 11; event EventDestroy (flow 1 22 100 50) 12].
Definition evs2 : list (CtEvent * Z) := [event EventNew (flow 3 80 0 0) 14; event EventDestroy (flow 3 80 7 8) 15].
Definition dump : list CtFlow := [flow 1 22 40 0; flow 2 443 1 1].

Lemma history_ok : history [flow 1 22 0 0] (evs1 ++ evs2).*1.
Proof.
  split.
  - cbn. apply (bool_decide_unpack _). vm_compute. exact I.
  - intros c [-> |[-> |Hc]%elem_of_cons]%elem_of_cons; [apply list_elem_of_here|do 2 apply list_elem_of_further; apply list_elem_of_here|by apply not_elem_of_nil in Hc].
  - cbn. apply (bool_decide_unpack _). vm_compute. exact I.
  - intros p ev q c Hs Ho Hc. cbn in Hs.
    destruct p as [|e0 p]; [by apply not_elem_of_nil in Hc|]. injection Hs as <- Hs.
    destruct p as [|e1 p]; [by apply not_elem_of_nil in Hc|]. injection Hs as <- Hs.
    destruct p as [|e2 p].
    { injection Hs as <- _. injection Ho as <-. cbn in Hc. by apply list_elem_of_singleton in Hc. }
    injection Hs as <- Hs. destruct p as [|e3 p]; [injection Hs as <- _; done|]. injection Hs as <- Hs. by destruct p.
Qed.


(** Three connections, counted once each, and two ends with their bytes. *)
Example counts :
  let '(obs, _, _) := subscribe None 0 (MkSubEnv true true 10 (reads evs1 ++ InDumped (Some dump) 13 :: reads evs2)) source in
  (λ o, (obDstPort o, obConnections o, obBytes o)) <$> obs = [(443, 1, 0); (22, 1, 150); (80, 1, 0); (80, 0, 15)].
Proof. vm_compute. reflexivity. Qed.

(** The kernel's ids are unique among live entries only.  One that is used again between the
    subscription and the dump makes the source count the new connection twice and the old one not
    at all. *)
Definition reuse : list (CtEvent * Z) := [event EventDestroy (flow 1 22 100 50) 14; event EventNew (flow 1 443 0 0) 15].
Example reused_id_misattributes :
  let '(obs, _, _) := subscribe None 0 (MkSubEnv true true 10 (InDumped (Some [flow 1 443 0 0]) 13 :: reads reuse)) source in
  (λ o, (obDstPort o, obConnections o, obBytes o)) <$> obs = [(443, 1, 0); (22, 0, 150); (443, 1, 0)].
Proof. vm_compute. reflexivity. Qed.
End SourcesExample.
