(* ===== verification/ApiWrites.v ===== *)
(** * The operator API: reads and writes of authored objects
      ([internal/api/writes.go], [writes_encode.go], [problem.go])

    The handlers of rulesets, rules, services and address groups over the authoring service.  A
    handler reads the ids of its path, the version its If-Match names and its body, in this order,
    and answers with a problem at the first that does not read.  A request has the value of its
    If-Match header, the texts of the ids, and what [encoding/json] makes of its body. *)

From S2P Require Import Prelude GoStd Strconv Netip Wire Uuid Identity Policy Validate Document Authoring Surface.
From Stdlib Require Import Ascii.
Local Open Scope Z_scope.

(** ** Problems *)

Definition ProblemValidation : string := problemTypeBase +:+ "validation".
Definition ProblemPreconditionRequired : string := problemTypeBase +:+ "precondition-required".
Definition ProblemPreconditionFailed : string := problemTypeBase +:+ "precondition-failed".
Definition ProblemDuplicateName : string := problemTypeBase +:+ "duplicate-name".
Definition ProblemInUse : string := problemTypeBase +:+ "in-use".

(** A finding as a client renders it; the message is the error and its detail, unprinted. *)
Record Finding := MkFinding { fnPath : string; fnRule : string; fnMessage : AdmissionError * Detail }.
(** A problem with its findings and the current version of the resource. *)
Record WriteProblem := MkWriteProblem { wpProblem : Problem; wpErrors : list Finding; wpCurrentVersion : string }.
Definition plainProblem (p : Problem) : WriteProblem := MkWriteProblem p [] "".

Definition validationProblem (f : list ValidationError) : WriteProblem :=
  MkWriteProblem (MkProblem ProblemValidation "Validation failed" 400 "the request was refused by admission; see errors")
    ((λ e, MkFinding (vePath e) (ruleName (veErr e)) (veErr e, veDetail e)) <$> f) "".

(** [writeProblemFor] of what the authoring service returns; the detail of a duplicate is
    without the object it goes on to name. *)
Definition writeProblemFor (err : AuthorError) : WriteProblem :=
  match err with
  | ErrFindings f => validationProblem f
  | ErrStore (VersionMismatchError current) =>
      MkWriteProblem (MkProblem ProblemPreconditionFailed "Precondition failed" 412
        "the resource has changed since it was read; re-read it and retry with its current version") [] current
  | ErrStore (ErrRulesetUnknown | ErrServiceUnknown | ErrAddressGroupUnknown) | ErrRuleUnknown => plainProblem problemNotFound
  | ErrStore ErrDuplicateName => plainProblem (MkProblem ProblemDuplicateName "Conflict" 409 "an object of this kind already has that name")
  | ErrStore ErrDuplicateRuleID => plainProblem (MkProblem ProblemDuplicateName "Conflict" 409 "a rule with that id already exists")
  | ErrStore ErrInUse => plainProblem (MkProblem ProblemInUse "Conflict" 409 "the object is referenced by a rule and cannot be deleted")
  | ErrStore (ErrReference _ | StoreFailure) | RenderFailed => plainProblem problemInternal
  end.

(** ** Conditional requests *)

Definition quote : ascii := "034"%char.
(** [strings.Trim] of quotes. *)
Fixpoint TrimLeftByte (c : ascii) (s : string) : string :=
  match s with "" => "" | String d s' => if decide (d = c) then TrimLeftByte c s' else s end.
Fixpoint TrimRightByte (c : ascii) (s : string) : string :=
  match s with
  | "" => ""
  | String d s' => let t := TrimRightByte c s' in if decide (t = "" ∧ d = c) then "" else String d t
  end.
Definition TrimByte (c : ascii) (s : string) : string := TrimRightByte c (TrimLeftByte c s).

(** [ifMatch]: the version, or nothing when the problem of a missing one is written. *)
Definition ifMatch (header : string) : option string :=
  let raw := TrimSpace header in
  if decide (raw = "" ∨ raw = "*") then None
  else match strip_prefix "W/" raw with Some _ => Some raw | None => Some (TrimByte quote raw) end.
Definition problemPreconditionRequired : WriteProblem :=
  plainProblem (MkProblem ProblemPreconditionRequired "Precondition required" 428 "this write requires If-Match with the resource version a read returned").

Definition versionTag (version : string) : string := String quote (version +:+ String quote "").

(** ** Bodies *)

(** What [decodeJSON] makes of a body: it does not read, holds more than one document, or reads. *)
Inductive Decoded (A : Type) := BodyUnreadable | BodyMore | BodyDoc (a : A).
Arguments BodyUnreadable {_}.
Arguments BodyMore {_}.
Arguments BodyDoc {_}.

Record addressGroupInput := MkAddressGroupInput { aiName : string; aiCIDRs : list string }.

Record serviceDocJSON := MkServiceDocJSON {
  sjID : string; sjName : string; sjEntries : list EntryDoc; sjVersion : string; sjCreatedAt : string; sjUpdatedAt : string;
}.
Record addressGroupJSON := MkAddressGroupJSON {
  gjID : string; gjName : string; gjCIDRs : list string; gjVersion : string; gjCreatedAt : string; gjUpdatedAt : string;
}.

(** What an answer carries. *)
Inductive WriteBody :=
| WbProblem (p : WriteProblem)
| WbRuleset (d : RulesetDoc)
| WbRule (d : RuleDoc)
| WbService (d : serviceDocJSON)
| WbServices (l : list serviceDocJSON)
| WbGroup (d : addressGroupJSON)
| WbGroups (l : list addressGroupJSON)
| WbEmpty.
Record WriteResponse := MkWriteResponse { wrStatus : Z; wrHeaders : list (string * string); wrBody : WriteBody }.

Definition problemResponse (p : WriteProblem) : WriteResponse := MkWriteResponse (pbStatus (wpProblem p)) [] (WbProblem p).
Definition APIPrefix : string := "/api/v1".

Section encode.
Context `{UUIDLib}.

(** The names of [policy.Names{}]. *)
Definition noNames : Names := MkNames ∅ ∅ ∅ ∅.
Definition rulesetJSON (rs : Ruleset) : RulesetDoc := RulesetToDoc rs noNames.
Definition authoredRuleJSON (r : Rule) : RuleDoc := RuleToDoc noNames r.
Definition serviceJSONOf (s : Service) : serviceDocJSON :=
  MkServiceDocJSON (uuid_String (svcID s)) (svcName s) (entryToDoc <$> svcEntries s) (FormatVersion (svcVersion s))
    (formatRFC3339Nano (svcCreatedAt s)) (formatRFC3339Nano (svcUpdatedAt s)).
Definition addressGroupJSONOf (g : AddressGroup) : addressGroupJSON :=
  MkAddressGroupJSON (uuid_String (agID g)) (agName g) (agCIDRs g) (FormatVersion (agVersion g))
    (formatRFC3339Nano (agCreatedAt g)) (formatRFC3339Nano (agUpdatedAt g)).
Definition groupOfInput (i : addressGroupInput) : AddressGroup := MkAddressGroup uuid_Nil (aiName i) (aiCIDRs i) zeroTime zeroTime 0.
End encode.

(** The reads of one object, besides those the service uses. *)
Class AuthoredReads `{UUIDLib} (St : Type) := {
  st_GetService : UUID → St → result StoreError Service * St;
  st_GetAddressGroup : UUID → St → result StoreError AddressGroup * St;
}.

Section handlers.
Context `{UUIDLib} {St : Type} `{!AuthoredStore St} `{!AuthoredReads St}.
Context (others : St → St) (clock : nat → Z) (uuids : nat → UUID) (renderer : option (St → bool * St)) (uuid_partial : string → UUID).

(** A handler answers, and leaves a world. *)
Definition Handler : Type := World St → WriteResponse * World St.
Definition respond (r : WriteResponse) : Handler := λ w, (r, w).
(** [if err := m; err != nil { s.writeProblemFor(w, err); return }]. *)
Definition orProblem {A} (m : Author St A) (k : A → Handler) : Handler := λ w,
  match m w with (Ok a, w') => k a w' | (Err e, w') => (problemResponse (writeProblemFor e), w') end.

Definition pathUUID (text : string) (k : UUID → Handler) : Handler :=
  match uuid_Parse text with Some id => k id | None => respond (problemResponse (plainProblem problemNotFound)) end.
Definition withVersionOf (header : string) (k : string → Handler) : Handler :=
  match ifMatch header with Some v => k v | None => respond (problemResponse problemPreconditionRequired) end.
Definition decodeJSON {A} (body : Decoded A) (k : A → Handler) : Handler :=
  match body with
  | BodyDoc a => k a
  | BodyUnreadable => respond (problemResponse (plainProblem (MkProblem ProblemInvalidRequest "Invalid request body" 400 "the body is not a JSON document of the expected shape")))
  | BodyMore => respond (problemResponse (plainProblem (MkProblem ProblemInvalidRequest "Invalid request body" 400 "the body holds more than one document")))
  end.

Definition loadNames : Author St Names :=
  services ← store others st_ListServices;
  groups ← store others st_ListAddressGroups;
  mret (NewNames services groups).

Definition tagged (version : Z) (created : bool) (location : string) : list (string * string) :=
  ("ETag", versionTag (FormatVersion version)) :: if created then [("Location", APIPrefix +:+ location)] else [].

(** *** Rulesets *)

Definition decodeRuleset (body : Decoded RulesetDoc) (k : Ruleset → Handler) : Handler :=
  decodeJSON body (λ doc, orProblem loadNames (λ names, k (RulesetFromDoc uuid_partial doc names))).
Definition withRulesetID (id : UUID) (rs : Ruleset) : Ruleset :=
  MkRuleset id (rsName rs) (rsDescription rs) (rsEnabled rs) (rsScope rs) (rsRules rs) (rsCreatedAt rs) (rsUpdatedAt rs) (rsVersion rs) (rsFaults rs).

Definition respondRuleset (id : UUID) (status : Z) : Handler :=
  orProblem (store others (st_GetRuleset id)) (λ rs,
    respond (MkWriteResponse status (tagged (rsVersion rs) (bool_decide (status = 201)) ("/rulesets/" +:+ uuid_String (rsID rs))) (WbRuleset (rulesetJSON rs)))).
Definition createRuleset (body : Decoded RulesetDoc) : Handler :=
  decodeRuleset body (λ rs, orProblem (CreateRuleset others clock uuids renderer (withRulesetID uuid_Nil rs)) (λ rs, respondRuleset (rsID rs) 201)).
Definition getRuleset (id : string) : Handler := pathUUID id (λ id, respondRuleset id 200).
Definition putRuleset (id ifm : string) (body : Decoded RulesetDoc) : Handler :=
  pathUUID id (λ id, withVersionOf ifm (λ version, decodeRuleset body (λ rs,
    orProblem (UpdateRuleset others clock uuids renderer (withRulesetID id rs) version) (λ _, respondRuleset id 200)))).
Definition deleteRuleset (id ifm : string) : Handler :=
  pathUUID id (λ id, withVersionOf ifm (λ version,
    orProblem (DeleteRuleset others renderer id version) (λ _, respond (MkWriteResponse 204 [] WbEmpty)))).

(** *** Rules *)

Definition decodeRule (body : Decoded RuleDoc) (k : Rule → Handler) : Handler :=
  decodeJSON body (λ doc, orProblem loadNames (λ names, k (RuleFromDoc uuid_partial doc names))).
Definition withRuleID (id : UUID) (r : Rule) : Rule :=
  MkRule id (ruleDirection r) (ruleEnabled r) (ruleDescription r) (rulePeers r) (ruleServiceIDs r) (ruleEntries r)
    (ruleCreatedAt r) (ruleUpdatedAt r) (ruleVersion r) (ruleFaults r).

Definition respondRule (rulesetID id : UUID) (status : Z) : Handler :=
  orProblem (store others (st_GetRuleset rulesetID)) (λ rs,
    match list_find (λ r, ruleID r = id) (rsRules rs) with
    | Some (_, r) =>
        respond (MkWriteResponse status
          (tagged (ruleVersion r) (bool_decide (status = 201)) ("/rulesets/" +:+ uuid_String (rsID rs) +:+ "/rules/" +:+ uuid_String id))
          (WbRule (authoredRuleJSON r)))
    | None => respond (problemResponse (plainProblem problemNotFound))
    end).
Definition createRule (rulesetID : string) (body : Decoded RuleDoc) : Handler :=
  pathUUID rulesetID (λ rulesetID, decodeRule body (λ rule,
    orProblem (CreateRule others clock uuids renderer rulesetID (withRuleID uuid_Nil rule)) (λ rule, respondRule rulesetID (ruleID rule) 201))).
Definition getRule (rulesetID id : string) : Handler := pathUUID rulesetID (λ rulesetID, pathUUID id (λ id, respondRule rulesetID id 200)).
Definition putRule (rulesetID id ifm : string) (body : Decoded RuleDoc) : Handler :=
  pathUUID rulesetID (λ rulesetID, pathUUID id (λ id, withVersionOf ifm (λ version, decodeRule body (λ rule,
    orProblem (UpdateRule others clock uuids renderer rulesetID (withRuleID id rule) version) (λ _, respondRule rulesetID id 200))))).
Definition deleteRule (rulesetID id ifm : string) : Handler :=
  pathUUID rulesetID (λ rulesetID, pathUUID id (λ id, withVersionOf ifm (λ version,
    orProblem (DeleteRule others clock uuids renderer rulesetID id version) (λ _, respond (MkWriteResponse 204 [] WbEmpty))))).

(** *** Services *)

Definition listServices : Handler :=
  orProblem (store others st_ListServices) (λ services, respond (MkWriteResponse 200 [] (WbServices (serviceJSONOf <$> services)))).
Definition decodeService (body : Decoded ServiceDoc) (k : Service → Handler) : Handler := decodeJSON body (λ doc, k (ServiceFromDoc doc)).
Definition withServiceID (id : UUID) (s : Service) : Service :=
  MkService id (svcName s) (svcEntries s) (svcCreatedAt s) (svcUpdatedAt s) (svcVersion s) (svcFaults s).
Definition respondService (id : UUID) (status : Z) : Handler :=
  orProblem (store others (st_GetService id)) (λ s,
    respond (MkWriteResponse status (tagged (svcVersion s) (bool_decide (status = 201)) ("/services/" +:+ uuid_String (svcID s))) (WbService (serviceJSONOf s)))).
Definition createService (body : Decoded ServiceDoc) : Handler :=
  decodeService body (λ s, orProblem (CreateService others clock uuids renderer s) (λ s, respondService (svcID s) 201)).
Definition getService (id : string) : Handler := pathUUID id (λ id, respondService id 200).
Definition putService (id ifm : string) (body : Decoded ServiceDoc) : Handler :=
  pathUUID id (λ id, withVersionOf ifm (λ version, decodeService body (λ s,
    orProblem (UpdateService others clock renderer (withServiceID id s) version) (λ _, respondService id 200)))).
Definition deleteService (id ifm : string) : Handler :=
  pathUUID id (λ id, withVersionOf ifm (λ version,
    orProblem (DeleteService others renderer id version) (λ _, respond (MkWriteResponse 204 [] WbEmpty)))).

(** *** Address groups *)

Definition listAddressGroups : Handler :=
  orProblem (store others st_ListAddressGroups) (λ groups, respond (MkWriteResponse 200 [] (WbGroups (addressGroupJSONOf <$> groups)))).
Definition withGroupID (id : UUID) (g : AddressGroup) : AddressGroup :=
  MkAddressGroup id (agName g) (agCIDRs g) (agCreatedAt g) (agUpdatedAt g) (agVersion g).
Definition respondAddressGroup (id : UUID) (status : Z) : Handler :=
  orProblem (store others (st_GetAddressGroup id)) (λ g,
    respond (MkWriteResponse status (tagged (agVersion g) (bool_decide (status = 201)) ("/address-groups/" +:+ uuid_String (agID g))) (WbGroup (addressGroupJSONOf g)))).
Definition createAddressGroup (body : Decoded addressGroupInput) : Handler :=
  decodeJSON body (λ doc, orProblem (CreateAddressGroup others clock uuids renderer (groupOfInput doc)) (λ g, respondAddressGroup (agID g) 201)).
Definition getAddressGroup (id : string) : Handler := pathUUID id (λ id, respondAddressGroup id 200).
Definition putAddressGroup (id ifm : string) (body : Decoded addressGroupInput) : Handler :=
  pathUUID id (λ id, withVersionOf ifm (λ version, decodeJSON body (λ doc,
    orProblem (UpdateAddressGroup others clock renderer (withGroupID id (groupOfInput doc)) version) (λ _, respondAddressGroup id 200)))).
Definition deleteAddressGroup (id ifm : string) : Handler :=
  pathUUID id (λ id, withVersionOf ifm (λ version,
    orProblem (DeleteAddressGroup others renderer id version) (λ _, respond (MkWriteResponse 204 [] WbEmpty)))).
End handlers.
