(* ===== verification/ApiWritesProps.v ===== *)
(** * The operator API writes only at the version a request names

    Over any store with the laws of its interface, used by one caller at a time: a conditional
    handler without a version answers 428 and does nothing, and one with a version changes what is
    stored, or answers with success, only when the object holds that version. *)

From S2P Require Import Prelude GoStd Strconv Netip Wire Uuid Identity Policy Validate Document DocumentProps Authoring AuthoringFacts Surface Postgres PolicyStore PolicyStoreFacts PolicyStoreLaws PolicyStoreProps ApiWrites.
From Stdlib Require Import Ascii.
Local Open Scope Z_scope.

(** ** Entity tags *)

Lemma TrimRightByte_app c s : contains_byte c s = false → TrimRightByte c (s +:+ String c "") = s.
Proof.
  induction s as [|d s IH]; cbn.
  - intros _. by rewrite decide_True.
  - case_decide as Hd; [done|]. intros Hs. rewrite IH by done. rewrite decide_False; [done|]. intros [_ ->]. done.
Qed.

(** The tag a read returns names the version it read. *)
Lemma ifMatch_versionTag v : 0 ≤ v → ifMatch (versionTag (FormatVersion v)) = Some (FormatVersion v).
Proof.
  intros Hv. pose proof (graphics_FormatInt v Hv) as Hg. pose proof (FormatInt_nonneg_free quote v eq_refl Hv) as Hf. unfold FormatVersion.
  unfold ifMatch, versionTag. rewrite TrimSpace_graphics by (cbn; rewrite graphics_app, Hg; done).
  rewrite decide_False by (intros [?|?]; done). cbn [strip_prefix]. rewrite decide_False by done.
  unfold TrimByte. cbn [TrimLeftByte]. rewrite decide_True by done. f_equal.
  destruct (FormatInt v) as [|d s] eqn:Es; [by apply FormatInt_nonempty in Es|]. cbn [String.append TrimLeftByte].
  cbn in Hf. destruct (decide (quote = d)) as [|Hn]; [done|]. rewrite decide_False by congruence.
  change (TrimRightByte quote (String d s +:+ String quote "") = String d s). apply TrimRightByte_app. cbn. by rewrite decide_False.
Qed.

(** ** Steps that write at a version only *)

Section conditional.
Context `{UUIDLib} {St : Type} `{!AuthoredStore St, !StoreView St, !AuthoredStoreLaws St}.

(** A step that changes nothing stored. *)
Definition pure {A} (m : Author St A) : Prop :=
  ∀ w r w', valid (woStore w) → m w = (r, w') → valid (woStore w') ∧ content (woStore w') = content (woStore w).
(** A step that changes what is stored, or returns a value, only when [P] held of it. *)
Definition conditional {A} (P : Content → Prop) (m : Author St A) : Prop :=
  ∀ w r w', valid (woStore w) → m w = (r, w') →
    valid (woStore w') ∧ (content (woStore w') = content (woStore w) ∨ P (content (woStore w))) ∧ (∀ a, r = Ok a → P (content (woStore w))).

Lemma pure_ret {A} (a : A) : pure (mret a).
Proof. by intros w r w' Hv [= <- <-]. Qed.
Lemma pure_throw {A} e : pure (throw (A := A) e).
Proof. by intros w r w' Hv [= <- <-]. Qed.
Lemma pure_bind {A B} (m : Author St A) (f : A → Author St B) : pure m → (∀ a, pure (f a)) → pure (m ≫= f).
Proof.
  intros Hm Hf w r w' Hv. unfold mbind, author_bind. destruct (m w) as [[a|e] w1] eqn:Em; destruct (Hm _ _ _ Hv Em) as [Hv1 Hc1].
  - intros Hk. destruct (Hf a _ _ _ Hv1 Hk) as [Hv2 Hc2]. by rewrite Hc2.
  - by intros [= <- <-].
Qed.
Lemma pure_store {A} (op : St → result StoreError A * St) :
  (∀ s r s', valid s → op s = (r, s') → valid s' ∧ content s' = content s) → pure (store id op).
Proof.
  intros Hop w r w' Hv. unfold store, id. destruct (op (woStore w)) as [r1 s1] eqn:Eo. intros [= <- <-]. by apply (Hop _ _ _ Hv Eo).
Qed.
Lemma pure_now clock : pure (now clock).
Proof. by intros w r w' Hv [= <- <-]. Qed.
Lemma pure_idOrNew uuids i : pure (idOrNew uuids i).
Proof. unfold idOrNew. case_decide; [|apply pure_ret]. by intros w r w' Hv [= <- <-]. Qed.
Lemma pure_admitted v : pure (admitted v).
Proof. destruct v; [apply pure_throw|apply pure_ret]. Qed.
Lemma pure_render : pure (render id None).
Proof. by intros w r w' Hv [= <- <-]. Qed.
Lemma pure_GetRuleset i : pure (store id (st_GetRuleset i)).
Proof. apply pure_store. intros s r s' Hv Hg. by destruct (get_ruleset _ _ _ _ Hv Hg) as (? & ? & _). Qed.
Lemma pure_ListServices : pure (store id st_ListServices).
Proof. apply pure_store. intros s r s' Hv Hg. by destruct (list_services _ _ _ Hv Hg) as (? & ? & _). Qed.
Lemma pure_ListAddressGroups : pure (store id st_ListAddressGroups).
Proof. apply pure_store. intros s r s' Hv Hg. by destruct (list_groups _ _ _ Hv Hg) as (? & ? & _). Qed.
Lemma pure_loadReferences : pure (loadReferences id).
Proof. apply pure_bind; [apply pure_ListServices|]. intros l. apply pure_bind; [apply pure_ListAddressGroups|]. intros g. apply pure_ret. Qed.
Lemma pure_assignRuleIDs uuids rs : pure (assignRuleIDs uuids rs).
Proof.
  apply pure_bind; [|intros; apply pure_ret]. induction (rsRules rs) as [|r l IH]; cbn [assignRules]; [apply pure_ret|].
  apply pure_bind; [apply pure_bind; [apply pure_idOrNew|intros; apply pure_ret]|]. intros r'. apply pure_bind; [exact IH|]. intros; apply pure_ret.
Qed.

Lemma cond_throw {A} P e : conditional P (throw (A := A) e).
Proof. intros w r w' Hv [= <- <-]. split_and!; [done|by left|done]. Qed.
Lemma cond_bind {A B} P (m : Author St A) (f : A → Author St B) : pure m → (∀ a, conditional P (f a)) → conditional P (m ≫= f).
Proof.
  intros Hm Hf w r w' Hv. unfold mbind, author_bind. destruct (m w) as [[a|e] w1] eqn:Em; destruct (Hm _ _ _ Hv Em) as [Hv1 Hc1].
  - intros Hk. destruct (Hf a _ _ _ Hv1 Hk) as (Hv2 & Hc2 & Hp). rewrite Hc1 in Hc2, Hp. done.
  - intros [= <- <-]. split_and!; [done|by left|done].
Qed.
Lemma cond_then {A B} P (m : Author St A) (f : A → Author St B) : conditional P m → (∀ a, pure (f a)) → conditional P (m ≫= f).
Proof.
  intros Hm Hf w r w' Hv. unfold mbind, author_bind. destruct (m w) as [[a|e] w1] eqn:Em; destruct (Hm _ _ _ Hv Em) as (Hv1 & Hc1 & Hp).
  - intros Hk. destruct (Hf a _ _ _ Hv1 Hk) as [Hv2 Hc2]. rewrite Hc2. split_and!; [done|done|]. intros _ _. by apply (Hp a).
  - intros [= <- <-]. split_and!; [done|done|done].
Qed.
(** A write of the store, by the outcome its law states. *)
Lemma cond_write {A} (P : Content → Prop) (op : St → result StoreError A * St) (effect : St → St → A → Prop) :
  (∀ s r s', valid s → op s = (r, s') → valid s' ∧ outcome r (content s) (content s') (effect s s')) →
  (∀ s s' a, effect s s' a → P (content s)) → conditional P (store id op).
Proof.
  intros Hop Heff w r w' Hv. unfold store, id. destruct (op (woStore w)) as [r1 s1] eqn:Eo. intros [= <- <-].
  destruct (Hop _ _ _ Hv Eo) as [Hv1 Ho]. cbn [woStore]. split; [done|]. destruct Ho as [a -> He|e -> He|a -> He].
  - split; [right; eauto|]. eauto.
  - split; [by left|done].
  - split; [right; eauto|done].
Qed.
Lemma cond_weaken {A} (P Q : Content → Prop) (m : Author St A) : (∀ c, P c → Q c) → conditional P m → conditional Q m.
Proof. intros Hpq Hm w r w' Hv He. destruct (Hm _ _ _ Hv He) as (? & [?|?] & ?); split_and!; eauto. Qed.

(** ** The operations *)

Definition serviceAt (id : UUID) (expect : string) (c : Content) : Prop := ∃ old, cServices c !! id = Some old ∧ names expect (svcVersion old).
Definition groupAt (id : UUID) (expect : string) (c : Content) : Prop := ∃ old, cGroups c !! id = Some old ∧ names expect (agVersion old).
Definition rulesetAt (id : UUID) (expect : string) (c : Content) : Prop := ∃ old, cRulesets c !! id = Some old ∧ names expect (rsVersion old).
Definition ruleAt (rid id : UUID) (expect : string) (c : Content) : Prop :=
  ∃ rs i old, cRulesets c !! rid = Some rs ∧ list_find (λ r, ruleID r = id) (rsRules rs) = Some (i, old) ∧ names expect (ruleVersion old).

Context (clock : nat → Z) (uuids : nat → UUID).

Lemma cond_UpdateService s expect : conditional (serviceAt (svcID s) expect) (UpdateService id clock None s expect).
Proof.
  unfold UpdateService. apply cond_bind; [apply pure_admitted|]. intros _. apply cond_bind; [apply pure_now|]. intros t. cbv zeta.
  apply cond_then; [|intros v; apply pure_bind; [apply pure_render|intros; apply pure_ret]].
  eapply cond_write; [intros ?? ?; apply update_service|]. intros ?? v (old & x' & _ & Hl & Hn & _). by exists old.
Qed.
Lemma cond_DeleteService i expect : conditional (serviceAt i expect) (DeleteService id None i expect).
Proof.
  apply cond_then; [|intros; apply pure_render]. eapply cond_write; [intros ?? ?; apply delete_service|]. intros ?? _ (old & Hl & Hn & _). by exists old.
Qed.
Lemma cond_UpdateAddressGroup g expect : conditional (groupAt (agID g) expect) (UpdateAddressGroup id clock None g expect).
Proof.
  unfold UpdateAddressGroup. apply cond_bind; [apply pure_admitted|]. intros _. apply cond_bind; [apply pure_now|]. intros t. cbv zeta.
  apply cond_then; [|intros v; apply pure_bind; [apply pure_render|intros; apply pure_ret]].
  eapply cond_write; [intros ?? ?; apply update_group|]. intros ?? v (old & x' & _ & Hl & Hn & _). by exists old.
Qed.
Lemma cond_DeleteAddressGroup i expect : conditional (groupAt i expect) (DeleteAddressGroup id None i expect).
Proof.
  apply cond_then; [|intros; apply pure_render]. eapply cond_write; [intros ?? ?; apply delete_group|]. intros ?? _ (old & Hl & Hn & _). by exists old.
Qed.
Lemma assignRuleIDs_id rs (w : World St) rs' w' : assignRuleIDs uuids rs w = (Ok rs', w') → rsID rs' = rsID rs.
Proof. unfold assignRuleIDs, mbind, author_bind. destruct (assignRules _ _ _) as [[l|e] w1]; [|done]. by intros [= <- <-]. Qed.
Lemma cond_DeleteRuleset i expect : conditional (rulesetAt i expect) (DeleteRuleset id None i expect).
Proof.
  apply cond_then; [|intros; apply pure_render]. eapply cond_write; [intros ?? ?; apply delete_ruleset|]. intros ?? _ (old & Hl & Hn & _). by exists old.
Qed.

Lemma cond_bind_post {A B} P (R : A → Prop) (m : Author St A) (f : A → Author St B) :
  pure m → (∀ w a w', m w = (Ok a, w') → R a) → (∀ a, R a → conditional P (f a)) → conditional P (m ≫= f).
Proof.
  intros Hm Hr Hf w r w' Hv. unfold mbind, author_bind. destruct (m w) as [[a|e] w1] eqn:Em; destruct (Hm _ _ _ Hv Em) as [Hv1 Hc1].
  - intros Hk. destruct (Hf a (Hr _ _ _ Em) _ _ _ Hv1 Hk) as (Hv2 & Hc2 & Hp). rewrite Hc1 in Hc2, Hp. done.
  - intros [= <- <-]. split_and!; [done|by left|done].
Qed.

Lemma cond_UpdateRuleset rs expect : conditional (rulesetAt (rsID rs) expect) (UpdateRuleset id clock uuids None rs expect).
Proof.
  unfold UpdateRuleset. apply cond_bind; [apply pure_loadReferences|]. intros refs. apply cond_bind; [apply pure_admitted|]. intros _.
  apply cond_bind; [apply pure_GetRuleset|]. intros existing.
  apply (cond_bind_post _ (λ rs', rsID rs' = rsID rs)); [apply pure_assignRuleIDs|intros w a w'; apply assignRuleIDs_id|]. intros rs' Hid.
  apply cond_bind; [apply pure_now|]. intros t. cbv zeta.
  apply cond_then; [|intros v; apply pure_bind; [apply pure_render|intros; apply pure_ret]].
  eapply cond_write; [intros ?? ?; apply update_ruleset|]. intros ?? v (old & x' & _ & _ & Hl & Hn & _). exists old. by rewrite <-Hid.
Qed.

Lemma pure_ruleWriteError {A} rid i e idx : pure (ruleWriteError (A := A) id rid i e idx).
Proof.
  unfold ruleWriteError. repeat case_match; try apply pure_throw.
  all: apply pure_bind; [apply pure_GetRuleset|]; intros rs; by destruct (list_find _ _) as [[? ?]|]; apply pure_throw.
Qed.

(** A write of a ruleset in an edit of one of its rules keeps the store valid. *)
Lemma edit_valid {A B} (m : Author St A) P rid i idx (k : A → Author St B) w r w' :
  conditional P m → (∀ a, pure (k a)) → valid (woStore w) → (onError m (λ e, ruleWriteError id rid i e idx) ≫= k) w = (r, w') → valid (woStore w').
Proof.
  intros Hm Hk Hv. unfold mbind, author_bind, onError. destruct (m w) as [[a|e] w1] eqn:Em; destruct (Hm _ _ _ Hv Em) as (Hv1 & _ & _).
  - intros Hx. by apply (Hk a _ _ _ Hv1 Hx).
  - destruct (ruleWriteError id rid i e idx w1) as [[a|e'] w2] eqn:Ew; destruct (pure_ruleWriteError _ _ _ _ _ _ _ Hv1 Ew) as [Hv2 _].
    + intros Hx. by apply (Hk a _ _ _ Hv2 Hx).
    + by intros [= <- <-].
Qed.

(** An edit of a rule: the rule is found in its ruleset and its version checked first. *)
Lemma cond_edit {A} rid i expect (f : Ruleset → nat → Rule → Author St A) :
  (∀ rs idx old w r w', valid (woStore w) → f rs idx old w = (r, w') → valid (woStore w')) →
  conditional (ruleAt rid i expect)
    (rs ← store id (st_GetRuleset rid);
     match list_find (λ x, ruleID x = i) (rsRules rs) with
     | None => throw ErrRuleUnknown
     | Some (idx, old) => checkRuleVersion expect old;; f rs idx old
     end).
Proof.
  intros Hf w r w' Hv. unfold mbind, author_bind. destruct (store id (st_GetRuleset rid) w) as [[rs|e] w1] eqn:Eg;
    destruct (pure_GetRuleset _ _ _ _ Hv Eg) as [Hv1 Hc1].
  2:{ intros [= <- <-]. split_and!; [done|by left|done]. }
  assert (cRulesets (content (woStore w)) !! rid = Some rs) as Hrs.
  { unfold store, id in Eg. destruct (st_GetRuleset rid (woStore w)) as [r0 s0] eqn:E0. destruct r0 as [rs0|]; [|done]. injection Eg as -> _.
    by destruct (get_ruleset _ _ _ _ Hv E0) as (_ & _ & Hx); apply Hx. }
  destruct (list_find (λ x, ruleID x = i) (rsRules rs)) as [[idx old]|] eqn:Hfind.
  2:{ intros [= <- <-]. split_and!; [done|by left|done]. }
  unfold checkRuleVersion. case_decide as Hn.
  { intros [= <- <-]. split_and!; [done|by left|done]. }
  assert (ruleAt rid i expect (content (woStore w))) as HP.
  { exists rs, idx, old. split_and!; [done|done|]. unfold names. destruct (decide (expect = "")), (decide (expect = FormatVersion (ruleVersion old))); tauto. }
  intros Hk. split; [by apply (Hf _ _ _ _ _ _ Hv1 Hk)|]. split; [by right|done].
Qed.

Lemma cond_UpdateRule rid r expect : conditional (ruleAt rid (ruleID r) expect) (UpdateRule id clock uuids None rid r expect).
Proof.
  apply (cond_edit rid (ruleID r) expect (λ rs idx old, rs' ← onError (UpdateRuleset id clock uuids None (withRules (<[idx := r]> (rsRules rs)) rs) (FormatVersion (rsVersion rs)))
    (λ e, ruleWriteError id rid (ruleID r) e (Some idx)); mret (default r (rsRules rs' !! idx)))).
  intros rs idx old w res w'. eapply edit_valid; [apply cond_UpdateRuleset|]. intros; apply pure_ret.
Qed.
Lemma cond_DeleteRule rid i expect : conditional (ruleAt rid i expect) (DeleteRule id clock uuids None rid i expect).
Proof.
  apply (cond_edit rid i expect (λ rs idx old, onError (UpdateRuleset id clock uuids None (withRules (delete idx (rsRules rs)) rs) (FormatVersion (rsVersion rs)))
    (λ e, ruleWriteError id rid i e None);; mret ())).
  intros rs idx old w res w'. eapply edit_valid; [apply cond_UpdateRuleset|]. intros; apply pure_ret.
Qed.
End conditional.

(** ** The handlers *)

(** The reads of one object change nothing. *)
Class AuthoredReadsLaws `{UUIDLib} (St : Type) `{!StoreView St, !AuthoredReads St} : Prop := {
  get_service id s r s' : valid s → st_GetService id s = (r, s') → valid s' ∧ content s' = content s;
  get_group id s r s' : valid s → st_GetAddressGroup id s = (r, s') → valid s' ∧ content s' = content s;
}.

(** The requests that name a version. *)
Inductive CondCall :=
| CPutRuleset (id : string) (body : Decoded RulesetDoc)
| CDeleteRuleset (id : string)
| CPutRule (rulesetID id : string) (body : Decoded RuleDoc)
| CDeleteRule (rulesetID id : string)
| CPutService (id : string) (body : Decoded ServiceDoc)
| CDeleteService (id : string)
| CPutAddressGroup (id : string) (body : Decoded addressGroupInput)
| CDeleteAddressGroup (id : string).

Section serve.
Context `{UUIDLib} {St : Type} `{!AuthoredStore St, !StoreView St, !AuthoredStoreLaws St, !AuthoredReads St, !AuthoredReadsLaws St}.
Context (clock : nat → Z) (uuids : nat → UUID) (uuid_partial : string → UUID).

Definition serve (c : CondCall) (header : string) : Handler :=
  match c with
  | CPutRuleset i body => putRuleset id clock uuids None uuid_partial i header body
  | CDeleteRuleset i => deleteRuleset id None i header
  | CPutRule rid i body => putRule id clock uuids None uuid_partial rid i header body
  | CDeleteRule rid i => deleteRule id clock uuids None rid i header
  | CPutService i body => putService id clock None i header body
  | CDeleteService i => deleteService id None i header
  | CPutAddressGroup i body => putAddressGroup id clock None i header body
  | CDeleteAddressGroup i => deleteAddressGroup id None i header
  end.

(** The version that the object of a request has. *)
Definition versionOf (c : CondCall) (k : Content) (n : Z) : Prop :=
  match c with
  | CPutRuleset i _ | CDeleteRuleset i => ∃ u x, uuid_Parse i = Some u ∧ cRulesets k !! u = Some x ∧ rsVersion x = n
  | CPutRule rid i _ | CDeleteRule rid i =>
      ∃ ru u rs j x, uuid_Parse rid = Some ru ∧ uuid_Parse i = Some u ∧ cRulesets k !! ru = Some rs ∧
        list_find (λ r, ruleID r = u) (rsRules rs) = Some (j, x) ∧ ruleVersion x = n
  | CPutService i _ | CDeleteService i => ∃ u x, uuid_Parse i = Some u ∧ cServices k !! u = Some x ∧ svcVersion x = n
  | CPutAddressGroup i _ | CDeleteAddressGroup i => ∃ u x, uuid_Parse i = Some u ∧ cGroups k !! u = Some x ∧ agVersion x = n
  end.

(** The object of a request exists and holds the version. *)
Definition holdsVersion (c : CondCall) (version : string) (k : Content) : Prop :=
  match c with
  | CPutRuleset i _ | CDeleteRuleset i => ∃ u, uuid_Parse i = Some u ∧ rulesetAt u version k
  | CPutRule rid i _ | CDeleteRule rid i => ∃ ru u, uuid_Parse rid = Some ru ∧ uuid_Parse i = Some u ∧ ruleAt ru u version k
  | CPutService i _ | CDeleteService i => ∃ u, uuid_Parse i = Some u ∧ serviceAt u version k
  | CPutAddressGroup i _ | CDeleteAddressGroup i => ∃ u, uuid_Parse i = Some u ∧ groupAt u version k
  end.

Definition pureH (h : Handler (St := St)) : Prop :=
  ∀ w r w', valid (woStore w) → h w = (r, w') → valid (woStore w') ∧ content (woStore w') = content (woStore w).
(** A handler that refuses and changes nothing, or for which [P] held. *)
Definition condH (P : Content → Prop) (h : Handler (St := St)) : Prop :=
  ∀ w r w', valid (woStore w) → h w = (r, w') →
    valid (woStore w') ∧ (content (woStore w') = content (woStore w) ∧ 400 ≤ wrStatus r ∨ P (content (woStore w))).

Lemma problem_status e : 400 ≤ wrStatus (problemResponse (writeProblemFor e)).
Proof. destruct e as [f|e| |]; [|destruct e|..]; cbn; lia. Qed.

Lemma condH_refuse P p : 400 ≤ pbStatus (wpProblem p) → condH P (respond (problemResponse p)).
Proof. intros Hs w r w' Hv [= <- <-]. split; [done|]. by left. Qed.
Lemma condH_pure {A} P (m : Author St A) k : pure m → (∀ a, condH P (k a)) → condH P (orProblem m k).
Proof.
  intros Hm Hk w r w' Hv. unfold orProblem. destruct (m w) as [[a|e] w1] eqn:Em; destruct (Hm _ _ _ Hv Em) as [Hv1 Hc1].
  - intros Hx. destruct (Hk a _ _ _ Hv1 Hx) as [Hv2 Hc2]. rewrite Hc1 in Hc2. done.
  - intros [= <- <-]. split; [done|]. left. split; [done|apply problem_status].
Qed.
Lemma condH_write {A} P (m : Author St A) k : conditional P m → (∀ a, pureH (k a)) → condH P (orProblem m k).
Proof.
  intros Hm Hk w r w' Hv. unfold orProblem. destruct (m w) as [[a|e] w1] eqn:Em; destruct (Hm _ _ _ Hv Em) as (Hv1 & Hc1 & Hp).
  - intros Hx. destruct (Hk a _ _ _ Hv1 Hx) as [Hv2 _]. split; [done|]. right. by apply (Hp a).
  - intros [= <- <-]. split; [done|]. destruct Hc1 as [Hc|Hc]; [|by right]. left. split; [done|apply problem_status].
Qed.
Lemma condH_path P text k : (∀ u, uuid_Parse text = Some u → condH P (k u)) → condH P (pathUUID text k).
Proof. intros Hk. unfold pathUUID. destruct (uuid_Parse text); [by apply Hk|]. by apply condH_refuse. Qed.
Lemma condH_body {A} P (body : Decoded A) k : (∀ a, condH P (k a)) → condH P (decodeJSON body k).
Proof. intros Hk. destruct body; cbn; [by apply condH_refuse|by apply condH_refuse|apply Hk]. Qed.
Lemma condH_weaken (P Q : Content → Prop) h : (∀ c, P c → Q c) → condH P h → condH Q h.
Proof. intros Hpq Hh w r w' Hv He. destruct (Hh _ _ _ Hv He) as (? & [?|?]); split; auto. Qed.

Lemma pure_loadNames : pure (loadNames (St := St) id).
Proof. apply pure_bind; [apply pure_ListServices|]. intros. apply pure_bind; [apply pure_ListAddressGroups|]. intros. apply pure_ret. Qed.
Lemma pureH_respond r : pureH (respond r).
Proof. by intros w r' w' Hv [= <- <-]. Qed.
Lemma pureH_read {A} (m : Author St A) k : pure m → (∀ a, pureH (k a)) → pureH (orProblem m k).
Proof.
  intros Hm Hk w r w' Hv. unfold orProblem. destruct (m w) as [[a|e] w1] eqn:Em; destruct (Hm _ _ _ Hv Em) as [Hv1 Hc1].
  - intros Hx. destruct (Hk a _ _ _ Hv1 Hx) as [Hv2 Hc2]. by rewrite Hc2.
  - by intros [= <- <-].
Qed.
Lemma pureH_respondRuleset i st : pureH (respondRuleset id i st).
Proof. apply pureH_read; [apply pure_GetRuleset|]. intros. apply pureH_respond. Qed.
Lemma pureH_respondRule rid i st : pureH (respondRule id rid i st).
Proof. apply pureH_read; [apply pure_GetRuleset|]. intros rs. destruct (list_find _ _) as [[? ?]|]; apply pureH_respond. Qed.
Lemma pureH_respondService i st : pureH (respondService id i st).
Proof. apply pureH_read; [apply pure_store; apply get_service|]. intros. apply pureH_respond. Qed.
Lemma pureH_respondAddressGroup i st : pureH (respondAddressGroup id i st).
Proof. apply pureH_read; [apply pure_store; apply get_group|]. intros. apply pureH_respond. Qed.

Lemma serve_conditional c header version : ifMatch header = Some version → condH (holdsVersion c version) (serve c header).
Proof.
  intros Hm. destruct c; cbn [serve]; unfold putRuleset, deleteRuleset, putRule, deleteRule, putService, deleteService, putAddressGroup, deleteAddressGroup, withVersionOf;
    apply condH_path; intros u Hu; try (apply condH_path; intros u2 Hu2); rewrite Hm; unfold decodeRuleset, decodeRule, decodeService;
    try (apply condH_body; intros doc); try (apply condH_pure; [apply pure_loadNames|]; intros names).
  - apply (condH_weaken (rulesetAt u version)); [intros k Hk; exists u; done|]. apply condH_write; [exact (cond_UpdateRuleset clock uuids (withRulesetID u _) version)|]. intros. apply pureH_respondRuleset.
  - apply (condH_weaken (rulesetAt u version)); [intros k Hk; exists u; done|]. apply condH_write; [apply cond_DeleteRuleset|]. intros. apply pureH_respond.
  - apply (condH_weaken (ruleAt u u2 version)); [intros k Hk; exists u, u2; done|]. apply condH_write; [exact (cond_UpdateRule clock uuids u (withRuleID u2 _) version)|]. intros. apply pureH_respondRule.
  - apply (condH_weaken (ruleAt u u2 version)); [intros k Hk; exists u, u2; done|]. apply condH_write; [apply cond_DeleteRule|]. intros. apply pureH_respond.
  - apply (condH_weaken (serviceAt u version)); [intros k Hk; exists u; done|]. apply condH_write; [exact (cond_UpdateService clock (withServiceID u _) version)|]. intros. apply pureH_respondService.
  - apply (condH_weaken (serviceAt u version)); [intros k Hk; exists u; done|]. apply condH_write; [apply cond_DeleteService|]. intros. apply pureH_respond.
  - apply (condH_weaken (groupAt u version)); [intros k Hk; exists u; done|]. apply condH_write; [exact (cond_UpdateAddressGroup clock (withGroupID u _) version)|]. intros. apply pureH_respondAddressGroup.
  - apply (condH_weaken (groupAt u version)); [intros k Hk; exists u; done|]. apply condH_write; [apply cond_DeleteAddressGroup|]. intros. apply pureH_respond.
Qed.

Lemma holdsVersion_of c version k : holdsVersion c version k → ∃ n, versionOf c k n ∧ names version n.
Proof. destruct c; cbn; unfold rulesetAt, ruleAt, serviceAt, groupAt; naive_solver. Qed.

Lemma serve_unconditioned c header w r w' : ifMatch header = None → serve c header w = (r, w') → w' = w ∧ (wrStatus r = 428 ∨ wrStatus r = 404).
Proof.
  intros Hm. destruct c; cbn [serve]; unfold putRuleset, deleteRuleset, putRule, deleteRule, putService, deleteService, putAddressGroup, deleteAddressGroup, withVersionOf, pathUUID;
    rewrite Hm; repeat case_match; intros [= <- <-]; cbn; auto.
Qed.
End serve.

(** ** Claims *)


(** ** On the PostgreSQL store *)

#[global] Instance pg_reads `{UUIDLib} `{PgLib} : AuthoredReads PgState := {
  st_GetService id := onServer (λ sv, Store_GetService sv id);
  st_GetAddressGroup id := onServer (λ sv, Store_GetAddressGroup sv id);
}.
#[global] Instance pg_reads_laws `{UUIDLib, !UUIDLaws, PgLib, !PgLaws} : AuthoredReadsLaws PgState.
Proof.
  split; intros i s r s' Hv Hop; cbn in Hop; destruct (onServer_eq _ _ _ _ Hop) as (sv & Hx); apply reads_Ok in Hx as [E _]; cbn; rewrite E; done.
Qed.

Module ApiExample.
Import Uuid128 AuthoredExample.

Definition partial (_ : string) : UUID := uuid_Nil.
(** A service is deleted under a header. *)
Definition webID : string := uuid_String (of_Z 1).
Definition unused : World PgState := runCalls id clock ids None [CallCreateService web] start.
Definition removeUnused (header : string) : WriteResponse * World PgState := serve clock ids partial (CDeleteService webID) header unused.

Lemma seven : ifMatch (versionTag "7") = Some "7".
Proof. vm_compute. reflexivity. Qed.


(** A stale version is refused with the current one; the version a read returned is accepted; a
    header without a version is refused.  The empty tag, two quotes, is neither absent nor the
    wildcard, and its version is empty, which the service takes for no condition. *)
Definition emptyTag : string := versionTag "".
Example removals :
  wrStatus (removeUnused (versionTag "7")).1 = 412 ∧ wrStatus (removeUnused (versionTag "1")).1 = 204 ∧
  wrStatus (removeUnused "*").1 = 428 ∧ wrStatus (removeUnused "").1 = 428.
Proof. vm_compute. done. Qed.
Example empty_tag_unconditional : ifMatch emptyTag = Some "" ∧ wrStatus (removeUnused emptyTag).1 = 204.
Proof. vm_compute. done. Qed.
End ApiExample.
